(* ===== verification/_CoqProject ===== *)
-Q . S2P
Prelude.v
Numbers.v
Status.v
Servable.v
LoaderHarness.v
VersionPolicy.v
Resources.v
BasicManager.v
ManagerSystem.v
AspiredVersionsManager.v
AspiredRollout.v
StateMonitor.v
StoragePathSource.v
SourceAdapter.v
CachingManager.v
BatchScheduler.v
Coding.v
OrderedCode.v
Crc32c.v
InputStream.v
RecordIO.v
Blocks.v
Tables.v
Base64.v
FlatMap.v
BFCAllocator.v
BFCHeap.v
BFCRuns.v
BFCSafety.v
BFCDebug.v
AllocatorRetry.v
DynamicPtr.v
ServableHandles.v
EventBus.v
Observers.v
TargetBase.v
PeriodicFunction.v
EdgeSet.v
Graph.v
GraphInvariant.v
GraphOps.v
GraphSearch.v
GraphAlgorithms.v
Cancellation.v
Hash.v
DeviceNames.v
RendezvousKeys.v
Rendezvous.v
PendingCounts.v
DataTypes.v
Activation.v
Dataflow.v
Executor.v
Propagation.v
ExecutorInvariant.v
ExecutorRuns.v
GraphView.v
Executions.v
