(* ===== verification/Prelude.v ===== *)
(** * A verification of the serving lifecycle and of the core library it stands on

    The repository holds TensorFlow and TensorFlow Serving.  This library models
    the parts with the program's own logic: the lifecycle of servables in
    [tensorflow_serving] (which versions of which model are loaded, served and
    unloaded, and how that survives errors and concurrency), and below it the
    encodings, checksums, record files and hash maps of [tensorflow/core/lib],
    the device memory allocator of [tensorflow/core/common_runtime] and the graphs of
    operations of [tensorflow/core/graph].

    ** The parts and how they interact

    A source ([FileSystemStoragePathSource]) polls a file system and tells its
    target which versions of each servable to aspire to.  The target is the
    [AspiredVersionsManager]: it queues the lists, turns them into managed
    servables of a [BasicManager], and in every round of its periodic function
    flushes what is finished, handles the queue, and performs the one action its
    [AspiredVersionPolicy] chooses.  The [BasicManager] keeps a [LoaderHarness],
    a state machine around a [Loader], for each servable; executors run load and
    unload requests concurrently, in a decision phase (serialised, where the
    [ResourceTracker] reserves resources) and an execution phase; the serving map
    gives clients handles to what is ready, and an unload waits until the handles
    from the old map are gone.  Every transition is published on an [EventBus], and
    the [ServableStateMonitor] keeps the published states and calls clients back.
    Between sources and managers stand adapters, which turn the data of each
    version, and routers, which choose the target of each list.  The
    [CachingManager] is the other client of a [BasicManager]: it loads what is
    asked for when it is asked for.  The [SharedBatchScheduler] puts the requests
    to a loaded model into batches that threads take from its queues.
    The core library provides [Status] values, number parsing, varint and
    fixed-width coding, the order-preserving code of keys, CRC-32C, input streams,
    record files and sorted tables.  The [BFCAllocator] hands out the memory of a
    device to the operations of a loaded model, from regions it takes from a
    [SubAllocator]; its [AllocatorRetry] helper lets a failed request wait until
    memory is freed.  A [Graph] holds the operations of a model: nodes and edges with
    ids, in an arena whose places are used again; every runtime of the repository
    builds, prunes and orders such graphs.  An [Executor] runs a graph: it prepares an
    item for each node, and in each step its threads run the kernels of nodes whose inputs
    have come, with a count per node in the packed array [PendingCounts].  The nodes that run
    on different devices pass tensors through a [Rendezvous], whose keys are made of the names
    of the devices, and a step that is given up is stopped by the callbacks of its
    [CancellationManager].

    ** The files

    - [Prelude]: machine integers as [Z] with explicit wrap-around, tactics and
      shared lemmas.
    - [Numbers]: [core/lib/strings/numbers.cc], integer parsing and printing.
      Strings are lists of [ascii].
    - [Status]: [core/lib/core/status.{h,cc}], [errors.h]; the monad [SM] of
      stateful operations that return a status, with [;;?] for
      [TF_RETURN_IF_ERROR].
    - [Servable]: [core/servable_id.h], [servable_state.h], [servable_data.h],
      [manager.h]: the value types.
    - [LoaderHarness]: [core/loader_harness.{h,cc}] and [util/retrier.cc].  The
      state is the record [LoaderHarness]; each method is a definition; the
      loader's answers and the cancellation polls are arguments, and the calls
      made on the loader are recorded so that the use of the loader can be
      compared with the contract of [core/loader.h].
    - [VersionPolicy]: [core/aspired_version_policy.{h,cc}] and the availability-
      and resource-preserving policies; the class [LawfulPolicy] is what the
      managers rely on.
    - [Resources]: [resources/resource_util.cc] and [resource_tracker.cc] on
      allocations as lists of entries with 64-bit quantities.
    - [BasicManager]: [core/basic_manager.{h,cc}].  The managed harnesses are a
      map from addresses, so that the sharing of pointers in the code and the
      danger of using a freed harness are visible.
    - [ManagerSystem]: the concurrent execution of the manager's requests.  A
      [Thread] is a program point of [HandleLoadOrUnloadRequest]; [run_thread]
      executes up to the next point where locks are released; [step] interleaves
      threads with public calls.  Updates of the serving map do not wait here for
      clients; [ServableHandles] has the waiting.
    - [AspiredVersionsManager]: [core/aspired_versions_manager.{h,cc}];
      [AspiredRollout]: calls of its periodic function when requests run inline, as with
      the default options; the class [SettlingPolicy] is what convergence asks of a policy.
    - [StateMonitor]: [core/servable_state_monitor.{h,cc}].
    - [StoragePathSource]:
      [sources/storage_path/file_system_storage_path_source.{h,cc,proto}] and
      path joining; the file system is a parameter.
    - [SourceAdapter]: [core/source_adapter.h], [source_router.h],
      [static_source_router.h] and [dynamic_source_router.h]; the class
      [SourceRouter] is what the base class asks of the two routers.
    - [CachingManager]: [core/caching_manager.{h,cc}].  A [Caller] is a program
      point of a call of [GetUntypedServableHandle]; the calls are interleaved with each
      other and with the threads of [ManagerSystem].
    - [BatchScheduler]: [tensorflow/core/kernels/batching_util], the batches,
      [shared_batch_scheduler.h] and its queues; the batch threads and the
      destructors of queue handles are interleaved.
    - [Coding]: [core/lib/core/coding.{h,cc}] and [raw_coding.h].  Byte strings
      are lists of [Z].
    - [OrderedCode]: [core/lib/strings/ordered_code.cc]; the class
      [OrderedCodec] is what a writer and a reader promise together.
    - [Crc32c]: [core/lib/hash/crc32c.{h,cc}], the portable routine.
    - [InputStream]: [core/lib/io/random_inputstream.{h,cc}] and
      [buffered_inputstream.cc] over a file that meets the class
      [RandomAccessFile].
    - [RecordIO]: [core/lib/io/record_writer.cc] and [record_reader.{h,cc}].
    - [Blocks]: [core/lib/io/block_builder.cc], [block.cc] and [iterator.{h,cc}];
      the class [Iterator] has the virtual methods, and [Refines] says that an
      iterator is a position in a list of entries.
    - [Tables]: [core/lib/io/format.{h,cc}], [table_builder.cc], [table.cc] and
      [two_level_iterator.cc], over files that meet [WritableFile] and
      [RandomAccessFile] and a compressor that meets [Snappy].
    - [Base64]: [core/lib/strings/base64.cc].
    - [FlatMap]: [core/lib/gtl/flatrep.h], [flatmap.h] and [flatset.h]; buckets
      of eight entries with their markers, the hash function as the class
      [HashKey].
    - [BFCAllocator]: [core/common_runtime/bfc_allocator.{h,cc}].  The state is
      the record [BFCAllocator] around a [Pool]: the chunks with their links, the
      bins, the regions with their tables of handles, the statistics; the
      sub-allocator is a class with its laws.
      A failed [CHECK] and an access outside a vector are errors of the monad.
    - [BFCHeap]: the abstract heap, a list of regions that are lists of free and
      used blocks, and the relation [rep] that the pool operations keep to it.
    - [BFCRuns]: the growth of the pool, its invariant [Inv] and what a client
      must obey ([Client]); [BFCSafety]: the runs of the allocator and their
      theorems; [BFCDebug]: [get_bin_debug_info], [DumpMemoryLog] and
      [RenderOccupancy].
    - [AllocatorRetry]: [core/common_runtime/allocator_retry.{h,cc}], with the
      allocation function, the clock and the wake-ups as arguments.
    - [DynamicPtr]: [util/fast_read_dynamic_ptr.h], the pointer to the serving map,
      with the control blocks of its shared pointers.
    - [ServableHandles]: the threads of [ManagerSystem] with clients that keep
      handles ([core/servable_handle.h]); the update of the serving map, one step
      there, is here a run of [DynamicPtr] with [mu_] held.
    - [EventBus]: [util/event_bus.h], and the monitor as a subscriber; [Observers]:
      [util/observer.h]; [TargetBase]: [core/target.h], with its two locks;
      [PeriodicFunction]: [batching_util/periodic_function.{h,cc}].
    - [EdgeSet]: [core/graph/edgeset.{h,cc}], an array of four pointers or a tree.
    - [Graph]: [core/graph/graph.{h,cc}], with addresses of nodes and edges; a failed
      [CHECK] and a bad access are [None].  [GraphInvariant]: the invariant [wf], and
      that the operations on edges and the allocation of nodes keep it; [GraphOps]: the specification
      [Spec] on ids, the abstraction [abs], and the refinement.
    - [GraphSearch]: depth-first search with an explicit stack on a successor
      function; [GraphAlgorithms]: [core/graph/algorithm.{h,cc}] on top of it.
    - [Cancellation]: [core/framework/cancellation.{h,cc}]; a [Thread] is a call of
      [StartCancel] or [DeregisterCallback], cut where it does not hold the lock.
    - [Hash]: [core/lib/hash/hash.{h,cc}], with the instances of [HashKey] that its
      functors are.
    - [DeviceNames]: [core/util/device_name_utils.{h,cc}] and the functions of
      [core/lib/strings/str_util.cc] below it; the equality of the code is the setoid
      equality of [ParsedName], and specification is an order up to it.
    - [RendezvousKeys]: the keys of [core/framework/rendezvous.cc]; [Rendezvous]: its
      local rendezvous.  A call is one critical section, and the callbacks it makes are
      part of its result.
    - [PendingCounts]: [core/common_runtime/pending_counts.h], the counts of a node in
      the bit fields of one byte or of a larger struct; the class [StructLayout] is what
      a compiler promises of these, and the class [NodeCounter] what the executor relies on.
    - [DataTypes]: [core/framework/types.{h,cc,proto}].
    - The executor, [core/common_runtime/executor.cc], on graphs without loops.
      [Activation]: [ActivateNodes], the arrival of a value along an edge.  [Executor]: the
      state of a step and its threads; a [Thread] is a program point of [Process] or of the
      callback of an asynchronous kernel, and [step] lets one of them go on.  [GraphView]:
      [GraphView::Initialize] and [ExecutorImpl::Initialize], and that what they make of a
      well-formed graph is the [view_ok] that the others assume; [Executions]: both together.
      [Dataflow] is the specification, a machine that runs one node at a time;
      [Propagation], [ExecutorInvariant] and [ExecutorRuns] are the refinement.

    ** What is shown

    - Managers: only loaded servables are served and no
      freed harness is used; dropping a servable never drops a loaded one or a harness
      that a request will use; the
      counter of executions is exact; an accepted unload succeeds; the sequential
      handler is one of the schedules; the destructor unloads everything.  Queued
      aspirations are taken over exactly, flushing removes exactly what is
      finished, the policy's action is always accepted, and calls of the periodic function
      with inline executors converge to serving exactly the versions asked for, when loads
      succeed.
    - Handles: while a client has a handle its servable stays loaded, an update of
      the serving map waits for handles of the old map and for nothing else, and
      without clients it is the step of [ManagerSystem]; the threads of the manager do not
      run for ever, and they stop only when every request has been answered exactly once
      or an update waits for a handle that a client keeps; the pointer below it never
      uses freed memory and hands every object back once, unless objects are null.
    - Callbacks: a monitor on a bus handles exactly the states published while it is
      subscribed; a list of observers notifies those that exist; after [Detach] a
      target is not called and there is no deadlock; a periodic function keeps its
      interval.
    - Caching manager: a servable is loaded at most once whatever calls run
      concurrently, a call returns the loaded servable or the failure of its load,
      every call returns unless a client keeps a handle of an old map, and when none is
      under way the map of mutexes has an entry for exactly the servables whose load
      failed.
    - Adapters and routers: a router delivers each list unchanged to the one
      target its route names; bad route maps are refused and change nothing.
    - Batching: the queues keep their invariants, no task is lost or duplicated,
      capacities are exact where the limits allow it, a handle's destructor
      waits for all its tasks, and a thread takes the first batch there is.
    - Policies: what each policy answers for any versions; so the one does not unload the
      last loaded version while some version is aspired, and the other loads only when
      what is not aspired has ended.
    - Harness and retry: the loader contract is obeyed whatever is called, states
      follow the lifecycle, and the retry loop ends with the last status.
    - Resources: each operation is characterised by quantities, and a reservation
      that does not overflow fits into the total.
    - Monitor and source: the monitor reports the last states and answers each
      client once; the source aspires to what its policy names and to nothing of a
      servable that is no longer configured.
    - Library: parsers accept exactly the numerals of their range; varints,
      ordered codes and records round-trip; ordered codes keep the order of keys,
      also of several parts; the table-driven checksum is CRC-32C and detects
      every change within four bytes, hence a corrupted record or block; a
      buffered stream is a position in its file (for lines: of a file without carriage
      returns).
    - Tables: the iterator over a block or a table that was built is a position
      in the entries that were added, lookups find every key, nothing is written
      after an error and the error is reported; on arbitrary bytes the loops of
      the block iterator end, and entries stay within the block unless
      their lengths overflow.
    - Base64: the decoder is the conversion of base 64 to base 256 on exactly
      the accepted strings, and undoes the encoder.
    - Flat maps: any sequence of operations behaves as on a finite map, an
      iteration visits each entry once, and a map that is cleared after
      erasures keeps them counted, so that a search can run for ever.
    - Allocator: every run of allocations and frees refines best fit with
      coalescing on the abstract heap; live buffers are aligned, disjoint and
      inside memory of the device; no check of the code fails; the statistics are
      exact; when everything is freed each region is one free chunk again; frees
      of pointers that are not live are detected; when the device has
      no memory left, the loop that asks it for less and less ends exactly for
      requests above 2304 bytes; the diagnostics pass their checks; a retry ends by its
      deadline.
    - Cancellation: a callback begins at most once and never after it was deregistered;
      who is told that a callback was not deregistered may free what it uses; every call
      returns.
    - Rendezvous: the requests of a channel are answered by its messages in order until
      an abort, after which each has been answered once; the references on device
      contexts are balanced; keys of names without semicolons are parsed to what they were
      made from and differ for different channels.
    - Executor: the packed counts are a map of counts; the preparation of a graph gives its
      edges, disjoint places for inputs and the right initial counts; whatever the
      schedule, a step computes an evaluation of the graph, calls each kernel at most once and
      with the values of its edges, aborts once with the status of a node that failed, ends
      after at most ten turns per node with the state deleted and [done_cb_] called once, and
      has the same results as any other schedule in which the kernels do the same, unless a
      merge had two live inputs.
    - Device names: printing and parsing are inverse on names whose numbers fit, merging
      gives the least specific common specification exactly when there is one.
    - Graphs: an edge set refines a finite set; any operations of a client on a new
      graph fail no check and refine a graph of ids; the name of a device is read
      back; the reverse post order is a topological order up to cycles; pruning keeps
      exactly the nodes on a path from the source to a given one, where the source leads
      to every node; the source and sink edges tie every
      node.

    ** Bounds and fuel

    Loops that are not structural take fuel from their input, with a lemma that
    it suffices: nine rounds for a 64-bit varint, the length of a string for the
    scanners of [OrderedCode], the length of the data for the loops of [Extend],
    [max_num_retries + 1] tries for the retry loop, one round more than the bytes
    asked for in a buffered read.  [ReadLine] and [ReadAll] take the fuel as an
    argument and return [None] without enough; the theorems show that more than
    the length of the file is enough.  The bisection of a block iterator takes as
    many rounds as there are restart points and its linear search as many as the
    block has bytes, and both are [None] where that is not enough, which is shown not to
    happen; the two-level iterator skips at most as many blocks as the
    index has bytes, since every entry has some.  Tables are assumed to have
    blocks and an index below 2^32 bytes, which is what their 32-bit offsets can
    address.  A probe of
    a flat map looks at no more entries than there are; the bucket count is found
    within 29 doublings, where the 32-bit product of the code would wrap.  The
    allocator asks for nine tenths of a region at most 512 times, which is
    enough below 2^39 bytes, doubles its region size at most 64 times, and walks
    over no more chunks than there are; the memory limit is below 2^39 bytes
    because the index of a chunk is an [int], and there are fewer than 2^63
    allocations because their number is 64-bit.  The retry loop takes one round
    per reading of the clock until the deadline.  A search of a graph takes a round for
    each start, each node and each neighbour; the breadth-first search of pruning one
    for each start and each node; the removal of a node one for each of its edges.  A graph
    that is run has at most 2^25 nodes and fewer than 2^29 edges, so that the offsets and
    the counts of the executor fit their fields.  A hash and
    the parser of device names take at most as many rounds as there are characters.  Lists,
    maps and schedules are unbounded.

    ** What is not modelled

    Logging, debug-only assertions, destructors other than those of the manager
    and of queue handles, the threads and timers of the platform (their effect is
    the set of schedules), compression streams, the accelerated checksum routine, and the hash functions of the
    standard library.  Of the serving code request logging, the adaptive and the
    streaming batch schedulers, the TensorFlow servables and the servers are left
    out; of TensorFlow everything beyond the library files named above.  Of the executor the
    frames of loops, reference tensors, allocator attributes and statistics are left out; a
    kernel is any function of its node, inputs and deadness, possibly another one in each
    step.

    ** Plan

    Next: the frames of loops and the reference tensors of the executor; path names and the
    other string utilities; the remaining batch schedulers; the compression streams against an interface of
    zlib; the remaining input buffers. *)
From Stdlib Require Export ZArith Lia Ascii.
From stdpp Require Export base list list_numbers gmap strings pretty numbers sorting relations.

(** * Machine integers

    A fixed-width C++ integer is a [Z]; the wrap-around of the width is applied
    wherever the source computes at that width. *)

Definition u32 (z : Z) : Z := (z mod 2 ^ 32)%Z.
Definition u64 (z : Z) : Z := (z mod 2 ^ 64)%Z.
Definition i64 (z : Z) : Z := ((z + 2 ^ 63) mod 2 ^ 64 - 2 ^ 63)%Z.

Definition i32 (z : Z) : Z := ((z + 2 ^ 31) mod 2 ^ 32 - 2 ^ 31)%Z.

Definition is_u32 (z : Z) : Prop := (0 <= z < 2 ^ 32)%Z.
Definition is_u64 (z : Z) : Prop := (0 <= z < 2 ^ 64)%Z.
Definition is_i64 (z : Z) : Prop := (- 2 ^ 63 <= z < 2 ^ 63)%Z.
Definition is_i32 (z : Z) : Prop := (- 2 ^ 31 <= z < 2 ^ 31)%Z.
Definition is_byte (z : Z) : Prop := (0 <= z < 2 ^ 8)%Z.

(** * Tactics *)

(** Destructs the scrutinee of the first [match] or [if] found in the goal. *)
Ltac cases :=
  repeat (case_match; simplify_eq/=; try done).

(** Splits boolean hypotheses into the propositions they decide. *)
Ltac bool_hyps :=
  repeat match goal with
  | H : _ && _ = true |- _ => apply andb_true_iff in H as [? ?]
  | H : _ || _ = false |- _ => apply orb_false_iff in H as [? ?]
  | H : negb _ = true |- _ => apply negb_true_iff in H
  | H : negb _ = false |- _ => apply negb_false_iff in H
  | H : bool_decide _ = true |- _ => apply bool_decide_eq_true in H
  | H : bool_decide _ = false |- _ => apply bool_decide_eq_false in H
  end.

Create HintDb tension.
Create Rewrite HintDb tension.

(** * Integer lemmas *)

Lemma u32_range (z : Z) : is_u32 (u32 z).
Proof. apply Z.mod_pos_bound. lia. Qed.

Lemma u64_range (z : Z) : is_u64 (u64 z).
Proof. apply Z.mod_pos_bound. lia. Qed.

Lemma u32_small (z : Z) : is_u32 z → u32 z = z.
Proof. apply Z.mod_small. Qed.

Lemma u64_small (z : Z) : is_u64 z → u64 z = z.
Proof. apply Z.mod_small. Qed.

Lemma i32_small (z : Z) : is_i32 z → i32 z = z.
Proof. unfold is_i32, i32. intros H. rewrite Z.mod_small; lia. Qed.

Lemma i64_small (z : Z) : is_i64 z → i64 z = z.
Proof. unfold is_i64, i64. intros H. rewrite Z.mod_small by lia. lia. Qed.

Lemma u64_u64 (z : Z) : u64 (u64 z) = u64 z.
Proof. apply Z.mod_mod. lia. Qed.

Lemma u64_add_l (a b : Z) : u64 (u64 a + b) = u64 (a + b).
Proof. unfold u64. by rewrite Zplus_mod_idemp_l. Qed.

Lemma u64_add_r (a b : Z) : u64 (a + u64 b) = u64 (a + b).
Proof. unfold u64. by rewrite Zplus_mod_idemp_r. Qed.

#[export] Hint Resolve u32_range u64_range : tension.
#[export] Hint Rewrite u64_u64 u64_add_l u64_add_r : tension.

(** An element of a list is replaced, up to the order. *)
Lemma insert_Permutation {B} (l : list B) k x y : l !! k = Some x → <[k := y]> l ≡ₚ y :: delete k l.
Proof.
  intros Hk. pose proof (lookup_lt_Some _ _ _ Hk). rewrite insert_take_drop, delete_take_drop by done.
  by rewrite Permutation_middle.
Qed.
