(* ===== verification/Numbers.v ===== *)
(** Decimal conversion: [tensorflow/core/lib/strings/numbers.cc].

    A [StringPiece] is the list of its characters.  The integers are kept at the
    widths of the source: intermediate results of the parsers are [int64] or
    [uint64] and their bounds checks are those of the code; the theorems show
    that nothing overflows. *)
From S2P Require Import Prelude.

(** * Characters *)

Definition code_of (c : ascii) : Z := Z.of_N (N_of_ascii c).

(** [isdigit] and [isspace] in the C locale. *)
Definition isdigit (c : ascii) : bool := (48 <=? code_of c)%Z && (code_of c <=? 57)%Z.
Definition isspace (c : ascii) : bool :=
  (code_of c =? 32)%Z || ((9 <=? code_of c)%Z && (code_of c <=? 13)%Z).

Definition zero : ascii := "000"%char.
Definition minus : ascii := "-"%char.

(** [SafeFirstChar] and [SkipSpaces]. *)
Definition SafeFirstChar (str : list ascii) : ascii :=
  match str with [] => zero | c :: _ => c end.

Fixpoint SkipSpaces (str : list ascii) : list ascii :=
  match str with
  | c :: rest => if isspace c then SkipSpaces rest else str
  | [] => []
  end.

(** [str.Consume("-")]. *)
Definition ConsumeMinus (str : list ascii) : bool * list ascii :=
  match str with
  | c :: rest => if Ascii.eqb c minus then (true, rest) else (false, str)
  | [] => (false, [])
  end.

(** * Printing *)

(** The do-while loop of [FastUInt64ToBufferLeft] and [FastUInt32ToBufferLeft]:
    the characters written, least significant first; [fuel] counts the digits. *)
Fixpoint digits_loop (fuel : nat) (i : Z) : list ascii :=
  let c := ascii_of_N (Z.to_N (i mod 10 + 48)) in
  match fuel with
  | O => [c]
  | S fuel => if (i / 10 >? 0)%Z then c :: digits_loop fuel (i / 10) else [c]
  end.

(** [FastUInt64ToBufferLeft] and [FastUInt32ToBufferLeft]: twenty and ten digits
    are enough. *)
Definition FastUInt64ToBufferLeft (i : Z) : list ascii := reverse (digits_loop 19 i).
Definition FastUInt32ToBufferLeft (i : Z) : list ascii := reverse (digits_loop 9 i).

(** [FastInt64ToBufferLeft] and [FastInt32ToBufferLeft]: the negation is unsigned. *)
Definition FastInt64ToBufferLeft (i : Z) : list ascii :=
  let u := u64 i in
  if (i <? 0)%Z then minus :: FastUInt64ToBufferLeft (u64 (0 - u))
  else FastUInt64ToBufferLeft u.

Definition FastInt32ToBufferLeft (i : Z) : list ascii :=
  let u := u32 i in
  if (i <? 0)%Z then minus :: FastUInt32ToBufferLeft (u32 (0 - u))
  else FastUInt32ToBufferLeft u.

(** * Parsing *)

Definition kint64max : Z := 2 ^ 63 - 1.
Definition kint64min : Z := - 2 ^ 63.
Definition kuint64max : Z := 2 ^ 64 - 1.
Definition kint32max : Z := 2 ^ 31 - 1.
Definition kuint32max : Z := 2 ^ 32 - 1.

(** The digit loops: they stop at the first character that is not a digit, or
    with [None] where the code returns [false]. *)

(** [safe_strto64], sign 1, and [safe_strtou64]. *)
Fixpoint digits_up (vlimit result : Z) (str : list ascii) : option (Z * list ascii) :=
  match str with
  | c :: rest =>
      if isdigit c then
        let digit := (code_of c - 48)%Z in
        if (Z.quot (vlimit - digit) 10 <? result)%Z then None
        else digits_up vlimit (result * 10 + digit) rest
      else Some (result, str)
  | [] => Some (result, [])
  end.

(** [safe_strto64], sign -1. *)
Fixpoint digits_down (vlimit result : Z) (str : list ascii) : option (Z * list ascii) :=
  match str with
  | c :: rest =>
      if isdigit c then
        let digit := (code_of c - 48)%Z in
        if (Z.quot (vlimit + digit) 10 >? result)%Z then None
        else digits_down vlimit (result * 10 - digit) rest
      else Some (result, str)
  | [] => Some (result, [])
  end.

(** [safe_strto32] and [safe_strtou32]: the check comes after the addition. *)
Fixpoint digits_check (vmax result : Z) (str : list ascii) : option (Z * list ascii) :=
  match str with
  | c :: rest =>
      if isdigit c then
        let result := (result * 10 + code_of c - 48)%Z in
        if (result >? vmax)%Z then None else digits_check vmax result rest
      else Some (result, str)
  | [] => Some (result, [])
  end.

(** The common end of the four functions. *)
Definition finish (r : option (Z * list ascii)) : option Z :=
  match r with
  | None => None
  | Some (result, str) =>
      match SkipSpaces str with [] => Some result | _ :: _ => None end
  end.

Definition safe_strto64 (str : list ascii) : option Z :=
  let '(negative, str) := ConsumeMinus (SkipSpaces str) in
  if negb (isdigit (SafeFirstChar str)) then None
  else finish (if negative then digits_down kint64min 0 str else digits_up kint64max 0 str).

Definition safe_strtou64 (str : list ascii) : option Z :=
  let str := SkipSpaces str in
  if negb (isdigit (SafeFirstChar str)) then None
  else finish (digits_up kuint64max 0 str).

Definition safe_strto32 (str : list ascii) : option Z :=
  let '(negative, str) := ConsumeMinus (SkipSpaces str) in
  let vmax := if negative then (kint32max + 1)%Z else kint32max in
  if negb (isdigit (SafeFirstChar str)) then None
  else (λ result, (result * (if negative then -1 else 1))%Z) <$> finish (digits_check vmax 0 str).

Definition safe_strtou32 (str : list ascii) : option Z :=
  let str := SkipSpaces str in
  if negb (isdigit (SafeFirstChar str)) then None
  else finish (digits_check kuint32max 0 str).

(** * Specification *)

(** The number a list of digits denotes, most significant first, after [acc]. *)
Definition decimal (acc : Z) (ds : list ascii) : Z :=
  foldl (λ n c, (n * 10 + (code_of c - 48))%Z) acc ds.

(** A decimal numeral: digits between spaces. *)
Inductive numeral : list ascii → Z → Prop :=
  | numeral_intro sp ds sp' :
      Forall (λ c, isspace c = true) sp → Forall (λ c, isspace c = true) sp' →
      ds ≠ [] → Forall (λ c, isdigit c = true) ds →
      numeral (sp ++ ds ++ sp') (decimal 0 ds).

(** The same with a minus sign before the digits. *)
Inductive negative_numeral : list ascii → Z → Prop :=
  | negative_intro sp ds sp' :
      Forall (λ c, isspace c = true) sp → Forall (λ c, isspace c = true) sp' →
      ds ≠ [] → Forall (λ c, isdigit c = true) ds →
      negative_numeral (sp ++ minus :: ds ++ sp') (- decimal 0 ds).

(** * Lemmas *)

Lemma isdigit_range c : isdigit c = true ↔ (48 <= code_of c <= 57)%Z.
Proof. unfold isdigit. rewrite andb_true_iff, !Z.leb_le. lia. Qed.

Lemma isspace_not_digit c : isspace c = true → isdigit c = false.
Proof.
  unfold isspace. intros H. apply not_true_iff_false. rewrite isdigit_range.
  apply orb_true_iff in H as [?%Z.eqb_eq|[?%Z.leb_le ?%Z.leb_le]%andb_true_iff]; lia.
Qed.

Lemma minus_not_digit : isdigit minus = false ∧ isspace minus = false.
Proof. done. Qed.

Lemma decimal_acc acc ds :
  decimal acc ds = (acc * 10 ^ Z.of_nat (length ds) + decimal 0 ds)%Z.
Proof.
  unfold decimal. revert acc. induction ds as [|c ds IH]; intros acc;
    cbn [foldl length]; [lia|].
  rewrite IH, (IH (0 * 10 + (code_of c - 48))%Z).
  replace (Z.of_nat (S (length ds))) with (Z.of_nat (length ds) + 1)%Z by lia.
  rewrite Z.pow_add_r by lia. lia.
Qed.

Lemma decimal_mono acc ds :
  Forall (λ c, isdigit c = true) ds → (0 <= acc)%Z → (acc <= decimal acc ds)%Z.
Proof.
  intros Hds. revert acc. induction Hds as [|c ds Hc _ IH]; intros acc Hacc; simpl; [lia|].
  apply isdigit_range in Hc. specialize (IH (acc * 10 + (code_of c - 48))%Z). lia.
Qed.

(** A list without a leading digit. *)
Definition no_digit (str : list ascii) : Prop := isdigit (SafeFirstChar str) = false.

Lemma digits_stop_up v r str : no_digit str → digits_up v r str = Some (r, str).
Proof. unfold no_digit. destruct str as [|c str]; simpl; [done|]. by intros ->. Qed.

Lemma digits_stop_check v r str : no_digit str → digits_check v r str = Some (r, str).
Proof. unfold no_digit. destruct str as [|c str]; simpl; [done|]. by intros ->. Qed.

Lemma digits_stop_down v r str : no_digit str → digits_down v r str = Some (r, str).
Proof. unfold no_digit. destruct str as [|c str]; simpl; [done|]. by intros ->. Qed.

(** The loop with the check before the step computes the number, if it fits. *)
Lemma digits_up_spec vlimit ds rest r :
  Forall (λ c, isdigit c = true) ds → no_digit rest → (9 <= vlimit)%Z → (0 <= r <= vlimit)%Z →
  digits_up vlimit r (ds ++ rest) =
  if (decimal r ds <=? vlimit)%Z then Some (decimal r ds, rest) else None.
Proof.
  intros Hds Hrest Hv. revert r. induction Hds as [|c ds Hc Hds IH]; intros r Hr.
  - simpl. rewrite digits_stop_up by done. by rewrite (proj2 (Z.leb_le r vlimit)) by lia.
  - cbn [digits_up app]. rewrite Hc. apply isdigit_range in Hc.
    change (decimal r (c :: ds)) with (decimal (r * 10 + (code_of c - 48)) ds).
    rewrite Z.quot_div_nonneg by lia.
    pose proof (Z.div_mod (vlimit - (code_of c - 48)) 10).
    pose proof (Z.mod_pos_bound (vlimit - (code_of c - 48)) 10).
    destruct (Z.ltb_spec ((vlimit - (code_of c - 48)) / 10) r).
    + pose proof (decimal_mono (r * 10 + (code_of c - 48)) ds Hds) as Hm.
      rewrite (proj2 (Z.leb_gt _ _)); [done|].
      lia.
    + apply IH. lia.
Qed.

(** The loop that counts down computes the opposite. *)
Lemma digits_down_spec vlimit ds rest r :
  Forall (λ c, isdigit c = true) ds → no_digit rest → (9 <= vlimit)%Z → (0 <= r <= vlimit)%Z →
  digits_down (- vlimit) (- r) (ds ++ rest) =
  if (decimal r ds <=? vlimit)%Z then Some ((- decimal r ds)%Z, rest) else None.
Proof.
  intros Hds Hrest Hv. revert r. induction Hds as [|c ds Hc Hds IH]; intros r Hr.
  - simpl. rewrite digits_stop_down by done. by rewrite (proj2 (Z.leb_le r vlimit)) by lia.
  - cbn [digits_down app]. rewrite Hc. apply isdigit_range in Hc.
    change (decimal r (c :: ds)) with (decimal (r * 10 + (code_of c - 48)) ds).
    replace (- vlimit + (code_of c - 48))%Z with (- (vlimit - (code_of c - 48)))%Z by lia.
    rewrite Z.quot_opp_l, Z.quot_div_nonneg by lia.
    pose proof (Z.div_mod (vlimit - (code_of c - 48)) 10).
    pose proof (Z.mod_pos_bound (vlimit - (code_of c - 48)) 10).
    destruct (Z.gtb_spec (- ((vlimit - (code_of c - 48)) / 10)) (- r)) as [Hlt|Hge].
    + pose proof (decimal_mono (r * 10 + (code_of c - 48)) ds Hds) as Hm.
      rewrite (proj2 (Z.leb_gt _ _)); [done|]. lia.
    + replace (- r * 10 - (code_of c - 48))%Z with (- (r * 10 + (code_of c - 48)))%Z by lia.
      apply IH. lia.
Qed.

(** The loop with the check after the step. *)
Lemma digits_check_spec vmax ds rest r :
  Forall (λ c, isdigit c = true) ds → no_digit rest → (0 <= r <= vmax)%Z →
  digits_check vmax r (ds ++ rest) =
  if (decimal r ds <=? vmax)%Z then Some (decimal r ds, rest) else None.
Proof.
  intros Hds Hrest. revert r. induction Hds as [|c ds Hc Hds IH]; intros r Hr.
  - simpl. rewrite digits_stop_check by done. by rewrite (proj2 (Z.leb_le r vmax)) by lia.
  - cbn [digits_check app]. rewrite Hc. apply isdigit_range in Hc.
    change (decimal r (c :: ds)) with (decimal (r * 10 + (code_of c - 48)) ds).
    replace (r * 10 + code_of c - 48)%Z with (r * 10 + (code_of c - 48))%Z by lia.
    destruct (Z.gtb_spec (r * 10 + (code_of c - 48)) vmax).
    + pose proof (decimal_mono (r * 10 + (code_of c - 48)) ds Hds) as Hm.
      rewrite (proj2 (Z.leb_gt _ _)); [done|]. lia.
    + apply IH. lia.
Qed.

Lemma SkipSpaces_split str :
  ∃ sp, Forall (λ c, isspace c = true) sp ∧ str = sp ++ SkipSpaces str ∧
    isspace (SafeFirstChar (SkipSpaces str)) = false.
Proof.
  induction str as [|c str IH]; simpl; [by exists []|].
  destruct (isspace c) eqn:E; [|by exists []].
  destruct IH as (sp&Hsp&Hstr&Hf). exists (c :: sp). split_and!; [by constructor| |done].
  simpl. by rewrite <-Hstr.
Qed.

Lemma SkipSpaces_app sp str :
  Forall (λ c, isspace c = true) sp → isspace (SafeFirstChar str) = false →
  SkipSpaces (sp ++ str) = str.
Proof.
  intros Hsp Hstr. induction Hsp as [|c sp Hc _ IH]; simpl.
  - destruct str as [|c str]; [done|]. simpl in *. by rewrite Hstr.
  - by rewrite Hc.
Qed.

Lemma SkipSpaces_nil str : SkipSpaces str = [] ↔ Forall (λ c, isspace c = true) str.
Proof.
  split.
  - intros E. destruct (SkipSpaces_split str) as (sp&Hsp&Hstr&_). rewrite E, app_nil_r in Hstr.
    by subst.
  - intros H. rewrite <-(app_nil_r str). by apply SkipSpaces_app.
Qed.

Lemma spaces_no_digit sp : Forall (λ c, isspace c = true) sp → no_digit sp.
Proof. intros [|c l Hc _]; unfold no_digit; simpl; [done|]. by apply isspace_not_digit. Qed.

Lemma digits_no_space ds rest :
  ds ≠ [] → Forall (λ c, isdigit c = true) ds →
  isspace (SafeFirstChar (ds ++ rest)) = false ∧ isdigit (SafeFirstChar (ds ++ rest)) = true.
Proof.
  intros Hne Hds. destruct Hds as [|c ds Hc _]; [done|]. simpl. split; [|done].
  apply not_true_iff_false. intros Hs%isspace_not_digit. congruence.
Qed.

Lemma split_digits str :
  ∃ ds rest, str = ds ++ rest ∧ Forall (λ c, isdigit c = true) ds ∧ no_digit rest.
Proof.
  induction str as [|c str IH]; [by exists [], []|].
  destruct (isdigit c) eqn:E; [|by exists [], (c :: str)].
  destruct IH as (ds&rest&->&Hds&Hr). exists (c :: ds), rest. split_and!; [done|by constructor|done].
Qed.

(** A digit loop followed by the common end reads digits and trailing spaces. *)
Lemma finish_spec (loop : list ascii → option (Z * list ascii)) (fits : list ascii → bool)
    (value : list ascii → Z) str v :
  (∀ ds rest, Forall (λ c, isdigit c = true) ds → no_digit rest →
     loop (ds ++ rest) = if fits ds then Some (value ds, rest) else None) →
  isdigit (SafeFirstChar str) = true →
  finish (loop str) = Some v ↔
  ∃ ds sp, str = ds ++ sp ∧ ds ≠ [] ∧ Forall (λ c, isdigit c = true) ds ∧
    Forall (λ c, isspace c = true) sp ∧ fits ds = true ∧ v = value ds.
Proof.
  intros Hloop Hfirst. split.
  - destruct (split_digits str) as (ds&rest&->&Hds&Hrest). rewrite Hloop by done.
    destruct (fits ds) eqn:Hf; [|done]. simpl. destruct (SkipSpaces rest) eqn:Hs; [|done].
    intros [= <-]. apply SkipSpaces_nil in Hs. exists ds, rest. split_and!; try done.
    intros ->. simpl in Hfirst. unfold no_digit in Hrest. congruence.
  - intros (ds&sp&->&_&Hds&Hsp&Hf&->). rewrite Hloop by (done || by apply spaces_no_digit).
    rewrite Hf. simpl. by rewrite (proj2 (SkipSpaces_nil sp)).
Qed.

Lemma ConsumeMinus_cases str :
  (∃ rest, str = minus :: rest ∧ ConsumeMinus str = (true, rest)) ∨
  (SafeFirstChar str ≠ minus ∧ ConsumeMinus str = (false, str)).
Proof.
  destruct str as [|c str]; simpl; [by right|].
  destruct (Ascii.eqb_spec c minus) as [->|Hne]; [left; by eexists|by right].
Qed.

(** What is left after leading spaces is a numeral, or it is not. *)
Lemma numeral_strip str v :
  numeral str v ↔ isdigit (SafeFirstChar (SkipSpaces str)) = true ∧
    ∃ ds sp, SkipSpaces str = ds ++ sp ∧ ds ≠ [] ∧ Forall (λ c, isdigit c = true) ds ∧
      Forall (λ c, isspace c = true) sp ∧ v = decimal 0 ds.
Proof.
  split.
  - intros [sp ds sp' Hsp Hsp' Hne Hds].
    destruct (digits_no_space ds sp' Hne Hds) as [? ?]. rewrite SkipSpaces_app by done. eauto 10.
  - intros (_&ds&sp'&E&Hne&Hds&Hsp'&->).
    destruct (SkipSpaces_split str) as (sp&Hsp&->&_). rewrite E. by constructor.
Qed.

Lemma negative_strip str v :
  negative_numeral str v ↔ ∃ rest, SkipSpaces str = minus :: rest ∧
    isdigit (SafeFirstChar rest) = true ∧
    ∃ ds sp, rest = ds ++ sp ∧ ds ≠ [] ∧ Forall (λ c, isdigit c = true) ds ∧
      Forall (λ c, isspace c = true) sp ∧ v = (- decimal 0 ds)%Z.
Proof.
  split.
  - intros [sp ds sp' Hsp Hsp' Hne Hds].
    destruct (digits_no_space ds sp' Hne Hds) as [? ?]. rewrite SkipSpaces_app by done. eauto 10.
  - intros (rest&E&_&ds&sp'&->&Hne&Hds&Hsp'&->).
    destruct (SkipSpaces_split str) as (sp&Hsp&->&_). rewrite E. by constructor.
Qed.

Lemma minus_first str rest :
  SkipSpaces str = minus :: rest → isdigit (SafeFirstChar (SkipSpaces str)) = false.
Proof. by intros ->. Qed.

Lemma safe_strto64_iff (str : list ascii) (v : Z) :
  safe_strto64 str = Some v ↔ (numeral str v ∨ negative_numeral str v) ∧ is_i64 v.
Proof.
  unfold safe_strto64. rewrite numeral_strip, negative_strip.
  set (s := SkipSpaces str).
  destruct (ConsumeMinus_cases s) as [(rest&E&->)|[Hne ->]].
  - assert (isdigit (SafeFirstChar s) = false) as Hnd by (by rewrite E).
    rewrite Hnd, E. destruct (isdigit (SafeFirstChar rest)) eqn:Hd; simpl.
    2: { split; [done|]. intros [[[? _]|(r&[= <-]&?&_)] _]; congruence. }
    rewrite (finish_spec _ (λ ds, decimal 0 ds <=? 2 ^ 63)%Z (λ ds, - decimal 0 ds)%Z);
      [|intros ds r ??; by apply (digits_down_spec (2 ^ 63) ds r 0)|done].
    split.
    + intros (ds&sp&->&?&Hds&?&Hle%Z.leb_le&->). split; [right; eauto 12|].
      pose proof (decimal_mono 0 ds Hds). unfold is_i64. lia.
    + intros [[[? _]|(r&[= <-]&_&ds&sp&->&?&?&?&->)] Hv]; [congruence|].
      exists ds, sp. split_and!; try done. apply Z.leb_le. unfold is_i64 in Hv. lia.
  - destruct (isdigit (SafeFirstChar s)) eqn:Hd; simpl.
    2: { split; [done|]. intros [[[? _]|(r&E&_)] _]; [congruence|]. rewrite E in Hne. done. }
    rewrite (finish_spec _ (λ ds, decimal 0 ds <=? kint64max)%Z (λ ds, decimal 0 ds));
      [|intros ds r ??; by apply digits_up_spec|done].
    split.
    + intros (ds&sp&E&?&Hds&?&Hle%Z.leb_le&->). split; [left; eauto 12|].
      pose proof (decimal_mono 0 ds Hds). unfold is_i64, kint64max in *. lia.
    + intros [[(_&ds&sp&E&?&?&?&->)|(r&E&_)] Hv]; [|rewrite E in Hne; done].
      exists ds, sp. split_and!; try done. apply Z.leb_le. unfold is_i64, kint64max in *. lia.
Qed.

(** The unsigned and 32-bit parsers accept the numerals of their own range. *)
Lemma safe_strtou64_spec (str : list ascii) (v : Z) :
  safe_strtou64 str = Some v ↔ numeral str v ∧ is_u64 v.
Proof.
  unfold safe_strtou64. rewrite numeral_strip. set (s := SkipSpaces str).
  destruct (isdigit (SafeFirstChar s)) eqn:Hd; simpl; [|naive_solver].
  rewrite (finish_spec _ (λ ds, decimal 0 ds <=? kuint64max)%Z (λ ds, decimal 0 ds));
    [|intros ds r ??; by apply digits_up_spec|done].
  unfold is_u64, kuint64max. split.
  - intros (ds&sp&E&?&Hds&?&Hle%Z.leb_le&->). split; [eauto 12|].
    pose proof (decimal_mono 0 ds Hds). lia.
  - intros [(_&ds&sp&E&?&?&?&->) Hv]. exists ds, sp. split_and!; try done. apply Z.leb_le. lia.
Qed.

Lemma safe_strtou32_spec (str : list ascii) (v : Z) :
  safe_strtou32 str = Some v ↔ numeral str v ∧ is_u32 v.
Proof.
  unfold safe_strtou32. rewrite numeral_strip. set (s := SkipSpaces str).
  destruct (isdigit (SafeFirstChar s)) eqn:Hd; simpl; [|naive_solver].
  rewrite (finish_spec _ (λ ds, decimal 0 ds <=? kuint32max)%Z (λ ds, decimal 0 ds));
    [|intros ds r ??; by apply digits_check_spec|done].
  unfold is_u32, kuint32max. split.
  - intros (ds&sp&E&?&Hds&?&Hle%Z.leb_le&->). split; [eauto 12|].
    pose proof (decimal_mono 0 ds Hds). lia.
  - intros [(_&ds&sp&E&?&?&?&->) Hv]. exists ds, sp. split_and!; try done. apply Z.leb_le. lia.
Qed.

(** * Round trips *)

Lemma digit_char n :
  (0 <= n <= 9)%Z → code_of (ascii_of_N (Z.to_N (n + 48))) = (n + 48)%Z.
Proof.
  intros Hn. unfold code_of. rewrite N_ascii_embedding by lia. lia.
Qed.

Lemma digits_loop_spec fuel i :
  (0 <= i < 10 ^ Z.of_nat (S fuel))%Z →
  Forall (λ c, isdigit c = true) (digits_loop fuel i) ∧ digits_loop fuel i ≠ [] ∧
  decimal 0 (reverse (digits_loop fuel i)) = i.
Proof.
  revert i. induction fuel as [|fuel IH]; intros i Hi; cbn [digits_loop].
  - assert (0 <= i mod 10 <= 9)%Z by (pose proof (Z.mod_pos_bound i 10); lia).
    assert (i mod 10 = i)%Z as Hm by (apply Z.mod_small; lia).
    split_and!; [|done|].
    + constructor; [|done]. rewrite isdigit_range, digit_char by lia. lia.
    + rewrite reverse_singleton. unfold decimal. simpl foldl. rewrite digit_char by lia. lia.
  - assert (0 <= i mod 10 <= 9)%Z by (pose proof (Z.mod_pos_bound i 10); lia).
    set (c := ascii_of_N _).
    assert (code_of c = i mod 10 + 48)%Z as Hc by (unfold c; by apply digit_char).
    assert (isdigit c = true) as Hd by (rewrite isdigit_range; lia).
    pose proof (Z.div_mod i 10).
    destruct (Z.gtb_spec (i / 10) 0) as [Hgt|Hle].
    + destruct (IH (i / 10)%Z) as (Hall&_&Hval).
      { split; [lia|]. apply Z.div_lt_upper_bound; [lia|].
        replace (10 * 10 ^ Z.of_nat (S fuel))%Z with (10 ^ Z.of_nat (S (S fuel)))%Z; [lia|].
        rewrite (Nat2Z.inj_succ (S fuel)), Z.pow_succ_r by lia. done. }
      split_and!; [by constructor|done|]. rewrite reverse_cons. unfold decimal in *.
      rewrite foldl_app. simpl foldl. rewrite Hval, Hc. lia.
    + split_and!; [by constructor|done|]. rewrite reverse_singleton. unfold decimal. simpl foldl.
      rewrite Hc. lia.
Qed.

Lemma print_digits fuel i :
  (0 <= i < 10 ^ Z.of_nat (S fuel))%Z →
  numeral (reverse (digits_loop fuel i)) i ∧ negative_numeral (minus :: reverse (digits_loop fuel i)) (- i).
Proof.
  intros (Hall&Hne&Hval)%digits_loop_spec. set (l := reverse _) in *.
  assert (l ≠ []) as Hl.
  { unfold l. intros E. apply Hne. rewrite <-(reverse_involutive (digits_loop fuel i)).
    by rewrite E. }
  assert (Forall (λ c, isdigit c = true) l) as Hd.
  { unfold l. by rewrite Forall_reverse. }
  split.
  - rewrite <-Hval. rewrite <-(app_nil_r l) at 1. apply (numeral_intro [] l []); done || constructor.
  - rewrite <-Hval. rewrite <-(app_nil_r l) at 1. apply (negative_intro [] l []); done || constructor.
Qed.

(** Printing and parsing are inverse: the decimal form written for an [int64],
    [kint64min] included, is parsed back to that number. *)
Theorem int64_round_trip (i : Z) :
  is_i64 i → safe_strto64 (FastInt64ToBufferLeft i) = Some i.
Proof.
  intros Hi. apply safe_strto64_iff. split; [|done]. unfold is_i64 in Hi.
  unfold FastInt64ToBufferLeft, FastUInt64ToBufferLeft. destruct (Z.ltb_spec i 0).
  - right. assert (u64 (0 - u64 i) = - i)%Z as ->.
    { unfold u64. rewrite <-(Z.mod_add i 1) by lia.
      rewrite (Z.mod_small (i + 1 * 2 ^ 64)) by lia.
      replace (0 - (i + 1 * 2 ^ 64))%Z with (- i + (- 1) * 2 ^ 64)%Z by lia.
      rewrite Z.mod_add by lia. apply Z.mod_small. lia. }
    rewrite <-(Z.opp_involutive i) at 2. apply print_digits. lia.
  - left. rewrite u64_small by (unfold is_u64; lia). apply print_digits. lia.
Qed.

(** [safe_strto64] accepts exactly the decimal numerals, with optional minus
    sign and surrounding spaces, whose value is an [int64], and returns that
    value; it rejects every other string, and no step of it overflows. *)
Theorem safe_strto64_spec (str : list ascii) (v : Z) :
  safe_strto64 str = Some v ↔ (numeral str v ∨ negative_numeral str v) ∧ is_i64 v.
Proof. apply safe_strto64_iff. Qed.

Lemma int64_round_trip_witness :
  safe_strto64 (FastInt64ToBufferLeft (- 2 ^ 63)) = Some (- 2 ^ 63)%Z.
Proof. apply (int64_round_trip (- 2 ^ 63)). split; vm_compute; congruence. Defined.
