(* ===== verification/Status.v ===== *)
(** Status values: [tensorflow/core/lib/core/status.{h,cc}] and [errors.h].

    [Status] is the error type every fallible operation of the library and of
    the serving code returns.  The model keeps the error code and the message;
    [SM] is the small state-and-status monad in which the stateful operations
    of the other files are written, with [;;?] for the macro
    [TF_RETURN_IF_ERROR]. *)
From S2P Require Import Prelude.

(** [error::Code] of [error_codes.proto]. *)
Inductive Code :=
  | OK | CANCELLED | UNKNOWN | INVALID_ARGUMENT | DEADLINE_EXCEEDED | NOT_FOUND
  | ALREADY_EXISTS | PERMISSION_DENIED | UNAUTHENTICATED | RESOURCE_EXHAUSTED
  | FAILED_PRECONDITION | ABORTED | OUT_OF_RANGE | UNIMPLEMENTED | INTERNAL
  | UNAVAILABLE | DATA_LOSS.

#[export] Instance Code_eq_dec : EqDecision Code.
Proof. solve_decision. Defined.

(** [Status]: a null [state_] is success, otherwise a code and a message. *)
Inductive Status :=
  | StatusOK
  | StatusError (c : Code) (msg : string).

#[export] Instance Status_eq_dec : EqDecision Status.
Proof. solve_decision. Defined.

Definition ok (s : Status) : bool :=
  match s with StatusOK => true | StatusError _ _ => false end.

Definition code (s : Status) : Code :=
  match s with StatusOK => OK | StatusError c _ => c end.

Definition error_message (s : Status) : string :=
  match s with StatusOK => "" | StatusError _ m => m end.

(** [Status::Update]: keeps the first error. *)
Definition Update (s new_status : Status) : Status :=
  if ok s then new_status else s.

(** The [switch] of [Status::ToString]. *)
Definition code_type (c : Code) : string :=
  match c with
  | OK => "Unknown code(0)"
  | CANCELLED => "Cancelled"
  | UNKNOWN => "Unknown"
  | INVALID_ARGUMENT => "Invalid argument"
  | DEADLINE_EXCEEDED => "Deadline exceeded"
  | NOT_FOUND => "Not found"
  | ALREADY_EXISTS => "Already exists"
  | PERMISSION_DENIED => "Permission denied"
  | UNAUTHENTICATED => "Unauthenticated"
  | RESOURCE_EXHAUSTED => "Resource exhausted"
  | FAILED_PRECONDITION => "Failed precondition"
  | ABORTED => "Aborted"
  | OUT_OF_RANGE => "Out of range"
  | UNIMPLEMENTED => "Unimplemented"
  | INTERNAL => "Internal"
  | UNAVAILABLE => "Unavailable"
  | DATA_LOSS => "Data loss"
  end.

Definition ToString (s : Status) : string :=
  match s with
  | StatusOK => "OK"
  | StatusError c msg => code_type c +:+ ": " +:+ msg
  end.

(** [Status::operator==]: two null states, or equal renderings. *)
Definition Status_eqb (a b : Status) : bool :=
  (ok a && ok b) || bool_decide (ToString a = ToString b).

(** [errors::AppendToMessage]. *)
Definition AppendToMessage (s : Status) (args : string) : Status :=
  StatusError (code s) (error_message s +:+ String "010"%char (String "009"%char "") +:+ args).

(** The [DECLARE_ERROR] constructors that the modelled code uses. *)
Definition InvalidArgument (m : string) : Status := StatusError INVALID_ARGUMENT m.
Definition NotFound (m : string) : Status := StatusError NOT_FOUND m.
Definition Unavailable (m : string) : Status := StatusError UNAVAILABLE m.
Definition FailedPrecondition (m : string) : Status := StatusError FAILED_PRECONDITION m.
Definition ResourceExhausted (m : string) : Status := StatusError RESOURCE_EXHAUSTED m.
Definition Internal (m : string) : Status := StatusError INTERNAL m.
Definition OutOfRange (m : string) : Status := StatusError OUT_OF_RANGE m.
Definition DataLoss (m : string) : Status := StatusError DATA_LOSS m.

(** A stateful operation that returns a [Status]. *)
Definition SM (S : Type) : Type := S → Status * S.

(** [TF_RETURN_IF_ERROR(m); k]: the state reached by [m] is kept on error. *)
Definition sm_bind {S} (m k : SM S) : SM S := λ s,
  let '(st, s') := m s in if ok st then k s' else (st, s').

(** [m.IgnoreError(); k]. *)
Definition sm_ignore {S} (m k : SM S) : SM S := λ s, k (m s).2.

Definition sm_ret {S} (st : Status) : SM S := λ s, (st, s).

Declare Scope status_scope.
Delimit Scope status_scope with status.
Notation "m ;;? k" := (sm_bind m k) (at level 60, right associativity) : status_scope.
Notation "m ;;! k" := (sm_ignore m k) (at level 60, right associativity) : status_scope.

(** * Lemmas *)

Lemma ok_iff (s : Status) : ok s = true ↔ s = StatusOK.
Proof. destruct s; naive_solver. Qed.

Lemma not_ok_iff (s : Status) : ok s = false ↔ s ≠ StatusOK.
Proof. destruct s; naive_solver. Qed.

Lemma ToString_inj (a b : Status) : ToString a = ToString b → a = b.
Proof.
  destruct a as [|[] ma], b as [|[] mb]; simpl; intros H; try discriminate H;
    try reflexivity; by simplify_eq.
Qed.

(** Two statuses compare equal with [operator==], which compares their
    renderings, exactly when they have the same code and the same message. *)
Theorem Status_eqb_spec (a b : Status) : Status_eqb a b = true ↔ a = b.
Proof.
  unfold Status_eqb. split.
  - intros [[Ha Hb]%andb_true_iff|H]%orb_true_iff.
    + apply ok_iff in Ha, Hb. congruence.
    + apply ToString_inj. by apply bool_decide_eq_true in H.
  - intros ->. apply orb_true_iff. right. by apply bool_decide_eq_true.
Qed.

Lemma Update_assoc (a b c : Status) : Update (Update a b) c = Update a (Update b c).
Proof. by destruct a. Qed.

Lemma sm_bind_ok {S} (m k : SM S) (s s' : S) :
  m s = (StatusOK, s') → sm_bind m k s = k s'.
Proof. unfold sm_bind. by intros ->. Qed.

#[export] Hint Rewrite @sm_bind_ok using done : tension.
