(* ===== verification/Servable.v ===== *)
(** Servable identifiers, requests, states and data:
    [tensorflow_serving/core/servable_id.h], [manager.h] (the request type),
    [servable_state.h] and [servable_data.h]. *)
From S2P Require Import Prelude Status.

(** * Data *)

(** [struct ServableId]. *)
Record ServableId := mkServableId { sid_name : string; sid_version : Z }.

#[export] Instance ServableId_eq_dec : EqDecision ServableId.
Proof. solve_decision. Defined.

#[export] Instance ServableId_countable : Countable ServableId.
Proof.
  refine (inj_countable' (λ i, (sid_name i, sid_version i))
    (λ p, mkServableId p.1 p.2) _); by intros [].
Defined.

Definition ServableId_DebugString (i : ServableId) : string :=
  "{name: " +:+ sid_name i +:+ " version: " +:+ pretty (sid_version i) +:+ "}".

(** [operator==] on [ServableId]: the version is compared first. *)
Definition ServableId_eqb (a b : ServableId) : bool :=
  (sid_version a =? sid_version b)%Z && String.eqb (sid_name a) (sid_name b).

(** [operator<] on [ServableId], the order of [std::map<ServableId, ...>]. *)
Definition ServableId_ltb (a b : ServableId) : bool :=
  match String.compare (sid_name a) (sid_name b) with
  | Eq => (sid_version a <? sid_version b)%Z
  | Lt => true
  | Gt => false
  end.

(** [struct ServableRequest]: an unset version asks for the latest one. *)
Record ServableRequest := mkServableRequest {
  req_name : string;
  req_version : option Z }.

#[export] Instance ServableRequest_eq_dec : EqDecision ServableRequest.
Proof. solve_decision. Defined.

Definition Specific (name : string) (version : Z) : ServableRequest :=
  mkServableRequest name (Some version).
Definition Latest (name : string) : ServableRequest := mkServableRequest name None.
Definition FromId (i : ServableId) : ServableRequest :=
  Specific (sid_name i) (sid_version i).

Definition ServableRequest_DebugString (r : ServableRequest) : string :=
  match req_version r with
  | Some v => "Specific(" +:+ req_name r +:+ ", " +:+ pretty v +:+ ")"
  | None => "Latest(" +:+ req_name r +:+ ")"
  end.

(** [ServableState::ManagerState], the semantic lifecycle published on the bus. *)
Inductive ManagerState := kStart | kLoading | kAvailable | kUnloading | kEnd.

#[export] Instance ManagerState_eq_dec : EqDecision ManagerState.
Proof. solve_decision. Defined.

(** [struct ServableState]. *)
Record ServableState := mkServableState {
  ss_id : ServableId;
  ss_manager_state : ManagerState;
  ss_health : Status }.

#[export] Instance ServableState_eq_dec : EqDecision ServableState.
Proof. solve_decision. Defined.

(** [ServableData<T>]: built either from data or from an error. *)
Inductive ServableData (T : Type) :=
  | DataOk (i : ServableId) (data : T)
  | DataError (i : ServableId) (error : Status).
Arguments DataOk {T} i data.
Arguments DataError {T} i error.

Definition sd_id {T} (d : ServableData T) : ServableId :=
  match d with DataOk i _ | DataError i _ => i end.

Definition sd_status {T} (d : ServableData T) : Status :=
  match d with DataOk _ _ => StatusOK | DataError _ e => e end.

(** [DataOrDie] / [ConsumeDataOrDie]; [None] is the failed [CHECK]. *)
Definition DataOrDie {T} (d : ServableData T) : option T :=
  match d with DataOk _ x => Some x | DataError _ _ => None end.

(** * The order on identifiers *)

Lemma ascii_compare_eq (a b : ascii) : Ascii.compare a b = Eq ↔ a = b.
Proof.
  split; [apply Ascii.compare_eq_iff|]. intros ->. apply N.compare_refl.
Qed.

Lemma string_compare_eq (a b : string) : String.compare a b = Eq ↔ a = b.
Proof.
  split; [apply String.compare_eq_iff|]. intros ->.
  induction b as [|x b IH]; simpl; [done|].
  by rewrite (proj2 (ascii_compare_eq x x) eq_refl).
Qed.

Lemma string_compare_refl (a : string) : String.compare a a = Eq.
Proof. by apply string_compare_eq. Qed.

Lemma string_lt_trans (a b c : string) :
  String.compare a b = Lt → String.compare b c = Lt → String.compare a c = Lt.
Proof.
  revert b c. induction a as [|x a IH]; intros [|y b] [|z c]; simpl; try done.
  destruct (Ascii.compare x y) eqn:Exy; [|intros _|done].
  - apply ascii_compare_eq in Exy as ->. destruct (Ascii.compare y z); [|done..].
    by apply IH.
  - destruct (Ascii.compare y z) eqn:Eyz; [|intros _|done].
    + apply ascii_compare_eq in Eyz as <-. by rewrite Exy.
    + assert (Ascii.compare x z = Lt) as ->; [|done].
      unfold Ascii.compare in *. rewrite N.compare_lt_iff in *. lia.
Qed.

Lemma string_compare_antisym (a b : string) :
  String.compare b a = CompOpp (String.compare a b).
Proof. apply String.compare_antisym. Qed.

Lemma ServableId_eqb_spec (a b : ServableId) : ServableId_eqb a b = true ↔ a = b.
Proof.
  unfold ServableId_eqb. rewrite andb_true_iff, Z.eqb_eq, String.eqb_eq.
  destruct a, b; simpl. split; [intros [-> ->]|intros [= -> ->]]; done.
Qed.

Lemma ServableId_ltb_irrefl (a : ServableId) : ServableId_ltb a a = false.
Proof.
  unfold ServableId_ltb.
  rewrite string_compare_refl.
  apply Z.ltb_irrefl.
Qed.

Lemma ServableId_ltb_trans (a b c : ServableId) :
  ServableId_ltb a b = true → ServableId_ltb b c = true → ServableId_ltb a c = true.
Proof.
  destruct a as [na va], b as [nb vb], c as [nc vc]. unfold ServableId_ltb; simpl.
  destruct (String.compare na nb) eqn:E1, (String.compare nb nc) eqn:E2; try done.
  - apply string_compare_eq in E1 as <-, E2 as <-.
    rewrite string_compare_refl.
    rewrite !Z.ltb_lt. lia.
  - apply string_compare_eq in E1 as <-. by rewrite E2.
  - apply string_compare_eq in E2 as <-. by rewrite E1.
  - by rewrite (string_lt_trans _ _ _ E1 E2).
Qed.

Lemma ServableId_ltb_total (a b : ServableId) :
  ServableId_ltb a b = true ∨ a = b ∨ ServableId_ltb b a = true.
Proof.
  destruct a as [na va], b as [nb vb]. unfold ServableId_ltb; simpl.
  rewrite (string_compare_antisym na nb).
  destruct (String.compare na nb) eqn:E; simpl; auto.
  apply string_compare_eq in E as <-. rewrite !Z.ltb_lt.
  destruct (Z.lt_trichotomy va vb) as [|[->|]]; auto.
Qed.

(** The operator [operator<] on servable ids is a strict total order that agrees with
    [operator==], which is what the [std::map]s keyed by servable ids rely on:
    it is irreflexive and transitive, and two ids are unordered exactly when
    they are equal. *)
Theorem ServableId_ltb_strict_total_order (a b c : ServableId) :
  ServableId_ltb a a = false ∧
  (ServableId_ltb a b = true → ServableId_ltb b c = true → ServableId_ltb a c = true) ∧
  ((ServableId_ltb a b = false ∧ ServableId_ltb b a = false) ↔ ServableId_eqb a b = true).
Proof.
  split_and!; [apply ServableId_ltb_irrefl | apply ServableId_ltb_trans |].
  rewrite ServableId_eqb_spec. split.
  - intros [H1 H2]. destruct (ServableId_ltb_total a b) as [|[|]]; congruence.
  - intros ->. split; apply ServableId_ltb_irrefl.
Qed.

Lemma FromId_inj (a b : ServableId) : FromId a = FromId b → a = b.
Proof. destruct a, b. unfold FromId, Specific; simpl. naive_solver. Qed.

Lemma ServableId_ltb_strict_total_order_witness :
  ServableId_ltb (mkServableId "a" 1) (mkServableId "b" 3) = true.
Proof.
  apply (ServableId_ltb_strict_total_order (mkServableId "a" 1) (mkServableId "b" 0)
    (mkServableId "b" 3)); reflexivity.
Defined.
