(* ===== verification/LoaderHarness.v ===== *)
(** The loader harness: [tensorflow_serving/core/loader_harness.{h,cc}], with
    the retry loop of [tensorflow_serving/util/retrier.cc].

    A harness owns the loader of one servable version and tracks its state for
    the manager.  Every public method of the class is an operation of the SM
    monad on the record [LoaderHarness].  The calls a harness makes on objects
    it does not define (the loader, the error callback of its options) are
    recorded in order in the field [trace]; what those calls return is an
    argument of the operation.  Release builds are modelled: a [DCHECK] that
    fails is skipped and the code after it runs. *)
From S2P Require Import Prelude Status Servable.
Local Open Scope status_scope.

(** * Retry *)

Section Retry.
(** [retried_fn k] is the status of the [k]-th call of [retried_fn];
    [is_cancelled k] the answer of the [k]-th poll of [is_cancelled]. *)
Context (max_num_retries : Z) (retried_fn : nat → Status) (is_cancelled : nat → bool).

(** The condition under which the do-while loop goes round again, after
    [num_tries] tries; the [int] counter is compared at width 32. *)
Definition retry_again (num_tries : nat) (status : Status) : bool :=
  negb (is_cancelled (pred num_tries)) && negb (ok status) &&
  (u32 (Z.of_nat num_tries) <? u32 (max_num_retries + 1))%Z.

(** The do-while loop: [num_tries] tries have been made before this one. *)
Fixpoint retry_loop (fuel num_tries : nat) : Status * nat :=
  let status := retried_fn num_tries in
  let num_tries := S num_tries in
  match fuel with
  | O => (status, num_tries)
  | S fuel =>
      if retry_again num_tries status then retry_loop fuel num_tries
      else (status, num_tries)
  end.

(** [Retry]: the last status and the number of tries. *)
Definition Retry : Status * nat :=
  retry_loop (Z.to_nat (u32 (max_num_retries + 1))) 0.
End Retry.

(** * The harness *)

(** [LoaderHarness::State]. *)
Module State.
Inductive t :=
  | kNew | kLoadRequested | kLoadApproved | kLoading | kReady | kUnloadRequested
  | kQuiescing | kQuiesced | kUnloading | kDisabled | kError.

#[export] Instance eq_dec : EqDecision t.
Proof. solve_decision. Defined.
End State.
Export (hints) State.

(** [LoaderHarness::StateDebugString]. *)
Definition StateDebugString (s : State.t) : string :=
  match s with
  | State.kNew => "new"
  | State.kLoadRequested => "load-requested"
  | State.kLoadApproved => "load-approved"
  | State.kLoading => "loading"
  | State.kReady => "ready"
  | State.kUnloadRequested => "unload-requested"
  | State.kQuiescing => "quiescing"
  | State.kQuiesced => "quiesced"
  | State.kUnloading => "unloading"
  | State.kDisabled => "disabled"
  | State.kError => "error"
  end.

(** Calls on the loader and on [options_.error_callback]. *)
Inductive HarnessCall :=
  | CallLoad (result : Status)
  | CallUnload
  | CallErrorCallback (i : ServableId) (error : Status).

(** [LoaderHarness::Options]; the retry interval only delays, and is left out. *)
Record HarnessOptions := mkHarnessOptions {
  max_num_load_retries : Z;
  has_error_callback : bool }.

(** The members of the class.  [loader_] names the owned loader;
    [additional_state_] holds the manager's additional state, if any. *)
Record LoaderHarness {A : Type} := mkLoaderHarness {
  h_id : ServableId;
  h_loader : option nat;
  h_additional_state : option A;
  h_options : HarnessOptions;
  h_state : State.t;
  h_status : Status;
  h_cancel_load_retry : bool;
  h_trace : list HarnessCall }.
Arguments LoaderHarness : clear implicits.
Arguments mkLoaderHarness {A}.

Section Harness.
Context {A : Type}.
Implicit Types h : LoaderHarness A.

(** The constructors. *)
Definition newLoaderHarness (i : ServableId) (loader : option nat) (a : option A)
    (options : HarnessOptions) : LoaderHarness A :=
  mkLoaderHarness i loader a options State.kNew StatusOK false [].

Definition set_state (s : State.t) h : LoaderHarness A :=
  mkLoaderHarness (h_id h) (h_loader h) (h_additional_state h) (h_options h) s
    (h_status h) (h_cancel_load_retry h) (h_trace h).

Definition add_call (c : HarnessCall) h : LoaderHarness A :=
  mkLoaderHarness (h_id h) (h_loader h) (h_additional_state h) (h_options h)
    (h_state h) (h_status h) (h_cancel_load_retry h) (h_trace h ++ [c]).

(** The write through the pointer that [additional_state<T>()] returns. *)
Definition set_additional_state (a : A) h : LoaderHarness A :=
  mkLoaderHarness (h_id h) (h_loader h) (Some a) (h_options h) (h_state h)
    (h_status h) (h_cancel_load_retry h) (h_trace h).

(** [ErrorInternal]. *)
Definition ErrorInternal (error : Status) h : LoaderHarness A :=
  let h' := mkLoaderHarness (h_id h) (h_loader h) (h_additional_state h)
    (h_options h) State.kError error (h_cancel_load_retry h) (h_trace h) in
  if has_error_callback (h_options h')
  then add_call (CallErrorCallback (h_id h') error) h' else h'.

(** [Error]. *)
Definition Error (error : Status) h : LoaderHarness A := ErrorInternal error h.

(** [TransitionState]. *)
Definition TransitionState (from to : State.t) : SM (LoaderHarness A) := λ h,
  if decide (h_state h = from) then (StatusOK, set_state to h)
  else
    let error := Internal ("Illegal request to transition from state " +:+
      StateDebugString (h_state h) +:+ " to " +:+ StateDebugString to) in
    (error, ErrorInternal error h).

(** [LoadRequested]. *)
Definition LoadRequested : SM (LoaderHarness A) := λ h,
  if decide (h_state h = State.kNew) then (StatusOK, set_state State.kLoadRequested h)
  else (FailedPrecondition "Duplicate load request", h).

(** [LoadApproved]. *)
Definition LoadApproved : SM (LoaderHarness A) :=
  TransitionState State.kLoadRequested State.kLoadApproved ;;? sm_ret StatusOK.

(** [Load], first critical section. *)
Definition Load_begin : SM (LoaderHarness A) :=
  TransitionState State.kLoadApproved State.kLoading.

(** [Load], the calls of [loader_->Load()] made by [Retry]. *)
Definition Load_calls (results : list Status) h : LoaderHarness A :=
  foldl (λ h r, add_call (CallLoad r) h) h results.

(** [Load], last critical section and return, for the status of [Retry]. *)
Definition Load_end (status : Status) : SM (LoaderHarness A) := λ h,
  if ok status then
    (TransitionState State.kLoading State.kReady ;;? sm_ret status) h
  else (status, ErrorInternal status h).

(** [Load]: [load k] is the result of the [k]-th [loader_->Load()],
    [cancelled k] the [k]-th answer of [cancel_load_retry()]. *)
Definition Load (load : nat → Status) (cancelled : nat → bool) : SM (LoaderHarness A) :=
  Load_begin ;;? λ h,
    let '(status, tries) :=
      Retry (max_num_load_retries (h_options h)) load cancelled in
    Load_end status (Load_calls (load <$> seq 0 tries) h).

(** [UnloadRequested]. *)
Definition UnloadRequested : SM (LoaderHarness A) := λ h,
  if decide (h_state h = State.kReady) then (StatusOK, set_state State.kUnloadRequested h)
  else (FailedPrecondition "Servable not loaded, or unload already requested/ongoing", h).

(** [set_cancel_load_retry]. *)
Definition set_cancel_load_retry (value : bool) h : LoaderHarness A :=
  mkLoaderHarness (h_id h) (h_loader h) (h_additional_state h) (h_options h)
    (h_state h) (h_status h) value (h_trace h).

(** [Unload]: its two critical sections around [loader_->Unload()]. *)
Definition Unload_begin : SM (LoaderHarness A) :=
  TransitionState State.kQuiesced State.kUnloading.

Definition Unload_end : SM (LoaderHarness A) :=
  TransitionState State.kUnloading State.kDisabled ;;? sm_ret StatusOK.

Definition Unload : SM (LoaderHarness A) :=
  Unload_begin ;;? λ h, Unload_end (add_call CallUnload h).

(** [StartQuiescing] and [DoneQuiescing]. *)
Definition StartQuiescing : SM (LoaderHarness A) :=
  TransitionState State.kUnloadRequested State.kQuiescing ;;? sm_ret StatusOK.

Definition DoneQuiescing : SM (LoaderHarness A) :=
  TransitionState State.kQuiescing State.kQuiesced ;;? sm_ret StatusOK.
End Harness.

(** [ServableStateSnapshot<T>] and [loader_state_snapshot]. *)
Record ServableStateSnapshot {A : Type} := mkSnapshot {
  snap_id : ServableId;
  snap_state : State.t;
  snap_additional_state : option A }.
Arguments ServableStateSnapshot : clear implicits.
Arguments mkSnapshot {A}.

Definition loader_state_snapshot {A} (h : LoaderHarness A) : ServableStateSnapshot A :=
  mkSnapshot (h_id h) (h_state h) (h_additional_state h).

(** * The interface as a transition system *)

(** One call of a public method, with what its environment answers. *)
Inductive HarnessOp :=
  | OpLoadRequested | OpLoadApproved
  | OpLoad (load : nat → Status) (cancelled : nat → bool)
  | OpUnloadRequested | OpStartQuiescing | OpDoneQuiescing | OpUnload
  | OpError (error : Status)
  | OpSetCancel (value : bool).

Definition run_op {A} (op : HarnessOp) (h : LoaderHarness A) : Status * LoaderHarness A :=
  match op with
  | OpLoadRequested => LoadRequested h
  | OpLoadApproved => LoadApproved h
  | OpLoad load cancelled => Load load cancelled h
  | OpUnloadRequested => UnloadRequested h
  | OpStartQuiescing => StartQuiescing h
  | OpDoneQuiescing => DoneQuiescing h
  | OpUnload => Unload h
  | OpError error => (StatusOK, Error error h)
  | OpSetCancel value => (StatusOK, set_cancel_load_retry value h)
  end.

(** Callers report errors with a status that is not OK. *)
Definition op_wf (op : HarnessOp) : Prop :=
  match op with OpError error => ok error = false | _ => True end.

(** States reachable from a new harness by any sequence of calls. *)
Inductive harness_reachable {A} : LoaderHarness A → Prop :=
  | reach_new i loader a options :
      harness_reachable (newLoaderHarness i loader a options)
  | reach_step h op :
      harness_reachable h → op_wf op → harness_reachable (run_op op h).2.

(** The lifecycle: the chain of states a version goes through. *)
Definition lifecycle : list State.t :=
  [State.kNew; State.kLoadRequested; State.kLoadApproved; State.kLoading;
   State.kReady; State.kUnloadRequested; State.kQuiescing; State.kQuiesced;
   State.kUnloading; State.kDisabled].

(** A legal edge: one step down the chain, or into [kError]. *)
Inductive legal_edge : State.t → State.t → Prop :=
  | edge_next s s' k :
      lifecycle !! k = Some s → lifecycle !! S k = Some s' → legal_edge s s'
  | edge_error s : legal_edge s State.kError.

(** The contract of [class Loader] as an automaton over the calls it receives:
    failed loads may repeat, a successful load ends loading, a successful load
    may be followed by one unload, and nothing follows that. *)
Inductive LoaderPhase := LNotLoaded | LLoaded | LUnloaded.

Definition loader_step (p : LoaderPhase) (c : HarnessCall) : option LoaderPhase :=
  match p, c with
  | _, CallErrorCallback _ _ => Some p
  | LNotLoaded, CallLoad r => Some (if ok r then LLoaded else LNotLoaded)
  | LLoaded, CallUnload => Some LUnloaded
  | _, _ => None
  end.

Definition loader_phase (trace : list HarnessCall) : option LoaderPhase :=
  foldl (λ p c, p ≫= λ p, loader_step p c) (Some LNotLoaded) trace.

(** What the harness state says about the loader. *)
Definition phase_of_state (s : State.t) (p : LoaderPhase) : Prop :=
  match s with
  | State.kNew | State.kLoadRequested | State.kLoadApproved | State.kLoading => p = LNotLoaded
  | State.kReady | State.kUnloadRequested | State.kQuiescing | State.kQuiesced
  | State.kUnloading => p = LLoaded
  | State.kDisabled => p = LUnloaded
  | State.kError => True
  end.

(** The invariant of a harness. *)
Record harness_inv {A} (h : LoaderHarness A) : Prop := {
  inv_error : h_state h = State.kError ↔ ok (h_status h) = false;
  inv_phase : ∃ p, loader_phase (h_trace h) = Some p ∧ phase_of_state (h_state h) p }.

(** Position in the lifecycle; [kError] is last. *)
Definition state_rank (s : State.t) : nat :=
  match s with
  | State.kNew => 0 | State.kLoadRequested => 1 | State.kLoadApproved => 2
  | State.kLoading => 3 | State.kReady => 4 | State.kUnloadRequested => 5
  | State.kQuiescing => 6 | State.kQuiesced => 7 | State.kUnloading => 8
  | State.kDisabled => 9 | State.kError => 10
  end.

(** A concrete run used by the witnesses: request, approval, a load that fails
    once and then succeeds, unload request, quiescing, unload. *)
Definition example_ops : list HarnessOp :=
  [OpLoadRequested; OpLoadApproved;
   OpLoad (λ k, if decide (k = 0) then Internal "flaky" else StatusOK) (λ _, false);
   OpUnloadRequested; OpStartQuiescing; OpDoneQuiescing; OpUnload].

Definition example_run (ops : list HarnessOp) : LoaderHarness unit :=
  foldl (λ h op, (run_op op h).2)
    (newLoaderHarness (mkServableId "m" 1) (Some 0) None (mkHarnessOptions 2 true)) ops.

(** * Retry *)

Section retry_lemmas.
Context (max : Z) (fn : nat → Status) (cancelled : nat → bool).

Lemma retry_loop_spec fuel n st m :
  retry_loop max fn cancelled fuel n = (st, m) →
  n < m ∧ m ≤ S (n + fuel) ∧ st = fn (pred m) ∧
  (∀ k, n < k < m → retry_again max cancelled k (fn (pred k)) = true) ∧
  (m < S (n + fuel) → retry_again max cancelled m st = false).
Proof.
  revert n. induction fuel as [|fuel IH]; intros n; simpl.
  - intros [= <- <-]. split_and!; try done; lia.
  - destruct (retry_again max cancelled (S n) (fn n)) eqn:E.
    + intros (?&?&?&Hk&?)%IH. split_and!; try lia; try done.
      * intros k [? ?]. destruct (decide (k = S n)) as [->|]; [done|]. apply Hk. lia.
      * intros. eauto with lia.
    + intros [= <- <-]. split_and!; try done; try lia. 
Qed.

Lemma retry_again_bound k st :
  (Z.of_nat k < 2 ^ 32)%Z → retry_again max cancelled k st = true →
  k < Z.to_nat (u32 (max + 1)).
Proof.
  unfold retry_again. intros Hk [_ H]%andb_true_iff. apply Z.ltb_lt in H.
  rewrite (u32_small (Z.of_nat k)) in H by (unfold is_u32; lia). lia.
Qed.
End retry_lemmas.

(** [Retry] stops after at least one and at most [max_num_retries + 1] tries,
    returns the status of the last try, tries again only after a failed try that
    was not cancelled, and stops exactly when the last try succeeded, a poll was
    cancelled or the tries are used up. *)
Theorem Retry_spec (max : Z) (fn : nat → Status) (cancelled : nat → bool)
    (st : Status) (n : nat) :
  is_u32 (max + 1) → Retry max fn cancelled = (st, n) →
  1 ≤ n ∧ (Z.of_nat n <= Z.max 1 (max + 1))%Z ∧ st = fn (pred n) ∧
  (∀ k, k < pred n → ok (fn k) = false ∧ cancelled k = false) ∧
  (ok st = true ∨ cancelled (pred n) = true ∨ (Z.of_nat n >= max + 1)%Z).
Proof.
  unfold Retry. intros Hmax H. rewrite u32_small in H by done.
  set (N := Z.to_nat (max + 1)) in *. unfold is_u32 in Hmax.
  apply retry_loop_spec in H as (Hn&Hle&->&Hbefore&Hstop).
  assert (∀ k, 0 < k < n → k < N) as Hlt.
  { intros k Hk. specialize (Hbefore k Hk).
    apply retry_again_bound in Hbefore; [by rewrite u32_small in Hbefore|].
    destruct (decide (N = 0)); lia. }
  assert (n ≤ N ∨ n = 1) as HnN.
  { destruct (decide (n = 1)); [by right|left]. specialize (Hlt (pred n)). lia. }
  split_and!; [lia|lia|done| |].
  - intros k Hk. specialize (Hbefore (S k)). unfold retry_again in Hbefore.
    simpl in Hbefore. assert (0 < S k < n) as Hr by lia. specialize (Hbefore Hr).
    by bool_hyps.
  - destruct (decide (N = 0)); [right; right; lia|].
    assert (n < S (0 + N)) as Hlt' by lia. specialize (Hstop Hlt').
    unfold retry_again in Hstop. rewrite !andb_false_iff, !negb_false_iff in Hstop.
    destruct Hstop as [[?|?]|Hz]; [by right; left|by left|].
    right. right. rewrite Z.ltb_ge, !u32_small in Hz; unfold is_u32; lia.
Qed.

(** The statuses a [Retry] went through: failures, then the one returned. *)
Lemma Retry_results (max : Z) (fn : nat → Status) (cancelled : nat → bool) st n :
  Retry max fn cancelled = (st, n) →
  ∃ fails, fn <$> seq 0 n = fails ++ [st] ∧ Forall (λ s, ok s = false) fails.
Proof.
  unfold Retry. intros (Hn&_&->&Hbefore&_)%retry_loop_spec.
  destruct n as [|n]; [lia|]. exists (fn <$> seq 0 n). simpl pred. split.
  - by rewrite seq_S, fmap_app.
  - apply Forall_fmap, Forall_forall. intros k Hk%elem_of_seq. simpl.
    specialize (Hbefore (S k)). unfold retry_again in Hbefore. simpl in Hbefore.
    assert (0 < S k < S n) as Hr by lia. specialize (Hbefore Hr). by bool_hyps.
Qed.

(** * Preservation of the invariant *)

Lemma loader_phase_snoc trace c :
  loader_phase (trace ++ [c]) = loader_phase trace ≫= λ p, loader_step p c.
Proof. unfold loader_phase. by rewrite foldl_app. Qed.

Lemma loader_step_callback p i e : loader_step p (CallErrorCallback i e) = Some p.
Proof. by destruct p. Qed.

Section harness_lemmas.
Context {A : Type}.
Implicit Types h : LoaderHarness A.

Lemma ErrorInternal_state e h : h_state (ErrorInternal e h) = State.kError.
Proof. unfold ErrorInternal. by case_match. Qed.

Lemma ErrorInternal_status e h : h_status (ErrorInternal e h) = e.
Proof. unfold ErrorInternal. by case_match. Qed.

Lemma ErrorInternal_phase e h :
  loader_phase (h_trace (ErrorInternal e h)) = loader_phase (h_trace h).
Proof.
  unfold ErrorInternal. case_match; [|done]. simpl. rewrite loader_phase_snoc.
  destruct (loader_phase (h_trace h)) as [p|]; simpl; [|done]. apply loader_step_callback.
Qed.

Lemma ErrorInternal_inv e h :
  ok e = false → harness_inv h → harness_inv (ErrorInternal e h).
Proof.
  intros He [_ (p&Hp&_)]. split.
  - by rewrite ErrorInternal_state, ErrorInternal_status.
  - exists p. by rewrite ErrorInternal_state, ErrorInternal_phase.
Qed.

Lemma set_state_inv s h :
  h_state h ≠ State.kError → s ≠ State.kError →
  (∀ p, phase_of_state (h_state h) p → phase_of_state s p) →
  harness_inv h → harness_inv (set_state s h).
Proof.
  intros Hne Hs Himp [Herr (p&Hp&Hph)]. split; simpl; [|eauto].
  rewrite <-Herr. split; congruence.
Qed.

(** A transition either takes its edge or records an error. *)
Lemma TransitionState_cases (from to : State.t) h :
  (h_state h = from ∧ TransitionState from to h = (StatusOK, set_state to h)) ∨
  (h_state h ≠ from ∧ ∃ e, ok e = false ∧ TransitionState from to h = (e, ErrorInternal e h)).
Proof.
  unfold TransitionState. case_decide; [by left|right]. split; [done|].
  eexists. split; [|done]. done.
Qed.

Lemma TransitionState_inv (from to : State.t) h :
  from ≠ State.kError → to ≠ State.kError →
  (∀ p, phase_of_state from p → phase_of_state to p) →
  harness_inv h → harness_inv (TransitionState from to h).2.
Proof.
  intros ??? Hinv.
  destruct (TransitionState_cases from to h) as [[<- ->]|[_ (e&?&->)]]; simpl.
  - by apply set_state_inv.
  - by apply ErrorInternal_inv.
Qed.

Lemma bind_ret_snd {S} (m : SM S) s : ((m ;;? sm_ret StatusOK) s).2 = (m s).2.
Proof. unfold sm_bind, sm_ret. destruct (m s) as [st s']. by destruct (ok st). Qed.

Lemma Load_calls_fields results h :
  h_state (Load_calls results h) = h_state h ∧
  h_status (Load_calls results h) = h_status h ∧
  h_trace (Load_calls results h) = h_trace h ++ (CallLoad <$> results).
Proof.
  unfold Load_calls. revert h. induction results as [|r results IH]; intros h; simpl.
  - by rewrite app_nil_r.
  - destruct (IH (add_call (CallLoad r) h)) as (->&->&->); simpl. by rewrite <-app_assoc.
Qed.

Lemma loader_phase_failed_loads trace fails :
  Forall (λ s, ok s = false) fails → loader_phase trace = Some LNotLoaded →
  loader_phase (trace ++ (CallLoad <$> fails)) = Some LNotLoaded.
Proof.
  intros Hf. revert trace. induction Hf as [|s fails Hs _ IH]; intros trace Ht; simpl.
  - by rewrite app_nil_r.
  - rewrite cons_middle, app_assoc. apply IH. by rewrite loader_phase_snoc, Ht; simpl; rewrite Hs.
Qed.

(** The part of [Load] after its first critical section, on a harness that is
    [kLoading]: the state and the phase of the loader follow the last try. *)
Lemma Load_tail_inv fails status h :
  h_state h = State.kLoading → Forall (λ s, ok s = false) fails → harness_inv h →
  harness_inv (Load_end status (Load_calls (fails ++ [status]) h)).2.
Proof.
  intros Hs Hf [Herr (p&Hp&Hph)]. rewrite Hs in Hph; simpl in Hph; subst p.
  set (h' := Load_calls (fails ++ [status]) h).
  destruct (Load_calls_fields (fails ++ [status]) h) as (Hs'&Hst'&Htr'); fold h' in Hs', Hst', Htr'.
  assert (loader_phase (h_trace h') =
    Some (if ok status then LLoaded else LNotLoaded)) as Hphase.
  { rewrite Htr', fmap_app, app_assoc; simpl. rewrite loader_phase_snoc.
    by rewrite loader_phase_failed_loads. }
  unfold Load_end. destruct (ok status) eqn:Hok.
  - destruct (TransitionState_cases State.kLoading State.kReady h') as [[_ E]|[? _]];
      [|congruence].
    rewrite (sm_bind_ok _ _ _ _ E). split; simpl.
    + rewrite Hst'. rewrite <-Herr, Hs. done.
    + eauto.
  - simpl. split.
    + by rewrite ErrorInternal_state, ErrorInternal_status.
    + exists LNotLoaded. by rewrite ErrorInternal_state, ErrorInternal_phase.
Qed.

Lemma Load_inv load cancelled h :
  harness_inv h → harness_inv (Load load cancelled h).2.
Proof.
  intros Hinv. unfold Load, Load_begin, sm_bind.
  destruct (TransitionState_cases State.kLoadApproved State.kLoading h)
    as [[Hs ->]|[_ (e&He&->)]]; simpl.
  - destruct (Retry _ _ _) as [status n] eqn:E.
    apply Retry_results in E as (fails&->&Hf). apply Load_tail_inv; [done..|].
    apply set_state_inv; [by rewrite Hs|done|by rewrite Hs|done].
  - rewrite He; simpl. by apply ErrorInternal_inv.
Qed.

Lemma Unload_inv h : harness_inv h → harness_inv (Unload h).2.
Proof.
  intros [Herr (p&Hp&Hph)]. unfold Unload, Unload_begin, sm_bind.
  destruct (TransitionState_cases State.kQuiesced State.kUnloading h)
    as [[Hs ->]|[_ (e&He&->)]]; simpl.
  - unfold Unload_end, sm_bind, TransitionState; simpl.
    rewrite Hs in Hph; simpl in Hph; subst p. split; simpl.
    + rewrite <-Herr, Hs. done.
    + exists LUnloaded. split; [|done]. by rewrite loader_phase_snoc, Hp.
  - rewrite He; simpl. apply ErrorInternal_inv; [done|]. split; eauto.
Qed.

Lemma run_op_inv op h : op_wf op → harness_inv h → harness_inv (run_op op h).2.
Proof.
  intros Hwf Hinv. destruct op; simpl in *.
  - unfold LoadRequested. case_decide as E; [|done]. simpl.
    apply set_state_inv; rewrite ?E; done.
  - unfold LoadApproved. rewrite bind_ret_snd. by apply TransitionState_inv.
  - by apply Load_inv.
  - unfold UnloadRequested. case_decide as E; [|done]. simpl.
    apply set_state_inv; rewrite ?E; done.
  - unfold StartQuiescing. rewrite bind_ret_snd. by apply TransitionState_inv.
  - unfold DoneQuiescing. rewrite bind_ret_snd. by apply TransitionState_inv.
  - by apply Unload_inv.
  - by apply ErrorInternal_inv.
  - destruct Hinv as [? ?]. by split.
Qed.

Lemma reachable_inv h : harness_reachable h → harness_inv h.
Proof.
  induction 1 as [i loader a options|h op _ IH Hwf].
  - split; simpl; [done|]. by exists LNotLoaded.
  - by apply run_op_inv.
Qed.
End harness_lemmas.

(** * Progress along the lifecycle *)

Lemma lifecycle_rank k s : lifecycle !! k = Some s → state_rank s = k.
Proof. do 11 (destruct k as [|k]; [by intros [= <-]|]); done. Qed.

Lemma legal_edge_rank s s' : legal_edge s s' → state_rank s ≤ state_rank s'.
Proof.
  intros [a b k ->%lifecycle_rank ->%lifecycle_rank|a]; [lia|]. destruct a; simpl; lia.
Qed.

Lemma legal_path_rank s s' : rtc legal_edge s s' → state_rank s ≤ state_rank s'.
Proof. induction 1 as [|s t u Hst%legal_edge_rank _ IH]; lia. Qed.

Section path_lemmas.
Context {A : Type}.
Implicit Types h : LoaderHarness A.

Lemma ErrorInternal_path e h : rtc legal_edge (h_state h) (h_state (ErrorInternal e h)).
Proof. rewrite ErrorInternal_state. apply rtc_once, edge_error. Qed.

Lemma TransitionState_path k from to h :
  lifecycle !! k = Some from → lifecycle !! S k = Some to →
  rtc legal_edge (h_state h) (h_state (TransitionState from to h).2).
Proof.
  intros Hf Ht.
  destruct (TransitionState_cases from to h) as [[-> ->]|[_ (e&_&->)]]; simpl.
  - by eapply rtc_once, edge_next.
  - apply ErrorInternal_path.
Qed.

Lemma Load_end_path status h :
  rtc legal_edge (h_state h) (h_state (Load_end status h).2).
Proof.
  unfold Load_end. destruct (ok status) eqn:E; [|apply ErrorInternal_path].
  apply ok_iff in E as ->. rewrite bind_ret_snd. by apply (TransitionState_path 3).
Qed.

Lemma Load_path load cancelled h :
  rtc legal_edge (h_state h) (h_state (Load load cancelled h).2).
Proof.
  unfold Load, Load_begin, sm_bind.
  pose proof (TransitionState_path 2 State.kLoadApproved State.kLoading h
    eq_refl eq_refl) as Hp.
  destruct (TransitionState _ _ h) as [st h']. destruct (ok st); [|done].
  destruct (Retry _ _ _) as [status n]. etrans; [exact Hp|]. simpl.
  etrans; [|apply Load_end_path].
  by destruct (Load_calls_fields (load <$> seq 0 n) h') as [-> _].
Qed.

Lemma Unload_path h : rtc legal_edge (h_state h) (h_state (Unload h).2).
Proof.
  unfold Unload, Unload_begin, sm_bind.
  pose proof (TransitionState_path 7 State.kQuiesced State.kUnloading h
    eq_refl eq_refl) as Hp.
  destruct (TransitionState _ _ h) as [st h']. destruct (ok st); [|done].
  etrans; [exact Hp|]. unfold Unload_end. rewrite bind_ret_snd.
  by apply (TransitionState_path 8 _ _ (add_call CallUnload h')).
Qed.
End path_lemmas.

Lemma run_op_path {A} (op : HarnessOp) (h : LoaderHarness A) :
  rtc legal_edge (h_state h) (h_state (run_op op h).2).
Proof.
  destruct op; simpl.
  - unfold LoadRequested. case_decide as E; [rewrite E|done].
    by eapply rtc_once, (edge_next _ _ 0).
  - unfold LoadApproved. rewrite bind_ret_snd. by apply (TransitionState_path 1).
  - apply Load_path.
  - unfold UnloadRequested. case_decide as E; [rewrite E|done].
    by eapply rtc_once, (edge_next _ _ 4).
  - unfold StartQuiescing. rewrite bind_ret_snd. by apply (TransitionState_path 5).
  - unfold DoneQuiescing. rewrite bind_ret_snd. by apply (TransitionState_path 6).
  - apply Unload_path.
  - apply ErrorInternal_path.
  - done.
Qed.

(** Whatever is called on a harness in whatever order, its state only moves
    down the chain new, load-requested, load-approved, loading, ready,
    unload-requested, quiescing, quiesced, unloading, disabled, one step at a
    time, or into the error state. *)
Theorem run_op_legal_path {A} (op : HarnessOp) (h : LoaderHarness A) :
  rtc legal_edge (h_state h) (h_state (run_op op h).2).
Proof. apply run_op_path. Qed.

(** C40: in every reachable harness the calls made on the loader follow the
    loader's contract: failed loads come first, at most one load succeeds and
    none follows it, [Unload()] is called at most once and only after the
    successful load; and the harness state says where the loader is in it. *)
Theorem harness_obeys_loader_contract {A} (h : LoaderHarness A) :
  harness_reachable h →
  ∃ p, loader_phase (h_trace h) = Some p ∧ phase_of_state (h_state h) p.
Proof. intros H. apply (inv_phase h (reachable_inv h H)). Qed.

Lemma example_run_reachable ops : Forall op_wf ops → harness_reachable (example_run ops).
Proof.
  unfold example_run. induction ops as [|op ops IH] using rev_ind; intros Hwf.
  - constructor.
  - apply Forall_app in Hwf as [Hwf Hop]. rewrite foldl_app; simpl.
    inversion Hop; subst. constructor; auto.
Qed.

Lemma harness_obeys_loader_contract_witness :
  ∃ p, loader_phase (h_trace (example_run example_ops)) = Some p ∧ phase_of_state State.kDisabled p.
Proof.
  apply (harness_obeys_loader_contract (example_run example_ops)).
  apply example_run_reachable. repeat constructor.
Defined.

(** A harness is in the error state exactly when its status is not OK, in
    every reachable harness. *)
Theorem harness_error_iff_status {A} (h : LoaderHarness A) :
  harness_reachable h → (h_state h = State.kError ↔ ok (h_status h) = false).
Proof. intros H. apply (inv_error h (reachable_inv h H)). Qed.

Lemma harness_error_iff_status_witness :
  h_state (example_run [OpLoadApproved]) = State.kError ↔
  ok (h_status (example_run [OpLoadApproved])) = false.
Proof.
  apply (harness_error_iff_status (example_run [OpLoadApproved])).
  apply example_run_reachable. repeat constructor.
Defined.

(** A load request succeeds at most once: after [LoadRequested] has returned
    OK, no sequence of calls leads to a harness where it returns OK again. *)
Theorem LoadRequested_once {A} (h : LoaderHarness A) (ops : list HarnessOp) :
  (LoadRequested h).1 = StatusOK →
  (LoadRequested (foldl (λ h op, (run_op op h).2) (LoadRequested h).2 ops)).1 ≠ StatusOK.
Proof.
  unfold LoadRequested at 1 3. case_decide as E; [|done]. intros _. simpl snd.
  set (h1 := set_state State.kLoadRequested h).
  assert (rtc legal_edge (h_state h1)
    (h_state (foldl (λ h op, (run_op op h).2) h1 ops))) as Hp.
  { generalize h1. induction ops as [|op ops IH]; intros h2; [done|]. simpl.
    etrans; [apply (run_op_path op h2)|apply IH]. }
  apply legal_path_rank in Hp. unfold LoadRequested. case_decide as E'; [|done].
  rewrite E' in Hp. simpl in Hp. lia.
Qed.

Lemma LoadRequested_once_witness :
  (LoadRequested (foldl (λ h op, (run_op op h).2)
    (LoadRequested (example_run [])).2 example_ops)).1 ≠ StatusOK.
Proof. apply (LoadRequested_once (example_run []) example_ops). reflexivity. Defined.

Lemma Retry_spec_witness :
  let '(st, n) := Retry 2 (λ k, if decide (k = 1) then StatusOK else Internal "x") (λ _, false) in
  1 ≤ n ∧ (Z.of_nat n <= 3)%Z ∧ st = StatusOK.
Proof.
  destruct (Retry_spec 2 (λ k, if decide (k = 1) then StatusOK else Internal "x") (λ _, false)
    StatusOK 2) as (H1&H2&_); [split; vm_compute; congruence|reflexivity|].
  split; [exact H1|]. split; [exact H2|reflexivity].
Defined.
