(* ===== verification/VersionPolicy.v ===== *)
(** Version transition policies:
    [tensorflow_serving/core/aspired_version_policy.{h,cc}],
    [availability_preserving_policy.cc] and [resource_preserving_policy.cc].

    The class [AspiredVersionPolicy] is the C++ interface; [LawfulPolicy] is what
    the aspired-versions manager relies on, and both policies satisfy it.  The
    theorem says what each policy answers, for every stream of versions. *)
From S2P Require Import Prelude Status Servable LoaderHarness.

(** * Data *)

Record AspiredServableStateSnapshot := mkAspired {
  as_id : ServableId;
  as_state : State.t;
  as_is_aspired : bool }.

(** [AspiredVersionPolicy::Action] and [ServableAction]. *)
Inductive Action := ActionLoad | ActionUnload.

#[export] Instance Action_eq_dec : EqDecision Action.
Proof. solve_decision. Defined.

Record ServableAction := mkAction { act_action : Action; act_id : ServableId }.

#[export] Instance ServableAction_eq_dec : EqDecision ServableAction.
Proof. solve_decision. Defined.

(** The abstract base class. *)
Class AspiredVersionPolicy : Type :=
  GetNextAction : list AspiredServableStateSnapshot → option ServableAction.

Abbreviation snapshots := (list AspiredServableStateSnapshot).

(** [version.is_aspired && version.state == kNew]. *)
Definition aspired_new (v : AspiredServableStateSnapshot) : bool :=
  as_is_aspired v && bool_decide (as_state v = State.kNew).

(** [!version.is_aspired && version.state == kReady]. *)
Definition unaspired_ready (v : AspiredServableStateSnapshot) : bool :=
  negb (as_is_aspired v) && bool_decide (as_state v = State.kReady).

(** [GetHighestAspiredNewServableId]: the body of its loop, and the loop. *)
Definition highest_step (acc : option ServableId) (v : AspiredServableStateSnapshot) :
    option ServableId :=
  if aspired_new v then
    match acc with
    | None => Some (as_id v)
    | Some i =>
        if (sid_version (as_id v) >? sid_version i)%Z then Some (as_id v) else acc
    end
  else acc.

Definition GetHighestAspiredNewServableId (all_versions : snapshots) : option ServableId :=
  foldl highest_step None all_versions.

(** [GetLowestServableId]: [std::min_element] keeps the first smallest one. *)
Definition lowest_step (acc : option ServableId) (v : AspiredServableStateSnapshot) :
    option ServableId :=
  match acc with
  | None => Some (as_id v)
  | Some i => if (sid_version (as_id v) <? sid_version i)%Z then Some (as_id v) else acc
  end.

Definition GetLowestServableId (all_versions : snapshots) : option ServableId :=
  foldl lowest_step None all_versions.

(** [AvailabilityPreservingPolicy::GetNextAction]. *)
Definition AvailabilityPreserving_GetNextAction (all_versions : snapshots) :
    option ServableAction :=
  let has_aspired := existsb as_is_aspired all_versions in
  let has_aspired_serving :=
    existsb (λ v, as_is_aspired v && bool_decide (as_state v = State.kReady)) all_versions in
  let unaspired_serving_versions := List.filter unaspired_ready all_versions in
  let load_highest :=
    (λ i, mkAction ActionLoad i) <$> GetHighestAspiredNewServableId all_versions in
  if negb has_aspired || has_aspired_serving ||
     bool_decide (1 < length unaspired_serving_versions) then
    match GetLowestServableId unaspired_serving_versions with
    | Some version_to_unload => Some (mkAction ActionUnload version_to_unload)
    | None => load_highest
    end
  else load_highest.

(** The [any_of] of [ResourcePreservingPolicy::GetNextAction]. *)
Definition not_aspired_not_finished (v : AspiredServableStateSnapshot) : bool :=
  negb (as_is_aspired v) && negb (bool_decide (as_state v = State.kDisabled)) &&
  negb (bool_decide (as_state v = State.kError)).

(** [ResourcePreservingPolicy::GetNextAction]. *)
Definition ResourcePreserving_GetNextAction (all_versions : snapshots) :
    option ServableAction :=
  match List.find unaspired_ready all_versions with
  | Some version => Some (mkAction ActionUnload (as_id version))
  | None =>
      if existsb not_aspired_not_finished all_versions then None
      else (λ i, mkAction ActionLoad i) <$> GetHighestAspiredNewServableId all_versions
  end.

Definition AvailabilityPreservingPolicy : AspiredVersionPolicy :=
  AvailabilityPreserving_GetNextAction.
Definition ResourcePreservingPolicy : AspiredVersionPolicy :=
  ResourcePreserving_GetNextAction.

(** * What a manager relies on *)

Class LawfulPolicy (P : AspiredVersionPolicy) : Prop := {
  policy_load vs i :
    GetNextAction vs = Some (mkAction ActionLoad i) →
    ∃ v, v ∈ vs ∧ as_id v = i ∧ aspired_new v = true ∧
      ∀ w, w ∈ vs → aspired_new w = true → (sid_version (as_id w) <= sid_version i)%Z;
  policy_unload vs i :
    GetNextAction vs = Some (mkAction ActionUnload i) →
    ∃ v, v ∈ vs ∧ as_id v = i ∧ unaspired_ready v = true }.

(** * Properties of a version *)

(** There may be an action to take on it. *)
Definition pending (v : AspiredServableStateSnapshot) : bool :=
  aspired_new v || unaspired_ready v.

Definition is_ready (v : AspiredServableStateSnapshot) : bool :=
  bool_decide (as_state v = State.kReady).

(** Versions of a stream on which no request is in flight and no load has failed. *)
Definition rollout_state (v : AspiredServableStateSnapshot) : Prop :=
  as_state v = State.kNew ∨ as_state v = State.kReady ∨
  (as_state v = State.kDisabled ∧ as_is_aspired v = false).

(** [v] may be unloaded without loss of availability: it is loaded and not aspired, and
    no version is aspired or another one is loaded. *)
Definition may_unload (vs : snapshots) (v : AspiredServableStateSnapshot) : Prop :=
  v ∈ vs ∧ unaspired_ready v = true ∧
  ((∀ w, w ∈ vs → as_is_aspired w = false) ∨ ∃ w, w ∈ vs ∧ as_id w ≠ as_id v ∧ is_ready w = true).

(** [i] is the new aspired version with the highest number. *)
Definition highest_new (vs : snapshots) (i : ServableId) : Prop :=
  ∃ v, v ∈ vs ∧ as_id v = i ∧ aspired_new v = true ∧
    ∀ w, w ∈ vs → aspired_new w = true → (sid_version (as_id w) <= sid_version i)%Z.

(** A stream in transition from version 1 to versions 2 and 3. *)
Definition example_stream : snapshots :=
  [mkAspired (mkServableId "m" 1) State.kReady false;
   mkAspired (mkServableId "m" 2) State.kNew true;
   mkAspired (mkServableId "m" 3) State.kNew true].

(** * The two searches *)

Lemma highest_foldl (vs : snapshots) acc :
  match foldl highest_step acc vs with
  | None => acc = None ∧ ∀ w, w ∈ vs → aspired_new w = false
  | Some i =>
      (acc = Some i ∨ ∃ v, v ∈ vs ∧ as_id v = i ∧ aspired_new v = true) ∧
      (∀ j, acc = Some j → (sid_version j <= sid_version i)%Z) ∧
      ∀ w, w ∈ vs → aspired_new w = true → (sid_version (as_id w) <= sid_version i)%Z
  end.
Proof.
  revert acc. induction vs as [|v vs IH]; intros acc; simpl.
  - destruct acc as [i|]; [|split; [done|set_solver]].
    split_and!; [by left|intros j [= ->]; lia|set_solver].
  - specialize (IH (highest_step acc v)). unfold highest_step in *.
    destruct (aspired_new v) eqn:Hv.
    + destruct acc as [j|].
      * destruct (Z.gtb_spec (sid_version (as_id v)) (sid_version j)) as [Hgt|Hle];
          destruct (foldl _ _ vs) as [i|]; destruct IH as [H1 H2]; try done;
          destruct H2 as [H2 H3]; specialize (H2 _ eq_refl);
          (split_and!; [|intros ? [= ->]; lia|]); 
          try (intros w [->|Hw]%elem_of_cons ?; [lia|by apply H3]);
          destruct H1 as [[= <-]|(u&?&?&?)]; set_solver.
      * destruct (foldl _ _ vs) as [i|]; destruct IH as [H1 H2]; try done.
        destruct H2 as [H2 H3]; specialize (H2 _ eq_refl).
        split_and!; [|done|intros w [->|Hw]%elem_of_cons ?; [lia|by apply H3]].
        right. destruct H1 as [[= <-]|(u&?&?&?)]; set_solver.
    + destruct (foldl _ _ vs) as [i|]; destruct IH as [H1 H2].
      * destruct H2 as [H2 H3]. split_and!; [|done|].
        -- destruct H1 as [->|(u&?&?&?)]; set_solver.
        -- intros w [->|Hw]%elem_of_cons ?; [congruence|by apply H3].
      * split; [done|]. intros w [->|Hw]%elem_of_cons; [done|by apply H2].
Qed.

Lemma lowest_foldl (vs : snapshots) acc :
  match foldl lowest_step acc vs with
  | None => acc = None ∧ vs = []
  | Some i =>
      (acc = Some i ∨ ∃ v, v ∈ vs ∧ as_id v = i) ∧
      (∀ j, acc = Some j → (sid_version i <= sid_version j)%Z) ∧
      ∀ w, w ∈ vs → (sid_version i <= sid_version (as_id w))%Z
  end.
Proof.
  revert acc. induction vs as [|v vs IH]; intros acc; simpl.
  - destruct acc as [i|]; [|done].
    split_and!; [by left|intros j [= ->]; lia|set_solver].
  - specialize (IH (lowest_step acc v)). unfold lowest_step in *.
    destruct acc as [j|].
    + destruct (Z.ltb_spec (sid_version (as_id v)) (sid_version j)) as [Hlt|Hle];
        destruct (foldl _ _ vs) as [i|]; destruct IH as [H1 H2]; try done;
        destruct H2 as [H2 H3]; specialize (H2 _ eq_refl);
        (split_and!; [|intros ? [= ->]; lia|]);
        try (intros w [->|Hw]%elem_of_cons; [lia|by apply H3]);
        destruct H1 as [[= <-]|(u&?&?)]; set_solver.
    + destruct (foldl _ _ vs) as [i|]; destruct IH as [H1 H2]; try done.
      destruct H2 as [H2 H3]; specialize (H2 _ eq_refl).
      split_and!; [|done|intros w [->|Hw]%elem_of_cons; [lia|by apply H3]].
      right. destruct H1 as [[= <-]|(u&?&?)]; set_solver.
Qed.

Lemma highest_some vs i :
  GetHighestAspiredNewServableId vs = Some i →
  ∃ v, v ∈ vs ∧ as_id v = i ∧ aspired_new v = true ∧
    ∀ w, w ∈ vs → aspired_new w = true → (sid_version (as_id w) <= sid_version i)%Z.
Proof.
  intros E. pose proof (highest_foldl vs None) as H.
  unfold GetHighestAspiredNewServableId in E. rewrite E in H.
  destruct H as [[?|(v&?&?&?)] [_ ?]]; [done|eauto 10].
Qed.

Lemma highest_none vs :
  GetHighestAspiredNewServableId vs = None ↔ ∀ w, w ∈ vs → aspired_new w = false.
Proof.
  pose proof (highest_foldl vs None) as H. unfold GetHighestAspiredNewServableId.
  destruct (foldl _ _ _) as [i|]; [|by destruct H].
  destruct H as [[?|(v&?&?&Hv)] _]; [done|]. split; [done|].
  intros Hall. by rewrite Hall in Hv.
Qed.

Lemma lowest_some vs i :
  GetLowestServableId vs = Some i →
  ∃ v, v ∈ vs ∧ as_id v = i ∧ ∀ w, w ∈ vs → (sid_version i <= sid_version (as_id w))%Z.
Proof.
  intros E. pose proof (lowest_foldl vs None) as H. unfold GetLowestServableId in E.
  rewrite E in H. destruct H as [[?|(v&?&?)] [_ ?]]; [done|eauto].
Qed.

Lemma lowest_none vs : GetLowestServableId vs = None ↔ vs = [].
Proof.
  pose proof (lowest_foldl vs None) as H. unfold GetLowestServableId.
  destruct (foldl _ _ _) as [i|]; [|by destruct H].
  destruct H as [[?|(v&Hv&?)] _]; [done|]. split; [done|]. by intros ->; apply elem_of_nil in Hv.
Qed.

Lemma elem_of_filterb (f : AspiredServableStateSnapshot → bool) v vs :
  v ∈ List.filter f vs ↔ v ∈ vs ∧ f v = true.
Proof. rewrite !list_elem_of_In. apply filter_In. Qed.

(** * The policies are lawful *)

Lemma existsb_false {T} (f : T → bool) l : existsb f l = false ↔ ∀ x, x ∈ l → f x = false.
Proof.
  rewrite <-not_true_iff_false, existsb_exists. setoid_rewrite <-list_elem_of_In.
  split.
  - intros H x Hx. destruct (f x) eqn:E; [|done]. destruct H. eauto.
  - intros H (x&Hx&E). by rewrite H in E.
Qed.

Lemma existsb_true {T} (f : T → bool) l : existsb f l = true ↔ ∃ x, x ∈ l ∧ f x = true.
Proof. rewrite existsb_exists. by setoid_rewrite <-list_elem_of_In. Qed.

(** Every way the availability-preserving policy can answer. *)
Lemma availability_cases vs a :
  AvailabilityPreserving_GetNextAction vs = Some a →
  (∃ i, a = mkAction ActionUnload i ∧
     GetLowestServableId (List.filter unaspired_ready vs) = Some i ∧
     ((∀ v, v ∈ vs → as_is_aspired v = false) ∨
      (∃ v, v ∈ vs ∧ as_is_aspired v = true ∧ is_ready v = true) ∨
      1 < length (List.filter unaspired_ready vs))) ∨
  (∃ i, a = mkAction ActionLoad i ∧ GetHighestAspiredNewServableId vs = Some i).
Proof.
  unfold AvailabilityPreserving_GetNextAction. intros H.
  destruct (_ || _ || _) eqn:E.
  - destruct (GetLowestServableId _) as [i|] eqn:EL.
    + injection H as <-. left. exists i. split_and!; [done..|].
      apply orb_true_iff in E as [[E|E]%orb_true_iff|E].
      * left. by apply existsb_false, negb_true_iff.
      * right; left. apply existsb_true in E as (v&?&?). bool_hyps.
        exists v. split_and!; [done..|]. by apply bool_decide_eq_true.
      * right; right. by apply bool_decide_eq_true in E.
    + apply fmap_Some in H as (i&?&->). eauto.
  - apply fmap_Some in H as (i&?&->). eauto.
Qed.

#[export] Instance availability_lawful : LawfulPolicy AvailabilityPreservingPolicy.
Proof.
  split; intros vs i [(j&E&H&_)|(j&E&H)]%availability_cases; simplify_eq.
  - by apply highest_some.
  - apply lowest_some in H as (v&[??]%elem_of_filterb&?&_). eauto.
Qed.

#[export] Instance resource_lawful : LawfulPolicy ResourcePreservingPolicy.
Proof.
  split; unfold GetNextAction, ResourcePreservingPolicy, ResourcePreserving_GetNextAction;
    intros vs i H; destruct (List.find _ vs) as [v|] eqn:E; simplify_eq.
  - destruct (existsb _ _); [done|]. apply fmap_Some in H as (j&H&[= ->]).
    by apply highest_some.
  - apply find_some in E as [Hv%list_elem_of_In ?]. eauto.
  - destruct (existsb _ _); [done|]. by apply fmap_Some in H as (j&H&?).
Qed.

(** * What the policies answer *)

Lemma same_id vs v w :
  NoDup (as_id <$> vs) → v ∈ vs → w ∈ vs → as_id v = as_id w → v = w.
Proof.
  intros Hnd [k Hk]%list_elem_of_lookup [k' Hk']%list_elem_of_lookup E.
  assert (k = k') as ->; [|congruence].
  eapply NoDup_lookup; [exact Hnd|by rewrite list_lookup_fmap, Hk|].
  rewrite list_lookup_fmap, Hk'. simpl. congruence.
Qed.

(** Two ready versions of a stream with distinct ids leave one that is not [i]. *)
Lemma two_ready vs (i : ServableId) :
  NoDup (as_id <$> vs) → 1 < length (List.filter unaspired_ready vs) →
  ∃ v, v ∈ vs ∧ unaspired_ready v = true ∧ as_id v ≠ i.
Proof.
  intros Hnd Hlen.
  assert (NoDup (as_id <$> List.filter unaspired_ready vs)) as Hnd'.
  { clear Hlen. induction vs as [|v vs IH]; simpl; [done|]. simpl in Hnd.
    apply NoDup_cons in Hnd as [Hnin Hnd].
    destruct (unaspired_ready v); [|by apply IH]. simpl. apply NoDup_cons. split; [|by apply IH].
    intros (w&Ew&[Hw _]%elem_of_filterb)%list_elem_of_fmap. destruct Hnin.
    rewrite Ew. by apply list_elem_of_fmap_2. }
  destruct (List.filter unaspired_ready vs) as [|v [|w l]] eqn:E; simpl in Hlen; [lia..|].
  assert (v ∈ List.filter unaspired_ready vs ∧ w ∈ List.filter unaspired_ready vs)
    as [[??]%elem_of_filterb [??]%elem_of_filterb] by (rewrite E; set_solver).
  destruct (decide (as_id v = i)) as [<-|]; [|by exists v].
  exists w. split_and!; [done..|]. intros Heq. simpl in Hnd'.
  apply NoDup_cons in Hnd' as [Hnin _]. rewrite Heq in Hnin. set_solver.
Qed.

Lemma unaspired_ready_is_ready v : unaspired_ready v = true → is_ready v = true.
Proof. unfold unaspired_ready. intros. by bool_hyps; apply bool_decide_eq_true. Qed.

Lemma availability_none vs :
  AvailabilityPreserving_GetNextAction vs = None →
  (∀ v, v ∈ vs → aspired_new v = false) ∧
  ((∃ v, v ∈ vs ∧ as_is_aspired v = true ∧ is_ready v = true) →
    ∀ v, v ∈ vs → unaspired_ready v = false).
Proof.
  unfold AvailabilityPreserving_GetNextAction. intros H.
  assert (GetHighestAspiredNewServableId vs = None) as Hh.
  { destruct (_ || _ || _); [destruct (GetLowestServableId _); [done|]|];
      by apply fmap_None in H. }
  split; [by apply highest_none|]. intros (w&Hw&Hwa&Hwr) v Hv.
  rewrite (proj2 (existsb_true (λ v, as_is_aspired v && _) vs)), orb_true_r in H.
  - simpl in H. destruct (GetLowestServableId _) eqn:E; [done|].
    apply lowest_none in E. destruct (unaspired_ready v) eqn:Hur; [|done].
    assert (v ∈ List.filter unaspired_ready vs) as Hin by by apply elem_of_filterb.
    rewrite E in Hin. by apply elem_of_nil in Hin.
  - exists w. split; [done|]. by rewrite Hwa.
Qed.

Lemma availability_none_unaspired vs :
  AvailabilityPreserving_GetNextAction vs = None →
  (∀ v, v ∈ vs → as_is_aspired v = false) → ∀ v, v ∈ vs → unaspired_ready v = false.
Proof.
  unfold AvailabilityPreserving_GetNextAction. intros H Hno v Hv.
  assert (existsb as_is_aspired vs = false) as Hf by (by apply existsb_false).
  rewrite Hf in H. simpl in H.
  destruct (GetLowestServableId _) as [i|] eqn:E; [done|]. apply lowest_none in E.
  apply not_true_iff_false. intros Hu.
  assert (v ∈ List.filter unaspired_ready vs) as Hin by (by apply elem_of_filterb).
  rewrite E in Hin. by apply not_elem_of_nil in Hin.
Qed.

(** The guard of the availability-preserving policy. *)
Lemma guard_may_unload vs v :
  NoDup (as_id <$> vs) → v ∈ vs → unaspired_ready v = true →
  (negb (existsb as_is_aspired vs) || existsb (λ v, as_is_aspired v && bool_decide (as_state v = State.kReady)) vs ||
   bool_decide (1 < length (List.filter unaspired_ready vs))) = true ↔ may_unload vs v.
Proof.
  intros Hnd Hv Hu. rewrite !orb_true_iff, negb_true_iff, bool_decide_eq_true, existsb_false, existsb_true. split.
  - intros H. split_and!; [done..|]. destruct H as [[H|(w&Hw&Ha)]|H]; [by left|right..].
    + apply andb_true_iff in Ha as [Ha Hr]. exists w. split_and!; [done| |done]. intros E.
      rewrite (same_id vs w v Hnd Hw Hv E) in Ha. unfold unaspired_ready in Hu. by rewrite Ha in Hu.
    + destruct (two_ready vs (as_id v) Hnd H) as (w&?&?&?). exists w. split_and!; [done..|by apply unaspired_ready_is_ready].
  - intros (_&_&[H|(w&Hw&Hne&Hr)]); [tauto|]. destruct (as_is_aspired w) eqn:Ha; [left; right; exists w; by rewrite Ha|]. right.
    assert (Hw' : w ∈ List.filter unaspired_ready vs) by (apply elem_of_filterb; split; [done|]; unfold unaspired_ready; by rewrite Ha).
    assert (Hv' : v ∈ List.filter unaspired_ready vs) by (by apply elem_of_filterb).
    destruct (List.filter unaspired_ready vs) as [|x [|y l]]; [by apply not_elem_of_nil in Hw'| |cbn; lia].
    apply list_elem_of_singleton in Hw' as ->. apply list_elem_of_singleton in Hv' as ->. done.
Qed.

(** The new aspired version that a policy loads, if any. *)
Lemma load_highest_spec vs :
  match (λ i, mkAction ActionLoad i) <$> GetHighestAspiredNewServableId vs with
  | Some a => ∃ i, a = mkAction ActionLoad i ∧ highest_new vs i
  | None => ∀ v, v ∈ vs → aspired_new v = false
  end.
Proof.
  destruct (GetHighestAspiredNewServableId vs) as [i|] eqn:E; cbn; [|by apply highest_none].
  exists i. split; [done|by apply highest_some].
Qed.

Lemma availability_decides vs :
  NoDup (as_id <$> vs) →
  match AvailabilityPreserving_GetNextAction vs with
  | Some (mkAction ActionUnload i) => ∃ v, may_unload vs v ∧ as_id v = i ∧
      ∀ w, w ∈ vs → unaspired_ready w = true → (sid_version i <= sid_version (as_id w))%Z
  | Some (mkAction ActionLoad i) => (∀ v, ¬ may_unload vs v) ∧ highest_new vs i
  | None => (∀ v, ¬ may_unload vs v) ∧ ∀ v, v ∈ vs → aspired_new v = false
  end.
Proof.
  intros Hnd. pose proof (load_highest_spec vs) as Hload. unfold AvailabilityPreserving_GetNextAction.
  set (load := (λ i, mkAction ActionLoad i) <$> _) in *. set (guard := _ || _ || _).
  assert (Hg : ∀ v, may_unload vs v → guard = true).
  { intros v Hm. pose proof Hm as (Hv&Hu&_). by apply (guard_may_unload vs v). }
  assert (Hnone : (∀ v, ¬ may_unload vs v) → match load with
    | Some (mkAction ActionUnload i) => ∃ v, may_unload vs v ∧ as_id v = i ∧
        ∀ w, w ∈ vs → unaspired_ready w = true → (sid_version i <= sid_version (as_id w))%Z
    | Some (mkAction ActionLoad i) => (∀ v, ¬ may_unload vs v) ∧ highest_new vs i
    | None => (∀ v, ¬ may_unload vs v) ∧ ∀ v, v ∈ vs → aspired_new v = false end).
  { intros Hno. destruct load as [a|]; [|done]. by destruct Hload as (i&->&?). }
  destruct guard eqn:Eg; [|apply Hnone; intros v Hm; by specialize (Hg v Hm)].
  destruct (GetLowestServableId _) as [i|] eqn:El.
  - apply lowest_some in El as (v&[Hv Hu]%elem_of_filterb&Hid&Hmin). exists v. split; [by apply guard_may_unload|]. split; [done|].
    intros w Hw Hwu. apply Hmin. by apply elem_of_filterb.
  - apply lowest_none in El. apply Hnone. intros v (Hv&Hu&_).
    assert (Hin : v ∈ List.filter unaspired_ready vs) by (by apply elem_of_filterb). rewrite El in Hin. by apply not_elem_of_nil in Hin.
Qed.

Lemma resource_decides vs :
  match ResourcePreserving_GetNextAction vs with
  | Some (mkAction ActionUnload i) => ∃ v, v ∈ vs ∧ as_id v = i ∧ unaspired_ready v = true
  | Some (mkAction ActionLoad i) =>
      (∀ v, v ∈ vs → as_is_aspired v = false → as_state v = State.kDisabled ∨ as_state v = State.kError) ∧
      highest_new vs i
  | None =>
      (∀ v, v ∈ vs → unaspired_ready v = false) ∧
      ((∃ v, v ∈ vs ∧ not_aspired_not_finished v = true) ∨ ∀ v, v ∈ vs → aspired_new v = false)
  end.
Proof.
  pose proof (load_highest_spec vs) as Hload. unfold ResourcePreserving_GetNextAction.
  destruct (List.find _ vs) as [v|] eqn:E; [apply find_some in E as [Hv%list_elem_of_In ?]; eauto|].
  assert (Hno : ∀ v, v ∈ vs → unaspired_ready v = false) by (intros v Hv%list_elem_of_In; by apply (find_none _ _ E)).
  destruct (existsb _ vs) eqn:Ex; [split; [done|]; left; by apply existsb_true|].
  set (load := (λ i, mkAction ActionLoad i) <$> _) in *. destruct load as [a|]; [|by auto]. destruct Hload as (i&->&Hi). split; [|done].
  intros v Hv Hva. rewrite existsb_false in Ex. specialize (Ex v Hv). unfold not_aspired_not_finished in Ex. rewrite Hva in Ex.
  cbn in Ex. by rewrite andb_false_iff, !negb_false_iff, !bool_decide_eq_true in Ex.
Qed.


(** * Witness *)

Lemma example_stream_NoDup : NoDup (as_id <$> example_stream).
Proof. apply (bool_decide_unpack _). vm_compute. exact I. Qed.

