(* ===== verification/Resources.v ===== *)
(** Resource arithmetic and tracking:
    [tensorflow_serving/resources/resource_util.{h,cc}] and
    [resource_tracker.cc].

    The protocol buffers [Resource] and [ResourceAllocation] are records and
    lists; a pointer to an entry of a repeated field is an index.  Quantities
    are [uint64] and wrap.  The device table [devices_] is a section parameter;
    reading it through the end iterator, which the code does only for devices
    its callers have validated, yields zero instances in the model.  Release
    builds are modelled: [DCHECK]s do nothing. *)
From S2P Require Import Prelude Status.
Local Open Scope N_scope.

(** * Data

    Quantities and instance numbers are unsigned, hence [N]. *)

Definition u64n (n : N) : N := n mod 2 ^ 64.

Record Resource := mkResource {
  r_device : string;
  r_device_instance : option N;
  r_kind : string }.

#[export] Instance Resource_eq_dec : EqDecision Resource.
Proof. solve_decision. Defined.

Record Entry := mkEntry { e_resource : Resource; e_quantity : N }.

#[export] Instance Entry_eq_dec : EqDecision Entry.
Proof. solve_decision. Defined.

Abbreviation ResourceAllocation := (list Entry).

(** [RawResourcesEqual], test by test. *)
Definition RawResourcesEqual (lhs rhs : Resource) : bool :=
  if negb (String.eqb (r_device lhs) (r_device rhs)) then false
  else if negb (Bool.eqb (bool_decide (is_Some (r_device_instance lhs)))
                         (bool_decide (is_Some (r_device_instance rhs)))) then false
  else
    match r_device_instance lhs with
    | Some _ =>
        if negb (default 0 (r_device_instance lhs) =? default 0 (r_device_instance rhs))
        then false else String.eqb (r_kind lhs) (r_kind rhs)
    | None => String.eqb (r_kind lhs) (r_kind rhs)
    end.

(** [StripDevicesWithZeroInstances]. *)
Definition StripDevicesWithZeroInstances (devices : gmap string N) : gmap string N :=
  filter (λ kv, 0 < kv.2) devices.

(** [FindMutableEntry]: the index of the entry, or a null pointer. *)
Fixpoint FindMutableEntry (resource : Resource) (allocation : ResourceAllocation) : option nat :=
  match allocation with
  | [] => None
  | entry :: rest =>
      if RawResourcesEqual (e_resource entry) resource then Some O
      else S <$> FindMutableEntry resource rest
  end.

(** [FindOrInsertMutableEntry]: the allocation and the index of the entry. *)
Definition FindOrInsertMutableEntry (resource : Resource) (allocation : ResourceAllocation) :
    ResourceAllocation * nat :=
  match FindMutableEntry resource allocation with
  | Some i => (allocation, i)
  | None => (allocation ++ [mkEntry resource 0], length allocation)
  end.

(** [entry->quantity()] and [entry->set_quantity(q)] through an entry pointer. *)
Definition quantity_at (i : nat) (allocation : ResourceAllocation) : N :=
  default 0 (e_quantity <$> allocation !! i).

Definition set_quantity (i : nat) (q : N) (allocation : ResourceAllocation) : ResourceAllocation :=
  alter (λ e, mkEntry (e_resource e) q) i allocation.

(** [FindOrInsertMutableEntry] followed by a write computed from the old value. *)
Definition upsert (resource : Resource) (f : N → N) (allocation : ResourceAllocation) :
    ResourceAllocation :=
  let '(allocation', i) := FindOrInsertMutableEntry resource allocation in
  set_quantity i (f (quantity_at i allocation')) allocation'.

Section util.
(** [devices_], the device table after [StripDevicesWithZeroInstances]. *)
Context (devices : gmap string N).

Definition num_instances (device : string) : N := default 0 (devices !! device).

(** [VerifyResourceValidityInternal] and [VerifyResourceValidity]. *)
Definition VerifyResourceValidity (resource : Resource) : Status :=
  match devices !! r_device resource with
  | None =>
      InvalidArgument ("Invalid resource allocation: Invalid device " +:+ r_device resource)
  | Some num_instances =>
      match r_device_instance resource with
      | Some instance =>
          if num_instances <=? instance then
            InvalidArgument ("Invalid resource allocation: Invalid device instance " +:+
              r_device resource +:+ ":" +:+ pretty instance)
          else StatusOK
      | None => StatusOK
      end
  end.

(** [VerifyValidityInternal] and [VerifyValidity]; the dump of the allocation in
    the message is left out. *)
Fixpoint verify_entries (validated_entries allocation : ResourceAllocation) : Status :=
  match allocation with
  | [] => StatusOK
  | entry :: rest =>
      let validity := VerifyResourceValidity (e_resource entry) in
      if negb (ok validity) then validity
      else
        match FindMutableEntry (e_resource entry) validated_entries with
        | Some _ => InvalidArgument "Invalid resource allocation: Repeated resource"
        | None => verify_entries (validated_entries ++ [entry]) rest
        end
  end.

Definition VerifyValidity (allocation : ResourceAllocation) : Status :=
  verify_entries [] allocation.

(** [NormalizeResource]. *)
Definition NormalizeResource (resource : Resource) : Resource :=
  match r_device_instance resource with
  | Some _ => resource
  | None =>
      if num_instances (r_device resource) =? 1
      then mkResource (r_device resource) (Some 0) (r_kind resource)
      else resource
  end.

(** [Normalize]. *)
Fixpoint normalize_entries (allocation : ResourceAllocation) : ResourceAllocation :=
  match allocation with
  | [] => []
  | entry :: rest =>
      if e_quantity entry =? 0 then normalize_entries rest
      else mkEntry (NormalizeResource (e_resource entry)) (e_quantity entry)
             :: normalize_entries rest
  end.

Definition Normalize (allocation : ResourceAllocation) : ResourceAllocation :=
  if ok (VerifyValidity allocation) then normalize_entries allocation else allocation.

(** [IsResourceNormalized] and [IsNormalized]. *)
Definition IsResourceNormalized (resource : Resource) : bool :=
  if ok (VerifyResourceValidity resource) then
    bool_decide (is_Some (r_device_instance resource)) ||
    (1 <? num_instances (r_device resource))
  else false.

Definition IsNormalized (allocation : ResourceAllocation) : bool :=
  if ok (VerifyValidity allocation) then
    forallb (λ entry, negb (e_quantity entry =? 0) && IsResourceNormalized (e_resource entry))
      allocation
  else false.

(** [IsBoundNormalized] and [IsBound]. *)
Definition IsBoundNormalized (allocation : ResourceAllocation) : bool :=
  forallb (λ entry, bool_decide (is_Some (r_device_instance (e_resource entry)))) allocation.

Definition IsBound (allocation : ResourceAllocation) : bool :=
  IsBoundNormalized (Normalize allocation).

(** [CreateBoundResource]. *)
Definition CreateBoundResource (device kind : string) (device_instance : N) : Resource :=
  mkResource device (Some device_instance) kind.

(** [ResourcesEqualNormalized] and [ResourcesEqual]. *)
Definition ResourcesEqualNormalized (lhs rhs : Resource) : bool :=
  if negb (ok (VerifyResourceValidity lhs)) || negb (ok (VerifyResourceValidity rhs))
  then false else RawResourcesEqual lhs rhs.

Definition ResourcesEqual (lhs rhs : Resource) : bool :=
  ResourcesEqualNormalized (NormalizeResource lhs) (NormalizeResource rhs).

(** [GetQuantity]. *)
Fixpoint GetQuantity (resource : Resource) (allocation : ResourceAllocation) : N :=
  match allocation with
  | [] => 0
  | entry :: rest =>
      if ResourcesEqual (e_resource entry) resource then e_quantity entry
      else GetQuantity resource rest
  end.

(** [SetQuantity]. *)
Fixpoint SetQuantity (resource : Resource) (quantity : N) (allocation : ResourceAllocation) :
    ResourceAllocation :=
  match allocation with
  | [] => [mkEntry resource quantity]
  | entry :: rest =>
      if ResourcesEqual (e_resource entry) resource
      then mkEntry (e_resource entry) quantity :: rest
      else entry :: SetQuantity resource quantity rest
  end.

(** [AddNormalized] and [Add]. *)
Definition AddNormalized (to_add base : ResourceAllocation) : ResourceAllocation :=
  foldl (λ base to_add_entry,
    upsert (e_resource to_add_entry) (λ q, u64n (q + e_quantity to_add_entry)) base) base to_add.

Definition Add (to_add base : ResourceAllocation) : ResourceAllocation :=
  AddNormalized (Normalize to_add) (Normalize base).

(** [SubtractNormalized]: the buffered new quantities, then the writes. *)
Fixpoint subtract_quantities (to_subtract base : ResourceAllocation) : option (list (nat * N)) :=
  match to_subtract with
  | [] => Some []
  | entry :: rest =>
      match FindMutableEntry (e_resource entry) base with
      | None => None
      | Some i =>
          if quantity_at i base <? e_quantity entry then None
          else cons (i, quantity_at i base - e_quantity entry) <$> subtract_quantities rest base
      end
  end.

Definition SubtractNormalized (to_subtract base : ResourceAllocation) :
    bool * ResourceAllocation :=
  match subtract_quantities to_subtract base with
  | None => (false, base)
  | Some new_quantities =>
      (true, Normalize (foldl (λ base nq, set_quantity nq.1 nq.2 base) base new_quantities))
  end.

Definition Subtract (to_subtract base : ResourceAllocation) : bool * ResourceAllocation :=
  SubtractNormalized (Normalize to_subtract) (Normalize base).

(** [MultiplyNormalized] and [Multiply]. *)
Definition MultiplyNormalized (multiplier : N) (base : ResourceAllocation) : ResourceAllocation :=
  (λ entry, mkEntry (e_resource entry) (u64n (e_quantity entry * multiplier))) <$> base.

Definition Multiply (multiplier : N) (base : ResourceAllocation) : ResourceAllocation :=
  MultiplyNormalized multiplier (Normalize base).

(** [EqualNormalized] and [Equal]. *)
Definition EqualNormalized (lhs rhs : ResourceAllocation) : bool :=
  if negb (ok (VerifyValidity lhs)) || negb (ok (VerifyValidity rhs)) then false
  else if negb (length lhs =? length rhs)%nat then false
  else forallb (λ lhs_entry,
    existsb (λ rhs_entry,
      ResourcesEqual (e_resource lhs_entry) (e_resource rhs_entry) &&
      (e_quantity lhs_entry =? e_quantity rhs_entry)) rhs) lhs.

Definition Equal (lhs rhs : ResourceAllocation) : bool :=
  EqualNormalized (Normalize lhs) (Normalize rhs).

(** [bound_resource.mutable_device_instance()->set_value(instance)]. *)
Definition bind_resource (resource : Resource) (instance : N) : Resource :=
  mkResource (r_device resource) (Some instance) (r_kind resource).

Definition is_bound (entry : Entry) : bool :=
  bool_decide (is_Some (r_device_instance (e_resource entry))).

(** [LessThanOrEqualNormalized], phase 1: subtract the bound entries. *)
Fixpoint subtract_bound (lhs subtracted_rhs : ResourceAllocation) : option ResourceAllocation :=
  match lhs with
  | [] => Some subtracted_rhs
  | entry :: rest =>
      if is_bound entry then
        match Subtract [entry] subtracted_rhs with
        | (true, subtracted_rhs') => subtract_bound rest subtracted_rhs'
        | (false, _) => None
        end
      else subtract_bound rest subtracted_rhs
  end.

(** Phase 2: room on some instance for each unbound entry. *)
Definition found_room (entry : Entry) (subtracted_rhs : ResourceAllocation) : bool :=
  existsb (λ instance,
    e_quantity entry <=?
      GetQuantity (bind_resource (e_resource entry) (N.of_nat instance)) subtracted_rhs)
    (seq 0 (N.to_nat (num_instances (r_device (e_resource entry))))).

Definition LessThanOrEqualNormalized (lhs rhs : ResourceAllocation) : bool :=
  if negb (ok (VerifyValidity lhs)) || negb (ok (VerifyValidity rhs)) then false
  else
    match subtract_bound lhs rhs with
    | None => false
    | Some subtracted_rhs =>
        forallb (λ entry, is_bound entry || found_room entry subtracted_rhs) lhs
    end.

Definition LessThanOrEqual (lhs rhs : ResourceAllocation) : bool :=
  LessThanOrEqualNormalized (Normalize lhs) (Normalize rhs).

(** [OverbindNormalized] and [Overbind]. *)
Definition overbind_entry (result : ResourceAllocation) (entry : Entry) : ResourceAllocation :=
  if is_bound entry then
    upsert (e_resource entry) (λ q, u64n (e_quantity entry + q)) result
  else
    foldl (λ result instance,
      upsert (bind_resource (e_resource entry) (N.of_nat instance))
        (λ q, u64n (e_quantity entry + q)) result)
      result (seq 0 (N.to_nat (num_instances (r_device (e_resource entry))))).

Definition OverbindNormalized (allocation : ResourceAllocation) : ResourceAllocation :=
  if ok (VerifyValidity allocation) then foldl overbind_entry [] allocation else allocation.

Definition Overbind (allocation : ResourceAllocation) : ResourceAllocation :=
  OverbindNormalized (Normalize allocation).

(** [MaxNormalized] and [Max]. *)
Definition MaxNormalized (lhs rhs : ResourceAllocation) : ResourceAllocation :=
  foldl (λ acc lhs_entry,
    upsert (e_resource lhs_entry)
      (λ q, if q <=? e_quantity lhs_entry then e_quantity lhs_entry else q) acc) rhs lhs.

Definition Max (lhs rhs : ResourceAllocation) : ResourceAllocation :=
  MaxNormalized (Normalize lhs) (Normalize rhs).
End util.

(** * The tracker *)

(** The members of [ResourceTracker]. *)
Record ResourceTracker := mkTracker {
  rt_devices : gmap string N;
  rt_total_resources : ResourceAllocation;
  rt_used_resources : ResourceAllocation }.

(** A loader's [EstimateResources]: a status, and the estimate it filled in. *)
Definition Estimate : Type := Status * ResourceAllocation.

(** [ResourceTracker::Create]. *)
Definition Tracker_Create (devices : gmap string N) (total_resources : ResourceAllocation) :
    Status * option ResourceTracker :=
  let validity := VerifyValidity devices total_resources in
  if negb (ok validity) then (validity, None)
  else
    let normalized_total_resources := Normalize devices total_resources in
    if negb (IsBound devices normalized_total_resources)
    then (InvalidArgument "total_resources must be bound: ", None)
    else (StatusOK, Some (mkTracker devices normalized_total_resources [])).

(** [ResourceTracker::ReserveResources]: the status, the out-parameter
    [*success] when it is written, and the tracker. *)
Definition Tracker_ReserveResources (estimate : Estimate) (t : ResourceTracker) :
    Status * option bool * ResourceTracker :=
  let '(estimate_status, servable_resources) := estimate in
  if negb (ok estimate_status) then (estimate_status, None, t)
  else
    let validity := VerifyValidity (rt_devices t) servable_resources in
    if negb (ok validity) then (validity, None, t)
    else
      let conservative_proposed_used_resources :=
        Add (rt_devices t) servable_resources
          (Overbind (rt_devices t) (rt_used_resources t)) in
      if LessThanOrEqual (rt_devices t) conservative_proposed_used_resources
           (rt_total_resources t)
      then (StatusOK, Some true,
            mkTracker (rt_devices t) (rt_total_resources t)
              (Add (rt_devices t) servable_resources (rt_used_resources t)))
      else (StatusOK, Some false, t).

(** [ResourceTracker::RecomputeUsedResources]: the loop after the clear. *)
Fixpoint recompute_loop (devices : gmap string N) (estimates : list Estimate)
    (used : ResourceAllocation) : Status * ResourceAllocation :=
  match estimates with
  | [] => (StatusOK, used)
  | (estimate_status, servable_resources) :: rest =>
      if negb (ok estimate_status) then (estimate_status, used)
      else
        let validity := VerifyValidity devices servable_resources in
        if negb (ok validity) then (validity, used)
        else recompute_loop devices rest (Add devices servable_resources used)
  end.

Definition Tracker_RecomputeUsedResources (estimates : list Estimate) (t : ResourceTracker) :
    Status * ResourceTracker :=
  let '(status, used) := recompute_loop (rt_devices t) estimates [] in
  (status, mkTracker (rt_devices t) (rt_total_resources t) used).

(** * Specification vocabulary *)

(** The quantity of the first entry for exactly [r]. *)
Fixpoint qty (r : Resource) (a : ResourceAllocation) : N :=
  match a with
  | [] => 0
  | e :: rest => if decide (e_resource e = r) then e_quantity e else qty r rest
  end.

Section spec.
Context (devices : gmap string N).

Definition valid_resource (r : Resource) : Prop := VerifyResourceValidity devices r = StatusOK.

#[export] Instance valid_resource_dec r : Decision (valid_resource r).
Proof. unfold valid_resource. apply _. Defined.

(** Entries of [uint64] type. *)
Definition typed (a : ResourceAllocation) : Prop := Forall (λ e, e_quantity e < 2 ^ 64) a.

(** Well-formed input: valid, and no two entries name the same resource once
    singleton devices are bound to their only instance. *)
Record well_formed (a : ResourceAllocation) : Prop := {
  wf_valid : VerifyValidity devices a = StatusOK;
  wf_distinct : NoDup (NormalizeResource devices <$> (e_resource <$> a));
  wf_typed : typed a }.

(** Normal form, as [IsNormalized] tests it. *)
Record canonical (a : ResourceAllocation) : Prop := {
  can_valid : Forall (λ e, valid_resource (e_resource e)) a;
  can_nodup : NoDup (e_resource <$> a);
  can_norm : Forall (λ e, NormalizeResource devices (e_resource e) = e_resource e) a;
  can_nonzero : Forall (λ e, e_quantity e ≠ 0) a;
  can_typed : typed a }.
End spec.

(** The resource of the same device and kind bound to no instance. *)
Definition unbind (r : Resource) : Resource := mkResource (r_device r) None (r_kind r).

Definition bound (r : Resource) : Prop := is_Some (r_device_instance r).
#[export] Instance bound_dec r : Decision (bound r).
Proof. apply _. Defined.

(** One CPU and two GPUs, and allocations over them. *)
Definition ex_devices : gmap string N := <["cpu" := 1]> (<["gpu" := 2]> ∅).
Definition ex_cpu : Resource := mkResource "cpu" None "ram".
Definition ex_gpu : Resource := mkResource "gpu" None "ram".
Definition ex_request : ResourceAllocation := [mkEntry ex_cpu 3; mkEntry ex_gpu 2].
Definition ex_total : ResourceAllocation :=
  [mkEntry (bind_resource ex_cpu 0) 10; mkEntry (bind_resource ex_gpu 0) 4;
   mkEntry (bind_resource ex_gpu 1) 4].

(** * Entries *)

Lemma RawResourcesEqual_spec (a b : Resource) : RawResourcesEqual a b = true ↔ a = b.
Proof.
  unfold RawResourcesEqual. destruct a as [da ia ka], b as [db ib kb]; simpl. split.
  - destruct (String.eqb_spec da db) as [->|]; simpl; [|done].
    destruct ia as [ia|], ib as [ib|]; simpl; try done.
    + destruct (N.eqb_spec ia ib) as [->|]; simpl; [|done].
      by intros ->%String.eqb_eq.
    + by intros ->%String.eqb_eq.
  - intros [= -> -> ->]. rewrite !String.eqb_refl. simpl.
    rewrite eqb_reflx. simpl. destruct ib; simpl; [by rewrite N.eqb_refl|done].
Qed.

Lemma FindMutableEntry_Some r a i :
  FindMutableEntry r a = Some i →
  ∃ e, a !! i = Some e ∧ e_resource e = r ∧ e_quantity e = qty r a.
Proof.
  revert i. induction a as [|e a IH]; intros i; simpl; [done|].
  destruct (RawResourcesEqual (e_resource e) r) eqn:E.
  - intros [= <-]. apply RawResourcesEqual_spec in E. exists e.
    by rewrite decide_True.
  - intros (j&Hj&->)%fmap_Some. apply IH in Hj as (e'&?&?&?). exists e'. simpl.
    rewrite decide_False; [done|]. intros E'%RawResourcesEqual_spec. congruence.
Qed.

Lemma FindMutableEntry_None r a :
  FindMutableEntry r a = None ↔ r ∉ e_resource <$> a.
Proof.
  induction a as [|e a IH]; simpl; [set_solver|].
  destruct (RawResourcesEqual (e_resource e) r) eqn:E.
  - apply RawResourcesEqual_spec in E as <-. set_solver.
  - rewrite fmap_None, IH, not_elem_of_cons.
    assert (e_resource e ≠ r); [|naive_solver]. intros E'%RawResourcesEqual_spec. congruence.
Qed.

Lemma qty_not_in r a : r ∉ e_resource <$> a → qty r a = 0.
Proof.
  induction a as [|e a IH]; simpl; [done|]. rewrite not_elem_of_cons. intros [Hne Hni].
  rewrite decide_False by done. by apply IH.
Qed.

Lemma qty_in r e a : NoDup (e_resource <$> a) → e ∈ a → e_resource e = r → qty r a = e_quantity e.
Proof.
  intros Hnd He <-. induction a as [|e' a IH]; [by apply elem_of_nil in He|].
  simpl in *. apply NoDup_cons in Hnd as [Hnin Hnd].
  apply elem_of_cons in He as [->|He]; [by rewrite decide_True|].
  rewrite decide_False; [by apply IH|]. intros E. destruct Hnin. rewrite E.
  by apply list_elem_of_fmap_2.
Qed.

Lemma qty_elem r a : qty r a ≠ 0 → ∃ e, e ∈ a ∧ e_resource e = r ∧ e_quantity e = qty r a.
Proof.
  intros Hq. destruct (FindMutableEntry r a) as [i|] eqn:E.
  - apply FindMutableEntry_Some in E as (e&?&?&?). exists e.
    split_and!; [by eapply list_elem_of_lookup_2|done..].
  - apply FindMutableEntry_None, qty_not_in in E. done.
Qed.

Lemma qty_app r a b :
  qty r (a ++ b) = if decide (r ∈ e_resource <$> a) then qty r a else qty r b.
Proof.
  induction a as [|e a IH]; [case_decide; [set_solver|done]|].
  cbn [qty app]. rewrite IH. repeat case_decide; set_solver.
Qed.

Lemma qty_typed r a : typed a → qty r a < 2 ^ 64.
Proof.
  intros Ht. destruct (decide (qty r a = 0)) as [->|Hq]; [lia|].
  apply qty_elem in Hq as (e&He&_&<-). unfold typed in Ht. rewrite Forall_forall in Ht.
  by apply Ht.
Qed.

(** ** Writes *)

Lemma set_quantity_resources i q a : e_resource <$> set_quantity i q a = e_resource <$> a.
Proof.
  unfold set_quantity. apply list_eq. intros k. rewrite !list_lookup_fmap.
  destruct (decide (i = k)) as [<-|].
  - rewrite list_lookup_alter_eq. by destruct (a !! i).
  - by rewrite list_lookup_alter_ne.
Qed.

Lemma FindMutableEntry_resources r a b :
  e_resource <$> a = e_resource <$> b → FindMutableEntry r a = FindMutableEntry r b.
Proof.
  revert b. induction a as [|e a IH]; intros [|e' b]; simpl; intros [=]; [done|].
  by rewrite (IH b), H0 by done.
Qed.

Lemma set_quantity_0 q e a : set_quantity 0 q (e :: a) = mkEntry (e_resource e) q :: a.
Proof. done. Qed.

Lemma set_quantity_S i q e a : set_quantity (S i) q (e :: a) = e :: set_quantity i q a.
Proof. done. Qed.

Lemma qty_set_quantity r r' i q a :
  FindMutableEntry r a = Some i →
  qty r' (set_quantity i q a) = if decide (r = r') then q else qty r' a.
Proof.
  revert i. induction a as [|e a IH]; intros i; [done|].
  cbn [FindMutableEntry]. destruct (RawResourcesEqual (e_resource e) r) eqn:E.
  - intros [= <-]. apply RawResourcesEqual_spec in E. rewrite set_quantity_0.
    cbn [qty e_resource e_quantity]. rewrite E. by repeat case_decide.
  - intros (j&Hj&->)%fmap_Some. rewrite set_quantity_S. cbn [qty]. rewrite IH by done.
    assert (e_resource e ≠ r) as Hne by (intros E'%RawResourcesEqual_spec; congruence).
    repeat case_decide; congruence.
Qed.

Lemma quantity_at_find r i a : FindMutableEntry r a = Some i → quantity_at i a = qty r a.
Proof.
  intros (e&He&_&<-)%FindMutableEntry_Some. unfold quantity_at. by rewrite He.
Qed.

Lemma find_inserted r a :
  FindMutableEntry r a = None →
  FindMutableEntry r (a ++ [mkEntry r 0]) = Some (length a).
Proof.
  induction a as [|e a IH]; simpl; intros H.
  - by rewrite (proj2 (RawResourcesEqual_spec r r) eq_refl).
  - destruct (RawResourcesEqual (e_resource e) r); [done|].
    apply fmap_None in H. by rewrite IH.
Qed.

Lemma qty_upsert r r' f a :
  qty r' (upsert r f a) = if decide (r = r') then f (qty r a) else qty r' a.
Proof.
  unfold upsert, FindOrInsertMutableEntry.
  destruct (FindMutableEntry r a) as [i|] eqn:E.
  - rewrite (qty_set_quantity r) by done. by rewrite (quantity_at_find r).
  - pose proof (find_inserted r a E) as E'. rewrite (qty_set_quantity r) by done.
    rewrite (quantity_at_find r) by done. apply FindMutableEntry_None in E.
    rewrite !qty_app. simpl. repeat case_decide; try done; subst.
    + by rewrite (qty_not_in r' a).
    + by rewrite (qty_not_in r' a).
Qed.

Lemma upsert_resources r f a :
  e_resource <$> upsert r f a =
  (e_resource <$> a) ++ (if decide (r ∈ e_resource <$> a) then [] else [r]).
Proof.
  unfold upsert, FindOrInsertMutableEntry.
  destruct (FindMutableEntry r a) as [i|] eqn:E; rewrite set_quantity_resources.
  - rewrite decide_True; [by rewrite app_nil_r|].
    apply FindMutableEntry_Some in E as (e&?&<-&_).
    by eapply list_elem_of_fmap_2, list_elem_of_lookup_2.
  - rewrite fmap_app. apply FindMutableEntry_None in E. by rewrite decide_False.
Qed.

Lemma upsert_elem r f a r' :
  r' ∈ e_resource <$> upsert r f a ↔ r' = r ∨ r' ∈ e_resource <$> a.
Proof. rewrite upsert_resources, elem_of_app. case_decide; set_solver. Qed.

Lemma upsert_NoDup r f a :
  NoDup (e_resource <$> a) → NoDup (e_resource <$> upsert r f a).
Proof.
  intros Hnd. rewrite upsert_resources. case_decide; [by rewrite app_nil_r|].
  apply NoDup_app. split_and!; [done|set_solver|apply NoDup_singleton].
Qed.

(** With distinct resources an allocation is determined by its quantities. *)
Lemma Forall_by_qty (P : Resource → N → Prop) a :
  NoDup (e_resource <$> a) →
  Forall (λ e, P (e_resource e) (e_quantity e)) a ↔
  ∀ r, r ∈ e_resource <$> a → P r (qty r a).
Proof.
  intros Hnd. rewrite Forall_forall. split.
  - intros H r (e&->&He)%list_elem_of_fmap. rewrite (qty_in _ e) by done. by apply H.
  - intros H e He. rewrite <-(qty_in _ e a Hnd He eq_refl). apply H.
    by apply list_elem_of_fmap_2.
Qed.

(** * Validity and normal form *)

Section lemmas.
Context (devices : gmap string N).
Local Abbreviation valid := (valid_resource devices).
Local Abbreviation norm := (NormalizeResource devices).

Lemma valid_resource_iff r :
  valid r ↔ ∃ n, devices !! r_device r = Some n ∧
    ∀ i, r_device_instance r = Some i → i < n.
Proof.
  unfold valid_resource, VerifyResourceValidity. split.
  - destruct (devices !! r_device r) as [n|]; [|done]. intros H. exists n. split; [done|].
    intros i Hi. rewrite Hi in H. destruct (N.leb_spec n i); [done|lia].
  - intros (n&->&Hn). destruct (r_device_instance r) as [i|]; [|done].
    specialize (Hn i eq_refl). destruct (N.leb_spec n i); [lia|done].
Qed.

Lemma ok_valid r : ok (VerifyResourceValidity devices r) = true ↔ valid r.
Proof. apply ok_iff. Qed.

Lemma norm_idemp r : norm (norm r) = norm r.
Proof.
  unfold NormalizeResource. destruct r as [d [i|] k]; simpl; [done|].
  destruct (num_instances devices d =? 1) eqn:E; simpl; [done|]. by rewrite E.
Qed.

Lemma norm_valid r : valid r → valid (norm r).
Proof.
  rewrite !valid_resource_iff. intros (n&Hn&Hi). unfold NormalizeResource.
  destruct r as [d [i|] k]; simpl in *; [eauto|].
  destruct (num_instances devices d =? 1) eqn:E; simpl; [|eauto].
  exists n. split; [done|]. intros i [= <-]. unfold num_instances in E. rewrite Hn in E.
  apply N.eqb_eq in E. simpl in E. lia.
Qed.

Lemma ResourcesEqual_spec a b :
  valid a → valid b → ResourcesEqual devices a b = true ↔ norm a = norm b.
Proof.
  intros Ha Hb. unfold ResourcesEqual, ResourcesEqualNormalized.
  apply norm_valid, ok_valid in Ha, Hb. rewrite Ha, Hb. simpl. apply RawResourcesEqual_spec.
Qed.

Lemma verify_entries_spec seen a :
  verify_entries devices seen a = StatusOK ↔
  Forall (λ e, valid (e_resource e)) a ∧ NoDup (e_resource <$> a) ∧
  (∀ e, e ∈ a → e_resource e ∉ e_resource <$> seen).
Proof.
  revert seen. induction a as [|e a IH]; intros seen; cbn [verify_entries].
  - split; [|done]. intros _. split_and!; [constructor|constructor|set_solver].
  - rewrite Forall_cons, fmap_cons, NoDup_cons.
    unfold valid_resource at 1.
    destruct (VerifyResourceValidity devices (e_resource e)) as [|c m] eqn:Ev; simpl; [|naive_solver].
    destruct (FindMutableEntry (e_resource e) seen) as [i|] eqn:Ef.
    + split; [done|]. intros (_&_&Hs). destruct (Hs e); [set_solver|].
      apply FindMutableEntry_Some in Ef as (e'&?&<-&_).
      by eapply list_elem_of_fmap_2, list_elem_of_lookup_2.
    + apply FindMutableEntry_None in Ef. rewrite IH. setoid_rewrite fmap_app.
      setoid_rewrite elem_of_app. split.
      * intros (?&?&Hs). split_and!; try done.
        -- intros (e'&E&He')%list_elem_of_fmap. apply (Hs e' He'). right. set_solver.
        -- intros e' [->|He']%elem_of_cons; [done|]. intros ?. apply (Hs e' He'). by left.
      * intros ((_&?)&(Hnin&?)&Hs). split_and!; try done. intros e' He' [?|Hx].
        -- apply (Hs e'); set_solver.
        -- assert (e_resource e' = e_resource e) as E by set_solver.
           destruct Hnin. rewrite <-E. by apply list_elem_of_fmap_2.
Qed.

Lemma VerifyValidity_iff a :
  VerifyValidity devices a = StatusOK ↔
  Forall (λ e, valid (e_resource e)) a ∧ NoDup (e_resource <$> a).
Proof.
  unfold VerifyValidity. rewrite verify_entries_spec. split; [naive_solver|].
  intros [??]. split_and!; [done..|]. intros. simpl. by apply not_elem_of_nil.
Qed.

Lemma canonical_valid a : canonical devices a → VerifyValidity devices a = StatusOK.
Proof. intros []. by apply VerifyValidity_iff. Qed.

Lemma canonical_norm a r : canonical devices a → r ∈ e_resource <$> a → norm r = r ∧ valid r.
Proof.
  intros [Hv _ Hn _ _] (e&->&He)%list_elem_of_fmap. rewrite Forall_forall in Hv, Hn. auto.
Qed.

Lemma GetQuantity_canonical a r :
  canonical devices a → valid r → GetQuantity devices r a = qty (norm r) a.
Proof.
  intros [Hv _ Hn _ _] Hr. induction a as [|e a IH]; [done|].
  apply Forall_cons in Hv as [Hve Hv], Hn as [Hne Hn].
  cbn [GetQuantity qty]. rewrite IH by done.
  destruct (ResourcesEqual devices (e_resource e) r) eqn:E.
  - apply ResourcesEqual_spec in E; [|done..]. by rewrite decide_True by congruence.
  - rewrite decide_False; [done|]. intros E'.
    assert (ResourcesEqual devices (e_resource e) r = true); [|congruence].
    apply ResourcesEqual_spec; [done..|congruence].
Qed.

(** ** Normalization of entries *)

Lemma normalize_entries_resources a r :
  r ∈ e_resource <$> normalize_entries devices a → r ∈ norm <$> (e_resource <$> a).
Proof.
  induction a as [|e a IH]; simpl; [done|].
  destruct (e_quantity e =? 0); simpl; set_solver.
Qed.

Lemma normalize_entries_NoDup a :
  NoDup (norm <$> (e_resource <$> a)) → NoDup (e_resource <$> normalize_entries devices a).
Proof.
  induction a as [|e a IH]; simpl; [done|]. rewrite NoDup_cons. intros [Hnin Hnd].
  destruct (e_quantity e =? 0); simpl; [by apply IH|].
  apply NoDup_cons. split; [|by apply IH]. intros H%normalize_entries_resources. done.
Qed.

Lemma normalize_entries_Forall (P : Entry → Prop) a :
  (∀ e, e ∈ a → e_quantity e ≠ 0 → P (mkEntry (norm (e_resource e)) (e_quantity e))) →
  Forall P (normalize_entries devices a).
Proof.
  induction a as [|e a IH]; intros H; [constructor|]. cbn [normalize_entries].
  destruct (N.eqb_spec (e_quantity e) 0).
  - apply IH. intros. apply H; [set_solver|done].
  - constructor; [apply H; set_solver|]. apply IH. intros. apply H; [set_solver|done].
Qed.

Lemma normalize_canonical a : well_formed devices a → canonical devices (Normalize devices a).
Proof.
  intros [Hv Hd Ht]. unfold Normalize. rewrite Hv. simpl.
  apply VerifyValidity_iff in Hv as [Hv _]. unfold typed in Ht.
  rewrite Forall_forall in Hv, Ht. split.
  - apply normalize_entries_Forall. intros. by apply norm_valid, Hv.
  - by apply normalize_entries_NoDup.
  - apply normalize_entries_Forall. intros. simpl. apply norm_idemp.
  - by apply normalize_entries_Forall.
  - apply normalize_entries_Forall. intros. simpl. by apply Ht.
Qed.

(** Normalization does not change the quantities the code reads. *)
Lemma GetQuantity_normalize a r :
  well_formed devices a → valid r →
  GetQuantity devices r a = qty (norm r) (Normalize devices a).
Proof.
  intros [Hv Hd _] Hr. unfold Normalize. rewrite Hv. simpl.
  apply VerifyValidity_iff in Hv as [Hv _].
  induction a as [|e a IH]; [done|]. apply Forall_cons in Hv as [Hve Hv].
  cbn [fmap list_fmap] in Hd. apply NoDup_cons in Hd as [Hnin Hd].
  specialize (IH Hv Hd). cbn [GetQuantity normalize_entries].
  destruct (ResourcesEqual devices (e_resource e) r) eqn:E.
  - apply ResourcesEqual_spec in E; [|done..]. destruct (N.eqb_spec (e_quantity e) 0) as [->|].
    + rewrite <-E, qty_not_in; [done|]. intros H%normalize_entries_resources. done.
    + cbn [qty e_resource e_quantity]. by rewrite decide_True.
  - assert (norm (e_resource e) ≠ norm r).
    { intros E'. apply ResourcesEqual_spec in E'; [congruence|done..]. }
    destruct (e_quantity e =? 0); [done|]. cbn [qty e_resource]. by rewrite decide_False.
Qed.

Lemma canonical_well_formed a : canonical devices a → well_formed devices a.
Proof.
  intros Hc. split; [by apply canonical_valid| |by apply Hc].
  destruct Hc as [_ Hnd Hn _ _].
  assert (norm <$> (e_resource <$> a) = e_resource <$> a) as ->; [|done].
  clear Hnd. induction Hn; simpl; [done|]. by f_equal.
Qed.

Lemma normalize_entries_id a :
  Forall (λ e, norm (e_resource e) = e_resource e) a → Forall (λ e, e_quantity e ≠ 0) a →
  normalize_entries devices a = a.
Proof.
  intros Hn Hz. induction Hn as [|e a He _ IH]; [done|].
  apply Forall_cons in Hz as [Hze Hz]. cbn [normalize_entries].
  rewrite (proj2 (N.eqb_neq _ _) Hze), He, IH by done. by destruct e.
Qed.

Lemma normalize_id a : canonical devices a → Normalize devices a = a.
Proof.
  intros Hc. unfold Normalize. rewrite canonical_valid by done. simpl.
  apply normalize_entries_id; apply Hc.
Qed.

Lemma IsNormalized_canonical a :
  (∀ d n, devices !! d = Some n → 0 < n) →
  typed a → IsNormalized devices a = true ↔ canonical devices a.
Proof.
  intros Hpos Ht. unfold IsNormalized. split.
  - destruct (VerifyValidity devices a) eqn:Hv; simpl; [|done].
    apply VerifyValidity_iff in Hv as [Hv Hnd]. intros Hf.
    assert (∀ e, e ∈ a → e_quantity e ≠ 0 ∧ norm (e_resource e) = e_resource e) as H.
    { intros e He. rewrite forallb_forall in Hf.
      specialize (Hf e (proj1 (list_elem_of_In _ _) He)). bool_hyps. split.
      - by apply N.eqb_neq.
      - unfold IsResourceNormalized in H0. destruct (ok _); [|done].
        unfold NormalizeResource. destruct (r_device_instance (e_resource e)) eqn:E; [done|].
        rewrite bool_decide_false in H0 by by intros []. simpl in H0.
        apply N.ltb_lt in H0. destruct (N.eqb_spec (num_instances devices (r_device (e_resource e))) 1); [lia|done]. }
    split; [done..| | |done]; apply Forall_forall; intros e He; by apply H.
  - intros Hc. pose proof (canonical_valid a Hc) as ->. simpl. apply forallb_forall.
    intros e He%list_elem_of_In. destruct Hc as [Hv _ Hn Hz _].
    rewrite Forall_forall in Hv, Hn, Hz. specialize (Hv e He). specialize (Hn e He).
    apply andb_true_iff. split; [by apply negb_true_iff, N.eqb_neq, Hz|].
    unfold IsResourceNormalized. rewrite (proj2 (ok_valid _) Hv).
    apply valid_resource_iff in Hv as (n&Hdev&Hi). unfold NormalizeResource in Hn.
    destruct (e_resource e) as [d [i|] k]; simpl in *; [done|].
    unfold num_instances in *. rewrite Hdev in *. simpl in *.
    destruct (N.eqb_spec n 1); [done|]. apply N.ltb_lt.
    specialize (Hpos _ _ Hdev). lia.
Qed.
End lemmas.

(** * Arithmetic *)

Lemma u64n_small n : n < 2 ^ 64 → u64n n = n.
Proof. apply N.mod_small. Qed.

Lemma u64n_lt n : u64n n < 2 ^ 64.
Proof. apply N.mod_lt. done. Qed.

Section arithmetic.
Context (devices : gmap string N).
Local Abbreviation valid := (valid_resource devices).
Local Abbreviation norm := (NormalizeResource devices).
Local Abbreviation canonical := (canonical devices).

(** Normal form in terms of the quantities alone. *)
Lemma canonical_iff a :
  canonical a ↔ NoDup (e_resource <$> a) ∧
    ∀ r, r ∈ e_resource <$> a → valid r ∧ norm r = r ∧ qty r a ≠ 0 ∧ qty r a < 2 ^ 64.
Proof.
  split.
  - intros [Hv Hnd Hn Hz Ht]. split; [done|]. intros r Hr. unfold typed in Ht.
    rewrite (Forall_by_qty (λ r _, valid r)) in Hv by done.
    rewrite (Forall_by_qty (λ r _, norm r = r)) in Hn by done.
    rewrite (Forall_by_qty (λ _ q, q ≠ 0)) in Hz by done.
    rewrite (Forall_by_qty (λ _ q, q < 2 ^ 64)) in Ht by done. auto.
  - intros [Hnd H]. split; unfold typed.
    + apply (Forall_by_qty (λ r _, valid r)); [done|]. apply H.
    + done.
    + apply (Forall_by_qty (λ r _, norm r = r)); [done|]. apply H.
    + apply (Forall_by_qty (λ _ q, q ≠ 0)); [done|]. apply H.
    + apply (Forall_by_qty (λ _ q, q < 2 ^ 64)); [done|]. apply H.
Qed.

Lemma canonical_nil : canonical [].
Proof. split; constructor. Qed.

Lemma canonical_cons e a : canonical (e :: a) → canonical a ∧ qty (e_resource e) a = 0.
Proof.
  intros [Hv Hnd Hn Hz Ht]. cbn [fmap list_fmap] in Hnd. apply NoDup_cons in Hnd as [Hnin Hnd].
  split; [split; try done; by eapply Forall_cons|by apply qty_not_in].
Qed.

Lemma upsert_canonical r f a :
  canonical a → valid r → norm r = r → f (qty r a) ≠ 0 → f (qty r a) < 2 ^ 64 →
  canonical (upsert r f a).
Proof.
  intros [Hnd H]%canonical_iff Hv Hn Hz Ht. apply canonical_iff. split; [by apply upsert_NoDup|].
  intros r' Hr'. rewrite qty_upsert. apply upsert_elem in Hr'.
  case_decide; [by subst|]. apply H. destruct Hr'; congruence.
Qed.

Lemma AddNormalized_qty x b r :
  NoDup (e_resource <$> x) → (∀ r, qty r b < 2 ^ 64) →
  qty r (AddNormalized x b) = u64n (qty r b + qty r x).
Proof.
  revert b. induction x as [|e x IH]; intros b Hnd Ht; cbn [qty].
  - rewrite N.add_0_r, u64n_small; [done|apply Ht].
  - cbn [fmap list_fmap] in Hnd. apply NoDup_cons in Hnd as [Hnin Hnd].
    unfold AddNormalized in *. cbn [foldl]. rewrite IH; [|done|].
    + rewrite qty_upsert. case_decide as E; [|done]. subst r.
      rewrite (qty_not_in _ x) by done. rewrite N.add_0_r. apply u64n_small, u64n_lt.
    + intros r'. rewrite qty_upsert. case_decide; [apply u64n_lt|apply Ht].
Qed.

Lemma AddNormalized_canonical x b :
  canonical x → canonical b → (∀ r, qty r b + qty r x < 2 ^ 64) →
  canonical (AddNormalized x b).
Proof.
  revert b. induction x as [|e x IH]; intros b Hx Hb Hov; [done|].
  destruct (canonical_cons e x Hx) as [Hx' H0]. destruct Hx as [Hv _ Hn Hz _].
  apply Forall_cons in Hv as [Hv _], Hn as [Hn _], Hz as [Hz _].
  pose proof (Hov (e_resource e)) as Hove. cbn [qty] in Hove. rewrite decide_True in Hove by done.
  unfold AddNormalized in *. cbn [foldl]. apply IH; [done| |].
  - apply upsert_canonical; [done..| |]; rewrite u64n_small by done; lia.
  - intros r. rewrite qty_upsert. case_decide as E.
    + subst r. rewrite u64n_small by done. lia.
    + specialize (Hov r). cbn [qty] in Hov. by rewrite decide_False in Hov.
Qed.

Lemma Add_canonical a b :
  canonical a → canonical b → Add devices a b = AddNormalized a b.
Proof. intros. unfold Add. by rewrite !normalize_id. Qed.

(** ** Subtraction *)

Lemma subtract_quantities_Some x b nqs :
  subtract_quantities x b = Some nqs → NoDup (e_resource <$> x) →
  (∀ e, e ∈ x → e_resource e ∈ e_resource <$> b ∧ e_quantity e <= qty (e_resource e) b) ∧
  ∀ b', e_resource <$> b' = e_resource <$> b →
    let b'' := foldl (λ base nq, set_quantity nq.1 nq.2 base) b' nqs in
    e_resource <$> b'' = e_resource <$> b ∧
    ∀ r, qty r b'' = if decide (r ∈ e_resource <$> x) then qty r b - qty r x else qty r b'.
Proof.
  revert nqs. induction x as [|e x IH]; intros nqs; cbn [subtract_quantities].
  - intros [= <-] _. split; [set_solver|]. intros b' Hb'. split; [done|]. intros r.
    rewrite decide_False; [done|]. cbn. set_solver.
  - destruct (FindMutableEntry (e_resource e) b) as [i|] eqn:Ef; [|done].
    rewrite (quantity_at_find (e_resource e)) by done.
    destruct (N.ltb_spec (qty (e_resource e) b) (e_quantity e)); [done|].
    intros (nqs'&Hs&->)%fmap_Some. cbn [fmap list_fmap]. rewrite NoDup_cons. intros [Hnin Hnd].
    destruct (IH _ Hs Hnd) as [IHe IHw]. split.
    + intros e' [->|He']%elem_of_cons; [|by apply IHe]. split; [|done].
      apply FindMutableEntry_Some in Ef as (e'&?&<-&_).
      by eapply list_elem_of_fmap_2, list_elem_of_lookup_2.
    + intros b' Hb'. cbn [foldl].
      destruct (IHw (set_quantity i (qty (e_resource e) b - e_quantity e) b')) as [Hr Hq].
      { by rewrite set_quantity_resources. }
      split; [exact Hr|]. intros r. cbn [fst snd] in *. rewrite Hq.
      rewrite (qty_set_quantity (e_resource e)) by (by rewrite (FindMutableEntry_resources _ _ b)).
      cbn [qty]. change (list_fmap Entry Resource e_resource x) with (e_resource <$> x).
      repeat case_decide; subst; try done; set_solver.
Qed.

Lemma subtract_quantities_None x b :
  subtract_quantities x b = None →
  ∃ e, e ∈ x ∧ (e_resource e ∉ e_resource <$> b ∨ qty (e_resource e) b < e_quantity e).
Proof.
  induction x as [|e x IH]; cbn [subtract_quantities]; [done|].
  destruct (FindMutableEntry (e_resource e) b) as [i|] eqn:Ef.
  - rewrite (quantity_at_find (e_resource e)) by done.
    destruct (N.ltb_spec (qty (e_resource e) b) (e_quantity e)).
    + intros _. exists e. split; [set_solver|by right].
    + intros (e'&?&?)%fmap_None%IH. exists e'. split; [set_solver|done].
  - intros _. exists e. split; [set_solver|]. left. by apply FindMutableEntry_None.
Qed.

(** Normalizing an allocation in normal form except for zero quantities. *)
Lemma normalize_drop_zeros b :
  NoDup (e_resource <$> b) → (∀ r, qty r b < 2 ^ 64) →
  (∀ r, r ∈ e_resource <$> b → valid r ∧ norm r = r) →
  canonical (Normalize devices b) ∧ ∀ r, qty r (Normalize devices b) = qty r b.
Proof.
  intros Hnd Ht Hr.
  assert (Forall (λ e, valid (e_resource e)) b) as Hv.
  { apply (Forall_by_qty (λ r _, valid r)); [done|]. apply Hr. }
  assert (Forall (λ e, norm (e_resource e) = e_resource e) b) as Hn.
  { apply (Forall_by_qty (λ r _, norm r = r)); [done|]. apply Hr. }
  assert (norm <$> (e_resource <$> b) = e_resource <$> b) as Heq.
  { clear -Hn. induction Hn; [done|]. cbn [fmap list_fmap]. by f_equal. }
  assert (VerifyValidity devices b = StatusOK) as Hok by by apply VerifyValidity_iff.
  split.
  - apply normalize_canonical. split; [done|by rewrite Heq|].
    apply (Forall_by_qty (λ _ q, q < 2 ^ 64)); [done|]. intros. apply Ht.
  - intros r. unfold Normalize. rewrite Hok. cbn [ok]. clear Heq Hok Ht Hr Hv.
    induction Hn as [|e b He _ IH]; [done|]. cbn [fmap list_fmap] in Hnd.
    apply NoDup_cons in Hnd as [Hnin Hnd]. specialize (IH Hnd). cbn [normalize_entries].
    destruct (N.eqb_spec (e_quantity e) 0) as [Ez|]; cbn [qty e_resource e_quantity].
    + rewrite IH. case_decide; [|done]. subst r. by rewrite qty_not_in.
    + rewrite He, IH. done.
Qed.

Lemma SubtractNormalized_spec x b :
  canonical x → canonical b →
  match SubtractNormalized devices x b with
  | (true, b') => (∀ r, qty r x <= qty r b) ∧ canonical b' ∧ ∀ r, qty r b' = qty r b - qty r x
  | (false, b') => b' = b ∧ ∃ r, qty r b < qty r x
  end.
Proof.
  intros Hx Hb. destruct (Hx) as [_ Hnd _ Hz _].
  destruct (proj1 (canonical_iff b) Hb) as [Hndb Hrb].
  unfold SubtractNormalized. destruct (subtract_quantities x b) as [nqs|] eqn:E.
  - apply subtract_quantities_Some in E as [He Hw]; [|done].
    destruct (Hw b eq_refl) as [Hres Hq]. set (b'' := foldl _ b nqs) in *.
    assert (∀ r, qty r b'' = qty r b - qty r x) as Hq'.
    { intros r. rewrite Hq. case_decide; [done|]. rewrite (qty_not_in r x) by done. lia. }
    assert (∀ r, qty r b < 2 ^ 64) as Htb by (intros; apply qty_typed, Hb).
    destruct (normalize_drop_zeros b'') as [Hc Hqn].
    + by rewrite Hres.
    + intros r. rewrite Hq'. specialize (Htb r). lia.
    + intros r Hr. rewrite Hres in Hr. destruct (Hrb r Hr) as (?&?&_). done.
    + split_and!; [|done|]; intros r.
      * destruct (decide (qty r x = 0)) as [->|Hne]; [lia|].
        apply qty_elem in Hne as (e&Hin&<-&<-). by apply He.
      * by rewrite Hqn.
  - split; [done|]. apply subtract_quantities_None in E as (e&Hin&Hcase).
    exists (e_resource e). rewrite (qty_in _ e x) by done.
    destruct Hcase as [Hni|?]; [|done]. rewrite (qty_not_in _ b) by done.
    rewrite Forall_forall in Hz. specialize (Hz e Hin). lia.
Qed.
End arithmetic.

(** * Comparison *)

Section comparison.
Context (devices : gmap string N).
Local Abbreviation valid := (valid_resource devices).
Local Abbreviation norm := (NormalizeResource devices).
Local Abbreviation canonical := (canonical devices).

Lemma norm_bound r : bound r → norm r = r.
Proof. intros [i Hi]. unfold NormalizeResource. by rewrite Hi. Qed.

Lemma is_bound_spec e : is_bound e = true ↔ bound (e_resource e).
Proof. apply bool_decide_eq_true. Qed.

Lemma canonical_singleton e a : canonical a → e ∈ a → canonical [e].
Proof.
  intros [Hv _ Hn Hz Ht] He. unfold typed in Ht. rewrite Forall_forall in Hv, Hn, Hz, Ht.
  split; [|apply NoDup_singleton|..]; apply Forall_singleton; auto.
Qed.

Lemma Subtract_canonical x b :
  canonical x → canonical b → Subtract devices x b = SubtractNormalized devices x b.
Proof. intros. unfold Subtract. by rewrite !normalize_id. Qed.

Lemma subtract_bound_spec lhs s :
  canonical lhs → canonical s →
  match subtract_bound devices lhs s with
  | Some s' => (∀ r, bound r → qty r lhs <= qty r s) ∧ canonical s' ∧
      ∀ r, qty r s' = qty r s - (if decide (bound r) then qty r lhs else 0)
  | None => ∃ r, bound r ∧ qty r s < qty r lhs
  end.
Proof.
  revert s. induction lhs as [|e lhs IH]; intros s Hl Hs; cbn [subtract_bound].
  - split_and!; [cbn; lia|done|]. intros r. case_decide; cbn [qty]; lia.
  - destruct (canonical_cons devices e lhs Hl) as [Hl' H0].
    destruct (is_bound e) eqn:Eb.
    + apply is_bound_spec in Eb.
      assert (canonical [e]) as He by (apply (canonical_singleton e _ Hl); set_solver).
      pose proof (SubtractNormalized_spec devices [e] s He Hs) as Hsub.
      rewrite Subtract_canonical by done.
      destruct (SubtractNormalized devices [e] s) as [[] s1].
      * destruct Hsub as (Hle&Hs1&Hq). specialize (IH s1 Hl' Hs1).
        destruct (subtract_bound devices lhs s1) as [s2|].
        -- destruct IH as (IHle&IHc&IHq). split_and!; [|done|]; intros r.
           ++ intros Hr. specialize (IHle r Hr). specialize (Hle r). rewrite Hq in IHle.
              cbn [qty] in *. case_decide; [|lia]. subst r. lia.
           ++ rewrite IHq, Hq. cbn [qty]. repeat case_decide; subst; try done; lia.
        -- destruct IH as (r&Hr&Hlt). exists r. split; [done|]. rewrite Hq in Hlt.
           specialize (Hle r). cbn [qty] in *. case_decide; [|lia]. subst r. lia.
      * destruct Hsub as [_ (r&Hr)]. cbn [qty] in Hr. case_decide; [|lia]. subst r.
        exists (e_resource e). split; [done|]. cbn [qty]. by rewrite decide_True.
    + assert (¬ bound (e_resource e)) as Hnb.
      { intros Hb%is_bound_spec. congruence. }
      specialize (IH s Hl' Hs). destruct (subtract_bound devices lhs s) as [s'|].
      * destruct IH as (IHle&IHc&IHq). split_and!; [|done|]; intros r.
        -- intros Hr. cbn [qty]. case_decide; [by subst|]. by apply IHle.
        -- rewrite IHq. cbn [qty]. repeat case_decide; subst; done.
      * destruct IH as (r&Hr&Hlt). exists r. split; [done|]. cbn [qty].
        case_decide; [by subst|done].
Qed.

Lemma bind_valid r i :
  valid r → i < num_instances devices (r_device r) → valid (bind_resource r i).
Proof.
  rewrite !valid_resource_iff. intros (n&Hn&_) Hi. exists n. split; [done|].
  unfold num_instances in Hi. rewrite Hn in Hi. intros j [= <-]. exact Hi.
Qed.

Lemma found_room_spec e s :
  canonical s → valid (e_resource e) →
  found_room devices e s = true ↔
  ∃ i, i < num_instances devices (r_device (e_resource e)) ∧
    e_quantity e <= qty (bind_resource (e_resource e) i) s.
Proof.
  intros Hs Hv. unfold found_room. rewrite existsb_exists. split.
  - intros (k&[_ Hk]%in_seq&Hle). exists (N.of_nat k). split; [lia|].
    apply N.leb_le in Hle. rewrite GetQuantity_canonical in Hle; [|done|apply bind_valid; [done|lia]].
    rewrite norm_bound in Hle by by eexists. done.
  - intros (i&Hi&Hle). exists (N.to_nat i). split; [apply in_seq; lia|]. rewrite N2Nat.id.
    apply N.leb_le. rewrite GetQuantity_canonical; [|done|by apply bind_valid].
    by rewrite norm_bound by by eexists.
Qed.

(** The comparison of allocations in normal form. *)
Definition fits (a b : ResourceAllocation) : Prop :=
  (∀ r, bound r → qty r a <= qty r b) ∧
  (∀ r, ¬ bound r → qty r a ≠ 0 → ∃ i, i < num_instances devices (r_device r) ∧
     qty r a <= qty (bind_resource r i) b - qty (bind_resource r i) a).

Lemma LessThanOrEqualNormalized_spec a b :
  canonical a → canonical b → LessThanOrEqualNormalized devices a b = true ↔ fits a b.
Proof.
  intros Ha Hb. unfold LessThanOrEqualNormalized.
  rewrite (canonical_valid _ a Ha), (canonical_valid _ b Hb). cbn [ok negb orb].
  pose proof (subtract_bound_spec a b Ha Hb) as Hs.
  destruct (subtract_bound devices a b) as [s|].
  - destruct Hs as (Hle&Hc&Hq).
    assert (∀ r i, qty (bind_resource r i) s =
      qty (bind_resource r i) b - qty (bind_resource r i) a) as Hbi.
    { intros r i. rewrite Hq, decide_True; [done|by eexists]. }
    rewrite forallb_forall. split.
    + intros H. split; [done|]. intros r Hr (e&He&<-&<-)%qty_elem.
      specialize (H e (proj1 (list_elem_of_In _ _) He)). apply orb_true_iff in H as [H|H].
      * by apply is_bound_spec in H.
      * apply found_room_spec in H as (i&Hi&Hle'); [|done|].
        -- exists i. by rewrite <-Hbi.
        -- destruct Ha as [Hv _ _ _ _]. rewrite Forall_forall in Hv. by apply Hv.
    + intros [_ H2] e He%list_elem_of_In. apply orb_true_iff.
      destruct (decide (bound (e_resource e))) as [?|Hnb]; [left; by apply is_bound_spec|right].
      destruct Ha as [Hv Hnd _ Hz _]. rewrite Forall_forall in Hv, Hz.
      pose proof (qty_in (e_resource e) e a Hnd He eq_refl) as Hqe.
      apply found_room_spec; [done|by apply Hv|].
      destruct (H2 (e_resource e) Hnb) as (i&Hi&Hle'); [by rewrite Hqe; apply Hz|].
      exists i. by rewrite Hbi, <-Hqe.
  - destruct Hs as (r&Hr&Hlt). split; [done|]. intros [H1 _]. specialize (H1 r Hr). lia.
Qed.

Lemma LessThanOrEqual_canonical a b :
  canonical a → canonical b →
  LessThanOrEqual devices a b = LessThanOrEqualNormalized devices a b.
Proof. intros. unfold LessThanOrEqual. by rewrite !normalize_id. Qed.

(** ** Overbinding *)

Lemma upsert_all_qty (g : nat → Resource) qe l acc r :
  NoDup (g <$> l) →
  qty r (foldl (λ acc i, upsert (g i) (λ q, u64n (qe + q)) acc) acc l) =
  if decide (r ∈ g <$> l) then u64n (qe + qty r acc) else qty r acc.
Proof.
  revert acc. induction l as [|i l IH]; intros acc Hnd; cbn [foldl].
  - rewrite decide_False; [done|]. cbn. set_solver.
  - cbn [fmap list_fmap] in *. apply NoDup_cons in Hnd as [Hnin Hnd].
    change (list_fmap nat Resource g l) with (g <$> l) in *.
    rewrite IH by done. rewrite qty_upsert. repeat case_decide; subst; try done; set_solver.
Qed.

Lemma upsert_all_elem (g : nat → Resource) qe l acc r :
  r ∈ e_resource <$> foldl (λ acc i, upsert (g i) (λ q, u64n (qe + q)) acc) acc l ↔
  r ∈ e_resource <$> acc ∨ r ∈ g <$> l.
Proof.
  revert acc. induction l as [|i l IH]; intros acc; cbn [foldl]; [set_solver|].
  rewrite IH, upsert_elem. set_solver.
Qed.

Lemma upsert_all_NoDup (g : nat → Resource) qe l acc :
  NoDup (e_resource <$> acc) →
  NoDup (e_resource <$> foldl (λ acc i, upsert (g i) (λ q, u64n (qe + q)) acc) acc l).
Proof.
  revert acc. induction l as [|i l IH]; intros acc H; cbn [foldl]; [done|].
  by apply IH, upsert_NoDup.
Qed.

(** The resources an entry is spread over, as a list. *)
Definition spread (r : Resource) : list Resource :=
  if decide (bound r) then [r]
  else (λ i, bind_resource r (N.of_nat i)) <$>
         seq 0 (N.to_nat (num_instances devices (r_device r))).

Lemma spread_NoDup r : NoDup (spread r).
Proof.
  unfold spread. case_decide; [apply NoDup_singleton|].
  apply NoDup_fmap_2_strong; [|apply NoDup_seq].
  intros i j _ _ [= E]. by apply Nat2N.inj.
Qed.

Lemma elem_of_spread r x :
  valid x → r ∈ spread x ↔ bound r ∧ valid r ∧ (r = x ∨ (¬ bound x ∧ unbind r = x)).
Proof.
  intros Hx. unfold spread. case_decide as Hb.
  - rewrite list_elem_of_singleton. split; [intros ->; eauto|intros (_&_&[->|[]]); done].
  - rewrite list_elem_of_fmap. split.
    + intros (i&->&Hi%elem_of_seq). split_and!; [by eexists|apply bind_valid; [done|lia]|].
      right. split; [done|]. destruct x as [d [j|] k]; [|done]. destruct Hb. by eexists.
    + intros ([i Hi]&Hv&[->|[_ <-]]); [destruct Hb; by eexists|].
      exists (N.to_nat i). rewrite N2Nat.id. split.
      * destruct r as [d [j|] k]; simpl in *; [|done]. by injection Hi as ->.
      * apply elem_of_seq. apply valid_resource_iff in Hv as (n&Hn&Hlt).
        specialize (Hlt i Hi). simpl. unfold num_instances. rewrite Hn. simpl. lia.
Qed.

Lemma overbind_entry_qty acc e r :
  qty r (overbind_entry devices acc e) =
  if decide (r ∈ spread (e_resource e)) then u64n (e_quantity e + qty r acc) else qty r acc.
Proof.
  unfold overbind_entry, spread. destruct (is_bound e) eqn:E.
  - apply is_bound_spec in E. rewrite (decide_True (P:=bound _)) by done. rewrite qty_upsert.
    repeat case_decide; subst; set_solver.
  - assert (¬ bound (e_resource e)) as Hnb by (intros H%is_bound_spec; congruence).
    pose proof (spread_NoDup (e_resource e)) as Hnd. unfold spread in Hnd.
    rewrite (decide_False (P:=bound _)) in Hnd |- * by done. by apply upsert_all_qty.
Qed.

Lemma overbind_entry_elem acc e r :
  r ∈ e_resource <$> overbind_entry devices acc e ↔
  r ∈ e_resource <$> acc ∨ r ∈ spread (e_resource e).
Proof.
  unfold overbind_entry, spread. destruct (is_bound e) eqn:E.
  - apply is_bound_spec in E. rewrite (decide_True (P:=bound _)) by done.
    rewrite upsert_elem. set_solver.
  - assert (¬ bound (e_resource e)) as Hnb by (intros H%is_bound_spec; congruence).
    rewrite (decide_False (P:=bound _)) by done. apply upsert_all_elem.
Qed.

Lemma overbind_entry_NoDup acc e :
  NoDup (e_resource <$> acc) → NoDup (e_resource <$> overbind_entry devices acc e).
Proof.
  intros H. unfold overbind_entry. destruct (is_bound e).
  - by apply upsert_NoDup.
  - by apply upsert_all_NoDup.
Qed.
End comparison.

(** * Overbinding a whole allocation *)

Section overbind.
Context (devices : gmap string N).
Local Abbreviation valid := (valid_resource devices).
Local Abbreviation norm := (NormalizeResource devices).
Local Abbreviation canonical := (canonical devices).

Lemma u64n_add_l a b : u64n (u64n a + b) = u64n (a + b).
Proof. unfold u64n. by rewrite N.Div0.add_mod_idemp_l. Qed.

Lemma unbind_unbound r : ¬ bound (unbind r).
Proof. by intros []. Qed.

Lemma bound_ne_unbind r r' : bound r → r ≠ unbind r'.
Proof. intros Hb ->. by apply unbind_unbound in Hb. Qed.

Lemma overbind_fold_qty a acc r :
  NoDup (e_resource <$> a) → Forall (λ e, valid (e_resource e)) a →
  bound r → valid r → qty r acc < 2 ^ 64 →
  qty r (foldl (overbind_entry devices) acc a) =
  u64n (qty r acc + (qty r a + qty (unbind r) a)).
Proof.
  intros Hnd Hv Hb Hr. revert acc. induction Hv as [|e a He _ IH]; intros acc Hacc; cbn [foldl].
  - cbn [qty]. rewrite !N.add_0_r. by rewrite u64n_small.
  - cbn [fmap list_fmap] in Hnd. apply NoDup_cons in Hnd as [Hnin Hnd].
    rewrite IH; [|done|].
    + rewrite overbind_entry_qty. cbn [qty]. pose proof (elem_of_spread devices r _ He) as Hsp.
      destruct (decide (r ∈ spread devices (e_resource e))) as [Hin|Hni].
      * apply Hsp in Hin as (_&_&[->|[Hnb E]]).
        -- rewrite decide_True, decide_False by (done || by apply bound_ne_unbind).
           rewrite u64n_add_l, (qty_not_in _ a) by done. f_equal. lia.
        -- rewrite decide_False, decide_True by (done || by intros E'; rewrite E' in Hnb).
           rewrite u64n_add_l, E, (qty_not_in (e_resource e) a) by done. f_equal. lia.
      * rewrite !decide_False; [done|..]; intros E; apply Hni, Hsp; split_and!; try done.
        -- right. rewrite E. split; [apply unbind_unbound|done].
        -- by left.
    + rewrite overbind_entry_qty. case_decide; [apply u64n_lt|done].
Qed.

Lemma overbind_fold_unbound a acc r :
  Forall (λ e, valid (e_resource e)) a → ¬ bound r →
  qty r (foldl (overbind_entry devices) acc a) = qty r acc.
Proof.
  intros Hv Hnb. revert acc. induction Hv as [|e a He _ IH]; intros acc; cbn [foldl]; [done|].
  rewrite IH, overbind_entry_qty, decide_False; [done|].
  by intros (?&_)%elem_of_spread.
Qed.

Lemma overbind_fold_elem a acc r :
  r ∈ e_resource <$> foldl (overbind_entry devices) acc a →
  r ∈ e_resource <$> acc ∨ ∃ e, e ∈ a ∧ r ∈ spread devices (e_resource e).
Proof.
  revert acc. induction a as [|e a IH]; intros acc; cbn [foldl]; [by left|].
  intros [[H|H]%overbind_entry_elem|(e'&?&?)]%IH; [by left|right..]; set_solver.
Qed.

Lemma overbind_fold_NoDup a acc :
  NoDup (e_resource <$> acc) →
  NoDup (e_resource <$> foldl (overbind_entry devices) acc a).
Proof.
  revert acc. induction a as [|e a IH]; intros acc H; cbn [foldl]; [done|].
  by apply IH, overbind_entry_NoDup.
Qed.

Lemma OverbindNormalized_qty a r :
  canonical a → valid r →
  qty r (OverbindNormalized devices a) =
  if decide (bound r) then u64n (qty r a + qty (unbind r) a) else 0.
Proof.
  intros Ha Hr. unfold OverbindNormalized. rewrite canonical_valid by done. cbn [ok].
  destruct Ha as [Hv Hnd _ _ _]. case_decide.
  - by rewrite overbind_fold_qty.
  - by rewrite overbind_fold_unbound.
Qed.

Lemma OverbindNormalized_canonical a :
  canonical a → (∀ r, qty r a + qty (unbind r) a < 2 ^ 64) →
  canonical (OverbindNormalized devices a).
Proof.
  intros Ha Hov. apply canonical_iff. pose proof (OverbindNormalized_qty a) as Hq.
  unfold OverbindNormalized in *. rewrite canonical_valid in * by done. cbn [ok] in *.
  split; [by apply overbind_fold_NoDup, NoDup_nil_2|].
  intros r [H|(e&He&Hsp)]%overbind_fold_elem; [by apply elem_of_nil in H|].
  destruct (Ha) as [Hv Hnd _ Hz _]. rewrite Forall_forall in Hv, Hz.
  apply elem_of_spread in Hsp as (Hb&Hr&Hor); [|by apply Hv].
  rewrite Hq, decide_True, u64n_small by done.
  split_and!; [done|by apply norm_bound| |done].
  assert (qty (e_resource e) a ≠ 0) as Hne.
  { rewrite (qty_in _ e) by done. by apply Hz. }
  destruct Hor as [E|[_ E]]; rewrite <-E in Hne; lia.
Qed.
End overbind.

(** * Properties of the public operations *)

Section public.
Context (devices : gmap string N).
Local Abbreviation valid := (valid_resource devices).
Local Abbreviation norm := (NormalizeResource devices).
Local Abbreviation well_formed := (well_formed devices).
Local Abbreviation GQ := (GetQuantity devices).

(** Facts about normalized operands, phrased with what [GetQuantity] reads. *)
Lemma qty_GQ a r :
  well_formed a → norm r = r → qty r (Normalize devices a) = if decide (valid r) then GQ r a else 0.
Proof.
  intros Ha Hn. case_decide as Hv.
  - by rewrite GetQuantity_normalize, Hn.
  - apply qty_not_in. intros Hin. apply normalize_canonical in Ha.
    by apply (canonical_norm devices) in Hin as [_ ?].
Qed.

Lemma qty_zero_or_GQ a r :
  well_formed a → qty r (Normalize devices a) = 0 ∨
    (valid r ∧ norm r = r ∧ qty r (Normalize devices a) = GQ r a).
Proof.
  intros Ha. destruct (decide (norm r = r)) as [Hn|Hn].
  - rewrite qty_GQ by done. case_decide; auto.
  - left. apply qty_not_in. intros Hin. apply normalize_canonical in Ha.
    by apply (canonical_norm devices) in Hin as [? _].
Qed.

Lemma qty_norm_only a r : canonical devices a → norm r ≠ r → qty r a = 0.
Proof.
  intros Ha Hn. apply qty_not_in. intros Hin. by apply (canonical_norm devices) in Hin as [? _].
Qed.

Lemma no_overflow_qty a b :
  well_formed a → well_formed b → (∀ r, valid r → GQ r a + GQ r b < 2 ^ 64) →
  ∀ r, qty r (Normalize devices b) + qty r (Normalize devices a) < 2 ^ 64.
Proof.
  intros Ha Hb Hov r.
  pose proof (qty_typed r _ (can_typed _ _ (normalize_canonical _ _ Ha))).
  pose proof (qty_typed r _ (can_typed _ _ (normalize_canonical _ _ Hb))).
  destruct (qty_zero_or_GQ a r Ha) as [->|(Hv&_&->)]; [lia|].
  destruct (qty_zero_or_GQ b r Hb) as [->|(_&_&->)].
  - pose proof (Hov r Hv). lia.
  - pose proof (Hov r Hv). lia.
Qed.
End public.

(** An allocation passes [VerifyValidity] exactly when each entry names a
    known device, an instance number below the device's count if it is bound,
    and no resource occurs twice. *)
Theorem VerifyValidity_spec (devices : gmap string N) (a : ResourceAllocation) :
  VerifyValidity devices a = StatusOK ↔
  (∀ e, e ∈ a → ∃ n, devices !! r_device (e_resource e) = Some n ∧
     ∀ i, r_device_instance (e_resource e) = Some i → i < n) ∧
  NoDup (e_resource <$> a).
Proof.
  rewrite VerifyValidity_iff, Forall_forall. by setoid_rewrite valid_resource_iff.
Qed.

(** [Normalize] puts a well-formed allocation in normal form, is idempotent,
    and leaves every quantity that [GetQuantity] reads unchanged. *)
Theorem Normalize_spec (devices : gmap string N) (a : ResourceAllocation) :
  (∀ d n, devices !! d = Some n → 0 < n) → well_formed devices a →
  IsNormalized devices (Normalize devices a) = true ∧
  Normalize devices (Normalize devices a) = Normalize devices a ∧
  ∀ r, valid_resource devices r →
    GetQuantity devices r (Normalize devices a) = GetQuantity devices r a.
Proof.
  intros Hpos Ha. pose proof (normalize_canonical devices a Ha) as Hc. split_and!.
  - apply IsNormalized_canonical; [done|apply Hc|done].
  - by apply normalize_id.
  - intros r Hr. by rewrite GetQuantity_canonical, GetQuantity_normalize.
Qed.

(** [Add] adds quantities resource by resource and yields a normal form,
    provided no sum exceeds the [uint64] range. *)
Theorem Add_spec (devices : gmap string N) (a b : ResourceAllocation) :
  (∀ d n, devices !! d = Some n → 0 < n) → well_formed devices a → well_formed devices b →
  (∀ r, valid_resource devices r →
     GetQuantity devices r a + GetQuantity devices r b < 2 ^ 64) →
  IsNormalized devices (Add devices a b) = true ∧
  ∀ r, valid_resource devices r →
    GetQuantity devices r (Add devices a b) =
    GetQuantity devices r a + GetQuantity devices r b.
Proof.
  intros Hpos Ha Hb Hov. pose proof (no_overflow_qty devices a b Ha Hb Hov) as Hov'.
  pose proof (normalize_canonical devices a Ha) as Hca.
  pose proof (normalize_canonical devices b Hb) as Hcb.
  pose proof (AddNormalized_canonical devices _ _ Hca Hcb Hov') as Hc. unfold Add. split.
  - apply IsNormalized_canonical; [done|apply Hc|done].
  - intros r Hr. rewrite GetQuantity_canonical by done.
    rewrite AddNormalized_qty; [|apply Hca|intros; apply qty_typed, Hcb].
    rewrite u64n_small by apply Hov'. rewrite !GetQuantity_normalize by done. lia.
Qed.

(** [Subtract] succeeds exactly when no quantity would become negative; on
    success it subtracts resource by resource, and on failure the base is only
    normalized, so that no quantity changes. *)
Theorem Subtract_spec (devices : gmap string N) (a b : ResourceAllocation) :
  well_formed devices a → well_formed devices b →
  let '(success, b') := Subtract devices a b in
  (success = true ↔ ∀ r, valid_resource devices r →
     GetQuantity devices r a <= GetQuantity devices r b) ∧
  ∀ r, valid_resource devices r →
    GetQuantity devices r b' =
    if success then GetQuantity devices r b - GetQuantity devices r a
    else GetQuantity devices r b.
Proof.
  intros Ha Hb. pose proof (normalize_canonical devices a Ha) as Hca.
  pose proof (normalize_canonical devices b Hb) as Hcb. unfold Subtract.
  pose proof (SubtractNormalized_spec devices _ _ Hca Hcb) as H.
  destruct (SubtractNormalized _ _ _) as [[] b'].
  - destruct H as (Hle&Hc&Hq). split.
    + split; [|done]. intros _ r Hr. rewrite !GetQuantity_normalize by done. apply Hle.
    + intros r Hr. rewrite GetQuantity_canonical, Hq by done.
      by rewrite !GetQuantity_normalize.
  - destruct H as [-> (r&Hr)]. split.
    + split; [done|]. intros Hle.
      destruct (qty_zero_or_GQ devices a r Ha) as [E|(Hv&Hn&E)]; [lia|].
      rewrite qty_GQ, decide_True in Hr by done. specialize (Hle r Hv). lia.
    + intros r' Hr'. by rewrite GetQuantity_canonical, GetQuantity_normalize.
Qed.

(** [LessThanOrEqual] holds exactly when every bound quantity of the left
    side is at most the right side's, and every unbound quantity fits on some
    instance of its device next to what the left side already binds there. *)
Theorem LessThanOrEqual_spec (devices : gmap string N) (a b : ResourceAllocation) :
  well_formed devices a → well_formed devices b →
  LessThanOrEqual devices a b = true ↔
  (∀ r, valid_resource devices r → bound r →
     GetQuantity devices r a <= GetQuantity devices r b) ∧
  (∀ r, valid_resource devices r → ¬ bound (NormalizeResource devices r) →
     GetQuantity devices r a ≠ 0 →
     ∃ i, i < num_instances devices (r_device r) ∧
       GetQuantity devices r a <=
         GetQuantity devices (bind_resource r i) b - GetQuantity devices (bind_resource r i) a).
Proof.
  intros Ha Hb. unfold LessThanOrEqual.
  rewrite LessThanOrEqualNormalized_spec by (by apply normalize_canonical). unfold fits.
  assert (∀ r i c, well_formed devices c → valid_resource devices r →
    i < num_instances devices (r_device r) →
    GetQuantity devices (bind_resource r i) c = qty (bind_resource r i) (Normalize devices c)) as Hbi.
  { intros r i c Hc Hr Hi. rewrite GetQuantity_normalize; [|done|by apply bind_valid].
    by rewrite norm_bound by by eexists. }
  split; intros [H1 H2]; split.
  - intros r Hr Hbd. rewrite !GetQuantity_normalize by done. rewrite norm_bound by done. auto.
  - intros r Hr Hnb. rewrite !GetQuantity_normalize by done.
    assert (NormalizeResource devices r = r) as Hn.
    { unfold NormalizeResource in *. destruct (r_device_instance r); [done|].
      destruct (_ =? 1); [|done]. destruct Hnb. by eexists. }
    rewrite Hn in *. intros Hq. destruct (H2 r Hnb Hq) as (i&Hi&Hle).
    exists i. split; [done|]. by rewrite !Hbi.
  - intros r Hbd. destruct (qty_zero_or_GQ devices a r Ha) as [->|(Hv&Hn&->)]; [lia|].
    rewrite qty_GQ, decide_True by done. by apply H1.
  - intros r Hnb Hq. destruct (qty_zero_or_GQ devices a r Ha) as [E|(Hv&Hn&E)]; [done|].
    rewrite E in *. rewrite <-Hn in Hnb. destruct (H2 r Hv Hnb Hq) as (i&Hi&Hle).
    exists i. split; [done|]. by rewrite <-!Hbi.
Qed.

(** The core of the reservation argument, on normal forms. *)
Lemma reserve_fits (devices : gmap string N) (used s total : ResourceAllocation) :
  (∀ d n, devices !! d = Some n → 0 < n) →
  canonical devices used → canonical devices s → canonical devices total →
  (∀ r, qty r used + qty (unbind r) used + qty r s < 2 ^ 64) →
  fits devices (AddNormalized s (OverbindNormalized devices used)) total →
  fits devices (AddNormalized s used) total.
Proof.
  intros Hpos Hu Hs Ht Hov [H1 H2].
  assert (canonical devices (OverbindNormalized devices used)) as Ho.
  { apply OverbindNormalized_canonical; [done|]. intros r. specialize (Hov r). lia. }
  assert (∀ r, qty r (AddNormalized s used) = qty r used + qty r s) as Hq.
  { intros r. rewrite AddNormalized_qty; [|apply Hs|intros; apply qty_typed, Hu].
    apply u64n_small. specialize (Hov r). lia. }
  assert (∀ r, bound r → valid_resource devices r →
    qty r (AddNormalized s (OverbindNormalized devices used)) =
    qty r used + qty (unbind r) used + qty r s) as Hqb.
  { intros r Hr Hv. rewrite AddNormalized_qty; [|apply Hs|intros; apply qty_typed, Ho].
    rewrite OverbindNormalized_qty, decide_True by done. rewrite u64n_add_l. by apply u64n_small. }
  split.
  - intros r Hr. rewrite Hq. destruct (decide (valid_resource devices r)) as [Hv|Hv].
    + specialize (H1 r Hr). rewrite Hqb in H1 by done. lia.
    + rewrite !qty_not_in; [lia|..]; intros Hin; eapply (canonical_norm devices) in Hin;
        try done; by destruct Hin.
  - intros r Hr. rewrite Hq. intros Hne.
    assert (valid_resource devices r ∧ unbind r = r) as [Hv Hunb].
    { split.
      - destruct (decide (r ∈ e_resource <$> used)) as [Hin|Hni];
          [by apply (canonical_norm devices _ r Hu)|].
        destruct (decide (r ∈ e_resource <$> s)) as [Hin|Hni'];
          [by apply (canonical_norm devices _ r Hs)|].
        rewrite !qty_not_in in Hne by done. lia.
      - destruct r as [d [i|] k]; [|done]. destruct Hr. by eexists. }
    assert (0 < num_instances devices (r_device r)) as Hn.
    { apply valid_resource_iff in Hv as (n&Hd&_). unfold num_instances. rewrite Hd. by apply (Hpos _ _ Hd). }
    assert (∀ i, i < num_instances devices (r_device r) →
      qty (bind_resource r i) used + qty r used + qty (bind_resource r i) s <=
      qty (bind_resource r i) total) as Hroom.
    { intros i Hi. pose proof (H1 (bind_resource r i) (mk_is_Some _ _ eq_refl)) as H.
      rewrite Hqb in H; [|by eexists|by apply bind_valid].
      change (unbind (bind_resource r i)) with (unbind r) in H. by rewrite Hunb in H. }
    destruct (decide (qty r s = 0)) as [Hs0|Hs0].
    + exists 0. split; [done|]. rewrite Hq. specialize (Hroom 0 Hn). lia.
    + destruct (H2 r Hr) as (i&Hi&Hle).
      * rewrite AddNormalized_qty; [|apply Hs|intros; apply qty_typed, Ho].
        rewrite OverbindNormalized_qty, decide_False by done. rewrite u64n_small; [lia|].
        specialize (Hov r). lia.
      * exists i. split; [done|]. rewrite Hq. rewrite AddNormalized_qty in Hle;
          [|apply Hs|intros; apply qty_typed, Ho].
        rewrite OverbindNormalized_qty, decide_False in Hle by done.
        rewrite Hqb in Hle; [|by eexists|by apply bind_valid].
        change (unbind (bind_resource r i)) with (unbind r) in Hle. rewrite Hunb in Hle.
        rewrite u64n_small in Hle by (specialize (Hov r); lia). specialize (Hroom i Hi). lia.
Qed.

(** A reservation that succeeds keeps the tracker within its total: if the
    amounts do not exceed the [uint64] range, then after a successful
    [ReserveResources] the used resources, which have grown by exactly the
    estimate, still compare less than or equal to the total. *)
Theorem ReserveResources_within_total (t t' : ResourceTracker) (estimate : ResourceAllocation) :
  (∀ d n, rt_devices t !! d = Some n → 0 < n) →
  well_formed (rt_devices t) estimate →
  canonical (rt_devices t) (rt_used_resources t) →
  canonical (rt_devices t) (rt_total_resources t) →
  (∀ r, valid_resource (rt_devices t) r →
     qty r (rt_used_resources t) + qty (unbind r) (rt_used_resources t) +
     GetQuantity (rt_devices t) r estimate < 2 ^ 64) →
  Tracker_ReserveResources (StatusOK, estimate) t = (StatusOK, Some true, t') →
  LessThanOrEqual (rt_devices t) (rt_used_resources t') (rt_total_resources t) = true ∧
  canonical (rt_devices t) (rt_used_resources t') ∧
  ∀ r, valid_resource (rt_devices t) r →
    GetQuantity (rt_devices t) r (rt_used_resources t') =
    GetQuantity (rt_devices t) r (rt_used_resources t) + GetQuantity (rt_devices t) r estimate.
Proof.
  destruct t as [devices total used]. simpl. intros Hpos He Hu Ht Hov Hres.
  unfold Tracker_ReserveResources in Hres. cbn [ok negb rt_devices rt_used_resources rt_total_resources] in Hres.
  rewrite (wf_valid _ _ He) in Hres. cbn [ok negb] in Hres.
  set (s := Normalize devices estimate) in *.
  pose proof (normalize_canonical devices estimate He) as Hs. fold s in Hs.
  assert (∀ r, qty r used + qty (unbind r) used + qty r s < 2 ^ 64) as Hov'.
  { intros r. destruct (decide (valid_resource devices r)) as [Hv|Hv].
    - specialize (Hov r Hv). pose proof (qty_zero_or_GQ devices estimate r He) as Hz.
      fold s in Hz. destruct Hz as [->|(_&_&->)]; lia.
    - assert (∀ c, canonical devices c → qty r c = 0) as Hz.
      { intros c Hc. apply qty_not_in. intros Hin. by apply (canonical_norm devices) in Hin as [_ ?]. }
      rewrite !Hz by done. pose proof (qty_typed (unbind r) used (can_typed _ _ Hu)). lia. }
  assert (canonical devices (OverbindNormalized devices used)) as Ho.
  { apply OverbindNormalized_canonical; [done|]. intros r. specialize (Hov' r). lia. }
  unfold Overbind, Add in Hres. fold s in Hres. rewrite (normalize_id devices used Hu) in Hres.
  rewrite (normalize_id devices _ Ho) in Hres.
  destruct (LessThanOrEqual devices _ total) eqn:Ele; [|done]. injection Hres as <-. simpl.
  assert (canonical devices (AddNormalized s used)) as Hc.
  { apply AddNormalized_canonical; [done..|]. intros r. specialize (Hov' r). lia. }
  assert (canonical devices (AddNormalized s (OverbindNormalized devices used))) as Hco.
  { apply AddNormalized_canonical; [done..|]. intros r.
    destruct (decide (valid_resource devices r)) as [Hv|Hv].
    - rewrite OverbindNormalized_qty by done. case_decide; [|by apply qty_typed, Hs].
      rewrite u64n_small by (specialize (Hov' r); lia). done.
    - rewrite !qty_not_in; [lia|..]; intros Hin; eapply (canonical_norm devices) in Hin;
        try done; by destruct Hin. }
  split_and!; [|done|].
  - rewrite LessThanOrEqual_canonical in * by done.
    apply LessThanOrEqualNormalized_spec; [done..|].
    by apply reserve_fits, LessThanOrEqualNormalized_spec.
  - intros r Hv. rewrite !GetQuantity_canonical by done.
    rewrite AddNormalized_qty; [|apply Hs|intros; by apply qty_typed, Hu].
    rewrite u64n_small by (specialize (Hov' (NormalizeResource devices r)); lia).
    by rewrite (GetQuantity_normalize devices estimate).
Qed.

(** The bound on the amounts is needed: the sum of the used and the
    requested amount wraps at 64 bits, so a tracker whose total is fully used
    grants a request for nearly the whole [uint64] range. *)
Theorem ReserveResources_overflow :
  ∃ t t' estimate,
    canonical (rt_devices t) (rt_used_resources t) ∧
    rt_used_resources t = rt_total_resources t ∧
    well_formed (rt_devices t) estimate ∧
    Tracker_ReserveResources (StatusOK, estimate) t = (StatusOK, Some true, t') ∧
    (∃ r, GetQuantity (rt_devices t) r (rt_total_resources t) <
          GetQuantity (rt_devices t) r estimate).
Proof.
  set (r := bind_resource ex_cpu 0). set (full := [mkEntry r 10]).
  exists (mkTracker ex_devices full full), (mkTracker ex_devices full [mkEntry r 5]),
    [mkEntry r (2 ^ 64 - 5)].
  split_and!; [|done| |by vm_compute|by exists r; vm_compute].
  - split; repeat constructor; try done. set_solver.
  - split; repeat constructor; try done. set_solver.
Qed.

(** The result of [Normalize] on a valid allocation may repeat a resource:
    an unbound and a bound entry of a single-instance device are both valid
    together, and become two entries for the same instance. *)
Theorem Normalize_may_repeat :
  ∃ devices a, VerifyValidity devices a = StatusOK ∧
    VerifyValidity devices (Normalize devices a) ≠ StatusOK.
Proof.
  exists ex_devices, [mkEntry ex_cpu 1; mkEntry (bind_resource ex_cpu 0) 2].
  split; vm_compute; done.
Qed.

(** * Witnesses *)

Lemma ex_devices_pos d n : ex_devices !! d = Some n → 0 < n.
Proof.
  unfold ex_devices. intros [[_ <-]|[_ [[_ <-]|[_ H]]%lookup_insert_Some]]%lookup_insert_Some;
    [lia..|]. by rewrite lookup_empty in H.
Qed.

Lemma well_formed_decide devices a :
  bool_decide (VerifyValidity devices a = StatusOK) &&
  bool_decide (NoDup (NormalizeResource devices <$> (e_resource <$> a))) &&
  bool_decide (Forall (λ e, e_quantity e < 2 ^ 64) a) = true → well_formed devices a.
Proof. intros H. by bool_hyps. Qed.

Lemma ex_request_wf : well_formed ex_devices ex_request.
Proof. apply well_formed_decide. vm_compute. reflexivity. Qed.

Lemma ex_total_wf : well_formed ex_devices ex_total.
Proof. apply well_formed_decide. vm_compute. reflexivity. Qed.

Lemma GetQuantity_le devices r m a :
  forallb (λ e, e_quantity e <=? m) a = true → GetQuantity devices r a <= m.
Proof.
  induction a as [|e a IH]; cbn [GetQuantity forallb]; [lia|].
  intros [H1%N.leb_le H2]%andb_true_iff. destruct (ResourcesEqual _ _ _); [done|by apply IH].
Qed.

Lemma Normalize_spec_witness :
  IsNormalized ex_devices (Normalize ex_devices ex_request) = true.
Proof. apply (Normalize_spec ex_devices ex_request ex_devices_pos ex_request_wf). Defined.

Lemma Add_spec_witness :
  GetQuantity ex_devices ex_cpu (Add ex_devices ex_request ex_total) = 13.
Proof.
  destruct (Add_spec ex_devices ex_request ex_total ex_devices_pos ex_request_wf ex_total_wf)
    as [_ H].
  - intros r _. pose proof (GetQuantity_le ex_devices r 3 ex_request eq_refl).
    pose proof (GetQuantity_le ex_devices r 10 ex_total eq_refl). lia.
  - rewrite H by reflexivity. reflexivity.
Defined.

Lemma Subtract_spec_witness :
  (Subtract ex_devices ex_request ex_total).1 = true ↔
  ∀ r, valid_resource ex_devices r →
    GetQuantity ex_devices r ex_request <= GetQuantity ex_devices r ex_total.
Proof.
  pose proof (Subtract_spec ex_devices ex_request ex_total ex_request_wf ex_total_wf) as H.
  destruct (Subtract ex_devices ex_request ex_total) as [success b']. exact (proj1 H).
Defined.

Lemma LessThanOrEqual_spec_witness :
  ∃ i, i < 2 ∧ 2 <= GetQuantity ex_devices (bind_resource ex_gpu i) ex_total -
    GetQuantity ex_devices (bind_resource ex_gpu i) ex_request.
Proof.
  destruct (proj1 (LessThanOrEqual_spec ex_devices ex_request ex_total ex_request_wf ex_total_wf)
    ltac:(vm_compute; reflexivity)) as [_ H].
  apply (H ex_gpu); [reflexivity| |vm_compute; discriminate].
  intros [? [=]].
Defined.

Lemma ReserveResources_within_total_witness :
  let t := mkTracker ex_devices (Normalize ex_devices ex_total) [] in
  LessThanOrEqual ex_devices
    (rt_used_resources (Tracker_ReserveResources (StatusOK, ex_request) t).2)
    (Normalize ex_devices ex_total) = true.
Proof.
  set (t := mkTracker ex_devices (Normalize ex_devices ex_total) []).
  apply (ReserveResources_within_total t
    (Tracker_ReserveResources (StatusOK, ex_request) t).2 ex_request).
  - apply ex_devices_pos.
  - apply ex_request_wf.
  - apply canonical_nil.
  - apply normalize_canonical, ex_total_wf.
  - intros r _. pose proof (GetQuantity_le ex_devices r 3 ex_request eq_refl).
    unfold t. cbn [rt_devices rt_used_resources qty]. lia.
  - vm_compute. reflexivity.
Defined.
