(* ===== verification/BasicManager.v ===== *)
(** The basic manager: [tensorflow_serving/core/basic_manager.{h,cc}].

    The state is the record [BasicManager]: the harnesses being managed (a map
    from the address of a harness to the harness, standing for the unordered
    multimap of shared pointers, whose iteration order is unspecified), the map
    that answers requests, the count of executions under way and the resource
    tracker.  The calls the manager makes on objects it is given (the event bus,
    the pre-load hook, done callbacks) are recorded in order in [bm_calls].
    A harness pointer that is dereferenced after its harness has been removed
    sets [bm_use_after_free].

    Each method is a definition, composed as the code composes them, with the
    answers of the environment (loader results, estimates, cancellation polls) as
    arguments.  [ManagerSystem] cuts the handlers at their critical sections into
    the steps of a transition system in which any number of requests run
    concurrently. *)
From S2P Require Import Prelude Status Servable LoaderHarness Resources.
Local Open Scope status_scope.

(** * Data *)

Inductive RequestKind := kLoadRequest | kUnloadRequest.

#[export] Instance RequestKind_eq_dec : EqDecision RequestKind.
Proof. solve_decision. Defined.

(** [LoadOrUnloadRequest]. *)
Record LoadOrUnloadRequest := mkRequest {
  lur_kind : RequestKind;
  lur_id : ServableId }.

#[export] Instance LoadOrUnloadRequest_eq_dec : EqDecision LoadOrUnloadRequest.
Proof. solve_decision. Defined.

(** Calls on the event bus, the pre-load hook and the done callbacks. *)
Inductive ManagerCall :=
  | Published (s : ServableState)
  | PreLoadHook (i : ServableId)
  | Done (r : LoadOrUnloadRequest) (status : Status).

(** A handle: the servable's id and its loader. *)
Abbreviation Handle := (ServableId * option nat)%type.

(** [HandlesMap], in the order of insertion. *)
Definition HandlesMap : Type := list (ServableRequest * Handle).

Record BasicManager {A : Type} := mkBasicManager {
  bm_harness_options : HarnessOptions;
  bm_has_event_bus : bool;
  bm_has_pre_load_hook : bool;
  bm_managed_map : gmap nat (LoaderHarness A);
  bm_next_address : nat;
  bm_handles_map : HandlesMap;
  bm_num_ongoing_load_unload_executions : Z;
  bm_resource_tracker : option ResourceTracker;
  bm_num_load_threads : Z;
  bm_calls : list ManagerCall;
  bm_use_after_free : bool }.
Arguments BasicManager : clear implicits.
Arguments mkBasicManager {A}.

(** How a round of [ReserveResources] ends: it returns, or it waits on
    [num_ongoing_load_unload_executions_cv_]. *)
Inductive Reservation := ReserveReturns (status : Status) | ReserveWaits.

Section manager.
Context {A : Type}.
Implicit Types m : BasicManager A.

(** ** Field updates *)

Definition set_managed_map (x : gmap nat (LoaderHarness A)) m : BasicManager A :=
  mkBasicManager (bm_harness_options m) (bm_has_event_bus m) (bm_has_pre_load_hook m) x (bm_next_address m)
    (bm_handles_map m) (bm_num_ongoing_load_unload_executions m) (bm_resource_tracker m)
    (bm_num_load_threads m) (bm_calls m) (bm_use_after_free m).

Definition set_handles_map (x : HandlesMap) m : BasicManager A :=
  mkBasicManager (bm_harness_options m) (bm_has_event_bus m) (bm_has_pre_load_hook m) (bm_managed_map m)
    (bm_next_address m) x (bm_num_ongoing_load_unload_executions m) (bm_resource_tracker m)
    (bm_num_load_threads m) (bm_calls m) (bm_use_after_free m).

Definition set_num_ongoing (x : Z) m : BasicManager A :=
  mkBasicManager (bm_harness_options m) (bm_has_event_bus m) (bm_has_pre_load_hook m) (bm_managed_map m)
    (bm_next_address m) (bm_handles_map m) x (bm_resource_tracker m)
    (bm_num_load_threads m) (bm_calls m) (bm_use_after_free m).

Definition set_tracker (x : option ResourceTracker) m : BasicManager A :=
  mkBasicManager (bm_harness_options m) (bm_has_event_bus m) (bm_has_pre_load_hook m) (bm_managed_map m)
    (bm_next_address m) (bm_handles_map m) (bm_num_ongoing_load_unload_executions m) x
    (bm_num_load_threads m) (bm_calls m) (bm_use_after_free m).

Definition set_num_load_threads (x : Z) m : BasicManager A :=
  mkBasicManager (bm_harness_options m) (bm_has_event_bus m) (bm_has_pre_load_hook m) (bm_managed_map m)
    (bm_next_address m) (bm_handles_map m) (bm_num_ongoing_load_unload_executions m)
    (bm_resource_tracker m) x (bm_calls m) (bm_use_after_free m).

Definition add_manager_call (c : ManagerCall) m : BasicManager A :=
  mkBasicManager (bm_harness_options m) (bm_has_event_bus m) (bm_has_pre_load_hook m) (bm_managed_map m)
    (bm_next_address m) (bm_handles_map m) (bm_num_ongoing_load_unload_executions m)
    (bm_resource_tracker m) (bm_num_load_threads m) (bm_calls m ++ [c])
    (bm_use_after_free m).

(** [std::make_shared<LoaderHarness>] and [managed_map_.emplace]. *)
Definition emplace_harness (h : LoaderHarness A) m : BasicManager A :=
  mkBasicManager (bm_harness_options m) (bm_has_event_bus m) (bm_has_pre_load_hook m)
    (<[bm_next_address m := h]> (bm_managed_map m)) (S (bm_next_address m))
    (bm_handles_map m) (bm_num_ongoing_load_unload_executions m) (bm_resource_tracker m)
    (bm_num_load_threads m) (bm_calls m) (bm_use_after_free m).

Definition mark_use_after_free m : BasicManager A :=
  mkBasicManager (bm_harness_options m) (bm_has_event_bus m) (bm_has_pre_load_hook m) (bm_managed_map m)
    (bm_next_address m) (bm_handles_map m) (bm_num_ongoing_load_unload_executions m)
    (bm_resource_tracker m) (bm_num_load_threads m) (bm_calls m) true.

(** [PublishOnEventBus]. *)
Definition PublishOnEventBus (s : ServableState) m : BasicManager A :=
  if bm_has_event_bus m then add_manager_call (Published s) m else m.

(** The error callback the constructor installs in [harness_options_]. *)
Definition error_callback (c : HarnessCall) m : BasicManager A :=
  match c with
  | CallErrorCallback i error => PublishOnEventBus (mkServableState i kEnd error) m
  | _ => m
  end.

(** Construction: [Create] and the constructor. *)
Definition Create (max_num_load_retries num_load_threads : Z)
    (has_event_bus has_pre_load_hook : bool) (tracker : option ResourceTracker) :
    BasicManager A :=
  mkBasicManager (mkHarnessOptions max_num_load_retries true) has_event_bus
    has_pre_load_hook ∅ 0 [] 0%Z tracker num_load_threads [] false.

(** A method call on the harness at address [p]: the error callback runs for the
    errors the call recorded. *)
Definition call_harness (p : nat) (f : SM (LoaderHarness A)) : SM (BasicManager A) := λ m,
  match bm_managed_map m !! p with
  | None => (StatusOK, mark_use_after_free m)
  | Some h =>
      let '(status, h') := f h in
      (status, foldl (λ m c, error_callback c m)
        (set_managed_map (<[p := h']> (bm_managed_map m)) m)
        (drop (length (h_trace h)) (h_trace h')))
  end.

(** ** Lookups *)

(** [FindHarnessInMap]. *)
Definition FindHarnessInMap (i : ServableId) m : option (nat * LoaderHarness A) :=
  snd <$> list_find (λ ph, sid_name (h_id ph.2) = sid_name i ∧
                           sid_version (h_id ph.2) = sid_version i)
            (map_to_list (bm_managed_map m)).

(** [GetHealthyHarness]. *)
Definition GetHealthyHarness (i : ServableId) m : Status * option nat :=
  match FindHarnessInMap i m with
  | None => (NotFound ("This servable is not being managed by the manager: " +:+
               ServableId_DebugString i), None)
  | Some (p, h) =>
      if negb (ok (h_status h)) then (h_status h, None) else (StatusOK, Some p)
  end.

(** [GetManagedServableNames]. *)
Definition GetManagedServableNames m : list string :=
  remove_dups ((λ ph, sid_name (h_id ph.2)) <$> map_to_list (bm_managed_map m)).

(** [GetManagedServableStateSnapshots] and [GetManagedServableStateSnapshot]. *)
Definition GetManagedServableStateSnapshots (name : string) m :
    list (ServableStateSnapshot A) :=
  (λ ph, loader_state_snapshot ph.2) <$>
    filter (λ ph, sid_name (h_id ph.2) = name) (map_to_list (bm_managed_map m)).

Definition GetManagedServableStateSnapshot (i : ServableId) m :
    option (ServableStateSnapshot A) :=
  (λ ph, loader_state_snapshot ph.2) <$> FindHarnessInMap i m.

(** A write through the pointer that [GetAdditionalServableState] returns. *)
Definition SetAdditionalServableState (i : ServableId) (a : A) m : BasicManager A :=
  match FindHarnessInMap i m with
  | Some (p, _) =>
      set_managed_map (alter (set_additional_state a) p (bm_managed_map m)) m
  | None => m
  end.

(** [GetLoadersCurrentlyUsingResources]: the switch, and the loop. *)
Definition uses_resources (s : State.t) : bool :=
  match s with
  | State.kNew => false
  | State.kLoadRequested => false
  | State.kLoadApproved => true
  | State.kLoading => true
  | State.kReady => true
  | State.kQuiescing => true
  | State.kQuiesced => true
  | State.kUnloadRequested => true
  | State.kUnloading => true
  | State.kDisabled => false
  | State.kError => false
  end.

Definition GetLoadersCurrentlyUsingResources m : list (option nat) :=
  (λ ph, h_loader ph.2) <$>
    filter (λ ph, uses_resources (h_state ph.2) = true) (map_to_list (bm_managed_map m)).

(** ** The serving map *)

(** [CompareRequests] on the requests of two harnesses. *)
Definition CompareRequests (lhs rhs : ServableId) : bool :=
  match String.compare (sid_name lhs) (sid_name rhs) with
  | Eq => (sid_version lhs <? sid_version rhs)%Z
  | Lt => true
  | Gt => false
  end.

(** [std::multimap::emplace]: after the elements that are not greater. *)
Fixpoint multimap_emplace (x : Handle) (l : list Handle) : list Handle :=
  match l with
  | [] => [x]
  | y :: rest => if CompareRequests x.1 y.1 then x :: y :: rest
                 else y :: multimap_emplace x rest
  end.

(** The second loop of [ServingMap::Update]. *)
Fixpoint make_handles (sorted_available_map : list Handle) : HandlesMap :=
  match sorted_available_map with
  | [] => []
  | x :: rest =>
      (FromId x.1, x) ::
      (match rest with
       | y :: _ => if negb (String.eqb (sid_name y.1) (sid_name x.1))
                   then [(Latest (sid_name x.1), x)] else []
       | [] => [(Latest (sid_name x.1), x)]
       end) ++ make_handles rest
  end.

(** The ready harnesses of the first loop. *)
Definition ready_handles (managed_map : gmap nat (LoaderHarness A)) : list Handle :=
  (λ ph, (h_id ph.2, h_loader ph.2)) <$>
    filter (λ ph, h_state ph.2 = State.kReady) (map_to_list managed_map).

(** [ServingMap::Update] and [UpdateServingMap]: the map that is installed.  The call
    returns when every handle of the old map is gone; [ServableHandles.v] models that
    wait, which here does not show. *)
Definition ServingMap_Update (managed_map : gmap nat (LoaderHarness A)) : HandlesMap :=
  make_handles (foldl (λ l x, multimap_emplace x l) [] (ready_handles managed_map)).

Definition UpdateServingMap m : BasicManager A :=
  set_handles_map (ServingMap_Update (bm_managed_map m)) m.

(** [ServingMap::GetUntypedServableHandle]. *)
Definition GetUntypedServableHandle (request : ServableRequest) m : Status * option Handle :=
  match list_find (λ kv, kv.1 = request) (bm_handles_map m) with
  | None => (NotFound ("Servable not found for request: " +:+
               ServableRequest_DebugString request), None)
  | Some (_, (_, handle)) => (StatusOK, Some handle)
  end.

(** [ServingMap::ListAvailableServableIds]. *)
Definition ListAvailableServableIds m : list ServableId :=
  (λ kv, kv.2.1) <$> filter (λ kv, is_Some (req_version kv.1)) (bm_handles_map m).

(** The body of the loop of [ServingMap::GetAvailableUntypedServableHandles]. *)
Definition add_handle (result : gmap ServableId Handle) (kv : ServableRequest * Handle) :
    gmap ServableId Handle :=
  match req_version kv.1 with
  | None => result
  | Some _ => match result !! kv.2.1 with
              | Some _ => result
              | None => <[kv.2.1 := kv.2]> result
              end
  end.

Definition GetAvailableUntypedServableHandles m : gmap ServableId Handle :=
  foldl add_handle ∅ (bm_handles_map m).

(** ** Managing *)

(** [ManageServableInternal], with the additional state given to the harness. *)
Definition ManageServableInternal (servable : ServableData nat) (a : option A) :
    SM (BasicManager A) := λ m,
  match FindHarnessInMap (sd_id servable) m with
  | Some _ =>
      (FailedPrecondition ("This servable is already being managed: " +:+
         ServableId_DebugString (sd_id servable)), m)
  | None =>
      let loader := DataOrDie servable in
      let harness :=
        newLoaderHarness (sd_id servable) loader a (bm_harness_options m) in
      if negb (ok (sd_status servable)) then
        let harness' := Error (sd_status servable) harness in
        (StatusOK, emplace_harness harness'
          (foldl (λ m c, error_callback c m) m (h_trace harness')))
      else
        (StatusOK, emplace_harness harness
          (PublishOnEventBus (mkServableState (h_id harness) kStart (h_status harness)) m))
  end.

(** [ManageServable] and [ManageServableWithAdditionalState]. *)
Definition ManageServable (servable : ServableData nat) : SM (BasicManager A) :=
  ManageServableInternal servable None.

Definition ManageServableWithAdditionalState (servable : ServableData nat) (a : A) :
    SM (BasicManager A) :=
  ManageServableInternal servable (Some a).

(** [StopManagingServable]. *)
Definition StopManagingServable (i : ServableId) : SM (BasicManager A) := λ m,
  match FindHarnessInMap i m with
  | None => (FailedPrecondition ("This servable is not being managed: " +:+
               ServableId_DebugString i), m)
  | Some (p, h) =>
      if negb (bool_decide (h_state h = State.kNew)) &&
         negb (bool_decide (h_state h = State.kError)) &&
         negb (bool_decide (h_state h = State.kDisabled)) then
        (FailedPrecondition ("This servable is not in a new or end state and we cannot stop "
           +:+ "managing it: " +:+ ServableId_DebugString i +:+ " " +:+
           StateDebugString (h_state h)), m)
      else (StatusOK, set_managed_map (delete p (bm_managed_map m)) m)
  end.

(** [CancelLoadServableRetry]. *)
Definition CancelLoadServableRetry (i : ServableId) m : BasicManager A :=
  match GetHealthyHarness i m with
  | (StatusOK, Some p) =>
      (call_harness p (λ h, (StatusOK, set_cancel_load_retry true h)) m).2
  | _ => m
  end.

(** [UnloadAllServables], the body of the loop for the harness at [p]. *)
Definition harness_state_is (s : State.t) (p : nat) m : bool :=
  match bm_managed_map m !! p with
  | Some h => bool_decide (h_state h = s)
  | None => false
  end.

Definition unload_one (m : BasicManager A) (p : nat) : BasicManager A :=
  let m := if harness_state_is State.kReady p m then
      ((call_harness p UnloadRequested ;;! call_harness p StartQuiescing ;;!
        call_harness p DoneQuiescing ;;! call_harness p Unload) m).2 else m in
  let m := if harness_state_is State.kQuiescing p m then
      ((call_harness p DoneQuiescing ;;! call_harness p Unload) m).2 else m in
  if harness_state_is State.kQuiesced p m then (call_harness p Unload m).2 else m.

Definition UnloadAllServables m : BasicManager A :=
  foldl unload_one m (map_to_list (bm_managed_map m)).*1.

(** [SetNumLoadThreads], without the executor it rebuilds. *)
Definition SetNumLoadThreads (num_load_threads : Z) m : BasicManager A :=
  set_num_load_threads num_load_threads m.

(** ** Reserving resources *)

(** [ReserveResources], one round of its loop, in a manager with tracker [t], for
    the harness [h]: [recompute] and [reserve k] are the loaders' estimates, the
    latter on the [k]-th try.  A failed try leaves the tracker as it was. *)
Definition ReserveResources (recompute : option nat → Estimate) (reserve : nat → Estimate)
    (h : LoaderHarness A) (t : ResourceTracker) m : Reservation * BasicManager A :=
  let t := (Tracker_RecomputeUsedResources
              (recompute <$> GetLoadersCurrentlyUsingResources m) t).2 in
  let '(reserve_resources_status, tries) :=
    Retry (max_num_load_retries (bm_harness_options m))
      (λ k, (Tracker_ReserveResources (reserve k) t).1.1)
      (λ _, h_cancel_load_retry h) in
  let '(_, resources_reserved, t) := Tracker_ReserveResources (reserve (pred tries)) t in
  let m := set_tracker (Some t) m in
  if negb (ok reserve_resources_status) then
    (ReserveReturns (Internal
      ("Error while attempting to reserve resources to load servable " +:+
       ServableId_DebugString (h_id h) +:+ ": " +:+
       error_message reserve_resources_status)), m)
  else if default false resources_reserved then (ReserveReturns StatusOK, m)
  else if (bm_num_ongoing_load_unload_executions m =? 0)%Z then
    (ReserveReturns (ResourceExhausted
      ("Insufficient resources to load servable " +:+ ServableId_DebugString (h_id h))), m)
  else (ReserveWaits, m).

(** ** The decision phase *)

(** [ApproveLoad]: [None] when it waits for an execution to finish. *)
Definition ApproveLoad (recompute : option nat → Estimate) (reserve : nat → Estimate)
    (p : nat) m : option Status * BasicManager A :=
  match bm_managed_map m !! p with
  | None => (Some StatusOK, mark_use_after_free m)
  | Some h =>
      let '(reservation, m) :=
        match bm_resource_tracker m with
        | None => (ReserveReturns StatusOK, m)
        | Some t => ReserveResources recompute reserve h t m
        end in
      match reservation with
      | ReserveWaits => (None, m)
      | ReserveReturns resource_reservation_status =>
          if negb (ok resource_reservation_status) then
            let m := (call_harness p
                        (λ h, (StatusOK, Error resource_reservation_status h)) m).2 in
            (Some resource_reservation_status,
             PublishOnEventBus (mkServableState (h_id h) kEnd resource_reservation_status) m)
          else
            let '(status, m) := (call_harness p LoadApproved ;;? sm_ret StatusOK) m in
            (Some status, m)
      end
  end.

(** [ApproveUnload]. *)
Definition ApproveUnload (p : nat) : SM (BasicManager A) :=
  call_harness p StartQuiescing ;;? sm_ret StatusOK.

(** [ApproveLoadOrUnload], after [GetHealthyHarness] has found the harness [p];
    a load request that waited comes back here. *)
Definition ApproveRequest (recompute : option nat → Estimate) (reserve : nat → Estimate)
    (request : LoadOrUnloadRequest) (p : nat) m : option Status * BasicManager A :=
  let '(status, m) :=
    match lur_kind request with
    | kLoadRequest => ApproveLoad recompute reserve p m
    | kUnloadRequest => let '(status, m) := ApproveUnload p m in (Some status, m)
    end in
  match status with
  | Some StatusOK =>
      (Some StatusOK, set_num_ongoing (bm_num_ongoing_load_unload_executions m + 1) m)
  | _ => (status, m)
  end.

Definition ApproveLoadOrUnload (recompute : option nat → Estimate) (reserve : nat → Estimate)
    (request : LoadOrUnloadRequest) m : option Status * option nat * BasicManager A :=
  match GetHealthyHarness (lur_id request) m with
  | (StatusOK, Some p) =>
      let '(status, m) := ApproveRequest recompute reserve request p m in (status, Some p, m)
  | (status, _) => (Some status, None, m)
  end.

(** ** The execution phase *)

(** A member function that returns nothing. *)
Definition do_ (f : BasicManager A → BasicManager A) : SM (BasicManager A) := λ m,
  (StatusOK, f m).

(** [PublishOnEventBus({harness->id(), state, harness->status()})]. *)
Definition publish_harness (state : ManagerState) (p : nat) m : BasicManager A :=
  match bm_managed_map m !! p with
  | None => mark_use_after_free m
  | Some h => PublishOnEventBus (mkServableState (h_id h) state (h_status h)) m
  end.

Definition call_pre_load_hook (i : ServableId) m : BasicManager A :=
  if bm_has_pre_load_hook m then add_manager_call (PreLoadHook i) m else m.

(** [ExecuteLoad], run without interruption; [i] is [harness->id()]. *)
Definition ExecuteLoad (load : nat → Status) (cancelled : nat → bool) (i : ServableId)
    (p : nat) : SM (BasicManager A) :=
  do_ (publish_harness kLoading p) ;;?
  do_ (call_pre_load_hook i) ;;?
  call_harness p (Load load cancelled) ;;?
  do_ UpdateServingMap ;;?
  do_ (PublishOnEventBus (mkServableState i kAvailable StatusOK)).

(** [ExecuteUnload], its critical section and the whole. *)
Definition ExecuteUnload_begin (p : nat) : SM (BasicManager A) :=
  do_ (publish_harness kUnloading p) ;;?
  do_ UpdateServingMap ;;?
  call_harness p DoneQuiescing ;;? sm_ret StatusOK.

Definition ExecuteUnload (i : ServableId) (p : nat) : SM (BasicManager A) :=
  ExecuteUnload_begin p ;;?
  call_harness p Unload ;;?
  do_ (PublishOnEventBus (mkServableState i kEnd StatusOK)).

(** [ExecuteLoadOrUnload]. *)
Definition finish_execution m : BasicManager A :=
  set_num_ongoing (bm_num_ongoing_load_unload_executions m - 1) m.

Definition ExecuteLoadOrUnload (load : nat → Status) (cancelled : nat → bool)
    (request : LoadOrUnloadRequest) (p : nat) : SM (BasicManager A) := λ m,
  let '(execution_status, m) :=
    match lur_kind request with
    | kLoadRequest => ExecuteLoad load cancelled (lur_id request) p m
    | kUnloadRequest => ExecuteUnload (lur_id request) p m
    end in
  (execution_status, finish_execution m).

(** [HandleLoadOrUnloadRequest], run without interruption: [None] when the
    decision phase has to wait for another request. *)
Definition HandleLoadOrUnloadRequest (recompute : option nat → Estimate)
    (reserve : nat → Estimate) (load : nat → Status) (cancelled : nat → bool)
    (request : LoadOrUnloadRequest) m : option (BasicManager A) :=
  match ApproveLoadOrUnload recompute reserve request m with
  | (None, _, _) => None
  | (Some StatusOK, Some p, m) =>
      let '(execution_status, m) := ExecuteLoadOrUnload load cancelled request p m in
      Some (add_manager_call (Done request execution_status) m)
  | (Some decision_status, _, m) =>
      Some (add_manager_call (Done request decision_status) m)
  end.

(** [LoadOrUnloadServable]: the part under the lock; a request it accepts is then
    scheduled on an executor, a request it refuses is answered at once. *)
Definition RequestLoadOrUnload (request : LoadOrUnloadRequest) : SM (BasicManager A) := λ m,
  match GetHealthyHarness (lur_id request) m with
  | (StatusOK, Some p) =>
      match lur_kind request with
      | kLoadRequest => (call_harness p LoadRequested ;;? sm_ret StatusOK) m
      | kUnloadRequest => (call_harness p UnloadRequested ;;? sm_ret StatusOK) m
      end
  | (status, _) => (status, m)
  end.

Definition LoadOrUnloadServable (request : LoadOrUnloadRequest) m :
    option LoadOrUnloadRequest * BasicManager A :=
  let '(status, m) := RequestLoadOrUnload request m in
  if negb (ok status) then (None, add_manager_call (Done request status) m)
  else (Some request, m).

(** [LoadServable] and [UnloadServable]. *)
Definition LoadServable (i : ServableId) m : option LoadOrUnloadRequest * BasicManager A :=
  LoadOrUnloadServable (mkRequest kLoadRequest i) m.

Definition UnloadServable (i : ServableId) m : option LoadOrUnloadRequest * BasicManager A :=
  LoadOrUnloadServable (mkRequest kUnloadRequest i) m.
End manager.

(** * The serving map *)

Definition handle_lt (x y : Handle) : Prop := ServableId_ltb x.1 y.1 = true.

(** What [ServingMap::Update] is meant to build from the available handles [l]. *)
Definition serves (l : list Handle) (request : ServableRequest) (x : Handle) : Prop :=
  x ∈ l ∧ req_name request = sid_name x.1 ∧
  match req_version request with
  | Some v => v = sid_version x.1
  | None => ∀ y, y ∈ l → sid_name y.1 = sid_name x.1 →
                 (sid_version y.1 <= sid_version x.1)%Z
  end.

Lemma multimap_emplace_perm x l : multimap_emplace x l ≡ₚ x :: l.
Proof.
  induction l as [|y l IH]; simpl; [done|]. case_match; [done|].
  rewrite IH. apply perm_swap.
Qed.

Lemma multimap_emplace_sorted x l :
  x.1 ∉ l.*1 → StronglySorted handle_lt l → StronglySorted handle_lt (multimap_emplace x l).
Proof.
  induction l as [|y l IH]; simpl; intros Hx Hl; [by repeat constructor|].
  apply StronglySorted_inv in Hl as [Hl Hy]. apply not_elem_of_cons in Hx as [Hne Hx].
  change (CompareRequests x.1 y.1) with (ServableId_ltb x.1 y.1).
  destruct (ServableId_ltb x.1 y.1) eqn:E.
  - constructor; [by constructor|]. constructor; [done|].
    eapply Forall_impl; [exact Hy|]. intros z. by apply ServableId_ltb_trans.
  - constructor; [by apply IH|]. rewrite multimap_emplace_perm. constructor; [|done].
    unfold handle_lt. by destruct (ServableId_ltb_total x.1 y.1) as [|[|]]; congruence.
Qed.

Lemma sorted_available_spec l :
  NoDup l.*1 →
  StronglySorted handle_lt (foldl (λ l x, multimap_emplace x l) [] l) ∧
  foldl (λ l x, multimap_emplace x l) [] l ≡ₚ l.
Proof.
  intros Hnd. induction l as [|x l IH] using rev_ind; [split; constructor|].
  rewrite fmap_app, NoDup_app in Hnd; simpl in Hnd. destruct Hnd as (Hl&Hx&_).
  destruct (IH Hl) as [Hs Hp]. rewrite foldl_app; simpl. split.
  - apply multimap_emplace_sorted; [|done]. rewrite Hp. intros Hin.
    by apply (Hx _ Hin), list_elem_of_singleton.
  - by rewrite multimap_emplace_perm, Hp, Permutation_app_comm.
Qed.

Lemma ltb_same_name (a b : ServableId) :
  ServableId_ltb a b = true → sid_name a = sid_name b → (sid_version a < sid_version b)%Z.
Proof.
  unfold ServableId_ltb. intros H E. rewrite E, string_compare_refl in H. by apply Z.ltb_lt.
Qed.

Lemma ltb_between (a b c : ServableId) :
  ServableId_ltb a b = true → ServableId_ltb b c = true → sid_name a = sid_name c →
  sid_name b = sid_name a.
Proof.
  unfold ServableId_ltb. intros Hab Hbc Hac. rewrite <-Hac in Hbc.
  rewrite (string_compare_antisym (sid_name a) (sid_name b)) in Hbc.
  destruct (String.compare (sid_name a) (sid_name b)) eqn:E; simpl in *; try done.
  by apply string_compare_eq in E.
Qed.

(** [x] is followed by a handle of another name, or by none, exactly when it is
    the latest of its name. *)
Lemma latest_iff_next x l :
  StronglySorted handle_lt (x :: l) →
  (∀ y, y ∈ x :: l → sid_name y.1 = sid_name x.1 → (sid_version y.1 <= sid_version x.1)%Z) ↔
  match l with y :: _ => sid_name y.1 ≠ sid_name x.1 | [] => True end.
Proof.
  intros [Hl Hx]%StronglySorted_inv. rewrite Forall_forall in Hx. split.
  - intros Hmax. destruct l as [|y l]; [done|]. intros Heq.
    assert (handle_lt x y) as Hxy by (apply Hx; left).
    apply ltb_same_name in Hxy; [|done]. specialize (Hmax y ltac:(right; left) Heq). lia.
  - intros Hnext y [->|Hy]%elem_of_cons Heq; [lia|].
    destruct l as [|z l]; [by apply not_elem_of_nil in Hy|]. destruct Hnext.
    apply elem_of_cons in Hy as [->|Hy]; [done|].
    apply StronglySorted_inv in Hl as [_ Hz]. rewrite Forall_forall in Hz.
    eapply (ltb_between x.1 z.1 y.1); [apply Hx; left|by apply Hz|done].
Qed.

Lemma elem_of_make_handles l k x :
  StronglySorted handle_lt l → (k, x) ∈ make_handles l ↔ serves l k x.
Proof.
  induction l as [|y l IH]; intros Hs.
  { unfold serves. split; [by intros ?%not_elem_of_nil|by intros [?%not_elem_of_nil _]]. }
  pose proof (latest_iff_next y l Hs) as Hnext.
  apply StronglySorted_inv in Hs as [Hs Hy]. specialize (IH Hs). rewrite Forall_forall in Hy.
  assert (x ∈ l → serves l k x ↔ serves (y :: l) k x) as Htail.
  { intros Hx. unfold serves. rewrite elem_of_cons. destruct (req_version k); [naive_solver|].
    split; intros (?&Hn&Hmax); (split_and!; [auto|done|]).
    - intros z [->|Hz]%elem_of_cons Heq; [|auto].
      pose proof (ltb_same_name _ _ (Hy _ Hx) Heq). lia.
    - intros z Hz. apply Hmax. by right. }
  assert ((k, x) ∈ (match l with
       | z :: _ => if negb (String.eqb (sid_name z.1) (sid_name y.1))
                   then [(Latest (sid_name y.1), y)] else []
       | [] => [(Latest (sid_name y.1), y)] end) ↔
     k = Latest (sid_name y.1) ∧ x = y ∧
     match l with z :: _ => sid_name z.1 ≠ sid_name y.1 | [] => True end) as Hmid.
  { destruct l as [|z l]; [rewrite list_elem_of_singleton; naive_solver|].
    destruct (String.eqb_spec (sid_name z.1) (sid_name y.1)); simpl.
    - rewrite elem_of_nil. naive_solver.
    - rewrite list_elem_of_singleton. naive_solver. }
  cbn [make_handles]. rewrite elem_of_cons, elem_of_app, Hmid, IH. clear Hmid.
  destruct (decide (x ∈ l)) as [Hx|Hx].
  - rewrite <-Htail by done. split; [|by right; right].
    assert (x ≠ y) by (intros ->; specialize (Hy _ Hx); unfold handle_lt in Hy;
      by rewrite ServableId_ltb_irrefl in Hy).
    naive_solver.
  - rewrite <-Hnext. clear Htail Hnext IH. unfold serves. rewrite elem_of_cons.
    destruct k as [n [v|]]; unfold FromId, Specific, Latest; simpl; [naive_solver|].
    split; [intros [?|[[? [-> ?]]|?]]|intros ([->|?]&->&?)]; naive_solver.
Qed.

Lemma serves_functional l k x y :
  NoDup l.*1 → serves l k x → serves l k y → x = y.
Proof.
  intros Hnd (Hx&Hxn&Hxv) (Hy&Hyn&Hyv).
  assert (x.1 = y.1) as Hid.
  { destruct x as [[nx vx] lx], y as [[ny vy] ly]; simpl in *. subst.
    destruct (req_version k); [by subst|]. f_equal.
    specialize (Hxv _ Hy eq_refl). specialize (Hyv _ Hx eq_refl). simpl in *. lia. }
  apply list_elem_of_lookup in Hx as [i Hi], Hy as [j Hj].
  assert (i = j) as ->; [|congruence].
  apply (NoDup_lookup l.*1 i j x.1 Hnd); rewrite list_lookup_fmap.
  - by rewrite Hi.
  - rewrite Hj. simpl. by rewrite Hid.
Qed.

Lemma serves_perm l l' k x : l ≡ₚ l' → serves l k x → serves l' k x.
Proof.
  intros Hp (?&?&?). split_and!; [by rewrite <-Hp|done|].
  case_match; [done|]. intros y. rewrite <-Hp. auto.
Qed.

Section serving_map.
Context {A : Type}.
Implicit Types m : BasicManager A.

(** The ids of the harnesses being managed are distinct. *)
Definition unique_ids (managed_map : gmap nat (LoaderHarness A)) : Prop :=
  ∀ p q h h', managed_map !! p = Some h → managed_map !! q = Some h' →
    h_id h = h_id h' → p = q.

Lemma elem_of_ready_handles M x :
  x ∈ ready_handles M ↔ ∃ p h, M !! p = Some h ∧ h_state h = State.kReady ∧
    x = (@h_id A h, h_loader h).
Proof.
  unfold ready_handles. rewrite list_elem_of_fmap. split.
  - intros ([p h]&->&[Hs Hin%elem_of_map_to_list]%list_elem_of_filter). eauto.
  - intros (p&h&Hp&Hs&->). exists (p, h). split; [done|].
    by apply list_elem_of_filter; split; [|apply elem_of_map_to_list].
Qed.

Lemma ready_handles_nodup M : unique_ids M → NoDup (ready_handles M).*1.
Proof.
  intros Hu. unfold ready_handles. rewrite <-list_fmap_compose.
  apply NoDup_fmap_2_strong; [|apply NoDup_filter, NoDup_map_to_list].
  intros [p h] [q h'] [_ Hp%elem_of_map_to_list]%list_elem_of_filter
    [_ Hq%elem_of_map_to_list]%list_elem_of_filter Heq; simpl in Heq.
  assert (p = q) as -> by (by eapply Hu). congruence.
Qed.

Lemma elem_of_serving_map M k x :
  unique_ids M → (k, x) ∈ ServingMap_Update M ↔ serves (ready_handles M) k x.
Proof.
  intros Hu. destruct (sorted_available_spec _ (ready_handles_nodup M Hu)) as [Hs Hp].
  unfold ServingMap_Update. rewrite elem_of_make_handles by done.
  split; by apply serves_perm.
Qed.

Lemma GetUntypedServableHandle_elem request m st x :
  GetUntypedServableHandle request m = (st, Some x) →
  st = StatusOK ∧ (request, x) ∈ bm_handles_map m.
Proof.
  unfold GetUntypedServableHandle. destruct (list_find _ _) as [[i [k y]]|] eqn:E; [|done].
  intros [= <- <-]. apply list_find_Some in E as (Hi&Hk&_).
  simpl in Hk. subst k. split; [done|].
  by eapply list_elem_of_lookup_2.
Qed.

Lemma GetUntypedServableHandle_none request m st :
  GetUntypedServableHandle request m = (st, None) →
  st = NotFound ("Servable not found for request: " +:+ ServableRequest_DebugString request) ∧
  ∀ x, (request, x) ∉ bm_handles_map m.
Proof.
  unfold GetUntypedServableHandle. destruct (list_find _ _) as [[i [k y]]|] eqn:E; [done|].
  intros [= <-]. split; [done|]. intros x Hx.
  by apply list_find_None in E; rewrite Forall_forall in E; apply (E _ Hx).
Qed.

(** Once the serving map has been updated, a request for a specific version
    is answered with that version's handle exactly when its harness is ready, a
    request for the latest version with the handle of the ready version of that
    name that has the greatest number, and any other request with NotFound. *)
Theorem UpdateServingMap_spec m (request : ServableRequest) :
  unique_ids (bm_managed_map m) →
  match GetUntypedServableHandle request (UpdateServingMap m) with
  | (st, Some x) => st = StatusOK ∧ serves (ready_handles (bm_managed_map m)) request x
  | (st, None) =>
      st = NotFound ("Servable not found for request: " +:+
             ServableRequest_DebugString request) ∧
      ∀ x, ¬ serves (ready_handles (bm_managed_map m)) request x
  end.
Proof.
  intros Hu. destruct (GetUntypedServableHandle _ _) as [st [x|]] eqn:E.
  - apply GetUntypedServableHandle_elem in E as [-> E]. split; [done|].
    by apply elem_of_serving_map.
  - apply GetUntypedServableHandle_none in E as [-> E]. split; [done|].
    intros x Hx. by apply (E x), elem_of_serving_map.
Qed.

Lemma add_handle_lookup result k y i :
  add_handle result (k, y) !! i =
  match result !! i, req_version k with
  | None, Some _ => if decide (y.1 = i) then Some y else None
  | x, _ => x
  end.
Proof.
  unfold add_handle; simpl. destruct (req_version k); [|by destruct (result !! i)].
  destruct (decide (y.1 = i)) as [<-|Hne].
  - destruct (result !! y.1) eqn:E; by rewrite ?E, ?lookup_insert_eq.
  - destruct (result !! y.1); rewrite ?lookup_insert_ne by done; by destruct (result !! i).
Qed.

Lemma add_handle_fold (l : HandlesMap) result i :
  let result' := foldl add_handle result l in
  (∀ x, result' !! i = Some x → result !! i = Some x ∨
     x.1 = i ∧ ∃ k, (k, x) ∈ l ∧ is_Some (req_version k)) ∧
  (is_Some (result !! i) ∨ (∃ k x, (k, x) ∈ l ∧ is_Some (req_version k) ∧ x.1 = i) →
   is_Some (result' !! i)).
Proof.
  revert result. induction l as [|[k y] l IH]; intros result; simpl.
  { split; [by auto|]. by intros [|(?&?&?%not_elem_of_nil&_)]. }
  destruct (IH (add_handle result (k, y))) as [Hin Hout]. clear IH.
  rewrite add_handle_lookup in Hin, Hout. split.
  - intros x Hx. destruct (Hin x Hx) as [H|(?&k'&?&?)]; [|right; set_solver].
    destruct (result !! i); [by left|]. destruct (req_version k) eqn:Ek; [|by left].
    case_decide; simplify_eq. right. split; [done|]. exists k. rewrite Ek. set_solver.
  - intros H. apply Hout. destruct H as [[z Hz]|(k'&x&[Heq|?]%elem_of_cons&[v Hs]&<-)].
    + rewrite Hz. left. by eexists.
    + injection Heq as -> ->. rewrite Hs, decide_True by done. left. by case_match; eexists.
    + right. eauto.
Qed.

Lemma served_specific m i x :
  unique_ids (bm_managed_map m) → x.1 = i →
  (∃ k, (k, x) ∈ bm_handles_map (UpdateServingMap m) ∧ is_Some (req_version k)) ↔
  x ∈ ready_handles (bm_managed_map m).
Proof.
  intros Hu <-. split.
  - intros (k&[? _]%elem_of_serving_map&_); done.
  - intros Hx. exists (FromId x.1). split; [|by eexists].
    by apply elem_of_serving_map.
Qed.

(** Once the serving map has been updated, the servables listed as available
    are the ready ones, and the map of available handles gives each of them its
    own handle and nothing else. *)
Theorem available_servables_spec m (i : ServableId) (x : Handle) :
  unique_ids (bm_managed_map m) →
  (i ∈ ListAvailableServableIds (UpdateServingMap m) ↔
   i ∈ (ready_handles (bm_managed_map m)).*1) ∧
  (GetAvailableUntypedServableHandles (UpdateServingMap m) !! i = Some x ↔
   i = x.1 ∧ x ∈ ready_handles (bm_managed_map m)).
Proof.
  intros Hu. split.
  - unfold ListAvailableServableIds. rewrite !list_elem_of_fmap. split.
    + intros ([k y]&->&[Hk Hin]%list_elem_of_filter). exists y. split; [done|].
      apply (served_specific m y.1 y Hu eq_refl). eauto.
    + intros (y&->&Hy). apply (served_specific m y.1 y Hu eq_refl) in Hy as (k&Hin&Hk).
      exists (k, y). split; [done|]. by apply list_elem_of_filter.
  - unfold GetAvailableUntypedServableHandles.
    destruct (add_handle_fold (bm_handles_map (UpdateServingMap m)) ∅ i) as [Hin Hout].
    split.
    + intros H. apply Hin in H as [H|(Hi&k&?&?)]; [done|]. split; [done|].
      apply (served_specific m i x Hu Hi). eauto.
    + intros [-> Hx]. apply (served_specific m x.1 x Hu eq_refl) in Hx as (k&Hk&Hv).
      destruct Hout as [y Hy]; [right; eauto|]. rewrite Hy. f_equal.
      apply Hin in Hy as [?|(Hid&k'&Hk'&_)]; [done|].
      apply elem_of_serving_map in Hk as [Hx _], Hk' as [Hy _]; [|done..].
      apply (serves_functional (ready_handles (bm_managed_map m)) (FromId x.1));
        [by apply ready_handles_nodup|by split_and!; rewrite ?Hid|done].
Qed.
End serving_map.

(** A manager with versions 1 and 3 of a servable ready and version 7 loading. *)
Definition example_harness (v : Z) (s : State.t) : LoaderHarness unit :=
  set_state s (newLoaderHarness (mkServableId "m" v) (Some (Z.to_nat v)) None
    (mkHarnessOptions 0 true)).

Definition example_manager : BasicManager unit :=
  set_managed_map {[ 0 := example_harness 1 State.kReady; 1 := example_harness 3 State.kReady;
                     2 := example_harness 7 State.kLoading ]}
    (Create 0 1 true false None).

Lemma example_manager_unique : unique_ids (bm_managed_map example_manager).
Proof.
  intros p q h h' Hp Hq Heq. simpl in Hp, Hq.
  rewrite !lookup_insert_Some, lookup_singleton_Some in Hp, Hq. naive_solver.
Qed.

Lemma UpdateServingMap_spec_witness :
  serves (ready_handles (bm_managed_map example_manager)) (Latest "m")
    (mkServableId "m" 3, Some 3).
Proof.
  pose proof (UpdateServingMap_spec example_manager (Latest "m") example_manager_unique) as H.
  vm_compute in H. vm_compute. exact (proj2 H).
Defined.

Lemma available_servables_spec_witness :
  mkServableId "m" 3 ∈ ListAvailableServableIds (UpdateServingMap example_manager).
Proof.
  apply (available_servables_spec example_manager (mkServableId "m" 3)
    (mkServableId "m" 3, Some 3) example_manager_unique).
  vm_compute. left.
Defined.
