(* ===== verification/ManagerSystem.v ===== *)
(** The basic manager as a concurrent system.

    [BasicManager] runs every accepted request on a thread of one of its
    executors.  Here the handlers of [BasicManager.v] are cut where they take
    and release [mu_]: a thread is a program point of
    [HandleLoadOrUnloadRequest] with the local variables live there, and
    [run_thread] executes the code from one point to the next.  Any number of
    threads run in any order, interleaved with the calls of the public
    interface.  The decision mutex and the condition variable are explicit: one
    thread at a time is in its decision phase, a thread whose reservation fails
    while executions are under way sleeps, and the end of an execution wakes it.

    A call of the loader and the transition of the harness that records its
    result form one step: both belong to the thread that executes the request.
    [UpdateServingMap] is part of a step too, as it is when no client has a handle of
    the old map; [ServableHandles.v] cuts it up and lets it wait for those handles.

    The theorems: no thread uses a harness that is gone or takes an illegal
    transition, only loaded servables are served, a servable dropped by the
    manager is not loaded, the execution count is exact, an accepted unload
    succeeds, and, as long as clients keep no handles, every request is answered, once
    ([ServableHandles.v] has the statement with handles). *)
From S2P Require Import Prelude Status Servable LoaderHarness Resources BasicManager.
Local Open Scope status_scope.

(** * Threads *)

(** The program points of [HandleLoadOrUnloadRequest]; [p] is the harness. *)
Inductive Thread :=
  | TQueued (r : LoadOrUnloadRequest)                       (* scheduled *)
  | TReserving (r : LoadOrUnloadRequest) (p : nat)          (* woken in [ReserveResources] *)
  | TAsleep (r : LoadOrUnloadRequest) (p : nat)             (* waits on the condition variable *)
  | TLoadStart (r : LoadOrUnloadRequest) (p : nat)          (* enters [ExecuteLoad] *)
  | TLoadBegin (r : LoadOrUnloadRequest) (p : nat)          (* calls [Load] *)
  | TLoading (r : LoadOrUnloadRequest) (p tries : nat)      (* in the retry loop of [Load] *)
  | TLoadServe (r : LoadOrUnloadRequest)                    (* [Load] returned OK *)
  | TLoadPublish (r : LoadOrUnloadRequest)                  (* publishes kAvailable *)
  | TUnloadStart (r : LoadOrUnloadRequest) (p : nat)        (* enters [ExecuteUnload] *)
  | TUnloadBegin (r : LoadOrUnloadRequest) (p : nat)        (* calls [Unload] *)
  | TUnloading (r : LoadOrUnloadRequest) (p : nat)          (* calls the loader's [Unload] *)
  | TUnloadPublish (r : LoadOrUnloadRequest)                (* publishes kEnd *)
  | TFinish (r : LoadOrUnloadRequest) (status : Status)     (* back in [ExecuteLoadOrUnload] *)
  | TDone (r : LoadOrUnloadRequest) (status : Status).      (* calls [done_callback] *)

Record Sys {A : Type} := mkSys {
  sys_manager : BasicManager A;
  sys_deciding : bool;            (* [load_unload_decision_phase_mu_] is held by a sleeper *)
  sys_threads : list Thread }.    (* in no particular order *)
Arguments Sys : clear implicits.
Arguments mkSys {A}.

(** What the loaders answer during one step. *)
Record Answers := mkAnswers {
  a_recompute : option nat → Estimate;
  a_reserve : nat → Estimate;
  a_load : Status }.

(** [notify_all]. *)
Definition wake (t : Thread) : Thread :=
  match t with TAsleep r p => TReserving r p | _ => t end.

Section system.
Context {A : Type}.
Implicit Types (m : BasicManager A) (s : Sys A) (h : LoaderHarness A).

(** After [ApproveRequest]: the next point of the thread, and whether it keeps
    the decision mutex. *)
Definition after_decision (r : LoadOrUnloadRequest) (p : nat) (rest : list Thread)
    (result : option Status * BasicManager A) : Sys A :=
  match result with
  | (None, m) => mkSys m true (TAsleep r p :: rest)
  | (Some StatusOK, m) =>
      mkSys m false (match lur_kind r with
                     | kLoadRequest => TLoadStart r p
                     | kUnloadRequest => TUnloadStart r p end :: rest)
  | (Some status, m) => mkSys m false (TDone r status :: rest)
  end.

(** One try of the retry loop of [Load], up to the next try or to the return. *)
Definition load_try (result : Status) (tries : nat) h : option (SM (LoaderHarness A)) :=
  if retry_again (max_num_load_retries (h_options h)) (λ _, h_cancel_load_retry h)
       (S tries) result
  then None else Some (λ h, Load_end result (add_call (CallLoad result) h)).

(** The code from the point [t] to the next; [rest] are the other threads.
    [None]: the thread cannot run now. *)
Definition run_thread (a : Answers) (t : Thread) (deciding : bool) (rest : list Thread) m :
    option (Sys A) :=
  match t with
  | TQueued r =>
      if deciding then None else
      Some (match GetHealthyHarness (lur_id r) m with
            | (StatusOK, Some p) =>
                after_decision r p rest (ApproveRequest (a_recompute a) (a_reserve a) r p m)
            | (status, _) => mkSys m false (TDone r status :: rest)
            end)
  | TReserving r p =>
      Some (after_decision r p rest (ApproveRequest (a_recompute a) (a_reserve a) r p m))
  | TAsleep _ _ => None
  | TLoadStart r p =>
      Some (mkSys (call_pre_load_hook (lur_id r) (publish_harness kLoading p m)) deciding
              (TLoadBegin r p :: rest))
  | TLoadBegin r p =>
      let '(status, m) := call_harness p Load_begin m in
      Some (mkSys m deciding
              ((if ok status then TLoading r p 0 else TFinish r status) :: rest))
  | TLoading r p tries =>
      match bm_managed_map m !! p with
      | None => Some (mkSys (mark_use_after_free m) deciding (TFinish r StatusOK :: rest))
      | Some h =>
          match load_try (a_load a) tries h with
          | None =>
              let '(_, m) := call_harness p (λ h,
                (StatusOK, add_call (CallLoad (a_load a)) h)) m in
              Some (mkSys m deciding (TLoading r p (S tries) :: rest))
          | Some f =>
              let '(status, m) := call_harness p f m in
              Some (mkSys m deciding
                      ((if ok status then TLoadServe r else TFinish r status) :: rest))
          end
      end
  | TLoadServe r => Some (mkSys (UpdateServingMap m) deciding (TLoadPublish r :: rest))
  | TLoadPublish r =>
      Some (mkSys (PublishOnEventBus (mkServableState (lur_id r) kAvailable StatusOK) m)
              deciding (TFinish r StatusOK :: rest))
  | TUnloadStart r p =>
      let '(status, m) := ExecuteUnload_begin p m in
      Some (mkSys m deciding
              ((if ok status then TUnloadBegin r p else TFinish r status) :: rest))
  | TUnloadBegin r p =>
      let '(status, m) := call_harness p Unload_begin m in
      Some (mkSys m deciding
              ((if ok status then TUnloading r p else TFinish r status) :: rest))
  | TUnloading r p =>
      let '(status, m) := call_harness p (λ h, Unload_end (add_call CallUnload h)) m in
      Some (mkSys m deciding
              ((if ok status then TUnloadPublish r else TFinish r status) :: rest))
  | TUnloadPublish r =>
      Some (mkSys (PublishOnEventBus (mkServableState (lur_id r) kEnd StatusOK) m)
              deciding (TFinish r StatusOK :: rest))
  | TFinish r status =>
      Some (mkSys (finish_execution m) deciding (TDone r status :: (wake <$> rest)))
  | TDone r status => Some (mkSys (add_manager_call (Done r status) m) deciding rest)
  end.

(** A step: a call of the public interface, or a thread that runs. *)
Inductive Label :=
  | LManage (servable : ServableData nat) (a : option A)
  | LStop (i : ServableId)
  | LCancelRetry (i : ServableId)
  | LSetState (i : ServableId) (a : A)
  | LSetThreads (n : Z)
  | LRequest (r : LoadOrUnloadRequest)
  | LRun (k : nat) (a : Answers).

Definition step (l : Label) s : option (Sys A) :=
  let '(mkSys m deciding threads) := s in
  match l with
  | LManage servable a => Some (mkSys (ManageServableInternal servable a m).2 deciding threads)
  | LStop i => Some (mkSys (StopManagingServable i m).2 deciding threads)
  | LCancelRetry i => Some (mkSys (CancelLoadServableRetry i m) deciding threads)
  | LSetState i a => Some (mkSys (SetAdditionalServableState i a m) deciding threads)
  | LSetThreads n => Some (mkSys (SetNumLoadThreads n m) deciding threads)
  | LRequest r =>
      let '(scheduled, m) := LoadOrUnloadServable r m in
      Some (mkSys m deciding
              (match scheduled with Some r => [TQueued r] | None => [] end ++ threads))
  | LRun k a =>
      match threads !! k with
      | None => None
      | Some t => run_thread a t deciding (delete k threads) m
      end
  end.

(** A servable given with an error has a status that is not OK. *)
Definition label_wf (l : Label) : Prop :=
  match l with LManage (DataError _ e) _ => ok e = false | _ => True end.

(** The systems reached by a sequence of steps. *)
Inductive reachable (m0 : BasicManager A) : list Label → Sys A → Prop :=
  | reachable_init : reachable m0 [] (mkSys m0 false [])
  | reachable_snoc ls l s s' :
      reachable m0 ls s → label_wf l → step l s = Some s' → reachable m0 (ls ++ [l]) s'.
End system.
Arguments Label : clear implicits.

(** * The invariant *)

Definition thread_request (t : Thread) : LoadOrUnloadRequest :=
  match t with
  | TQueued r | TReserving r _ | TAsleep r _ | TLoadStart r _ | TLoadBegin r _
  | TLoading r _ _ | TLoadServe r | TLoadPublish r | TUnloadStart r _ | TUnloadBegin r _
  | TUnloading r _ | TUnloadPublish r | TFinish r _ | TDone r _ => r
  end.

(** The harness a thread is about to use: its address, when the thread holds a
    pointer to it, and the state it must be in. *)
Definition owned (t : Thread) : option (option nat * State.t) :=
  match t with
  | TQueued r => Some (None, match lur_kind r with
                             | kLoadRequest => State.kLoadRequested
                             | kUnloadRequest => State.kUnloadRequested end)
  | TReserving _ p | TAsleep _ p => Some (Some p, State.kLoadRequested)
  | TLoadStart _ p | TLoadBegin _ p => Some (Some p, State.kLoadApproved)
  | TLoading _ p _ => Some (Some p, State.kLoading)
  | TUnloadStart _ p => Some (Some p, State.kQuiescing)
  | TUnloadBegin _ p => Some (Some p, State.kQuiesced)
  | TUnloading _ p => Some (Some p, State.kUnloading)
  | TLoadServe _ | TLoadPublish _ | TUnloadPublish _ | TFinish _ _ | TDone _ _ => None
  end.

Definition owned_id (t : Thread) : option ServableId :=
  (λ _, lur_id (thread_request t)) <$> owned t.

(** The points at which the code no longer uses the harness: what is left is to update
    the serving map, to publish the state, to count the execution and to call back. *)
Definition past_harness (t : Thread) : bool :=
  match t with
  | TLoadServe _ | TLoadPublish _ | TUnloadPublish _ | TFinish _ _ | TDone _ _ => true
  | _ => false
  end.

(** States a harness is in only while a request for it is being handled. *)
Definition transient (s : State.t) : bool :=
  match s with
  | State.kNew | State.kReady | State.kDisabled | State.kError => false
  | _ => true
  end.

(** States in which the serving map may hold a harness. *)
Definition serving (s : State.t) : bool :=
  match s with
  | State.kReady | State.kUnloadRequested | State.kQuiescing => true
  | _ => false
  end.

(** The request kind each point belongs to, and what its locals satisfy: an
    unload ends with OK, and the tries of a load stay within [max_tries]. *)
Definition locals_ok (max_tries : nat) (t : Thread) : Prop :=
  match t with
  | TQueued _ => True
  | TReserving r _ | TAsleep r _ | TLoadStart r _ | TLoadBegin r _ | TLoadServe r
  | TLoadPublish r => lur_kind r = kLoadRequest
  | TLoading r _ tries => lur_kind r = kLoadRequest ∧ (tries = 0 ∨ tries < max_tries)
  | TUnloadStart r _ | TUnloadBegin r _ | TUnloading r _ | TUnloadPublish r =>
      lur_kind r = kUnloadRequest
  | TFinish r status | TDone r status => lur_kind r = kUnloadRequest → status = StatusOK
  end.

Definition executing (t : Thread) : bool :=
  match t with TQueued _ | TReserving _ _ | TAsleep _ _ | TDone _ _ => false | _ => true end.

Definition in_decision (t : Thread) : bool :=
  match t with TReserving _ _ | TAsleep _ _ => true | _ => false end.

Definition asleep (t : Thread) : bool := match t with TAsleep _ _ => true | _ => false end.

Definition max_tries (o : HarnessOptions) : nat :=
  Z.to_nat (u32 (max_num_load_retries o + 1)).

Section invariant.
Context {A : Type}.
Implicit Types (h : LoaderHarness A) (M : gmap nat (LoaderHarness A)) (H : HandlesMap).

Definition thread_ok (o : HarnessOptions) M (t : Thread) : Prop :=
  locals_ok (max_tries o) t ∧
  ∀ op st, owned t = Some (op, st) →
    ∃ p h, M !! p = Some h ∧ h_id h = lur_id (thread_request t) ∧ h_state h = st ∧
      (op = None ∨ op = Some p).

Record harness_good (o : HarnessOptions) h : Prop := {
  good_inv : harness_inv h;
  good_options : h_options h = o;
  good_error : h_state h = State.kError → loader_phase (h_trace h) = Some LNotLoaded }.

Definition served M (x : Handle) : Prop :=
  ∃ p h, M !! p = Some h ∧ h_id h = x.1 ∧ h_loader h = x.2 ∧ serving (h_state h) = true.

Record heap_inv (o : HarnessOptions) M (next : nat) H (ts : list Thread) : Prop := {
  hi_next : ∀ p, next ≤ p → M !! p = None;
  hi_unique : unique_ids M;
  hi_good : ∀ p h, M !! p = Some h → harness_good o h;
  hi_served : ∀ k x, (k, x) ∈ H → served M x;
  hi_threads : ∀ t, t ∈ ts → thread_ok o M t;
  hi_disjoint : NoDup (omap owned_id ts);
  hi_owned : ∀ p h, M !! p = Some h → transient (h_state h) = true →
    h_id h ∈ omap owned_id ts }.

Record counts_inv (n : Z) (deciding : bool) (ts : list Thread) : Prop := {
  ci_ongoing : n = Z.of_nat (length (filter (λ t, executing t = true) ts));
  ci_deciding : length (filter (λ t, in_decision t = true) ts) = if deciding then 1 else 0;
  ci_asleep : ∀ t, t ∈ ts → asleep t = true → (0 < n)%Z }.

Definition sys_inv (s : Sys A) : Prop :=
  let m := sys_manager s in
  heap_inv (bm_harness_options m) (bm_managed_map m) (bm_next_address m) (bm_handles_map m)
    (sys_threads s) ∧
  counts_inv (bm_num_ongoing_load_unload_executions m) (sys_deciding s) (sys_threads s) ∧
  bm_use_after_free m = false.

(** The fields the invariant is about. *)
Definition core (m : BasicManager A) :=
  (bm_harness_options m, bm_managed_map m, bm_next_address m, bm_handles_map m,
   bm_num_ongoing_load_unload_executions m, bm_use_after_free m).

Lemma sys_inv_core m m' d ts :
  core m = core m' → sys_inv (mkSys m d ts) → sys_inv (mkSys m' d ts).
Proof. unfold core, sys_inv; simpl. intros Hc. by simplify_eq Hc; intros -> -> -> -> -> ->. Qed.

Lemma heap_inv_perm o M next H ts ts' :
  ts ≡ₚ ts' → heap_inv o M next H ts → heap_inv o M next H ts'.
Proof.
  intros Hp []. split; try done.
  - intros t. rewrite <-Hp. auto.
  - by rewrite <-Hp.
  - intros p h. rewrite <-Hp. eauto.
Qed.

Lemma counts_inv_perm n d ts ts' : ts ≡ₚ ts' → counts_inv n d ts → counts_inv n d ts'.
Proof.
  intros Hp [Hn Hd Ha]. split.
  - by rewrite <-Hp.
  - by rewrite <-Hp.
  - intros t Ht. apply Ha. by rewrite Hp.
Qed.

(** ** One harness changes *)

Lemma transient_owned_state t op st : owned t = Some (op, st) → transient st = true.
Proof. destruct t; simpl; intros [= <- <-]; try done. by destruct (lur_kind r). Qed.

Lemma owned_id_Some t i :
  owned_id t = Some i ↔ ∃ op st, owned t = Some (op, st) ∧ i = lur_id (thread_request t).
Proof.
  unfold owned_id. destruct (owned t) as [[op st]|]; simpl; [|naive_solver].
  split; [intros [= <-]; eauto|naive_solver].
Qed.

Lemma thread_ok_insert o M t p h h' :
  M !! p = Some h → owned_id t ≠ Some (h_id h) → thread_ok o M t → thread_ok o (<[p:=h']> M) t.
Proof.
  intros Hp Hne [Hl Ho]. split; [done|]. intros op st Hop.
  destruct (Ho op st Hop) as (q&g&Hq&Hid&Hst&Hptr). exists q, g. split_and!; try done.
  rewrite lookup_insert_ne; [done|]. intros <-. apply Hne.
  rewrite owned_id_Some. exists op, st. split; [done|]. congruence.
Qed.

Lemma unique_ids_insert M p h h' :
  M !! p = Some h → h_id h' = h_id h → unique_ids M → unique_ids (<[p:=h']> M).
Proof.
  intros Hp Hid Hu q r g g'. rewrite !lookup_insert_Some.
  intros [[<- <-]|[? Hq]] [[<- <-]|[? Hr]] Heq; try done.
  - eapply Hu; [done..|congruence].
  - eapply Hu; [done..|congruence].
  - by eapply Hu.
Qed.

(** The harness at [p] changes and the thread [t'] is the one that now handles
    it, if it needs one; [rest] are the threads of other servables. *)
Lemma heap_inv_update o M next H ts rest p h h' t' :
  heap_inv o M next H ts → M !! p = Some h →
  (∀ t, t ∈ rest → t ∈ ts ∧ owned_id t ≠ Some (h_id h)) →
  NoDup (omap owned_id rest) →
  (∀ i, i ∈ omap owned_id ts → i ≠ h_id h → i ∈ omap owned_id rest) →
  h_id h' = h_id h → h_loader h' = h_loader h → harness_good o h' →
  (serving (h_state h) = true → serving (h_state h') = true ∨
     ∀ k x, (k, x) ∈ H → x.1 ≠ h_id h) →
  locals_ok (max_tries o) t' →
  match owned t' with
  | Some (op, st) => lur_id (thread_request t') = h_id h ∧ h_state h' = st ∧
                     (op = None ∨ op = Some p)
  | None => transient (h_state h') = false
  end →
  heap_inv o (<[p:=h']> M) next H (t' :: rest).
Proof.
  intros [Hnext Huniq Hgood Hserved Hthreads Hdisj Howned] Hp Hrest Hnd Hown Hid Hload Hg Hserv
    Hloc Ht'.
  assert (owned_id t' = Some (h_id h) ∨ owned_id t' = None ∧ transient (h_state h') = false)
    as Hoid.
  { unfold owned_id. destruct (owned t') as [[op st]|]; [left|by right].
    destruct Ht' as [-> _]. done. }
  split.
  - intros q Hq. rewrite lookup_insert_ne; [auto|]. intros <-. by rewrite Hnext in Hp.
  - by eapply unique_ids_insert.
  - intros q g. rewrite lookup_insert_Some. intros [[<- <-]|[? ?]]; eauto.
  - intros k x Hx. destruct (Hserved k x Hx) as (q&g&Hq&Hgid&Hgl&Hgs).
    destruct (decide (p = q)) as [<-|Hne].
    + simplify_eq. destruct (Hserv Hgs) as [Hs|Hno]; [|by destruct (Hno k x Hx)].
      exists p, h'. rewrite lookup_insert_eq. split_and!; congruence.
    + exists q, g. by rewrite lookup_insert_ne.
  - intros t [->|Ht]%elem_of_cons.
    + split; [done|]. intros op st E. rewrite E in Ht'. destruct Ht' as (?&?&?).
      exists p, h'. rewrite lookup_insert_eq. split_and!; congruence.
    + destruct (Hrest t Ht). eapply thread_ok_insert; eauto.
  - simpl. destruct Hoid as [->|[-> _]]; [|done]. apply NoDup_cons. split; [|done].
    intros (t&Ht&E)%list_elem_of_omap. by destruct (Hrest t Ht).
  - intros q g. rewrite lookup_insert_Some. intros [[<- <-]|[Hne Hq]] Htr.
    + simpl. destruct Hoid as [->|[_ ?]]; [|congruence]. rewrite Hid. left.
    + assert (h_id g ∈ omap owned_id rest) as Hin.
      { apply Hown; [eauto|]. intros Heq. apply Hne. by eapply Huniq. }
      simpl. destruct (owned_id t'); [by right|done].
Qed.

(** The thread [t], which owns the harness at [p], runs to [t']. *)
Lemma heap_inv_run o M next H t rest p h h' t' :
  heap_inv o M next H (t :: rest) → M !! p = Some h →
  owned_id t = Some (h_id h) →
  h_id h' = h_id h → h_loader h' = h_loader h → harness_good o h' →
  (serving (h_state h) = true → serving (h_state h') = true ∨
     ∀ k x, (k, x) ∈ H → x.1 ≠ h_id h) →
  locals_ok (max_tries o) t' →
  match owned t' with
  | Some (op, st) => lur_id (thread_request t') = h_id h ∧ h_state h' = st ∧
                     (op = None ∨ op = Some p)
  | None => transient (h_state h') = false
  end →
  heap_inv o (<[p:=h']> M) next H (t' :: rest).
Proof.
  intros Hinv Hp Ht. pose proof (hi_disjoint _ _ _ _ _ Hinv) as Hnd. simpl in Hnd.
  rewrite Ht in Hnd. apply NoDup_cons in Hnd as [Hnin Hnd].
  eapply heap_inv_update; eauto.
  - intros u Hu. split; [by right|]. intros E. apply Hnin. apply list_elem_of_omap. eauto.
  - simpl. rewrite Ht. intros i [->|?]%elem_of_cons; done.
Qed.

(** A thread that owns nothing changes, and so may the serving map. *)
Lemma heap_inv_thread o M next H H' t rest ts' :
  heap_inv o M next H (t :: rest) → (∀ k x, (k, x) ∈ H' → served M x) →
  (∀ t', t' ∈ ts' → thread_ok o M t') → omap owned_id ts' = omap owned_id [t] →
  heap_inv o M next H' (ts' ++ rest).
Proof.
  intros [] Hs Hts Ho. split; try done.
  - intros u [?|?]%elem_of_app; [auto|]. apply hi_threads0. by right.
  - rewrite omap_app, Ho. by rewrite <-omap_app.
  - intros p h Hp Htr. rewrite omap_app, Ho, <-omap_app. eauto.
Qed.

Lemma served_update M : unique_ids M → ∀ k x, (k, x) ∈ ServingMap_Update M → served M x.
Proof.
  intros Hu k x [Hx _]%elem_of_serving_map; [|done].
  apply elem_of_ready_handles in Hx as (p&h&?&Hs&->). exists p, h. by rewrite Hs.
Qed.
End invariant.

(** * Operations of the manager *)

Section operations.
Context {A : Type}.
Implicit Types (m : BasicManager A) (h : LoaderHarness A).

Lemma core_publish st m : core (PublishOnEventBus st m) = core m.
Proof. unfold PublishOnEventBus. by case_match. Qed.

Lemma core_pre_load_hook i m : core (call_pre_load_hook i m) = core m.
Proof. unfold call_pre_load_hook. by case_match. Qed.

Lemma core_error_callbacks cs m : core (foldl (λ m c, error_callback c m) m cs) = core m.
Proof.
  revert m. induction cs as [|c cs IH]; intros m; simpl; [done|]. rewrite IH.
  destruct c; simpl; try done. apply core_publish.
Qed.

Lemma core_managed_map m m' M :
  core m = core m' → core (set_managed_map M m) = core (set_managed_map M m').
Proof. unfold core; simpl. congruence. Qed.

Lemma call_harness_spec p f m h :
  bm_managed_map m !! p = Some h →
  ∃ m', call_harness p f m = ((f h).1, m') ∧
    core m' = core (set_managed_map (<[p:=(f h).2]> (bm_managed_map m)) m).
Proof.
  intros Hp. unfold call_harness. rewrite Hp. destruct (f h) as [st h'] eqn:E.
  eexists. split; [done|]. apply core_error_callbacks.
Qed.

Lemma FindHarnessInMap_Some i m p h :
  FindHarnessInMap i m = Some (p, h) → bm_managed_map m !! p = Some h ∧ h_id h = i.
Proof.
  unfold FindHarnessInMap. destruct (list_find _ _) as [[k [q g]]|] eqn:E; [|done].
  simpl. intros [= <- <-]. apply list_find_Some in E as (Hk&[Hn Hv]&_).
  split; [by apply elem_of_map_to_list, (list_elem_of_lookup_2 _ k)|].
  simpl in Hn, Hv. destruct (h_id g), i. simpl in Hn, Hv. by rewrite Hn, Hv.
Qed.

Lemma FindHarnessInMap_None i m p h :
  FindHarnessInMap i m = None → bm_managed_map m !! p = Some h → h_id h ≠ i.
Proof.
  unfold FindHarnessInMap. destruct (list_find _ _) as [[k [q g]]|] eqn:E; [done|].
  intros _ Hp <-. apply list_find_None in E. rewrite Forall_forall in E.
  by apply (E (p, h)); [apply elem_of_map_to_list|].
Qed.

(** [GetHealthyHarness] on a harness that is not in error. *)
Lemma GetHealthyHarness_found m p h :
  unique_ids (bm_managed_map m) → bm_managed_map m !! p = Some h → ok (h_status h) = true →
  GetHealthyHarness (h_id h) m = (StatusOK, Some p).
Proof.
  intros Hu Hp Hok. unfold GetHealthyHarness.
  destruct (FindHarnessInMap (h_id h) m) as [[q g]|] eqn:E.
  - apply FindHarnessInMap_Some in E as [Hq Hid].
    assert (q = p) as -> by (by eapply Hu). simplify_eq. by rewrite Hok.
  - by apply (FindHarnessInMap_None _ _ _ _ E) in Hp.
Qed.

Lemma GetHealthyHarness_inv i m p :
  GetHealthyHarness i m = (StatusOK, Some p) →
  ∃ h, bm_managed_map m !! p = Some h ∧ h_id h = i ∧ ok (h_status h) = true.
Proof.
  unfold GetHealthyHarness. destruct (FindHarnessInMap i m) as [[q g]|] eqn:E; [|done].
  destruct (ok (h_status g)) eqn:Hok; simpl; [|by intros [= ?]].
  intros [= ->]. apply FindHarnessInMap_Some in E as [? ?]. eauto.
Qed.

Lemma GetHealthyHarness_none i m st :
  GetHealthyHarness i m = (st, None) → st ≠ StatusOK.
Proof.
  unfold GetHealthyHarness. destruct (FindHarnessInMap i m) as [[q g]|].
  - destruct (ok (h_status g)) eqn:Hok; simpl; [done|]. intros [= <-]. by apply not_ok_iff.
  - by intros [= <-].
Qed.

Lemma GetHealthyHarness_cases i m :
  (∃ p h, GetHealthyHarness i m = (StatusOK, Some p) ∧ bm_managed_map m !! p = Some h ∧
     h_id h = i) ∨
  (∃ st, st ≠ StatusOK ∧ GetHealthyHarness i m = (st, None)).
Proof.
  destruct (GetHealthyHarness i m) as [st [p|]] eqn:E.
  - left. assert (st = StatusOK) as ->.
    { unfold GetHealthyHarness in E. destruct (FindHarnessInMap _ _) as [[? g]|]; [|done].
      destruct (ok (h_status g)); simpl in E; congruence. }
    destruct (GetHealthyHarness_inv _ _ _ E) as (h&?&?&_). eauto.
  - right. exists st. split; [|done]. by apply (GetHealthyHarness_none i m).
Qed.

(** ** Harness transitions *)

Lemma good_set_state o st h :
  harness_good o h → h_state h ≠ State.kError → st ≠ State.kError →
  (∀ p, phase_of_state (h_state h) p → phase_of_state st p) → harness_good o (set_state st h).
Proof. intros [Hi Ho He] ???. split; [by apply set_state_inv|done|done]. Qed.

Lemma good_status_ok o h : harness_good o h → h_state h ≠ State.kError → ok (h_status h) = true.
Proof.
  intros [[Hi _] _ _] Hne. apply not_false_iff_true. by rewrite <-Hi.
Qed.

Lemma ErrorInternal_fields e h :
  h_id (ErrorInternal e h) = h_id h ∧ h_loader (ErrorInternal e h) = h_loader h ∧
  h_options (ErrorInternal e h) = h_options h.
Proof. unfold ErrorInternal. by case_match. Qed.

Lemma good_error_before_load o e h :
  harness_good o h → ok e = false → loader_phase (h_trace h) = Some LNotLoaded →
  harness_good o (ErrorInternal e h).
Proof.
  intros [Hi Ho _] He Hp. split.
  - by apply ErrorInternal_inv.
  - by rewrite (proj2 (proj2 (ErrorInternal_fields e h))).
  - intros _. by rewrite ErrorInternal_phase.
Qed.

Lemma good_phase o h p :
  harness_good o h → (∀ q, phase_of_state (h_state h) q → q = p) →
  loader_phase (h_trace h) = Some p.
Proof. intros [[_ (q&Hq&Hph)] _ _] Hf. by rewrite Hq, (Hf q). Qed.

(** A transition whose source is the current state. *)
Lemma TransitionState_ok from to h :
  h_state h = from → TransitionState from to h = (StatusOK, set_state to h).
Proof. intros <-. unfold TransitionState. by rewrite decide_True. Qed.

Lemma transition_ret from to h :
  h_state h = from →
  (TransitionState from to ;;? sm_ret StatusOK) h = (StatusOK, set_state to h).
Proof. intros E. by rewrite (sm_bind_ok _ _ _ _ (TransitionState_ok from to h E)). Qed.

(** A failed try of the load. *)
Lemma good_failed_try o r h :
  harness_good o h → h_state h = State.kLoading → ok r = false →
  harness_good o (add_call (CallLoad r) h).
Proof.
  intros Hg Hs Hr. assert (loader_phase (h_trace h) = Some LNotLoaded) as Hp.
  { apply (good_phase o); [done|]. by rewrite Hs. }
  destruct Hg as [[Herr _] Ho He]. split; simpl.
  - split; simpl; [done|]. exists LNotLoaded. by rewrite loader_phase_snoc, Hp, Hs; simpl; rewrite Hr.
  - done.
  - by rewrite Hs.
Qed.

(** The last try of the load. *)
Lemma load_last_try o r h :
  harness_good o h → h_state h = State.kLoading →
  ∃ h', Load_end r (add_call (CallLoad r) h) = (r, h') ∧ harness_good o h' ∧
    h_id h' = h_id h ∧ h_loader h' = h_loader h ∧
    h_state h' = if ok r then State.kReady else State.kError.
Proof.
  intros Hg Hs. unfold Load_end. destruct (ok r) eqn:Hr.
  - apply ok_iff in Hr as ->. rewrite transition_ret by done.
    eexists. split_and!; try done. destruct Hg as [Hi Ho He].
    pose proof (Load_tail_inv [] StatusOK h Hs (Forall_nil_2 _) Hi) as Hinv.
    simpl in Hinv. unfold Load_end in Hinv; simpl in Hinv.
    rewrite transition_ret in Hinv by done. split; [exact Hinv|done|done].
  - eexists. split; [done|].
    pose proof (ErrorInternal_fields r (add_call (CallLoad r) h)) as (?&?&?).
    split_and!; try done; [|by rewrite ErrorInternal_state].
    pose proof (good_failed_try o r h Hg Hs Hr) as Hg'.
    apply good_error_before_load; [done|done|].
    apply (good_phase o); [done|]. simpl. by rewrite Hs.
Qed.

(** The call of the loader's [Unload]. *)
Lemma good_unloaded o h :
  harness_good o h → h_state h = State.kUnloading →
  harness_good o (set_state State.kDisabled (add_call CallUnload h)).
Proof.
  intros Hg Hs. assert (loader_phase (h_trace h) = Some LLoaded) as Hp.
  { apply (good_phase o); [done|]. by rewrite Hs. }
  destruct Hg as [[Herr _] Ho _]. split; simpl; [|done|done]. split; simpl.
  - rewrite <-Herr, Hs. done.
  - exists LUnloaded. by rewrite loader_phase_snoc, Hp.
Qed.
End operations.

(** * The decision phase *)

Section decision.
Context {A : Type} (rc : option nat → Estimate) (rs : nat → Estimate).
Implicit Types (m : BasicManager A) (h : LoaderHarness A).

(** A reservation changes the tracker only, and waits only for executions. *)
Lemma ReserveResources_cases h t m res m' :
  ReserveResources rc rs h t m = (res, m') →
  core m' = core m ∧
  (res = ReserveWaits → bm_num_ongoing_load_unload_executions m ≠ 0%Z).
Proof.
  unfold ReserveResources. destruct (Retry _ _ _) as [st n].
  destruct (Tracker_ReserveResources _ _) as [[? reserved] t'].
  destruct (ok st); simpl; [|by intros [= <- <-]].
  destruct (default false reserved); [by intros [= <- <-]|].
  destruct (Z.eqb_spec (bm_num_ongoing_load_unload_executions m) 0); by intros [= <- <-].
Qed.

Lemma ApproveLoad_cases p h m :
  bm_managed_map m !! p = Some h → h_state h = State.kLoadRequested →
  ∃ res m', ApproveLoad rc rs p m = (res, m') ∧
    (res = None ∧ core m' = core m ∧ bm_num_ongoing_load_unload_executions m ≠ 0%Z ∨
     res = Some StatusOK ∧
       core m' = core (set_managed_map
         (<[p:=set_state State.kLoadApproved h]> (bm_managed_map m)) m) ∨
     ∃ e, ok e = false ∧ res = Some e ∧
       core m' = core (set_managed_map (<[p:=ErrorInternal e h]> (bm_managed_map m)) m)).
Proof.
  intros Hp Hs. unfold ApproveLoad. rewrite Hp.
  set (reservation := match bm_resource_tracker m with
    | None => _ | Some t => _ end).
  assert (core reservation.2 = core m ∧ (reservation.1 = ReserveWaits →
    bm_num_ongoing_load_unload_executions m ≠ 0%Z)) as [Hcore Hwait].
  { unfold reservation. destruct (bm_resource_tracker m) as [t|]; [|done].
    destruct (ReserveResources _ _ _ _ _) as [res m'] eqn:E.
    by apply ReserveResources_cases in E. }
  destruct reservation as [[status|] m1]; simpl in *; [|by eauto 10].
  assert (bm_managed_map m1 = bm_managed_map m) as Hm by (unfold core in Hcore; congruence).
  assert (bm_managed_map m1 !! p = Some h) as Hp1 by congruence.
  destruct (ok status) eqn:Hok; simpl.
  - destruct (call_harness_spec p LoadApproved m1 h Hp1) as (m2&E&Hc2).
    unfold LoadApproved in E, Hc2 |- *. rewrite transition_ret in E, Hc2 by done. simpl in E, Hc2.
    rewrite (sm_bind_ok _ _ _ _ E). do 2 eexists. split; [done|]. right. left. split; [done|].
    rewrite Hc2, Hm. by apply core_managed_map.
  - destruct (call_harness_spec p (λ h, (StatusOK, Error status h)) m1 h Hp1) as (m2&E&Hc2).
    rewrite E. do 2 eexists. split; [done|]. right. right. exists status. split_and!; try done.
    rewrite core_publish. simpl. simpl in Hc2. rewrite Hc2, Hm. by apply core_managed_map.
Qed.

(** The harness of a request that has been accepted. *)
Definition requested_state (r : LoadOrUnloadRequest) : State.t :=
  match lur_kind r with
  | kLoadRequest => State.kLoadRequested | kUnloadRequest => State.kUnloadRequested end.

Definition approved_state (r : LoadOrUnloadRequest) : State.t :=
  match lur_kind r with
  | kLoadRequest => State.kLoadApproved | kUnloadRequest => State.kQuiescing end.

Lemma ApproveRequest_cases r p h m :
  bm_managed_map m !! p = Some h → h_state h = requested_state r →
  ∃ res m', ApproveRequest rc rs r p m = (res, m') ∧
    (res = None ∧ lur_kind r = kLoadRequest ∧ core m' = core m ∧
       bm_num_ongoing_load_unload_executions m ≠ 0%Z ∨
     res = Some StatusOK ∧
       core m' = core (set_num_ongoing (bm_num_ongoing_load_unload_executions m + 1)
         (set_managed_map (<[p:=set_state (approved_state r) h]> (bm_managed_map m)) m)) ∨
     ∃ e, ok e = false ∧ lur_kind r = kLoadRequest ∧ res = Some e ∧
       core m' = core (set_managed_map (<[p:=ErrorInternal e h]> (bm_managed_map m)) m)).
Proof.
  intros Hp Hs. unfold ApproveRequest, requested_state, approved_state in *.
  destruct (lur_kind r).
  - destruct (ApproveLoad_cases p h m Hp Hs) as (res&m'&->&Hcases).
    destruct Hcases as [(->&?&?)|[[-> Hc]|(e&He&->&?)]]; simpl.
    + eauto 10.
    + do 2 eexists. split; [done|]. right. left. split; [done|]. unfold core in *; simpl in *.
      congruence.
    + destruct e; [done|]. eauto 12.
  - destruct (call_harness_spec p StartQuiescing m h Hp) as (m'&E&Hc).
    unfold ApproveUnload, StartQuiescing in *. rewrite transition_ret in E, Hc by done.
    simpl in E, Hc. rewrite (sm_bind_ok _ _ _ _ E). do 2 eexists. split; [done|].
    right. left. split; [done|]. unfold core in *; simpl in *. congruence.
Qed.
End decision.

(** * Preservation *)

Ltac sys_cbn :=
  cbn [sys_manager sys_threads sys_deciding finish_execution set_num_ongoing
       set_handles_map set_managed_map add_manager_call bm_harness_options bm_managed_map
       bm_next_address bm_handles_map bm_num_ongoing_load_unload_executions
       bm_use_after_free] in *.

Section preservation.
Context {A : Type}.
Implicit Types (m : BasicManager A) (h : LoaderHarness A).

Lemma count_cons (P : Thread → bool) t ts :
  length (filter (λ t, P t = true) (t :: ts)) =
  (if P t then 1 else 0) + length (filter (λ t, P t = true) ts).
Proof. rewrite filter_cons. by destruct (P t). Qed.

Lemma counts_same n d t t' rest :
  executing t' = executing t → in_decision t' = in_decision t → asleep t' = false →
  counts_inv n d (t :: rest) → counts_inv n d (t' :: rest).
Proof.
  intros He Hd Ha [Hn Hdec Hsl]. rewrite count_cons, <-He in Hn.
  rewrite count_cons, <-Hd in Hdec. split.
  - by rewrite count_cons.
  - by rewrite count_cons.
  - intros u [->|Hu]%elem_of_cons; [congruence|]. apply Hsl. by right.
Qed.

(** The counts of the threads other than the one that decides. *)
Lemma counts_deciding n d t rest :
  executing t = false → (d = false ∨ in_decision t = true) → counts_inv n d (t :: rest) →
  n = Z.of_nat (length (filter (λ t, executing t = true) rest)) ∧
  length (filter (λ t, in_decision t = true) rest) = 0 ∧
  ∀ u, u ∈ rest → asleep u = false.
Proof.
  intros He Hd [Hn Hdec _]. rewrite count_cons, He in Hn. rewrite count_cons in Hdec.
  assert (length (filter (λ t, in_decision t = true) rest) = 0) as H0.
  { destruct (in_decision t), d, Hd as [|]; simpl in *; try done; lia. }
  split_and!; [done|done|]. intros u Hu. apply not_true_iff_false. intros Hsl.
  apply nil_length_inv in H0. apply (filter_nil_not_elem_of _ _ u H0); [|done]. by destruct u.
Qed.

Lemma thread_ok_plain o (M : gmap nat (LoaderHarness A)) t :
  owned t = None → locals_ok (max_tries o) t → thread_ok o M t.
Proof. intros Ho Hl. split; [done|]. by rewrite Ho. Qed.

Lemma after_decision_inv rc rs r p h t rest m d :
  sys_inv (mkSys m d (t :: rest)) → thread_request t = r → owned_id t = Some (h_id h) →
  executing t = false → (d = false ∨ in_decision t = true) →
  bm_managed_map m !! p = Some h → h_id h = lur_id r → h_state h = requested_state r →
  sys_inv (after_decision r p rest (ApproveRequest rc rs r p m)).
Proof.
  intros (Hheap&Hcounts&Huaf) Hr Hoid Hex Hdec Hp Hid Hs.
  destruct (counts_deciding _ _ _ _ Hex Hdec Hcounts) as (Hn&Hd&Hsl). simpl in *.
  pose proof (hi_good _ _ _ _ _ Hheap p h Hp) as Hg.
  destruct (ApproveRequest_cases rc rs r p h m Hp Hs) as (res&m'&->&Hcases). simpl.
  destruct Hcases as [(->&Hk&Hc&Hn0)|[[-> Hc]|(e&He&Hk&->&Hc)]].
  - eapply (sys_inv_core m); [done|]. split_and!; simpl; [| |done].
    + apply (heap_inv_thread _ _ _ (bm_handles_map m) _ t rest [TAsleep r p]); [done| | |].
      * apply (hi_served _ _ _ _ _ Hheap).
      * intros u ->%list_elem_of_singleton. split; [done|]. intros op st [= <- <-].
        exists p, h. unfold requested_state in Hs. rewrite Hk in Hs. auto.
      * simpl. rewrite Hoid. unfold owned_id; simpl. congruence.
    + split; [by rewrite count_cons|by rewrite count_cons; simpl; rewrite Hd|].
      intros u _ _. lia.
  - eapply sys_inv_core; [symmetry; exact Hc|]. split_and!; simpl; [| |done].
    + eapply heap_inv_run; try done.
      * apply good_set_state; [done|..]; rewrite ?Hs; unfold requested_state, approved_state;
          by destruct (lur_kind r).
      * rewrite Hs. unfold requested_state, approved_state.
        destruct (lur_kind r); simpl; auto.
      * by destruct (lur_kind r) eqn:E; simpl; rewrite E.
      * unfold approved_state. destruct (lur_kind r); simpl; auto.
    + split.
      * rewrite count_cons. destruct (lur_kind r); simpl; rewrite Hn; lia.
      * rewrite count_cons. by destruct (lur_kind r).
      * intros u [->|Hu]%elem_of_cons Ha; [by destruct (lur_kind r)|].
        by rewrite (Hsl u Hu) in Ha.
  - destruct e as [|c msg]; [done|]. eapply sys_inv_core; [symmetry; exact Hc|].
    pose proof (ErrorInternal_fields (StatusError c msg) h) as (?&?&?).
    unfold requested_state in Hs. rewrite Hk in Hs.
    split_and!; simpl; [| |done].
    + eapply heap_inv_run; try done.
      * apply good_error_before_load; [done..|]. apply (good_phase _ _ _ Hg). by rewrite Hs.
      * by rewrite Hs.
      * simpl. by rewrite Hk.
      * simpl. by rewrite ErrorInternal_state.
    + split; [by rewrite count_cons|by rewrite count_cons|].
      intros u [->|Hu]%elem_of_cons Ha; [done|]. by rewrite (Hsl u Hu) in Ha.
Qed.

(** A step of the execution phase that only changes the harness it owns. *)
Lemma execution_inv m m1 d t t' rest p h h' :
  sys_inv (mkSys m d (t :: rest)) → bm_managed_map m !! p = Some h →
  core m1 = core (set_managed_map (<[p:=h']> (bm_managed_map m)) m) →
  owned_id t = Some (h_id h) → lur_id (thread_request t') = h_id h →
  executing t = true → executing t' = true →
  h_id h' = h_id h → h_loader h' = h_loader h → harness_good (bm_harness_options m) h' →
  (serving (h_state h) = true → serving (h_state h') = true ∨
     ∀ k x, (k, x) ∈ bm_handles_map m → x.1 ≠ h_id h) →
  locals_ok (max_tries (bm_harness_options m)) t' →
  match owned t' with
  | Some (op, st) => h_state h' = st ∧ (op = None ∨ op = Some p)
  | None => transient (h_state h') = false
  end →
  sys_inv (mkSys m1 d (t' :: rest)).
Proof.
  intros (Hheap&Hcounts&Huaf) Hp Hc Ho Hr He He' Hid Hl Hg Hserv Hloc Hown.
  eapply sys_inv_core; [symmetry; exact Hc|]. split_and!; simpl in *; [| |done].
  - eapply heap_inv_run; try done. by destruct (owned t') as [[op st]|].
  - eapply counts_same; [| | |exact Hcounts]; destruct t, t'; try done.
Qed.

Lemma wake_owned_id t : owned_id (wake t) = owned_id t.
Proof. by destruct t. Qed.

Lemma owned_ids_wake (ts : list Thread) : omap owned_id (wake <$> ts) = omap owned_id ts.
Proof.
  induction ts as [|t ts IH]; [done|].
  change (match owned_id (wake t) with
          | Some i => i :: omap owned_id (wake <$> ts) | None => omap owned_id (wake <$> ts) end =
          match owned_id t with
          | Some i => i :: omap owned_id ts | None => omap owned_id ts end).
  by rewrite wake_owned_id, IH.
Qed.

Lemma thread_ok_wake o (M : gmap nat (LoaderHarness A)) t :
  thread_ok o M t → thread_ok o M (wake t).
Proof. by destruct t. Qed.

Lemma filter_wake (P : Thread → bool) (ts : list Thread) :
  (∀ t, P (wake t) = P t) →
  length (filter (λ t, P t = true) (wake <$> ts)) = length (filter (λ t, P t = true) ts).
Proof.
  intros HP. induction ts as [|t ts IH]; [done|]. rewrite fmap_cons. by rewrite !count_cons, HP, IH.
Qed.

Lemma finish_inv m d r status rest :
  sys_inv (mkSys m d (TFinish r status :: rest)) →
  sys_inv (mkSys (finish_execution m) d (TDone r status :: (wake <$> rest))).
Proof.
  intros ([Hnext Huniq Hgood Hserved Hthreads Hdisj Howned]&[Hn Hd Hsl]&Huaf).
  unfold sys_inv; sys_cbn. split_and!; [| |done].
  - split; try done.
    + intros t [->|(u&->&Hu)%list_elem_of_fmap]%elem_of_cons.
      * apply thread_ok_plain; [done|]. apply (Hthreads (TFinish r status)). left.
      * apply thread_ok_wake, Hthreads. by right.
    + simpl. rewrite owned_ids_wake. done.
    + simpl. rewrite owned_ids_wake. done.
  - rewrite count_cons in Hn, Hd. cbn [executing in_decision] in Hn, Hd. split.
    + rewrite count_cons. rewrite (filter_wake executing) by (by intros []). cbn. lia.
    + rewrite count_cons. by rewrite (filter_wake in_decision) by (by intros []).
    + intros t [->|(u&->&Hu)%list_elem_of_fmap]%elem_of_cons; [done|]. by destruct u.
Qed.

Lemma done_inv m d r status rest :
  sys_inv (mkSys m d (TDone r status :: rest)) →
  sys_inv (mkSys (add_manager_call (Done r status) m) d rest).
Proof.
  intros (Hheap&[Hn Hd Hsl]&Huaf). unfold sys_inv; sys_cbn; split_and!; [| |done].
  - by apply (heap_inv_thread _ _ _ _ (bm_handles_map m) _ _ [] Hheap);
      [apply (hi_served _ _ _ _ _ Hheap)|intros ? ?%not_elem_of_nil|].
  - split; [done|done|]. intros t Ht. apply Hsl. by right.
Qed.

(** A step that leaves the harnesses alone, and may update the serving map. *)
Lemma plain_inv m m1 d t t' rest :
  sys_inv (mkSys m d (t :: rest)) →
  core m1 = core (set_handles_map (bm_handles_map m1) m) →
  (bm_handles_map m1 = bm_handles_map m ∨
   bm_handles_map m1 = ServingMap_Update (bm_managed_map m)) →
  executing t = true → executing t' = true → owned t' = owned t →
  thread_request t' = thread_request t → locals_ok (max_tries (bm_harness_options m)) t' →
  sys_inv (mkSys m1 d (t' :: rest)).
Proof.
  intros (Hheap&Hcounts&Huaf) Hc Hh He He' Ho Hr Hl.
  eapply sys_inv_core; [symmetry; exact Hc|]. unfold sys_inv; sys_cbn; split_and!; [| |done].
  - apply (heap_inv_thread _ _ _ (bm_handles_map m) _ t rest [t']); [done|..].
    + destruct Hh as [->| ->]; [apply (hi_served _ _ _ _ _ Hheap)|].
      apply served_update, (hi_unique _ _ _ _ _ Hheap).
    + intros u ->%list_elem_of_singleton. split; [done|]. rewrite Ho, Hr.
      apply (hi_threads _ _ _ _ _ Hheap). left.
    + simpl. unfold owned_id. by rewrite Ho, Hr.
  - eapply counts_same; [| | |exact Hcounts]; destruct t, t'; try done.
Qed.
End preservation.

Section steps.
Context {A : Type}.
Implicit Types (m : BasicManager A) (h : LoaderHarness A).

(** The harness a thread owns. *)
Lemma owned_harness m d t rest op st :
  sys_inv (mkSys m d (t :: rest)) → owned t = Some (op, st) →
  ∃ p h, bm_managed_map m !! p = Some h ∧ h_id h = lur_id (thread_request t) ∧
    h_state h = st ∧ (op = None ∨ op = Some p) ∧ owned_id t = Some (h_id h) ∧
    harness_good (bm_harness_options m) h ∧ locals_ok (max_tries (bm_harness_options m)) t.
Proof.
  intros (Hheap&_&_) Ho. simpl in Hheap.
  destruct (hi_threads _ _ _ _ _ Hheap t) as [Hl Ht]; [left|].
  destruct (Ht op st Ho) as (p&h&?&Hid&?&?). exists p, h. split_and!; try done.
  - rewrite owned_id_Some. eauto.
  - by apply (hi_good _ _ _ _ _ Hheap p).
Qed.

Lemma thread_locals m d t rest :
  sys_inv (mkSys m d (t :: rest)) → locals_ok (max_tries (bm_harness_options m)) t.
Proof. intros (Hheap&_&_). apply (hi_threads _ _ _ _ _ Hheap t). left. Qed.

Lemma publish_harness_core st p h m :
  bm_managed_map m !! p = Some h → core (publish_harness st p m) = core m.
Proof. intros Hp. unfold publish_harness. rewrite Hp. apply core_publish. Qed.

Lemma handles_of_core m m' :
  core m = core m' → bm_handles_map m = bm_handles_map m'.
Proof. unfold core. congruence. Qed.

Lemma managed_of_core m m' : core m = core m' → bm_managed_map m = bm_managed_map m'.
Proof. unfold core. congruence. Qed.

Lemma core_set_handles m m' :
  core m = core m' → core m = core (set_handles_map (bm_handles_map m) m').
Proof. unfold core; simpl. congruence. Qed.

(** The first critical section of [ExecuteUnload]. *)
Lemma ExecuteUnload_begin_spec p h m :
  bm_managed_map m !! p = Some h → h_state h = State.kQuiescing →
  ∃ m', ExecuteUnload_begin p m = (StatusOK, m') ∧
    core m' = core (set_managed_map (<[p:=set_state State.kQuiesced h]> (bm_managed_map m))
                     (UpdateServingMap m)).
Proof.
  intros Hp Hs. pose proof (publish_harness_core kUnloading p h m Hp) as Hc.
  unfold ExecuteUnload_begin, do_, sm_bind at 1 2; simpl.
  set (m1 := UpdateServingMap (publish_harness kUnloading p m)).
  assert (core m1 = core (UpdateServingMap m)) as Hc1.
  { unfold core, UpdateServingMap in *; simpl in *. congruence. }
  assert (bm_managed_map m1 = bm_managed_map m) as Hm by (by apply managed_of_core in Hc1).
  clearbody m1.
  destruct (call_harness_spec p DoneQuiescing m1 h) as (m'&E&Hc2); [by rewrite Hm|].
  unfold DoneQuiescing in E, Hc2. rewrite transition_ret in E, Hc2 by done. simpl in E, Hc2.
  rewrite (sm_bind_ok _ _ _ _ E). eexists. split; [done|].
  rewrite Hc2, Hm. by apply core_managed_map.
Qed.

Lemma unload_start_inv m d r p h rest :
  sys_inv (mkSys m d (TUnloadStart r p :: rest)) →
  bm_managed_map m !! p = Some h → h_id h = lur_id r → h_state h = State.kQuiescing →
  harness_good (bm_harness_options m) h → lur_kind r = kUnloadRequest →
  ∃ m', ExecuteUnload_begin p m = (StatusOK, m') ∧ sys_inv (mkSys m' d (TUnloadBegin r p :: rest)).
Proof.
  intros Hinv Hp Hid Hs Hg Hk. destruct (ExecuteUnload_begin_spec p h m Hp Hs) as (m'&E&Hc).
  exists m'. split; [done|].
  assert (sys_inv (mkSys (UpdateServingMap m) d (TUnloadStart r p :: rest))) as Hinv1.
  { by apply (plain_inv m _ d (TUnloadStart r p)); auto. }
  eapply (execution_inv (UpdateServingMap m)); [exact Hinv1|exact Hp|exact Hc|..]; try done.
  - unfold owned_id; simpl. by rewrite Hid.
  - apply good_set_state; rewrite ?Hs; done.
  - intros _. right. destruct Hinv as (Hheap&_&_). simpl in Hheap.
    pose proof (hi_unique _ _ _ _ _ Hheap) as Hu.
    intros k x [Hx _]%elem_of_serving_map Heq; [|done].
    apply elem_of_ready_handles in Hx as (q&g&Hq&Hgs&->). simpl in Heq.
    assert (q = p) as -> by (by eapply Hu). congruence.
  - simpl. auto.
Qed.

Lemma load_try_inv m d r p tries h rest a s' :
  sys_inv (mkSys m d (TLoading r p tries :: rest)) →
  bm_managed_map m !! p = Some h → h_id h = lur_id r → h_state h = State.kLoading →
  harness_good (bm_harness_options m) h →
  run_thread a (TLoading r p tries) d rest m = Some s' → sys_inv s'.
Proof.
  intros Hinv Hp Hid Hs Hg Hrun.
  pose proof (thread_locals _ _ _ _ Hinv) as [Hk Htries]. simpl in Hrun. rewrite Hp in Hrun.
  unfold load_try in Hrun.
  destruct (retry_again _ _ _ _) eqn:Hretry.
  - destruct (call_harness_spec p (λ h, (StatusOK, add_call (CallLoad (a_load a)) h)) m h Hp)
      as (m'&E&Hc). rewrite E in Hrun. simpl in Hrun, Hc. injection Hrun as <-.
    assert (ok (a_load a) = false) as Hr by (unfold retry_again in Hretry; by bool_hyps).
    eapply execution_inv; [exact Hinv|exact Hp|exact Hc|..]; try done; simpl.
    + unfold owned_id; simpl. by rewrite Hid.
    + by apply good_failed_try.
    + by rewrite Hs.
    + split; [done|]. right. apply retry_again_bound in Hretry.
      * rewrite (good_options _ _ Hg) in Hretry. exact Hretry.
      * pose proof (u32_range (max_num_load_retries (bm_harness_options m) + 1)) as Hb.
        unfold is_u32 in Hb. destruct Htries as [->|Ht]; [lia|]. unfold max_tries in Ht. lia.
    + auto.
  - destruct (load_last_try _ (a_load a) h Hg Hs) as (h'&Hend&Hg'&Hid'&Hl'&Hs').
    destruct (call_harness_spec p (λ h, Load_end (a_load a) (add_call (CallLoad (a_load a)) h))
      m h Hp) as (m'&E&Hc). rewrite E in Hrun. rewrite Hend in Hrun, Hc.
    simpl in Hrun, Hc. injection Hrun as <-.
    destruct (ok (a_load a)) eqn:Hr.
    + eapply execution_inv; [exact Hinv|exact Hp|exact Hc|..]; try done; simpl.
      * unfold owned_id; simpl. by rewrite Hid.
      * by rewrite Hs.
      * by rewrite Hs'.
    + eapply execution_inv; [exact Hinv|exact Hp|exact Hc|..]; try done; simpl.
      * unfold owned_id; simpl. by rewrite Hid.
      * by rewrite Hs.
      * by rewrite Hk.
      * by rewrite Hs'.
Qed.

(** A thread that takes one harness transition. *)
Lemma transition_inv m d t t' rest p h f to :
  sys_inv (mkSys m d (t :: rest)) → bm_managed_map m !! p = Some h →
  owned_id t = Some (h_id h) → thread_request t' = thread_request t →
  executing t = true → executing t' = true → f h = (StatusOK, set_state to h) →
  harness_good (bm_harness_options m) (set_state to h) →
  serving (h_state h) = false → locals_ok (max_tries (bm_harness_options m)) t' →
  owned t' = Some (Some p, to) ∨ owned t' = None ∧ transient to = false →
  ∃ m', call_harness p f m = (StatusOK, m') ∧ sys_inv (mkSys m' d (t' :: rest)).
Proof.
  intros Hinv Hp Ho Hr He He' Hf Hg Hserv Hl Hown.
  destruct (call_harness_spec p f m h Hp) as (m'&E&Hc). rewrite Hf in E, Hc. simpl in *.
  exists m'. split; [done|].
  eapply execution_inv; [exact Hinv|exact Hp|exact Hc|..]; try done; simpl.
  - apply owned_id_Some in Ho as (?&?&_&->). congruence.
  - by rewrite Hserv.
  - destruct Hown as [->|[-> ?]]; auto.
Qed.
End steps.

Section reachability.
Context {A : Type}.
Implicit Types (m : BasicManager A) (h : LoaderHarness A) (s : Sys A).

Lemma run_queued_inv a r d rest m s' :
  sys_inv (mkSys m d (TQueued r :: rest)) → run_thread a (TQueued r) d rest m = Some s' →
  sys_inv s'.
Proof.
  intros Hinv Hrun. simpl in Hrun. destruct d; [done|].
  destruct (owned_harness _ _ _ _ _ _ Hinv eq_refl) as (p&h&Hp&Hid&Hs&_&Ho&Hg&_).
  pose proof Hinv as (Hheap&_&_). simpl in Hid. rewrite <-Hid in Hrun.
  rewrite (GetHealthyHarness_found m p h) in Hrun;
    [|apply (hi_unique _ _ _ _ _ Hheap)|done|].
  - injection Hrun as <-. by eapply after_decision_inv; eauto.
  - apply (good_status_ok _ _ Hg). rewrite Hs. by destruct (lur_kind r).
Qed.

Lemma run_thread_inv a t d rest m s' :
  sys_inv (mkSys m d (t :: rest)) → run_thread a t d rest m = Some s' → sys_inv s'.
Proof.
  intros Hinv Hrun.
  destruct (owned t) as [[op st]|] eqn:Eo.
  - destruct (owned_harness _ _ _ _ _ _ Hinv Eo) as (p'&h&Hp&Hid&Hs&Hptr&Ho&Hg&Hl).
    destruct t; simpl in Eo; try done; injection Eo as <- <-.
    { by eapply run_queued_inv. }
    all: destruct Hptr as [?|[= <-]]; [done|]; simpl in Hl, Hid.
    + injection Hrun as <-. assert (h_state h = requested_state r).
      { unfold requested_state. by rewrite Hl. }
      by eapply after_decision_inv; eauto.
    + injection Hrun as <-. eapply plain_inv; [exact Hinv|..]; try done.
      * apply core_set_handles. rewrite core_pre_load_hook. by eapply publish_harness_core.
      * left. apply handles_of_core. rewrite core_pre_load_hook. by eapply publish_harness_core.
    + destruct (transition_inv m d (TLoadBegin r p) (TLoading r p 0) rest p h Load_begin
        State.kLoading) as (m'&E&Hinv'); try done; [by apply TransitionState_ok|..].
      * apply good_set_state; rewrite ?Hs; done.
      * by rewrite Hs.
      * simpl. auto.
      * by left.
      * simpl in Hrun. rewrite E in Hrun. simpl in Hrun. by injection Hrun as <-.
    + by eapply load_try_inv.
    + destruct (unload_start_inv m d r p h rest) as (m'&E&Hinv'); try done.
      simpl in Hrun. rewrite E in Hrun. simpl in Hrun. by injection Hrun as <-.
    + destruct (transition_inv m d (TUnloadBegin r p) (TUnloading r p) rest p h Unload_begin
        State.kUnloading) as (m'&E&Hinv'); try done; [by apply TransitionState_ok|..].
      * apply good_set_state; rewrite ?Hs; done.
      * by rewrite Hs.
      * by left.
      * simpl in Hrun. rewrite E in Hrun. simpl in Hrun. by injection Hrun as <-.
    + destruct (call_harness_spec p (λ h, Unload_end (add_call CallUnload h)) m h Hp)
        as (m'&E&Hc). unfold Unload_end in E, Hc. rewrite transition_ret in E, Hc by done.
      simpl in Hrun. unfold Unload_end in Hrun. rewrite E in Hrun. simpl in Hrun, Hc.
      injection Hrun as <-.
      eapply execution_inv; [exact Hinv|exact Hp|exact Hc|..]; try done.
      * by apply good_unloaded.
      * by rewrite Hs.
  - pose proof (thread_locals _ _ _ _ Hinv) as Hl.
    destruct t; try done; injection Hrun as <-; simpl in Hl.
    + eapply plain_inv; [exact Hinv|..]; auto.
    + eapply plain_inv; [exact Hinv|..]; try done.
      * apply core_set_handles, core_publish.
      * left. apply handles_of_core, core_publish.
    + eapply plain_inv; [exact Hinv|..]; try done.
      * apply core_set_handles, core_publish.
      * left. apply handles_of_core, core_publish.
    + by apply finish_inv.
    + by apply done_inv.
Qed.

(** ** The public interface *)

(** No thread is handling a harness that is not in a transient state. *)
Lemma idle_not_owned o M next H ts p h t :
  heap_inv o M next H ts → M !! p = Some h → transient (h_state h) = false → t ∈ ts →
  owned_id t ≠ Some (@h_id A h).
Proof.
  intros Hheap Hp Htr Ht (op&st&Ho&Hid)%owned_id_Some.
  destruct (hi_threads _ _ _ _ _ Hheap t Ht) as [_ Hok].
  destruct (Hok op st Ho) as (q&g&Hq&Hgid&Hgs&_).
  assert (q = p) as -> by (eapply (hi_unique _ _ _ _ _ Hheap); [done..|congruence]).
  apply transient_owned_state in Ho. congruence.
Qed.

(** A request accepted for an idle harness starts a thread. *)
Lemma accept_inv m m1 d ts p h r st :
  sys_inv (mkSys m d ts) → bm_managed_map m !! p = Some h → h_id h = lur_id r →
  (lur_kind r = kLoadRequest ∧ h_state h = State.kNew ∧ st = State.kLoadRequested ∨
   lur_kind r = kUnloadRequest ∧ h_state h = State.kReady ∧ st = State.kUnloadRequested) →
  core m1 = core (set_managed_map (<[p:=set_state st h]> (bm_managed_map m)) m) →
  sys_inv (mkSys m1 d (TQueued r :: ts)).
Proof.
  intros (Hheap&[Hn Hd Hsl]&Huaf) Hp Hid Hcase Hc. eapply sys_inv_core; [symmetry; exact Hc|].
  unfold sys_inv; sys_cbn; split_and!; [| |done].
  - pose proof (hi_good _ _ _ _ _ Hheap p h Hp) as Hg.
    eapply (heap_inv_update _ _ _ _ ts ts p h); try done.
    + intros t Ht. split; [done|]. eapply idle_not_owned; [done..| |done].
      by destruct Hcase as [(_&->&_)|(_&->&_)].
    + apply (hi_disjoint _ _ _ _ _ Hheap).
    + apply good_set_state; [done|..]; destruct Hcase as [(_&E&->)|(_&E&->)];
        rewrite ?E; done.
    + destruct Hcase as [(_&->&->)|(_&->&->)]; simpl; auto.
    + simpl. destruct Hcase as [(->&_&->)|(->&_&->)]; auto.
  - split; [by rewrite count_cons|by rewrite count_cons|].
    intros t [->|Ht]%elem_of_cons; [done|]. by apply Hsl.
Qed.

Lemma request_cases r m :
  (∃ p h st, bm_managed_map m !! p = Some h ∧ h_id h = lur_id r ∧
    (lur_kind r = kLoadRequest ∧ h_state h = State.kNew ∧ st = State.kLoadRequested ∨
     lur_kind r = kUnloadRequest ∧ h_state h = State.kReady ∧ st = State.kUnloadRequested) ∧
    ∃ m', LoadOrUnloadServable r m = (Some r, m') ∧
      core m' = core (set_managed_map (<[p:=set_state st h]> (bm_managed_map m)) m)) ∨
  (∃ e m', ok e = false ∧ core m' = core m ∧
    LoadOrUnloadServable r m = (None, add_manager_call (Done r e) m')).
Proof.
  unfold LoadOrUnloadServable, RequestLoadOrUnload.
  destruct (GetHealthyHarness_cases (lur_id r) m) as [(p&h&->&Hp&Hid)|(st&Hst&->)].
  2: { right. exists st, m. apply not_ok_iff in Hst. destruct st; [done|]. by split_and!. }
  destruct (lur_kind r) eqn:Hk.
  - destruct (call_harness_spec p LoadRequested m h Hp) as (m'&E&Hc).
    unfold sm_bind. rewrite E. unfold LoadRequested in Hc |- *.
    case_decide as Hs; cbn [fst snd ok negb] in *.
    + left. exists p, h, State.kLoadRequested. simpl. eauto 10.
    + right. do 2 eexists. split_and!; [|rewrite Hc|reflexivity]; [done|].
      unfold core; simpl. by rewrite insert_id.
  - destruct (call_harness_spec p UnloadRequested m h Hp) as (m'&E&Hc).
    unfold sm_bind. rewrite E. unfold UnloadRequested in Hc |- *.
    case_decide as Hs; cbn [fst snd ok negb] in *.
    + left. exists p, h, State.kUnloadRequested. simpl. eauto 10.
    + right. do 2 eexists. split_and!; [|rewrite Hc|reflexivity]; [done|].
      unfold core; simpl. by rewrite insert_id.
Qed.

(** A new harness. *)
Lemma heap_inv_manage o M next H ts h :
  heap_inv o M next H ts → harness_good o h → transient (h_state h) = false →
  (∀ p g, M !! p = Some g → h_id g ≠ @h_id A h) → heap_inv o (<[next:=h]> M) (S next) H ts.
Proof.
  intros [Hnext Huniq Hgood Hserved Hthreads Hdisj Howned] Hg Htr Hfresh.
  assert (∀ p g, M !! p = Some g → <[next:=h]> M !! p = Some g) as Hkeep.
  { intros p g Hp. rewrite lookup_insert_ne; [done|]. intros <-. by rewrite Hnext in Hp. }
  split; try done.
  - intros p Hp. rewrite lookup_insert_ne by lia. apply Hnext. lia.
  - intros p q g g'. rewrite !lookup_insert_Some.
    intros [[<- <-]|[? Hp]] [[<- <-]|[? Hq]] Heq; try done.
    + by destruct (Hfresh q g').
    + by destruct (Hfresh p g).
    + by eapply Huniq.
  - intros p g. rewrite lookup_insert_Some. intros [[<- <-]|[_ ?]]; eauto.
  - intros k x Hx. destruct (Hserved k x Hx) as (p&g&?&?). exists p, g. auto.
  - intros t Ht. destruct (Hthreads t Ht) as [Hl Hok]. split; [done|].
    intros op st Ho. destruct (Hok op st Ho) as (p&g&?&?). exists p, g. auto.
  - intros p g. rewrite lookup_insert_Some. intros [[<- <-]|[_ ?]]; [congruence|eauto].
Qed.

(** A harness that is idle and not served is forgotten. *)
Lemma heap_inv_stop o M next H ts p h :
  heap_inv o M next H ts → M !! p = Some h → transient (h_state h) = false →
  serving (@h_state A h) = false → heap_inv o (delete p M) next H ts.
Proof.
  intros Hheap Hp Htr Hserv. pose proof (λ t, idle_not_owned _ _ _ _ _ p h t Hheap Hp Htr) as Hno.
  destruct Hheap as [Hnext Huniq Hgood Hserved Hthreads Hdisj Howned]. split; try done.
  - intros q Hq. rewrite lookup_delete_None. auto.
  - intros q r g g'. rewrite !lookup_delete_Some. intros [_ ?] [_ ?]. by apply Huniq.
  - intros q g. rewrite lookup_delete_Some. intros [_ ?]. eauto.
  - intros k x Hx. destruct (Hserved k x Hx) as (q&g&Hq&?&?&Hs). exists q, g.
    split_and!; try done. rewrite lookup_delete_ne; [done|]. intros <-. congruence.
  - intros t Ht. destruct (Hthreads t Ht) as [Hl Hok]. split; [done|].
    intros op st Ho. destruct (Hok op st Ho) as (q&g&Hq&Hid&?&?). exists q, g.
    split_and!; try done. rewrite lookup_delete_ne; [done|]. intros <-.
    apply (Hno t Ht), owned_id_Some. exists op, st. split; [done|]. congruence.
  - intros q g. rewrite lookup_delete_Some. intros [_ ?]. eauto.
Qed.

(** A harness changes only in what the invariant does not look at. *)
Lemma heap_inv_touch o M next H ts p h h' :
  heap_inv o M next H ts → M !! p = Some h → h_id h' = h_id h → h_loader h' = h_loader h →
  h_options h' = h_options h → h_state h' = h_state h → h_status h' = h_status h →
  h_trace h' = @h_trace A h → heap_inv o (<[p:=h']> M) next H ts.
Proof.
  intros [Hnext Huniq Hgood Hserved Hthreads Hdisj Howned] Hp Hid Hl Ho Hs Hst Htr.
  assert (∀ q g, M !! q = Some g → ∃ g', <[p:=h']> M !! q = Some g' ∧ h_id g' = h_id g ∧
    h_loader g' = h_loader g ∧ h_state g' = h_state g) as Hkeep.
  { intros q g Hq. destruct (decide (p = q)) as [<-|].
    - rewrite Hp in Hq. injection Hq as <-. exists h'. by rewrite lookup_insert_eq.
    - exists g. by rewrite lookup_insert_ne. }
  split; try done.
  - intros q Hq. rewrite lookup_insert_ne; [auto|]. intros <-. by rewrite Hnext in Hp.
  - by eapply unique_ids_insert.
  - intros q g. rewrite lookup_insert_Some. intros [[<- <-]|[_ ?]]; [|eauto].
    destruct (Hgood p h Hp) as [[Hi1 Hi2] Hgo Hge].
    split; [split|congruence|]; by rewrite ?Hs, ?Hst, ?Htr.
  - intros k x Hx. destruct (Hserved k x Hx) as (q&g&Hq&?&?&?).
    destruct (Hkeep q g Hq) as (g'&?&?&?&?). exists q, g'. split_and!; congruence.
  - intros t Ht. destruct (Hthreads t Ht) as [Hloc Hok]. split; [done|].
    intros op st Hop. destruct (Hok op st Hop) as (q&g&Hq&?&?&?).
    destruct (Hkeep q g Hq) as (g'&?&?&?&?). exists q, g'. split_and!; congruence.
  - intros q g. rewrite lookup_insert_Some. intros [[<- <-]|[_ ?]]; [|eauto].
    rewrite Hs, Hid. eauto.
Qed.

Lemma ManageServable_inv servable a m d ts :
  label_wf (LManage servable a) → sys_inv (mkSys m d ts) →
  sys_inv (mkSys (ManageServableInternal servable a m).2 d ts).
Proof.
  intros Hwf Hinv. unfold ManageServableInternal.
  destruct (FindHarnessInMap (sd_id servable) m) as [[p h]|] eqn:E; [done|].
  destruct Hinv as (Hheap&Hcounts&Huaf). simpl in Hheap, Hcounts, Huaf.
  set (h0 := newLoaderHarness _ _ _ _).
  assert (harness_good (bm_harness_options m) h0) as Hg0.
  { split; [|done|done]. split; [done|]. by exists LNotLoaded. }
  assert (∀ p g, bm_managed_map m !! p = Some g → h_id g ≠ sd_id servable) as Hfresh.
  { intros p g. by apply FindHarnessInMap_None. }
  assert (∀ h m1, harness_good (bm_harness_options m) h → h_id h = sd_id servable →
    transient (h_state h) = false → core m1 = core m →
    sys_inv (mkSys (emplace_harness h m1) d ts)) as Hgo.
  { intros h m1 Hg Hid Htr Hc. eapply (sys_inv_core (emplace_harness h m)).
    - unfold core, emplace_harness in *; simpl in *. congruence.
    - split_and!; [|done|done]. simpl.
      apply heap_inv_manage; [done..|]. rewrite Hid. apply Hfresh. }
  destruct (ok (sd_status servable)) eqn:Hok; simpl.
  - apply Hgo; [done..|]. apply core_publish.
  - pose proof (ErrorInternal_fields (sd_status servable) h0) as (?&?&?).
    apply Hgo; [by apply good_error_before_load|done| |apply core_error_callbacks].
    unfold Error. by rewrite ErrorInternal_state.
Qed.

Lemma StopManagingServable_cases i m :
  (∃ p h, bm_managed_map m !! p = Some h ∧ h_id h = i ∧
    (h_state h = State.kNew ∨ h_state h = State.kError ∨ h_state h = State.kDisabled) ∧
    StopManagingServable i m = (StatusOK, set_managed_map (delete p (bm_managed_map m)) m)) ∨
  (∃ e, ok e = false ∧ StopManagingServable i m = (e, m)).
Proof.
  unfold StopManagingServable.
  destruct (FindHarnessInMap i m) as [[p h]|] eqn:E.
  2: { right. eexists. split; [|done]. done. }
  apply FindHarnessInMap_Some in E as [Hp Hid].
  repeat case_bool_decide; simpl; 
    first [by right; eexists; split; [|done]; done|left; exists p, h; by auto 10].
Qed.

Lemma step_inv (l : Label A) s s' :
  label_wf l → sys_inv s → step l s = Some s' → sys_inv s'.
Proof.
  intros Hwf Hinv Hstep. destruct s as [m d ts]. destruct l; simpl in Hstep.
  - injection Hstep as <-. by apply ManageServable_inv.
  - injection Hstep as <-.
    destruct (StopManagingServable_cases i m) as [(p&h&Hp&_&Hs&->)|(e&_&->)]; [|done].
    destruct Hinv as (Hheap&?&?). split_and!; [|done|done]. simpl.
    eapply heap_inv_stop; [done|done|..]; by destruct Hs as [->|[->| ->]].
  - injection Hstep as <-. unfold CancelLoadServableRetry.
    destruct (GetHealthyHarness_cases i m) as [(p&h&->&Hp&Hid)|(st&Hst&->)].
    2: { by destruct st. }
    destruct (call_harness_spec p (λ h, (StatusOK, set_cancel_load_retry true h)) m h Hp)
      as (m'&->&Hc). eapply sys_inv_core; [symmetry; exact Hc|].
    destruct Hinv as (Hheap&?&?). split_and!; [|done|done]. by eapply heap_inv_touch.
  - injection Hstep as <-. unfold SetAdditionalServableState.
    destruct (FindHarnessInMap i m) as [[p h]|] eqn:E; [|done].
    apply FindHarnessInMap_Some in E as [Hp _].
    destruct Hinv as (Hheap&?&?). split_and!; [|done|done]. simpl.
    assert (alter (set_additional_state a) p (bm_managed_map m) =
      <[p:=set_additional_state a h]> (bm_managed_map m)) as ->.
    { apply map_eq. intros q. destruct (decide (p = q)) as [<-|].
      - by rewrite lookup_alter_eq, lookup_insert_eq, Hp.
      - by rewrite lookup_alter_ne, lookup_insert_ne. }
    by eapply heap_inv_touch.
  - injection Hstep as <-. done.
  - destruct (request_cases r m) as [(p&h&st&Hp&Hid&Hcase&m'&E&Hc)|(e&m'&He&Hc&E)];
      rewrite E in Hstep; injection Hstep as <-.
    + by eapply accept_inv.
    + eapply (sys_inv_core m); [|done]. by rewrite <-Hc.
  - destruct (ts !! k) as [t|] eqn:Ek; [|done].
    eapply run_thread_inv; [|exact Hstep]. apply delete_Permutation in Ek.
    destruct Hinv as (Hheap&Hc&?). split_and!; [|by eapply counts_inv_perm|done].
    by eapply heap_inv_perm.
Qed.
End reachability.

(** * Answered requests *)

Definition done_answer (c : ManagerCall) : option (LoadOrUnloadRequest * Status) :=
  match c with Done r st => Some (r, st) | _ => None end.

(** The requests whose callback has run, with the status it was given, in order. *)
Definition answers {A} (m : BasicManager A) : list (LoadOrUnloadRequest * Status) :=
  omap done_answer (bm_calls m).

Definition dones {A} (m : BasicManager A) : list LoadOrUnloadRequest := (answers m).*1.

(** The requests made by a sequence of steps. *)
Definition label_request {A} (l : Label A) : option LoadOrUnloadRequest :=
  match l with LRequest r => Some r | _ => None end.

Section answers.
Context {A : Type}.
Implicit Types (m : BasicManager A) (s : Sys A).

Lemma answers_add_call c m :
  answers (add_manager_call c m) = answers m ++ omap done_answer [c].
Proof. unfold answers; simpl. by rewrite omap_app. Qed.

(** The answered requests and the options, which most operations keep. *)
Definition aux m : list (LoadOrUnloadRequest * Status) * HarnessOptions :=
  (answers m, bm_harness_options m).

Lemma aux_add_call c m : done_answer c = None → aux (add_manager_call c m) = aux m.
Proof.
  intros Hc. unfold aux. rewrite answers_add_call. simpl. by rewrite Hc, app_nil_r.
Qed.

Lemma aux_eq m m' :
  aux m = aux m' → answers m = answers m' ∧ bm_harness_options m = bm_harness_options m'.
Proof. by intros [= -> ->]. Qed.

Lemma aux_publish st m : aux (PublishOnEventBus st m) = aux m.
Proof. unfold PublishOnEventBus. case_match; [|done]. by apply aux_add_call. Qed.

Lemma aux_pre_load_hook i m : aux (call_pre_load_hook i m) = aux m.
Proof. unfold call_pre_load_hook. case_match; [|done]. by apply aux_add_call. Qed.

Lemma aux_error_callbacks cs m : aux (foldl (λ m c, error_callback c m) m cs) = aux m.
Proof.
  revert m. induction cs as [|c cs IH]; intros m; simpl; [done|]. rewrite IH.
  destruct c; simpl; try done. apply aux_publish.
Qed.

Lemma aux_call_harness p f m : aux (call_harness p f m).2 = aux m.
Proof.
  unfold call_harness. case_match; [|done]. destruct (f _). simpl. by rewrite aux_error_callbacks.
Qed.

Lemma aux_call_harness_ret p f m :
  aux ((call_harness p f ;;? sm_ret StatusOK) m).2 = aux m.
Proof. rewrite bind_ret_snd. apply aux_call_harness. Qed.

Lemma aux_publish_harness st p m : aux (publish_harness st p m) = aux m.
Proof. unfold publish_harness. case_match; [apply aux_publish|done]. Qed.

Lemma aux_ReserveResources rc rs h t m :
  aux (ReserveResources rc rs h t m).2 = aux m.
Proof.
  unfold ReserveResources. destruct (Retry _ _ _).
  destruct (Tracker_ReserveResources _ _) as [[? ?] ?]. by repeat case_match.
Qed.

Lemma aux_ApproveLoad rc rs p m : aux (ApproveLoad rc rs p m).2 = aux m.
Proof.
  unfold ApproveLoad. destruct (bm_managed_map m !! p) as [h|]; [|done].
  assert (aux (match bm_resource_tracker m with
    | None => (ReserveReturns StatusOK, m)
    | Some t => ReserveResources rc rs h t m end).2 = aux m) as Hd.
  { case_match; [apply aux_ReserveResources|done]. }
  destruct (match bm_resource_tracker m with | None => _ | Some t => _ end) as [[st|] m1];
    simpl in *; [|done]. rewrite <-Hd.
  destruct (ok st); simpl.
  - rewrite <-(aux_call_harness_ret p LoadApproved m1).
    by destruct ((call_harness p LoadApproved ;;? sm_ret StatusOK) m1).
  - rewrite aux_publish. apply aux_call_harness.
Qed.

Lemma aux_ApproveRequest rc rs r p m : aux (ApproveRequest rc rs r p m).2 = aux m.
Proof.
  unfold ApproveRequest. destruct (lur_kind r).
  - rewrite <-(aux_ApproveLoad rc rs p m). destruct (ApproveLoad rc rs p m) as [[[]|] m1]; done.
  - pose proof (aux_call_harness_ret p StartQuiescing m) as Hd. unfold ApproveUnload.
    destruct ((call_harness p StartQuiescing ;;? sm_ret StatusOK) m) as [[] m1]; done.
Qed.

Lemma aux_ExecuteUnload_begin p m : aux (ExecuteUnload_begin p m).2 = aux m.
Proof.
  unfold ExecuteUnload_begin, do_, sm_bind at 1 2; simpl. rewrite aux_call_harness_ret.
  apply (aux_publish_harness kUnloading p m).
Qed.

Lemma requests_wake (ts : list Thread) : thread_request <$> (wake <$> ts) = thread_request <$> ts.
Proof.
  rewrite <-list_fmap_compose. apply list_fmap_ext. intros k t _. by destruct t.
Qed.

(** What a step owes: the options stay, the callbacks it runs are [new], and each
    of the requests [rs] is pending or answered by them. *)
Definition accounts (rs : list LoadOrUnloadRequest) (new : list (LoadOrUnloadRequest * Status))
    (x : list (LoadOrUnloadRequest * Status) * HarnessOptions) (s' : Sys A) : Prop :=
  bm_harness_options (sys_manager s') = x.2 ∧ answers (sys_manager s') = x.1 ++ new ∧
  new.*1 ++ (thread_request <$> sys_threads s') ≡ₚ rs.

Lemma accounts_intro rs m m' d ts :
  aux m' = aux m → thread_request <$> ts = rs → accounts rs [] (aux m) (mkSys m' d ts).
Proof. intros [Hd Ho]%aux_eq <-. split_and!; [done| |done]. simpl. by rewrite Hd, app_nil_r. Qed.

Lemma after_decision_accounts r p rest (result : option Status * BasicManager A) m :
  aux result.2 = aux m →
  accounts (r :: (thread_request <$> rest)) [] (aux m) (after_decision r p rest result).
Proof.
  intros Ha. destruct result as [[[]|] m1]; simpl in *; apply accounts_intro; try done.
  by destruct (lur_kind r).
Qed.

(** The callback a step of [t] runs. *)
Definition thread_answer (t : Thread) : list (LoadOrUnloadRequest * Status) :=
  match t with TDone r st => [(r, st)] | _ => [] end.

(** Each step of a thread keeps the request or answers it. *)
Lemma run_thread_answers a t d rest m s' :
  run_thread a t d rest m = Some s' →
  accounts (thread_request <$> (t :: rest)) (thread_answer t) (aux m) s'.
Proof.
  assert (∀ p f r t1 t2, thread_request t1 = r → thread_request t2 = r →
    accounts (r :: (thread_request <$> rest)) [] (aux m)
      (mkSys (call_harness p f m).2 d
        ((if ok (call_harness p f m).1 then t1 else t2) :: rest))) as Hcall.
  { intros p f r t1 t2 <- H2. apply accounts_intro; [apply aux_call_harness|].
    rewrite fmap_cons. by destruct (ok _); rewrite ?H2. }
  intros Hrun. destruct t; cbn [run_thread] in Hrun.
  - destruct d; [done|]. injection Hrun as <-.
    destruct (GetHealthyHarness (lur_id r) m) as [[] [p|]]; try by apply accounts_intro.
    apply after_decision_accounts, aux_ApproveRequest.
  - injection Hrun as <-. apply after_decision_accounts, aux_ApproveRequest.
  - done.
  - injection Hrun as <-. apply accounts_intro; [|done].
    by rewrite aux_pre_load_hook, aux_publish_harness.
  - specialize (Hcall p Load_begin r (TLoading r p 0)).
    destruct (call_harness p Load_begin m) as [st m1].
    injection Hrun as <-. by apply (Hcall (TFinish r st)).
  - destruct (bm_managed_map m !! p) as [h|];
      [|injection Hrun as <-; by apply accounts_intro].
    destruct (load_try _ _ _) as [f|].
    + specialize (Hcall p f r (TLoadServe r)). destruct (call_harness p f m) as [st m1].
      injection Hrun as <-. by apply (Hcall (TFinish r st)).
    + specialize (Hcall p (λ h, (StatusOK, add_call (CallLoad (a_load a)) h)) r
        (TLoading r p (S tries)) (TLoading r p (S tries))).
      destruct (call_harness p _ m) as [st m1]. injection Hrun as <-. simpl in Hcall.
      destruct (ok st); by apply Hcall.
  - injection Hrun as <-. by apply accounts_intro.
  - injection Hrun as <-. apply accounts_intro; [apply aux_publish|done].
  - pose proof (aux_ExecuteUnload_begin p m) as Hd.
    destruct (ExecuteUnload_begin p m) as [st m1].
    injection Hrun as <-. apply accounts_intro; [done|]. by destruct (ok st).
  - specialize (Hcall p Unload_begin r (TUnloading r p)).
    destruct (call_harness p Unload_begin m) as [st m1].
    injection Hrun as <-. by apply (Hcall (TFinish r st)).
  - specialize (Hcall p (λ h, Unload_end (add_call CallUnload h)) r (TUnloadPublish r)).
    destruct (call_harness p _ m) as [st m1].
    injection Hrun as <-. by apply (Hcall (TFinish r st)).
  - injection Hrun as <-. apply accounts_intro; [apply aux_publish|done].
  - injection Hrun as <-. apply accounts_intro; [done|]. by rewrite !fmap_cons, requests_wake.
  - injection Hrun as <-. split_and!; [done| |done]. simpl. by rewrite answers_add_call.
Qed.

Lemma step_answers (l : Label A) s s' :
  step l s = Some s' → ∃ new,
  accounts (omap label_request [l] ++ (thread_request <$> sys_threads s)) new
    (aux (sys_manager s)) s'.
Proof.
  destruct s as [m d ts]. intros Hstep. destruct l; cbn [step] in Hstep; simpl.
  - injection Hstep as <-. exists []. apply accounts_intro; [|done]. unfold ManageServableInternal.
    assert (∀ h m1, aux (emplace_harness h m1) = aux m1) as He by done.
    destruct (FindHarnessInMap _ m); [done|]. destruct (negb _); simpl; rewrite He.
    + apply aux_error_callbacks.
    + apply aux_publish.
  - injection Hstep as <-. exists []. apply accounts_intro; [|done].
    by destruct (StopManagingServable_cases i m) as [(p&h&_&_&_&->)|(e&_&->)].
  - injection Hstep as <-. exists []. apply accounts_intro; [|done]. unfold CancelLoadServableRetry.
    destruct (GetHealthyHarness i m) as [[] [p|]]; try done. apply aux_call_harness.
  - injection Hstep as <-. exists []. apply accounts_intro; [|done]. unfold SetAdditionalServableState.
    by repeat case_match.
  - injection Hstep as <-. exists []. by apply accounts_intro.
  - assert (aux (RequestLoadOrUnload r m).2 = aux m) as Hd.
    { unfold RequestLoadOrUnload. destruct (GetHealthyHarness _ _) as [[] [p|]]; try done.
      destruct (lur_kind r); apply aux_call_harness_ret. }
    unfold LoadOrUnloadServable in Hstep. destruct (RequestLoadOrUnload r m) as [st m1].
    simpl in Hd. destruct (ok st); injection Hstep as <-;
      [exists []; by apply accounts_intro|].
    apply aux_eq in Hd as [Hd Ho]. exists [(r, st)]. split_and!; [done| |done]. simpl.
    by rewrite answers_add_call, Hd.
  - destruct (ts !! k) as [t|] eqn:Ek; [|done].
    destruct (run_thread_answers _ _ _ _ _ _ Hstep) as (Ho&Hd&Hr). exists (thread_answer t).
    split_and!; [done|done|]. rewrite Hr. by rewrite <-(delete_Permutation _ _ _ Ek).
Qed.

Lemma reachable_answers m0 ls s :
  dones m0 = [] → reachable m0 ls s →
  dones (sys_manager s) ++ (thread_request <$> sys_threads s) ≡ₚ omap label_request ls.
Proof.
  intros H0. induction 1 as [|ls l s s' _ IH _ Hstep]; [simpl; by rewrite H0|].
  destruct (step_answers _ _ _ Hstep) as (new&_&Hd&Hr).
  unfold dones in *. rewrite Hd, fmap_app, <-app_assoc, Hr, omap_app, <-IH. simpl.
  rewrite <-app_assoc. f_equiv. apply Permutation_app_comm.
Qed.
End answers.

(** * Progress *)

(** The steps a thread has before it, when a load uses all its [n] tries. *)
Definition rank (n : nat) (t : Thread) : nat :=
  match t with
  | TQueued _ => 10 + n
  | TReserving _ _ | TAsleep _ _ => 9 + n
  | TLoadStart _ _ => 8 + n
  | TLoadBegin _ _ => 7 + n
  | TLoading _ _ tries => 5 + (S n - tries)
  | TLoadServe _ => 4
  | TLoadPublish _ => 3
  | TUnloadStart _ _ => 6
  | TUnloadBegin _ _ => 5
  | TUnloading _ _ => 4
  | TUnloadPublish _ => 3
  | TFinish _ _ => 2
  | TDone _ _ => 1
  end.

Definition reserving (t : Thread) : nat := match t with TReserving _ _ => 1 | _ => 0 end.

(** Twice the ranks, plus the threads that are awake in their decision phase. *)
Definition weight (n : nat) (ts : list Thread) : nat :=
  sum_list_with (λ t, 2 * rank n t + reserving t) ts.

(** A step of a thread of [s]. *)
Definition runs {A} (s s' : Sys A) : Prop := ∃ k a, step (LRun k a) s = Some s'.

Section progress.
Context {A : Type}.
Implicit Types (m : BasicManager A) (s : Sys A).

Lemma weight_perm n ts ts' : ts ≡ₚ ts' → weight n ts = weight n ts'.
Proof. intros Hp. unfold weight. induction Hp; simpl in *; lia. Qed.

Lemma weight_cons n t ts : weight n (t :: ts) = 2 * rank n t + reserving t + weight n ts.
Proof. done. Qed.

Lemma weight_wake n (ts : list Thread) :
  weight n (wake <$> ts) ≤
  length (filter (λ t, in_decision t = true) ts) + weight n ts.
Proof.
  induction ts as [|t ts IH]; [done|]. rewrite count_cons, fmap_cons, !weight_cons.
  destruct t; cbn [wake rank reserving in_decision]; lia.
Qed.

Lemma load_try_rank m d r p tries rest a h :
  sys_inv (mkSys m d (TLoading r p tries :: rest)) → bm_managed_map m !! p = Some h →
  load_try (a_load a) tries h = None → tries < max_tries (bm_harness_options m).
Proof.
  intros Hinv Hp. unfold load_try. destruct (retry_again _ _ _ _) eqn:Hretry; [|done]. intros _.
  pose proof (thread_locals _ _ _ _ Hinv) as [_ Htries].
  destruct Hinv as (Hheap&_&_). pose proof (hi_good _ _ _ _ _ Hheap p h Hp) as Hg. simpl in Hg.
  apply retry_again_bound in Hretry.
  - rewrite (good_options _ _ Hg) in Hretry. unfold max_tries. lia.
  - pose proof (u32_range (max_num_load_retries (bm_harness_options m) + 1)) as Hb.
    unfold is_u32 in Hb. destruct Htries as [->|Ht]; [lia|]. unfold max_tries in Ht. lia.
Qed.

Ltac weigh := cbn [sys_threads]; rewrite ?weight_cons; cbn [rank reserving]; lia.

(** Every step of a thread makes progress. *)
Lemma run_thread_decreases a t d rest m s' n :
  n = max_tries (bm_harness_options m) →
  sys_inv (mkSys m d (t :: rest)) → run_thread a t d rest m = Some s' →
  weight n (sys_threads s') < weight n (t :: rest).
Proof.
  intros Hn Hinv Hrun.
  assert (∀ r p result, ∃ t', sys_threads (@after_decision A r p rest result) = t' :: rest ∧
    rank n t' ≤ 9 + n ∧ reserving t' = 0) as Hafter.
  { intros r p [[[]|] m1]; simpl; [destruct (lur_kind r)|..]; eexists; (split_and!; [done| |done]);
      simpl; lia. }
  destruct t; cbn [run_thread] in Hrun.
  - destruct d; [done|]. injection Hrun as <-.
    destruct (GetHealthyHarness (lur_id r) m) as [[] [p|]]; try weigh.
    destruct (Hafter r p (ApproveRequest (a_recompute a) (a_reserve a) r p m)) as (t'&->&?&Hr').
    weigh.
  - injection Hrun as <-.
    destruct (Hafter r p (ApproveRequest (a_recompute a) (a_reserve a) r p m)) as (t'&->&?&Hr').
    weigh.
  - done.
  - injection Hrun as <-. weigh.
  - destruct (call_harness p Load_begin m) as [st m1]. injection Hrun as <-.
    destruct (ok st); weigh.
  - destruct (bm_managed_map m !! p) as [h|] eqn:Hp; [|injection Hrun as <-; weigh].
    destruct (load_try (a_load a) tries h) as [f|] eqn:Hf.
    + destruct (call_harness p f m) as [st m1]. injection Hrun as <-.
      destruct (ok st); weigh.
    + pose proof (load_try_rank _ _ _ _ _ _ _ _ Hinv Hp Hf) as Hlt. rewrite <-Hn in Hlt.
      destruct (call_harness p _ m) as [st m1]. injection Hrun as <-. weigh.
  - injection Hrun as <-. weigh.
  - injection Hrun as <-. weigh.
  - destruct (ExecuteUnload_begin p m) as [st m1]. injection Hrun as <-.
    destruct (ok st); weigh.
  - destruct (call_harness p Unload_begin m) as [st m1]. injection Hrun as <-.
    destruct (ok st); weigh.
  - destruct (call_harness p _ m) as [st m1]. injection Hrun as <-.
    destruct (ok st); weigh.
  - injection Hrun as <-. weigh.
  - injection Hrun as <-. destruct Hinv as (_&Hc&_).
    pose proof (ci_deciding _ _ _ Hc) as Hd. cbn [sys_threads sys_deciding] in Hd.
    rewrite count_cons in Hd. cbn [in_decision] in Hd. pose proof (weight_wake n rest) as Hw.
    destruct d; weigh.
  - injection Hrun as <-. weigh.
Qed.

Lemma runs_inv s s' : sys_inv s → runs s s' → sys_inv s'.
Proof. intros Hinv (k&a&Hstep). by apply (step_inv (LRun k a) s). Qed.

Lemma runs_decreases s s' :
  sys_inv s → runs s s' →
  bm_harness_options (sys_manager s') = bm_harness_options (sys_manager s) ∧
  weight (max_tries (bm_harness_options (sys_manager s))) (sys_threads s') <
  weight (max_tries (bm_harness_options (sys_manager s))) (sys_threads s).
Proof.
  intros Hinv (k&a&Hstep). split; [by destruct (step_answers _ _ _ Hstep) as (?&?&_)|].
  destruct s as [m d ts]. cbn [step] in Hstep. destruct (ts !! k) as [t|] eqn:Ek; [|done].
  apply delete_Permutation in Ek. cbn [sys_threads sys_manager].
  rewrite (weight_perm _ _ _ Ek). eapply run_thread_decreases; [done| |exact Hstep].
  destruct Hinv as (Hheap&Hc&?). split_and!; [|by eapply counts_inv_perm|done].
  by eapply heap_inv_perm.
Qed.

(** No schedule runs for ever. *)
Lemma runs_acc s : sys_inv s → Acc (flip runs) s.
Proof.
  remember (weight (max_tries (bm_harness_options (sys_manager s))) (sys_threads s)) as w eqn:Hw.
  revert s Hw. induction (lt_wf w) as [w _ IH]. intros s -> Hinv. constructor. intros s' Hrun.
  destruct (runs_decreases s s' Hinv Hrun) as [Ho Hlt].
  eapply IH; [exact Hlt| |by eapply runs_inv]. by rewrite Ho.
Qed.

Lemma count_none (P : Thread → bool) ts :
  (∀ t, t ∈ ts → P t = false) → length (filter (λ t, P t = true) ts) = 0.
Proof.
  intros H. induction ts as [|t ts IH]; [done|]. rewrite count_cons, H by left.
  apply IH. intros u Hu. apply H. by right.
Qed.

(** Some thread can always run. *)
Lemma runs_progress s : sys_inv s → sys_threads s ≠ [] → ∃ s', runs s s'.
Proof.
  intros (_&[Hn Hd Hsl]&_) Hne. destruct s as [m d ts]. sys_cbn.
  set (a := mkAnswers (λ _, (StatusOK, [])) (λ _, (StatusOK, [])) StatusOK).
  set (blocked t := match t with TQueued _ => d | TAsleep _ _ => true | _ => false end).
  assert (∀ k t, ts !! k = Some t → blocked t = false → ∃ s', runs (mkSys m d ts) s') as Hgo.
  { intros k t Hk Hb. assert (is_Some (run_thread a t d (delete k ts) m)) as [s' Hs'].
    { destruct t; cbn in Hb; subst; cbn [run_thread]; try done; repeat case_match; by eexists. }
    exists s', k, a. cbn [step]. by rewrite Hk. }
  destruct (decide (Forall (λ t, blocked t = true) ts)) as [Hall|Hno].
  - exfalso. rewrite Forall_forall in Hall.
    assert (∀ t, t ∈ ts → ∃ r, t = TQueued r) as Hq.
    { intros t Ht. pose proof (Hall t Ht) as Hb. destruct t; try done; [by eexists|].
      specialize (Hsl _ Ht eq_refl). rewrite (count_none executing) in Hn; [lia|].
      intros u Hu. by destruct u; specialize (Hall _ Hu). }
    rewrite (count_none in_decision) in Hd; [|by intros t [r ->]%Hq].
    destruct ts as [|t ts]; [done|]. destruct (Hq t) as [r ->]; [left|].
    specialize (Hall (TQueued r) ltac:(left)). cbn in Hall. by subst d.
  - apply not_Forall_Exists, Exists_exists in Hno as (t&Ht&Hb); [|apply _].
    apply list_elem_of_lookup in Ht as [k Hk]. apply (Hgo k t Hk). by apply not_true_iff_false.
Qed.
End progress.

(** * The handlers and the threads *)

Section handler.
Context {A : Type} (rc : option nat → Estimate) (rs : nat → Estimate) (load : nat → Status).
Implicit Types (m : BasicManager A) (h : LoaderHarness A).

Definition loads (k : nat) : Answers := mkAnswers rc rs (load k).

Lemma head_runs k t d rest m s' :
  run_thread (loads k) t d rest m = Some s' → runs (mkSys m d (t :: rest)) s'.
Proof. intros H. by exists 0, (loads k). Qed.

Lemma error_callbacks_set_map cs X m :
  foldl (λ m c, error_callback c m) (set_managed_map X m) cs =
  set_managed_map X (foldl (λ m c, error_callback c m) m cs).
Proof.
  revert m. induction cs as [|c cs IH]; intros m; simpl; [done|]. rewrite <-IH.
  destruct c; simpl; try done. f_equal. unfold PublishOnEventBus. simpl. by case_match.
Qed.

Lemma call_harness_eq p f m h cs :
  bm_managed_map m !! p = Some h → h_trace (f h).2 = h_trace h ++ cs →
  call_harness p f m = ((f h).1, foldl (λ m c, error_callback c m)
    (set_managed_map (<[p:=(f h).2]> (bm_managed_map m)) m) cs).
Proof.
  intros Hp Htr. unfold call_harness. rewrite Hp. destruct (f h) as [st h1]. simpl in *.
  by rewrite Htr, drop_app_length.
Qed.

(** Two calls in a row are one call of the composition. *)
Lemma call_harness_seq p f g m h cs1 cs2 :
  bm_managed_map m !! p = Some h →
  h_trace (f h).2 = h_trace h ++ cs1 → h_trace (g (f h).2).2 = h_trace (f h).2 ++ cs2 →
  call_harness p g (call_harness p f m).2 =
  call_harness p (λ h, g (f h).2) m.
Proof.
  intros Hp H1 H2. rewrite (call_harness_eq p f m h cs1 Hp H1).
  rewrite (call_harness_eq p (λ h, g (f h).2) m h (cs1 ++ cs2) Hp);
    [|by rewrite H2, H1, app_assoc].
  cbn [snd]. rewrite !error_callbacks_set_map. set (m1 := foldl _ m cs1).
  assert (bm_managed_map m1 = bm_managed_map m) as Hm.
  { apply managed_of_core, core_error_callbacks. }
  rewrite (call_harness_eq p g _ (f h).2 cs2); [|simpl; by rewrite lookup_insert_eq|done].
  rewrite error_callbacks_set_map, foldl_app, error_callbacks_set_map. fold m1.
  f_equal. rewrite <-error_callbacks_set_map. simpl.
  rewrite insert_insert_eq. by rewrite !error_callbacks_set_map.
Qed.

(** The calls of the loader still to be made by [Load] after [tries] of them,
    and its end. *)
Definition Load_rest (tries fuel : nat) : SM (LoaderHarness A) := λ h,
  let '(status, n) :=
    retry_loop (max_num_load_retries (h_options h)) load (λ _, h_cancel_load_retry h) fuel tries in
  Load_end status (Load_calls (load <$> seq tries (n - tries)) h).

Lemma Load_end_trace st h : ∃ cs, h_trace (Load_end st h).2 = h_trace h ++ cs.
Proof.
  assert (∀ e h', ∃ cs, h_trace (@ErrorInternal A e h') = h_trace h' ++ cs) as He.
  { intros e h'. unfold ErrorInternal. case_match; simpl; [by eexists|].
    exists []. by rewrite app_nil_r. }
  unfold Load_end. destruct (ok st) eqn:E; [|apply He].
  apply ok_iff in E as ->. rewrite bind_ret_snd. unfold TransitionState.
  case_decide; simpl; [exists []; by rewrite app_nil_r|apply He].
Qed.

Lemma Load_calls_flags results h :
  h_options (Load_calls results h) = h_options h ∧
  h_cancel_load_retry (Load_calls results h) = h_cancel_load_retry h.
Proof.
  unfold Load_calls. revert h. induction results as [|r results IH]; intros h; simpl; [done|].
  destruct (IH (add_call (CallLoad r) h)) as [-> ->]. done.
Qed.

Lemma Load_rest_trace tries fuel h :
  ∃ cs, h_trace (Load_rest tries fuel h).2 = h_trace h ++ cs.
Proof.
  unfold Load_rest. destruct (retry_loop _ _ _ _ _) as [st n].
  destruct (Load_end_trace st (Load_calls (load <$> seq tries (n - tries)) h)) as [cs ->].
  destruct (Load_calls_fields (load <$> seq tries (n - tries)) h) as (_&_&->).
  rewrite <-app_assoc. by eexists.
Qed.

(** The loop run by the thread is the loop of [Retry]. *)
Lemma load_loop_runs r p d rest m h tries fuel n :
  bm_managed_map m !! p = Some h → n = Z.to_nat (u32 (max_num_load_retries (h_options h) + 1)) →
  (Z.of_nat n < 2 ^ 32)%Z → fuel + tries = n → (fuel = 0 → tries = 0) →
  let '(st, m') := call_harness p (Load_rest tries fuel) m in
  rtc runs (mkSys m d (TLoading r p tries :: rest))
    (mkSys m' d ((if ok st then TLoadServe r else TFinish r st) :: rest)).
Proof.
  intros Hp Hn Hbound. revert tries m h Hp Hn. induction fuel as [|fuel IH];
    intros tries m h Hp Hn Hsum H0.
  - specialize (H0 eq_refl).
    assert (retry_again (max_num_load_retries (h_options h)) (λ _, h_cancel_load_retry h)
      (S tries) (load tries) = false) as Hstop.
    { apply not_true_iff_false. intros H. apply retry_again_bound in H; lia. }
    destruct (call_harness p (Load_rest tries 0) m) as [st m'] eqn:E.
    apply rtc_once, (head_runs tries). cbn [run_thread loads a_load]. rewrite Hp. unfold load_try.
    rewrite Hstop. unfold Load_rest in E. simpl in E.
    replace (S tries - tries) with 1 in E by lia. simpl in E. unfold Load_calls in E. simpl in E.
    by rewrite E.
  - destruct (retry_again (max_num_load_retries (h_options h)) (λ _, h_cancel_load_retry h)
      (S tries) (load tries)) eqn:Hretry.
    + pose proof (retry_again_bound _ _ (S tries) _ ltac:(lia) Hretry) as Hlt.
      set (f := λ h : LoaderHarness A, (StatusOK, add_call (CallLoad (load tries)) h)).
      destruct (Load_rest_trace (S tries) fuel (f h).2) as [cs Hcs].
      pose proof (call_harness_seq p f (Load_rest (S tries) fuel) m h _ cs Hp eq_refl Hcs) as Hseq.
      assert (call_harness p (λ h, Load_rest (S tries) fuel (f h).2) m =
        call_harness p (Load_rest tries (S fuel)) m) as Heq.
      { unfold call_harness. rewrite Hp. f_equal. unfold Load_rest. simpl.
        rewrite Hretry.
        destruct (retry_loop _ _ _ fuel (S tries)) as [st k] eqn:Ek.
        apply retry_loop_spec in Ek as (?&_). replace (k - tries) with (S (k - S tries)) by lia.
        simpl. unfold Load_calls. simpl. by destruct (Load_end _ _). }
      rewrite Heq in Hseq. rewrite <-Hseq.
      destruct (call_harness p f m) as [st1 m1] eqn:E1. cbn [snd].
      assert (bm_managed_map m1 !! p = Some (f h).2) as Hp1.
      { rewrite (call_harness_eq p f m h [CallLoad (load tries)] Hp eq_refl) in E1.
        injection E1 as _ <-. simpl. by rewrite lookup_insert_eq. }
      specialize (IH (S tries) m1 (f h).2 Hp1 Hn ltac:(lia) ltac:(lia)).
      destruct (call_harness p (Load_rest (S tries) fuel) m1) as [st m'].
      eapply rtc_l; [|exact IH]. apply (head_runs tries). cbn [run_thread loads a_load].
      rewrite Hp. unfold load_try. rewrite Hretry. fold f. by rewrite E1.
    + destruct (call_harness p (Load_rest tries (S fuel)) m) as [st m'] eqn:E.
      apply rtc_once, (head_runs tries). cbn [run_thread loads a_load]. rewrite Hp. unfold load_try.
      rewrite Hretry.
      assert (call_harness p (Load_rest tries (S fuel)) m = call_harness p
        (λ h, Load_end (load tries) (add_call (CallLoad (load tries)) h)) m) as <-; [|by rewrite E].
      unfold call_harness. rewrite Hp. unfold Load_rest. simpl. rewrite Hretry.
      replace (S tries - tries) with 1 by lia. done.
Qed.
Lemma do_bind (f : BasicManager A → BasicManager A) (k : SM (BasicManager A)) m :
  (do_ f ;;? k) m = k (f m).
Proof. done. Qed.

Lemma wake_none (ts : list Thread) : (∀ t, t ∈ ts → asleep t = false) → wake <$> ts = ts.
Proof.
  intros H. rewrite <-(list_fmap_id ts) at 2. apply list_fmap_ext. intros k t Hk.
  apply list_elem_of_lookup_2, H in Hk. by destruct t.
Qed.

(** [Load] is its first critical section and the loop. *)
Lemma Load_split p m h (flag : bool) :
  bm_managed_map m !! p = Some h → h_state h = State.kLoadApproved →
  h_cancel_load_retry h = flag →
  ∃ m1, call_harness p Load_begin m = (StatusOK, m1) ∧
    bm_managed_map m1 !! p = Some (set_state State.kLoading h) ∧
    call_harness p (Load load (λ _, flag)) m =
    call_harness p (Load_rest 0 (Z.to_nat (u32 (max_num_load_retries (h_options h) + 1)))) m1.
Proof.
  intros Hp Hs Hflag. set (n := Z.to_nat _).
  assert (Load_begin h = (StatusOK, set_state State.kLoading h)) as Hb by (by apply TransitionState_ok).
  assert (h_trace (Load_begin h).2 = h_trace h ++ []) as Htr by (rewrite Hb, app_nil_r; done).
  destruct (Load_rest_trace 0 n (Load_begin h).2) as [cs Hcs].
  pose proof (call_harness_seq p Load_begin (Load_rest 0 n) m h [] cs Hp Htr Hcs) as Hseq.
  rewrite (call_harness_eq p Load_begin m h [] Hp Htr), Hb in *. cbn [fst snd foldl] in *.
  eexists. split; [done|]. split; [simpl; by rewrite lookup_insert_eq|].
  rewrite Hseq. unfold call_harness. rewrite Hp. unfold Load.
  rewrite (sm_bind_ok _ _ _ _ Hb), Hb. unfold Load_rest, Retry. simpl. rewrite Hflag. fold n.
  destruct (retry_loop _ _ _ _ _) as [st k]. by rewrite Nat.sub_0_r.
Qed.

Lemma execute_load_runs r p d rest m h m' st (flag : bool) :
  bm_managed_map m !! p = Some h → h_state h = State.kLoadApproved →
  h_cancel_load_retry h = flag →
  ExecuteLoad load (λ _, flag) (lur_id r) p m = (st, m') →
  rtc runs (mkSys m d (TLoadStart r p :: rest)) (mkSys m' d (TFinish r st :: rest)).
Proof.
  intros Hp Hs Hflag. unfold ExecuteLoad. rewrite !do_bind.
  set (m1 := call_pre_load_hook _ _).
  assert (bm_managed_map m1 !! p = Some h) as Hp1.
  { erewrite (managed_of_core m1 m); [done|]. unfold m1. rewrite core_pre_load_hook.
    by eapply publish_harness_core. }
  destruct (Load_split p m1 h flag Hp1 Hs Hflag) as (m2&Eb&Hp2&El). intros Hex.
  eapply rtc_l; [apply (head_runs 0); reflexivity|]. fold m1.
  eapply rtc_l; [apply (head_runs 0); cbn [run_thread]; by rewrite Eb|]. cbn [ok].
  pose proof (load_loop_runs r p d rest m2 _ 0
    (Z.to_nat (u32 (max_num_load_retries (h_options h) + 1))) _ Hp2 eq_refl) as Hloop.
  cbn [h_options set_state] in Hloop.
  unfold sm_bind at 1 in Hex. rewrite El in Hex.
  pose proof (u32_range (max_num_load_retries (h_options h) + 1)) as Hb. unfold is_u32 in Hb.
  specialize (Hloop ltac:(lia) ltac:(lia) ltac:(done)).
  destruct (call_harness p (Load_rest 0 _) m2) as [st2 m3]. etrans; [exact Hloop|].
  destruct (ok st2) eqn:Hok.
  - rewrite do_bind in Hex. injection Hex as <- <-.
    eapply rtc_l; [apply (head_runs 0); reflexivity|].
    apply rtc_once, (head_runs 0). reflexivity.
  - injection Hex as <- <-. done.
Qed.

Lemma execute_unload_runs r p d rest m m' st h :
  bm_managed_map m !! p = Some h → h_state h = State.kQuiescing →
  ExecuteUnload (lur_id r) p m = (st, m') →
  rtc runs (mkSys m d (TUnloadStart r p :: rest)) (mkSys m' d (TFinish r st :: rest)).
Proof.
  intros Hp Hs. unfold ExecuteUnload.
  destruct (ExecuteUnload_begin_spec p h m Hp Hs) as (m1&E1&Hc1).
  rewrite (sm_bind_ok _ _ _ _ E1).
  set (h1 := set_state State.kQuiesced h) in *.
  assert (bm_managed_map m1 !! p = Some h1) as Hp1.
  { rewrite (managed_of_core _ _ Hc1). simpl. by rewrite lookup_insert_eq. }
  assert (Unload_begin h1 = (StatusOK, set_state State.kUnloading h1)) as Hb
    by (by apply TransitionState_ok).
  set (g := λ h : LoaderHarness A, Unload_end (add_call CallUnload h)).
  assert (g (Unload_begin h1).2 =
    (StatusOK, set_state State.kDisabled (add_call CallUnload (Unload_begin h1).2))) as Hg.
  { rewrite Hb. by apply transition_ret. }
  pose proof (call_harness_seq p Unload_begin g m1 h1 [] [CallUnload] Hp1
    ltac:(rewrite Hb, app_nil_r; done) ltac:(rewrite Hg; done)) as Hseq.
  assert (call_harness p Unload m1 = call_harness p (λ h, g (Unload_begin h).2) m1) as Heq.
  { unfold call_harness. rewrite Hp1. unfold Unload. by rewrite (sm_bind_ok _ _ _ _ Hb), Hb. }
  assert (∃ m2, call_harness p Unload_begin m1 = (StatusOK, m2)) as [m2 E2].
  { unfold call_harness. rewrite Hp1, Hb. by eexists. }
  unfold sm_bind at 1. rewrite Heq, <-Hseq, E2. cbn [snd].
  destruct (call_harness p g m2) as [st3 m3] eqn:E3. intros Hex.
  eapply rtc_l; [apply (head_runs 0); cbn [run_thread]; by rewrite E1|]. cbn [ok].
  eapply rtc_l; [apply (head_runs 0); cbn [run_thread]; by rewrite E2|]. cbn [ok].
  eapply rtc_l; [apply (head_runs 0); cbn [run_thread]; fold g; by rewrite E3|].
  destruct (ok st3); injection Hex as <- <-; [|done].
  apply rtc_once, (head_runs 0). reflexivity.
Qed.

(** A request handled without interruption. *)
Lemma handler_runs r rest m m' (flag : bool) :
  sys_inv (mkSys m false (TQueued r :: rest)) →
  (∀ p h, FindHarnessInMap (lur_id r) m = Some (p, h) → h_cancel_load_retry h = flag) →
  HandleLoadOrUnloadRequest rc rs load (λ _, flag) r m = Some m' →
  rtc runs (mkSys m false (TQueued r :: rest)) (mkSys m' false rest).
Proof.
  intros Hinv Hflag Hhandle.
  destruct (owned_harness _ _ _ _ _ _ Hinv eq_refl) as (p&h&Hp&Hid&Hs&_&Ho&Hg&_).
  pose proof Hinv as (Hheap&Hcounts&_). simpl in Hid.
  destruct (counts_deciding _ _ _ _ (eq_refl : executing (TQueued r) = false)
    (or_introl eq_refl) Hcounts) as (_&_&Hsl).
  assert (GetHealthyHarness (lur_id r) m = (StatusOK, Some p)) as Hfind.
  { rewrite <-Hid. apply GetHealthyHarness_found; [apply (hi_unique _ _ _ _ _ Hheap)|done|].
    apply (good_status_ok _ _ Hg). rewrite Hs. by destruct (lur_kind r). }
  assert (h_cancel_load_retry h = flag) as Hf.
  { destruct (FindHarnessInMap (lur_id r) m) as [[q g]|] eqn:E.
    - apply FindHarnessInMap_Some in E as E'. destruct E' as [Hq Hgid].
      assert (q = p) as -> by (eapply (hi_unique _ _ _ _ _ Hheap); [done..|congruence]).
      simplify_eq. by eapply Hflag.
    - by apply (FindHarnessInMap_None _ _ _ _ E) in Hp. }
  assert (∀ s', after_decision r p rest (ApproveRequest rc rs r p m) = s' →
    runs (mkSys m false (TQueued r :: rest)) s') as Hfirst.
  { intros s' <-. apply (head_runs 0). cbn [run_thread]. by rewrite Hfind. }
  unfold HandleLoadOrUnloadRequest, ApproveLoadOrUnload in Hhandle. rewrite Hfind in Hhandle.
  destruct (ApproveRequest_cases rc rs r p h m Hp Hs) as (res&m1&E&Hcases). rewrite E in *.
  destruct res as [[|c msg]|]; [| |done]; simpl in Hhandle.
  - destruct Hcases as [[? _]|[[_ Hc]|(e&He&_&[= <-]&_)]]; [done| |done].
    assert (bm_managed_map m1 !! p = Some (set_state (approved_state r) h)) as Hp1.
    { rewrite (managed_of_core _ _ Hc). simpl. by rewrite lookup_insert_eq. }
    eapply rtc_l; [by apply Hfirst|]. unfold ExecuteLoadOrUnload in Hhandle. simpl.
    assert (∀ st m2, rtc runs (mkSys m2 false (TFinish r st :: rest))
      (mkSys (add_manager_call (Done r st) (finish_execution m2)) false rest)) as Hend.
    { intros st m2. eapply rtc_l; [apply (head_runs 0); reflexivity|].
      rewrite wake_none by done. apply rtc_once, (head_runs 0). reflexivity. }
    destruct (lur_kind r) eqn:Hk; unfold approved_state in Hp1; rewrite Hk in Hp1.
    + destruct (ExecuteLoad load _ _ p m1) as [st m2] eqn:Ex. simpl in Hhandle.
      injection Hhandle as <-. etrans; [|apply Hend].
      eapply execute_load_runs; [exact Hp1|done|done|done].
    + destruct (ExecuteUnload _ p m1) as [st m2] eqn:Ex. simpl in Hhandle.
      injection Hhandle as <-. etrans; [|apply Hend].
      eapply execute_unload_runs; [exact Hp1|done|done].
  - injection Hhandle as <-. eapply rtc_l; [by apply Hfirst|].
    apply rtc_once, (head_runs 0). reflexivity.
Qed.
End handler.

(** * Destruction *)

Section destruction.
Context {A : Type}.
Implicit Types (m : BasicManager A) (h : LoaderHarness A).

(** A ready harness after [UnloadAllServables] has passed over it. *)
Definition unloaded h : LoaderHarness A :=
  match h_state h with
  | State.kReady => set_state State.kDisabled (add_call CallUnload h)
  | _ => h
  end.

Lemma unload_ready p h m :
  bm_managed_map m !! p = Some h → h_state h = State.kReady →
  unload_one m p = set_managed_map (<[p:=unloaded h]> (bm_managed_map m)) m.
Proof.
  intros Hp Hs. unfold unload_one.
  assert (harness_state_is State.kReady p m = true) as ->.
  { unfold harness_state_is. rewrite Hp. by apply bool_decide_true. }
  cbv zeta. unfold sm_ignore. cbv beta.
  pose (f1 := λ h : LoaderHarness A, UnloadRequested h).
  pose (f2 := λ h : LoaderHarness A, StartQuiescing (f1 h).2).
  pose (f3 := λ h : LoaderHarness A, DoneQuiescing (f2 h).2).
  pose (f4 := λ h : LoaderHarness A, Unload (f3 h).2).
  assert (f1 h = (StatusOK, set_state State.kUnloadRequested h)) as H1.
  { unfold f1, UnloadRequested. by rewrite decide_True. }
  assert (f2 h = (StatusOK, set_state State.kQuiescing h)) as H2.
  { unfold f2, StartQuiescing. rewrite H1. simpl. by rewrite transition_ret. }
  assert (f3 h = (StatusOK, set_state State.kQuiesced h)) as H3.
  { unfold f3, DoneQuiescing. rewrite H2. simpl. by rewrite transition_ret. }
  assert (f4 h = (StatusOK, unloaded h)) as H4.
  { unfold f4, unloaded. rewrite H3, Hs. unfold Unload.
    erewrite (sm_bind_ok Unload_begin); [|by apply TransitionState_ok].
    unfold Unload_end. by rewrite transition_ret. }
  assert (∀ g, h_trace (set_state g h) = h_trace h ++ []) as Htr by (intros; by rewrite app_nil_r).
  rewrite (call_harness_seq p UnloadRequested StartQuiescing m h [] [] Hp);
    [|change (UnloadRequested h) with (f1 h); rewrite H1; apply Htr
     |change (StartQuiescing (UnloadRequested h).2) with (f2 h);
      change (UnloadRequested h) with (f1 h); rewrite H2, H1; simpl; by rewrite app_nil_r].
  change (λ h, StartQuiescing (UnloadRequested h).2) with f2.
  rewrite (call_harness_seq p f2 DoneQuiescing m h [] [] Hp);
    [|rewrite H2; apply Htr|change (DoneQuiescing (f2 h).2) with (f3 h); rewrite H3, H2; simpl; by rewrite app_nil_r].
  change (λ h, DoneQuiescing (f2 h).2) with f3.
  rewrite (call_harness_seq p f3 Unload m h [] [CallUnload] Hp);
    [|rewrite H3; apply Htr|change (Unload (f3 h).2) with (f4 h); rewrite H4, H3; unfold unloaded; by rewrite Hs].
  change (λ h, Unload (f3 h).2) with f4.
  rewrite (call_harness_eq p f4 m h [CallUnload] Hp);
    [|rewrite H4; unfold unloaded; by rewrite Hs].
  rewrite H4. cbn [foldl error_callback fst snd].
  assert (∀ st, st ≠ State.kDisabled → harness_state_is st p
    (set_managed_map (<[p:=unloaded h]> (bm_managed_map m)) m) = false) as Hst.
  { intros st Hne. unfold harness_state_is; simpl. rewrite lookup_insert_eq.
    apply bool_decide_false. unfold unloaded. by rewrite Hs. }
  by rewrite !Hst.
Qed.

Lemma unload_idle p m :
  (∀ h, bm_managed_map m !! p = Some h → transient (h_state h) = false) →
  ∀ q, bm_managed_map (unload_one m p) !! q =
    (if decide (p = q) then unloaded <$> bm_managed_map m !! q else bm_managed_map m !! q).
Proof.
  intros Hidle q. destruct (bm_managed_map m !! p) as [h|] eqn:Hp.
  - specialize (Hidle h eq_refl). destruct (decide (h_state h = State.kReady)) as [Hs|Hs].
    + rewrite (unload_ready p h m Hp Hs). simpl. case_decide as Hd; [subst q|by rewrite lookup_insert_ne].
      by rewrite lookup_insert_eq, Hp.
    + unfold unload_one, harness_state_is. rewrite !Hp, bool_decide_false by done.
      rewrite Hp, bool_decide_false by (by destruct (h_state h)).
      rewrite Hp, bool_decide_false by (by destruct (h_state h)).
      case_decide as Hd; [subst q|done]. rewrite Hp. simpl. unfold unloaded.
      by destruct (h_state h).
  - unfold unload_one, harness_state_is. rewrite !Hp. case_decide as Hd; [subst q|done]. by rewrite Hp.
Qed.

Lemma unload_all_lookup ks m :
  NoDup ks → (∀ p h, bm_managed_map m !! p = Some h → transient (h_state h) = false) →
  ∀ q, bm_managed_map (foldl unload_one m ks) !! q =
    (if decide (q ∈ ks) then unloaded <$> bm_managed_map m !! q else bm_managed_map m !! q).
Proof.
  revert m. induction ks as [|p ks IH]; intros m Hnd Hidle q; cbn [foldl].
  { case_decide as Hd; [by apply not_elem_of_nil in Hd|done]. }
  apply NoDup_cons in Hnd as [Hnin Hnd]. rewrite IH; [|done|].
  - rewrite unload_idle by eauto. repeat case_decide; subst; set_solver.
  - intros p' h'. rewrite unload_idle by eauto. case_decide; [|eauto].
    intros (h&Hh&->)%fmap_Some. specialize (Hidle _ _ Hh). unfold unloaded.
    by destruct (h_state h) eqn:E; simpl; rewrite ?E.
Qed.
End destruction.

(** * Theorems *)

Section theorems.
Context {A : Type} (retries threads : Z) (bus hook : bool) (tracker : option ResourceTracker).

(** The managers a program starts from. *)
Definition initial : BasicManager A := Create retries threads bus hook tracker.

Lemma initial_inv : sys_inv (mkSys initial false []).
Proof.
  unfold sys_inv; simpl. split_and!; [| |done].
  - split; try done; try by intros; rewrite ?lookup_empty in *; simplify_eq.
    + by intros ? ? ?%not_elem_of_nil.
    + by intros ? ?%not_elem_of_nil.
    + constructor.
  - split; try done. by intros ? ?%not_elem_of_nil.
Qed.

Lemma reachable_sys_inv ls s : reachable initial ls s → sys_inv s.
Proof.
  induction 1 as [|ls l s s' _ IH Hwf Hstep]; [apply initial_inv|]. by eapply step_inv.
Qed.

(** C1: whatever the interleaving, the manager never uses a harness after it is
    gone, and every handle it can give out belongs to a servable it manages
    whose loader has been loaded and not unloaded. *)
Theorem manager_serves_only_loaded ls (s : Sys A) :
  reachable initial ls s →
  bm_use_after_free (sys_manager s) = false ∧
  ∀ k x, (k, x) ∈ bm_handles_map (sys_manager s) →
    ∃ p h, bm_managed_map (sys_manager s) !! p = Some h ∧ h_id h = x.1 ∧
      h_loader h = x.2 ∧ loader_phase (h_trace h) = Some LLoaded.
Proof.
  intros (Hheap&_&Huaf)%reachable_sys_inv. split; [done|]. intros k x Hx.
  destruct (hi_served _ _ _ _ _ Hheap k x Hx) as (p&h&Hp&Hid&Hl&Hs). exists p, h.
  split_and!; try done. apply (good_phase _ _ _ (hi_good _ _ _ _ _ Hheap p h Hp)).
  by destruct (h_state h).
Qed.

(** C2: a servable the manager agrees to stop managing is never one whose loader
    is loaded, it is not in the serving map, and nothing will use the harness that is
    dropped: a thread of a request for it has at most to update the map, to publish the
    state of the servable, to end its execution and to call back. *)
Theorem stop_managing_drops_no_loaded ls (s : Sys A) (i : ServableId) (m' : BasicManager A) :
  reachable initial ls s → StopManagingServable i (sys_manager s) = (StatusOK, m') →
  ∃ p h, bm_managed_map (sys_manager s) !! p = Some h ∧ h_id h = i ∧
    bm_managed_map m' = delete p (bm_managed_map (sys_manager s)) ∧
    loader_phase (h_trace h) ≠ Some LLoaded ∧
    (∀ k x, (k, x) ∈ bm_handles_map (sys_manager s) → x.1 ≠ i) ∧
    (∀ t, t ∈ sys_threads s → lur_id (thread_request t) = i → past_harness t = true).
Proof.
  intros (Hheap&_&_)%reachable_sys_inv Hstop.
  destruct (StopManagingServable_cases i (sys_manager s)) as [(p&h&Hp&Hid&Hs&E)|(e&He&E)];
    rewrite E in Hstop; [|by simplify_eq]. injection Hstop as <-. exists p, h.
  pose proof (hi_good _ _ _ _ _ Hheap p h Hp) as Hg. split_and!; try done.
  - destruct Hg as [[_ (q&Hq&Hph)] _ He]. destruct Hs as [Hs|[Hs|Hs]]; rewrite Hs in *.
    + by rewrite Hq, Hph.
    + by rewrite He.
    + by rewrite Hq, Hph.
  - intros k x Hx Heq. destruct (hi_served _ _ _ _ _ Hheap k x Hx) as (q&g&Hq&Hgid&_&Hgs).
    assert (q = p) as -> by (eapply (hi_unique _ _ _ _ _ Hheap); [done..|congruence]).
    simplify_eq. by destruct Hs as [Hs|[Hs|Hs]]; rewrite Hs in Hgs.
  - intros t Ht Hti. assert (Htr : transient (h_state h) = false) by (by destruct Hs as [->|[->| ->]]).
    pose proof (idle_not_owned _ _ _ _ _ _ _ t Hheap Hp Htr Ht) as Hno. rewrite Hid, <-Hti in Hno. by destruct t.
Qed.

(** [num_ongoing_load_unload_executions_] is exactly the number of requests
    in their execution phase, so it never goes below zero; at most one request
    is in its decision phase; and a request sleeps there only while some
    execution is under way. *)
Theorem ongoing_executions_exact ls (s : Sys A) :
  reachable initial ls s →
  bm_num_ongoing_load_unload_executions (sys_manager s) =
    Z.of_nat (length (filter (λ t, executing t = true) (sys_threads s))) ∧
  length (filter (λ t, in_decision t = true) (sys_threads s)) ≤ 1 ∧
  ∀ t, t ∈ sys_threads s → asleep t = true →
    (0 < bm_num_ongoing_load_unload_executions (sys_manager s))%Z.
Proof.
  intros (_&[Hn Hd Hsl]&_)%reachable_sys_inv. split_and!; [done| |done].
  rewrite Hd. destruct (sys_deciding s); lia.
Qed.

(** An unload that was accepted succeeds: the status a thread is about to
    report for an unload request is OK. *)
Theorem accepted_unload_succeeds ls (s : Sys A) (r : LoadOrUnloadRequest) (st : Status) :
  reachable initial ls s → TDone r st ∈ sys_threads s → lur_kind r = kUnloadRequest →
  st = StatusOK.
Proof.
  intros (Hheap&_&_)%reachable_sys_inv Ht Hk.
  destruct (hi_threads _ _ _ _ _ Hheap _ Ht) as [Hl _]. by apply Hl.
Qed.

(** Requests are answered when no client has a handle of an old map, so that no update of
    the serving map waits. From every reachable state no schedule of
    the threads runs for ever, and when no thread can run any more there is none
    left, every request ever made has had its callback called exactly once, no
    execution is counted and no servable is left between two states. *)
Theorem requests_answered ls (s : Sys A) :
  reachable initial ls s →
  Acc (flip runs) s ∧
  ∀ s', rtc runs s s' → (¬ ∃ s'', runs s' s'') →
    sys_threads s' = [] ∧ dones (sys_manager s') ≡ₚ omap label_request ls ∧
    bm_num_ongoing_load_unload_executions (sys_manager s') = 0%Z ∧
    ∀ p h, bm_managed_map (sys_manager s') !! p = Some h → transient (h_state h) = false.
Proof.
  intros Hr. split; [by apply runs_acc, (reachable_sys_inv ls)|]. intros s' Hruns Hstuck.
  assert (∃ ls', reachable initial ls' s' ∧ omap label_request ls' = omap label_request ls)
    as (ls'&Hr'&Hls).
  { revert ls Hr Hstuck. induction Hruns as [s|s s1 s2 (k&a&Hstep) _ IH]; intros ls Hr Hstuck;
      [by exists ls|].
    destruct (IH (ls ++ [LRun k a])) as (ls'&?&Hls); [by econstructor|done|].
    exists ls'. split; [done|]. by rewrite Hls, omap_app, app_nil_r. }
  pose proof (reachable_sys_inv ls' s' Hr') as Hinv.
  destruct (decide (sys_threads s' = [])) as [Hnil|Hne];
    [|by destruct Hstuck; apply runs_progress].
  pose proof (reachable_answers initial ls' s' eq_refl Hr') as Hans.
  rewrite Hnil, app_nil_r, Hls in Hans.
  destruct Hinv as (Hheap&[Hn _ _]&_). rewrite Hnil in Hn, Hheap. split_and!; try done.
  intros p h Hp. apply not_true_iff_false. intros Htr.
  by apply (hi_owned _ _ _ _ _ Hheap p h Hp), not_elem_of_nil in Htr.
Qed.

(** The transition system contains the handler as written: from a reachable
    state in which no request sleeps in its decision phase, if
    [HandleLoadOrUnloadRequest], run from start to end on a scheduled request,
    leaves the manager [m'], then the steps of that request's thread lead to
    [m'] with the other threads as they were. *)
Theorem handler_is_a_schedule ls (s : Sys A) (r : LoadOrUnloadRequest) (rest : list Thread)
    (rc : option nat → Estimate) (rs : nat → Estimate) (load : nat → Status) (flag : bool)
    (m' : BasicManager A) :
  reachable initial ls s → sys_deciding s = false → sys_threads s = TQueued r :: rest →
  (∀ p h, FindHarnessInMap (lur_id r) (sys_manager s) = Some (p, h) →
     h_cancel_load_retry h = flag) →
  HandleLoadOrUnloadRequest rc rs load (λ _, flag) r (sys_manager s) = Some m' →
  rtc runs s (mkSys m' false rest).
Proof.
  destruct s as [m d ts]. simpl. intros Hr -> -> Hflag Hh.
  eapply handler_runs; [|done|exact Hh]. by eapply reachable_sys_inv.
Qed.

(** C3: when the manager is destroyed, after its executors have finished all
    requests, [UnloadAllServables] leaves no servable loaded, and it unloads the
    ready ones and touches no other. *)
Theorem destructor_unloads_all ls (s : Sys A) p h :
  reachable initial ls s → sys_threads s = [] →
  bm_managed_map (UnloadAllServables (sys_manager s)) !! p = Some h →
  loader_phase (h_trace h) ≠ Some LLoaded ∧
  ∃ h0, bm_managed_map (sys_manager s) !! p = Some h0 ∧
    h_trace h = h_trace h0 ++ (if decide (h_state h0 = State.kReady) then [CallUnload] else []).
Proof.
  intros (Hheap&_&_)%reachable_sys_inv Hnil. rewrite Hnil in Hheap.
  unfold UnloadAllServables. rewrite unload_all_lookup.
  - intros Hp. assert (∃ h0, bm_managed_map (sys_manager s) !! p = Some h0 ∧ h = unloaded h0)
      as (h0&Hp0&->).
    { case_decide as Hd; [apply fmap_Some in Hp as (h0&?&?); eauto|].
      destruct Hd. apply list_elem_of_fmap. exists (p, h).
      by split; [|apply elem_of_map_to_list]. }
    destruct (hi_good _ _ _ _ _ Hheap p h0 Hp0) as [[_ (q&Hq&Hph)] _ He].
    pose proof (hi_owned _ _ _ _ _ Hheap p h0 Hp0) as Hown. unfold unloaded. split.
    + destruct (h_state h0) eqn:Es; simpl in Hph; rewrite ?Hq, ?Hph; try done;
        try (by specialize (Hown eq_refl); apply not_elem_of_nil in Hown).
      * simpl. by rewrite loader_phase_snoc, Hq, Hph.
      * by rewrite <-Hq, (He eq_refl).
    + exists h0. split; [done|]. by destruct (h_state h0); simpl; rewrite ?app_nil_r.
  - apply NoDup_fst_map_to_list.
  - intros p' h' Hp'. apply not_true_iff_false. intros Htr.
    by apply (hi_owned _ _ _ _ _ Hheap p' h' Hp'), not_elem_of_nil in Htr.
Qed.
End theorems.

(** * Witnesses *)

Definition run_labels {A} (ls : list (Label A)) (s : Sys A) : option (Sys A) :=
  foldl (λ s l, s ≫= step l) (Some s) ls.

Lemma run_labels_reachable {A} (m0 : BasicManager A) ls s :
  Forall label_wf ls → run_labels ls (mkSys m0 false []) = Some s → reachable m0 ls s.
Proof.
  revert s. induction ls as [|l ls IH] using rev_ind; intros s Hwf Hrun.
  - injection Hrun as <-. constructor.
  - apply Forall_app in Hwf as [Hwf Hl]. unfold run_labels in Hrun. rewrite foldl_app in Hrun.
    simpl in Hrun. destruct (foldl _ _ ls) as [s1|] eqn:E; [|done].
    inversion Hl; subst. econstructor; [by apply IH|done|exact Hrun].
Qed.

(** A manager with two servables: one is loaded on its second try, the load of
    the other is scheduled; an unload of the first has just been carried out. *)
Definition ex_id (v : Z) : ServableId := mkServableId "m" v.

Definition ex_run (st : Status) : Label unit :=
  LRun 0 (mkAnswers (λ _, (StatusOK, [])) (λ _, (StatusOK, [])) st).

Definition ex_load : list (Label unit) :=
  [LManage (DataOk (ex_id 1) 0) None; LManage (DataError (ex_id 2) (Internal "bad")) None;
   LRequest (mkRequest kLoadRequest (ex_id 1)); ex_run StatusOK; ex_run StatusOK;
   ex_run StatusOK; ex_run (Internal "flaky"); ex_run StatusOK; ex_run StatusOK;
   ex_run StatusOK; ex_run StatusOK; ex_run StatusOK].

Definition ex_unload : list (Label unit) :=
  ex_load ++ LRequest (mkRequest kUnloadRequest (ex_id 1)) ::
    replicate 6 (ex_run StatusOK).

Definition ex_sys (ls : list (Label unit)) : Sys unit :=
  default (mkSys (initial 1 1 true true None) false [])
    (run_labels ls (mkSys (initial 1 1 true true None) false [])).

Ltac reach := apply run_labels_reachable; [repeat constructor|vm_compute; reflexivity].

Lemma manager_serves_only_loaded_witness :
  GetUntypedServableHandle (Latest "m") (sys_manager (ex_sys ex_load)) =
    (StatusOK, Some (ex_id 1, Some 0)) ∧
  bm_use_after_free (sys_manager (ex_sys ex_load)) = false.
Proof.
  split; [vm_compute; reflexivity|].
  apply (manager_serves_only_loaded 1 1 true true None ex_load (ex_sys ex_load)). reach.
Defined.

Lemma destructor_unloads_all_witness :
  ∃ h, bm_managed_map (UnloadAllServables (sys_manager (ex_sys ex_load))) !! 0 = Some h ∧
    loader_phase (h_trace h) ≠ Some LLoaded.
Proof.
  eexists. split; [vm_compute; reflexivity|].
  apply (destructor_unloads_all 1 1 true true None ex_load (ex_sys ex_load) 0);
    [reach|vm_compute; reflexivity..].
Defined.

(** The unload of version 1 has yet to call back. *)
Lemma stop_managing_drops_no_loaded_witness :
  sys_threads (ex_sys ex_unload) = [TDone (mkRequest kUnloadRequest (ex_id 1)) StatusOK] ∧
  ∃ p h, bm_managed_map (sys_manager (ex_sys ex_unload)) !! p = Some h ∧ h_id h = ex_id 1 ∧
    loader_phase (h_trace h) ≠ Some LLoaded.
Proof.
  split; [vm_compute; reflexivity|].
  destruct (stop_managing_drops_no_loaded 1 1 true true None ex_unload (ex_sys ex_unload) (ex_id 1)
    (StopManagingServable (ex_id 1) (sys_manager (ex_sys ex_unload))).2) as (p&h&Hp&Hid&_&Hl&_).
  - reach.
  - vm_compute. reflexivity.
  - exists p, h. split; [assumption|split; assumption].
Defined.

Lemma ongoing_executions_exact_witness :
  bm_num_ongoing_load_unload_executions (sys_manager (ex_sys (take 6 ex_load))) = 1%Z.
Proof.
  destruct (ongoing_executions_exact 1 1 true true None (take 6 ex_load)
    (ex_sys (take 6 ex_load))) as [H _]; [reach|].
  rewrite H. vm_compute. reflexivity.
Defined.

Lemma accepted_unload_succeeds_witness :
  ∃ st, sys_threads (ex_sys ex_unload) = [TDone (mkRequest kUnloadRequest (ex_id 1)) st] ∧
    st = StatusOK.
Proof.
  exists StatusOK. split; [vm_compute; reflexivity|].
  apply (accepted_unload_succeeds 1 1 true true None ex_unload (ex_sys ex_unload)
    (mkRequest kUnloadRequest (ex_id 1))); [reach|vm_compute; left|reflexivity].
Defined.

Lemma requests_answered_witness : Acc (flip runs) (ex_sys (take 6 ex_load)).
Proof.
  apply (requests_answered 1 1 true true None (take 6 ex_load)). reach.
Defined.

Lemma handler_is_a_schedule_witness :
  ∃ m', rtc runs (ex_sys (take 3 ex_load)) (mkSys m' false []).
Proof.
  eexists. eapply (handler_is_a_schedule 1 1 true true None (take 3 ex_load)
    (ex_sys (take 3 ex_load)) (mkRequest kLoadRequest (ex_id 1)) []
    (λ _, (StatusOK, [])) (λ _, (StatusOK, [])) (λ _, StatusOK) false).
  - reach.
  - vm_compute. reflexivity.
  - vm_compute. reflexivity.
  - intros p h H. vm_compute in H. injection H as _ <-. reflexivity.
  - vm_compute. reflexivity.
Defined.
