(* ===== verification/AspiredVersionsManager.v ===== *)
(** The aspired-versions manager:
    [tensorflow_serving/core/aspired_versions_manager.cc].

    A source tells the manager which versions of a servable it should aspire to;
    the manager queues the request, and a periodic thread flushes versions that
    are finished, takes over queued requests and asks the policy for one action.
    The state of a servable version kept by the basic manager is extended with
    the flag [is_aspired].  The policy is any instance of the class
    [AspiredVersionPolicy]; the theorems ask for [LawfulPolicy].

    [by_id] is the abstract state of a basic manager, a finite map from servable
    ids to harnesses; the operations this component calls are shown to act on it
    as map operations, and the theorems are stated on it. *)
From S2P Require Import Prelude Status Servable LoaderHarness VersionPolicy Resources BasicManager ManagerSystem.

(** * Data *)

(** The requests pending for each servable name: a [std::map], in key order. *)
Definition AspiredVersionsMap : Type := list (string * list (ServableData nat)).

(** The members; [Aspired] is the [bool] of the basic manager's harnesses. *)
Record AspiredVersionsManager := mkAVM {
  pending_aspired_versions_requests : AspiredVersionsMap;
  basic_manager : BasicManager bool }.

(** * Helpers *)

(** [CompareActions::OrderActions] and [CompareActions]. *)
Definition OrderActions (lhs rhs : ServableAction) : ServableAction :=
  match act_action lhs with
  | ActionUnload => lhs
  | ActionLoad => if decide (act_action rhs = ActionUnload) then rhs else lhs
  end.

Definition CompareActions (lhs rhs : option ServableAction) : bool :=
  match lhs, rhs with
  | None, _ => false
  | Some _, None => true
  | Some l, Some r => negb (bool_decide (act_action (OrderActions l r) = act_action r))
  end.

(** [std::sort] with [CompareActions], equal elements kept in order. *)
Fixpoint insert_action (a : option ServableAction) (l : list (option ServableAction)) :
    list (option ServableAction) :=
  match l with
  | [] => [a]
  | b :: rest => if CompareActions b a then b :: insert_action a rest else a :: b :: rest
  end.

Definition sort_actions (l : list (option ServableAction)) : list (option ServableAction) :=
  foldr insert_action [] l.

(** [ValidateAspiredVersions]. *)
Fixpoint ValidateAspiredVersions (servable_name : string)
    (versions : list (ServableData nat)) : Status :=
  match versions with
  | [] => StatusOK
  | version :: rest =>
      if negb (String.eqb servable_name (sid_name (sd_id version))) then
        InvalidArgument ("Servable name: " +:+ servable_name +:+
          " doesn't match name in servable version: " +:+ sid_name (sd_id version))
      else ValidateAspiredVersions servable_name rest
  end.

(** [GetVersionNumbers]. *)
Definition GetVersionNumbers (versions : list (ServableData nat)) : gset Z :=
  list_to_set ((λ v, sid_version (sd_id v)) <$> versions).

(** [additional_state->is_aspired]; every harness of this manager has the flag. *)
Definition is_aspired (s : ServableStateSnapshot bool) : bool :=
  default false (snap_additional_state s).

(** [std::map::operator=] through [operator[]]. *)
Fixpoint map_assign (k : string) (v : list (ServableData nat)) (l : AspiredVersionsMap) :
    AspiredVersionsMap :=
  match l with
  | [] => [(k, v)]
  | (k', v') :: rest =>
      match String.compare k k' with
      | Lt => (k, v) :: (k', v') :: rest
      | Eq => (k, v) :: rest
      | Gt => (k', v') :: map_assign k v rest
      end
  end.

(** * Operations *)

(** [EnqueueAspiredVersionsRequest]. *)
Definition EnqueueAspiredVersionsRequest (servable_name : string)
    (versions : list (ServableData nat)) (x : AspiredVersionsManager) :
    AspiredVersionsManager :=
  if negb (ok (ValidateAspiredVersions servable_name versions)) then x
  else mkAVM (map_assign servable_name versions (pending_aspired_versions_requests x))
         (basic_manager x).

(** [ProcessAspiredVersionsRequest]: the loop over the current versions, the loop
    over the requested ones, and the whole. *)
Definition unaspire_step (next_aspired_versions : gset Z) (m : BasicManager bool)
    (state_snapshot : ServableStateSnapshot bool) : BasicManager bool :=
  if decide (sid_version (snap_id state_snapshot) ∈ next_aspired_versions) then m
  else CancelLoadServableRetry (snap_id state_snapshot)
         (SetAdditionalServableState (snap_id state_snapshot) false m).

Definition add_step (additions : gset Z) (m : BasicManager bool) (version : ServableData nat) :
    BasicManager bool :=
  if decide (sid_version (sd_id version) ∈ additions)
  then (ManageServableWithAdditionalState version true m).2 else m.

Definition ProcessAspiredVersionsRequest (servable_name : string)
    (versions : list (ServableData nat)) (m : BasicManager bool) : BasicManager bool :=
  let next_aspired_versions := GetVersionNumbers versions in
  let state_snapshots := GetManagedServableStateSnapshots servable_name m in
  let current_aspired_versions : gset Z :=
    list_to_set ((λ s, sid_version (snap_id s)) <$>
      filter (λ s, is_aspired s = true) state_snapshots) in
  let m := foldl (unaspire_step next_aspired_versions) m state_snapshots in
  let additions := next_aspired_versions ∖ current_aspired_versions in
  foldl (add_step additions) m versions.

(** [ContainsAnyReaspiredVersions]. *)
Definition ContainsAnyReaspiredVersions (servable_name : string)
    (versions : list (ServableData nat)) (m : BasicManager bool) : bool :=
  existsb (λ s, negb (is_aspired s) &&
             bool_decide (sid_version (snap_id s) ∈ GetVersionNumbers versions))
    (GetManagedServableStateSnapshots servable_name m).

(** The snapshots [GetNextAction] passes to the policy. *)
Definition aspired_snapshot (s : ServableStateSnapshot bool) : AspiredServableStateSnapshot :=
  mkAspired (snap_id s) (snap_state s) (is_aspired s).

Definition aspired_state_snapshots (servable_name : string) (m : BasicManager bool) :
    list AspiredServableStateSnapshot :=
  aspired_snapshot <$> GetManagedServableStateSnapshots servable_name m.

(** [GetNextAction]. *)
Definition Manager_GetNextAction `{AspiredVersionPolicy} (m : BasicManager bool) :
    option ServableAction :=
  let actions :=
    (λ servable_name, GetNextAction (aspired_state_snapshots servable_name m)) <$>
      GetManagedServableNames m in
  match sort_actions actions with
  | a :: _ => a
  | [] => None
  end.

(** [PerformAction]: the request it schedules, if it is accepted. *)
Definition PerformAction (action : ServableAction) (m : BasicManager bool) :
    option LoadOrUnloadRequest * BasicManager bool :=
  match act_action action with
  | ActionLoad => LoadServable (act_id action) m
  | ActionUnload => UnloadServable (act_id action) m
  end.

(** [FlushServables]. *)
Definition flush_step (m : BasicManager bool) (s : ServableStateSnapshot bool) :
    BasicManager bool :=
  if (bool_decide (snap_state s = State.kNew) || bool_decide (snap_state s = State.kDisabled) ||
      bool_decide (snap_state s = State.kError)) && negb (is_aspired s)
  then (StopManagingServable (snap_id s) m).2 else m.

Definition FlushServables (m : BasicManager bool) : BasicManager bool :=
  foldl (λ m servable_name,
    foldl flush_step m (GetManagedServableStateSnapshots servable_name m))
    m (GetManagedServableNames m).

(** [HandlePendingAspiredVersionsRequests]: the requests that stay, and the manager. *)
Fixpoint handle_pending (requests : AspiredVersionsMap) (m : BasicManager bool) :
    AspiredVersionsMap * BasicManager bool :=
  match requests with
  | [] => ([], m)
  | (servable_name, versions) :: rest =>
      if ContainsAnyReaspiredVersions servable_name versions m then
        let '(kept, m) := handle_pending rest m in ((servable_name, versions) :: kept, m)
      else handle_pending rest (ProcessAspiredVersionsRequest servable_name versions m)
  end.

Definition HandlePendingAspiredVersionsRequests (x : AspiredVersionsManager) :
    AspiredVersionsManager :=
  let '(kept, m) := handle_pending (pending_aspired_versions_requests x) (basic_manager x) in
  mkAVM kept m.

(** [InvokePolicyAndExecuteAction]. *)
Definition InvokePolicyAndExecuteAction `{AspiredVersionPolicy} (m : BasicManager bool) :
    option LoadOrUnloadRequest * BasicManager bool :=
  match Manager_GetNextAction m with
  | None => (None, m)
  | Some next_action => PerformAction next_action m
  end.

(** One round of the periodic thread, undisturbed. *)
Definition ManageState `{AspiredVersionPolicy} (x : AspiredVersionsManager) :
    option LoadOrUnloadRequest * AspiredVersionsManager :=
  let x := mkAVM (pending_aspired_versions_requests x) (FlushServables (basic_manager x)) in
  let x := HandlePendingAspiredVersionsRequests x in
  let '(request, m) := InvokePolicyAndExecuteAction (basic_manager x) in
  (request, mkAVM (pending_aspired_versions_requests x) m).

(** * The basic manager as a map of servables *)

Definition by_id {A} (m : BasicManager A) : gmap ServableId (LoaderHarness A) :=
  list_to_map ((λ ph, (h_id ph.2, ph.2)) <$> map_to_list (bm_managed_map m)).

(** What the invariant of the basic manager gives this component. *)
Record managed_ok {A} (m : BasicManager A) : Prop := {
  mo_unique : unique_ids (bm_managed_map m);
  mo_next : ∀ p, bm_next_address m ≤ p → bm_managed_map m !! p = None;
  mo_inv : ∀ p h, bm_managed_map m !! p = Some h → harness_inv h }.

Section by_id.
Context {A : Type}.
Implicit Types (m : BasicManager A) (h : LoaderHarness A).

Lemma by_id_lookup m i h :
  unique_ids (bm_managed_map m) →
  by_id m !! i = Some h ↔ ∃ p, bm_managed_map m !! p = Some h ∧ h_id h = i.
Proof.
  intros Hu. unfold by_id. rewrite <-elem_of_list_to_map.
  - rewrite list_elem_of_fmap. split.
    + intros ([p g]&[= -> ->]&Hp%elem_of_map_to_list). eauto.
    + intros (p&Hp&<-). exists (p, h). split; [done|]. by apply elem_of_map_to_list.
  - rewrite <-list_fmap_compose. apply NoDup_fmap_2_strong; [|apply NoDup_map_to_list].
    intros [p g] [q g'] Hp%elem_of_map_to_list Hq%elem_of_map_to_list Heq. simpl in Heq.
    assert (p = q) as -> by (by eapply Hu). congruence.
Qed.

Lemma by_id_find m i :
  unique_ids (bm_managed_map m) → snd <$> FindHarnessInMap i m = by_id m !! i.
Proof.
  intros Hu. destruct (FindHarnessInMap i m) as [[p h]|] eqn:E; simpl; symmetry.
  - apply FindHarnessInMap_Some in E as [Hp Hid]. apply by_id_lookup; eauto.
  - apply eq_None_not_Some. intros [h (p&Hp&Hid)%by_id_lookup]; [|done].
    by apply (FindHarnessInMap_None _ _ _ _ E) in Hp.
Qed.

(** The snapshots of a name are those of the map's harnesses of that name. *)
Lemma elem_of_snapshots m name s :
  unique_ids (bm_managed_map m) →
  s ∈ GetManagedServableStateSnapshots name m ↔
  ∃ i h, by_id m !! i = Some h ∧ sid_name i = name ∧ s = loader_state_snapshot h.
Proof.
  intros Hu. unfold GetManagedServableStateSnapshots. rewrite list_elem_of_fmap. split.
  - intros ([p h]&->&[Hn Hp%elem_of_map_to_list]%list_elem_of_filter). simpl in Hn.
    exists (h_id h), h. split_and!; [|done|done]. apply by_id_lookup; eauto.
  - intros (i&h&(p&Hp&<-)%by_id_lookup&Hn&->); [|done]. exists (p, h). split; [done|].
    by apply list_elem_of_filter; split; [|apply elem_of_map_to_list].
Qed.

Lemma snapshot_ids_nodup m name :
  unique_ids (bm_managed_map m) → NoDup (snap_id <$> GetManagedServableStateSnapshots name m).
Proof.
  intros Hu. unfold GetManagedServableStateSnapshots. rewrite <-list_fmap_compose.
  apply NoDup_fmap_2_strong; [|apply NoDup_filter, NoDup_map_to_list].
  intros [p g] [q g'] [_ Hp%elem_of_map_to_list]%list_elem_of_filter
    [_ Hq%elem_of_map_to_list]%list_elem_of_filter Heq. simpl in Heq.
  assert (p = q) as -> by (by eapply Hu). congruence.
Qed.

(** ** Operations *)

Lemma managed_ok_core m m' :
  bm_managed_map m' = bm_managed_map m → bm_next_address m' = bm_next_address m →
  managed_ok m → managed_ok m'.
Proof. intros Hm Hn [??]. split; by rewrite Hm, ?Hn. Qed.

Lemma by_id_managed m m' : bm_managed_map m' = bm_managed_map m → by_id m' = by_id m.
Proof. unfold by_id. by intros ->. Qed.

(** The harness at an address changes. *)
Lemma by_id_update m m' p h h' :
  managed_ok m → bm_managed_map m !! p = Some h → h_id h' = h_id h → harness_inv h' →
  bm_managed_map m' = <[p:=h']> (bm_managed_map m) → bm_next_address m' = bm_next_address m →
  managed_ok m' ∧ by_id m' = <[h_id h := h']> (by_id m).
Proof.
  intros [Hu Hn Hi] Hp Hid Hinv Hm' Hn'.
  assert (unique_ids (bm_managed_map m')) as Hu'.
  { rewrite Hm'. by eapply unique_ids_insert. }
  split.
  - split; [done| |].
    + intros q. rewrite Hn', Hm'. intros Hq. rewrite lookup_insert_ne; [auto|].
      intros <-. by rewrite Hn in Hp.
    + intros q g. rewrite Hm', lookup_insert_Some. intros [[<- <-]|[_ ?]]; eauto.
  - apply map_eq. intros i. apply option_eq. intros g.
    rewrite by_id_lookup, lookup_insert_Some, by_id_lookup by done.
    rewrite Hm'. setoid_rewrite lookup_insert_Some. split.
    + intros (q&[[<- <-]|[Hne Hq]]&<-); [by left|]. right. split; [|eauto].
      intros Heq. apply Hne. by eapply Hu.
    + intros [[<- <-]|[Hne (q&Hq&<-)]]; [exists p; by auto|]. exists q. split; [|done].
      right. split; [|done]. intros <-. congruence.
Qed.

Lemma by_id_call_harness m p f h :
  managed_ok m → bm_managed_map m !! p = Some h →
  h_id (f h).2 = h_id h → harness_inv (f h).2 →
  managed_ok (call_harness p f m).2 ∧
  by_id (call_harness p f m).2 = <[h_id h := (f h).2]> (by_id m) ∧
  (call_harness p f m).1 = (f h).1.
Proof.
  intros Hok Hp Hid Hinv. destruct (call_harness_spec p f m h Hp) as (m'&->&Hc). simpl.
  assert (bm_next_address m' = bm_next_address m) by (unfold core in Hc; simpl in Hc; congruence).
  destruct (by_id_update m m' p h (f h).2) as [??]; try done.
  by rewrite (managed_of_core _ _ Hc).
Qed.

(** [GetHealthyHarness] in terms of the map. *)
Lemma by_id_healthy m i :
  managed_ok m →
  (∃ p h, by_id m !! i = Some h ∧ bm_managed_map m !! p = Some h ∧ h_id h = i ∧
     h_state h ≠ State.kError ∧ GetHealthyHarness i m = (StatusOK, Some p)) ∨
  (∃ st, ok st = false ∧ GetHealthyHarness i m = (st, None) ∧
     ∀ h, by_id m !! i = Some h → h_state h = State.kError).
Proof.
  intros [Hu Hn Hi]. destruct (GetHealthyHarness i m) as [st [p|]] eqn:E.
  - destruct (GetHealthyHarness_cases i m) as [(q&h&E'&Hq&Hid)|(?&_&E')]; [|congruence].
    rewrite E in E'. injection E' as -> <-. left. exists p, h.
    split_and!; try done; [by apply by_id_lookup; eauto|].
    apply GetHealthyHarness_inv in E as (g&Hg&_&Hok). rewrite Hq in Hg. injection Hg as <-.
    rewrite (inv_error h (Hi p h Hq)). congruence.
  - right. exists st. split_and!; [by apply not_ok_iff, (GetHealthyHarness_none i m)|done|].
    intros h (p&Hp&<-)%by_id_lookup; [|done]. apply (inv_error h (Hi p h Hp)).
    apply not_true_iff_false. intros Hok.
    by rewrite (GetHealthyHarness_found m p h Hu Hp Hok) in E.
Qed.

Lemma SetAdditionalServableState_by_id m i a :
  managed_ok m →
  managed_ok (SetAdditionalServableState i a m) ∧
  by_id (SetAdditionalServableState i a m) = alter (set_additional_state a) i (by_id m).
Proof.
  intros Hok. pose proof (by_id_find m i (mo_unique m Hok)) as Hfind.
  unfold SetAdditionalServableState. destruct (FindHarnessInMap i m) as [[p h]|] eqn:E.
  - apply FindHarnessInMap_Some in E as [Hp <-]. simpl in Hfind.
    destruct (by_id_update m (set_managed_map (alter (set_additional_state a) p
      (bm_managed_map m)) m) p h (set_additional_state a h)) as [? ->]; try done.
    + destruct (mo_inv m Hok p h Hp). by split.
    + simpl. apply map_eq. intros q. destruct (decide (p = q)) as [<-|].
      * by rewrite lookup_alter_eq, lookup_insert_eq, Hp.
      * by rewrite lookup_alter_ne, lookup_insert_ne.
    + split; [done|]. apply map_eq. intros j. destruct (decide (h_id h = j)) as [<-|].
      * by rewrite lookup_alter_eq, lookup_insert_eq, <-Hfind.
      * by rewrite lookup_alter_ne, lookup_insert_ne.
  - split; [done|]. apply map_eq. intros j. destruct (decide (i = j)) as [<-|].
    + by rewrite lookup_alter_eq, <-Hfind.
    + by rewrite lookup_alter_ne.
Qed.

(** A cancellation leaves the part of a harness the policies see. *)
Lemma CancelLoadServableRetry_by_id m i :
  managed_ok m →
  managed_ok (CancelLoadServableRetry i m) ∧
  ∀ j, loader_state_snapshot <$> by_id (CancelLoadServableRetry i m) !! j =
       loader_state_snapshot <$> by_id m !! j.
Proof.
  intros Hok. unfold CancelLoadServableRetry.
  destruct (by_id_healthy m i Hok) as [(p&h&Hi&Hp&Hid&_&->)|(st&Hst&->&_)].
  2: { destruct st; [done|]. by split. }
  destruct (by_id_call_harness m p (λ h, (StatusOK, set_cancel_load_retry true h)) h)
    as (?&Hb&_); try done.
  { destruct (mo_inv m Hok p h Hp). by split. }
  split; [done|]. intros j. rewrite Hb, Hid. destruct (decide (i = j)) as [<-|].
  - by rewrite lookup_insert_eq, Hi.
  - by rewrite lookup_insert_ne.
Qed.

Lemma ManageServable_by_id m (servable : ServableData nat) a :
  managed_ok m → (∀ i e, servable = DataError i e → ok e = false) →
  managed_ok (ManageServableInternal servable a m).2 ∧
  ((∃ h, by_id m !! sd_id servable = Some h ∧
     by_id (ManageServableInternal servable a m).2 = by_id m ∧
     ok (ManageServableInternal servable a m).1 = false) ∨
   (by_id m !! sd_id servable = None ∧ (ManageServableInternal servable a m).1 = StatusOK ∧
    ∃ h, by_id (ManageServableInternal servable a m).2 = <[sd_id servable := h]> (by_id m) ∧
      h_id h = sd_id servable ∧ h_additional_state h = a ∧
      h_state h = match servable with DataOk _ _ => State.kNew | DataError _ _ => State.kError end)).
Proof.
  intros Hok Hwf. pose proof (by_id_find m (sd_id servable) (mo_unique m Hok)) as Hfind.
  unfold ManageServableInternal.
  destruct (FindHarnessInMap (sd_id servable) m) as [[p h]|] eqn:E; simpl in Hfind.
  { split; [done|]. left. by exists h. }
  assert (∀ h m1, h_id h = sd_id servable → harness_inv h → core m1 = core m →
    managed_ok (emplace_harness h m1) ∧
    by_id (emplace_harness h m1) = <[sd_id servable := h]> (by_id m)) as Hgo.
  { intros h m1 Hid Hinv Hc.
    assert (bm_managed_map m1 = bm_managed_map m ∧ bm_next_address m1 = bm_next_address m)
      as [Hm1 Hn1] by (unfold core in Hc; split; congruence).
    destruct Hok as [Hu Hn Hi].
    assert (unique_ids (bm_managed_map (emplace_harness h m1))) as Hu'.
    { simpl. rewrite Hm1, Hn1. intros p q g g'. rewrite !lookup_insert_Some.
      intros [[<- <-]|[? Hp]] [[<- <-]|[? Hq]] Heq; try done.
      - destruct (FindHarnessInMap_None _ _ _ _ E Hq). congruence.
      - destruct (FindHarnessInMap_None _ _ _ _ E Hp). congruence.
      - by eapply Hu. }
    split; [split; [done|..]; simpl; rewrite Hm1, Hn1|].
    - intros p Hp. rewrite lookup_insert_ne by lia. apply Hn. lia.
    - intros p g. rewrite lookup_insert_Some. intros [[_ <-]|[_ ?]]; eauto.
    - apply map_eq. intros i. apply option_eq. intros g.
      rewrite by_id_lookup, lookup_insert_Some, by_id_lookup by done.
      simpl. rewrite Hm1, Hn1. setoid_rewrite lookup_insert_Some. split.
      + intros (q&[[<- <-]|[Hne Hq]]&<-); [left; by rewrite Hid|]. right. split; [|eauto].
        intros Heq. by apply (FindHarnessInMap_None _ _ _ _ E Hq).
      + intros [[<- <-]|[Hne (q&Hq&<-)]]; [exists (bm_next_address m); by auto|].
        exists q. split; [|done]. right. split; [|done]. intros <-.
        by rewrite Hn in Hq by lia. }
  set (h0 := newLoaderHarness _ _ _ _).
  assert (harness_inv h0) as Hinv0 by (split; [done|by exists LNotLoaded]).
  destruct servable as [i x|i e]; simpl.
  - destruct (Hgo h0 (PublishOnEventBus (mkServableState (h_id h0) kStart (h_status h0)) m))
      as [? Hb]; [done|done|apply core_publish|].
    split; [done|]. right. split_and!; [done|done|]. by exists h0.
  - rewrite (Hwf i e eq_refl). simpl.
    pose proof (ErrorInternal_fields e h0) as (Hid&_&_).
    destruct (Hgo (Error e h0) (foldl (λ m c, error_callback c m) m (h_trace (Error e h0))))
      as [? Hb]; [done|by apply ErrorInternal_inv; [apply (Hwf i)|]|apply core_error_callbacks|].
    split; [done|]. right. split_and!; [done|done|]. exists (Error e h0).
    split_and!; [done|done| |apply ErrorInternal_state].
    unfold Error, ErrorInternal. by destruct (has_error_callback _).
Qed.

Lemma StopManagingServable_by_id m i :
  managed_ok m →
  managed_ok (StopManagingServable i m).2 ∧
  by_id (StopManagingServable i m).2 =
    match by_id m !! i with
    | Some h => if decide (h_state h = State.kNew ∨ h_state h = State.kError ∨
                           h_state h = State.kDisabled) then delete i (by_id m) else by_id m
    | None => by_id m
    end.
Proof.
  intros Hok. pose proof (by_id_find m i (mo_unique m Hok)) as Hfind.
  unfold StopManagingServable.
  destruct (FindHarnessInMap i m) as [[p h]|] eqn:E; simpl in Hfind; rewrite <-Hfind; [|done].
  apply FindHarnessInMap_Some in E as [Hp Hid]. destruct Hok as [Hu Hn Hi].
  assert (unique_ids (delete p (bm_managed_map m))) as Hu'.
  { intros q r g g'. rewrite !lookup_delete_Some. intros [_ ?] [_ ?]. by apply Hu. }
  assert (managed_ok (set_managed_map (delete p (bm_managed_map m)) m)) as Hok'.
  { split; [done|..]; simpl.
    - intros q Hq. rewrite lookup_delete_None. auto.
    - intros q g. rewrite lookup_delete_Some. intros [_ ?]. eauto. }
  assert (by_id (set_managed_map (delete p (bm_managed_map m)) m) = delete i (by_id m)) as Hb.
  { apply map_eq. intros j. apply option_eq. intros g.
    rewrite by_id_lookup, lookup_delete_Some, by_id_lookup by done. simpl.
    setoid_rewrite lookup_delete_Some. split.
    - intros (q&[Hne Hq]&<-). split; [|eauto]. intros Heq. apply Hne. eapply Hu; [done..|].
      congruence.
    - intros (Hne&q&Hq&<-). exists q. split; [|done]. split; [|done]. intros <-. congruence. }
  repeat case_bool_decide; simpl; case_decide; try done; tauto.
Qed.
End by_id.

(** * Queued requests *)

(** The snapshot of a servable, if it is managed. *)
Definition view (m : BasicManager bool) (i : ServableId) : option (ServableStateSnapshot bool) :=
  loader_state_snapshot <$> by_id m !! i.

(** The same version, no longer aspired. *)
Definition unaspired (s : ServableStateSnapshot bool) : ServableStateSnapshot bool :=
  mkSnapshot (snap_id s) (snap_state s) (Some false).

(** Servable data built from an error carries a status that is not OK. *)
Definition data_ok (v : ServableData nat) : Prop :=
  match v with DataOk _ _ => True | DataError _ e => ok e = false end.

Section requests.
Implicit Types (m : BasicManager bool).

Lemma view_id m i s : managed_ok m → view m i = Some s → snap_id s = i.
Proof.
  intros Hok (h&(p&_&<-)%by_id_lookup&->)%fmap_Some; [done|apply (mo_unique m Hok)].
Qed.

Lemma elem_of_snapshots_view m name s :
  managed_ok m →
  s ∈ GetManagedServableStateSnapshots name m ↔
  view m (snap_id s) = Some s ∧ sid_name (snap_id s) = name.
Proof.
  intros Hok. pose proof (mo_unique m Hok) as Hu. rewrite elem_of_snapshots by done. split.
  - intros (i&h&Hi&Hn&->). pose proof Hi as (p&_&<-)%by_id_lookup; [|done].
    unfold view; simpl. by rewrite Hi.
  - intros [(h&Hi&Hs)%fmap_Some Hn]. eauto.
Qed.

Lemma unaspire_step_view next m s :
  managed_ok m →
  managed_ok (unaspire_step next m s) ∧
  ∀ j, view (unaspire_step next m s) j =
    if decide (j = snap_id s ∧ sid_version j ∉ next) then unaspired <$> view m j else view m j.
Proof.
  intros Hok. unfold unaspire_step. case_decide as Hd.
  { split; [done|]. intros j. case_decide; naive_solver. }
  destruct (SetAdditionalServableState_by_id m (snap_id s) false Hok) as [Hok1 Hb1].
  destruct (CancelLoadServableRetry_by_id _ (snap_id s) Hok1) as [Hok2 Hb2].
  split; [done|]. intros j. unfold view at 1. rewrite Hb2, Hb1. unfold view.
  destruct (decide (snap_id s = j)) as [<-|Hne].
  - rewrite decide_True, lookup_alter_eq by done. by destruct (by_id m !! snap_id s).
  - rewrite decide_False, lookup_alter_ne by naive_solver. done.
Qed.

Lemma unaspire_fold next snaps m :
  managed_ok m →
  managed_ok (foldl (unaspire_step next) m snaps) ∧
  ∀ j, view (foldl (unaspire_step next) m snaps) j =
    if decide (j ∈ snap_id <$> snaps ∧ sid_version j ∉ next) then unaspired <$> view m j
    else view m j.
Proof.
  revert m. induction snaps as [|s snaps IH]; intros m Hok; cbn [foldl].
  { split; [done|]. intros j. rewrite decide_False; [done|].
    rewrite fmap_nil. by intros [?%not_elem_of_nil _]. }
  destruct (unaspire_step_view next m s Hok) as [Hok1 Hv1].
  destruct (IH _ Hok1) as [Hok2 Hv2]. split; [done|]. intros j.
  rewrite Hv2, Hv1, fmap_cons.
  repeat case_decide; try (by destruct (view m j)); set_solver.
Qed.

Lemma add_step_view additions m v :
  managed_ok m → data_ok v →
  managed_ok (add_step additions m v) ∧
  ∀ j, view (add_step additions m v) j = view m j ∨
    view m j = None ∧ j = sd_id v ∧ sid_version j ∈ additions ∧
    ∃ st, view (add_step additions m v) j = Some (mkSnapshot j st (Some true)).
Proof.
  intros Hok Hv. unfold add_step, ManageServableWithAdditionalState. case_decide as Hd; [|by auto].
  destruct (ManageServable_by_id m v (Some true) Hok) as [Hok1 Hcases].
  { intros i e ->. done. }
  split; [done|]. intros j. unfold view.
  destruct Hcases as [(h&_&->&_)|(Hnone&_&h&->&Hid&Ha&Hs)]; [by left|].
  destruct (decide (sd_id v = j)) as [<-|]; [|left; by rewrite lookup_insert_ne].
  right. rewrite Hnone, lookup_insert_eq. split_and!; try done. exists (h_state h). simpl.
  unfold loader_state_snapshot. by rewrite Hid, Ha.
Qed.

(** The whole loop: nothing changes but for the additions, which become aspired. *)
Lemma add_fold additions versions m :
  managed_ok m → Forall data_ok versions →
  managed_ok (foldl (add_step additions) m versions) ∧
  ∀ j, view (foldl (add_step additions) m versions) j = view m j ∧
         (view m j = None → j ∈ sd_id <$> versions → sid_version j ∉ additions) ∨
    view m j = None ∧ j ∈ sd_id <$> versions ∧ sid_version j ∈ additions ∧
    ∃ st, view (foldl (add_step additions) m versions) j = Some (mkSnapshot j st (Some true)).
Proof.
  revert m. induction versions as [|v versions IH]; intros m Hok Hwf; cbn [foldl].
  { split; [done|]. intros j. left. split; [done|]. by intros _ ?%not_elem_of_nil. }
  apply Forall_cons in Hwf as [Hv Hwf].
  destruct (add_step_view additions m v Hok Hv) as [Hok1 Hv1].
  destruct (IH _ Hok1 Hwf) as [Hok2 Hv2]. split; [done|]. intros j.
  rewrite fmap_cons. setoid_rewrite elem_of_cons.
  destruct (Hv1 j) as [E1|(Hn&->&Ha&st&E1)].
  - destruct (Hv2 j) as [[E2 H2]|(Hn2&Hin&Ha&st&E2)]; rewrite E1 in *.
    + left. split; [done|]. intros Hn [->|?]; [|by apply H2].
      intros Ha. unfold add_step in E1. rewrite decide_True in E1 by done.
      destruct (ManageServable_by_id m v (Some true) Hok) as [_ Hcases].
      { intros i e ->. done. }
      unfold ManageServableWithAdditionalState in E1. unfold view in E1, Hn.
      destruct Hcases as [(h&Hh&_)|(Hnone&_&h&Hb&_)].
      * by rewrite Hh in Hn.
      * by rewrite Hb, lookup_insert_eq, Hnone in E1.
    + right. eauto 10.
  - right. destruct (Hv2 (sd_id v)) as [[E2 H2]|(Hn2&_)]; [|congruence].
    split_and!; [done|by left|done|]. exists st. by rewrite E2, E1.
Qed.

Lemma elem_of_version_numbers versions v :
  v ∈ GetVersionNumbers versions ↔ ∃ x, x ∈ versions ∧ sid_version (sd_id x) = v.
Proof.
  unfold GetVersionNumbers. rewrite elem_of_list_to_set, list_elem_of_fmap. naive_solver.
Qed.

(** The aspired versions of a name. *)
Definition aspires m (i : ServableId) : Prop :=
  ∃ s, view m i = Some s ∧ is_aspired s = true.

Lemma ContainsAnyReaspired_false name versions m :
  managed_ok m →
  ContainsAnyReaspiredVersions name versions m = false ↔
  ∀ i s, view m i = Some s → sid_name i = name → sid_version i ∈ GetVersionNumbers versions →
    is_aspired s = true.
Proof.
  intros Hok. unfold ContainsAnyReaspiredVersions. rewrite <-not_true_iff_false, existsb_exists.
  split.
  - intros Hno i s Hs Hn Hin. destruct (is_aspired s) eqn:Ha; [done|]. destruct Hno.
    pose proof (view_id m i s Hok Hs) as Hid. exists s. split.
    + apply list_elem_of_In, elem_of_snapshots_view; [done|]. by rewrite Hid.
    + rewrite Ha, Hid. by apply bool_decide_true.
  - intros Hall (s&Hs%list_elem_of_In&Hb). apply elem_of_snapshots_view in Hs as [Hs Hn]; [|done].
    bool_hyps. by rewrite (Hall (snap_id s) s) in *.
Qed.

(** A request taken over: exactly its versions are aspired. *)
Lemma Process_view name versions m :
  managed_ok m → Forall data_ok versions → Forall (λ v, sid_name (sd_id v) = name) versions →
  ContainsAnyReaspiredVersions name versions m = false →
  let m' := ProcessAspiredVersionsRequest name versions m in
  managed_ok m' ∧
  (∀ i, sid_name i = name → aspires m' i ↔ sid_version i ∈ GetVersionNumbers versions) ∧
  (∀ i, sid_name i ≠ name → view m' i = view m i) ∧
  (∀ i s, view m i = Some s → ∃ s', view m' i = Some s' ∧ snap_state s' = snap_state s).
Proof.
  intros Hok Hwf Hnames Hre m'. rewrite ContainsAnyReaspired_false in Hre by done.
  unfold ProcessAspiredVersionsRequest in m'.
  set (next := GetVersionNumbers versions) in *.
  set (snaps := GetManagedServableStateSnapshots name m) in *.
  set (current := list_to_set _ : gset Z) in *.
  destruct (unaspire_fold next snaps m Hok) as [Hok1 Hv1].
  set (m1 := foldl (unaspire_step next) m snaps) in *.
  destruct (add_fold (next ∖ current) versions m1 Hok1 Hwf) as [Hok2 Hv2].
  fold m' in Hok2, Hv2.
  assert (∀ j, j ∈ sd_id <$> versions ↔ sid_name j = name ∧ sid_version j ∈ next) as Hids.
  { intros j. rewrite list_elem_of_fmap. unfold next. rewrite elem_of_version_numbers.
    rewrite Forall_forall in Hnames. split.
    - intros (v&->&Hv). eauto.
    - intros [Hn (v&Hv&Hver)]. exists v. split; [|done]. specialize (Hnames v Hv).
      destruct j, (sd_id v); simpl in *; congruence. }
  assert (∀ j, view m j = None → view m1 j = None) as Hnone.
  { intros j Hj. rewrite Hv1, Hj. by case_decide. }
  assert (∀ j s, view m1 j = Some s → view m' j = Some s) as Hkeep.
  { intros j s Hs. destruct (Hv2 j) as [[-> _]|(?&_)]; congruence. }
  assert (∀ j s, view m j = Some s → ∃ s', view m1 j = Some s' ∧ snap_state s' = snap_state s)
    as Hkeep1.
  { intros j s Hs. rewrite Hv1, Hs. case_decide; simpl; eauto. }
  split_and!; [done|..].
  - intros i Hn. unfold aspires. destruct (decide (sid_version i ∈ next)) as [Hin|Hin].
    + split; [done|]. intros _. destruct (view m i) as [s|] eqn:Es.
      * exists s. split; [|by eapply Hre]. apply Hkeep. rewrite Hv1, Es.
        case_decide; [|done]. naive_solver.
      * destruct (Hv2 i) as [[_ Hno]|(_&_&_&st&Hst)]; [|by eexists].
        destruct Hno; [by apply Hnone|by apply Hids|]. apply elem_of_difference. split; [done|].
        unfold current. rewrite elem_of_list_to_set, list_elem_of_fmap.
        intros (s&Hver&[_ Hs]%list_elem_of_filter). unfold snaps in Hs.
        apply elem_of_snapshots_view in Hs as [Hs Hsn]; [|done].
        replace (snap_id s) with i in Hs; [congruence|].
        destruct i, (snap_id s); simpl in *; congruence.
    + split; [|done]. intros (s&Hs&Ha). exfalso.
      destruct (Hv2 i) as [[E _]|(_&_&[Hin' _]%elem_of_difference&_)]; [|done].
      rewrite Hs, Hv1 in E. destruct (view m i) as [s0|] eqn:Es0; [|by case_decide].
      rewrite decide_True in E; [simpl in E; injection E as ->; done|]. split; [|done].
      apply list_elem_of_fmap. exists s0. pose proof (view_id m i s0 Hok Es0) as Hid.
      split; [done|]. unfold snaps. apply elem_of_snapshots_view; [done|]. by rewrite Hid.
  - intros i Hn. destruct (Hv2 i) as [[-> _]|(_&Hi%Hids&_)]; [|naive_solver].
    rewrite Hv1. rewrite decide_False; [done|]. intros [(s&->&Hs)%list_elem_of_fmap _].
    unfold snaps in Hs. by apply elem_of_snapshots_view in Hs as [_ ?].
  - intros i s Hs. destruct (Hkeep1 i s Hs) as (s'&Hs'&?). eauto.
Qed.
End requests.

(** The pending map: one request per name, each validated when it was queued. *)
Record pending_ok (l : AspiredVersionsMap) : Prop := {
  po_sorted : StronglySorted (λ a b, String.compare a.1 b.1 = Lt) l;
  po_names : ∀ name versions, (name, versions) ∈ l →
    Forall (λ v, sid_name (sd_id v) = name) versions ∧ Forall data_ok versions }.

Lemma ValidateAspiredVersions_ok name versions :
  ok (ValidateAspiredVersions name versions) = true ↔
  Forall (λ v, sid_name (sd_id v) = name) versions.
Proof.
  induction versions as [|v versions IH]; simpl; [by split; [constructor|]|].
  rewrite Forall_cons. destruct (String.eqb_spec name (sid_name (sd_id v))); simpl.
  - rewrite IH. naive_solver.
  - naive_solver.
Qed.

Lemma elem_of_map_assign k v l x : x ∈ map_assign k v l → x = (k, v) ∨ x ∈ l.
Proof.
  induction l as [|[k' v'] l IH]; simpl; [set_solver|]. case_match; set_solver.
Qed.

Lemma map_assign_sorted k v l :
  StronglySorted (λ a b, String.compare a.1 b.1 = Lt) l →
  StronglySorted (λ a b, String.compare a.1 b.1 = Lt) (map_assign k v l).
Proof.
  induction 1 as [|[k' v'] l Hl IH Hk]; simpl; [repeat constructor|].
  destruct (String.compare k k') eqn:E.
  - apply string_compare_eq in E as ->. by constructor.
  - constructor; [by constructor|]. constructor; [done|].
    eapply Forall_impl; [exact Hk|]. intros x. by apply string_lt_trans.
  - constructor; [done|]. apply Forall_forall. intros x [->|Hx]%elem_of_map_assign.
    + simpl. by rewrite string_compare_antisym, E.
    + rewrite Forall_forall in Hk. by apply Hk.
Qed.

(** Queuing a request keeps the pending map well formed. *)
Lemma Enqueue_pending_ok name versions x :
  Forall data_ok versions → pending_ok (pending_aspired_versions_requests x) →
  pending_ok (pending_aspired_versions_requests (EnqueueAspiredVersionsRequest name versions x)).
Proof.
  intros Hd [Hs Hn]. unfold EnqueueAspiredVersionsRequest.
  destruct (ok (ValidateAspiredVersions name versions)) eqn:E; simpl; [|done].
  apply ValidateAspiredVersions_ok in E. split; [by apply map_assign_sorted|].
  intros n vs [[= -> ->]|Hin]%elem_of_map_assign; [done|]. by apply Hn.
Qed.

Lemma pending_keys l : pending_ok l → NoDup l.*1.
Proof.
  intros [Hs _]. induction Hs as [|[k v] l Hl IH Hk]; simpl; [constructor|].
  apply NoDup_cons. split; [|done]. intros ([k' v']&Heq&Hin)%list_elem_of_fmap.
  rewrite Forall_forall in Hk. specialize (Hk _ Hin). simpl in *. subst k'.
  by rewrite string_compare_refl in Hk.
Qed.

Section handle_pending.
Implicit Types (m : BasicManager bool).

Lemma Contains_view name versions m m' :
  managed_ok m → managed_ok m' → (∀ i, sid_name i = name → view m' i = view m i) →
  ContainsAnyReaspiredVersions name versions m' = ContainsAnyReaspiredVersions name versions m.
Proof.
  intros Hok Hok' Hv. apply eq_true_iff_eq. rewrite <-!not_false_iff_true.
  rewrite !ContainsAnyReaspired_false by done. apply not_iff_compat.
  split; intros H i s Hs Hn; apply (H i s); try done; [by rewrite Hv|by rewrite <-Hv].
Qed.

Lemma handle_pending_spec l m :
  managed_ok m → pending_ok l →
  let '(kept, m') := handle_pending l m in
  managed_ok m' ∧
  (∀ name versions, (name, versions) ∈ l →
     if ContainsAnyReaspiredVersions name versions m
     then ((name, versions) ∈ kept ∧ ∀ i, sid_name i = name → view m' i = view m i)
     else ((name ∉ kept.*1) ∧
           ∀ i, sid_name i = name → aspires m' i ↔ sid_version i ∈ GetVersionNumbers versions)) ∧
  (∀ i, sid_name i ∉ l.*1 → view m' i = view m i) ∧
  (∀ name, name ∈ kept.*1 → name ∈ l.*1).
Proof.
  revert m. induction l as [|[name versions] l IH]; intros m Hok Hpend.
  { simpl. split_and!; try done. by intros ?? ?%not_elem_of_nil. }
  pose proof (pending_keys _ Hpend) as Hkeys. destruct Hpend as [Hsorted Hnames].
  rewrite fmap_cons, NoDup_cons in Hkeys. destruct Hkeys as [Hnin Hkeys]. simpl in Hnin.
  assert (pending_ok l) as Hl.
  { apply StronglySorted_inv in Hsorted as [? _].
    split; [done|intros ?? ?; apply Hnames; by right]. }
  destruct (Hnames name versions) as [Hn Hd]; [left|]. cbn [handle_pending].
  destruct (ContainsAnyReaspiredVersions name versions m) eqn:Hre.
  - specialize (IH m Hok Hl). destruct (handle_pending l m) as [kept m'].
    destruct IH as (Hok'&Hreq&Hother&Hkept). split_and!; [done|..].
    + intros name' versions' [[= -> ->]|Hin]%elem_of_cons.
      * rewrite Hre. split; [left|]. intros i <-. by apply Hother.
      * specialize (Hreq name' versions' Hin).
        destruct (ContainsAnyReaspiredVersions name' versions' m); [set_solver|].
        destruct Hreq as [Hk Ha]. split; [|done]. rewrite fmap_cons. simpl.
        intros [->|?]%elem_of_cons; [|done]. destruct Hnin. apply list_elem_of_fmap.
        by exists (name, versions').
    + intros i Hi. apply Hother. rewrite fmap_cons in Hi. set_solver.
    + intros n'. rewrite !fmap_cons, !elem_of_cons. naive_solver.
  - destruct (Process_view name versions m Hok Hd Hn Hre) as (Hok1&Hasp&Hsame&_).
    set (m1 := ProcessAspiredVersionsRequest name versions m) in *.
    specialize (IH m1 Hok1 Hl). destruct (handle_pending l m1) as [kept m'].
    destruct IH as (Hok'&Hreq&Hother&Hkept). split_and!; [done|..].
    + intros name' versions' [[= -> ->]|Hin]%elem_of_cons.
      * rewrite Hre. split; [auto|]. intros i Hi.
        rewrite <-(Hasp i Hi). unfold aspires. rewrite Hother; [done|]. by rewrite Hi.
      * assert (name' ≠ name) as Hne.
        { intros ->. apply Hnin, list_elem_of_fmap. by exists (name, versions'). }
        specialize (Hreq name' versions' Hin).
        rewrite (Contains_view name' versions' m m1) in Hreq; [|done|done|].
        2: { intros i <-. by apply Hsame. }
        destruct (ContainsAnyReaspiredVersions name' versions' m); [|done].
        destruct Hreq as [? Hv]. split; [done|]. intros i <-. rewrite Hv by done.
        by apply Hsame.
    + intros i Hi. rewrite fmap_cons in Hi. apply not_elem_of_cons in Hi as [? ?].
      rewrite Hother by done. by apply Hsame.
    + intros n' ?%Hkept. rewrite fmap_cons. by right.
Qed.
End handle_pending.

(** * Flushing *)

(** A version that is finished, or was never loaded, and is no longer wanted. *)
Definition flushable (s : ServableStateSnapshot bool) : bool :=
  (bool_decide (snap_state s = State.kNew) || bool_decide (snap_state s = State.kDisabled) ||
   bool_decide (snap_state s = State.kError)) && negb (is_aspired s).

Section flush.
Implicit Types (m : BasicManager bool).

Lemma flush_step_view m s :
  managed_ok m → view m (snap_id s) = Some s →
  managed_ok (flush_step m s) ∧
  ∀ j, view (flush_step m s) j =
    if decide (j = snap_id s ∧ flushable s = true) then None else view m j.
Proof.
  intros Hok Hs. change (flush_step m s) with
    (if flushable s then (StopManagingServable (snap_id s) m).2 else m).
  destruct (flushable s) eqn:Hf.
  2: { split; [done|]. intros j. rewrite decide_False; [done|]. by intros [_ ?]. }
  destruct (StopManagingServable_by_id m (snap_id s) Hok) as [Hok' Hb].
  split; [done|]. intros j. unfold view in *. rewrite Hb.
  apply fmap_Some in Hs as (h&Hh&Hs). rewrite Hh.
  rewrite decide_True.
  - destruct (decide (j = snap_id s)) as [->|Hne].
    + by rewrite decide_True, lookup_delete_eq by done.
    + rewrite decide_False, lookup_delete_ne by naive_solver. done.
  - unfold flushable in Hf. rewrite Hs in Hf. simpl in Hf.
    apply andb_true_iff in Hf as [Hf _]. rewrite !orb_true_iff, !bool_decide_eq_true in Hf. tauto.
Qed.

Lemma flush_name_view snaps m :
  managed_ok m → NoDup (snap_id <$> snaps) → (∀ s, s ∈ snaps → view m (snap_id s) = Some s) →
  managed_ok (foldl flush_step m snaps) ∧
  ∀ j, view (foldl flush_step m snaps) j =
    if decide (j ∈ snap_id <$> filter (λ s, flushable s = true) snaps) then None else view m j.
Proof.
  revert m. induction snaps as [|s snaps IH]; intros m Hok Hnd Hall; cbn [foldl].
  { split; [done|]. intros j. case_decide as Hd; [by apply not_elem_of_nil in Hd|done]. }
  rewrite fmap_cons, NoDup_cons in Hnd. destruct Hnd as [Hnin Hnd].
  destruct (flush_step_view m s Hok) as [Hok1 Hv1]; [apply Hall; left|].
  destruct (IH (flush_step m s) Hok1 Hnd) as [Hok2 Hv2].
  { intros s' Hs'. rewrite Hv1, decide_False; [apply Hall; by right|].
    intros [Heq _]. apply Hnin. rewrite <-Heq. by apply list_elem_of_fmap_2. }
  split; [done|]. intros j. rewrite Hv2, Hv1, filter_cons.
  destruct (flushable s) eqn:Hf; simpl.
  - repeat case_decide; set_solver.
  - destruct (decide (j = snap_id s ∧ false = true)); [naive_solver|done].
Qed.

Lemma names_view m name :
  managed_ok m → name ∈ GetManagedServableNames m ↔
  ∃ i, sid_name i = name ∧ is_Some (view m i).
Proof.
  intros Hok. unfold GetManagedServableNames. rewrite elem_of_remove_dups, list_elem_of_fmap.
  pose proof (mo_unique m Hok) as Hu. split.
  - intros ([p h]&->&Hp%elem_of_map_to_list). exists (h_id h). split; [done|].
    unfold view. assert (by_id m !! h_id h = Some h) as -> by (apply by_id_lookup; eauto).
    by eexists.
  - intros (i&Hn&[s (h&(p&Hp&<-)%by_id_lookup&_)%fmap_Some]); [|done].
    exists (p, h). split; [done|]. by apply elem_of_map_to_list.
Qed.

Lemma flush_names_view names m :
  managed_ok m → NoDup names →
  let m' := foldl (λ m n, foldl flush_step m (GetManagedServableStateSnapshots n m)) m names in
  managed_ok m' ∧
  ∀ j, view m' j =
    if decide (sid_name j ∈ names) then
      view m j ≫= λ s, if flushable s then None else Some s
    else view m j.
Proof.
  revert m. induction names as [|n names IH]; intros m Hok Hnd; cbn [foldl].
  { split; [done|]. intros j. case_decide as Hd; [by apply not_elem_of_nil in Hd|done]. }
  apply NoDup_cons in Hnd as [Hnin Hnd].
  destruct (flush_name_view (GetManagedServableStateSnapshots n m) m Hok) as [Hok1 Hv1].
  { apply snapshot_ids_nodup, (mo_unique m Hok). }
  { intros s Hs. by apply elem_of_snapshots_view in Hs as [? _]. }
  destruct (IH _ Hok1 Hnd) as [Hok2 Hv2]. split; [done|]. intros j. rewrite Hv2, Hv1.
  assert (j ∈ snap_id <$> filter (λ s, flushable s = true)
      (GetManagedServableStateSnapshots n m) ↔
    sid_name j = n ∧ ∃ s, view m j = Some s ∧ flushable s = true) as Hj.
  { rewrite list_elem_of_fmap. split.
    - intros (s&->&[Hf [Hs Hn]%elem_of_snapshots_view]%list_elem_of_filter); [|done]. eauto.
    - intros (Hn&s&Hs&Hf). pose proof (view_id m j s Hok Hs) as Hid. exists s.
      split; [done|]. apply list_elem_of_filter. split; [done|].
      apply elem_of_snapshots_view; [done|]. by rewrite Hid. }
  destruct (decide (sid_name j = n)) as [<-|Hne].
  - destruct (decide (sid_name j ∈ names)); [done|].
    rewrite (decide_True (P := sid_name j ∈ sid_name j :: names)) by left.
    case_decide as Hd; rewrite Hj in Hd.
    + destruct Hd as (_&s&->&Hf). simpl. by rewrite Hf.
    + destruct (view m j) as [s|]; [|done]. simpl. destruct (flushable s) eqn:Hf; [|done].
      destruct Hd. eauto.
  - case_decide as Hd1; case_decide as Hd2; [rewrite Hj in Hd2; naive_solver| |
      rewrite Hj in Hd2; naive_solver|]; case_decide; set_solver.
Qed.
End flush.

(** * Actions *)

(** The order of [CompareActions]: unloads, then loads, then nothing. *)
Definition action_rank (a : option ServableAction) : nat :=
  match a with
  | Some a => match act_action a with ActionUnload => 0 | ActionLoad => 1 end
  | None => 2
  end.

Lemma CompareActions_rank a b : CompareActions a b = bool_decide (action_rank a < action_rank b).
Proof. by destruct a as [[[] ?]|], b as [[[] ?]|]. Qed.

Lemma sort_actions_perm l : sort_actions l ≡ₚ l.
Proof.
  assert (∀ a l, insert_action a l ≡ₚ a :: l) as Hins.
  { intros a l'. induction l' as [|b l' IH]; simpl; [done|]. case_match; [|done].
    rewrite IH. apply perm_swap. }
  induction l as [|a l IH]; simpl; [done|]. by rewrite Hins, IH.
Qed.

Lemma sort_actions_sorted l :
  StronglySorted (λ a b, action_rank a ≤ action_rank b) (sort_actions l).
Proof.
  induction l as [|a l IH]; simpl; [constructor|].
  induction IH as [|b l' Hl' IHl' Hb]; simpl; [repeat constructor|].
  rewrite CompareActions_rank. case_bool_decide as Hd.
  - constructor; [done|]. clear IHl' Hl'.
    induction Hb as [|c l' Hc Hb IHb]; simpl; [constructor; [lia|constructor]|].
    case_match; [by constructor|]. constructor; [lia|by constructor].
  - constructor; [by constructor|]. constructor; [lia|].
    eapply Forall_impl; [exact Hb|]. simpl. lia.
Qed.

Section actions.
Context {P : AspiredVersionPolicy}.
Implicit Types (m : BasicManager bool).

(** The action taken is one that the policy proposed, and an unload if it
    proposed any. *)
Lemma next_action_spec m a :
  Manager_GetNextAction m = Some a →
  (∃ name, name ∈ GetManagedServableNames m ∧
     GetNextAction (aspired_state_snapshots name m) = Some a) ∧
  (∀ name b, name ∈ GetManagedServableNames m →
     GetNextAction (aspired_state_snapshots name m) = Some b →
     act_action b = ActionUnload → act_action a = ActionUnload).
Proof.
  unfold Manager_GetNextAction. set (actions := _ <$> _).
  pose proof (sort_actions_perm actions) as Hp. pose proof (sort_actions_sorted actions) as Hs.
  destruct (sort_actions actions) as [|x rest]; [done|]. intros ->.
  assert (∀ b, b ∈ actions ↔ b ∈ Some a :: rest) as Hin by (intros; by rewrite Hp).
  split.
  - assert (Some a ∈ actions) as Ha by (apply Hin; left).
    unfold actions in Ha. apply list_elem_of_fmap in Ha as (name&?&?). eauto.
  - intros name b Hn Hb Hu. assert (Some b ∈ actions) as Hba.
    { rewrite <-Hb. by apply (list_elem_of_fmap_2
        (λ n, GetNextAction (aspired_state_snapshots n m))). }
    apply Hin, elem_of_cons in Hba as [[= ->]|Hba]; [done|].
    apply StronglySorted_inv in Hs as [_ Hs]. rewrite Forall_forall in Hs.
    specialize (Hs _ Hba). simpl in Hs. rewrite Hu in Hs. by destruct (act_action a); [lia|].
Qed.

Lemma next_action_none m :
  Manager_GetNextAction m = None →
  ∀ name, name ∈ GetManagedServableNames m →
    GetNextAction (aspired_state_snapshots name m) = None.
Proof.
  unfold Manager_GetNextAction. set (actions := _ <$> _). intros Hnone name Hn.
  pose proof (sort_actions_perm actions) as Hp. pose proof (sort_actions_sorted actions) as Hs.
  set (b := GetNextAction _). assert (b ∈ actions) as Hb
    by (by apply (list_elem_of_fmap_2 (λ n, GetNextAction (aspired_state_snapshots n m)))).
  rewrite <-Hp in Hb. destruct (sort_actions actions) as [|x rest];
    [by apply not_elem_of_nil in Hb|]. subst x.
  apply elem_of_cons in Hb as [->|Hb]; [done|].
  apply StronglySorted_inv in Hs as [_ Hs]. rewrite Forall_forall in Hs.
  specialize (Hs _ Hb). simpl in Hs. by destruct b as [[[] ?]|]; simpl in Hs; [lia|lia|].
Qed.

Lemma elem_of_aspired_snapshots m name v :
  managed_ok m →
  v ∈ aspired_state_snapshots name m ↔
  ∃ s, view m (as_id v) = Some s ∧ sid_name (as_id v) = name ∧ v = aspired_snapshot s.
Proof.
  intros Hok. unfold aspired_state_snapshots. rewrite list_elem_of_fmap. split.
  - intros (s&->&[Hs Hn]%elem_of_snapshots_view); [|done]. eauto.
  - intros (s&Hs&Hn&->). exists s. split; [done|]. by apply elem_of_snapshots_view.
Qed.

(** The version a lawful policy acts on. *)
Lemma action_view `{!LawfulPolicy P} m a :
  managed_ok m → Manager_GetNextAction m = Some a →
  ∃ h, by_id m !! act_id a = Some h ∧
    match act_action a with
    | ActionLoad => h_state h = State.kNew ∧ h_additional_state h = Some true
    | ActionUnload => h_state h = State.kReady ∧ is_aspired (loader_state_snapshot h) = false
    end.
Proof.
  intros Hok [(name&_&Ha) _]%next_action_spec. destruct a as [[] i]; simpl.
  - apply policy_load in Ha as (v&Hv&<-&Hn&_).
    apply elem_of_aspired_snapshots in Hv as (s&Hs&_&Hv); [|done].
    apply fmap_Some in Hs as (h&Hh&->). exists h. split; [done|]. rewrite Hv in Hn.
    unfold aspired_new, is_aspired in Hn. cbn in Hn. apply andb_true_iff in Hn as [Ha Hst].
    split; [by apply bool_decide_eq_true in Hst|]. unfold is_aspired in Ha. simpl in Ha.
    by destruct (h_additional_state h) as [[]|].
  - apply policy_unload in Ha as (v&Hv&<-&Hn).
    apply elem_of_aspired_snapshots in Hv as (s&Hs&_&Hv); [|done].
    apply fmap_Some in Hs as (h&Hh&->). exists h. split; [done|]. rewrite Hv in Hn.
    unfold unaspired_ready in Hn. simpl in Hn. by bool_hyps.
Qed.
End actions.

(** * Actions carried out *)

Section complete.
Implicit Types (m : BasicManager bool) (h : LoaderHarness bool).

(** [m'] is [m] with the harness of [i] replaced by [h]. *)
Record changed m (i : ServableId) h m' : Prop := {
  ch_ok : managed_ok m';
  ch_by_id : by_id m' = <[i := h]> (by_id m);
  ch_tracker : bm_resource_tracker m' = bm_resource_tracker m;
  ch_handles : bm_handles_map m' = bm_handles_map m }.

(** [m'] differs from [m] in counters and recorded calls only. *)
Record quiet m m' : Prop := {
  qu_managed : bm_managed_map m' = bm_managed_map m;
  qu_next : bm_next_address m' = bm_next_address m;
  qu_tracker : bm_resource_tracker m' = bm_resource_tracker m;
  qu_handles : bm_handles_map m' = bm_handles_map m }.

Lemma quiet_trans m1 m2 m3 : quiet m1 m2 → quiet m2 m3 → quiet m1 m3.
Proof. intros [] []. split; congruence. Qed.

Lemma quiet_publish st m : quiet m (PublishOnEventBus st m).
Proof. unfold PublishOnEventBus. by case_match. Qed.

Lemma quiet_hook i m : quiet m (call_pre_load_hook i m).
Proof. unfold call_pre_load_hook. by case_match. Qed.

Lemma quiet_error_callbacks cs m : quiet m (foldl (λ m c, error_callback c m) m cs).
Proof.
  revert m. induction cs as [|c cs IH]; intros m; simpl; [done|].
  eapply quiet_trans; [|apply IH]. destruct c; simpl; try done. apply quiet_publish.
Qed.

Lemma changed_quiet m i h m1 m2 : changed m i h m1 → quiet m1 m2 → changed m i h m2.
Proof.
  intros [Hok Hb Ht Hh] [Hm Hn Ht' Hh']. split; try congruence.
  - by apply (managed_ok_core m1).
  - by rewrite (by_id_managed m1).
Qed.

Lemma changed_trans m i h1 h2 m1 m2 :
  changed m i h1 m1 → changed m1 i h2 m2 → changed m i h2 m2.
Proof.
  intros [_ Hb1 Ht1 Hh1] [Hok2 Hb2 Ht2 Hh2]. split; try congruence.
  by rewrite Hb2, Hb1, insert_insert_eq.
Qed.

Lemma changed_lookup m i h m' : changed m i h m' → by_id m' !! i = Some h.
Proof. intros [_ -> _ _]. apply lookup_insert_eq. Qed.

(** One call on the harness of [i]. *)
Lemma call_changed m p f h st h' :
  managed_ok m → bm_managed_map m !! p = Some h → f h = (st, h') → h_id h' = h_id h →
  harness_inv h' →
  ∃ m', call_harness p f m = (st, m') ∧ changed m (h_id h) h' m' ∧
    bm_managed_map m' !! p = Some h'.
Proof.
  intros Hok Hp Hf Hid Hinv. unfold call_harness. rewrite Hp, Hf. eexists. split; [done|].
  pose proof (quiet_error_callbacks (drop (length (h_trace h)) (h_trace h'))
    (set_managed_map (<[p:=h']> (bm_managed_map m)) m)) as Hq.
  destruct (by_id_update m (set_managed_map (<[p:=h']> (bm_managed_map m)) m) p h h')
    as [Hok' Hb']; try done.
  split.
  - eapply changed_quiet; [|exact Hq]. by split.
  - rewrite (qu_managed _ _ Hq). simpl. by rewrite lookup_insert_eq.
Qed.

Lemma inv_set_state st h :
  harness_inv h → h_state h ≠ State.kError → st ≠ State.kError →
  (∀ p, phase_of_state (h_state h) p → phase_of_state st p) → harness_inv (set_state st h).
Proof. intros. by apply set_state_inv. Qed.

(** The request of [PerformAction] is accepted. *)
Lemma perform_accepted `{P : AspiredVersionPolicy} `{!LawfulPolicy P} m a :
  managed_ok m → Manager_GetNextAction m = Some a →
  ∃ p h m', by_id m !! act_id a = Some h ∧
    let st := match act_action a with
              | ActionLoad => State.kLoadRequested | ActionUnload => State.kUnloadRequested end in
    let r := mkRequest (match act_action a with
              | ActionLoad => kLoadRequest | ActionUnload => kUnloadRequest end) (act_id a) in
    h_state h = match act_action a with
                | ActionLoad => State.kNew | ActionUnload => State.kReady end ∧
    is_aspired (loader_state_snapshot h) =
      match act_action a with ActionLoad => true | ActionUnload => false end ∧
    PerformAction a m = (Some r, m') ∧ changed m (act_id a) (set_state st h) m' ∧
    bm_managed_map m' !! p = Some (set_state st h).
Proof.
  intros Hok Ha. destruct (action_view m a Hok Ha) as (h&Hh&Hst).
  destruct (by_id_healthy m (act_id a) Hok) as [(p&h'&Hh'&Hp&Hid&_&Hgo)|(st&_&_&Herr)].
  2: { specialize (Herr h Hh). exfalso. destruct (act_action a), Hst; congruence. }
  rewrite Hh in Hh'. injection Hh' as <-. pose proof (mo_inv m Hok p h Hp) as Hinv.
  unfold PerformAction, LoadServable, UnloadServable, LoadOrUnloadServable, RequestLoadOrUnload.
  destruct a as [[] i]; cbn [act_action act_id lur_id lur_kind] in *.
  - destruct Hst as [Hs Has].
    assert (LoadRequested h = (StatusOK, set_state State.kLoadRequested h)) as Hf.
    { unfold LoadRequested. by rewrite decide_True. }
    destruct (call_changed m p LoadRequested h _ _ Hok Hp Hf eq_refl) as (m'&E&Hc&Hp').
    { apply inv_set_state; rewrite ?Hs; done. }
    exists p, h, m'. rewrite Hgo, (sm_bind_ok _ _ _ _ E). rewrite Hid in Hc.
    split_and!; try done. unfold is_aspired. simpl. by rewrite Has.
  - destruct Hst as [Hs Has].
    assert (UnloadRequested h = (StatusOK, set_state State.kUnloadRequested h)) as Hf.
    { unfold UnloadRequested. by rewrite decide_True. }
    destruct (call_changed m p UnloadRequested h _ _ Hok Hp Hf eq_refl) as (m'&E&Hc&Hp').
    { apply inv_set_state; rewrite ?Hs; done. }
    exists p, h, m'. rewrite Hgo, (sm_bind_ok _ _ _ _ E). rewrite Hid in Hc.
    by split_and!.
Qed.

Lemma healthy_at m p h :
  managed_ok m → bm_managed_map m !! p = Some h → h_state h ≠ State.kError →
  GetHealthyHarness (h_id h) m = (StatusOK, Some p).
Proof.
  intros Hok Hp Hs. apply GetHealthyHarness_found; [apply (mo_unique m Hok)|done|].
  apply not_false_iff_true. by rewrite <-(inv_error h (mo_inv m Hok p h Hp)).
Qed.

(** The handler of a load whose first try succeeds, in a manager without a
    resource tracker. *)
Lemma load_completes rc rs load cancelled m p h i :
  managed_ok m → bm_resource_tracker m = None → load 0 = StatusOK →
  bm_managed_map m !! p = Some h → h_id h = i → h_state h = State.kLoadRequested →
  ∃ m' h', HandleLoadOrUnloadRequest rc rs load cancelled (mkRequest kLoadRequest i) m = Some m' ∧
    by_id m' = <[i := h']> (by_id m) ∧ managed_ok m' ∧ bm_resource_tracker m' = None ∧
    bm_handles_map m' = ServingMap_Update (bm_managed_map m') ∧
    h_state h' = State.kReady ∧ h_id h' = i ∧ h_additional_state h' = h_additional_state h.
Proof.
  intros Hok Htr Hload Hp Hid Hs. pose proof (mo_inv m Hok p h Hp) as Hinv.
  unfold HandleLoadOrUnloadRequest, ApproveLoadOrUnload. cbn [lur_id].
  rewrite <-Hid, (healthy_at m p h Hok Hp) by (by rewrite Hs).
  unfold ApproveRequest, ApproveLoad. cbn [lur_kind]. rewrite Hp, Htr. cbn [ok negb].
  set (h1 := set_state State.kLoadApproved h).
  destruct (call_changed m p LoadApproved h StatusOK h1 Hok Hp) as (m1&E1&Hc1&Hp1);
    [by apply transition_ret|done|by apply inv_set_state; rewrite ?Hs|].
  rewrite (sm_bind_ok _ _ _ _ E1). cbn [sm_ret].
  set (m2 := set_num_ongoing _ m1).
  assert (changed m (h_id h) h1 m2) as Hc2 by (by apply (changed_quiet _ _ _ m1)).
  assert (bm_managed_map m2 !! p = Some h1) as Hp2 by exact Hp1.
  unfold ExecuteLoadOrUnload, ExecuteLoad. cbn [lur_kind lur_id]. rewrite !do_bind.
  set (m3 := call_pre_load_hook _ _).
  assert (quiet m2 m3) as Hq3.
  { eapply quiet_trans; [|apply quiet_hook]. unfold publish_harness. rewrite Hp2.
    apply quiet_publish. }
  assert (changed m (h_id h) h1 m3) as Hc3 by (by apply (changed_quiet _ _ _ m2)).
  assert (bm_managed_map m3 !! p = Some h1) as Hp3 by (by rewrite (qu_managed _ _ Hq3)).
  set (h2 := set_state State.kReady (add_call (CallLoad StatusOK) (set_state State.kLoading h1))).
  assert (Load load cancelled h1 = (StatusOK, h2)) as Hl.
  { unfold Load. erewrite sm_bind_ok; [|by apply TransitionState_ok].
    change (h_options (set_state State.kLoading h1)) with (h_options h1).
    assert (Retry (max_num_load_retries (h_options h1)) load cancelled = (StatusOK, 1)) as Hr.
    { unfold Retry. destruct (Z.to_nat _) as [|n]; simpl; rewrite Hload; [done|].
      unfold retry_again. by rewrite andb_false_r. }
    rewrite Hr. simpl. rewrite Hload. unfold Load_end. simpl. by rewrite transition_ret. }
  destruct (call_changed m3 p (Load load cancelled) h1 StatusOK h2 (ch_ok _ _ _ _ Hc3) Hp3 Hl)
    as (m4&E4&Hc4&Hp4); [done| |].
  { pose proof (Load_inv load cancelled h1) as Hi. rewrite Hl in Hi. apply Hi.
    by apply inv_set_state; rewrite ?Hs. }
  rewrite (sm_bind_ok _ _ _ _ E4), do_bind.
  assert (changed m (h_id h) h2 m4) as Hc by (eapply changed_trans; [exact Hc3|exact Hc4]).
  do 2 eexists. split; [reflexivity|].
  set (m5 := PublishOnEventBus _ (UpdateServingMap m4)).
  assert (quiet (UpdateServingMap m4) (add_manager_call (Done (mkRequest kLoadRequest (h_id h))
    StatusOK) (finish_execution m5))) as Hq5.
  { eapply quiet_trans; [apply quiet_publish|]. by split. }
  cbn [fst snd]. destruct Hc as [Hok4 Hb4 Ht4 Hh4]. split_and!.
  - rewrite (by_id_managed (UpdateServingMap m4)) by apply Hq5. exact Hb4.
  - apply (managed_ok_core m4); [by rewrite (qu_managed _ _ Hq5)|by rewrite (qu_next _ _ Hq5)|done].
  - rewrite (qu_tracker _ _ Hq5). simpl. congruence.
  - by rewrite (qu_handles _ _ Hq5), (qu_managed _ _ Hq5).
  - done.
  - done.
  - done.
Qed.

Lemma ready_by_id m x :
  unique_ids (bm_managed_map m) →
  x ∈ ready_handles (bm_managed_map m) ↔
  ∃ h, by_id m !! x.1 = Some h ∧ h_state h = State.kReady ∧ x.2 = h_loader h.
Proof.
  intros Hu. rewrite elem_of_ready_handles. split.
  - intros (p&h&Hp&Hs&->). exists h. split_and!; [|done|done]. apply by_id_lookup; eauto.
  - intros (h&(p&Hp&Hid)%by_id_lookup&Hs&Hl); [|done]. exists p, h. split_and!; try done.
    destruct x; simpl in *; congruence.
Qed.

Lemma serves_ext l l' k x : (∀ y, y ∈ l ↔ y ∈ l') → serves l k x ↔ serves l' k x.
Proof.
  intros H. unfold serves. rewrite H. destruct (req_version k); [done|].
  by setoid_rewrite H.
Qed.

(** The handler of an unload. *)
Lemma unload_completes rc rs load cancelled m p h i :
  managed_ok m → bm_managed_map m !! p = Some h → h_id h = i →
  h_state h = State.kUnloadRequested →
  ∃ m' h', HandleLoadOrUnloadRequest rc rs load cancelled (mkRequest kUnloadRequest i) m = Some m' ∧
    by_id m' = <[i := h']> (by_id m) ∧ managed_ok m' ∧
    bm_resource_tracker m' = bm_resource_tracker m ∧
    (∀ k x, (k, x) ∈ bm_handles_map m' ↔ serves (ready_handles (bm_managed_map m')) k x) ∧
    h_state h' = State.kDisabled ∧ h_id h' = i ∧ h_additional_state h' = h_additional_state h.
Proof.
  intros Hok Hp Hid Hs. pose proof (mo_inv m Hok p h Hp) as Hinv.
  unfold HandleLoadOrUnloadRequest, ApproveLoadOrUnload. cbn [lur_id].
  rewrite <-Hid, (healthy_at m p h Hok Hp) by (by rewrite Hs).
  unfold ApproveRequest, ApproveUnload. cbn [lur_kind].
  set (h1 := set_state State.kQuiescing h).
  assert (harness_inv h1) as Hinv1 by (by apply inv_set_state; rewrite ?Hs).
  destruct (call_changed m p StartQuiescing h StatusOK h1 Hok Hp) as (m1&E1&Hc1&Hp1);
    [by apply transition_ret|done|done|].
  rewrite (sm_bind_ok _ _ _ _ E1). cbn [sm_ret].
  set (m2 := set_num_ongoing _ m1).
  assert (bm_managed_map m2 !! p = Some h1) as Hp2 by exact Hp1.
  assert (changed m (h_id h) h1 m2) as Hc2 by (by apply (changed_quiet _ _ _ m1)).
  unfold ExecuteLoadOrUnload, ExecuteUnload, ExecuteUnload_begin. cbn [lur_kind lur_id].
  set (m3 := publish_harness kUnloading p m2).
  assert (quiet m2 m3) as Hq3.
  { unfold m3, publish_harness. rewrite Hp2. apply quiet_publish. }
  assert (bm_managed_map (UpdateServingMap m3) !! p = Some h1) as Hp3.
  { simpl. by rewrite (qu_managed _ _ Hq3). }
  assert (changed m (h_id h) h1 m3) as Hc3 by (by apply (changed_quiet _ _ _ m2)).
  assert (managed_ok (UpdateServingMap m3)) as Hok3.
  { apply (managed_ok_core m3); [done|done|apply Hc3]. }
  set (h2 := set_state State.kQuiesced h1).
  assert (harness_inv h2) as Hinv2 by (by apply inv_set_state).
  destruct (call_changed (UpdateServingMap m3) p DoneQuiescing h1 StatusOK h2 Hok3 Hp3)
    as (m4&E4&Hc4&Hp4); [by unfold DoneQuiescing; rewrite transition_ret|done|done|].
  set (h3 := set_state State.kDisabled (add_call CallUnload (set_state State.kUnloading h2))).
  assert (Unload h2 = (StatusOK, h3)) as Hu.
  { unfold Unload. erewrite sm_bind_ok; [|by apply TransitionState_ok].
    unfold Unload_end. by rewrite transition_ret. }
  destruct (call_changed m4 p Unload h2 StatusOK h3 (ch_ok _ _ _ _ Hc4) Hp4 Hu)
    as (m5&E5&Hc5&Hp5); [done| |].
  { pose proof (Unload_inv h2 Hinv2) as Hi. by rewrite Hu in Hi. }
  assert ((do_ (publish_harness kUnloading p) ;;? do_ UpdateServingMap ;;?
    call_harness p DoneQuiescing ;;? sm_ret StatusOK)%status m2 = (StatusOK, m4)) as Eb.
  { rewrite !do_bind. fold m3. by rewrite (sm_bind_ok _ _ _ _ E4). }
  rewrite (sm_bind_ok _ _ _ _ Eb), (sm_bind_ok _ _ _ _ E5).
  eexists _, h3. split; [reflexivity|]. cbn [fst snd].
  set (m6 := PublishOnEventBus _ m5).
  assert (quiet m5 (add_manager_call (Done (mkRequest kUnloadRequest (h_id h)) StatusOK)
    (finish_execution m6))) as Hq6.
  { eapply quiet_trans; [apply quiet_publish|]. by split. }
  assert (changed (UpdateServingMap m3) (h_id h) h3 (add_manager_call
    (Done (mkRequest kUnloadRequest (h_id h)) StatusOK) (finish_execution m6))) as Hc6.
  { eapply changed_quiet; [|exact Hq6]. eapply changed_trans; [exact Hc4|exact Hc5]. }
  set (m7 := add_manager_call _ _) in *. clearbody m7. clear Hq6.
  destruct Hc6 as [Hok6 Hb6 Ht6 Hh6]. split_and!; try done.
  - rewrite Hb6. rewrite (by_id_managed m3 (UpdateServingMap m3)) by done. by rewrite (ch_by_id _ _ _ _ Hc3), insert_insert_eq.
  - rewrite Ht6. simpl. by rewrite (ch_tracker _ _ _ _ Hc3).
  - intros k x. rewrite Hh6.
    change (bm_handles_map (UpdateServingMap m3))
      with (ServingMap_Update (bm_managed_map (UpdateServingMap m3))).
    rewrite elem_of_serving_map by apply Hok3. apply serves_ext. intros y.
    rewrite !ready_by_id by (apply Hok3 || apply Hok6). rewrite Hb6.
    rewrite (by_id_managed m3 (UpdateServingMap m3)) by done. rewrite (ch_by_id _ _ _ _ Hc3).
    destruct (decide (h_id h = y.1)) as [<-|Hne].
    + rewrite !lookup_insert_eq. split; intros (g&[= <-]&?&_); done.
    + by rewrite !lookup_insert_ne by done.
Qed.
End complete.

(** * Theorems *)

(** Handling the queue. Every queued request none of whose versions is still
    present but no longer aspired is taken over: exactly its versions become the
    aspired ones of that servable; every other request stays queued and its
    servable is left alone, as are servables without a request. *)
Theorem pending_requests_handled (x : AspiredVersionsManager) :
  managed_ok (basic_manager x) → pending_ok (pending_aspired_versions_requests x) →
  let x' := HandlePendingAspiredVersionsRequests x in
  managed_ok (basic_manager x') ∧
  (∀ name versions, (name, versions) ∈ pending_aspired_versions_requests x →
     if ContainsAnyReaspiredVersions name versions (basic_manager x)
     then ((name, versions) ∈ pending_aspired_versions_requests x' ∧
           ∀ i, sid_name i = name → view (basic_manager x') i = view (basic_manager x) i)
     else ((name ∉ (pending_aspired_versions_requests x').*1) ∧
           ∀ i, sid_name i = name →
             aspires (basic_manager x') i ↔ sid_version i ∈ GetVersionNumbers versions)) ∧
  (∀ i, sid_name i ∉ (pending_aspired_versions_requests x).*1 →
     view (basic_manager x') i = view (basic_manager x) i).
Proof.
  intros Hok Hpend. unfold HandlePendingAspiredVersionsRequests.
  pose proof (handle_pending_spec _ _ Hok Hpend) as H.
  destruct (handle_pending _ _) as [kept m']. simpl. naive_solver.
Qed.

(** Flushing removes exactly the versions that are not aspired and are new,
    disabled or in error, and changes nothing else. *)
Theorem FlushServables_spec (m : BasicManager bool) (i : ServableId) :
  managed_ok m →
  view (FlushServables m) i = view m i ≫= λ s, if flushable s then None else Some s.
Proof.
  intros Hok. unfold FlushServables.
  destruct (flush_names_view (GetManagedServableNames m) m Hok) as [_ ->].
  { apply NoDup_remove_dups. }
  case_decide as Hd; [done|]. rewrite names_view in Hd by done.
  destruct (view m i) eqn:E; [|done]. destruct Hd. exists i. by rewrite E.
Qed.

(** C9: the action a lawful policy proposes is always accepted: the request for it
    is scheduled, the version it names enters its requested state, no other
    version changes, and a load is taken only when no unload is proposed for any
    servable. *)
Theorem policy_action_accepted {P : AspiredVersionPolicy} `{!LawfulPolicy P}
    (m : BasicManager bool) (a : ServableAction) :
  managed_ok m → Manager_GetNextAction m = Some a →
  ∃ h m', by_id m !! act_id a = Some h ∧
    InvokePolicyAndExecuteAction m =
      (Some (mkRequest (match act_action a with
         | ActionLoad => kLoadRequest | ActionUnload => kUnloadRequest end) (act_id a)), m') ∧
    by_id m' = <[act_id a := set_state (match act_action a with
         | ActionLoad => State.kLoadRequested
         | ActionUnload => State.kUnloadRequested end) h]> (by_id m) ∧
    (act_action a = ActionLoad → ∀ name b, name ∈ GetManagedServableNames m →
       GetNextAction (aspired_state_snapshots name m) = Some b → act_action b = ActionLoad).
Proof.
  intros Hok Ha. destruct (perform_accepted m a Hok Ha) as (p&h&m'&Hh&_&_&Hperf&Hc&_).
  exists h, m'. unfold InvokePolicyAndExecuteAction. rewrite Ha. split_and!; [done|done| |].
  - apply Hc.
  - intros Hl name b Hn Hb. destruct (act_action b) eqn:Eb; [done|].
    destruct (next_action_spec m a Ha) as [_ Hu]. rewrite (Hu name b Hn Hb Eb) in Hl. done.
Qed.

(** * Witnesses *)

(** Version 1 is ready and no longer aspired, version 2 is new and aspired; a
    request for versions 2 and 3 is queued. *)
Definition ex_ready : LoaderHarness bool :=
  mkLoaderHarness (mkServableId "m" 1) (Some 1) (Some false) (mkHarnessOptions 1 true)
    State.kReady StatusOK false [CallLoad StatusOK].

Definition ex_new : LoaderHarness bool :=
  newLoaderHarness (mkServableId "m" 2) (Some 2) (Some true) (mkHarnessOptions 1 true).

Definition ex_manager : BasicManager bool :=
  UpdateServingMap (emplace_harness ex_new (emplace_harness ex_ready
    (Create 1 1 true true None))).

Definition ex_avm : AspiredVersionsManager :=
  EnqueueAspiredVersionsRequest "m"
    [DataOk (mkServableId "m" 2) 20; DataOk (mkServableId "m" 3) 30] (mkAVM [] ex_manager).

Lemma ex_lookup p h :
  bm_managed_map ex_manager !! p = Some h → (p = 0 ∧ h = ex_ready) ∨ (p = 1 ∧ h = ex_new).
Proof.
  cbn [ex_manager UpdateServingMap set_handles_map emplace_harness Create bm_managed_map
    bm_next_address]. rewrite lookup_insert_Some, lookup_insert_Some, lookup_empty. naive_solver.
Qed.

Lemma ex_managed_ok : managed_ok ex_manager.
Proof.
  split.
  - intros p q h h' [[-> ->]|[-> ->]]%ex_lookup [[-> ->]|[-> ->]]%ex_lookup; done.
  - intros p Hp. apply eq_None_not_Some. intros [h [[-> ->]|[-> ->]]%ex_lookup];
      cbn in Hp; lia.
  - intros p h [[-> ->]|[-> ->]]%ex_lookup.
    + split; simpl; [done|]. by exists LLoaded.
    + split; simpl; [done|]. by exists LNotLoaded.
Qed.

Lemma ex_view i s :
  view ex_manager i = Some s → s = loader_state_snapshot ex_ready ∨ s = loader_state_snapshot ex_new.
Proof.
  intros (h&(p&Hp&_)%by_id_lookup&->)%fmap_Some; [|apply ex_managed_ok].
  apply ex_lookup in Hp as [[_ ->]|[_ ->]]; auto.
Qed.

Lemma ex_pending_ok : pending_ok (pending_aspired_versions_requests ex_avm).
Proof.
  apply Enqueue_pending_ok; [repeat constructor|]. split; [constructor|].
  by intros name versions ?%not_elem_of_nil.
Qed.

Lemma pending_requests_handled_witness :
  aspires (basic_manager (HandlePendingAspiredVersionsRequests ex_avm)) (mkServableId "m" 3).
Proof.
  destruct (pending_requests_handled ex_avm ex_managed_ok ex_pending_ok) as (_&H&_).
  specialize (H "m" [DataOk (mkServableId "m" 2) 20; DataOk (mkServableId "m" 3) 30]
    ltac:(vm_compute; left)).
  assert (ContainsAnyReaspiredVersions "m"
    [DataOk (mkServableId "m" 2) 20; DataOk (mkServableId "m" 3) 30] (basic_manager ex_avm) = false)
    as E by (vm_compute; reflexivity).
  rewrite E in H. apply H; [reflexivity|].
  apply elem_of_version_numbers. exists (DataOk (mkServableId "m" 3) 30).
  split; [right; left|reflexivity].
Defined.

Lemma FlushServables_spec_witness :
  view (FlushServables ex_manager) (mkServableId "m" 1) = Some (loader_state_snapshot ex_ready).
Proof.
  rewrite (FlushServables_spec ex_manager (mkServableId "m" 1) ex_managed_ok).
  vm_compute. reflexivity.
Defined.

Lemma policy_action_accepted_witness :
  ∃ h m', by_id ex_manager !! mkServableId "m" 2 = Some h ∧
    InvokePolicyAndExecuteAction (H := AvailabilityPreservingPolicy) ex_manager =
      (Some (mkRequest kLoadRequest (mkServableId "m" 2)), m').
Proof.
  destruct (policy_action_accepted (P := AvailabilityPreservingPolicy) ex_manager
    (mkAction ActionLoad (mkServableId "m" 2)) ex_managed_ok) as (h&m'&Hh&E&_).
  - vm_compute. reflexivity.
  - exists h, m'. split; [exact Hh|exact E].
Defined.
