(* ===== verification/AspiredRollout.v ===== *)
(** * Roll-outs by the periodic function

    The periodic function of [aspired_versions_manager.cc] (lines 184-195) flushes
    finished versions, takes over queued requests and carries out one action of the
    policy.  With [num_load_threads] and [num_unload_threads] 0, the defaults of
    [AspiredVersionsManager::Options], the basic manager runs requests on an
    [InlineExecutor] ([CreateExecutor], [basic_manager.cc]), so that the action is over
    when the function returns.  [manage_round] is one call of the function with these
    executors and [manage_rounds] several.

    The theorem: when loads succeed, enough calls lead from any queue of requests to a
    manager that serves exactly the versions that the sources asked for, and it stays
    that way. *)
From S2P Require Import Prelude Status Servable LoaderHarness VersionPolicy Resources BasicManager ManagerSystem AspiredVersionsManager.

(** ** The function with inline executors *)

Section rounds.
Context {P : AspiredVersionPolicy}.
Context (rc : option nat → Estimate) (rs : nat → Estimate) (load : nat → Status) (cancelled : nat → bool).

Definition manage_round (x : AspiredVersionsManager) : option AspiredVersionsManager :=
  let '(request, x) := ManageState x in
  match request with
  | Some r =>
      m ← HandleLoadOrUnloadRequest rc rs load cancelled r (basic_manager x);
      Some (mkAVM (pending_aspired_versions_requests x) m)
  | None => Some x
  end.

Fixpoint manage_rounds (n : nat) (x : AspiredVersionsManager) : option AspiredVersionsManager :=
  match n with
  | O => Some x
  | S n => manage_round x ≫= manage_rounds n
  end.

(** [InvokePolicyAndExecuteAction] with these executors. *)
Definition invoke_inline (m : BasicManager bool) : option (BasicManager bool) :=
  match InvokePolicyAndExecuteAction m with
  | (Some r, m) => HandleLoadOrUnloadRequest rc rs load cancelled r m
  | (None, m) => Some m
  end.

Lemma manage_round_eq x :
  manage_round x =
  let '(kept, m) := handle_pending (pending_aspired_versions_requests x) (FlushServables (basic_manager x)) in
  m ← invoke_inline m; Some (mkAVM kept m).
Proof.
  unfold manage_round, ManageState, HandlePendingAspiredVersionsRequests, invoke_inline. cbn [pending_aspired_versions_requests basic_manager].
  destruct (handle_pending _ _) as [kept m]. cbn [basic_manager]. destruct (InvokePolicyAndExecuteAction m) as [[r|] m']; done.
Qed.

Lemma manage_rounds_add n k x : manage_rounds (n + k) x = manage_rounds n x ≫= manage_rounds k.
Proof.
  revert x. induction n as [|n IH]; intros x; [done|]. cbn [Nat.add manage_rounds].
  destruct (manage_round x) as [x'|]; [apply IH|done].
Qed.
End rounds.

(** What the manager relies on to finish: on versions that are loaded, or new and
    aspired, a policy stops only when all are aspired and loaded. *)
Class SettlingPolicy (P : AspiredVersionPolicy) : Prop :=
  policy_settles vs :
    (∀ v, v ∈ vs → as_state v = State.kReady ∨ as_state v = State.kNew ∧ as_is_aspired v = true) →
    GetNextAction vs = None → ∀ v, v ∈ vs → as_is_aspired v = true ∧ as_state v = State.kReady.

#[export] Instance availability_settling : SettlingPolicy AvailabilityPreservingPolicy.
Proof.
  intros vs Hst Hnone. apply availability_none in Hnone as Hn. destruct Hn as [Hnew Hready].
  assert (Hr : ∀ v, v ∈ vs → as_state v = State.kReady).
  { intros v Hv. destruct (Hst v Hv) as [?|[Hs Ha]]; [done|]. specialize (Hnew v Hv). unfold aspired_new in Hnew. by rewrite Hs, Ha in Hnew. }
  intros v Hv. split; [|by apply Hr]. apply not_false_iff_true. intros Ha.
  assert (Hu : unaspired_ready v = true) by (unfold unaspired_ready; by rewrite Ha, (Hr v Hv)).
  destruct (decide (Exists (λ v, as_is_aspired v = true) vs)) as [(w&Hw&Hwa)%Exists_exists|Hno].
  - rewrite Hready in Hu; [done| |done]. exists w. split_and!; [done..|]. unfold is_ready. by rewrite (Hr w Hw).
  - rewrite (availability_none_unaspired _ Hnone) in Hu; [done| |done]. intros w Hw. apply not_true_iff_false. intros Hwa.
    apply Hno, Exists_exists. eauto.
Qed.

#[export] Instance resource_settling : SettlingPolicy ResourcePreservingPolicy.
Proof.
  intros vs Hst Hnone v Hv. pose proof (resource_decides vs) as Hd. unfold GetNextAction, ResourcePreservingPolicy in Hnone.
  rewrite Hnone in Hd. destruct Hd as [Hun Hwhy].
  assert (Ha : ∀ w, w ∈ vs → as_is_aspired w = true).
  { intros w Hw. specialize (Hun w Hw). destruct (Hst w Hw) as [Hs|[_ ?]]; [|done]. unfold unaspired_ready in Hun. rewrite Hs in Hun.
    by destruct (as_is_aspired w). }
  split; [by apply Ha|]. destruct (Hst v Hv) as [?|[Hs _]]; [done|]. destruct Hwhy as [(w&Hw&Hnf)|Hnew].
  - unfold not_aspired_not_finished in Hnf. by rewrite (Ha w Hw) in Hnf.
  - specialize (Hnew v Hv). unfold aspired_new in Hnew. by rewrite Hs, (Ha v Hv) in Hnew.
Qed.

(** ** A manager with no request in flight

    It has no resource tracker; its versions are new, loaded, or unloaded and no longer
    aspired; and its serving map is up to date. *)
Record rolling (m : BasicManager bool) : Prop := {
  ro_ok : managed_ok m;
  ro_tracker : bm_resource_tracker m = None;
  ro_states : ∀ i s, view m i = Some s → rollout_state (aspired_snapshot s);
  ro_serving : ∀ k x, (k, x) ∈ bm_handles_map m ↔ serves (ready_handles (bm_managed_map m)) k x }.

Section rolling.
Implicit Types (m : BasicManager bool) (h : LoaderHarness bool).

(** The loaded harnesses, as far as the serving map shows them. *)
Definition ready_at m (i : ServableId) (l : option nat) : Prop :=
  ∃ h, by_id m !! i = Some h ∧ h_state h = State.kReady ∧ l = h_loader h.

Lemma rolling_frame m m' :
  rolling m → managed_ok m' → bm_resource_tracker m' = bm_resource_tracker m → bm_handles_map m' = bm_handles_map m →
  (∀ i l, ready_at m' i l ↔ ready_at m i l) → (∀ i s, view m' i = Some s → rollout_state (aspired_snapshot s)) →
  rolling m'.
Proof.
  intros [Hok Ht Hs Hserv] Hok' Ht' Hh' Hr Hs'. split; [done|congruence|done|]. intros k x. rewrite Hh', Hserv. apply serves_ext.
  intros y. rewrite !ready_by_id by (by apply mo_unique). symmetry. apply Hr.
Qed.

(** A harness of a version that is not loaded comes or goes. *)
Lemma ready_at_insert m m' i h :
  by_id m' = <[i := h]> (by_id m) → by_id m !! i = None → h_state h ≠ State.kReady →
  ∀ j l, ready_at m' j l ↔ ready_at m j l.
Proof.
  intros Hb Hn Hs j l. unfold ready_at. rewrite Hb. destruct (decide (i = j)) as [<-|Hne].
  - rewrite lookup_insert_eq, Hn. split; intros (g&Hg&Hgs&_); [|done]. by injection Hg as <-.
  - by rewrite lookup_insert_ne.
Qed.

Lemma ready_at_delete m m' i :
  by_id m' = delete i (by_id m) → (∀ h, by_id m !! i = Some h → h_state h ≠ State.kReady) →
  ∀ j l, ready_at m' j l ↔ ready_at m j l.
Proof.
  intros Hb Hs j l. unfold ready_at. rewrite Hb. destruct (decide (i = j)) as [<-|Hne].
  - rewrite lookup_delete_eq. split; intros (g&Hg&Hgs&_); [done|]. by destruct (Hs g Hg).
  - by rewrite lookup_delete_ne.
Qed.

Lemma ready_at_alter m m' i (f : LoaderHarness bool → LoaderHarness bool) :
  by_id m' = alter f i (by_id m) → (∀ h, h_state (f h) = h_state h ∧ h_loader (f h) = h_loader h) →
  ∀ j l, ready_at m' j l ↔ ready_at m j l.
Proof.
  intros Hb Hf j l. unfold ready_at. rewrite Hb. destruct (decide (i = j)) as [<-|Hne]; [|by rewrite lookup_alter_ne].
  rewrite lookup_alter_eq. destruct (by_id m !! i) as [h|]; cbn; [|done]. destruct (Hf h) as [H1 H2].
  split; intros (g&[= <-]&Hg&->); (eexists; split; [done|split; congruence]).
Qed.

(** ** Flushing keeps it *)

Lemma flush_step_rolling m s : view m (snap_id s) = Some s → rolling m → rolling (flush_step m s).
Proof.
  intros Hs Hro. pose proof (ro_ok m Hro) as Hok. destruct (flush_step_view m s Hok Hs) as [Hok' Hv].
  assert (Hst : ∀ i t, view (flush_step m s) i = Some t → rollout_state (aspired_snapshot t)).
  { intros i t. rewrite Hv. destruct (decide _) as [Hd|Hd]; [intros [=]|exact (ro_states m Hro i t)]. }
  unfold flush_step in *. destruct (_ && _) eqn:Hf; [|done]. destruct (StopManagingServable_by_id m (snap_id s) Hok) as [_ Hb].
  eapply rolling_frame; [exact Hro|done|..|exact Hst].
  - unfold StopManagingServable. destruct (FindHarnessInMap _ _) as [[p h]|]; [|done]. by repeat case_match.
  - unfold StopManagingServable. destruct (FindHarnessInMap _ _) as [[p h]|]; [|done]. by repeat case_match.
  - destruct (by_id m !! snap_id s) as [h|] eqn:Eh; [|by intros i l; unfold ready_at; rewrite Hb].
    case_decide as Hd; [|by intros i l; unfold ready_at; rewrite Hb]. eapply ready_at_delete; [exact Hb|].
    intros g Hg. rewrite Eh in Hg. injection Hg as <-. by destruct Hd as [->|[->| ->]].
Qed.

Lemma flush_name_rolling snaps m :
  NoDup (snap_id <$> snaps) → (∀ s, s ∈ snaps → view m (snap_id s) = Some s) → rolling m → rolling (foldl flush_step m snaps).
Proof.
  revert m. induction snaps as [|s snaps IH]; intros m Hnd Hall Hro; cbn [foldl]; [done|].
  rewrite fmap_cons, NoDup_cons in Hnd. destruct Hnd as [Hnin Hnd]. assert (Hs : view m (snap_id s) = Some s) by (apply Hall; left).
  apply IH; [done| |by apply flush_step_rolling]. intros s' Hs'. destruct (flush_step_view m s (ro_ok m Hro) Hs) as [_ ->].
  rewrite decide_False; [apply Hall; by right|]. intros [Heq _]. apply Hnin. rewrite <-Heq. by apply list_elem_of_fmap_2.
Qed.

Lemma flush_rolling m : rolling m → rolling (FlushServables m).
Proof.
  unfold FlushServables. generalize (GetManagedServableNames m) as names. intros names. revert m.
  induction names as [|n names IH]; intros m Hro; cbn [foldl]; [done|]. apply IH, flush_name_rolling; [| |done].
  - apply snapshot_ids_nodup, (mo_unique m (ro_ok m Hro)).
  - intros s Hs. by apply elem_of_snapshots_view in Hs as [? _]; [|apply ro_ok].
Qed.

(** What is left needs an action or is served as wanted. *)
Lemma flush_state m i s :
  rolling m → view (FlushServables m) i = Some s →
  view m i = Some s ∧ (snap_state s = State.kReady ∨ snap_state s = State.kNew ∧ is_aspired s = true).
Proof.
  intros Hro Hs. rewrite FlushServables_spec in Hs by (by apply ro_ok). destruct (view m i) as [t|] eqn:Et; [|done]. cbn in Hs.
  destruct (flushable t) eqn:Hf; [done|]. injection Hs as ->. split; [done|]. unfold flushable in Hf.
  destruct (ro_states m Hro i s Et) as [Hs|[Hs|[Hs Ha]]]; cbn in Hs; [|by left|cbn in Ha; by rewrite Hs, Ha in Hf].
  right. split; [done|]. rewrite Hs in Hf. by destruct (is_aspired s).
Qed.

(** ** Requests that are taken over keep it *)

(** The request has data for each of its versions. *)
Definition has_data (v : ServableData nat) : bool := match v with DataOk _ _ => true | DataError _ _ => false end.

Lemma CancelLoadServableRetry_frame m i :
  managed_ok m →
  let m' := CancelLoadServableRetry i m in
  bm_resource_tracker m' = bm_resource_tracker m ∧ bm_handles_map m' = bm_handles_map m ∧
  ∀ j l, ready_at m' j l ↔ ready_at m j l.
Proof.
  intros Hok. unfold CancelLoadServableRetry.
  destruct (by_id_healthy m i Hok) as [(p&h&Hi&Hp&Hid&_&->)|(st&Hst&->&_)]; [|by destruct st].
  destruct (call_changed m p (λ h, (StatusOK, set_cancel_load_retry true h)) h StatusOK (set_cancel_load_retry true h))
    as (m'&->&[_ Hb Ht Hh]&_); try done.
  { by destruct (mo_inv m Hok p h Hp); split. }
  cbn [snd]. split_and!; [done..|].
  apply (ready_at_alter m m' (h_id h) (set_cancel_load_retry true)); [|done]. rewrite Hb. apply map_eq. intros j.
  destruct (decide (h_id h = j)) as [<-|Hne]; [rewrite lookup_insert_eq, lookup_alter_eq, Hid, Hi|rewrite lookup_insert_ne, lookup_alter_ne]; done.
Qed.

Lemma unaspire_step_rolling next m s : rolling m → rolling (unaspire_step next m s).
Proof.
  intros Hro. pose proof (ro_ok m Hro) as Hok. destruct (unaspire_step_view next m s Hok) as [Hok' Hv].
  assert (Hst : ∀ i t, view (unaspire_step next m s) i = Some t → rollout_state (aspired_snapshot t)).
  { intros i t. rewrite Hv. case_decide; [|apply (ro_states m Hro)]. intros (u&Hu&->)%fmap_Some.
    destruct (ro_states m Hro i u Hu) as [?|[?|[? _]]]; [by left|by right; left|by right; right]. }
  unfold unaspire_step in *. case_decide; [done|].
  destruct (SetAdditionalServableState_by_id m (snap_id s) false Hok) as [Hok1 Hb1].
  destruct (CancelLoadServableRetry_frame _ (snap_id s) Hok1) as (Ht2&Hh2&Hr2).
  eapply rolling_frame; [exact Hro|exact Hok'|rewrite Ht2|rewrite Hh2| |exact Hst].
  - unfold SetAdditionalServableState. by destruct (FindHarnessInMap _ _) as [[p h]|].
  - unfold SetAdditionalServableState. by destruct (FindHarnessInMap _ _) as [[p h]|].
  - intros i l. rewrite Hr2. by apply (ready_at_alter _ _ _ _ Hb1).
Qed.

Lemma add_step_rolling additions m v : has_data v = true → rolling m → rolling (add_step additions m v).
Proof.
  intros Hd Hro. pose proof (ro_ok m Hro) as Hok. destruct v as [i x|]; [|done]. unfold add_step, ManageServableWithAdditionalState.
  case_decide; [|done]. destruct (ManageServable_by_id m (DataOk i x) (Some true) Hok) as [Hok' Hb]; [done|].
  assert (bm_resource_tracker (ManageServableInternal (DataOk i x) (Some true) m).2 = bm_resource_tracker m ∧
    bm_handles_map (ManageServableInternal (DataOk i x) (Some true) m).2 = bm_handles_map m) as [Ht Hh].
  { unfold ManageServableInternal. destruct (FindHarnessInMap _ m) as [[? ?]|]; [done|]. cbn.
    unfold PublishOnEventBus. by destruct (bm_has_event_bus m). }
  destruct Hb as [(h&_&Hb&_)|(Hn&_&h&Hb&Hid&Ha&Hs)].
  - eapply rolling_frame; [exact Hro|done|done|done| |].
    + intros j l. unfold ready_at. by rewrite Hb.
    + intros j s. unfold view. rewrite Hb. apply (ro_states m Hro).
  - cbn [sd_id] in *. eapply rolling_frame; [exact Hro|done|done|done|eapply ready_at_insert; [exact Hb|done|by rewrite Hs]|].
    intros j s. unfold view. rewrite Hb. destruct (decide (i = j)) as [<-|Hne].
    + rewrite lookup_insert_eq. intros [= <-]. by left.
    + rewrite lookup_insert_ne by done. apply (ro_states m Hro).
Qed.

Lemma foldl_rolling {B} (f : BasicManager bool → B → BasicManager bool) (bs : list B) m :
  (∀ m b, b ∈ bs → rolling m → rolling (f m b)) → rolling m → rolling (foldl f m bs).
Proof.
  revert m. induction bs as [|b bs IH]; intros m Hf Hro; cbn [foldl]; [done|].
  apply IH; [|apply Hf; [left|done]]. intros m' b' Hb'. apply Hf. by right.
Qed.

Lemma handle_pending_rolling l m :
  (∀ name versions, (name, versions) ∈ l → Forall (λ v, has_data v = true) versions) →
  rolling m → rolling (handle_pending l m).2.
Proof.
  revert m. induction l as [|[name versions] l IH]; intros m Hl Hro; cbn [handle_pending]; [done|].
  assert (Hl' : ∀ name versions, (name, versions) ∈ l → Forall (λ v, has_data v = true) versions) by (intros; eapply Hl; by right).
  destruct (ContainsAnyReaspiredVersions name versions m).
  - specialize (IH m Hl' Hro). by destruct (handle_pending l m).
  - apply IH; [done|]. unfold ProcessAspiredVersionsRequest. apply foldl_rolling.
    + intros m' v Hv. apply add_step_rolling. specialize (Hl name versions ltac:(left)). rewrite Forall_forall in Hl. by apply Hl.
    + apply foldl_rolling; [|done]. intros m' s _. apply unaspire_step_rolling.
Qed.

(** The requests that stay, and the manager when all do. *)
Lemma handle_pending_kept l m : sublist (handle_pending l m).1 l.
Proof.
  revert m. induction l as [|[name versions] l IH]; intros m; cbn [handle_pending]; [done|].
  destruct (ContainsAnyReaspiredVersions name versions m).
  - specialize (IH m). destruct (handle_pending l m). by constructor.
  - constructor. apply IH.
Qed.

Lemma handle_pending_all l m :
  length l ≤ length (handle_pending l m).1 → handle_pending l m = (l, m) ∧
  ∀ name versions, (name, versions) ∈ l → ContainsAnyReaspiredVersions name versions m = true.
Proof.
  revert m. induction l as [|[name versions] l IH]; intros m Hlen; cbn [handle_pending] in *.
  { split; [done|]. by intros ?? ?%not_elem_of_nil. }
  destruct (ContainsAnyReaspiredVersions name versions m) eqn:Hc.
  - specialize (IH m). destruct (handle_pending l m) as [kept m']. cbn in Hlen, IH. destruct IH as [[= -> ->] Hall]; [lia|].
    split; [done|]. intros n vs [[= -> ->]|Hin]%elem_of_cons; [done|by eapply Hall].
  - pose proof (sublist_length _ _ (handle_pending_kept l (ProcessAspiredVersionsRequest name versions m))). cbn in Hlen. lia.
Qed.
End rolling.

(** The versions that are served are those that are loaded. *)
Lemma available_ready m i :
  rolling m → i ∈ ListAvailableServableIds m ↔
  ∃ s, view m i = Some s ∧ snap_state s = State.kReady.
Proof.
  intros [Hok _ _ Hserv]. pose proof (mo_unique m Hok) as Hu.
  unfold ListAvailableServableIds. rewrite list_elem_of_fmap. split.
  - intros ([k x]&->&[_ [Hx _]%Hserv]%list_elem_of_filter).
    apply ready_by_id in Hx as (h&Hh&Hs&_); [|done]. exists (loader_state_snapshot h).
    split; [|done]. unfold view. simpl. by rewrite Hh.
  - intros (s&(h&Hh&->)%fmap_Some&Hs). exists (FromId i, (i, h_loader h)). split; [done|].
    apply list_elem_of_filter. split; [by eexists|]. apply Hserv. split; [|done].
    apply ready_by_id; [done|]. exists h. by simpl.
Qed.

(** ** Progress *)

Definition snaps (m : BasicManager bool) : gmap ServableId (ServableStateSnapshot bool) :=
  loader_state_snapshot <$> by_id m.

Lemma snaps_lookup m i : snaps m !! i = view m i.
Proof. apply lookup_fmap. Qed.

(** The versions with an action ahead of them. *)
Definition ahead (m : BasicManager bool) : nat :=
  size (filter (λ ix, pending (aspired_snapshot ix.2) = true) (snaps m)).

Lemma flush_ahead m : rolling m → ahead (FlushServables m) ≤ ahead m.
Proof.
  intros Hro. apply map_subseteq_size, map_filter_subseteq_mono, map_subseteq_spec. intros i s.
  rewrite !snaps_lookup. intros Hs. by apply flush_state in Hs as [? _].
Qed.

(** A version after the action on it has been carried out. *)
Definition acted (a : ServableAction) (s : ServableStateSnapshot bool) : ServableStateSnapshot bool :=
  mkSnapshot (snap_id s)
    (match act_action a with ActionLoad => State.kReady | ActionUnload => State.kDisabled end)
    (snap_additional_state s).

Definition request_of (a : ServableAction) : LoadOrUnloadRequest :=
  mkRequest (match act_action a with ActionLoad => kLoadRequest | ActionUnload => kUnloadRequest end) (act_id a).

Section progress.
Context {P : AspiredVersionPolicy} `{!LawfulPolicy P} `{!SettlingPolicy P}.
Context (rc : option nat → Estimate) (rs : nat → Estimate) (load : nat → Status)
  (cancelled : nat → bool) (Hload : load 0 = StatusOK).
Implicit Types (m : BasicManager bool).

(** The request for an action, from its acceptance to its end. *)
Lemma invoke_handles m a :
  rolling m → Manager_GetNextAction m = Some a →
  ∃ m' h h', invoke_inline rc rs load cancelled m = Some m' ∧ managed_ok m' ∧ bm_resource_tracker m' = None ∧
    (∀ k x, (k, x) ∈ bm_handles_map m' ↔ serves (ready_handles (bm_managed_map m')) k x) ∧
    by_id m !! act_id a = Some h ∧ by_id m' = <[act_id a := h']> (by_id m) ∧
    loader_state_snapshot h' = acted a (loader_state_snapshot h) ∧
    pending (aspired_snapshot (loader_state_snapshot h)) = true ∧
    is_aspired (loader_state_snapshot h) = bool_decide (act_action a = ActionLoad).
Proof.
  intros [Hok Htr Hst Hserv] Ha. destruct (perform_accepted m a Hok Ha) as (p&h&m1&Hh&Hs&Has&Hperf&Hc&Hp1).
  unfold invoke_inline, InvokePolicyAndExecuteAction. rewrite Ha, Hperf.
  assert (Hid : h_id h = act_id a) by (apply by_id_lookup in Hh as (?&_&?); [done|apply (mo_unique m Hok)]).
  assert (∃ m2 h2, HandleLoadOrUnloadRequest rc rs load cancelled (request_of a) m1 = Some m2 ∧
    by_id m2 = <[act_id a := h2]> (by_id m1) ∧ managed_ok m2 ∧ bm_resource_tracker m2 = None ∧
    (∀ k x, (k, x) ∈ bm_handles_map m2 ↔ serves (ready_handles (bm_managed_map m2)) k x) ∧
    h_state h2 = snap_state (acted a (loader_state_snapshot h)) ∧ h_id h2 = act_id a ∧
    h_additional_state h2 = h_additional_state h) as (m2&h2&E2&Hb2&Hok2&Htr2&Hserv2&Hs2&Hid2&Ha2).
  { pose proof (ch_ok _ _ _ _ Hc) as Hok1. unfold request_of, acted. destruct (act_action a).
    - destruct (load_completes rc rs load cancelled m1 p (set_state State.kLoadRequested h)
        (act_id a) Hok1) as (m2&h2&?&?&?&?&Hh2&?&?&?); try done.
      { rewrite (ch_tracker _ _ _ _ Hc). done. }
      exists m2, h2. split_and!; try done. intros k x. rewrite Hh2. apply elem_of_serving_map. by apply mo_unique.
    - destruct (unload_completes rc rs load cancelled m1 p (set_state State.kUnloadRequested h)
        (act_id a) Hok1) as (m2&h2&?&?&?&Ht&?&?&?&?); try done.
      exists m2, h2. split_and!; try done. by rewrite Ht, (ch_tracker _ _ _ _ Hc). }
  exists m2, h, h2. split_and!; [done..| | | |].
  - by rewrite Hb2, (ch_by_id _ _ _ _ Hc), insert_insert_eq.
  - unfold loader_state_snapshot at 1. by rewrite Hs2, Hid2, Ha2, <-Hid.
  - unfold pending, aspired_new, unaspired_ready. simpl. rewrite Has, Hs. by destruct (act_action a).
  - rewrite Has. by destruct (act_action a).
Qed.

Lemma invoke_acts m a :
  rolling m → Manager_GetNextAction m = Some a →
  ∃ m', invoke_inline rc rs load cancelled m = Some m' ∧ rolling m' ∧ ahead m' < ahead m ∧
    ∀ i, is_aspired <$> view m' i = is_aspired <$> view m i.
Proof.
  intros Hro Ha. destruct (invoke_handles m a Hro Ha) as (m'&h&h'&E&Hok'&Htr'&Hserv'&Hh&Hb&Hsnap&Hp&Hasp).
  exists m'. split; [done|].
  assert (Hsn : snaps m' = <[act_id a := acted a (loader_state_snapshot h)]> (snaps m)) by (unfold snaps; by rewrite Hb, fmap_insert, Hsnap).
  assert (Hv : snaps m !! act_id a = Some (loader_state_snapshot h)) by (rewrite snaps_lookup; unfold view; by rewrite Hh).
  assert (Hacted : aspired_snapshot (acted a (loader_state_snapshot h)) = mkAspired (h_id h)
      (match act_action a with ActionLoad => State.kReady | ActionUnload => State.kDisabled end) (bool_decide (act_action a = ActionLoad)))
    by (rewrite <-Hasp; done).
  assert (Hpend : pending (aspired_snapshot (acted a (loader_state_snapshot h))) = false) by (rewrite Hacted; by destruct (act_action a)).
  split_and!; [split; try done| |].
  - intros i s. rewrite <-snaps_lookup, Hsn. destruct (decide (act_id a = i)) as [<-|Hne].
    + rewrite lookup_insert_eq. intros [= <-]. rewrite Hacted.
      destruct (act_action a); [by right; left|by right; right].
    + rewrite lookup_insert_ne, snaps_lookup by done. apply (ro_states m Hro).
  - unfold ahead. rewrite Hsn, map_filter_insert_False by (cbn; by rewrite Hpend).
    rewrite map_filter_delete. apply map_subset_size. apply delete_subset. exists (loader_state_snapshot h).
    by apply map_lookup_filter_Some.
  - intros i. rewrite <-!snaps_lookup, Hsn. destruct (decide (act_id a = i)) as [<-|Hne].
    + by rewrite lookup_insert_eq, Hv.
    + by rewrite lookup_insert_ne.
Qed.

Lemma invoke_idle m : Manager_GetNextAction m = None → invoke_inline rc rs load cancelled m = Some m.
Proof. intros H. unfold invoke_inline, InvokePolicyAndExecuteAction. by rewrite H. Qed.

Lemma invoke_cases m :
  rolling m →
  ∃ m', invoke_inline rc rs load cancelled m = Some m' ∧ rolling m' ∧ (∀ i, is_aspired <$> view m' i = is_aspired <$> view m i) ∧
    (ahead m' < ahead m ∨ m' = m ∧ Manager_GetNextAction m = None).
Proof.
  intros Hro. destruct (Manager_GetNextAction m) as [a|] eqn:Ha.
  - destruct (invoke_acts m a Hro Ha) as (m'&?&?&?&?). exists m'. auto.
  - exists m. split_and!; [by apply invoke_idle|done|done|by right].
Qed.

(** ** What is wanted *)

(** The versions the sources want: those of the request queued for their name, or else
    those that are aspired. *)
Definition wanted (x : AspiredVersionsManager) (i : ServableId) : Prop :=
  (∃ versions, (sid_name i, versions) ∈ pending_aspired_versions_requests x ∧ sid_version i ∈ GetVersionNumbers versions) ∨
  (sid_name i ∉ (pending_aspired_versions_requests x).*1) ∧ aspires (basic_manager x) i.

Record round_inv (x : AspiredVersionsManager) : Prop := {
  ri_rolling : rolling (basic_manager x);
  ri_pending : pending_ok (pending_aspired_versions_requests x);
  ri_data : ∀ name versions, (name, versions) ∈ pending_aspired_versions_requests x → Forall (λ v, has_data v = true) versions }.

(** All that is managed is aspired and loaded, and nothing is queued. *)
Definition settled (x : AspiredVersionsManager) : Prop :=
  pending_aspired_versions_requests x = [] ∧
  ∀ i s, view (basic_manager x) i = Some s → is_aspired s = true ∧ snap_state s = State.kReady.

Lemma aspires_flags m m' i : is_aspired <$> view m' i = is_aspired <$> view m i → aspires m' i ↔ aspires m i.
Proof.
  unfold aspires. intros H. destruct (view m' i) as [s'|], (view m i) as [s|]; try done.
  injection H as H. split; intros (?&[= <-]&?); (eexists; split; [done|congruence]).
Qed.

Lemma flush_aspires m i : rolling m → aspires (FlushServables m) i ↔ aspires m i.
Proof.
  intros Hro. unfold aspires. rewrite FlushServables_spec by (by apply ro_ok). destruct (view m i) as [s|]; cbn; [|done].
  destruct (flushable s) eqn:Hf; [|done]. split; [by intros (?&?&_)|]. intros (?&[= <-]&Ha). unfold flushable in Hf. by rewrite Ha, andb_false_r in Hf.
Qed.

Lemma pending_same l name versions versions' :
  pending_ok l → (name, versions) ∈ l → (name, versions') ∈ l → versions = versions'.
Proof.
  intros Hp [i Hi]%list_elem_of_lookup [j Hj]%list_elem_of_lookup. pose proof (pending_keys l Hp) as Hnd.
  assert (i = j) as ->; [|congruence]. eapply NoDup_lookup; [exact Hnd|by rewrite list_lookup_fmap, Hi|by rewrite list_lookup_fmap, Hj].
Qed.

Lemma pending_ok_sublist l l' : sublist l' l → pending_ok l → pending_ok l'.
Proof.
  intros Hs [Hsort Hn]. split; [|intros name versions Hin; apply Hn; by eapply elem_of_sublist].
  clear Hn. induction Hs as [|x l1 l2 Hs IH|x l1 l2 Hs IH]; [done|..]; apply StronglySorted_inv in Hsort as [Hsort Hx]; [|by apply IH].
  constructor; [by apply IH|]. rewrite Forall_forall in Hx |- *. intros y Hy. apply Hx. by eapply elem_of_sublist.
Qed.

Lemma handle_wanted l m i :
  managed_ok m → pending_ok l →
  wanted (mkAVM (handle_pending l m).1 (handle_pending l m).2) i ↔ wanted (mkAVM l m) i.
Proof.
  intros Hok Hp. pose proof (handle_pending_spec l m Hok Hp) as H. pose proof (handle_pending_kept l m) as Hsub.
  destruct (handle_pending l m) as [kept m']. destruct H as (Hok'&Hreq&Hother&Hkept). unfold wanted. cbn in *.
  destruct (decide (sid_name i ∈ l.*1)) as [Hin|Hnin].
  - pose proof Hin as ([n versions]&Hn&Hv)%list_elem_of_fmap. cbn in Hn. subst n. specialize (Hreq _ _ Hv).
    destruct (ContainsAnyReaspiredVersions _ _ _).
    + destruct Hreq as [Hk _]. assert (sid_name i ∈ kept.*1) by (apply list_elem_of_fmap; by exists (sid_name i, versions)).
      split; (intros [(vs&Hvs&?)|[? _]]; [|done]); left; exists vs; split; try done; [by eapply elem_of_sublist|].
      by rewrite (pending_same l (sid_name i) vs versions).
    + destruct Hreq as [Hk Hasp]. rewrite (Hasp i eq_refl). split.
      * intros [(vs&Hvs&?)|[_ ?]]; [|by eauto]. destruct Hk. apply list_elem_of_fmap. by exists (sid_name i, vs).
      * intros [(vs&Hvs&?)|[? _]]; [|done]. right. split; [done|]. by rewrite <-(pending_same l (sid_name i) vs versions).
  - assert (sid_name i ∉ kept.*1) by (intros ?%Hkept; done). unfold aspires. rewrite (Hother i Hnin).
    split; (intros [(vs&Hvs&?)|[? ?]]; [|by auto]); exfalso;
      [apply H|apply Hnin]; apply list_elem_of_fmap; by exists (sid_name i, vs).
Qed.

(** A policy that has nothing to do on flushed versions. *)
Lemma flushed_settled m :
  rolling m → Manager_GetNextAction (FlushServables m) = None →
  ∀ i s, view (FlushServables m) i = Some s → is_aspired s = true ∧ snap_state s = State.kReady.
Proof.
  intros Hro Hnone i s Hs. set (m1 := FlushServables m) in *. assert (Hok : managed_ok m1) by (by apply ro_ok, flush_rolling).
  pose proof (next_action_none m1 Hnone (sid_name i)) as Hn. assert (sid_name i ∈ GetManagedServableNames m1) as Hin.
  { apply names_view; [done|]. exists i. by rewrite Hs. }
  apply (policy_settles (aspired_state_snapshots (sid_name i) m1)) with (v := aspired_snapshot s); [|by apply Hn|].
  - intros v (t&Ht&_&->)%elem_of_aspired_snapshots; [|done]. by apply flush_state in Ht as [_ ?].
  - apply elem_of_aspired_snapshots; [done|]. exists s. cbn. by rewrite (view_id m1 i s Hok Hs).
Qed.

(** One call of the function. *)
Lemma round_progress x :
  round_inv x →
  ∃ x', manage_round rc rs load cancelled x = Some x' ∧ round_inv x' ∧ (∀ i, wanted x' i ↔ wanted x i) ∧
    (length (pending_aspired_versions_requests x') < length (pending_aspired_versions_requests x) ∨
     length (pending_aspired_versions_requests x') = length (pending_aspired_versions_requests x) ∧
       ahead (basic_manager x') < ahead (basic_manager x) ∨
     settled x').
Proof.
  intros [Hro Hp Hd]. destruct x as [l m]. cbn in *. rewrite manage_round_eq. cbn [pending_aspired_versions_requests basic_manager].
  pose proof (flush_rolling m Hro) as Hro1. set (m1 := FlushServables m) in *.
  pose proof (handle_pending_rolling l m1 Hd Hro1) as Hro2. pose proof (handle_pending_kept l m1) as Hsub.
  pose proof (handle_wanted l m1) as Hw. pose proof (handle_pending_all l m1) as Hall.
  destruct (handle_pending l m1) as [kept m2]. cbn in Hro2, Hsub, Hw, Hall.
  destruct (invoke_cases m2 Hro2) as (m3&->&Hro3&Hflags&Hcase). cbn [mbind option_bind].
  exists (mkAVM kept m3). split; [done|]. split; [|split].
  - split; cbn; [done|by eapply pending_ok_sublist|]. intros name versions Hin. eapply Hd. by eapply elem_of_sublist.
  - intros i. trans (wanted (mkAVM kept m2) i); [unfold wanted; cbn; by rewrite (aspires_flags m2 m3 i (Hflags i))|].
    rewrite Hw by (done || by apply ro_ok). unfold wanted, m1. cbn. by rewrite (flush_aspires m i Hro).
  - cbn. destruct (decide (length kept < length l)) as [|Hlen]; [by left|right]. destruct Hall as [[= -> ->] Hre]; [lia|].
    destruct Hcase as [Hlt|[-> Hnone]]; [left; pose proof (flush_ahead m Hro) as Hf; fold m1 in Hf; lia|right].
    assert (Hset : ∀ i s, view m1 i = Some s → is_aspired s = true ∧ snap_state s = State.kReady) by (by apply flushed_settled).
    split; cbn; [|done]. destruct l as [|[name versions] l]; [done|]. specialize (Hre name versions ltac:(left)). exfalso.
    apply not_false_iff_true in Hre. apply Hre, ContainsAnyReaspired_false; [by apply ro_ok|]. intros i s Hs _ _. by apply (Hset i s).
Qed.
End progress.

Section converge.
Context {P : AspiredVersionPolicy} `{!LawfulPolicy P} `{!SettlingPolicy P}.
Context (rc : option nat → Estimate) (rs : nat → Estimate) (load : nat → Status)
  (cancelled : nat → bool) (Hload : load 0 = StatusOK).

(** A lawful policy does nothing where all is settled. *)
Lemma settled_round x :
  round_inv x → settled x →
  ∃ x', manage_round rc rs load cancelled x = Some x' ∧ round_inv x' ∧ settled x' ∧ ∀ i, wanted x' i ↔ wanted x i.
Proof.
  intros Hx [Hl Hset]. destruct x as [l m]. cbn in *. subst l. pose proof (ri_rolling _ Hx) as Hro. cbn in Hro.
  pose proof (flush_rolling m Hro) as Hro1.
  assert (Hset1 : ∀ i s, view (FlushServables m) i = Some s → is_aspired s = true ∧ snap_state s = State.kReady).
  { intros i s Hs. apply flush_state in Hs as [Hs _]; [|done]. by apply (Hset i). }
  rewrite manage_round_eq. cbn [pending_aspired_versions_requests basic_manager handle_pending].
  rewrite invoke_idle; [|destruct (Manager_GetNextAction (FlushServables m)) as [a|] eqn:Ha; [|done]].
  - cbn [mbind option_bind]. eexists. split_and!; [done|by split; cbn; [|apply (ri_pending _ Hx)|apply (ri_data _ Hx)]|done|].
    intros i. unfold wanted. cbn. by rewrite (flush_aspires m i Hro).
  - destruct (action_view _ a (ro_ok _ Hro1) Ha) as (h&Hh&Hs). destruct (Hset1 (act_id a) (loader_state_snapshot h)) as [H1 H2].
    { unfold view. by rewrite Hh. }
    cbn in H2. rewrite H2 in Hs. destruct (act_action a); [by destruct Hs|]. destruct Hs. congruence.
Qed.

Lemma rounds_settle x :
  round_inv x →
  ∃ n x', manage_rounds rc rs load cancelled n x = Some x' ∧ round_inv x' ∧ settled x' ∧ ∀ i, wanted x' i ↔ wanted x i.
Proof.
  remember (length (pending_aspired_versions_requests x)) as k eqn:Hk. revert x Hk. induction (lt_wf k) as [k _ IHk]. intros x Hk.
  remember (ahead (basic_manager x)) as w eqn:Hw. revert x Hk Hw. induction (lt_wf w) as [w _ IHw]. intros x -> -> Hx.
  destruct (round_progress rc rs load cancelled Hload x Hx) as (x1&E&Hx1&Hw1&Hcase).
  assert (Hgo : (∃ n x', manage_rounds rc rs load cancelled n x1 = Some x' ∧ round_inv x' ∧ settled x' ∧ ∀ i, wanted x' i ↔ wanted x1 i) →
    ∃ n x', manage_rounds rc rs load cancelled n x = Some x' ∧ round_inv x' ∧ settled x' ∧ ∀ i, wanted x' i ↔ wanted x i).
  { intros (n&x'&E'&?&?&Hw'). exists (S n), x'. cbn [manage_rounds]. rewrite E. split_and!; try done. intros i. by rewrite Hw', Hw1. }
  apply Hgo. destruct Hcase as [Hlt|[[Heq Hlt]|Hset]].
  - by eapply IHk.
  - by eapply IHw.
  - exists 0, x1. by split_and!.
Qed.

Lemma settled_available x i : round_inv x → settled x → i ∈ ListAvailableServableIds (basic_manager x) ↔ wanted x i.
Proof.
  intros [Hro _ _] [Hl Hset]. rewrite available_ready by done. unfold wanted. rewrite Hl. split.
  - intros (s&Hs&_). right. split; [apply not_elem_of_nil|]. exists s. split; [done|]. by apply (Hset i s).
  - intros [(vs&?%not_elem_of_nil&_)|[_ (s&Hs&_)]]; [done|]. exists s. split; [done|]. by apply (Hset i s).
Qed.
End converge.

(** ** Theorem *)

(** C8: a roll-out converges.  Whatever requests are queued, once no more come, enough
    calls of the periodic function lead to a state in which no request is left in the
    queue and exactly the versions that the last request for each servable asked for are
    served (for a servable with no request, those that were aspired); and every later
    call keeps it so.  For a manager that runs its requests inline, as with the default
    options, has no resource tracker, and starts with no request in flight and no failed
    load; the queued versions have data, loads succeed at the first try, and no client
    keeps a handle of an old serving map.  The policy is any that is lawful and settles,
    as both policies of the repository do. *)
Theorem rollout_serves_wanted {P : AspiredVersionPolicy} `{!LawfulPolicy P} `{!SettlingPolicy P}
    (x : AspiredVersionsManager) (rc : option nat → Estimate) (rs : nat → Estimate)
    (load : nat → Status) (cancelled : nat → bool) :
  round_inv x → load 0 = StatusOK →
  ∃ n, ∀ k, n ≤ k → ∃ x', manage_rounds rc rs load cancelled k x = Some x' ∧
    pending_aspired_versions_requests x' = [] ∧
    ∀ i, i ∈ ListAvailableServableIds (basic_manager x') ↔ wanted x i.
Proof.
  intros Hx Hload. destruct (rounds_settle rc rs load cancelled Hload x Hx) as (n&x1&E1&Hx1&Hs1&Hw1). exists n. intros k Hk.
  replace k with (n + (k - n)) by lia. rewrite manage_rounds_add, E1. cbn [mbind option_bind].
  assert (∃ x', manage_rounds rc rs load cancelled (k - n) x1 = Some x' ∧ round_inv x' ∧ settled x' ∧ ∀ i, wanted x' i ↔ wanted x i) as (x'&E&Hx'&Hs'&Hw').
  { clear E1. generalize (k - n) as j. intros j. revert x1 Hx1 Hs1 Hw1. induction j as [|j IH]; intros x1 Hx1 Hs1 Hw1; [by exists x1|].
    destruct (settled_round rc rs load cancelled x1 Hx1 Hs1) as (x2&E2&Hx2&Hs2&Hw2). cbn [manage_rounds]. rewrite E2. cbn [mbind option_bind].
    apply IH; [done..|]. intros i. by rewrite Hw2. }
  exists x'. split; [done|]. split; [apply Hs'|]. intros i. rewrite <-Hw'. by apply settled_available.
Qed.

(** ** Witness: versions 1 and 2 give way to 2 and 3 *)

Lemma ex_rolling : rolling ex_manager.
Proof.
  split; [apply ex_managed_ok|done| |].
  - intros i s [->| ->]%ex_view; [by right; left|by left].
  - intros k x. apply elem_of_serving_map, ex_managed_ok.
Qed.

Lemma ex_round_inv : round_inv ex_avm.
Proof.
  split; [apply ex_rolling|apply ex_pending_ok|]. intros name versions H. vm_compute in H. apply list_elem_of_singleton in H as [= -> ->].
  repeat constructor.
Qed.

Lemma rollout_serves_wanted_witness :
  ∃ n, ∀ k, n ≤ k → ∃ x', manage_rounds (P := AvailabilityPreservingPolicy) (λ _, (StatusOK, [])) (λ _, (StatusOK, []))
      (λ _, StatusOK) (λ _, false) k ex_avm = Some x' ∧ pending_aspired_versions_requests x' = [] ∧
    ∀ i, i ∈ ListAvailableServableIds (basic_manager x') ↔ wanted ex_avm i.
Proof.
  apply (rollout_serves_wanted (P := AvailabilityPreservingPolicy) ex_avm (λ _, (StatusOK, [])) (λ _, (StatusOK, []))
    (λ _, StatusOK) (λ _, false) ex_round_inv eq_refl).
Defined.

(** Three calls do it: version 3 is loaded, 1 is unloaded, and 2 is loaded. *)
Example ex_three_rounds :
  ListAvailableServableIds ∘ basic_manager <$> manage_rounds (P := AvailabilityPreservingPolicy)
    (λ _, (StatusOK, [])) (λ _, (StatusOK, [])) (λ _, StatusOK) (λ _, false) 3 ex_avm =
  Some [mkServableId "m" 2; mkServableId "m" 3].
Proof. vm_compute. reflexivity. Qed.
