(* ===== verification/StateMonitor.v ===== *)
(** The servable state monitor:
    [tensorflow_serving/core/servable_state_monitor.{h,cc}].

    The monitor receives the events of the event bus, keeps the last state of
    every servable, the states of those that are live and a bounded log, and
    calls back the clients that wait for servables to reach a state.  A client's
    callback is a number; the calls made are recorded in order in [mon_calls]. *)
From S2P Require Import Prelude Status Servable.

(** * Data *)

(** [ServableStateAndTime]. *)
Record ServableStateAndTime := mkStateAndTime {
  st_state : ServableState;
  st_event_time_micros : Z }.

Abbreviation VersionMap := (gmap Z ServableStateAndTime).
Abbreviation ServableMap := (gmap string VersionMap).

(** [ServableStateNotificationRequest]. *)
Record NotificationRequest := mkNotification {
  nr_servables : list ServableRequest;
  nr_goal_state : ManagerState;
  nr_notifier_fn : nat }.

(** Calls of the clients' functions. *)
Inductive MonitorCall :=
  | StateReached (notifier_fn : nat) (reached_goal_state : bool)
      (states_reached : gmap ServableId ManagerState)
  | NotifyCall (notify_fn : nat) (s : ServableState).

Record ServableStateMonitor := mkMonitor {
  mon_max_count_log_events : nat;
  mon_states : ServableMap;
  mon_live_states : ServableMap;
  mon_log : list ServableStateAndTime;
  mon_requests : list NotificationRequest;
  mon_notify_fns : list nat;
  mon_calls : list MonitorCall }.

(** * Operations *)

Definition new_monitor (max_count_log_events : nat) : ServableStateMonitor :=
  mkMonitor max_count_log_events ∅ ∅ [] [] [] [].

(** The assignment [m[name][version] = x] on a map of maps. *)
Definition assign (name : string) (version : Z) (x : ServableStateAndTime) (m : ServableMap) :
    ServableMap :=
  <[name := <[version := x]> (default ∅ (m !! name))]> m.

(** [EraseLiveStatesEntry]. *)
Definition EraseLiveStatesEntry (x : ServableStateAndTime) (live_states : ServableMap) :
    ServableMap :=
  let servable_name := sid_name (ss_id (st_state x)) in
  let version := sid_version (ss_id (st_state x)) in
  match live_states !! servable_name with
  | None => live_states
  | Some version_map =>
      match version_map !! version with
      | None => live_states
      | Some _ =>
          let version_map := delete version version_map in
          if bool_decide (version_map = ∅) then delete servable_name live_states
          else <[servable_name := version_map]> live_states
      end
  end.

(** [UpdateLiveStates]. *)
Definition UpdateLiveStates (x : ServableStateAndTime) (live_states : ServableMap) : ServableMap :=
  if negb (bool_decide (ss_manager_state (st_state x) = kEnd))
  then assign (sid_name (ss_id (st_state x))) (sid_version (ss_id (st_state x))) x live_states
  else EraseLiveStatesEntry x live_states.

(** [GetStateAndTimeInternal], [GetState], [GetVersionStates]. *)
Definition GetStateAndTimeInternal (i : ServableId) (states : ServableMap) :
    option ServableStateAndTime :=
  match states !! sid_name i with
  | None => None
  | Some versions => versions !! sid_version i
  end.

Definition GetState (i : ServableId) (m : ServableStateMonitor) : option ServableState :=
  st_state <$> GetStateAndTimeInternal i (mon_states m).

Definition GetVersionStates (servable_name : string) (m : ServableStateMonitor) : VersionMap :=
  default ∅ (mon_states m !! servable_name).

(** [HasSpecificServableReachedState]. *)
Definition HasSpecificServableReachedState (goal_state : ManagerState)
    (opt_servable_state_time : option ServableStateAndTime) : option ManagerState :=
  match opt_servable_state_time with
  | None => None
  | Some x =>
      let state := ss_manager_state (st_state x) in
      if negb (bool_decide (state = goal_state)) && negb (bool_decide (state = kEnd))
      then None else Some state
  end.

(** The entries of a version map in the order of [std::greater]. *)
Definition newer_first (a b : Z * ServableStateAndTime) : Prop := (b.1 <= a.1)%Z.

#[export] Instance newer_first_dec : RelDecision newer_first.
Proof. intros a b. unfold newer_first. apply _. Defined.

Definition entries (version_map : VersionMap) : list (Z * ServableStateAndTime) :=
  merge_sort newer_first (map_to_list version_map).

(** [HasAnyServableInStreamReachedState]. *)
Definition goal_or_end (goal_state : ManagerState) (x : ServableStateAndTime) : bool :=
  bool_decide (ss_manager_state (st_state x) = goal_state) ||
  bool_decide (ss_manager_state (st_state x) = kEnd).

Definition HasAnyServableInStreamReachedState (stream_name : string) (goal_state : ManagerState)
    (states : ServableMap) : option ServableId :=
  match states !! stream_name with
  | None => None
  | Some version_map =>
      (λ vx, ss_id (st_state vx.2)) <$>
        List.find (λ vx, goal_or_end goal_state vx.2) (entries version_map)
  end.

(** [ShouldSendStateReachedNotification]: the loop over the requested servables. *)
Fixpoint should_send (states : ServableMap) (goal_state : ManagerState)
    (servables : list ServableRequest) (reached_goal_state : bool)
    (states_reached : gmap ServableId ManagerState) :
    option (bool * gmap ServableId ManagerState) :=
  match servables with
  | [] => Some (reached_goal_state, states_reached)
  | servable_request :: rest =>
      match req_version servable_request with
      | Some version =>
          let servable_id := mkServableId (req_name servable_request) version in
          match HasSpecificServableReachedState goal_state
                  (GetStateAndTimeInternal servable_id states) with
          | None => None
          | Some state =>
              should_send states goal_state rest
                (reached_goal_state && bool_decide (state = goal_state))
                (<[servable_id := state]> states_reached)
          end
      | None =>
          match HasAnyServableInStreamReachedState (req_name servable_request) goal_state states with
          | None => None
          | Some servable_id =>
              match GetStateAndTimeInternal servable_id states with
              | None => None (* dereference of an empty optional *)
              | Some x =>
                  let reached_state := ss_manager_state (st_state x) in
                  should_send states goal_state rest
                    (reached_goal_state && bool_decide (reached_state = goal_state))
                    (<[servable_id := reached_state]> states_reached)
              end
          end
      end
  end.

Definition ShouldSendStateReachedNotification (states : ServableMap) (r : NotificationRequest) :
    option (bool * gmap ServableId ManagerState) :=
  should_send states (nr_goal_state r) (nr_servables r) true ∅.

(** [MaybeSendStateReachedNotifications]: the requests that stay, and the calls. *)
Fixpoint send_reached (states : ServableMap) (requests : list NotificationRequest) :
    list NotificationRequest * list MonitorCall :=
  match requests with
  | [] => ([], [])
  | r :: rest =>
      let '(kept, calls) := send_reached states rest in
      match ShouldSendStateReachedNotification states r with
      | Some (reached, states_reached) =>
          (kept, StateReached (nr_notifier_fn r) reached states_reached :: calls)
      | None => (r :: kept, calls)
      end
  end.

Definition MaybeSendStateReachedNotifications (m : ServableStateMonitor) : ServableStateMonitor :=
  let '(kept, calls) := send_reached (mon_states m) (mon_requests m) in
  mkMonitor (mon_max_count_log_events m) (mon_states m) (mon_live_states m) (mon_log m) kept
    (mon_notify_fns m) (mon_calls m ++ calls).

(** [NotifyWhenServablesReachState] and [Notify]. *)
Definition NotifyWhenServablesReachState (servables : list ServableRequest)
    (goal_state : ManagerState) (notifier_fn : nat) (m : ServableStateMonitor) :
    ServableStateMonitor :=
  MaybeSendStateReachedNotifications
    (mkMonitor (mon_max_count_log_events m) (mon_states m) (mon_live_states m) (mon_log m)
       (mon_requests m ++ [mkNotification servables goal_state notifier_fn])
       (mon_notify_fns m) (mon_calls m)).

Definition Notify (notify_fn : nat) (m : ServableStateMonitor) : ServableStateMonitor :=
  mkMonitor (mon_max_count_log_events m) (mon_states m) (mon_live_states m) (mon_log m)
    (mon_requests m) (mon_notify_fns m ++ [notify_fn]) (mon_calls m).

(** [SendNotifications]. *)
Definition SendNotifications (s : ServableState) (m : ServableStateMonitor) :
    ServableStateMonitor :=
  mkMonitor (mon_max_count_log_events m) (mon_states m) (mon_live_states m) (mon_log m)
    (mon_requests m) (mon_notify_fns m)
    (mon_calls m ++ ((λ f, NotifyCall f s) <$> mon_notify_fns m)).

(** The log: events are dropped from the front until there is room for one. *)
Fixpoint pop_until (max : nat) (log : list ServableStateAndTime) : list ServableStateAndTime :=
  match log with
  | [] => []
  | _ :: rest => if decide (max ≤ length log) then pop_until max rest else log
  end.

(** [HandleEvent]; the clean-up at its end calls [SendNotifications] on every path. *)
Definition HandleEvent (x : ServableStateAndTime) (m : ServableStateMonitor) :
    ServableStateMonitor :=
  let i := ss_id (st_state x) in
  let m := mkMonitor (mon_max_count_log_events m)
    (assign (sid_name i) (sid_version i) x (mon_states m))
    (UpdateLiveStates x (mon_live_states m)) (mon_log m) (mon_requests m)
    (mon_notify_fns m) (mon_calls m) in
  let m := MaybeSendStateReachedNotifications m in
  let m := if bool_decide (mon_max_count_log_events m = 0) then m else
    mkMonitor (mon_max_count_log_events m) (mon_states m) (mon_live_states m)
      (pop_until (mon_max_count_log_events m) (mon_log m) ++ [x]) (mon_requests m)
      (mon_notify_fns m) (mon_calls m) in
  SendNotifications (st_state x) m.

(** * The monitor as a transition system *)

Inductive MonitorOp :=
  | Event (x : ServableStateAndTime)
  | WaitFor (servables : list ServableRequest) (goal_state : ManagerState) (notifier_fn : nat)
  | Subscribe (notify_fn : nat).

Definition run_monitor (m : ServableStateMonitor) (op : MonitorOp) : ServableStateMonitor :=
  match op with
  | Event x => HandleEvent x m
  | WaitFor servables goal_state f => NotifyWhenServablesReachState servables goal_state f m
  | Subscribe f => Notify f m
  end.

Definition run_ops (max : nat) (ops : list MonitorOp) : ServableStateMonitor :=
  foldl run_monitor (new_monitor max) ops.

(** The events, the last event of a servable, and the requests of a run. *)
Definition event_of (op : MonitorOp) : option ServableStateAndTime :=
  match op with Event x => Some x | _ => None end.

Definition request_of (op : MonitorOp) : option NotificationRequest :=
  match op with WaitFor s g f => Some (mkNotification s g f) | _ => None end.

Definition events (ops : list MonitorOp) : list ServableStateAndTime := omap event_of ops.

Definition last_event (i : ServableId) (es : list ServableStateAndTime) :
    option ServableStateAndTime :=
  last (filter (λ x, ss_id (st_state x) = i) es).

(** What a request for a servable waits for: a state of [i] that is the goal or
    the end; for a request without a version, the newest such version. *)
Definition satisfied (states : ServableMap) (goal : ManagerState) (r : ServableRequest)
    (i : ServableId) (st : ManagerState) : Prop :=
  sid_name i = req_name r ∧
  (∃ x, GetStateAndTimeInternal i states = Some x ∧ st = ss_manager_state (st_state x) ∧
     goal_or_end goal x = true) ∧
  match req_version r with
  | Some v => sid_version i = v
  | None => ∀ j y, sid_name j = req_name r → GetStateAndTimeInternal j states = Some y →
              goal_or_end goal y = true → (sid_version j <= sid_version i)%Z
  end.

(** Every entry is stored under the id of its own state. *)
Definition well_keyed (states : ServableMap) : Prop :=
  ∀ i x, GetStateAndTimeInternal i states = Some x → ss_id (st_state x) = i.

(** * States, live states and log *)

Lemma lookup_assign i j x m :
  GetStateAndTimeInternal j (assign (sid_name i) (sid_version i) x m) =
  if decide (i = j) then Some x else GetStateAndTimeInternal j m.
Proof.
  unfold GetStateAndTimeInternal, assign. destruct i as [n v], j as [n' v']; simpl.
  destruct (decide (n = n')) as [<-|Hn].
  - rewrite lookup_insert_eq. destruct (decide (v = v')) as [<-|Hv].
    + by rewrite lookup_insert_eq, decide_True.
    + rewrite lookup_insert_ne, decide_False by congruence. by destruct (m !! n).
  - by rewrite lookup_insert_ne, decide_False by congruence.
Qed.

Definition no_empty (m : ServableMap) : Prop := ∀ n vm, m !! n = Some vm → vm ≠ ∅.

Lemma erase_live x m :
  let i := ss_id (st_state x) in
  no_empty m →
  no_empty (EraseLiveStatesEntry x m) ∧
  ∀ j, GetStateAndTimeInternal j (EraseLiveStatesEntry x m) =
    if decide (i = j) then None else GetStateAndTimeInternal j m.
Proof.
  intros i Hne. unfold EraseLiveStatesEntry. fold i. destruct i as [n v]; simpl.
  unfold GetStateAndTimeInternal.
  destruct (m !! n) as [vm|] eqn:En.
  2: { split; [done|]. intros j. case_decide as Hd; [subst j; simpl; by rewrite En|done]. }
  destruct (vm !! v) as [y|] eqn:Ev.
  2: { split; [done|]. intros j. case_decide as Hd; [subst j; simpl; by rewrite En, Ev|done]. }
  case_bool_decide as Hemp.
  - split; [intros n' vm' [_ ?]%lookup_delete_Some; by eapply Hne|].
    intros [n' v']; simpl. destruct (decide (n = n')) as [<-|Hn].
    + rewrite lookup_delete_eq. case_decide as Hd; [done|]. rewrite En.
      assert (delete v vm !! v' = None) as Hl by (by rewrite Hemp).
      rewrite lookup_delete_ne in Hl by congruence. done.
    + by rewrite lookup_delete_ne, decide_False by congruence.
  - split.
    + intros n' vm'. rewrite lookup_insert_Some. intros [[_ <-]|[_ ?]]; [done|]. by eapply Hne.
    + intros [n' v']; simpl. destruct (decide (n = n')) as [<-|Hn].
      * rewrite lookup_insert_eq. case_decide as Hd.
        -- injection Hd as <-. by rewrite lookup_delete_eq.
        -- by rewrite lookup_delete_ne, En by congruence.
      * by rewrite lookup_insert_ne, decide_False by congruence.
Qed.

Lemma update_live x m :
  let i := ss_id (st_state x) in
  no_empty m →
  no_empty (UpdateLiveStates x m) ∧
  ∀ j, GetStateAndTimeInternal j (UpdateLiveStates x m) =
    if decide (i = j) then
      if bool_decide (ss_manager_state (st_state x) = kEnd) then None else Some x
    else GetStateAndTimeInternal j m.
Proof.
  intros i Hne. unfold UpdateLiveStates. fold i. case_bool_decide as Hend; simpl.
  - destruct (erase_live x m Hne) as [? Hl]. split; [done|]. intros j. by rewrite Hl.
  - split; [|intros j; by rewrite lookup_assign].
    intros n vm. unfold assign. rewrite lookup_insert_Some. intros [[_ <-]|[_ ?]]; [|by eapply Hne].
    apply insert_non_empty.
Qed.

Lemma pop_until_drop max log : max ≠ 0 → pop_until max log = drop (S (length log) - max) log.
Proof.
  intros Hmax. induction log as [|x log IH]; [by rewrite drop_nil|].
  cbn [pop_until]. case_decide as Hd.
  - rewrite IH. simpl length in *. replace (S (S (length log)) - max) with
      (S (S (length log) - max)) by lia. done.
  - simpl length in *. by replace (S (S (length log)) - max) with 0 by lia.
Qed.

Lemma send_reached_fields m :
  mon_max_count_log_events (MaybeSendStateReachedNotifications m) = mon_max_count_log_events m ∧
  mon_states (MaybeSendStateReachedNotifications m) = mon_states m ∧
  mon_live_states (MaybeSendStateReachedNotifications m) = mon_live_states m ∧
  mon_log (MaybeSendStateReachedNotifications m) = mon_log m.
Proof. unfold MaybeSendStateReachedNotifications. by destruct (send_reached _ _). Qed.

(** What an event does to the four fields. *)
Lemma HandleEvent_fields x m :
  mon_max_count_log_events (HandleEvent x m) = mon_max_count_log_events m ∧
  mon_states (HandleEvent x m) =
    assign (sid_name (ss_id (st_state x))) (sid_version (ss_id (st_state x))) x (mon_states m) ∧
  mon_live_states (HandleEvent x m) = UpdateLiveStates x (mon_live_states m) ∧
  mon_log (HandleEvent x m) =
    if bool_decide (mon_max_count_log_events m = 0) then mon_log m
    else pop_until (mon_max_count_log_events m) (mon_log m) ++ [x].
Proof.
  unfold HandleEvent. set (m1 := mkMonitor _ _ _ _ _ _ _).
  destruct (send_reached_fields m1) as (H1&H2&H3&H4). rewrite H1.
  cbn [mon_max_count_log_events m1]. case_bool_decide; simpl; by rewrite H2, H3, H4, ?H1.
Qed.

Lemma run_ops_snoc max ops op : run_ops max (ops ++ [op]) = run_monitor (run_ops max ops) op.
Proof. unfold run_ops. by rewrite foldl_app. Qed.

Lemma events_snoc ops op :
  events (ops ++ [op]) = events ops ++ match event_of op with Some x => [x] | None => [] end.
Proof. unfold events. rewrite omap_app. simpl. by destruct (event_of op). Qed.

Lemma last_event_snoc i es x :
  last_event i (es ++ [x]) = if decide (ss_id (st_state x) = i) then Some x else last_event i es.
Proof.
  unfold last_event. rewrite filter_app, filter_cons, filter_nil.
  case_decide; [by rewrite last_snoc|by rewrite app_nil_r].
Qed.

Lemma log_step max (es : list ServableStateAndTime) x :
  max ≠ 0 → pop_until max (drop (length es - max) es) ++ [x] =
  drop (length (es ++ [x]) - max) (es ++ [x]).
Proof.
  intros Hmax. rewrite pop_until_drop, length_drop, drop_drop, length_app by done. simpl.
  rewrite drop_app_le by lia. f_equal. f_equal. lia.
Qed.

Lemma monitor_fields max ops :
  let m := run_ops max ops in
  mon_max_count_log_events m = max ∧
  (∀ i, GetStateAndTimeInternal i (mon_states m) = last_event i (events ops)) ∧
  no_empty (mon_live_states m) ∧
  (∀ i, GetStateAndTimeInternal i (mon_live_states m) =
     last_event i (events ops) ≫= λ x,
       if bool_decide (ss_manager_state (st_state x) = kEnd) then None else Some x) ∧
  mon_log m = if bool_decide (max = 0) then [] else drop (length (events ops) - max) (events ops).
Proof.
  induction ops as [|op ops IH] using rev_ind; cbv zeta in *.
  { split_and!; try done. by case_bool_decide. }
  rewrite run_ops_snoc, events_snoc.
  destruct IH as (Hmax&Hst&Hne&Hlive&Hlog). destruct op as [x|s g f|f];
    cbn [run_monitor event_of].
  - destruct (HandleEvent_fields x (run_ops max ops)) as (->&->&->&->).
    destruct (update_live x _ Hne) as [Hne' Hlive'].
    cbv zeta in Hlive'. split_and!; [done| |done| |].
    + intros i. by rewrite lookup_assign, last_event_snoc, Hst.
    + intros i. rewrite Hlive', last_event_snoc, Hlive. by destruct (decide _).
    + rewrite Hmax, Hlog. destruct (decide (max = 0)) as [->|Hm]; [done|].
      rewrite !bool_decide_false by done. by apply log_step.
  - rewrite app_nil_r. unfold NotifyWhenServablesReachState. set (m1 := mkMonitor _ _ _ _ _ _ _).
    by destruct (send_reached_fields m1) as (->&->&->&->).
  - by rewrite app_nil_r.
Qed.

(** After any sequence of events, requests and subscriptions, the monitor's
    state of each servable is that of its last event, its live states are the
    last states that are not [kEnd], with no entry left for a servable that has
    none, and its log holds the last [max_count_log_events] events in order. *)
Theorem monitor_tracks_events (max : nat) (ops : list MonitorOp) :
  let m := run_ops max ops in
  (∀ i, GetState i m = st_state <$> last_event i (events ops)) ∧
  (∀ i, GetStateAndTimeInternal i (mon_live_states m) =
     last_event i (events ops) ≫= λ x,
       if bool_decide (ss_manager_state (st_state x) = kEnd) then None else Some x) ∧
  no_empty (mon_live_states m) ∧
  mon_log m = if bool_decide (max = 0) then [] else drop (length (events ops) - max) (events ops).
Proof.
  destruct (monitor_fields max ops) as (_&Hst&?&?&?). split_and!; try done.
  intros i. unfold GetState. by rewrite Hst.
Qed.

(** * Notifications *)

Lemma elem_of_entries vm v x : (v, x) ∈ entries vm ↔ vm !! v = Some x.
Proof.
  unfold entries. rewrite merge_sort_Permutation. apply elem_of_map_to_list.
Qed.

Lemma entries_sorted vm : StronglySorted newer_first (entries vm).
Proof.
  apply StronglySorted_merge_sort.
  - intros a b c. unfold newer_first. lia.
  - intros a b. unfold newer_first. lia.
Qed.

Lemma find_sorted (P : Z * ServableStateAndTime → bool) l y :
  StronglySorted newer_first l → List.find P l = Some y →
  y ∈ l ∧ P y = true ∧ ∀ z, z ∈ l → P z = true → (z.1 <= y.1)%Z.
Proof.
  induction 1 as [|a l Hl IH Ha]; simpl; [done|]. destruct (P a) eqn:E.
  - intros [= <-]. split_and!; [left|done|]. intros z [->|Hz]%elem_of_cons _; [lia|].
    rewrite Forall_forall in Ha. by apply Ha.
  - intros Hf. destruct (IH Hf) as (?&?&Hmax). split_and!; [by right|done|].
    intros z [->|Hz]%elem_of_cons Hp; [congruence|auto].
Qed.

Lemma find_none_elem {T} (P : T → bool) l x : List.find P l = None → x ∈ l → P x = false.
Proof. intros Hn Hx. apply (find_none P l Hn). by apply list_elem_of_In. Qed.

Lemma goal_or_end_specific goal x :
  HasSpecificServableReachedState goal (Some x) =
  if goal_or_end goal x then Some (ss_manager_state (st_state x)) else None.
Proof.
  unfold HasSpecificServableReachedState, goal_or_end. by repeat case_bool_decide.
Qed.

(** One requested servable: found with its state, or not there. *)
Lemma has_any_spec states goal name :
  well_keyed states →
  match HasAnyServableInStreamReachedState name goal states with
  | Some i => ∃ x, GetStateAndTimeInternal i states = Some x ∧
      satisfied states goal (Latest name) i (ss_manager_state (st_state x))
  | None => ∀ i st, ¬ satisfied states goal (Latest name) i st
  end.
Proof.
  intros Hk. unfold HasAnyServableInStreamReachedState.
  destruct (states !! name) as [vm|] eqn:En.
  2: { intros i st (Hn&(x&Hx&_)&_). unfold GetStateAndTimeInternal in Hx. simpl in Hn.
       by rewrite Hn, En in Hx. }
  assert (∀ v x, vm !! v = Some x → GetStateAndTimeInternal (mkServableId name v) states = Some x)
    as Hget by (intros v x Hv; unfold GetStateAndTimeInternal; simpl; by rewrite En).
  assert (∀ j y, sid_name j = name → GetStateAndTimeInternal j states = Some y →
    (sid_version j, y) ∈ entries vm) as Hin.
  { intros j y <- Hy. apply elem_of_entries. unfold GetStateAndTimeInternal in Hy.
    by rewrite En in Hy. }
  destruct (List.find _ (entries vm)) as [[v x]|] eqn:Ef; simpl.
  - apply find_sorted in Ef as (Hx&Hp&Hmax); [|apply entries_sorted].
    apply elem_of_entries, Hget in Hx. rewrite (Hk _ _ Hx).
    exists x. split; [done|]. split_and!; [done|by exists x|]. simpl.
    intros j y Hj Hy Hg. by apply (Hmax (sid_version j, y)); [apply Hin|].
  - intros i st (Hn&(x&Hx&_&Hg)&_).
    pose proof (find_none_elem _ _ _ Ef (Hin i x Hn Hx)) as Hf. simpl in Hf. congruence.
Qed.

(** The servable a request is about to report, if it can be reported. *)
Lemma satisfied_functional states goal r i j st st' :
  satisfied states goal r i st → satisfied states goal r j st' → i = j ∧ st = st'.
Proof.
  intros (Hn&(x&Hx&Hst&Hg)&Hv) (Hn'&(y&Hy&Hst'&Hg')&Hv').
  assert (i = j) as ->.
  { destruct i as [n v], j as [n' v']; simpl in *. f_equal; [congruence|].
    destruct (req_version r); [congruence|].
    specialize (Hv (mkServableId n' v') y Hn' Hy Hg').
    specialize (Hv' (mkServableId n v) x Hn Hx Hg). simpl in *. lia. }
  split; [done|]. congruence.
Qed.

Lemma should_send_step states goal r rest b reached :
  well_keyed states →
  (∃ i st, satisfied states goal r i st ∧
     should_send states goal (r :: rest) b reached =
     should_send states goal rest (b && bool_decide (st = goal)) (<[i := st]> reached)) ∨
  ((∀ i st, ¬ satisfied states goal r i st) ∧ should_send states goal (r :: rest) b reached = None).
Proof.
  intros Hk. destruct r as [name [v|]]; cbn [should_send req_version req_name].
  - destruct (GetStateAndTimeInternal (mkServableId name v) states) as [x|] eqn:Ex.
    + rewrite goal_or_end_specific. destruct (goal_or_end goal x) eqn:Eg.
      * left. exists (mkServableId name v), (ss_manager_state (st_state x)).
        split; [|done]. split_and!; [done|by exists x|done].
      * right. split; [|done]. intros [n v'] st (Hn&(y&Hy&_&Hg)&Hv). simpl in *. subst.
        congruence.
    + right. split; [|done]. intros [n v'] st (Hn&(y&Hy&_&Hg)&Hv). simpl in *. subst. congruence.
  - pose proof (has_any_spec states goal name Hk) as Hany.
    destruct (HasAnyServableInStreamReachedState name goal states) as [i|]; [|by right].
    destruct Hany as (x&Hx&Hsat). left. exists i, (ss_manager_state (st_state x)).
    split; [done|]. by rewrite Hx.
Qed.

Lemma should_send_none states goal servables b reached :
  well_keyed states →
  should_send states goal servables b reached = None ↔
  ∃ r, r ∈ servables ∧ ∀ i st, ¬ satisfied states goal r i st.
Proof.
  intros Hk. revert b reached. induction servables as [|r rest IH]; intros b reached.
  { split; [done|]. by intros (?&?%not_elem_of_nil&_). }
  setoid_rewrite elem_of_cons.
  destruct (should_send_step states goal r rest b reached Hk) as [(i&st&Hs&->)|[Hno ->]].
  - rewrite IH. naive_solver.
  - naive_solver.
Qed.

Lemma should_send_some states goal servables b reached b' reached' :
  well_keyed states → should_send states goal servables b reached = Some (b', reached') →
  (∀ i st, reached !! i = Some st →
     ss_manager_state ∘ st_state <$> GetStateAndTimeInternal i states = Some st) →
  (b' = true ↔ b = true ∧ ∀ r, r ∈ servables → ∃ i, satisfied states goal r i goal) ∧
  (∀ i st, reached' !! i = Some st ↔
     reached !! i = Some st ∨ ∃ r, r ∈ servables ∧ satisfied states goal r i st).
Proof.
  intros Hk. revert b reached. induction servables as [|r rest IH]; intros b reached.
  { intros [= <- <-] _. set_solver. }
  destruct (should_send_step states goal r rest b reached Hk) as [(j&sj&Hj&->)|[Hno ->]]; [|done].
  intros Hsend Hcons.
  assert (ss_manager_state ∘ st_state <$> GetStateAndTimeInternal j states = Some sj) as Hsj.
  { destruct Hj as (_&(x&->&->&_)&_). done. }
  destruct (IH _ _ Hsend) as [Hb Hr].
  { intros i st. rewrite lookup_insert_Some. intros [[<- <-]|[_ ?]]; auto. }
  split.
  - rewrite Hb, andb_true_iff, bool_decide_eq_true. setoid_rewrite elem_of_cons. split.
    + intros [[-> ->] Hall]. split; [done|]. intros r' [->|?]; eauto.
    + intros [-> Hall]. split; [|auto]. split; [done|].
      destruct (Hall r) as [i Hi]; [by left|]. by apply (satisfied_functional _ _ _ _ _ _ _ Hj Hi).
  - intros i st. rewrite Hr, lookup_insert_Some. setoid_rewrite elem_of_cons. split.
    + intros [[[<- <-]|[_ ?]]|(r'&?&?)]; eauto.
    + intros [Hi|(r'&[->|?]&Hs)]; [| |by eauto].
      * left. destruct (decide (j = i)) as [<-|]; [|by auto]. left. split; [done|].
        specialize (Hcons _ _ Hi). congruence.
      * destruct (satisfied_functional _ _ _ _ _ _ _ Hj Hs) as [-> ->]. by left; left.
Qed.

(** When a waiting client is called back. The monitor reports on a request
    exactly when every servable in it has reached the goal or the end; it then
    reports the state of each of them and of no other, taking the newest version
    for a request without a version, and says the goal was reached exactly when
    all of them are in the goal state. *)
Theorem notification_spec (states : ServableMap) (r : NotificationRequest) :
  well_keyed states →
  match ShouldSendStateReachedNotification states r with
  | None => ∃ q, q ∈ nr_servables r ∧ ∀ i st, ¬ satisfied states (nr_goal_state r) q i st
  | Some (reached_goal_state, states_reached) =>
      (∀ q, q ∈ nr_servables r → ∃ i st, satisfied states (nr_goal_state r) q i st) ∧
      (reached_goal_state = true ↔
        ∀ q, q ∈ nr_servables r → ∃ i, satisfied states (nr_goal_state r) q i (nr_goal_state r)) ∧
      (∀ i st, states_reached !! i = Some st ↔
        ∃ q, q ∈ nr_servables r ∧ satisfied states (nr_goal_state r) q i st)
  end.
Proof.
  intros Hk. unfold ShouldSendStateReachedNotification.
  destruct (should_send _ _ _ _ _) as [[b reached]|] eqn:E.
  - split.
    + intros q Hq. destruct (should_send_step states (nr_goal_state r) q [] true ∅ Hk)
        as [(i&st&?&_)|[Hno _]]; [eauto|]. exfalso.
      assert (should_send states (nr_goal_state r) (nr_servables r) true ∅ = None); [|congruence].
      apply should_send_none; eauto.
    + destruct (should_send_some _ _ _ _ _ _ _ Hk E) as [Hb Hr]; [done|].
      split; [rewrite Hb; naive_solver|]. intros i st. rewrite Hr. split; [|by right].
      by intros [?|?].
  - by apply should_send_none in E.
Qed.

(** ** Requests are answered once *)

Definition reached_fn (c : MonitorCall) : option nat :=
  match c with StateReached f _ _ => Some f | NotifyCall _ _ => None end.

Lemma send_reached_spec states requests :
  let '(kept, calls) := send_reached states requests in
  (∀ r, r ∈ kept → ShouldSendStateReachedNotification states r = None) ∧
  (nr_notifier_fn <$> requests) ≡ₚ (nr_notifier_fn <$> kept) ++ omap reached_fn calls.
Proof.
  induction requests as [|r requests IH]; simpl.
  { split; [by intros ? ?%not_elem_of_nil|done]. }
  destruct (send_reached states requests) as [kept calls]. destruct IH as [Hnone Hperm].
  destruct (ShouldSendStateReachedNotification states r) as [[b reached]|] eqn:E; simpl.
  - split; [done|]. rewrite Hperm. apply Permutation_middle.
  - split; [|by rewrite Hperm]. intros r' [->|?]%elem_of_cons; auto.
Qed.

Lemma MaybeSend_spec m :
  let m' := MaybeSendStateReachedNotifications m in
  (∀ r, r ∈ mon_requests m' → ShouldSendStateReachedNotification (mon_states m') r = None) ∧
  omap reached_fn (mon_calls m') ++ (nr_notifier_fn <$> mon_requests m') ≡ₚ
  omap reached_fn (mon_calls m) ++ (nr_notifier_fn <$> mon_requests m).
Proof.
  unfold MaybeSendStateReachedNotifications.
  pose proof (send_reached_spec (mon_states m) (mon_requests m)) as Hs.
  destruct (send_reached _ _) as [kept calls]. simpl. destruct Hs as [Hn Hp]. split; [done|].
  rewrite omap_app, Hp, <-app_assoc. f_equiv. apply Permutation_app_comm.
Qed.

Lemma notify_calls_not_reached fs s :
  omap reached_fn ((λ f, NotifyCall f s) <$> fs) = [].
Proof. induction fs as [|f fs IH]; [done|]. exact IH. Qed.

Lemma monitor_answers_inv max ops :
  let m := run_ops max ops in
  (∀ r, r ∈ mon_requests m → ShouldSendStateReachedNotification (mon_states m) r = None) ∧
  omap reached_fn (mon_calls m) ++ (nr_notifier_fn <$> mon_requests m) ≡ₚ
  nr_notifier_fn <$> omap request_of ops.
Proof.
  induction ops as [|op ops IH] using rev_ind; cbv zeta in *.
  { split; [by intros ? ?%not_elem_of_nil|done]. }
  rewrite run_ops_snoc, omap_app, fmap_app. destruct IH as [Hnone Hperm].
  destruct op as [x|s g f|f]; cbn [run_monitor].
  - unfold HandleEvent. set (m1 := mkMonitor _ _ _ _ _ _ _).
    destruct (MaybeSend_spec m1) as [Hn Hp]. set (m2 := MaybeSendStateReachedNotifications m1) in *.
    cbn [request_of omap list_omap fmap list_fmap]. rewrite app_nil_r.
    rewrite <-Hperm. change (mon_calls (run_ops max ops)) with (mon_calls m1).
    change (mon_requests (run_ops max ops)) with (mon_requests m1). rewrite <-Hp.
    clearbody m2. case_bool_decide; simpl; (split; [done|]);
      by rewrite omap_app, notify_calls_not_reached, app_nil_r.
  - unfold NotifyWhenServablesReachState. set (m1 := mkMonitor _ _ _ _ _ _ _).
    destruct (MaybeSend_spec m1) as [Hn Hp]. split; [done|]. rewrite Hp. simpl.
    by rewrite fmap_app, app_assoc, Hperm.
  - simpl. rewrite app_nil_r. done.
Qed.

Lemma monitor_well_keyed max ops : well_keyed (mon_states (run_ops max ops)).
Proof.
  intros i x. destruct (monitor_fields max ops) as (_&->&_). unfold last_event.
  intros Hl. apply last_Some_elem_of in Hl. by apply list_elem_of_filter in Hl as [? _].
Qed.

(** Every request is answered once and as soon as it can be: after any
    sequence of operations the clients called back and those still waiting are
    together exactly the clients that asked, and no client still waits although
    all its servables have reached the goal or the end. *)
Theorem monitor_answers_once (max : nat) (ops : list MonitorOp) :
  let m := run_ops max ops in
  omap reached_fn (mon_calls m) ++ (nr_notifier_fn <$> mon_requests m) ≡ₚ
    nr_notifier_fn <$> omap request_of ops ∧
  ∀ r, r ∈ mon_requests m → ∃ q, q ∈ nr_servables r ∧
    ∀ i st, ¬ satisfied (mon_states m) (nr_goal_state r) q i st.
Proof.
  destruct (monitor_answers_inv max ops) as [Hn Hp]. split; [done|]. intros r Hr.
  apply (should_send_none _ _ _ true ∅ (monitor_well_keyed max ops)). by apply Hn.
Qed.

(** Version 3 of a servable is loaded while version 1 is still available. *)
Definition ex_states : ServableMap :=
  mon_states (run_ops 0
    [Event (mkStateAndTime (mkServableState (mkServableId "m" 1) kAvailable StatusOK) 10);
     Event (mkStateAndTime (mkServableState (mkServableId "m" 3) kAvailable StatusOK) 20)]).

Lemma notification_spec_witness :
  ∃ i st, satisfied ex_states kAvailable (Latest "m") i st ∧ i = mkServableId "m" 3.
Proof.
  pose proof (notification_spec ex_states (mkNotification [Latest "m"] kAvailable 0)
    (monitor_well_keyed 0 _)) as H.
  assert (∃ b m, ShouldSendStateReachedNotification ex_states
    (mkNotification [Latest "m"] kAvailable 0) = Some (b, m) ∧
    m !! mkServableId "m" 3 = Some kAvailable) as (b&m&E&Hm).
  { do 2 eexists. split; vm_compute; reflexivity. }
  rewrite E in H. destruct H as (_&_&H). apply H in Hm as (q&Hq&Hs).
  apply list_elem_of_singleton in Hq as ->. exists (mkServableId "m" 3), kAvailable. split; [exact Hs|reflexivity].
Defined.
