(* ===== verification/StoragePathSource.v ===== *)
(** The file-system source of aspired versions:
    [tensorflow_serving/sources/storage_path/file_system_storage_path_source.cc],
    with [JoinPathImpl] of [tensorflow/core/lib/io/path.cc].

    The source polls the file system for the versions of the configured servables
    and tells its target which versions to aspire to.  The file system is the
    parameter [fs]; the calls of the target's callback are recorded in order. *)
From S2P Require Import Prelude Numbers Status Servable.

(** * Data *)

(** [ServableVersionPolicy], a oneof. *)
Inductive ServableVersionPolicy :=
  | PolicyNotSet
  | PolicyLatest (num_versions : Z)
  | PolicyAll
  | PolicySpecific (versions : list Z).

(** [ServableToMonitor] and [FileSystemStoragePathSourceConfig]. *)
Record ServableToMonitor := mkServable {
  sm_servable_name : string;
  sm_base_path : string;
  sm_policy : ServableVersionPolicy }.

Record SourceConfig := mkConfig {
  cfg_servables : list ServableToMonitor;
  cfg_servable_name : string;
  cfg_base_path : string;
  cfg_poll_wait_seconds : Z;
  cfg_fail_if_zero_versions : bool }.

(** [Env::Default()]: existence of a path, and its children. *)
Record FileSystem := mkFS {
  FileExists : string → Status;
  GetChildren : string → Status * list string }.

Abbreviation StoragePath := string.

(** The members of the class; the callback is a flag and the list of its calls. *)
Record StoragePathSource := mkSource {
  src_config : SourceConfig;
  src_has_callback : bool;
  src_polling : bool;
  src_calls : list (string * list (ServableData StoragePath)) }.

(** * Strings and ordered containers *)

(** [IsAbsolutePath] and [JoinPathImpl]. *)
Definition slash : ascii := "/"%char.

Definition IsAbsolutePath (path : string) : bool :=
  match path with String c _ => Ascii.eqb c slash | "" => false end.

Definition ends_with_slash (path : string) : bool :=
  match last (String.list_ascii_of_string path) with
  | Some c => Ascii.eqb c slash
  | None => false
  end.

Definition tail_of (path : string) : string :=
  match path with String _ rest => rest | "" => "" end.

Definition join_step (result path : string) : string :=
  if String.eqb path "" then result
  else if String.eqb result "" then path
  else if ends_with_slash result then
    (if IsAbsolutePath path then result +:+ tail_of path else result +:+ path)
  else
    (if IsAbsolutePath path then result +:+ path else result +:+ "/" +:+ path).

Definition JoinPath (paths : list string) : string := foldl join_step "" paths.

(** [c_str()] as a [StringPiece]: the characters before the first NUL. *)
Fixpoint c_str (l : list ascii) : list ascii :=
  match l with
  | c :: rest => if Ascii.eqb c zero then [] else c :: c_str rest
  | [] => []
  end.

(** [ParseVersionNumber]. *)
Definition ParseVersionNumber (version_path : string) : option Z :=
  safe_strto64 (c_str (String.list_ascii_of_string version_path)).

(** [child.substr(0, child.find_first_of('/'))]. *)
Fixpoint before_slash (child : string) : string :=
  match child with
  | String c rest => if Ascii.eqb c slash then "" else String c (before_slash rest)
  | "" => ""
  end.

(** [std::set<string>::insert]. *)
Fixpoint set_insert (x : string) (l : list string) : list string :=
  match l with
  | [] => [x]
  | y :: rest =>
      match String.compare x y with
      | Lt => x :: l
      | Eq => l
      | Gt => y :: set_insert x rest
      end
  end.

Definition string_set (l : list string) : list string := foldl (λ s x, set_insert x s) [] l.

(** [std::map<int64, string>::operator[]] assigned to. *)
Fixpoint index_assign (k : Z) (v : string) (l : list (Z * string)) : list (Z * string) :=
  match l with
  | [] => [(k, v)]
  | (k', v') :: rest =>
      if (k <? k')%Z then (k, v) :: l
      else if (k =? k')%Z then (k, v) :: rest
      else (k', v') :: index_assign k v rest
  end.

(** [std::map<string, ...>::insert]: an entry that is there is kept. *)
Fixpoint map_insert {V} (k : string) (v : V) (l : list (string * V)) : list (string * V) :=
  match l with
  | [] => [(k, v)]
  | (k', v') :: rest =>
      match String.compare k k' with
      | Lt => (k, v) :: l
      | Eq => l
      | Gt => (k', v') :: map_insert k v rest
      end
  end.

(** * Operations *)

(** [NormalizeConfig]. *)
Definition NormalizeConfig (config : SourceConfig) : SourceConfig :=
  if negb (String.eqb (cfg_servable_name config) "") || negb (String.eqb (cfg_base_path config) "")
  then mkConfig (cfg_servables config ++
         [mkServable (cfg_servable_name config) (cfg_base_path config) PolicyNotSet])
         "" "" (cfg_poll_wait_seconds config) (cfg_fail_if_zero_versions config)
  else config.

(** [GetDeletedServables]. *)
Definition GetDeletedServables (old_config new_config : SourceConfig) : list string :=
  let new_servables := sm_servable_name <$> cfg_servables new_config in
  string_set (filter (λ n, n ∉ new_servables) (sm_servable_name <$> cfg_servables old_config)).

(** [AspireVersion]. *)
Definition AspireVersion (servable : ServableToMonitor) (version_relative_path : string)
    (version_number : Z) : ServableData StoragePath :=
  DataOk (mkServableId (sm_servable_name servable) version_number)
    (JoinPath [sm_base_path servable; version_relative_path]).

(** [AspireAllVersions]. *)
Definition AspireAllVersions (servable : ServableToMonitor) (children : list string) :
    list (ServableData StoragePath) :=
  omap (λ child, (λ v, AspireVersion servable child v) <$> ParseVersionNumber child) children.

(** [IndexChildrenByVersion]. *)
Definition index_step (m : list (Z * string)) (child : string) : list (Z * string) :=
  match ParseVersionNumber child with
  | None => m
  | Some version_number => index_assign version_number child m
  end.

Definition IndexChildrenByVersion (children : list string) : list (Z * string) :=
  foldl index_step [] children.

(** [AspireLatestVersions]: the loop from the greatest version down. *)
Definition int32 (z : Z) : Z := ((z + 2 ^ 31) mod 2 ^ 32 - 2 ^ 31)%Z.

Fixpoint latest_loop (servable : ServableToMonitor) (num_to_serve num_versions_emitted : Z)
    (l : list (Z * string)) : list (ServableData StoragePath) :=
  match l with
  | [] => []
  | (version, child) :: rest =>
      if (num_versions_emitted =? num_to_serve)%Z then []
      else AspireVersion servable child version ::
             latest_loop servable num_to_serve (num_versions_emitted + 1) rest
  end.

Definition AspireLatestVersions (servable : ServableToMonitor) (num_versions : Z)
    (children_by_version : list (Z * string)) : list (ServableData StoragePath) :=
  latest_loop servable (int32 (Z.max num_versions 1)) 0 (reverse children_by_version).

(** [AspireSpecificVersions]. *)
Definition AspireSpecificVersions (servable : ServableToMonitor) (versions_to_serve : list Z)
    (children_by_version : list (Z * string)) : list (ServableData StoragePath) :=
  (λ vc, AspireVersion servable vc.2 vc.1) <$>
    filter (λ vc, vc.1 ∈ versions_to_serve) children_by_version.

Section source.
Context (fs : FileSystem).

(** The direct children of a base path. *)
Definition direct_children (children : list string) : list string :=
  string_set (before_slash <$> children).

(** [PollFileSystemForServable]. *)
Definition PollFileSystemForServable (servable : ServableToMonitor) :
    Status * list (ServableData StoragePath) :=
  if negb (ok (FileExists fs (sm_base_path servable))) then
    (InvalidArgument ("Could not find base path " +:+ sm_base_path servable +:+
       " for servable " +:+ sm_servable_name servable), [])
  else
    let '(status, children) := GetChildren fs (sm_base_path servable) in
    if negb (ok status) then (status, [])
    else
      let children := direct_children children in
      let children_by_version := IndexChildrenByVersion children in
      (StatusOK,
       match sm_policy servable with
       | PolicyNotSet => AspireLatestVersions servable 0 children_by_version
       | PolicyLatest n => AspireLatestVersions servable n children_by_version
       | PolicyAll => AspireAllVersions servable children
       | PolicySpecific versions => AspireSpecificVersions servable versions children_by_version
       end).

(** [PollFileSystemForConfig]: the loop. *)
Fixpoint poll_servables (servables : list ServableToMonitor)
    (versions_by_servable_name : list (string * list (ServableData StoragePath))) :
    Status * list (string * list (ServableData StoragePath)) :=
  match servables with
  | [] => (StatusOK, versions_by_servable_name)
  | servable :: rest =>
      let '(status, versions) := PollFileSystemForServable servable in
      if negb (ok status) then (status, versions_by_servable_name)
      else poll_servables rest
             (map_insert (sm_servable_name servable) versions versions_by_servable_name)
  end.

Definition PollFileSystemForConfig (config : SourceConfig) :
    Status * list (string * list (ServableData StoragePath)) :=
  poll_servables (cfg_servables config) [].

(** [FailIfZeroVersions]. *)
Definition FailIfZeroVersions (config : SourceConfig) : Status :=
  let '(status, versions_by_servable_name) := PollFileSystemForConfig config in
  if negb (ok status) then status
  else match List.find (λ e, match e.2 with [] => true | _ => false end)
               versions_by_servable_name with
       | Some (servable, _) =>
           NotFound ("Unable to find a numerical version path for servable " +:+ servable +:+
             " at: " +:+ cfg_base_path config)
       | None => StatusOK
       end.

(** [UnaspireServables]. *)
Definition UnaspireServables (servable_names : list string) (s : StoragePathSource) :
    StoragePathSource :=
  mkSource (src_config s) (src_has_callback s) (src_polling s)
    (src_calls s ++ ((λ n, (n, [])) <$> servable_names)).

(** [UpdateConfig]. *)
Definition UpdateConfig (config : SourceConfig) : SM StoragePathSource := λ s,
  if src_polling s &&
     negb (cfg_poll_wait_seconds config =? cfg_poll_wait_seconds (src_config s))%Z
  then (InvalidArgument "Changing file_system_poll_wait_seconds is not supported", s)
  else
    let normalized_config := NormalizeConfig config in
    let status := if cfg_fail_if_zero_versions normalized_config
                  then FailIfZeroVersions normalized_config else StatusOK in
    if negb (ok status) then (status, s)
    else
      let s := if src_has_callback s
               then UnaspireServables (GetDeletedServables (src_config s) normalized_config) s
               else s in
      (StatusOK, mkSource normalized_config (src_has_callback s) (src_polling s) (src_calls s)).

(** [SetAspiredVersionsCallback]. *)
Definition SetAspiredVersionsCallback (s : StoragePathSource) : StoragePathSource :=
  if src_polling s then s
  else mkSource (src_config s) true (0 <=? cfg_poll_wait_seconds (src_config s))%Z (src_calls s).

(** [PollFileSystemAndInvokeCallback]. *)
Definition PollFileSystemAndInvokeCallback : SM StoragePathSource := λ s,
  let '(status, versions_by_servable_name) := PollFileSystemForConfig (src_config s) in
  if negb (ok status) then (status, s)
  else (StatusOK, mkSource (src_config s) (src_has_callback s) (src_polling s)
          (src_calls s ++ versions_by_servable_name)).
End source.

(** * Ordered containers *)

Lemma elem_of_set_insert x y l : y ∈ set_insert x l ↔ y = x ∨ y ∈ l.
Proof.
  induction l as [|z l IH]; simpl; [set_solver|].
  destruct (String.compare x z) eqn:E; [|set_solver|set_solver].
  apply string_compare_eq in E as ->. set_solver.
Qed.

Lemma elem_of_string_set y l : y ∈ string_set l ↔ y ∈ l.
Proof.
  unfold string_set. induction l as [|x l IH] using rev_ind; [done|].
  rewrite foldl_app; simpl. rewrite elem_of_set_insert, IH. set_solver.
Qed.

Lemma elem_of_direct_children c children :
  c ∈ direct_children children ↔ c ∈ before_slash <$> children.
Proof. apply elem_of_string_set. Qed.

Lemma set_insert_sorted x l :
  StronglySorted (λ a b, String.compare a b = Lt) l →
  StronglySorted (λ a b, String.compare a b = Lt) (set_insert x l).
Proof.
  induction 1 as [|y l Hl IH Hy]; simpl; [repeat constructor|].
  destruct (String.compare x y) eqn:E; [by constructor| |].
  - constructor; [by constructor|]. constructor; [done|].
    eapply Forall_impl; [exact Hy|]. intros z. by apply string_lt_trans.
  - constructor; [done|]. apply Forall_forall. intros z [->|Hz]%elem_of_set_insert.
    + by rewrite string_compare_antisym, E.
    + rewrite Forall_forall in Hy. by apply Hy.
Qed.

Lemma string_set_sorted l : StronglySorted (λ a b, String.compare a b = Lt) (string_set l).
Proof.
  unfold string_set. induction l as [|x l IH] using rev_ind; [constructor|].
  rewrite foldl_app; simpl. by apply set_insert_sorted.
Qed.

Lemma elem_of_index_assign k v l k' v' :
  StronglySorted (λ a b, (a.1 < b.1)%Z) l →
  (k', v') ∈ index_assign k v l ↔ (k' = k ∧ v' = v) ∨ (k' ≠ k ∧ (k', v') ∈ l).
Proof.
  induction 1 as [|[k1 v1] l Hl IH H1]; simpl.
  { rewrite list_elem_of_singleton, elem_of_nil. naive_solver. }
  rewrite Forall_forall in H1.
  assert (∀ k2 v2, (k2, v2) ∈ l → (k1 < k2)%Z) as Hlt by (intros k2 v2 H; by apply (H1 _ H)).
  destruct (Z.ltb_spec k k1).
  - rewrite !elem_of_cons. split.
    + intros [[= -> ->]|[[= -> ->]|Hin]]; [auto|right; split; [lia|auto]|].
      right. specialize (Hlt _ _ Hin). split; [lia|auto].
    + naive_solver.
  - destruct (Z.eqb_spec k k1) as [->|Hne].
    + rewrite !elem_of_cons. split.
      * intros [[= -> ->]|Hin]; [auto|]. specialize (Hlt _ _ Hin). right. split; [lia|auto].
      * naive_solver.
    + rewrite !elem_of_cons, IH. split.
      * intros [[= -> ->]|[?|[? ?]]]; auto.
      * naive_solver.
Qed.

Lemma index_assign_sorted k v l :
  StronglySorted (λ a b, (a.1 < b.1)%Z) l →
  StronglySorted (λ a b, (a.1 < b.1)%Z) (index_assign k v l).
Proof.
  induction 1 as [|[k1 v1] l Hl IH H1]; simpl; [repeat constructor|].
  destruct (Z.ltb_spec k k1).
  - constructor; [by constructor|]. constructor; [done|].
    eapply Forall_impl; [exact H1|]. simpl. lia.
  - destruct (Z.eqb_spec k k1) as [->|Hne]; [by constructor|]. constructor; [done|].
    apply Forall_forall. intros [k' v'] Hin. apply elem_of_index_assign in Hin; [|done].
    rewrite Forall_forall in H1. simpl.
    destruct Hin as [[-> ->]|[_ Hin]]; [lia|by apply (H1 _ Hin)].
Qed.

Lemma IndexChildren_sorted children :
  StronglySorted (λ a b, (a.1 < b.1)%Z) (IndexChildrenByVersion children).
Proof.
  unfold IndexChildrenByVersion. induction children as [|c children IH] using rev_ind; [constructor|].
  rewrite foldl_app; simpl. unfold index_step at 1.
  destruct (ParseVersionNumber c); [by apply index_assign_sorted|done].
Qed.

(** The index has every version once, with one of the children that name it. *)
Lemma IndexChildren_spec children :
  (∀ v c, (v, c) ∈ IndexChildrenByVersion children →
     c ∈ children ∧ ParseVersionNumber c = Some v) ∧
  (∀ v, v ∈ (IndexChildrenByVersion children).*1 ↔
     ∃ c, c ∈ children ∧ ParseVersionNumber c = Some v).
Proof.
  induction children as [|c children [IH1 IH2]] using rev_ind.
  { split; [by intros ?? ?%not_elem_of_nil|]. intros v. set_solver. }
  pose proof (IndexChildren_sorted children) as Hs.
  unfold IndexChildrenByVersion in *. rewrite foldl_app; simpl. unfold index_step at 1 3.
  destruct (ParseVersionNumber c) as [k|] eqn:E.
  2: { split; [set_solver|]. intros v. rewrite IH2. set_solver. }
  set (l := foldl index_step [] children) in *. split.
  - intros v c' Hin. apply elem_of_index_assign in Hin as [[-> ->]|[_ Hin]]; [set_solver| |done].
    apply IH1 in Hin. set_solver.
  - intros v. rewrite list_elem_of_fmap. split.
    + intros ([v' c']&->&Hin). apply elem_of_index_assign in Hin as [[-> ->]|[_ Hin]]; [| |done].
      * exists c. set_solver.
      * apply IH1 in Hin. set_solver.
    + intros (c'&Hc'&Hp). destruct (decide (v = k)) as [->|Hne].
      * exists (k, c). split; [done|]. apply elem_of_index_assign; [done|]. by left.
      * assert (v ∈ l.*1) as Hv.
        { apply IH2. apply elem_of_app in Hc' as [?|Hc']; [by eauto|].
          apply list_elem_of_singleton in Hc' as ->. congruence. }
        apply list_elem_of_fmap in Hv as ([v' c'']&->&Hin). exists (v', c''). split; [done|].
        apply elem_of_index_assign; [done|]. by right.
Qed.

Lemma latest_loop_take servable n k l :
  latest_loop servable n k l =
  (λ vc, AspireVersion servable vc.2 vc.1) <$> (if (n <? k)%Z then l else take (Z.to_nat (n - k)) l).
Proof.
  revert k. induction l as [|[v c] l IH]; intros k; simpl.
  { destruct (n <? k)%Z; [done|]. by destruct (Z.to_nat (n - k)). }
  destruct (Z.eqb_spec k n) as [->|Hne].
  - rewrite Z.ltb_irrefl, Z.sub_diag. done.
  - rewrite IH. destruct (Z.ltb_spec n k), (Z.ltb_spec n (k + 1)); try lia; [done|].
    replace (Z.to_nat (n - k)) with (S (Z.to_nat (n - (k + 1)))) by lia. done.
Qed.

(** * Theorems *)

(** What is found under a base path: a child, one of its direct children. *)
Definition has_version (fs : FileSystem) (servable : ServableToMonitor) (v : Z) : Prop :=
  ∃ c, c ∈ before_slash <$> (GetChildren fs (sm_base_path servable)).2 ∧
    ParseVersionNumber c = Some v.

Definition version_of (d : ServableData StoragePath) : Z := sid_version (sd_id d).

Lemma aspired_versions_map servable (l : list (Z * string)) :
  version_of <$> ((λ vc, AspireVersion servable vc.2 vc.1) <$> l) = l.*1.
Proof. rewrite <-list_fmap_compose. apply list_fmap_ext. by intros ? []. Qed.

Lemma all_versions_map servable (l : list string) :
  version_of <$> AspireAllVersions servable l = omap ParseVersionNumber l.
Proof.
  unfold AspireAllVersions. induction l as [|c l IH]; [done|]. cbn. destruct (ParseVersionNumber c); cbn; [f_equal|]; exact IH.
Qed.

Lemma sorted_lt_nodup (l : list Z) : StronglySorted Z.lt l → NoDup l.
Proof.
  induction 1 as [|x l Hl IH Hx]; [constructor|]. constructor; [|done]. intros Hin. rewrite Forall_forall in Hx.
  specialize (Hx x Hin). lia.
Qed.

Lemma sorted_keys (l : list (Z * string)) :
  StronglySorted (λ a b, (a.1 < b.1)%Z) l → StronglySorted Z.lt l.*1.
Proof. induction 1; simpl; constructor; [done|]. by apply Forall_fmap. Qed.

(** Everything aspired has the servable's name and the path of a child. *)
Definition from_child (fs : FileSystem) (servable : ServableToMonitor)
    (d : ServableData StoragePath) : Prop :=
  ∃ c v, d = AspireVersion servable c v ∧ ParseVersionNumber c = Some v ∧
    c ∈ before_slash <$> (GetChildren fs (sm_base_path servable)).2.

Lemma poll_from_child fs servable versions d :
  PollFileSystemForServable fs servable = (StatusOK, versions) → d ∈ versions →
  from_child fs servable d.
Proof.
  unfold PollFileSystemForServable. destruct (ok (FileExists fs (sm_base_path servable)));
    simpl; [|by intros [= <-]].
  unfold from_child. destruct (GetChildren fs (sm_base_path servable)) as [st children]. simpl.
  destruct (ok st) eqn:Hok; simpl; [|by intros [= -> _]]. intros [= <-].
  assert (∀ l : list (Z * string),
    (∀ v c, (v, c) ∈ l → (v, c) ∈ IndexChildrenByVersion (direct_children children)) →
    d ∈ (λ vc, AspireVersion servable vc.2 vc.1) <$> l →
    ∃ c v, d = AspireVersion servable c v ∧ ParseVersionNumber c = Some v ∧
      c ∈ before_slash <$> children) as Hindex.
  { intros l Hl ([v c]&->&Hin)%list_elem_of_fmap. apply Hl, IndexChildren_spec in Hin as [Hc Hp].
    exists c, v. split_and!; try done. by apply elem_of_direct_children. }
  destruct (sm_policy servable); unfold AspireLatestVersions, AspireSpecificVersions.
  1,2: rewrite latest_loop_take; apply Hindex; intros v c Hin;
    case_match; [|apply elem_of_take in Hin as (?&?%list_elem_of_lookup_2&_)];
    by apply elem_of_reverse.
  - unfold AspireAllVersions. intros (c&Hc&E)%list_elem_of_omap.
    apply fmap_Some in E as (v&Hv&->). exists c, v. split_and!; try done.
    by apply elem_of_direct_children.
  - apply Hindex. intros v c Hin. by apply list_elem_of_filter in Hin as [_ ?].
Qed.

(** No two children of the base path are numerals for the same version. *)
Definition one_name_each (fs : FileSystem) (servable : ServableToMonitor) : Prop :=
  ∀ c c' v, c ∈ before_slash <$> (GetChildren fs (sm_base_path servable)).2 →
    c' ∈ before_slash <$> (GetChildren fs (sm_base_path servable)).2 →
    ParseVersionNumber c = Some v → ParseVersionNumber c' = Some v → c = c'.

Lemma NoDup_omap_inj {A B} (f : A → option B) (l : list A) :
  NoDup l → (∀ x y b, x ∈ l → y ∈ l → f x = Some b → f y = Some b → x = y) → NoDup (omap f l).
Proof.
  induction 1 as [|x l Hx Hl IH]; intros Hf; [constructor|]. cbn.
  assert (Hl' : NoDup (omap f l)) by (apply IH; intros; eapply Hf; eauto; by right).
  destruct (f x) as [b|] eqn:E; [|done]. constructor; [|done]. intros (y&Hy&Ey)%list_elem_of_omap.
  assert (x = y) as <-; [|done]. eapply Hf; eauto; [by left|by right].
Qed.

Lemma string_set_nodup l : NoDup (string_set l).
Proof.
  pose proof (string_set_sorted l) as Hs. induction Hs as [|x l' Hl IH Hx]; [constructor|]. constructor; [|done].
  intros Hin. rewrite Forall_forall in Hx. specialize (Hx x Hin). by rewrite string_compare_refl in Hx.
Qed.


(** A directory with the versions 1 and 2, two names for 10, and two names that
    are no version. *)
Definition example_fs : FileSystem :=
  mkFS (λ path, if String.eqb path "/m" then StatusOK else NotFound "no path")
       (λ _, (StatusOK, ["2/model"; "2"; "010"; "10"; "tmp"; "1"; "1x"])).


(** The directory names 1 and 01 give version 1 twice under the policy that
    aspires to all versions. *)
Example all_versions_may_repeat :
  version_of <$> (PollFileSystemForServable
    (mkFS (λ _, StatusOK) (λ _, (StatusOK, ["1"; "01"]))) (mkServable "m" "/m" PolicyAll)).2
  = [1; 1]%Z.
Proof. vm_compute. reflexivity. Qed.

(** ** The configuration as a whole *)

Lemma elem_of_map_insert {V} k (v : V) l k' v' :
  StronglySorted (λ a b, String.compare a b = Lt) l.*1 →
  (k', v') ∈ map_insert k v l ↔ (k', v') ∈ l ∨ ((k ∉ l.*1) ∧ k' = k ∧ v' = v).
Proof.
  induction l as [|[k1 v1] l IH]; cbn [map_insert]; rewrite ?fmap_cons; cbn [fst]; intros Hs.
  { rewrite list_elem_of_singleton, elem_of_nil. set_solver. }
  inversion Hs as [|?? Hs' H1]; subst. rewrite Forall_forall in H1.
  destruct (String.compare k k1) eqn:E.
  - apply string_compare_eq in E as ->. set_solver.
  - assert (k ∉ k1 :: l.*1); [|set_solver]. intros [->|Hin]%elem_of_cons.
    + by rewrite string_compare_refl in E.
    + apply H1 in Hin. pose proof (string_lt_trans _ _ _ E Hin) as Hkk.
      by rewrite string_compare_refl in Hkk.
  - assert (k ≠ k1) by (intros ->; by rewrite string_compare_refl in E).
    rewrite !elem_of_cons, (IH Hs'). naive_solver.
Qed.

Lemma map_insert_sorted {V} k (v : V) l :
  StronglySorted (λ a b, String.compare a b = Lt) l.*1 →
  StronglySorted (λ a b, String.compare a b = Lt) (map_insert k v l).*1.
Proof.
  intros Hs. replace (map_insert k v l).*1 with (set_insert k l.*1).
  { by apply set_insert_sorted. }
  clear Hs. induction l as [|[k1 v1] l IH]; simpl; [done|].
  destruct (String.compare k k1); rewrite ?fmap_cons; cbn [fst]; [done|done|]. f_equal. exact IH.
Qed.

(** The first configured servable of a name decides what is aspired for it. *)
Definition configured (config : SourceConfig) (name : string) : option ServableToMonitor :=
  List.find (λ s, String.eqb (sm_servable_name s) name) (cfg_servables config).

Lemma poll_servables_spec fs servables acc :
  StronglySorted (λ a b, String.compare a b = Lt) acc.*1 →
  let '(status, calls) := poll_servables fs servables acc in
  (ok status = false →
     ∃ servable, servable ∈ servables ∧ (PollFileSystemForServable fs servable).1 = status) ∧
  (ok status = true →
     status = StatusOK ∧
     StronglySorted (λ a b, String.compare a b = Lt) calls.*1 ∧
     (∀ servable, servable ∈ servables → (PollFileSystemForServable fs servable).1 = StatusOK) ∧
     ∀ name versions, (name, versions) ∈ calls ↔
       (name, versions) ∈ acc ∨
       ((name ∉ acc.*1) ∧ ∃ servable,
          List.find (λ s, String.eqb (sm_servable_name s) name) servables = Some servable ∧
          PollFileSystemForServable fs servable = (StatusOK, versions))).
Proof.
  revert acc. induction servables as [|s servables IH]; intros acc Hs; simpl.
  { split; [done|]. intros _. split_and!; [done..|set_solver|]. intros. naive_solver. }
  destruct (PollFileSystemForServable fs s) as [st vs] eqn:Hpoll.
  destruct (ok st) eqn:Hok; simpl.
  2: { split; [|congruence]. intros _. exists s. rewrite Hpoll. split; [left|done]. }
  apply ok_iff in Hok as ->.
  specialize (IH (map_insert (sm_servable_name s) vs acc) (map_insert_sorted _ _ _ Hs)).
  destruct (poll_servables fs servables _) as [status calls]. destruct IH as [IH1 IH2].
  split; [intros Hf; destruct (IH1 Hf) as (s'&?&?); exists s'; set_solver|].
  intros Ht. destruct (IH2 Ht) as (->&Hsorted&Hall&Hcalls). split_and!; [done..| |].
  { intros s' [->|Hin]%elem_of_cons; [by rewrite Hpoll|by apply Hall]. }
  intros name versions. rewrite Hcalls, elem_of_map_insert by done.
  assert (∀ n, n ∈ (map_insert (sm_servable_name s) vs acc).*1 ↔
    n ∈ acc.*1 ∨ n = sm_servable_name s) as Hkeys.
  { intros n. rewrite !list_elem_of_fmap. split.
    - intros ([k v]&->&Hin). apply elem_of_map_insert in Hin as [Hin|(_&->&_)]; [|by right|done].
      left. exists (k, v). done.
    - intros [([k v]&->&Hin)| ->].
      + exists (k, v). split; [done|]. apply elem_of_map_insert; [done|]. by left.
      + destruct (decide (sm_servable_name s ∈ acc.*1)) as [Hin|Hni].
        * apply list_elem_of_fmap in Hin as ([k v]&->&Hin). exists (k, v).
          split; [done|]. apply elem_of_map_insert; [done|]. by left.
        * exists (sm_servable_name s, vs). split; [done|].
          apply elem_of_map_insert; [done|]. by right. }
  rewrite Hkeys. destruct (String.eqb_spec (sm_servable_name s) name) as [<-|Hne].
  - split; [naive_solver|]. intros [?|(?&s'&[= <-]&Hp)]; [by auto|]. rewrite Hpoll in Hp.
    injection Hp as <-. left. right. done.
  - naive_solver.
Qed.

(** A poll of the whole configuration either fails with the error of one of
    the servables and calls nothing, or calls the target once for each
    configured name, in the order of the names, with the versions polled for the
    first servable of that name; all of them are versions of that name. *)
Theorem poll_callbacks_spec (fs : FileSystem) (s : StoragePathSource) :
  let '(status, s') := PollFileSystemAndInvokeCallback fs s in
  (ok status = false ∧ s' = s ∧
     ∃ servable, servable ∈ cfg_servables (src_config s) ∧
       (PollFileSystemForServable fs servable).1 = status) ∨
  (status = StatusOK ∧ src_config s' = src_config s ∧ ∃ calls,
     src_calls s' = src_calls s ++ calls ∧
     StronglySorted (λ a b, String.compare a b = Lt) calls.*1 ∧
     (∀ name versions, (name, versions) ∈ calls ↔ ∃ servable,
        configured (src_config s) name = Some servable ∧
        PollFileSystemForServable fs servable = (StatusOK, versions)) ∧
     (∀ servable, servable ∈ cfg_servables (src_config s) →
        sm_servable_name servable ∈ calls.*1) ∧
     ∀ name versions, (name, versions) ∈ calls →
       Forall (λ d, sid_name (sd_id d) = name) versions).
Proof.
  unfold PollFileSystemAndInvokeCallback, PollFileSystemForConfig, configured.
  pose proof (poll_servables_spec fs (cfg_servables (src_config s)) []) as H.
  destruct (poll_servables fs _ []) as [status calls].
  destruct H as [H1 H2]; [constructor|].
  destruct (ok status) eqn:Hok; simpl; [right|left; by auto].
  destruct (H2 eq_refl) as (->&Hsorted&Hall&Hcalls). split_and!; [done..|].
  assert (∀ name versions, (name, versions) ∈ calls ↔ ∃ servable,
    List.find (λ s, String.eqb (sm_servable_name s) name) (cfg_servables (src_config s))
      = Some servable ∧
    PollFileSystemForServable fs servable = (StatusOK, versions)) as Hc.
  { intros. rewrite Hcalls, elem_of_nil. split; [naive_solver|]. intros ?. right.
    split; [by apply not_elem_of_nil|done]. }
  exists calls. split_and!; [done..| |].
  - intros servable Hin.
    destruct (List.find (λ s, String.eqb (sm_servable_name s) (sm_servable_name servable))
      (cfg_servables (src_config s))) as [first|] eqn:Hfind.
    + destruct (List.find_some _ _ Hfind) as [Hfirst _].
      apply list_elem_of_fmap. exists (sm_servable_name servable, (PollFileSystemForServable fs first).2).
      split; [done|]. apply Hc. exists first. split; [done|].
      rewrite (surjective_pairing (PollFileSystemForServable fs first)) at 1.
      by rewrite Hall by (by apply list_elem_of_In).
    + apply list_elem_of_In in Hin. pose proof (List.find_none _ _ Hfind _ Hin) as Hf.
      simpl in Hf. by rewrite String.eqb_refl in Hf.
  - intros name versions (servable&Hfind&Hpoll)%Hc. apply Forall_forall. intros d Hd.
    destruct (poll_from_child _ _ _ _ Hpoll Hd) as (c&v&->&_). simpl.
    apply List.find_some in Hfind as [_ Hn]. by apply String.eqb_eq in Hn.
Qed.

(** ** Configurations over time *)

(** The source's life: it is created with no configuration; its configuration
    is replaced, its callback set, and the file system, which may change between
    any two steps, polled. *)
Definition new_source : StoragePathSource :=
  mkSource (mkConfig [] "" "" 0 false) false false [].

Inductive source_step : StoragePathSource → StoragePathSource → Prop :=
  | StepUpdateConfig fs config s : source_step s (UpdateConfig fs config s).2
  | StepSetCallback s : source_step s (SetAspiredVersionsCallback s)
  | StepPoll fs s : src_has_callback s = true →
      source_step s (PollFileSystemAndInvokeCallback fs s).2.

Definition names_of (config : SourceConfig) : list string :=
  sm_servable_name <$> cfg_servables config.

(** The versions the target was last told to aspire to for a name. *)
Definition last_call (name : string) (calls : list (string * list (ServableData StoragePath))) :
    list (ServableData StoragePath) :=
  foldl (λ acc c, if String.eqb c.1 name then c.2 else acc) [] calls.

Lemma last_call_other name calls extra :
  (name ∉ extra.*1) → last_call name (calls ++ extra) = last_call name calls.
Proof.
  unfold last_call. rewrite foldl_app. generalize (foldl (λ (acc : list (ServableData StoragePath))
    (c : string * list (ServableData StoragePath)), if String.eqb c.1 name then c.2 else acc) [] calls).
  induction extra as [|[k v] extra IH]; intros acc; [done|]. rewrite fmap_cons, not_elem_of_cons.
  cbn [fst foldl]. intros [Hk Hrest]. destruct (String.eqb_spec k name) as [->|_]; [done|].
  by apply IH.
Qed.

Lemma last_call_unaspired name calls names :
  name ∈ names → last_call name (calls ++ ((λ n, (n, [])) <$> names)) = [].
Proof.
  induction names as [|n names IH] using rev_ind; [by intros ?%not_elem_of_nil|]. intros Hin.
  rewrite fmap_app, app_assoc. unfold last_call. rewrite foldl_app. cbn [fmap list_fmap foldl fst snd].
  destruct (String.eqb_spec n name) as [|Hne]; [done|]. apply IH. set_solver.
Qed.

Lemma elem_of_GetDeletedServables name old_config new_config :
  name ∈ GetDeletedServables old_config new_config ↔
  name ∈ names_of old_config ∧ (name ∉ names_of new_config).
Proof.
  unfold GetDeletedServables, names_of. rewrite elem_of_string_set, list_elem_of_filter. tauto.
Qed.

(** Nothing is aspired of a name outside the configuration, and nothing at all
    before there is a callback. *)
Definition source_inv (s : StoragePathSource) : Prop :=
  (src_has_callback s = false → src_calls s = []) ∧
  ∀ name, (name ∉ names_of (src_config s)) → last_call name (src_calls s) = [].

Lemma UpdateConfig_inv fs config s : source_inv s → source_inv (UpdateConfig fs config s).2.
Proof.
  intros [Hcb Hlast]. unfold UpdateConfig.
  destruct (src_polling s && _); [done|]. destruct (negb _); [done|].
  destruct (src_has_callback s) eqn:Hc; cbn [snd]; split;
    cbn [src_has_callback src_calls src_config UnaspireServables]; rewrite ?Hc; [done| |by auto|].
  - intros name Hname. destruct (decide (name ∈ names_of (src_config s))) as [Hin|Hni].
    + by apply last_call_unaspired, elem_of_GetDeletedServables.
    + rewrite last_call_other; [by apply Hlast|].
      rewrite <-list_fmap_compose, list_elem_of_fmap. intros (n&->&Hn).
      apply elem_of_GetDeletedServables in Hn as [Hn _]. by apply Hni.
  - intros name _. by rewrite Hcb.
Qed.

Lemma Poll_inv fs s :
  src_has_callback s = true → source_inv s → source_inv (PollFileSystemAndInvokeCallback fs s).2.
Proof.
  intros Hc [Hcb Hlast]. unfold PollFileSystemAndInvokeCallback, PollFileSystemForConfig.
  pose proof (poll_servables_spec fs (cfg_servables (src_config s)) []) as H.
  destruct (poll_servables fs _ []) as [status calls].
  destruct H as [_ H]; [constructor|]. destruct (ok status); cbn [negb]; [|by split].
  destruct (H eq_refl) as (_&_&_&Hcalls). split; cbn [snd src_has_callback src_calls src_config].
  - by rewrite Hc.
  - intros name Hname. rewrite last_call_other; [by apply Hlast|].
    rewrite list_elem_of_fmap. intros ([n v]&->&Hin). apply Hcalls in Hin.
    destruct Hin as [?%elem_of_nil|(_&servable&Hf&_)]; [done|].
    apply List.find_some in Hf as [Hf Hn]. apply String.eqb_eq in Hn. cbn [fst] in Hname.
    apply Hname. unfold names_of. rewrite <-Hn. by apply list_elem_of_fmap_2, list_elem_of_In.
Qed.

(** At any time, a servable that is no longer configured is one for which
    the target was last told to aspire to no version (or never told anything). *)
Theorem removed_servables_unaspired (s : StoragePathSource) (name : string) :
  rtc source_step new_source s → (name ∉ names_of (src_config s)) →
  last_call name (src_calls s) = [].
Proof.
  intros Hsteps. enough (source_inv s) as [_ Hinv] by apply Hinv.
  remember new_source as s0 eqn:E. assert (source_inv s0) as H0 by (subst; by split).
  clear E. induction Hsteps as [|s1 s2 s3 Hstep _ IH]; [done|]. apply IH. clear IH.
  destruct Hstep as [fs config s|s|fs s Hc].
  - by apply UpdateConfig_inv.
  - unfold SetAspiredVersionsCallback. destruct (src_polling s); [done|].
    destruct H0 as [_ Hlast]. by split.
  - by apply Poll_inv.
Qed.

(** A servable is configured, polled and removed. *)
Definition example_life : StoragePathSource :=
  (UpdateConfig example_fs (mkConfig [] "" "" 1 false)
    (PollFileSystemAndInvokeCallback example_fs
      (SetAspiredVersionsCallback
        (UpdateConfig example_fs (mkConfig [] "m" "/m" 1 true) new_source).2)).2).2.

Lemma removed_servables_unaspired_witness :
  fst <$> src_calls example_life = ["m"; "m"] ∧ last_call "m" (src_calls example_life) = [].
Proof.
  split; [vm_compute; reflexivity|]. apply (removed_servables_unaspired example_life "m").
  - unfold example_life. eapply rtc_r; [|apply StepUpdateConfig].
    eapply rtc_r; [|apply StepPoll; vm_compute; reflexivity].
    eapply rtc_r; [|apply StepSetCallback]. apply rtc_once, StepUpdateConfig.
  - vm_compute. inversion 1.
Defined.
