(* ===== verification/SourceAdapter.v ===== *)
(** Source adapters and routers: [tensorflow_serving/core/source_adapter.h],
    [source_router.h], [static_source_router.h] and [dynamic_source_router.h].

    A source adapter turns the aspired-version lists of one type into lists of
    another and passes them on through its outgoing callback; a router passes a
    list to one of its output ports, each of which is an identity adapter.  A
    call of an adapter or a router whose callback or ports are not set up yet
    blocks: it is [None] here.  [SourceRouter] is the interface of the class that
    the two routers implement; what it promises of [Route] is discharged by both
    and is all that [router_delivers] uses. *)
From S2P Require Import Prelude Status Servable.

(** * Adapters *)

Section adapters.
Context {In Out : Type}.

(** [UnarySourceAdapter::Adapt], on top of the subclass's [Convert]. *)
Definition unary_adapt_one (Convert : In → Status * Out) (version : ServableData In) :
    ServableData Out :=
  match version with
  | DataOk i data =>
      let '(adapt_status, adapted_data) := Convert data in
      if ok adapt_status then DataOk i adapted_data else DataError i adapt_status
  | DataError i status => DataError i status
  end.

Definition Unary_Adapt (Convert : In → Status * Out) (servable_name : string)
    (versions : list (ServableData In)) : list (ServableData Out) :=
  foldl (λ adapted_versions version, adapted_versions ++ [unary_adapt_one Convert version])
    [] versions.

(** [ErrorInjectingSourceAdapter::Adapt]. *)
Definition ErrorInjecting_Adapt (error : Status) (servable_name : string)
    (versions : list (ServableData In)) : list (ServableData Out) :=
  foldl (λ adapted_versions version, adapted_versions ++
    [if ok (sd_status version) then DataError (sd_id version) error
     else DataError (sd_id version) (sd_status version)]) [] versions.

(** [SourceAdapter::AdaptOneVersion]; [None]: element 0 of an empty vector. *)
Definition AdaptOneVersion
    (Adapt : string → list (ServableData In) → list (ServableData Out))
    (input : ServableData In) : option (ServableData Out) :=
  Adapt (sid_name (sd_id input)) [input] !! 0.

(** [SourceAdapter::SetAspiredVersions]: what the outgoing callback is called
    with; the call blocks until [SetAspiredVersionsCallback]. *)
Definition Adapter_SetAspiredVersions
    (Adapt : string → list (ServableData In) → list (ServableData Out))
    (outgoing_callback : option nat) (servable_name : string)
    (versions : list (ServableData In)) : option (nat * string * list (ServableData Out)) :=
  callback ← outgoing_callback;
  Some (callback, servable_name, Adapt servable_name versions).
End adapters.

(** [IdentitySourceAdapter::Adapt]. *)
Definition Identity_Adapt {T} (servable_name : string) (versions : list (ServableData T)) :
    list (ServableData T) := versions.

(** * Routers *)

(** What a subclass of [SourceRouter] writes, and what the documentation asks of
    it: a fixed positive number of ports, and routes within them. *)
Class SourceRouter (R : Type) := {
  num_output_ports : R → Z;
  Route : R → string → Z;
  router_valid : R → Prop;
  ports_positive r : router_valid r → (0 < num_output_ports r)%Z;
  Route_in_range r servable_name :
    router_valid r → (0 ≤ Route r servable_name < num_output_ports r)%Z }.

(** The state of the base class: the ports, once they have been created, each
    with its outgoing callback. *)
Record RouterPorts := mkRouterPorts { output_ports : list (option nat); ports_created : bool }.

Definition no_ports : RouterPorts := mkRouterPorts [] false.

(** [SourceRouter::GetOutputPorts]. *)
Definition GetOutputPorts `{SourceRouter R} (r : R) (s : RouterPorts) : RouterPorts :=
  if ports_created s then s else
  let num_ports := if (num_output_ports r <? 1)%Z then 1%Z else num_output_ports r in
  mkRouterPorts (replicate (Z.to_nat num_ports) None) true.

(** [SetAspiredVersionsCallback] on one of the ports. *)
Definition SetPortCallback (port callback : nat) (s : RouterPorts) : RouterPorts :=
  mkRouterPorts (<[port := Some callback]> (output_ports s)) (ports_created s).

(** [SourceRouter::SetAspiredVersions]: the calls of outgoing callbacks it makes;
    a route out of range suppresses the request. *)
Definition Router_SetAspiredVersions `{SourceRouter R} {T} (r : R) (s : RouterPorts)
    (servable_name : string) (versions : list (ServableData T)) :
    option (list (nat * string * list (ServableData T))) :=
  if negb (ports_created s) then None else
  let output_port := Route r servable_name in
  if (output_port <? 0)%Z || (Z.of_nat (length (output_ports s)) - 1 <? output_port)%Z
  then Some []
  else port ← output_ports s !! Z.to_nat output_port;
       call ← Adapter_SetAspiredVersions Identity_Adapt port servable_name versions;
       Some [call].

(** ** The static router *)

Section static.
(** [str_util::StrContains], which the library of this repository lacks. *)
Context (StrContains : string → string → bool).

Record StaticSourceRouter := mkStaticSourceRouter { routes_except_default : list string }.

(** [StaticSourceRouter::Route]: the loop from index [i]. *)
Fixpoint static_route_from (routes : list string) (i : Z) (servable_name : string) : Z :=
  match routes with
  | [] => i
  | substring :: rest =>
      if StrContains servable_name substring then i
      else static_route_from rest (i + 1) servable_name
  end.

Definition StaticSourceRouter_Route (r : StaticSourceRouter) (servable_name : string) : Z :=
  static_route_from (routes_except_default r) 0 servable_name.

Definition StaticSourceRouter_num_output_ports (r : StaticSourceRouter) : Z :=
  Z.of_nat (length (routes_except_default r)) + 1.

Lemma static_route_from_spec routes i servable_name :
  ∃ k, static_route_from routes i servable_name = (i + Z.of_nat k)%Z ∧ k ≤ length routes ∧
    (∀ j s, j < k → routes !! j = Some s → StrContains servable_name s = false) ∧
    (∀ s, routes !! k = Some s → StrContains servable_name s = true).
Proof.
  revert i. induction routes as [|s rest IH]; intros i; simpl.
  { exists 0. split_and!; [lia|done|lia|done]. }
  destruct (StrContains servable_name s) eqn:Es.
  { exists 0. split_and!; [lia|lia|lia|]. by intros ? [= <-]. }
  destruct (IH (i + 1)%Z) as (k&->&Hk&Hlt&Heq). exists (S k). split_and!; [lia|lia| |done].
  intros [|j] s' Hj Hs'; simpl in *; [by simplify_eq|]. eapply Hlt; [|done]. lia.
Qed.

#[export] Program Instance static_router : SourceRouter StaticSourceRouter := {
  num_output_ports := StaticSourceRouter_num_output_ports;
  Route := StaticSourceRouter_Route;
  router_valid := λ _, True }.
Next Obligation. intros r _. unfold StaticSourceRouter_num_output_ports. lia. Qed.
Next Obligation.
  intros r servable_name _.
  unfold StaticSourceRouter_Route, StaticSourceRouter_num_output_ports.
  destruct (static_route_from_spec (routes_except_default r) 0 servable_name)
    as (k&->&Hk&_). lia.
Qed.
End static.

(** ** The dynamic router *)

(** [std::map<string, int>], in the order of iteration. *)
Definition Routes : Type := list (string * Z).

Record DynamicSourceRouter := mkDynamicSourceRouter { dr_num_output_ports : Z; dr_routes : Routes }.

(** [DynamicSourceRouter::ValidateRoutes]. *)
Fixpoint ValidateRoutes (n : Z) (routes : Routes) : Status :=
  match routes with
  | [] => StatusOK
  | (_, port) :: rest =>
      if (port <? 0)%Z || (n <=? port)%Z
      then InvalidArgument ("Port number out of range: " +:+ pretty port)
      else if (port =? n - 1)%Z
      then InvalidArgument ("Last port cannot be used in route map, since it's reserved for the " +:+
             "default route")
      else ValidateRoutes n rest
  end.

(** [DynamicSourceRouter::Create] and [UpdateRoutes]. *)
Definition DynamicSourceRouter_Create (n : Z) (routes : Routes) :
    Status * option DynamicSourceRouter :=
  let status := ValidateRoutes n routes in
  if ok status then (StatusOK, Some (mkDynamicSourceRouter n routes)) else (status, None).

Definition UpdateRoutes (routes : Routes) : SM DynamicSourceRouter := λ r,
  let status := ValidateRoutes (dr_num_output_ports r) routes in
  if ok status then (StatusOK, mkDynamicSourceRouter (dr_num_output_ports r) routes)
  else (status, r).

(** [DynamicSourceRouter::Route]. *)
Definition DynamicSourceRouter_Route (r : DynamicSourceRouter) (servable_name : string) : Z :=
  match list_find (λ e, e.1 = servable_name) (dr_routes r) with
  | None => dr_num_output_ports r - 1
  | Some (_, (_, port)) => port
  end.

Lemma ValidateRoutes_spec n routes :
  ok (ValidateRoutes n routes) = true ↔ Forall (λ e, (0 ≤ e.2 < n - 1)%Z) routes.
Proof.
  induction routes as [|[s port] rest IH]; simpl; [by split|]. rewrite Forall_cons. simpl.
  destruct (Z.ltb_spec port 0); [split; [done|]; lia|].
  destruct (Z.leb_spec n port); [split; [done|]; lia|]. simpl.
  destruct (Z.eqb_spec port (n - 1)); [split; [done|]; lia|]. rewrite IH.
  split; [intros; split; [lia|done]|by intros []].
Qed.

#[export] Program Instance dynamic_router : SourceRouter DynamicSourceRouter := {
  num_output_ports := dr_num_output_ports;
  Route := DynamicSourceRouter_Route;
  router_valid := λ r, (0 < dr_num_output_ports r)%Z ∧
    Forall (λ e, (0 ≤ e.2 < dr_num_output_ports r - 1)%Z) (dr_routes r) }.
Next Obligation. by intros r []. Qed.
Next Obligation.
  intros r name [Hn Hr]. unfold DynamicSourceRouter_Route.
  destruct (list_find _ _) as [[i [s port]]|] eqn:E; [|lia].
  apply list_find_Some in E as (Hi&_&_). eapply Forall_lookup_1 in Hr; [|done]. simpl in Hr. lia.
Qed.

(** * Properties *)

(** An adapter that converts versions one at a time keeps their number, order
    and ids, so that the one version it is asked to adapt keeps its id. *)
Lemma AdaptOneVersion_unary {In Out} (Convert : In → Status * Out) d :
  AdaptOneVersion (Unary_Adapt Convert) d = Some (unary_adapt_one Convert d).
Proof. done. Qed.

Lemma unary_adapt_one_id {In Out} (Convert : In → Status * Out) d :
  sd_id (unary_adapt_one Convert d) = sd_id d.
Proof. destruct d as [i x|i e]; simpl; [|done]. destruct (Convert x) as [st y]. by case_match. Qed.

(** The ports after set-up: created, and each connected to its own target. *)
Fixpoint connect_ports (targets : list nat) (port : nat) (s : RouterPorts) : RouterPorts :=
  match targets with
  | [] => s
  | t :: rest => connect_ports rest (S port) (SetPortCallback port t s)
  end.

Lemma connect_ports_spec targets port s pre :
  output_ports s = pre ++ replicate (length targets) None → length pre = port →
  connect_ports targets port s = mkRouterPorts (pre ++ (Some <$> targets)) (ports_created s).
Proof.
  revert port s pre. induction targets as [|t rest IH]; intros port s pre Hs Hl; simpl.
  - destruct s as [ps c]; simpl in *. by rewrite Hs.
  - rewrite (IH _ _ (pre ++ [Some t])).
    + simpl. by rewrite <-app_assoc.
    + simpl. rewrite Hs. simpl. rewrite insert_app_r_alt by lia.
      replace (port - length pre) with 0 by lia. simpl. by rewrite <-app_assoc.
    + rewrite length_app. simpl. lia.
Qed.

(** Once the ports of a router have been created and connected, one target
    each, a request reaches exactly one target, the one its route names, with
    its name and versions as they were. *)
Theorem router_delivers `{SourceRouter R} {T} (r : R) (targets : list nat)
    (servable_name : string) (versions : list (ServableData T)) :
  router_valid r → length targets = Z.to_nat (num_output_ports r) →
  ∃ target, targets !! Z.to_nat (Route r servable_name) = Some target ∧
    Router_SetAspiredVersions r (connect_ports targets 0 (GetOutputPorts r no_ports))
      servable_name versions = Some [(target, servable_name, versions)].
Proof.
  intros Hv Hlen. pose proof (ports_positive r Hv) as Hpos.
  pose proof (Route_in_range r servable_name Hv) as Hrange.
  destruct (lookup_lt_is_Some_2 targets (Z.to_nat (Route r servable_name))) as [t Ht];
    [rewrite Hlen; lia|]. exists t. split; [done|].
  rewrite (connect_ports_spec _ _ _ []); [|unfold GetOutputPorts; simpl|done].
  - unfold Router_SetAspiredVersions. simpl. rewrite length_fmap, Hlen.
    rewrite (proj2 (Z.ltb_ge _ _)), (proj2 (Z.ltb_ge _ _)) by lia. cbn [orb].
    by rewrite list_lookup_fmap, Ht.
  - rewrite (proj2 (Z.ltb_ge (num_output_ports r) 1)) by lia. by rewrite Hlen.
Qed.

(** The dynamic router accepts a route map exactly when every port in it is
    one of the ports before the last; it then sends the servables of the map to
    their ports and all others to the last port, and a map it refuses changes
    nothing. *)
Theorem UpdateRoutes_spec (r : DynamicSourceRouter) (routes : Routes) :
  let '(status, r') := UpdateRoutes routes r in
  (ok status = true ↔ Forall (λ e, (0 ≤ e.2 < dr_num_output_ports r - 1)%Z) routes) ∧
  (if ok status then dr_num_output_ports r' = dr_num_output_ports r ∧
     ∀ servable_name,
       (∀ port, NoDup routes.*1 → (servable_name, port) ∈ routes →
          DynamicSourceRouter_Route r' servable_name = port) ∧
       (servable_name ∉ routes.*1 →
          DynamicSourceRouter_Route r' servable_name = dr_num_output_ports r - 1)%Z
   else code status = INVALID_ARGUMENT ∧ r' = r).
Proof.
  pose proof (ValidateRoutes_spec (dr_num_output_ports r) routes) as Hspec. unfold UpdateRoutes.
  destruct (ok (ValidateRoutes _ _)) eqn:E; simpl; rewrite ?E; (split; [done|]).
  - split; [done|]. intros name. split; unfold DynamicSourceRouter_Route; simpl.
    + intros port Hnd Hin. destruct (list_find _ _) as [[i [s p]]|] eqn:F.
      * apply list_find_Some in F as (Hi&Hs&_). simpl in Hs. subst s.
        apply list_elem_of_lookup in Hin as [j Hj].
        assert (i = j) as -> by (eapply (NoDup_lookup routes.*1); [done| |];
          rewrite list_lookup_fmap; [by rewrite Hi|by rewrite Hj]). by simplify_eq.
      * apply list_find_None in F. rewrite Forall_forall in F. by destruct (F _ Hin).
    + intros Hni. destruct (list_find _ _) as [[i [s p]]|] eqn:F; [|done].
      apply list_find_Some in F as (Hi&Hs&_). simpl in Hs. subst s. destruct Hni.
      apply list_elem_of_fmap. exists (name, p). split; [done|]. by eapply list_elem_of_lookup_2.
  - split; [|done]. clear -E. induction routes as [|[s port] rest IH]; simpl in *; [done|].
    repeat case_match; try done. by apply IH.
Qed.

(** * Witnesses *)

Lemma router_delivers_witness :
  ∃ target, [7; 8; 9] !! Z.to_nat (Route (mkDynamicSourceRouter 3 [("a", 1%Z)]) "a") = Some target ∧
    Router_SetAspiredVersions (mkDynamicSourceRouter 3 [("a", 1%Z)])
      (connect_ports [7; 8; 9] 0 (GetOutputPorts (mkDynamicSourceRouter 3 [("a", 1%Z)]) no_ports))
      "a" [DataOk (mkServableId "a" 1) 5] = Some [(target, "a", [DataOk (mkServableId "a" 1) 5])].
Proof.
  apply (router_delivers (mkDynamicSourceRouter 3 [("a", 1%Z)]) [7; 8; 9]).
  - split; [reflexivity|]. repeat constructor; simpl; discriminate.
  - reflexivity.
Defined.
