(* ===== verification/CachingManager.v ===== *)
(** The caching manager: [tensorflow_serving/core/caching_manager.{h,cc}].

    A caching manager loads a servable when it is first asked for.  It owns a
    basic manager, here the concurrent system of [ManagerSystem], and a map from
    servable ids to mutexes that are shared by the calls under way.  Any number
    of calls of [GetUntypedServableHandle] run concurrently: a caller is a
    program point of [GetUntypedServableHandleForId] and [LoadServable] with the
    local variables live there, and [run_caller] executes the code up to the next
    point where another thread may intervene.  Mutexes have addresses;
    the reference count of [std::shared_ptr] is the number of map entries and of
    callers that hold the address.

    The loader factory is the interface [LoaderFactory], with
    [PathPrefixLoaderFactory] as an instance.

    The theorems: a servable is managed and loaded at most once whatever the
    interleaving, a call that succeeds returns the handle of the servable it
    asked for, every call returns, and the map of mutexes ends with an entry for
    exactly the servables whose load failed.  As in [ManagerSystem.v], an update of the
    serving map is part of a step; that calls return therefore takes that no client keeps
    a handle of an old map. *)
From S2P Require Import Prelude Status Servable LoaderHarness Resources BasicManager ManagerSystem StoragePathSource SourceAdapter.
Local Open Scope status_scope.

(** * The loader factory *)

(** [CachingManager::LoaderFactory]: the loaders and latest versions it may give
    out.  It always answers, a loader corresponds to the id it was asked for, and
    an error that is embedded in the data is an error. *)
Class LoaderFactory := {
  creates : ServableId → ServableData nat → Prop;
  latest_version : string → Z → Prop;
  creates_total i : ∃ d, creates i d;
  latest_version_total name : ∃ v, latest_version name v;
  creates_id i d : creates i d → sd_id d = i;
  creates_status i e : creates i (DataError i e) → ok e = false }.

(** [PathPrefixLoaderFactory::CreateLoader] over a source adapter; [None]: the
    adapter returned no version. *)
Definition PathPrefix_CreateLoader (path_prefix : string)
    (Adapt : string → list (ServableData string) → list (ServableData nat))
    (i : ServableId) : option (ServableData nat) :=
  if negb (sid_version i =? 0)%Z then
    Some (DataError i (FailedPrecondition ("PathPrefixLoaderFactory only supports " +:+
      "single-version servables at version 0")))
  else AdaptOneVersion Adapt (DataOk i (JoinPath [path_prefix; sid_name i])).

(** [PathPrefixLoaderFactory::GetLatestVersion]. *)
Definition PathPrefix_GetLatestVersion (servable_name : string) : Z := 0.

(** Over an adapter that converts paths one at a time it is a loader factory. *)
#[export] Program Instance path_prefix_factory (path_prefix : string)
    (Convert : string → Status * nat) : LoaderFactory := {
  creates i d := PathPrefix_CreateLoader path_prefix (Unary_Adapt Convert) i = Some d;
  latest_version name v := v = PathPrefix_GetLatestVersion name }.
Next Obligation.
  intros prefix Convert i. simpl. unfold PathPrefix_CreateLoader. case_match; by eexists.
Qed.
Next Obligation. intros prefix Convert name. by eexists. Qed.
Next Obligation.
  intros prefix Convert i d. unfold PathPrefix_CreateLoader. case_match; [by intros [= <-]|].
  rewrite AdaptOneVersion_unary. intros [= <-].
  apply (unary_adapt_one_id Convert (DataOk i _)).
Qed.
Next Obligation.
  intros prefix Convert i e. unfold PathPrefix_CreateLoader. case_match; [by intros [= <-]|].
  rewrite AdaptOneVersion_unary. unfold unary_adapt_one. destruct (Convert _) as [st x].
  destruct (ok st) eqn:E; [done|]. by intros [= <-].
Qed.

(** * The system *)

(** The program points of a call; [i] is the id it asks for, [j] the id of the
    loader data, [mu] the mutex [servable_id_mu] points to. *)
Inductive Caller :=
  | CStart (request : ServableRequest)                 (* enters [GetUntypedServableHandle] *)
  | CLookup (i : ServableId)                           (* asks the basic manager *)
  | CCreate (i : ServableId)                           (* calls [CreateLoader] *)
  | CFindMutex (i : ServableId) (d : ServableData nat) (* enters [LoadServable] *)
  | CLock (i : ServableId) (d : ServableData nat) (mu : nat)      (* locks the mutex *)
  | CSnapshot (i : ServableId) (d : ServableData nat) (mu : nat)  (* reads the state *)
  | CManage (i : ServableId) (d : ServableData nat) (mu : nat)    (* calls [ManageServable] *)
  | CLoad (i j : ServableId) (mu : nat)                (* calls [LoadServable] *)
  | CWait (i j : ServableId) (mu n : nat)              (* waits for the callback *)
  | CUnlock (i j : ServableId) (mu : nat) (st : Status) (* leaves the locked block *)
  | CReset (i j : ServableId) (mu : nat) (st : Status) (* releases [servable_id_mu] *)
  | CErase (i j : ServableId)                          (* [MaybeEraseLoadMutexMapEntry] *)
  | CFinal (i : ServableId)                            (* asks the basic manager again *)
  | CReturned (i : ServableId) (st : Status) (handle : option Handle).

Record CachingManager {A : Type} := mkCachingManager {
  cm_basic_manager : Sys A;
  cm_load_mutex_map : gmap ServableId nat;
  cm_held : gset nat;             (* the mutexes that are locked *)
  cm_next_mutex : nat;
  cm_callers : list Caller }.     (* in no particular order *)
Arguments CachingManager : clear implicits.
Arguments mkCachingManager {A}.

(** The mutex that [servable_id_mu] of a caller points to. *)
Definition pointer (t : Caller) : option nat :=
  match t with
  | CLock _ _ mu | CSnapshot _ _ mu | CManage _ _ mu | CLoad _ _ mu | CWait _ _ mu _
  | CUnlock _ _ mu _ | CReset _ _ mu _ => Some mu
  | _ => None
  end.

(** [use_count] of a mutex. *)
Definition use_count (mu : nat) (load_mutex_map : gmap ServableId nat)
    (callers : list Caller) : nat :=
  length (filter (λ e, e.2 = mu) (map_to_list load_mutex_map)) +
  length (filter (λ t, pointer t = Some mu) callers).

(** The statuses that the callbacks of load requests for [j] were given, leaving
    out the first [n] callbacks. *)
Definition load_status (j : ServableId) (x : LoadOrUnloadRequest * Status) : option Status :=
  if decide (x.1 = mkRequest kLoadRequest j) then Some x.2 else None.

Definition load_statuses {A} (n : nat) (j : ServableId) (m : BasicManager A) : list Status :=
  omap (load_status j) (drop n (answers m)).

Section system.
Context {A : Type}.
Implicit Types (s : CachingManager A) (sys : Sys A).

(** [MaybeEraseLoadMutexMapEntry]. *)
Definition MaybeEraseLoadMutexMapEntry (i : ServableId) (callers : list Caller)
    (load_mutex_map : gmap ServableId nat) : gmap ServableId nat :=
  match load_mutex_map !! i with
  | Some mu => if (use_count mu load_mutex_map callers =? 1)%nat
               then delete i load_mutex_map else load_mutex_map
  | None => load_mutex_map
  end.

(** [GetLoadMutexMapSize]. *)
Definition GetLoadMutexMapSize s : nat := size (cm_load_mutex_map s).

(** The id that [GetUntypedServableHandle] asks for; [latest] is what the factory
    answers. *)
Definition requested_id (request : ServableRequest) (latest : Z) : ServableId :=
  match req_version request with
  | Some version => mkServableId (req_name request) version
  | None => mkServableId (req_name request) latest
  end.

(** The code from the point [t] to the next: the point reached and the state;
    [rest] are the other callers.  [latest] and [data] are the answers of the
    loader factory.  [None]: the caller cannot run now. *)
Definition run_caller (latest : Z) (data : ServableData nat) (t : Caller) (rest : list Caller)
    sys (mutexes : gmap ServableId nat) (held : gset nat) (next : nat) :
    option (CachingManager A) :=
  let '(mkSys m deciding threads) := sys in
  let continue t := Some (mkCachingManager sys mutexes held next (t :: rest)) in
  match t with
  | CStart request => continue (CLookup (requested_id request latest))
  | CLookup i =>
      let '(handle_status, handle) := GetUntypedServableHandle (FromId i) m in
      if ok handle_status || negb (bool_decide (code handle_status = NOT_FOUND))
      then continue (CReturned i handle_status handle) else continue (CCreate i)
  | CCreate i => continue (CFindMutex i data)
  | CFindMutex i d =>
      match mutexes !! sd_id d with
      | Some mu => continue (CLock i d mu)
      | None => Some (mkCachingManager sys (<[sd_id d := next]> mutexes) held (next + 1)
                        (CLock i d next :: rest))
      end
  | CLock i d mu =>
      if decide (mu ∈ held) then None
      else Some (mkCachingManager sys mutexes ({[mu]} ∪ held) next (CSnapshot i d mu :: rest))
  | CSnapshot i d mu =>
      match GetManagedServableStateSnapshot (sd_id d) m with
      | Some snapshot =>
          if negb (bool_decide (snap_state snapshot = State.kReady)) then
            continue (CUnlock i (sd_id d) mu (Internal ("Servable requested for load is already "
              +:+ "being managed, but is not loaded: " +:+ ServableId_DebugString (sd_id d))))
          else continue (CUnlock i (sd_id d) mu StatusOK)
      | None => continue (CManage i d mu)
      end
  | CManage i d mu =>
      let '(manage_status, m) := ManageServable d m in
      Some (mkCachingManager (mkSys m deciding threads) mutexes held next
        ((if negb (ok manage_status) then
            CUnlock i (sd_id d) mu (Internal ("Internal error: unable to transfer servable to "
              +:+ "'basic_manager_': " +:+ error_message manage_status))
          else CLoad i (sd_id d) mu) :: rest))
  | CLoad i j mu =>
      sys ← step (LRequest (mkRequest kLoadRequest j)) sys;
      Some (mkCachingManager sys mutexes held next (CWait i j mu (length (answers m)) :: rest))
  | CWait i j mu n =>
      match load_statuses n j m with
      | [] => None
      | st :: _ => continue (CUnlock i j mu st)
      end
  | CUnlock i j mu st =>
      Some (mkCachingManager sys mutexes (held ∖ {[mu]}) next (CReset i j mu st :: rest))
  | CReset i j mu st => continue (if ok st then CErase i j else CReturned i st None)
  | CErase i j =>
      Some (mkCachingManager sys (MaybeEraseLoadMutexMapEntry j rest mutexes) held next
        (CFinal i :: rest))
  | CFinal i =>
      let '(st, handle) := GetUntypedServableHandle (FromId i) m in
      continue (CReturned i st handle)
  | CReturned _ _ _ => None
  end.

(** A step: a new call, a caller that runs, or a thread of the basic manager. *)
Inductive CLabel :=
  | LCall (request : ServableRequest)
  | LCaller (k : nat) (latest : Z) (data : ServableData nat)
  | LManager (k : nat) (a : Answers).

Definition cstep (l : CLabel) s : option (CachingManager A) :=
  let '(mkCachingManager sys mutexes held next callers) := s in
  match l with
  | LCall request => Some (mkCachingManager sys mutexes held next (CStart request :: callers))
  | LCaller k latest data =>
      t ← callers !! k;
      run_caller latest data t (delete k callers) sys mutexes held next
  | LManager k a =>
      sys ← step (LRun k a) sys;
      Some (mkCachingManager sys mutexes held next callers)
  end.
End system.

(** [CachingManager::Create]. *)
Definition Caching_Create {A} (max_num_load_retries num_load_threads : Z) (has_event_bus : bool)
    (tracker : option ResourceTracker) : CachingManager A :=
  mkCachingManager
    (mkSys (Create max_num_load_retries num_load_threads has_event_bus false tracker) false [])
    ∅ ∅ 0 [].

Section reachable.
Context `{LoaderFactory} {A : Type}.

(** The factory answers for the caller that asks. *)
Definition clabel_wf (l : CLabel) (s : CachingManager A) : Prop :=
  match l with
  | LCaller k latest data =>
      match cm_callers s !! k with
      | Some (CStart request) => latest_version (req_name request) latest
      | Some (CCreate i) => creates i data
      | _ => True
      end
  | _ => True
  end.

Inductive caching_reachable (s0 : CachingManager A) : CachingManager A → Prop :=
  | caching_init : caching_reachable s0 s0
  | caching_snoc l s s' :
      caching_reachable s0 s → clabel_wf l s → cstep l s = Some s' → caching_reachable s0 s'.

(** A step that is not a new call. *)
Definition cruns (s s' : CachingManager A) : Prop :=
  ∃ l, match l with LCall _ => False | _ => True end ∧ clabel_wf l s ∧ cstep l s = Some s'.
End reachable.

(** * Load requests in the basic manager *)

Section loads.
Context {A : Type}.
Implicit Types (m : BasicManager A) (h : LoaderHarness A) (M : gmap nat (LoaderHarness A))
  (H : HandlesMap).

Definition in_state M (st : State.t) (j : ServableId) : Prop :=
  ∃ p h, M !! p = Some h ∧ h_id h = j ∧ h_state h = st.

Definition managed M (j : ServableId) : Prop := ∃ p h, M !! p = Some h ∧ h_id h = j.

(** The servable is loaded and requests for it are answered with its handle. *)
Definition is_served M H (j : ServableId) : Prop :=
  ∃ p h, M !! p = Some h ∧ h_id h = j ∧ h_state h = State.kReady ∧
    (FromId j, (j, h_loader h)) ∈ H.

(** What the status of a load request for [j] tells. *)
Definition outcome M H (j : ServableId) (st : Status) : Prop :=
  if ok st then is_served M H j else in_state M State.kError j.

Definition load_fact M H (t : Thread) : Prop :=
  lur_kind (thread_request t) = kLoadRequest ∧
  match t with
  | TLoadServe r => in_state M State.kReady (lur_id r)
  | TLoadPublish r => is_served M H (lur_id r)
  | TFinish r st | TDone r st => outcome M H (lur_id r) st
  | _ => True
  end.

(** Requests for a specific version find the ready harness of that version. *)
Definition handles_ready M H : Prop :=
  ∀ i x, (FromId i, x) ∈ H →
    ∃ p h, M !! p = Some h ∧ h_id h = i ∧ h_state h = State.kReady ∧ x = (i, h_loader h).

(** Without unloads, a servable that is ready or in error stays so. *)
Definition final_state (st : State.t) : bool :=
  match st with State.kReady | State.kError => true | _ => false end.

(** How the manager changes while servables are managed and loaded: harnesses
    in the states [P] stay as they are, and the serving map is at most updated. *)
Record evolves (P : State.t → bool) M H M' H' : Prop := {
  ev_rest p h : M !! p = Some h → P (h_state h) = true → M' !! p = Some h;
  ev_handles : H' = H ∨ M' = M ∧ H' = ServingMap_Update M }.

(** No harness appears, disappears or changes its id. *)
Definition same_ids M M' : Prop := ∀ p, h_id <$> M' !! p = h_id <$> M !! p.

Lemma same_ids_managed M M' j : same_ids M M' → managed M' j ↔ managed M j.
Proof.
  intros Hs. split; intros (p&h&Hp&<-); specialize (Hs p); rewrite Hp in Hs.
  - symmetry in Hs. apply fmap_Some in Hs as (g&Hg&E). by exists p, g.
  - apply fmap_Some in Hs as (g&Hg&E). by exists p, g.
Qed.

Lemma evolves_refl P M H : evolves P M H M H.
Proof. split; eauto. Qed.

Lemma evolves_insert (P : State.t → bool) M H p h' :
  (∀ h, M !! p = Some h → P (h_state h) = false) → evolves P M H (<[p:=h']> M) H.
Proof.
  intros Hp. split; [|by left]. intros q g Hq Hg.
  rewrite lookup_insert_ne; [done|]. intros <-. by rewrite (Hp g) in Hg.
Qed.

Lemma same_ids_insert M p h h' :
  M !! p = Some h → h_id h' = h_id h → same_ids M (<[p:=h']> M).
Proof.
  intros Hp Hid q. destruct (decide (p = q)) as [<-|]; [|by rewrite lookup_insert_ne].
  rewrite lookup_insert_eq, Hp. simpl. congruence.
Qed.

Lemma serving_map_ready M p h :
  unique_ids M → M !! p = Some h → h_state h = State.kReady →
  (FromId (h_id h), (h_id h, h_loader h)) ∈ ServingMap_Update M.
Proof.
  intros Hu Hp Hs. apply elem_of_serving_map; [done|]. split_and!; [|done|].
  - apply elem_of_ready_handles. eauto.
  - simpl. by destruct (h_id h).
Qed.

Lemma handles_ready_update M : unique_ids M → handles_ready M (ServingMap_Update M).
Proof.
  intros Hu i x (Hx&Hn&Hv)%elem_of_serving_map; [|done].
  apply elem_of_ready_handles in Hx as (p&h&Hp&Hs&->). exists p, h.
  assert (h_id h = i) as <-; [|by split_and!].
  destruct i as [n v], (h_id h) as [n' v']; simpl in *. by subst.
Qed.

Section evolution.
Context P M H M' H' (Hev : evolves P M H M' H') (HP : ∀ st, final_state st = true → P st = true).

Lemma evolves_state st j : P st = true → in_state M st j → in_state M' st j.
Proof.
  intros Htr (p&h&Hp&Hid&Hs). exists p, h. split_and!; try done.
  apply (ev_rest _ _ _ _ _ Hev); [done|]. by rewrite Hs.
Qed.

Lemma evolves_served j : unique_ids M → is_served M H j → is_served M' H' j.
Proof.
  intros Hu (p&h&Hp&Hid&Hs&Hin). assert (M' !! p = Some h) as Hp'.
  { apply (ev_rest _ _ _ _ _ Hev); [done|]. apply HP. by rewrite Hs. }
  exists p, h. split_and!; try done. destruct (ev_handles _ _ _ _ _ Hev) as [->|[-> ->]]; [done|].
  subst j. by apply (serving_map_ready M p h).
Qed.

Lemma evolves_outcome j st : unique_ids M → outcome M H j st → outcome M' H' j st.
Proof.
  intros Hu. unfold outcome. destruct (ok st); [by apply evolves_served|]. apply evolves_state. by apply HP.
Qed.

Lemma evolves_fact t : unique_ids M → load_fact M H t → load_fact M' H' t.
Proof.
  intros Hu [Hk Hf]. split; [done|]. destruct t; try done.
  - apply evolves_state; [by apply HP|done].
  - by apply evolves_served.
  - by apply evolves_outcome.
  - by apply evolves_outcome.
Qed.

Lemma evolves_handles : unique_ids M → handles_ready M H → handles_ready M' H'.
Proof.
  intros Hu Hh. destruct (ev_handles _ _ _ _ _ Hev) as [E|[E1 E2]];
    [|rewrite E1, E2; by apply handles_ready_update]. rewrite E. intros i x Hx.
  destruct (Hh i x Hx) as (p&h&Hp&Hid&Hs&->). exists p, h. split_and!; try done.
  apply (ev_rest _ _ _ _ _ Hev); [done|]. apply HP. by rewrite Hs.
Qed.
End evolution.

Lemma load_fact_wake M H t : load_fact M H t → load_fact M H (wake t).
Proof. by destruct t. Qed.

Definition idle (st : State.t) : bool := negb (transient st).

(** What a step of a thread that handles a load request does: it changes at most
    the harness of that request, which was in transition. *)
Definition load_step m rest (s' : Sys A) : Prop :=
  let M' := bm_managed_map (sys_manager s') in
  let H' := bm_handles_map (sys_manager s') in
  evolves idle (bm_managed_map m) (bm_handles_map m) M' H' ∧ same_ids (bm_managed_map m) M' ∧
  ∃ next, (sys_threads s' = next ++ rest ∨ sys_threads s' = next ++ (wake <$> rest)) ∧
    ∀ t', t' ∈ next → load_fact M' H' t'.

Lemma load_step_plain m m' d t' rest :
  core m' = core m → load_fact (bm_managed_map m) (bm_handles_map m) t' →
  load_step m rest (mkSys m' d (t' :: rest)).
Proof.
  intros Hc Hf. pose proof (managed_of_core _ _ Hc) as HM.
  pose proof (handles_of_core _ _ Hc) as HH. unfold load_step; simpl. rewrite HM, HH.
  split_and!; [apply evolves_refl|done|]. exists [t']. split; [by left|].
  by intros ? ->%list_elem_of_singleton.
Qed.

Lemma load_step_harness m m' d t' rest p h h' :
  bm_managed_map m !! p = Some h → idle (h_state h) = false →
  (∃ n, core m' = core (set_num_ongoing n
     (set_managed_map (<[p:=h']> (bm_managed_map m)) m))) →
  h_id h' = h_id h →
  load_fact (<[p:=h']> (bm_managed_map m)) (bm_handles_map m) t' →
  load_step m rest (mkSys m' d (t' :: rest)).
Proof.
  intros Hp Htr [n Hc] Hid Hf. pose proof (managed_of_core _ _ Hc) as HM.
  pose proof (handles_of_core _ _ Hc) as HH. unfold load_step; simpl in *. rewrite HM, HH.
  split_and!; [apply evolves_insert; congruence|by eapply same_ids_insert|].
  exists [t']. split; [by left|].
  by intros ? ->%list_elem_of_singleton.
Qed.

Lemma in_state_insert M p h st j : h_id h = j → h_state h = st → in_state (<[p:=h]> M) st j.
Proof. intros <- <-. exists p, h. by rewrite lookup_insert_eq. Qed.

Lemma decision_load_step a r p h rest m :
  bm_managed_map m !! p = Some h → h_id h = lur_id r → h_state h = State.kLoadRequested →
  lur_kind r = kLoadRequest →
  load_step m rest (after_decision r p rest (ApproveRequest (a_recompute a) (a_reserve a) r p m)).
Proof.
  intros Hp Hid Hs Hk.
  destruct (ApproveRequest_cases (a_recompute a) (a_reserve a) r p h m Hp) as (res&m'&->&Hc).
  { unfold requested_state. by rewrite Hk. }
  destruct Hc as [(->&_&Hc&_)|[(->&Hc)|(e&He&_&->&Hc)]]; simpl.
  - apply load_step_plain; [done|]. by split.
  - rewrite Hk. eapply load_step_harness;
      [exact Hp|by rewrite Hs|by eexists; exact Hc|done|by split].
  - destruct e as [|c msg]; [done|]. pose proof (ErrorInternal_fields (StatusError c msg) h) as (?&_&_).
    eapply load_step_harness; [exact Hp|by rewrite Hs|by eexists; exact Hc|done|].
    split; [done|]. simpl. apply in_state_insert; [congruence|]. apply ErrorInternal_state.
Qed.

Lemma run_load_thread a t d rest m s' :
  sys_inv (mkSys m d (t :: rest)) → load_fact (bm_managed_map m) (bm_handles_map m) t →
  run_thread a t d rest m = Some s' → load_step m rest s'.
Proof.
  intros Hinv [Hk Hf] Hrun. pose proof Hinv as (Hheap&_&_).
  pose proof (hi_unique _ _ _ _ _ Hheap) as Hu.
  pose proof (thread_locals _ _ _ _ Hinv) as Hl. simpl in Hu.
  destruct (owned t) as [[op st]|] eqn:Eo.
  - destruct (owned_harness _ _ _ _ _ _ Hinv Eo) as (p'&h&Hp&Hid&Hs&Hptr&_&Hg&_).
    destruct t; simpl in Eo, Hk, Hl; try done; try congruence; injection Eo as <- <-; simpl in Hid.
    + rewrite Hk in Hs. simpl in Hrun. destruct d; [done|]. rewrite <-Hid in Hrun.
      rewrite (GetHealthyHarness_found m p' h) in Hrun; [|done..|].
      * injection Hrun as <-. by eapply decision_load_step.
      * apply (good_status_ok _ _ Hg). by rewrite Hs.
    + destruct Hptr as [?|[= <-]]; [done|]. injection Hrun as <-. by eapply decision_load_step.
    + destruct Hptr as [?|[= <-]]; [done|]. injection Hrun as <-. apply load_step_plain; [|by split].
      rewrite core_pre_load_hook. by eapply publish_harness_core.
    + destruct Hptr as [?|[= <-]]; [done|]. simpl in Hrun.
      destruct (call_harness_spec p Load_begin m h Hp) as (m'&E&Hc). rewrite E in Hrun.
      unfold Load_begin in Hc, Hrun. rewrite TransitionState_ok in Hc, Hrun by done.
      injection Hrun as <-.
      eapply load_step_harness; [exact Hp|by rewrite Hs|by eexists; exact Hc|done|by split].
    + destruct Hptr as [?|[= <-]]; [done|]. simpl in Hrun. rewrite Hp in Hrun.
      unfold load_try in Hrun. destruct (retry_again _ _ _ _).
      * destruct (call_harness_spec p (λ h, (StatusOK, add_call (CallLoad (a_load a)) h)) m h Hp)
          as (m'&E&Hc). rewrite E in Hrun. injection Hrun as <-.
        eapply load_step_harness; [exact Hp|by rewrite Hs|by eexists; exact Hc|done|by split].
      * destruct (load_last_try _ (a_load a) h Hg Hs) as (h'&Hend&_&Hid'&_&Hs').
        destruct (call_harness_spec p (λ h, Load_end (a_load a) (add_call (CallLoad (a_load a)) h))
          m h Hp) as (m'&E&Hc). rewrite E in Hrun. rewrite Hend in Hrun, Hc. simpl in Hrun.
        injection Hrun as <-.
        eapply load_step_harness; [exact Hp|by rewrite Hs|by eexists; exact Hc|exact Hid'|].
        unfold load_fact, outcome. destruct (ok (a_load a)) eqn:Hok; simpl; rewrite ?Hok;
          (split; [done|]); apply in_state_insert; congruence.
  - destruct t; simpl in Eo, Hk, Hl, Hf; try done; try congruence; injection Hrun as <-.
    + destruct Hf as (p&h&Hp&Hid&Hs). split_and!; simpl; [split; eauto|done|]. exists [TLoadPublish r].
      split; [by left|]. intros ? ->%list_elem_of_singleton. split; [done|].
      exists p, h. split_and!; try done. rewrite <-Hid. by apply (serving_map_ready _ p).
    + apply load_step_plain; [apply core_publish|by split].
    + split_and!; [split; simpl; eauto|done|]. exists [TDone r status]. split; [by right|].
      intros ? ->%list_elem_of_singleton. by split.
    + split_and!; [split; simpl; eauto|done|]. exists []. split; [by left|].
      by intros ? ?%not_elem_of_nil.
Qed.
End loads.

(** * The invariant *)

(** The servable whose mutex a caller uses or is about to give back. *)
Definition target (t : Caller) : option ServableId :=
  match t with
  | CLock _ d _ | CSnapshot _ d _ | CManage _ d _ => Some (sd_id d)
  | CLoad _ j _ | CWait _ j _ _ | CUnlock _ j _ _ | CReset _ j _ _ | CErase _ j => Some j
  | _ => None
  end.

(** The mutex a caller has locked. *)
Definition holding (t : Caller) : option nat :=
  match t with
  | CSnapshot _ _ mu | CManage _ _ mu | CLoad _ _ mu | CWait _ _ mu _ | CUnlock _ _ mu _ => Some mu
  | _ => None
  end.

(** The servable a caller has managed and is going to load. *)
Definition loading (t : Caller) : option ServableId :=
  match t with CLoad _ j _ => Some j | _ => None end.

Definition busy (t : Caller) : option ServableId :=
  match t with CLoad _ j _ | CWait _ j _ _ => Some j | _ => None end.

Section caching_invariant.
Context {A : Type}.
Implicit Types (sys : Sys A) (M : gmap nat (LoaderHarness A)).

Definition map_of sys := bm_managed_map (sys_manager sys).
Definition handles_of sys := bm_handles_map (sys_manager sys).

(** The load requests made so far, answered or pending. *)
Definition requests sys : list LoadOrUnloadRequest :=
  dones (sys_manager sys) ++ (thread_request <$> sys_threads sys).

Definition settled M H (j : ServableId) : Prop := is_served M H j ∨ in_state M State.kError j.

Definition returns M (i : ServableId) (st : Status) (handle : option Handle) : Prop :=
  if ok st then ∃ p h, M !! p = Some h ∧ h_id h = i ∧ h_state h = State.kReady ∧
    handle = Some (i, h_loader h)
  else in_state M State.kError i ∧ handle = None.

(** The data of a loader for [i]. *)
Definition data_ok (i : ServableId) (d : ServableData nat) : Prop :=
  sd_id d = i ∧ match d with DataError _ e => ok e = false | _ => True end.

(** A caller that waits has its request pending, or answered with [st]. *)
Definition waits sys (j : ServableId) (n : nat) : Prop :=
  n ≤ length (answers (sys_manager sys)) ∧
  match load_statuses n j (sys_manager sys) with
  | [] => mkRequest kLoadRequest j ∈ thread_request <$> sys_threads sys
  | st :: _ => outcome (map_of sys) (handles_of sys) j st
  end.

Definition caller_fact sys (t : Caller) : Prop :=
  let M := map_of sys in let H := handles_of sys in
  match t with
  | CStart _ | CLookup _ | CCreate _ => True
  | CFindMutex i d | CLock i d _ | CSnapshot i d _ => data_ok i d
  | CManage i d _ => data_ok i d ∧ ¬ managed M i
  | CLoad i j _ => i = j ∧ (in_state M State.kNew j ∨ in_state M State.kError j)
  | CWait i j _ n => i = j ∧ waits sys j n
  | CUnlock i j _ st | CReset i j _ st => i = j ∧ outcome M H j st
  | CErase i j => i = j ∧ is_served M H j
  | CFinal i => is_served M H i
  | CReturned i st handle => returns M i st handle
  end.

Record cinv sys (mutexes : gmap ServableId nat) (held : gset nat) (next : nat)
    (T : list Caller) : Prop := {
  ci_sys : sys_inv sys;
  ci_handles : handles_ready (map_of sys) (handles_of sys);
  ci_facts u : u ∈ sys_threads sys → load_fact (map_of sys) (handles_of sys) u;
  ci_once : NoDup (requests sys);
  ci_requested r : r ∈ requests sys →
    lur_kind r = kLoadRequest ∧ managed (map_of sys) (lur_id r);
  ci_loading t j : t ∈ T → loading t = Some j → mkRequest kLoadRequest j ∉ requests sys;
  ci_settled p h : map_of sys !! p = Some h → settled (map_of sys) (handles_of sys) (h_id h) ∨
    ∃ t, t ∈ T ∧ busy t = Some (h_id h);
  ci_callers t : t ∈ T → caller_fact sys t;
  ci_mutexes t mu : t ∈ T → pointer t = Some mu →
    ∃ j, target t = Some j ∧ mutexes !! j = Some mu;
  ci_next j mu : mutexes !! j = Some mu → mu < next;
  ci_inj j j' mu : mutexes !! j = Some mu → mutexes !! j' = Some mu → j = j';
  ci_held : held = list_to_set (omap holding T);
  ci_excl : NoDup (omap holding T);
  ci_entry j mu : mutexes !! j = Some mu →
    in_state (map_of sys) State.kError j ∨ ∃ t, t ∈ T ∧ target t = Some j;
  ci_kept j : managed (map_of sys) j →
    is_served (map_of sys) (handles_of sys) j ∨ is_Some (mutexes !! j) }.

Definition caching_inv (s : CachingManager A) : Prop :=
  cinv (cm_basic_manager s) (cm_load_mutex_map s) (cm_held s) (cm_next_mutex s) (cm_callers s).

Lemma cinv_perm sys mp held next T T' :
  T ≡ₚ T' → cinv sys mp held next T → cinv sys mp held next T'.
Proof.
  intros Hp []. split; try done.
  - intros t j. rewrite <-Hp. eauto.
  - intros p h Hh. destruct (ci_settled0 p h Hh) as [?|(t&?&?)]; [by left|right].
    exists t. by rewrite <-Hp.
  - intros t. rewrite <-Hp. eauto.
  - intros t mu. rewrite <-Hp. eauto.
  - rewrite ci_held0. apply set_eq. intros mu. by rewrite !elem_of_list_to_set, Hp.
  - by rewrite <-Hp.
  - intros j mu Hj. destruct (ci_entry0 j mu Hj) as [?|(t&?&?)]; [by left|right].
    exists t. by rewrite <-Hp.
Qed.

Lemma cinv_unique sys mp held next T : cinv sys mp held next T → unique_ids (map_of sys).
Proof. intros Hc. destruct (ci_sys _ _ _ _ _ Hc) as (Hheap&_). apply (hi_unique _ _ _ _ _ Hheap). Qed.

Lemma in_state_unique M st st' j :
  unique_ids M → in_state M st j → in_state M st' j → st = st'.
Proof.
  intros Hu (p&h&Hp&Hid&<-) (q&g&Hq&Hgid&<-).
  assert (p = q) as -> by (eapply Hu; [done..|congruence]). congruence.
Qed.

Lemma is_served_state M H j : is_served M H j → in_state M State.kReady j.
Proof. intros (p&h&?&?&?&_). by exists p, h. Qed.

Lemma in_state_managed M st j : in_state M st j → managed M j.
Proof. intros (p&h&?&?&_). by exists p, h. Qed.

(** While a caller holds the mutex of a servable, no other caller holds it. *)
Lemma holder_unique sys mp held next t rest u mu nu j :
  cinv sys mp held next (t :: rest) → holding t = Some mu → target t = Some j →
  u ∈ rest → holding u = Some nu → target u ≠ Some j.
Proof.
  intros Hc Ht Htj Hu Hnu Htu. pose proof (ci_excl _ _ _ _ _ Hc) as Hnd. simpl in Hnd.
  rewrite Ht in Hnd. apply NoDup_cons in Hnd as [Hni _].
  destruct (ci_mutexes _ _ _ _ _ Hc t mu) as (j1&Hj1&Hm1); [left|by destruct t|].
  destruct (ci_mutexes _ _ _ _ _ Hc u nu) as (j2&Hj2&Hm2); [by right|by destruct u|].
  apply Hni, list_elem_of_omap. exists u. split; [done|]. congruence.
Qed.

(** A caller moves while the basic manager stays as it is; entries of served
    servables that no other caller uses may leave the map. *)
Lemma cinv_change sys mp mp' held held' next t t' rest :
  cinv sys mp held next (t :: rest) → caller_fact sys t' → loading t' = None →
  (∀ u mu, u ∈ t' :: rest → pointer u = Some mu → ∃ j, target u = Some j ∧ mp' !! j = Some mu) →
  (∀ j, busy t = Some j → busy t' = Some j ∨ settled (map_of sys) (handles_of sys) j) →
  (∀ j, target t = Some j → is_Some (mp' !! j) → in_state (map_of sys) State.kError j ∨
     ∃ u, u ∈ t' :: rest ∧ target u = Some j) →
  mp' ⊆ mp →
  (∀ j, mp' !! j = None → is_Some (mp !! j) → is_served (map_of sys) (handles_of sys) j) →
  NoDup (omap holding (t' :: rest)) → held' = list_to_set (omap holding (t' :: rest)) →
  cinv sys mp' held' next (t' :: rest).
Proof.
  intros [] Hf Hl Hptr Hb Ht Hsub Hdel Hnd Hh.
  assert (∀ j mu, mp' !! j = Some mu → mp !! j = Some mu) as Hmp by (intros; by eapply lookup_weaken).
  split; try done; eauto.
  - intros u j [->|Hu]%elem_of_cons; [congruence|]. apply ci_loading0. by right.
  - intros p h Hp. destruct (ci_settled0 p h Hp) as [?|(u&[->|Hu]%elem_of_cons&Hbu)].
    + by left.
    + destruct (Hb _ Hbu); [right; exists t'; by split; [left|]|by left].
    + right. exists u. by split; [right|].
  - intros u [->|Hu]%elem_of_cons; [done|]. apply ci_callers0. by right.
  - intros j mu Hj. destruct (ci_entry0 j mu (Hmp _ _ Hj)) as [?|(u&[->|Hu]%elem_of_cons&Hbu)].
    + by left.
    + eauto.
    + right. exists u. by split; [right|].
  - intros j [?|Hj]%ci_kept0; [by left|]. destruct (mp' !! j) eqn:E; [by right|left; eauto].
Qed.

(** A caller moves while the basic manager and the map stay as they are. *)
Lemma cinv_move sys mp held held' next t t' rest :
  cinv sys mp held next (t :: rest) → caller_fact sys t' → loading t' = None →
  (∀ mu, pointer t' = Some mu → ∃ j, target t' = Some j ∧ mp !! j = Some mu) →
  (∀ j, busy t = Some j → busy t' = Some j ∨ settled (map_of sys) (handles_of sys) j) →
  (∀ j, target t = Some j → target t' = Some j ∨ in_state (map_of sys) State.kError j) →
  NoDup (omap holding (t' :: rest)) → held' = list_to_set (omap holding (t' :: rest)) →
  cinv sys mp held' next (t' :: rest).
Proof.
  intros Hc Hf Hl Hptr Hb Ht Hnd Hh. eapply cinv_change; try done.
  - intros u mu [->|Hu]%elem_of_cons; [by apply Hptr|]. apply Hc. by right.
  - intros j Hj _. destruct (Ht j Hj); [right; exists t'; by split; [left|]|by left].
  - intros j E [mu Hmu]. congruence.
Qed.

(** The lock stays as it was. *)
Lemma cinv_step sys mp held next t t' rest :
  cinv sys mp held next (t :: rest) → caller_fact sys t' → loading t' = None →
  (∀ mu, pointer t' = Some mu → ∃ j, target t' = Some j ∧ mp !! j = Some mu) →
  (∀ j, busy t = Some j → busy t' = Some j ∨ settled (map_of sys) (handles_of sys) j) →
  (∀ j, target t = Some j → target t' = Some j ∨ in_state (map_of sys) State.kError j) →
  holding t' = holding t →
  cinv sys mp held next (t' :: rest).
Proof.
  intros Hc Hf Hl Hp Hb Ht Hh.
  assert (omap holding (t' :: rest) = omap holding (t :: rest)) as E by (simpl; by rewrite Hh).
  eapply cinv_move; try done; rewrite E; apply Hc.
Qed.

Lemma outcome_settled M H j st : outcome M H j st → settled M H j.
Proof. unfold outcome. destruct (ok st); [by left|by right]. Qed.

(** The two lookups of the serving map. *)
Lemma lookup_returns sys i st handle :
  handles_ready (map_of sys) (handles_of sys) →
  GetUntypedServableHandle (FromId i) (sys_manager sys) = (st, handle) →
  is_Some handle ∧ returns (map_of sys) i st handle ∨
  code st = NOT_FOUND ∧ ok st = false ∧ ¬ is_served (map_of sys) (handles_of sys) i.
Proof.
  intros Hh Hget. destruct handle as [x|].
  - apply GetUntypedServableHandle_elem in Hget as [-> Hx]. left. split; [done|].
    destruct (Hh i x Hx) as (p&h&?&?&?&->). exists p, h. by split_and!.
  - apply GetUntypedServableHandle_none in Hget as [-> Hx]. right. split_and!; [done..|].
    intros (p&h&_&_&_&Hin). by apply Hx in Hin.
Qed.
End caching_invariant.

(** * Steps of the basic manager *)

Section manager_steps.
Context {A : Type}.
Implicit Types (sys : Sys A) (m : BasicManager A) (M : gmap nat (LoaderHarness A)).

Lemma idle_final st : final_state st = true → idle st = true.
Proof. by destruct st. Qed.

(** What a caller knows survives a change of the manager. *)
Lemma caller_fact_evolves P sys sys' t :
  evolves P (map_of sys) (handles_of sys) (map_of sys') (handles_of sys') →
  (∀ st, final_state st = true → P st = true) → unique_ids (map_of sys) →
  match t with
  | CManage i _ _ => managed (map_of sys') i → managed (map_of sys) i
  | CLoad _ j _ => in_state (map_of sys) State.kNew j → in_state (map_of sys') State.kNew j
  | CWait _ j _ n => waits sys j n → waits sys' j n
  | _ => True
  end →
  caller_fact sys t → caller_fact sys' t.
Proof.
  intros Hev HP Hu Ht Hf. assert (∀ j, in_state (map_of sys) State.kError j →
    in_state (map_of sys') State.kError j) as He.
  { intros j. apply (evolves_state _ _ _ _ _ Hev). by apply HP. }
  destruct t; simpl in *; try done; try (destruct Hf as [Hij Hf]; split; [done|]); auto.
  - destruct Hf; auto.
  - by eapply evolves_outcome.
  - by eapply evolves_outcome.
  - by eapply evolves_served.
  - by eapply evolves_served.
  - unfold returns in *. destruct (ok st); [|destruct Hf; auto].
    destruct Hf as (p&h&Hp&Hid&Hs&->). exists p, h. split_and!; try done.
    apply (ev_rest _ _ _ _ _ Hev); [done|]. apply HP. by rewrite Hs.
Qed.

Lemma settled_evolves P sys sys' j :
  evolves P (map_of sys) (handles_of sys) (map_of sys') (handles_of sys') →
  (∀ st, final_state st = true → P st = true) → unique_ids (map_of sys) →
  settled (map_of sys) (handles_of sys) j → settled (map_of sys') (handles_of sys') j.
Proof.
  intros Hev HP Hu [?|?]; [left; by eapply evolves_served|right].
  eapply evolves_state; [done| |done]. by apply HP.
Qed.

(** The callbacks that run after a caller started to wait. *)
Lemma load_statuses_app n j m m' new :
  answers m' = answers m ++ new → n ≤ length (answers m) →
  load_statuses n j m' = load_statuses n j m ++ omap (load_status j) new.
Proof. intros E Hn. unfold load_statuses. by rewrite E, drop_app_le, omap_app. Qed.

Lemma thread_answer_request t r st : (r, st) ∈ thread_answer t → t = TDone r st.
Proof. destruct t; simpl; try by intros ?%not_elem_of_nil. by intros [= -> ->]%list_elem_of_singleton. Qed.

(** A wait goes on, or the thread [u] answers it. *)
Lemma waits_step sys sys' u rest j n :
  evolves idle (map_of sys) (handles_of sys) (map_of sys') (handles_of sys') →
  unique_ids (map_of sys) → sys_threads sys ≡ₚ u :: rest →
  load_fact (map_of sys) (handles_of sys) u →
  answers (sys_manager sys') = answers (sys_manager sys) ++ thread_answer u →
  (thread_answer u).*1 ++ (thread_request <$> sys_threads sys') ≡ₚ
    thread_request <$> sys_threads sys →
  waits sys j n → waits sys' j n.
Proof.
  intros Hev Hu Hp [_ Hf] Ha Hr [Hn Hw]. split; [rewrite Ha, length_app; lia|].
  rewrite (load_statuses_app n j _ _ _ Ha Hn).
  destruct (load_statuses n j (sys_manager sys)) as [|st rst]; simpl.
  2: { eapply evolves_outcome; [exact Hev|apply idle_final|done|done]. }
  rewrite <-Hr in Hw. apply elem_of_app in Hw as [Hw|Hw].
  - apply list_elem_of_fmap in Hw as ([r st]&Hrj&Hin). simpl in Hrj. subst r.
    apply thread_answer_request in Hin. subst u. simpl in Hf |- *.
    unfold load_status; simpl. rewrite decide_True by done.
    eapply evolves_outcome; [exact Hev|apply idle_final|done|done].
  - destruct (omap (load_status j) (thread_answer u)) as [|st l] eqn:E; [done|].
    assert (st ∈ omap (load_status j) (thread_answer u)) as Hin by (rewrite E; left).
    apply list_elem_of_omap in Hin as ([r st']&Hin&Hst). unfold load_status in Hst.
    case_decide as Hd; [|done]. injection Hst as ->. simpl in Hd. subst r.
    apply thread_answer_request in Hin. subst u. simpl in Hf.
    eapply evolves_outcome; [exact Hev|apply idle_final|done|done].
Qed.

(** The step of the thread at [k] of the basic manager. *)
Lemma manager_step sys sys' k a :
  sys_inv sys → (∀ u, u ∈ sys_threads sys → load_fact (map_of sys) (handles_of sys) u) →
  step (LRun k a) sys = Some sys' →
  ∃ u rest, sys_threads sys ≡ₚ u :: rest ∧ sys_inv sys' ∧
    evolves idle (map_of sys) (handles_of sys) (map_of sys') (handles_of sys') ∧
    same_ids (map_of sys) (map_of sys') ∧
    (∀ u, u ∈ sys_threads sys' → load_fact (map_of sys') (handles_of sys') u) ∧
    answers (sys_manager sys') = answers (sys_manager sys) ++ thread_answer u ∧
    (thread_answer u).*1 ++ (thread_request <$> sys_threads sys') ≡ₚ
      thread_request <$> sys_threads sys.
Proof.
  intros Hinv Hf Hstep. assert (sys_inv sys') as Hinv' by (by eapply (step_inv (LRun k a))).
  destruct sys as [m d ts]. cbn [step] in Hstep. destruct (ts !! k) as [u|] eqn:Ek; [|done].
  apply delete_Permutation in Ek. exists u, (delete k ts). simpl in Hf |- *.
  assert (sys_inv (mkSys m d (u :: delete k ts))) as Hinv1.
  { destruct Hinv as (Hheap&Hc&?). split_and!; [by eapply heap_inv_perm|by eapply counts_inv_perm|done]. }
  assert (∀ v, v ∈ u :: delete k ts → load_fact (bm_managed_map m) (bm_handles_map m) v) as Hf1.
  { intros v. rewrite <-Ek. apply Hf. }
  destruct (run_load_thread a u d (delete k ts) m sys') as (Hev&Hids&next&Hts&Hnext);
    [done|apply Hf1; left|done|].
  destruct (run_thread_answers _ _ _ _ _ _ Hstep) as (_&Ha&Hr).
  split_and!; try done; [|by rewrite Hr; symmetry; apply fmap_Permutation].
  assert (unique_ids (bm_managed_map m)) as Hu by (by destruct Hinv as ([]&_)).
  intros v Hv. assert (v ∈ next ∨ ∃ w, w ∈ delete k ts ∧ (v = w ∨ v = wake w)) as [Hv'|(w&Hw&Hv')].
  { destruct Hts as [E|E]; rewrite E in Hv; apply elem_of_app in Hv as [Hv|Hv]; auto; right.
    - eauto.
    - apply list_elem_of_fmap in Hv as (w&->&?). eauto. }
  - by apply Hnext.
  - assert (load_fact (map_of sys') (handles_of sys') w) as Hfw.
    { eapply evolves_fact; [exact Hev|apply idle_final|done|]. apply Hf1. by right. }
    destruct Hv' as [->| ->]; [done|by apply load_fact_wake].
Qed.

Lemma manager_step_inv sys sys' mp held next T k a :
  cinv sys mp held next T → step (LRun k a) sys = Some sys' → cinv sys' mp held next T.
Proof.
  intros Hc Hstep. pose proof (cinv_unique _ _ _ _ _ Hc) as Hu.
  destruct (manager_step sys sys' k a) as (u&rest&Hp&Hinv&Hev&Hids&Hf&Ha&Hr);
    [apply Hc|apply Hc|done|].
  assert (requests sys' ≡ₚ requests sys) as Hreq.
  { unfold requests, dones. rewrite Ha, fmap_app, <-app_assoc. by rewrite Hr. }
  pose proof (λ j, same_ids_managed _ _ j Hids) as Hm.
  destruct Hc. split; try done.
  - eapply evolves_handles; [exact Hev|apply idle_final|done|done].
  - by rewrite Hreq.
  - intros r. rewrite Hreq, Hm. apply ci_requested0.
  - intros t j. rewrite Hreq. apply ci_loading0.
  - intros p h Hh. destruct (proj1 (Hm (h_id h))) as (q&g&Hq&<-); [by exists p, h|].
    destruct (ci_settled0 q g Hq) as [?|?]; [left|by right].
    eapply settled_evolves; [exact Hev|apply idle_final|done|done].
  - intros t Ht. eapply caller_fact_evolves; [exact Hev|apply idle_final|done| |by apply ci_callers0].
    destruct t; try done.
    + apply Hm.
    + by apply (evolves_state _ _ _ _ _ Hev).
    + eapply waits_step; eauto. apply ci_facts0. rewrite Hp. left.
  - intros j mu Hj. destruct (ci_entry0 j mu Hj) as [?|?]; [left|by right].
    by apply (evolves_state _ _ _ _ _ Hev).
  - intros j. rewrite Hm. intros [?|?]%ci_kept0; [left|by right].
    eapply evolves_served; [exact Hev|apply idle_final|done|done].
Qed.
Lemma managed_find i m : managed (bm_managed_map m) i ↔ FindHarnessInMap i m ≠ None.
Proof.
  destruct (FindHarnessInMap i m) as [[p h]|] eqn:E.
  - apply FindHarnessInMap_Some in E as [Hp Hid]. split; [done|]. by exists p, h.
  - split; [|done]. intros (p&h&Hp&Hid). by apply (FindHarnessInMap_None _ _ _ _ E) in Hp.
Qed.

(** A servable that is not managed is accepted. *)
Lemma ManageServable_new i d m :
  data_ok i d → ¬ managed (bm_managed_map m) i →
  ∃ m' h, ManageServable d m = (StatusOK, m') ∧ h_id h = i ∧
    (h_state h = State.kNew ∨ h_state h = State.kError) ∧
    bm_managed_map m' = <[bm_next_address m := h]> (bm_managed_map m) ∧
    bm_handles_map m' = bm_handles_map m ∧ answers m' = answers m.
Proof.
  intros [Hid Hd] Hm. unfold ManageServable, ManageServableInternal. rewrite Hid.
  destruct (FindHarnessInMap i m) eqn:E; [destruct Hm; apply managed_find; by rewrite E|].
  set (h0 := newLoaderHarness _ _ _ _).
  assert (∀ m1 h, core m1 = core m → aux m1 = aux m → h_id h = i →
    (h_state h = State.kNew ∨ h_state h = State.kError) →
    ∃ m' h', (StatusOK, emplace_harness h m1) = (StatusOK, m') ∧ h_id h' = i ∧
      (h_state h' = State.kNew ∨ h_state h' = State.kError) ∧
      bm_managed_map m' = <[bm_next_address m := h']> (bm_managed_map m) ∧
      bm_handles_map m' = bm_handles_map m ∧ answers m' = answers m) as Hgo.
  { intros m1 h Hc Ha Hhid Hst. do 2 eexists. split; [done|]. split; [exact Hhid|].
    apply aux_eq in Ha as [Ha _]. unfold core in Hc. simplify_eq Hc. intros _ _ Hh Hn HM _.
    split_and!; [done|simpl; congruence|done|exact Ha]. }
  destruct d as [j x|j e]; simpl in *; subst j.
  - apply Hgo; [apply core_publish|apply aux_publish|done|by left].
  - rewrite Hd. simpl. pose proof (ErrorInternal_fields e h0) as (?&_&_).
    apply Hgo; [apply core_error_callbacks|apply aux_error_callbacks|done|].
    right. apply ErrorInternal_state.
Qed.

Lemma waits_same sys sys' j n :
  answers (sys_manager sys') = answers (sys_manager sys) →
  sys_threads sys' = sys_threads sys →
  (∀ st, outcome (map_of sys) (handles_of sys) j st → outcome (map_of sys') (handles_of sys') j st) →
  waits sys j n → waits sys' j n.
Proof.
  intros Ha Ht Ho. unfold waits, load_statuses. rewrite Ha, Ht.
  intros [? Hw]; split; [done|]. case_match; auto.
Qed.

(** [ManageServable] succeeds, and the caller goes on to load the servable. *)
Lemma manage_step_inv sys mp held next i d mu rest latest data s' :
  cinv sys mp held next (CManage i d mu :: rest) →
  run_caller latest data (CManage i d mu) rest sys mp held next = Some s' → caching_inv s'.
Proof.
  intros Hc Hrun. pose proof (cinv_unique _ _ _ _ _ Hc) as Hu.
  destruct sys as [m de ts]. destruct (ci_callers _ _ _ _ _ Hc (CManage i d mu)) as [Hd Hm]; [left|].
  destruct (ManageServable_new i d m Hd Hm) as (m'&h&E&Hid&Hst&HM&HH&Ha).
  assert (sys_inv (mkSys m' de ts)) as Hinv.
  { eapply (step_inv (LManage d None)); [|apply Hc|].
    - destruct Hd as [_ Hd]. by destruct d.
    - cbn [step]. unfold ManageServable in E. by rewrite E. }
  simpl in Hrun. rewrite E in Hrun. simpl in Hrun. injection Hrun as <-.
  unfold caching_inv; simpl. set (sys := mkSys m de ts) in *. set (sys' := mkSys m' de ts).
  assert (evolves (λ _, true) (map_of sys) (handles_of sys) (map_of sys') (handles_of sys')) as Hev.
  { unfold map_of, handles_of; simpl. rewrite HM, HH. apply evolves_insert. intros g Hg.
    destruct (ci_sys _ _ _ _ _ Hc) as (Hheap&_). by rewrite (hi_next _ _ _ _ _ Hheap) in Hg. }
  assert (∀ j, managed (map_of sys) j → managed (map_of sys') j) as Hgrow.
  { intros j (p&g&Hp&Hj). exists p, g. split; [|done]. by apply (ev_rest _ _ _ _ _ Hev). }
  assert (requests sys' = requests sys) as Hreq by (unfold requests, dones; by simpl; rewrite Ha).
  assert (sd_id d = i) as Hdi by apply Hd. rewrite Hdi. destruct Hc. split; try done.
  - by eapply evolves_handles.
  - intros u Hu'. eapply evolves_fact; [exact Hev|done|done|by apply ci_facts0].
  - by rewrite Hreq.
  - intros r. rewrite Hreq. intros [? ?]%ci_requested0. auto.
  - intros t j. rewrite Hreq. intros [->|Ht]%elem_of_cons Hl; [|by eapply ci_loading0; [right|]].
    injection Hl as <-. intros [_ Hmi]%ci_requested0. by apply Hm.
  - intros p g. unfold map_of at 1; simpl. rewrite HM, lookup_insert_Some.
    intros [[<- <-]|[Hne Hg]]; [right; exists (CLoad i i mu); split; [left|simpl; congruence]|].
    destruct (ci_settled0 p g Hg) as [?|(t&[->|Ht]%elem_of_cons&Hb)]; [left|done|].
    + by eapply settled_evolves.
    + right. exists t. by split; [right|].
  - intros t [->|Ht]%elem_of_cons.
    + split; [done|]. destruct Hst; [left|right]; exists (bm_next_address m), h;
        unfold map_of; simpl; by rewrite HM, lookup_insert_eq.
    + eapply caller_fact_evolves; [exact Hev|done|done| |by apply ci_callers0; right].
      destruct t as [| | | | | |i' d' mu'|i' j' mu'|i' j' mu' n'| | | | |]; try done.
      * intros (p&g&Hp&Hg). unfold map_of in Hp; simpl in Hp. rewrite HM, lookup_insert_Some in Hp.
        destruct Hp as [[<- <-]|[_ Hp]]; [|by exists p, g]. exfalso.
        assert (sd_id d' = i') by (by destruct (ci_callers0 (CManage i' d' mu')) as [[? _] _]; [right|]).
        eapply (holder_unique sys mp held next (CManage i d mu) rest (CManage i' d' mu') mu mu' i);
          [by split|done|by rewrite <-Hdi|done|done|simpl; congruence].
      * by apply (evolves_state _ _ _ _ _ Hev).
      * apply waits_same; [exact Ha|done|]. intros st'. by eapply evolves_outcome.
  - intros t nu [->|Ht]%elem_of_cons; [|apply ci_mutexes0; by right].
    intros [= <-]. destruct (ci_mutexes0 (CManage i d mu) mu) as (j&Hj&?); [left|done|].
    exists j. split; [|done]. simpl in Hj. simpl. congruence.
  - intros j nu Hj. destruct (ci_entry0 j nu Hj) as [?|(t&[->|Ht]%elem_of_cons&Htj)].
    + left. by apply (evolves_state _ _ _ _ _ Hev).
    + right. exists (CLoad i i mu). split; [left|]. simpl in *. congruence.
    + right. exists t. by split; [right|].
  - intros j (p&g&Hp&Hj). unfold map_of in Hp; simpl in Hp. rewrite HM, lookup_insert_Some in Hp.
    destruct Hp as [[<- <-]|[_ Hp]].
    + right. destruct (ci_mutexes0 (CManage i d mu) mu) as (k&Hk&?); [left|done|].
      simpl in Hk. exists mu. congruence.
    + destruct (ci_kept0 j) as [?|?]; [by exists p, g|left|by right]. by eapply evolves_served.
Qed.
(** A load request for a new servable is accepted. *)
Lemma LoadServable_new m p h j :
  unique_ids (bm_managed_map m) → bm_managed_map m !! p = Some h → h_id h = j →
  ok (h_status h) = true → h_state h = State.kNew →
  ∃ m', LoadOrUnloadServable (mkRequest kLoadRequest j) m = (Some (mkRequest kLoadRequest j), m') ∧
    core m' = core (set_managed_map (<[p:=set_state State.kLoadRequested h]> (bm_managed_map m)) m) ∧
    answers m' = answers m.
Proof.
  intros Hu Hp Hid Hok Hs. unfold LoadOrUnloadServable, RequestLoadOrUnload. simpl. rewrite <-Hid.
  rewrite (GetHealthyHarness_found m p h) by done.
  destruct (call_harness_spec p LoadRequested m h Hp) as (m'&E&Hc).
  pose proof (aux_call_harness p LoadRequested m) as [Ha _]%aux_eq.
  unfold LoadRequested in E at 2, Hc. rewrite decide_True in E, Hc by done. simpl in E, Hc.
  rewrite E in Ha. rewrite (sm_bind_ok _ _ _ _ E). simpl. eauto.
Qed.

(** A load request for a servable in error is answered at once. *)
Lemma LoadServable_error m d ts j :
  sys_inv (mkSys m d ts) → in_state (bm_managed_map m) State.kError j →
  ∃ e m', ok e = false ∧ core m' = core m ∧ answers m' = answers m ∧
    LoadOrUnloadServable (mkRequest kLoadRequest j) m =
      (None, add_manager_call (Done (mkRequest kLoadRequest j) e) m').
Proof.
  intros (Hheap&_) (p&h&Hp&Hid&Hs). simpl in Hheap.
  assert (ok (h_status h) = false) as Hok.
  { destruct (hi_good _ _ _ _ _ Hheap p h Hp) as [[Hi _] _ _]. by apply Hi. }
  unfold LoadOrUnloadServable, RequestLoadOrUnload, GetHealthyHarness. simpl.
  destruct (FindHarnessInMap j m) as [[q g]|] eqn:E.
  - apply FindHarnessInMap_Some in E as [Hq Hg].
    assert (q = p) as -> by (eapply (hi_unique _ _ _ _ _ Hheap); [done..|congruence]).
    simplify_eq. rewrite Hok. simpl. exists (h_status h), m. split_and!; try done.
    destruct (h_status h); [done|]. reflexivity.
  - exfalso. by apply (FindHarnessInMap_None _ _ _ _ E) in Hp.
Qed.

(** The request a caller makes: the wait begins, and nothing else changes but the
    harness of the servable and the requests made. *)
Lemma load_request_step m d ts j sys' :
  sys_inv (mkSys m d ts) → mkRequest kLoadRequest j ∉ requests (mkSys m d ts) →
  (in_state (bm_managed_map m) State.kNew j ∨ in_state (bm_managed_map m) State.kError j) →
  step (LRequest (mkRequest kLoadRequest j)) (mkSys m d ts) = Some sys' →
  evolves final_state (bm_managed_map m) (bm_handles_map m) (map_of sys') (handles_of sys') ∧
  same_ids (bm_managed_map m) (map_of sys') ∧
  (∀ i st, i ≠ j → in_state (bm_managed_map m) st i → in_state (map_of sys') st i) ∧
  requests sys' ≡ₚ mkRequest kLoadRequest j :: requests (mkSys m d ts) ∧
  (∃ new, answers (sys_manager sys') = answers m ++ new ∧
     ∀ i, i ≠ j → omap (load_status i) new = []) ∧
  (∀ u, u ∈ sys_threads sys' → u ∈ ts ∨ u = TQueued (mkRequest kLoadRequest j)) ∧
  (∀ u, u ∈ ts → u ∈ sys_threads sys') ∧
  waits sys' j (length (answers m)).
Proof.
  intros Hinv Hni Hst Hstep. pose proof Hinv as (Hheap&_). simpl in Hheap.
  pose proof (hi_unique _ _ _ _ _ Hheap) as Hu. cbn [step] in Hstep.
  destruct Hst as [(p&h&Hp&Hid&Hs)|He].
  - destruct (LoadServable_new m p h j) as (m'&E&Hc&Ha); try done.
    { apply (good_status_ok _ _ (hi_good _ _ _ _ _ Hheap p h Hp)). by rewrite Hs. }
    rewrite E in Hstep. injection Hstep as <-. unfold map_of, handles_of; simpl.
    rewrite (managed_of_core _ _ Hc), (handles_of_core _ _ Hc); simpl. split_and!.
    + apply evolves_insert. intros g Hg. simplify_eq. by rewrite Hs.
    + by eapply same_ids_insert.
    + intros i st Hne (q&g&Hq&Hg&?). exists q, g. split_and!; try done.
      rewrite lookup_insert_ne; [done|]. intros <-. congruence.
    + unfold requests, dones. simpl. rewrite Ha. symmetry. apply Permutation_middle.
    + exists []. by rewrite app_nil_r.
    + intros u [->|?]%elem_of_cons; auto.
    + intros u ?. by right.
    + unfold waits, load_statuses; simpl. rewrite Ha, drop_all. split; [done|]. left.
  - destruct (LoadServable_error m d ts j Hinv He) as (e&m'&Hok&Hc&Ha&E).
    assert (answers (add_manager_call (Done (mkRequest kLoadRequest j) e) m') =
      answers m ++ [(mkRequest kLoadRequest j, e)]) as Ha' by (by rewrite answers_add_call, Ha).
    assert (core (add_manager_call (Done (mkRequest kLoadRequest j) e) m') = core m) as Hc' by done.
    rewrite E in Hstep. injection Hstep as <-.
    set (m2 := add_manager_call _ m') in *. clearbody m2. unfold map_of, handles_of; simpl.
    rewrite (managed_of_core _ _ Hc'), (handles_of_core _ _ Hc').
    split_and!; try done; eauto using evolves_refl.
    + unfold requests, dones. cbn [sys_manager sys_threads]. rewrite Ha', fmap_app, <-app_assoc. simpl.
      symmetry. apply Permutation_middle.
    + rewrite Ha'. eexists. split; [done|]. intros i Hne. simpl. unfold load_status; simpl.
      rewrite decide_False; [done|]. congruence.
    + unfold waits, load_statuses. cbn [sys_manager sys_threads]. rewrite Ha', drop_app_length.
      split; [rewrite length_app; lia|]. simpl. unfold load_status; simpl. rewrite decide_True by done.
      unfold outcome, map_of, handles_of; simpl. by rewrite Hok, (managed_of_core _ _ Hc').
Qed.

Lemma load_step_inv sys sys' mp held next i j mu rest :
  cinv sys mp held next (CLoad i j mu :: rest) →
  step (LRequest (mkRequest kLoadRequest j)) sys = Some sys' →
  cinv sys' mp held next (CWait i j mu (length (answers (sys_manager sys))) :: rest).
Proof.
  intros Hc Hstep. pose proof (cinv_unique _ _ _ _ _ Hc) as Hu.
  assert (sys_inv sys') as Hinv by (eapply step_inv; [|apply Hc|exact Hstep]; done).
  destruct (ci_callers _ _ _ _ _ Hc (CLoad i j mu)) as [-> Hst]; [left|].
  assert (∀ u nu, u ∈ rest → holding u = Some nu → target u ≠ Some j) as Hexcl
    by (intros u nu; by eapply holder_unique).
  destruct sys as [m d ts].
  destruct (load_request_step m d ts j sys') as (Hev&Hids&Hkeep&Hreq&(new&Ha&Hnew)&Hts'&Hts&Hw);
    [apply Hc|eapply Hc; [left|done]|done|done|].
  pose proof (λ j, same_ids_managed _ _ j Hids) as Hm. destruct Hc. split; try done.
  - by eapply evolves_handles.
  - intros u [Hu'| ->]%Hts'; [|by split]. eapply evolves_fact; [exact Hev|done|done|].
    by apply ci_facts0.
  - rewrite Hreq. apply NoDup_cons. split; [|done]. eapply ci_loading0; [left|done].
  - intros r. rewrite Hreq, Hm. intros [->|Hr]%elem_of_cons; [|by apply ci_requested0].
    split; [done|]. by destruct Hst as [?|?]; eapply in_state_managed.
  - intros t k [->|Ht]%elem_of_cons Hl; [done|]. rewrite Hreq. apply not_elem_of_cons. split.
    + intros [= ->]. destruct t; try done. by eapply (Hexcl _ mu0 Ht).
    + eapply ci_loading0; [by right|done].
  - intros p h Hp. destruct (proj1 (Hm (h_id h))) as (q&g&Hq&<-); [by exists p, h|].
    destruct (ci_settled0 q g Hq) as [?|(t&[->|Ht]%elem_of_cons&Hb)].
    + left. by eapply (settled_evolves final_state (mkSys m d ts)).
    + right. eexists. split; [left|done].
    + right. exists t. by split; [right|].
  - intros t [->|Ht]%elem_of_cons; [by split|].
    eapply (caller_fact_evolves final_state (mkSys m d ts)); [exact Hev|done|done| |by apply ci_callers0; right].
    destruct t as [| | | | | |i' d' mu'|i' j' mu'|i' j' mu' n'| | | | |]; try done.
    + apply Hm.
    + apply Hkeep. intros ->. by eapply (Hexcl _ mu' Ht).
    + intros [Hn Hw']. assert (j' ≠ j) as Hne by (intros ->; by eapply (Hexcl _ mu' Ht)).
      split; [rewrite Ha, length_app; simpl in Hn; lia|].
      rewrite (load_statuses_app n' j' m _ new), Hnew, app_nil_r by done. simpl in Hw'.
      case_match.
      * apply list_elem_of_fmap in Hw' as (u&->&Hu'). apply list_elem_of_fmap. eauto.
      * by eapply evolves_outcome.
  - intros t nu [->|Ht]%elem_of_cons; [|apply ci_mutexes0; by right].
    intros [= <-]. apply (ci_mutexes0 (CLoad j j mu) mu); [left|done].
  - intros k nu Hk. destruct (ci_entry0 k nu Hk) as [?|(t&[->|Ht]%elem_of_cons&Htj)].
    + left. by apply (evolves_state _ _ _ _ _ Hev).
    + right. eexists. split; [left|exact Htj].
    + right. exists t. by split; [right|].
  - intros k. rewrite Hm. intros [?|?]%ci_kept0; [left|by right]. by eapply evolves_served.
Qed.
End manager_steps.

(** * Steps of the callers *)

Section caller_steps.
Context {A : Type}.
Implicit Types (sys : Sys A) (mp : gmap ServableId nat).

Ltac no_target := try (by intros ? ?); try (intros ? [= <-]; by left).

(** A mutex is made for a servable that has none. *)
Lemma new_mutex_inv sys mp held next i d rest :
  cinv sys mp held next (CFindMutex i d :: rest) → mp !! sd_id d = None →
  cinv sys (<[sd_id d := next]> mp) held (next + 1) (CLock i d next :: rest).
Proof.
  intros [] Hnone.
  assert (∀ j mu, mp !! j = Some mu → <[sd_id d := next]> mp !! j = Some mu) as Hkeep.
  { intros j mu Hj. rewrite lookup_insert_ne; [done|]. intros <-. congruence. }
  split; try done.
  - intros t j [->|Ht]%elem_of_cons; [done|]. apply ci_loading0. by right.
  - intros p h Hp. destruct (ci_settled0 p h Hp) as [?|(t&[->|Ht]%elem_of_cons&?)];
      [by left|done|right; exists t; by split; [right|]].
  - intros t [->|Ht]%elem_of_cons; [|apply ci_callers0; by right].
    apply (ci_callers0 (CFindMutex i d)). left.
  - intros t mu [->|Ht]%elem_of_cons Hmu.
    + injection Hmu as <-. exists (sd_id d). by rewrite lookup_insert_eq.
    + destruct (ci_mutexes0 t mu) as (j&?&?); [by right|done|]. eauto.
  - intros j mu. rewrite lookup_insert_Some. intros [[_ <-]|[_ ?%ci_next0]]; lia.
  - intros j j' mu. rewrite !lookup_insert_Some.
    intros [[<- <-]|[_ Hj]] [[<- E]|[_ Hj']]; try done.
    + apply ci_next0 in Hj'. lia.
    + subst mu. apply ci_next0 in Hj. lia.
    + by eapply ci_inj0.
  - intros j mu. rewrite lookup_insert_Some. intros [[<- <-]|[_ Hj]].
    + right. eexists. by split; [left|].
    + destruct (ci_entry0 j mu Hj) as [?|(t&[->|Ht]%elem_of_cons&?)];
        [by left|done|right; exists t; by split; [right|]].
  - intros j [?|[mu Hmu]]%ci_kept0; [by left|right]. eauto.
Qed.

(** A mutex that is in the map has one entry there. *)
Lemma map_use_count mp mu j :
  (∀ j j', mp !! j = Some mu → mp !! j' = Some mu → j = j') → mp !! j = Some mu →
  length (filter (λ e, e.2 = mu) (map_to_list mp)) = 1.
Proof.
  intros Hinj Hj. set (l := filter _ _).
  assert (∀ e, e ∈ l ↔ e = (j, mu)) as Hl.
  { intros [j' mu']. unfold l. rewrite list_elem_of_filter, elem_of_map_to_list. simpl.
    split; [intros [-> Hj']; f_equal; by eapply Hinj|by intros [= -> ->]]. }
  assert (NoDup l) as Hnd by apply NoDup_filter, NoDup_map_to_list.
  destruct l as [|x [|y l']]; [|done|].
  - assert ((j, mu) ∈ @nil (ServableId * nat)) as Hin by (by apply Hl). by apply not_elem_of_nil in Hin.
  - assert (x = (j, mu)) as -> by (apply Hl; left).
    assert (y = (j, mu)) as -> by (apply Hl; right; left).
    apply NoDup_cons in Hnd as [Hni _]. destruct Hni. left.
Qed.

(** [unique()]: no other caller has the mutex. *)
Lemma use_count_unique sys mp held next t rest mu j :
  cinv sys mp held next (t :: rest) → mp !! j = Some mu →
  use_count mu mp rest = 1 ↔ ∀ u, u ∈ rest → pointer u ≠ Some mu.
Proof.
  intros Hc Hmu. unfold use_count. rewrite (map_use_count mp mu j); [|intros; by eapply Hc|done].
  split.
  - intros E u Hu Hp. assert (u ∈ filter (λ t, pointer t = Some mu) rest) as Hin
      by (by apply list_elem_of_filter). destruct (filter _ rest); [|done].
    by apply not_elem_of_nil in Hin.
  - intros Hno. destruct (filter _ rest) as [|u l] eqn:E; [done|].
    assert (u ∈ filter (λ t, pointer t = Some mu) rest) as [Hp Hu]%list_elem_of_filter
      by (rewrite E; left). by destruct (Hno u Hu).
Qed.

(** The entry of a mutex is erased when the last caller has given it back. *)
Lemma erase_inv sys mp held next i j rest :
  cinv sys mp held next (CErase i j :: rest) →
  cinv sys (MaybeEraseLoadMutexMapEntry j rest mp) held next (CFinal i :: rest).
Proof.
  intros Hc. destruct (ci_callers _ _ _ _ _ Hc (CErase i j)) as [-> Hs]; [left|].
  assert (∀ u mu, u ∈ CFinal j :: rest → pointer u = Some mu →
    ∃ k, target u = Some k ∧ mp !! k = Some mu) as Hptr.
  { intros u mu [->|Hu]%elem_of_cons; [done|]. apply Hc. by right. }
  unfold MaybeEraseLoadMutexMapEntry. destruct (mp !! j) as [mu|] eqn:Hj.
  2: { eapply cinv_change; try done; try apply Hc.
       - intros k [= <-] [? ?]. congruence.
       - intros k E [? ?]. congruence. }
  pose proof (use_count_unique _ _ _ _ _ _ mu j Hc Hj) as Huse.
  destruct (Nat.eqb_spec (use_count mu mp rest) 1) as [E|E].
  - rewrite Huse in E. eapply cinv_change; try done; try apply Hc.
    + intros u nu Hu Hnu. destruct (Hptr u nu Hu Hnu) as (k&Hk&Hnk). exists k. split; [done|].
      rewrite lookup_delete_ne; [done|]. intros <-.
      apply elem_of_cons in Hu as [->|Hu]; [done|]. apply (E u Hu). congruence.
    + intros k [= <-] [? Hk]. by rewrite lookup_delete_eq in Hk.
    + apply delete_subseteq.
    + intros k Hk [nu Hnu]. destruct (decide (j = k)) as [<-|Hne]; [done|].
      rewrite lookup_delete_ne in Hk by done. congruence.
  - assert (∃ u, u ∈ rest ∧ pointer u = Some mu) as (u&Hu&Hp).
    { destruct (decide (Exists (λ t, pointer t = Some mu) rest)) as [Hex|Hno].
      - by apply Exists_exists in Hex.
      - destruct E. apply Huse. intros u Hu Hp. apply Hno, Exists_exists. eauto. }
    eapply cinv_change; try done; try apply Hc.
    + intros k [= <-] _. right. exists u. split; [by right|].
      destruct (Hptr u mu) as (k&Hk&Hmk); [by right|done|]. rewrite Hk. f_equal. by eapply Hc.
    + intros k E' [? ?]. congruence.
Qed.

(** What a caller that holds the mutex sees of the servable is final. *)
Lemma snapshot_final sys mp held next i d mu rest p h :
  cinv sys mp held next (CSnapshot i d mu :: rest) →
  FindHarnessInMap (sd_id d) (sys_manager sys) = Some (p, h) →
  (h_state h = State.kReady → is_served (map_of sys) (handles_of sys) (sd_id d)) ∧
  (h_state h ≠ State.kReady → in_state (map_of sys) State.kError (sd_id d)).
Proof.
  intros Hc [Hp Hid]%FindHarnessInMap_Some. pose proof (cinv_unique _ _ _ _ _ Hc) as Hu.
  assert (in_state (map_of sys) (h_state h) (sd_id d)) as Hst by (by exists p, h).
  destruct (ci_settled _ _ _ _ _ Hc p h Hp) as [[Hs|Hs]|(t&[->|Ht]%elem_of_cons&Hb)].
  - rewrite Hid in Hs. split; [done|]. intros Hne. destruct Hne.
    eapply in_state_unique; [done..|]. by eapply is_served_state.
  - rewrite Hid in Hs. split; [|done]. intros E. rewrite E in Hst.
    by pose proof (in_state_unique _ _ _ _ Hu Hst Hs).
  - done.
  - exfalso. assert (∃ nu, holding t = Some nu ∧ target t = Some (h_id h)) as (nu&Hnu&Htt).
    { destruct t; simplify_eq/=; eauto. }
    eapply (holder_unique sys mp held next (CSnapshot i d mu) rest t mu nu (sd_id d)); try done.
    by rewrite Htt, Hid.
Qed.
Lemma caller_pointer sys mp held next t rest mu :
  cinv sys mp held next (t :: rest) → pointer t = Some mu →
  ∃ j, target t = Some j ∧ mp !! j = Some mu.
Proof. intros Hc. apply Hc. left. Qed.

Lemma lock_inv sys mp held next i d mu rest :
  cinv sys mp held next (CLock i d mu :: rest) → mu ∉ held →
  cinv sys mp ({[mu]} ∪ held) next (CSnapshot i d mu :: rest).
Proof.
  intros Hc Hmu. pose proof (ci_held _ _ _ _ _ Hc) as Hh. pose proof (ci_excl _ _ _ _ _ Hc) as Hx.
  simpl in Hh, Hx. eapply cinv_move; try done; no_target.
  - apply (ci_callers _ _ _ _ _ Hc (CLock i d mu)). left.
  - intros nu Hnu. by apply (caller_pointer _ _ _ _ _ _ nu Hc).
  - simpl. apply NoDup_cons. split; [|done]. rewrite Hh in Hmu. by rewrite elem_of_list_to_set in Hmu.
  - simpl. by rewrite Hh.
Qed.

Lemma unlock_inv sys mp held next i j mu st rest :
  cinv sys mp held next (CUnlock i j mu st :: rest) →
  cinv sys mp (held ∖ {[mu]}) next (CReset i j mu st :: rest).
Proof.
  intros Hc. pose proof (ci_held _ _ _ _ _ Hc) as Hh. pose proof (ci_excl _ _ _ _ _ Hc) as Hx.
  simpl in Hh, Hx. apply NoDup_cons in Hx as [Hni Hx]. eapply cinv_move; try done; no_target.
  - apply (ci_callers _ _ _ _ _ Hc (CUnlock i j mu st)). left.
  - intros nu Hnu. by apply (caller_pointer _ _ _ _ _ _ nu Hc).
  - rewrite Hh. simpl. rewrite <-(elem_of_list_to_set (C:=gset nat)) in Hni. set_solver.
Qed.

Lemma run_caller_inv latest data sys mp held next t rest s' :
  cinv sys mp held next (t :: rest) →
  match t with CCreate i => data_ok i data | _ => True end →
  run_caller latest data t rest sys mp held next = Some s' → caching_inv s'.
Proof.
  intros Hc Hd Hrun. pose proof (λ mu, caller_pointer _ _ _ _ _ _ mu Hc) as Hptr.
  pose proof (ci_callers _ _ _ _ _ Hc t ltac:(left)) as Hf.
  pose proof (ci_handles _ _ _ _ _ Hc) as Hh. destruct sys as [m de ts]. unfold caching_inv.
  destruct t as [r|i|i|i d|i d mu|i d mu|i d mu|i j mu|i j mu n|i j mu st|i j mu st|i j|i|];
    simpl in Hrun.
  - injection Hrun as <-. by eapply cinv_step.
  - destruct (GetUntypedServableHandle (FromId i) m) as [st handle] eqn:E.
    destruct (lookup_returns _ i st handle Hh E) as [[Hs Hr]|(Hcode&Hok&Hns)].
    + assert (st = StatusOK) as ->.
      { destruct handle; [|by destruct Hs]. by apply GetUntypedServableHandle_elem in E as [-> _]. }
      injection Hrun as <-. by eapply cinv_step.
    + rewrite Hok, bool_decide_true in Hrun by done. injection Hrun as <-. by eapply cinv_step.
  - injection Hrun as <-. by eapply cinv_step.
  - destruct (mp !! sd_id d) as [mu|] eqn:Hmu; injection Hrun as <-.
    + eapply cinv_step; try done. intros ? [= <-]. by exists (sd_id d).
    + by apply new_mutex_inv.
  - case_decide; [done|]. injection Hrun as <-. by apply lock_inv.
  - assert (sd_id d = i) as Hdi by apply Hf. unfold GetManagedServableStateSnapshot in Hrun.
    destruct (FindHarnessInMap (sd_id d) m) as [[p h]|] eqn:E; simpl in Hrun.
    + destruct (snapshot_final _ _ _ _ _ _ _ _ p h Hc E) as [Hready Herror].
      case_bool_decide as Hs; injection Hrun as <-; eapply cinv_step; try done; no_target;
        (split; [done|]); unfold outcome; simpl; auto.
    + injection Hrun as <-. eapply cinv_step; try done; no_target. split; [done|].
      intros Hm. rewrite <-Hdi in Hm. by apply managed_find in Hm.
  - by apply (manage_step_inv (mkSys m de ts) mp held next i d mu rest latest data).
  - destruct (LoadOrUnloadServable _ m) as [scheduled m'] eqn:E. injection Hrun as <-.
    eapply (load_step_inv (mkSys m de ts)); [done|]. simpl. by rewrite E.
  - destruct Hf as [-> [Hn Hw]]. simpl in Hn, Hw.
    destruct (load_statuses n j m) as [|st l]; [done|]. injection Hrun as <-.
    eapply cinv_step; try done; no_target. intros ? [= <-]. right. by eapply outcome_settled.
  - injection Hrun as <-. by apply unlock_inv.
  - injection Hrun as <-. destruct Hf as [-> Ho]. unfold outcome in Ho.
    destruct (ok st) eqn:Hok; eapply cinv_step; try done; no_target.
    + simpl. unfold returns. by rewrite Hok.
    + intros ? [= <-]. by right.
  - injection Hrun as <-. by apply erase_inv.
  - destruct (GetUntypedServableHandle (FromId i) m) as [st handle] eqn:E. injection Hrun as <-.
    destruct (lookup_returns _ i st handle Hh E) as [[Hs Hr]|(Hcode&Hok&Hns)]; [|done].
    by eapply cinv_step.
  - done.
Qed.
End caller_steps.

(** * Theorems *)

Section theorems.
Context `{LoaderFactory} {A : Type}.
Context (retries threads : Z) (bus : bool) (tracker : option ResourceTracker).

Definition caching_initial : CachingManager A := Caching_Create retries threads bus tracker.

Lemma creates_ok i d : creates i d → data_ok i d.
Proof.
  intros Hc. pose proof (creates_id i d Hc). split; [done|]. destruct d as [|j e]; [done|].
  simpl in *. subst j. by eapply creates_status.
Qed.

Lemma cstep_inv l (s s' : CachingManager A) :
  caching_inv s → clabel_wf l s → cstep l s = Some s' → caching_inv s'.
Proof.
  destruct s as [sys mp held next T]. intros Hinv Hwf Hstep. destruct l; cbn [cstep] in Hstep.
  - injection Hstep as <-. destruct Hinv. split; try done; simpl in *.
    + intros t j [->|Ht]%elem_of_cons; [done|eauto].
    + intros p h Hp. destruct (ci_settled0 p h Hp) as [?|(t&?&?)]; [by left|right].
      exists t. by split; [right|].
    + intros t [->|Ht]%elem_of_cons; [done|eauto].
    + intros t mu [->|Ht]%elem_of_cons; [done|eauto].
    + intros j mu Hj. destruct (ci_entry0 j mu Hj) as [?|(t&?&?)]; [by left|right].
      exists t. by split; [right|].
  - apply bind_Some in Hstep as (t&Ek&Hstep). simpl in Hwf. rewrite Ek in Hwf.
    eapply run_caller_inv; [| |exact Hstep].
    + eapply cinv_perm; [by apply delete_Permutation|exact Hinv].
    + destruct t; try done. by apply creates_ok.
  - apply bind_Some in Hstep as (sys'&E&[= <-]). by eapply manager_step_inv.
Qed.

Lemma caching_initial_inv : caching_inv caching_initial.
Proof.
  split; try done; simpl; try by intros ? ?%not_elem_of_nil.
  - apply initial_inv.
  - by intros ? ? ?%not_elem_of_nil.
  - constructor.
  - by intros ? ? ?%not_elem_of_nil.
  - by intros ? ? ?%not_elem_of_nil.
  - constructor.
  - by intros j (p&h&Hp&_).
Qed.

Lemma caching_reachable_inv s : caching_reachable caching_initial s → caching_inv s.
Proof. induction 1; [apply caching_initial_inv|by eapply cstep_inv]. Qed.

(** The servable whose mutex a caller has locked. *)
Definition critical (t : Caller) : option ServableId :=
  match holding t with Some _ => target t | None => None end.

Lemma critical_nodup (mp : gmap ServableId nat) (T : list Caller) :
  NoDup (omap holding T) →
  (∀ t mu, t ∈ T → holding t = Some mu → ∃ j, target t = Some j ∧ mp !! j = Some mu) →
  NoDup (omap critical T).
Proof.
  intros Hnd Hm. induction T as [|t T IH]; simpl in *; [constructor|].
  assert (NoDup (omap critical T)) as Hnd'.
  { apply IH; [destruct (holding t); [by apply NoDup_cons in Hnd as [_ ?]|done]|].
    intros u mu Hu. apply Hm. by right. }
  unfold critical at 1. destruct (holding t) as [mu|] eqn:Ht; [|done].
  destruct (Hm t mu) as (j&->&Hj); [left|done|]. apply NoDup_cons. split; [|done].
  intros (u&Hu&Hc)%list_elem_of_omap. unfold critical in Hc.
  destruct (holding u) as [nu|] eqn:Hnu; [|done].
  destruct (Hm u nu) as (k&Hk&Hmk); [by right|done|]. apply NoDup_cons in Hnd as [Hni _].
  apply Hni, list_elem_of_omap. exists u. split; [done|]. congruence.
Qed.

(** C10: whatever the interleaving of calls and loads, the mutex of a servable is
    held by one caller at a time, the basic manager never refuses a servable
    handed to it, and the load of a servable is requested at most once ever. *)
Theorem caching_loads_once (s : CachingManager A) :
  caching_reachable caching_initial s →
  NoDup (requests (cm_basic_manager s)) ∧ NoDup (omap critical (cm_callers s)) ∧
  ∀ i d mu, CManage i d mu ∈ cm_callers s →
    (ManageServable d (sys_manager (cm_basic_manager s))).1 = StatusOK.
Proof.
  intros Hc%caching_reachable_inv. split_and!; [apply Hc| |].
  - eapply (critical_nodup (cm_load_mutex_map s)); [apply Hc|]. intros t mu Ht Hmu.
    apply (ci_mutexes _ _ _ _ _ Hc t mu Ht). by destruct t.
  - intros i d mu [Hd Hm]%(ci_callers _ _ _ _ _ Hc).
    by destruct (ManageServable_new i d _ Hd Hm) as (m'&h&->&_).
Qed.

(** C11: a call that returns OK returns the handle of the servable it asked for,
    whose loader is loaded and stays so; a call that fails returns no handle, and the
    load of the servable has failed. *)
Theorem caching_returns (s : CachingManager A) (i : ServableId) (st : Status)
    (handle : option Handle) :
  caching_reachable caching_initial s → CReturned i st handle ∈ cm_callers s →
  if ok st then
    ∃ p h, map_of (cm_basic_manager s) !! p = Some h ∧ h_id h = i ∧
      handle = Some (i, h_loader h) ∧ loader_phase (h_trace h) = Some LLoaded
  else handle = None ∧ in_state (map_of (cm_basic_manager s)) State.kError i.
Proof.
  intros Hc%caching_reachable_inv Hr%(ci_callers _ _ _ _ _ Hc). simpl in Hr. unfold returns in Hr.
  destruct (ok st); [|by destruct Hr]. destruct Hr as (p&h&Hp&Hid&Hs&->).
  exists p, h. split_and!; try done. destruct (ci_sys _ _ _ _ _ Hc) as (Hheap&_).
  apply (good_phase _ _ _ (hi_good _ _ _ _ _ Hheap p h Hp)). by rewrite Hs.
Qed.

(** When no call is under way, the map of mutexes has an entry for exactly the
    servables whose load failed; those entries stay for ever, and a servable that
    was loaded leaves none. *)
Theorem load_mutex_map_exact (s : CachingManager A) :
  caching_reachable caching_initial s →
  (∀ t, t ∈ cm_callers s → ∃ i st handle, t = CReturned i st handle) →
  ∀ j, is_Some (cm_load_mutex_map s !! j) ↔
    in_state (map_of (cm_basic_manager s)) State.kError j.
Proof.
  intros Hc%caching_reachable_inv Hall j. split.
  - intros [mu Hmu]. destruct (ci_entry _ _ _ _ _ Hc j mu Hmu) as [?|(t&Ht&Htj)]; [done|].
    by destruct (Hall t Ht) as (i&st&handle&->).
  - intros He. destruct (ci_kept _ _ _ _ _ Hc j) as [Hs|?]; [by eapply in_state_managed| |done].
    apply is_served_state in Hs.
    by pose proof (in_state_unique _ _ _ _ (cinv_unique _ _ _ _ _ Hc) He Hs).
Qed.
(** ** Progress *)

(** The steps a caller has before it. *)
Definition crank (t : Caller) : nat :=
  match t with
  | CStart _ => 13 | CLookup _ => 12 | CCreate _ => 11 | CFindMutex _ _ => 10
  | CLock _ _ _ => 9 | CSnapshot _ _ _ => 8 | CManage _ _ _ => 7 | CLoad _ _ _ => 6
  | CWait _ _ _ _ => 5 | CUnlock _ _ _ _ => 4 | CReset _ _ _ _ => 3 | CErase _ _ => 2
  | CFinal _ => 1 | CReturned _ _ _ => 0
  end.

Lemma run_caller_decreases latest data t rest (sys : Sys A) mp held next s' :
  run_caller latest data t rest sys mp held next = Some s' →
  ∃ t', cm_callers s' = t' :: rest ∧ crank t' < crank t.
Proof.
  intros Hrun. destruct sys as [m de ts]. destruct t; cbn [run_caller] in Hrun;
    repeat case_match; simplify_eq; try apply bind_Some in Hrun as (?&_&[= <-]);
    (eexists; split; [reflexivity|]); repeat case_match; simpl; lia.
Qed.

Lemma cruns_inv (s s' : CachingManager A) : caching_inv s → cruns s s' → caching_inv s'.
Proof. intros Hinv (l&_&Hwf&Hstep). by eapply cstep_inv. Qed.

(** Each step lets a caller advance, or a thread of the basic manager. *)
Lemma cruns_decreases (s s' : CachingManager A) :
  cruns s s' →
  sum_list_with crank (cm_callers s') < sum_list_with crank (cm_callers s) ∨
  cm_callers s' = cm_callers s ∧ runs (cm_basic_manager s) (cm_basic_manager s').
Proof.
  intros ([| |]&Hl&_&Hstep); [done|left|right]; destruct s as [sys mp held next T];
    cbn [cstep] in Hstep.
  - apply bind_Some in Hstep as (t&Ek&Hstep).
    destruct (run_caller_decreases _ _ _ _ _ _ _ _ _ Hstep) as (t'&->&Hlt).
    apply delete_Permutation in Ek. simpl.
    assert (∀ l l' : list Caller, l ≡ₚ l' → sum_list_with crank l = sum_list_with crank l') as Hp.
    { induction 1; simpl; lia. }
    rewrite (Hp _ _ Ek). simpl. lia.
  - apply bind_Some in Hstep as (sys'&E&[= <-]). split; [done|]. by exists k, a.
Qed.

Lemma cruns_acc (s : CachingManager A) : caching_inv s → Acc (flip cruns) s.
Proof.
  remember (sum_list_with crank (cm_callers s)) as w eqn:Hw. revert s Hw.
  induction (lt_wf w) as [w _ IH]. intros s.
  pose proof (λ H, runs_acc (cm_basic_manager s) H) as Hacc.
  remember (cm_basic_manager s) as sys eqn:Hsys. intros Hw Hinv.
  specialize (Hacc ltac:(subst sys; apply Hinv)). revert s Hsys Hw Hinv.
  induction Hacc as [sys _ IHacc]. intros s -> -> Hinv. constructor. intros s' Hrun.
  pose proof (cruns_inv _ _ Hinv Hrun) as Hinv'.
  destruct (cruns_decreases s s' Hrun) as [Hlt|[E Hr]].
  - by eapply IH.
  - eapply IHacc; [exact Hr|done|by rewrite E|done].
Qed.

(** A caller that is not waiting for a mutex or a callback can run. *)
Lemma caller_runs (s : CachingManager A) t :
  caching_inv s → t ∈ cm_callers s →
  match t with
  | CLock _ _ mu => mu ∉ cm_held s
  | CWait _ j _ n => load_statuses n j (sys_manager (cm_basic_manager s)) ≠ []
  | CReturned _ _ _ => False
  | _ => True
  end → ∃ s', cruns s s'.
Proof.
  intros Hinv [k Hk]%list_elem_of_lookup Hgo. destruct s as [sys mp held next T]. simpl in Hk, Hgo.
  assert (∃ latest data, clabel_wf (LCaller k latest data) (mkCachingManager sys mp held next T))
    as (latest&data&Hwf).
  { simpl. rewrite Hk. destruct t; try by (exists 0%Z, (DataOk (mkServableId "" 0) 0)).
    - destruct (latest_version_total (req_name request)) as [v Hv].
      by exists v, (DataOk (mkServableId "" 0) 0).
    - destruct (creates_total i) as [d Hd]. by exists 0%Z, d. }
  assert (is_Some (run_caller latest data t (delete k T) sys mp held next)) as [s' Hs'].
  { destruct sys as [m de ts]. destruct t; cbn [run_caller]; try done; try by eexists.
    - repeat case_match; by eexists.
    - case_match; by eexists.
    - rewrite decide_False by done. by eexists.
    - repeat case_match; by eexists.
    - case_match; by eexists.
    - cbn [step]. case_match. by eexists.
    - simpl in Hgo. case_match; [done|by eexists].
    - case_match; by eexists. }
  exists s', (LCaller k latest data). split_and!; [done|done|]. cbn [cstep]. by rewrite Hk.
Qed.

(** Some step is possible until all calls have returned. *)
Lemma cruns_progress (s : CachingManager A) t :
  caching_inv s → t ∈ cm_callers s → (∀ i st h, t ≠ CReturned i st h) → ∃ s', cruns s s'.
Proof.
  intros Hinv Ht Hnr.
  destruct (decide (sys_threads (cm_basic_manager s) = [])) as [Hnil|Hne].
  2: { destruct (runs_progress (cm_basic_manager s) (ci_sys _ _ _ _ _ Hinv) Hne) as (sys'&k&a&E).
       destruct s as [sys mp held next T]. exists (mkCachingManager sys' mp held next T), (LManager k a).
       split_and!; [done|done|]. cbn [cstep]. simpl in E. by rewrite E. }
  assert (∀ u, u ∈ cm_callers s → ∀ mu, holding u = Some mu → ∃ s', cruns s s') as Hhold.
  { intros u Hu mu Hmu. apply (caller_runs s u Hinv Hu). pose proof (ci_callers _ _ _ _ _ Hinv u Hu) as Hf.
    destruct u; try done. destruct Hf as [_ [_ Hw]]. rewrite Hnil in Hw.
    case_match; [by apply not_elem_of_nil in Hw|done]. }
  destruct (holding t) as [mu|] eqn:Et; [by eapply Hhold|].
  destruct t as [| | | |i d mu| | | | | | | | |]; try done;
    try by (apply (caller_runs s _ Hinv Ht)).
  - destruct (decide (mu ∈ cm_held s)) as [Hin|Hni]; [|by apply (caller_runs s _ Hinv Ht)].
    rewrite (ci_held _ _ _ _ _ Hinv), elem_of_list_to_set in Hin.
    apply list_elem_of_omap in Hin as (u&Hu&Hmu). by eapply Hhold.
  - by destruct (Hnr i st handle).
Qed.

(** Every call returns when no client has a handle of an old serving map, so that no load
    waits in its update of the map. From every reachable state, if no new call is made,
    no schedule of the callers and of the basic manager's threads runs for ever,
    and it ends only when all calls have returned. *)
Theorem caching_calls_return (s : CachingManager A) :
  caching_reachable caching_initial s →
  Acc (flip cruns) s ∧
  ∀ s', rtc cruns s s' → (¬ ∃ s'', cruns s' s'') →
    ∀ t, t ∈ cm_callers s' → ∃ i st handle, t = CReturned i st handle.
Proof.
  intros Hc%caching_reachable_inv. split; [by apply cruns_acc|]. intros s' Hruns Hstuck t Ht.
  assert (caching_inv s') as Hinv by (induction Hruns; eauto using cruns_inv).
  destruct t as [| | | | | | | | | | | | |i st h]; try (by destruct Hstuck; eapply cruns_progress);
    by exists i, st, h.
Qed.
End theorems.

(** * Witnesses *)

(** A sequence of steps in which the factory answers as it should. *)
Fixpoint reaches `{LoaderFactory} {A} (ls : list CLabel) (s s' : CachingManager A) : Prop :=
  match ls with
  | [] => s = s'
  | l :: ls => clabel_wf l s ∧ match cstep l s with Some s1 => reaches ls s1 s' | None => False end
  end.

Lemma reaches_reachable `{LoaderFactory} {A} ls (s0 s s' : CachingManager A) :
  caching_reachable s0 s → reaches ls s s' → caching_reachable s0 s'.
Proof.
  revert s. induction ls as [|l ls IH]; simpl; intros s Hr; [by intros <-|]. intros [Hwf Hls].
  destruct (cstep l s) as [s1|] eqn:E; [|done]. eapply IH; [|done]. by eapply caching_snoc.
Qed.

Definition ex_factory : LoaderFactory := path_prefix_factory "/models" (λ _, (StatusOK, 7)).

Definition ex_created (v : Z) : ServableData nat :=
  default (DataOk (ex_id v) 7)
    (PathPrefix_CreateLoader "/models" (Unary_Adapt (λ _, (StatusOK, 7))) (ex_id v)).

(** A call for version 0, which is loaded, and a call for version 1, which the
    factory does not support. *)
Definition ex_calls : list CLabel :=
  LCall (Specific "m" 0) :: replicate 8 (LCaller 0 0 (ex_created 0)) ++
  replicate 8 (LManager 0 (mkAnswers (λ _, (StatusOK, [])) (λ _, (StatusOK, [])) StatusOK)) ++
  replicate 5 (LCaller 0 0 (ex_created 0)) ++
  LCall (Specific "m" 1) :: replicate 11 (LCaller 0 0 (ex_created 1)).

Definition ex_caching (n : nat) : CachingManager unit :=
  default (caching_initial 1 1 true None)
    (foldl (λ s l, s ≫= cstep l) (Some (caching_initial 1 1 true None)) (take n ex_calls)).

Ltac creach n :=
  apply (reaches_reachable (take n ex_calls) _ (caching_initial 1 1 true None) (ex_caching n));
  [constructor|vm_compute; repeat split].

Lemma caching_returns_witness :
  ∃ p h, map_of (cm_basic_manager (ex_caching 40)) !! p = Some h ∧ h_id h = ex_id 0 ∧
    Some (ex_id 0, Some 7) = Some (ex_id 0, h_loader h) ∧ loader_phase (h_trace h) = Some LLoaded.
Proof.
  refine (@caching_returns ex_factory unit 1 1 true None (ex_caching 40) (ex_id 0) StatusOK
    (Some (ex_id 0, Some 7)) _ _).
  - creach 40.
  - vm_compute. right. left.
Defined.

Lemma load_mutex_map_exact_witness :
  is_Some (cm_load_mutex_map (ex_caching 40) !! ex_id 1).
Proof.
  apply (@load_mutex_map_exact ex_factory unit 1 1 true None (ex_caching 40)).
  - creach 40.
  - intros t Ht. vm_compute in Ht. repeat (apply elem_of_cons in Ht as [->|Ht]; [by do 3 eexists|]).
    by apply not_elem_of_nil in Ht.
  - exists 1. eexists. split_and!; vm_compute; reflexivity.
Defined.

Lemma caching_loads_once_witness :
  requests (cm_basic_manager (ex_caching 10)) = [mkRequest kLoadRequest (ex_id 0)] ∧
  NoDup (requests (cm_basic_manager (ex_caching 10))).
Proof.
  split; [vm_compute; reflexivity|].
  apply (@caching_loads_once ex_factory unit 1 1 true None (ex_caching 10)). creach 10.
Defined.

Lemma caching_calls_return_witness :
  Acc (flip (@cruns ex_factory unit)) (ex_caching 10).
Proof.
  apply (@caching_calls_return ex_factory unit 1 1 true None (ex_caching 10)). creach 10.
Defined.
