(* ===== verification/BatchScheduler.v ===== *)
(** Batching: [tensorflow/core/kernels/batching_util/batch_scheduler.h],
    [shared_batch_scheduler.h] and [basic_batch_scheduler.h].

    Tasks submitted to a queue are gathered into batches, and batch threads take
    the batches of all queues in turn and hand them to the queue's callback.
    [Batch] and [Queue] are the classes of those names, one definition per
    method; the times that [NowMicros] returns are arguments.  The scheduler is a
    transition system: a batch thread is a program point of [ThreadLogic], cut
    where another thread may intervene (the scheduler's mutex is held from the
    start of [ThreadLogic] to the end of its loop, the mutex of a queue only
    inside each method), interleaved with calls of [AddQueue], [Schedule] and the
    destructor of a queue handle.  The condition variable only shortens the sleep
    of idle threads and is left out.

    The theorems: the invariants that the class comment of [Queue] states, that
    no accepted task is lost, reordered or processed twice, that batches stay
    within their size, that a queue is dropped only when nothing uses it, that
    [SchedulingCapacity] is exact, and that a batch thread never sleeps while a
    queue has a batch to offer. *)
From S2P Require Import Prelude Status.

(** * Batches and queues *)

Section batching.
Context {Task : Type} (task_size : Task → Z).

(** [Batch<TaskType>]; [b_died] records a failed check (a task added to a closed
    batch, or a batch closed twice). *)
Record Batch := mkBatch { b_tasks : list Task; b_size : Z; b_closed : bool; b_died : bool }.

Definition newBatch : Batch := mkBatch [] 0 false false.

Definition AddTask (task : Task) (b : Batch) : Batch :=
  mkBatch (b_tasks b ++ [task]) (u64 (b_size b + task_size task)) (b_closed b)
    (b_died b || b_closed b).

Definition RemoveTask (b : Batch) : option Task * Batch :=
  match last (b_tasks b) with
  | None => (None, b)
  | Some task => (Some task, mkBatch (take (length (b_tasks b) - 1) (b_tasks b))
                               (u64 (b_size b - task_size task)) (b_closed b) (b_died b))
  end.

Definition Close (b : Batch) : Batch :=
  mkBatch (b_tasks b) (b_size b) true (b_died b || b_closed b).

Definition num_tasks (b : Batch) : Z := Z.of_nat (length (b_tasks b)).
Definition b_empty (b : Batch) : bool := bool_decide (b_tasks b = []).

(** [SharedBatchScheduler::QueueOptions]. *)
Record QueueOptions := mkQueueOptions {
  max_batch_size : Z;
  batch_timeout_micros : Z;
  max_enqueued_batches : Z }.

(** [Queue<TaskType>]; [q_notified] counts the calls of [Notify] on the
    notification of [CloseAndWaitUntilEmpty], and [q_empty_notification] tells
    whether the pointer to it is set. *)
Record Queue := mkQueue {
  q_options : QueueOptions;
  q_closed : bool;
  q_batches : list Batch;
  q_open_batch_start_time_micros : Z;
  q_schedulable_batch : bool;
  q_num_batches_being_processed : Z;
  q_empty_notification : bool;
  q_notified : nat }.

Definition set_batches (x : list Batch) (q : Queue) : Queue :=
  mkQueue (q_options q) (q_closed q) x (q_open_batch_start_time_micros q)
    (q_schedulable_batch q) (q_num_batches_being_processed q) (q_empty_notification q)
    (q_notified q).

Definition set_start_time (x : Z) (q : Queue) : Queue :=
  mkQueue (q_options q) (q_closed q) (q_batches q) x
    (q_schedulable_batch q) (q_num_batches_being_processed q) (q_empty_notification q)
    (q_notified q).

Definition set_schedulable (x : bool) (q : Queue) : Queue :=
  mkQueue (q_options q) (q_closed q) (q_batches q) (q_open_batch_start_time_micros q)
    x (q_num_batches_being_processed q) (q_empty_notification q) (q_notified q).

Definition set_num_processed (x : Z) (q : Queue) : Queue :=
  mkQueue (q_options q) (q_closed q) (q_batches q) (q_open_batch_start_time_micros q)
    (q_schedulable_batch q) x (q_empty_notification q) (q_notified q).

Definition notify_empty (q : Queue) : Queue :=
  mkQueue (q_options q) (q_closed q) (q_batches q) (q_open_batch_start_time_micros q)
    (q_schedulable_batch q) (q_num_batches_being_processed q) (q_empty_notification q)
    (S (q_notified q)).

(** The constructor. *)
Definition newQueue (options : QueueOptions) : Queue :=
  mkQueue options false [newBatch] 0 false 0 false 0.

(** [batches_.back()]. *)
Definition back (q : Queue) : Batch := default newBatch (last (q_batches q)).

Definition update_back (f : Batch → Batch) (q : Queue) : Queue :=
  set_batches (alter f (length (q_batches q) - 1) (q_batches q)) q.

Definition StartNewBatch (q : Queue) : Queue :=
  let q := update_back Close q in
  set_batches (q_batches q ++ [newBatch]) q.

(** [IsOpenBatchSchedulable], at the time [now]. *)
Definition IsOpenBatchSchedulable (now : Z) (q : Queue) : bool :=
  if b_empty (back q) then false else
  q_closed q || (max_batch_size (q_options q) <=? b_size (back q))%Z ||
  (u64 (q_open_batch_start_time_micros q + batch_timeout_micros (q_options q)) <=? now)%Z.

Definition IsEmptyInternal (q : Queue) : bool :=
  (q_num_batches_being_processed q =? 0)%Z && (length (q_batches q) =? 1)%nat &&
  b_empty (back q).

(** [Schedule]: the status, whether the scheduler is notified, and the queue;
    [now] and [now'] are what its two calls of [NowMicros] return. *)
Definition Schedule (now now' : Z) (task : Task) (q : Queue) : Status * bool * Queue :=
  let size := task_size task in
  let options := q_options q in
  if (max_batch_size options <? size)%Z then
    (InvalidArgument ("Task size " +:+ pretty size +:+ " is larger than maximum batch size " +:+
       pretty (max_batch_size options)), false, q)
  else if (max_batch_size options <? u64 (b_size (back q) + size))%Z &&
          (max_enqueued_batches options <=? Z.of_nat (length (q_batches q)))%Z then
    (Unavailable ("The batch scheduling queue to which this task was submitted is " +:+ "full"),
     false, q)
  else
    let q := if (max_batch_size options <? u64 (b_size (back q) + size))%Z
             then StartNewBatch q else q in
    let q := if b_empty (back q) then set_start_time now q else q in
    let q := update_back (AddTask task) q in
    if negb (q_schedulable_batch q) &&
       ((1 <? length (q_batches q))%nat || IsOpenBatchSchedulable now' q)
    then (StatusOK, true, set_schedulable true q)
    else (StatusOK, false, q).

(** [NumEnqueuedTasks]. *)
Definition NumEnqueuedTasks (q : Queue) : Z :=
  foldl (λ n b, u64 (n + num_tasks b)) 0%Z (q_batches q).

(** [SchedulingCapacity]: the intermediate values are [int]s, the result is
    converted to [size_t]. *)
Definition SchedulingCapacity (q : Queue) : Z :=
  let options := q_options q in
  let num_new_batches_schedulable :=
    i32 (u64 (max_enqueued_batches options - Z.of_nat (length (q_batches q)))) in
  let open_batch_capacity := i32 (u64 (max_batch_size options - b_size (back q))) in
  u64 (i32 (i32 (num_new_batches_schedulable * max_batch_size options) + open_batch_capacity)).

(** [ScheduleBatch]. *)
Definition ScheduleBatch (now : Z) (q : Queue) : option Batch * Queue :=
  let q := if (length (q_batches q) =? 1)%nat && IsOpenBatchSchedulable now q
           then StartNewBatch q else q in
  match q_batches q with
  | front :: ((_ :: _) as rest) =>
      (Some front, set_batches rest
                     (set_num_processed (q_num_batches_being_processed q + 1) q))
  | _ => (None, set_schedulable false q)
  end.

(** [ProcessBatch] after the callback has returned. *)
Definition ProcessBatch_end (q : Queue) : Queue :=
  let q := set_num_processed (q_num_batches_being_processed q - 1) q in
  if q_empty_notification q && IsEmptyInternal q then notify_empty q else q.

(** [CloseAndWaitUntilEmpty] up to the wait. *)
Definition CloseAndWaitUntilEmpty_begin (q : Queue) : Queue :=
  let q := mkQueue (q_options q) true (q_batches q) (q_open_batch_start_time_micros q)
    (q_schedulable_batch q) (q_num_batches_being_processed q) (q_empty_notification q)
    (q_notified q) in
  if IsEmptyInternal q then notify_empty q
  else mkQueue (q_options q) (q_closed q) (q_batches q) (q_open_batch_start_time_micros q)
    (q_schedulable_batch q) (q_num_batches_being_processed q) true (q_notified q).

(** The checks of [AddQueue] on the options. *)
Definition ValidateOptions (options : QueueOptions) : Status :=
  if (max_batch_size options <=? 0)%Z then
    InvalidArgument ("max_batch_size must be positive; was " +:+ pretty (max_batch_size options))
  else if (batch_timeout_micros options <? 0)%Z then
    InvalidArgument ("batch_timeout_micros must be non-negative; was " +:+
      pretty (batch_timeout_micros options))
  else if (max_enqueued_batches options <? 0)%Z then
    InvalidArgument ("max_enqueued_batches must be non-negative; was " +:+
      pretty (max_enqueued_batches options))
  else StatusOK.
End batching.
Arguments Batch : clear implicits.
Arguments Queue : clear implicits.

(** * The invariants of a queue *)

Section queues.
Context {Task : Type} (task_size : Task → Z) (Hsize : ∀ t, is_u64 (task_size t)).
Implicit Types (b o : Batch Task) (q : Queue Task).

Definition total (l : list Task) : Z := foldr (λ t n, task_size t + n)%Z 0%Z l.

Lemma total_app l l' : total (l ++ l') = (total l + total l')%Z.
Proof. induction l as [|t l IH]; simpl; [done|]. rewrite IH. lia. Qed.

Lemma total_nonneg l : (0 ≤ total l)%Z.
Proof. induction l as [|t l IH]; simpl; [done|]. pose proof (Hsize t) as [? _]. lia. Qed.

Record batch_ok (max : Z) b : Prop := {
  bo_size : b_size b = total (b_tasks b);
  bo_max : (total (b_tasks b) ≤ max)%Z;
  bo_alive : b_died b = false }.

(** What [AddQueue] has checked, and the widths of the fields. *)
Record options_ok (o : QueueOptions) : Prop := {
  oo_size : (0 < max_batch_size o < 2 ^ 31)%Z;
  oo_timeout : (0 ≤ batch_timeout_micros o < 2 ^ 63)%Z;
  oo_enqueued : (0 ≤ max_enqueued_batches o < 2 ^ 31)%Z }.

Definition closed_ok (max : Z) b : Prop := batch_ok max b ∧ b_closed b = true ∧ b_tasks b ≠ [].
Definition open_ok (max : Z) b : Prop := batch_ok max b ∧ b_closed b = false.

(** The back-most batch is open, the others are closed and not empty. *)
Definition shape (max : Z) (l : list (Batch Task)) : Prop :=
  ∃ cs o, l = cs ++ [o] ∧ Forall (closed_ok max) cs ∧ open_ok max o.

Record queue_ok q : Prop := {
  qo_options : options_ok (q_options q);
  qo_shape : shape (max_batch_size (q_options q)) (q_batches q);
  qo_length : (Z.of_nat (length (q_batches q)) ≤ Z.max 1 (max_enqueued_batches (q_options q)))%Z }.

(** The tasks that wait in a queue, in order. *)
Definition enqueued q : list Task := q_batches q ≫= b_tasks.

Lemma back_app q cs o : q_batches q = cs ++ [o] → back q = o.
Proof. intros E. unfold back. by rewrite E, last_snoc. Qed.

Lemma update_back_app f q cs o :
  q_batches q = cs ++ [o] → update_back f q = set_batches (cs ++ [f o]) q.
Proof.
  intros E. unfold update_back. rewrite E. f_equal. rewrite length_app. simpl.
  replace (length cs + 1 - 1) with (length cs + 0) by lia. by rewrite alter_app_r.
Qed.

Lemma StartNewBatch_app q cs o :
  q_batches q = cs ++ [o] → StartNewBatch q = set_batches (cs ++ [Close o; newBatch]) q.
Proof.
  intros E. unfold StartNewBatch. rewrite (update_back_app _ _ _ _ E). simpl.
  unfold set_batches; simpl. by rewrite <-app_assoc.
Qed.

Lemma open_new max : (0 < max)%Z → open_ok max newBatch.
Proof. intros. split; [|done]. split; simpl; [done|lia|done]. Qed.

Lemma close_ok max o : open_ok max o → b_tasks o ≠ [] → closed_ok max (Close o).
Proof. intros [[Hs Hm Hd] Hc] Hne. split; [|done]. split; simpl; [done..|]. by rewrite Hd, Hc. Qed.

Lemma add_ok max task o :
  (max < 2 ^ 31)%Z → open_ok max o → (total (b_tasks o) + task_size task ≤ max)%Z →
  open_ok max (AddTask task_size task o).
Proof.
  intros Hm [[Hs Hmo Hd] Hc] Hle. pose proof (total_nonneg (b_tasks o)). pose proof (Hsize task) as [? _].
  split; [|done]. split; simpl.
  - rewrite total_app. simpl. rewrite Hs, u64_small; [lia|]. unfold is_u64. lia.
  - rewrite total_app. simpl. lia.
  - by rewrite Hd, Hc.
Qed.

Lemma newQueue_ok options : options_ok options → queue_ok (newQueue options).
Proof.
  intros Ho. split; [done| |simpl; lia]. exists [], newBatch. split_and!; [done|constructor|].
  apply open_new. apply Ho.
Qed.

(** A task that does not fit the open batch meets a batch that is not empty. *)
Lemma overfull_nonempty max o task :
  (max < 2 ^ 31)%Z → open_ok max o → (task_size task ≤ max)%Z →
  (max <? u64 (b_size o + task_size task))%Z = true → b_tasks o ≠ [].
Proof.
  intros Hm [[Hs Hmo _] _] Hle Hlt%Z.ltb_lt Hnil. rewrite Hs, Hnil in Hlt. simpl in Hlt.
  pose proof (Hsize task). rewrite u64_small in Hlt by done. lia.
Qed.

(** The fields that submitting a task leaves alone. *)
Definition same_but_batches q q' : Prop :=
  q_options q' = q_options q ∧ q_closed q' = q_closed q ∧
  q_num_batches_being_processed q' = q_num_batches_being_processed q ∧
  q_empty_notification q' = q_empty_notification q ∧ q_notified q' = q_notified q.

(** The queue that [Schedule] leaves, but for its flags. *)
Lemma Schedule_batches now now' task q cs o :
  queue_ok q → q_batches q = cs ++ [o] → Forall (closed_ok (max_batch_size (q_options q))) cs →
  open_ok (max_batch_size (q_options q)) o →
  let '(st, _, q') := Schedule task_size now now' task q in
  let overfull := (max_batch_size (q_options q) <? u64 (b_size o + task_size task))%Z in
  same_but_batches q q' ∧
  match st with
  | StatusOK =>
      (task_size task ≤ max_batch_size (q_options q))%Z ∧
      if overfull
      then (Z.of_nat (length (q_batches q)) < max_enqueued_batches (q_options q))%Z ∧
           q_batches q' = (cs ++ [Close o]) ++ [AddTask task_size task newBatch]
      else q_batches q' = cs ++ [AddTask task_size task o]
  | StatusError c _ =>
      q' = q ∧ (c = INVALID_ARGUMENT ∧ (max_batch_size (q_options q) < task_size task)%Z ∨
                c = UNAVAILABLE ∧ (task_size task ≤ max_batch_size (q_options q))%Z ∧
                overfull = true ∧
                (max_enqueued_batches (q_options q) ≤ Z.of_nat (length (q_batches q)))%Z)
  end.
Proof.
  intros Hq E Hcs Ho. unfold Schedule. rewrite (back_app _ _ _ E).
  destruct (Z.ltb_spec (max_batch_size (q_options q)) (task_size task)) as [Hlt|Hle];
    [simpl; split; [by split_and!|split; [done|by left]]|].
  destruct (max_batch_size (q_options q) <? u64 (b_size o + task_size task))%Z eqn:Eo;
    [destruct (Z.leb_spec (max_enqueued_batches (q_options q)) (Z.of_nat (length (q_batches q))))
       as [Hfull|Hroom]|]; cbn [andb].
  - simpl. split_and!; try done. right. by split_and!.
  - rewrite (StartNewBatch_app _ _ _ E).
    set (q1 := set_batches _ q). set (q2 := if b_empty (back q1) then set_start_time now q1 else q1).
    assert (q_batches q2 = (cs ++ [Close o]) ++ [newBatch]) as E2.
    { rewrite <-app_assoc. unfold q2. by case_match. }
    assert (same_but_batches q q2) as (Ho2&Hc2&Hn2&He2&Hf2) by (unfold q2; by case_match).
    rewrite (update_back_app _ _ _ _ E2). destruct (_ && _); simpl; by split_and!.
  - set (q2 := if b_empty (back q) then set_start_time now q else q).
    assert (q_batches q2 = cs ++ [o]) as E2 by (unfold q2; by case_match).
    assert (same_but_batches q q2) as (Ho2&Hc2&Hn2&He2&Hf2) by (unfold q2; by case_match).
    rewrite (update_back_app _ _ _ _ E2). destruct (_ && _); simpl; by split_and!.
Qed.
Lemma enqueued_app q cs o : q_batches q = cs ++ [o] → enqueued q = (cs ≫= b_tasks) ++ b_tasks o.
Proof. intros E. unfold enqueued. rewrite E, bind_app. simpl. by rewrite app_nil_r. Qed.

(** [Schedule] keeps the invariants, and adds the task it accepts at the end. *)
Lemma Schedule_ok now now' task q :
  queue_ok q →
  let '(st, _, q') := Schedule task_size now now' task q in
  queue_ok q' ∧ same_but_batches q q' ∧
  match st with
  | StatusOK => enqueued q' = enqueued q ++ [task]
  | StatusError _ _ => q' = q
  end.
Proof.
  intros Hq. pose proof Hq as [Hoo (cs&o&E&Hcs&Ho) Hl].
  pose proof (Schedule_batches now now' task q cs o Hq E Hcs Ho) as Hs.
  destruct (Schedule _ _ _ _ _) as [[st n] q']. destruct Hs as (Hsame&Hs).
  destruct st as [|c msg]; [|by destruct Hs as [-> _]]. destruct Hs as [Hle Hs].
  pose proof (oo_size _ Hoo) as [Hpos Hlt].
  destruct (max_batch_size _ <? u64 _)%Z eqn:Eo.
  - destruct Hs as [Hroom E']. pose proof (overfull_nonempty _ _ _ Hlt Ho Hle Eo) as Hne.
    split_and!; [|done|].
    + destruct Hsame as (Hopt&_). split; rewrite ?Hopt; [done| |].
      * exists (cs ++ [Close o]), (AddTask task_size task newBatch). split_and!; [done| |].
        -- apply Forall_app. split; [done|]. apply Forall_singleton. by apply close_ok.
        -- apply add_ok; [done|by apply open_new|]. simpl. lia.
      * rewrite E', E in *. rewrite !length_app in *. simpl in *. lia.
    + rewrite (enqueued_app _ _ _ E'), (enqueued_app _ _ _ E), bind_app. simpl. by rewrite app_nil_r.
  - apply Z.ltb_ge in Eo. pose proof Ho as [[Hs' Hmo _] _].
    pose proof (total_nonneg (b_tasks o)). pose proof (Hsize task) as [? _].
    rewrite Hs', u64_small in Eo by (unfold is_u64; lia).
    split_and!; [|done|].
    + destruct Hsame as (Hopt&_). split; rewrite ?Hopt; [done| |].
      * exists cs, (AddTask task_size task o). split_and!; [done|done|]. by apply add_ok.
      * rewrite Hs, E in *. by rewrite !length_app in *.
    + rewrite (enqueued_app _ _ _ Hs), (enqueued_app _ _ _ E). simpl. by rewrite app_assoc.
Qed.

(** A batch that [ScheduleBatch] hands out is closed, not empty, within the
    maximum size, and made of the tasks that waited longest. *)
Lemma ScheduleBatch_ok now q :
  queue_ok q →
  let '(batch, q') := ScheduleBatch now q in
  queue_ok q' ∧ q_options q' = q_options q ∧ q_closed q' = q_closed q ∧
  q_empty_notification q' = q_empty_notification q ∧ q_notified q' = q_notified q ∧
  match batch with
  | Some b => closed_ok (max_batch_size (q_options q)) b ∧
      enqueued q = b_tasks b ++ enqueued q' ∧
      q_num_batches_being_processed q' = (q_num_batches_being_processed q + 1)%Z
  | None => q_batches q' = q_batches q ∧
      q_num_batches_being_processed q' = q_num_batches_being_processed q ∧
      length (q_batches q) = 1 ∧ IsOpenBatchSchedulable now q = false
  end.
Proof.
  intros Hq. pose proof Hq as [Hoo (cs&o&E&Hcs&Ho) Hl]. pose proof (oo_size _ Hoo) as [Hpos Hlt].
  unfold ScheduleBatch. destruct cs as [|c cs].
  - rewrite E. simpl. destruct (IsOpenBatchSchedulable now q) eqn:Es.
    + assert (b_tasks o ≠ []) as Hne.
      { unfold IsOpenBatchSchedulable in Es. rewrite (back_app _ _ _ E) in Es.
        unfold b_empty in Es. by case_bool_decide. }
      rewrite (StartNewBatch_app q [] o E). simpl. split_and!; try done.
      * split; [done| |simpl; lia]. exists [], newBatch. split_and!; [done|constructor|].
        by apply open_new.
      * by apply close_ok.
      * rewrite (enqueued_app _ _ _ E). unfold enqueued; simpl. by rewrite app_nil_r.
    + rewrite E. simpl. split_and!; try done.
      split; simpl; [done| |done]. exists [], o. by split_and!.
  - rewrite E. assert ((length ((c :: cs) ++ [o]) =? 1)%nat = false) as ->.
    { apply Nat.eqb_neq. simpl. rewrite length_app. simpl. lia. }
    simpl. rewrite E. simpl. destruct (cs ++ [o]) as [|c' l] eqn:El; [by destruct cs|].
    inversion Hcs as [|? ? Hc Hcs']; subst. split_and!; try done.
    + split; simpl; [done| |].
      * exists cs, o. by split_and!.
      * rewrite E in Hl. simpl in Hl. rewrite El in Hl. simpl in Hl. lia.
    + unfold enqueued; simpl. rewrite E. simpl. by rewrite El.
Qed.

(** ** Capacity *)

(** Submits [n] tasks one after the other: the number that were accepted. *)
Fixpoint schedule_all (times : nat → Z * Z) (tasks : list Task) q : list Status * Queue Task :=
  match tasks with
  | [] => ([], q)
  | task :: rest =>
      let '(st, _, q) := Schedule task_size (times (length rest)).1 (times (length rest)).2 task q in
      let '(sts, q) := schedule_all times rest q in (st :: sts, q)
  end.

(** The room of a queue, in tasks of size one. *)
Definition room q : Z :=
  (max_enqueued_batches (q_options q) - Z.of_nat (length (q_batches q))) *
    max_batch_size (q_options q) + (max_batch_size (q_options q) - b_size (back q)).

Lemma Schedule_unit now now' task q :
  queue_ok q → task_size task = 1%Z → (1 ≤ max_enqueued_batches (q_options q))%Z →
  let '(st, _, q') := Schedule task_size now now' task q in
  if (0 <? room q)%Z then st = StatusOK ∧ room q' = (room q - 1)%Z
  else code st = UNAVAILABLE ∧ q' = q.
Proof.
  intros Hq Ht Hm. pose proof Hq as [Hoo (cs&o&E&Hcs&Ho) Hl].
  pose proof (Schedule_batches now now' task q cs o Hq E Hcs Ho) as Hs.
  pose proof (oo_size _ Hoo) as [Hpos Hlt]. pose proof Ho as [[Hso Hmo _] _].
  pose proof (total_nonneg (b_tasks o)) as Hnn.
  destruct (Schedule _ _ _ _ _) as [[st n] q']. destruct Hs as ((Hopt&_)&Hs).
  rewrite Ht, Hso, u64_small in Hs by (unfold is_u64; lia).
  assert (room q = (max_enqueued_batches (q_options q) - Z.of_nat (length (q_batches q))) *
    max_batch_size (q_options q) + (max_batch_size (q_options q) - total (b_tasks o)))%Z as Hr.
  { unfold room. by rewrite (back_app _ _ _ E), Hso. }
  destruct (Z.ltb_spec (max_batch_size (q_options q)) (total (b_tasks o) + 1)) as [Hover|Hfit].
  - destruct st as [|c msg].
    + destruct Hs as [_ [Hroom E']]. rewrite (proj2 (Z.ltb_lt 0 (room q))) by nia.
      split; [done|]. rewrite Hr. unfold room. rewrite Hopt, (back_app _ _ _ E'), E', E. simpl.
      rewrite Ht, u64_small by done. rewrite !length_app. simpl. nia.
    + destruct Hs as [-> [[_ ?]|(->&_&_&Hfull)]]; [lia|].
      rewrite (proj2 (Z.ltb_ge 0 (room q))) by nia. done.
  - rewrite (proj2 (Z.ltb_lt 0 (room q))) by nia. destruct st as [|c msg].
    + destruct Hs as [_ E']. split; [done|]. rewrite Hr. unfold room.
      rewrite Hopt, (back_app _ _ _ E'), E', E. simpl.
      rewrite Hso, Ht, u64_small by (unfold is_u64; lia). rewrite !length_app. simpl. lia.
    + destruct Hs as [-> [[_ ?]|(_&_&?&_)]]; [lia|done].
Qed.

Lemma room_bounds q :
  queue_ok q → (1 ≤ max_enqueued_batches (q_options q))%Z →
  (0 ≤ room q ≤ max_enqueued_batches (q_options q) * max_batch_size (q_options q))%Z.
Proof.
  intros [Hoo (cs&o&E&Hcs&Ho) Hl] Hm. pose proof (oo_size _ Hoo). destruct Ho as [[Hso Hmo _] _].
  unfold room. rewrite (back_app _ _ _ E), Hso. pose proof (total_nonneg (b_tasks o)).
  assert (1 ≤ length (q_batches q)) by (rewrite E, length_app; simpl; lia). nia.
Qed.

Lemma SchedulingCapacity_room q :
  queue_ok q → (1 ≤ max_enqueued_batches (q_options q))%Z →
  (max_enqueued_batches (q_options q) * max_batch_size (q_options q) < 2 ^ 31)%Z →
  SchedulingCapacity q = room q.
Proof.
  intros Hq Hm Hb. pose proof (room_bounds q Hq Hm) as Hr.
  destruct Hq as [Hoo (cs&o&E&Hcs&Ho) Hl]. destruct (oo_size _ Hoo), (oo_enqueued _ Hoo).
  destruct Ho as [[Hso Hmo _] _]. pose proof (total_nonneg (b_tasks o)).
  assert (1 ≤ length (q_batches q)) by (rewrite E, length_app; simpl; lia).
  unfold room in *. unfold SchedulingCapacity. rewrite (back_app _ _ _ E), Hso in *.
  rewrite (u64_small (max_enqueued_batches _ - _)) by (unfold is_u64; lia).
  rewrite (u64_small (max_batch_size _ - _)) by (unfold is_u64; lia).
  rewrite !(i32_small (_ - _)) by (unfold is_i32; lia).
  rewrite (i32_small (_ * _)) by (unfold is_i32; nia).
  rewrite i32_small by (unfold is_i32; nia). apply u64_small. unfold is_u64. lia.
Qed.

(** [SchedulingCapacity] is exact: of tasks of size one that are submitted one
    after the other, that many are accepted and all later ones are refused as
    unavailable, for a queue that may enqueue at least one batch. *)
Theorem SchedulingCapacity_exact q (times : nat → Z * Z) (tasks : list Task) :
  queue_ok q → (1 ≤ max_enqueued_batches (q_options q))%Z →
  (max_enqueued_batches (q_options q) * max_batch_size (q_options q) < 2 ^ 31)%Z →
  (∀ t, t ∈ tasks → task_size t = 1%Z) →
  ∀ k st, (schedule_all times tasks q).1 !! k = Some st →
    if (Z.of_nat k <? SchedulingCapacity q)%Z then st = StatusOK else code st = UNAVAILABLE.
Proof.
  intros Hq Hm Hb Ht k st. rewrite (SchedulingCapacity_room q Hq Hm Hb). clear Hb.
  revert q k Hq Hm. induction tasks as [|t tasks IH]; intros q k Hq Hm; simpl; [done|].
  pose proof (Schedule_unit (times (length tasks)).1 (times (length tasks)).2 t q Hq
    ltac:(apply Ht; left) Hm) as Hs.
  pose proof (Schedule_ok (times (length tasks)).1 (times (length tasks)).2 t q Hq) as Hok.
  destruct (Schedule _ _ _ _ _) as [[st0 n] q']. destruct Hok as (Hq'&(Ho&_)&_).
  specialize (IH ltac:(intros u Hu; apply Ht; by right) q').
  destruct (schedule_all times tasks q') as [sts q'']. simpl in IH |- *.
  pose proof (room_bounds q Hq Hm) as Hr.
  destruct k as [|k]; simpl.
  - intros [= <-]. change (Z.of_nat 0) with 0%Z. destruct (0 <? room q)%Z; by destruct Hs.
  - intros Hk. specialize (IH k Hq' ltac:(by rewrite Ho) Hk).
    destruct (Z.ltb_spec 0 (room q)) as [Hpos|Hz].
    + destruct Hs as [_ Hs]. rewrite Hs in IH.
      replace (Z.of_nat (S k) <? room q)%Z with (Z.of_nat k <? room q - 1)%Z; [done|].
      apply eq_true_iff_eq. rewrite !Z.ltb_lt. lia.
    + destruct Hs as [_ ->]. rewrite (proj2 (Z.ltb_ge _ _)) in IH by lia.
      by rewrite (proj2 (Z.ltb_ge _ _)) by lia.
Qed.
(** On a queue that may enqueue no batch, which [AddQueue] accepts,
    [SchedulingCapacity] promises almost 2^64 tasks as soon as one task waits,
    although a task that does not fit the open batch is refused. *)
Theorem SchedulingCapacity_zero q now now' task :
  queue_ok q → max_enqueued_batches (q_options q) = 0%Z → (0 < b_size (back q))%Z →
  SchedulingCapacity q = (2 ^ 64 - b_size (back q))%Z ∧
  ((task_size task ≤ max_batch_size (q_options q) < b_size (back q) + task_size task)%Z →
   code (Schedule task_size now now' task q).1.1 = UNAVAILABLE).
Proof.
  intros [Hoo (cs&o&E&Hcs&Ho) Hl] Hm Hpos. destruct (oo_size _ Hoo) as [Hp Hlt].
  destruct Ho as [[Hso Hmo _] _]. rewrite (back_app _ _ _ E) in *.
  assert (cs = []) as ->.
  { rewrite E, length_app in Hl. destruct cs; [done|]. simpl in Hl. lia. }
  split.
  - unfold SchedulingCapacity. rewrite (back_app _ _ _ E), E, Hm. cbn [app length].
    change (i32 (u64 (0 - Z.of_nat 1))) with (-1)%Z. rewrite (u64_small (_ - _)) by (unfold is_u64; lia).
    rewrite (i32_small (_ - _)) by (unfold is_i32; lia). rewrite (i32_small (-1 * _)) by (unfold is_i32; lia).
    rewrite i32_small by (unfold is_i32; lia). unfold u64.
    symmetry. apply (Z.mod_unique _ _ (-1)); lia.
  - intros [H1 H2]. unfold Schedule. rewrite (back_app _ _ _ E), E, Hm. simpl.
    rewrite (proj2 (Z.ltb_ge _ _)) by lia. pose proof (Hsize task).
    rewrite u64_small by (unfold is_u64; lia). by rewrite (proj2 (Z.ltb_lt _ _)) by lia.
Qed.
End queues.

(** * The shared scheduler *)

Section scheduler.
Context {Task : Type} (task_size : Task → Z).

(** The program points of [ThreadLogic]; [id] is the queue that the point works
    on.  From [BCheck] to [BAdvance] the thread holds the scheduler's mutex. *)
Inductive BThread :=
  | BIdle                                              (* between two calls *)
  | BCheck (tried num_queues : nat)                    (* reads [closed()] *)
  | BTry (tried num_queues id : nat) (queue_closed : bool)      (* calls [ScheduleBatch] *)
  | BAdvance (tried num_queues id : nat) (queue_closed : bool) (batch : option (Batch Task))
                                                       (* advances the iterator *)
  | BCall (id : nat) (batch : Batch Task)             (* calls the callback *)
  | BFinish (id : nat) (batch : Batch Task).          (* the callback has returned *)

(** The queues are named by the order of their creation; the iterator
    [next_queue_to_schedule_] is the index it points to.  The last fields record
    what happened: the options of the queues, the tasks accepted, the batches
    taken from queues and those handed to callbacks, and whether a queue or an
    iterator was used that does not exist. *)
Record Scheduler := mkScheduler {
  ss_queues : list (nat * Queue Task);
  ss_next : nat;
  ss_locked : bool;
  ss_threads : list BThread;
  ss_handles : gset nat;
  ss_num_created : nat;
  ss_options : gmap nat QueueOptions;
  ss_accepted : list (nat * Task);
  ss_dispatched : list (nat * Batch Task);
  ss_processed : list (nat * Batch Task);
  ss_misused : bool }.

Implicit Types (s : Scheduler) (t : BThread).

Definition set_queues (queues : list (nat * Queue Task)) (next : nat) s : Scheduler :=
  mkScheduler queues next (ss_locked s) (ss_threads s) (ss_handles s) (ss_num_created s)
    (ss_options s) (ss_accepted s) (ss_dispatched s) (ss_processed s) (ss_misused s).

Definition set_threads (threads : list BThread) (locked : bool) s : Scheduler :=
  mkScheduler (ss_queues s) (ss_next s) locked threads (ss_handles s) (ss_num_created s)
    (ss_options s) (ss_accepted s) (ss_dispatched s) (ss_processed s) (ss_misused s).

Definition misuse s : Scheduler :=
  mkScheduler (ss_queues s) (ss_next s) (ss_locked s) (ss_threads s) (ss_handles s)
    (ss_num_created s) (ss_options s) (ss_accepted s) (ss_dispatched s) (ss_processed s) true.

Definition log_dispatched (id : nat) (batch : option (Batch Task)) s : Scheduler :=
  mkScheduler (ss_queues s) (ss_next s) (ss_locked s) (ss_threads s) (ss_handles s)
    (ss_num_created s) (ss_options s) (ss_accepted s)
    (ss_dispatched s ++ match batch with Some b => [(id, b)] | None => [] end)
    (ss_processed s) (ss_misused s).

Definition log_processed (id : nat) (batch : Batch Task) s : Scheduler :=
  mkScheduler (ss_queues s) (ss_next s) (ss_locked s) (ss_threads s) (ss_handles s)
    (ss_num_created s) (ss_options s) (ss_accepted s) (ss_dispatched s)
    (ss_processed s ++ [(id, batch)]) (ss_misused s).

(** The queue a pointer points to. *)
Definition find_queue (id : nat) (queues : list (nat * Queue Task)) : option (nat * Queue Task) :=
  (λ e, (e.1, e.2.2)) <$> list_find (λ e : nat * Queue Task, e.1 = id) queues.

Definition set_queue (id : nat) (q : Queue Task) (queues : list (nat * Queue Task)) : list (nat * Queue Task) :=
  (λ e, if decide (e.1 = id) then (id, q) else e) <$> queues.

(** [Create] and the constructor. *)
Definition Scheduler_Create (num_batch_threads : Z) : Status * option Scheduler :=
  if (num_batch_threads <? 1)%Z then
    (InvalidArgument ("num_batch_threads must be positive; was " +:+ pretty num_batch_threads), None)
  else (StatusOK, Some (mkScheduler [] 0 false (replicate (Z.to_nat num_batch_threads) BIdle)
                          ∅ 0 ∅ [] [] [] false)).

(** [AddQueue]. *)
Definition AddQueue (options : QueueOptions) s : Status * Scheduler :=
  let status := ValidateOptions options in
  if negb (ok status) then (status, s) else
  let id := ss_num_created s in
  let next := if (ss_next s =? length (ss_queues s))%nat then 0 else ss_next s in
  (StatusOK, mkScheduler (ss_queues s ++ [(id, newQueue options)]) next (ss_locked s)
    (ss_threads s) ({[id]} ∪ ss_handles s) (S id) (<[id := options]> (ss_options s))
    (ss_accepted s) (ss_dispatched s) (ss_processed s) (ss_misused s)).

(** [QueueHandle::Schedule]. *)
Definition Handle_Schedule (id : nat) (now now' : Z) (task : Task) s : Status * Scheduler :=
  match find_queue id (ss_queues s) with
  | None => (StatusOK, misuse s)
  | Some (_, q) =>
      let '(st, _, q') := Schedule task_size now now' task q in
      (st, mkScheduler (set_queue id q' (ss_queues s)) (ss_next s) (ss_locked s) (ss_threads s)
         (ss_handles s) (ss_num_created s) (ss_options s)
         (ss_accepted s ++ if ok st then [(id, task)] else []) (ss_dispatched s)
         (ss_processed s) (ss_misused s))
  end.

(** The destructor of a queue handle, up to its wait. *)
Definition Handle_Close (id : nat) s : Scheduler :=
  match find_queue id (ss_queues s) with
  | None => misuse s
  | Some (_, q) =>
      mkScheduler (set_queue id (CloseAndWaitUntilEmpty_begin q) (ss_queues s)) (ss_next s)
        (ss_locked s) (ss_threads s) (ss_handles s ∖ {[id]}) (ss_num_created s) (ss_options s)
        (ss_accepted s) (ss_dispatched s) (ss_processed s) (ss_misused s)
  end.

(** The end of an iteration: the iterator advances, over the queue it drops if
    that queue is closed and empty and gave no batch. *)
Definition advance (queue_closed : bool) (batch : option (Batch Task)) (q : Queue Task)
    (queues : list (nat * Queue Task)) (next : nat) : list (nat * Queue Task) * nat :=
  let '(queues, next) :=
    if queue_closed && IsEmptyInternal q && bool_decide (batch = None)
    then (delete next queues, next) else (queues, S next) in
  (queues, if (next =? length queues)%nat then 0 else next).

(** The loop of [ThreadLogic] goes on, or it ends and the mutex is released. *)
Definition next_point (tried num_queues id : nat) (batch : option (Batch Task)) : BThread * bool :=
  match batch with
  | Some b => (BCall id b, false)
  | None => if (tried <? num_queues)%nat then (BCheck tried num_queues, true) else (BIdle, false)
  end.

(** The code from the point [t] to the next, at the time [now]; [rest] are the
    other batch threads.  [None]: the mutex is held by another thread. *)
Definition run_bthread (now : Z) t (rest : list BThread) s : option Scheduler :=
  match t with
  | BIdle =>
      if ss_locked s then None else
      let '(t, locked) := next_point 0 (length (ss_queues s)) 0 None in
      Some (set_threads (t :: rest) locked s)
  | BCheck tried num_queues =>
      Some (match ss_queues s !! ss_next s with
            | None => set_threads (BIdle :: rest) false (misuse s)
            | Some (id, q) => set_threads (BTry tried num_queues id (q_closed q) :: rest) true s
            end)
  | BTry tried num_queues id queue_closed =>
      Some (match find_queue id (ss_queues s) with
            | None => set_threads (BIdle :: rest) false (misuse s)
            | Some (_, q) =>
                let '(batch, q) := ScheduleBatch now q in
                log_dispatched id batch
                  (set_threads (BAdvance tried num_queues id queue_closed batch :: rest) true
                    (set_queues (set_queue id q (ss_queues s)) (ss_next s) s))
            end)
  | BAdvance tried num_queues id queue_closed batch =>
      Some (match find_queue id (ss_queues s) with
            | None => set_threads (BIdle :: rest) false (misuse s)
            | Some (_, q) =>
                let '(queues, next) := advance queue_closed batch q (ss_queues s) (ss_next s) in
                let '(t, locked) := next_point (S tried) num_queues id batch in
                set_threads (t :: rest) locked (set_queues queues next s)
            end)
  | BCall id batch =>
      Some (match find_queue id (ss_queues s) with
            | None => set_threads (BIdle :: rest) (ss_locked s) (misuse s)
            | Some _ => log_processed id batch
                          (set_threads (BFinish id batch :: rest) (ss_locked s) s)
            end)
  | BFinish id batch =>
      Some (match find_queue id (ss_queues s) with
            | None => set_threads (BIdle :: rest) (ss_locked s) (misuse s)
            | Some (_, q) =>
                set_threads (BIdle :: rest) (ss_locked s)
                  (set_queues (set_queue id (ProcessBatch_end q) (ss_queues s)) (ss_next s) s)
            end)
  end.

(** A step: a call of a client, who uses a handle only while it has it, or a
    batch thread that runs. *)
Inductive SLabel :=
  | LAddQueue (options : QueueOptions)
  | LSchedule (id : nat) (now now' : Z) (task : Task)
  | LClose (id : nat)
  | LRunB (k : nat) (now : Z).

Definition sstep (l : SLabel) s : option Scheduler :=
  match l with
  | LAddQueue options => if ss_locked s then None else Some (AddQueue options s).2
  | LSchedule id now now' task =>
      if decide (id ∈ ss_handles s) then Some (Handle_Schedule id now now' task s).2 else None
  | LClose id => if decide (id ∈ ss_handles s) then Some (Handle_Close id s) else None
  | LRunB k now =>
      match ss_threads s !! k with
      | None => None
      | Some t => run_bthread now t (delete k (ss_threads s)) s
      end
  end.

(** The options have the widths of their C++ types. *)
Definition slabel_wf (l : SLabel) : Prop :=
  match l with
  | LAddQueue o => (max_batch_size o < 2 ^ 31 ∧ batch_timeout_micros o < 2 ^ 63 ∧
                    max_enqueued_batches o < 2 ^ 31)%Z
  | _ => True
  end.

Inductive sreachable (s0 : Scheduler) : Scheduler → Prop :=
  | sreachable_init : sreachable s0 s0
  | sreachable_snoc l s s' : sreachable s0 s → slabel_wf l → sstep l s = Some s' → sreachable s0 s'.
End scheduler.
Arguments Scheduler : clear implicits.
Arguments BThread : clear implicits.
Arguments SLabel : clear implicits.

(** * The invariant of the scheduler *)

Section scheduler_invariant.
Context {Task : Type} (task_size : Task → Z) (Hsize : ∀ t, is_u64 (task_size t)).
Implicit Types (s : Scheduler Task) (t : BThread Task) (q : Queue Task)
  (tl rest : list (BThread Task)).

(** The items of a log that belong to a queue. *)
Definition select {X} (id : nat) (l : list (nat * X)) : list X := snd <$> filter (λ e, e.1 = id) l.

(** The thread holds the scheduler's mutex. *)
Definition in_loop t : bool :=
  match t with BCheck _ _ | BTry _ _ _ _ | BAdvance _ _ _ _ _ => true | _ => false end.

(** The queue of the batch a thread has taken and not finished. *)
Definition work t : option nat :=
  match t with
  | BAdvance _ _ id _ (Some _) | BCall id _ | BFinish id _ => Some id
  | _ => None
  end.

(** The batch a thread has taken and not yet handed to the callback. *)
Definition in_hand t : option (nat * Batch Task) :=
  match t with
  | BAdvance _ _ id _ (Some b) | BCall id b => Some (id, b)
  | _ => None
  end.

Definition workers (id : nat) (ts : list (BThread Task)) : nat :=
  length (filter (λ t, work t = Some id) ts).

(** The notification of [CloseAndWaitUntilEmpty] is given once, when the closed
    queue is empty. *)
Definition notified_inv q : Prop :=
  if q_closed q then
    if IsEmptyInternal q then q_notified q = 1
    else q_notified q = 0 ∧ q_empty_notification q = true
  else q_notified q = 0 ∧ q_empty_notification q = false.

Record queue_inv s (ts : list (BThread Task)) (id : nat) q : Prop := {
  qi_ok : queue_ok task_size q;
  qi_options : ss_options s !! id = Some (q_options q);
  qi_count : q_num_batches_being_processed q = Z.of_nat (workers id ts);
  qi_handle : q_closed q = bool_decide (id ∉ ss_handles s);
  qi_notified : notified_inv q;
  qi_tasks : select id (ss_accepted s) = (select id (ss_dispatched s) ≫= b_tasks) ++ enqueued q }.

Definition thread_inv s t : Prop :=
  match t with
  | BIdle => True
  | BCheck tried num_queues => tried < num_queues ≤ tried + length (ss_queues s)
  | BTry tried num_queues id c | BAdvance tried num_queues id c _ =>
      tried < num_queues ≤ tried + length (ss_queues s) ∧
      ∃ q, ss_queues s !! ss_next s = Some (id, q) ∧ (c = true → q_closed q = true)
  | BCall id _ | BFinish id _ => id ∈ (ss_queues s).*1
  end.

Record sinv (ts : list (BThread Task)) s : Prop := {
  si_ids : NoDup (ss_queues s).*1;
  si_created id : id ∈ (ss_queues s).*1 → id < ss_num_created s;
  si_handles id : id ∈ ss_handles s → id ∈ (ss_queues s).*1;
  si_queues id q : (id, q) ∈ ss_queues s → queue_inv s ts id q;
  si_gone id : id ∉ (ss_queues s).*1 →
    select id (ss_accepted s) = select id (ss_dispatched s) ≫= b_tasks;
  si_fresh id : ss_num_created s ≤ id →
    select id (ss_accepted s) = [] ∧ select id (ss_dispatched s) = [] ∧ workers id ts = 0;
  si_next : ss_next s < length (ss_queues s) ∨ ss_queues s = [] ∧ ss_next s = 0;
  si_lock : length (filter (λ t, in_loop t = true) ts) = if ss_locked s then 1 else 0;
  si_threads t : t ∈ ts → thread_inv s t;
  si_dispatched id b : (id, b) ∈ ss_dispatched s →
    ∃ o, ss_options s !! id = Some o ∧ closed_ok task_size (max_batch_size o) b;
  si_processed : ss_processed s ++ omap in_hand ts ≡ₚ ss_dispatched s;
  si_misused : ss_misused s = false }.

Lemma sinv_perm ts ts' s : ts ≡ₚ ts' → sinv ts s → sinv ts' s.
Proof.
  intros Hp []. assert (∀ id, workers id ts' = workers id ts) as Hw
    by (intros id; unfold workers; by rewrite Hp).
  split; try done.
  - intros id q Hq. destruct (si_queues0 id q Hq). split; try done. by rewrite Hw.
  - intros id Hid. rewrite Hw. auto.
  - by rewrite <-Hp.
  - intros t. rewrite <-Hp. auto.
  - by rewrite <-Hp.
Qed.

(** ** Queues by name *)

Lemma select_app {X} id (l l' : list (nat * X)) : select id (l ++ l') = select id l ++ select id l'.
Proof. unfold select. by rewrite filter_app, fmap_app. Qed.

Lemma select_one {X} id id' (x : X) :
  select id [(id', x)] = if decide (id' = id) then [x] else [].
Proof. unfold select. rewrite filter_cons. simpl. by case_decide. Qed.

Lemma find_queue_Some id (queues : list (nat * Queue Task)) k q :
  find_queue id queues = Some (k, q) → queues !! k = Some (id, q).
Proof.
  unfold find_queue. destruct (list_find _ _) as [[i [id' q']]|] eqn:E; [|done].
  intros [= <- <-]. apply list_find_Some in E as (Hi&Hid&_). simpl in Hid. by subst.
Qed.

Lemma find_queue_found id (queues : list (nat * Queue Task)) :
  id ∈ queues.*1 → ∃ k q, find_queue id queues = Some (k, q) ∧ queues !! k = Some (id, q).
Proof.
  intros ([id' q]&Hid&Hin)%list_elem_of_fmap. simpl in Hid. subst id'.
  destruct (find_queue id queues) as [[k q']|] eqn:E.
  - exists k, q'. split; [done|]. by apply find_queue_Some.
  - unfold find_queue in E. apply fmap_None, list_find_None in E. rewrite Forall_forall in E.
    by destruct (E _ Hin).
Qed.

Lemma set_queue_ids id q (queues : list (nat * Queue Task)) : (set_queue id q queues).*1 = queues.*1.
Proof.
  unfold set_queue. rewrite <-list_fmap_compose. apply list_fmap_ext. intros ? e _. simpl.
  by case_decide.
Qed.

Lemma set_queue_length id q (queues : list (nat * Queue Task)) :
  length (set_queue id q queues) = length queues.
Proof. apply length_fmap. Qed.

Lemma set_queue_lookup id q (queues : list (nat * Queue Task)) k id' q' :
  queues !! k = Some (id', q') →
  set_queue id q queues !! k = Some (id', if decide (id' = id) then q else q').
Proof. intros E. unfold set_queue. rewrite list_lookup_fmap, E. simpl. by case_decide; subst. Qed.

Lemma elem_of_set_queue id q (queues : list (nat * Queue Task)) id' q' :
  (id', q') ∈ set_queue id q queues →
  id' = id ∧ q' = q ∧ id ∈ queues.*1 ∨ id' ≠ id ∧ (id', q') ∈ queues.
Proof.
  intros ([i r]&E&Hin)%list_elem_of_fmap. simpl in E. case_decide as Hd; simplify_eq; [left|by right].
  split_and!; try done. apply list_elem_of_fmap. by exists (id, r).
Qed.

Lemma ids_unique (queues : list (nat * Queue Task)) k k' id q q' :
  NoDup queues.*1 → queues !! k = Some (id, q) → queues !! k' = Some (id, q') → k = k' ∧ q = q'.
Proof.
  intros Hnd Hk Hk'. assert (k = k') as <-; [|by simplify_eq].
  eapply (NoDup_lookup queues.*1); [done| |]; rewrite list_lookup_fmap; [by rewrite Hk|by rewrite Hk'].
Qed.

(** ** One queue changes *)

(** The parts of the state that the change of one queue may touch: the queue
    [id], its entries in the logs and its handle. *)
Record one_queue (id : nat) s s' (ts ts' : list (BThread Task)) : Prop := {
  oq_next : ss_next s' = ss_next s;
  oq_created : ss_num_created s' = ss_num_created s;
  oq_options : ss_options s' = ss_options s;
  oq_handles id' : id' ≠ id → id' ∈ ss_handles s' ↔ id' ∈ ss_handles s;
  oq_live : ss_handles s' ⊆ ss_handles s;
  oq_accepted id' : id' ≠ id → select id' (ss_accepted s') = select id' (ss_accepted s);
  oq_dispatched id' : id' ≠ id → select id' (ss_dispatched s') = select id' (ss_dispatched s);
  oq_workers id' : id' ≠ id → workers id' ts' = workers id' ts }.

Lemma one_queue_inv id q' s s' ts ts' :
  sinv ts s → one_queue id s s' ts ts' → ss_queues s' = set_queue id q' (ss_queues s) →
  id ∈ (ss_queues s).*1 → queue_inv s' ts' id q' →
  length (filter (λ t, in_loop t = true) ts') = (if ss_locked s' then 1 else 0) →
  (∀ t, t ∈ ts' → thread_inv s' t) →
  (∀ i b, (i, b) ∈ ss_dispatched s' →
     ∃ o, ss_options s' !! i = Some o ∧ closed_ok task_size (max_batch_size o) b) →
  ss_processed s' ++ omap in_hand ts' ≡ₚ ss_dispatched s' → ss_misused s' = false →
  sinv ts' s'.
Proof.
  intros [] [] Hq Hid Hqi Hl Ht Hd Hp Hm.
  assert ((ss_queues s').*1 = (ss_queues s).*1) as Hids by (by rewrite Hq, set_queue_ids).
  split; try done.
  - by rewrite Hids.
  - intros i. rewrite Hids, oq_created0. auto.
  - intros i Hi. rewrite Hids. apply si_handles0. by apply oq_live0.
  - intros i r. rewrite Hq. intros [(->&->&_)|[Hne Hin]]%elem_of_set_queue; [done|].
    destruct (si_queues0 i r Hin). split; try done.
    + by rewrite oq_options0.
    + by rewrite oq_workers0.
    + rewrite qi_handle0. apply bool_decide_ext. by rewrite oq_handles0.
    + by rewrite oq_accepted0, oq_dispatched0.
  - intros i. rewrite Hids. intros Hni. rewrite oq_accepted0, oq_dispatched0; [auto|..]; congruence.
  - intros i. rewrite oq_created0. intros Hi. assert (i ≠ id).
    { intros ->. apply si_created0 in Hid. lia. }
    rewrite oq_accepted0, oq_dispatched0, oq_workers0 by done. auto.
  - rewrite oq_next0, Hq, set_queue_length. destruct si_next0 as [?|[E ?]]; [by left|].
    rewrite E in Hid. by apply not_elem_of_nil in Hid.
Qed.

(** A thread's facts after the change of a queue that keeps what was closed. *)
Lemma thread_inv_set_queue id q q' s s' t :
  NoDup (ss_queues s).*1 → (id, q) ∈ ss_queues s → ss_queues s' = set_queue id q' (ss_queues s) →
  ss_next s' = ss_next s → (q_closed q = true → q_closed q' = true) →
  thread_inv s t → thread_inv s' t.
Proof.
  intros Hnd Hin Hq Hn Hc. unfold thread_inv. rewrite Hq, set_queue_length, set_queue_ids, Hn.
  apply list_elem_of_lookup in Hin as [k0 Hk0].
  assert (∀ i c, (∃ r, ss_queues s !! ss_next s = Some (i, r) ∧ (c = true → q_closed r = true)) →
    ∃ r, set_queue id q' (ss_queues s) !! ss_next s = Some (i, r) ∧ (c = true → q_closed r = true)) as Hx.
  { intros i c (r&Hr&Hcr). rewrite (set_queue_lookup _ _ _ _ _ _ Hr). eexists. split; [done|].
    intros ->. case_decide as Hd; [|auto]. subst i.
    destruct (ids_unique _ _ _ _ _ _ Hnd Hk0 Hr) as [_ ->]. auto. }
  destruct t; try done; intros [? ?]; auto.
Qed.
Lemma workers_cons id t ts :
  workers id (t :: ts) = (if decide (work t = Some id) then 1 else 0) + workers id ts.
Proof. unfold workers. rewrite filter_cons. by case_decide. Qed.

Lemma workers_zero id ts u : workers id ts = 0 → u ∈ ts → work u ≠ Some id.
Proof.
  intros E%nil_length_inv Hu Hw. assert (u ∈ filter (λ t, work t = Some id) ts) as Hf
    by (by apply list_elem_of_filter). rewrite E in Hf. by apply not_elem_of_nil in Hf.
Qed.

Lemma loop_cons t ts :
  length (filter (λ t, in_loop t = true) (t :: ts)) =
  (if in_loop t then 1 else 0) + length (filter (λ t, in_loop t = true) ts).
Proof. rewrite filter_cons. by destruct (in_loop t). Qed.

(** The queue of a handle, or of a thread. *)
Lemma found ts s id :
  sinv ts s → id ∈ (ss_queues s).*1 →
  ∃ k q, find_queue id (ss_queues s) = Some (k, q) ∧ (id, q) ∈ ss_queues s ∧ queue_inv s ts id q.
Proof.
  intros Hs Hid. destruct (find_queue_found id _ Hid) as (k&q&E&Hk). exists k, q.
  pose proof (list_elem_of_lookup_2 _ _ _ Hk). split_and!; try done. by apply Hs.
Qed.

Lemma IsEmptyInternal_eq q q' :
  q_num_batches_being_processed q' = q_num_batches_being_processed q →
  q_batches q' = q_batches q → IsEmptyInternal q' = IsEmptyInternal q.
Proof. intros E1 E2. unfold IsEmptyInternal, back. by rewrite E1, E2. Qed.

Lemma schedule_step_inv ts s id now now' task :
  sinv ts s → id ∈ ss_handles s → sinv ts (Handle_Schedule task_size id now now' task s).2.
Proof.
  intros Hs Hh. pose proof (si_handles _ _ Hs id Hh) as Hid.
  destruct (found ts s id Hs Hid) as (k&q&E&Hin&[Hok Hopt Hcount Hhandle Hnot Htasks]).
  unfold Handle_Schedule. rewrite E. pose proof (Schedule_ok task_size Hsize now now' task q Hok) as Hsch.
  destruct (Schedule _ _ _ _ _) as [[st n] q'].
  destruct Hsch as (Hok'&(Ho&Hc&Hn&He&Hnn)&Hst). simpl.
  assert (q_closed q = false) as Hopen by (rewrite Hhandle; by apply bool_decide_eq_false_2; intros ?).
  eapply (one_queue_inv id q' s _ ts ts); try done; try apply Hs.
  - split; try done; simpl. intros id' Hne. rewrite select_app. destruct (ok st); simpl.
    + rewrite select_one, decide_False by done. apply app_nil_r.
    + apply app_nil_r.
  - split; simpl; try done.
    + congruence.
    + congruence.
    + congruence.
    + unfold notified_inv in *. rewrite Hc, Hopen in *. destruct Hnot. split; congruence.
    + rewrite select_app, Htasks, <-app_assoc. f_equal. destruct st; simpl in *; subst.
      * rewrite select_one, decide_True by done. by rewrite Hst.
      * apply app_nil_r.
  - intros t Ht. eapply (thread_inv_set_queue id q q' s); try done; [apply Hs| |by apply Hs].
    by rewrite Hc.
Qed.

Lemma close_step_inv ts s id :
  sinv ts s → id ∈ ss_handles s → sinv ts (Handle_Close id s).
Proof.
  intros Hs Hh. pose proof (si_handles _ _ Hs id Hh) as Hid.
  destruct (found ts s id Hs Hid) as (k&q&E&Hin&[Hok Hopt Hcount Hhandle Hnot Htasks]).
  unfold Handle_Close. rewrite E.
  assert (q_closed q = false) as Hopen by (rewrite Hhandle; by apply bool_decide_eq_false_2; intros ?).
  set (q' := CloseAndWaitUntilEmpty_begin q).
  assert (q_options q' = q_options q ∧ q_batches q' = q_batches q ∧
    q_num_batches_being_processed q' = q_num_batches_being_processed q ∧ q_closed q' = true)
    as (Ho&Hb&Hn&Hc) by (unfold q', CloseAndWaitUntilEmpty_begin; by case_match).
  eapply (one_queue_inv id q' s _ ts ts); try done; try apply Hs.
  - split; try done; simpl; [|set_solver]. intros id' Hne. set_solver.
  - split; simpl.
    + destruct Hok. split; by rewrite ?Ho, ?Hb.
    + by rewrite Ho.
    + by rewrite Hn.
    + rewrite Hc. symmetry. apply bool_decide_eq_true_2. set_solver.
    + unfold notified_inv in *. rewrite Hopen in Hnot. destruct Hnot as [Hn0 _].
      rewrite Hc, (IsEmptyInternal_eq q q') by done. unfold q', CloseAndWaitUntilEmpty_begin.
      change (IsEmptyInternal (mkQueue _ true _ _ _ _ _ _)) with (IsEmptyInternal q).
      destruct (IsEmptyInternal q); simpl; [by rewrite Hn0|done].
    + unfold enqueued. by rewrite Hb.
  - intros t Ht. by eapply (thread_inv_set_queue id q q' s); try done; apply Hs.
Qed.

Lemma ValidateOptions_ok o :
  slabel_wf (LAddQueue (Task:=Task) o) → ok (ValidateOptions o) = true → options_ok o.
Proof.
  unfold ValidateOptions. simpl. intros (?&?&?).
  destruct (Z.leb_spec (max_batch_size o) 0); [done|].
  destruct (Z.ltb_spec (batch_timeout_micros o) 0); [done|].
  destruct (Z.ltb_spec (max_enqueued_batches o) 0); [done|]. intros _. split; lia.
Qed.

Lemma add_queue_inv ts s o :
  sinv ts s → slabel_wf (LAddQueue (Task:=Task) o) → ss_locked s = false → sinv ts (AddQueue o s).2.
Proof.
  intros Hs Hwf Hlock. unfold AddQueue. destruct (ok (ValidateOptions o)) eqn:Ev; [|done]. simpl.
  pose proof (ValidateOptions_ok o Hwf Ev) as Ho. destruct Hs.
  set (id := ss_num_created s) in *. destruct (si_fresh0 id ltac:(done)) as (Ha&Hd&Hw).
  assert (id ∉ (ss_queues s).*1) as Hnew by (intros ?%si_created0; lia).
  split; simpl; try done.
  - rewrite fmap_app. apply NoDup_app. split_and!; [done| |apply NoDup_singleton].
    simpl. intros i Hi ->%list_elem_of_singleton. done.
  - intros i. rewrite fmap_app, elem_of_app. simpl.
    intros [?%si_created0| ->%list_elem_of_singleton]; lia.
  - intros i. rewrite fmap_app, elem_of_app. simpl. intros [->%elem_of_singleton|Hi]%elem_of_union.
    + right. apply list_elem_of_singleton. done.
    + left. auto.
  - intros i q [Hin|[= -> ->]%list_elem_of_singleton]%elem_of_app.
    + assert (i ≠ id) as Hne by (intros ->; apply Hnew, list_elem_of_fmap; by exists (id, q)).
      destruct (si_queues0 i q Hin). split; simpl; try done.
      * by rewrite lookup_insert_ne.
      * rewrite qi_handle0. apply bool_decide_ext. set_solver.
    + split; simpl.
      * by apply newQueue_ok.
      * by rewrite lookup_insert_eq.
      * by rewrite Hw.
      * symmetry. apply bool_decide_eq_false_2. set_solver.
      * done.
      * by rewrite Ha, Hd.
  - intros i. rewrite fmap_app, not_elem_of_app. intros [Hi _]. auto.
  - intros i Hi. apply si_fresh0. lia.
  - left. rewrite length_app. simpl. destruct (Nat.eqb_spec (ss_next s) (length (ss_queues s))); [lia|].
    destruct si_next0 as [?|[E ?]]; [lia|]. rewrite E in n. simpl in n. lia.
  - intros t Ht. pose proof (si_threads0 t Ht) as Hti.
    assert (in_loop t = false) as Hnl.
    { destruct (in_loop t) eqn:El; [|done]. exfalso. rewrite Hlock in si_lock0.
      assert (t ∈ filter (λ t, in_loop t = true) ts) as Hf by (by apply list_elem_of_filter).
      destruct (filter _ ts); [by apply not_elem_of_nil in Hf|done]. }
    destruct t; try done; simpl in *; rewrite fmap_app, elem_of_app; auto.
  - intros i b Hib. destruct (si_dispatched0 i b Hib) as (o'&Ho'&Hc). exists o'. split; [|done].
    rewrite lookup_insert_ne; [done|]. intros <-.
    assert (b ∈ select id (ss_dispatched s)) as Hb.
    { apply list_elem_of_fmap. exists (id, b). split; [done|]. by apply list_elem_of_filter. }
    rewrite Hd in Hb. by apply not_elem_of_nil in Hb.
Qed.
(** ** Steps of the batch threads *)

(** A thread moves, and perhaps takes or releases the mutex. *)
Lemma move_inv t t' rest tl s (locked : bool) :
  sinv (t :: rest) s → work t' = work t → in_hand t' = in_hand t → thread_inv s t' →
  length (filter (λ t, in_loop t = true) (t' :: rest)) = (if locked then 1 else 0) →
  sinv (t' :: rest) (set_threads tl locked s).
Proof.
  intros [] Hw Hh Ht Hl. assert (∀ id, workers id (t' :: rest) = workers id (t :: rest)) as Hws
    by (intros id; by rewrite !workers_cons, Hw).
  split; try done.
  - intros id q Hq. destruct (si_queues0 id q Hq). split; try done. by rewrite Hws.
  - intros id Hid. rewrite Hws. by apply si_fresh0.
  - intros u [->|Hu]%elem_of_cons; [done|]. apply (si_threads0 u). by right.
  - simpl in *. by rewrite Hh.
Qed.

Lemma loop_rest t rest s :
  sinv (t :: rest) s →
  length (filter (λ t, in_loop t = true) rest) =
    (if ss_locked s then 1 else 0) - (if in_loop t then 1 else 0) ∧
  (in_loop t = true → ss_locked s = true ∧ ∀ u, u ∈ rest → in_loop u = false).
Proof.
  intros Hs. pose proof (si_lock _ _ Hs) as Hl. rewrite loop_cons in Hl.
  split; [destruct (in_loop t), (ss_locked s); lia|]. intros Hlt. rewrite Hlt in Hl.
  destruct (ss_locked s); [|lia]. split; [done|]. intros u Hu. apply not_true_iff_false. intros Hin.
  assert (u ∈ filter (λ t, in_loop t = true) rest) as Hf by (by apply list_elem_of_filter).
  destruct (filter _ rest); [by apply not_elem_of_nil in Hf|simpl in Hl; lia].
Qed.

Lemma idle_step_inv rest s tl :
  sinv (BIdle :: rest) s → ss_locked s = false →
  let '(t, locked) := next_point (Task:=Task) 0 (length (ss_queues s)) 0 None in
  sinv (t :: rest) (set_threads tl locked s).
Proof.
  intros Hs Hlock. destruct (loop_rest _ _ _ Hs) as [Hr _]. rewrite Hlock in Hr. simpl in Hr.
  unfold next_point. destruct (Nat.ltb_spec 0 (length (ss_queues s))).
  - eapply move_inv; [exact Hs|done|done|simpl; lia|]. by rewrite loop_cons, Hr.
  - eapply move_inv; [exact Hs|done|done|done|]. by rewrite loop_cons, Hr.
Qed.

Lemma check_step_inv tried n rest s tl :
  sinv (BCheck tried n :: rest) s →
  ∃ id q, ss_queues s !! ss_next s = Some (id, q) ∧
    sinv (BTry tried n id (q_closed q) :: rest) (set_threads tl true s).
Proof.
  intros Hs. destruct (loop_rest _ _ _ Hs) as [Hr Hl]. destruct (Hl eq_refl) as [Hlock _].
  rewrite Hlock in Hr. simpl in Hr.
  pose proof (si_threads _ _ Hs (BCheck tried n) ltac:(left)) as Ht. simpl in Ht.
  assert (ss_next s < length (ss_queues s)) as Hn.
  { destruct (si_next _ _ Hs) as [?|[E ?]]; [done|]. rewrite E in Ht. simpl in Ht. lia. }
  apply lookup_lt_is_Some in Hn as [[id q] Hq]. exists id, q. split; [done|].
  eapply move_inv; [exact Hs|done|done|by split; [|eauto]|]. by rewrite loop_cons, Hr.
Qed.

(** An empty queue has nothing enqueued. *)
Lemma IsEmptyInternal_spec q :
  queue_ok task_size q →
  IsEmptyInternal q = true ↔ q_num_batches_being_processed q = 0%Z ∧ enqueued q = [].
Proof.
  intros [_ (cs&o&E&Hcs&_) _]. unfold IsEmptyInternal.
  rewrite (back_app _ _ _ E), (enqueued_app _ _ _ E), E, length_app. unfold b_empty.
  rewrite !andb_true_iff, Z.eqb_eq, Nat.eqb_eq, bool_decide_eq_true. simpl. split.
  - intros [[? Hl] ->]. assert (cs = []) as -> by (destruct cs; [done|simpl in Hl; lia]). done.
  - intros [? [Hb Ho]%app_nil]. split_and!; try done.
    destruct cs as [|b cs]; [done|]. simpl in Hb. apply app_nil in Hb as [Hb _].
    inversion Hcs as [|? ? (_&_&?) _]. done.
Qed.

(** Taking a batch from a closed queue leaves the closer waiting. *)
Lemma ScheduleBatch_notified now q :
  queue_ok task_size q → (0 ≤ q_num_batches_being_processed q)%Z → notified_inv q →
  notified_inv (ScheduleBatch now q).2.
Proof.
  intros Hok Hn Hnot. pose proof (ScheduleBatch_ok task_size now q Hok) as Hb.
  destruct (ScheduleBatch now q) as [batch q']. destruct Hb as (Hok'&_&Hc&He&Hnn&Hb). simpl.
  unfold notified_inv in *. rewrite Hc, He, Hnn. destruct (q_closed q); [|done].
  destruct batch as [b|]; [|destruct Hb as (Hb1&Hb2&_); by rewrite (IsEmptyInternal_eq q q')].
  destruct Hb as ((_&_&Hne)&Henq&Hnum).
  assert (IsEmptyInternal q = false) as E.
  { apply not_true_iff_false. rewrite IsEmptyInternal_spec by done. intros [_ E].
    rewrite E in Henq. symmetry in Henq. by apply app_nil in Henq as [? _]. }
  rewrite E in Hnot. assert (IsEmptyInternal q' = false) as ->; [|done].
  apply not_true_iff_false. rewrite IsEmptyInternal_spec by done. lia.
Qed.

Lemma try_step_inv now tried n id c rest s tl :
  sinv (BTry tried n id c :: rest) s →
  ∃ k q, find_queue id (ss_queues s) = Some (k, q) ∧
    let '(batch, q') := ScheduleBatch now q in
    sinv (BAdvance tried n id c batch :: rest)
      (log_dispatched id batch (set_threads tl true
        (set_queues (set_queue id q' (ss_queues s)) (ss_next s) s))).
Proof.
  intros Hs. destruct (loop_rest _ _ _ Hs) as [Hr Hl]. destruct (Hl eq_refl) as [Hlock _].
  rewrite Hlock in Hr. simpl in Hr.
  destruct (si_threads _ _ Hs (BTry tried n id c) ltac:(left)) as (Hn&q0&Hq0&Hc0).
  assert (id ∈ (ss_queues s).*1) as Hid.
  { apply list_elem_of_fmap. exists (id, q0). split; [done|]. by eapply list_elem_of_lookup_2. }
  destruct (found _ s id Hs Hid) as (k&q&E&Hin&[Hok Hopt Hcount Hhandle Hnot Htasks]).
  exists k, q. split; [done|].
  pose proof (ScheduleBatch_ok task_size now q Hok) as Hb.
  destruct (ScheduleBatch now q) as [batch q'] eqn:Eb.
  destruct Hb as (Hok'&Ho&Hc&_&_&Hb).
  eapply (one_queue_inv id q' s _ (BTry tried n id c :: rest)); try done; try apply Hs.
  - split; try done; simpl.
    + intros i Hne. rewrite select_app. destruct batch; [|by rewrite app_nil_r].
      rewrite select_one, decide_False by done. apply app_nil_r.
    + intros i Hne. rewrite !workers_cons. destruct batch; simpl; [|done].
      by rewrite decide_False by congruence.
  - split; simpl; try done; try congruence.
    + rewrite workers_cons in Hcount |- *. destruct batch; simpl in *.
      * rewrite decide_True by done. destruct Hb as (_&_&->). lia.
      * destruct Hb as (_&->&_). done.
    + pose proof (ScheduleBatch_notified now q Hok ltac:(lia) Hnot) as Hn'. by rewrite Eb in Hn'.
    + rewrite select_app, Htasks. destruct batch; simpl.
      * rewrite select_one, decide_True by done. destruct Hb as (_&->&_).
        rewrite bind_app. simpl. by rewrite app_nil_r, <-app_assoc.
      * rewrite app_nil_r. unfold enqueued. by destruct Hb as (->&_).
  - by rewrite loop_cons, Hr.
  - intros u Hu. assert (thread_inv s u) as Hti.
    { apply elem_of_cons in Hu as [->|Hu]; [by split; [|eauto]|]. apply (si_threads _ _ Hs). by right. }
    eapply (thread_inv_set_queue id q q' s); try done; [apply Hs|]. by rewrite Hc.
  - simpl. intros i b [Hi|Hi]%elem_of_app; [by apply (si_dispatched _ _ Hs)|].
    destruct batch; [|by apply not_elem_of_nil in Hi]. apply list_elem_of_singleton in Hi as [= -> ->].
    exists (q_options q). split; [done|]. by destruct Hb.
  - simpl. pose proof (si_processed _ _ Hs) as Hp. simpl in Hp. destruct batch; simpl.
    + rewrite <-Hp. rewrite <-app_assoc. f_equiv. apply Permutation_cons_append.
    + by rewrite app_nil_r.
Qed.
(** The queue the iterator points to is dropped. *)
Lemma drop_step_inv tried n id k q rest s tl t' :
  sinv (BAdvance tried n id true None :: rest) s →
  ss_queues s !! ss_next s = Some (id, q) → q_closed q = true → IsEmptyInternal q = true →
  k = ss_next s → work t' = None → in_hand t' = None → in_loop t' = bool_decide (S tried < n) →
  (∀ s', length (ss_queues s) = S (length (ss_queues s')) → thread_inv s' t') →
  sinv (t' :: rest) (set_threads tl (bool_decide (S tried < n))
    (set_queues (delete k (ss_queues s)) (if (k =? length (delete k (ss_queues s)))%nat then 0 else k) s)).
Proof.
  intros Hs Hq Hc He -> Hw Hh Hl' Ht'. destruct (loop_rest _ _ _ Hs) as [Hr Hl].
  destruct (Hl eq_refl) as [Hlock Hno]. rewrite Hlock in Hr. simpl in Hr.
  pose proof (delete_Permutation _ _ _ Hq) as Hp.
  assert ((ss_queues s).*1 ≡ₚ id :: (delete (ss_next s) (ss_queues s)).*1) as Hp1.
  { rewrite Hp at 1. done. }
  pose proof (si_queues _ _ Hs id q (list_elem_of_lookup_2 _ _ _ Hq)) as [Hok _ Hcount Hhandle _ Htasks].
  apply IsEmptyInternal_spec in He as [Hn0 Henq]; [|done]. rewrite Hc in Hhandle.
  symmetry in Hhandle. apply bool_decide_eq_true in Hhandle.
  assert (∀ u, u ∈ rest → work u ≠ Some id) as Hnw.
  { intros u Hu. apply (workers_zero id (BAdvance tried n id true None :: rest)); [lia|by right]. }
  assert (∀ i, workers i (t' :: rest) = workers i (BAdvance tried n id true None :: rest)) as Hws.
  { intros i. rewrite !workers_cons, Hw. done. }
  pose proof (si_ids _ _ Hs) as Hnd. rewrite Hp1 in Hnd. apply NoDup_cons in Hnd as [Hni Hnd].
  pose proof (lookup_lt_Some _ _ _ Hq) as Hlt.
  assert (length (ss_queues s) = S (length (delete (ss_next s) (ss_queues s)))) as Hlen.
  { rewrite length_delete by (by eexists). lia. }
  assert (∀ i, i ∈ (ss_queues s).*1 → i ≠ id → i ∈ (delete (ss_next s) (ss_queues s)).*1) as Hkeep.
  { intros i. rewrite Hp1. intros [?|?]%elem_of_cons; done. }
  destruct Hs. split; simpl; try done.
  - intros i Hi. apply si_created0. rewrite Hp1. by right.
  - intros i Hi. apply Hkeep; [auto|]. intros ->. done.
  - intros i r Hi. destruct (si_queues0 i r); [rewrite Hp; by right|]. split; simpl; try done.
    by rewrite Hws.
  - intros i Hi. destruct (decide (i = id)) as [->|Hne].
    + rewrite Htasks, Henq. apply app_nil_r.
    + apply si_gone0. intros Hx. by apply Hi, Hkeep.
  - intros i Hi. rewrite Hws. auto.
  - destruct (Nat.eqb_spec (ss_next s) (length (delete (ss_next s) (ss_queues s)))) as [E|E].
    + destruct (delete (ss_next s) (ss_queues s)); [by right|left; simpl; lia].
    + left. lia.
  - rewrite loop_cons, Hl', Hr. by case_bool_decide.
  - intros u [->|Hu]%elem_of_cons; [by apply Ht'|]. specialize (Hno u Hu).
    specialize (si_threads0 u ltac:(by right)). destruct u; try done; simpl in *;
      apply Hkeep; try done; intros ->; by apply (Hnw _ Hu).
  - by rewrite Hh.
Qed.

(** The iterator moves on. *)
Lemma pass_step_inv tried n id c batch q rest s tl t' locked next :
  sinv (BAdvance tried n id c batch :: rest) s →
  ss_queues s !! ss_next s = Some (id, q) →
  next = (if (S (ss_next s) =? length (ss_queues s))%nat then 0 else S (ss_next s)) →
  work t' = work (BAdvance tried n id c batch) →
  in_hand t' = in_hand (BAdvance tried n id c batch) → in_loop t' = locked →
  (∀ s', ss_queues s' = ss_queues s → thread_inv s' t') →
  sinv (t' :: rest) (set_threads tl locked (set_queues (ss_queues s) next s)).
Proof.
  intros Hs Hq -> Hw Hh Hl' Ht'. destruct (loop_rest _ _ _ Hs) as [Hr Hl].
  destruct (Hl eq_refl) as [Hlock Hno]. rewrite Hlock in Hr. simpl in Hr.
  assert (∀ i, workers i (t' :: rest) = workers i (BAdvance tried n id c batch :: rest)) as Hws.
  { intros i. by rewrite !workers_cons, Hw. }
  pose proof (lookup_lt_Some _ _ _ Hq) as Hlt.
  assert ((if (S (ss_next s) =? length (ss_queues s))%nat then 0 else S (ss_next s)) <
    length (ss_queues s)) as Hnext.
  { destruct (Nat.eqb_spec (S (ss_next s)) (length (ss_queues s))); lia. }
  destruct Hs. split; simpl; try done.
  - intros i r Hi. destruct (si_queues0 i r Hi). split; try done. by rewrite Hws.
  - intros i Hi. rewrite Hws. auto.
  - by left.
  - rewrite loop_cons, Hl', Hr. by destruct locked.
  - intros u [->|Hu]%elem_of_cons; [by apply Ht'|]. specialize (Hno u Hu).
    specialize (si_threads0 u ltac:(by right)). by destruct u.
  - simpl in Hh. by rewrite Hh.
Qed.

Lemma advance_step_inv tried n id c batch rest s tl :
  sinv (BAdvance tried n id c batch :: rest) s →
  ∃ k q, find_queue id (ss_queues s) = Some (k, q) ∧
    let '(queues, next) := advance c batch q (ss_queues s) (ss_next s) in
    let '(t', locked) := next_point (S tried) n id batch in
    sinv (t' :: rest) (set_threads tl locked (set_queues queues next s)).
Proof.
  intros Hs. destruct (si_threads _ _ Hs (BAdvance tried n id c batch) ltac:(left)) as (Hn&q&Hq&Hc).
  assert (id ∈ (ss_queues s).*1) as Hid.
  { apply list_elem_of_fmap. exists (id, q). split; [done|]. by eapply list_elem_of_lookup_2. }
  destruct (find_queue_found id _ Hid) as (k&q'&E&Hk). exists k, q'. split; [done|].
  destruct (ids_unique _ _ _ _ _ _ (si_ids _ _ Hs) Hq Hk) as [<- <-]. clear E Hk.
  assert (∀ t', next_point (Task:=Task) (S tried) n id None = (t', bool_decide (S tried < n)) →
    work t' = None ∧ in_hand t' = None ∧ in_loop t' = bool_decide (S tried < n)) as Hnone.
  { intros t'. unfold next_point. destruct (Nat.ltb_spec (S tried) n); case_bool_decide; try lia;
      by intros [= <-]. }
  unfold advance. destruct (c && IsEmptyInternal q && bool_decide (batch = None)) eqn:Eb.
  - bool_hyps. subst batch c. cbv beta iota.
    destruct (next_point (Task:=Task) (S tried) n id None) as [t' locked] eqn:Et.
    assert (locked = bool_decide (S tried < n)) as ->.
    { unfold next_point in Et. destruct (Nat.ltb_spec (S tried) n); case_bool_decide; try lia; by simplify_eq. }
    destruct (Hnone t' eq_refl) as (?&?&?).
    eapply drop_step_inv; try done; [by auto|]. intros s' Hlen.
    unfold next_point in Et. destruct (Nat.ltb_spec (S tried) n); simplify_eq; [simpl; lia|done].
  - destruct batch as [b|]; cbv beta iota.
    + eapply pass_step_inv; try done. intros s' E. simpl. by rewrite E.
    + unfold next_point. destruct (Nat.ltb_spec (S tried) n).
      * eapply pass_step_inv; try done. intros s' E. simpl. rewrite E. lia.
      * by eapply pass_step_inv.
Qed.

Lemma call_step_inv id b rest s tl :
  sinv (BCall id b :: rest) s →
  is_Some (find_queue id (ss_queues s)) ∧
  sinv (BFinish id b :: rest) (log_processed id b (set_threads tl (ss_locked s) s)).
Proof.
  intros Hs. pose proof (si_threads _ _ Hs (BCall id b) ltac:(left)) as Hid. simpl in Hid.
  split; [destruct (find_queue_found id _ Hid) as (k&q&->&_); by eexists|].
  assert (∀ i, workers i (BFinish id b :: rest) = workers i (BCall id b :: rest)) as Hws.
  { intros i. by rewrite !workers_cons. }
  destruct Hs. split; simpl; try done.
  - intros i r Hi. destruct (si_queues0 i r Hi). split; try done. by rewrite Hws.
  - intros i Hi. rewrite Hws. auto.
  - intros u [->|Hu]%elem_of_cons; [done|]. apply (si_threads0 u). by right.
  - rewrite <-si_processed0. simpl. by rewrite <-app_assoc.
Qed.

Lemma finish_step_inv id b rest s tl :
  sinv (BFinish id b :: rest) s →
  ∃ k q, find_queue id (ss_queues s) = Some (k, q) ∧
    sinv (BIdle :: rest) (set_threads tl (ss_locked s)
      (set_queues (set_queue id (ProcessBatch_end q) (ss_queues s)) (ss_next s) s)).
Proof.
  intros Hs. pose proof (si_threads _ _ Hs (BFinish id b) ltac:(left)) as Hid. simpl in Hid.
  destruct (found _ s id Hs Hid) as (k&q&E&Hin&[Hok Hopt Hcount Hhandle Hnot Htasks]).
  exists k, q. split; [done|]. set (q' := ProcessBatch_end q).
  assert (q_options q' = q_options q ∧ q_batches q' = q_batches q ∧ q_closed q' = q_closed q ∧
    q_empty_notification q' = q_empty_notification q ∧
    q_num_batches_being_processed q' = (q_num_batches_being_processed q - 1)%Z)
    as (Ho&Hb&Hc&He&Hn) by (unfold q', ProcessBatch_end; by case_match).
  assert (workers id (BFinish id b :: rest) = S (workers id rest)) as Hw
    by (by rewrite workers_cons, decide_True).
  assert (queue_ok task_size q') as Hok' by (destruct Hok; split; by rewrite ?Ho, ?Hb).
  eapply (one_queue_inv id q' s _ (BFinish id b :: rest)); try done; try apply Hs.
  - split; try done. intros i Hne. rewrite !workers_cons. cbn [work].
    by repeat case_decide; simplify_eq.
  - split; simpl; try done; try congruence.
    + rewrite workers_cons, Hn, Hcount, Hw. simpl. lia.
    + assert (IsEmptyInternal q = false) as Hne.
      { apply not_true_iff_false. rewrite IsEmptyInternal_spec by done. lia. }
      unfold notified_inv in *. rewrite Hc, He. rewrite Hne in Hnot.
      unfold q', ProcessBatch_end. cbn [q_empty_notification set_num_processed].
      destruct (q_closed q); destruct Hnot as [Hn0 Hen]; rewrite Hen; simpl; [|done].
      destruct (IsEmptyInternal (set_num_processed _ q)) eqn:Ee; simpl; [|by rewrite Ee].
      change (IsEmptyInternal (notify_empty ?x)) with (IsEmptyInternal x). by rewrite Ee, Hn0.
    + unfold enqueued. by rewrite Hb.
  - intros u Hu. assert (thread_inv s u) as Hti.
    { apply elem_of_cons in Hu as [->|Hu]; [done|]. apply (si_threads _ _ Hs). by right. }
    eapply (thread_inv_set_queue id q q' s); try done; [apply Hs|]. by rewrite Hc.
Qed.

Lemma run_bthread_inv now t rest s s' :
  sinv (t :: rest) s → run_bthread now t rest s = Some s' → sinv (ss_threads s') s'.
Proof.
  intros Hs Hrun. destruct t as [|tried n|tried n id c|tried n id c batch|id b|id b];
    cbn [run_bthread] in Hrun.
  - destruct (ss_locked s) eqn:Hl; [done|]. pose proof (λ tl, idle_step_inv rest s tl Hs Hl) as Hi.
    destruct (next_point _ _ _ _) as [t locked]. injection Hrun as <-. apply Hi.
  - destruct (check_step_inv tried n rest s [] Hs) as (id&q&Eq&_).
    rewrite Eq in Hrun. injection Hrun as <-.
    destruct (check_step_inv tried n rest s (BTry tried n id (q_closed q) :: rest) Hs)
      as (id'&q'&Eq'&Hi). by simplify_eq.
  - destruct (try_step_inv now tried n id c rest s [] Hs) as (k&q&Eq&_). rewrite Eq in Hrun.
    pose proof (λ tl, try_step_inv now tried n id c rest s tl Hs) as Hi.
    destruct (ScheduleBatch now q) as [batch q'] eqn:Eb. injection Hrun as <-.
    destruct (Hi (BAdvance tried n id c batch :: rest)) as (k'&r&Er&Hr). simplify_eq.
    by rewrite Eb in Hr.
  - destruct (advance_step_inv tried n id c batch rest s [] Hs) as (k&q&Eq&_). rewrite Eq in Hrun.
    pose proof (λ tl, advance_step_inv tried n id c batch rest s tl Hs) as Hi.
    destruct (advance c batch q _ _) as [queues next] eqn:Ea.
    destruct (next_point (S tried) n id batch) as [t' locked] eqn:Et. injection Hrun as <-.
    destruct (Hi (t' :: rest)) as (k'&r&Er&Hr). simplify_eq. by rewrite Ea in Hr.
  - destruct (call_step_inv id b rest s (BFinish id b :: rest) Hs) as [[[k q] Eq] Hi].
    rewrite Eq in Hrun. injection Hrun as <-. done.
  - destruct (finish_step_inv id b rest s (BIdle :: rest) Hs) as (k&q&Eq&Hi).
    rewrite Eq in Hrun. injection Hrun as <-. done.
Qed.

Lemma sstep_inv l s s' :
  sinv (ss_threads s) s → slabel_wf l → sstep task_size l s = Some s' → sinv (ss_threads s') s'.
Proof.
  intros Hs Hwf Hstep. destruct l; cbn [sstep] in Hstep.
  - destruct (ss_locked s) eqn:Hl; [done|]. injection Hstep as <-.
    assert (ss_threads (AddQueue options s).2 = ss_threads s) as ->
      by (unfold AddQueue; by case_match). by apply add_queue_inv.
  - case_decide; [|done]. injection Hstep as <-.
    assert (ss_threads (Handle_Schedule task_size id now now' task s).2 = ss_threads s) as ->
      by (unfold Handle_Schedule; repeat case_match; done). by apply schedule_step_inv.
  - case_decide; [|done]. injection Hstep as <-.
    assert (ss_threads (Handle_Close id s) = ss_threads s) as ->
      by (unfold Handle_Close; by repeat case_match). by apply close_step_inv.
  - destruct (ss_threads s !! k) as [t|] eqn:Ek; [|done]. eapply run_bthread_inv; [|exact Hstep].
    eapply sinv_perm; [by apply delete_Permutation|done].
Qed.
End scheduler_invariant.

(** * Theorems *)

Section batching_theorems.
Context {Task : Type} (task_size : Task → Z) (Hsize : ∀ t, is_u64 (task_size t)).
Implicit Types (s : Scheduler Task) (q : Queue Task).

(** The schedulers a program starts from. *)
Definition created (n : Z) s : Prop := Scheduler_Create n = (StatusOK, Some s).

Lemma created_inv n s : created n s → sinv task_size (ss_threads s) s.
Proof.
  unfold created, Scheduler_Create. destruct (n <? 1)%Z; [done|]. intros [= <-].
  assert (∀ (P : BThread Task → Prop) `{∀ t, Decision (P t)} k, ¬ P BIdle → filter P (replicate k BIdle) = []) as Hf.
  { intros P ? k HP. induction k as [|k IH]; [done|]. simpl. by rewrite filter_cons, decide_False. }
  split; simpl; try done.
  - constructor.
  - by intros id ?%not_elem_of_nil.
  - intros id q ?%not_elem_of_nil. done.
  - intros id _. split_and!; [done|done|]. unfold workers. by rewrite Hf.
  - by right.
  - by rewrite Hf.
  - intros t [-> _]%elem_of_replicate. done.
  - by intros id b ?%not_elem_of_nil.
  - clear. induction (Z.to_nat n); [done|]. done.
Qed.

Lemma sreachable_inv n s0 s :
  created n s0 → sreachable task_size s0 s → sinv task_size (ss_threads s) s.
Proof. intros Hc. induction 1; [by eapply created_inv|by eapply sstep_inv]. Qed.

(** C12: the invariants of the class comment of [Queue] hold in every reachable
    state: each queue has at most [max_enqueued_batches] batches (or one), the
    back-most batch is open and the others are closed, not empty, and within the
    maximum size; no queue is used after it has been dropped, no task is added to
    a closed batch and no batch is closed twice. *)
Theorem queue_invariants n s0 s :
  created n s0 → sreachable task_size s0 s →
  ss_misused s = false ∧ ∀ id q, (id, q) ∈ ss_queues s → queue_ok task_size q.
Proof.
  intros Hc Hs%(sreachable_inv n); [|done]. split; [apply Hs|]. intros id q Hq.
  apply (si_queues _ _ _ Hs id q Hq).
Qed.

(** C13: no task is lost, duplicated or reordered. The tasks that a queue accepted
    are, in order, those of the batches taken from it followed by those that
    still wait in it; the batches taken are exactly those handed to the callback
    and those a thread is about to hand over; and every batch handed to the
    callback is closed, not empty, and within the maximum size of its queue. *)
Theorem tasks_preserved n s0 s :
  created n s0 → sreachable task_size s0 s →
  (∀ id, select id (ss_accepted s) = (select id (ss_dispatched s) ≫= b_tasks) ++
     match find_queue id (ss_queues s) with Some (_, q) => enqueued q | None => [] end) ∧
  ss_processed s ++ omap in_hand (ss_threads s) ≡ₚ ss_dispatched s ∧
  ∀ id b, (id, b) ∈ ss_processed s →
    b_closed b = true ∧ b_tasks b ≠ [] ∧ b_died b = false ∧
    ∃ o, ss_options s !! id = Some o ∧ (total task_size (b_tasks b) ≤ max_batch_size o)%Z.
Proof.
  intros Hc Hs%(sreachable_inv n); [|done]. split_and!; [|apply Hs|].
  - intros id. destruct (find_queue id (ss_queues s)) as [[k q]|] eqn:E.
    + apply find_queue_Some, list_elem_of_lookup_2 in E. apply (si_queues _ _ _ Hs id q E).
    + rewrite app_nil_r. apply Hs. intros Hid. destruct (find_queue_found id _ Hid) as (?&?&?&_).
      congruence.
  - intros id b Hb. destruct (si_dispatched _ _ _ Hs id b) as (o&Ho&[[Hbs Hm Hd] [Hcl Hne]]).
    { rewrite <-(si_processed _ _ _ Hs). apply elem_of_app. by left. }
    split_and!; try done. eauto.
Qed.

Lemma select_perm {X} id (l l' : list (nat * X)) : l ≡ₚ l' → select id l ≡ₚ select id l'.
Proof. intros Hp. unfold select. by rewrite Hp. Qed.

Lemma select_in_hand id (ts : list (BThread Task)) :
  workers id ts = 0 → select id (omap in_hand ts) = [].
Proof.
  intros Hw. unfold select. induction ts as [|t ts IH]; simpl; [done|].
  rewrite workers_cons in Hw. destruct (decide (work t = Some id)); [done|].
  specialize (IH Hw). destruct (in_hand t) as [[i b]|] eqn:E; [|done].
  rewrite filter_cons, decide_False; [done|]. simpl. intros ->. destruct t as [| | |? ? ? ? []| |]; by simplify_eq/=.
Qed.

(** The destructor of a queue handle returns exactly when all tasks submitted
    to the queue have been processed. The notification it waits for is given at
    most once; it has been given if and only if nothing waits in the queue and no
    thread works on it, and then the tasks of the batches handed to the callback
    are all the tasks accepted. *)
Theorem handle_destructor_waits n s0 s id q :
  created n s0 → sreachable task_size s0 s → (id, q) ∈ ss_queues s → id ∉ ss_handles s →
  q_notified q ≤ 1 ∧
  (q_notified q = 1 ↔ enqueued q = [] ∧ workers id (ss_threads s) = 0) ∧
  (q_notified q = 1 → (select id (ss_processed s) ≫= b_tasks) ≡ₚ select id (ss_accepted s)).
Proof.
  intros Hc Hs%(sreachable_inv n) Hq Hh; [|done].
  destruct (si_queues _ _ _ Hs id q Hq) as [Hok _ Hcount Hhandle Hnot Htasks].
  assert (q_closed q = true) as Hcl by (rewrite Hhandle; by apply bool_decide_eq_true_2).
  assert (IsEmptyInternal q = true ↔ enqueued q = [] ∧ workers id (ss_threads s) = 0) as He.
  { rewrite (IsEmptyInternal_spec task_size) by done. rewrite Hcount. naive_solver lia. }
  assert (q_notified q = 1 ↔ IsEmptyInternal q = true) as Hn.
  { unfold notified_inv in Hnot. rewrite Hcl in Hnot. destruct (IsEmptyInternal q); [done|].
    destruct Hnot as [-> _]. done. }
  split_and!.
  - unfold notified_inv in Hnot. rewrite Hcl in Hnot. destruct (IsEmptyInternal q); lia.
  - by rewrite Hn.
  - rewrite Hn, He. intros [Henq Hw]. rewrite Htasks, Henq, app_nil_r.
    pose proof (select_perm id _ _ (si_processed _ _ _ Hs)) as Hp.
    rewrite select_app, (select_in_hand _ _ Hw), app_nil_r in Hp. by rewrite Hp.
Qed.
(** ** One call of [ThreadLogic] *)

(** The queues from the iterator on, in the order in which they are tried. *)
Definition ring s : list (nat * Queue Task) := drop (ss_next s) (ss_queues s) ++ take (ss_next s) (ss_queues s).

(** The first thread runs [k] steps on its own, at the time [now]. *)
Fixpoint run_first (k : nat) (now : Z) s : option (Scheduler Task) :=
  match k with
  | 0 => Some s
  | S k => sstep task_size (LRunB 0 now) s ≫= run_first k now
  end.

Lemma run_first_add j k now s : run_first (j + k) now s = run_first j now s ≫= run_first k now.
Proof.
  revert s. induction j as [|j IH]; intros s; [done|]. cbn [run_first Nat.add].
  destruct (sstep task_size (LRunB 0 now) s); [|done]. apply IH.
Qed.

Lemma run_first_inv k now s s' :
  sinv task_size (ss_threads s) s → run_first k now s = Some s' → sinv task_size (ss_threads s') s'.
Proof.
  revert s. induction k as [|k IH]; intros s Hs; cbn [run_first]; [by intros [= <-]|].
  intros (s1&E&Hr)%bind_Some. eapply IH; [|exact Hr].
  by apply (sstep_inv task_size Hsize (LRunB 0 now) s).
Qed.

Lemma sstep_first now s t rest :
  ss_threads s = t :: rest → sstep task_size (LRunB 0 now) s = run_bthread now t rest s.
Proof. intros E. cbn [sstep]. by rewrite E. Qed.

Lemma ring_cons s id q :
  ss_queues s !! ss_next s = Some (id, q) →
  ring s = (id, q) :: drop (S (ss_next s)) (ss_queues s) ++ take (ss_next s) (ss_queues s).
Proof. intros E. unfold ring. by rewrite (drop_S _ _ _ E). Qed.

Lemma set_queue_insert id q q' (queues : list (nat * Queue Task)) k :
  NoDup queues.*1 → queues !! k = Some (id, q) → set_queue id q' queues = <[k := (id, q')]> queues.
Proof.
  intros Hnd Hk. apply list_eq. intros i. destruct (queues !! i) as [[id' r]|] eqn:Ei.
  - rewrite (set_queue_lookup _ _ _ _ _ _ Ei). case_decide as Hd.
    + subst id'. destruct (ids_unique _ _ _ _ _ _ Hnd Hk Ei) as [-> _].
      by rewrite list_lookup_insert_eq by (by eapply lookup_lt_Some).
    + rewrite list_lookup_insert_ne; [done|]. intros ->. congruence.
  - unfold set_queue. rewrite list_lookup_fmap, Ei. symmetry. apply lookup_ge_None.
    rewrite length_insert. by apply lookup_ge_None.
Qed.

(** The queue that was tried goes to the end of the ring, or is dropped. *)
Lemma advance_ring c batch q q0 (queues : list (nat * Queue Task)) next id queues' next' :
  queues !! next = Some (id, q0) →
  advance c batch q (<[next := (id, q)]> queues) next = (queues', next') →
  drop next' queues' ++ take next' queues' =
    (drop (S next) queues ++ take next queues) ++
    (if c && IsEmptyInternal q && bool_decide (batch = None) then [] else [(id, q)]).
Proof.
  intros Hk. pose proof (lookup_lt_Some _ _ _ Hk) as Hlt. unfold advance.
  destruct (c && IsEmptyInternal q && bool_decide (batch = None)); intros Ha.
  - assert (delete next (<[next:=(id, q)]> queues) = take next queues ++ drop (S next) queues) as E.
    { rewrite delete_take_drop, take_insert_ge, drop_insert_lt by lia. done. }
    rewrite E in Ha. rewrite app_nil_r.
    assert (length (take next queues) = next) as Ht by (apply length_take_le; lia).
    destruct (Nat.eqb_spec next (length (take next queues ++ drop (S next) queues))) as [El|El];
      injection Ha as <- <-.
    + rewrite length_app, Ht in El. destruct (drop (S next) queues); [|simpl in El; lia].
      simpl. by rewrite !app_nil_r.
    + by rewrite drop_app_length', take_app_length' by done.
  - assert (take next queues ++ [(id, q)] ++ drop (S next) queues = <[next:=(id, q)]> queues) as E.
    { by rewrite (insert_take_drop queues next (id, q)) by lia. }
    assert (length (take next queues ++ [(id, q)]) = S next) as Hl.
    { rewrite length_app, length_take_le by lia. simpl. lia. }
    destruct (Nat.eqb_spec (S next) (length (<[next:=(id, q)]> queues))) as [El|El];
      injection Ha as <- <-.
    + rewrite length_insert in El. rewrite <-E. rewrite (drop_ge queues (S next)) by lia.
      simpl. by rewrite !app_nil_r.
    + rewrite <-E, app_assoc, drop_app_length', take_app_length' by done. by rewrite app_assoc.
Qed.

(** One iteration of the loop tries the queue at the head of the ring. *)
Lemma iteration now tried n rest s id q r :
  sinv task_size (ss_threads s) s → ss_threads s = BCheck tried n :: rest →
  ring s = (id, q) :: r →
  let '(batch, q') := ScheduleBatch now q in
  ∃ s', run_first 3 now s = Some s' ∧
    (ss_threads s', ss_locked s') =
      (((next_point (S tried) n id batch).1 :: rest), (next_point (S tried) n id batch).2) ∧
    ring s' = r ++ (if q_closed q && IsEmptyInternal q' && bool_decide (batch = None)
                    then [] else [(id, q')]).
Proof.
  intros Hs Ht Hr. rewrite Ht in Hs.
  destruct (check_step_inv task_size tried n rest s [] Hs) as (id'&q0&Eq&_).
  pose proof (ring_cons s _ _ Eq) as Hr'. rewrite Hr in Hr'. injection Hr' as <- <- ->.
  destruct (ScheduleBatch now q) as [batch q'] eqn:Eb.
  destruct (advance (q_closed q) batch q' (<[ss_next s:=(id, q')]> (ss_queues s)) (ss_next s))
    as [queues' next'] eqn:Ea.
  pose proof (advance_ring _ _ _ _ _ _ _ _ _ Eq Ea) as Hring.
  pose proof (si_ids _ _ _ Hs) as Hnd.
  assert (find_queue id (ss_queues s) = Some (ss_next s, q)) as Hf.
  { destruct (find_queue_found id (ss_queues s)) as (k&q1&E&Hk).
    - apply list_elem_of_fmap. exists (id, q). split; [done|]. by eapply list_elem_of_lookup_2.
    - rewrite E. by destruct (ids_unique _ _ _ _ _ _ Hnd Eq Hk) as [<- <-]. }
  assert (find_queue id (<[ss_next s:=(id, q')]> (ss_queues s)) = Some (ss_next s, q')) as Hf'.
  { rewrite <-(set_queue_insert id q q' (ss_queues s)) by done.
    assert (set_queue id q' (ss_queues s) !! ss_next s = Some (id, q')) as Hx.
    { rewrite (set_queue_lookup _ _ _ _ _ _ Eq). by rewrite decide_True. }
    destruct (find_queue_found id (set_queue id q' (ss_queues s))) as (k&q1&E&Hk).
    - rewrite set_queue_ids. apply list_elem_of_fmap. exists (id, q). split; [done|].
      by eapply list_elem_of_lookup_2.
    - rewrite E. destruct (ids_unique _ _ _ _ _ _ ltac:(rewrite set_queue_ids; exact Hnd) Hx Hk) as [<- <-].
      done. }
  destruct (next_point (S tried) n id batch) as [t' locked] eqn:Ep.
  set (s1 := set_threads (BTry tried n id (q_closed q) :: rest) true s).
  set (s2 := log_dispatched id batch (set_threads (BAdvance tried n id (q_closed q) batch :: rest) true
    (set_queues (set_queue id q' (ss_queues s)) (ss_next s) s1))).
  exists (set_threads (t' :: rest) locked (set_queues queues' next' s2)).
  split_and!; [|reflexivity|exact Hring]. cbn [run_first].
  rewrite (sstep_first _ _ _ _ Ht). cbn [run_bthread]. rewrite Eq. fold s1. cbn [mbind option_bind].
  rewrite (sstep_first now s1 (BTry tried n id (q_closed q)) rest) by done. cbn [run_bthread].
  change (ss_queues s1) with (ss_queues s). rewrite Hf, Eb.
  change (ss_next s1) with (ss_next s). fold s2. cbn [mbind option_bind].
  rewrite (sstep_first now s2 (BAdvance tried n id (q_closed q) batch) rest) by done.
  cbn [run_bthread]. change (ss_queues s2) with (set_queue id q' (ss_queues s)).
  change (ss_next s2) with (ss_next s).
  by rewrite (set_queue_insert id q q' (ss_queues s) (ss_next s)), Hf', Ea, Ep by done.
Qed.

(** A queue that has a batch to offer at the time [now]. *)
Definition offers (now : Z) (e : nat * Queue Task) : Prop := is_Some (ScheduleBatch now e.2).1.

Lemma loop_takes_first now rest L : ∀ s tried n done,
  sinv task_size (ss_threads s) s → ss_threads s = BCheck tried n :: rest →
  ring s = L ++ done → n = tried + length L →
  match list_find (offers now) L with
  | Some (k, (id, q)) => ∃ b s', ScheduleBatch now q = (Some b, (ScheduleBatch now q).2) ∧
      run_first (3 * S k) now s = Some s' ∧ ss_threads s' = BCall id b :: rest ∧
      ss_locked s' = false ∧ last (ring s') = Some (id, (ScheduleBatch now q).2)
  | None => ∃ s', run_first (3 * length L) now s = Some s' ∧ ss_threads s' = BIdle :: rest ∧
      ss_locked s' = false
  end.
Proof.
  induction L as [|[id q] L IH]; intros s tried n done Hs Ht Hr Hn.
  { exfalso. pose proof (si_threads _ _ _ Hs (BCheck tried n)) as Hb. rewrite Ht in Hb.
    specialize (Hb ltac:(left)). simpl in Hb, Hn. lia. }
  pose proof (iteration now tried n rest s id q (L ++ done) Hs Ht Hr) as Hi.
  destruct (ScheduleBatch now q) as [batch q'] eqn:Eb. destruct Hi as (s'&Hrun&Hts&Hring).
  simplify_eq Hts; intros Hts' Hl'. cbn [list_find].
  destruct batch as [b|].
  - rewrite decide_True by (unfold offers; simpl; rewrite Eb; by eexists). rewrite Eb. exists b, s'.
    split_and!; try done. rewrite Hring. rewrite bool_decide_eq_false_2, andb_false_r by done.
    by rewrite last_snoc.
  - rewrite decide_False by (unfold offers; simpl; rewrite Eb; by intros [? ?]).
    assert (∀ k, 3 * S k = 3 + 3 * k) as H3 by lia.
    destruct L as [|e L'].
    + simpl. exists s'. split_and!; try done.
      * rewrite Hts'. simpl in Hn. unfold next_point. rewrite (proj2 (Nat.ltb_ge _ _)) by lia. done.
      * rewrite Hl'. simpl in Hn. unfold next_point. rewrite (proj2 (Nat.ltb_ge _ _)) by lia. done.
    + assert (sinv task_size (ss_threads s') s') as Hs'.
      { eapply run_first_inv; [exact Hs|exact Hrun]. }
      rewrite <-app_assoc in Hring.
      assert (ss_threads s' = BCheck (S tried) n :: rest) as Hts2.
      { rewrite Hts'. unfold next_point. simpl in Hn. by rewrite (proj2 (Nat.ltb_lt _ _)) by lia. }
      specialize (IH s' (S tried) n _ Hs' Hts2 Hring ltac:(simpl in *; lia)).
      destruct (list_find (offers now) (e :: L')) as [[k [id1 q1]]|];
        cbn [fmap option_fmap option_map prod_map fst snd].
      * destruct IH as (b&s2&HS&Hr2&?&?&?). exists b, s2. split_and!; try done.
        rewrite H3, run_first_add, Hrun. exact Hr2.
      * destruct IH as (s2&Hr2&?&?). exists s2. split_and!; try done.
        change (length ((id, q) :: e :: L')) with (S (length (e :: L'))).
        rewrite H3, run_first_add, Hrun. exact Hr2.
Qed.

(** A batch thread that calls [ThreadLogic] undisturbed never goes to sleep
    while a queue has a batch to offer: it takes the batch of the first queue in
    round-robin order that offers one, after which that queue comes last in the
    order; if no queue offers one, the call ends without a batch. *)
Theorem thread_takes_first_batch n s0 s now rest :
  created n s0 → sreachable task_size s0 s →
  ss_threads s = BIdle :: rest → ss_locked s = false →
  match list_find (offers now) (ring s) with
  | Some (k, (id, q)) => ∃ b s', (ScheduleBatch now q).1 = Some b ∧
      run_first (1 + 3 * S k) now s = Some s' ∧ ss_threads s' = BCall id b :: rest ∧
      ss_locked s' = false ∧ last (ring s') = Some (id, (ScheduleBatch now q).2)
  | None => ∃ s', run_first (1 + 3 * length (ring s)) now s = Some s' ∧
      ss_threads s' = BIdle :: rest ∧ ss_locked s' = false
  end.
Proof.
  intros Hc Hs%(sreachable_inv n) Ht Hl; [|done].
  assert (length (ring s) = length (ss_queues s)) as Hlen.
  { unfold ring. rewrite length_app, Nat.add_comm, <-length_app. by rewrite take_drop. }
  set (t := next_point (Task:=Task) 0 (length (ss_queues s)) 0 None).
  assert (sstep task_size (LRunB 0 now) s = Some (set_threads (t.1 :: rest) t.2 s)) as E.
  { rewrite (sstep_first _ _ _ _ Ht). cbn [run_bthread]. rewrite Hl. unfold t.
    by destruct (next_point _ _ _ _). }
  assert (sinv task_size (ss_threads (set_threads (t.1 :: rest) t.2 s)) (set_threads (t.1 :: rest) t.2 s))
    as Hs' by (eapply sstep_inv; [done|exact Hs|..]; [|exact E]; done).
  destruct (ring s) as [|e L] eqn:Er.
  - cbn [list_find]. exists (set_threads (t.1 :: rest) t.2 s).
    change (1 + 3 * length (@nil (nat * Queue Task))) with 1. cbn [run_first]. rewrite E.
    unfold t. by rewrite <-Hlen.
  - assert (t = (BCheck 0 (length (e :: L)), true)) as Et by (unfold t, next_point; by rewrite <-Hlen).
    rewrite Et in E, Hs'. cbn [fst snd] in E, Hs'.
    pose proof (loop_takes_first now rest (e :: L)
      (set_threads (BCheck 0 (length (e :: L)) :: rest) true s) 0 (length (e :: L)) [] Hs' eq_refl
      ltac:(rewrite app_nil_r; exact Er) eq_refl) as Hloop.
    assert (∀ k, run_first (1 + k) now s =
      run_first k now (set_threads (BCheck 0 (length (e :: L)) :: rest) true s)) as Hfirst.
    { intros k. cbn [run_first Nat.add]. by rewrite E. }
    destruct (list_find (offers now) (e :: L)) as [[k [id q]]|]; rewrite Hfirst; [|exact Hloop].
    destruct Hloop as (b&s'&Hb&Hrun&?&?&?). exists b, s'. split_and!; try done. by rewrite Hb.
Qed.
End batching_theorems.

(** * Witnesses *)

(** Tasks of size one. *)
Definition unit_size (t : nat) : Z := 1.

Lemma unit_size_ok t : is_u64 (unit_size t).
Proof. split; [discriminate|reflexivity]. Qed.

Definition ex_options (batches : Z) : QueueOptions := mkQueueOptions 2 1000 batches.

Lemma ex_options_ok b : (0 ≤ b < 2 ^ 31)%Z → options_ok (ex_options b).
Proof. intros. split; simpl; [split; reflexivity|split; [discriminate|reflexivity]|done]. Qed.

Lemma SchedulingCapacity_exact_witness :
  (schedule_all unit_size (λ _, (0, 0)%Z) [1; 2; 3; 4; 5] (newQueue (ex_options 2))).1 !! 4 =
    Some (Unavailable "The batch scheduling queue to which this task was submitted is full") ∧
  code (Unavailable "The batch scheduling queue to which this task was submitted is full") = UNAVAILABLE.
Proof.
  split; [vm_compute; reflexivity|].
  refine (SchedulingCapacity_exact unit_size unit_size_ok (newQueue (ex_options 2)) (λ _, (0, 0)%Z)
    [1; 2; 3; 4; 5] _ _ _ _ 4 _ _).
  - apply newQueue_ok, ex_options_ok. split; [discriminate|reflexivity].
  - discriminate.
  - reflexivity.
  - reflexivity.
  - vm_compute. reflexivity.
Defined.

Lemma SchedulingCapacity_zero_witness :
  SchedulingCapacity (Schedule unit_size 0 0 1 (newQueue (ex_options 0))).2 = (2 ^ 64 - 1)%Z.
Proof.
  refine (proj1 (SchedulingCapacity_zero unit_size unit_size_ok
    (Schedule unit_size 0 0 1 (newQueue (ex_options 0))).2 0 0 2 _ _ _)).
  - pose proof (Schedule_ok unit_size unit_size_ok 0 0 1 (newQueue (ex_options 0))
      (newQueue_ok unit_size _ (ex_options_ok 0 (conj (Z.le_refl 0) eq_refl)))) as H.
    destruct (Schedule _ _ _ _ _) as [[st b] q]. exact (proj1 H).
  - reflexivity.
  - reflexivity.
Defined.

(** Two queues; three tasks in the first, which is then closed and drained by a
    batch thread. *)
Definition ex_start : Scheduler nat :=
  default (mkScheduler [] 0 false [] ∅ 0 ∅ [] [] [] false) (Scheduler_Create 2).2.

Definition ex_batching : list (SLabel nat) :=
  [LAddQueue (ex_options 4); LAddQueue (ex_options 0); LSchedule 0 5 5 1; LSchedule 0 6 6 2;
   LSchedule 0 7 7 3; LClose 0] ++ replicate 6 (LRunB 0 10) ++ replicate 9 (LRunB 0 10).

Definition ex_batched (n : nat) : Scheduler nat :=
  default ex_start (foldl (λ s l, s ≫= sstep unit_size l) (Some ex_start) (take n ex_batching)).

Lemma ex_batched_reachable n :
  foldl (λ s l, s ≫= sstep unit_size l) (Some ex_start) (take n ex_batching) = Some (ex_batched n) →
  sreachable unit_size ex_start (ex_batched n).
Proof.
  generalize (ex_batched n). assert (Forall slabel_wf (take n ex_batching)) as Hwf.
  { apply Forall_take. repeat constructor. }
  induction (take n ex_batching) as [|l ls IH] using rev_ind; intros s E.
  - injection E as <-. constructor.
  - apply Forall_app in Hwf as [Hwf Hl]. rewrite foldl_app in E. simpl in E.
    destruct (foldl _ _ ls) as [s1|] eqn:E1; [|done].
    eapply sreachable_snoc; [by apply IH|by inversion Hl|exact E].
Qed.

Lemma queue_invariants_witness : ss_misused (ex_batched 21) = false.
Proof.
  refine (proj1 (queue_invariants unit_size unit_size_ok 2 ex_start (ex_batched 21) _ _)).
  - reflexivity.
  - apply ex_batched_reachable. vm_compute. reflexivity.
Defined.

Lemma tasks_preserved_witness :
  (b_tasks <$> select 0 (ss_processed (ex_batched 21))) = [[1; 2]; [3]] ∧
  ss_processed (ex_batched 21) ++ omap in_hand (ss_threads (ex_batched 21)) ≡ₚ
    ss_dispatched (ex_batched 21).
Proof.
  split; [vm_compute; reflexivity|].
  refine (proj1 (proj2 (tasks_preserved unit_size unit_size_ok 2 ex_start (ex_batched 21) _ _))).
  - reflexivity.
  - apply ex_batched_reachable. vm_compute. reflexivity.
Defined.

Definition ex_queue (n : nat) : Queue nat :=
  match ss_queues (ex_batched n) with (_, q) :: _ => q | [] => newQueue (ex_options 0) end.

Lemma handle_destructor_waits_witness :
  q_notified (ex_queue 21) = 1 ∧
  (select 0 (ss_processed (ex_batched 21)) ≫= b_tasks) ≡ₚ select 0 (ss_accepted (ex_batched 21)).
Proof.
  split; [vm_compute; reflexivity|].
  refine (proj2 (proj2 (handle_destructor_waits unit_size unit_size_ok 2 ex_start (ex_batched 21) 0
    (ex_queue 21) _ _ _ _)) _).
  - reflexivity.
  - apply ex_batched_reachable. vm_compute. reflexivity.
  - vm_compute. left.
  - apply (bool_decide_unpack _). vm_compute. exact I.
  - vm_compute. reflexivity.
Defined.

Lemma thread_takes_first_batch_witness :
  list_find (offers 10) (ring (ex_batched 12)) = Some (1, (0, ex_queue 12)) ∧
  match list_find (offers 10) (ring (ex_batched 12)) with
  | Some (k, (id, q)) => ∃ b s', (ScheduleBatch 10 q).1 = Some b ∧
      run_first unit_size (1 + 3 * S k) 10 (ex_batched 12) = Some s' ∧
      ss_threads s' = BCall id b :: [BIdle] ∧
      ss_locked s' = false ∧ last (ring s') = Some (id, (ScheduleBatch 10 q).2)
  | None => ∃ s', run_first unit_size (1 + 3 * length (ring (ex_batched 12))) 10 (ex_batched 12) = Some s' ∧
      ss_threads s' = BIdle :: [BIdle] ∧ ss_locked s' = false
  end.
Proof.
  split; [vm_compute; reflexivity|].
  apply (thread_takes_first_batch unit_size unit_size_ok 2 ex_start (ex_batched 12) 10 [BIdle]).
  - reflexivity.
  - apply ex_batched_reachable. vm_compute. reflexivity.
  - vm_compute. reflexivity.
  - vm_compute. reflexivity.
Defined.
