(* ===== verification/Coding.v ===== *)
(** Fixed-width and variable-length integers in byte strings:
    [tensorflow/core/lib/core/coding.cc], [coding.h] and [raw_coding.h].

    A byte is a [Z] below 256, a byte string a list of them.  The buffers that
    the encoders fill are the lists they return.  The fixed-width functions are
    written with the shifts of their portable branch; on a little-endian machine
    [memcpy] stores the same bytes. *)
From S2P Require Import Prelude.
Local Open Scope Z_scope.

(** [lia] also reasons about quotients and remainders. *)
Ltac Zify.zify_post_hook ::= Z.to_euclidean_division_equations.

(** * Fixed-width integers *)

Definition EncodeFixed16 (value : Z) : list Z :=
  [Z.land value 255; Z.land (Z.shiftr value 8) 255].

Definition EncodeFixed32 (value : Z) : list Z :=
  [Z.land value 255; Z.land (Z.shiftr value 8) 255;
   Z.land (Z.shiftr value 16) 255; Z.land (Z.shiftr value 24) 255].

Definition EncodeFixed64 (value : Z) : list Z :=
  [Z.land value 255; Z.land (Z.shiftr value 8) 255;
   Z.land (Z.shiftr value 16) 255; Z.land (Z.shiftr value 24) 255;
   Z.land (Z.shiftr value 32) 255; Z.land (Z.shiftr value 40) 255;
   Z.land (Z.shiftr value 48) 255; Z.land (Z.shiftr value 56) 255].

Definition PutFixed16 (dst : list Z) (value : Z) : list Z := dst ++ EncodeFixed16 value.
Definition PutFixed32 (dst : list Z) (value : Z) : list Z := dst ++ EncodeFixed32 value.
Definition PutFixed64 (dst : list Z) (value : Z) : list Z := dst ++ EncodeFixed64 value.

(** [ptr[i]]; the decoders check no bounds. *)
Definition byte_at (ptr : list Z) (i : nat) : Z := nth i ptr 0.

Definition DecodeFixed16 (ptr : list Z) : Z :=
  Z.lor (byte_at ptr 0) (Z.shiftl (byte_at ptr 1) 8).

Definition DecodeFixed32 (ptr : list Z) : Z :=
  Z.lor (Z.lor (Z.lor (byte_at ptr 0) (Z.shiftl (byte_at ptr 1) 8))
    (Z.shiftl (byte_at ptr 2) 16)) (Z.shiftl (byte_at ptr 3) 24).

Definition DecodeFixed64 (ptr : list Z) : Z :=
  let lo := DecodeFixed32 ptr in
  let hi := DecodeFixed32 (drop 4 ptr) in
  Z.lor (Z.shiftl hi 32) lo.

(** * Variable-length integers *)

(** A store through an [unsigned char*]. *)
Definition uchar (v : Z) : Z := v mod 256.

Definition EncodeVarint32 (v : Z) : list Z :=
  let B := 128 in
  if v <? Z.shiftl 1 7 then [uchar v]
  else if v <? Z.shiftl 1 14 then [uchar (Z.lor v B); uchar (Z.shiftr v 7)]
  else if v <? Z.shiftl 1 21 then
    [uchar (Z.lor v B); uchar (Z.lor (Z.shiftr v 7) B); uchar (Z.shiftr v 14)]
  else if v <? Z.shiftl 1 28 then
    [uchar (Z.lor v B); uchar (Z.lor (Z.shiftr v 7) B); uchar (Z.lor (Z.shiftr v 14) B);
     uchar (Z.shiftr v 21)]
  else
    [uchar (Z.lor v B); uchar (Z.lor (Z.shiftr v 7) B); uchar (Z.lor (Z.shiftr v 14) B);
     uchar (Z.lor (Z.shiftr v 21) B); uchar (Z.shiftr v 28)].

(** The loop of [EncodeVarint64]; a 64-bit value needs at most nine rounds. *)
Fixpoint encode_loop (fuel : nat) (v : Z) : list Z :=
  match fuel with
  | O => [uchar v]
  | S fuel =>
      if v >=? 128 then Z.lor (Z.land v (128 - 1)) 128 :: encode_loop fuel (Z.shiftr v 7)
      else [uchar v]
  end.

Definition EncodeVarint64 (v : Z) : list Z := encode_loop 9 v.

Definition PutVarint32 (dst : list Z) (v : Z) : list Z := dst ++ EncodeVarint32 v.
Definition PutVarint64 (dst : list Z) (v : Z) : list Z := dst ++ EncodeVarint64 v.

Fixpoint length_loop (fuel : nat) (v len : Z) : Z :=
  match fuel with
  | O => len
  | S fuel => if v >=? 128 then length_loop fuel (Z.shiftr v 7) (len + 1) else len
  end.

Definition VarintLength (v : Z) : Z := length_loop 9 v 1.

(** The loop of the two decoders: [p] up to [limit] is a list, [width] the
    wrap-around of the result's type and [last_shift] the greatest shift.  A
    null pointer is [None]. *)
Fixpoint decode_loop (width : Z → Z) (last_shift : Z) (p : list Z) (shift result : Z) :
    option (Z * list Z) :=
  match p with
  | [] => None
  | byte :: p =>
      if shift <=? last_shift then
        if negb (Z.land byte 128 =? 0) then
          decode_loop width last_shift p (shift + 7)
            (Z.lor result (width (Z.shiftl (Z.land byte 127) shift)))
        else Some (Z.lor result (width (Z.shiftl byte shift)), p)
      else None
  end.

Definition GetVarint32PtrFallback (p : list Z) : option (Z * list Z) := decode_loop u32 28 p 0 0.

Definition GetVarint32Ptr (p : list Z) : option (Z * list Z) :=
  match p with
  | result :: rest =>
      if Z.land result 128 =? 0 then Some (result, rest) else GetVarint32PtrFallback p
  | [] => GetVarint32PtrFallback p
  end.

Definition GetVarint32 (input : list Z) : option (Z * list Z) := GetVarint32Ptr input.

Definition GetVarint64Ptr (p : list Z) : option (Z * list Z) := decode_loop u64 63 p 0 0.

Definition GetVarint64 (input : list Z) : option (Z * list Z) := GetVarint64Ptr input.

(** * Byte strings *)

(** The lexicographic order of byte strings. *)
Fixpoint bytes_ltb (a b : list Z) : bool :=
  match a, b with
  | _, [] => false
  | [], _ :: _ => true
  | x :: a, y :: b => (x <? y) || ((x =? y) && bytes_ltb a b)
  end.

Lemma bytes_ltb_irrefl a : bytes_ltb a a = false.
Proof. induction a as [|x a IH]; [done|]. simpl. by rewrite Z.ltb_irrefl, Z.eqb_refl, IH. Qed.

Lemma bytes_ltb_trans a b c :
  bytes_ltb a b = true → bytes_ltb b c = true → bytes_ltb a c = true.
Proof.
  revert b c. induction a as [|x a IH]; intros [|y b] [|z c]; simpl; try done.
  rewrite !orb_true_iff, !andb_true_iff, !Z.ltb_lt, !Z.eqb_eq.
  intros [?|[-> ?]] [?|[-> ?]]; [left; lia..|right; eauto].
Qed.

Lemma bytes_ltb_total a b : a = b ∨ bytes_ltb a b = true ∨ bytes_ltb b a = true.
Proof.
  revert b. induction a as [|x a IH]; intros [|y b]; simpl; [tauto..|].
  rewrite !orb_true_iff, !andb_true_iff, !Z.ltb_lt, !Z.eqb_eq.
  destruct (Ztrichotomy x y) as [?|[->|?]]; [tauto| |right; right; lia].
  destruct (IH b) as [->|[?|?]]; tauto.
Qed.

Lemma bytes_ltb_asym a b : bytes_ltb a b = true → bytes_ltb b a = false.
Proof.
  intros H. destruct (bytes_ltb b a) eqn:E; [|done].
  pose proof (bytes_ltb_trans _ _ _ H E) as Ht. by rewrite bytes_ltb_irrefl in Ht.
Qed.

(** Not smaller, then smaller. *)
Lemma bytes_ltb_le_lt a b c :
  bytes_ltb b a = false → bytes_ltb b c = true → bytes_ltb a c = true.
Proof.
  intros H1 H2. destruct (bytes_ltb_total a b) as [->|[?|?]]; [done| |congruence].
  by eapply bytes_ltb_trans.
Qed.

Lemma bytes_ltb_lt_le a b c :
  bytes_ltb a b = true → bytes_ltb c b = false → bytes_ltb a c = true.
Proof.
  intros H1 H2. destruct (bytes_ltb_total b c) as [<-|[?|?]]; [done| |congruence].
  by eapply bytes_ltb_trans.
Qed.

(** * Bits *)

Lemma lor_shiftl (r x s : Z) : 0 <= s → 0 <= r < 2 ^ s → Z.lor r (Z.shiftl x s) = r + x * 2 ^ s.
Proof.
  intros Hs Hr. rewrite Z.shiftl_mul_pow2 by done.
  assert (Z.land r (x * 2 ^ s) = 0) as Hl.
  { apply Z.bits_inj'. intros i Hi. rewrite Z.land_spec, Z.bits_0.
    destruct (Z.ltb_spec i s).
    - rewrite (Z.mul_pow2_bits_low x s i) by done. by rewrite andb_false_r.
    - rewrite <-(Z.mod_small r (2 ^ s)) by done. by rewrite Z.mod_pow2_bits_high by lia. }
  pose proof (Z.add_lor_land r (x * 2 ^ s)). lia.
Qed.

(** Two numbers without a common bit. *)
Lemma lor_hi a h k : 0 <= k → 0 <= a < 2 ^ k → h mod 2 ^ k = 0 → Z.lor a h = a + h.
Proof.
  intros Hk Ha Hh. assert (h = (h / 2 ^ k) * 2 ^ k) as -> by (pose proof (Z.div_mod h (2 ^ k)); lia).
  rewrite <-Z.shiftl_mul_pow2 at 1 by done. by apply lor_shiftl.
Qed.

Lemma lxor_hi a h k : 0 <= k → 0 <= a < 2 ^ k → h mod 2 ^ k = 0 → Z.lxor a h = a + h.
Proof.
  intros. pose proof (Z.sub_2lor_lxor a h). rewrite (lor_hi a h k) in * by done. lia.
Qed.

Lemma lxor_undo a h k : 0 <= k → 0 <= a < 2 ^ k → h mod 2 ^ k = 0 → Z.lxor (a + h) h = a.
Proof.
  intros. rewrite <-(lxor_hi a h k) by done. by rewrite Z.lxor_assoc, Z.lxor_nilpotent, Z.lxor_0_r.
Qed.

Lemma lor_bound a b n : 0 <= a < 2 ^ n → 0 <= b < 2 ^ n → 0 <= Z.lor a b < 2 ^ n.
Proof.
  intros Ha Hb. assert (0 <= n) by (destruct (Z.ltb_spec n 0); [rewrite Z.pow_neg_r in Ha|]; lia).
  split; [apply Z.lor_nonneg; lia|].
  rewrite <-(Z.mod_small a (2 ^ n)), <-(Z.mod_small b (2 ^ n)) by done.
  rewrite <-!Z.land_ones, <-Z.land_lor_distr_l, Z.land_ones by done.
  apply Z.mod_pos_bound. lia.
Qed.

Lemma lxor_bound a b n : 0 <= a < 2 ^ n → 0 <= b < 2 ^ n → 0 <= Z.lxor a b < 2 ^ n.
Proof.
  intros Ha Hb. pose proof (lor_bound a b n Ha Hb). pose proof (Z.sub_lor_land a b).
  assert (0 <= Z.land a b) by (apply Z.land_nonneg; lia).
  split; [apply Z.lxor_nonneg; lia|lia].
Qed.

Lemma lxor_ones n x : 0 <= n → 0 <= x < 2 ^ n → Z.lxor x (2 ^ n - 1) = 2 ^ n - 1 - x.
Proof.
  intros Hn Hx. pose proof (Z.add_lxor_2land x (2 ^ n - 1)) as H.
  replace (2 ^ n - 1) with (Z.ones n) in * by (rewrite Z.ones_equiv; lia).
  rewrite Z.land_ones, Z.mod_small in H by done. lia.
Qed.

Lemma land_127 b : Z.land b 127 = b mod 128.
Proof. apply (Z.land_ones b 7). lia. Qed.

Lemma land_255 b : Z.land b 255 = b mod 256.
Proof. apply (Z.land_ones b 8). lia. Qed.

(** The continuation bit of a byte. *)
Lemma land_128 b : is_byte b → Z.land b 128 = if b <? 128 then 0 else 128.
Proof.
  intros Hb. unfold is_byte in Hb.
  assert (Z.land (Z.land b 128) 127 = 0) as H1 by (by rewrite <-Z.land_assoc, Z.land_0_r).
  replace b with (b mod 128 + (b / 128) * 2 ^ 7) at 1 by lia.
  rewrite <-lor_shiftl by lia. rewrite Z.land_lor_distr_l.
  assert (Z.land (b mod 128) 128 = 0) as ->.
  { rewrite <-land_127, <-Z.land_assoc. apply Z.land_0_r. }
  rewrite Z.lor_0_l. destruct (Z.ltb_spec b 128).
  - rewrite Z.div_small by lia. done.
  - replace (b / 128) with 1 by lia. done.
Qed.

Lemma lor_128 v : 0 <= v → uchar (Z.lor v 128) = v mod 128 + 128.
Proof.
  intros Hv. unfold uchar. rewrite <-land_255, Z.land_lor_distr_l. change (Z.land 128 255) with 128.
  rewrite land_255. destruct (Z.ltb_spec (v mod 256) 128).
  - change 128 with (Z.shiftl 1 7) at 1. rewrite lor_shiftl by lia. lia.
  - replace (v mod 256) with (v mod 128 + 1 * 2 ^ 7) by lia. rewrite <-lor_shiftl by lia.
    rewrite <-Z.lor_assoc. change (Z.lor (Z.shiftl 1 7) 128) with (Z.shiftl 1 7).
    rewrite lor_shiftl by lia. lia.
Qed.

Lemma shiftr_7 v : Z.shiftr v 7 = v / 128.
Proof. by rewrite Z.shiftr_div_pow2. Qed.

(** * Variable-length integers *)

Lemma encode_loop_cont fuel v : 128 <= v →
  encode_loop (S fuel) v = (v mod 128 + 128) :: encode_loop fuel (v / 128).
Proof.
  intros Hv. cbn [encode_loop]. rewrite Z.geb_leb, (proj2 (Z.leb_le _ _) Hv), shiftr_7. f_equal.
  change (128 - 1) with 127. rewrite land_127. change 128 with (Z.shiftl 1 7) at 2.
  rewrite lor_shiftl by lia. lia.
Qed.

Lemma encode_loop_end fuel v : 0 <= v < 128 → encode_loop fuel v = [v].
Proof.
  intros Hv. unfold encode_loop. destruct fuel; rewrite ?Z.geb_leb, ?(proj2 (Z.leb_gt _ _)) by lia;
    unfold uchar; by rewrite Z.mod_small by lia.
Qed.

(** The unrolled 32-bit encoder does what the loop does. *)
Lemma EncodeVarint32_loop v : is_u32 v → EncodeVarint32 v = EncodeVarint64 v.
Proof.
  intros Hv. unfold is_u32 in Hv. unfold EncodeVarint32, EncodeVarint64.
  rewrite !lor_128 by (rewrite ?Z.shiftr_div_pow2 by lia; lia). unfold uchar.
  rewrite !Z.shiftr_div_pow2 by lia. change (Z.shiftl 1 7) with 128.
  change (Z.shiftl 1 14) with 16384. change (Z.shiftl 1 21) with 2097152.
  change (Z.shiftl 1 28) with 268435456.
  repeat match goal with |- context [?a <? ?b] => destruct (Z.ltb_spec a b) end;
    rewrite ?encode_loop_cont by lia; rewrite encode_loop_end by lia;
    rewrite ?Z.div_div by lia; repeat (apply (f_equal2 cons); [lia|]); reflexivity.
Qed.

Lemma pow2_split a b : 0 <= b <= a → 2 ^ a = 2 ^ (a - b) * 2 ^ b.
Proof. intros. rewrite <-Z.pow_add_r by lia. f_equal. lia. Qed.

Lemma decode_encode width bits m fuel v k result rest :
  0 <= k → 0 <= v < 2 ^ (bits - 7 * k) → bits - 7 * k <= 7 * (Z.of_nat fuel + 1) →
  0 <= result < 2 ^ (7 * k) → k <= m → bits <= 7 * m + 7 →
  (∀ z, 0 <= z < 2 ^ bits → width z = z) →
  decode_loop width (7 * m) (encode_loop fuel v ++ rest) (7 * k) result =
    Some (result + v * 2 ^ (7 * k), rest).
Proof.
  intros Hk Hv Hfuel Hr Hkm Hbits Hw.
  assert (∀ x s, 0 <= s <= bits → 0 <= x < 2 ^ (bits - s) → width (Z.shiftl x s) = Z.shiftl x s)
    as Hwidth.
  { intros x s Hs Hx. apply Hw. rewrite Z.shiftl_mul_pow2, (pow2_split bits s) by lia. nia. }
  revert v k result Hk Hv Hfuel Hr Hkm.
  induction fuel as [|fuel IH]; intros v k result Hk Hv Hfuel Hr Hkm.
  all: assert (0 <= bits - 7 * k) by
    (destruct (Z.ltb_spec (bits - 7 * k) 0); [rewrite Z.pow_neg_r in Hv by lia|]; lia).
  all: destruct (Z.ltb_spec v 128).
  1,3: rewrite encode_loop_end by lia; simpl app; cbn [decode_loop];
    rewrite (proj2 (Z.leb_le _ _)) by lia; rewrite land_128 by (unfold is_byte; lia);
    rewrite (proj2 (Z.ltb_lt _ _)) by lia; simpl negb; cbv iota;
    rewrite Hwidth by lia; by rewrite lor_shiftl by lia.
  { assert (2 ^ (bits - 7 * k) <= 2 ^ 7) by (apply Z.pow_le_mono_r; lia). lia. }
  rewrite encode_loop_cont by lia. cbn [app decode_loop].
  rewrite (proj2 (Z.leb_le (7 * k) _)) by lia. rewrite land_128 by (unfold is_byte; lia).
  rewrite (proj2 (Z.ltb_ge _ _)) by lia. simpl negb. cbv iota.
  assert (8 <= bits - 7 * k).
  { destruct (Z.leb_spec 8 (bits - 7 * k)); [done|].
    assert (2 ^ (bits - 7 * k) <= 2 ^ 7) by (apply Z.pow_le_mono_r; lia). lia. }
  assert (2 ^ (bits - 7 * k) = 2 ^ (bits - 7 * (k + 1)) * 128) as Hp.
  { rewrite (pow2_split _ 7) by lia. f_equal. f_equal. lia. }
  rewrite land_127. replace ((v mod 128 + 128) mod 128) with (v mod 128) by lia.
  assert (2 ^ (7 * (k + 1)) = 2 ^ (7 * k) * 128) as Hp7.
  { rewrite (pow2_split _ 7) by lia. f_equal. f_equal. lia. }
  rewrite Hwidth by lia. rewrite lor_shiftl by lia.
  replace (7 * k + 7) with (7 * (k + 1)) by lia. rewrite IH; [|lia..|nia|lia].
  f_equal. f_equal. rewrite Hp7. nia.
Qed.

Lemma length_loop_encode fuel v len :
  length_loop fuel v len = len + Z.of_nat (length (encode_loop fuel v)) - 1.
Proof.
  revert v len. induction fuel as [|fuel IH]; intros v len; cbn [length_loop encode_loop];
    [simpl; lia|].
  destruct (v >=? 128); [rewrite IH; cbn [length]; lia|simpl; lia].
Qed.

Lemma encode_loop_length fuel v : (1 <= length (encode_loop fuel v) <= S fuel)%nat.
Proof.
  revert v. induction fuel as [|fuel IH]; intros v; cbn [encode_loop]; [simpl; lia|].
  destruct (v >=? 128); cbn [length]; [specialize (IH (Z.shiftr v 7))|]; lia.
Qed.

Lemma encode_loop_bytes fuel v : 0 <= v → Forall is_byte (encode_loop fuel v).
Proof.
  revert v. induction fuel as [|fuel IH]; intros v Hv.
  { repeat constructor; unfold uchar; lia. }
  destruct (Z.leb_spec 128 v).
  - rewrite encode_loop_cont by done. constructor; [unfold is_byte; lia|]. apply IH. lia.
  - rewrite encode_loop_end by lia. repeat constructor; lia.
Qed.

(** On bytes the fast path of [GetVarint32Ptr] agrees with the loop. *)
Lemma GetVarint32Ptr_cons b p : is_byte b → GetVarint32Ptr (b :: p) = GetVarint32PtrFallback (b :: p).
Proof.
  intros Hb. unfold GetVarint32Ptr, GetVarint32PtrFallback.
  cbn [decode_loop]. destruct (Z.eqb_spec (Z.land b 128) 0); [|done]. simpl negb. cbv iota.
  change (0 <=? 28) with true. cbv iota. rewrite Z.shiftl_0_r, Z.lor_0_l, u32_small; [done|].
  unfold is_byte, is_u32 in *. lia.
Qed.

Lemma GetVarint64_encode v rest : is_u64 v → GetVarint64 (EncodeVarint64 v ++ rest) = Some (v, rest).
Proof.
  intros Hv. unfold is_u64 in Hv. unfold GetVarint64, GetVarint64Ptr, EncodeVarint64.
  change 63 with (7 * 9). change 0 with (7 * 0) at 1.
  rewrite (decode_encode u64 64) by (try apply u64_small; lia). by rewrite Z.add_0_l, Z.mul_1_r.
Qed.

Lemma EncodeVarint64_cons v : 0 <= v → ∃ b p, EncodeVarint64 v = b :: p ∧ is_byte b.
Proof.
  intros Hv. pose proof (encode_loop_length 9 v) as Hl. pose proof (encode_loop_bytes 9 v Hv) as Hb.
  unfold EncodeVarint64. destruct (encode_loop 9 v) as [|b p]; [simpl in Hl; lia|].
  apply Forall_cons in Hb as [? _]. eauto.
Qed.

Lemma GetVarint32Ptr_encode v rest : is_u32 v → GetVarint32Ptr (EncodeVarint32 v ++ rest) = Some (v, rest).
Proof.
  intros Hv. rewrite EncodeVarint32_loop by done. unfold is_u32 in Hv.
  destruct (EncodeVarint64_cons v) as (b&p&E&Hb); [lia|].
  rewrite E. cbn [app]. rewrite GetVarint32Ptr_cons by done.
  change (b :: p ++ rest) with ((b :: p) ++ rest). rewrite <-E. unfold GetVarint32PtrFallback, EncodeVarint64.
  change 28 with (7 * 4). change 0 with (7 * 0) at 1.
  rewrite (decode_encode u32 32) by (try apply u32_small; lia). by rewrite Z.add_0_l, Z.mul_1_r.
Qed.

Lemma length_EncodeFixed32 v : length (EncodeFixed32 v) = 4%nat.
Proof. done. Qed.

Lemma length_EncodeVarint64 v : (1 <= length (EncodeVarint64 v) <= 10)%nat.
Proof. apply (encode_loop_length 9 v). Qed.

Lemma length_EncodeVarint32 v : (1 <= length (EncodeVarint32 v) <= 5)%nat.
Proof. unfold EncodeVarint32. repeat case_match; simpl; lia. Qed.

Lemma EncodeVarint32_bytes v : is_u32 v → Forall is_byte (EncodeVarint32 v).
Proof.
  intros Hv. rewrite EncodeVarint32_loop by done. apply encode_loop_bytes. unfold is_u32 in Hv. lia.
Qed.

(** A 64-bit number written as a varint is read back, and what follows it is
    left; the encoding has the announced length, at most ten bytes. A 32-bit
    number gets the same bytes from the unrolled encoder, at most five, and the
    32-bit decoder reads them back. *)
Theorem varint_round_trip (v : Z) (rest : list Z) :
  is_u64 v →
  GetVarint64 (EncodeVarint64 v ++ rest) = Some (v, rest) ∧
  Z.of_nat (length (EncodeVarint64 v)) = VarintLength v ∧ 1 <= VarintLength v <= 10 ∧
  (is_u32 v →
     EncodeVarint32 v = EncodeVarint64 v ∧ (length (EncodeVarint32 v) <= 5)%nat ∧
     GetVarint32 (EncodeVarint32 v ++ rest) = Some (v, rest)).
Proof.
  intros Hv. pose proof (length_EncodeVarint64 v) as Hlen.
  assert (Z.of_nat (length (EncodeVarint64 v)) = VarintLength v) as E
    by (unfold VarintLength, EncodeVarint64; rewrite length_loop_encode; lia).
  split_and!; [by apply GetVarint64_encode|done|lia..|]. intros H32.
  split_and!; [by apply EncodeVarint32_loop|apply length_EncodeVarint32|].
  by apply GetVarint32Ptr_encode.
Qed.

Lemma varint_round_trip_witness :
  EncodeVarint64 300 = [172; 2] ∧ GetVarint64 [172; 2; 7] = Some (300, [7]).
Proof.
  split; [reflexivity|]. refine (proj1 (varint_round_trip 300 [7] _)). unfold is_u64. lia.
Defined.

Lemma decode_loop_spec width m p k result :
  Forall is_byte p → 0 <= k →
  match decode_loop width (7 * m) p (7 * k) result with
  | None => ∀ i b, k + Z.of_nat i <= m → p !! i = Some b → 128 <= b
  | Some (_, rest) => ∃ pre b, p = pre ++ b :: rest ∧ k + Z.of_nat (length pre) <= m ∧
      Forall (Z.le 128) pre ∧ b < 128
  end.
Proof.
  intros Hp. revert k result. induction Hp as [|b p Hb Hp IH]; intros k result Hk; [done|].
  cbn [decode_loop]. destruct (Z.leb_spec (7 * k) (7 * m)).
  2: { intros i b' Hi Hl. lia. }
  rewrite land_128 by done. destruct (Z.ltb_spec b 128); simpl negb; cbv iota.
  { exists [], b. split_and!; [done|simpl; lia|constructor|done]. }
  replace (7 * k + 7) with (7 * (k + 1)) by lia.
  set (r := Z.lor result _). specialize (IH (k + 1) r).
  destruct (decode_loop width (7 * m) p (7 * (k + 1)) r) as [[v rest]|].
  - destruct IH as (pre&b'&->&Hlen&Hpre&Hb'); [lia|]. exists (b :: pre), b'.
    split_and!; [done|simpl; lia|by constructor|done].
  - intros [|i] b' Hi Hl; [by injection Hl as <-|]. apply (IH ltac:(lia) i); [lia|done].
Qed.

Lemma decode_loop_bound width n last_shift p shift result v rest :
  (∀ z, 0 <= width z < 2 ^ n) → 0 <= result < 2 ^ n →
  decode_loop width last_shift p shift result = Some (v, rest) → 0 <= v < 2 ^ n.
Proof.
  intros Hw. revert shift result. induction p as [|b p IH]; intros shift result Hr; [done|].
  cbn [decode_loop]. destruct (shift <=? last_shift); [|done].
  destruct (negb _); [apply IH|intros [= <- <-]]; by apply lor_bound.
Qed.

(** The 64-bit decoder fails exactly when none of the first ten bytes ends a
    varint; otherwise it stops after the first byte without continuation bit, at
    most ten bytes on, with a 64-bit value. *)
Theorem GetVarint64_spec (input : list Z) :
  Forall is_byte input →
  match GetVarint64 input with
  | None => ∀ i b, (i < 10)%nat → input !! i = Some b → 128 <= b
  | Some (v, rest) => is_u64 v ∧ ∃ pre b, input = pre ++ b :: rest ∧ (length pre < 10)%nat ∧
      Forall (Z.le 128) pre ∧ b < 128
  end.
Proof.
  intros Hin. pose proof (decode_loop_spec u64 9 input 0 0 Hin ltac:(lia)) as H.
  change (7 * 9) with 63 in H. change (7 * 0) with 0 in H.
  unfold GetVarint64, GetVarint64Ptr. destruct (decode_loop u64 63 input 0 0) as [[v rest]|] eqn:E.
  - split; [by eapply (decode_loop_bound u64 64); [apply u64_range|split; reflexivity || lia|]|].
    destruct H as (pre&b&->&Hlen&?&?). exists pre, b. split_and!; try done. lia.
  - intros i b Hi. apply H. lia.
Qed.

Lemma GetVarint64_spec_witness : GetVarint64 (replicate 11 128) = None ∧
  ∀ i b, (i < 10)%nat → replicate 11 128 !! i = Some b → 128 <= b.
Proof.
  split; [reflexivity|]. apply (GetVarint64_spec (replicate 11 128)).
  apply Forall_replicate. split; [lia|reflexivity].
Defined.

(** * Fixed-width integers *)

Lemma EncodeFixed32_bytes v : Forall is_byte (EncodeFixed32 v).
Proof. unfold EncodeFixed32. rewrite !land_255. repeat constructor; lia. Qed.

Lemma EncodeFixed64_bytes v : Forall is_byte (EncodeFixed64 v).
Proof. unfold EncodeFixed64. rewrite !land_255. repeat constructor; lia. Qed.

Lemma DecodeFixed32_value b0 b1 b2 b3 rest :
  is_byte b0 → is_byte b1 → is_byte b2 → is_byte b3 →
  DecodeFixed32 (b0 :: b1 :: b2 :: b3 :: rest) = b0 + b1 * 2 ^ 8 + b2 * 2 ^ 16 + b3 * 2 ^ 24.
Proof.
  unfold is_byte. intros. unfold DecodeFixed32, byte_at. cbn [nth].
  rewrite (lor_shiftl b0), (lor_shiftl _ b2), (lor_shiftl _ b3) by lia. lia.
Qed.

Lemma fixed32_round_trip v rest : is_u32 v → DecodeFixed32 (EncodeFixed32 v ++ rest) = v.
Proof.
  intros Hv. unfold is_u32 in Hv. pose proof (EncodeFixed32_bytes v) as Hb.
  unfold EncodeFixed32 in *. rewrite !Forall_cons in Hb. destruct Hb as (?&?&?&?&_).
  cbn [app]. rewrite DecodeFixed32_value by done.
  rewrite !land_255, !Z.shiftr_div_pow2 by lia. lia.
Qed.

Lemma fixed64_round_trip v rest : is_u64 v → DecodeFixed64 (EncodeFixed64 v ++ rest) = v.
Proof.
  intros Hv. unfold is_u64 in Hv. pose proof (EncodeFixed64_bytes v) as Hb.
  unfold EncodeFixed64, DecodeFixed64 in *. rewrite !Forall_cons in Hb.
  destruct Hb as (?&?&?&?&?&?&?&?&_). cbn [app drop]. rewrite !DecodeFixed32_value by done.
  rewrite Z.lor_comm, lor_shiftl by (unfold is_byte in *; lia).
  rewrite !land_255, !Z.shiftr_div_pow2 by lia. lia.
Qed.
