(* ===== verification/OrderedCode.v ===== *)
(** The order-preserving encoding of strings and numbers:
    [tensorflow/core/lib/strings/ordered_code.cc].

    The writers append to a byte string; the readers return the decoded value and
    the rest of their input, or [None] where the source returns [false].  The
    assertions that are compiled into debug builds only are left out, as are the
    readers' calls without a place for the result.  What the writers and readers
    promise together is the class [OrderedCodec]; keys made of several parts are
    proved correct against it. *)
From S2P Require Import Prelude Coding.
Local Open Scope Z_scope.

Ltac Zify.zify_post_hook ::= Z.to_euclidean_division_equations.

(** * Strings *)

Definition kEscape1 : Z := 0.
Definition kNullCharacter : Z := 255.
Definition kSeparator : Z := 1.
Definition kEscape2 : Z := 255.
Definition kFFCharacter : Z := 0.
Definition kEscape1_Separator : list Z := [kEscape1; kSeparator].

Definition IsSpecialByte (c : Z) : bool := uchar (c + 1) <? 2.

(** The bytes skipped and what is left of the range. *)
Fixpoint SkipToNextSpecialByte (range : list Z) : list Z * list Z :=
  match range with
  | [] => ([], [])
  | c :: rest =>
      if negb (IsSpecialByte c) then
        let '(run, p) := SkipToNextSpecialByte rest in (c :: run, p)
      else ([], range)
  end.

(** The loop of [EncodeStringFragment]; at its head [copy_start] is [p].  Each
    round but the last consumes a byte, so that the length of the string is
    enough fuel. *)
Fixpoint encode_fragment (fuel : nat) (dest p : list Z) : list Z :=
  let '(run, p) := SkipToNextSpecialByte p in
  match p, fuel with
  | c :: p, S fuel =>
      if c =? kEscape1 then encode_fragment fuel (dest ++ run ++ [kEscape1; kNullCharacter]) p
      else encode_fragment fuel (dest ++ run ++ [kEscape2; kFFCharacter]) p
  | _, _ => dest ++ run
  end.

Definition EncodeStringFragment (dest s : list Z) : list Z := encode_fragment (length s) dest s.

Definition WriteString (dest s : list Z) : list Z :=
  EncodeStringFragment dest s ++ kEscape1_Separator.

(** The loop of [ReadStringInternal]: [p] is the input from [start] on, and the
    scan stops one byte before its end. *)
Fixpoint read_string (fuel : nat) (p result : list Z) : option (list Z * list Z) :=
  let '(run, tail) := SkipToNextSpecialByte (take (length p - 1) p) in
  match tail, drop (S (length run)) p, fuel with
  | c :: _, next :: p, S fuel =>
      if c =? kEscape1 then
        if next =? kSeparator then Some (result ++ run, p)
        else if next =? kNullCharacter then read_string fuel p (result ++ run ++ [0])
        else None
      else
        if next =? kFFCharacter then read_string fuel p (result ++ run ++ [255])
        else None
  | _, _, _ => None
  end.

Definition ReadString (src : list Z) : option (list Z * list Z) := read_string (length src) src [].

(** [TEST_Corrupt]: the [k]-th separator is spoilt; [seen_seps] were seen. *)
Fixpoint corrupt_loop (str : list Z) (k seen_seps : Z) : list Z :=
  match str with
  | c :: (d :: rest) as tail =>
      if (c =? kEscape1) && (d =? kSeparator) then
        if seen_seps + 1 =? k then c :: (kSeparator + 1) :: rest
        else c :: corrupt_loop tail k (seen_seps + 1)
      else c :: corrupt_loop tail k seen_seps
  | _ => str
  end.

Definition TEST_Corrupt (str : list Z) (k : Z) : list Z := corrupt_loop str k 0.

(** * Unsigned numbers *)

(** The loop that fills [buf] from its end; the result is the filled part. *)
Fixpoint num_bytes (fuel : nat) (val : Z) (buf : list Z) : list Z :=
  match fuel with
  | O => buf
  | S fuel =>
      if val >? 0 then num_bytes fuel (Z.shiftr val 8) (Z.land val 255 :: buf) else buf
  end.

Definition WriteNumIncreasing (dest : list Z) (val : Z) : list Z :=
  let buf := num_bytes 8 val [] in
  dest ++ Z.of_nat (length buf) :: buf.

Definition ReadNumIncreasing (src : list Z) : option (Z * list Z) :=
  match src with
  | [] => None
  | first :: payload =>
      let len := Z.to_nat first in
      if bool_decide (length src < len + 1)%nat || bool_decide (8 < len)%nat then None
      else Some (foldl (λ tmp b, Z.lor (u64 (Z.shiftl tmp 8)) b) 0 (take len payload),
                 drop (len + 1) src)
  end.

(** * Signed numbers *)

Definition kLengthToHeaderBits : list (Z * Z) :=
  [(0, 0); (0x80, 0); (0xc0, 0); (0xe0, 0); (0xf0, 0); (0xf8, 0); (0xfc, 0); (0xfe, 0);
   (0xff, 0); (0xff, 0x80); (0xff, 0xc0)].

Definition kLengthToMask : list Z :=
  [0; 0x80; 0xc000; 0xe00000; 0xf0000000; 0xf800000000; 0xfc0000000000; 0xfe000000000000;
   0xff00000000000000; 0x8000000000000000; 0].

Definition kBitsToLength : list nat :=
  [1; 1; 1; 1; 1; 1; 1; 2; 2; 2; 2; 2; 2; 2; 3; 3; 3; 3; 3; 3; 3; 4;
   4; 4; 4; 4; 4; 4; 5; 5; 5; 5; 5; 5; 5; 6; 6; 6; 6; 6; 6; 6; 7; 7;
   7; 7; 7; 7; 7; 8; 8; 8; 8; 8; 8; 8; 9; 9; 9; 9; 9; 9; 9; 10]%nat.

(** [Log2Floor32_Portable]: a round of its loop, with [value] and [log]. *)
Definition log2_step (s : Z * Z) (i : Z) : Z * Z :=
  let '(value, log) := s in
  let shift := Z.shiftl 1 i in
  let x := Z.shiftr value shift in
  if negb (x =? 0) then (x, log + shift) else (value, log).

Definition Log2Floor32_Portable (n : Z) : Z :=
  if n =? 0 then -1 else (foldl log2_step (n, 0) [4; 3; 2; 1; 0]).2.

Definition Log2Floor64 (n : Z) : Z :=
  let topbits := u32 (Z.shiftr n 32) in
  if topbits =? 0 then Log2Floor32_Portable (u32 n) else 32 + Log2Floor32_Portable topbits.

Definition SignedEncodingLength (n : Z) : nat :=
  nth (Z.to_nat (Log2Floor64 (if n <? 0 then Z.lnot n else n) + 1)) kBitsToLength 0%nat.

Definition StoreBigEndian64 (v : Z) : list Z :=
  (λ i, Z.land (Z.shiftr v (56 - 8 * i)) 255) <$> [0; 1; 2; 3; 4; 5; 6; 7].

Definition LoadBigEndian64 (src : list Z) : Z :=
  foldl (λ result i, Z.lor result (Z.shiftl (byte_at src i) (56 - 8 * Z.of_nat i))) 0
    [0; 1; 2; 3; 4; 5; 6; 7]%nat.

(** [begin[0] ^= ..., begin[1] ^= ...]. *)
Definition xor_header (h : Z * Z) (begin : list Z) : list Z :=
  match begin with
  | b0 :: b1 :: rest => Z.lxor b0 h.1 :: Z.lxor b1 h.2 :: rest
  | _ => begin
  end.

Definition WriteSignedNumIncreasing (dest : list Z) (val : Z) : list Z :=
  let x := u64 (if val <? 0 then Z.lnot val else val) in
  if x <? 64 then dest ++ [uchar (Z.lxor (nth 1 kLengthToHeaderBits (0, 0)).1 val)]
  else
    let sign_byte := if val <? 0 then 255 else 0 in
    let buf := sign_byte :: sign_byte :: StoreBigEndian64 (u64 val) in
    let len := SignedEncodingLength (i64 x) in
    dest ++ xor_header (nth len kLengthToHeaderBits (0, 0)) (drop (length buf - len) buf).

(** [x ^= kLengthToMask[len]] and what follows it. *)
Definition finish_signed (src : list Z) (len : nat) (x : Z) : option (Z * list Z) :=
  Some (i64 (Z.lxor x (nth len kLengthToMask 0)), drop len src).

Definition ReadSignedNumIncreasing (src : list Z) : option (Z * list Z) :=
  match src with
  | [] => None
  | _ =>
      let xor_mask := if Z.land (byte_at src 0) 0x80 =? 0 then 2 ^ 64 - 1 else 0 in
      let first_byte := Z.lxor (byte_at src 0) (Z.land xor_mask 0xff) in
      if negb (first_byte =? 0xff) then
        let len := Z.to_nat (7 - Log2Floor64 (Z.lxor first_byte 0xff)) in
        if bool_decide (length src < len)%nat then None
        else finish_signed src len
               (foldl (λ x b, Z.lor (u64 (Z.shiftl x 8)) b) xor_mask (take len src))
      else if bool_decide (length src < 8)%nat then None
      else
        let second_byte := Z.lxor (byte_at src 1) (Z.land xor_mask 0xff) in
        let read len :=
          if bool_decide (length src < len)%nat then None
          else finish_signed src len (LoadBigEndian64 (drop (len - 8) src)) in
        if second_byte >=? 0x80 then
          if second_byte <? 0xc0 then read 9%nat
          else
            let third_byte := Z.lxor (byte_at src 2) (Z.land xor_mask 0xff) in
            if (second_byte =? 0xc0) && (third_byte <? 0x80) then read 10%nat else None
        else read 8%nat
  end.

(** * Specification *)

(** What a writer and a reader of one kind of item promise: the reader undoes the
    writer, and the order of items is that of their encodings, whatever follows
    them. *)
Class OrderedCodec {A} (valid : A → Prop) (lt : A → A → Prop)
    (write : list Z → A → list Z) (read : list Z → option (A * list Z)) := {
  codec_append dest a : write dest a = dest ++ write [] a;
  codec_bytes a : valid a → Forall is_byte (write [] a);
  codec_round_trip a rest : valid a → Forall is_byte rest →
    read (write [] a ++ rest) = Some (a, rest);
  codec_order a b x y : valid a → valid b → lt a b →
    bytes_ltb (write [] a ++ x) (write [] b ++ y) = true }.

(** * Byte strings *)

(** The number a byte string denotes, most significant byte first. *)
Definition be (l : list Z) : Z := foldl (λ t b, t * 256 + b) 0 l.

Lemma be_acc l t : foldl (λ t b, t * 256 + b) t l = t * 256 ^ Z.of_nat (length l) + be l.
Proof.
  unfold be. revert t. induction l as [|b l IH]; intros t; cbn [foldl length]; [lia|].
  rewrite (IH (t * 256 + b)), (IH (0 * 256 + b)), Nat2Z.inj_succ, Z.pow_succ_r by lia. lia.
Qed.

Lemma be_cons b l : be (b :: l) = b * 256 ^ Z.of_nat (length l) + be l.
Proof. unfold be at 1. cbn [foldl]. rewrite be_acc. lia. Qed.

Lemma be_range l : Forall is_byte l → 0 <= be l < 256 ^ Z.of_nat (length l).
Proof.
  induction 1 as [|b l Hb _ IH]; [done|]. rewrite be_cons. cbn [length].
  rewrite Nat2Z.inj_succ, Z.pow_succ_r by lia. unfold is_byte in Hb. nia.
Qed.

(** Byte strings compare as the numbers their beginnings denote. *)
Lemma be_ltb k a b x y :
  Forall is_byte a → Forall is_byte b → (k <= length a)%nat → (k <= length b)%nat →
  be (take k a) < be (take k b) → bytes_ltb (a ++ x) (b ++ y) = true.
Proof.
  intros Ha. revert k b. induction Ha as [|c a Hc Ha IH]; intros k b Hb Hka Hkb Hlt.
  { destruct k; [|simpl in *; lia]. unfold be in Hlt. simpl in Hlt. lia. }
  destruct k as [|k]; [unfold be in Hlt; simpl in Hlt; lia|].
  destruct Hb as [|d b Hd Hb]; [simpl in *; lia|]. cbn [take] in Hlt. simpl in Hka, Hkb.
  rewrite !be_cons, !length_take_le in Hlt by lia. cbn [app bytes_ltb].
  pose proof (be_range (take k a) ltac:(by apply Forall_take)) as Ra.
  pose proof (be_range (take k b) ltac:(by apply Forall_take)) as Rb.
  rewrite length_take_le in Ra, Rb by lia.
  destruct (Z.ltb_spec c d); [done|]. destruct (Z.eqb_spec c d) as [->|].
  - apply (IH k); try done; lia.
  - exfalso. assert (d + 1 <= c) by lia. nia.
Qed.

(** * Strings *)

(** The encoding of one character. *)
Definition escape (c : Z) : list Z :=
  if c =? 0 then [kEscape1; kNullCharacter]
  else if c =? 255 then [kEscape2; kFFCharacter] else [c].

Lemma IsSpecialByte_spec c : is_byte c → IsSpecialByte c = (c =? 0) || (c =? 255).
Proof.
  unfold is_byte, IsSpecialByte, uchar. intros Hc.
  destruct (Z.eqb_spec c 0) as [->|]; [done|]. destruct (Z.eqb_spec c 255) as [->|]; [done|].
  rewrite Z.mod_small by lia. simpl. apply Z.ltb_ge. lia.
Qed.

Lemma SkipToNextSpecialByte_spec l :
  Forall is_byte l →
  let '(run, p) := SkipToNextSpecialByte l in
  l = run ++ p ∧ run ≫= escape = run ∧
  match p with [] => True | c :: _ => c = 0 ∨ c = 255 end.
Proof.
  induction 1 as [|c l Hc Hl IH]; cbn [SkipToNextSpecialByte]; [done|].
  rewrite IsSpecialByte_spec by done.
  destruct ((c =? 0) || (c =? 255)) eqn:E; simpl negb; cbv iota.
  - split_and!; [done..|]. apply orb_true_iff in E as [?%Z.eqb_eq|?%Z.eqb_eq]; auto.
  - destruct (SkipToNextSpecialByte l) as [run p]. destruct IH as (->&Hrun&Hp).
    split_and!; [done| |done]. rewrite bind_cons, Hrun.
    apply orb_false_iff in E as [E1 E2]. unfold escape at 1. by rewrite E1, E2.
Qed.

Lemma encode_fragment_spec fuel dest s :
  Forall is_byte s → (length s <= fuel)%nat → encode_fragment fuel dest s = dest ++ (s ≫= escape).
Proof.
  revert dest s. induction fuel as [|fuel IH]; intros dest s Hs Hf.
  { destruct s; [by cbn; rewrite app_nil_r|simpl in Hf; lia]. }
  cbn [encode_fragment]. pose proof (SkipToNextSpecialByte_spec s Hs) as H.
  destruct (SkipToNextSpecialByte s) as [run p]. destruct H as (->&Hrun&Hp).
  rewrite bind_app, Hrun. apply Forall_app in Hs as [_ Hs].
  destruct p as [|c p]; [by rewrite app_nil_r|].
  rewrite length_app in Hf. simpl in Hf. apply Forall_cons in Hs as [_ Hs].
  destruct Hp as [->| ->]; cbn [Z.eqb kEscape1]; rewrite IH by (done || lia);
    rewrite <-!app_assoc; done.
Qed.

(** The fragment encoder, which copies runs, encodes character by character. *)
Lemma WriteString_spec dest s :
  Forall is_byte s → WriteString dest s = dest ++ (s ≫= escape) ++ [0; 1].
Proof.
  intros. unfold WriteString, EncodeStringFragment. rewrite encode_fragment_spec by done.
  by rewrite <-app_assoc.
Qed.

(** A reader that takes one character at a time. *)
Fixpoint read_chars (p result : list Z) : option (list Z * list Z) :=
  match p with
  | [] => None
  | c :: rest =>
      if c =? 0 then
        match rest with
        | next :: rest =>
            if next =? 1 then Some (result, rest)
            else if next =? 255 then read_chars rest (result ++ [0]) else None
        | [] => None
        end
      else if c =? 255 then
        match rest with
        | next :: rest => if next =? 0 then read_chars rest (result ++ [255]) else None
        | [] => None
        end
      else read_chars rest (result ++ [c])
  end.

Lemma read_string_plain fuel c p result :
  is_byte c → c ≠ 0 → c ≠ 255 → p ≠ [] →
  read_string (S fuel) (c :: p) result = read_string (S fuel) p (result ++ [c]).
Proof.
  intros Hc H0 H255 Hp. cbn [read_string].
  assert (take (length (c :: p) - 1) (c :: p) = c :: take (length p - 1) p) as ->.
  { destruct p; [done|]. by rewrite !length_cons, !Nat.sub_succ, !Nat.sub_0_r. }
  cbn [SkipToNextSpecialByte]. rewrite IsSpecialByte_spec by done.
  rewrite (proj2 (Z.eqb_neq _ _) H0), (proj2 (Z.eqb_neq _ _) H255). simpl negb. cbv iota.
  destruct (SkipToNextSpecialByte (take (length p - 1) p)) as [run [|d tail]]; [done|].
  cbn [length drop]. rewrite <-!app_assoc. done.
Qed.

Lemma read_string_special fuel c p result :
  c = 0 ∨ c = 255 → p ≠ [] →
  read_string (S fuel) (c :: p) result =
  match p with
  | next :: rest =>
      if c =? 0 then
        if next =? 1 then Some (result, rest)
        else if next =? 255 then read_string fuel rest (result ++ [0]) else None
      else if next =? 0 then read_string fuel rest (result ++ [255]) else None
  | [] => None
  end.
Proof.
  intros Hc Hp. cbn [read_string]. destruct p as [|next rest]; [done|].
  assert (take (length (c :: next :: rest) - 1) (c :: next :: rest) =
    c :: take (length rest) (next :: rest)) as ->.
  { by rewrite !length_cons, !Nat.sub_succ, Nat.sub_0_r. }
  cbn [SkipToNextSpecialByte].
  assert (IsSpecialByte c = true) as -> by (by destruct Hc as [->| ->]).
  simpl negb. cbv iota. cbn [length drop app]. by rewrite app_nil_r.
Qed.

Lemma read_string_chars fuel p result :
  Forall is_byte p → (length p <= fuel)%nat → read_string fuel p result = read_chars p result.
Proof.
  revert fuel result. induction p as [p IH] using (induction_ltof1 _ length).
  unfold ltof in IH. intros fuel result Hp Hf.
  destruct p as [|c p]; [by destruct fuel|]. destruct fuel as [|fuel]; [simpl in Hf; lia|].
  apply Forall_cons in Hp as [Hc Hp]. simpl in Hf.
  destruct p as [|next p].
  { cbn. by destruct (c =? 0), (c =? 255). }
  cbn [read_chars]. destruct (Z.eqb_spec c 0) as [->|H0].
  { rewrite read_string_special by auto. simpl (0 =? 0). cbv iota.
    apply Forall_cons in Hp as [_ Hp]. simpl in Hf.
    by rewrite (IH p) by (done || simpl; lia). }
  destruct (Z.eqb_spec c 255) as [->|H255].
  { rewrite read_string_special by auto. simpl (255 =? 0). cbv iota.
    apply Forall_cons in Hp as [_ Hp]. simpl in Hf.
    by rewrite (IH p) by (done || simpl; lia). }
  rewrite read_string_plain by done. apply (IH (next :: p)); [simpl; lia|done|simpl in *; lia].
Qed.

Lemma read_chars_write t rest result :
  read_chars ((t ≫= escape) ++ [0; 1] ++ rest) result = Some (result ++ t, rest).
Proof.
  revert result. induction t as [|c t IH]; intros result; [cbn; by rewrite app_nil_r|].
  rewrite bind_cons, <-app_assoc. unfold escape at 1.
  destruct (Z.eqb_spec c 0) as [->|H0]; [|destruct (Z.eqb_spec c 255) as [->|H255]].
  - cbn [app read_chars]. simpl. rewrite IH. by rewrite <-app_assoc.
  - cbn [app read_chars]. simpl. rewrite IH. by rewrite <-app_assoc.
  - cbn [app read_chars]. rewrite (proj2 (Z.eqb_neq _ _) H0), (proj2 (Z.eqb_neq _ _) H255).
    rewrite IH. by rewrite <-app_assoc.
Qed.

Lemma read_chars_inv p result s rest :
  read_chars p result = Some (s, rest) →
  ∃ t, s = result ++ t ∧ p = (t ≫= escape) ++ [0; 1] ++ rest.
Proof.
  revert result. induction p as [p IH] using (induction_ltof1 _ length). unfold ltof in IH.
  intros result. destruct p as [|c p]; [done|]. cbn [read_chars].
  assert (∀ c' p', (length p' < length (c :: p))%nat → c :: p = escape c' ++ p' →
    read_chars p' (result ++ [c']) = Some (s, rest) →
    ∃ t, s = result ++ t ∧ c :: p = (t ≫= escape) ++ [0; 1] ++ rest) as Hstep.
  { intros c' p' Hlt -> Hread. destruct (IH p' Hlt _ Hread) as (t&->&->). exists (c' :: t).
    by rewrite bind_cons, <-!app_assoc. }
  destruct (Z.eqb_spec c 0) as [->|H0]; [|destruct (Z.eqb_spec c 255) as [->|H255]].
  - destruct p as [|next p]; [done|]. destruct (Z.eqb_spec next 1) as [->|].
    { intros [= <- <-]. exists []. by rewrite app_nil_r. }
    destruct (Z.eqb_spec next 255) as [->|]; [|done]. apply Hstep; [simpl; lia|done].
  - destruct p as [|next p]; [done|]. destruct (Z.eqb_spec next 0) as [->|]; [|done].
    apply Hstep; [simpl; lia|done].
  - apply Hstep; [simpl; lia|]. unfold escape.
    by rewrite (proj2 (Z.eqb_neq _ _) H0), (proj2 (Z.eqb_neq _ _) H255).
Qed.

Lemma escape_bytes s : Forall is_byte s → Forall is_byte (s ≫= escape).
Proof.
  induction 1 as [|c s Hc _ IH]; [constructor|]. rewrite bind_cons. apply Forall_app. split; [|done].
  unfold escape. destruct (c =? 0); [|destruct (c =? 255)]; rewrite ?Forall_cons; done.
Qed.

Lemma escape_bytes_inv s : Forall is_byte (s ≫= escape) → Forall is_byte s.
Proof.
  induction s as [|c s IH]; [done|]. rewrite bind_cons, Forall_app. intros [Hc Hs].
  constructor; [|by apply IH]. unfold escape in Hc.
  destruct (Z.eqb_spec c 0) as [->|]; [done|]. destruct (Z.eqb_spec c 255) as [->|]; [done|].
  by apply Forall_cons in Hc as [? _].
Qed.

Lemma WriteString_order a b x y :
  Forall is_byte a → Forall is_byte b → bytes_ltb a b = true →
  bytes_ltb ((a ≫= escape) ++ 0 :: 1 :: x) ((b ≫= escape) ++ 0 :: 1 :: y) = true.
Proof.
  intros Ha. revert b. induction Ha as [|c a Hc Ha IH]; intros b Hb; destruct Hb as [|d b Hd Hb];
    try done; cbn [bytes_ltb].
  - intros _. rewrite bind_cons. change (([] ≫= escape) ++ 0 :: 1 :: x) with (0 :: 1 :: x).
    unfold escape at 1.
    destruct (Z.eqb_spec d 0) as [->|]; [done|]. destruct (Z.eqb_spec d 255) as [->|]; [done|].
    cbn [app bytes_ltb]. rewrite (proj2 (Z.ltb_lt 0 d)) by (unfold is_byte in Hd; lia). done.
  - rewrite !bind_cons, <-!app_assoc. destruct (Z.ltb_spec c d) as [Hlt|Hge]; cbn [orb].
    + intros _. unfold is_byte in *. unfold escape at 1 3.
      rewrite (proj2 (Z.eqb_neq d 0)), (proj2 (Z.eqb_neq c 255)) by lia.
      destruct (Z.eqb_spec c 0) as [->|], (Z.eqb_spec d 255) as [->|]; cbn [app bytes_ltb];
        try (rewrite (proj2 (Z.ltb_lt _ _)) by (unfold kEscape1, kEscape2; lia)); done.
    + destruct (Z.eqb_spec c d) as [->|]; [|done]. cbn [andb]. intros Hab.
      assert (∀ l p q, bytes_ltb p q = true → bytes_ltb (l ++ p) (l ++ q) = true) as Hpre.
      { induction l as [|z l IHl]; intros p q Hpq; [done|]. cbn [app bytes_ltb].
        by rewrite Z.eqb_refl, IHl, orb_true_r by done. }
      apply Hpre. by apply IH.
Qed.

(** Reading strings. The reader accepts exactly what the writer produces: it
    returns [s] and leaves [rest] if and only if its input is the encoding of
    [s] followed by [rest]; every other input is rejected. *)
Theorem ReadString_spec (src s rest : list Z) :
  Forall is_byte src →
  ReadString src = Some (s, rest) ↔ Forall is_byte s ∧ src = WriteString [] s ++ rest.
Proof.
  intros Hsrc. unfold ReadString. rewrite read_string_chars by done. split.
  - intros H. apply read_chars_inv in H as (t&->&->). cbn [app].
    assert (Forall is_byte t) by (apply escape_bytes_inv; rewrite Forall_app in Hsrc; tauto).
    split; [done|]. rewrite WriteString_spec by done. cbn [app]. by rewrite <-app_assoc.
  - intros [Hs ->]. rewrite WriteString_spec by done. cbn [app]. rewrite <-app_assoc.
    apply read_chars_write.
Qed.

Lemma ReadString_spec_witness :
  ReadString [0; 255; 5; 255; 0; 0; 1; 9] = Some ([0; 5; 255], [9]).
Proof. apply ReadString_spec; [|split; [|reflexivity]]; repeat constructor; lia. Defined.

Lemma encode_fragment_append fuel dest p :
  encode_fragment fuel dest p = dest ++ encode_fragment fuel [] p.
Proof.
  revert dest p. induction fuel as [|fuel IH]; intros dest p; cbn [encode_fragment];
    destruct (SkipToNextSpecialByte p) as [run [|c q]]; cbn [app]; try done.
  destruct (c =? kEscape1); rewrite IH; symmetry; rewrite IH; by rewrite <-!app_assoc.
Qed.

Lemma separator_bytes rest : Forall is_byte rest → Forall is_byte (0 :: 1 :: rest).
Proof. intros. rewrite !Forall_cons. unfold is_byte. split_and!; [lia..|done]. Qed.

(** The bytes of an escaped character followed by a one look like a separator. *)
Example TEST_Corrupt_payload :
  ReadString (TEST_Corrupt (WriteString [] [65]) 1) = None ∧
  ReadString (TEST_Corrupt (WriteString [] [255; 1]) 1) = Some ([255; 2], []).
Proof. split; reflexivity. Qed.

#[export] Instance string_codec :
  OrderedCodec (Forall is_byte) (λ a b, bytes_ltb a b = true) WriteString ReadString.
Proof.
  split.
  - intros dest a. unfold WriteString, EncodeStringFragment.
    rewrite encode_fragment_append. by rewrite app_assoc.
  - intros a Ha. rewrite WriteString_spec by done. cbn [app].
    apply Forall_app. split; [by apply escape_bytes|by apply separator_bytes].
  - intros a rest Ha Hrest. rewrite WriteString_spec by done. cbn [app]. rewrite <-app_assoc.
    unfold ReadString. rewrite read_string_chars; [apply read_chars_write| |done].
    apply Forall_app. split; [by apply escape_bytes|by apply separator_bytes].
  - intros a b x y Ha Hb Hab. rewrite !WriteString_spec by done. cbn [app].
    rewrite <-!app_assoc. by apply WriteString_order.
Qed.

(** * Unsigned numbers *)

Lemma be_app a b : be (a ++ b) = be a * 256 ^ Z.of_nat (length b) + be b.
Proof. unfold be at 1. by rewrite foldl_app, be_acc. Qed.

Lemma be_singleton b : be [b] = b.
Proof. unfold be. cbn [foldl]. lia. Qed.

(** The bytes of a number, without leading zeros. *)
Lemma num_bytes_spec fuel val buf :
  0 <= val < 256 ^ Z.of_nat fuel →
  ∃ l, num_bytes fuel val buf = l ++ buf ∧ Forall is_byte l ∧ be l = val ∧ (length l <= fuel)%nat ∧
    (l = [] ∨ 256 ^ (Z.of_nat (length l) - 1) <= val).
Proof.
  revert val buf. induction fuel as [|fuel IH]; intros val buf Hv.
  { exists []. simpl in Hv. unfold be. simpl. split_and!; try done; auto; lia. }
  cbn [num_bytes]. rewrite Z.gtb_ltb. destruct (Z.ltb_spec 0 val).
  2: { exists []. unfold be. simpl. split_and!; try done; auto; lia. }
  rewrite land_255, Z.shiftr_div_pow2 by lia. change (2 ^ 8) with 256.
  rewrite Nat2Z.inj_succ, Z.pow_succ_r in Hv by lia.
  destruct (IH (val / 256) (val mod 256 :: buf)) as (l&->&Hl&Hbe&Hlen&Hmin); [lia|].
  exists (l ++ [val mod 256]). rewrite <-app_assoc, be_app, be_singleton, length_app, Hbe.
  cbn [length]. split_and!; [done| | |lia|right].
  - apply Forall_app. split; [done|]. repeat constructor; lia.
  - change (Z.of_nat 1) with 1. lia.
  - replace (Z.of_nat (length l + 1) - 1) with (Z.of_nat (length l)) by lia.
    destruct Hmin as [->|Hmin]; [simpl; lia|].
    destruct l as [|b l]; [simpl; lia|]. cbn [length] in *. rewrite Nat2Z.inj_succ in *.
    rewrite Z.pow_succ_r by lia.
    replace (Z.succ (Z.of_nat (length l)) - 1) with (Z.of_nat (length l)) in Hmin by lia. lia.
Qed.

(** The loop that shifts bytes into a 64-bit number. *)
Lemma shift_in_be l t :
  Forall is_byte l → 0 <= t → t * 256 ^ Z.of_nat (length l) + be l < 2 ^ 64 →
  foldl (λ x b, Z.lor (u64 (Z.shiftl x 8)) b) t l = t * 256 ^ Z.of_nat (length l) + be l.
Proof.
  intros Hl. revert t. induction Hl as [|b l Hb Hl IH]; intros t Ht Hlt.
  { cbn [foldl length]. unfold be. simpl. lia. }
  cbn [foldl]. pose proof (be_range l Hl) as Hr. rewrite be_cons in *. cbn [length] in *.
  rewrite Nat2Z.inj_succ, Z.pow_succ_r in * by lia. unfold is_byte in Hb.
  assert (1 <= 256 ^ Z.of_nat (length l)) by lia.
  rewrite u64_small by (unfold is_u64; rewrite Z.shiftl_mul_pow2 by lia; nia).
  rewrite Z.lor_comm, lor_shiftl by lia. change (2 ^ 8) with 256. rewrite IH; nia.
Qed.

Lemma WriteNumIncreasing_bytes val :
  is_u64 val → ∃ l, WriteNumIncreasing [] val = Z.of_nat (length l) :: l ∧ Forall is_byte l ∧
    be l = val ∧ (length l <= 8)%nat ∧ (l = [] ∨ 256 ^ (Z.of_nat (length l) - 1) <= val).
Proof.
  intros Hv. destruct (num_bytes_spec 8 val []) as (l&E&Hl); [exact Hv|].
  exists l. unfold WriteNumIncreasing. by rewrite E, app_nil_r.
Qed.

#[export] Instance num_codec : OrderedCodec is_u64 Z.lt WriteNumIncreasing ReadNumIncreasing.
Proof.
  split.
  - done.
  - intros a Ha. destruct (WriteNumIncreasing_bytes a Ha) as (l&->&Hl&_&Hlen&_).
    constructor; [unfold is_byte; lia|done].
  - intros a rest Ha _. destruct (WriteNumIncreasing_bytes a Ha) as (l&->&Hl&Hbe&Hlen&_).
    unfold ReadNumIncreasing. cbn [app]. rewrite Nat2Z.id, length_cons, length_app.
    rewrite !bool_decide_false by lia. cbn [orb]. rewrite take_app_length.
    replace (length l + 1)%nat with (S (length l)) by lia. cbn [drop]. rewrite drop_app_length.
    rewrite shift_in_be; [|done|lia|unfold is_u64 in Ha; lia]. by rewrite Z.mul_0_l, Hbe.
  - intros a b x y Ha Hb Hab.
    destruct (WriteNumIncreasing_bytes a Ha) as (la&->&Hla&<-&Hlena&Hmina).
    destruct (WriteNumIncreasing_bytes b Hb) as (lb&->&Hlb&<-&Hlenb&Hminb).
    cbn [app bytes_ltb]. destruct (Z.ltb_spec (Z.of_nat (length la)) (Z.of_nat (length lb))); [done|].
    pose proof (be_range la Hla). pose proof (be_range lb Hlb).
    assert (length la = length lb) as E.
    { destruct (decide (length la = length lb)) as [|Hne]; [done|exfalso].
      destruct Hmina as [->|Hmin]; [simpl in *; lia|].
      assert (256 ^ Z.of_nat (length lb) <= 256 ^ (Z.of_nat (length la) - 1))
        by (apply Z.pow_le_mono_r; lia). lia. }
    rewrite E, Z.eqb_refl. cbn [andb orb].
    apply (be_ltb (length la)); [done..| |]; rewrite ?E; [done|].
    rewrite <-E at 1. by rewrite !firstn_all.
Qed.

(** * Signed numbers *)

(** A round of the binary search keeps the logarithm and halves the bits. *)
Lemma log2_step_spec i value log :
  0 <= i → 0 < value < 2 ^ (2 * 2 ^ i) →
  let '(value', log') := log2_step (value, log) i in
  0 < value' < 2 ^ (2 ^ i) ∧ log' + Z.log2 value' = log + Z.log2 value.
Proof.
  intros Hi Hv. unfold log2_step. rewrite Z.shiftl_1_l.
  assert (0 < 2 ^ i) by lia.
  assert (2 ^ (2 * 2 ^ i) = 2 ^ 2 ^ i * 2 ^ 2 ^ i) as Hsq by (rewrite <-Z.pow_add_r by lia; f_equal; lia).
  rewrite Hsq in Hv. assert (0 < 2 ^ 2 ^ i) by lia.
  pose proof (Z.shiftr_div_pow2 value (2 ^ i) ltac:(lia)) as Hx.
  destruct (Z.eqb_spec (Z.shiftr value (2 ^ i)) 0) as [E|E]; cbn [negb].
  - rewrite E in Hx. split; [|done]. symmetry in Hx. apply Z.div_small_iff in Hx; lia.
  - pose proof (Z.log2_shiftr value (2 ^ i) ltac:(lia)) as Hlog.
    assert (0 <= value / 2 ^ 2 ^ i) by (apply Z.div_pos; lia).
    assert (2 ^ 2 ^ i <= value).
    { destruct (Z.ltb_spec value (2 ^ 2 ^ i)); [|done]. rewrite Z.div_small in Hx by lia. done. }
    assert (2 ^ i <= Z.log2 value) by (apply (Z.log2_le_pow2 value (2 ^ i)); [lia|done]).
    split; [|lia]. split; [lia|]. rewrite Hx. apply Z.div_lt_upper_bound; lia.
Qed.

Lemma Log2Floor32_Portable_spec n : 0 < n < 2 ^ 32 → Log2Floor32_Portable n = Z.log2 n.
Proof.
  intros Hn. unfold Log2Floor32_Portable. rewrite (proj2 (Z.eqb_neq n 0)) by lia. cbn [foldl].
  pose proof (log2_step_spec 4 n 0 ltac:(lia) Hn) as H.
  destruct (log2_step (n, 0) 4) as [v4 l4]. destruct H as [H4 E4].
  pose proof (log2_step_spec 3 v4 l4 ltac:(lia) H4) as H.
  destruct (log2_step (v4, l4) 3) as [v3 l3]. destruct H as [H3 E3].
  pose proof (log2_step_spec 2 v3 l3 ltac:(lia) H3) as H.
  destruct (log2_step (v3, l3) 2) as [v2 l2]. destruct H as [H2 E2].
  pose proof (log2_step_spec 1 v2 l2 ltac:(lia) H2) as H.
  destruct (log2_step (v2, l2) 1) as [v1 l1]. destruct H as [H1 E1].
  pose proof (log2_step_spec 0 v1 l1 ltac:(lia) H1) as H.
  destruct (log2_step (v1, l1) 0) as [v0 l0]. destruct H as [H0 E0].
  assert (v0 = 1) as -> by (simpl in H0; lia). simpl snd. simpl Z.log2 in E0. lia.
Qed.

Lemma Log2Floor64_spec n : 0 < n < 2 ^ 64 → Log2Floor64 n = Z.log2 n.
Proof.
  intros Hn. unfold Log2Floor64.
  rewrite (Z.shiftr_div_pow2 n 32), (u32_small (n / 2 ^ 32)) by (unfold is_u32; lia).
  destruct (Z.eqb_spec (n / 2 ^ 32) 0) as [E|E].
  - rewrite u32_small by (unfold is_u32; lia). apply Log2Floor32_Portable_spec. lia.
  - rewrite Log2Floor32_Portable_spec, <-Z.shiftr_div_pow2, Z.log2_shiftr by lia.
    assert (32 <= Z.log2 n) by (apply Z.log2_le_pow2; lia). lia.
Qed.

Lemma kBitsToLength_spec b : (b < 64)%nat → nth b kBitsToLength 0%nat = (b / 7 + 1)%nat.
Proof.
  intros Hb. assert (∀ i, i ∈ seq 0 64 → nth i kBitsToLength 0%nat = (i / 7 + 1)%nat) as H.
  { apply Forall_forall. apply (bool_decide_unpack _). vm_compute. exact I. }
  apply H, elem_of_seq. lia.
Qed.

(** A non-negative number is encoded in the least [n] bytes for which it is
    below 2^(7n-1). *)
Lemma SignedEncodingLength_spec v :
  64 <= v < 2 ^ 63 →
  let n := Z.of_nat (SignedEncodingLength v) in
  2 <= n <= 10 ∧ 2 ^ (7 * (n - 1) - 1) <= v < 2 ^ (7 * n - 1).
Proof.
  intros Hv n. subst n. unfold SignedEncodingLength. rewrite (proj2 (Z.ltb_ge v 0)) by lia.
  rewrite Log2Floor64_spec by lia. pose proof (Z.log2_spec v ltac:(lia)) as Hl.
  assert (6 <= Z.log2 v) by (apply Z.log2_le_pow2; lia).
  assert (Z.log2 v < 63) by (apply Z.log2_lt_pow2; lia).
  rewrite kBitsToLength_spec, Nat2Z.inj_add, Nat2Z.inj_div, Z2Nat.id by lia.
  change (Z.of_nat 7) with 7. change (Z.of_nat 1) with 1. split; [lia|]. split.
  - apply Z.le_trans with (2 ^ Z.log2 v); [apply Z.pow_le_mono_r; lia|exact (proj1 Hl)].
  - apply Z.lt_le_trans with (2 ^ (Z.succ (Z.log2 v)));
      [exact (proj2 Hl)|apply Z.pow_le_mono_r; lia].
Qed.

Lemma StoreBigEndian64_bytes v :
  StoreBigEndian64 v = [v / 2 ^ 56 mod 256; v / 2 ^ 48 mod 256; v / 2 ^ 40 mod 256;
    v / 2 ^ 32 mod 256; v / 2 ^ 24 mod 256; v / 2 ^ 16 mod 256; v / 2 ^ 8 mod 256; v mod 256].
Proof.
  unfold StoreBigEndian64. cbn [fmap list_fmap]. rewrite !land_255, !Z.shiftr_div_pow2 by lia.
  repeat (apply (f_equal2 cons); [f_equal; try done|]); [apply Z.div_1_r|done].
Qed.

Lemma lor_next h c s : 0 <= s → is_byte c → h mod (256 * 2 ^ s) = 0 →
  Z.lor h (Z.shiftl c s) = h + c * 2 ^ s.
Proof.
  intros Hs Hc Hh. unfold is_byte in Hc. assert (0 < 2 ^ s) by lia.
  assert (2 ^ (s + 8) = 256 * 2 ^ s) as E by (rewrite Z.pow_add_r by lia; lia).
  rewrite Z.shiftl_mul_pow2 by done. rewrite Z.lor_comm, (lor_hi _ _ (s + 8)); rewrite ?E; [lia|lia|nia|done].
Qed.

Lemma LoadBigEndian64_be l rest :
  Forall is_byte l → length l = 8%nat → LoadBigEndian64 (l ++ rest) = be l.
Proof.
  intros Hl Hlen. destruct l as [|b0 [|b1 [|b2 [|b3 [|b4 [|b5 [|b6 [|b7 [|? l]]]]]]]]]; try done.
  rewrite !Forall_cons in Hl. destruct Hl as (?&?&?&?&?&?&?&?&_).
  trans (Z.lor (Z.lor (Z.lor (Z.lor (Z.lor (Z.lor (Z.lor (Z.lor 0 (Z.shiftl b0 56))
    (Z.shiftl b1 48)) (Z.shiftl b2 40)) (Z.shiftl b3 32)) (Z.shiftl b4 24)) (Z.shiftl b5 16))
    (Z.shiftl b6 8)) (Z.shiftl b7 0)); [done|].
  rewrite (lor_next _ b0), (lor_next _ b1), (lor_next _ b2), (lor_next _ b3), (lor_next _ b4),
    (lor_next _ b5), (lor_next _ b6), (lor_next _ b7) by (try done; lia).
  unfold be. cbn [foldl]. lia.
Qed.

(** The encoding of a non-negative number is its big-endian form with as many
    leading one bits as there are bytes. *)
Definition nonneg_code (v : Z) (n : nat) (e : list Z) : Prop :=
  length e = n ∧ Forall is_byte e ∧ be e = v + (256 ^ Z.of_nat n - 128 ^ Z.of_nat n) ∧
  (1 <= n <= 10)%nat ∧ 2 * v < 128 ^ Z.of_nat n ∧
  (n = 1%nat ∨ 128 ^ (Z.of_nat n - 1) <= 2 * v).

Lemma write_nonneg_small v : 0 <= v < 64 → nonneg_code v 1 (WriteSignedNumIncreasing [] v).
Proof.
  intros Hv. unfold WriteSignedNumIncreasing. rewrite (proj2 (Z.ltb_ge v 0)) by lia.
  rewrite u64_small by (unfold is_u64; lia). rewrite (proj2 (Z.ltb_lt v 64)) by lia.
  cbn [nth kLengthToHeaderBits fst app]. rewrite Z.lxor_comm, (lxor_hi v 128 7) by (done || lia).
  unfold uchar. rewrite Z.mod_small by lia. unfold nonneg_code. rewrite be_singleton.
  split_and!; try done; try lia. repeat constructor; lia.
Qed.

Lemma write_nonneg_large v :
  64 <= v < 2 ^ 63 →
  nonneg_code v (SignedEncodingLength v) (WriteSignedNumIncreasing [] v).
Proof.
  intros Hv. unfold WriteSignedNumIncreasing. rewrite (proj2 (Z.ltb_ge v 0)) by lia.
  rewrite u64_small by (unfold is_u64; lia). rewrite (proj2 (Z.ltb_ge v 64)) by lia.
  assert (i64 v = v) as -> by (unfold i64; lia).
  pose proof (SignedEncodingLength_spec v Hv) as Hn. cbv zeta in Hn.
  set (n := SignedEncodingLength v) in *. clearbody n. rewrite StoreBigEndian64_bytes.
  unfold nonneg_code, be.
  assert (n = 2 ∨ n = 3 ∨ n = 4 ∨ n = 5 ∨ n = 6 ∨ n = 7 ∨ n = 8 ∨ n = 9 ∨ n = 10)%nat as Hcases by lia.
  destruct Hcases as [->|[->|[->|[->|[->|[->|[->|[->| ->]]]]]]]];
    cbn [length Nat.sub drop app xor_header nth kLengthToHeaderBits fst snd foldl];
    rewrite ?Z.lxor_0_r, ?Z.lxor_0_l.
  1: rewrite (lxor_hi _ _ 6) by (done || lia).
  2: rewrite (lxor_hi _ _ 5) by (done || lia).
  3: rewrite (lxor_hi _ _ 4) by (done || lia).
  4: rewrite (lxor_hi _ _ 3) by (done || lia).
  5: rewrite (lxor_hi _ _ 2) by (done || lia).
  6: rewrite (lxor_hi _ _ 1) by (done || lia).
  7: rewrite (lxor_hi _ _ 0) by (done || lia).
  8: rewrite (lxor_hi _ _ 7) by (done || lia).
  all: split_and!; [done|rewrite !Forall_cons; unfold is_byte; split_and!; (apply Forall_nil_2 || lia)|lia|lia|lia|lia|].
  all: right; lia.
Qed.

Lemma lxor_255 b : is_byte b → Z.lxor b 255 = 255 - b.
Proof.
  intros Hb. unfold is_byte in Hb.
  assert (∀ i, i ∈ seqZ 0 256 → Z.lxor i 255 = 255 - i) as H.
  { apply Forall_forall, (bool_decide_unpack _). vm_compute. exact I. }
  apply H, elem_of_seqZ. lia.
Qed.

(** The reader on a first byte with [n] leading ones, at most seven. *)
Lemma read_short b0 p n :
  (1 <= n <= 7)%nat → 256 - 2 ^ (8 - Z.of_nat n) <= b0 < 256 - 2 ^ (7 - Z.of_nat n) →
  (n <= length (b0 :: p))%nat → 
  ReadSignedNumIncreasing (b0 :: p) =
    finish_signed (b0 :: p) n
      (foldl (λ x b, Z.lor (u64 (Z.shiftl x 8)) b) 0 (take n (b0 :: p))).
Proof.
  intros Hn Hb Hlen. unfold ReadSignedNumIncreasing. unfold byte_at. cbn [nth].
  assert (2 ^ (8 - Z.of_nat n) = 2 * 2 ^ (7 - Z.of_nat n)) as E8.
  { replace (8 - Z.of_nat n) with (Z.succ (7 - Z.of_nat n)) by lia. apply Z.pow_succ_r. lia. }
  assert (1 <= 2 ^ (7 - Z.of_nat n) <= 2 ^ 6).
  { split; [lia|]. apply Z.pow_le_mono_r; lia. }
  rewrite land_128 by (unfold is_byte; lia). rewrite (proj2 (Z.ltb_ge b0 128)) by lia.
  simpl (128 =? 0). cbv iota. rewrite Z.land_0_l, Z.lxor_0_r.
  rewrite (proj2 (Z.eqb_neq b0 255)) by lia. cbn [negb]. rewrite lxor_255 by (unfold is_byte; lia).
  rewrite Log2Floor64_spec by lia. rewrite (Z.log2_unique _ (7 - Z.of_nat n)); [|lia|].
  2: { replace (Z.succ (7 - Z.of_nat n)) with (8 - Z.of_nat n) by lia. lia. }
  replace (Z.to_nat (7 - (7 - Z.of_nat n))) with n by lia.
  by rewrite bool_decide_false by lia.
Qed.

Lemma kLengthToMask_short n :
  (1 <= n <= 8)%nat → nth n kLengthToMask 0 = 256 ^ Z.of_nat n - 128 ^ Z.of_nat n.
Proof.
  intros Hn. assert (∀ i, i ∈ seq 1 8 → nth i kLengthToMask 0 = 256 ^ Z.of_nat i - 128 ^ Z.of_nat i) as H.
  { apply Forall_forall, (bool_decide_unpack _). vm_compute. exact I. }
  apply H, elem_of_seq. lia.
Qed.

(** [finish_signed] takes the header bits of a code off. *)
Lemma finish_nonneg v n e rest :
  0 <= v → nonneg_code v n e → (n <= 8)%nat →
  finish_signed (e ++ rest) n (be e) = Some (v, rest).
Proof.
  intros H0 (Hlen&He&Hbe&Hn&Hv&_) H8. unfold finish_signed.
  rewrite kLengthToMask_short by lia. rewrite Hbe. subst n. rewrite drop_app_length.
  set (k := Z.of_nat (length e)) in *.
  assert (2 ^ (7 * k) = 128 ^ k) as E7 by (rewrite Z.pow_mul_r by lia; f_equal).
  assert (256 ^ k = 2 ^ k * 128 ^ k) as E8 by (rewrite <-Z.pow_mul_l; f_equal).
  assert (128 ^ k <= 128 ^ 8) by (apply Z.pow_le_mono_r; lia).
  rewrite (lxor_undo v _ (7 * k)); [|lia|lia|].
  - unfold i64. f_equal. f_equal. lia.
  - rewrite E7, E8. replace (2 ^ k * 128 ^ k - 128 ^ k) with ((2 ^ k - 1) * 128 ^ k) by lia.
    apply Z.mod_mul. lia.
Qed.

Lemma read_nonneg_short v n e rest :
  0 <= v → nonneg_code v n e → (n <= 7)%nat →
  ReadSignedNumIncreasing (e ++ rest) = Some (v, rest).
Proof.
  intros H0 Hcode H7. pose proof Hcode as (Hlen&He&Hbe&Hn&Hv&_).
  pose proof (be_range e He) as Hr. destruct e as [|b0 e]; [simpl in Hlen; lia|].
  inversion He as [|?? Hb0 He']; subst. pose proof (be_range e He') as Hr'.
  rewrite be_cons in Hbe. cbn [length] in *.
  change ((b0 :: e) ++ rest) with (b0 :: (e ++ rest)) at 1.
  rewrite (read_short b0 (e ++ rest) (S (length e))); [|lia| |rewrite length_cons, length_app; lia].
  - change (b0 :: e ++ rest) with ((b0 :: e) ++ rest).
    rewrite (take_app_length' (b0 :: e)) by done.
    rewrite shift_in_be; [|done|lia|].
    + rewrite Z.mul_0_l, Z.add_0_l. by apply finish_nonneg; [| |lia].
    + assert (256 ^ Z.of_nat (length (b0 :: e)) <= 256 ^ 7)
        by (apply Z.pow_le_mono_r; cbn [length]; lia). cbn [length] in *. lia.
  - clear Hcode Hr. set (k := length e) in *. clearbody k.
    do 7 (destruct k as [|k]; [lia|]). lia.
Qed.

(** The reader on a first byte of eight ones. *)
Lemma read_long b1 b2 p :
  let src := 255 :: b1 :: b2 :: p in
  (8 <= length src)%nat →
  ReadSignedNumIncreasing src =
    if b1 >=? 128 then
      if b1 <? 192 then
        if bool_decide (length src < 9)%nat then None
        else finish_signed src 9 (LoadBigEndian64 (drop 1 src))
      else if (b1 =? 192) && (b2 <? 128) then
        if bool_decide (length src < 10)%nat then None
        else finish_signed src 10 (LoadBigEndian64 (drop 2 src))
      else None
    else finish_signed src 8 (LoadBigEndian64 src).
Proof.
  intros src Hlen. unfold ReadSignedNumIncreasing. unfold src at 1.
  change (byte_at src 0) with 255. change (byte_at src 1) with b1. change (byte_at src 2) with b2.
  change (Z.land 255 128 =? 0) with false. cbv iota zeta.
  rewrite Z.land_0_l, !Z.lxor_0_r.
  change (255 =? 255) with true. cbn [negb].
  by rewrite !(bool_decide_false (length src < 8)%nat) by lia.
Qed.

(** The codes of eight and more bytes. *)
Lemma read_nonneg_long v n e rest :
  0 <= v < 2 ^ 63 → nonneg_code v n e → (8 <= n)%nat →
  ReadSignedNumIncreasing (e ++ rest) = Some (v, rest).
Proof.
  intros H0 Hcode H8. pose proof Hcode as (Hlen&He&Hbe&Hn&Hv&Hmin).
  destruct e as [|b0 [|b1 [|b2 e]]]; try (simpl in Hlen; lia).
  pose proof He as He'. rewrite !Forall_cons in He'. destruct He' as (Hb0&Hb1&Hb2&Hbs).
  pose proof (be_range e Hbs) as Hr. unfold is_byte in Hb0, Hb1, Hb2.
  pose proof Hbe as Hbe'. rewrite !be_cons in Hbe. cbn [length] in *.
  assert (i64 v = v) as Hi by (unfold i64; lia).
  assert (length e = 5 ∨ length e = 6 ∨ length e = 7)%nat as Hcases by lia.
  assert (b0 = 255) as -> by (destruct Hcases as [E|[E|E]]; rewrite E in *; subst n; lia).
  cbn [app]. rewrite read_long by (cbn [length]; rewrite length_app; lia).
  cbn [length]. rewrite length_app, Z.geb_leb. destruct Hcases as [E|[E|E]]; rewrite E in *; subst n.
  - rewrite (proj2 (Z.leb_gt _ _)) by lia.
    change (255 :: b1 :: b2 :: e ++ rest) with ((255 :: b1 :: b2 :: e) ++ rest).
    rewrite LoadBigEndian64_be by (done || simpl; lia). by apply finish_nonneg; [lia|..].
  - rewrite (proj2 (Z.leb_le _ _)), (proj2 (Z.ltb_lt _ _)) by lia. cbn [drop].
    rewrite bool_decide_false by lia.
    change (b1 :: b2 :: e ++ rest) with ((b1 :: b2 :: e) ++ rest).
    rewrite LoadBigEndian64_be by (rewrite ?Forall_cons; try done; simpl; lia).
    unfold finish_signed. cbn [nth kLengthToMask drop].
    assert (be (b1 :: b2 :: e) = v + 2 ^ 63) as -> by (rewrite !be_cons; cbn [length]; rewrite E; lia).
    rewrite (lxor_undo v _ 63), Hi by (done || lia).
    cbn [app drop]. by rewrite drop_app_length' by done.
  - assert (b1 = 192 ∧ b2 < 128) as [-> Hb2'] by lia.
    rewrite (proj2 (Z.leb_le _ _)), (proj2 (Z.ltb_ge _ _)), (proj2 (Z.ltb_lt _ _)) by lia.
    change (192 =? 192) with true. cbn [andb drop]. rewrite bool_decide_false by lia.
    change (b2 :: e ++ rest) with ((b2 :: e) ++ rest).
    rewrite LoadBigEndian64_be by (rewrite ?Forall_cons; try done; simpl; lia).
    unfold finish_signed. cbn [nth kLengthToMask drop]. rewrite Z.lxor_0_r.
    assert (be (b2 :: e) = v) as -> by (rewrite !be_cons; rewrite E; lia). rewrite Hi.
    cbn [app drop]. by rewrite drop_app_length' by done.
Qed.

(** ** Negative numbers: everything is complemented *)

Definition compl (b : Z) : Z := 255 - b.

Lemma compl_byte b : is_byte b → is_byte (compl b).
Proof. unfold is_byte, compl. lia. Qed.

Lemma compl_bytes l : Forall is_byte l → Forall is_byte (compl <$> l).
Proof. intros. apply Forall_fmap. eapply Forall_impl; [done|]. apply compl_byte. Qed.

Lemma compl_compl (l : list Z) : compl <$> (compl <$> l) = l.
Proof.
  rewrite <-list_fmap_compose. rewrite <-(list_fmap_id l) at 2. apply list_fmap_ext.
  intros _ b _. unfold compl. simpl. lia.
Qed.

Lemma be_compl l : be (compl <$> l) = 256 ^ Z.of_nat (length l) - 1 - be l.
Proof.
  induction l as [|b l IH]; [done|]. rewrite fmap_cons, !be_cons, IH, length_fmap.
  cbn [length]. rewrite Nat2Z.inj_succ, Z.pow_succ_r by lia. unfold compl. lia.
Qed.

(** Exclusive or commutes with the complement of an [n]-bit number. *)
Lemma lxor_compl n x h : 0 <= n → 0 <= x < 2 ^ n → 0 <= h < 2 ^ n →
  Z.lxor (2 ^ n - 1 - x) h = 2 ^ n - 1 - Z.lxor x h.
Proof.
  intros Hn Hx Hh. rewrite <-!lxor_ones by (done || by apply lxor_bound).
  rewrite !Z.lxor_assoc. f_equal. apply Z.lxor_comm.
Qed.

Lemma lxor_header n : ∃ h0 h1, nth n kLengthToHeaderBits (0, 0) = (h0, h1) ∧ is_byte h0 ∧ is_byte h1.
Proof.
  do 11 (destruct n as [|n]; [by eexists _, _|]). exists 0, 0. by destruct n.
Qed.

Lemma xor_header_compl n l :
  Forall is_byte l →
  xor_header (nth n kLengthToHeaderBits (0, 0)) (compl <$> l) =
    compl <$> xor_header (nth n kLengthToHeaderBits (0, 0)) l.
Proof.
  intros Hl. destruct (lxor_header n) as (h0&h1&->&Hh0&Hh1).
  destruct Hl as [|b0 l Hb0 [|b1 l' Hb1 _]]; [done..|]. cbn [fmap list_fmap xor_header fst snd].
  unfold compl. by rewrite !(lxor_compl 8).
Qed.

(** A negative number is encoded as the complement of the code of [~val]. *)
Lemma write_neg v :
  - 2 ^ 63 <= v < 0 →
  WriteSignedNumIncreasing [] v = compl <$> WriteSignedNumIncreasing [] (Z.lnot v).
Proof.
  intros Hv. assert (0 <= Z.lnot v < 2 ^ 63) as Hn by (unfold Z.lnot; lia).
  unfold WriteSignedNumIncreasing. rewrite (proj2 (Z.ltb_lt v 0)), (proj2 (Z.ltb_ge (Z.lnot v) 0)) by lia.
  destruct (Z.ltb_spec (u64 (Z.lnot v)) 64).
  - cbn [app fmap list_fmap nth kLengthToHeaderBits fst]. f_equal. unfold compl, uchar.
    rewrite <-Z.lnot_lxor_r. unfold Z.lnot. lia.
  - cbn [app]. cbv zeta.
    assert ((255 :: 255 :: StoreBigEndian64 (u64 v)) =
      compl <$> (0 :: 0 :: StoreBigEndian64 (u64 (Z.lnot v)))) as Hbuf.
    { rewrite !StoreBigEndian64_bytes, (u64_small (Z.lnot v)) by (unfold is_u64; lia).
      assert (u64 v = 2 ^ 64 - 1 - Z.lnot v) as -> by (unfold u64, Z.lnot; lia).
      cbn [fmap list_fmap]. unfold compl. clear -Hn. generalize dependent (Z.lnot v). intros w Hw.
      repeat (apply (f_equal2 cons); [lia|]). done. }
    rewrite Hbuf, length_fmap, <-fmap_drop. apply xor_header_compl, Forall_drop.
    rewrite StoreBigEndian64_bytes. rewrite !Forall_cons. unfold is_byte.
    split_and!; (apply Forall_nil_2 || lia).
Qed.

Lemma shift_in_bound l t :
  Forall is_byte l → is_u64 t → is_u64 (foldl (λ x b, Z.lor (u64 (Z.shiftl x 8)) b) t l).
Proof.
  intros Hl. revert t. induction Hl as [|b l Hb _ IH]; intros t Ht; [done|]. cbn [foldl]. apply IH.
  apply (lor_bound _ _ 64); [apply u64_range|unfold is_byte in Hb; lia].
Qed.

Lemma shift_in_compl l t :
  Forall is_byte l → is_u64 t →
  foldl (λ x b, Z.lor (u64 (Z.shiftl x 8)) b) (2 ^ 64 - 1 - t) (compl <$> l) =
    2 ^ 64 - 1 - foldl (λ x b, Z.lor (u64 (Z.shiftl x 8)) b) t l.
Proof.
  intros Hl. revert t. induction Hl as [|b l Hb Hl IH]; intros t Ht; [done|].
  cbn [fmap list_fmap foldl]. unfold is_byte, is_u64 in *.
  assert (∀ z c, 0 <= c < 256 → Z.lor (u64 (Z.shiftl z 8)) c = u64 (z * 256) + c) as Hlor.
  { intros z c Hc. rewrite Z.lor_comm, (lor_hi _ _ 8); unfold u64; rewrite ?Z.shiftl_mul_pow2; lia. }
  rewrite !Hlor by (unfold compl; lia). rewrite <-IH by (unfold u64; lia). f_equal.
  unfold u64, compl. lia.
Qed.

Lemma Load_take l : Forall is_byte l → (8 <= length l)%nat → LoadBigEndian64 l = be (take 8 l).
Proof.
  intros Hl Hlen. rewrite <-(take_drop 8 l) at 1. apply LoadBigEndian64_be; [by apply Forall_take|].
  by apply length_take_le.
Qed.

Lemma Load_compl l :
  Forall is_byte l → (8 <= length l)%nat →
  LoadBigEndian64 (compl <$> l) = 2 ^ 64 - 1 - LoadBigEndian64 l.
Proof.
  intros Hl Hlen. rewrite !Load_take by (rewrite ?length_fmap; try done; by apply compl_bytes).
  rewrite <-fmap_take, be_compl, length_take_le by done. done.
Qed.

Lemma Load_bound l : Forall is_byte l → (8 <= length l)%nat → is_u64 (LoadBigEndian64 l).
Proof.
  intros Hl Hlen. rewrite Load_take by done. pose proof (be_range (take 8 l)) as H.
  rewrite length_take_le in H by done. apply H. by apply Forall_take.
Qed.

Definition compl_result (r : option (Z * list Z)) : option (Z * list Z) :=
  match r with Some (v, rest) => Some (Z.lnot v, compl <$> rest) | None => None end.

Lemma finish_compl (src : list Z) len x :
  is_u64 x →
  finish_signed (compl <$> src) len (2 ^ 64 - 1 - x) = compl_result (finish_signed src len x).
Proof.
  intros Hx. unfold finish_signed, compl_result.
  assert (is_u64 (nth len kLengthToMask 0)) as Hm.
  { do 11 (destruct len as [|len]; [done|]). by destruct len. }
  rewrite (lxor_compl 64) by (done || lia). rewrite <-fmap_drop. f_equal. f_equal.
  pose proof (lxor_bound x (nth len kLengthToMask 0) 64 Hx Hm). unfold i64, Z.lnot. lia.
Qed.

Lemma byte_at_compl (src : list Z) i :
  (i < length src)%nat → byte_at (compl <$> src) i = compl (byte_at src i).
Proof.
  intros Hi. unfold byte_at. rewrite (nth_indep _ 0 (compl 0)) by (by rewrite length_fmap).
  apply map_nth.
Qed.

Lemma byte_at_byte src i : Forall is_byte src → (i < length src)%nat → is_byte (byte_at src i).
Proof.
  intros Hsrc Hi. unfold byte_at. rewrite Forall_forall in Hsrc. apply Hsrc.
  apply list_elem_of_In, nth_In. done.
Qed.

(** The reader of a complemented code of a non-negative number. *)
Lemma read_compl b0 p :
  Forall is_byte (b0 :: p) → 128 <= b0 →
  ReadSignedNumIncreasing (compl <$> (b0 :: p)) =
    compl_result (ReadSignedNumIncreasing (b0 :: p)).
Proof.
  intros Hsrc Hb. set (src := b0 :: p) in *.
  assert (0 < length src)%nat by (unfold src; simpl; lia).
  assert (∀ i, (i < length src)%nat → Z.lxor (byte_at (compl <$> src) i) 255 = byte_at src i) as Hx.
  { intros i Hi. rewrite byte_at_compl, lxor_255; [unfold compl; lia| |done].
    by apply compl_byte, byte_at_byte. }
  assert (is_byte b0) as Hb0 by (by apply Forall_cons in Hsrc as [? _]).
  unfold ReadSignedNumIncreasing. rewrite (byte_at_compl src 0) by done.
  change (byte_at src 0) with b0. rewrite (land_128 b0), (land_128 (compl b0)) by (done || by apply compl_byte).
  rewrite (proj2 (Z.ltb_ge b0 128)) by lia. rewrite (proj2 (Z.ltb_lt (compl b0) 128)) by (unfold compl; lia).
  change (0 =? 0) with true. change (128 =? 0) with false. cbv iota zeta.
  change (Z.land (2 ^ 64 - 1) 255) with 255. rewrite Z.land_0_l, !Z.lxor_0_r.
  rewrite (lxor_255 (compl b0)) by (by apply compl_byte).
  replace (255 - compl b0) with b0 by (unfold compl; lia). rewrite length_fmap.
  assert (∀ A (x y : A), match compl <$> src with [] => x | _ :: _ => y end = y) as -> by done.
  assert (∀ A (x y : A), match src with [] => x | _ :: _ => y end = y) as -> by done.
  assert (is_u64 0) by done.
  destruct (negb (b0 =? 255)).
  { case_bool_decide; [done|].
    change (2 ^ 64 - 1) with (2 ^ 64 - 1 - 0).
    rewrite <-fmap_take, (shift_in_compl _ 0) by (done || by apply Forall_take).
    apply finish_compl, shift_in_bound; [by apply Forall_take|done]. }
  destruct (bool_decide_reflect (length src < 8)%nat) as [|H8]; [done|].
  rewrite !Hx by lia.
  assert (∀ n, (8 <= n)%nat →
    (if bool_decide (length src < n)%nat then None
     else finish_signed (compl <$> src) n (LoadBigEndian64 (drop (n - 8) (compl <$> src)))) =
    compl_result (if bool_decide (length src < n)%nat then None
     else finish_signed src n (LoadBigEndian64 (drop (n - 8) src)))) as Hread.
  { intros n Hn. case_bool_decide; [done|].
    assert (8 <= length (drop (n - 8) src))%nat by (rewrite length_drop; lia).
    rewrite <-fmap_drop, Load_compl by (done || by apply Forall_drop).
    apply finish_compl, Load_bound; [by apply Forall_drop|done]. }
  destruct (byte_at src 1 >=? 128); [|by pose proof (Hread 8%nat ltac:(lia)) as H'; rewrite bool_decide_false in H' by lia].
  destruct (byte_at src 1 <? 192); [by apply (Hread 9%nat); lia|].
  destruct (_ && _); [by apply (Hread 10%nat); lia|done].
Qed.

(** ** All signed numbers *)

Lemma nonneg_code_exists v :
  0 <= v < 2 ^ 63 → ∃ n, nonneg_code v n (WriteSignedNumIncreasing [] v).
Proof.
  intros Hv. destruct (Z.ltb_spec v 64).
  - exists 1%nat. apply write_nonneg_small. lia.
  - eexists. apply write_nonneg_large. lia.
Qed.

Lemma read_write_nonneg v rest :
  0 <= v < 2 ^ 63 → ReadSignedNumIncreasing (WriteSignedNumIncreasing [] v ++ rest) = Some (v, rest).
Proof.
  intros Hv. destruct (nonneg_code_exists v Hv) as [n Hcode].
  destruct (decide (n <= 7)%nat); [by eapply read_nonneg_short; [lia|..]|].
  eapply read_nonneg_long; [done..|lia].
Qed.

(** The first byte of the code of a non-negative number has its top bit set. *)
Lemma nonneg_code_first v n e :
  0 <= v → nonneg_code v n e → 128 <= be (take 1 e) ∧ Forall is_byte e ∧ (1 <= length e)%nat.
Proof.
  intros H0 (Hlen&He&Hbe&Hn&Hv&_). destruct He as [|b0 e Hb0 He]; [simpl in Hlen; lia|].
  split_and!; [|by constructor|simpl; lia]. cbn [take]. rewrite be_singleton.
  rewrite be_cons in Hbe. pose proof (be_range e He) as Hr. cbn [length] in Hlen. subst n.
  rewrite Nat2Z.inj_succ in Hbe.
  rewrite (Z.pow_succ_r 256), (Z.pow_succ_r 128) in Hbe by lia. set (k := Z.of_nat (length e)) in *.
  assert (128 ^ k <= 256 ^ k) by (apply Z.pow_le_mono_l; lia).
  destruct (Z.leb_spec 128 b0); [done|exfalso].
  assert (b0 * 256 ^ k <= 127 * 256 ^ k) by (apply Z.mul_le_mono_nonneg_r; lia). lia.
Qed.

(** Codes of non-negative numbers are ordered by their beginnings. *)
Lemma nonneg_code_order v n e w m f :
  0 <= v < w → nonneg_code v n e → nonneg_code w m f →
  (n <= m)%nat ∧ be e < be (take n f).
Proof.
  intros Hvw (Hlen&He&Hbe&Hn&Hv&Hminv) (Hlen'&Hf&Hbf&Hm&Hw&Hminw).
  assert (n <= m)%nat as Hnm.
  { destruct (decide (n <= m)%nat) as [|Hgt]; [done|exfalso].
    destruct Hminv as [->|Hmin]; [lia|].
    assert (128 ^ Z.of_nat m <= 128 ^ (Z.of_nat n - 1)) by (apply Z.pow_le_mono_r; lia). lia. }
  split; [done|].
  destruct (decide (n = m)) as [->|Hne].
  { rewrite <-Hlen', firstn_all. lia. }
  pose proof (be_app (take n f) (drop n f)) as Hsplit. rewrite take_drop, length_drop, Hlen' in Hsplit.
  pose proof (be_range (drop n f) ltac:(by apply Forall_drop)) as Hr.
  rewrite length_drop, Hlen' in Hr.
  set (d := (m - n)%nat) in *. set (q := Z.of_nat d) in *. set (k := Z.of_nat n) in *.
  assert (Z.of_nat m = k + q) as Em by lia. rewrite Em, !Z.pow_add_r in Hbf by lia.
  assert (2 * 128 ^ q <= 256 ^ q) as HS.
  { change 256 with (2 * 128) at 1. rewrite Z.pow_mul_l. apply Z.mul_le_mono_nonneg_r; [lia|].
    change 2 with (2 ^ 1) at 1. apply Z.pow_le_mono_r; lia. }
  assert (128 ^ k = 128 * 128 ^ (k - 1)) as HQ.
  { rewrite <-Z.pow_succ_r by lia. f_equal. lia. }
  destruct (Z.ltb_spec (be e) (be (take n f))) as [|Hge]; [done|exfalso].
  assert (2 * be (take n f) * 256 ^ q <= (2 * 256 ^ k - 128 ^ k - 2) * 256 ^ q)
    by (apply Z.mul_le_mono_nonneg_r; lia).
  assert (128 ^ k * (2 * 128 ^ q) <= 128 ^ k * 256 ^ q) by (apply Z.mul_le_mono_nonneg_l; lia).
  lia.
Qed.

(** Of two codes, the one of the smaller number is smaller at some point where
    neither has ended. *)
Lemma signed_code_order v w :
  is_i64 v → is_i64 w → v < w →
  let e := WriteSignedNumIncreasing [] v in
  let f := WriteSignedNumIncreasing [] w in
  Forall is_byte e ∧ Forall is_byte f ∧
  ∃ k, (k <= length e)%nat ∧ (k <= length f)%nat ∧ be (take k e) < be (take k f).
Proof.
  unfold is_i64. intros Hv Hw Hvw. cbv zeta.
  destruct (Z.ltb_spec v 0) as [Hv0|Hv0]; [rewrite (write_neg v) by lia|];
    (destruct (Z.ltb_spec w 0) as [Hw0|Hw0]; [rewrite (write_neg w) by lia|]); try lia.
  - destruct (nonneg_code_exists (Z.lnot v)) as [n Hn]; [unfold Z.lnot; lia|].
    destruct (nonneg_code_exists (Z.lnot w)) as [m Hm]; [unfold Z.lnot; lia|].
    set (e := WriteSignedNumIncreasing [] (Z.lnot v)) in *.
    set (f := WriteSignedNumIncreasing [] (Z.lnot w)) in *.
    destruct (nonneg_code_order (Z.lnot w) m f (Z.lnot v) n e) as [Hmn Hlt];
      [unfold Z.lnot; lia|done..|].
    destruct Hn as (Hne&He&_), Hm as (Hmf&Hf&_).
    split_and!; [by apply compl_bytes..|]. exists m. rewrite !length_fmap.
    split_and!; [lia..|]. rewrite <-!fmap_take, !be_compl, !length_take_le by lia.
    rewrite <-Hmf in *. rewrite firstn_all. lia.
  - destruct (nonneg_code_exists (Z.lnot v)) as [n Hn]; [unfold Z.lnot; lia|].
    destruct (nonneg_code_exists w) as [m Hm]; [lia|].
    apply nonneg_code_first in Hn as (Hn1&He&Hle); [|unfold Z.lnot; lia].
    apply nonneg_code_first in Hm as (Hm1&Hf&Hlf); [|lia].
    split_and!; [by apply compl_bytes|done|]. exists 1%nat. rewrite length_fmap.
    split_and!; [done..|]. rewrite <-fmap_take, be_compl, length_take_le by done. simpl. lia.
  - destruct (nonneg_code_exists v) as [n Hn]; [lia|].
    destruct (nonneg_code_exists w) as [m Hm]; [lia|].
    destruct (nonneg_code_order v n _ w m _ ltac:(lia) Hn Hm) as [Hnm Hlt].
    destruct Hn as (Hne&He&_), Hm as (Hmf&Hf&_).
    split_and!; [done..|]. exists n. split_and!; [lia..|].
    rewrite <-Hne at 1. by rewrite firstn_all.
Qed.

Lemma read_write_signed v rest :
  is_i64 v → Forall is_byte rest →
  ReadSignedNumIncreasing (WriteSignedNumIncreasing [] v ++ rest) = Some (v, rest).
Proof.
  unfold is_i64. intros Hv Hrest. destruct (Z.ltb_spec v 0) as [H0|H0]; [|apply read_write_nonneg; lia].
  rewrite write_neg by lia. rewrite <-(compl_compl rest), <-fmap_app.
  destruct (nonneg_code_exists (Z.lnot v)) as [n Hn]; [unfold Z.lnot; lia|].
  pose proof (read_write_nonneg (Z.lnot v) (compl <$> rest) ltac:(unfold Z.lnot; lia)) as Hread.
  apply nonneg_code_first in Hn as (Hfirst&He&Hlen); [|unfold Z.lnot; lia].
  destruct (WriteSignedNumIncreasing [] (Z.lnot v)) as [|b0 e]; [simpl in Hlen; lia|].
  cbn [take] in Hfirst. rewrite be_singleton in Hfirst. cbn [app] in *.
  rewrite read_compl, Hread; [|apply (Forall_app _ (b0 :: e)); split; [done|by apply compl_bytes]|done].
  simpl. rewrite Z.lnot_involutive, compl_compl. done.
Qed.

#[export] Instance signed_codec :
  OrderedCodec is_i64 Z.lt WriteSignedNumIncreasing ReadSignedNumIncreasing.
Proof.
  split.
  - intros dest v. unfold WriteSignedNumIncreasing. by destruct (_ <? 64).
  - intros v Hv. destruct (decide (v < 2 ^ 63 - 1)) as [Hlt|Hge].
    + apply (signed_code_order v (v + 1)); unfold is_i64 in *; lia.
    + apply (signed_code_order (v - 1) v); unfold is_i64 in *; lia.
  - apply read_write_signed.
  - intros v w x y Hv Hw Hvw.
    destruct (signed_code_order v w Hv Hw Hvw) as (He&Hf&k&Hk1&Hk2&Hlt). by apply (be_ltb k).
Qed.

(** * Theorems *)

(** The encodings of strings and of unsigned and signed 64-bit numbers are
    read back, leaving what follows them. *)
Theorem ordered_code_round_trip (s : list Z) (u i : Z) (rest : list Z) :
  Forall is_byte s → is_u64 u → is_i64 i → Forall is_byte rest →
  ReadString (WriteString [] s ++ rest) = Some (s, rest) ∧
  ReadNumIncreasing (WriteNumIncreasing [] u ++ rest) = Some (u, rest) ∧
  ReadSignedNumIncreasing (WriteSignedNumIncreasing [] i ++ rest) = Some (i, rest).
Proof. intros. split_and!; by apply codec_round_trip. Qed.

Lemma ordered_code_round_trip_witness :
  WriteSignedNumIncreasing [] (-0x800) = [0x38; 0] ∧
  ReadString (WriteString [] [0; 65] ++ [7]) = Some ([0; 65], [7]) ∧
  ReadNumIncreasing (WriteNumIncreasing [] 300 ++ [7]) = Some (300, [7]) ∧
  ReadSignedNumIncreasing (WriteSignedNumIncreasing [] (-0x800) ++ [7]) = Some (-0x800, [7]).
Proof.
  split; [reflexivity|]. apply (ordered_code_round_trip [0; 65] 300 (-0x800) [7]).
  - repeat constructor; lia.
  - split; [lia|reflexivity].
  - split; [unfold is_i64; lia|reflexivity].
  - repeat constructor; lia.
Defined.

(** The encodings keep the order, whatever bytes follow them: a smaller
    string, unsigned number or signed number has the lexicographically smaller
    encoding. *)
Theorem ordered_code_order (x y : list Z) :
  (∀ s t, Forall is_byte s → Forall is_byte t → bytes_ltb s t = true →
     bytes_ltb (WriteString [] s ++ x) (WriteString [] t ++ y) = true) ∧
  (∀ u v, is_u64 u → is_u64 v → u < v →
     bytes_ltb (WriteNumIncreasing [] u ++ x) (WriteNumIncreasing [] v ++ y) = true) ∧
  (∀ i j, is_i64 i → is_i64 j → i < j →
     bytes_ltb (WriteSignedNumIncreasing [] i ++ x) (WriteSignedNumIncreasing [] j ++ y) = true).
Proof. split_and!; intros; by apply codec_order. Qed.

(** ** Keys of several parts *)

Section pair.
Context {A B : Type} {validA : A → Prop} {validB : B → Prop}.
Context {ltA : A → A → Prop} {ltB : B → B → Prop}.
Context {writeA : list Z → A → list Z} {readA : list Z → option (A * list Z)}.
Context {writeB : list Z → B → list Z} {readB : list Z → option (B * list Z)}.
Context `{HA : !OrderedCodec validA ltA writeA readA, HB : !OrderedCodec validB ltB writeB readB}.

(** A key is written and read part by part. *)
Definition write_pair (dest : list Z) (ab : A * B) : list Z := writeB (writeA dest ab.1) ab.2.

Definition read_pair (src : list Z) : option ((A * B) * list Z) :=
  '(a, src) ← readA src; '(b, src) ← readB src; Some ((a, b), src).

Definition lt_pair (p q : A * B) : Prop := ltA p.1 q.1 ∨ (p.1 = q.1 ∧ ltB p.2 q.2).

#[export] Instance pair_codec :
  OrderedCodec (λ p, validA p.1 ∧ validB p.2) lt_pair write_pair read_pair.
Proof.
  assert (∀ a b, write_pair [] (a, b) = writeA [] a ++ writeB [] b) as Hw.
  { intros a b. unfold write_pair. simpl. by rewrite (codec_append (OrderedCodec := HB)). }
  split.
  - intros dest [a b]. rewrite Hw. unfold write_pair. simpl.
    rewrite (codec_append (OrderedCodec := HB)), (codec_append (OrderedCodec := HA)).
    by rewrite app_assoc.
  - intros [a b] [Ha Hb]. rewrite Hw. apply Forall_app. split.
    + by apply (codec_bytes (OrderedCodec := HA)).
    + by apply (codec_bytes (OrderedCodec := HB)).
  - intros [a b] rest [Ha Hb] Hrest. rewrite Hw, <-app_assoc. unfold read_pair.
    rewrite (codec_round_trip (OrderedCodec := HA)); simpl in *; [|done|].
    + by rewrite (codec_round_trip (OrderedCodec := HB)).
    + apply Forall_app. split; [by apply (codec_bytes (OrderedCodec := HB))|done].
  - intros [a b] [a' b'] x y [Ha Hb] [Ha' Hb'] Hlt. rewrite !Hw, <-!app_assoc. simpl in *.
    destruct Hlt as [Hlt|[Heq Hlt]]; simpl in *.
    + by apply (codec_order (OrderedCodec := HA)).
    + subst a'. induction (writeA [] a) as [|c l IH]; cbn [app bytes_ltb].
      * by apply (codec_order (OrderedCodec := HB)).
      * by rewrite Z.eqb_refl, IH, orb_true_r.
Qed.
End pair.

(** Keys made of a string, an unsigned and a signed number sort as the tuples
    do, part by part, and are read back part by part. *)
Theorem composite_key_order (s t : list Z) (u v i j : Z) (x y : list Z) :
  Forall is_byte s → Forall is_byte t → is_u64 u → is_u64 v → is_i64 i → is_i64 j →
  let key s u i := WriteSignedNumIncreasing (WriteNumIncreasing (WriteString [] s) u) i in
  (bytes_ltb s t = true ∨ (s = t ∧ (u < v ∨ (u = v ∧ i < j))) →
     bytes_ltb (key s u i ++ x) (key t v j ++ y) = true) ∧
  (Forall is_byte x →
     read_pair (readA := ReadString) (readB := read_pair (readA := ReadNumIncreasing)
       (readB := ReadSignedNumIncreasing)) (key s u i ++ x) = Some ((s, (u, i)), x)).
Proof.
  intros Hs Ht Hu Hv Hi Hj key.
  assert (∀ s u i, key s u i = write_pair (writeA := WriteString)
    (writeB := write_pair (writeA := WriteNumIncreasing) (writeB := WriteSignedNumIncreasing))
    [] (s, (u, i))) as Hkey by done.
  rewrite !Hkey. split.
  - intros Hlt. apply codec_order; [done..|]. exact Hlt.
  - intros Hx. by apply codec_round_trip.
Qed.

Lemma composite_key_order_witness :
  bytes_ltb (WriteSignedNumIncreasing (WriteNumIncreasing (WriteString [] [65]) 3) (-1) ++ [])
    (WriteSignedNumIncreasing (WriteNumIncreasing (WriteString [] [65]) 3) 5 ++ []) = true.
Proof.
  refine (proj1 (composite_key_order [65] [65] 3 3 (-1) 5 [] [] _ _ _ _ _ _) _).
  1,2: repeat constructor; lia.
  1,2: split; [lia|reflexivity].
  1,2: split; [unfold is_i64; lia|reflexivity].
  right. split; [reflexivity|]. right. split; [reflexivity|lia].
Defined.
