(* ===== verification/InputStream.v ===== *)
(** Input streams over a file: [tensorflow/core/lib/io/random_inputstream.cc],
    [random_inputstream.h] and [buffered_inputstream.cc].

    The file is a parameter: [Read] is [RandomAccessFile::Read], and the class
    [RandomAccessFile] states what [platform/file_system.h] documents of it for a
    file with given contents.  A stream's result string is passed in and out.  A
    stream over the file is a position; a buffered stream adds a buffer, and the
    theorems show that its reads, skips and seeks are those of a position in the
    file. *)
From S2P Require Import Prelude Status.
Local Open Scope Z_scope.

(** * Data *)

(** [errors::IsOutOfRange]. *)
Definition IsOutOfRange (s : Status) : bool := bool_decide (code s = OUT_OF_RANGE).

(** The bytes of a file from an offset on, at most [n] of them. *)
Definition slice (offset n : Z) (content : list Z) : list Z :=
  take (Z.to_nat n) (drop (Z.to_nat offset) content).

(** The contract of [RandomAccessFile::Read]. *)
Class RandomAccessFile (Read : Z → Z → Status * list Z) (content : list Z) : Prop := {
  read_all offset n : 0 <= offset → 0 <= n → offset + n <= Z.of_nat (length content) →
    Read offset n = (StatusOK, slice offset n content);
  read_eof offset n : 0 <= offset → 0 <= n → Z.of_nat (length content) < offset + n →
    ∃ msg, Read offset n = (OutOfRange msg, slice offset n content) }.

(** The members of [BufferedInputStream]; the stream below it, which it has to
    itself, is its position. *)
Record BufferedInputStream := mkBuffered {
  bi_input : Z;
  bi_buf : list Z;
  bi_pos : nat;
  bi_limit : nat;
  bi_file_status : Status }.

Definition kMaxSkipSize : Z := 8 * 1024 * 1024.

Section streams.
Context (Read : Z → Z → Status * list Z) (size : Z).

(** * [RandomAccessInputStream] *)

Definition ReadNBytes (bytes_to_read : Z) (result : list Z) (pos : Z) : Status * list Z * Z :=
  if bytes_to_read <? 0 then (InvalidArgument "Cannot read negative number of bytes", result, pos)
  else
    let '(s, data) := Read pos bytes_to_read in
    if ok s || IsOutOfRange s then
      let pos := pos + Z.of_nat (length data) in
      if Z.of_nat (length data) <? bytes_to_read
      then (OutOfRange "reached end of file", data, pos)
      else (StatusOK, data, pos)
    else (s, data, pos).

(** The loop of [SkipNBytes] takes [kMaxSkipSize] bytes in each round but the
    last. *)
Fixpoint skip_loop (fuel : nat) (bytes_to_skip pos : Z) : Status * Z :=
  match fuel with
  | O => (StatusOK, pos)
  | S fuel =>
      if bytes_to_skip >? 0 then
        let bytes_to_read := Z.min kMaxSkipSize bytes_to_skip in
        let '(s, data) := Read pos bytes_to_read in
        if ok s || IsOutOfRange s then
          let pos := pos + Z.of_nat (length data) in
          if Z.of_nat (length data) <? bytes_to_read then (OutOfRange "reached end of file", pos)
          else skip_loop fuel (bytes_to_skip - bytes_to_read) pos
        else (s, pos)
      else (StatusOK, pos)
  end.

Definition SkipNBytes (bytes_to_skip pos : Z) : Status * Z :=
  if bytes_to_skip <? 0 then (InvalidArgument "Can't skip a negative number of bytes", pos)
  else
    let fuel := S (Z.to_nat (bytes_to_skip / kMaxSkipSize)) in
    if bytes_to_skip >? 0 then
      let '(s, data) := Read (pos + bytes_to_skip - 1) 1 in
      if (ok s || IsOutOfRange s) && bool_decide (length data = 1%nat)
      then (StatusOK, pos + bytes_to_skip)
      else skip_loop fuel bytes_to_skip pos
    else skip_loop fuel bytes_to_skip pos.

Definition Tell (pos : Z) : Z := pos.

Definition Seek (position pos : Z) : Status * Z := (StatusOK, position).

Definition Reset (pos : Z) : Status * Z := Seek 0 pos.

(** * [BufferedInputStream] *)

Definition new_buffered : BufferedInputStream := mkBuffered 0 [] 0 0 StatusOK.

Definition FillBuffer : SM BufferedInputStream := λ b,
  if negb (ok (bi_file_status b)) then
    (bi_file_status b, mkBuffered (bi_input b) (bi_buf b) 0 0 (bi_file_status b))
  else
    let '(s, buf, input) := ReadNBytes size (bi_buf b) (bi_input b) in
    (s, mkBuffered input buf 0 (length buf)
          (match buf with [] => s | _ :: _ => bi_file_status b end)).

(** The loop of [ReadNBytes]: the status of the last fill, the result and the
    stream; each round copies a byte or stops. *)
Fixpoint read_loop (fuel : nat) (bytes_to_read : Z) (s : Status) (result : list Z)
    (b : BufferedInputStream) : Status * list Z * BufferedInputStream :=
  match fuel with
  | O => (s, result, b)
  | S fuel =>
      if Z.of_nat (length result) <? bytes_to_read then
        let empty := bool_decide (bi_pos b = bi_limit b) in
        let '(s, b) := if empty then FillBuffer b else (s, b) in
        if empty && bool_decide (bi_limit b = 0%nat) then
          (s, result, mkBuffered (bi_input b) (bi_buf b) (bi_pos b) (bi_limit b) s)
        else
          let bytes_to_copy :=
            Z.to_nat (Z.min (Z.of_nat (bi_limit b) - Z.of_nat (bi_pos b))
              (bytes_to_read - Z.of_nat (length result))) in
          read_loop fuel bytes_to_read s
            (result ++ take bytes_to_copy (drop (bi_pos b) (bi_buf b)))
            (mkBuffered (bi_input b) (bi_buf b) (bi_pos b + bytes_to_copy) (bi_limit b)
               (bi_file_status b))
      else (s, result, b)
  end.

Definition Buffered_ReadNBytes (bytes_to_read : Z) (result : list Z) (b : BufferedInputStream) :
    Status * list Z * BufferedInputStream :=
  if bytes_to_read <? 0 then 
    (InvalidArgument ("Can't read a negative number of bytes: " +:+ pretty bytes_to_read), result, b)
  else if negb (ok (bi_file_status b)) && (bytes_to_read >? 0) then (bi_file_status b, [], b)
  else
    let '(s, result, b) := read_loop (S (Z.to_nat bytes_to_read)) bytes_to_read StatusOK [] b in
    if IsOutOfRange s && (Z.of_nat (length result) =? bytes_to_read) then (StatusOK, result, b)
    else (s, result, b).

Definition Buffered_SkipNBytes (bytes_to_skip : Z) : SM BufferedInputStream := λ b,
  if bytes_to_skip <? 0 then 
    (InvalidArgument ("Can only skip forward, not " +:+ pretty bytes_to_skip), b)
  else if Z.of_nat (bi_pos b) + bytes_to_skip <? Z.of_nat (bi_limit b) then
    (StatusOK, mkBuffered (bi_input b) (bi_buf b) (bi_pos b + Z.to_nat bytes_to_skip) (bi_limit b)
       (bi_file_status b))
  else
    let '(s, input) :=
      SkipNBytes (bytes_to_skip - (Z.of_nat (bi_limit b) - Z.of_nat (bi_pos b))) (bi_input b) in
    (s, mkBuffered input (bi_buf b) 0 0 (if IsOutOfRange s then s else bi_file_status b)).

Definition Buffered_Tell (b : BufferedInputStream) : Z :=
  Tell (bi_input b) - (Z.of_nat (bi_limit b) - Z.of_nat (bi_pos b)).

Definition Buffered_Reset : SM BufferedInputStream := λ b,
  let '(s, input) := Reset (bi_input b) in
  if negb (ok s) then (s, mkBuffered input (bi_buf b) (bi_pos b) (bi_limit b) (bi_file_status b))
  else (StatusOK, mkBuffered input (bi_buf b) 0 0 StatusOK).

Definition Buffered_Seek (position : Z) : SM BufferedInputStream := λ b,
  if position <? 0 then 
    (InvalidArgument ("Seeking to a negative position: " +:+ pretty position), b)
  else
    let bufpos := Buffered_Tell b in
    if position <? bufpos then
      let '(s, b) := Buffered_Reset b in
      if negb (ok s) then (s, b) else Buffered_SkipNBytes position b
    else Buffered_SkipNBytes (position - bufpos) b.

(** The loop of [ReadLineHelper]: a complete line, or the last status at the end
    of the file. *)
Definition newline : Z := 10.
Definition carriage_return : Z := 13.

Fixpoint line_loop (fuel : nat) (include_eol : bool) (s : Status) (result : list Z)
    (b : BufferedInputStream) : option (Status * list Z * BufferedInputStream) :=
  match fuel with
  | O => None
  | S fuel =>
      let empty := bool_decide (bi_pos b = bi_limit b) in
      let '(s, b) := if empty then FillBuffer b else (s, b) in
      if empty && bool_decide (bi_limit b = 0%nat) then
        Some (if IsOutOfRange s && negb (bool_decide (result = [])) then StatusOK else s, result, b)
      else
        let c := nth (bi_pos b) (bi_buf b) 0 in
        let b := mkBuffered (bi_input b) (bi_buf b) (S (bi_pos b)) (bi_limit b)
                   (bi_file_status b) in
        if c =? newline then
          Some (StatusOK, if include_eol then result ++ [c] else result, b)
        else line_loop fuel include_eol s (if c =? carriage_return then result else result ++ [c]) b
  end.

Definition ReadLineHelper (fuel : nat) (include_eol : bool) (b : BufferedInputStream) :
    option (Status * list Z * BufferedInputStream) :=
  line_loop fuel include_eol StatusOK [] b.

Definition ReadLine (fuel : nat) (b : BufferedInputStream) :
    option (Status * list Z * BufferedInputStream) := ReadLineHelper fuel false b.

Definition ReadLineAsString (fuel : nat) (b : BufferedInputStream) :
    option (list Z * BufferedInputStream) :=
  '(_, result, b) ← ReadLineHelper fuel true b; Some (result, b).

(** [ReadAll]. *)
Fixpoint all_loop (fuel : nat) (status : Status) (result : list Z) (b : BufferedInputStream) :
    option (Status * list Z * BufferedInputStream) :=
  match fuel with
  | O => None
  | S fuel =>
      if ok status then
        let '(status, b) := FillBuffer b in
        if bool_decide (bi_limit b = 0%nat) then Some (status, result, b)
        else all_loop fuel status (result ++ bi_buf b)
               (mkBuffered (bi_input b) (bi_buf b) (bi_limit b) (bi_limit b) (bi_file_status b))
      else Some (status, result, b)
  end.

Definition ReadAll (fuel : nat) (b : BufferedInputStream) :
    option (Status * list Z * BufferedInputStream) :=
  '(status, result, b) ← all_loop fuel StatusOK [] b;
  if IsOutOfRange status
  then Some (StatusOK, result,
         mkBuffered (bi_input b) (bi_buf b) (bi_pos b) (bi_limit b) status)
  else Some (status, result, b).
End streams.

(** * Specification *)

(** The bytes up to the first newline, and whether there is one. *)
Fixpoint before_newline (u : list Z) : list Z :=
  match u with
  | [] => []
  | c :: u => if c =? newline then [] else c :: before_newline u
  end.

Definition has_newline (u : list Z) : bool := bool_decide (newline ∈ u).

(** The line at the beginning of [u], with its newline if asked for. *)
Definition line_at (include_eol : bool) (u : list Z) : list Z :=
  before_newline u ++ (if include_eol && has_newline u then [newline] else []).

Definition line_size (u : list Z) : Z :=
  Z.of_nat (length (before_newline u)) + (if has_newline u then 1 else 0).

(** The stream as a position in the file: whether the operation succeeds, what
    it returns, and the new position. *)
Inductive StreamOp :=
  | OpRead (bytes_to_read : Z)
  | OpSkip (bytes_to_skip : Z)
  | OpSeek (position : Z)
  | OpReadLine (include_eol : bool).

(** The reading of lines is specified for files without carriage returns, which
    [ReadLineHelper] leaves out of its result. *)
Definition valid_op (content : list Z) (op : StreamOp) : Prop :=
  match op with OpRead n | OpSkip n | OpSeek n => 0 <= n | OpReadLine _ => carriage_return ∉ content end.

Definition spec_op (content : list Z) (op : StreamOp) (pos : Z) : bool * list Z * Z :=
  let len := Z.of_nat (length content) in
  match op with
  | OpRead n => (pos + n <=? len, slice pos n content, Z.min len (pos + n))
  | OpSkip n => (pos + n <=? len, [], Z.min len (pos + n))
  | OpSeek p => (p <=? len, [], Z.min len p)
  | OpReadLine include_eol =>
      let u := drop (Z.to_nat pos) content in
      (pos <? len, line_at include_eol u, pos + line_size u)
  end.

Definition run_op (Read : Z → Z → Status * list Z) (size : Z) (fuel : nat) (op : StreamOp)
    (b : BufferedInputStream) : option (Status * list Z * BufferedInputStream) :=
  match op with
  | OpRead n => Some (Buffered_ReadNBytes Read size n [] b)
  | OpSkip n => let '(s, b) := Buffered_SkipNBytes Read n b in Some (s, [], b)
  | OpSeek p => let '(s, b) := Buffered_Seek Read p b in Some (s, [], b)
  | OpReadLine include_eol => ReadLineHelper Read size fuel include_eol b
  end.

Fixpoint spec_ops (content : list Z) (ops : list StreamOp) (pos : Z) :
    list (bool * list Z) * Z :=
  match ops with
  | [] => ([], pos)
  | op :: ops =>
      let '(good, bytes, pos) := spec_op content op pos in
      let '(results, pos) := spec_ops content ops pos in ((good, bytes) :: results, pos)
  end.

Fixpoint run_ops (Read : Z → Z → Status * list Z) (size : Z) (fuel : nat) (ops : list StreamOp)
    (b : BufferedInputStream) : option (list (Status * list Z) * BufferedInputStream) :=
  match ops with
  | [] => Some ([], b)
  | op :: ops =>
      '(s, bytes, b) ← run_op Read size fuel op b;
      '(results, b) ← run_ops Read size fuel ops b;
      Some ((s, bytes) :: results, b)
  end.

(** * The stream over the file *)

Lemma IsOutOfRange_OutOfRange msg : IsOutOfRange (OutOfRange msg) = true.
Proof. done. Qed.

Lemma take_1_cons (l : list Z) i u :
  (i < length l)%nat → take 1 (drop i l) = u → u = [nth i l 0].
Proof.
  intros Hi <-. destruct (lookup_lt_is_Some_2 l i Hi) as [c Hc].
  rewrite (drop_S _ c) by done. cbn [take]. f_equal. symmetry. by apply nth_lookup_Some.
Qed.

Section proofs.
Context {Read : Z → Z → Status * list Z} {content : list Z}.
Context `{HR : !RandomAccessFile Read content}.

Abbreviation len := (Z.of_nat (length content)).

Lemma slice_length offset n :
  0 <= offset → 0 <= n → Z.of_nat (length (slice offset n content)) = Z.max 0 (Z.min n (len - offset)).
Proof. intros. unfold slice. rewrite length_take, length_drop. lia. Qed.

(** A read gives what the file has, with an error exactly at its end. *)
Lemma read_spec offset n :
  0 <= offset → 0 <= n →
  ∃ s, Read offset n = (s, slice offset n content) ∧ ok s || IsOutOfRange s = true ∧
    (ok s = true ↔ offset + n <= len).
Proof.
  intros Ho Hn. destruct (Z.leb_spec (offset + n) len).
  - exists StatusOK. rewrite read_all by done. done.
  - destruct (read_eof offset n Ho Hn) as [msg ->]; [lia|]. exists (OutOfRange msg).
    split_and!; [done..|]. simpl. split; [done|lia].
Qed.

Lemma ReadNBytes_spec n result pos :
  0 <= n → 0 <= pos <= len →
  ReadNBytes Read n result pos =
    (if pos + n <=? len then StatusOK else OutOfRange "reached end of file",
     slice pos n content, Z.min len (pos + n)).
Proof.
  intros Hn Hpos. unfold ReadNBytes. rewrite (proj2 (Z.ltb_ge n 0)) by lia.
  destruct (read_spec pos n) as (s&->&->&_); [lia..|]. rewrite slice_length by lia.
  replace (pos + Z.max 0 (Z.min n (len - pos))) with (Z.min len (pos + n)) by lia.
  destruct (Z.leb_spec (pos + n) len).
  - by rewrite (proj2 (Z.ltb_ge _ n)) by lia.
  - by rewrite (proj2 (Z.ltb_lt _ n)) by lia.
Qed.

Lemma skip_loop_spec fuel n pos :
  0 <= n → n / kMaxSkipSize < Z.of_nat fuel → 0 <= pos <= len →
  skip_loop Read fuel n pos =
    (if pos + n <=? len then StatusOK else OutOfRange "reached end of file", Z.min len (pos + n)).
Proof.
  revert n pos. induction fuel as [|fuel IH]; intros n pos Hn Hfuel Hpos.
  { pose proof (Z.div_pos n kMaxSkipSize). unfold kMaxSkipSize in *. lia. }
  cbn [skip_loop]. rewrite Z.gtb_ltb. destruct (Z.ltb_spec 0 n).
  2: { rewrite (proj2 (Z.leb_le _ _)) by lia. f_equal. lia. }
  assert (0 < kMaxSkipSize) as Hk by (unfold kMaxSkipSize; lia).
  set (r := Z.min kMaxSkipSize n). destruct (read_spec pos r) as (s&->&->&_); [lia..|].
  rewrite slice_length by lia. destruct (Z.ltb_spec (Z.max 0 (Z.min r (len - pos))) r).
  - rewrite (proj2 (Z.leb_gt _ _)) by lia. f_equal. lia.
  - replace (pos + Z.max 0 (Z.min r (len - pos))) with (pos + r) by lia.
    destruct (Z.leb_spec n kMaxSkipSize).
    + replace (n - r) with 0 by lia. 
      assert (skip_loop Read fuel 0 (pos + r) = (StatusOK, pos + r)) as -> by (by destruct fuel).
      rewrite (proj2 (Z.leb_le _ _)) by lia. f_equal. lia.
    + rewrite IH; [|lia| |lia].
      * replace (pos + r + (n - r)) with (pos + n) by lia. done.
      * replace n with ((n - r) + 1 * kMaxSkipSize) in Hfuel by lia.
        rewrite Z.div_add in Hfuel by lia. lia.
Qed.

Lemma SkipNBytes_spec n pos :
  0 <= n → 0 <= pos <= len →
  SkipNBytes Read n pos =
    (if pos + n <=? len then StatusOK else OutOfRange "reached end of file", Z.min len (pos + n)).
Proof.
  intros Hn Hpos. unfold SkipNBytes. rewrite (proj2 (Z.ltb_ge n 0)) by lia.
  assert (0 <= n / kMaxSkipSize) by (apply Z.div_pos; unfold kMaxSkipSize; lia).
  rewrite Z.gtb_ltb. destruct (Z.ltb_spec 0 n); [|apply skip_loop_spec; lia].
  destruct (read_spec (pos + n - 1) 1) as (s&->&->&_); [lia..|]. cbn [andb].
  pose proof (slice_length (pos + n - 1) 1 ltac:(lia) ltac:(lia)) as Hlen.
  case_bool_decide as H1; [|apply skip_loop_spec; lia].
  rewrite (proj2 (Z.leb_le _ _)) by lia. f_equal. lia.
Qed.

(** * The buffered stream *)

Context {size : Z} {Hsize : 0 < size}.

(** The bytes of the buffer that are still to be read. *)
Definition buffered (b : BufferedInputStream) : list Z :=
  drop (bi_pos b) (take (bi_limit b) (bi_buf b)).

Definition is_eof (s : Status) : Prop := ∃ msg, s = OutOfRange msg.

Record buffered_ok (b : BufferedInputStream) : Prop := {
  bo_pos : (bi_pos b <= bi_limit b <= length (bi_buf b))%nat;
  bo_input : Z.of_nat (bi_limit b) <= bi_input b <= len;
  bo_unread : buffered b ++ drop (Z.to_nat (bi_input b)) content =
    drop (Z.to_nat (Buffered_Tell b)) content;
  bo_status : bi_file_status b = StatusOK ∨
    (is_eof (bi_file_status b) ∧ bi_pos b = bi_limit b ∧ bi_input b = len) }.

Lemma tell_range b : buffered_ok b → 0 <= Buffered_Tell b <= len.
Proof. intros [? ? _ _]. unfold Buffered_Tell, Tell. lia. Qed.

Lemma buffered_length b :
  buffered_ok b → Z.of_nat (length (buffered b)) = Z.of_nat (bi_limit b) - Z.of_nat (bi_pos b).
Proof. intros [? _ _ _]. unfold buffered. rewrite length_drop, length_take. lia. Qed.

Lemma new_buffered_ok : buffered_ok new_buffered.
Proof. split; simpl; [lia|lia|done|by left]. Qed.

(** A stream whose buffer is used up. *)
Lemma empty_buffer_ok input buf st :
  0 <= input <= len → st = StatusOK ∨ (is_eof st ∧ input = len) →
  buffered_ok (mkBuffered input buf 0 0 st) ∧ Buffered_Tell (mkBuffered input buf 0 0 st) = input.
Proof.
  intros Hi Hst. assert (Buffered_Tell (mkBuffered input buf 0 0 st) = input) as E
    by (unfold Buffered_Tell, Tell; simpl; lia).
  split; [|done]. split; simpl; [lia|lia|by rewrite E|]. destruct Hst as [->|[? ->]]; auto.
Qed.

(** Filling a used-up buffer does not move the stream; it finds no bytes only at
    the end of the file. *)
Lemma FillBuffer_spec b :
  buffered_ok b → bi_pos b = bi_limit b →
  let '(s, b') := FillBuffer Read size b in
  buffered_ok b' ∧ Buffered_Tell b' = Buffered_Tell b ∧ bi_pos b' = 0%nat ∧
  (s = StatusOK ∨ is_eof s) ∧
  (bi_limit b' = 0%nat → is_eof s ∧ Buffered_Tell b = len ∧
     buffered_ok (mkBuffered (bi_input b') (bi_buf b') 0 0 s)).
Proof.
  intros Hok Hempty. pose proof (tell_range b Hok). destruct Hok as [Hpos Hin Hun Hst].
  assert (Buffered_Tell b = bi_input b) as Htell by (unfold Buffered_Tell, Tell; lia).
  unfold FillBuffer. destruct (ok (bi_file_status b)) eqn:Hf; cbn [negb].
  - apply ok_iff in Hf. rewrite ReadNBytes_spec by lia. rewrite Htell.
    assert (is_eof (OutOfRange "reached end of file")) by (by eexists).
    set (data := slice (bi_input b) size content).
    pose proof (slice_length (bi_input b) size ltac:(lia) ltac:(lia)) as Hlen. fold data in Hlen.
    set (input := Z.min len (bi_input b + size)).
    set (st := if _ <=? _ then _ else _).
    assert (st = StatusOK ∨ is_eof st) as Hst' by (unfold st; case_match; auto).
    assert (∀ fs, fs = StatusOK ∨ (is_eof fs ∧ length data = 0%nat ∧ input = len) →
      buffered_ok (mkBuffered input data 0 (length data) fs) ∧
      Buffered_Tell (mkBuffered input data 0 (length data) fs) = bi_input b) as Hnew.
    { intros fs Hfs. assert (Buffered_Tell (mkBuffered input data 0 (length data) fs) = bi_input b) as E
        by (unfold Buffered_Tell, Tell; simpl; lia).
      split; [|done]. split; simpl; [lia|lia| |].
      - rewrite E. unfold buffered. simpl. rewrite drop_0, take_ge by lia. unfold data, slice.
        rewrite <-(take_drop (Z.to_nat size) (drop (Z.to_nat (bi_input b)) content)) at 2.
        f_equal. rewrite drop_drop. destruct (Z.leb_spec (bi_input b + size) len).
        + f_equal. lia.
        + rewrite !drop_ge by lia. done.
      - destruct Hfs as [->|(?&->&->)]; auto. }
    destruct data as [|c data'] eqn:Edata.
    + assert (st = OutOfRange "reached end of file" ∧ input = len) as [Est Einput].
      { unfold st. simpl in Hlen. rewrite (proj2 (Z.leb_gt _ _)) by lia. split; [done|lia]. }
      destruct (Hnew st) as [H1 H2]; [right; rewrite Est; done|]. simpl in Hlen.
      split_and!; try done. intros _. split_and!; [by rewrite Est|lia|done].
    + rewrite Hf. destruct (Hnew StatusOK) as [H1 H2]; [by left|]. split_and!; done.
  - destruct Hst as [Hst|(Heof&_&Hl)]; [by rewrite Hst in Hf|].
    destruct (empty_buffer_ok (bi_input b) (bi_buf b) (bi_file_status b)) as [H1 H2]; [lia|by right|].
    rewrite H2. split_and!; try done; [by right|]. intros _. split_and!; [done|lia|done].
Qed.

(** Copying out of the buffer moves the stream forward. *)
Lemma advance_ok b k :
  buffered_ok b → (bi_pos b + k <= bi_limit b)%nat → bi_pos b ≠ bi_limit b →
  let b' := mkBuffered (bi_input b) (bi_buf b) (bi_pos b + k) (bi_limit b) (bi_file_status b) in
  buffered_ok b' ∧ Buffered_Tell b' = Buffered_Tell b + Z.of_nat k ∧
  take k (drop (bi_pos b) (bi_buf b)) = slice (Buffered_Tell b) (Z.of_nat k) content.
Proof.
  intros Hok Hk Hne b'. pose proof (tell_range b Hok) as Ht. pose proof (buffered_length b Hok) as Hlen.
  destruct Hok as [Hpos Hin Hun Hst].
  assert (Buffered_Tell b' = Buffered_Tell b + Z.of_nat k) as Htell
    by (unfold Buffered_Tell, Tell, b'; simpl; lia).
  assert (buffered b' = drop k (buffered b)) as Hb'
    by (unfold buffered, b'; simpl; by rewrite drop_drop).
  split_and!; [|done|].
  - split; [simpl; lia|simpl; lia| |].
    + rewrite Htell, Hb'. rewrite <-drop_app_le by lia.
      change (bi_input b') with (bi_input b). rewrite Hun, drop_drop. f_equal. lia.
    + destruct Hst as [?|(?&?&?)]; [by left|done].
  - unfold slice. rewrite Nat2Z.id, <-Hun, take_app_le by lia. unfold buffered.
    rewrite !take_drop_commute, take_take. f_equal. f_equal. lia.
Qed.

(** The stream after its buffer has been filled where that is needed. *)
Lemma refill_spec s b :
  buffered_ok b → s = StatusOK ∨ is_eof s →
  let empty := bool_decide (bi_pos b = bi_limit b) in
  let r := if empty then FillBuffer Read size b else (s, b) in
  let stop := empty && bool_decide (bi_limit r.2 = 0%nat) in
  buffered_ok r.2 ∧ Buffered_Tell r.2 = Buffered_Tell b ∧ (r.1 = StatusOK ∨ is_eof r.1) ∧
  (stop = false → bi_pos r.2 ≠ bi_limit r.2) ∧
  (stop = true → is_eof r.1 ∧ Buffered_Tell b = len ∧ bi_pos r.2 = 0%nat ∧ bi_limit r.2 = 0%nat ∧
     buffered_ok (mkBuffered (bi_input r.2) (bi_buf r.2) 0 0 r.1)).
Proof.
  intros Hok Hs empty r stop. subst stop. unfold r, empty. case_bool_decide as He; [|done].
  pose proof (FillBuffer_spec b Hok He) as H. destruct (FillBuffer Read size b) as [s1 b1].
  destruct H as (H1&H2&H3&H4&H5). cbn [fst snd andb]. split_and!; [done..| |].
  - intros Hl%bool_decide_eq_false. rewrite H3. lia.
  - intros Hl%bool_decide_eq_true. destruct (H5 Hl) as (?&?&?). done.
Qed.

Lemma read_loop_spec fuel n s result b :
  buffered_ok b → s = StatusOK ∨ is_eof s →
  Z.of_nat (length result) <= n → n - Z.of_nat (length result) < Z.of_nat fuel →
  let '(s', result', b') := read_loop Read size fuel n s result b in
  let more := n - Z.of_nat (length result) in
  buffered_ok b' ∧ result' = result ++ slice (Buffered_Tell b) more content ∧
  Buffered_Tell b' = Z.min len (Buffered_Tell b + more) ∧
  (s' = StatusOK ∨ is_eof s') ∧ (len < Buffered_Tell b + more → is_eof s').
Proof.
  revert s result b. induction fuel as [|fuel IH]; intros s result b Hok Hs Hn Hfuel; [lia|].
  cbn [read_loop]. pose proof (tell_range b Hok) as Ht.
  destruct (Z.ltb_spec (Z.of_nat (length result)) n) as [Hlt|Hge].
  2: { replace (n - Z.of_nat (length result)) with 0 by lia. unfold slice. rewrite take_0, app_nil_r.
       split_and!; [done..|lia|done|lia]. }
  set (empty := bool_decide (bi_pos b = bi_limit b)).
  set (r := if empty then FillBuffer Read size b else (s, b)).
  destruct (refill_spec s b Hok Hs) as (Hok1&Ht1&Hs1&Hne&Heof). fold empty r in Hok1, Ht1, Hs1, Hne, Heof.
  clearbody r. destruct r as [s1 b1]. cbn [fst snd] in *.
  destruct (empty && bool_decide (bi_limit b1 = 0%nat)) eqn:E.
  - destruct (Heof eq_refl) as (Heof1&Hend&Hz&Hl&Hok2).
    assert (slice (Buffered_Tell b) (n - Z.of_nat (length result)) content = []) as ->.
    { unfold slice. rewrite drop_ge by lia. apply take_nil. }
    rewrite app_nil_r, Hz, Hl. split_and!; [done..| |by right|done].
    unfold Buffered_Tell, Tell in *. simpl in *. lia.
  - assert (bi_pos b1 ≠ bi_limit b1) as Hne1 by (by apply Hne).
    pose proof (bo_pos b1 Hok1) as Hpos1.
    set (more := n - Z.of_nat (length result)).
    set (k := Z.to_nat (Z.min _ _)).
    destruct (advance_ok b1 k Hok1) as (Hok2&Ht2&Hdata); [lia|done|].
    clear Heof. rewrite Hdata, Ht1 in *. set (b2 := mkBuffered _ _ _ _ _) in *.
    pose proof (tell_range b2 Hok2) as Hr2.
    set (result2 := result ++ slice (Buffered_Tell b) (Z.of_nat k) content).
    assert (length result2 = (length result + k)%nat) as Hlen2.
    { unfold result2. rewrite length_app. pose proof (slice_length (Buffered_Tell b) (Z.of_nat k)). lia. }
    specialize (IH s1 result2 b2 Hok2 Hs1). rewrite Hlen2 in IH.
    destruct (read_loop Read size fuel n s1 result2 b2) as [[s' result'] b'].
    destruct IH as (Hok'&->&Htell'&Hs'&Heof'); [lia..|].
    replace (n - Z.of_nat (length result + k)) with (more - Z.of_nat k) in * by lia.
    rewrite Ht2 in *. split_and!; [done| |rewrite Htell'; f_equal; lia|done|].
    + unfold result2. rewrite <-app_assoc. f_equal. unfold slice.
      replace (Z.to_nat (Buffered_Tell b + Z.of_nat k)) with (Z.to_nat (Buffered_Tell b) + k)%nat by lia.
      rewrite <-drop_drop, Nat2Z.id.
      replace (Z.to_nat more) with (k + Z.to_nat (more - Z.of_nat k))%nat by lia.
      by rewrite <-take_take_drop.
    + intros Hend. apply Heof'. lia.
Qed.

(** Reading [n] bytes gives the next [n] bytes of the file, or all that are
    left with an error. *)
Lemma Buffered_ReadNBytes_spec n result b :
  buffered_ok b → 0 <= n →
  let '(s, result', b') := Buffered_ReadNBytes Read size n result b in
  buffered_ok b' ∧ result' = slice (Buffered_Tell b) n content ∧
  Buffered_Tell b' = Z.min len (Buffered_Tell b + n) ∧
  if Buffered_Tell b + n <=? len then s = StatusOK else is_eof s.
Proof.
  intros Hok Hn. pose proof (tell_range b Hok) as Ht. unfold Buffered_ReadNBytes.
  rewrite (proj2 (Z.ltb_ge n 0)) by lia.
  destruct (negb (ok (bi_file_status b)) && (n >? 0)) eqn:E.
  - apply andb_true_iff in E as [Hf%negb_true_iff Hgt]. rewrite Z.gtb_ltb in Hgt.
    apply Z.ltb_lt in Hgt. pose proof Hok as [_ Hi _ [Hst|(Heof&Hp&Hl)]]; [by rewrite Hst in Hf|].
    assert (Buffered_Tell b = len) as Hend by (unfold Buffered_Tell, Tell; lia).
    rewrite Hend. split_and!; [done| |lia|].
    + unfold slice. by rewrite drop_ge, take_nil by lia.
    + by rewrite (proj2 (Z.leb_gt _ _)) by lia.
  - pose proof (read_loop_spec (S (Z.to_nat n)) n StatusOK [] b Hok) as H.
    destruct (read_loop Read size (S (Z.to_nat n)) n StatusOK [] b) as [[s result'] b'].
    destruct H as (Hok'&Hres&Htell&Hs&Heof); [by left|simpl; lia..|].
    cbn [app length] in *. rewrite Z.sub_0_r in *.
    pose proof (slice_length (Buffered_Tell b) n) as Hlen. rewrite Hres.
    destruct (Z.leb_spec (Buffered_Tell b + n) len).
    + rewrite (proj2 (Z.eqb_eq _ _)) by lia. destruct Hs as [->|[msg ->]]; by split_and!.
    + rewrite (proj2 (Z.eqb_neq _ _)), andb_false_r by lia. split_and!; [done..|by apply Heof].
Qed.

Lemma Buffered_SkipNBytes_spec n b :
  buffered_ok b → 0 <= n →
  let '(s, b') := Buffered_SkipNBytes Read n b in
  buffered_ok b' ∧ Buffered_Tell b' = Z.min len (Buffered_Tell b + n) ∧
  if Buffered_Tell b + n <=? len then s = StatusOK else is_eof s.
Proof.
  intros Hok Hn. pose proof (tell_range b Hok) as Ht. unfold Buffered_SkipNBytes.
  rewrite (proj2 (Z.ltb_ge n 0)) by lia. pose proof Hok as [Hpos Hi _ Hst].
  destruct (Z.ltb_spec (Z.of_nat (bi_pos b) + n) (Z.of_nat (bi_limit b))).
  - destruct (advance_ok b (Z.to_nat n) Hok) as (Hok'&Htell&_); [lia..|].
    assert (Buffered_Tell b + n <= len) by (unfold Buffered_Tell, Tell in *; lia).
    rewrite (proj2 (Z.leb_le _ _)) by done. split_and!; [done|lia|done].
  - rewrite SkipNBytes_spec by lia.
    replace (bi_input b + (n - (Z.of_nat (bi_limit b) - Z.of_nat (bi_pos b))))
      with (Buffered_Tell b + n) by (unfold Buffered_Tell, Tell; lia).
    destruct (Z.leb_spec (Buffered_Tell b + n) len).
    + change (IsOutOfRange StatusOK) with false. cbv iota.
      destruct (empty_buffer_ok (Z.min len (Buffered_Tell b + n)) (bi_buf b) (bi_file_status b))
        as [H1 H2]; [lia| |by rewrite H2].
      destruct Hst as [?|(?&?&?)]; [by left|right; split; [done|]]. unfold Buffered_Tell, Tell in *. lia.
    + assert (is_eof (OutOfRange "reached end of file")) by (by eexists).
      destruct (empty_buffer_ok (Z.min len (Buffered_Tell b + n)) (bi_buf b)
        (OutOfRange "reached end of file")) as [Hok' Htell]; [lia|right; split; [done|lia]|].
      rewrite IsOutOfRange_OutOfRange. by rewrite Htell.
Qed.

Lemma Buffered_Seek_spec position b :
  buffered_ok b → 0 <= position →
  let '(s, b') := Buffered_Seek Read position b in
  buffered_ok b' ∧ Buffered_Tell b' = Z.min len position ∧
  if position <=? len then s = StatusOK else is_eof s.
Proof.
  intros Hok Hp. pose proof (tell_range b Hok) as Ht. unfold Buffered_Seek.
  rewrite (proj2 (Z.ltb_ge position 0)) by lia. destruct (Z.ltb_spec position (Buffered_Tell b)).
  - cbn [Buffered_Reset Reset Seek ok negb].
    destruct (empty_buffer_ok 0 (bi_buf b) StatusOK) as [H1 H2]; [lia|by left|].
    pose proof (Buffered_SkipNBytes_spec position _ H1 Hp) as Hskip. rewrite H2 in Hskip.
    by rewrite !Z.add_0_l in Hskip.
  - pose proof (Buffered_SkipNBytes_spec (position - Buffered_Tell b) b Hok ltac:(lia)) as H'.
    by replace (Buffered_Tell b + (position - Buffered_Tell b)) with position in H' by lia.
Qed.

(** ** Lines *)

Lemma has_newline_cons c u : has_newline (c :: u) = (c =? newline) || has_newline u.
Proof.
  unfold has_newline. destruct (Z.eqb_spec c newline) as [->|Hne]; cbn [orb].
  - apply bool_decide_eq_true. left.
  - apply bool_decide_ext. rewrite elem_of_cons. naive_solver.
Qed.

(** A line as the stream returns it: without carriage returns. *)
Definition line_text (include_eol : bool) (u : list Z) : list Z :=
  filter (λ c, c ≠ carriage_return) (before_newline u) ++
  (if include_eol && has_newline u then [newline] else []).

Lemma before_newline_sub c u : c ∈ before_newline u → c ∈ u.
Proof.
  induction u as [|d u IH]; cbn [before_newline]; [done|]. destruct (d =? newline); [by intros ?%not_elem_of_nil|].
  rewrite !elem_of_cons. tauto.
Qed.

Lemma line_text_plain include_eol u : carriage_return ∉ u → line_text include_eol u = line_at include_eol u.
Proof.
  intros Hu. unfold line_text, line_at. f_equal. assert (Hb : carriage_return ∉ before_newline u) by (by intros ?%before_newline_sub).
  clear Hu. induction (before_newline u) as [|c l IH]; [done|]. apply not_elem_of_cons in Hb as [Hc Hl].
  rewrite filter_cons, decide_True by done. by rewrite (IH Hl).
Qed.

(** There is a line where there are bytes. *)
Lemma line_some include_eol u : has_newline u || negb (bool_decide (line_at include_eol u = [])) = negb (bool_decide (u = [])).
Proof.
  destruct u as [|c u]; [by destruct include_eol|]. rewrite (bool_decide_false (c :: u = [])) by done. rewrite has_newline_cons.
  unfold line_at. cbn [before_newline]. destruct (c =? newline); [done|]. cbn [app orb negb].
  rewrite (bool_decide_false (c :: _ = [])) by done. by rewrite orb_true_r.
Qed.

(** The loop reads the rest of the line. *)
Lemma line_loop_spec fuel include_eol s result b :
  buffered_ok b → s = StatusOK ∨ is_eof s → len - Buffered_Tell b + 1 < Z.of_nat fuel →
  let u := drop (Z.to_nat (Buffered_Tell b)) content in
  ∃ s' b', line_loop Read size fuel include_eol s result b =
      Some (s', result ++ line_text include_eol u, b') ∧
    buffered_ok b' ∧ Buffered_Tell b' = Buffered_Tell b + line_size u ∧
    if has_newline u || negb (bool_decide (result ++ line_text include_eol u = []))
    then s' = StatusOK else is_eof s'.
Proof.
  revert s result b. induction fuel as [|fuel IH]; intros s result b Hok Hs Hfuel u;
    pose proof (tell_range b Hok) as Ht; [lia|].
  cbn [line_loop]. set (empty := bool_decide (bi_pos b = bi_limit b)).
  set (r := if empty then FillBuffer Read size b else (s, b)).
  destruct (refill_spec s b Hok Hs) as (Hok1&Ht1&Hs1&Hne&Heof). fold empty r in Hok1, Ht1, Hs1, Hne, Heof.
  clearbody r. destruct r as [s1 b1]. cbn [fst snd] in *.
  destruct (empty && bool_decide (bi_limit b1 = 0%nat)) eqn:E.
  - destruct (Heof eq_refl) as (Heof1&Hend&_).
    assert (u = []) as -> by (unfold u; apply drop_ge; lia).
    exists (if IsOutOfRange s1 && negb (bool_decide (result = [])) then StatusOK else s1), b1.
    assert (line_text include_eol [] = []) as -> by (by destruct include_eol).
    rewrite app_nil_r. destruct Heof1 as [msg ->]. rewrite IsOutOfRange_OutOfRange.
    split_and!; [done..|unfold line_size; simpl; lia|]. cbn [andb orb has_newline].
    change (has_newline []) with false. destruct (bool_decide (result = [])); [by exists msg|done].
  - assert (bi_pos b1 ≠ bi_limit b1) as Hne1 by (by apply Hne).
    pose proof (bo_pos b1 Hok1) as Hpos1.
    destruct (advance_ok b1 1 Hok1) as (Hok2&Ht2&Hdata); [lia|done|].
    rewrite Nat.add_1_r in *. clear Heof. set (b2 := mkBuffered _ (bi_buf b1) _ _ _) in *.
    pose proof (tell_range b2 Hok2) as Hr2. rewrite Ht1 in *.
    set (c := nth (bi_pos b1) (bi_buf b1) 0).
    assert (u = c :: drop (Z.to_nat (Buffered_Tell b2)) content) as Hu.
    { apply take_1_cons in Hdata; [|lia]. unfold slice in Hdata. fold u c in Hdata.
      destruct u as [|c' u'] eqn:Eu; [done|]. injection Hdata as ->. f_equal.
      replace (Z.to_nat (Buffered_Tell b2)) with (Z.to_nat (Buffered_Tell b) + 1)%nat by lia.
      rewrite <-drop_drop. change (drop (Z.to_nat (Buffered_Tell b)) content) with u. by rewrite Eu. }
    rewrite Hu. unfold line_text, line_size. cbn [before_newline]. rewrite has_newline_cons.
    destruct (Z.eqb_spec c newline) as [Ec|Ec]; cbn [orb length].
    + exists StatusOK, b2. rewrite filter_nil, andb_true_r, Ec. cbn [app].
      split_and!; [|done|lia|done]. by destruct include_eol; rewrite ?app_nil_r.
    + set (result2 := if c =? carriage_return then result else result ++ [c]).
      destruct (IH s1 result2 b2 Hok2 Hs1 ltac:(lia)) as (s'&b'&->&Hok'&Ht'&Hs').
      assert (result2 ++ line_text include_eol (drop (Z.to_nat (Buffered_Tell b2)) content) =
        result ++ filter (λ c, c ≠ carriage_return)
          (c :: before_newline (drop (Z.to_nat (Buffered_Tell b2)) content)) ++
        (if include_eol && has_newline (drop (Z.to_nat (Buffered_Tell b2)) content)
         then [newline] else [])) as Eline.
      { unfold result2, line_text. rewrite filter_cons.
        destruct (Z.eqb_spec c carriage_return) as [->|Hcr].
        - by rewrite decide_False by (intros []; done).
        - rewrite decide_True by done. by rewrite <-!app_assoc. }
      rewrite Eline in *. exists s', b'. split_and!; [done..| |done].
      rewrite Ht', Ht2. unfold line_size. lia.
Qed.

(** ** Everything that is left *)

(** What a fill leaves in the buffer. *)
Lemma FillBuffer_full b :
  buffered_ok b →
  let '(s, b') := FillBuffer Read size b in
  (bi_limit b' = 0%nat ∨ bi_limit b' = length (bi_buf b')) ∧ (is_eof s → bi_input b' = len).
Proof.
  intros [_ Hin _ Hst]. unfold FillBuffer. destruct (ok (bi_file_status b)) eqn:Hf; cbn [negb].
  - rewrite ReadNBytes_spec by lia. split; [by right|]. cbn [bi_input].
    destruct (Z.leb_spec (bi_input b + size) len); [by intros [? ?]|lia].
  - destruct Hst as [Hst|(_&_&?)]; [by rewrite Hst in Hf|]. split; [by left|done].
Qed.

Lemma all_loop_spec fuel result b :
  buffered_ok b → bi_pos b = bi_limit b → len - bi_input b + 1 < Z.of_nat fuel →
  ∃ msg b', all_loop Read size fuel StatusOK result b =
      Some (OutOfRange msg, result ++ drop (Z.to_nat (bi_input b)) content, b') ∧
    buffered_ok b' ∧ bi_pos b' = bi_limit b' ∧ bi_input b' = len.
Proof.
  revert result b. induction fuel as [|fuel IH]; intros result b Hok Hempty Hfuel;
    pose proof (bo_input b Hok) as Hin; [lia|].
  assert (Buffered_Tell b = bi_input b) as Htell by (unfold Buffered_Tell, Tell; lia).
  cbn [all_loop ok]. pose proof (FillBuffer_spec b Hok Hempty) as Hfill.
  pose proof (FillBuffer_full b Hok) as Hfull.
  destruct (FillBuffer Read size b) as [s1 b1]. destruct Hfill as (Hok1&Ht1&Hz&Hs1&Heof).
  destruct Hfull as [Hfull Hend]. case_bool_decide as Hl.
  { destruct (Heof Hl) as ([msg ->]&Hlen&_). exists msg, b1. rewrite (drop_ge content) by lia.
    rewrite app_nil_r. split_and!; [done..|lia|]. apply Hend. by exists msg. }
  destruct Hfull as [|Hfull]; [done|].
  destruct (advance_ok b1 (bi_limit b1) Hok1) as (Hok2&Ht2&Hdata); [lia..|].
  pose proof (bo_unread b1 Hok1) as Hun. unfold buffered in Hun.
  rewrite Hz, drop_0, Hfull, firstn_all, Ht1, Htell in Hun. rewrite <-Hun.
  rewrite Hz, Nat.add_0_l in Hok2. clear Heof Ht2. set (b2 := mkBuffered _ _ _ _ _) in *.
  destruct Hs1 as [->|[msg ->]].
  - destruct (IH (result ++ bi_buf b1) b2 Hok2 eq_refl) as (msg&b'&->&?&?&?).
    { pose proof (bo_input b1 Hok1). unfold Buffered_Tell, Tell in *. simpl in *. lia. }
    exists msg, b'. split_and!; try done. by rewrite <-app_assoc.
  - destruct fuel as [|fuel]; [lia|]. cbn [all_loop ok OutOfRange]. exists msg, b2.
    rewrite (drop_ge content) by (rewrite Hend by (by exists msg); lia). rewrite app_nil_r.
    split_and!; [done..|]. apply Hend. by exists msg.
Qed.

Lemma ReadAll_spec fuel b :
  buffered_ok b → len + 1 < Z.of_nat fuel →
  ∃ b', ReadAll Read size fuel b = Some (StatusOK, drop (Z.to_nat (bi_input b)) content, b') ∧
    buffered_ok b' ∧ Buffered_Tell b' = len.
Proof.
  intros Hok Hfuel. pose proof (bo_input b Hok) as Hin.
  set (b0 := mkBuffered (bi_input b) (bi_buf b) 0 0 (bi_file_status b)).
  assert (buffered_ok b0) as Hok0.
  { apply empty_buffer_ok; [lia|]. destruct (bo_status b Hok) as [?|(?&?&?)]; auto. }
  assert (all_loop Read size fuel StatusOK [] b = all_loop Read size fuel StatusOK [] b0) as E
    by (by destruct fuel).
  destruct (all_loop_spec fuel [] b0 Hok0 eq_refl) as (msg&b'&Hloop&Hok'&Hp&Hi); [simpl; lia|].
  unfold ReadAll. rewrite E, Hloop. cbn [mbind option_bind].
  rewrite IsOutOfRange_OutOfRange. eexists. split; [done|]. split.
  - destruct Hok' as [H1 H2 H3 _]. split; [done..|]. right. split_and!; [by exists msg|done..].
  - unfold Buffered_Tell, Tell. simpl. lia.
Qed.

(** * Theorems *)

Lemma run_op_spec fuel op b :
  buffered_ok b → valid_op content op → len + 1 < Z.of_nat fuel →
  let '(good, bytes, pos) := spec_op content op (Buffered_Tell b) in
  ∃ s b', run_op Read size fuel op b = Some (s, bytes, b') ∧ buffered_ok b' ∧
    Buffered_Tell b' = pos ∧ if good then s = StatusOK else is_eof s.
Proof.
  intros Hok Hv Hfuel. pose proof (tell_range b Hok) as Ht. destruct op as [n|n|p|include_eol];
    cbn [spec_op run_op valid_op] in *.
  - pose proof (Buffered_ReadNBytes_spec n [] b Hok Hv) as H.
    destruct (Buffered_ReadNBytes Read size n [] b) as [[s result] b'].
    destruct H as (?&->&?&?). by exists s, b'.
  - pose proof (Buffered_SkipNBytes_spec n b Hok Hv) as H.
    destruct (Buffered_SkipNBytes Read n b) as [s b']. by exists s, b'.
  - pose proof (Buffered_Seek_spec p b Hok Hv) as H.
    destruct (Buffered_Seek Read p b) as [s b']. by exists s, b'.
  - destruct (line_loop_spec fuel include_eol StatusOK [] b Hok) as (s&b'&E&?&?&?); [by left|lia|].
    assert (Hcr : carriage_return ∉ drop (Z.to_nat (Buffered_Tell b)) content) by (intros Hin; apply Hv; rewrite <-(take_drop (Z.to_nat (Buffered_Tell b)) content); apply elem_of_app; by right).
    exists s, b'. unfold ReadLineHelper. rewrite E. cbn [app] in *. rewrite (line_text_plain _ _ Hcr) in *. rewrite line_some in *.
    split_and!; [done..|]. destruct (Z.ltb_spec (Buffered_Tell b) len) as [Hlt|Hge].
    + rewrite bool_decide_false in * by (intros Hnil%(f_equal length); rewrite length_drop in Hnil; cbn in Hnil; lia). done.
    + rewrite bool_decide_true in * by (apply drop_ge; lia). done.
Qed.

Lemma run_ops_spec fuel ops b :
  buffered_ok b → Forall (valid_op content) ops → len + 1 < Z.of_nat fuel →
  let '(expected, pos) := spec_ops content ops (Buffered_Tell b) in
  ∃ results b', run_ops Read size fuel ops b = Some (results, b') ∧ buffered_ok b' ∧
    Buffered_Tell b' = pos ∧
    Forall2 (λ r e, r.2 = e.2 ∧ if (e.1 : bool) then r.1 = StatusOK else is_eof r.1)
      results expected.
Proof.
  intros Hok Hv Hfuel. revert b Hok. induction Hv as [|op ops Hop _ IH]; intros b Hok.
  { by exists [], b. }
  cbn [spec_ops run_ops]. pose proof (run_op_spec fuel op b Hok Hop Hfuel) as H.
  destruct (spec_op content op (Buffered_Tell b)) as [[good bytes] pos].
  destruct H as (s&b1&->&Hok1&<-&Hs). specialize (IH b1 Hok1).
  destruct (spec_ops content ops (Buffered_Tell b1)) as [expected pos'].
  destruct IH as (results&b'&E&Hok'&Htell&Hres). exists ((s, bytes) :: results), b'.
  cbn [mbind option_bind]. rewrite E. split_and!; [done..|]. by constructor.
Qed.
End proofs.


(** A file in memory. *)
Definition memory_read (content : list Z) (offset n : Z) : Status * list Z :=
  (if offset + n <=? Z.of_nat (length content) then StatusOK else OutOfRange "end",
   slice offset n content).

#[export] Instance memory_file content : RandomAccessFile (memory_read content) content.
Proof.
  split; intros offset n Ho Hn H; unfold memory_read.
  - by rewrite (proj2 (Z.leb_le _ _)).
  - exists "end". by rewrite (proj2 (Z.leb_gt _ _)).
Qed.


(** Where there are carriage returns: a line comes back without them, and of a file whose
    rest is one of them the line read takes the byte and reports the end of the file. *)
Example carriage_returns_dropped :
  fst <$> ReadLineHelper (memory_read [97; 13; 98; 10]) 8 10 false new_buffered = Some (StatusOK, [97; 98]) ∧
  fst <$> ReadLineHelper (memory_read [13]) 8 10 false new_buffered = Some (OutOfRange "reached end of file", []).
Proof. split; vm_compute; reflexivity. Qed.

(** [ReadAll] returns what the file has from the position of the stream below
    on: with an empty buffer everything that is left, and without the bytes that
    were buffered but not yet read otherwise. It leaves the stream at the end. *)
Theorem ReadAll_from_input (Read : Z → Z → Status * list Z) (content : list Z) (size : Z)
    (fuel : nat) (b : BufferedInputStream) :
  RandomAccessFile Read content → 0 < size → buffered_ok (content := content) b →
  Z.of_nat (length content) + 1 < Z.of_nat fuel →
  ∃ b', ReadAll Read size fuel b = Some (StatusOK, drop (Z.to_nat (bi_input b)) content, b') ∧
    Buffered_Tell b' = Z.of_nat (length content) ∧
    drop (Z.to_nat (Buffered_Tell b)) content =
      buffered b ++ drop (Z.to_nat (bi_input b)) content.
Proof.
  intros HR Hsize Hok Hfuel. destruct (ReadAll_spec (Hsize := Hsize) fuel b Hok Hfuel) as (b'&E&_&Ht).
  exists b'. split_and!; [done..|]. symmetry. apply (bo_unread b Hok).
Qed.

(** After one byte of three has been read through a buffer of two, the second is
    in the buffer: [ReadAll] returns the third only. *)
Lemma ReadAll_from_input_witness :
  (Buffered_ReadNBytes (memory_read [65; 66; 67]) 2 1 [] new_buffered).2 =
    mkBuffered 2 [65; 66] 1 2 StatusOK ∧
  ∃ b', ReadAll (memory_read [65; 66; 67]) 2 100 (mkBuffered 2 [65; 66] 1 2 StatusOK) =
    Some (StatusOK, [67], b').
Proof.
  split; [vm_compute; reflexivity|].
  destruct (ReadAll_from_input (memory_read [65; 66; 67]) [65; 66; 67] 2 100
    (mkBuffered 2 [65; 66] 1 2 StatusOK)) as (b'&E&_).
  - apply memory_file.
  - lia.
  - split; simpl; [lia|lia|reflexivity|left; reflexivity].
  - simpl. lia.
  - exists b'. exact E.
Defined.
