(* ===== verification/RecordIO.v ===== *)
(** Record files: [tensorflow/core/lib/io/record_writer.cc], [record_reader.cc] and
    the sequential reader of [record_reader.h], without compression.

    A record is stored as its length, a masked checksum of the length, its bytes
    and a masked checksum of the bytes.  The file written to is the parameter
    [Append], the file read from the parameter [Read]; the reader goes through a
    buffered stream when its options ask for a buffer.  The addresses of the
    buffers over which checksums are computed are arguments, since the checksum
    routine looks at them. *)
From S2P Require Import Prelude Status Coding Crc32c InputStream.
Local Open Scope Z_scope.

Ltac Zify.zify_post_hook ::= Z.to_euclidean_division_equations.

(** * The writer *)

Section writer.
Context {F : Type} (Append : list Z → SM F).

Definition MaskedCrc (pval : Z) (data : list Z) : Z := Mask (Value pval data).

Definition WriteRecord (header_at data_at : Z) (data : list Z) : SM F :=
  let size := EncodeFixed64 (Z.of_nat (length data)) in
  let header := size ++ EncodeFixed32 (MaskedCrc header_at size) in
  let footer := EncodeFixed32 (MaskedCrc data_at data) in
  (Append header ;;? Append data ;;? Append footer)%status.
End writer.

(** * The reader *)

(** The members of [RecordReader] that matter without compression: the option
    [buffer_size] and the stream. *)
Record RecordReader := mkReader {
  rr_buffer_size : Z;
  rr_input_stream : BufferedInputStream }.

Definition SIZE_MAX : Z := 2 ^ 64 - 1.

Section reader.
Context (Read : Z → Z → Status * list Z).

Definition newRecordReader (buffer_size : Z) : RecordReader := mkReader buffer_size new_buffered.

(** What is done with the bytes read: the checksum in the last four is verified. *)
Definition verify (pval offset n : Z) (data : list Z) : Status * list Z :=
  if negb (Z.of_nat (length data) =? n + 4) then
    (match data with
     | [] => OutOfRange "eof"
     | _ :: _ => DataLoss ("truncated record at " +:+ pretty offset)
     end, [])
  else
    let masked_crc := DecodeFixed32 (drop (Z.to_nat n) data) in
    if negb (Unmask masked_crc =? Value pval (take (Z.to_nat n) data))
    then (DataLoss ("corrupted record at " +:+ pretty offset), [])
    else (StatusOK, take (Z.to_nat n) data).

Definition ReadChecksummed (pval offset n : Z) (r : RecordReader) :
    Status * list Z * RecordReader :=
  if n >=? SIZE_MAX - 4 then (DataLoss "record size too large", [], r)
  else
    let expected := n + 4 in
    if rr_buffer_size r >? 0 then
      let '(s, storage, stream) :=
        Buffered_ReadNBytes Read (rr_buffer_size r) (i64 expected) [] (rr_input_stream r) in
      let r := mkReader (rr_buffer_size r) stream in
      if negb (ok s) then (s, [], r)
      else let '(s, result) := verify pval offset n storage in (s, result, r)
    else
      let '(s, data) := Read offset expected in
      if negb (ok s) then (s, [], r)
      else let '(s, result) := verify pval offset n data in (s, result, r).

(** The status, the record, the new offset and the reader. *)
Definition ReadRecord (header_at data_at offset : Z) (r : RecordReader) :
    Status * list Z * Z * RecordReader :=
  let '(s, lbuf, r) := ReadChecksummed header_at offset 8 r in
  if negb (ok s) then (s, [], offset, r)
  else
    let length := DecodeFixed64 lbuf in
    let '(s, data, r) := ReadChecksummed data_at (u64 (offset + 12)) length r in
    if negb (ok s) then
      (if IsOutOfRange s then DataLoss ("truncated record at " +:+ pretty offset) else s,
       [], offset, r)
    else (StatusOK, data, u64 (offset + (12 + length + 4)), r).

Definition Record_SkipNBytes (offset : Z) : SM RecordReader := λ r,
  if rr_buffer_size r >? 0 then
    let '(s, stream) := Buffered_SkipNBytes Read (i64 offset) (rr_input_stream r) in
    (s, mkReader (rr_buffer_size r) stream)
  else (StatusOK, r).

(** * [SequentialRecordReader]: the reader and its offset *)

Definition Sequential_ReadRecord (header_at data_at : Z) (x : RecordReader * Z) :
    Status * list Z * (RecordReader * Z) :=
  let '(s, record, offset, r) := ReadRecord header_at data_at x.2 x.1 in (s, record, (r, offset)).

Definition TellOffset (x : RecordReader * Z) : Z := x.2.

Definition SeekOffset (offset : Z) : SM (RecordReader * Z) := λ x,
  if offset <? x.2 then
    (InvalidArgument ("Trying to seek offset: " +:+ pretty offset +:+
       " which is less than the current offset: " +:+ pretty x.2), x)
  else
    let '(s, r) := Record_SkipNBytes (offset - x.2) x.1 in
    if negb (ok s) then (s, (r, x.2)) else (StatusOK, (r, offset)).
End reader.

(** * Specification *)

(** The bytes of a record. *)
Definition record_header (data : list Z) : list Z :=
  EncodeFixed64 (Z.of_nat (length data)) ++
  EncodeFixed32 (Mask (crc32c (EncodeFixed64 (Z.of_nat (length data))))).

Definition record_footer (data : list Z) : list Z := EncodeFixed32 (Mask (crc32c data)).

Definition encode_record (data : list Z) : list Z :=
  record_header data ++ data ++ record_footer data.

(** A file in memory that is written to. *)
Definition memory_append (data : list Z) : SM (list Z) := λ content, (StatusOK, content ++ data).

(** Records written and read one after the other. *)
Fixpoint write_records {F} (Append : list Z → SM F) (header_at data_at : Z)
    (records : list (list Z)) : SM F :=
  match records with
  | [] => sm_ret StatusOK
  | data :: records =>
      (WriteRecord Append header_at data_at data ;;? write_records Append header_at data_at records)%status
  end.

Fixpoint read_records (Read : Z → Z → Status * list Z) (header_at data_at : Z) (k : nat)
    (x : RecordReader * Z) : list (Status * list Z) * (RecordReader * Z) :=
  match k with
  | O => ([], x)
  | S k =>
      let '(s, record, x) := Sequential_ReadRecord Read header_at data_at x in
      let '(results, x) := read_records Read header_at data_at k x in ((s, record) :: results, x)
  end.

(** * The writer *)

Lemma MaskedCrc_spec pval data : 0 <= pval → Forall is_byte data → MaskedCrc pval data = Mask (crc32c data).
Proof. intros. unfold MaskedCrc. by rewrite Value_crc. Qed.

Lemma WriteRecord_memory header_at data_at data content :
  0 <= header_at → 0 <= data_at → Forall is_byte data →
  WriteRecord memory_append header_at data_at data content = (StatusOK, content ++ encode_record data).
Proof.
  intros Hh Hd Hdata. unfold WriteRecord, encode_record, record_header, record_footer.
  rewrite !MaskedCrc_spec by (done || apply EncodeFixed64_bytes).
  unfold sm_bind, memory_append. cbn [ok]. by rewrite <-!app_assoc.
Qed.

Lemma write_records_memory header_at data_at records content :
  0 <= header_at → 0 <= data_at → Forall (Forall is_byte) records →
  write_records memory_append header_at data_at records content =
    (StatusOK, content ++ concat (encode_record <$> records)).
Proof.
  intros Hh Hd Hr. revert content. induction Hr as [|data records Hdata _ IH]; intros content.
  { cbn. by rewrite app_nil_r. }
  cbn [write_records]. unfold sm_bind at 1. rewrite WriteRecord_memory by done. cbn [ok].
  rewrite IH. cbn [fmap list_fmap concat]. by rewrite <-app_assoc.
Qed.

(** * The reader *)

Lemma length_record_header data : length (record_header data) = 12%nat.
Proof. done. Qed.

Lemma length_encode_record data : length (encode_record data) = (length data + 16)%nat.
Proof. unfold encode_record. rewrite !length_app, length_record_header. simpl. lia. Qed.

Lemma verify_ok pval offset data crc :
  0 <= pval → Forall is_byte data → is_u32 crc →
  verify pval offset (Z.of_nat (length data)) (data ++ EncodeFixed32 (Mask crc)) =
    if crc =? crc32c data then (StatusOK, data)
    else (DataLoss ("corrupted record at " +:+ pretty offset), []).
Proof.
  intros Hp Hd Hcrc. unfold verify. rewrite length_app, length_EncodeFixed32.
  rewrite (proj2 (Z.eqb_eq _ _)) by lia. cbn [negb]. rewrite Nat2Z.id, drop_app_length, take_app_length.
  rewrite <-(app_nil_r (EncodeFixed32 (Mask crc))).
  rewrite fixed32_round_trip by apply Mask_range. rewrite Unmask_Mask, Value_crc by done.
  by destruct (crc =? crc32c data).
Qed.

Section reader_proofs.
Context {Read : Z → Z → Status * list Z} {content : list Z}.
Context `{HR : !RandomAccessFile Read content}.
Context {Hlen : Z.of_nat (length content) < 2 ^ 63}.

Abbreviation len := (Z.of_nat (length content)).

(** A reader with a buffer has to be where it is asked to read. *)
Definition reader_at (r : RecordReader) (offset : Z) : Prop :=
  0 < rr_buffer_size r → buffered_ok (content := content) (rr_input_stream r) ∧
    Buffered_Tell (rr_input_stream r) = offset.

Lemma new_reader_at buffer_size : reader_at (newRecordReader buffer_size) 0.
Proof. intros _. split; [apply new_buffered_ok|done]. Qed.

(** With and without a buffer the bytes of the file are verified. *)
Lemma ReadChecksummed_slice pval offset n r :
  reader_at r offset → 0 <= offset → 0 <= n → offset + n + 4 <= len →
  ∃ r', ReadChecksummed Read pval offset n r =
      ((verify pval offset n (slice offset (n + 4) content)).1,
       (verify pval offset n (slice offset (n + 4) content)).2, r') ∧
    reader_at r' (offset + n + 4) ∧ rr_buffer_size r' = rr_buffer_size r.
Proof.
  intros Hr Ho Hn Hfit. unfold ReadChecksummed. rewrite Z.geb_leb, Z.gtb_ltb.
  rewrite (proj2 (Z.leb_gt _ _)) by (unfold SIZE_MAX; lia).
  destruct (Z.ltb_spec 0 (rr_buffer_size r)) as [Hb|Hb].
  - destruct (Hr Hb) as [Hok Ht]. assert (i64 (n + 4) = n + 4) as -> by (unfold i64; lia).
    pose proof (Buffered_ReadNBytes_spec (Hsize := Hb) (n + 4) [] _ Hok ltac:(lia)) as H.
    destruct (Buffered_ReadNBytes Read _ (n + 4) [] _) as [[s storage] stream].
    destruct H as (Hok'&->&Htell&Hs). rewrite Ht in *. rewrite (proj2 (Z.leb_le _ _)) in Hs by lia.
    subst s. cbn [ok negb]. destruct (verify pval offset n _) as [s result].
    eexists. split_and!; [done| |done]. intros _. split; [done|]. simpl. lia.
  - rewrite read_all by lia. cbn [ok negb]. destruct (verify pval offset n _) as [s result].
    exists r. split_and!; [done| |done]. intros ?. lia.
Qed.

(** At the end of the file there is nothing to verify. *)
Lemma ReadChecksummed_eof pval offset n r :
  reader_at r offset → 0 <= offset → 0 <= n < 2 ^ 63 - 4 → len < offset + n + 4 →
  ∃ s r', ReadChecksummed Read pval offset n r = (s, [], r') ∧ is_eof s.
Proof.
  intros Hr Ho Hn Hfit. unfold ReadChecksummed. rewrite Z.geb_leb, Z.gtb_ltb.
  rewrite (proj2 (Z.leb_gt _ _)) by (unfold SIZE_MAX; lia).
  destruct (Z.ltb_spec 0 (rr_buffer_size r)) as [Hb|Hb].
  - destruct (Hr Hb) as [Hok Ht]. assert (i64 (n + 4) = n + 4) as -> by (unfold i64; lia).
    pose proof (Buffered_ReadNBytes_spec (Hsize := Hb) (n + 4) [] _ Hok ltac:(lia)) as H.
    destruct (Buffered_ReadNBytes Read _ (n + 4) [] _) as [[s storage] stream].
    destruct H as (_&_&_&Hs). rewrite Ht, (proj2 (Z.leb_gt _ _)) in Hs by lia.
    destruct Hs as [msg ->]. cbn [ok OutOfRange negb]. eexists _, _. split; [done|by exists msg].
  - destruct (read_eof offset (n + 4)) as [msg ->]; [lia..|]. cbn [ok OutOfRange negb].
    eexists _, _. split; [done|by exists msg].
Qed.

Lemma slice_app pre data post :
  content = pre ++ data ++ post →
  slice (Z.of_nat (length pre)) (Z.of_nat (length data)) content = data.
Proof. intros ->. unfold slice. rewrite !Nat2Z.id, drop_app_length. apply take_app_length. Qed.

(** A checksummed block of the file is read if its checksum is right. *)
Lemma ReadChecksummed_block pval pre data crc post r :
  0 <= pval → Forall is_byte data → is_u32 crc →
  content = pre ++ data ++ EncodeFixed32 (Mask crc) ++ post →
  reader_at r (Z.of_nat (length pre)) →
  ∃ r', ReadChecksummed Read pval (Z.of_nat (length pre)) (Z.of_nat (length data)) r =
      (if crc =? crc32c data then (StatusOK, data, r')
       else (DataLoss ("corrupted record at " +:+ pretty (Z.of_nat (length pre))), [], r')) ∧
    reader_at r' (Z.of_nat (length pre) + Z.of_nat (length data) + 4) ∧
    rr_buffer_size r' = rr_buffer_size r.
Proof.
  intros Hp Hd Hcrc Hcontent Hr.
  assert (Z.of_nat (length pre) + Z.of_nat (length data) + 4 <= len) as Hfit.
  { rewrite Hcontent, !length_app, length_EncodeFixed32. lia. }
  destruct (ReadChecksummed_slice pval _ (Z.of_nat (length data)) r Hr) as (r'&->&Hat&Hsize); [lia..|].
  exists r'. split_and!; [|done..].
  pose proof (slice_app pre (data ++ EncodeFixed32 (Mask crc)) post) as Hs.
  rewrite length_app, length_EncodeFixed32, Nat2Z.inj_add in Hs. change (Z.of_nat 4) with 4 in Hs.
  rewrite Hs by (by rewrite Hcontent, <-app_assoc). rewrite verify_ok by done.
  by destruct (crc =? crc32c data).
Qed.

Lemma ReadRecord_block header_at data_at pre data crc post r :
  0 <= header_at → 0 <= data_at → Forall is_byte data → is_u32 crc →
  content = pre ++ record_header data ++ data ++ EncodeFixed32 (Mask crc) ++ post →
  reader_at r (Z.of_nat (length pre)) →
  ∃ r', ReadRecord Read header_at data_at (Z.of_nat (length pre)) r =
      (if crc =? crc32c data
       then (StatusOK, data, Z.of_nat (length pre) + Z.of_nat (length data) + 16, r')
       else (DataLoss ("corrupted record at " +:+ pretty (Z.of_nat (length pre) + 12)), [],
             Z.of_nat (length pre), r')) ∧
    reader_at r' (Z.of_nat (length pre) + Z.of_nat (length data) + 16) ∧
    rr_buffer_size r' = rr_buffer_size r.
Proof.
  intros Hh Hda Hd Hcrc Hcontent Hr. unfold ReadRecord.
  set (size := EncodeFixed64 (Z.of_nat (length data))).
  assert (Z.of_nat (length pre) + Z.of_nat (length data) + 16 <= len) as Hfit.
  { rewrite Hcontent, !length_app, length_EncodeFixed32, length_record_header. lia. }
  destruct (ReadChecksummed_block header_at pre size (crc32c size)
    (data ++ EncodeFixed32 (Mask crc) ++ post) r) as (r1&E1&Hat1&Hs1);
    [done|apply EncodeFixed64_bytes|apply crc32c_range, EncodeFixed64_bytes| |done|].
  { rewrite Hcontent. unfold record_header. fold size. by rewrite <-!app_assoc. }
  rewrite Z.eqb_refl in E1. change (Z.of_nat (length size)) with 8 in E1, Hat1. rewrite E1.
  assert (DecodeFixed64 size = Z.of_nat (length data)) as Hsz.
  { rewrite <-(app_nil_r size). apply fixed64_round_trip. unfold is_u64. lia. }
  cbn [ok negb]. rewrite !Hsz.
  rewrite (u64_small (Z.of_nat (length pre) + 12)) by (unfold is_u64; lia).
  destruct (ReadChecksummed_block data_at (pre ++ record_header data) data crc post r1)
    as (r2&E2&Hat2&Hs2); [done..| | |].
  { rewrite Hcontent. by rewrite <-!app_assoc. }
  { rewrite length_app, length_record_header.
    by replace (Z.of_nat (length pre + 12)) with (Z.of_nat (length pre) + 8 + 4) by lia. }
  rewrite length_app, length_record_header in E2, Hat2.
  replace (Z.of_nat (length pre + 12)) with (Z.of_nat (length pre) + 12) in E2, Hat2 by lia.
  rewrite E2. exists r2.
  replace (Z.of_nat (length pre) + 12 + Z.of_nat (length data) + 4)
    with (Z.of_nat (length pre) + Z.of_nat (length data) + 16) in Hat2 by lia.
  split_and!; [|done|congruence].
  destruct (crc =? crc32c data); cbn [ok negb DataLoss]; [|done].
  rewrite u64_small by (unfold is_u64; lia). do 2 f_equal. lia.
Qed.

Lemma read_records_spec header_at data_at records pre r :
  0 <= header_at → 0 <= data_at → Forall (Forall is_byte) records →
  content = pre ++ concat (encode_record <$> records) → reader_at r (Z.of_nat (length pre)) →
  ∃ r', read_records Read header_at data_at (length records) (r, Z.of_nat (length pre)) =
      (pair StatusOK <$> records, (r', len)) ∧ reader_at r' len.
Proof.
  intros Hh Hda Hrec. revert pre r. induction Hrec as [|data records Hd _ IH]; intros pre r Hcontent Hr.
  { assert (len = Z.of_nat (length pre)) as -> by (rewrite Hcontent; cbn; by rewrite app_nil_r).
    by exists r. }
  cbn [length read_records fmap list_fmap concat] in *. unfold Sequential_ReadRecord. cbn [fst snd].
  destruct (ReadRecord_block header_at data_at pre data (crc32c data)
    (concat (encode_record <$> records)) r) as (r1&E1&Hat1&_);
    [done..|by apply crc32c_range| |done|].
  { rewrite Hcontent. unfold encode_record at 1. unfold record_footer. by rewrite <-!app_assoc. }
  rewrite E1, Z.eqb_refl.
  replace (Z.of_nat (length pre) + Z.of_nat (length data) + 16)
    with (Z.of_nat (length (pre ++ encode_record data))) in *
    by (rewrite length_app, length_encode_record; lia).
  destruct (IH (pre ++ encode_record data) r1) as (r'&E&Hat'); [by rewrite Hcontent, <-app_assoc|done|].
  rewrite E. by exists r'.
Qed.

Lemma ReadRecord_eof header_at data_at r :
  reader_at r len → ∃ s r', ReadRecord Read header_at data_at len r = (s, [], len, r') ∧ is_eof s.
Proof.
  intros Hr. destruct (ReadChecksummed_eof header_at len 8 r Hr) as (s&r'&E&Heof); [lia..|].
  unfold ReadRecord. rewrite E. destruct Heof as [msg ->]. cbn [ok OutOfRange negb].
  eexists _, _. split; [done|by exists msg].
Qed.
End reader_proofs.

(** * Theorems *)

(** C36: records written to a file are read back in order, with any buffer size or
    none and wherever the buffers lie, each with status OK; the next read reports
    the end of the file. *)
Theorem records_round_trip (Read : Z → Z → Status * list Z) (records : list (list Z))
    (buffer_size header_at data_at header_at' data_at' : Z) :
  0 <= header_at → 0 <= data_at → 0 <= header_at' → 0 <= data_at' →
  Forall (Forall is_byte) records →
  let '(s, content) := write_records memory_append header_at data_at records [] in
  RandomAccessFile Read content → Z.of_nat (length content) < 2 ^ 63 →
  s = StatusOK ∧ ∃ x s' x',
    read_records Read header_at' data_at' (length records) (newRecordReader buffer_size, 0) =
      (pair StatusOK <$> records, x) ∧
    TellOffset x = Z.of_nat (length content) ∧
    Sequential_ReadRecord Read header_at' data_at' x = (s', [], x') ∧ is_eof s'.
Proof.
  intros Hh Hd Hh' Hd' Hrec. rewrite write_records_memory by done. cbn [app].
  set (content := concat (encode_record <$> records)). intros HR Hlen. split; [done|].
  destruct (read_records_spec (Hlen := Hlen) header_at' data_at' records []
    (newRecordReader buffer_size) Hh' Hd' Hrec) as (r'&E&Hat); [done|apply new_reader_at|].
  change (Z.of_nat (length [])) with 0 in E.
  destruct (ReadRecord_eof header_at' data_at' r' Hat) as (s'&r''&E'&Heof).
  exists (r', Z.of_nat (length content)), s', (r'', Z.of_nat (length content)).
  split_and!; [exact E|done| |done]. unfold Sequential_ReadRecord. cbn [fst snd]. by rewrite E'.
Qed.

Lemma records_round_trip_witness :
  ∃ x, read_records (memory_read (concat (encode_record <$> [[1; 2]; []]))) 0 0 2
    (newRecordReader 3, 0) = ([(StatusOK, [1; 2]); (StatusOK, [])], x).
Proof.
  pose proof (records_round_trip (memory_read (concat (encode_record <$> [[1; 2]; []])))
    [[1; 2]; []] 3 0 0 0 0 ltac:(lia) ltac:(lia) ltac:(lia) ltac:(lia)) as H.
  destruct H as (_&x&_&_&E&_).
  - repeat constructor; lia.
  - apply memory_file.
  - vm_compute. reflexivity.
  - exists x. exact E.
Defined.

(** Corruption is detected. If the bytes of a stored record differ from what
    was written within four consecutive bytes, reading it, with or without a
    buffer, fails with a data-loss error and does not move past it. *)
Theorem corrupted_record_detected (Read : Z → Z → Status * list Z) (pre a w w' b post : list Z)
    (header_at data_at : Z) (r : RecordReader) :
  let content := pre ++ record_header (a ++ w ++ b) ++ (a ++ w' ++ b) ++
    record_footer (a ++ w ++ b) ++ post in
  RandomAccessFile Read content → Z.of_nat (length content) < 2 ^ 63 →
  0 <= header_at → 0 <= data_at →
  Forall is_byte (a ++ w ++ b) → Forall is_byte (a ++ w' ++ b) →
  length w = length w' → (length w <= 4)%nat → w ≠ w' →
  reader_at (content := content) r (Z.of_nat (length pre)) →
  ∃ r', ReadRecord Read header_at data_at (Z.of_nat (length pre)) r =
    (DataLoss ("corrupted record at " +:+ pretty (Z.of_nat (length pre) + 12)), [],
     Z.of_nat (length pre), r').
Proof.
  intros content HR Hlen Hh Hd Hgood Hbad Hw H4 Hne Hr.
  assert (record_header (a ++ w ++ b) = record_header (a ++ w' ++ b)) as Hheader
    by (unfold record_header; by rewrite !length_app, Hw).
  destruct (ReadRecord_block (Hlen := Hlen) header_at data_at pre (a ++ w' ++ b)
    (crc32c (a ++ w ++ b)) post r) as (r'&E&_);
    [done..|by apply crc32c_range|by unfold content; rewrite Hheader|done|].
  exists r'. rewrite E. destruct (Z.eqb_spec (crc32c (a ++ w ++ b)) (crc32c (a ++ w' ++ b))) as [Heq|];
    [|done].
  exfalso. apply Hne. rewrite !Forall_app in Hgood, Hbad. destruct Hgood as (?&?&?), Hbad as (_&?&_).
  by apply (crc32c_burst a w w' b).
Qed.

Lemma corrupted_record_detected_witness :
  ∃ r', ReadRecord (memory_read ([] ++ record_header [1; 2; 3] ++ [1; 7; 3] ++ record_footer [1; 2; 3] ++ []))
      0 0 0 (newRecordReader 0) =
    (DataLoss ("corrupted record at " +:+ pretty 12%Z), [], 0, r').
Proof.
  apply (corrupted_record_detected _ [] [1] [2] [7] [3] [] 0 0 (newRecordReader 0)).
  - apply memory_file.
  - vm_compute. reflexivity.
  - lia.
  - lia.
  - repeat constructor; lia.
  - repeat constructor; lia.
  - reflexivity.
  - simpl. lia.
  - congruence.
  - intros ?. simpl in *. lia.
Defined.
