(* ===== verification/Blocks.v ===== *)
(** Blocks of sorted entries: [tensorflow/core/lib/io/block_builder.{h,cc}],
    [block.{h,cc}], [iterator.{h,cc}] and [StringPiece::compare].

    A block stores entries with sorted keys, each key without the prefix it
    shares with the key before it, and ends with the offsets of the entries that
    store their whole key (the restart points).  [BlockBuilder] writes such a
    block, [Block::Iter] walks through it and seeks in it by bisection on the
    restart points.  The class [Iterator] is the interface of that name, and
    [Refines] what its header promises: the iterator is a position in the list of
    entries.  Pointers into a block are offsets; entries are pairs of byte
    strings.

    The theorems: an iterator over what the builder wrote is a position in the
    entries that were added, with [Seek] at the first key that is not smaller
    ([block_round_trip]); and on any contents whatever the loops of the iterator
    end and every entry they accept lies inside the block, provided its two
    lengths do not wrap around ([block_iterator_bounds]). *)
From S2P Require Import Prelude Status Coding InputStream.
Local Open Scope Z_scope.

Ltac Zify.zify_post_hook ::= Z.to_euclidean_division_equations.

Abbreviation entries := (list (list Z * list Z)).

(** * String pieces *)

(** [memcmp] over the length of the shorter string. *)
Fixpoint memcmp (a b : list Z) : Z :=
  match a, b with
  | x :: a, y :: b => if x <? y then -1 else if y <? x then 1 else memcmp a b
  | _, _ => 0
  end.

(** [StringPiece::compare]. *)
Definition compare (a b : list Z) : Z :=
  let r := memcmp a b in
  if r =? 0 then
    if (length a <? length b)%nat then -1 else if (length b <? length a)%nat then 1 else r
  else r.

(** * The builder *)

Record BlockBuilder := mkBlockBuilder {
  bb_block_restart_interval : Z;   (* of the options *)
  bb_buffer : list Z;
  bb_restarts : list Z;
  bb_counter : Z;
  bb_finished : bool;
  bb_last_key : list Z;
  bb_checked : bool }.             (* no [CHECK] has failed *)

Definition newBlockBuilder (interval : Z) : BlockBuilder :=
  mkBlockBuilder interval [] [0] 0 false [] true.

Definition BlockBuilder_Reset (b : BlockBuilder) : BlockBuilder :=
  mkBlockBuilder (bb_block_restart_interval b) [] [0] 0 false [] (bb_checked b).

Definition bb_empty (b : BlockBuilder) : bool := bool_decide (bb_buffer b = []).

Definition CurrentSizeEstimate (b : BlockBuilder) : Z :=
  Z.of_nat (length (bb_buffer b)) + Z.of_nat (length (bb_restarts b)) * 4 + 4.

(** The length of the common prefix, as the loops of [BlockBuilder::Add] and
    [FindShortestSeparator] find it. *)
Fixpoint common_prefix (a b : list Z) : nat :=
  match a, b with
  | x :: a, y :: b => if x =? y then S (common_prefix a b) else O
  | _, _ => O
  end.

Definition uint32_max : Z := 2 ^ 32 - 1.

(** [CHECK_LE(n, std::numeric_limits<uint32_t>::max())]. *)
Definition check_u32 (n : nat) : bool := Z.of_nat n <=? uint32_max.

Definition BlockBuilder_Add (key value : list Z) (b : BlockBuilder) : BlockBuilder :=
  let '(shared, restarts, counter, checked) :=
    if bb_counter b <? bb_block_restart_interval b
    then (common_prefix (bb_last_key b) key, bb_restarts b, bb_counter b, true)
    else (O, bb_restarts b ++ [u32 (Z.of_nat (length (bb_buffer b)))], 0,
          check_u32 (length (bb_buffer b))) in
  let non_shared := (length key - shared)%nat in
  let checked := checked && check_u32 shared && check_u32 non_shared && check_u32 (length value) in
  let value_size := u32 (Z.of_nat (length value)) in
  let buffer := PutVarint32 (bb_buffer b) (u32 (Z.of_nat shared)) in
  let buffer := PutVarint32 buffer (u32 (Z.of_nat non_shared)) in
  let buffer := PutVarint32 buffer value_size in
  let buffer := buffer ++ drop shared key in
  let buffer := buffer ++ take (Z.to_nat value_size) value in
  mkBlockBuilder (bb_block_restart_interval b) buffer restarts (counter + 1) (bb_finished b)
    (take shared (bb_last_key b) ++ drop shared key) (bb_checked b && checked).

(** [BlockBuilder::Finish]: the contents of the block. *)
Definition BlockBuilder_Finish (b : BlockBuilder) : list Z * BlockBuilder :=
  let checked := check_u32 (length (bb_restarts b)) in
  let buffer := foldl PutFixed32 (bb_buffer b) (bb_restarts b) in
  let buffer := PutFixed32 buffer (u32 (Z.of_nat (length (bb_restarts b)))) in
  (buffer, mkBlockBuilder (bb_block_restart_interval b) buffer (bb_restarts b) (bb_counter b) true
             (bb_last_key b) (bb_checked b && checked)).

(** * Iterators *)

(** The virtual methods of [Iterator]. *)
Class Iterator (I : Type) := {
  Valid : I → bool;
  SeekToFirst : I → I;
  Seek : list Z → I → I;
  Next : I → I;
  key : I → list Z;
  value : I → list Z;
  status : I → Status }.

(** [EmptyIterator], with its status; the assertions of [Next], [key] and [value]
    are for debugging. *)
Record EmptyIterator := mkEmptyIterator { ei_status : Status }.

#[export] Instance empty_iterator : Iterator EmptyIterator := {
  Valid _ := false;
  SeekToFirst i := i;
  Seek _ i := i;
  Next i := i;
  key _ := [];
  value _ := [];
  status := ei_status }.

Definition NewEmptyIterator : EmptyIterator := mkEmptyIterator StatusOK.
Definition NewErrorIterator (st : Status) : EmptyIterator := mkEmptyIterator st.

(** * Blocks *)

(** [Block]; a block that is too short for what it says has size 0, and its
    restart offset is not used. *)
Record Block := mkBlock { blk_data : list Z; blk_size : Z; blk_restart_offset : Z }.

Definition NumRestarts (data : list Z) (size : Z) : Z := DecodeFixed32 (drop (Z.to_nat (size - 4)) data).

Definition newBlock (data : list Z) : Block :=
  let size := Z.of_nat (length data) in
  if size <? 4 then mkBlock data 0 0
  else
    let max_restarts_allowed := (size - 4) / 4 in
    if max_restarts_allowed <? NumRestarts data size then mkBlock data 0 0
    else mkBlock data size (u32 (size - u32 (1 + NumRestarts data size) * 4)).

(** [DecodeEntry] on the entry at the offset [p]: the offset of the key delta and
    the three lengths. *)
Definition DecodeEntry (data : list Z) (p limit : Z) : option (Z * Z * Z * Z) :=
  if limit - p <? 3 then None else
  let region := slice p (limit - p) data in
  let shared := byte_at region 0 in
  let non_shared := byte_at region 1 in
  let value_length := byte_at region 2 in
  '(p, shared, non_shared, value_length) ←
    (if Z.lor (Z.lor shared non_shared) value_length <? 128
     then Some (p + 3, shared, non_shared, value_length)
     else
       '(shared, rest) ← GetVarint32Ptr region;
       '(non_shared, rest) ← GetVarint32Ptr rest;
       '(value_length, rest) ← GetVarint32Ptr rest;
       Some (limit - Z.of_nat (length rest), shared, non_shared, value_length));
  if u32 (limit - p) <? u32 (non_shared + value_length) then None
  else Some (p, shared, non_shared, value_length).

(** [Block::Iter]; [value_] is an offset and a size. *)
Record Iter := mkIter {
  it_data : list Z;
  it_restarts : Z;
  it_num_restarts : Z;
  it_current : Z;
  it_restart_index : Z;
  it_key : list Z;
  it_value : Z * Z;
  it_status : Status }.

Definition newIter (data : list Z) (restarts num_restarts : Z) : Iter :=
  mkIter data restarts num_restarts restarts num_restarts [] (0, 0) StatusOK.

Definition set_position (current restart_index : Z) (k : list Z) (v : Z * Z) (st : Status)
    (it : Iter) : Iter :=
  mkIter (it_data it) (it_restarts it) (it_num_restarts it) current restart_index k v st.

Definition NextEntryOffset (it : Iter) : Z := u32 ((it_value it).1 + (it_value it).2).

Definition GetRestartPoint (it : Iter) (index : Z) : Z :=
  DecodeFixed32 (drop (Z.to_nat (it_restarts it + index * 4)) (it_data it)).

Definition SeekToRestartPoint (index : Z) (it : Iter) : Iter :=
  set_position (it_current it) index [] (GetRestartPoint it index, 0) (it_status it) it.

Definition CorruptionError (it : Iter) : Iter :=
  set_position (it_restarts it) (it_num_restarts it) [] (0, 0) (DataLoss "bad entry in block") it.

(** The loop at the end of [ParseNextKey].  The loops of the iterator are [None] when the
    fuel ends before they do, which [block_iterator_terminates] excludes. *)
Fixpoint advance_restart_index (fuel : nat) (current index : Z) (it : Iter) : option Z :=
  match fuel with
  | O => None
  | S fuel =>
      if (u32 (index + 1) <? it_num_restarts it) && (GetRestartPoint it (index + 1) <? current)
      then advance_restart_index fuel current (index + 1) it else Some index
  end.

(** An entry that [DecodeEntry] has accepted lies within the block, but for lengths whose
    sum wraps around; what the code would then read after the block is cut off here.  The
    offset of the null [value_] that [CorruptionError] leaves is 0. *)
Definition ParseNextKey (it : Iter) : bool * Iter :=
  let current := NextEntryOffset it in
  let limit := it_restarts it in
  if limit <=? current then
    (false, set_position (it_restarts it) (it_num_restarts it) (it_key it) (it_value it)
              (it_status it) it)
  else
    match DecodeEntry (it_data it) current limit with
    | None => (false, CorruptionError it)
    | Some (p, shared, non_shared, value_length) =>
        if Z.of_nat (length (it_key it)) <? shared then (false, CorruptionError it)
        else
          (true, set_position current
             (default (it_restart_index it)
                (advance_restart_index (Z.to_nat (it_num_restarts it)) current (it_restart_index it) it))
             (take (Z.to_nat shared) (it_key it) ++ slice p non_shared (it_data it))
             (p + non_shared, value_length) (it_status it) it)
    end.

(** The bisection of [Seek]; [Some None]: a bad entry. *)
Fixpoint bisect (fuel : nat) (target : list Z) (left right : Z) (it : Iter) : option (option Z) :=
  match fuel with
  | O => None
  | S fuel =>
      if left <? right then
        let mid := u32 (left + right + 1) / 2 in
        let region_offset := GetRestartPoint it mid in
        match DecodeEntry (it_data it) region_offset (it_restarts it) with
        | None => Some None
        | Some (key_ptr, shared, non_shared, _) =>
            if negb (shared =? 0) then Some None
            else if compare (slice key_ptr non_shared (it_data it)) target <? 0
            then bisect fuel target mid right it
            else bisect fuel target left (mid - 1) it
        end
      else Some (Some left)
  end.

(** The linear search of [Seek]. *)
Fixpoint scan (fuel : nat) (target : list Z) (it : Iter) : option Iter :=
  match fuel with
  | O => None
  | S fuel =>
      let '(parsed, it) := ParseNextKey it in
      if negb parsed then Some it
      else if 0 <=? compare (it_key it) target then Some it else scan fuel target it
  end.

(** [Seek]; [None]: a loop has not ended. *)
Definition Seek_loops (target : list Z) (it : Iter) : option Iter :=
  index ← bisect (Z.to_nat (it_num_restarts it)) target 0 (u32 (it_num_restarts it - 1)) it;
  match index with
  | None => Some (CorruptionError it)
  | Some index => scan (S (Z.to_nat (it_restarts it))) target (SeekToRestartPoint index it)
  end.

Definition Iter_Seek (target : list Z) (it : Iter) : Iter := default it (Seek_loops target it).

#[export] Instance block_iter : Iterator Iter := {
  Valid it := it_current it <? it_restarts it;
  SeekToFirst it := (ParseNextKey (SeekToRestartPoint 0 it)).2;
  Seek := Iter_Seek;
  Next it := (ParseNextKey it).2;
  key := it_key;
  value it := slice (it_value it).1 (it_value it).2 (it_data it);
  status := it_status }.

(** What [Block::NewIterator] returns. *)
Inductive BlockIterator :=
  | OfEmpty (i : EmptyIterator)
  | OfBlock (it : Iter).

#[export] Instance block_iterator : Iterator BlockIterator := {
  Valid i := match i with OfEmpty i => Valid i | OfBlock it => Valid it end;
  SeekToFirst i := match i with
    OfEmpty i => OfEmpty (SeekToFirst i) | OfBlock it => OfBlock (SeekToFirst it) end;
  Seek target i := match i with
    OfEmpty i => OfEmpty (Seek target i) | OfBlock it => OfBlock (Seek target it) end;
  Next i := match i with OfEmpty i => OfEmpty (Next i) | OfBlock it => OfBlock (Next it) end;
  key i := match i with OfEmpty i => key i | OfBlock it => key it end;
  value i := match i with OfEmpty i => value i | OfBlock it => value it end;
  status i := match i with OfEmpty i => status i | OfBlock it => status it end }.

Definition Block_NewIterator (b : Block) : BlockIterator :=
  if blk_size b <? 4 then OfEmpty (NewErrorIterator (DataLoss "bad block contents"))
  else
    let num_restarts := NumRestarts (blk_data b) (blk_size b) in
    if num_restarts =? 0 then OfEmpty NewEmptyIterator
    else OfBlock (newIter (blk_data b) (blk_restart_offset b) num_restarts).

(** * Specification *)

(** The number of entries before the first whose key is not below [target]. *)
Fixpoint lower_bound (target : list Z) (l : entries) : nat :=
  match l with
  | [] => O
  | (k, _) :: l => if bytes_ltb k target then S (lower_bound target l) else O
  end.

(** The entries are sorted by their keys, without duplicates. *)
Definition sorted_keys (l : entries) : Prop :=
  StronglySorted (λ e e' : list Z * list Z, bytes_ltb e.1 e'.1 = true) l.

(** What [iterator.h] promises of an iterator over the entries [l]: it is at a
    position, [position k i], in the list or past its end, and has no error. *)
Record Refines {I} `{Iterator I} (l : entries) (position : nat → I → Prop) : Prop := {
  ref_bound k i : position k i → (k <= length l)%nat;
  ref_valid k i : position k i → Valid i = bool_decide (k < length l)%nat;
  ref_entry k i a b : position k i → l !! k = Some (a, b) → key i = a ∧ value i = b;
  ref_status k i : position k i → status i = StatusOK;
  ref_next k i : position k i → (k < length l)%nat → position (S k) (Next i);
  ref_first k i : position k i → position O (SeekToFirst i);
  ref_seek k i target : position k i → position (lower_bound target l) (Seek target i) }.

(** * Comparison *)

Lemma compare_ltb a b : (compare a b <? 0) = bytes_ltb a b.
Proof.
  revert b. induction a as [|x a IH]; intros [|y b]; try done.
  unfold compare in *. cbn [memcmp bytes_ltb]. destruct (Z.ltb_spec x y); [done|].
  destruct (Z.ltb_spec y x).
  - by rewrite (proj2 (Z.eqb_neq x y)) by lia.
  - rewrite (proj2 (Z.eqb_eq x y)) by lia. cbn [orb andb length]. rewrite <-IH.
    by replace (S (length a) <? S (length b))%nat with (length a <? length b)%nat by done.
Qed.

Lemma compare_geb a b : (0 <=? compare a b) = negb (bytes_ltb a b).
Proof. rewrite <-compare_ltb, Z.leb_antisym. done. Qed.

Lemma lower_bound_length target l : (lower_bound target l <= length l)%nat.
Proof. induction l as [|[k v] l IH]; simpl; [lia|]. case_match; lia. Qed.

(** Entries below the target at the start of the list are passed. *)
Lemma lower_bound_app target l1 l2 :
  Forall (λ e : list Z * list Z, bytes_ltb e.1 target = true) l1 →
  lower_bound target (l1 ++ l2) = (length l1 + lower_bound target l2)%nat.
Proof. induction 1 as [|[k v] l Hk _ IH]; [done|]. simpl in *. by rewrite Hk, IH. Qed.

Lemma lower_bound_zero target l :
  Forall (λ e : list Z * list Z, bytes_ltb e.1 target = false) l → lower_bound target l = O.
Proof. destruct 1 as [|[k v] l Hk _]; [done|]. simpl in *. by rewrite Hk. Qed.

Lemma lower_bound_cons target k v l :
  lower_bound target ((k, v) :: l) = if bytes_ltb k target then S (lower_bound target l) else O.
Proof. done. Qed.

(** * Reading *)

(** The entries [l] lie in the data from [off] up to [limit]; [prev] is the key
    before them. *)
Fixpoint layout (data : list Z) (limit off : Z) (prev : list Z) (l : entries) : Prop :=
  match l with
  | [] => off = limit
  | (k, v) :: l =>
      ∃ sh p, let ns := Z.of_nat (length k) - Z.of_nat sh in let vl := Z.of_nat (length v) in
        DecodeEntry data off limit = Some (p, Z.of_nat sh, ns, vl) ∧
        0 <= off ∧ off + 3 <= p ∧ (sh <= length k)%nat ∧ (sh <= length prev)%nat ∧
        take sh prev = take sh k ∧ slice p ns data = drop sh k ∧ slice (p + ns) vl data = v ∧
        p + ns + vl <= limit ∧ layout data limit (p + ns + vl) k l
  end.

Lemma layout_length data limit off prev l :
  layout data limit off prev l → off + 3 * Z.of_nat (length l) <= limit.
Proof.
  revert off prev. induction l as [|[k v] l IH]; intros off prev; simpl; [lia|].
  intros (sh&p&_&?&?&?&_&_&_&_&?&Hl%IH). lia.
Qed.

Lemma layout_offset data limit off prev l :
  layout data limit off prev l → 0 <= limit → 0 <= off <= limit.
Proof.
  intros Hl. pose proof (layout_length _ _ _ _ _ Hl). destruct l as [|[k v] l]; simpl in Hl; [lia|].
  destruct Hl as (?&?&_&?&_). lia.
Qed.

Section reading.
Context {data : list Z} {restarts num_restarts : Z} {l : entries} {idx : list nat}.

(** A block that holds the entries: each restart point is the offset of an entry,
    the first of the first, and that entry stores its whole key; [idx] are the
    numbers of those entries. *)
Record block_of : Prop := {
  bo_restarts : is_u32 restarts;
  bo_num : 0 < num_restarts < 2 ^ 31;
  bo_idx : Z.of_nat (length idx) = num_restarts ∧ idx !! O = Some O;
  bo_points j i : idx !! j = Some i →
      layout data restarts (DecodeFixed32 (drop (Z.to_nat (restarts + Z.of_nat j * 4)) data)) []
        (drop i l) ∧ (j ≠ O → i < length l)%nat ∧ (i <= length l)%nat }.

Context (Hblock : block_of) (Hsorted : sorted_keys l).

Definition over (it : Iter) : Prop :=
  it_data it = data ∧ it_restarts it = restarts ∧ it_num_restarts it = num_restarts ∧
  it_status it = StatusOK.

Definition block_position (k : nat) (it : Iter) : Prop :=
  over it ∧ (k <= length l)%nat ∧
  match l !! k with
  | None => it_current it = restarts
  | Some (a, b) => it_current it < restarts ∧ it_key it = a ∧
      slice (it_value it).1 (it_value it).2 data = b ∧
      layout data restarts (NextEntryOffset it) a (drop (S k) l)
  end.

(** [ParseNextKey] where the next entry is number [k]. *)
Lemma ParseNextKey_layout k it :
  over it → (k <= length l)%nat →
  layout data restarts (NextEntryOffset it) (it_key it) (drop k l) →
  (ParseNextKey it).1 = bool_decide (k < length l)%nat ∧ block_position k (ParseNextKey it).2.
Proof.
  intros (Hd&Hr&Hn&Hs) Hk Hl. unfold ParseNextKey. rewrite Hr, Hd.
  destruct (l !! k) as [[a b]|] eqn:E.
  - pose proof (lookup_lt_Some _ _ _ E). rewrite bool_decide_true by done.
    rewrite (drop_S _ _ _ E) in Hl. pose proof (layout_length _ _ _ _ _ Hl) as Hlen.
    destruct Hl as (sh&p&Hdec&?&?&?&?&Ht&Hkey&Hval&?&Hl). cbn [length] in Hlen.
    rewrite (proj2 (Z.leb_gt _ _)) by lia. rewrite Hdec.
    rewrite (proj2 (Z.ltb_ge _ _)) by lia. split; [done|].
    split; [done|]. split; [done|]. rewrite E. cbn [set_position it_current it_key it_value fst snd].
    split_and!; [lia| |done|].
    + rewrite Nat2Z.id, Ht, Hkey. apply take_drop.
    + destruct Hblock as [Hu _ _]. unfold is_u32 in Hu. unfold NextEntryOffset. cbn [set_position it_value fst snd].
      rewrite u32_small by (unfold is_u32; lia). done.
  - apply lookup_ge_None in E. rewrite bool_decide_false by lia.
    rewrite drop_ge in Hl by done. simpl in Hl. rewrite Hl, Z.leb_refl.
    split; [done|]. split; [done|]. split; [done|]. rewrite (proj2 (lookup_ge_None _ _)) by lia.
    done.
Qed.

Lemma block_position_next k it :
  block_position k it → (k < length l)%nat → block_position (S k) (Next it).
Proof.
  intros (Hov&_&Hk) Hlt. destruct (lookup_lt_is_Some_2 _ _ Hlt) as [[a b] E]. rewrite E in Hk.
  destruct Hk as (_&Hkey&_&Hl). apply (ParseNextKey_layout (S k) it Hov); [lia|]. by rewrite Hkey.
Qed.

(** At a restart point. *)
Lemma SeekToRestartPoint_layout j it :
  over it → 0 <= j < num_restarts → ∃ i, idx !! Z.to_nat j = Some i ∧ (i <= length l)%nat ∧
    (j ≠ 0 → (i < length l)%nat) ∧ (j = 0 → i = O) ∧ over (SeekToRestartPoint j it) ∧
    layout data restarts (NextEntryOffset (SeekToRestartPoint j it)) [] (drop i l) ∧
    NextEntryOffset (SeekToRestartPoint j it) = GetRestartPoint it j.
Proof.
  intros (Hd&Hr&Hn&Hs) Hj. destruct Hblock as [Hu Hnum [Hlen H0] Hidx].
  destruct (lookup_lt_is_Some_2 idx (Z.to_nat j)) as [i Hi]; [lia|].
  destruct (Hidx _ _ Hi) as (Hl&Hpos&Hle). rewrite Z2Nat.id in Hl by lia.
  exists i. split; [done|]. split; [done|]. split; [intros ?; apply Hpos; lia|].
  split; [intros ->; change (Z.to_nat 0) with O in Hi; congruence|]. split; [done|].
  unfold NextEntryOffset. cbn [SeekToRestartPoint set_position it_value fst snd].
  unfold GetRestartPoint. rewrite Hr, Hd, Z.add_0_r. unfold is_u32 in Hu.
  pose proof (layout_offset _ _ _ _ _ Hl). by rewrite u32_small by (unfold is_u32; lia).
Qed.

Lemma scan_layout fuel target k it :
  over it → (k <= length l)%nat → (length l - k < fuel)%nat →
  layout data restarts (NextEntryOffset it) (it_key it) (drop k l) →
  ∃ it', scan fuel target it = Some it' ∧ block_position (k + lower_bound target (drop k l)) it'.
Proof.
  revert k it. induction fuel as [|fuel IH]; intros k it Hov Hk Hfuel Hl; [lia|].
  cbn [scan]. destruct (ParseNextKey_layout k it Hov Hk Hl) as [Hp Hpos].
  destruct (ParseNextKey it) as [parsed it']. simpl in Hp, Hpos. subst parsed.
  destruct (l !! k) as [[a b]|] eqn:E.
  - pose proof (lookup_lt_Some _ _ _ E). rewrite bool_decide_true by done. simpl negb. cbv iota.
    destruct Hpos as (Hov'&_&Hk'). pose proof Hk' as Hk''. rewrite E in Hk'.
    destruct Hk' as (Hc&Hkey&Hval&Hl'). rewrite compare_geb, Hkey, (drop_S _ _ _ E), lower_bound_cons.
    destruct (bytes_ltb a target); simpl negb; cbv iota.
    + replace (k + S (lower_bound target (drop (S k) l)))%nat
        with (S k + lower_bound target (drop (S k) l))%nat by lia.
      apply IH; [done|lia..|by rewrite Hkey].
    + rewrite Nat.add_0_r. by eexists.
  - apply lookup_ge_None in E. rewrite bool_decide_false by lia. simpl negb. cbv iota.
    rewrite drop_ge by done. simpl. rewrite Nat.add_0_r. by eexists.
Qed.

(** The keys before the restart point are below the target. *)
Definition passed (target : list Z) (j : Z) : Prop :=
  j ≠ 0 → ∀ i, idx !! Z.to_nat j = Some i →
    Forall (λ e : list Z * list Z, bytes_ltb e.1 target = true) (take i l).

Lemma sorted_before i a b target :
  l !! i = Some (a, b) → bytes_ltb a target = true →
  Forall (λ e : list Z * list Z, bytes_ltb e.1 target = true) (take i l).
Proof.
  intros E Ha. unfold sorted_keys in Hsorted. rewrite <-(take_drop_middle _ _ _ E) in Hsorted.
  apply Forall_forall. intros e He.
  apply bytes_ltb_trans with a; [|done].
  apply (StronglySorted_app_1_elem_of _ _ _ e (a, b) Hsorted); [done|]. left.
Qed.

Lemma bisect_layout fuel target lo hi it :
  over it → 0 <= lo < num_restarts → lo <= hi < num_restarts → hi - lo < Z.of_nat fuel → passed target lo →
  ∃ index, bisect fuel target lo hi it = Some (Some index) ∧ 0 <= index < num_restarts ∧
    passed target index.
Proof.
  intros Hov. revert lo hi. induction fuel as [|fuel IH]; intros lo hi Hlo Hhi Hf Hinv; [lia|].
  cbn [bisect]. destruct (Z.ltb_spec lo hi) as [Hlt|]; [|by exists lo].
  destruct Hblock as [_ Hnum _ _].
  rewrite u32_small by (unfold is_u32; lia). set (mid := (lo + hi + 1) / 2).
  assert (lo < mid <= hi) as Hmid by (unfold mid; lia).
  destruct (SeekToRestartPoint_layout mid it Hov) as (i&Hidx&Hi&Hi'&_&_&Hl&Heq); [lia|].
  rewrite Heq in Hl. destruct Hov as (Hd&Hr&_). rewrite Hd, Hr.
  destruct (lookup_lt_is_Some_2 l i) as [[a b] E]; [apply Hi'; lia|].
  rewrite (drop_S _ _ _ E) in Hl.
  destruct Hl as (sh&p&Hdec&_&_&_&Hsh&_&Hkey&_). simpl in Hsh. assert (sh = O) as -> by lia.
  rewrite Hdec. simpl negb. cbv iota. rewrite Z.sub_0_r in *. rewrite Hkey, drop_0, compare_ltb.
  destruct (bytes_ltb a target) eqn:Ha; apply IH; try lia; try done.
  intros _ i' Hi''. simplify_eq. by eapply sorted_before.
Qed.

(** An iterator over the block is a position in its entries. *)
Lemma block_iter_refines : Refines l block_position.
Proof.
  destruct Hblock as [Hu Hnum _ _]. unfold is_u32 in Hu. split.
  - by intros k i (_&?&_).
  - intros k i ((_&Hr&_)&Hk&Hp). cbn [Valid block_iter]. rewrite Hr. destruct (l !! k) as [[a b]|] eqn:E.
    + pose proof (lookup_lt_Some _ _ _ E). rewrite bool_decide_true by done. destruct Hp. by apply Z.ltb_lt.
    + apply lookup_ge_None in E. rewrite bool_decide_false by lia. rewrite Hp. apply Z.ltb_irrefl.
  - intros k i a b ((Hd&_)&_&Hp) E. rewrite E in Hp. cbn [key value block_iter]. rewrite Hd.
    destruct Hp as (_&->&->&_). done.
  - by intros k i ((_&_&_&?)&_).
  - apply block_position_next.
  - intros k i (Hov&_).
    destruct (SeekToRestartPoint_layout 0 i Hov) as (j&_&_&_&Hj&Hov'&Hl&_); [lia|].
    rewrite (Hj eq_refl) in Hl. apply (ParseNextKey_layout 0 (SeekToRestartPoint 0 i) Hov'); [lia|done].
  - intros k i target (Hov&_). cbn [Seek block_iter]. unfold Iter_Seek, Seek_loops.
    pose proof Hov as (_&Hr&Hn&_). rewrite Hr, Hn, u32_small by (unfold is_u32; lia).
    destruct (bisect_layout (Z.to_nat num_restarts) target 0 (num_restarts - 1) i)
      as (j&->&Hj&Hpass); [done|lia..|by intros ?|]. cbn [mbind option_bind].
    destruct (SeekToRestartPoint_layout j i Hov Hj) as (n&Hidx&Hn'&_&H0&Hov'&Hl&_).
    assert (Forall (λ e : list Z * list Z, bytes_ltb e.1 target = true) (take n l)) as Hbefore.
    { destruct (decide (j = 0)) as [->|Hj0]; [by rewrite H0|by apply (Hpass Hj0 n)]. }
    pose proof (layout_length _ _ _ _ _ Hl) as Hlen. rewrite length_drop in Hlen.
    rewrite <-(take_drop n l) at 1. rewrite lower_bound_app, length_take, Nat.min_l by done.
    assert (0 <= NextEntryOffset (SeekToRestartPoint j i)) by apply u32_range.
    destruct (scan_layout (S (Z.to_nat restarts)) target n (SeekToRestartPoint j i)) as (it'&->&Hpos); [done|done|lia|done|]. exact Hpos.
Qed.

Lemma newIter_position : block_position (length l) (newIter data restarts num_restarts).
Proof. split; [done|]. split; [done|]. by rewrite (proj2 (lookup_ge_None _ _)) by lia. Qed.
End reading.

(** * Writing *)

Definition encode_entry (shared : nat) (k v : list Z) : list Z :=
  EncodeVarint32 (Z.of_nat shared) ++ EncodeVarint32 (Z.of_nat (length k - shared)) ++
  EncodeVarint32 (Z.of_nat (length v)) ++ drop shared k ++ v.

(** The bytes that the entries [l] add to a block, its restart points from the
    offset [off] on, and the numbers of the restart entries from [n] on; [c] is
    the counter and [last] the last key. *)
Fixpoint encode_entries (interval c : Z) (last : list Z) (l : entries) : list Z :=
  match l with
  | [] => []
  | (k, v) :: l =>
      encode_entry (if c <? interval then common_prefix last k else O) k v ++
      encode_entries interval (if c <? interval then c + 1 else 1) k l
  end.

Fixpoint restart_points (interval c off : Z) (last : list Z) (l : entries) : list Z :=
  match l with
  | [] => []
  | (k, v) :: l =>
      let e := encode_entry (if c <? interval then common_prefix last k else O) k v in
      (if c <? interval then [] else [off]) ++
      restart_points interval (if c <? interval then c + 1 else 1) (off + Z.of_nat (length e)) k l
  end.

Fixpoint restart_entries (interval c : Z) (n : nat) (l : entries) : list nat :=
  match l with
  | [] => []
  | _ :: l => (if c <? interval then [] else [n]) ++
              restart_entries interval (if c <? interval then c + 1 else 1) (S n) l
  end.

Definition add_all (l : entries) (b : BlockBuilder) : BlockBuilder :=
  foldl (λ b e, BlockBuilder_Add e.1 e.2 b) b l.

Lemma common_prefix_spec a b :
  (common_prefix a b <= length a)%nat ∧ (common_prefix a b <= length b)%nat ∧
  take (common_prefix a b) a = take (common_prefix a b) b.
Proof.
  revert b. induction a as [|x a IH]; intros [|y b]; simpl; try (split_and!; [lia..|done]).
  destruct (Z.eqb_spec x y) as [->|]; simpl; [|split_and!; [lia..|done]].
  destruct (IH b) as (?&?&->). split_and!; [lia..|done].
Qed.

(** Whole keys and values fit into 32 bits. *)
Definition entry_fits (e : list Z * list Z) : Prop :=
  Z.of_nat (length e.1) < 2 ^ 32 ∧ Z.of_nat (length e.2) < 2 ^ 32.

Lemma check_u32_true n : Z.of_nat n < 2 ^ 32 → check_u32 n = true.
Proof. intros. unfold check_u32, uint32_max. apply Z.leb_le. lia. Qed.

(** One entry, with the prefix it shares. *)
Lemma BlockBuilder_Add_spec k v b :
  entry_fits (k, v) → Z.of_nat (length (bb_buffer b)) < 2 ^ 32 →
  BlockBuilder_Add k v b =
    let c := bb_counter b <? bb_block_restart_interval b in
    mkBlockBuilder (bb_block_restart_interval b)
      (bb_buffer b ++ encode_entry (if c then common_prefix (bb_last_key b) k else O) k v)
      (bb_restarts b ++ if c then [] else [Z.of_nat (length (bb_buffer b))])
      (if c then bb_counter b + 1 else 1) (bb_finished b) k (bb_checked b).
Proof.
  intros [Hk Hv] Hb. cbn [fst snd] in *. destruct (common_prefix_spec (bb_last_key b) k) as (?&?&Htake).
  unfold BlockBuilder_Add. cbv zeta. destruct (bb_counter b <? bb_block_restart_interval b).
  - rewrite !check_u32_true by lia. cbn [andb]. rewrite andb_true_r, !u32_small by (unfold is_u32; lia).
    unfold PutVarint32, encode_entry. rewrite Nat2Z.id, take_ge, Htake, take_drop, app_nil_r by lia.
    by rewrite <-!app_assoc.
  - rewrite !check_u32_true by lia. cbn [andb]. rewrite andb_true_r, !u32_small by (unfold is_u32; lia).
    unfold PutVarint32, encode_entry. rewrite Nat2Z.id, (take_ge v), take_0, drop_0 by lia.
    by rewrite <-!app_assoc.
Qed.

Lemma add_all_spec l b :
  Forall entry_fits l →
  Z.of_nat (length (bb_buffer b) +
    length (encode_entries (bb_block_restart_interval b) (bb_counter b) (bb_last_key b) l)) < 2 ^ 32 →
  let b' := add_all l b in
  bb_buffer b' = bb_buffer b ++
    encode_entries (bb_block_restart_interval b) (bb_counter b) (bb_last_key b) l ∧
  bb_restarts b' = bb_restarts b ++ restart_points (bb_block_restart_interval b) (bb_counter b)
    (Z.of_nat (length (bb_buffer b))) (bb_last_key b) l ∧
  bb_block_restart_interval b' = bb_block_restart_interval b ∧
  bb_finished b' = bb_finished b ∧ bb_checked b' = bb_checked b ∧
  bb_last_key b' = default (bb_last_key b) (fst <$> last l).
Proof.
  intros Hf. revert b. induction Hf as [|[k v] l Hkv Hf IH]; intros b Hb.
  { simpl. by rewrite !app_nil_r. }
  cbn [add_all foldl fst snd encode_entries restart_points] in *. rewrite length_app in Hb.
  rewrite BlockBuilder_Add_spec by (done || lia). cbv zeta.
  set (b1 := mkBlockBuilder _ _ _ _ _ _ _). specialize (IH b1). unfold b1 in IH at 1 2 3 4.
  cbn [bb_buffer bb_block_restart_interval bb_counter bb_last_key] in IH.
  destruct IH as (Hbuf&Hres&Hint&Hfin&Hch&Hlast); [rewrite length_app; lia|].
  unfold add_all in *. rewrite Hbuf, Hres, Hint, Hfin, Hch, Hlast. unfold b1.
  cbn [bb_buffer bb_restarts bb_block_restart_interval bb_counter bb_last_key bb_finished bb_checked].
  rewrite length_app, Nat2Z.inj_add, <-!app_assoc. split_and!; try done.
  rewrite last_cons. by destruct (last l).
Qed.

(** ** Decoding what was encoded *)

Lemma lor_small x y : 0 <= x → 0 <= y → Z.lor x y < 128 ↔ x < 128 ∧ y < 128.
Proof.
  intros Hx Hy. assert (∀ v, 0 <= v → v < 128 ↔ Z.shiftr v 7 = 0) as E.
  { intros v Hv. rewrite Z.shiftr_div_pow2 by lia. lia. }
  rewrite !E, Z.shiftr_lor, Z.lor_eq_0_iff by (rewrite ?Z.lor_nonneg; lia). done.
Qed.

Lemma slice_mid pre m post n :
  n = Z.of_nat (length pre) → slice n (Z.of_nat (length m)) (pre ++ m ++ post) = m.
Proof. intros ->. unfold slice. by rewrite !Nat2Z.id, drop_app_length, take_app_length. Qed.

Lemma EncodeVarint32_small v : 0 <= v < 128 → EncodeVarint32 v = [v].
Proof.
  intros Hv. unfold EncodeVarint32, uchar. rewrite (proj2 (Z.ltb_lt _ _)) by (change (Z.shiftl 1 7) with 128; lia).
  f_equal. lia.
Qed.

Lemma EncodeVarint32_large v : is_u32 v → 128 <= v → ∃ b p, EncodeVarint32 v = b :: p ∧ 128 <= b.
Proof.
  intros Hu Hv. rewrite EncodeVarint32_loop by done. unfold EncodeVarint64.
  rewrite encode_loop_cont by done. eexists _, _. split; [done|]. lia.
Qed.

(** The first three bytes of three varints. *)
Lemma first_bytes a b c rest :
  is_u32 a → is_u32 b → is_u32 c →
  let es := EncodeVarint32 a ++ EncodeVarint32 b ++ EncodeVarint32 c in
  let x := byte_at (es ++ rest) 0 in let y := byte_at (es ++ rest) 1 in
  let z := byte_at (es ++ rest) 2 in
  (0 <= x ∧ 0 <= y ∧ 0 <= z) ∧ (x < 128 ∧ y < 128 ∧ z < 128 → a < 128 ∧ b < 128 ∧ c < 128).
Proof.
  intros Ha Hb Hc es x y z. split.
  - pose proof (length_EncodeVarint32 a). pose proof (length_EncodeVarint32 b).
    pose proof (length_EncodeVarint32 c).
    assert (3 <= length es)%nat as H3 by (unfold es; rewrite !length_app; lia).
    assert (Forall is_byte es) as Hes
      by (unfold es; rewrite !Forall_app; split_and!; by apply EncodeVarint32_bytes).
    unfold x, y, z. destruct es as [|e1 [|e2 [|e3 es']]]; simpl in H3; try lia.
    rewrite !Forall_cons in Hes. destruct Hes as (?&?&?&_). unfold is_byte, byte_at in *. simpl. lia.
  - intros (Hx&Hy&Hz). unfold is_u32 in *.
    assert (a < 128) as Ha'.
    { apply Z.nle_gt. intros (e&p&E&He)%EncodeVarint32_large; [|done].
      unfold x, es, byte_at in Hx. rewrite E in Hx. simpl in Hx. lia. }
    unfold y, z, es, byte_at in Hy, Hz. rewrite (EncodeVarint32_small a) in Hy, Hz by lia.
    assert (b < 128) as Hb'.
    { apply Z.nle_gt. intros (e&p&E&He)%EncodeVarint32_large; [|done].
      rewrite E in Hy. simpl in Hy. lia. }
    rewrite (EncodeVarint32_small b) in Hz by lia. split_and!; [done..|].
    apply Z.nle_gt. intros (e&p&E&He)%EncodeVarint32_large; [|done].
    rewrite E in Hz. simpl in Hz. lia.
Qed.

(** Three varints and what they announce. *)
Lemma DecodeEntry_encode pre a b c rest post :
  is_u32 a → is_u32 b → is_u32 c → 
  let es := EncodeVarint32 a ++ EncodeVarint32 b ++ EncodeVarint32 c in
  b + c <= Z.of_nat (length rest) →
  Z.of_nat (length (pre ++ es ++ rest)) < 2 ^ 32 →
  DecodeEntry (pre ++ es ++ rest ++ post) (Z.of_nat (length pre))
    (Z.of_nat (length (pre ++ es ++ rest))) =
  Some (Z.of_nat (length (pre ++ es)), a, b, c).
Proof.
  intros Ha Hb Hc es Hfit Hlen. unfold DecodeEntry.
  pose proof (length_EncodeVarint32 a). pose proof (length_EncodeVarint32 b).
  pose proof (length_EncodeVarint32 c).
  assert (3 <= length es)%nat as H3 by (unfold es; rewrite !length_app; lia).
  rewrite !length_app in *. rewrite (proj2 (Z.ltb_ge _ _)) by lia.
  replace (Z.of_nat (length pre + (length es + length rest)) - Z.of_nat (length pre))
    with (Z.of_nat (length (es ++ rest))) by (rewrite length_app; lia).
  rewrite (app_assoc es), slice_mid by done.
  assert (∀ p, p = Z.of_nat (length pre + length es) →
    (u32 (Z.of_nat (length pre + (length es + length rest)) - p) <? u32 (b + c)) = false) as Hend.
  { intros p ->. unfold is_u32 in *. apply Z.ltb_ge. rewrite !u32_small by (unfold is_u32; lia). lia. }
  pose proof (first_bytes a b c rest Ha Hb Hc) as Hfirst. cbv zeta in Hfirst. fold es in Hfirst.
  set (x := byte_at _ 0) in *. set (y := byte_at _ 1) in *. set (z := byte_at _ 2) in *.
  destruct Hfirst as [(?&?&?) Hfirst]. destruct (decide (a < 128 ∧ b < 128 ∧ c < 128)) as [(?&?&?)|Hlarge].
  - unfold is_u32 in *.
    assert (es = [a; b; c]) as Ees by (unfold es; by rewrite !EncodeVarint32_small by lia).
    unfold x, y, z. rewrite Ees in *. cbn [app byte_at nth length] in *.
    rewrite (proj2 (Z.ltb_lt _ _)).
    2: { by rewrite !lor_small by (rewrite ?Z.lor_nonneg; lia). }
    cbn [mbind option_bind]. rewrite Hend by lia. f_equal. f_equal. f_equal. f_equal. lia.
  - rewrite (proj2 (Z.ltb_ge _ _)).
    2: { apply Z.le_ngt. rewrite !lor_small by (rewrite ?Z.lor_nonneg; tauto). tauto. }
    assert (es ++ rest = EncodeVarint32 a ++ EncodeVarint32 b ++ EncodeVarint32 c ++ rest) as ->
      by (unfold es; by rewrite <-!app_assoc).
    rewrite GetVarint32Ptr_encode by done. cbn [mbind option_bind].
    rewrite GetVarint32Ptr_encode by done. cbn [mbind option_bind].
    rewrite GetVarint32Ptr_encode by done. cbn [mbind option_bind].
    rewrite Hend by lia. f_equal. f_equal. f_equal. f_equal. lia.
Qed.

Lemma layout_encode_cons pre sh k v rest post prev l' :
  entry_fits (k, v) → (sh <= length k)%nat → (sh <= length prev)%nat → take sh prev = take sh k →
  let e := encode_entry sh k v in
  let data := pre ++ e ++ rest ++ post in let limit := Z.of_nat (length (pre ++ e ++ rest)) in
  limit < 2 ^ 32 →
  layout data limit (Z.of_nat (length (pre ++ e))) k l' →
  layout data limit (Z.of_nat (length pre)) prev ((k, v) :: l').
Proof.
  intros [Hk Hv] Hsh Hprev Htake e data limit Hlim Hl. cbn [fst snd] in *.
  set (es := EncodeVarint32 (Z.of_nat sh) ++ EncodeVarint32 (Z.of_nat (length k - sh)) ++
    EncodeVarint32 (Z.of_nat (length v))).
  assert (e = es ++ drop sh k ++ v) as He by (unfold e, es, encode_entry; by rewrite <-!app_assoc).
  pose proof (length_EncodeVarint32 (Z.of_nat sh)). pose proof (length_EncodeVarint32 (Z.of_nat (length k - sh))).
  pose proof (length_EncodeVarint32 (Z.of_nat (length v))).
  assert (3 <= length es)%nat by (unfold es; rewrite !length_app; lia).
  assert (length e = length es + (length k - sh) + length v)%nat as Hle
    by (rewrite He, !length_app, length_drop; lia).
  assert (limit = Z.of_nat (length pre + length e + length rest)) as Hlimit
    by (unfold limit; rewrite !length_app; lia).
  assert (data = pre ++ es ++ drop sh k ++ v ++ rest ++ post) as Hdata
    by (unfold data; by rewrite He, <-!app_assoc).
  exists sh, (Z.of_nat (length (pre ++ es))). cbv zeta.
  replace (Z.of_nat (length k) - Z.of_nat sh) with (Z.of_nat (length k - sh)) by lia.
  rewrite length_app in *.
  split_and!; [|lia|lia|done|done|done|..].
  - pose proof (DecodeEntry_encode pre (Z.of_nat sh) (Z.of_nat (length k - sh)) (Z.of_nat (length v))
      (drop sh k ++ v ++ rest) post) as Hdec. cbv zeta in Hdec. fold es in Hdec.
    assert (length (pre ++ es ++ drop sh k ++ v ++ rest) = length pre + length e + length rest)%nat
      as E by (rewrite Hle, !length_app, length_drop; lia).
    rewrite E, <-Hlimit, <-!app_assoc, <-Hdata, (length_app pre es) in Hdec.
    apply Hdec; try (unfold is_u32; lia); rewrite ?length_app, ?length_drop; lia.
  - rewrite Hdata, app_assoc. rewrite <-(length_drop k sh). apply slice_mid. by rewrite length_app.
  - rewrite Hdata. rewrite (app_assoc pre es), (app_assoc _ (drop sh k)). apply slice_mid.
    rewrite !length_app, length_drop. lia.
  - lia.
  - replace (Z.of_nat (length pre + length es) + Z.of_nat (length k - sh) + Z.of_nat (length v))
      with (Z.of_nat (length pre + length e)) by lia. done.
Qed.

Lemma layout_encode interval c last pre l post prev :
  Forall entry_fits l → (c < interval → prev = last) →
  let e := encode_entries interval c last l in
  Z.of_nat (length (pre ++ e)) < 2 ^ 32 →
  layout (pre ++ e ++ post) (Z.of_nat (length (pre ++ e))) (Z.of_nat (length pre)) prev l.
Proof.
  intros Hf. revert c last pre prev. induction Hf as [|[k v] l Hkv Hf IH]; intros c last pre prev Hprev.
  { simpl. by rewrite app_nil_r. }
  cbn [encode_entries]. cbv zeta. set (c' := if c <? interval then c + 1 else 1).
  set (sh := if c <? interval then common_prefix last k else O).
  set (e := encode_entry sh k v). intros Hlen. rewrite <-app_assoc.
  assert (sh <= length k ∧ sh <= length prev ∧ take sh prev = take sh k)%nat as (?&?&?).
  { unfold sh. destruct (Z.ltb_spec c interval) as [Hc|]; [|split_and!; [lia..|done]].
    rewrite (Hprev Hc). pose proof (common_prefix_spec last k). tauto. }
  apply layout_encode_cons; try done.
  specialize (IH c' k (pre ++ e) k (λ _, eq_refl)). cbv zeta in IH. rewrite <-!app_assoc in IH.
  by apply IH.
Qed.

(** The restart points are the offsets of the restart entries, which share
    nothing with the entry before them. *)
Lemma restart_layout interval c last pre l post n j i :
  Forall entry_fits l →
  let e := encode_entries interval c last l in
  Z.of_nat (length (pre ++ e)) < 2 ^ 32 →
  restart_entries interval c n l !! j = Some i →
  ∃ off, restart_points interval c (Z.of_nat (length pre)) last l !! j = Some off ∧
    (n <= i < n + length l)%nat ∧
    layout (pre ++ e ++ post) (Z.of_nat (length (pre ++ e))) off [] (drop (i - n) l).
Proof.
  intros Hf. revert c last pre n j.
  induction Hf as [|[k v] l Hkv Hf IH]; intros c last pre n j; [done|].
  cbn [encode_entries restart_entries restart_points]. cbv zeta.
  set (c' := if c <? interval then c + 1 else 1).
  set (sh := if c <? interval then common_prefix last k else O).
  set (e := encode_entry sh k v). intros Hlen.
  assert (∀ j, restart_entries interval c' (S n) l !! j = Some i → ∃ off,
    restart_points interval c' (Z.of_nat (length pre) + Z.of_nat (length e)) k l !! j = Some off ∧
    (n <= i < n + length ((k, v) :: l))%nat ∧
    layout (pre ++ (e ++ encode_entries interval c' k l) ++ post)
      (Z.of_nat (length (pre ++ e ++ encode_entries interval c' k l))) off []
      (drop (i - n) ((k, v) :: l))) as Hrest.
  { intros j' Hj. destruct (IH c' k (pre ++ e) (S n) j') as (off&Hoff&Hi&Hl).
    - by rewrite <-app_assoc.
    - done.
    - exists off. rewrite length_app, Nat2Z.inj_add in Hoff. split_and!; [done|cbn [length]; lia..|].
      replace (i - n)%nat with (S (i - S n)) by lia. cbn [drop]. rewrite <-!app_assoc in *. done. }
  destruct (Z.ltb_spec c interval) as [Hc|Hc]; [by apply Hrest|].
  destruct j as [|j]; [|by apply Hrest]. cbn [app]. intros [= <-].
  exists (Z.of_nat (length pre)). split_and!; [done|cbn [length]; lia..|].
  rewrite Nat.sub_diag, drop_0.
  pose proof (layout_encode interval c last pre ((k, v) :: l) post []) as Hl.
  cbn [encode_entries] in Hl. cbv zeta in Hl. rewrite (proj2 (Z.ltb_ge _ _)) in Hl by lia.
  apply Hl; [by constructor|lia|done].
Qed.

Lemma restart_lengths interval c off last n l :
  length (restart_points interval c off last l) = length (restart_entries interval c n l).
Proof.
  revert c off last n. induction l as [|[k v] l IH]; intros c off last n; [done|].
  cbn [restart_points restart_entries]. rewrite !length_app. f_equal; [by case_match|apply IH].
Qed.

(** * Blocks written and read *)

(** A bound on the size of a block: three lengths and at most one restart point for
    each entry. *)
Definition footprint (l : entries) : Z :=
  foldr (λ e n, Z.of_nat (length e.1) + Z.of_nat (length e.2) + 19 + n) 8 l.

Definition encode_fixed32s (l : list Z) : list Z := concat (EncodeFixed32 <$> l).

Definition block_contents (interval : Z) (l : entries) : list Z :=
  let restarts := 0 :: restart_points interval 0 0 [] l in
  encode_entries interval 0 [] l ++ encode_fixed32s restarts ++
  EncodeFixed32 (Z.of_nat (length restarts)).

Lemma footprint_nonneg l : 8 <= footprint l.
Proof. induction l as [|e l IH]; simpl; lia. Qed.

Lemma footprint_app l1 l2 : footprint (l1 ++ l2) = footprint l1 + footprint l2 - 8.
Proof. induction l1 as [|e l IH]; simpl; lia. Qed.

Lemma footprint_fits l : footprint l < 2 ^ 32 → Forall entry_fits l.
Proof.
  induction l as [|e l IH]; intros H; constructor; simpl in H; pose proof (footprint_nonneg l).
  - unfold entry_fits. lia.
  - apply IH. lia.
Qed.

Lemma length_encode_entry sh k v : (length (encode_entry sh k v) <= 15 + length k + length v)%nat.
Proof.
  unfold encode_entry. rewrite !length_app, length_drop.
  pose proof (length_EncodeVarint32 (Z.of_nat sh)). pose proof (length_EncodeVarint32 (Z.of_nat (length k - sh))).
  pose proof (length_EncodeVarint32 (Z.of_nat (length v))). lia.
Qed.

Lemma encode_entries_footprint interval c off last l :
  Z.of_nat (length (encode_entries interval c last l)) +
    4 * Z.of_nat (length (restart_points interval c off last l)) + 8 <= footprint l.
Proof.
  revert c off last. induction l as [|[k v] l IH]; intros c off last; [done|].
  cbn [encode_entries restart_points footprint foldr fst snd]. cbv zeta.
  set (c' := if c <? interval then c + 1 else 1).
  set (sh := if c <? interval then common_prefix last k else O).
  specialize (IH c' (off + Z.of_nat (length (encode_entry sh k v))) k).
  pose proof (length_encode_entry sh k v). unfold footprint in IH. rewrite !length_app.
  assert (Z.of_nat (length (if c <? interval then [] else [off])) <= 1) by (case_match; simpl; lia). lia.
Qed.

Lemma length_encode_fixed32s l : length (encode_fixed32s l) = (4 * length l)%nat.
Proof.
  unfold encode_fixed32s. induction l as [|x l IH]; [done|].
  rewrite fmap_cons. cbn [concat]. rewrite length_app, IH, length_EncodeFixed32. cbn [length]. lia.
Qed.

Lemma put_fixed32s buffer l : foldl PutFixed32 buffer l = buffer ++ encode_fixed32s l.
Proof.
  revert buffer. induction l as [|x l IH]; intros buffer; simpl; [by rewrite app_nil_r|].
  rewrite IH. unfold PutFixed32. by rewrite <-app_assoc.
Qed.

Lemma encode_fixed32s_lookup l j x rest :
  l !! j = Some x → is_u32 x → DecodeFixed32 (drop (4 * j) (encode_fixed32s l ++ rest)) = x.
Proof.
  intros Hj Hx. rewrite <-(take_drop_middle _ _ _ Hj). unfold encode_fixed32s.
  rewrite fmap_app, concat_app, <-app_assoc, drop_app_ge.
  all: change (concat (EncodeFixed32 <$> take j l)) with (encode_fixed32s (take j l)).
  all: rewrite length_encode_fixed32s, length_take, Nat.min_l by (apply lookup_lt_Some in Hj; lia).
  2: lia.
  rewrite Nat.sub_diag, drop_0, fmap_cons. cbn [concat]. rewrite <-app_assoc.
  by apply fixed32_round_trip.
Qed.

Lemma encode_entries_length interval c last l :
  (3 * length l <= length (encode_entries interval c last l))%nat.
Proof.
  revert c last. induction l as [|[k v] l IH]; intros c last; [done|]. cbn [encode_entries].
  set (sh := if _ <? _ then _ else _). unfold encode_entry. rewrite !length_app.
  pose proof (length_EncodeVarint32 (Z.of_nat sh)).
  pose proof (length_EncodeVarint32 (Z.of_nat (length k - sh))).
  pose proof (length_EncodeVarint32 (Z.of_nat (length v))).
  specialize (IH (if c <? interval then c + 1 else 1) k). cbn [length]. lia.
Qed.

(** One more entry. *)
Lemma block_contents_snoc interval l k v :
  (length (block_contents interval (l ++ [(k, v)])) <=
   length (block_contents interval l) + 19 + length k + length v)%nat.
Proof.
  assert (∀ c off last, (length (encode_entries interval c last (l ++ [(k, v)])) <=
      length (encode_entries interval c last l) + 15 + length k + length v)%nat ∧
    (length (restart_points interval c off last (l ++ [(k, v)])) <=
      length (restart_points interval c off last l) + 1)%nat) as Hl.
  { induction l as [|[k' v'] l IH]; intros c off last; cbn [app encode_entries restart_points]; cbv zeta.
    - rewrite !app_nil_r. set (sh := if _ <? _ then _ else _). pose proof (length_encode_entry sh k v).
      split; [simpl; lia|]. destruct (c <? interval); simpl; lia.
    - rewrite !length_app. set (sh := if _ <? _ then _ else _).
      destruct (IH (if c <? interval then c + 1 else 1) (off + Z.of_nat (length (encode_entry sh k' v'))) k').
      lia. }
  destruct (Hl 0 0 []) as [??]. unfold block_contents. cbv zeta.
  rewrite !length_app, !length_encode_fixed32s, !length_EncodeFixed32. cbn [length]. lia.
Qed.

(** Keys and values that are byte strings. *)
Definition entry_bytes (e : list Z * list Z) : Prop := Forall is_byte e.1 ∧ Forall is_byte e.2.

Lemma block_contents_bytes interval l :
  Forall entry_fits l → Forall entry_bytes l → Forall is_byte (block_contents interval l).
Proof.
  intros Hf Hb. unfold block_contents. rewrite !Forall_app. split_and!.
  - generalize 0 as c, (@nil Z) as last. induction l as [|[k v] l IH]; intros c last; [constructor|].
    apply Forall_cons in Hf as [[Hk Hv] Hf], Hb as [[Hkb Hvb] Hb]. cbn [fst snd encode_entries] in *.
    set (sh := if _ <? _ then _ else _).
    assert (sh <= length k)%nat as Hsh.
    { unfold sh. pose proof (common_prefix_spec last k). case_match; lia. }
    unfold encode_entry. rewrite !Forall_app. split_and!; [apply EncodeVarint32_bytes; unfold is_u32; lia..|
      by apply Forall_drop|done|by apply IH].
  - unfold encode_fixed32s. induction (_ :: _) as [|x xs IH]; [constructor|].
    rewrite fmap_cons. cbn [concat]. apply Forall_app. split; [apply EncodeFixed32_bytes|done].
  - apply EncodeFixed32_bytes.
Qed.

Section written.
Context (interval : Z) (l : entries).

Abbreviation restarts := (0 :: restart_points interval 0 0 [] l).
Abbreviation num := (Z.of_nat (length restarts)).
Abbreviation body := (encode_entries interval 0 [] l).
Abbreviation contents := (block_contents interval l).

Lemma block_size_bounds :
  Z.of_nat (length contents) = Z.of_nat (length body) + 4 * num + 4 ∧
  Z.of_nat (length body) + 4 * num + 4 <= footprint l.
Proof.
  pose proof (encode_entries_footprint interval 0 0 [] l) as H.
  unfold block_contents. cbv zeta. rewrite !length_app, length_encode_fixed32s, length_EncodeFixed32.
  cbn [length] in *. lia.
Qed.

Context (Hfits : Forall entry_fits l) (Hsize : Z.of_nat (length contents) < 2 ^ 32).

(** What the builder returns. *)
Lemma BlockBuilder_contents :
  let '(c, b) := BlockBuilder_Finish (add_all l (newBlockBuilder interval)) in
  c = contents ∧ bb_checked b = true ∧ bb_block_restart_interval b = interval.
Proof.
  pose proof block_size_bounds as [Hlen _].
  destruct (add_all_spec l (newBlockBuilder interval)) as (Hbuf&Hres&Hi&_&Hch&_).
  { done. }
  { cbn [newBlockBuilder bb_buffer bb_block_restart_interval bb_counter bb_last_key length]. lia. }
  cbn [newBlockBuilder bb_buffer bb_block_restart_interval bb_counter bb_last_key bb_restarts
    bb_checked length app] in *.
  change (Z.of_nat 0) with 0 in Hres. unfold BlockBuilder_Finish. rewrite Hbuf, Hres, Hch. split_and!; [|cbn [bb_checked]|done].
  - rewrite put_fixed32s. rewrite u32_small by (unfold is_u32; cbn [length]; lia). unfold PutFixed32, block_contents.
    by rewrite <-app_assoc.
  - cbn [andb]. apply check_u32_true. cbn [length]; lia.
Qed.

(** The builder after the block has been written. *)
Lemma BlockBuilder_written :
  ∃ b, BlockBuilder_Finish (add_all l (newBlockBuilder interval)) = (contents, b) ∧
    BlockBuilder_Reset b = newBlockBuilder interval.
Proof.
  pose proof BlockBuilder_contents as Hc. destruct (BlockBuilder_Finish _) as [c b].
  destruct Hc as (->&Hch&Hi). exists b. split; [done|]. unfold BlockBuilder_Reset. by rewrite Hch, Hi.
Qed.

Lemma CurrentSizeEstimate_contents :
  CurrentSizeEstimate (add_all l (newBlockBuilder interval)) = Z.of_nat (length contents).
Proof.
  pose proof block_size_bounds as [Hlen _].
  destruct (add_all_spec l (newBlockBuilder interval)) as (Hbuf&Hres&_); [done|..].
  { cbn [newBlockBuilder bb_buffer bb_block_restart_interval bb_counter bb_last_key length]. lia. }
  unfold CurrentSizeEstimate. rewrite Hbuf, Hres.
  cbn [newBlockBuilder bb_buffer bb_block_restart_interval bb_counter bb_last_key bb_restarts length app] in *.
  change (Z.of_nat 0) with 0. lia.
Qed.

Lemma bb_empty_contents : bb_empty (add_all l (newBlockBuilder interval)) = bool_decide (l = []).
Proof.
  pose proof block_size_bounds as [Hlen _].
  destruct (add_all_spec l (newBlockBuilder interval)) as (Hbuf&_); [done|..].
  { cbn [newBlockBuilder bb_buffer bb_block_restart_interval bb_counter bb_last_key length]. lia. }
  unfold bb_empty. rewrite Hbuf. destruct l as [|[k v] l']; [done|].
  rewrite !bool_decide_false; [done|done|]. cbn [newBlockBuilder bb_buffer bb_block_restart_interval
    bb_counter bb_last_key app encode_entries]. set (sh := if _ <? _ then _ else _).
  intros [E _]%app_nil. unfold encode_entry in E. apply app_nil in E as [E _].
  pose proof (length_EncodeVarint32 (Z.of_nat sh)) as Hl. rewrite E in Hl. simpl in Hl. lia.
Qed.

Lemma restart_value j x : restarts !! j = Some x → is_u32 x →
  DecodeFixed32 (drop (Z.to_nat (Z.of_nat (length body) + Z.of_nat j * 4)) contents) = x.
Proof.
  intros Hj Hx. unfold block_contents. cbv zeta.
  replace (Z.to_nat (Z.of_nat (length body) + Z.of_nat j * 4)) with (length body + 4 * j)%nat by lia.
  rewrite <-drop_drop, drop_app_length. by apply encode_fixed32s_lookup.
Qed.

(** Reading the block back. *)
Lemma newBlock_contents :
  newBlock contents = mkBlock contents (Z.of_nat (length contents)) (Z.of_nat (length body)) ∧
  NumRestarts contents (Z.of_nat (length contents)) = num.
Proof.
  pose proof block_size_bounds as [Hlen _].
  assert (NumRestarts contents (Z.of_nat (length contents)) = num) as Hnum.
  { unfold NumRestarts. rewrite Hlen. unfold block_contents. cbv zeta.
    replace (Z.to_nat _) with (length body + (length (encode_fixed32s restarts) + 0))%nat
      by (rewrite length_encode_fixed32s; lia).
    rewrite <-drop_drop, drop_app_length, <-drop_drop, drop_app_length, drop_0.
    rewrite <-(app_nil_r (EncodeFixed32 _)). apply fixed32_round_trip. unfold is_u32. lia. }
  split; [|done]. unfold newBlock. rewrite Hnum. cbv zeta.
  rewrite (proj2 (Z.ltb_ge _ _)) by lia. rewrite (proj2 (Z.ltb_ge _ _)) by lia.
  f_equal. rewrite (u32_small (1 + _)) by (unfold is_u32; lia).
  rewrite u32_small by (unfold is_u32; lia). lia.
Qed.

Lemma contents_block_of :
  block_of (data := contents) (restarts := Z.of_nat (length body)) (num_restarts := num) (l := l)
    (idx := O :: restart_entries interval 0 0 l).
Proof.
  pose proof block_size_bounds as [Hlen _]. pose proof Hfits as Hf.
  assert (num < 2 ^ 31) by lia.
  set (post := encode_fixed32s restarts ++ EncodeFixed32 num).
  split.
  - unfold is_u32. lia.
  - cbn [length]. cbn [length] in *. lia.
  - split; [|done]. cbn [length]. by rewrite (restart_lengths interval 0 0 [] 0 l).
  - intros j i Hj. destruct j as [|j].
    + injection Hj as <-. split_and!; [|done|lia]. rewrite drop_0, (restart_value 0 0 eq_refl) by done.
      apply (layout_encode interval 0 [] [] l post []); [done..|]. simpl. lia.
    + cbn [lookup list_lookup] in Hj.
      destruct (restart_layout interval 0 [] [] l post 0 j i) as (off&Hoff&Hi&Hl); [done|simpl; lia|done|].
      rewrite Nat.sub_0_r in Hl. rewrite (restart_value (S j) off); [|done|].
      * split_and!; [done|lia..].
      * pose proof (layout_offset _ _ _ _ _ Hl). simpl in *. unfold is_u32. lia.
Qed.
End written.

(** ** The iterator over what was written *)

Lemma block_iterator_refines l (P : nat → Iter → Prop) :
  Refines l P → Refines l (λ k i, ∃ it, i = OfBlock it ∧ P k it).
Proof.
  intros HP. split.
  - intros k i (it&->&Hit). by eapply (ref_bound _ _ HP).
  - intros k i (it&->&Hit). by eapply (ref_valid _ _ HP).
  - intros k i a b (it&->&Hit). by apply (ref_entry _ _ HP).
  - intros k i (it&->&Hit). by eapply (ref_status _ _ HP).
  - intros k i (it&->&Hit) Hk. eexists. split; [done|]. by apply (ref_next _ _ HP).
  - intros k i (it&->&Hit). eexists. split; [done|]. by eapply (ref_first _ _ HP).
  - intros k i target (it&->&Hit). eexists. split; [done|]. by eapply (ref_seek _ _ HP).
Qed.

(** The positions of an iterator over a block that holds [l]. *)
Definition written_position (interval : Z) (l : entries) (k : nat) (i : BlockIterator) : Prop :=
  ∃ it, i = OfBlock it ∧
    block_position (data := block_contents interval l)
      (restarts := Z.of_nat (length (encode_entries interval 0 [] l)))
      (num_restarts := Z.of_nat (length (0 :: restart_points interval 0 0 [] l))) (l := l) k it.

Lemma written_refines interval l :
  Forall entry_fits l → Z.of_nat (length (block_contents interval l)) < 2 ^ 32 → sorted_keys l →
  Refines l (written_position interval l) ∧
  written_position interval l (length l) (Block_NewIterator (newBlock (block_contents interval l))).
Proof.
  intros Hfits Hsize Hsorted.
  pose proof (contents_block_of interval l Hfits Hsize) as Hblock.
  pose proof (newBlock_contents interval l Hsize) as [Hnew Hnum].
  pose proof (block_size_bounds interval l) as [Hlen _].
  split; [by apply block_iterator_refines, (block_iter_refines Hblock)|].
  rewrite Hnew. unfold Block_NewIterator. cbn [blk_size blk_data blk_restart_offset].
  rewrite Hnum, Hlen, (proj2 (Z.ltb_ge _ _)), (proj2 (Z.eqb_neq _ _)) by (cbn [length]; lia).
  eexists. split; [done|]. apply newIter_position.
Qed.

(** C31: an iterator over a block is a position in the entries that were added to
    its builder. For any restart interval, entries with increasing keys that fit
    into a block can be added without a failing check; the iterator over the
    contents starts past the end, moves to the first entry, from an entry to the
    next and to the first entry whose key is not below a target, yields the keys
    and values that were added, and never reports an error. *)
Theorem block_round_trip (interval : Z) (l : entries) :
  footprint l < 2 ^ 32 → sorted_keys l →
  let '(contents, b) := BlockBuilder_Finish (add_all l (newBlockBuilder interval)) in
  bb_checked b = true ∧
  ∃ position, Refines l position ∧
    position (length l) (Block_NewIterator (newBlock contents)).
Proof.
  intros Hsize Hsorted. pose proof (footprint_fits l Hsize) as Hfits.
  pose proof (block_size_bounds interval l) as [Hlen Hbound].
  pose proof (BlockBuilder_contents interval l Hfits ltac:(lia)) as Hc.
  destruct (BlockBuilder_Finish _) as [contents b]. destruct Hc as (->&Hch&_). split; [done|].
  exists (written_position interval l). apply written_refines; [done|lia|done].
Qed.

(** * Any contents *)

Lemma decode_loop_rest width last_shift p shift result v rest :
  decode_loop width last_shift p shift result = Some (v, rest) →
  (length rest < length p)%nat ∧ (Forall is_byte p → Forall is_byte rest).
Proof.
  revert shift result. induction p as [|b p IH]; intros shift result; [done|]. cbn [decode_loop].
  destruct (shift <=? last_shift); [|done]. destruct (negb _); [intros E%IH|intros [= _ <-]].
  - destruct E as [? H]. split; [simpl; lia|]. intros Hp. apply Forall_cons in Hp as [_ ?]. auto.
  - split; [simpl; lia|]. intros Hp. by apply Forall_cons in Hp as [_ ?].
Qed.

Lemma GetVarint32Ptr_rest p v rest :
  GetVarint32Ptr p = Some (v, rest) →
  (length rest < length p)%nat ∧ (Forall is_byte p → Forall is_byte rest ∧ is_u32 v).
Proof.
  intros E. destruct p as [|b p]; [done|].
  assert (is_byte b → GetVarint32PtrFallback (b :: p) = Some (v, rest)) as Hfb.
  { intros Hb. by rewrite <-GetVarint32Ptr_cons. }
  split.
  - cbn [GetVarint32Ptr] in E. destruct (Z.land b 128 =? 0); [simplify_eq; simpl; lia|].
    by apply decode_loop_rest in E as [? _].
  - intros Hp. pose proof Hp as [Hb _]%Forall_cons. specialize (Hfb Hb). split.
    + by apply (decode_loop_rest _ _ _ _ _ _ _ Hfb).
    + eapply (decode_loop_bound u32 32); [apply u32_range| |exact Hfb]. lia.
Qed.

Lemma Forall_slice {P : Z → Prop} offset n data : Forall P data → Forall P (slice offset n data).
Proof. intros. by apply Forall_take, Forall_drop. Qed.

Lemma DecodeEntry_advances data off limit p sh ns vl :
  0 <= off → limit <= Z.of_nat (length data) → DecodeEntry data off limit = Some (p, sh, ns, vl) →
  off + 3 <= p <= limit ∧ u32 (ns + vl) <= u32 (limit - p).
Proof.
  intros Hoff Hlimit. unfold DecodeEntry. destruct (Z.ltb_spec (limit - off) 3); [done|]. cbv zeta.
  set (region := slice off (limit - off) data).
  assert (Z.of_nat (length region) = limit - off) as Hlen
    by (unfold region; rewrite slice_length by lia; lia).
  match goal with |- context [if ?c <? 128 then _ else _] => destruct (c <? 128) end.
  - cbn [mbind option_bind]. destruct (Z.ltb_spec (u32 (limit - (off + 3))) (u32 (byte_at region 1 + byte_at region 2)));
      [done|]. intros [= <- <- <- <-]. lia.
  - destruct (GetVarint32Ptr region) as [[a r1]|] eqn:E1; [|done]. cbn [mbind option_bind].
    destruct (GetVarint32Ptr r1) as [[b r2]|] eqn:E2; [|done]. cbn [mbind option_bind].
    destruct (GetVarint32Ptr r2) as [[c r3]|] eqn:E3; [|done]. cbn [mbind option_bind].
    apply GetVarint32Ptr_rest in E1 as [? _], E2 as [? _], E3 as [? _].
    destruct (Z.ltb_spec (u32 (limit - (limit - Z.of_nat (length r3)))) (u32 (b + c))); [done|].
    intros [= <- <- <- <-]. lia.
Qed.

(** The check of [DecodeEntry] keeps an entry inside the block exactly when its
    two lengths do not wrap around: an accepted entry starts past its three
    lengths, and its key and value end within the block if and only if the sum of
    the lengths is below 2^32, the width in which the check computes it. *)
Theorem DecodeEntry_bounds (data : list Z) (off limit p shared non_shared value_length : Z) :
  Forall is_byte data → 0 <= off → limit <= Z.of_nat (length data) → limit < 2 ^ 32 →
  DecodeEntry data off limit = Some (p, shared, non_shared, value_length) →
  off + 3 <= p <= limit ∧ is_u32 shared ∧ is_u32 non_shared ∧ is_u32 value_length ∧
  (p + non_shared + value_length <= limit ↔ non_shared + value_length < 2 ^ 32).
Proof.
  intros Hbytes Hoff Hlimit H32 Hdec.
  destruct (DecodeEntry_advances _ _ _ _ _ _ _ Hoff Hlimit Hdec) as [Hp Hfit].
  assert (is_u32 shared ∧ is_u32 non_shared ∧ is_u32 value_length) as (?&?&?).
  { revert Hdec. unfold DecodeEntry. destruct (limit - off <? 3); [done|]. cbv zeta.
    set (region := slice off (limit - off) data).
    assert (Forall is_byte region) as Hr by by apply Forall_slice.
    assert (∀ i, is_byte (byte_at region i)) as Hb.
    { intros i. unfold byte_at. destruct (nth_in_or_default i region 0) as [Hi| ->]; [|done].
      rewrite Forall_forall in Hr. by apply Hr, list_elem_of_In. }
    match goal with |- context [if ?c <? 128 then _ else _] => destruct (c <? 128) end.
    - cbn [mbind option_bind]. match goal with |- context [if ?c then _ else _] => destruct c end;
        [done|]. intros [= _ <- <- <-].
      pose proof (Hb 0%nat). pose proof (Hb 1%nat). pose proof (Hb 2%nat).
      unfold is_byte, is_u32 in *. lia.
    - destruct (GetVarint32Ptr region) as [[a r1]|] eqn:E1; [|done]. cbn [mbind option_bind].
      destruct (GetVarint32Ptr r1) as [[b r2]|] eqn:E2; [|done]. cbn [mbind option_bind].
      destruct (GetVarint32Ptr r2) as [[c r3]|] eqn:E3; [|done]. cbn [mbind option_bind].
      match goal with |- context [if ?c then _ else _] => destruct c end; [done|].
      intros [= _ <- <- <-].
      destruct (proj2 (GetVarint32Ptr_rest _ _ _ E1) Hr) as [H1 ?].
      destruct (proj2 (GetVarint32Ptr_rest _ _ _ E2) H1) as [H2 ?].
      by destruct (proj2 (GetVarint32Ptr_rest _ _ _ E3) H2) as [_ ?]. }
  split_and!; try done; [lia..|]. unfold is_u32 in *. rewrite (u32_small (limit - p)) in Hfit by (unfold is_u32; lia).
  split; [lia|]. intros Hsum. rewrite u32_small in Hfit by (unfold is_u32; lia). lia.
Qed.

Lemma DecodeEntry_bounds_witness :
  (* a key of 2^32 - 2 bytes and a value of 3 bytes are accepted in a block of 9 *)
  let data := [0; 254; 255; 255; 255; 15; 3; 0; 0; 0; 0; 0; 0; 1; 0; 0; 0] in
  DecodeEntry data 0 9 = Some (7, 0, 2 ^ 32 - 2, 3) ∧
  ¬ 7 + (2 ^ 32 - 2) + 3 <= 9.
Proof.
  cbv zeta. split; [vm_compute; reflexivity|]. intros H.
  pose proof (DecodeEntry_bounds [0; 254; 255; 255; 255; 15; 3; 0; 0; 0; 0; 0; 0; 1; 0; 0; 0] 0 9 7 0
    (2 ^ 32 - 2) 3) as (_&_&_&_&Hiff).
  - repeat constructor; lia.
  - lia.
  - simpl. lia.
  - lia.
  - vm_compute. reflexivity.
  - apply Hiff in H. lia.
Defined.

(** The iterators of a block, whatever it contains. *)
Record iter_ok (it : Iter) : Prop := {
  io_restarts : is_u32 (it_restarts it);
  io_data : it_restarts it <= Z.of_nat (length (it_data it));
  io_num : 0 < it_num_restarts it < 2 ^ 31;
  io_index : 0 <= it_restart_index it <= it_num_restarts it }.

Lemma advance_ends fuel current index it :
  0 <= index <= it_num_restarts it → it_num_restarts it < 2 ^ 31 → (0 < fuel)%nat → it_num_restarts it - index <= Z.of_nat fuel →
  ∃ j, advance_restart_index fuel current index it = Some j ∧ index <= j <= it_num_restarts it.
Proof.
  revert index. induction fuel as [|fuel IH]; intros index Hi Hn Hpos Hf; [lia|]. cbn [advance_restart_index].
  destruct (_ && _) eqn:E; [|exists index; split; [done|lia]]. apply andb_true_iff in E as [E%Z.ltb_lt _].
  rewrite u32_small in E by (unfold is_u32; lia). destruct (IH (index + 1)) as (j&->&?); [lia..|]. exists j. split; [done|lia].
Qed.

Lemma iter_ok_set current index k v st it :
  iter_ok it → 0 <= index <= it_num_restarts it → iter_ok (set_position current index k v st it).
Proof. intros [] ?. by split. Qed.

Lemma ParseNextKey_advances it :
  iter_ok it →
  let '(parsed, it') := ParseNextKey it in
  iter_ok it' ∧ it_restarts it' = it_restarts it ∧
  if parsed then it_current it' = NextEntryOffset it ∧
    it_current it' + 3 <= NextEntryOffset it' <= it_restarts it
  else it_current it' = it_restarts it.
Proof.
  intros Hok. pose proof Hok as [Hr Hd Hn Hi]. unfold ParseNextKey.
  destruct (Z.leb_spec (it_restarts it) (NextEntryOffset it)).
  { split_and!; [apply iter_ok_set; [done|lia]|done..]. }
  assert (iter_ok (CorruptionError it) ∧ it_restarts (CorruptionError it) = it_restarts it ∧
    it_current (CorruptionError it) = it_restarts it).
  { split_and!; [apply iter_ok_set; [done|lia]|done..]. }
  pose proof (u32_range ((it_value it).1 + (it_value it).2)) as Hu.
  destruct (DecodeEntry _ _ _) as [[[[p sh] ns] vl]|] eqn:E; [|done].
  destruct (_ <? sh); [done|].
  destruct (advance_ends (Z.to_nat (it_num_restarts it)) (NextEntryOffset it) (it_restart_index it) it) as (j&->&?); [lia..|].
  split; [apply iter_ok_set; [done|]; cbn; lia|]. split; [done|]. split; [done|].
  apply DecodeEntry_advances in E as [Hp Hfit]; [|apply Hu|done].
  unfold is_u32 in Hr. rewrite (u32_small (_ - p)) in Hfit by (unfold is_u32, NextEntryOffset in *; unfold is_u32 in Hu; lia).
  match goal with |- context [NextEntryOffset (set_position ?a ?b ?c ?d ?e ?f)] =>
    change (NextEntryOffset (set_position a b c d e f)) with (u32 (p + ns + vl)) end.
  cbn [set_position it_current].
  replace (u32 (p + ns + vl)) with (p + u32 (ns + vl)); [pose proof (u32_range (ns + vl)) as []; lia|].
  pose proof (u32_range (ns + vl)) as [? _]. unfold NextEntryOffset, is_u32 in *.
  rewrite <-Z.add_assoc. unfold u32 at 2. rewrite <-Zplus_mod_idemp_r. change ((ns + vl) mod 2 ^ 32) with (u32 (ns + vl)).
  symmetry. apply Z.mod_small. lia.
Qed.

(** The loops end. *)
Lemma scan_ends fuel target it :
  iter_ok it → it_restarts it - NextEntryOffset it < Z.of_nat fuel → (0 < fuel)%nat →
  ∃ it', scan fuel target it = Some it' ∧ iter_ok it' ∧ it_restarts it' = it_restarts it ∧
    (it_current it' < it_restarts it → 0 <= compare (it_key it') target).
Proof.
  revert it. induction fuel as [|fuel IH]; intros it Hok Hf Hpos; [lia|]. cbn [scan].
  pose proof (ParseNextKey_advances it Hok) as Hp. destruct (ParseNextKey it) as [[] it'];
    destruct Hp as (Hok'&Hr&Hc); cbn [negb]; [|exists it'; split_and!; [done..|lia]].
  destruct (Z.leb_spec 0 (compare (it_key it') target)); [by exists it'|].
  destruct fuel as [|fuel]; [lia|]. destruct (IH it' Hok') as (i&->&?&Hri&Hkey); [lia..|]. exists i. split_and!; [done|done|lia|].
  intros ?. apply Hkey. lia.
Qed.

Lemma bisect_ends fuel target lo hi it :
  0 <= lo <= hi → hi < 2 ^ 31 → hi - lo < Z.of_nat fuel →
  ∃ r, bisect fuel target lo hi it = Some r ∧ ∀ index, r = Some index → lo <= index <= hi.
Proof.
  revert lo hi. induction fuel as [|fuel IH]; intros lo hi Hlo Hhi Hf; [lia|]. cbn [bisect].
  destruct (Z.ltb_spec lo hi); [|eexists; split; [done|intros ? [= <-]; lia]].
  rewrite u32_small by (unfold is_u32; lia).
  destruct (DecodeEntry _ _ _) as [[[[p sh] ns] vl]|]; [|by exists None]. destruct (negb _); [by exists None|].
  destruct (_ <? 0);
    [destruct (IH ((lo + hi + 1) / 2) hi) as (r&->&Hr)|destruct (IH lo ((lo + hi + 1) / 2 - 1)) as (r&->&Hr)]; try lia;
    (exists r; split; [done|]; intros index Hi; specialize (Hr index Hi); lia).
Qed.

Lemma Seek_ends target it :
  iter_ok it →
  ∃ it', Seek_loops target it = Some it' ∧ iter_ok it' ∧ it_restarts it' = it_restarts it ∧
    (it_current it' < it_restarts it → 0 <= compare (it_key it') target).
Proof.
  intros Hok. pose proof Hok as [Hr Hd Hn Hi]. unfold Seek_loops. rewrite u32_small by (unfold is_u32; lia).
  destruct (bisect_ends (Z.to_nat (it_num_restarts it)) target 0 (it_num_restarts it - 1) it) as ([j|]&->&Hj); [lia..| |]; cbn [mbind option_bind].
  - specialize (Hj j eq_refl). assert (0 <= NextEntryOffset (SeekToRestartPoint j it)) by apply u32_range. unfold is_u32 in Hr.
    apply (scan_ends (S (Z.to_nat (it_restarts it))) target (SeekToRestartPoint j it)); [apply iter_ok_set; [done|lia]| |lia].
    change (it_restarts (SeekToRestartPoint j it)) with (it_restarts it). lia.
  - eexists. split_and!; [done|apply iter_ok_set; [done|lia]|done|]. cbn. lia.
Qed.

(** The operations of an iterator. *)
Inductive IterOp := OpFirst | OpSeek (target : list Z) | OpNext.

Definition run_iter_op {I : Type} `{Iterator I} (i : I) (op : IterOp) : I :=
  match op with OpFirst => SeekToFirst i | OpSeek target => Seek target i | OpNext => Next i end.

Lemma run_iter_op_ok op it :
  iter_ok it → iter_ok (run_iter_op it op) ∧ it_restarts (run_iter_op it op) = it_restarts it.
Proof.
  intros Hok. pose proof Hok as [Hr Hd Hn Hi].
  assert (∀ j, 0 <= j < it_num_restarts it → iter_ok (SeekToRestartPoint j it)) as Hj
    by (intros; apply iter_ok_set; [done|lia]).
  assert (∀ i, iter_ok i → iter_ok (ParseNextKey i).2 ∧
    it_restarts (ParseNextKey i).2 = it_restarts i) as Hparse.
  { intros i Hoki. pose proof (ParseNextKey_advances i Hoki). destruct (ParseNextKey i). tauto. }
  destruct op as [|target|]; cbn [run_iter_op SeekToFirst Seek Next block_iter].
  - apply (Hparse (SeekToRestartPoint 0 it)), Hj. lia.
  - unfold Iter_Seek. by destruct (Seek_ends target it Hok) as (it'&->&?&?&_).
  - by apply Hparse.
Qed.

Lemma newBlock_iter_ok contents it :
  Z.of_nat (length contents) < 2 ^ 32 → Forall is_byte contents →
  Block_NewIterator (newBlock contents) = OfBlock it →
  iter_ok it ∧ it_restarts it <= Z.of_nat (length contents).
Proof.
  intros Hlen Hb. unfold Block_NewIterator, newBlock. cbv zeta.
  set (size := Z.of_nat (length contents)) in *. destruct (Z.ltb_spec size 4); [done|].
  set (num := NumRestarts contents size).
  assert (0 <= num).
  { unfold num, NumRestarts, DecodeFixed32.
    assert (∀ i, 0 <= byte_at (drop (Z.to_nat (size - 4)) contents) i) as Hn.
    { intros i. unfold byte_at. destruct (nth_in_or_default i (drop (Z.to_nat (size - 4)) contents) 0) as [Hi| ->]; [|done].
      pose proof (Forall_drop _ (Z.to_nat (size - 4)) _ Hb) as Hd. rewrite Forall_forall in Hd.
      by apply Hd, list_elem_of_In. }
    rewrite !Z.lor_nonneg, !Z.shiftl_nonneg. auto. }
  destruct (Z.ltb_spec ((size - 4) / 4) num); [done|]. cbn [blk_size blk_data blk_restart_offset].
  destruct (Z.ltb_spec size 4); [lia|]. fold num. destruct (Z.eqb_spec num 0); [done|].
  intros [= <-]. unfold newIter. rewrite (u32_small (1 + _)) by (unfold is_u32; lia).
  rewrite u32_small by (unfold is_u32; lia).
  split; [split|]; cbn [it_restarts it_data it_num_restarts it_restart_index]; unfold is_u32; lia.
Qed.

(** An iterator that is still valid after [k] moves has passed [k] entries. *)
Lemma iter_next_bound it k :
  iter_ok it → (∀ j, (j <= k)%nat → Valid (Nat.iter j Next it) = true) →
  iter_ok (Nat.iter k Next it) ∧ it_restarts (Nat.iter k Next it) = it_restarts it ∧
  (k ≠ O → 3 * Z.of_nat k <= NextEntryOffset (Nat.iter k Next it) <= it_restarts it).
Proof.
  intros Hok. induction k as [|k IH]; intros Hv; [done|].
  destruct IH as (Hoki&Hri&IH); [intros j Hj; apply Hv; lia|].
  specialize (Hv (S k) (le_n _)). change (Nat.iter (S k) Next it) with (Next (Nat.iter k Next it)) in *.
  set (i := Nat.iter k Next it) in *.
  pose proof (ParseNextKey_advances i Hoki) as Hp. cbn [Next Valid block_iter] in *.
  destruct (ParseNextKey i) as [[] it']; cbn [snd] in *; destruct Hp as (?&Hr&Hc).
  2: { rewrite Hc, Hr, Z.ltb_irrefl in Hv. done. }
  split_and!; [done|congruence|]. intros _.
  pose proof (u32_range ((it_value i).1 + (it_value i).2)) as Hu. unfold is_u32 in Hu.
  fold (NextEntryOffset i) in Hu. destruct k; lia.
Qed.

(** C32: the loops of a block iterator end on any contents, however corrupted.
    After any sequence of operations on an iterator over a block, the bisection of [Seek]
    ends within as many rounds as there are restart points and its linear search within as
    many as the block has bytes (running out of this fuel would be [None]), and what it
    finds, if anything, is not before the target; the loop over the restart points of
    [ParseNextKey] ends, too; and an iterator that is moved on while it is valid becomes
    invalid after at most a third as many moves as the block has bytes. *)
Theorem block_iterator_terminates (contents : list Z) (it0 : Iter) (ops : list IterOp) :
  Z.of_nat (length contents) < 2 ^ 32 → Forall is_byte contents →
  Block_NewIterator (newBlock contents) = OfBlock it0 →
  let it := foldl run_iter_op it0 ops in
  let num := Z.to_nat (it_num_restarts it) in
  (∀ target, ∃ it', Seek_loops target it = Some it' ∧ Seek target it = it' ∧
     (Valid it' = true → 0 <= compare (key it') target)) ∧
  (∀ target, is_Some (bisect num target 0 (u32 (it_num_restarts it - 1)) it)) ∧
  (∀ target index, 0 <= index < it_num_restarts it →
     is_Some (scan (S (Z.to_nat (it_restarts it))) target (SeekToRestartPoint index it))) ∧
  (∀ current, is_Some (advance_restart_index num current (it_restart_index it) it)) ∧
  (∀ k, (∀ j, (j <= k)%nat → Valid (Nat.iter j Next it) = true) →
     3 * Z.of_nat k <= Z.of_nat (length contents)).
Proof.
  intros Hlen Hb Hnew. destruct (newBlock_iter_ok contents it0 Hlen Hb Hnew) as [Hok0 Hr0].
  assert (iter_ok (foldl run_iter_op it0 ops) ∧
    it_restarts (foldl run_iter_op it0 ops) = it_restarts it0) as [Hok Hr].
  { clear Hnew Hr0. revert it0 Hok0. induction ops as [|op ops IH]; intros it0 Hok0; [done|].
    cbn [foldl]. destruct (run_iter_op_ok op it0 Hok0) as [Hok1 <-]. by apply IH. }
  intros it num. fold it in Hok, Hr. pose proof Hok as [Hu Hd Hn Hi]. split_and!.
  - intros target. destruct (Seek_ends target it Hok) as (it'&E&_&Hr'&Hkey). exists it'. split_and!; [done| |].
    + cbn [Seek block_iter]. unfold Iter_Seek. by rewrite E.
    + cbn [Valid key block_iter]. rewrite Hr'. by intros ?%Z.ltb_lt%Hkey.
  - intros target. rewrite u32_small by (unfold is_u32; lia).
    destruct (bisect_ends num target 0 (it_num_restarts it - 1) it) as (r&->&_); [unfold num; lia..|by eexists].
  - intros target index Hindex. pose proof (u32_range ((it_value (SeekToRestartPoint index it)).1 + (it_value (SeekToRestartPoint index it)).2)) as Hui.
    unfold is_u32 in Hu, Hui. fold (NextEntryOffset (SeekToRestartPoint index it)) in Hui.
    destruct (scan_ends (S (Z.to_nat (it_restarts it))) target (SeekToRestartPoint index it)) as (it'&->&_); [| |lia|by eexists].
    + apply iter_ok_set; [done|lia].
    + change (it_restarts (SeekToRestartPoint index it)) with (it_restarts it). lia.
  - intros current. destruct (advance_ends num current (it_restart_index it) it) as (j&->&_); [unfold num; lia..|by eexists].
  - intros k Hv. destruct (iter_next_bound it k Hok Hv) as (_&_&Hk). destruct k; [lia|].
    specialize (Hk ltac:(done)). lia.
Qed.

(** * Witnesses *)

Definition ex_entries : entries :=
  [([1], [10]); ([1; 2], [11]); ([1; 3], [12; 13]); ([2], [])].

Lemma ex_entries_sorted : sorted_keys ex_entries.
Proof. repeat constructor. Defined.

Lemma block_round_trip_witness :
  let '(contents, b) := BlockBuilder_Finish (add_all ex_entries (newBlockBuilder 2)) in
  bb_checked b = true ∧
  ∃ position, Refines ex_entries position ∧
    position (length ex_entries) (Block_NewIterator (newBlock contents)).
Proof.
  apply (block_round_trip 2 ex_entries); [vm_compute; reflexivity|exact ex_entries_sorted].
Defined.

(** The third entry of the block, sought by a key before it. *)
Example ex_block_seek :
  let i := Seek [1; 2; 0] (Block_NewIterator (newBlock (block_contents 2 ex_entries))) in
  (Valid i, key i, value i) = (true, [1; 3], [12; 13]).
Proof. vm_compute. reflexivity. Qed.

Definition ex_corrupt : list Z := [9; 1; 1; 7; 7; 0; 0; 0; 0; 1; 0; 0; 0].

Lemma block_iterator_terminates_witness :
  let it := foldl run_iter_op (newIter ex_corrupt 5 1) [OpSeek [3]] in
  it_status it = DataLoss "bad entry in block" ∧ ∀ target, ∃ it', Seek_loops target it = Some it' ∧ Seek target it = it'.
Proof.
  intros it. split; [vm_compute; reflexivity|]. intros target.
  destruct (proj1 (block_iterator_terminates ex_corrupt (newIter ex_corrupt 5 1) [OpSeek [3]]
    ltac:(vm_compute; reflexivity) ltac:(repeat constructor; lia) ltac:(vm_compute; reflexivity)) target) as (it'&E1&E2&_).
  exists it'. split; [exact E1|exact E2].
Defined.
