(* ===== verification/Tables.v ===== *)
(** Sorted tables: [tensorflow/core/lib/io/format.{h,cc}], [table_builder.{h,cc}],
    [table.{h,cc}] and [two_level_iterator.cc].

    A table file is a sequence of blocks, each followed by its compression type and
    a checksum: blocks of entries, an empty meta-index block, an index block that
    has for each block a key that separates it from the next and the place of the
    block in the file, and a footer that says where the last two are.
    [TableBuilder] writes such a file, [Table_Open] reads footer and index, and
    the two-level iterator walks through the index and the blocks it names.  The
    file that is written is a parameter [Append], the file that is read meets
    [RandomAccessFile], and the Snappy library is the class [Snappy].  The
    addresses of the buffers over which checksums are computed are arguments. *)
From S2P Require Import Prelude Status Coding Crc32c InputStream RecordIO Blocks.
Local Open Scope Z_scope.

Ltac Zify.zify_post_hook ::= Z.to_euclidean_division_equations.

(** * The format *)

Inductive CompressionType := kNoCompression | kSnappyCompression.

Definition type_byte (type : CompressionType) : Z :=
  match type with kNoCompression => 0 | kSnappyCompression => 1 end.

(** [table::Options]. *)
Record Options := mkOptions {
  block_size : Z;
  block_restart_interval : Z;
  compression : CompressionType }.

Record BlockHandle := mkBlockHandle { bh_offset : Z; bh_size : Z }.

Definition newBlockHandle : BlockHandle := mkBlockHandle (2 ^ 64 - 1) (2 ^ 64 - 1).

Definition BlockHandle_EncodeTo (dst : list Z) (h : BlockHandle) : list Z :=
  PutVarint64 (PutVarint64 dst (bh_offset h)) (bh_size h).

(** The status, the handle and what is left of the input. *)
Definition BlockHandle_DecodeFrom (input : list Z) (h : BlockHandle) :
    Status * BlockHandle * list Z :=
  match GetVarint64 input with
  | None => (DataLoss "bad block handle", h, input)
  | Some (offset, input) =>
      match GetVarint64 input with
      | None => (DataLoss "bad block handle", mkBlockHandle offset (bh_size h), input)
      | Some (size, input) => (StatusOK, mkBlockHandle offset size, input)
      end
  end.

Record Footer := mkFooter { ft_metaindex_handle : BlockHandle; ft_index_handle : BlockHandle }.

Definition kMaxEncodedLength : nat := 10 + 10.
Definition kEncodedLength : nat := 2 * kMaxEncodedLength + 8.
Definition kTableMagicNumber : Z := 0xdb4775248b80fb57.
Definition kBlockTrailerSize : Z := 5.

Definition Footer_EncodeTo (dst : list Z) (f : Footer) : list Z :=
  let dst := BlockHandle_EncodeTo dst (ft_metaindex_handle f) in
  let dst := BlockHandle_EncodeTo dst (ft_index_handle f) in
  let dst := resize (2 * kMaxEncodedLength) 0 dst in
  let dst := PutFixed32 dst (Z.land kTableMagicNumber 0xffffffff) in
  PutFixed32 dst (Z.shiftr kTableMagicNumber 32).

Definition Footer_DecodeFrom (input : list Z) : Status * Footer :=
  let magic_ptr := drop (kEncodedLength - 8) input in
  let magic_lo := DecodeFixed32 magic_ptr in
  let magic_hi := DecodeFixed32 (drop 4 magic_ptr) in
  let magic := Z.lor (Z.shiftl magic_hi 32) magic_lo in
  let f := mkFooter newBlockHandle newBlockHandle in
  if negb (magic =? kTableMagicNumber)
  then (DataLoss "not an sstable (bad magic number)", f)
  else
    let '(result, metaindex_handle, input) := BlockHandle_DecodeFrom input newBlockHandle in
    if negb (ok result) then (result, mkFooter metaindex_handle newBlockHandle) else
    let '(result, index_handle, _) := BlockHandle_DecodeFrom input newBlockHandle in
    (result, mkFooter metaindex_handle index_handle).

(** The Snappy library: what was compressed is uncompressed again. *)
Class Snappy := {
  Snappy_Compress : list Z → option (list Z);
  Snappy_GetUncompressedLength : list Z → option Z;
  Snappy_Uncompress : list Z → option (list Z);
  snappy_round_trip data compressed :
    Forall is_byte data → Snappy_Compress data = Some compressed →
    Forall is_byte compressed ∧
    Snappy_GetUncompressedLength compressed = Some (Z.of_nat (length data)) ∧
    Snappy_Uncompress compressed = Some data }.

(** * Two-level iterators *)

Section two_level.
Context {II DI : Type} `{Iterator II} `{Iterator DI}.
(** The block function, and a bound on the number of entries of the index. *)
Context (block_function : list Z → DI) (fuel : nat).

Record TwoLevelIterator := mkTwoLevel {
  tl_status : Status;
  tl_index_iter : II;
  tl_data_iter : option DI;
  tl_data_block_handle : list Z }.

Definition newTwoLevelIterator (index_iter : II) : TwoLevelIterator :=
  mkTwoLevel StatusOK index_iter None [].

Definition SaveError (s : Status) (t : TwoLevelIterator) : TwoLevelIterator :=
  if ok (tl_status t) && negb (ok s)
  then mkTwoLevel s (tl_index_iter t) (tl_data_iter t) (tl_data_block_handle t) else t.

Definition set_index_iter (i : II) (t : TwoLevelIterator) : TwoLevelIterator :=
  mkTwoLevel (tl_status t) i (tl_data_iter t) (tl_data_block_handle t).

Definition set_data_iter (d : option DI) (t : TwoLevelIterator) : TwoLevelIterator :=
  mkTwoLevel (tl_status t) (tl_index_iter t) d (tl_data_block_handle t).

Definition SetDataIterator (data_iter : option DI) (t : TwoLevelIterator) : TwoLevelIterator :=
  let t := match tl_data_iter t with Some d => SaveError (status d) t | None => t end in
  set_data_iter data_iter t.

Definition InitDataBlock (t : TwoLevelIterator) : TwoLevelIterator :=
  if negb (Valid (tl_index_iter t)) then SetDataIterator None t
  else
    let handle := value (tl_index_iter t) in
    match tl_data_iter t with
    | Some _ =>
        if compare handle (tl_data_block_handle t) =? 0 then t
        else SetDataIterator (Some (block_function handle))
               (mkTwoLevel (tl_status t) (tl_index_iter t) (tl_data_iter t) handle)
    | None =>
        SetDataIterator (Some (block_function handle))
          (mkTwoLevel (tl_status t) (tl_index_iter t) (tl_data_iter t) handle)
    end.

(** [if (data_iter_ != nullptr) data_iter_->...]. *)
Definition on_data_iter (f : DI → DI) (t : TwoLevelIterator) : TwoLevelIterator :=
  set_data_iter (f <$> tl_data_iter t) t.

Definition data_valid (t : TwoLevelIterator) : bool :=
  match tl_data_iter t with Some d => Valid d | None => false end.

Fixpoint SkipEmptyDataBlocksForward (fuel : nat) (t : TwoLevelIterator) : TwoLevelIterator :=
  match fuel with
  | O => t
  | S fuel =>
      if data_valid t then t
      else if negb (Valid (tl_index_iter t)) then SetDataIterator None t
      else
        let t := set_index_iter (Next (tl_index_iter t)) t in
        SkipEmptyDataBlocksForward fuel (on_data_iter SeekToFirst (InitDataBlock t))
  end.

Definition TwoLevel_Seek (target : list Z) (t : TwoLevelIterator) : TwoLevelIterator :=
  let t := set_index_iter (Seek target (tl_index_iter t)) t in
  SkipEmptyDataBlocksForward fuel (on_data_iter (Seek target) (InitDataBlock t)).

Definition TwoLevel_SeekToFirst (t : TwoLevelIterator) : TwoLevelIterator :=
  let t := set_index_iter (SeekToFirst (tl_index_iter t)) t in
  SkipEmptyDataBlocksForward fuel (on_data_iter SeekToFirst (InitDataBlock t)).

Definition TwoLevel_Next (t : TwoLevelIterator) : TwoLevelIterator :=
  SkipEmptyDataBlocksForward fuel (on_data_iter Next t).

Definition TwoLevel_status (t : TwoLevelIterator) : Status :=
  if negb (ok (status (tl_index_iter t))) then status (tl_index_iter t)
  else
    match tl_data_iter t with
    | Some d => if negb (ok (status d)) then status d else tl_status t
    | None => tl_status t
    end.

Definition two_level_iterator : Iterator TwoLevelIterator := {|
  Valid := data_valid;
  SeekToFirst := TwoLevel_SeekToFirst;
  Seek := TwoLevel_Seek;
  Next := TwoLevel_Next;
  key t := match tl_data_iter t with Some d => key d | None => [] end;
  value t := match tl_data_iter t with Some d => value d | None => [] end;
  status := TwoLevel_status |}.
End two_level.
Arguments TwoLevelIterator : clear implicits.

(** * Tables *)

Section table.
Context `{Snappy} (Read : Z → Z → Status * list Z) (data_at : Z).

Definition ReadBlock (handle : BlockHandle) : Status * list Z :=
  let n := bh_size handle in
  let '(s, contents) := Read (bh_offset handle) (u64 (n + kBlockTrailerSize)) in
  if negb (ok s) then (s, [])
  else if negb (Z.of_nat (length contents) =? u64 (n + kBlockTrailerSize))
  then (DataLoss "truncated block read", [])
  else
    let crc := Unmask (DecodeFixed32 (drop (Z.to_nat (n + 1)) contents)) in
    let actual := Value data_at (take (Z.to_nat (n + 1)) contents) in
    if negb (actual =? crc) then (DataLoss "block checksum mismatch", [])
    else
      let type := byte_at contents (Z.to_nat n) in
      let data := take (Z.to_nat n) contents in
      if type =? type_byte kNoCompression then (StatusOK, data)
      else if type =? type_byte kSnappyCompression then
        match Snappy_GetUncompressedLength data with
        | None => (DataLoss "corrupted compressed block contents", [])
        | Some ulength =>
            match Snappy_Uncompress data with
            | None => (DataLoss "corrupted compressed block contents", [])
            | Some ubuf => (StatusOK, take (Z.to_nat ulength) ubuf)
            end
        end
      else (DataLoss "bad block type", []).

(** [Table::Rep]. *)
Record Table := mkTable {
  tab_options : Options;
  tab_metaindex_handle : BlockHandle;
  tab_index_block : Block }.

Definition Table_Open (options : Options) (size : Z) : Status * option Table :=
  if size <? Z.of_nat kEncodedLength then (DataLoss "file is too short to be an sstable", None)
  else
    let '(s, footer_input) := Read (size - Z.of_nat kEncodedLength) (Z.of_nat kEncodedLength) in
    if negb (ok s) then (s, None) else
    let '(s, footer) := Footer_DecodeFrom footer_input in
    if negb (ok s) then (s, None) else
    let '(s, contents) := ReadBlock (ft_index_handle footer) in
    if negb (ok s) then (s, None)
    else (s, Some (mkTable options (ft_metaindex_handle footer) (newBlock contents))).

Definition BlockReader (index_value : list Z) : BlockIterator :=
  let '(s, handle, _) := BlockHandle_DecodeFrom index_value newBlockHandle in
  if negb (ok s) then OfEmpty (NewErrorIterator s) else
  let '(s, contents) := ReadBlock handle in
  if negb (ok s) then OfEmpty (NewErrorIterator s) else Block_NewIterator (newBlock contents).

(** A bound on the entries of the index block. *)
Definition table_fuel (t : Table) : nat := S (Z.to_nat (blk_size (tab_index_block t))).

Definition Table_NewIterator (t : Table) : TwoLevelIterator BlockIterator BlockIterator :=
  newTwoLevelIterator (Block_NewIterator (tab_index_block t)).

Definition table_iterator (t : Table) : Iterator (TwoLevelIterator BlockIterator BlockIterator) :=
  two_level_iterator BlockReader (table_fuel t).

(** [Table::InternalGet]: the status and the entry that [saver] is called with. *)
Definition InternalGet (k : list Z) (t : Table) : Status * option (list Z * list Z) :=
  let iiter := Seek k (Block_NewIterator (tab_index_block t)) in
  let '(s, saved) :=
    if Valid iiter then
      let block_iter := Seek k (BlockReader (value iiter)) in
      (status block_iter,
       if Valid block_iter then Some (key block_iter, value block_iter) else None)
    else (StatusOK, None) in
  (if ok s then status iiter else s, saved).

Definition ApproximateOffsetOf (k : list Z) (t : Table) : Z :=
  let index_iter := Seek k (Block_NewIterator (tab_index_block t)) in
  if Valid index_iter then
    let '(s, handle, _) := BlockHandle_DecodeFrom (value index_iter) newBlockHandle in
    if ok s then bh_offset handle else bh_offset (tab_metaindex_handle t)
  else bh_offset (tab_metaindex_handle t).
End table.

(** * The builder *)

Definition FindShortestSeparator (start limit : list Z) : list Z :=
  let min_length := Nat.min (length start) (length limit) in
  let diff_index := common_prefix start limit in
  if (min_length <=? diff_index)%nat then start
  else
    let diff_byte := byte_at start diff_index in
    if (diff_byte <? 255) && (diff_byte + 1 <? byte_at limit diff_index)
    then take diff_index start ++ [diff_byte + 1] else start.

Fixpoint FindShortSuccessor (k : list Z) : list Z :=
  match k with
  | [] => []
  | byte :: k => if negb (byte =? 255) then [byte + 1] else byte :: FindShortSuccessor k
  end.

Section builder.
Context `{Snappy} {F : Type} (Append : list Z → SM F) (contents_at trailer_at : Z).

(** [TableBuilder::Rep]. *)
Record TableBuilder := mkTableBuilder {
  tb_options : Options;
  tb_file : F;
  tb_offset : Z;
  tb_status : Status;
  tb_data_block : BlockBuilder;
  tb_index_block : BlockBuilder;
  tb_last_key : list Z;
  tb_num_entries : Z;
  tb_closed : bool;
  tb_pending_index_entry : bool;
  tb_pending_handle : BlockHandle }.

Definition newTableBuilder (options : Options) (file : F) : TableBuilder :=
  mkTableBuilder options file 0 StatusOK (newBlockBuilder (block_restart_interval options))
    (newBlockBuilder 1) [] 0 false false newBlockHandle.

Implicit Types r : TableBuilder.

Definition set_file (file : F) (offset : Z) (st : Status) r : TableBuilder :=
  mkTableBuilder (tb_options r) file offset st (tb_data_block r) (tb_index_block r)
    (tb_last_key r) (tb_num_entries r) (tb_closed r) (tb_pending_index_entry r)
    (tb_pending_handle r).

Definition set_data_block (b : BlockBuilder) (last_key : list Z) (num_entries : Z) r : TableBuilder :=
  mkTableBuilder (tb_options r) (tb_file r) (tb_offset r) (tb_status r) b (tb_index_block r)
    last_key num_entries (tb_closed r) (tb_pending_index_entry r) (tb_pending_handle r).

Definition set_pending (pending : bool) (handle : BlockHandle) r : TableBuilder :=
  mkTableBuilder (tb_options r) (tb_file r) (tb_offset r) (tb_status r) (tb_data_block r)
    (tb_index_block r) (tb_last_key r) (tb_num_entries r) (tb_closed r) pending handle.

Definition set_index_block (b : BlockBuilder) (last_key : list Z) (pending : bool) r : TableBuilder :=
  mkTableBuilder (tb_options r) (tb_file r) (tb_offset r) (tb_status r) (tb_data_block r) b
    last_key (tb_num_entries r) (tb_closed r) pending (tb_pending_handle r).

Definition set_closed r : TableBuilder :=
  mkTableBuilder (tb_options r) (tb_file r) (tb_offset r) (tb_status r) (tb_data_block r)
    (tb_index_block r) (tb_last_key r) (tb_num_entries r) true (tb_pending_index_entry r)
    (tb_pending_handle r).

Definition tb_ok r : bool := ok (tb_status r).

(** [WriteRawBlock]: the handle it fills in, and the builder. *)
Definition WriteRawBlock (block_contents : list Z) (type : CompressionType) r :
    BlockHandle * TableBuilder :=
  let size := Z.of_nat (length block_contents) in
  let handle := mkBlockHandle (tb_offset r) size in
  let '(st, file) := Append block_contents (tb_file r) in
  if negb (ok st) then (handle, set_file file (tb_offset r) st r)
  else
    let crc := Extend trailer_at (Value contents_at block_contents) [type_byte type] in
    let trailer := type_byte type :: EncodeFixed32 (Mask crc) in
    let '(st, file) := Append trailer file in
    (handle, set_file file
               (if ok st then u64 (tb_offset r + (size + kBlockTrailerSize)) else tb_offset r) st r).

(** [WriteBlock]: the handle, the block after its reset, and the builder. *)
Definition WriteBlock (block : BlockBuilder) r : BlockHandle * BlockBuilder * TableBuilder :=
  let '(raw, block) := BlockBuilder_Finish block in
  let '(block_contents, type) :=
    match compression (tb_options r) with
    | kNoCompression => (raw, kNoCompression)
    | kSnappyCompression =>
        match Snappy_Compress raw with
        | Some compressed =>
            if (length compressed <? length raw - length raw / 8)%nat
            then (compressed, kSnappyCompression) else (raw, kNoCompression)
        | None => (raw, kNoCompression)
        end
    end in
  let '(handle, r) := WriteRawBlock block_contents type r in
  (handle, BlockBuilder_Reset block, r).

Definition Flush r : TableBuilder :=
  if negb (tb_ok r) then r
  else if bb_empty (tb_data_block r) then r
  else
    let '(handle, block, r) := WriteBlock (tb_data_block r) r in
    let r := set_data_block block (tb_last_key r) (tb_num_entries r) r in
    set_pending (if tb_ok r then true else tb_pending_index_entry r) handle r.

(** The entry of the index for the block that was written last. *)
Definition add_index_entry (separator : list Z) r : TableBuilder :=
  let handle_encoding := BlockHandle_EncodeTo [] (tb_pending_handle r) in
  set_index_block (BlockBuilder_Add separator handle_encoding (tb_index_block r)) separator false r.

Definition TableBuilder_Add (k v : list Z) r : TableBuilder :=
  if negb (tb_ok r) then r
  else
    let kOverlyLargeBlockRatio := 2 in
    let this_entry_bytes := Z.of_nat (length k) + Z.of_nat (length v) in
    let r :=
      if (0 <? tb_num_entries r) &&
         (u64 (kOverlyLargeBlockRatio * block_size (tb_options r)) <=? u64 this_entry_bytes)
      then Flush r else r in
    let r :=
      if tb_pending_index_entry r
      then add_index_entry (FindShortestSeparator (tb_last_key r) k) r else r in
    let r := set_data_block (BlockBuilder_Add k v (tb_data_block r)) k (tb_num_entries r + 1) r in
    let estimated_block_size := CurrentSizeEstimate (tb_data_block r) in
    if block_size (tb_options r) <=? estimated_block_size then Flush r else r.

(** [Finish], which returns the status. *)
Definition TableBuilder_Finish r : Status * TableBuilder :=
  let r := set_closed (Flush r) in
  let '(metaindex_block_handle, r) :=
    if tb_ok r then
      let '(handle, _, r) := WriteBlock (newBlockBuilder (block_restart_interval (tb_options r))) r in
      (handle, r)
    else (newBlockHandle, r) in
  let '(index_block_handle, r) :=
    if tb_ok r then
      let r := if tb_pending_index_entry r
               then add_index_entry (FindShortSuccessor (tb_last_key r)) r else r in
      let '(handle, block, r) := WriteBlock (tb_index_block r) r in
      (handle, set_index_block block (tb_last_key r) (tb_pending_index_entry r) r)
    else (newBlockHandle, r) in
  let r :=
    if tb_ok r then
      let footer_encoding :=
        Footer_EncodeTo [] (mkFooter metaindex_block_handle index_block_handle) in
      let '(st, file) := Append footer_encoding (tb_file r) in
      set_file file
        (if ok st then u64 (tb_offset r + Z.of_nat (length footer_encoding)) else tb_offset r) st r
    else r in
  (tb_status r, r).

Definition Abandon r : TableBuilder := set_closed r.
Definition NumEntries r : Z := tb_num_entries r.
Definition FileSize r : Z := tb_offset r.
End builder.
Arguments TableBuilder : clear implicits.

(** * Two-level iterators are positions *)

Lemma compare_eq a b : compare a b = 0 → a = b.
Proof.
  unfold compare. destruct (Z.eqb_spec (memcmp a b) 0) as [E|]; [|done].
  destruct (Nat.ltb_spec (length a) (length b)); [done|].
  destruct (Nat.ltb_spec (length b) (length a)); [done|]. intros _.
  assert (length a = length b) as Hl by lia. clear -E Hl. revert b E Hl.
  induction a as [|x a IH]; intros [|y b] E Hl; simplify_eq/=; [done|].
  destruct (Z.ltb_spec x y); [done|]. destruct (Z.ltb_spec y x); [done|].
  f_equal; [lia|]. by apply IH.
Qed.

Lemma compare_refl a : compare a a = 0.
Proof.
  assert (memcmp a a = 0) as E by (induction a as [|x a IH]; [done|]; simpl; by rewrite Z.ltb_irrefl).
  unfold compare. by rewrite E, Nat.ltb_irrefl.
Qed.

Lemma elem_of_concat {A} (x : A) (ls : list (list A)) : x ∈ concat ls ↔ ∃ l, x ∈ l ∧ l ∈ ls.
Proof. rewrite list_elem_of_In, in_concat. setoid_rewrite list_elem_of_In. naive_solver. Qed.

(** The bound in a concatenation. *)
Lemma lower_bound_split target l1 l2 :
  lower_bound target (l1 ++ l2) =
    if (lower_bound target l1 <? length l1)%nat then lower_bound target l1
    else (length l1 + lower_bound target l2)%nat.
Proof.
  induction l1 as [|[k v] l1 IH]; [done|]. cbn [app lower_bound length].
  destruct (bytes_ltb k target); [|done]. rewrite IH.
  change (S (lower_bound target l1) <? S (length l1))%nat with (lower_bound target l1 <? length l1)%nat.
  by destruct (_ <? _)%nat.
Qed.

Lemma lower_bound_full target l :
  Forall (λ e : list Z * list Z, bytes_ltb e.1 target = true) l → lower_bound target l = length l.
Proof. intros Hl. pose proof (lower_bound_app target l [] Hl) as E. rewrite app_nil_r in E. simpl in E. lia. Qed.

Lemma lower_bound_spec target l i e :
  sorted_keys l → l !! i = Some e →
  bytes_ltb e.1 target = true ↔ (i < lower_bound target l)%nat.
Proof.
  unfold sorted_keys. revert i. induction l as [|[k v] l IH]; intros i Hs; [done|].
  apply StronglySorted_inv in Hs as [Hs Hk]. cbn [lower_bound]. destruct i as [|i].
  - intros [= <-]. cbn [fst]. destruct (bytes_ltb k target); split; (done || lia).
  - intros Hi. cbn [lookup list_lookup] in Hi. destruct (bytes_ltb k target) eqn:E.
    + rewrite (IH i Hs Hi). lia.
    + split; [|lia]. intros He. rewrite Forall_forall in Hk.
      specialize (Hk e (list_elem_of_lookup_2 _ _ _ Hi)). cbn [fst] in Hk.
      rewrite (bytes_ltb_trans _ _ _ Hk He) in E. done.
Qed.

(** The lower bound of a key that is present is its entry. *)
Lemma lower_bound_elem l e : sorted_keys l → e ∈ l → l !! lower_bound e.1 l = Some e.
Proof.
  intros Hsorted [p Hp]%list_elem_of_lookup.
  assert (¬ (p < lower_bound e.1 l)%nat).
  { rewrite <-(lower_bound_spec e.1 l p e Hsorted Hp), bytes_ltb_irrefl. done. }
  destruct (decide (lower_bound e.1 l < p)%nat) as [Hlt|].
  - destruct (lookup_lt_is_Some_2 l (lower_bound e.1 l)) as [e' He']; [apply lookup_lt_Some in Hp; lia|].
    assert (bytes_ltb e'.1 e.1 = true) as Hee.
    { unfold sorted_keys in Hsorted. rewrite <-(take_drop_middle _ _ _ Hp) in Hsorted.
      apply (StronglySorted_app_1_elem_of _ _ _ e' e Hsorted); [|by left].
      apply list_elem_of_lookup. exists (lower_bound e.1 l). by apply lookup_take_Some. }
    apply (lower_bound_spec e.1 l _ e' Hsorted He') in Hee. lia.
  - by replace (lower_bound e.1 l) with p by lia.
Qed.

Lemma lower_bound_mono k k' l :
  bytes_ltb k' k = false → (lower_bound k l <= lower_bound k' l)%nat.
Proof.
  intros Hk. induction l as [|[a v] l IH]; cbn [lower_bound]; [lia|].
  destruct (bytes_ltb a k) eqn:E; [|lia]. rewrite (bytes_ltb_lt_le _ _ _ E Hk). lia.
Qed.

Section two_level_proofs.
Context {II DI : Type} `{HII : Iterator II} `{HDI : Iterator DI}.
Context (block_function : list Z → DI) (fuel : nat).

(** The blocks: the separator, the handle and the entries of each. *)
Context (segs : list (list Z * list Z * entries)).

Definition seg_index : entries := (λ s, s.1) <$> segs.
Definition seg_entries : entries := concat (snd <$> segs).
Definition seg_offset (i : nat) : nat := length (concat (snd <$> take i segs)).

(** Each separator is not below the keys of its block and below all later keys. *)
Record separated : Prop := {
  sep_before i s h b e : segs !! i = Some (s, h, b) → e ∈ b → bytes_ltb s e.1 = false;
  sep_after i s h b i' s' h' b' e : segs !! i = Some (s, h, b) → (i < i')%nat →
    segs !! i' = Some (s', h', b') → e ∈ b' → bytes_ltb s e.1 = true }.

Context (PI : nat → II → Prop) (PD : nat → nat → DI → Prop).
Context (HPI : Refines seg_index PI).
Context (Hhandles : NoDup ((λ s, s.1.2) <$> segs)).
Context (HPD : ∀ i s h b, segs !! i = Some (s, h, b) →
  Refines b (PD i) ∧ PD i (length b) (block_function h)).
Context (Hfuel : (length segs < fuel)%nat).

Abbreviation TL := (TwoLevelIterator II DI).

(** The index is at block [i]; the data iterator belongs to the block whose handle
    is remembered. *)
Definition loose (i : nat) (t : TL) : Prop :=
  tl_status t = StatusOK ∧ PI i (tl_index_iter t) ∧
  ∀ d, tl_data_iter t = Some d → ∃ i' s b j, segs !! i' = Some (s, tl_data_block_handle t, b) ∧ PD i' j d.

(** The index is at block [i] and the data iterator at entry [j] of that block. *)
Definition at_block (i j : nat) (t : TL) : Prop :=
  loose i t ∧
  match segs !! i with
  | None => tl_data_iter t = None ∧ j = O
  | Some (s, h, b) => ∃ d, tl_data_iter t = Some d ∧ tl_data_block_handle t = h ∧ PD i j d
  end.

Definition tl_position (pos : nat) (t : TL) : Prop :=
  ∃ i j, at_block i j t ∧ pos = (seg_offset i + j)%nat ∧
    match segs !! i with Some (_, _, b) => (j < length b)%nat | None => True end.

Lemma seg_index_length : length seg_index = length segs.
Proof. unfold seg_index. apply length_fmap. Qed.

Lemma loose_bound i t : loose i t → (i <= length segs)%nat.
Proof. intros (_&Hi&_). rewrite <-seg_index_length. by eapply (ref_bound _ _ HPI). Qed.

Lemma loose_valid i t : loose i t → Valid (tl_index_iter t) = bool_decide (i < length segs)%nat.
Proof. intros (_&Hi&_). rewrite <-seg_index_length. by apply (ref_valid _ _ HPI). Qed.

Lemma data_status_ok i t d : loose i t → tl_data_iter t = Some d → status d = StatusOK.
Proof.
  intros (_&_&Hd) E. destruct (Hd d E) as (i'&s&b&j&Hseg&Hj).
  destruct (HPD _ _ _ _ Hseg) as [HR _]. by eapply (ref_status _ _ HR).
Qed.

(** No error is ever saved. *)
Lemma SetDataIterator_spec i t d' :
  loose i t → SetDataIterator d' t = set_data_iter d' t.
Proof.
  intros Hl. unfold SetDataIterator. destruct (tl_data_iter t) as [d|] eqn:E; [|done].
  rewrite (data_status_ok i t d Hl E). unfold SaveError. by rewrite andb_false_r.
Qed.

Lemma seg_offset_S i s h b :
  segs !! i = Some (s, h, b) → seg_offset (S i) = (seg_offset i + length b)%nat.
Proof.
  intros E. unfold seg_offset. rewrite (take_S_r _ _ _ E), fmap_app, concat_app, length_app.
  simpl. by rewrite app_nil_r.
Qed.

Lemma seg_offset_all : seg_offset (length segs) = length seg_entries.
Proof. unfold seg_offset. by rewrite firstn_all. Qed.

(** [InitDataBlock] makes the data iterator one of the index's block. *)
Lemma InitDataBlock_spec i t :
  loose i t → ∃ j, at_block i j (InitDataBlock block_function t) ∧
    tl_index_iter (InitDataBlock block_function t) = tl_index_iter t.
Proof.
  intros Hl. unfold InitDataBlock. rewrite (loose_valid i t Hl).
  pose proof (loose_bound i t Hl) as Hi. pose proof Hl as (Hst&HPIi&Hd).
  destruct (segs !! i) as [[[s h] b]|] eqn:E.
  2: { pose proof E as E'. apply lookup_ge_None in E'. rewrite bool_decide_false by lia.
       cbn [negb]. rewrite (SetDataIterator_spec i) by done. exists O. split; [|done].
       split; [|by rewrite E]. split_and!; [done..|]. intros d [=]. }
  pose proof (lookup_lt_Some _ _ _ E). rewrite bool_decide_true by done. cbn [negb].
  assert (value (tl_index_iter t) = h) as Hv.
  { eapply (ref_entry _ _ HPI i _ s h HPIi). unfold seg_index. by rewrite list_lookup_fmap, E. }
  destruct (HPD _ _ _ _ E) as [HR H0]. rewrite Hv.
  assert (loose i (mkTwoLevel (tl_status t) (tl_index_iter t) (Some (block_function h)) h)) as Hl'.
  { split_and!; [done..|]. intros d [= <-]. by exists i, s, b, (length b). }
  assert (∃ j, at_block i j (mkTwoLevel (tl_status t) (tl_index_iter t) (Some (block_function h)) h)) as [j Hj].
  { exists (length b). split; [done|]. rewrite E. by exists (block_function h). }
  assert (SetDataIterator (Some (block_function h))
      (mkTwoLevel (tl_status t) (tl_index_iter t) (tl_data_iter t) h) =
    mkTwoLevel (tl_status t) (tl_index_iter t) (Some (block_function h)) h) as Hset.
  { unfold SetDataIterator. cbn [tl_data_iter]. destruct (tl_data_iter t) as [d|] eqn:Ed; [|done].
    rewrite (data_status_ok i t d Hl Ed). unfold SaveError. by rewrite andb_false_r. }
  destruct (tl_data_iter t) as [d|] eqn:Ed; [|by rewrite Hset; exists j].
  destruct (Z.eqb_spec (compare h (tl_data_block_handle t)) 0) as [Hc%compare_eq|]; [|by rewrite Hset; exists j].
  destruct (Hd d eq_refl) as (i'&s'&b'&j'&E'&Hj'). rewrite <-Hc in E'.
  assert (i' = i) as ->.
  { apply (NoDup_lookup _ i' i h Hhandles); by rewrite list_lookup_fmap, ?E, ?E'. }
  exists j'. split; [|done]. split; [done|]. rewrite E. by exists d.
Qed.

Lemma on_data_iter_spec i j j' f t :
  at_block i j t → (∀ s h b d, segs !! i = Some (s, h, b) → PD i j d → PD i j' (f d)) →
  at_block i (if decide (i < length segs)%nat then j' else O) (on_data_iter f t).
Proof.
  intros [(Hst&HPIi&Hd) Hb] Hf. unfold at_block, loose, on_data_iter, set_data_iter.
  cbn [tl_status tl_index_iter tl_data_iter tl_data_block_handle].
  destruct (segs !! i) as [[[s h] b]|] eqn:E.
  - rewrite decide_True by (by eapply lookup_lt_Some). destruct Hb as (d&Ed&Hh&Hj). rewrite Ed.
    specialize (Hf s h b d eq_refl Hj).
    split_and!; [done..| |by exists (f d)]. intros d' [= <-]. rewrite Hh. by exists i, s, b, j'.
  - rewrite decide_False by (by apply Nat.nlt_ge, lookup_ge_None). destruct Hb as [Ed _]. rewrite Ed.
    by split_and!.
Qed.

Lemma skip_spec n i j t :
  at_block i j t → (length segs - i < n)%nat →
  match segs !! i with Some (_, _, b) => (j <= length b)%nat | None => True end →
  tl_position (seg_offset i + j) (SkipEmptyDataBlocksForward block_function n t).
Proof.
  revert i j t. induction n as [|n IH]; intros i j t Hat Hn Hj; [lia|].
  cbn [SkipEmptyDataBlocksForward]. pose proof Hat as [Hl Hb]. rewrite (loose_valid i t Hl).
  destruct (segs !! i) as [[[s h] b]|] eqn:E.
  - pose proof (lookup_lt_Some _ _ _ E). destruct Hb as (d&Ed&Hh&Hjd).
    destruct (HPD _ _ _ _ E) as [HR _]. unfold data_valid. rewrite Ed, (ref_valid _ _ HR j d Hjd).
    case_bool_decide as Hlt.
    + exists i, j. by rewrite E.
    + rewrite bool_decide_true by done. cbn [negb]. assert (j = length b) as -> by lia.
      set (t1 := set_index_iter _ t).
      assert (loose (S i) t1) as Hl1.
      { pose proof Hl as (Hst&HPIi&Hd). split_and!; [done| |done].
        apply (ref_next _ _ HPI); [done|by rewrite seg_index_length]. }
      destruct (InitDataBlock_spec (S i) t1 Hl1) as (j1&Hat1&_).
      rewrite <-(seg_offset_S _ _ _ _ E).
      pose proof (on_data_iter_spec (S i) j1 O SeekToFirst _ Hat1) as Hat2.
      assert (at_block (S i) O (on_data_iter SeekToFirst (InitDataBlock block_function t1))) as Hat3.
      { assert ((if decide (S i < length segs)%nat then O else O) = O) as Eo by (by case_decide).
        rewrite Eo in Hat2. apply Hat2. intros s' h' b' d' E' Hd'.
        destruct (HPD _ _ _ _ E') as [HR' _]. by eapply (ref_first _ _ HR'). }
      rewrite <-(Nat.add_0_r (seg_offset (S i))). apply IH; [done|lia|].
      destruct (segs !! S i) as [[[? ?] ?]|]; [lia|done].
  - apply lookup_ge_None in E as E'. rewrite bool_decide_false by lia. cbn [negb].
    destruct Hb as [Ed ->]. unfold data_valid. rewrite Ed, (SetDataIterator_spec i) by done.
    exists i, O. rewrite E. split_and!; [|done..]. split; [|by rewrite E].
    destruct Hl as (?&?&?). split_and!; [done..|]. intros d [=].
Qed.

Lemma tl_position_loose pos t : tl_position pos t → ∃ i, loose i t.
Proof. intros (i&j&[Hl _]&_). eauto. Qed.

(** From any state, with the index moved to block [i], the block found there is
    entered by [f]. *)
Lemma enter_spec i0 i j f t (index : II) :
  loose i0 t → PI i index →
  (∀ s h b j0 d, segs !! i = Some (s, h, b) → PD i j0 d → PD i j (f d) ∧ (j <= length b)%nat) →
  tl_position (seg_offset i + if decide (i < length segs)%nat then j else O)
    (SkipEmptyDataBlocksForward block_function fuel
       (on_data_iter f (InitDataBlock block_function (set_index_iter index t)))).
Proof.
  intros (Hst&_&Hd) Hi Hf.
  destruct (InitDataBlock_spec i (set_index_iter index t)) as (j0&Hat&_); [by split_and!|].
  apply skip_spec; [|lia|].
  - eapply (on_data_iter_spec i j0); [done|]. intros. by eapply Hf.
  - destruct (segs !! i) as [[[s h] b]|] eqn:E; [|done].
    rewrite decide_True by (by eapply lookup_lt_Some). destruct Hat as [_ Hb]. rewrite E in Hb.
    destruct Hb as (d&_&_&Hj). by eapply Hf.
Qed.

Lemma seg_split i s h b :
  segs !! i = Some (s, h, b) →
  seg_entries = concat (snd <$> take i segs) ++ b ++ concat (snd <$> drop (S i) segs).
Proof.
  intros E. unfold seg_entries. rewrite <-(take_drop_middle _ _ _ E) at 1.
  rewrite fmap_app, concat_app. done.
Qed.

Lemma seg_elem i e : e ∈ concat (snd <$> take i segs) →
  ∃ i' s h b, (i' < i)%nat ∧ segs !! i' = Some (s, h, b) ∧ e ∈ b.
Proof. clear Hfuel.
  rewrite elem_of_concat. setoid_rewrite list_elem_of_fmap.
  intros (b&He&([[s h] b']&->&Hin)). apply list_elem_of_lookup in Hin as [i' Hi'].
  apply lookup_take_Some in Hi' as [Hi' Hlt]. exists i', s, h, b'. split_and!; [lia|done..].
Qed.

Lemma seg_elem_after i e : e ∈ concat (snd <$> drop (S i) segs) →
  ∃ i' s h b, (i < i')%nat ∧ segs !! i' = Some (s, h, b) ∧ e ∈ b.
Proof. clear Hfuel.
  rewrite elem_of_concat. setoid_rewrite list_elem_of_fmap.
  intros (b&He&([[s h] b']&->&Hin)). apply list_elem_of_lookup in Hin as [i' Hi'].
  rewrite lookup_drop in Hi'. exists (S i + i')%nat, s, h, b'. split_and!; [lia|done..].
Qed.

(** The separators lead to the block that holds the lower bound. *)
Lemma lower_bound_segs target :
  separated → sorted_keys seg_index →
  let i := lower_bound target seg_index in
  lower_bound target seg_entries = (seg_offset i + if decide (i < length segs)%nat then
    match segs !! i with Some (_, _, b) => lower_bound target b | None => O end else O)%nat.
Proof. clear Hfuel.
  intros Hsep Hs i.
  assert (∀ k s h b, segs !! k = Some (s, h, b) → bytes_ltb s target = true ↔ (k < i)%nat) as Hi.
  { intros k s h b E. apply (lower_bound_spec target seg_index k (s, h) Hs).
    unfold seg_index. by rewrite list_lookup_fmap, E. }
  assert (Forall (λ e : list Z * list Z, bytes_ltb e.1 target = true) (concat (snd <$> take i segs))) as Hbefore.
  { apply Forall_forall. intros e (i'&s&h&b&Hlt&E&He)%seg_elem.
    apply bytes_ltb_le_lt with s; [by eapply sep_before|]. by eapply Hi. }
  destruct (segs !! i) as [[[s h] b]|] eqn:E.
  - rewrite decide_True by (by eapply lookup_lt_Some).
    rewrite (seg_split _ _ _ _ E), lower_bound_app, lower_bound_split by done.
    change (length (concat (snd <$> take i segs))) with (seg_offset i). f_equal.
    destruct (Nat.ltb_spec (lower_bound target b) (length b)); [done|].
    pose proof (lower_bound_length target b).
    rewrite lower_bound_zero; [lia|]. apply Forall_forall.
    intros e (i'&s'&h'&b'&Hlt&E'&He)%seg_elem_after.
    pose proof (sep_after Hsep _ _ _ _ _ _ _ _ _ E Hlt E' He) as Hse.
    destruct (bytes_ltb e.1 target) eqn:Ht; [|done].
    assert (i < i)%nat; [|lia]. apply (Hi i s h b E). by eapply bytes_ltb_trans.
  - rewrite decide_False by (by apply Nat.nlt_ge, lookup_ge_None). apply lookup_ge_None in E.
    rewrite take_ge in Hbefore by done. fold seg_entries in Hbefore.
    rewrite (lower_bound_full _ _ Hbefore), <-seg_offset_all. unfold seg_offset.
    rewrite (take_ge segs i), (take_ge segs (length segs)) by lia. lia.
Qed.

Abbreviation HTL := (two_level_iterator (II := II) (DI := DI) block_function fuel).

Lemma two_level_refines :
  separated → sorted_keys seg_index → Refines (H := HTL) seg_entries tl_position.
Proof.
  intros Hsep Hs. split.
  - intros pos t (i&j&[Hl Hb]&->&Hj). rewrite <-seg_offset_all.
    destruct (segs !! i) as [[[s h] b]|] eqn:E.
    + rewrite seg_offset_all, (seg_split _ _ _ _ E), !length_app. unfold seg_offset. lia.
    + destruct Hb as [_ ->]. apply loose_bound in Hl. apply lookup_ge_None in E.
      assert (i = length segs) as -> by lia. lia.
  - intros pos t (i&j&[Hl Hb]&->&Hj). cbn [Valid two_level_iterator]. unfold data_valid.
    destruct (segs !! i) as [[[s h] b]|] eqn:E.
    + destruct Hb as (d&->&_&Hd). destruct (HPD _ _ _ _ E) as [HR _].
      rewrite (ref_valid _ _ HR j d Hd), !bool_decide_true; [done| |done].
      rewrite (seg_split _ _ _ _ E), !length_app. unfold seg_offset. lia.
    + destruct Hb as [-> ->]. rewrite bool_decide_false; [done|]. apply loose_bound in Hl.
      apply lookup_ge_None in E. assert (i = length segs) as -> by lia. rewrite seg_offset_all. lia.
  - intros pos t a c (i&j&[Hl Hb]&->&Hj) Hp. cbn [key value two_level_iterator].
    destruct (segs !! i) as [[[s h] b]|] eqn:E.
    + destruct Hb as (d&->&_&Hd). destruct (HPD _ _ _ _ E) as [HR _].
      apply (ref_entry _ _ HR j d a c Hd). rewrite (seg_split _ _ _ _ E) in Hp. unfold seg_offset in Hp.
      rewrite lookup_app_r in Hp by lia. replace (_ + j - _)%nat with j in Hp by lia.
      by rewrite lookup_app_l in Hp.
    + destruct Hb as [_ ->]. apply loose_bound in Hl. apply lookup_ge_None in E.
      assert (i = length segs) as -> by lia. rewrite seg_offset_all, Nat.add_0_r in Hp.
      apply lookup_lt_Some in Hp. lia.
  - intros pos t (i&j&[Hl Hb]&->&Hj). cbn [status two_level_iterator]. unfold TwoLevel_status.
    pose proof Hl as (Hst&Hi&_). rewrite (ref_status _ _ HPI _ _ Hi). cbn [negb ok].
    destruct (tl_data_iter t) as [d|] eqn:Ed; [|done].
    by rewrite (data_status_ok i t d Hl Ed).
  - intros pos t (i&j&Hat&->&Hj) Hlt. cbn [Next two_level_iterator]. unfold TwoLevel_Next.
    pose proof Hat as [Hl Hb]. destruct (segs !! i) as [[[s h] b]|] eqn:E.
    + replace (S (seg_offset i + j)) with (seg_offset i + S j)%nat by lia.
      destruct (HPD _ _ _ _ E) as [HR _].
      pose proof (on_data_iter_spec i j (S j) Next t Hat) as Hat'.
      rewrite decide_True in Hat' by (by eapply lookup_lt_Some).
      apply skip_spec; [|lia|rewrite E; lia]. apply Hat'. intros s' h' b' d E' Hd.
      rewrite E in E'. injection E' as <- <- <-. by apply (ref_next _ _ HR).
    + destruct Hb as [_ ->]. apply loose_bound in Hl. apply lookup_ge_None in E.
      assert (i = length segs) as -> by lia. rewrite seg_offset_all in Hlt. lia.
  - intros pos t [i Hl]%tl_position_loose. cbn [SeekToFirst two_level_iterator].
    unfold TwoLevel_SeekToFirst. pose proof Hl as (_&Hi&_).
    pose proof (enter_spec i 0 0 SeekToFirst t (SeekToFirst (tl_index_iter t)) Hl
      (ref_first _ _ HPI _ _ Hi)) as He.
    assert ((if decide (0 < length segs)%nat then O else O) = O) as Eo by (by case_decide).
    rewrite Eo in He. apply He. intros s h b j0 d E Hd. destruct (HPD _ _ _ _ E) as [HR _].
    split; [by eapply (ref_first _ _ HR)|lia].
  - intros pos t target [i Hl]%tl_position_loose. cbn [Seek two_level_iterator].
    unfold TwoLevel_Seek. pose proof Hl as (_&Hi&_).
    rewrite (lower_bound_segs target Hsep Hs). cbv zeta.
    apply (enter_spec i); [done|by apply (ref_seek _ _ HPI) with i|].
    intros s h b j0 d E Hd. rewrite E. destruct (HPD _ _ _ _ E) as [HR _].
    split; [by eapply (ref_seek _ _ HR)|apply lower_bound_length].
Qed.

Lemma new_two_level_position index :
  PI (length segs) index → tl_position (length seg_entries) (newTwoLevelIterator index).
Proof.
  intros Hi. exists (length segs), O. rewrite seg_offset_all, Nat.add_0_r.
  rewrite (proj2 (lookup_ge_None segs (length segs))) by done. split_and!; [|done..].
  split; [by split_and!|]. by rewrite (proj2 (lookup_ge_None segs (length segs))) by done.
Qed.
End two_level_proofs.

(** * The format round-trips *)

Lemma BlockHandle_round_trip h h0 rest :
  is_u64 (bh_offset h) → is_u64 (bh_size h) →
  BlockHandle_DecodeFrom (BlockHandle_EncodeTo [] h ++ rest) h0 = (StatusOK, h, rest).
Proof.
  intros Ho Hs. unfold BlockHandle_DecodeFrom, BlockHandle_EncodeTo, PutVarint64. cbn [app].
  rewrite <-app_assoc, !GetVarint64_encode by done. by destruct h.
Qed.

Lemma BlockHandle_EncodeTo_app dst h :
  BlockHandle_EncodeTo dst h = dst ++ BlockHandle_EncodeTo [] h.
Proof. unfold BlockHandle_EncodeTo, PutVarint64. by rewrite <-app_assoc. Qed.

Lemma length_BlockHandle_EncodeTo h : (length (BlockHandle_EncodeTo [] h) <= 20)%nat.
Proof.
  unfold BlockHandle_EncodeTo, PutVarint64. cbn [app]. rewrite length_app.
  pose proof (length_EncodeVarint64 (bh_offset h)). pose proof (length_EncodeVarint64 (bh_size h)). lia.
Qed.

Lemma BlockHandle_bytes h :
  is_u64 (bh_offset h) → is_u64 (bh_size h) → Forall is_byte (BlockHandle_EncodeTo [] h).
Proof.
  intros [? _] [? _]. unfold BlockHandle_EncodeTo, PutVarint64. cbn [app].
  apply Forall_app. split; by apply encode_loop_bytes.
Qed.

Lemma Footer_encoding f :
  ∃ padding, Footer_EncodeTo [] f =
    BlockHandle_EncodeTo [] (ft_metaindex_handle f) ++ BlockHandle_EncodeTo [] (ft_index_handle f) ++
    padding ++ EncodeFixed32 (Z.land kTableMagicNumber 0xffffffff) ++
    EncodeFixed32 (Z.shiftr kTableMagicNumber 32) ∧
  length (BlockHandle_EncodeTo [] (ft_metaindex_handle f) ++
    BlockHandle_EncodeTo [] (ft_index_handle f) ++ padding) = 40%nat ∧ Forall is_byte padding.
Proof.
  pose proof (length_BlockHandle_EncodeTo (ft_metaindex_handle f)).
  pose proof (length_BlockHandle_EncodeTo (ft_index_handle f)).
  unfold Footer_EncodeTo. rewrite BlockHandle_EncodeTo_app. set (es := _ ++ _).
  assert (length es <= 40)%nat by (unfold es; rewrite length_app; lia).
  exists (replicate (40 - length es) 0). unfold PutFixed32, es. change (2 * kMaxEncodedLength)%nat with 40%nat.
  fold es. rewrite resize_ge by done. split_and!.
  - unfold es. by rewrite <-!app_assoc.
  - rewrite app_assoc. fold es. rewrite length_app, length_replicate. lia.
  - apply Forall_replicate. unfold is_byte. lia.
Qed.

Lemma Footer_round_trip f :
  is_u64 (bh_offset (ft_metaindex_handle f)) → is_u64 (bh_size (ft_metaindex_handle f)) →
  is_u64 (bh_offset (ft_index_handle f)) → is_u64 (bh_size (ft_index_handle f)) →
  length (Footer_EncodeTo [] f) = kEncodedLength ∧
  Footer_DecodeFrom (Footer_EncodeTo [] f) = (StatusOK, f).
Proof.
  intros. destruct (Footer_encoding f) as (padding&->&H40&_).
  set (a := BlockHandle_EncodeTo [] (ft_metaindex_handle f)) in *.
  set (b := BlockHandle_EncodeTo [] (ft_index_handle f)) in *.
  split; [rewrite !length_app, !length_EncodeFixed32 in *; unfold kEncodedLength, kMaxEncodedLength; lia|].
  unfold Footer_DecodeFrom. cbv zeta.
  assert (∀ r, drop (kEncodedLength - 8) (a ++ b ++ padding ++ r) = r) as Hdrop.
  { intros r. change (kEncodedLength - 8)%nat with 40%nat. rewrite <-H40.
    rewrite <-(drop_app_length (a ++ b ++ padding) r) at 2. by rewrite <-!app_assoc. }
  rewrite Hdrop. change (drop 4 (EncodeFixed32 ?x ++ ?y)) with y.
  rewrite fixed32_round_trip by (vm_compute; split; congruence).
  rewrite <-(app_nil_r (EncodeFixed32 (Z.shiftr _ _))), fixed32_round_trip by (vm_compute; split; congruence).
  change (Z.lor _ _ =? kTableMagicNumber) with true. cbn [negb].
  unfold a, b. rewrite BlockHandle_round_trip by done. cbn [negb ok].
  rewrite BlockHandle_round_trip by done. by destruct f.
Qed.

(** ** Stored blocks *)

Section stored.
Context `{Snappy}.

(** The bytes [image] are those of a block with contents [raw], of which [n] bytes
    are stored. *)
Definition stored (raw : list Z) (n : nat) (image : list Z) : Prop :=
  ∃ s type, image = s ++ type_byte type :: EncodeFixed32 (Mask (crc32c (s ++ [type_byte type]))) ∧
    n = length s ∧ Forall is_byte s ∧
    match type with
    | kNoCompression => s = raw
    | kSnappyCompression => Snappy_GetUncompressedLength s = Some (Z.of_nat (length raw)) ∧
        Snappy_Uncompress s = Some raw
    end.

Lemma length_stored raw n image : stored raw n image → length image = (n + 5)%nat.
Proof. intros (s&type&->&->&_). rewrite length_app. cbn [length]. rewrite length_EncodeFixed32. lia. Qed.

Lemma type_byte_byte type : is_byte (type_byte type).
Proof. destruct type; unfold is_byte; simpl; lia. Qed.

Context {Read : Z → Z → Status * list Z} {content : list Z} `{!RandomAccessFile Read content}.
Context (data_at : Z) (Hat : 0 <= data_at).

(** What [ReadBlock] makes of the bytes of a block with some stored checksum. *)
Lemma ReadBlock_image pre s t crc post :
  content = pre ++ (s ++ t :: EncodeFixed32 (Mask crc)) ++ post →
  Forall is_byte s → is_byte t → is_u32 crc → Z.of_nat (length content) < 2 ^ 64 →
  ReadBlock Read data_at (mkBlockHandle (Z.of_nat (length pre)) (Z.of_nat (length s))) =
    if negb (crc32c (s ++ [t]) =? crc) then (DataLoss "block checksum mismatch", [])
    else if t =? type_byte kNoCompression then (StatusOK, s)
    else if t =? type_byte kSnappyCompression then
        match Snappy_GetUncompressedLength s with
        | None => (DataLoss "corrupted compressed block contents", [])
        | Some ulength =>
            match Snappy_Uncompress s with
            | None => (DataLoss "corrupted compressed block contents", [])
            | Some ubuf => (StatusOK, take (Z.to_nat ulength) ubuf)
            end
        end
    else (DataLoss "bad block type", []).
Proof.
  intros Hc Hs Ht Hcrc Hlen. unfold ReadBlock. cbn [bh_size bh_offset].
  set (image := s ++ t :: EncodeFixed32 (Mask crc)) in *.
  assert (length image = length s + 5)%nat as Himg
    by (unfold image; rewrite length_app; cbn [length]; rewrite length_EncodeFixed32; lia).
  assert (length content = length pre + (length image + length post))%nat as Hcl
    by (rewrite Hc, !length_app; lia).
  rewrite u64_small by (unfold is_u64, kBlockTrailerSize; lia).
  replace (Z.of_nat (length s) + kBlockTrailerSize) with (Z.of_nat (length image))
    by (unfold kBlockTrailerSize; lia).
  rewrite read_all by lia. rewrite Hc, slice_mid by done. cbn [ok negb].
  rewrite Z.eqb_refl. cbn [negb].
  replace (Z.to_nat (Z.of_nat (length s) + 1)) with (length (s ++ [t]))
    by (rewrite length_app; simpl; lia).
  assert (image = (s ++ [t]) ++ EncodeFixed32 (Mask crc)) as Himg2
    by (unfold image; by rewrite <-app_assoc).
  rewrite Himg2, drop_app_length, take_app_length.
  rewrite Value_crc by (rewrite ?Forall_app; auto).
  rewrite <-(app_nil_r (EncodeFixed32 _)), fixed32_round_trip, Unmask_Mask by (done || apply Mask_range).
  rewrite app_nil_r. destruct (negb _); [done|].
  rewrite Nat2Z.id, <-app_assoc, take_app_length.
  assert (byte_at (s ++ [t] ++ EncodeFixed32 (Mask crc)) (length s) = t) as ->
    by (unfold byte_at; by rewrite app_nth2, Nat.sub_diag by lia).
  done.
Qed.

Lemma ReadBlock_stored pre raw n image post :
  stored raw n image → content = pre ++ image ++ post → Z.of_nat (length content) < 2 ^ 64 →
  ReadBlock Read data_at (mkBlockHandle (Z.of_nat (length pre)) (Z.of_nat n)) = (StatusOK, raw).
Proof.
  intros (s&type&->&->&Hs&Hraw) Hc Hlen.
  rewrite (ReadBlock_image pre s (type_byte type) (crc32c (s ++ [type_byte type])) post Hc Hs);
    [|apply type_byte_byte|apply crc32c_range; rewrite Forall_app; auto using type_byte_byte|done].
  rewrite Z.eqb_refl. cbn [negb]. destruct type; [by subst|].
  destruct Hraw as [-> ->]. by rewrite Nat2Z.id, firstn_all.
Qed.
End stored.

(** * Separators *)

Lemma FindShortestSeparator_cons x a b :
  FindShortestSeparator (x :: a) (x :: b) = x :: FindShortestSeparator a b.
Proof.
  unfold FindShortestSeparator. cbn [length common_prefix Nat.min]. rewrite Z.eqb_refl.
  change (S (length a `min` length b) <=? S (common_prefix a b))%nat
    with (length a `min` length b <=? common_prefix a b)%nat.
  destruct (_ <=? _)%nat; [done|]. cbv zeta.
  change (byte_at (x :: a) (S (common_prefix a b))) with (byte_at a (common_prefix a b)).
  change (byte_at (x :: b) (S (common_prefix a b))) with (byte_at b (common_prefix a b)).
  by destruct (_ && _).
Qed.

(** The separator is not below the first key and below the second. *)
Lemma FindShortestSeparator_spec start limit :
  Forall is_byte start → Forall is_byte limit → bytes_ltb start limit = true →
  let s := FindShortestSeparator start limit in
  bytes_ltb s start = false ∧ bytes_ltb s limit = true ∧ (length s <= length start)%nat ∧
  Forall is_byte s.
Proof.
  intros Hs. revert limit. induction Hs as [|x a Hx Ha IH]; intros [|y b] Hl Hlt; try done.
  apply Forall_cons in Hl as [Hy Hb]. destruct (decide (x = y)) as [<-|Hne].
  - cbv zeta. rewrite FindShortestSeparator_cons. cbn [bytes_ltb] in *.
    rewrite Z.ltb_irrefl, Z.eqb_refl in *. cbn [orb andb] in *.
    destruct (IH b Hb Hlt) as (?&?&?&?). split_and!; [done..|simpl; lia|by constructor].
  - unfold FindShortestSeparator. cbn [common_prefix length Nat.min]. rewrite (proj2 (Z.eqb_neq x y)) by done.
    change (S (length a `min` length b) <=? 0)%nat with false. cbv zeta.
    change (byte_at (x :: a) 0) with x. change (byte_at (y :: b) 0) with y. cbn [take app].
    destruct (Z.ltb_spec x 255), (Z.ltb_spec (x + 1) y); cbn [andb].
    2-4: split_and!; [apply bytes_ltb_irrefl|done|done|by constructor].
    split_and!; [|cbn [bytes_ltb]; by rewrite (proj2 (Z.ltb_lt _ _)) by lia|simpl; lia|].
    + cbn [bytes_ltb]. rewrite (proj2 (Z.ltb_ge _ _)), (proj2 (Z.eqb_neq _ _)) by lia. done.
    + repeat constructor; unfold is_byte in *; lia.
Qed.

Lemma FindShortSuccessor_spec k :
  Forall is_byte k →
  bytes_ltb (FindShortSuccessor k) k = false ∧
  (length (FindShortSuccessor k) <= length k)%nat ∧ Forall is_byte (FindShortSuccessor k).
Proof.
  induction 1 as [|x k Hx Hk (IH1&IH2&IH3)]; [done|]. cbn [FindShortSuccessor].
  destruct (Z.eqb_spec x 255) as [->|]; cbn [negb].
  - split_and!; [|simpl; lia|by constructor]. cbn [bytes_ltb]. by rewrite IH1.
  - split_and!; [|simpl; lia|repeat constructor; unfold is_byte in *; lia].
    cbn [bytes_ltb]. by rewrite (proj2 (Z.ltb_ge _ _)), (proj2 (Z.eqb_neq _ _)) by lia.
Qed.

(** * Building *)

(** What the builder relies on: an append that succeeds adds its data to the
    file. *)
Class WritableFile {F : Type} (Append : list Z → SM F) (content : F → list Z) : Prop := {
  append_content data f f' : Append data f = (StatusOK, f') → content f' = content f ++ data }.

(** A block in the file: its entries, the number of bytes stored, its image. *)
Record WrittenBlock := mkWritten { wb_entries : entries; wb_size : nat; wb_image : list Z }.

Definition images (ws : list WrittenBlock) : list Z := concat (wb_image <$> ws).
Definition blocks (ws : list WrittenBlock) : entries := concat (wb_entries <$> ws).

(** The handles of blocks that are written from the offset [off] on, and the
    entries of the index. *)
Fixpoint handles (off : nat) (ws : list WrittenBlock) : list BlockHandle :=
  match ws with
  | [] => []
  | w :: ws => mkBlockHandle (Z.of_nat off) (Z.of_nat (wb_size w)) ::
               handles (off + length (wb_image w)) ws
  end.

Definition index_entries (ws : list WrittenBlock) (seps : list (list Z)) : entries :=
  zip_with (λ s h, (s, BlockHandle_EncodeTo [] h)) seps (handles 0 ws).

Lemma length_handles off ws : length (handles off ws) = length ws.
Proof. revert off. induction ws as [|w ws IH]; intros off; simpl; [done|]. by rewrite IH. Qed.

Lemma handles_lookup off ws i :
  handles off ws !! i =
    (λ w, mkBlockHandle (Z.of_nat (off + length (images (take i ws)))) (Z.of_nat (wb_size w))) <$> ws !! i.
Proof.
  revert off i. induction ws as [|w ws IH]; intros off [|i]; [done..| |].
  - simpl. by rewrite Nat.add_0_r.
  - cbn [handles lookup list_lookup take]. rewrite IH. unfold images. cbn [fmap list_fmap concat].
    destruct (ws !! i); [|done]. cbn. do 3 f_equal. rewrite length_app. lia.
Qed.

Lemma handles_app off ws ws' :
  handles off (ws ++ ws') = handles off ws ++ handles (off + length (images ws)) ws'.
Proof.
  revert off. induction ws as [|w ws IH]; intros off; simpl; [by rewrite Nat.add_0_r|].
  rewrite IH. change (images (w :: ws)) with (wb_image w ++ images ws). rewrite length_app.
  by rewrite Nat.add_assoc.
Qed.

Lemma images_app ws ws' : images (ws ++ ws') = images ws ++ images ws'.
Proof. unfold images. by rewrite fmap_app, concat_app. Qed.

Lemma blocks_app ws ws' : blocks (ws ++ ws') = blocks ws ++ blocks ws'.
Proof. unfold blocks. by rewrite fmap_app, concat_app. Qed.

Lemma images_single w : images [w] = wb_image w.
Proof. unfold images. simpl. apply app_nil_r. Qed.

Lemma blocks_single w : blocks [w] = wb_entries w.
Proof. unfold blocks. simpl. apply app_nil_r. Qed.

(** One more separator, for the last block. *)
Lemma index_entries_snoc ws w seps s :
  length seps = length ws →
  index_entries (ws ++ [w]) (seps ++ [s]) = index_entries ws seps ++
    [(s, BlockHandle_EncodeTo [] (mkBlockHandle (Z.of_nat (length (images ws))) (Z.of_nat (wb_size w))))].
Proof.
  intros Hl. unfold index_entries. rewrite handles_app, zip_with_app by (by rewrite length_handles). done.
Qed.

(** A further block without a separator does not change the index. *)
Lemma index_entries_pending ws w seps :
  length seps = length ws → index_entries (ws ++ [w]) seps = index_entries ws seps.
Proof.
  intros Hl. unfold index_entries. rewrite handles_app. rewrite <-(app_nil_r seps) at 1.
  rewrite zip_with_app by (by rewrite length_handles). by rewrite app_nil_r.
Qed.

Lemma ok_StatusOK st : ok st = true → st = StatusOK.
Proof. by destruct st. Qed.

Section building.
Context `{Snappy} {F : Type} (Append : list Z → SM F) (content : F → list Z).
Context `{!WritableFile Append content} (contents_at trailer_at : Z).
Context (Hcat : 0 <= contents_at) (Htat : 0 <= trailer_at).

Implicit Types r : TableBuilder F.

(** A block that was written: the builder differs in its file. *)
Lemma WriteRawBlock_ok s type r handle r' :
  WriteRawBlock Append contents_at trailer_at s type r = (handle, r') → tb_ok r' = true →
  Forall is_byte s →
  ∃ f, handle = mkBlockHandle (tb_offset r) (Z.of_nat (length s)) ∧
    r' = set_file f (u64 (tb_offset r + (Z.of_nat (length s) + kBlockTrailerSize))) StatusOK r ∧
    content f = content (tb_file r) ++
      s ++ type_byte type :: EncodeFixed32 (Mask (crc32c (s ++ [type_byte type]))).
Proof.
  intros E Hok Hs. unfold WriteRawBlock in E. cbv zeta in E.
  destruct (Append s (tb_file r)) as [st1 f1] eqn:E1. destruct (ok st1) eqn:Hst1; cbn [negb] in E.
  2: { injection E as <- <-. unfold tb_ok in Hok. cbn in Hok. congruence. }
  destruct (Append _ f1) as [st2 f2] eqn:E2. injection E as <- <-. unfold tb_ok in Hok. cbn in Hok.
  rewrite Hok. apply ok_StatusOK in Hok as ->. apply ok_StatusOK in Hst1 as ->.
  apply append_content in E1, E2. exists f2. split_and!; [done..|].
  rewrite E2, E1, <-app_assoc. do 4 f_equal.
  rewrite Extend_Value; [done..|]. repeat constructor. apply type_byte_byte.
  all: destruct type; simpl; lia.
Qed.

Lemma WriteBlock_ok interval l r handle block r' :
  Forall entry_fits l → Forall entry_bytes l →
  Z.of_nat (length (block_contents interval l)) < 2 ^ 32 →
  WriteBlock Append contents_at trailer_at (add_all l (newBlockBuilder interval)) r =
    (handle, block, r') → tb_ok r' = true →
  block = newBlockBuilder interval ∧
  ∃ n image f, stored (block_contents interval l) n image ∧
    (n <= length (block_contents interval l))%nat ∧
    handle = mkBlockHandle (tb_offset r) (Z.of_nat n) ∧
    r' = set_file f (u64 (tb_offset r + Z.of_nat (length image))) StatusOK r ∧
    content f = content (tb_file r) ++ image.
Proof.
  intros Hfits Hbytes Hsize E Hok. unfold WriteBlock in E.
  destruct (BlockBuilder_written interval l Hfits Hsize) as (b&Eb&Hreset). rewrite Eb in E.
  assert (Forall is_byte (block_contents interval l)) as Hraw
    by (by apply block_contents_bytes).
  set (raw := block_contents interval l) in *.
  destruct (match compression (tb_options r) with kNoCompression => _ | _ => _ end) as [s type] eqn:Es.
  assert (Forall is_byte s ∧ (length s <= length raw)%nat ∧
    match type with
    | kNoCompression => s = raw
    | kSnappyCompression => Snappy_GetUncompressedLength s = Some (Z.of_nat (length raw)) ∧
        Snappy_Uncompress s = Some raw
    end) as (Hs&Hn&Htype).
  { destruct (compression (tb_options r)); [by injection Es as <- <-|].
    destruct (Snappy_Compress raw) as [c|] eqn:Ec; [|by injection Es as <- <-].
    destruct (Nat.ltb_spec (length c) (length raw - length raw / 8)); injection Es as <- <-; [|done].
    destruct (snappy_round_trip raw c Hraw Ec) as (?&?&?). split_and!; [done|lia|done..]. }
  destruct (WriteRawBlock _ _ _ s type r) as [h1 r1] eqn:E1. injection E as <- <- <-.
  destruct (WriteRawBlock_ok s type r h1 r1 E1 Hok Hs) as (f&->&->&Hf).
  split; [done|]. set (image := s ++ _) in Hf. exists (length s), image, f.
  assert (stored raw (length s) image) as Hst by (by exists s, type).
  split_and!; [done..| |done]. rewrite (length_stored _ _ _ Hst). unfold kBlockTrailerSize.
  by rewrite Nat2Z.inj_add.
Qed.

(** ** The state of the builder *)

Context (options : Options).
Abbreviation interval := (block_restart_interval options).

(** A block of the file. *)
Record block_written (w : WrittenBlock) : Prop := {
  bw_nonempty : wb_entries w ≠ [];
  bw_fits : Forall entry_fits (wb_entries w);
  bw_length : Z.of_nat (length (block_contents interval (wb_entries w))) < 2 ^ 32;
  bw_stored : stored (block_contents interval (wb_entries w)) (wb_size w) (wb_image w);
  bw_size : (wb_size w <= length (block_contents interval (wb_entries w)))%nat }.

(** The room that keys take in the index at most. *)
Definition key_size (l : entries) : Z := foldr (λ e n, Z.of_nat (length e.1) + 39 + n) 0 l.

(** Each separator is below the bound, not below the keys of its block and the
    blocks before it, and below the keys after it. *)
Definition seps_ok (ws : list WrittenBlock) (seps : list (list Z)) (cur : entries)
    (bound : list Z) : Prop :=
  ∀ i s, seps !! i = Some s →
    bytes_ltb s bound = true ∧ Forall is_byte s ∧
    (∀ e, e ∈ blocks (take (S i) ws) → bytes_ltb s e.1 = false) ∧
    (∀ e, e ∈ blocks (drop (S i) ws) ++ cur → bytes_ltb s e.1 = true).

(** The blocks [ws] are in the file, those but the last, if its entry is pending,
    with their separators [seps] in the index block; [cur] is in the data block. *)
Record built (ws : list WrittenBlock) (seps : list (list Z)) (cur : entries) (bound : list Z)
    (pending : bool) r : Prop := {
  bu_ok : tb_ok r = true;
  bu_options : tb_options r = options;
  bu_file : content (tb_file r) = images ws;
  bu_offset : tb_offset r = Z.of_nat (length (images ws));
  bu_data : tb_data_block r = add_all cur (newBlockBuilder interval);
  bu_index : tb_index_block r = add_all (index_entries ws seps) (newBlockBuilder 1);
  bu_pending : tb_pending_index_entry r = pending;
  bu_length : length ws = if pending then S (length seps) else length seps;
  bu_handle : pending = true → cur = [] ∧ ∃ ws' w, ws = ws' ++ [w] ∧
    tb_pending_handle r =
      mkBlockHandle (Z.of_nat (length (images ws'))) (Z.of_nat (wb_size w));
  bu_blocks : Forall block_written ws;
  bu_fits : Forall entry_fits cur;
  bu_bytes : Forall entry_bytes (blocks ws ++ cur);
  bu_cur : Z.of_nat (length (block_contents interval cur)) < 2 ^ 32;
  bu_cost : footprint (index_entries ws seps) <= key_size (blocks (take (length seps) ws)) + 8;
  bu_seps : seps_ok ws seps cur bound;
  bu_small : key_size (blocks ws ++ cur) + 8 < 2 ^ 32 }.

Lemma key_size_app l1 l2 : key_size (l1 ++ l2) = key_size l1 + key_size l2.
Proof. induction l1 as [|e l IH]; simpl; lia. Qed.

Lemma key_size_length l : 39 * Z.of_nat (length l) <= key_size l.
Proof. induction l as [|e l IH]; simpl; lia. Qed.

Lemma images_bound ws :
  Forall block_written ws →
  Z.of_nat (length ws) <= Z.of_nat (length (blocks ws)) ∧
  Z.of_nat (length (images ws)) <= Z.of_nat (length ws) * (2 ^ 32 + 5).
Proof.
  induction 1 as [|w ws [Hne _ Hlen Hst Hsz] _ [IH1 IH2]]; [done|].
  change (images (w :: ws)) with (wb_image w ++ images ws).
  change (blocks (w :: ws)) with (wb_entries w ++ blocks ws).
  rewrite !length_app, (length_stored _ _ _ Hst). cbn [length].
  destruct (wb_entries w); [done|]. cbn [length]. lia.
Qed.

Lemma built_offset ws seps cur bound pending r :
  built ws seps cur bound pending r → 0 <= tb_offset r < 2 ^ 62.
Proof.
  intros B. rewrite (bu_offset _ _ _ _ _ _ B).
  destruct (images_bound ws (bu_blocks _ _ _ _ _ _ B)) as [H1 H2].
  pose proof (bu_small _ _ _ _ _ _ B) as Hs. pose proof (key_size_length (blocks ws ++ cur)) as Hk.
  rewrite length_app in Hk. nia.
Qed.

(** [Flush] writes the data block, if it has an entry. *)
Lemma Flush_built ws seps cur bound pending r :
  built ws seps cur bound pending r → tb_ok (Flush Append contents_at trailer_at r) = true →
  let r' := Flush Append contents_at trailer_at r in
  tb_last_key r' = tb_last_key r ∧ tb_num_entries r' = tb_num_entries r ∧ tb_closed r' = tb_closed r ∧
  (cur = [] ∧ r' = r ∨
   ∃ w, wb_entries w = cur ∧ cur ≠ [] ∧ built (ws ++ [w]) seps [] bound true r').
Proof.
  intros B. unfold Flush. pose proof B as [Hok Hop Hfile Hoff Hdata Hidx Hpend Hlen Hh Hbl Hfits Hbytes Hcur Hcost Hseps Hsmall].
  rewrite Hok, Hdata, bb_empty_contents by done. cbn [negb].
  destruct (bool_decide_reflect (cur = [])) as [Hnil|Hne]; [intros _; cbv zeta; split_and!; [done..|by left]|].
  destruct (WriteBlock _ _ _ _ r) as [[h b] r1] eqn:E. cbv zeta.
  intros Hok'. assert (tb_ok r1 = true) as Hok1 by exact Hok'. clear Hok'.
  change (tb_ok (set_data_block b (tb_last_key r1) (tb_num_entries r1) r1)) with (tb_ok r1).
  rewrite Hok1. rewrite Forall_app in Hbytes. destruct Hbytes as [Hbb Hbc].
  destruct (WriteBlock_ok interval cur r h b r1 Hfits Hbc Hcur E Hok1)
    as (->&n&im&f&Hst&Hn&->&->&Hf).
  split_and!; [done..|]. right. set (w := mkWritten cur n im). exists w. split; [done|]. split; [done|].
  assert (pending = false) as -> by (destruct pending; [by destruct (Hh eq_refl)|done]).
  pose proof (built_offset _ _ _ _ _ _ B) as Hoffb.
  assert (block_written w) as Hw by (by split).
  pose proof (length_stored _ _ _ Hst) as Him.
  split; cbn [tb_ok tb_status tb_options tb_file tb_offset tb_data_block tb_index_block
    tb_pending_index_entry tb_pending_handle set_pending set_data_block set_file]; try done.
  - by rewrite Hf, Hfile, images_app, images_single.
  - rewrite images_app, images_single, length_app, Hoff in *. cbn [wb_image w].
    rewrite u64_small by (unfold is_u64; lia). lia.
  - rewrite index_entries_pending by done. done.
  - rewrite length_app. cbn [length]. lia.
  - intros _. split; [done|]. exists ws, w. by rewrite Hoff.
  - apply Forall_app. split; [done|]. by apply Forall_singleton.
  - rewrite app_nil_r, blocks_app, Forall_app. by rewrite blocks_single.
  - rewrite index_entries_pending, <-Hlen, take_app_length by done. rewrite <-Hlen, firstn_all in Hcost. done.
  - intros i s Hi. destruct (Hseps i s Hi) as (?&?&Hbefore&Hafter). pose proof (lookup_lt_Some _ _ _ Hi).
    split_and!; [done..| |].
    + rewrite take_app_le by lia. done.
    + rewrite app_nil_r, drop_app_le, blocks_app, blocks_single by lia. done.
  - by rewrite app_nil_r, blocks_app, blocks_single.
Qed.

Lemma add_all_snoc l k v b : add_all (l ++ [(k, v)]) b = BlockBuilder_Add k v (add_all l b).
Proof. unfold add_all. by rewrite foldl_app. Qed.

(** The pending entry goes into the index with a separator. *)
Lemma add_index_entry_built ws seps bound s bound' r :
  built ws seps [] bound true r →
  bytes_ltb s bound' = true → Forall is_byte s →
  (∀ e, e ∈ blocks ws → bytes_ltb s e.1 = false) →
  (∀ s', s' ∈ seps → bytes_ltb s' bound' = true) →
  (∃ e, last (blocks ws) = Some e ∧ (length s <= length e.1)%nat) →
  built ws (seps ++ [s]) [] bound' false (add_index_entry s r).
Proof.
  intros B Hs Hsb Hbefore Hbound (e&He&Hlen).
  pose proof B as [Hok Hop Hfile Hoff Hdata Hidx Hpend Hl Hh Hbl Hfits Hbytes Hcur Hcost Hseps Hsmall].
  destruct (Hh eq_refl) as (_&ws'&w&->&Hhandle).
  rewrite length_app in Hl. cbn [length] in Hl. assert (length seps = length ws') as Hl' by lia.
  split; try done.
  - cbn [add_index_entry tb_index_block set_index_block]. rewrite Hidx, Hhandle.
    by rewrite index_entries_snoc, index_entries_pending, add_all_snoc by done.
  - rewrite !length_app. cbn [length]. lia.
  - rewrite index_entries_snoc by done. rewrite index_entries_pending in Hcost by done.
    rewrite length_app. cbn [length]. rewrite Hl', Nat.add_1_r in *.
    replace (S (length ws')) with (length (ws' ++ [w])) by (rewrite length_app; cbn [length]; lia).
    rewrite firstn_all, footprint_app. rewrite take_app_length in Hcost.
    rewrite blocks_app, blocks_single, key_size_app. cbn [footprint foldr fst snd].
    pose proof (length_BlockHandle_EncodeTo (mkBlockHandle (Z.of_nat (length (images ws'))) (Z.of_nat (wb_size w)))).
    assert (Z.of_nat (length e.1) + 39 <= key_size (wb_entries w)).
    { rewrite blocks_app, blocks_single in He. apply Forall_app in Hbl as [_ [[Hne _ _ _ _] _]%Forall_cons].
      destruct (exists_last Hne) as (l0&e0&E0). rewrite E0 in *. rewrite app_assoc, last_snoc in He.
      injection He as ->. rewrite key_size_app. simpl. pose proof (key_size_length l0). lia. }
    lia.
  - intros i s' Hi. rewrite lookup_app in Hi. destruct (seps !! i) as [s0|] eqn:E.
    + injection Hi as ->. destruct (Hseps i s' E) as (_&?&?&?). split_and!; [|done..].
      apply Hbound. by eapply list_elem_of_lookup_2.
    + apply list_lookup_singleton_Some in Hi as [Hi0 <-]. apply lookup_ge_None in E.
      split_and!; [done..| |].
      * rewrite take_ge by (rewrite length_app; cbn [length]; lia). done.
      * rewrite drop_ge by (rewrite length_app; cbn [length]; lia). cbn. intros e' He'.
        by apply not_elem_of_nil in He'.
Qed.

(** An entry goes into the data block. *)
Lemma data_add_built ws seps cur k v n r :
  built ws seps cur k false r →
  entry_fits (k, v) → entry_bytes (k, v) →
  Z.of_nat (length (block_contents interval (cur ++ [(k, v)]))) < 2 ^ 32 →
  key_size (blocks ws ++ cur ++ [(k, v)]) + 8 < 2 ^ 32 →
  built ws seps (cur ++ [(k, v)]) k false
    (set_data_block (BlockBuilder_Add k v (tb_data_block r)) k n r).
Proof.
  intros B Hf Hb Hc Hk.
  pose proof B as [Hok Hop Hfile Hoff Hdata Hidx Hpend Hl Hh Hbl Hfits Hbytes Hcur Hcost Hseps Hsmall].
  split; try done.
  - cbn [tb_data_block set_data_block]. by rewrite Hdata, add_all_snoc.
  - apply Forall_app. split; [done|]. by apply Forall_singleton.
  - rewrite app_assoc. apply Forall_app. split; [done|]. by apply Forall_singleton.
  - intros i s Hi. destruct (Hseps i s Hi) as (?&?&?&Hafter). split_and!; [done..|].
    intros e. rewrite app_assoc, elem_of_app, list_elem_of_singleton. intros [?| ->]; [auto|done].
Qed.

(** Between two calls, with the entries [l] added. *)
Definition added (l : entries) r : Prop :=
  ∃ ws seps cur pending,
    built ws seps cur (tb_last_key r) pending r ∧ blocks ws ++ cur = l ∧
    tb_last_key r = default [] (fst <$> last l) ∧ tb_num_entries r = Z.of_nat (length l) ∧
    tb_closed r = false ∧
    (cur = [] ∨ Z.of_nat (length (block_contents interval cur)) < block_size options).

Lemma Flush_ok r : tb_ok (Flush Append contents_at trailer_at r) = true → tb_ok r = true.
Proof. unfold Flush. destruct (tb_ok r) eqn:E; [done|]. cbn [negb]. congruence. Qed.

Lemma Flush_added l r :
  added l r → tb_ok (Flush Append contents_at trailer_at r) = true →
  added l (Flush Append contents_at trailer_at r).
Proof.
  intros (ws&seps&cur&pending&B&Hl&Hlast&Hnum&Hcl&Hcur) Hok.
  destruct (Flush_built _ _ _ _ _ _ B Hok) as (El&En&Ec&[[Hnil Hr]|(w&Hw&_&B')]).
  - rewrite Hr. by exists ws, seps, cur, pending.
  - exists (ws ++ [w]), seps, [], true. rewrite El, En, Ec. split_and!; try done; [|by left].
    by rewrite blocks_app, blocks_single, Hw, app_nil_r.
Qed.

Lemma last_key_below (l : entries) k :
  (∀ e, e ∈ l → bytes_ltb e.1 k = true) → l ≠ [] → bytes_ltb (default [] (fst <$> last l)) k = true.
Proof.
  intros Hl Hne. destruct (last l) as [e|] eqn:E; [|by apply last_None in E].
  apply Hl. apply last_Some in E as [l' ->]. apply elem_of_app. right. by left.
Qed.

(** The pending entry, if any, goes into the index before the key [k]. *)
Lemma index_built ws seps cur pending l k r :
  built ws seps cur (tb_last_key r) pending r → blocks ws ++ cur = l → sorted_keys l →
  tb_last_key r = default [] (fst <$> last l) → (∀ e, e ∈ l → bytes_ltb e.1 k = true) →
  Forall is_byte k →
  ∃ seps', built ws seps' cur k false
    (if tb_pending_index_entry r
     then add_index_entry (FindShortestSeparator (tb_last_key r) k) r else r).
Proof.
  intros B Hl Hsorted Hlast Hk Hkb. rewrite (bu_pending _ _ _ _ _ _ B).
  assert (∀ s', s' ∈ seps → bytes_ltb s' k = true) as Hbound.
  { intros s' [i Hi]%list_elem_of_lookup. destruct (bu_seps _ _ _ _ _ _ B i s' Hi) as (Hs'&_).
    eapply bytes_ltb_trans; [exact Hs'|]. rewrite Hlast. apply last_key_below; [done|]. intros ->.
    apply app_nil in Hl as [Hb _]. apply lookup_lt_Some in Hi.
    pose proof (bu_length _ _ _ _ _ _ B) as Hlen. destruct ws as [|w ws]; [destruct pending; simpl in Hlen; lia|].
    pose proof (bu_blocks _ _ _ _ _ _ B) as [[Hne _ _ _ _] _]%Forall_cons.
    change (blocks (w :: ws)) with (wb_entries w ++ blocks ws) in Hb. by apply app_nil in Hb as [? _]. }
  destruct pending.
  - destruct (bu_handle _ _ _ _ _ _ B eq_refl) as (->&ws'&w&Hws&_). rewrite app_nil_r in Hl.
    pose proof (bu_blocks _ _ _ _ _ _ B) as Hbl. pose proof (bu_bytes _ _ _ _ _ _ B) as Hbytes.
    assert (l ≠ []) as Hne.
    { rewrite <-Hl, Hws, blocks_app, blocks_single. rewrite Hws in Hbl.
      apply Forall_app in Hbl as [_ [[Hne _ _ _ _] _]%Forall_cons]. intros [_ ?]%app_nil. done. }
    destruct (exists_last Hne) as (l0&e&El).
    assert (tb_last_key r = e.1) as Elast by (by rewrite Hlast, El, last_snoc).
    assert (entry_bytes e) as [Heb _].
    { rewrite app_nil_r, Hl, El in Hbytes. by apply Forall_app in Hbytes as [_ [? _]%Forall_cons]. }
    destruct (FindShortestSeparator_spec (tb_last_key r) k) as (Hs1&Hs2&Hs3&Hs4); [by rewrite Elast|done|..].
    { rewrite Hlast. by apply last_key_below. }
    exists (seps ++ [FindShortestSeparator (tb_last_key r) k]).
    eapply add_index_entry_built; try done.
    + intros e' He'. rewrite Hl in He'. unfold sorted_keys in Hsorted. rewrite El in He', Hsorted.
      apply elem_of_app in He' as [He'|He'%list_elem_of_singleton].
      * assert (bytes_ltb e'.1 e.1 = true) as Hee.
        { apply (StronglySorted_app_1_elem_of _ _ _ e' e Hsorted He'). by left. }
        destruct (bytes_ltb (FindShortestSeparator (tb_last_key r) k) e'.1) eqn:Ec; [|done].
        rewrite Elast in Hs1, Ec. by rewrite (bytes_ltb_trans _ _ _ Ec Hee) in Hs1.
      * subst e'. by rewrite Elast in Hs1 |- *.
    + exists e. rewrite Hl, El, last_snoc. split; [done|]. by rewrite Elast in Hs3 |- *.
  - exists seps. destruct B as [Hok Hop Hfile Hoff Hdata Hidx Hpend Hlen Hh Hbl Hfits Hbytes Hcur Hcost Hseps Hsmall].
    split; try done. intros i s Hi. destruct (Hseps i s Hi) as (_&?&?&?). split_and!; [|done..].
    apply Hbound. by eapply list_elem_of_lookup_2.
Qed.

Lemma Add_added l k v r :
  added l r → sorted_keys (l ++ [(k, v)]) → entry_bytes (k, v) →
  0 <= block_size options →
  block_size options + Z.of_nat (length k) + Z.of_nat (length v) + 31 < 2 ^ 32 →
  key_size (l ++ [(k, v)]) + 8 < 2 ^ 32 →
  tb_ok (TableBuilder_Add Append contents_at trailer_at k v r) = true →
  added (l ++ [(k, v)]) (TableBuilder_Add Append contents_at trailer_at k v r).
Proof.
  intros Hadd Hsorted Hbytes Hbs Hfit Hkey. unfold TableBuilder_Add.
  pose proof Hadd as (ws0&seps0&cur0&p0&B0&_). rewrite (bu_ok _ _ _ _ _ _ B0). cbn [negb]. cbv zeta.
  set (r1 := if (_ && _) then Flush Append contents_at trailer_at r else r).
  set (r2 := if tb_pending_index_entry r1 then add_index_entry (FindShortestSeparator (tb_last_key r1) k) r1 else r1).
  set (r3 := set_data_block (BlockBuilder_Add k v (tb_data_block r2)) k (tb_num_entries r2 + 1) r2).
  intros Hok. assert (tb_ok r3 = true) as Hok3 by (destruct (_ <=? _) in Hok; [by apply Flush_ok|done]).
  assert (tb_ok r1 = true) as Hok1.
  { assert (tb_ok r3 = tb_ok r1) as E; [|by rewrite <-E].
    unfold r3, r2. by destruct (tb_pending_index_entry r1). }
  assert (added l r1) as Hadd1.
  { unfold r1 in Hok1 |- *. destruct (_ && _); [by apply Flush_added|done]. }
  clear Hadd B0. destruct Hadd1 as (ws&seps&cur&pending&B&Hl&Hlast&Hnum&Hcl&Hcur).
  assert (sorted_keys l) as Hsl by (by apply StronglySorted_app_1_l in Hsorted).
  assert (∀ e, e ∈ l → bytes_ltb e.1 k = true) as Hbelow.
  { intros e He. apply (StronglySorted_app_1_elem_of _ _ _ e (k, v) Hsorted He). by left. }
  destruct (index_built ws seps cur pending l k r1 B Hl Hsl Hlast Hbelow) as (seps'&B2); [apply Hbytes|].
  fold r2 in B2.
  assert (tb_num_entries r2 = Z.of_nat (length l) ∧ tb_closed r2 = false) as [Hn2 Hc2].
  { unfold r2. by destruct (tb_pending_index_entry r1). }
  pose proof (block_contents_snoc interval cur k v) as Hsnoc.
  assert (Z.of_nat (length (block_contents interval (cur ++ [(k, v)]))) < 2 ^ 32) as Hsize.
  { destruct Hcur as [->|Hcur]; [|lia].
    change (length (block_contents interval [])) with 8%nat in Hsnoc. lia. }
  assert (built ws seps' (cur ++ [(k, v)]) k false r3) as B3.
  { apply data_add_built; [done| |done|done|by rewrite app_assoc, Hl].
    unfold entry_fits. cbn [fst snd]. lia. }
  destruct (Z.leb_spec (block_size (tb_options r3)) (CurrentSizeEstimate (tb_data_block r3))) as [Hle|Hlt].
  - destruct (Flush_built _ _ _ _ _ _ B3 Hok) as (El&En&Ec&[[Hnil _]|(w&Hw&_&B')]).
    { apply app_nil in Hnil as [_ ?]. done. }
    exists (ws ++ [w]), seps', [], true. rewrite El, En, Ec.
    change (tb_last_key r3) with k. split_and!; try done; [..|by left].
    + by rewrite blocks_app, blocks_single, Hw, app_nil_r, app_assoc, Hl.
    + by rewrite last_snoc.
    + change (tb_num_entries r3) with (tb_num_entries r2 + 1). rewrite Hn2, length_app. simpl. lia.
  - exists ws, seps', (cur ++ [(k, v)]), false. change (tb_last_key r3) with k.
    split_and!; try done.
    + by rewrite app_assoc, Hl.
    + by rewrite last_snoc.
    + change (tb_num_entries r3) with (tb_num_entries r2 + 1). rewrite Hn2, length_app. simpl. lia.
    + right. rewrite (bu_data _ _ _ _ _ _ B3), (bu_options _ _ _ _ _ _ B3) in Hlt.
      rewrite CurrentSizeEstimate_contents in Hlt; [done|apply (bu_fits _ _ _ _ _ _ B3)|done].
Qed.

Definition table_add_all (l : entries) r : TableBuilder F :=
  foldl (λ r e, TableBuilder_Add Append contents_at trailer_at e.1 e.2 r) r l.

Lemma Add_ok k v r :
  tb_ok (TableBuilder_Add Append contents_at trailer_at k v r) = true → tb_ok r = true.
Proof. unfold TableBuilder_Add. destruct (tb_ok r) eqn:E; [done|]. cbn [negb]. congruence. Qed.

Lemma table_add_all_ok l r : tb_ok (table_add_all l r) = true → tb_ok r = true.
Proof.
  revert r. induction l as [|[k v] l IH]; intros r; [done|]. cbn [table_add_all foldl].
  intros Hok%IH. by apply Add_ok in Hok.
Qed.

(** The sizes for which 32-bit offsets are enough: the entries beside a block, and
    the keys of the whole table. *)
Record table_fits (l : entries) : Prop := {
  tf_block_size : 0 <= block_size options;
  tf_blocks : Forall (λ e : list Z * list Z, block_size options + Z.of_nat (length e.1) +
    Z.of_nat (length e.2) + 31 < 2 ^ 32) l;
  tf_index : key_size l + 8 < 2 ^ 32 }.

Lemma table_fits_app l1 l2 : table_fits (l1 ++ l2) → table_fits l1.
Proof.
  intros [? Hb Hi]. apply Forall_app in Hb as [? _]. rewrite key_size_app in Hi.
  pose proof (key_size_length l2). split; [done..|lia].
Qed.

Lemma new_added f : content f = [] → added [] (newTableBuilder options f).
Proof.
  intros Hf. exists [], [], [], false. split_and!; try done. by left.
Qed.

Lemma table_add_all_added l r0 l0 :
  added l0 r0 → sorted_keys (l0 ++ l) → Forall entry_bytes l → table_fits (l0 ++ l) →
  tb_ok (table_add_all l r0) = true → added (l0 ++ l) (table_add_all l r0).
Proof.
  revert l0 r0. induction l as [|[k v] l IH]; intros l0 r0 Hadd Hsorted Hbytes Hfits.
  { by rewrite app_nil_r. }
  cbn [table_add_all foldl fst snd]. set (r1 := TableBuilder_Add _ _ _ k v r0). intros Hok.
  apply Forall_cons in Hbytes as [Hkv Hbytes].
  replace (l0 ++ (k, v) :: l) with ((l0 ++ [(k, v)]) ++ l) in * by (by rewrite <-app_assoc).
  assert (table_fits (l0 ++ [(k, v)])) as [Hbs Hbl Hidx] by (by eapply table_fits_app).
  apply Forall_app in Hbl as [_ [Hbl _]%Forall_cons].
  assert (sorted_keys (l0 ++ [(k, v)])) by (by apply StronglySorted_app_1_l in Hsorted).
  apply IH; try done. apply Add_added; try done. by apply table_add_all_ok in Hok.
Qed.

(** ** The finished file *)

(** What the file of a finished table holds. *)
Record finished (l : entries) (file : list Z) (ws : list WrittenBlock) (seps : list (list Z))
    (metaindex index : BlockHandle) : Prop := {
  fi_blocks : blocks ws = l;
  fi_written : Forall block_written ws;
  fi_length : length seps = length ws;
  fi_seps : ∃ bound, seps_ok ws seps [] bound;
  fi_fits : footprint (index_entries ws seps) < 2 ^ 32;
  fi_file : ∃ im n im' n',
    file = images ws ++ im ++ im' ++ Footer_EncodeTo [] (mkFooter metaindex index) ∧
    stored (block_contents interval []) n im ∧
    stored (block_contents 1 (index_entries ws seps)) n' im' ∧
    metaindex = mkBlockHandle (Z.of_nat (length (images ws))) (Z.of_nat n) ∧
    index = mkBlockHandle (Z.of_nat (length (images ws ++ im))) (Z.of_nat n');
  fi_size : Z.of_nat (length file) < 2 ^ 63 }.

Lemma bytes_ltb_snoc s : bytes_ltb s (s ++ [0]) = true.
Proof. induction s as [|x s IH]; [done|]. simpl. by rewrite Z.eqb_refl, IH, orb_true_r. Qed.

(** Before the index block is written, the last entry goes into it. *)
Lemma finish_index l r :
  added l r → sorted_keys l → tb_ok (Flush Append contents_at trailer_at r) = true →
  let r1 := Flush Append contents_at trailer_at r in
  ∃ ws seps bound, blocks ws = l ∧ tb_num_entries r1 = Z.of_nat (length l) ∧
    built ws seps [] bound false
      (if tb_pending_index_entry r1 then add_index_entry (FindShortSuccessor (tb_last_key r1)) r1 else r1).
Proof.
  intros Hadd Hsorted Hok r1. pose proof (Flush_added l r Hadd Hok) as Hadd1.
  assert (∃ ws seps pending, built ws seps [] (tb_last_key r1) pending r1 ∧ blocks ws = l)
    as (ws&seps&pending&B&Hl).
  { destruct Hadd as (ws&seps&cur&p&B&Hl&Hlast&Hnum&Hcl&Hcur).
    destruct (Flush_built _ _ _ _ _ _ B Hok) as (El&En&Ec&[[-> Hr]|(w&Hw&_&B')]).
    - unfold r1. rewrite Hr. rewrite app_nil_r in Hl. by exists ws, seps, p.
    - exists (ws ++ [w]), seps, true. unfold r1. rewrite El.
      by rewrite blocks_app, blocks_single, Hw. }
  destruct Hadd1 as (_&_&_&_&_&_&Hlast&Hnum&_&_). fold r1 in Hlast, Hnum.
  exists ws. rewrite (bu_pending _ _ _ _ _ _ B). destruct pending; [|by exists seps, (tb_last_key r1)].
  destruct (bu_handle _ _ _ _ _ _ B eq_refl) as (_&ws'&w&Hws&_).
  pose proof (bu_blocks _ _ _ _ _ _ B) as Hbl. pose proof (bu_bytes _ _ _ _ _ _ B) as Hbytes.
  assert (l ≠ []) as Hne.
  { rewrite <-Hl, Hws, blocks_app, blocks_single. rewrite Hws in Hbl.
    apply Forall_app in Hbl as [_ [[Hne _ _ _ _] _]%Forall_cons]. intros [_ ?]%app_nil. done. }
  destruct (exists_last Hne) as (l0&e&El).
  assert (tb_last_key r1 = e.1) as Elast by (by rewrite Hlast, El, last_snoc).
  rewrite app_nil_r, Hl, El in Hbytes. apply Forall_app in Hbytes as [_ [[Heb _] _]%Forall_cons].
  rewrite Elast in *. destruct (FindShortSuccessor_spec e.1 Heb) as (Hs1&Hs2&Hs3).
  set (s := FindShortSuccessor e.1) in *. exists (seps ++ [s]), (s ++ [0]). split_and!; [done..|].
  eapply add_index_entry_built; try done.
  - apply bytes_ltb_snoc.
  - intros e' He'. rewrite Hl in He'. unfold sorted_keys in Hsorted. rewrite El in He', Hsorted.
    apply elem_of_app in He' as [He'| ->%list_elem_of_singleton]; [|done].
    assert (bytes_ltb e'.1 e.1 = true) as Hee.
    { apply (StronglySorted_app_1_elem_of _ _ _ e' e Hsorted He'). by left. }
    destruct (bytes_ltb s e'.1) eqn:Ec; [|done]. by rewrite (bytes_ltb_trans _ _ _ Ec Hee) in Hs1.
  - intros s' [i Hi]%list_elem_of_lookup. destruct (bu_seps _ _ _ _ _ _ B i s' Hi) as (Hs'&_).
    eapply bytes_ltb_trans; [by eapply bytes_ltb_lt_le|apply bytes_ltb_snoc].
  - exists e. rewrite Hl, El, last_snoc. done.
Qed.

Lemma StronglySorted_lookup {A} (R : A → A → Prop) (l : list A) :
  (∀ i j x y, (i < j)%nat → l !! i = Some x → l !! j = Some y → R x y) → StronglySorted R l.
Proof.
  induction l as [|x l IH]; intros Hl; constructor.
  - apply IH. intros i j y z Hij. apply (Hl (S i) (S j)). lia.
  - apply Forall_forall. intros y [j Hj]%list_elem_of_lookup. apply (Hl O (S j)); [lia|done..].
Qed.

Lemma elem_of_blocks e w ws : w ∈ ws → e ∈ wb_entries w → e ∈ blocks ws.
Proof.
  intros Hw He. unfold blocks. apply elem_of_concat. exists (wb_entries w). split; [done|].
  apply list_elem_of_fmap. eauto.
Qed.

Lemma index_lookup ws seps i :
  length seps = length ws →
  index_entries ws seps !! i = s ← seps !! i; w ← ws !! i;
    Some (s, BlockHandle_EncodeTo [] (mkBlockHandle (Z.of_nat (length (images (take i ws))))
                                        (Z.of_nat (wb_size w)))).
Proof.
  intros Hl. unfold index_entries. rewrite lookup_zip_with, handles_lookup.
  destruct (seps !! i); [|done]. cbn. by destruct (ws !! i).
Qed.

(** The separators of the written blocks. *)
Lemma seps_lookup ws seps bound i s w e :
  seps_ok ws seps [] bound → seps !! i = Some s → ws !! i = Some w →
  (e ∈ wb_entries w → bytes_ltb s e.1 = false) ∧
  (∀ j w', (i < j)%nat → ws !! j = Some w' → e ∈ wb_entries w' → bytes_ltb s e.1 = true).
Proof.
  intros Hok Hs Hw. destruct (Hok i s Hs) as (_&_&Hbefore&Hafter). split.
  - intros He. apply Hbefore. apply elem_of_blocks with w; [|done].
    apply list_elem_of_lookup. exists i. apply lookup_take_Some. split; [done|lia].
  - intros j w' Hij Hw' He. apply Hafter. rewrite app_nil_r. apply elem_of_blocks with w'; [|done].
    apply list_elem_of_lookup. exists (j - S i)%nat. rewrite lookup_drop.
    by replace (S i + (j - S i))%nat with j by lia.
Qed.

Lemma index_sorted ws seps bound :
  length seps = length ws → seps_ok ws seps [] bound → Forall block_written ws →
  sorted_keys (index_entries ws seps).
Proof.
  intros Hl Hok Hw. apply StronglySorted_lookup. intros i j x y Hij Hx Hy.
  rewrite index_lookup in Hx, Hy by done.
  destruct (seps !! i) as [s|] eqn:Es; [|done]. destruct (ws !! i) as [w|] eqn:Ew; [|done].
  destruct (seps !! j) as [s'|] eqn:Es'; [|done]. destruct (ws !! j) as [w'|] eqn:Ew'; [|done].
  injection Hx as <-. injection Hy as <-. cbn [fst].
  rewrite Forall_lookup in Hw. destruct (Hw j w' Ew') as [Hne _ _ _ _].
  destruct (wb_entries w') as [|e es] eqn:Ees; [done|].
  assert (e ∈ wb_entries w') as He by (rewrite Ees; left).
  apply bytes_ltb_lt_le with e.1.
  - apply (proj2 (seps_lookup ws seps bound i s w e Hok Es Ew) j w' Hij Ew' He).
  - apply (proj1 (seps_lookup ws seps bound j s' w' e Hok Es' Ew') He).
Qed.

Lemma handle_u64 ws i w :
  Forall block_written ws → Z.of_nat (length (images ws)) < 2 ^ 62 → ws !! i = Some w →
  is_u64 (Z.of_nat (length (images (take i ws)))) ∧ is_u64 (Z.of_nat (wb_size w)).
Proof.
  intros Hbl Hlen Hw. rewrite <-(take_drop i ws), images_app, length_app in Hlen.
  rewrite Forall_lookup in Hbl. destruct (Hbl i w Hw) as [_ _ Hl _ Hsz].
  unfold is_u64. lia.
Qed.

Lemma index_bytes ws seps bound :
  length seps = length ws → seps_ok ws seps [] bound → Forall block_written ws →
  Z.of_nat (length (images ws)) < 2 ^ 62 → Forall entry_bytes (index_entries ws seps).
Proof.
  intros Hl Hok Hbl Hlen. apply Forall_lookup. intros i x Hx. rewrite index_lookup in Hx by done.
  destruct (seps !! i) as [s|] eqn:Es; [|done]. destruct (ws !! i) as [w|] eqn:Ew; [|done].
  injection Hx as <-. destruct (handle_u64 ws i w Hbl Hlen Ew).
  split; [by destruct (Hok i s Es) as (_&?&_)|by apply BlockHandle_bytes].
Qed.

(** A builder with an error stays as it is. *)
Lemma Finish_error r :
  tb_ok r = false →
  TableBuilder_Finish Append contents_at trailer_at r = (tb_status r, set_closed r).
Proof.
  intros Hr. unfold TableBuilder_Finish, Flush. rewrite Hr. cbn [negb]. cbv zeta.
  repeat (change (tb_ok (set_closed r)) with (tb_ok r); rewrite Hr). done.
Qed.

(** [Finish] writes the rest of the file. *)
Lemma Finish_finished l r st r' :
  added l r → sorted_keys l → table_fits l →
  TableBuilder_Finish Append contents_at trailer_at r = (st, r') → ok st = true →
  st = StatusOK ∧ tb_num_entries r' = Z.of_nat (length l) ∧
  tb_offset r' = Z.of_nat (length (content (tb_file r'))) ∧
  ∃ ws seps metaindex index, finished l (content (tb_file r')) ws seps metaindex index.
Proof.
  intros Hadd Hsorted Hfits E Hok. unfold TableBuilder_Finish in E. cbv zeta in E.
  set (r1 := Flush Append contents_at trailer_at r) in E.
  change (tb_ok (set_closed r1)) with (tb_ok r1) in E.
  destruct (tb_ok r1) eqn:Hok1.
  2: { repeat (change (tb_ok (set_closed r1)) with (tb_ok r1) in E; rewrite Hok1 in E).
       injection E as <- <-. unfold tb_ok in Hok1.
       change (tb_status (set_closed r1)) with (tb_status r1) in Hok. congruence. }
  destruct (finish_index l r Hadd Hsorted Hok1) as (ws&seps&bound&Hl&Hnum&B). fold r1 in Hnum, B.
  set (r2 := if tb_pending_index_entry r1 then _ else r1) in B.
  assert (tb_file r2 = tb_file r1 ∧ tb_offset r2 = tb_offset r1 ∧ tb_options r2 = tb_options r1 ∧
    tb_num_entries r2 = tb_num_entries r1) as (Ef&Eo&Eop&En).
  { unfold r2. by destruct (tb_pending_index_entry r1). }
  pose proof (built_offset _ _ _ _ _ _ B) as Hoffb.
  pose proof B as [_ Hop Hfile Hoff _ Hidx _ Hlen _ Hbl _ _ _ Hcost Hseps _].
  assert (footprint (index_entries ws seps) < 2 ^ 32) as Hfp.
  { rewrite <-Hlen, firstn_all, Hl in Hcost. destruct Hfits. lia. }
  assert (Z.of_nat (length (images ws)) < 2 ^ 62) as Himg by lia.
  pose proof (footprint_fits _ Hfp) as Hifits.
  pose proof (index_bytes ws seps bound (eq_sym Hlen) Hseps Hbl Himg) as Hibytes.
  pose proof (block_size_bounds 1 (index_entries ws seps)) as [Hisz Hisz'].
  (* the meta-index block *)
  destruct (WriteBlock _ _ _ _ (set_closed r1)) as [[h3 b3] r3] eqn:E3.
  destruct (tb_ok r3) eqn:Hok3.
  2: { rewrite Hok3 in E. injection E as <- <-. unfold tb_ok in Hok3. congruence. }
  change (tb_options (set_closed r1)) with (tb_options r1) in E3. rewrite <-Eop, Hop in E3.
  destruct (WriteBlock_ok interval [] (set_closed r1) h3 b3 r3) as (_&n&im&f3&Hst&Hn&->&->&Hf3);
    [constructor..|done|done|done|]. clear E3 Hok3.
  change (tb_offset (set_closed r1)) with (tb_offset r1) in *.
  change (tb_file (set_closed r1)) with (tb_file r1) in *.
  rewrite <-Eo, Hoff in E. rewrite <-Ef, Hfile in Hf3.
  pose proof (length_stored _ _ _ Hst) as Him. change (length (block_contents interval [])) with 8%nat in Hn.
  rewrite u64_small in E by (unfold is_u64; lia).
  set (off3 := Z.of_nat (length (images ws)) + Z.of_nat (length im)) in E.
  set (r3 := set_file f3 off3 StatusOK (set_closed r1)) in E.
  (* the index block *)
  set (r4 := if tb_pending_index_entry r3 then add_index_entry _ r3 else r3) in E.
  assert (tb_index_block r4 = tb_index_block r2 ∧ tb_file r4 = f3 ∧ tb_offset r4 = off3 ∧
    tb_num_entries r4 = tb_num_entries r1) as (Hi4&Hf4&Ho4&Hn4).
  { unfold r4, r2, r3. cbn [tb_pending_index_entry set_file set_closed].
    by destruct (tb_pending_index_entry r1). }
  rewrite Hi4, Hidx in E. destruct (WriteBlock _ _ _ _ r4) as [[h5 b5] r5] eqn:E5.
  change (tb_ok (set_index_block b5 (tb_last_key r5) (tb_pending_index_entry r5) r5)) with (tb_ok r5) in E.
  destruct (tb_ok r5) eqn:Hok5.
  2: { injection E as <- <-. unfold tb_ok in Hok5.
       change (tb_status (set_index_block b5 (tb_last_key r5) (tb_pending_index_entry r5) r5))
         with (tb_status r5) in Hok. congruence. }
  destruct (WriteBlock_ok 1 (index_entries ws seps) r4 h5 b5 r5)
    as (_&n'&im'&f5&Hst'&Hn'&->&->&Hf5); [done|done|lia|done|done|]. clear E5 Hok5.
  rewrite Ho4 in E. rewrite Hf4, Hf3 in Hf5. pose proof (length_stored _ _ _ Hst') as Him'.
  rewrite u64_small in E by (unfold is_u64, off3; lia).
  set (r5 := set_index_block _ _ _ _) in E. change (tb_file r5) with f5 in E.
  set (footer := mkFooter _ _) in E. destruct (Append _ f5) as [st6 f6] eqn:E6.
  injection E as <- <-. change (tb_status (set_file f6 ?o st6 r5)) with st6 in Hok.
  rewrite Hok. apply ok_StatusOK in Hok as ->. apply append_content in E6.
  change (tb_file (set_file f6 _ _ r5)) with f6. rewrite Hf5 in E6.
  pose proof (Footer_encoding footer) as (pad&Epad&Hpad&_).
  assert (length (Footer_EncodeTo [] footer) = 48%nat) as H48.
  { rewrite Epad, !length_app in *. rewrite !length_EncodeFixed32. lia. }
  split; [done|]. split; [change (tb_num_entries (set_file f6 _ _ r5)) with (tb_num_entries r4); by rewrite Hn4|].
  assert (length (content f6) = length (images ws) + length im + length im' + 48)%nat as Hlen6.
  { rewrite E6, !length_app. lia. }
  split.
  { change (tb_offset (set_file f6 ?o _ r5)) with o.
    change (tb_offset r5) with (off3 + Z.of_nat (length im')). rewrite H48.
    rewrite u64_small by (unfold is_u64, off3; lia). unfold off3. lia. }
  exists ws, seps, (ft_metaindex_handle footer), (ft_index_handle footer).
  split; [done|done|done|by exists bound|done| |lia].
  exists im, n, im', n'. split_and!; [|done|done|done|].
  - by rewrite E6, <-!app_assoc.
  - unfold footer. cbn [ft_index_handle]. f_equal. unfold off3. rewrite length_app. lia.
Qed.
End building.

(** * Reading a finished table *)

Section opening.
Context `{Snappy} (options : Options) (l : entries) (file : list Z).
Context (ws : list WrittenBlock) (seps : list (list Z)) (metaindex index : BlockHandle).
Context (Hfin : finished options l file ws seps metaindex index) (Hsorted : sorted_keys l).
Context {Read : Z → Z → Status * list Z} `{!RandomAccessFile Read file}.
Context (data_at : Z) (Hat : 0 <= data_at).

Abbreviation idx := (index_entries ws seps).
Abbreviation interval := (block_restart_interval options).

Lemma finished_images :
  Z.of_nat (length (images ws)) < 2 ^ 62 ∧ length idx = length ws.
Proof.
  split; [|unfold index_entries; rewrite length_zip_with, length_handles, (fi_length _ _ _ _ _ _ _ Hfin); lia].
  destruct (images_bound options ws (fi_written _ _ _ _ _ _ _ Hfin)) as [_ Hb].
  pose proof (fi_fits _ _ _ _ _ _ _ Hfin) as Hf.
  assert (Z.of_nat (length ws) <= 2 ^ 32 / 19) as Hw; [|lia].
  assert (19 * Z.of_nat (length idx) <= footprint idx) as Hi.
  { clear. induction idx as [|e es IH]; simpl; [lia|]. lia. }
  assert (length idx = length ws) as E; [|lia].
  unfold index_entries. rewrite length_zip_with, length_handles, (fi_length _ _ _ _ _ _ _ Hfin). lia.
Qed.

(** The block of each handle. *)
Lemma BlockReader_finished i w :
  ws !! i = Some w →
  BlockReader Read data_at (BlockHandle_EncodeTo [] (mkBlockHandle
    (Z.of_nat (length (images (take i ws)))) (Z.of_nat (wb_size w)))) =
  Block_NewIterator (newBlock (block_contents interval (wb_entries w))).
Proof.
  intros Hw. destruct finished_images as [Himg _].
  pose proof (fi_written _ _ _ _ _ _ _ Hfin) as Hbl.
  destruct (handle_u64 options ws i w Hbl Himg Hw) as [Ho Hs].
  unfold BlockReader. rewrite <-(app_nil_r (BlockHandle_EncodeTo [] _)), BlockHandle_round_trip by done.
  cbn [negb ok]. rewrite Forall_lookup in Hbl. destruct (Hbl i w Hw) as [_ _ _ Hst _].
  destruct (fi_file _ _ _ _ _ _ _ Hfin) as (im&n&im'&n'&Ef&_).
  pose proof (fi_size _ _ _ _ _ _ _ Hfin) as Hsz.
  rewrite (ReadBlock_stored data_at Hat (images (take i ws)) _ _ (wb_image w)
    (images (drop (S i) ws) ++ im ++ im' ++ Footer_EncodeTo [] (mkFooter metaindex index)) Hst); [done| |lia].
  rewrite Ef. rewrite <-(take_drop_middle _ _ _ Hw) at 1.
  change (w :: drop (S i) ws) with ([w] ++ drop (S i) ws).
  by rewrite !images_app, images_single, <-!app_assoc.
Qed.

Lemma Table_Open_finished options' :
  Table_Open Read data_at options' (Z.of_nat (length file)) =
    (StatusOK, Some (mkTable options' metaindex (newBlock (block_contents 1 idx)))).
Proof.
  destruct (fi_file _ _ _ _ _ _ _ Hfin) as (im&n&im'&n'&Ef&Hst&Hst'&Em&Ei).
  destruct finished_images as [Himg _]. pose proof (fi_size _ _ _ _ _ _ _ Hfin) as Hsz.
  set (footer := mkFooter metaindex index) in *.
  assert (is_u64 (bh_offset metaindex) ∧ is_u64 (bh_size metaindex) ∧ is_u64 (bh_offset index) ∧
    is_u64 (bh_size index)) as (?&?&?&?).
  { pose proof (length_stored _ _ _ Hst). pose proof (length_stored _ _ _ Hst').
    rewrite Ef, !length_app in Hsz. rewrite Em, Ei. cbn [bh_offset bh_size]. rewrite length_app.
    unfold is_u64. lia. }
  destruct (Footer_round_trip footer) as [H48 Hdec]; [done..|].
  assert (length file = length (images ws ++ im ++ im') + kEncodedLength)%nat as Hlen.
  { rewrite Ef, <-H48, !length_app. lia. }
  unfold Table_Open. rewrite (proj2 (Z.ltb_ge _ _)) by lia.
  rewrite read_all by lia.
  assert (slice (Z.of_nat (length file) - Z.of_nat kEncodedLength) (Z.of_nat kEncodedLength) file =
    Footer_EncodeTo [] footer) as ->.
  { rewrite Ef at 2. rewrite <-H48 at 2.
    replace (images ws ++ im ++ im' ++ Footer_EncodeTo [] footer)
      with ((images ws ++ im ++ im') ++ Footer_EncodeTo [] footer ++ [])
      by (by rewrite app_nil_r, <-!app_assoc).
    apply slice_mid. lia. }
  cbn [ok negb]. rewrite Hdec. cbn [ok negb ft_index_handle footer]. rewrite Ei.
  rewrite (ReadBlock_stored data_at Hat (images ws ++ im) _ _ im' (Footer_EncodeTo [] footer) Hst'); [done| |lia].
  by rewrite Ef, <-!app_assoc.
Qed.

(** The blocks as segments of the two-level iterator. *)
Definition segments : list (list Z * list Z * entries) := zip_with (λ x w, (x, wb_entries w)) idx ws.

Lemma segments_lookup i x b :
  segments !! i = Some (x, b) → ∃ s w, seps !! i = Some s ∧ ws !! i = Some w ∧ b = wb_entries w ∧
    x = (s, BlockHandle_EncodeTo [] (mkBlockHandle (Z.of_nat (length (images (take i ws)))) (Z.of_nat (wb_size w)))).
Proof.
  unfold segments. rewrite lookup_zip_with, index_lookup by apply (fi_length _ _ _ _ _ _ _ Hfin).
  destruct (seps !! i) as [s|]; [|done]. destruct (ws !! i) as [w|]; [|done].
  cbn [mbind option_bind]. intros Hx. apply (inj Some) in Hx. apply pair_eq in Hx as [<- <-]. eauto 10.
Qed.

Lemma segments_index : seg_index segments = idx.
Proof.
  unfold seg_index, segments. destruct finished_images as [_ Hl].
  apply list_eq. intros i. rewrite list_lookup_fmap, lookup_zip_with.
  destruct (idx !! i) as [x|] eqn:E; [|done].
  destruct (lookup_lt_is_Some_2 ws i) as [w ->]; [|done]. apply lookup_lt_Some in E. lia.
Qed.

Lemma segments_entries : seg_entries segments = l.
Proof.
  unfold seg_entries. rewrite <-(fi_blocks _ _ _ _ _ _ _ Hfin). unfold blocks. f_equal.
  unfold segments. destruct finished_images as [_ Hl].
  apply list_eq. intros i. rewrite !list_lookup_fmap, lookup_zip_with.
  destruct (ws !! i) as [w|] eqn:E; [|by destruct (idx !! i)].
  destruct (lookup_lt_is_Some_2 idx i) as [x ->]; [|done]. apply lookup_lt_Some in E. lia.
Qed.

Lemma segments_separated : separated segments.
Proof.
  destruct (fi_seps _ _ _ _ _ _ _ Hfin) as (bound&Hok). split.
  - intros i s h b e (s'&w&Es&Ew&->&[-> _]%pair_eq)%segments_lookup He.
    by apply (seps_lookup ws seps bound i s' w e Hok Es Ew).
  - intros i s h b i' s' h' b' e (s1&w&Es&Ew&->&[-> _]%pair_eq)%segments_lookup Hii'
      (s2&w2&Es2&Ew2&->&_)%segments_lookup He.
    by apply (proj2 (seps_lookup ws seps bound i s1 w e Hok Es Ew) i' w2 Hii' Ew2).
Qed.

(** Handles are distinct, since no image is empty. *)
Lemma segments_handles : NoDup ((λ s, s.1.2) <$> segments).
Proof.
  apply NoDup_alt. intros i j h Hi Hj. rewrite list_lookup_fmap in Hi, Hj.
  destruct (segments !! i) as [[[s1 h1] b1]|] eqn:E1; [|done].
  destruct (segments !! j) as [[[s2 h2] b2]|] eqn:E2; [|done]. cbn [fmap option_fmap option_map fst snd] in Hi, Hj.
  apply segments_lookup in E1 as (s1'&w1&_&Ew1&_&[_ ->]%pair_eq).
  apply segments_lookup in E2 as (s2'&w2&_&Ew2&_&[_ ->]%pair_eq).
  pose proof (fi_written _ _ _ _ _ _ _ Hfin) as Hbl. destruct finished_images as [Himg _].
  destruct (handle_u64 options ws i w1 Hbl Himg Ew1). destruct (handle_u64 options ws j w2 Hbl Himg Ew2).
  assert (length (images (take i ws)) = length (images (take j ws))) as Heq.
  { apply Nat2Z.inj. rewrite <-Hi in Hj. apply (inj Some) in Hj as Hh. apply (f_equal (λ x, BlockHandle_DecodeFrom (x ++ []) newBlockHandle)) in Hh.
    rewrite !BlockHandle_round_trip in Hh by done. by injection Hh as ? _. }
  assert (∀ a b w, (a < b)%nat → ws !! a = Some w →
    (length (images (take a ws)) < length (images (take b ws)))%nat) as Hmono.
  { intros a b w Hab Hw. replace b with (S a + (b - S a))%nat by lia.
    rewrite <-take_take_drop, images_app, (take_S_r _ _ _ Hw), images_app, images_single, !length_app.
    rewrite Forall_lookup in Hbl. destruct (Hbl a w Hw) as [_ _ _ Hst _].
    rewrite (length_stored _ _ _ Hst). lia. }
  destruct (Nat.lt_trichotomy i j) as [Hlt|[?|Hlt]]; [|done|].
  - specialize (Hmono i j w1 Hlt Ew1). lia.
  - specialize (Hmono j i w2 Hlt Ew2). lia.
Qed.

Lemma block_sorted i w : ws !! i = Some w → sorted_keys (wb_entries w).
Proof.
  intros Hw. unfold sorted_keys in *. rewrite <-(fi_blocks _ _ _ _ _ _ _ Hfin) in Hsorted.
  rewrite <-(take_drop_middle _ _ _ Hw), blocks_app in Hsorted.
  apply StronglySorted_app_1_r in Hsorted.
  change (blocks (w :: drop (S i) ws)) with (wb_entries w ++ blocks (drop (S i) ws)) in Hsorted.
  by apply StronglySorted_app_1_l in Hsorted.
Qed.

Lemma index_length : Z.of_nat (length (block_contents 1 idx)) < 2 ^ 32.
Proof.
  pose proof (fi_fits _ _ _ _ _ _ _ Hfin). pose proof (block_size_bounds 1 idx) as [? ?]. lia.
Qed.

Lemma idx_sorted : sorted_keys idx.
Proof.
  destruct (fi_seps _ _ _ _ _ _ _ Hfin) as (bound&Hok). destruct Hfin. by eapply index_sorted.
Qed.

(** The positions of the iterator over a block of the file. *)
Definition block_at (i : nat) : nat → BlockIterator → Prop :=
  match ws !! i with Some w => written_position interval (wb_entries w) | None => λ _ _, False end.

Lemma block_at_refines i s h b :
  segments !! i = Some (s, h, b) →
  Refines b (block_at i) ∧ block_at i (length b) (BlockReader Read data_at h).
Proof.
  intros (s'&w&Es&Ew&->&[-> ->]%pair_eq)%segments_lookup. unfold block_at. rewrite Ew.
  rewrite BlockReader_finished by done. pose proof (fi_written _ _ _ _ _ _ _ Hfin) as Hbl.
  rewrite Forall_lookup in Hbl. destruct (Hbl i w Ew) as [_ Hf Hl _ _].
  apply written_refines; [done|done|by eapply block_sorted].
Qed.

Lemma index_refines :
  Refines idx (written_position 1 idx) ∧
  written_position 1 idx (length idx) (Block_NewIterator (newBlock (block_contents 1 idx))).
Proof.
  apply written_refines; [|apply index_length|apply idx_sorted].
  apply footprint_fits, (fi_fits _ _ _ _ _ _ _ Hfin).
Qed.

Abbreviation table options' := (mkTable options' metaindex (newBlock (block_contents 1 idx))).

Lemma table_refines options' :
  let position := tl_position segments (written_position 1 idx) block_at in
  Refines (H := table_iterator Read data_at (table options')) l position ∧
  position (length l) (Table_NewIterator (table options')).
Proof.
  intros position. destruct index_refines as [HPI Hnew]. destruct finished_images as [_ Hli].
  assert (length segments = length ws) as Hls.
  { unfold segments. rewrite length_zip_with. lia. }
  split.
  - rewrite <-segments_entries. apply two_level_refines.
    + by rewrite segments_index.
    + apply segments_handles.
    + apply block_at_refines.
    + unfold table_fuel. cbn [tab_index_block].
      pose proof (newBlock_contents 1 idx index_length) as [-> _]. cbn [blk_size].
      pose proof (encode_entries_length 1 0 [] idx). unfold block_contents. cbv zeta.
      rewrite length_app. lia.
    + apply segments_separated.
    + rewrite segments_index. apply idx_sorted.
  - rewrite <-segments_entries. apply new_two_level_position. rewrite Hls, <-Hli. done.
Qed.

(** The index finds the block for a key. *)
Lemma index_seek k :
  let i := lower_bound k idx in
  let it := Seek k (Block_NewIterator (newBlock (block_contents 1 idx))) in
  status it = StatusOK ∧
  match ws !! i with
  | Some w => Valid it = true ∧ value it = BlockHandle_EncodeTo []
      (mkBlockHandle (Z.of_nat (length (images (take i ws)))) (Z.of_nat (wb_size w)))
  | None => Valid it = false
  end.
Proof.
  intros i it. destruct index_refines as [HPI Hnew]. destruct finished_images as [_ Hli].
  pose proof (ref_seek _ _ HPI _ _ k Hnew) as Hpos. fold it i in Hpos.
  split; [by eapply (ref_status _ _ HPI)|].
  rewrite (ref_valid _ _ HPI i it Hpos). destruct (ws !! i) as [w|] eqn:Ew.
  - pose proof (lookup_lt_Some _ _ _ Ew). rewrite bool_decide_true by lia. split; [done|].
    destruct (lookup_lt_is_Some_2 seps i) as [s Es]; [rewrite (fi_length _ _ _ _ _ _ _ Hfin); lia|].
    eapply (ref_entry _ _ HPI i it s _ Hpos).
    rewrite index_lookup by apply (fi_length _ _ _ _ _ _ _ Hfin). by rewrite Es, Ew.
  - apply lookup_ge_None in Ew. by rewrite bool_decide_false by lia.
Qed.

Lemma InternalGet_finished options' k :
  ∃ saved, InternalGet Read data_at k (table options') = (StatusOK, saved) ∧
    match saved with
    | Some e => l !! lower_bound k l = Some e
    | None => ∀ e, e ∈ l → e.1 ≠ k
    end.
Proof.
  pose proof segments_separated as Hsep. pose proof idx_sorted as Hsi. rewrite <-segments_index in Hsi.
  pose proof (lower_bound_segs segments k Hsep Hsi) as Hlb. cbv zeta in Hlb.
  rewrite segments_entries, segments_index in Hlb.
  destruct (index_seek k) as [Hst Hi]. unfold InternalGet. cbn [tab_index_block].
  set (i := lower_bound k idx) in *. set (it := Seek k _) in *.
  destruct finished_images as [_ Hli].
  assert (length segments = length ws) as Hls by (unfold segments; rewrite length_zip_with; lia).
  destruct (ws !! i) as [w|] eqn:Ew.
  - pose proof (lookup_lt_Some _ _ _ Ew) as Hlt. destruct Hi as [-> ->].
    destruct (segments !! i) as [[[s h] b]|] eqn:Eseg; [|apply lookup_ge_None in Eseg; lia].
    rewrite decide_True in Hlb by lia.
    pose proof (segments_lookup i _ b Eseg) as (s'&w'&Es&Ew'&->&Hx). rewrite Ew in Ew'. injection Ew' as <-.
    apply pair_eq in Hx as [-> ->]. destruct (block_at_refines i _ _ _ Eseg) as [HR Hnew].
    set (bi := Seek k _). pose proof (ref_seek _ _ HR _ _ k Hnew) as Hpos. fold bi in Hpos.
    rewrite (ref_status _ _ HR _ _ Hpos), (ref_valid _ _ HR _ _ Hpos). cbn [ok].
    rewrite Hst. eexists. split; [done|]. rewrite Hlb.
    pose proof (seg_split segments i _ _ _ Eseg) as Hsplit. rewrite segments_entries in Hsplit.
    destruct (bool_decide_reflect (lower_bound k (wb_entries w) < length (wb_entries w))%nat) as [Hj|Hj].
    + destruct (lookup_lt_is_Some_2 _ _ Hj) as [[a c] Hac].
      destruct (ref_entry _ _ HR _ _ a c Hpos Hac) as [-> ->].
      rewrite Hsplit. unfold seg_offset. rewrite lookup_app_r by lia.
      replace (_ + lower_bound k (wb_entries w) - _)%nat with (lower_bound k (wb_entries w)) by lia.
      by rewrite lookup_app_l.
    + pose proof (lower_bound_length k (wb_entries w)). intros e He Hek.
      pose proof (lower_bound_elem l e Hsorted He) as Hlook. rewrite Hek in Hlook. rewrite Hlb, Hsplit in Hlook. unfold seg_offset in Hlook.
      rewrite lookup_app_r, lookup_app_r in Hlook by lia.
      apply list_elem_of_lookup_2 in Hlook. apply seg_elem_after in Hlook as (i'&s2&h2&b2&Hii'&E2&He2).
      pose proof (sep_after _ Hsep _ _ _ _ _ _ _ _ _ Eseg Hii' E2 He2) as Hse. rewrite Hek in Hse.
      assert (i < i)%nat; [|lia].
      apply (lower_bound_spec k (seg_index segments) i (s', BlockHandle_EncodeTo [] (mkBlockHandle
        (Z.of_nat (length (images (take i ws)))) (Z.of_nat (wb_size w)))) Hsi) in Hse;
        [by rewrite segments_index in Hse|]. unfold seg_index. by rewrite list_lookup_fmap, Eseg.
  - rewrite Hi. cbn [ok]. rewrite Hst. eexists. split; [done|]. intros e He Hek.
    pose proof (lower_bound_elem l e Hsorted He) as Hlook. rewrite Hek in Hlook.
    apply lookup_lt_Some in Hlook. apply lookup_ge_None in Ew.
    rewrite decide_False in Hlb by lia. revert Hlook. rewrite Hlb, <-segments_entries, <-seg_offset_all.
    unfold seg_offset. rewrite !take_ge by lia. lia.
Qed.

Lemma ApproximateOffsetOf_finished options' k :
  ApproximateOffsetOf k (table options') = Z.of_nat (length (images (take (lower_bound k idx) ws))).
Proof.
  destruct (index_seek k) as [_ Hi]. unfold ApproximateOffsetOf. cbn [tab_index_block tab_metaindex_handle].
  set (i := lower_bound k idx) in *. destruct (ws !! i) as [w|] eqn:Ew.
  - destruct Hi as [-> ->]. destruct finished_images as [Himg _].
    destruct (handle_u64 options ws i w (fi_written _ _ _ _ _ _ _ Hfin) Himg Ew).
    rewrite <-(app_nil_r (BlockHandle_EncodeTo [] _)), BlockHandle_round_trip by done. done.
  - rewrite Hi. apply lookup_ge_None in Ew. rewrite take_ge by done.
    destruct (fi_file _ _ _ _ _ _ _ Hfin) as (im&n&im'&n'&_&_&_&->&_). done.
Qed.

Lemma offset_bound i : (length (images (take i ws)) <= length file)%nat.
Proof.
  destruct (fi_file _ _ _ _ _ _ _ Hfin) as (im&n&im'&n'&Hf&_). rewrite Hf, !length_app.
  rewrite <-(take_drop i ws) at 2. rewrite images_app, length_app. lia.
Qed.

Lemma offset_mono i j :
  (i <= j)%nat → (length (images (take i ws)) <= length (images (take j ws)))%nat.
Proof.
  intros Hij. rewrite <-(take_drop i (take j ws)) at 1. rewrite take_take, Nat.min_l by done.
  rewrite <-(take_drop i (take j ws)) at 1. rewrite take_take, Nat.min_l, images_app, length_app by done. lia.
Qed.
End opening.

(** * Theorems *)

(** A file that [Finish] has completed without an error. *)
Lemma build_finished `{Snappy} {F : Type} (Append : list Z → SM F) (content : F → list Z)
    (contents_at trailer_at : Z) (options : Options) (f : F) (l : entries) st r :
  WritableFile Append content → content f = [] → 0 <= contents_at → 0 <= trailer_at →
  sorted_keys l → Forall entry_bytes l → table_fits options l →
  TableBuilder_Finish Append contents_at trailer_at
    (table_add_all Append contents_at trailer_at l (newTableBuilder options f)) = (st, r) →
  ok st = true →
  tb_num_entries r = Z.of_nat (length l) ∧ tb_offset r = Z.of_nat (length (content (tb_file r))) ∧
  ∃ ws seps mi ix, finished options l (content (tb_file r)) ws seps mi ix.
Proof.
  intros HF Hf Hca Hta Hsorted Hbytes Hfits E Hok.
  destruct (tb_ok (table_add_all Append contents_at trailer_at l (newTableBuilder options f))) eqn:Hok'.
  2: { rewrite Finish_error in E by done. injection E as <- <-. unfold tb_ok in Hok'. congruence. }
  pose proof (table_add_all_added Append content contents_at trailer_at Hca Hta options l
    (newTableBuilder options f) [] (new_added content options f Hf) Hsorted Hbytes Hfits Hok') as Hadd.
  by destruct (Finish_finished Append content contents_at trailer_at Hca Hta options l _ st r Hadd Hsorted
    Hfits E Hok) as (_&Hfin).
Qed.

(** A file in memory, and a compressor that stores the data after a byte. *)
#[export] Instance memory_writable : WritableFile memory_append id.
Proof. split. unfold memory_append. by intros data f f' [= <-]. Qed.

#[export, program] Instance byte_snappy : Snappy := {
  Snappy_Compress data := Some (0 :: data);
  Snappy_GetUncompressedLength data := match data with [] => None | _ :: s => Some (Z.of_nat (length s)) end;
  Snappy_Uncompress data := match data with [] => None | _ :: s => Some s end }.
Next Obligation. intros data c Hd [= <-]. split_and!; [|done..]. constructor; [unfold is_byte; lia|done]. Qed.

(** A small table, with a block per entry. *)
Definition example_entries : entries := [([97], [1]); ([97; 98], [2]); ([99], [])].
Definition example_options : Options := mkOptions 12 16 kSnappyCompression.

Lemma example_ok :
  sorted_keys example_entries ∧ Forall entry_bytes example_entries ∧
  table_fits example_options example_entries.
Proof.
  split_and!.
  - repeat constructor.
  - repeat constructor; simpl; lia.
  - split; [simpl; lia| |vm_compute; reflexivity]. repeat constructor; simpl; lia.
Qed.

Abbreviation example_built := (TableBuilder_Finish memory_append 0 0
  (table_add_all memory_append 0 0 example_entries (newTableBuilder example_options []))).

Lemma example_built_ok : ok example_built.1 = true.
Proof. vm_compute. reflexivity. Qed.

(** C29: what was added to a table is read from it. Entries with increasing keys are
    added to a builder, with any restart interval and compression, and a block size
    that with any one entry, like the index of all keys, stays below 2^32 bytes; if
    [Finish] returns OK, the builder reports their number and the size of the
    file, and a reader that opens the file gets a table whose iterator is a
    position in the list of the entries: it moves to the first, to the next, and
    to the first key that is not below a target, and reports no error. *)
Theorem table_round_trip `{Snappy} {F : Type} (Append : list Z → SM F) (content : F → list Z)
    (contents_at trailer_at data_at : Z) (options options' : Options) (f : F) (l : entries) :
  WritableFile Append content → content f = [] →
  0 <= contents_at → 0 <= trailer_at → 0 <= data_at →
  sorted_keys l → Forall entry_bytes l → table_fits options l →
  let '(st, r) := TableBuilder_Finish Append contents_at trailer_at
    (table_add_all Append contents_at trailer_at l (newTableBuilder options f)) in
  ok st = true →
  NumEntries r = Z.of_nat (length l) ∧ FileSize r = Z.of_nat (length (content (tb_file r))) ∧
  ∀ Read, RandomAccessFile Read (content (tb_file r)) →
    ∃ t, Table_Open Read data_at options' (FileSize r) = (StatusOK, Some t) ∧
      ∃ position, Refines (H := table_iterator Read data_at t) l position ∧
        position (length l) (Table_NewIterator t).
Proof.
  intros HF Hf Hca Hta Hda Hsorted Hbytes Hfits.
  destruct (TableBuilder_Finish _ _ _ _) as [st r] eqn:E. intros Hok.
  destruct (build_finished Append content contents_at trailer_at options f l st r) as (Hnum&Hoff&ws&seps&mi&ix&Hfin);
    try done.
  unfold NumEntries, FileSize. rewrite Hoff. split_and!; [done..|]. intros Read HR.
  eexists. split; [by eapply Table_Open_finished|]. eexists. by eapply table_refines.
Qed.

Lemma table_round_trip_witness :
  let '(st, r) := example_built in
  ok st = true ∧ NumEntries r = 3 ∧
  ∃ t, Table_Open (memory_read (tb_file r)) 0 example_options (FileSize r) = (StatusOK, Some t) ∧
    ∃ position, Refines (H := table_iterator (memory_read (tb_file r)) 0 t) example_entries position ∧
      position 3%nat (Table_NewIterator t).
Proof.
  destruct example_ok as (Hs&Hb&Hf). pose proof example_built_ok as Hok.
  pose proof (table_round_trip memory_append id 0 0 0 example_options example_options [] example_entries
    memory_writable eq_refl (Z.le_refl 0) (Z.le_refl 0) (Z.le_refl 0) Hs Hb Hf) as Ht.
  destruct example_built as [st r]. destruct (Ht Hok) as (Hn&_&Hr).
  split; [exact Hok|]. split; [exact Hn|]. apply Hr, memory_file.
Defined.

(** C30: the lookups of a table find what was added to it. Under the conditions of
    the round trip, [InternalGet] calls the saver with the entry of each key that
    was added; for any other key with the first entry above it or not at all,
    and always returns OK. [ApproximateOffsetOf] is an offset in the file that
    does not decrease when the key increases. *)
Theorem table_lookup `{Snappy} {F : Type} (Append : list Z → SM F) (content : F → list Z)
    (contents_at trailer_at data_at : Z) (options options' : Options) (f : F) (l : entries) :
  WritableFile Append content → content f = [] →
  0 <= contents_at → 0 <= trailer_at → 0 <= data_at →
  sorted_keys l → Forall entry_bytes l → table_fits options l →
  let '(st, r) := TableBuilder_Finish Append contents_at trailer_at
    (table_add_all Append contents_at trailer_at l (newTableBuilder options f)) in
  ok st = true →
  ∀ Read, RandomAccessFile Read (content (tb_file r)) →
    ∃ t, Table_Open Read data_at options' (FileSize r) = (StatusOK, Some t) ∧
      (∀ e, e ∈ l → InternalGet Read data_at e.1 t = (StatusOK, Some e)) ∧
      (∀ k, ∃ saved, InternalGet Read data_at k t = (StatusOK, saved) ∧
        (saved = None ∨ saved = l !! lower_bound k l)) ∧
      (∀ k k', bytes_ltb k' k = false →
        0 <= ApproximateOffsetOf k t <= ApproximateOffsetOf k' t ∧ ApproximateOffsetOf k' t <= FileSize r).
Proof.
  intros HF Hf Hca Hta Hda Hsorted Hbytes Hfits.
  destruct (TableBuilder_Finish _ _ _ _) as [st r] eqn:E. intros Hok Read HR.
  destruct (build_finished Append content contents_at trailer_at options f l st r) as (_&Hoff&ws&seps&mi&ix&Hfin);
    try done. unfold FileSize. rewrite Hoff.
  eexists. split; [by eapply Table_Open_finished|].
  assert (Hget := λ k, InternalGet_finished options l _ ws seps mi ix Hfin Hsorted data_at Hda options' k).
  split_and!.
  - intros e He. destruct (Hget e.1) as (saved&->&Hs). f_equal. destruct saved as [e'|]; [|by destruct (Hs e He)].
    by rewrite lower_bound_elem in Hs.
  - intros k. destruct (Hget k) as (saved&->&Hs). exists saved. split; [done|]. destruct saved; auto.
  - intros k k' Hk. rewrite !(ApproximateOffsetOf_finished options l _ ws seps mi ix Hfin).
    pose proof (offset_mono ws _ _ (lower_bound_mono k k' (index_entries ws seps) Hk)).
    pose proof (offset_bound options l _ ws seps mi ix Hfin (lower_bound k' (index_entries ws seps))). lia.
Qed.

Lemma table_lookup_witness :
  let '(st, r) := example_built in
  ok st = true ∧
  ∃ t, Table_Open (memory_read (tb_file r)) 0 example_options (FileSize r) = (StatusOK, Some t) ∧
    InternalGet (memory_read (tb_file r)) 0 [97; 98] t = (StatusOK, Some ([97; 98], [2])).
Proof.
  destruct example_ok as (Hs&Hb&Hf). pose proof example_built_ok as Hok.
  pose proof (table_lookup memory_append id 0 0 0 example_options example_options [] example_entries
    memory_writable eq_refl (Z.le_refl 0) (Z.le_refl 0) (Z.le_refl 0) Hs Hb Hf) as Ht.
  destruct example_built as [st r]. split; [exact Hok|].
  destruct (Ht Hok (memory_read (tb_file r)) (memory_file _)) as (t&Ho&Hg&_).
  exists t. split; [exact Ho|]. apply (Hg ([97; 98], [2])). right. left.
Defined.

(** ** Errors *)

(** A file that records the status of each append, the last one first. *)
Definition logged {F : Type} (Append : list Z → SM F) (data : list Z) : SM (F * list Status) :=
  λ f, let '(st, f') := Append data f.1 in (st, (f', st :: f.2)).

Section errors.
Context `{Snappy} {F : Type} (Append : list Z → SM F) (contents_at trailer_at : Z).
Implicit Types r : TableBuilder (F * list Status).

Abbreviation Append' := (logged Append).

(** The status is that of the last append, and all before it succeeded. *)
Definition log_ok r : Prop :=
  match (tb_file r).2 with
  | [] => tb_status r = StatusOK
  | st :: log => tb_status r = st ∧ Forall (λ s, ok s = true) log
  end.

Lemma log_ok_same r r' :
  tb_file r' = tb_file r → tb_status r' = tb_status r → log_ok r → log_ok r'.
Proof. unfold log_ok. by intros -> ->. Qed.

Lemma log_ok_all r : log_ok r → tb_ok r = true → Forall (λ s, ok s = true) (tb_file r).2.
Proof.
  unfold log_ok, tb_ok. destruct (tb_file r).2 as [|st log]; [constructor|]. intros [-> ?] ?. by constructor.
Qed.

(** An append of a builder without an error. *)
Lemma log_ok_append data f log st f' off r :
  Forall (λ s, ok s = true) log → Append' data (f, log) = (st, f') →
  f'.2 = st :: log ∧ log_ok (set_file f' off st r).
Proof.
  intros Hl. unfold logged. cbn [fst snd]. destruct (Append data f) as [st0 f0].
  intros [= <- <-]. unfold log_ok. by cbn [set_file tb_file tb_status snd].
Qed.

Lemma WriteRawBlock_log s type r :
  log_ok r → tb_ok r = true → log_ok (WriteRawBlock Append' contents_at trailer_at s type r).2.
Proof.
  intros Hl Hok. pose proof (log_ok_all r Hl Hok) as Hall. unfold WriteRawBlock. cbv zeta.
  destruct (tb_file r) as [f log]. cbn [snd] in Hall.
  destruct (Append' s (f, log)) as [st1 [f1 log1]] eqn:E1.
  destruct (log_ok_append s f log st1 (f1, log1) (tb_offset r) r Hall E1) as [H1 H2].
  destruct (ok st1) eqn:Hst; cbn [negb]; [|done]. cbn [snd] in H1. subst log1.
  set (trailer := type_byte type :: _).
  destruct (Append' trailer (f1, st1 :: log)) as [st2 f2] eqn:E2. cbn [snd].
  eapply log_ok_append; [|exact E2]. by constructor.
Qed.

Lemma WriteBlock_log block r :
  log_ok r → tb_ok r = true → log_ok (WriteBlock Append' contents_at trailer_at block r).2.
Proof.
  intros Hl Hok. unfold WriteBlock. destruct (BlockBuilder_Finish block) as [raw b].
  destruct (match compression _ with kNoCompression => _ | _ => _ end) as [s type].
  pose proof (WriteRawBlock_log s type r Hl Hok). by destruct (WriteRawBlock _ _ _ s type r).
Qed.

Lemma Flush_log r : log_ok r → log_ok (Flush Append' contents_at trailer_at r).
Proof.
  intros Hl. unfold Flush. destruct (tb_ok r) eqn:Hok; [|done]. cbn [negb].
  destruct (bb_empty _); [done|]. pose proof (WriteBlock_log (tb_data_block r) r Hl Hok) as Hw.
  destruct (WriteBlock _ _ _ _ r) as [[h b] r1]. cbn [snd] in Hw. by eapply log_ok_same.
Qed.

Lemma Add_log k v r : log_ok r → log_ok (TableBuilder_Add Append' contents_at trailer_at k v r).
Proof.
  intros Hl. unfold TableBuilder_Add. destruct (negb (tb_ok r)); [done|]. cbv zeta.
  set (r1 := if (_ && _) then Flush Append' contents_at trailer_at r else r).
  assert (log_ok r1) as H1 by (unfold r1; destruct (_ && _); [by apply Flush_log|done]).
  set (r2 := if tb_pending_index_entry r1 then _ else r1).
  assert (log_ok r2) as H2 by (unfold r2; destruct (tb_pending_index_entry r1); [by eapply log_ok_same|done]).
  set (r3 := set_data_block _ _ _ r2). assert (log_ok r3) by (by eapply log_ok_same).
  match goal with |- log_ok (if ?c then _ else _) => destruct c end; [by apply Flush_log|done].
Qed.

Lemma Finish_log r :
  log_ok r → let '(st, r') := TableBuilder_Finish Append' contents_at trailer_at r in
  log_ok r' ∧ tb_status r' = st.
Proof.
  intros Hl. unfold TableBuilder_Finish. cbv zeta.
  set (r1 := set_closed (Flush Append' contents_at trailer_at r)).
  assert (log_ok r1) as H1 by (by eapply log_ok_same, Flush_log).
  set (x := if tb_ok r1 then _ else (newBlockHandle, r1)).
  assert (log_ok x.2) as H2.
  { unfold x. destruct (tb_ok r1) eqn:Hok; [|done].
    pose proof (WriteBlock_log (newBlockBuilder (block_restart_interval (tb_options r1))) r1 H1 Hok).
    by destruct (WriteBlock _ _ _ _ r1) as [[h b] r2]. }
  destruct x as [mh r2]. cbn [snd] in H2.
  set (y := if tb_ok r2 then _ else (newBlockHandle, r2)).
  assert (log_ok y.2) as H3.
  { unfold y. destruct (tb_ok r2) eqn:Hok; [|done].
    set (r3 := if tb_pending_index_entry r2 then _ else r2).
    assert (log_ok r3 ∧ tb_ok r3 = true) as [Hl3 Hok3].
    { unfold r3. destruct (tb_pending_index_entry r2); [|done]. split; [by eapply log_ok_same|done]. }
    pose proof (WriteBlock_log (tb_index_block r3) r3 Hl3 Hok3) as Hw.
    destruct (WriteBlock _ _ _ _ r3) as [[h b] r4]. cbn [snd] in Hw |- *. by eapply log_ok_same. }
  destruct y as [ih r3]. cbn [snd] in H3. destruct (tb_ok r3) eqn:Hok; [|done].
  pose proof (log_ok_all r3 H3 Hok) as Hall. set (footer := Footer_EncodeTo _ _).
  destruct (tb_file r3) as [f log]. destruct (Append' footer (f, log)) as [st f'] eqn:E.
  split; [|done]. by eapply log_ok_append.
Qed.
End errors.

(** A damaged block is never served. If the bytes of a block in a file, the
    contents and the type, differ from those its checksum was computed for within
    four consecutive bytes, [ReadBlock] reports the mismatch; the iterator made
    for the block is never valid and keeps that status wherever it is moved, and
    a lookup that the index leads to the block returns the error and no entry. *)
Theorem corrupted_block_detected `{Snappy} (Read : Z → Z → Status * list Z) (content : list Z)
    (data_at : Z) (pre a w w' b post : list Z) :
  RandomAccessFile Read content → 0 <= data_at →
  content = pre ++ (a ++ w' ++ b) ++ EncodeFixed32 (Mask (Value data_at (a ++ w ++ b))) ++ post →
  Forall is_byte a → Forall is_byte w → Forall is_byte w' → Forall is_byte b →
  length w = length w' → (length w <= 4)%nat → w ≠ w' → Z.of_nat (length content) < 2 ^ 64 →
  let h := mkBlockHandle (Z.of_nat (length pre)) (Z.of_nat (length (a ++ w ++ b)) - 1) in
  let mismatch := DataLoss "block checksum mismatch" in
  ReadBlock Read data_at h = (mismatch, []) ∧
  (let it := BlockReader Read data_at (BlockHandle_EncodeTo [] h) in
   ∀ k, let it' := Seek k it in Valid it = false ∧ Valid it' = false ∧ status it = mismatch ∧ status it' = mismatch) ∧
  ∀ t k, let iiter := Seek k (Block_NewIterator (tab_index_block t)) in
    Valid iiter = true → value iiter = BlockHandle_EncodeTo [] h →
    InternalGet Read data_at k t = (mismatch, None).
Proof.
  intros HR Hat Hc Ha Hw Hw' Hb Hlw H4 Hne Hlen h mismatch.
  assert (∀ v, Forall is_byte v → Forall is_byte (a ++ v ++ b)) as Hall by (intros; rewrite !Forall_app; done).
  assert (length (a ++ w ++ b) = length (a ++ w' ++ b)) as Hl by (rewrite !length_app; lia).
  destruct (exists_last (l := a ++ w' ++ b)) as (s&t&Hst).
  { destruct w', w; try done. by destruct a. }
  assert (ReadBlock Read data_at h = (mismatch, [])) as Hread.
  { unfold h. rewrite Hl, Hst, length_app. cbn [length].
    replace (Z.of_nat (length s + 1) - 1) with (Z.of_nat (length s)) by lia.
    rewrite Value_crc in Hc by auto. pose proof (Hall w' Hw') as Hw'a. rewrite Hst in Hw'a.
    apply Forall_app in Hw'a as [Hs Ht]. apply Forall_inv in Ht.
    rewrite (ReadBlock_image data_at Hat pre s t (crc32c (a ++ w ++ b)) post);
      [|by rewrite Hc, Hst, <-!app_assoc|..|by apply crc32c_range, Hall|]; [|done..].
    rewrite <-Hst. destruct (Z.eqb_spec (crc32c (a ++ w' ++ b)) (crc32c (a ++ w ++ b))) as [E|]; [|done].
    symmetry in E. by apply crc32c_burst in E. }
  assert (BlockReader Read data_at (BlockHandle_EncodeTo [] h) = OfEmpty (NewErrorIterator mismatch)) as Hbr.
  { unfold BlockReader.
    rewrite <-(app_nil_r (BlockHandle_EncodeTo [] h)), BlockHandle_round_trip; [cbn [ok negb]; by rewrite Hread|..].
    all: rewrite Hc, !length_app in Hlen; unfold h, is_u64; cbn [bh_offset bh_size];
      pose proof (f_equal length Hst) as Hn; rewrite !length_app in *; cbn [length] in Hn; lia. }
  split_and!; [done| |].
  - cbv zeta. rewrite Hbr. done.
  - intros tb k iiter Hv Hval. unfold InternalGet. fold iiter. by rewrite Hv, Hval, Hbr.
Qed.

Lemma corrupted_block_detected_witness :
  let content := [7] ++ ([1; 2] ++ [9] ++ [4; 0]) ++
    EncodeFixed32 (Mask (Value 0 ([1; 2] ++ [3] ++ [4; 0]))) ++ [] in
  ReadBlock (memory_read content) 0 (mkBlockHandle 1 4) = (DataLoss "block checksum mismatch", []).
Proof.
  intros content. refine (proj1 (corrupted_block_detected (memory_read content) content 0
    [7] [1; 2] [3] [9] [4; 0] [] (memory_file _) (Z.le_refl 0) eq_refl _ _ _ _ eq_refl _ _ _)).
  1-4: repeat constructor; lia.
  - simpl. lia.
  - discriminate.
  - vm_compute. reflexivity.
Defined.

(** Nothing is written after an error, and the error is reported. Whatever the
    file does and whatever is added, of the appends the builder makes all but the
    last succeed, and [Finish] returns the status of the last: it returns OK
    exactly when every append succeeded. *)
Theorem builder_reports_error `{Snappy} {F : Type} (Append : list Z → SM F)
    (contents_at trailer_at : Z) (options : Options) (f : F) (l : entries) :
  let '(st, r) := TableBuilder_Finish (logged Append) contents_at trailer_at
    (table_add_all (logged Append) contents_at trailer_at l (newTableBuilder options (f, []))) in
  match (tb_file r).2 with
  | [] => st = StatusOK
  | last :: before => st = last ∧ Forall (λ s, ok s = true) before
  end ∧
  (ok st = true ↔ Forall (λ s, ok s = true) (tb_file r).2).
Proof.
  assert (log_ok (table_add_all (logged Append) contents_at trailer_at l
    (newTableBuilder options (f, [])))) as Hl.
  { assert (log_ok (newTableBuilder options (f, []))) as Hl by done. revert Hl.
    generalize (newTableBuilder options (f, @nil Status)) as r.
    induction l as [|[k v] l IH]; intros r Hl; [done|]. apply IH. by apply Add_log. }
  pose proof (Finish_log Append contents_at trailer_at _ Hl) as Hf.
  destruct (TableBuilder_Finish _ _ _ _) as [st r]. destruct Hf as [Hf <-]. unfold log_ok in Hf.
  split; [done|]. destruct (tb_file r).2 as [|last before]; [by rewrite Hf|].
  destruct Hf as [-> ?]. rewrite Forall_cons. tauto.
Qed.
