(* ===== verification/Base64.v ===== *)
(** Web-safe base64: [tensorflow/core/lib/strings/base64.{h,cc}].

    Characters are bytes.  The source keeps them in a signed [char], whose shifts
    it masks, so that the sign does not matter.  The output strings are pointers,
    [None] for null.  The codec is specified by numbers: the characters of a
    string are digits to base 64, the bytes it stands for digits to base 256. *)
From S2P Require Import Prelude Status Coding.
Local Open Scope Z_scope.

Ltac Zify.zify_post_hook ::= Z.to_euclidean_division_equations.

(** * The code *)

Definition kBase64Bytes : list Z := [
  -1; -1; -1; -1; -1; -1; -1; -1; -1; -1; -1; -1;
  -1; -1; -1; -1; -1; -1; -1; -1; -1; -1; -1; -1;
  -1; -1; -1; -1; -1; -1; -1; -1; -1; -1; -1; -1;
  -1; -1; -1; -1; -1; -1; -1; -1; -1; 0x3E; -1; -1;
  0x34; 0x35; 0x36; 0x37; 0x38; 0x39; 0x3A; 0x3B; 0x3C; 0x3D; -1; -1;
  -1; -1; -1; -1; -1; 0x00; 0x01; 0x02; 0x03; 0x04; 0x05; 0x06;
  0x07; 0x08; 0x09; 0x0A; 0x0B; 0x0C; 0x0D; 0x0E; 0x0F; 0x10; 0x11; 0x12;
  0x13; 0x14; 0x15; 0x16; 0x17; 0x18; 0x19; -1; -1; -1; -1; 0x3F;
  -1; 0x1A; 0x1B; 0x1C; 0x1D; 0x1E; 0x1F; 0x20; 0x21; 0x22; 0x23; 0x24;
  0x25; 0x26; 0x27; 0x28; 0x29; 0x2A; 0x2B; 0x2C; 0x2D; 0x2E; 0x2F; 0x30;
  0x31; 0x32; 0x33; -1; -1; -1; -1; -1].

Definition kBase64UrlSafeChars : list Z := Eval vm_compute in
  (λ a, Z.of_N (N_of_ascii a)) <$>
    String.list_ascii_of_string "ABCDEFGHIJKLMNOPQRSTUVWXYZabcdefghijklmnopqrstuvwxyz0123456789-_".

Definition kPadChar : Z := Eval vm_compute in Z.of_N (N_of_ascii "=").

(** The conversion to [int8]. *)
Definition i8 (z : Z) : Z := (z + 2 ^ 7) mod 2 ^ 8 - 2 ^ 7.

Definition Convert (x : Z) : Z :=
  let y := i8 (Z.lor (nth (Z.to_nat (Z.land x 0x7F)) kBase64Bytes 0) (Z.land x 0x80)) in
  u32 y.

(** The status and the three bytes stored in the buffer. *)
Definition DecodeThreeChars (codes : list Z) : Status * list Z :=
  let packed :=
    Z.lor (Z.lor (Z.lor (u32 (Z.shiftl (Convert (byte_at codes 0)) 18))
                        (u32 (Z.shiftl (Convert (byte_at codes 1)) 12)))
                 (u32 (Z.shiftl (Convert (byte_at codes 2)) 6)))
          (Convert (byte_at codes 3)) in
  if negb (Z.land packed 0xFF000000 =? 0)
  then (InvalidArgument "Invalid character found in base64.", [])
  else (StatusOK, [Z.land (Z.shiftr packed 16) 0xFF; Z.land (Z.shiftr packed 8) 0xFF; Z.land packed 0xFF]).

(** The loop over the blocks before the last: the status, the bytes written and
    the rest of the input. *)
Fixpoint decode_blocks (b64 : list Z) : Status * list Z * list Z :=
  match b64 with
  | c0 :: c1 :: c2 :: c3 :: ((_ :: _) as rest) =>
      let '(s, result) := DecodeThreeChars [c0; c1; c2; c3] in
      if negb (ok s) then (s, [], b64)
      else let '(s, buffer, tail) := decode_blocks rest in (s, result ++ buffer, tail)
  | _ => (StatusOK, [], b64)
  end.

(** The padding that is cut off the last block. *)
Definition cut_padding (b64 : list Z) : list Z :=
  if (length b64 =? 4)%nat then
    if (byte_at b64 2 =? kPadChar) && (byte_at b64 3 =? kPadChar) then take 2 b64
    else if negb (byte_at b64 2 =? kPadChar) && (byte_at b64 3 =? kPadChar) then take 3 b64
    else b64
  else b64.

Definition max_decoded_size (data : list Z) : nat := 3 * (length data / 4) + 3.

Definition Base64Decode (data : list Z) (decoded : option (list Z)) : Status * option (list Z) :=
  match decoded with
  | None => (Internal "'decoded' cannot be nullptr.", None)
  | Some old =>
      if bool_decide (data = []) then (StatusOK, Some []) else
      let '(s, buffer, b64) := decode_blocks data in
      if negb (ok s) then (s, Some old) else
      let b64 := cut_padding b64 in
      let remain := length b64 in
      if (remain =? 1)%nat
      then (InvalidArgument "Base64 string length cannot be 1 modulo 4.", Some old) else
      let tail := b64 ++ drop remain (replicate 4 (byte_at kBase64UrlSafeChars 0)) in
      let '(s, result) := DecodeThreeChars tail in
      if negb (ok s) then (s, Some old)
      else (StatusOK, Some (buffer ++ take (remain - 1) result))
  end.

Definition base64_char (i : Z) : Z := byte_at kBase64UrlSafeChars (Z.to_nat i).

Fixpoint encode_blocks (with_padding : bool) (data : list Z) : list Z :=
  match data with
  | d0 :: d1 :: d2 :: rest =>
      base64_char (Z.land (Z.shiftr d0 2) 0x3F) ::
      base64_char (Z.lor (Z.shiftl (Z.land d0 0x03) 4) (Z.land (Z.shiftr d1 4) 0x0F)) ::
      base64_char (Z.lor (Z.shiftl (Z.land d1 0x0F) 2) (Z.land (Z.shiftr d2 6) 0x03)) ::
      base64_char (Z.land d2 0x3F) :: encode_blocks with_padding rest
  | [d0; d1] =>
      base64_char (Z.land (Z.shiftr d0 2) 0x3F) ::
      base64_char (Z.lor (Z.shiftl (Z.land d0 0x03) 4) (Z.land (Z.shiftr d1 4) 0x0F)) ::
      base64_char (Z.shiftl (Z.land d1 0x0F) 2) :: if with_padding then [kPadChar] else []
  | [d0] =>
      base64_char (Z.land (Z.shiftr d0 2) 0x3F) ::
      base64_char (Z.shiftl (Z.land d0 0x03) 4) ::
      if with_padding then [kPadChar; kPadChar] else []
  | [] => []
  end.

Definition max_encoded_size (source : list Z) : nat := 4 * (length source / 3) + 4.

Definition Base64Encode (source : list Z) (with_padding : bool) (encoded : option (list Z)) :
    Status * option (list Z) :=
  match encoded with
  | None => (Internal "'encoded' cannot be nullptr.", None)
  | Some _ => (StatusOK, Some (encode_blocks with_padding source))
  end.

(** * The specification *)

(** The number with the given digits, the first one the most significant. *)
Definition digits (base : Z) (l : list Z) : Z := foldl (λ n d, base * n + d) 0 l.

(** The value of a character. *)
Definition sextet (c : Z) : option Z := (λ p, Z.of_nat p.1) <$> list_find (λ x, x = c) kBase64UrlSafeChars.

(** The input without the padding, which only a complete last block can have. *)
Fixpoint unpadded (data : list Z) : list Z :=
  match data with
  | [c0; c1; c2; c3] =>
      if c3 =? kPadChar then if c2 =? kPadChar then [c0; c1] else [c0; c1; c2] else data
  | c0 :: c1 :: c2 :: c3 :: rest => c0 :: c1 :: c2 :: c3 :: unpadded rest
  | _ => data
  end.

(** The digits of an input, if it is one. *)
Definition base64_digits (data : list Z) : option (list Z) :=
  s ← mapM sextet (unpadded data);
  if decide (length s mod 4 = 1)%nat then None else Some s.

Definition is_digit6 (z : Z) : Prop := 0 <= z < 64.

(** * Characters *)

Lemma all_bytes (P : Z → bool) : forallb P (seqZ 0 256) = true → ∀ c, is_byte c → P c = true.
Proof.
  intros H c Hc. rewrite forallb_forall in H. apply H, list_elem_of_In, elem_of_seqZ.
  unfold is_byte in Hc. lia.
Qed.

Lemma Convert_spec c :
  is_byte c →
  match sextet c with
  | Some s => is_digit6 s ∧ Convert c = s ∧ base64_char s = c
  | None => 2 ^ 32 - 128 <= Convert c < 2 ^ 32
  end.
Proof.
  intros Hc. pose proof (all_bytes (λ c, match sextet c with
    | Some s => (0 <=? s) && (s <? 64) && (Convert c =? s) && (base64_char s =? c)
    | None => (2 ^ 32 - 128 <=? Convert c) && (Convert c <? 2 ^ 32) end)
    ltac:(vm_compute; reflexivity) c Hc) as H. cbv beta in H.
  destruct (sextet c); rewrite ?andb_true_iff in H; unfold is_digit6; lia.
Qed.

Lemma base64_char_spec s :
  is_digit6 s → sextet (base64_char s) = Some s ∧ is_byte (base64_char s) ∧ base64_char s ≠ kPadChar.
Proof.
  intros Hs. assert (forallb (λ s, negb (s <? 64) || (bool_decide (sextet (base64_char s) = Some s) &&
    (0 <=? base64_char s) && (base64_char s <? 256) && negb (base64_char s =? kPadChar))) (seqZ 0 256) = true)
    as Hall by (vm_compute; reflexivity).
  unfold is_digit6 in Hs. pose proof (all_bytes _ Hall s ltac:(unfold is_byte; lia)) as H. cbv beta in H.
  destruct (Z.ltb_spec s 64); [|lia]. cbn [negb orb] in H.
  rewrite !andb_true_iff, bool_decide_eq_true in H. destruct H as [[[? ?] ?] ?].
  unfold is_byte. split; [done|lia].
Qed.

(** Four valid characters are the digits of a number of 24 bits. *)
Lemma packed_digits s0 s1 s2 s3 :
  is_digit6 s0 → is_digit6 s1 → is_digit6 s2 → is_digit6 s3 →
  Z.lor (Z.lor (Z.lor (u32 (Z.shiftl s0 18)) (u32 (Z.shiftl s1 12))) (u32 (Z.shiftl s2 6))) s3 =
  digits 64 [s0; s1; s2; s3].
Proof.
  unfold is_digit6. intros. rewrite !Z.shiftl_mul_pow2 by lia.
  rewrite !u32_small by (unfold is_u32; lia).
  rewrite (Z.lor_comm (s0 * _)), (lor_hi (s1 * _) _ 18) by lia.
  rewrite (Z.lor_comm _ (s2 * _)), (lor_hi (s2 * _) _ 12) by lia.
  rewrite (Z.lor_comm _ s3), (lor_hi s3 _ 6) by lia.
  unfold digits. simpl. lia.
Qed.

Lemma Convert_range c : is_byte c → 0 <= Convert c < 2 ^ 32.
Proof. intros Hc. pose proof (Convert_spec c Hc) as H. destruct (sextet c); unfold is_digit6 in *; lia. Qed.

(** The bit [31] of a shifted value tells whether the character is valid. *)
Lemma invalid_bit c n :
  is_byte c → sextet c = None → n ∈ [0; 6; 12; 18] → Z.testbit (u32 (Z.shiftl (Convert c) n)) 31 = true.
Proof.
  intros Hc Hs Hn. pose proof (Convert_spec c Hc) as H. rewrite Hs in H.
  assert (0 <= n) by (repeat (apply elem_of_cons in Hn as [->|Hn]; [lia|]); by apply elem_of_nil in Hn).
  unfold u32. rewrite Z.mod_pow2_bits_low, Z.shiftl_spec, Z.testbit_eqb by
    (repeat (apply elem_of_cons in Hn as [->|Hn]; [lia|]); by apply elem_of_nil in Hn).
  apply Z.eqb_eq. repeat (apply elem_of_cons in Hn as [->|Hn]; [cbn [Z.sub Z.opp Z.add]; lia|]).
  by apply elem_of_nil in Hn.
Qed.

Lemma DecodeThreeChars_spec c0 c1 c2 c3 :
  Forall is_byte [c0; c1; c2; c3] →
  match mapM sextet [c0; c1; c2; c3] with
  | Some s => ∃ b0 b1 b2, DecodeThreeChars [c0; c1; c2; c3] = (StatusOK, [b0; b1; b2]) ∧
      Forall is_byte [b0; b1; b2] ∧ Forall is_digit6 s ∧ digits 256 [b0; b1; b2] = digits 64 s
  | None => DecodeThreeChars [c0; c1; c2; c3] = (InvalidArgument "Invalid character found in base64.", [])
  end.
Proof.
  rewrite !Forall_cons. intros (H0&H1&H2&H3&_). unfold DecodeThreeChars, byte_at. cbn [nth].
  assert (∀ packed, Z.testbit packed 31 = true → negb (Z.land packed 0xFF000000 =? 0) = true) as Hbad.
  { intros packed Hp. destruct (Z.eqb_spec (Z.land packed 0xFF000000) 0) as [E|]; [|done].
    apply (f_equal (λ z, Z.testbit z 31)) in E. rewrite Z.land_spec, Hp in E. done. }
  assert (Convert c3 = u32 (Z.shiftl (Convert c3) 0)) as E3.
  { rewrite Z.shiftl_0_r, u32_small; [done|]. by apply Convert_range. }
  cbn [mapM].
  destruct (sextet c0) as [s0|] eqn:E0; cbn [mbind option_bind].
  2: { rewrite Hbad; [done|]. rewrite !Z.lor_spec, (invalid_bit c0) by (done || set_solver). done. }
  destruct (sextet c1) as [s1|] eqn:E1; cbn [mbind option_bind].
  2: { rewrite Hbad; [done|]. rewrite !Z.lor_spec, (invalid_bit c1) by (done || set_solver). by rewrite ?orb_true_r, ?andb_false_r. }
  destruct (sextet c2) as [s2|] eqn:E2; cbn [mbind option_bind].
  2: { rewrite Hbad; [done|]. rewrite !Z.lor_spec, (invalid_bit c2) by (done || set_solver). by rewrite ?orb_true_r, ?andb_false_r. }
  destruct (sextet c3) as [s3|] eqn:E3'; cbn [mbind option_bind mret option_ret].
  2: { rewrite Hbad; [done|]. rewrite E3, !Z.lor_spec, (invalid_bit c3) by (done || set_solver). by rewrite ?orb_true_r, ?andb_false_r. }
  pose proof (Convert_spec c0 H0) as C0. pose proof (Convert_spec c1 H1) as C1.
  pose proof (Convert_spec c2 H2) as C2. pose proof (Convert_spec c3 H3) as C3.
  rewrite E0 in C0. rewrite E1 in C1. rewrite E2 in C2. rewrite E3' in C3.
  destruct C0 as (?&->&_), C1 as (?&->&_), C2 as (?&->&_), C3 as (?&->&_).
  rewrite packed_digits by done. set (n := digits 64 _).
  assert (n = s0 * 2 ^ 18 + s1 * 2 ^ 12 + s2 * 2 ^ 6 + s3) as Hn by (unfold n, digits; simpl; lia).
  unfold is_digit6 in *.
  assert (Z.land n 0xFF000000 = 0) as ->.
  { apply Z.bits_inj'. intros i Hi. rewrite Z.land_spec, Z.bits_0. destruct (Z.ltb_spec i 24).
    - change 0xFF000000 with (0xFF * 2 ^ 24). rewrite Z.mul_pow2_bits_low by lia. by rewrite ?orb_true_r, ?andb_false_r.
    - rewrite <-(Z.mod_small n (2 ^ 24)), Z.mod_pow2_bits_high by lia. done. }
  change 0xFF with (Z.ones 8). rewrite !Z.land_ones, !Z.shiftr_div_pow2 by lia.
  cbn [Z.eqb negb]. eexists _, _, _. split; [done|].
  split; [repeat constructor; unfold is_byte; lia|]. split; [repeat constructor; lia|].
  unfold digits at 1. simpl. lia.
Qed.

(** * Digits *)

Lemma digits_snoc base l d : digits base (l ++ [d]) = base * digits base l + d.
Proof. unfold digits. by rewrite foldl_app. Qed.

Lemma digits_app base a b :
  digits base (a ++ b) = digits base a * base ^ Z.of_nat (length b) + digits base b.
Proof.
  induction b as [|d b IH] using rev_ind; [rewrite app_nil_r; unfold digits; cbn; lia|].
  rewrite app_assoc, !digits_snoc, IH, length_app, Nat2Z.inj_add, Z.pow_add_r by lia. simpl. lia.
Qed.

Lemma digits_range base l :
  0 < base → Forall (λ d, 0 <= d < base) l → 0 <= digits base l < base ^ Z.of_nat (length l).
Proof.
  intros Hb. induction l as [|d l IH] using rev_ind; [unfold digits; cbn; lia|].
  rewrite Forall_app, Forall_cons. intros (Hl&Hd&_). specialize (IH Hl).
  rewrite digits_snoc, length_app, Nat2Z.inj_add, Z.pow_add_r, Z.pow_1_r by lia. nia.
Qed.

Lemma digits_inj base a b :
  0 < base → Forall (λ d, 0 <= d < base) a → Forall (λ d, 0 <= d < base) b →
  length a = length b → digits base a = digits base b → a = b.
Proof.
  intros Hbase. revert b. induction a as [|x a IH] using rev_ind; intros b Ha Hb Hlen E.
  { by destruct b. }
  destruct (exists_last (l := b)) as (b'&y&->); [intros ->; rewrite length_app in Hlen; simpl in Hlen; lia|].
  rewrite !length_app in Hlen. simpl in Hlen.
  apply Forall_app in Ha as [Ha Hx]. apply Forall_app in Hb as [Hb Hy].
  apply Forall_inv in Hx, Hy. rewrite !digits_snoc in E.
  assert (digits base a = digits base b') as E' by nia.
  f_equal; [|f_equal; lia]. apply IH; [done..|lia|done].
Qed.

(** * The decoder *)

Lemma mapM_app {A B} (f : A → option B) (a b : list A) :
  mapM f (a ++ b) = (x ← mapM f a; y ← mapM f b; Some (x ++ y)).
Proof.
  induction a as [|c a IH]; simpl; [by destruct (mapM f b)|].
  destruct (f c); simpl; [|done]. rewrite IH. destruct (mapM f a); simpl; [|done]. by destruct (mapM f b).
Qed.

(** The last block. *)
Lemma decode_tail r :
  Forall is_byte r → (2 <= length r <= 4)%nat →
  let tail := r ++ drop (length r) (replicate 4 (byte_at kBase64UrlSafeChars 0)) in
  match mapM sextet r with
  | Some s => ∃ result, DecodeThreeChars tail = (StatusOK, result) ∧
      let out := take (length r - 1) result in
      Forall is_byte out ∧ length out = (length r - 1)%nat ∧ Forall is_digit6 s ∧
      digits 256 out = digits 64 s / 2 ^ ((6 * Z.of_nat (length r)) mod 8)
  | None => DecodeThreeChars tail = (InvalidArgument "Invalid character found in base64.", [])
  end.
Proof.
  intros Hr Hlen tail. set (A := byte_at kBase64UrlSafeChars 0) in *.
  assert (sextet A = Some 0) as HA by (vm_compute; reflexivity).
  assert (is_byte A) as HAb by (unfold A, is_byte; vm_compute; intuition congruence).
  clearbody A.
  assert (∃ c0 c1 c2 c3, tail = [c0; c1; c2; c3] ∧ Forall is_byte [c0; c1; c2; c3] ∧
    mapM sextet tail = (λ s, s ++ replicate (4 - length r) 0) <$> mapM sextet r) as (c0&c1&c2&c3&Ht&Hb&Hm).
  { assert (length tail = 4%nat) as Hl4 by (unfold tail; rewrite length_app, length_drop; simpl; lia).
    assert (Forall is_byte tail) as Hbt.
    { unfold tail. apply Forall_app. split; [done|]. by apply Forall_drop, Forall_replicate. }
    assert (mapM sextet tail = (λ s, s ++ replicate (4 - length r) 0) <$> mapM sextet r) as Hm.
    { unfold tail. rewrite mapM_app, drop_replicate.
      assert (∀ n, mapM sextet (replicate n A) = Some (replicate n 0)) as ->.
      { induction n as [|n IH]; [done|]. simpl. by rewrite HA, IH. }
      by destruct (mapM sextet r). }
    clearbody tail. destruct tail as [|c0 [|c1 [|c2 [|c3 [|]]]]]; try done. by eexists _, _, _, _. }
  pose proof (DecodeThreeChars_spec c0 c1 c2 c3 Hb) as Hd. rewrite <-Ht, Hm in Hd.
  destruct (mapM sextet r) as [s|] eqn:Es; [|done]. cbn [fmap option_fmap option_map] in Hd.
  destruct Hd as (b0&b1&b2&->&Hbs&Hs&Hdig). eexists. split; [done|]. cbv zeta.
  apply Forall_app in Hs as [Hs _]. split; [by apply Forall_take|].
  split; [rewrite length_take; simpl; lia|]. split; [done|].
  assert (length s = length r) as Hls by (by apply length_mapM in Es).
  rewrite !Forall_cons in Hbs. destruct Hbs as (?&?&?&_). unfold is_byte in *.
  pose proof (digits_range 64 s ltac:(lia) Hs) as Hrange. rewrite digits_app, length_replicate in Hdig.
  assert (digits 64 (replicate (4 - length r) 0) = 0) as Hz.
  { generalize (4 - length r)%nat. intros n. induction n as [|n IH]; [done|].
    rewrite replicate_S_end, digits_snoc, IH. done. }
  rewrite Hz in Hdig. replace (digits 256 [b0; b1; b2]) with (b0 * 65536 + b1 * 256 + b2) in Hdig
    by (unfold digits; simpl; lia).
  set (n := digits 64 s) in *. clearbody n. clear Hz Hr Hm Es Hs Ht.
  assert (length r = 2 ∨ length r = 3 ∨ length r = 4)%nat as [Hl|[Hl|Hl]] by lia; rewrite Hl in *.
  - change (take _ _) with [b0]. change (digits 256 [b0]) with b0. change (2 ^ (_ mod _)) with 16.
    change (64 ^ _) with 4096 in Hdig. lia.
  - change (take _ _) with [b0; b1]. replace (digits 256 [b0; b1]) with (b0 * 256 + b1) by (unfold digits; simpl; lia).
    change (2 ^ (_ mod _)) with 4. change (64 ^ _) with 64 in Hdig. lia.
  - change (take _ _) with [b0; b1; b2].
    replace (digits 256 [b0; b1; b2]) with (b0 * 65536 + b1 * 256 + b2) by (unfold digits; simpl; lia).
    change (2 ^ (_ mod _)) with 1. change (64 ^ _) with 1 in Hdig. lia.
Qed.

(** Lists are processed in blocks of four. *)
Lemma blocks_ind (P : list Z → Prop) :
  (∀ l, (length l <= 4)%nat → P l) →
  (∀ c0 c1 c2 c3 d l, P (d :: l) → P (c0 :: c1 :: c2 :: c3 :: d :: l)) →
  ∀ l, P l.
Proof.
  intros Hs Hb l. induction (Nat.lt_wf_0_projected (length (A := Z)) l) as [l _ IH].
  destruct (decide (length l <= 4)%nat); [by apply Hs|].
  destruct l as [|c0 [|c1 [|c2 [|c3 [|d l]]]]]; simpl in *; try lia.
  apply Hb, IH. simpl. lia.
Qed.

Lemma cut_padding_unpadded l : (length l <= 4)%nat → cut_padding l = unpadded l.
Proof.
  destruct l as [|c0 [|c1 [|c2 [|c3 [|]]]]]; simpl; intros; try done; try lia.
  unfold cut_padding, byte_at. simpl. by destruct (c3 =? kPadChar), (c2 =? kPadChar).
Qed.

Lemma decode_blocks_spec data :
  data ≠ [] → Forall is_byte data →
  match decode_blocks data with
  | (StatusOK, buffer, tail) => ∃ b s, data = b ++ tail ∧ (1 <= length tail <= 4)%nat ∧
      (length b mod 4 = 0)%nat ∧ unpadded data = b ++ unpadded tail ∧ mapM sextet b = Some s ∧
      Forall is_digit6 s ∧ Forall is_byte buffer ∧ (4 * length buffer = 3 * length b)%nat ∧
      digits 256 buffer = digits 64 s
  | (st, _, _) => st = InvalidArgument "Invalid character found in base64." ∧ mapM sextet (unpadded data) = None
  end.
Proof.
  induction data as [l Hl|c0 c1 c2 c3 d l IH] using blocks_ind; intros Hne Hb.
  - assert (decode_blocks l = (StatusOK, [], l)) as ->.
    { destruct l as [|? [|? [|? [|? [|]]]]]; simpl in *; (done || lia). }
    exists [], []. split_and!; try done. by destruct l; simpl in *; try lia.
  - set (rest := d :: l) in *. replace (c0 :: c1 :: c2 :: c3 :: rest) with ([c0; c1; c2; c3] ++ rest) in * by done.
    apply Forall_app in Hb as [Hc Hrest]. specialize (IH ltac:(done) Hrest).
    assert (decode_blocks ([c0; c1; c2; c3] ++ rest) =
      let '(s, result) := DecodeThreeChars [c0; c1; c2; c3] in
      if negb (ok s) then (s, [], [c0; c1; c2; c3] ++ rest)
      else let '(s, buffer, tail) := decode_blocks rest in (s, result ++ buffer, tail)) as -> by done.
    assert (unpadded ([c0; c1; c2; c3] ++ rest) = [c0; c1; c2; c3] ++ unpadded rest) as Hu by done.
    pose proof (DecodeThreeChars_spec c0 c1 c2 c3 Hc) as Hd.
    destruct (mapM sextet [c0; c1; c2; c3]) as [s|] eqn:Es.
    2: { rewrite Hd. cbn [ok negb InvalidArgument]. split; [done|]. by rewrite Hu, mapM_app, Es. }
    destruct Hd as (b0&b1&b2&->&Hbs&Hs&Hdig). cbn [ok negb].
    destruct (decode_blocks rest) as [[[|c m] buffer] tail].
    2: { destruct IH as [-> E]. split; [done|]. by rewrite Hu, mapM_app, Es, E. }
    destruct IH as (b&s'&E&Ht&Hmod&Hun&Hm&Hs'&Hbuf&Hlen&Hdig'). exists ([c0; c1; c2; c3] ++ b), (s ++ s').
    rewrite Hu, Hun, E, mapM_app, Es, Hm.
    apply length_mapM in Hm as Hlm. rewrite !digits_app, Hdig, Hdig', <-Hlm.
    split_and!; rewrite ?length_app; cbn [length]; rewrite ?app_assoc; try done; try lia.
    + replace (4 + length b)%nat with (length b + 1 * 4)%nat by lia. by rewrite Nat.Div0.mod_add.
    + by apply Forall_app.
    + by apply Forall_app.
    + f_equal. f_equal. replace (Z.of_nat (length b)) with (4 * (Z.of_nat (length b) / 4)) by lia.
      replace (Z.of_nat (length buffer)) with (3 * (Z.of_nat (length b) / 4)) by lia.
      rewrite !Z.pow_mul_r by lia. done.
Qed.

Lemma Base64Decode_digits data old :
  Forall is_byte data →
  match base64_digits data with
  | Some s => ∃ out, Base64Decode data (Some old) = (StatusOK, Some out) ∧ Forall is_byte out ∧
      Z.of_nat (length out) = 6 * Z.of_nat (length s) / 8 ∧
      digits 256 out = digits 64 s / 2 ^ ((6 * Z.of_nat (length s)) mod 8)
  | None => ∃ msg, Base64Decode data (Some old) = (InvalidArgument msg, Some old)
  end.
Proof.
  intros Hb. unfold Base64Decode. destruct (bool_decide_reflect (data = [])) as [->|Hne]; [by exists []|].
  pose proof (decode_blocks_spec data Hne Hb) as Hd. unfold base64_digits.
  destruct (decode_blocks data) as [[[|c m] buffer] tail].
  2: { destruct Hd as [-> ->]. cbn. by eexists. }
  destruct Hd as (b&s&->&Ht&Hmod&->&Hm&Hs&Hbuf&Hlb&Hdig). cbn [ok negb].
  apply Forall_app in Hb as [_ Hb]. rewrite cut_padding_unpadded, mapM_app, Hm by lia. cbn [mbind option_bind].
  assert (Forall is_byte (unpadded tail) ∧ (1 <= length (unpadded tail) <= 4)%nat) as [Hbu Hlu].
  { destruct tail as [|c0 [|c1 [|c2 [|c3 [|]]]]]; simpl in Ht; try lia; try done.
    simpl. rewrite !Forall_cons in Hb. repeat case_match; simpl; rewrite ?Forall_cons; naive_solver lia. }
  set (r := unpadded tail) in *. clearbody r. apply length_mapM in Hm as Hls.
  destruct (Nat.eqb_spec (length r) 1) as [H1|H1].
  { destruct (mapM sextet r) as [s'|] eqn:Er; cbn [mbind option_bind]; [|by eexists].
    apply length_mapM in Er. rewrite length_app, decide_True; [by eexists|].
    rewrite <-Hls, <-Er, H1, <-(Nat.Div0.add_mod_idemp_l), Hmod. done. }
  pose proof (decode_tail r Hbu ltac:(lia)) as Htail. cbv zeta in Htail.
  destruct (mapM sextet r) as [s'|] eqn:Er; cbn [mbind option_bind].
  2: { rewrite Htail. cbn. by eexists. }
  destruct Htail as (result&->&Hout&Hlo&Hs'&Hdig'). apply length_mapM in Er. cbn [ok negb].
  rewrite decide_False.
  2: { rewrite length_app, <-Hls, <-Er, <-(Nat.Div0.add_mod_idemp_l), Hmod.
       assert (length r = 2 ∨ length r = 3 ∨ length r = 4)%nat as [Hl|[Hl|Hl]] by lia; rewrite Hl; done. }
  eexists. split; [done|]. split; [by apply Forall_app|].
  assert (Z.of_nat (length b) mod 4 = 0) by lia.
  rewrite !digits_app, Hdig, Hdig', !length_app, Hlo, <-Er, <-Hls.
  split; [lia|]. set (n := digits 64 s). set (n' := digits 64 s').
  replace ((6 * Z.of_nat (length b + length r)) mod 8) with ((6 * Z.of_nat (length r)) mod 8) by lia.
  set (e := (6 * Z.of_nat (length r)) mod 8).
  replace (64 ^ Z.of_nat (length r)) with (256 ^ Z.of_nat (length r - 1) * 2 ^ e).
  - rewrite Z.mul_assoc, Z.div_add_l; [done|]. apply Z.pow_nonzero; lia.
  - change 256 with (2 ^ 8). change 64 with (2 ^ 6). rewrite <-!Z.pow_mul_r, <-Z.pow_add_r by lia.
    f_equal. unfold e. lia.
Qed.

(** * The encoder *)

Lemma encode_high d : is_byte d → Z.land (Z.shiftr d 2) 0x3F = d / 4.
Proof.
  unfold is_byte. intros. change 0x3F with (Z.ones 6).
  rewrite Z.land_ones, Z.shiftr_div_pow2 by lia. lia.
Qed.

Lemma encode_mid d e m n : is_byte e → 0 <= m → 0 <= n <= 8 → m + n = 6 →
  Z.lor (Z.shiftl (Z.land d (Z.ones m)) n) (Z.land (Z.shiftr e (8 - n)) (Z.ones n)) =
  d mod 2 ^ m * 2 ^ n + e / 2 ^ (8 - n).
Proof.
  unfold is_byte. intros He Hm Hn Hmn. rewrite !Z.land_ones, Z.shiftr_div_pow2 by lia.
  assert (0 <= e / 2 ^ (8 - n) < 2 ^ n) as Hen.
  { split; [apply Z.div_pos; lia|]. apply Z.div_lt_upper_bound; [lia|].
    rewrite <-Z.pow_add_r by lia. replace (8 - n + n) with 8 by lia. lia. }
  rewrite (Z.mod_small _ (2 ^ n)), Z.lor_comm, lor_shiftl by lia. lia.
Qed.

Lemma encode_mid_4 d e : is_byte e →
  Z.lor (Z.shiftl (Z.land d 0x03) 4) (Z.land (Z.shiftr e 4) 0x0F) = d mod 4 * 16 + e / 16.
Proof. intros He. apply (encode_mid d e 2 4 He); lia. Qed.

Lemma encode_mid_2 d e : is_byte e →
  Z.lor (Z.shiftl (Z.land d 0x0F) 2) (Z.land (Z.shiftr e 6) 0x03) = d mod 16 * 4 + e / 64.
Proof. intros He. apply (encode_mid d e 4 2 He); lia. Qed.

Lemma encode_last_4 d : Z.shiftl (Z.land d 0x03) 4 = d mod 4 * 16.
Proof. change 0x03 with (Z.ones 2). by rewrite Z.land_ones, Z.shiftl_mul_pow2 by lia. Qed.

Lemma encode_last_2 d : Z.shiftl (Z.land d 0x0F) 2 = d mod 16 * 4.
Proof. change 0x0F with (Z.ones 4). by rewrite Z.land_ones, Z.shiftl_mul_pow2 by lia. Qed.

(** A complete block. *)
Lemma encode_block d0 d1 d2 rest pad :
  Forall is_byte [d0; d1; d2] →
  ∃ s, encode_blocks pad (d0 :: d1 :: d2 :: rest) = (base64_char <$> s) ++ encode_blocks pad rest ∧
    length s = 4%nat ∧ Forall is_digit6 s ∧ digits 64 s = digits 256 [d0; d1; d2].
Proof.
  rewrite !Forall_cons. intros (H0&H1&H2&_).
  exists [d0 / 4; d0 mod 4 * 16 + d1 / 16; d1 mod 16 * 4 + d2 / 64; d2 mod 64].
  cbn [encode_blocks]. rewrite encode_high, encode_mid_4, encode_mid_2 by done. change 0x3F with (Z.ones 6). rewrite Z.land_ones by lia.
  unfold is_byte in *. split_and!; [done|done| |].
  - repeat constructor; lia.
  - unfold digits. cbn. lia.
Qed.

(** The tail. *)
Lemma encode_tail data pad :
  Forall is_byte data → (length data <= 2)%nat →
  ∃ s, encode_blocks pad data =
      (base64_char <$> s) ++ (if pad then replicate ((4 - length s) mod 4) kPadChar else []) ∧
    Z.of_nat (length s) = (8 * Z.of_nat (length data) + 5) / 6 ∧ Forall is_digit6 s ∧
    digits 64 s = digits 256 data * 2 ^ (6 * Z.of_nat (length s) - 8 * Z.of_nat (length data)).
Proof.
  intros Hb Hl. destruct data as [|d0 [|d1 [|]]]; [| | |simpl in Hl; lia]; rewrite ?Forall_cons in Hb.
  - exists []. by destruct pad.
  - destruct Hb as [H0 _]. exists [d0 / 4; d0 mod 4 * 16]. cbn [encode_blocks].
    rewrite encode_high, encode_last_4 by done.
    unfold is_byte in H0. split_and!; [by destruct pad|done|repeat constructor; lia|].
    change (2 ^ _) with 16. unfold digits. cbn. lia.
  - destruct Hb as (H0&H1&_). exists [d0 / 4; d0 mod 4 * 16 + d1 / 16; d1 mod 16 * 4]. cbn [encode_blocks].
    rewrite encode_high, encode_mid_4, encode_last_2 by done.
    unfold is_byte in *. split_and!; [by destruct pad|done|repeat constructor; lia|].
    change (2 ^ _) with 4. unfold digits. cbn. lia.
Qed.

(** The digits of the encoding and the padding after them. *)
Lemma encode_blocks_spec data pad :
  Forall is_byte data →
  ∃ s, encode_blocks pad data =
      (base64_char <$> s) ++ (if pad then replicate ((4 - length s mod 4) mod 4) kPadChar else []) ∧
    Z.of_nat (length s) = (8 * Z.of_nat (length data) + 5) / 6 ∧ Forall is_digit6 s ∧
    digits 64 s = digits 256 data * 2 ^ (6 * Z.of_nat (length s) - 8 * Z.of_nat (length data)).
Proof.
  induction (Nat.lt_wf_0_projected (length (A := Z)) data) as [data _ IH]. intros Hb.
  destruct data as [|d0 [|d1 [|d2 rest]]].
  1-3: (destruct (encode_tail _ pad Hb) as (s&->&Hl&Hs&Hd); [simpl; lia|]); exists s;
    rewrite (Nat.mod_small (length s) 4) by (cbn [length] in Hl; lia); done.
  apply (Forall_app is_byte [d0; d1; d2] rest) in Hb as [Hb Hrest].
  destruct (encode_block d0 d1 d2 rest pad Hb) as (s&->&Hl4&Hs&Hd).
  destruct (IH rest ltac:(simpl; lia) Hrest) as (s'&->&Hl'&Hs'&Hd'). exists (s ++ s').
  rewrite fmap_app, <-app_assoc, length_app, Hl4. split_and!.
  - replace (4 + length s')%nat with (length s' + 1 * 4)%nat by lia. by rewrite Nat.Div0.mod_add.
  - cbn [length]. lia.
  - by apply Forall_app.
  - change (d0 :: d1 :: d2 :: rest) with ([d0; d1; d2] ++ rest). rewrite !digits_app, Hd, Hd', length_app.
    cbn [length]. set (m := digits 256 [d0; d1; d2]).
    replace (6 * Z.of_nat (4 + length s') - 8 * Z.of_nat (3 + length rest))
      with (6 * Z.of_nat (length s') - 8 * Z.of_nat (length rest)) by lia.
    set (e := 6 * Z.of_nat (length s') - 8 * Z.of_nat (length rest)).
    replace (64 ^ Z.of_nat (length s')) with (256 ^ Z.of_nat (length rest) * 2 ^ e); [lia|].
    change 256 with (2 ^ 8). change 64 with (2 ^ 6).
    rewrite <-!Z.pow_mul_r, <-Z.pow_add_r by (unfold e; lia). f_equal. unfold e. lia.
Qed.

(** The padding of an encoding is found. *)
Lemma unpadded_padding l k :
  Forall (λ c, c ≠ kPadChar) l → k = O ∨ ((k <= 2)%nat ∧ ((length l + k) mod 4 = 0)%nat ∧ l ≠ []) →
  unpadded (l ++ replicate k kPadChar) = l.
Proof.
  induction l as [l Hl|c0 c1 c2 c3 d l IH] using blocks_ind; intros Hc Hk.
  - rewrite <-cut_padding_unpadded.
    2: { rewrite length_app, length_replicate. destruct Hk as [->|(?&Hm&?)]; [lia|].
         destruct l as [|? [|? [|? [|? [|]]]]]; simpl in *; try lia; destruct k as [|[|[|]]]; simpl in *; lia. }
    unfold cut_padding, byte_at.
    destruct Hk as [->|(Hk&Hm&Hne)].
    + rewrite app_nil_r. destruct l as [|c0 [|c1 [|c2 [|c3 [|]]]]]; simpl in *; try done; try lia.
      rewrite !Forall_cons in Hc. destruct Hc as (_&_&_&H3&_).
      destruct (Z.eqb_spec c3 kPadChar); [done|]. by rewrite !andb_false_r.
    + destruct l as [|c0 [|c1 [|c2 [|c3 [|]]]]]; destruct k as [|[|[|]]]; simpl in *; try done; try lia.
      * rewrite !Forall_cons in Hc. destruct Hc as (_&_&H2&_). destruct (Z.eqb_spec c2 kPadChar); [done|].
        by cbn.
      * rewrite !Forall_cons in Hc. destruct Hc as (_&_&_&H3&_).
        destruct (Z.eqb_spec c3 kPadChar); [done|]. by rewrite !andb_false_r.
  - change ((c0 :: c1 :: c2 :: c3 :: d :: l) ++ replicate k kPadChar) with
      (c0 :: c1 :: c2 :: c3 :: (d :: l) ++ replicate k kPadChar).
    change (unpadded (c0 :: c1 :: c2 :: c3 :: (d :: l) ++ replicate k kPadChar)) with
      (c0 :: c1 :: c2 :: c3 :: unpadded ((d :: l) ++ replicate k kPadChar)).
    rewrite IH; [done|by do 4 apply Forall_inv_tail in Hc|].
    destruct Hk as [->|(Hk&Hm&_)]; [by left|right]. split_and!; [done| |done].
    replace (length (c0 :: c1 :: c2 :: c3 :: d :: l) + k)%nat with (length (d :: l) + k + 1 * 4)%nat in Hm
      by (cbn [length]; lia). by rewrite Nat.Div0.mod_add in Hm.
Qed.

(** The loop leaves room in the buffer for the last block. *)
Lemma decode_blocks_fits data :
  let '(_, buffer, tail) := decode_blocks data in
  (length buffer + 3 <= max_decoded_size data ∧ length tail <= length data)%nat.
Proof.
  unfold max_decoded_size. induction data as [l Hl|c0 c1 c2 c3 d l IH] using blocks_ind.
  - destruct l as [|? [|? [|? [|? [|]]]]]; simpl in *; lia.
  - change (decode_blocks (c0 :: c1 :: c2 :: c3 :: d :: l)) with
      (let '(s, result) := DecodeThreeChars [c0; c1; c2; c3] in
       if negb (ok s) then (s, [], c0 :: c1 :: c2 :: c3 :: d :: l)
       else let '(s, buffer, tail) := decode_blocks (d :: l) in (s, result ++ buffer, tail)).
    unfold DecodeThreeChars. destruct (negb (_ =? _)); cbn [ok negb InvalidArgument]; [cbn [length]; lia|].
    destruct (decode_blocks (d :: l)) as [[st buffer] tail]. rewrite length_app. cbn [length] in *.
    assert (S (S (S (S (S (length l))))) / 4 = S (S (length l) / 4))%nat as ->.
    { replace (S (S (S (S (S (length l)))))) with (1 * 4 + S (length l))%nat by lia.
      by rewrite Nat.div_add_l. }
    lia.
Qed.

Lemma mapM_sextet_chars s : Forall is_digit6 s → mapM sextet (base64_char <$> s) = Some s.
Proof.
  induction 1 as [|c s Hc Hs IH]; [done|]. cbn [mapM fmap list_fmap].
  destruct (base64_char_spec c Hc) as [-> _]. cbn [mbind option_bind]. by rewrite IH.
Qed.

(** The lengths of data and digits, and the padding. *)
Lemma encoded_length n m :
  Z.of_nat m = (8 * Z.of_nat n + 5) / 6 →
  ∃ q c, m = (c + q * 4)%nat ∧ (m mod 4 = c)%nat ∧ (c = 0 ∨ c = 2 ∨ c = 3)%nat ∧ (q <= n / 3)%nat.
Proof.
  intros Hm. pose proof (Nat.div_mod_eq n 3) as Hn. pose proof (Nat.mod_upper_bound n 3 ltac:(lia)).
  set (q := (n / 3)%nat) in *. set (r := (n mod 3)%nat) in *. clearbody q r. subst n.
  assert (∃ c, (c = 0 ∨ c = 2 ∨ c = 3)%nat ∧ m = (c + q * 4)%nat) as (c&Hc&->).
  { assert (r = 0 ∨ r = 1 ∨ r = 2)%nat as [Hr|[Hr|Hr]] by lia; subst r;
      [exists 0%nat|exists 2%nat|exists 3%nat]; split; lia. }
  exists q, c. split; [done|]. rewrite Nat.Div0.mod_add. split; [|split; [done|lia]].
  apply Nat.mod_small. lia.
Qed.

(** * Theorems *)

(** The decoder computes the base conversion that base64 is. An input whose
    characters, less the padding of a complete last block, are base64 digits, not one
    more than a multiple of four, is decoded to the bytes that are the digits to
    base 256 of the same number, less the bits that do not fill a byte; any other
    input is refused as an invalid argument and leaves the output as it was; and the blocks
    decoded before the last leave room for it in the buffer. *)
Theorem Base64Decode_spec (data old : list Z) :
  Forall is_byte data →
  match base64_digits data with
  | Some s => ∃ out, Base64Decode data (Some old) = (StatusOK, Some out) ∧ Forall is_byte out ∧
      Z.of_nat (length out) = 6 * Z.of_nat (length s) / 8 ∧
      digits 256 out = digits 64 s / 2 ^ ((6 * Z.of_nat (length s)) mod 8)
  | None => ∃ msg, Base64Decode data (Some old) = (InvalidArgument msg, Some old)
  end ∧
  (let '(_, buffer, _) := decode_blocks data in (length buffer + 3 <= max_decoded_size data)%nat).
Proof.
  intros Hb. split; [by apply Base64Decode_digits|]. pose proof (decode_blocks_fits data) as H.
  destruct (decode_blocks data) as [[st buffer] tail]. apply H.
Qed.

Lemma Base64Decode_spec_witness :
  base64_digits [90; 109; 56; 61] = Some [25; 38; 60] ∧
  (∃ out, Base64Decode [90; 109; 56; 61] (Some []) = (StatusOK, Some out) ∧
    digits 256 out = digits 64 [25; 38; 60] / 4) ∧
  base64_digits [90; 61; 61; 61] = None ∧
  (∃ msg, Base64Decode [90; 61; 61; 61] (Some [7]) = (InvalidArgument msg, Some [7])).
Proof.
  assert (Forall is_byte [90; 109; 56; 61] ∧ Forall is_byte [90; 61; 61; 61]) as [H1 H2]
    by (split; repeat constructor; lia).
  split; [reflexivity|]. split.
  - destruct (Base64Decode_spec _ [] H1) as [(out&E&_&_&D) _]. exists out. split; [exact E|exact D].
  - split; [reflexivity|]. exact (proj1 (Base64Decode_spec _ [7] H2)).
Defined.

(** What is encoded is decoded, with or without padding; the encoding fits the
    buffer that is allocated for it and consists of the sixty-four web-safe
    characters, the shortest number of them that can hold the data, and the
    padding. *)
Theorem base64_round_trip (data old old' : list Z) (with_padding : bool) :
  Forall is_byte data →
  ∃ s encoded, Base64Encode data with_padding (Some old) = (StatusOK, Some encoded) ∧
    encoded = (base64_char <$> s) ++ (if with_padding then replicate ((4 - length s mod 4) mod 4) kPadChar else []) ∧
    Z.of_nat (length s) = (8 * Z.of_nat (length data) + 5) / 6 ∧ Forall is_digit6 s ∧
    (length encoded <= max_encoded_size data)%nat ∧
    Base64Decode encoded (Some old') = (StatusOK, Some data).
Proof.
  intros Hb. destruct (encode_blocks_spec data with_padding Hb) as (s&E&Hl&Hs&Hd).
  exists s, (encode_blocks with_padding data). split; [done|]. split; [done|]. split; [done|]. split; [done|].
  destruct (encoded_length _ _ Hl) as (q&c&Hq&Hmod&Hc&Hfit).
  set (k := if with_padding then ((4 - length s mod 4) mod 4)%nat else O).
  assert (encode_blocks with_padding data = (base64_char <$> s) ++ replicate k kPadChar) as E'
    by (rewrite E; unfold k; by destruct with_padding).
  assert (k = O ∨ ((k <= 2)%nat ∧ ((length (base64_char <$> s) + k) mod 4 = 0)%nat ∧ base64_char <$> s ≠ [])) as Hk.
  { unfold k. destruct with_padding; [|by left]. rewrite length_fmap, Hmod.
    destruct Hc as [-> | [-> | ->]]; [by left|right..]; (split; [simpl; lia|]).
    all: split; [rewrite <-Nat.Div0.add_mod_idemp_l, Hmod; done|intros ->%fmap_nil_inv; done]. }
  assert (Forall is_byte (encode_blocks with_padding data)) as Hbe.
  { rewrite E'. apply Forall_app. split.
    - apply Forall_fmap. eapply Forall_impl; [exact Hs|]. intros x Hx. apply (base64_char_spec x Hx).
    - apply Forall_replicate. unfold is_byte, kPadChar. lia. }
  split.
  { rewrite E', length_app, length_fmap, length_replicate. unfold max_encoded_size.
    unfold k. rewrite Hmod, Hq. generalize dependent (length data / 3)%nat.
    intros n Hn. clear - Hn Hc. destruct with_padding, Hc as [-> | [-> | ->]]; simpl; lia. }
  pose proof (Base64Decode_digits _ old' Hbe) as Hdec. unfold base64_digits in Hdec.
  rewrite E', unpadded_padding, mapM_sextet_chars in Hdec; [|done| |done].
  2: { apply Forall_fmap. eapply Forall_impl; [exact Hs|]. intros x Hx. apply (base64_char_spec x Hx). }
  cbn [mbind option_bind] in Hdec. rewrite Hmod, decide_False in Hdec by lia.
  destruct Hdec as (out&Ho&Hbo&Hlo&Hdo). rewrite E', Ho. do 2 f_equal.
  apply (digits_inj 256); [lia|done|done|lia|]. rewrite Hdo, Hd.
  replace (6 * Z.of_nat (length s) - 8 * Z.of_nat (length data)) with ((6 * Z.of_nat (length s)) mod 8) by lia.
  apply Z.div_mul, Z.pow_nonzero; lia.
Qed.

Lemma base64_round_trip_witness :
  ∃ (s encoded : list Z), Base64Encode [102; 111; 111; 255] true (Some []) = (StatusOK, Some encoded) ∧
    length s = 6%nat ∧ Base64Decode encoded (Some [1]) = (StatusOK, Some [102; 111; 111; 255]).
Proof.
  destruct (base64_round_trip [102; 111; 111; 255] [] [1] true) as (s&e&He&_&Hl&_&_&Hd);
    [repeat constructor; lia|].
  exists s, e. split; [exact He|]. split; [|exact Hd]. change ((8 * _ + 5) / 6) with 6 in Hl. lia.
Defined.
