(* ===== verification/FlatMap.v ===== *)
(** Flat hash tables: [tensorflow/core/lib/gtl/flatrep.h], [flatmap.h] and
    [flatset.h].

    [FlatRep] is an open-addressed table with triangular probing.  The array of
    buckets is kept as three arrays of its entries (markers, keys, values), eight per
    bucket, in the order of the buckets: entry [i] of bucket [b] is at [8 b + i].
    A key or value that is not constructed is [None].  The hasher and the
    comparator are the class [HashKey].  The probing loops end at an empty entry
    only, so each takes fuel and is [None] when the fuel is used up.

    The theorems: while the counters are exact the loops end, and a [FlatMap] is a
    finite map for any sequence of operations; iteration yields each entry once;
    and the one operation that makes the counters wrong, clearing a table
    that has deleted entries and a single bucket, can make a later search run for
    ever. *)
From S2P Require Import Prelude.
Local Open Scope Z_scope.

Ltac Zify.zify_post_hook ::= Z.to_euclidean_division_equations.

Class HashKey (K : Type) := {
  hash : K → Z;
  equal : K → K → bool;
  hash_range k : is_u64 (hash k);
  equal_spec a b : equal a b = true ↔ a = b }.

(** * [FlatRep] *)

Definition kBase : Z := 3.
Definition kWidth : Z := Z.shiftl 1 kBase.
Definition kEmpty : Z := 0.
Definition kDeleted : Z := 1.

Definition Marker (hb : Z) : Z := u32 (hb + (if hb <? 2 then 2 else 0)).

(** The loop of [Init].  [0.8 * x] is never an integer for a power of two [x], so
    the comparison of floating-point numbers is that of the rational ones.  The product with
    [kWidth] has 32 bits; [fuel] is what the loop can use before it wraps. *)
Fixpoint init_lg (fuel : nat) (N lg : Z) : Z :=
  match fuel with
  | O => lg
  | S fuel => if 4 * u32 (Z.shiftl 1 lg * kWidth) <=? 5 * N then init_lg fuel N (lg + 1) else lg
  end.

(** [static_cast<size_t>(x * 0.8)] and [static_cast<size_t>(x * 0.4)]. *)
Definition times_0_8 (x : Z) : Z := 4 * x / 5.
Definition times_0_4 (x : Z) : Z := 2 * x / 5.

Record SearchResult := mkResult { found : bool; sr_b : Z; sr_index : Z }.

Section flat_rep.
Context {K V : Type} `{HashKey K}.

Record FlatRep := mkFlatRep {
  lglen_ : Z;
  marker_ : list Z;
  key_ : list (option K);
  val_ : list (option V);
  mask_ : Z;
  not_empty_ : Z;
  deleted_ : Z;
  grow_ : Z;
  shrink_ : Z }.
Implicit Types t : FlatRep.

(** The place of entry [i] of bucket [b] in the arrays. *)
Definition slot (b i : Z) : nat := Z.to_nat (b * kWidth + i).

Definition marker t (b i : Z) : Z := nth (slot b i) (marker_ t) kEmpty.
Definition key t (b i : Z) : option K := nth (slot b i) (key_ t) None.
Definition val t (b i : Z) : option V := nth (slot b i) (val_ t) None.

Definition set_entry (b i m : Z) (k : option K) (v : option V) t : FlatRep :=
  mkFlatRep (lglen_ t) (<[slot b i := m]> (marker_ t)) (<[slot b i := k]> (key_ t))
    (<[slot b i := v]> (val_ t)) (mask_ t) (not_empty_ t) (deleted_ t) (grow_ t) (shrink_ t).

Definition set_counts (not_empty deleted grow : Z) t : FlatRep :=
  mkFlatRep (lglen_ t) (marker_ t) (key_ t) (val_ t) (mask_ t) not_empty deleted grow (shrink_ t).

Definition size t : Z := u64 (not_empty_ t - deleted_ t).
Definition bucket_count t : Z := u64 (mask_ t + 1).

Definition Init (N : Z) : FlatRep :=
  let lg := init_lg 29 N 0 in
  let n := Z.shiftl 1 lg in
  let capacity := u32 (n * kWidth) in
  let entries := Z.to_nat (n * kWidth) in
  let grow := times_0_8 capacity in
  mkFlatRep lg (replicate entries kEmpty) (replicate entries None) (replicate entries None)
    (u64 (capacity - 1)) 0 0 grow (if lg =? 0 then 0 else times_0_4 grow).

Definition NextIndex t (i num_probes : Z) : Z := Z.land (u64 (i + num_probes)) (mask_ t).

Definition first_index t (h : Z) : Z := Z.land (Z.shiftr h 8) (mask_ t).

(** [equal_(b->key(bi), k)], on a key that is constructed. *)
Definition key_is t (b bi : Z) (k : K) : bool :=
  match key t b bi with Some k' => equal k' k | None => false end.

Fixpoint find_loop (fuel : nat) t (k : K) (mark index num_probes : Z) : option SearchResult :=
  match fuel with
  | O => None
  | S fuel =>
      let bi := Z.land index (kWidth - 1) in
      let b := Z.shiftr index kBase in
      let x := marker t b bi in
      if (x =? mark) && key_is t b bi k then Some (mkResult true b bi)
      else if x =? kEmpty then Some (mkResult false 0 0)
      else find_loop fuel t k mark (NextIndex t index num_probes) (u32 (num_probes + 1))
  end.

(** As many probes as there are entries. *)
Definition probes t : nat := length (marker_ t).

Definition Find (k : K) t : option SearchResult :=
  let h := hash k in
  find_loop (probes t) t k (Marker (Z.land h 0xff)) (first_index t h) 1.

Fixpoint find_or_insert_loop (fuel : nat) t (k : K) (mark index num_probes : Z)
    (del : option (Z * Z)) : option (SearchResult * FlatRep) :=
  match fuel with
  | O => None
  | S fuel =>
      let bi := Z.land index (kWidth - 1) in
      let b := Z.shiftr index kBase in
      let x := marker t b bi in
      let next := find_or_insert_loop fuel t k mark (NextIndex t index num_probes) (u32 (num_probes + 1)) in
      if (x =? mark) && key_is t b bi k then Some (mkResult true b bi, t)
      else if bool_decide (del = None) && (x =? kDeleted) then next (Some (b, bi))
      else if x =? kEmpty then
        match del with
        | Some (b, bi) =>
            let t := set_counts (not_empty_ t) (u64 (deleted_ t - 1)) (grow_ t) t in
            Some (mkResult false b bi, set_entry b bi mark (Some k) None t)
        | None =>
            let t := set_counts (u64 (not_empty_ t + 1)) (deleted_ t) (grow_ t) t in
            Some (mkResult false b bi, set_entry b bi mark (Some k) None t)
        end
      else next del
  end.

Definition FindOrInsert (k : K) t : option (SearchResult * FlatRep) :=
  let h := hash k in
  find_or_insert_loop (probes t) t k (Marker (Z.land h 0xff)) (first_index t h) 1 None.

Definition Erase (b i : Z) t : FlatRep :=
  let t := set_entry b i kDeleted None None t in
  set_counts (not_empty_ t) (u64 (deleted_ t + 1)) 0 t.

(** [FreshInsert] of an entry with key [k] and value [v]. *)
Fixpoint fresh_insert_loop (fuel : nat) t (k : K) (v : option V) (mark index num_probes : Z) :
    option FlatRep :=
  match fuel with
  | O => None
  | S fuel =>
      let bi := Z.land index (kWidth - 1) in
      let b := Z.shiftr index kBase in
      let x := marker t b bi in
      if x =? 0 then
        Some (set_entry b bi mark (Some k) v
          (set_counts (u64 (not_empty_ t + 1)) (deleted_ t) (grow_ t) t))
      else fresh_insert_loop fuel t k v mark (NextIndex t index num_probes) (u32 (num_probes + 1))
  end.

Definition FreshInsert (k : K) (v : option V) t : option FlatRep :=
  let h := hash k in
  fresh_insert_loop (probes t) t k v (Marker (Z.land h 0xff)) (first_index t h) 1.

(** [CopyEntries], from arrays that are copied or moved from. *)
Fixpoint CopyEntries (markers : list Z) (keys : list (option K)) (vals : list (option V)) t :
    option FlatRep :=
  match markers, keys, vals with
  | m :: markers, k :: keys, v :: vals =>
      if 2 <=? m then
        match k with
        | Some k => t ← FreshInsert k v t; CopyEntries markers keys vals t
        | None => None
        end
      else CopyEntries markers keys vals t
  | _, _, _ => Some t
  end.

Definition Resize (N : Z) t : option FlatRep := CopyEntries (marker_ t) (key_ t) (val_ t) (Init N).

(** The copy constructor, and [CopyFrom] another table. *)
Definition CopyFrom (src : FlatRep) : option FlatRep :=
  CopyEntries (marker_ src) (key_ src) (val_ src) (Init (size src)).

Definition MaybeResize t : option FlatRep :=
  if not_empty_ t <? grow_ t then Some t
  else if (grow_ t =? 0) && (shrink_ t <=? size t) then
    let t := set_counts (not_empty_ t) (deleted_ t) (times_0_8 (bucket_count t)) t in
    if not_empty_ t <? grow_ t then Some t else Resize (u64 (size t + 1)) t
  else Resize (u64 (size t + 1)) t.

Definition clear_no_resize t : FlatRep :=
  let keep {A} (m : Z) (x : option A) := if 2 <=? m then None else x in
  mkFlatRep (lglen_ t) ((λ m, if 2 <=? m then kEmpty else m) <$> marker_ t)
    (zip_with keep (marker_ t) (key_ t)) (zip_with keep (marker_ t) (val_ t))
    (mask_ t) 0 0 (grow_ t) (shrink_ t).

Definition clear t : option FlatRep :=
  let t := clear_no_resize t in
  MaybeResize (set_counts (not_empty_ t) (deleted_ t) 0 t).

(** * [FlatMap] *)

(** [Insert]: the place of the entry, and whether it is new. *)
Definition Insert (k : K) (v : V) t : option (Z * Z * bool * FlatRep) :=
  t ← MaybeResize t;
  '(r, t) ← FindOrInsert k t;
  let inserted := negb (found r) in
  let t := if inserted
           then set_entry (sr_b r) (sr_index r) (marker t (sr_b r) (sr_index r))
                  (key t (sr_b r) (sr_index r)) (Some v) t
           else t in
  Some (sr_b r, sr_index r, inserted, t).

(** [IndexOp]: the place of the value that it returns a reference to. *)
Definition IndexOp (default : V) (k : K) t : option (Z * Z * FlatRep) :=
  t ← MaybeResize t;
  '(r, t) ← FindOrInsert k t;
  let t := if negb (found r)
           then set_entry (sr_b r) (sr_index r) (marker t (sr_b r) (sr_index r))
                  (key t (sr_b r) (sr_index r)) (Some default) t
           else t in
  Some (sr_b r, sr_index r, t).

(** An assignment through that reference. *)
Definition set_val (b i : Z) (v : V) t : FlatRep :=
  set_entry b i (marker t b i) (key t b i) (Some v) t.

Definition count (k : K) t : option Z := r ← Find k t; Some (if found r then 1 else 0).

(** [at]: the value, for a key that is present. *)
Definition map_at (k : K) t : option (option V) :=
  r ← Find k t; Some (val t (sr_b r) (sr_index r)).

Definition erase (k : K) t : option (Z * FlatRep) :=
  r ← Find k t;
  if negb (found r) then Some (0, t) else Some (1, Erase (sr_b r) (sr_index r) t).

Definition reserve (N : Z) t : option FlatRep := Resize (Z.max N (size t)) t.

(** Iterators: a bucket and an index. *)
Definition limit t : Z := Z.shiftl 1 (lglen_ t).

Fixpoint SkipUnused (fuel : nat) t (b i : Z) : Z * Z :=
  match fuel with
  | O => (b, i)
  | S fuel =>
      if b <? limit t then
        if kWidth <=? i then SkipUnused fuel t (b + 1) 0
        else if marker t b i <? 2 then SkipUnused fuel t b (i + 1)
        else (b, i)
      else (b, i)
  end.

(** A round for each entry and each bucket. *)
Definition skip_fuel t : nat := S (length (marker_ t) + length (marker_ t)).

Definition begin_ t : Z * Z := SkipUnused (skip_fuel t) t 0 0.
Definition end_ t : Z * Z := SkipUnused (skip_fuel t) t (limit t) 0.
Definition next_ t (pos : Z * Z) : Z * Z := SkipUnused (skip_fuel t) t pos.1 (pos.2 + 1).

Definition find (k : K) t : option (Z * Z) :=
  r ← Find k t; Some (if found r then (sr_b r, sr_index r) else end_ t).

(** The entries that a loop from an iterator to the end passes. *)
Fixpoint iterate (fuel : nat) t (pos : Z * Z) : list (option K * option V) :=
  match fuel with
  | O => []
  | S fuel =>
      if bool_decide (pos = end_ t) then []
      else (key t pos.1 pos.2, val t pos.1 pos.2) :: iterate fuel t (next_ t pos)
  end.

Definition erase_at (pos : Z * Z) t : Z * Z * FlatRep :=
  let t := Erase pos.1 pos.2 t in (next_ t pos, t).

(** The loop of [operator==] over the entries of the other map. *)
Fixpoint all_equal `{EqDecision V} (l : list (option K * option V)) t : option bool :=
  match l with
  | [] => Some true
  | (Some k, v) :: l =>
      r ← Find k t;
      if negb (found r) then Some false
      else if bool_decide (val t (sr_b r) (sr_index r) = v) then all_equal l t else Some false
  | (None, _) :: l => None
  end.

Definition map_equal `{EqDecision V} t x : option bool :=
  if negb (size t =? size x) then Some false
  else all_equal (iterate (S (length (marker_ x))) x (begin_ x)) t.
End flat_rep.
Arguments FlatRep : clear implicits.

(** * Probing *)

Lemma odd_factor_divides n a b : 0 <= n → Z.odd a = true → (2 ^ n | a * b) → (2 ^ n | b).
Proof.
  intros Hn Ha. revert n Hn. apply (natlike_ind (λ n, (2 ^ n | a * b) → (2 ^ n | b))).
  { intros _. exists b. lia. }
  intros n Hn IH [x Hx]. rewrite Z.pow_succ_r in * by done.
  destruct IH as [c Hc]; [exists (x * 2); lia|]. assert (0 < 2 ^ n) by lia.
  assert (a * c = x * 2) as E by nia.
  assert (Z.odd c = false) as Hodd.
  { apply (f_equal Z.odd) in E. rewrite !Z.odd_mul, Ha in E. cbn [andb] in E. rewrite E. apply andb_false_r. }
  exists (c / 2). pose proof (Z.div2_odd c) as H2. rewrite Hodd, Z.div2_div in H2. cbn [Z.b2z] in H2.
  rewrite Hc. replace (c / 2 * (2 * 2 ^ n)) with ((2 * (c / 2) + 0) * 2 ^ n) by lia. by rewrite <-H2.
Qed.

(** The triangular numbers below a power of two differ modulo it. *)
Lemma triangular_inj m h p q :
  0 <= m → 0 <= p < q → q < 2 ^ m →
  (h + p * (p + 1) / 2) mod 2 ^ m ≠ (h + q * (q + 1) / 2) mod 2 ^ m.
Proof.
  intros Hm Hp Hq E. assert (0 < 2 ^ m) by lia.
  assert ((2 ^ m | q * (q + 1) / 2 - p * (p + 1) / 2)) as [c Hc].
  { exists ((h + q * (q + 1) / 2) / 2 ^ m - (h + p * (p + 1) / 2) / 2 ^ m).
    pose proof (Z.div_mod (h + q * (q + 1) / 2) (2 ^ m)). pose proof (Z.div_mod (h + p * (p + 1) / 2) (2 ^ m)). lia. }
  assert (∀ z, 2 * (z * (z + 1) / 2) = z * (z + 1)) as Ht.
  { intros z. pose proof (Z.div_mod (z * (z + 1)) 2 ltac:(lia)) as Hd.
    rewrite Zmod_odd, Z.odd_mul, Z.odd_add in Hd. destruct (Z.odd z); simpl in Hd; lia. }
  pose proof (Ht p). pose proof (Ht q).
  assert ((q - p) * (p + q + 1) = c * 2 ^ (m + 1)) as Hf by (rewrite Z.pow_add_r by lia; lia).
  assert (2 ^ (m + 1) = 2 * 2 ^ m) as H2 by (rewrite Z.pow_add_r by lia; lia).
  assert ((2 ^ (m + 1) | p + q + 1) ∨ (2 ^ (m + 1) | q - p)) as [Hd|Hd].
  { destruct (Z.odd (q - p)) eqn:Hodd; [left|right].
    - apply odd_factor_divides with (q - p); [lia|done|]. exists c. done.
    - apply odd_factor_divides with (p + q + 1); [lia| |exists c; lia].
      replace (p + q + 1) with (q - p + (2 * p + 1)) by lia.
      rewrite Z.odd_add, Hodd, Z.add_comm, Z.odd_add_mul_2. done. }
  all: apply Z.divide_pos_le in Hd; lia.
Qed.

Section flat_proofs.
Context {K V : Type} `{HashKey K}.
Implicit Types t : FlatRep K V.

Definition capacity t : Z := Z.of_nat (length (marker_ t)).

(** The shape of the arrays. *)
Record shaped t : Prop := {
  sh_lg : 0 <= lglen_ t <= 28;
  sh_capacity : capacity t = 2 ^ (lglen_ t + 3);
  sh_keys : length (key_ t) = length (marker_ t);
  sh_vals : length (val_ t) = length (marker_ t);
  sh_mask : mask_ t = capacity t - 1 }.

(** The entries by their place. *)
Definition mark_at t (s : nat) : Z := nth s (marker_ t) kEmpty.
Definition key_at t (s : nat) : option K := nth s (key_ t) None.
Definition val_at t (s : nat) : option V := nth s (val_ t) None.

(** The place that is probed after [p] others. *)
Definition probe t (k : K) (p : nat) : nat :=
  Z.to_nat ((Z.shiftr (hash k) 8 + Z.of_nat p * (Z.of_nat p + 1) / 2) mod capacity t).

Definition bucket_of (s : nat) : Z := Z.shiftr (Z.of_nat s) kBase.
Definition index_of (s : nat) : Z := Z.land (Z.of_nat s) (kWidth - 1).

Lemma slot_of s : slot (bucket_of s) (index_of s) = s.
Proof.
  unfold slot, bucket_of, index_of. change (kWidth - 1) with (Z.ones 3). change kBase with 3. change kWidth with 8.
  rewrite Z.land_ones, Z.shiftr_div_pow2 by lia. lia.
Qed.

Lemma capacity_bounds t : shaped t → 8 <= capacity t <= 2 ^ 31.
Proof.
  intros [Hlg -> _ _ _]. split; [change 8 with (2 ^ 3)|]; apply Z.pow_le_mono_r; lia.
Qed.

Lemma probe_lt t k p : shaped t → (probe t k p < length (marker_ t))%nat.
Proof. intros Hs. pose proof (capacity_bounds t Hs). unfold probe, capacity in *. lia. Qed.

Lemma probe_of t k p : shaped t →
  Z.of_nat (probe t k p) = (Z.shiftr (hash k) 8 + Z.of_nat p * (Z.of_nat p + 1) / 2) mod capacity t.
Proof. intros Hs. pose proof (capacity_bounds t Hs). unfold probe. lia. Qed.

Lemma mask_mod t z : shaped t → Z.land z (mask_ t) = z mod capacity t.
Proof.
  intros Hs. pose proof (sh_lg _ Hs). rewrite (sh_mask _ Hs), (sh_capacity _ Hs).
  replace (2 ^ (lglen_ t + 3) - 1) with (Z.ones (lglen_ t + 3)) by (rewrite Z.ones_equiv; lia).
  apply Z.land_ones. lia.
Qed.

Lemma first_probe t k : shaped t → first_index t (hash k) = Z.of_nat (probe t k 0).
Proof. intros Hs. unfold first_index. rewrite mask_mod, probe_of by done. f_equal. lia. Qed.

Lemma triangular_succ p : 0 <= p → (p + 1) * (p + 1 + 1) / 2 = p * (p + 1) / 2 + (p + 1).
Proof. intros Hp. replace ((p + 1) * (p + 1 + 1)) with (p * (p + 1) + (p + 1) * 2) by lia. by rewrite Z.div_add by lia. Qed.

Lemma next_probe t k p :
  shaped t → Z.of_nat p < capacity t →
  NextIndex t (Z.of_nat (probe t k p)) (Z.of_nat p + 1) = Z.of_nat (probe t k (S p)).
Proof.
  intros Hs Hp. pose proof (capacity_bounds t Hs) as Hc. pose proof (probe_lt t k p Hs) as Hlt.
  unfold NextIndex. rewrite u64_small by (unfold is_u64, capacity in *; lia).
  rewrite mask_mod, !probe_of by done. rewrite Zplus_mod_idemp_l. f_equal.
  replace (Z.of_nat (S p)) with (Z.of_nat p + 1) by lia. rewrite triangular_succ by lia. lia.
Qed.

Lemma probe_inj t k p q :
  shaped t → Z.of_nat p < capacity t → Z.of_nat q < capacity t → probe t k p = probe t k q → p = q.
Proof.
  intros Hs. assert (∀ p q, (p < q)%nat → Z.of_nat q < capacity t → probe t k p ≠ probe t k q) as Hlt.
  { clear p q. intros p q Hpq Hq E. apply (f_equal Z.of_nat) in E. rewrite !probe_of in E by done.
    pose proof (sh_lg _ Hs). rewrite (sh_capacity _ Hs) in *. apply triangular_inj in E; [done|lia..]. }
  intros Hp Hq E. destruct (lt_eq_lt_dec p q) as [[?|?]|?]; [|done|].
  - by destruct (Hlt p q).
  - by destruct (Hlt q p).
Qed.

(** Every entry is probed. *)
Lemma probe_surj t k s :
  shaped t → (s < length (marker_ t))%nat → ∃ p, (p < length (marker_ t))%nat ∧ probe t k p = s.
Proof.
  intros Hs Hlt. set (n := length (marker_ t)) in *.
  assert (probe t k <$> seq 0 n ≡ₚ seq 0 n) as HP.
  { apply submseteq_length_Permutation; [|by rewrite length_fmap].
    apply NoDup_submseteq.
    - apply NoDup_fmap_2_strong; [|apply NoDup_seq]. intros p q Hp Hq E. rewrite elem_of_seq in Hp, Hq.
      apply (probe_inj t k p q Hs) in E; unfold capacity; lia.
    - intros x (p&->&Hp)%list_elem_of_fmap. rewrite elem_of_seq. pose proof (probe_lt t k p Hs). lia. }
  assert (s ∈ probe t k <$> seq 0 n) as (p&->&Hp)%list_elem_of_fmap.
  { rewrite HP, elem_of_seq. lia. }
  exists p. rewrite elem_of_seq in Hp. split; [lia|done].
Qed.

(** * The loops *)

Definition mark_of (k : K) : Z := Marker (Z.land (hash k) 0xff).

Lemma mark_of_range k : 2 <= mark_of k < 256.
Proof.
  unfold mark_of, Marker. change 0xff with (Z.ones 8). rewrite Z.land_ones by lia.
  pose proof (Z.mod_pos_bound (hash k) (2 ^ 8) ltac:(lia)).
  rewrite u32_small; destruct (Z.ltb_spec (hash k mod 2 ^ 8) 2); unfold is_u32; lia.
Qed.

(** The comparison of an entry with a key. *)
Definition hit t (k : K) (s : nat) : bool :=
  (mark_at t s =? mark_of k) && match key_at t s with Some k' => equal k' k | None => false end.

Lemma hit_key t k s : hit t k s = true → key_at t s = Some k.
Proof.
  unfold hit. intros [_ Hk]%andb_true_iff. destruct (key_at t s) as [k'|]; [|done].
  apply equal_spec in Hk. by subst.
Qed.

Lemma entry_at t s :
  marker t (bucket_of s) (index_of s) = mark_at t s ∧
  key t (bucket_of s) (index_of s) = key_at t s ∧ val t (bucket_of s) (index_of s) = val_at t s.
Proof. unfold marker, key, val. by rewrite slot_of. Qed.

Lemma next_round t p : shaped t → Z.of_nat p < capacity t → u32 (Z.of_nat p + 1 + 1) = Z.of_nat (S p) + 1.
Proof. intros Hs Hp. pose proof (capacity_bounds t Hs). rewrite u32_small; unfold is_u32; lia. Qed.

Lemma find_loop_step fuel t k p :
  shaped t → Z.of_nat p < capacity t →
  find_loop (S fuel) t k (mark_of k) (Z.of_nat (probe t k p)) (Z.of_nat p + 1) =
    if hit t k (probe t k p)
    then Some (mkResult true (bucket_of (probe t k p)) (index_of (probe t k p)))
    else if mark_at t (probe t k p) =? kEmpty then Some (mkResult false 0 0)
    else find_loop fuel t k (mark_of k) (Z.of_nat (probe t k (S p))) (Z.of_nat (S p) + 1).
Proof.
  intros Hs Hp. cbn [find_loop]. fold (bucket_of (probe t k p)) (index_of (probe t k p)).
  unfold key_is. destruct (entry_at t (probe t k p)) as (->&->&_).
  by rewrite next_probe, (next_round t) by done.
Qed.

Lemma find_or_insert_step fuel t k p del :
  shaped t → Z.of_nat p < capacity t →
  find_or_insert_loop (S fuel) t k (mark_of k) (Z.of_nat (probe t k p)) (Z.of_nat p + 1) del =
    let s := probe t k p in
    let next := find_or_insert_loop fuel t k (mark_of k) (Z.of_nat (probe t k (S p))) (Z.of_nat (S p) + 1) in
    if hit t k s then Some (mkResult true (bucket_of s) (index_of s), t)
    else if bool_decide (del = None) && (mark_at t s =? kDeleted) then next (Some (bucket_of s, index_of s))
    else if mark_at t s =? kEmpty then
      match del with
      | Some (b, bi) => Some (mkResult false b bi, set_entry b bi (mark_of k) (Some k) None
          (set_counts (not_empty_ t) (u64 (deleted_ t - 1)) (grow_ t) t))
      | None => Some (mkResult false (bucket_of s) (index_of s),
          set_entry (bucket_of s) (index_of s) (mark_of k) (Some k) None
            (set_counts (u64 (not_empty_ t + 1)) (deleted_ t) (grow_ t) t))
      end
    else next del.
Proof.
  intros Hs Hp. cbn [find_or_insert_loop]. fold (bucket_of (probe t k p)) (index_of (probe t k p)).
  unfold key_is. destruct (entry_at t (probe t k p)) as (->&->&_).
  by rewrite next_probe, (next_round t) by done.
Qed.

Lemma fresh_insert_step fuel t k v p :
  shaped t → Z.of_nat p < capacity t →
  fresh_insert_loop (S fuel) t k v (mark_of k) (Z.of_nat (probe t k p)) (Z.of_nat p + 1) =
    let s := probe t k p in
    if mark_at t s =? 0 then
      Some (set_entry (bucket_of s) (index_of s) (mark_of k) (Some k) v
        (set_counts (u64 (not_empty_ t + 1)) (deleted_ t) (grow_ t) t))
    else fresh_insert_loop fuel t k v (mark_of k) (Z.of_nat (probe t k (S p))) (Z.of_nat (S p) + 1).
Proof.
  intros Hs Hp. cbn [fresh_insert_loop]. fold (bucket_of (probe t k p)) (index_of (probe t k p)).
  destruct (entry_at t (probe t k p)) as (->&_&_). by rewrite next_probe, (next_round t) by done.
Qed.

(** The entries that a loop passes. *)
Lemma find_loop_run n fuel t k p :
  shaped t → Z.of_nat (p + n) < capacity t →
  (∀ q, (p <= q < p + n)%nat → hit t k (probe t k q) = false ∧ mark_at t (probe t k q) ≠ kEmpty) →
  find_loop (n + fuel) t k (mark_of k) (Z.of_nat (probe t k p)) (Z.of_nat p + 1) =
  find_loop fuel t k (mark_of k) (Z.of_nat (probe t k (p + n))) (Z.of_nat (p + n) + 1).
Proof.
  intros Hs. revert p. induction n as [|n IH]; intros p Hp Hpass; [by rewrite Nat.add_0_r|].
  cbn [Nat.add]. rewrite find_loop_step by (done || lia).
  destruct (Hpass p ltac:(lia)) as [-> Hm]. apply Z.eqb_neq in Hm. rewrite Hm.
  rewrite IH; [by rewrite <-Nat.add_succ_comm|lia|]. intros q Hq. apply Hpass. lia.
Qed.

(** The deleted entry that is remembered after [n] probes. *)
Fixpoint del_after t (k : K) (p n : nat) (del : option (Z * Z)) : option (Z * Z) :=
  match n with
  | O => del
  | S n => del_after t k (S p) n
      (match del with
       | Some d => Some d
       | None => if mark_at t (probe t k p) =? kDeleted
                 then Some (bucket_of (probe t k p), index_of (probe t k p)) else None
       end)
  end.

Lemma find_or_insert_run n fuel t k p del :
  shaped t → Z.of_nat (p + n) < capacity t →
  (∀ q, (p <= q < p + n)%nat → hit t k (probe t k q) = false ∧ mark_at t (probe t k q) ≠ kEmpty) →
  find_or_insert_loop (n + fuel) t k (mark_of k) (Z.of_nat (probe t k p)) (Z.of_nat p + 1) del =
  find_or_insert_loop fuel t k (mark_of k) (Z.of_nat (probe t k (p + n))) (Z.of_nat (p + n) + 1)
    (del_after t k p n del).
Proof.
  intros Hs. revert p del. induction n as [|n IH]; intros p del Hp Hpass; [by rewrite Nat.add_0_r|].
  cbn [Nat.add]. rewrite find_or_insert_step by (done || lia). cbv zeta.
  destruct (Hpass p ltac:(lia)) as (->&Hm%Z.eqb_neq). rewrite Hm. cbn [del_after].
  rewrite <-Nat.add_succ_comm. assert (∀ q, (S p <= q < S p + n)%nat → hit t k (probe t k q) = false ∧
    mark_at t (probe t k q) ≠ kEmpty) by (intros q Hq; apply Hpass; lia).
  destruct del as [d|]; [rewrite bool_decide_false by done|rewrite bool_decide_true by done]; cbn [andb].
  - by apply IH; [lia|].
  - destruct (mark_at t (probe t k p) =? kDeleted); by apply IH; [lia|].
Qed.

Lemma del_after_spec t k p n del :
  match del_after t k p n del with
  | Some d => del = Some d ∨ ∃ q, (p <= q < p + n)%nat ∧ mark_at t (probe t k q) = kDeleted ∧
      d = (bucket_of (probe t k q), index_of (probe t k q))
  | None => del = None ∧ ∀ q, (p <= q < p + n)%nat → mark_at t (probe t k q) ≠ kDeleted
  end.
Proof.
  revert p del. induction n as [|n IH]; intros p del; cbn [del_after].
  { destruct del; [by left|]. split; [done|lia]. }
  specialize (IH (S p) (match del with Some d => Some d | None =>
    if mark_at t (probe t k p) =? kDeleted then Some (bucket_of (probe t k p), index_of (probe t k p)) else None end)).
  destruct (del_after _ _ _ _ _) as [d|].
  - destruct IH as [Hd|(q&Hq&?&?)]; [|right; exists q; split_and!; (done || lia)].
    destruct del; [by left|]. destruct (Z.eqb_spec (mark_at t (probe t k p)) kDeleted) as [Hm|]; [|done].
    right. exists p. injection Hd as <-. split_and!; (done || lia).
  - destruct IH as [Hd Hno]. destruct del; [done|].
    destruct (Z.eqb_spec (mark_at t (probe t k p)) kDeleted); [done|]. split; [done|].
    intros q Hq. destruct (decide (q = p)) as [->|]; [done|]. apply Hno. lia.
Qed.

Lemma fresh_insert_run n fuel t k v p :
  shaped t → Z.of_nat (p + n) < capacity t →
  (∀ q, (p <= q < p + n)%nat → mark_at t (probe t k q) ≠ kEmpty) →
  fresh_insert_loop (n + fuel) t k v (mark_of k) (Z.of_nat (probe t k p)) (Z.of_nat p + 1) =
  fresh_insert_loop fuel t k v (mark_of k) (Z.of_nat (probe t k (p + n))) (Z.of_nat (p + n) + 1).
Proof.
  intros Hs. revert p. induction n as [|n IH]; intros p Hp Hpass; [by rewrite Nat.add_0_r|].
  cbn [Nat.add]. rewrite fresh_insert_step by (done || lia). cbv zeta.
  pose proof (Hpass p ltac:(lia)) as Hm%Z.eqb_neq. change kEmpty with 0 in Hm. rewrite Hm.
  rewrite IH; [by rewrite <-Nat.add_succ_comm|lia|]. intros q Hq. apply Hpass. lia.
Qed.

(** A full table without the key: the search never ends. *)
Lemma find_loop_full fuel t k index num_probes :
  shaped t → 0 <= index < capacity t →
  (∀ s, (s < length (marker_ t))%nat → hit t k s = false ∧ mark_at t s ≠ kEmpty) →
  find_loop fuel t k (mark_of k) index num_probes = None.
Proof.
  intros Hs Hi Hfull. revert index num_probes Hi. induction fuel as [|fuel IH]; intros index num_probes Hi; [done|].
  assert (∃ s, index = Z.of_nat s) as [s ->] by (exists (Z.to_nat index); lia).
  cbn [find_loop]. fold (bucket_of s) (index_of s). unfold key_is. destruct (entry_at t s) as (->&->&_).
  destruct (Hfull s) as [Hh Hm%Z.eqb_neq]; [unfold capacity in *; lia|].
  unfold hit in Hh. rewrite Hh, Hm. apply IH. unfold NextIndex. rewrite mask_mod by done.
  apply Z.mod_pos_bound. pose proof (capacity_bounds t Hs). lia.
Qed.

(** * The invariant *)

Definition counted (P : Z → bool) (l : list Z) : Z := Z.of_nat (length (List.filter P l)).

Record wf t : Prop := {
  wf_shaped : shaped t;
  wf_entry s : (s < length (marker_ t))%nat →
    match key_at t s with
    | Some k => mark_at t s = mark_of k
    | None => mark_at t s = kEmpty ∨ mark_at t s = kDeleted
    end;
  wf_unique s s' k : key_at t s = Some k → key_at t s' = Some k → s = s';
  (** The probes for a key pass no empty entry before they reach it. *)
  wf_reach s k : key_at t s = Some k →
    ∃ p, (p < length (marker_ t))%nat ∧ probe t k p = s ∧ ∀ q, (q < p)%nat → mark_at t (probe t k q) ≠ kEmpty;
  wf_not_empty : not_empty_ t = counted (λ m, negb (m =? kEmpty)) (marker_ t);
  wf_deleted : deleted_ t = counted (λ m, m =? kDeleted) (marker_ t);
  wf_room : not_empty_ t <= times_0_8 (capacity t);
  wf_grow : grow_ t = 0 ∨ grow_ t = times_0_8 (capacity t);
  wf_shrink : shrink_ t = if lglen_ t =? 0 then 0 else times_0_4 (times_0_8 (capacity t)) }.

Definition absent t (k : K) : Prop := ∀ s, key_at t s ≠ Some k.

Lemma key_at_lt t s k : shaped t → key_at t s = Some k → (s < length (marker_ t))%nat.
Proof.
  intros Hs. unfold key_at. rewrite <-(sh_keys _ Hs). intros Hk.
  destruct (decide (s < length (key_ t))%nat); [done|]. by rewrite nth_overflow in Hk by lia.
Qed.

Lemma counted_bound P l : 0 <= counted P l <= Z.of_nat (length l).
Proof. unfold counted. pose proof (List.filter_length_le P l). lia. Qed.

Lemma counted_app P l1 l2 : counted P (l1 ++ l2) = counted P l1 + counted P l2.
Proof. unfold counted. rewrite List.filter_app, length_app. lia. Qed.

Lemma counted_cons P x l : counted P (x :: l) = Z.b2z (P x) + counted P l.
Proof. unfold counted. cbn [List.filter]. destruct (P x); cbn [length Z.b2z]; lia. Qed.

Lemma counted_insert P l s x :
  (s < length l)%nat → counted P (<[s := x]> l) = counted P l - Z.b2z (P (nth s l kEmpty)) + Z.b2z (P x).
Proof.
  intros Hs. destruct (lookup_lt_is_Some_2 l s Hs) as [y Hy].
  rewrite (nth_lookup_Some l s kEmpty y Hy). rewrite insert_take_drop by done.
  rewrite <-(take_drop_middle l s y Hy) at 3. rewrite !counted_app, !counted_cons. lia.
Qed.

(** A table that is not full has an empty entry. *)
Lemma counted_all P l : (∀ x, x ∈ l → P x = true) → counted P l = Z.of_nat (length l).
Proof.
  intros Hall. unfold counted. f_equal. induction l as [|x l IH]; [done|]. cbn [List.filter].
  rewrite Hall by (by left). cbn [length]. rewrite IH; [done|]. intros y Hy. apply Hall. by right.
Qed.

Lemma least_nat (P : nat → Prop) `{∀ n, Decision (P n)} n :
  P n → ∃ m, (m <= n)%nat ∧ P m ∧ ∀ q, (q < m)%nat → ¬ P q.
Proof.
  induction (lt_wf n) as [n _ IH]. intros Hn.
  destruct (decide (Exists P (seq 0 n))) as [Hex|Hno].
  - apply Exists_exists in Hex as (q&Hq%elem_of_seq&HPq).
    destruct (IH q ltac:(lia) HPq) as (m&?&?&?). exists m. split_and!; [lia|done..].
  - exists n. split_and!; [lia|done|]. intros q Hq HPq. apply Hno, Exists_exists. exists q.
    split; [rewrite elem_of_seq; lia|done].
Qed.

Lemma some_empty t :
  shaped t → counted (λ m, negb (m =? kEmpty)) (marker_ t) < capacity t →
  ∃ s, (s < length (marker_ t))%nat ∧ mark_at t s = kEmpty.
Proof.
  intros Hs Hlt. destruct (decide (Exists (λ m, m = kEmpty) (marker_ t))) as [Hex|Hno].
  - apply Exists_exists in Hex as (m&[s Hm]%list_elem_of_lookup&->). exists s.
    split; [by eapply lookup_lt_Some|]. unfold mark_at. by erewrite nth_lookup_Some.
  - unfold capacity in Hlt. rewrite counted_all in Hlt; [lia|]. intros x Hx.
    apply negb_true_iff, Z.eqb_neq. intros ->. apply Hno, Exists_exists. by eexists.
Qed.

(** The first empty entry that is probed. *)
Lemma first_empty t k :
  shaped t → counted (λ m, negb (m =? kEmpty)) (marker_ t) < capacity t →
  ∃ e, (e < length (marker_ t))%nat ∧ mark_at t (probe t k e) = kEmpty ∧
    ∀ q, (q < e)%nat → mark_at t (probe t k q) ≠ kEmpty.
Proof.
  intros Hs Hlt. destruct (some_empty t Hs Hlt) as (s&Hslt&Hm).
  destruct (probe_surj t k s Hs Hslt) as (p&Hp&<-).
  destruct (least_nat (λ p, mark_at t (probe t k p) = kEmpty) p Hm) as (e&He&?&?).
  exists e. split_and!; [lia|done..].
Qed.

Lemma wf_not_full t : wf t → counted (λ m, negb (m =? kEmpty)) (marker_ t) < capacity t.
Proof.
  intros Ht. rewrite <-(wf_not_empty _ Ht). pose proof (wf_room _ Ht).
  pose proof (capacity_bounds t (wf_shaped _ Ht)). unfold times_0_8 in *. lia.
Qed.

Lemma hit_present t k s : wf t → key_at t s = Some k → hit t k s = true.
Proof.
  intros Ht Hk. pose proof (wf_entry _ Ht s (key_at_lt t s k (wf_shaped _ Ht) Hk)) as Hm.
  unfold hit. rewrite Hk in *. rewrite Hm, Z.eqb_refl. by apply equal_spec.
Qed.

Lemma hit_absent t k s : absent t k → hit t k s = false.
Proof. intros Ha. destruct (hit t k s) eqn:E; [|done]. apply hit_key in E. by destruct (Ha s). Qed.

(** The probes before a key that is present. *)
Lemma before_present t k s :
  wf t → key_at t s = Some k →
  ∃ p, (p < length (marker_ t))%nat ∧ probe t k p = s ∧
    ∀ q, (q < p)%nat → hit t k (probe t k q) = false ∧ mark_at t (probe t k q) ≠ kEmpty.
Proof.
  intros Ht Hk. destruct (wf_reach _ Ht s k Hk) as (p&Hp&Hs&Hne). exists p. split_and!; [done..|].
  intros q Hq. split; [|by apply Hne]. destruct (hit t k (probe t k q)) eqn:E; [|done].
  apply hit_key in E. pose proof (wf_unique _ Ht _ _ _ E Hk) as Hpq. rewrite <-Hs in Hpq.
  apply (probe_inj t k q p (wf_shaped _ Ht)) in Hpq; unfold capacity; lia.
Qed.

Lemma Find_present t k s :
  wf t → key_at t s = Some k → Find k t = Some (mkResult true (bucket_of s) (index_of s)).
Proof.
  intros Ht Hk. pose proof (wf_shaped _ Ht) as Hs. destruct (before_present t k s Ht Hk) as (p&Hp&<-&Hb).
  unfold Find, probes. fold (mark_of k). rewrite first_probe by done.
  replace (length (marker_ t)) with (p + S (length (marker_ t) - p - 1))%nat by lia.
  change 1 with (Z.of_nat 0 + 1). rewrite find_loop_run; [|done|unfold capacity; lia|naive_solver lia].
  rewrite find_loop_step, hit_present by (done || unfold capacity; lia). done.
Qed.

Lemma Find_absent t k : wf t → absent t k → Find k t = Some (mkResult false 0 0).
Proof.
  intros Ht Ha. pose proof (wf_shaped _ Ht) as Hs. destruct (first_empty t k Hs (wf_not_full t Ht)) as (e&He&Hm&Hb).
  unfold Find, probes. fold (mark_of k). rewrite first_probe by done.
  replace (length (marker_ t)) with (e + S (length (marker_ t) - e - 1))%nat by lia.
  change 1 with (Z.of_nat 0 + 1).
  rewrite find_loop_run; [|done|unfold capacity; lia|intros q Hq; split; [by apply hit_absent|apply Hb; lia]].
  rewrite find_loop_step, hit_absent by (done || unfold capacity; lia). cbn [Nat.add]. by rewrite Hm.
Qed.

Lemma FindOrInsert_present t k s :
  wf t → key_at t s = Some k → FindOrInsert k t = Some (mkResult true (bucket_of s) (index_of s), t).
Proof.
  intros Ht Hk. pose proof (wf_shaped _ Ht) as Hs. destruct (before_present t k s Ht Hk) as (p&Hp&<-&Hb).
  unfold FindOrInsert, probes. fold (mark_of k). rewrite first_probe by done.
  replace (length (marker_ t)) with (p + S (length (marker_ t) - p - 1))%nat by lia.
  change 1 with (Z.of_nat 0 + 1). rewrite find_or_insert_run; [|done|unfold capacity; lia|naive_solver lia].
  rewrite find_or_insert_step by (done || unfold capacity; lia). cbn [Nat.add]. by rewrite hit_present.
Qed.

(** A new entry at [s]. *)
Definition put (s : nat) (k : K) (v : option V) t : FlatRep K V :=
  set_entry (bucket_of s) (index_of s) (mark_of k) (Some k) v
    (if mark_at t s =? kDeleted then set_counts (not_empty_ t) (u64 (deleted_ t - 1)) (grow_ t) t
     else set_counts (u64 (not_empty_ t + 1)) (deleted_ t) (grow_ t) t).

(** The place where a new key can go. *)
Definition free_for t (k : K) (s : nat) : Prop :=
  (mark_at t s = kEmpty ∨ mark_at t s = kDeleted) ∧
  ∃ p, (p < length (marker_ t))%nat ∧ probe t k p = s ∧ ∀ q, (q < p)%nat → mark_at t (probe t k q) ≠ kEmpty.

Lemma FindOrInsert_absent t k :
  wf t → absent t k →
  ∃ s, free_for t k s ∧ FindOrInsert k t = Some (mkResult false (bucket_of s) (index_of s), put s k None t).
Proof.
  intros Ht Ha. pose proof (wf_shaped _ Ht) as Hs. destruct (first_empty t k Hs (wf_not_full t Ht)) as (e&He&Hm&Hb).
  unfold FindOrInsert, probes. fold (mark_of k). rewrite first_probe by done.
  replace (length (marker_ t)) with (e + S (length (marker_ t) - e - 1))%nat by lia.
  change 1 with (Z.of_nat 0 + 1).
  rewrite find_or_insert_run; [|done|unfold capacity; lia|intros q Hq; split; [by apply hit_absent|apply Hb; lia]].
  rewrite find_or_insert_step by (done || unfold capacity; lia). cbn [Nat.add]. cbv zeta.
  rewrite hit_absent, Hm, andb_false_r by done.
  pose proof (del_after_spec t k 0 e None) as Hdel. destruct (del_after t k 0 e None) as [d|].
  - destruct Hdel as [?|(q&Hq&Hmq&->)]; [done|]. exists (probe t k q). split.
    + split; [by right|]. exists q. split_and!; [lia|done|]. intros q' Hq'. apply Hb. lia.
    + unfold put. rewrite Hmq. done.
  - exists (probe t k e). split; [split; [by left|by exists e]|]. unfold put. rewrite Hm. done.
Qed.

Lemma FreshInsert_absent t k v :
  wf t → absent t k → deleted_ t = 0 →
  ∃ s, free_for t k s ∧ FreshInsert k v t = Some (put s k v t).
Proof.
  intros Ht Ha Hd. pose proof (wf_shaped _ Ht) as Hs. destruct (first_empty t k Hs (wf_not_full t Ht)) as (e&He&Hm&Hb).
  unfold FreshInsert, probes. fold (mark_of k). rewrite first_probe by done.
  replace (length (marker_ t)) with (e + S (length (marker_ t) - e - 1))%nat by lia.
  change 1 with (Z.of_nat 0 + 1).
  rewrite fresh_insert_run; [|done|unfold capacity; lia|intros q Hq; apply Hb; lia].
  rewrite fresh_insert_step by (done || unfold capacity; lia). cbn [Nat.add]. cbv zeta. rewrite Hm.
  exists (probe t k e). split; [split; [by left|by exists e]|]. unfold put. rewrite Hm. done.
Qed.

(** * Changing an entry *)

Lemma nth_insert {A} (l : list A) i j x d :
  (i < length l)%nat → nth j (<[i := x]> l) d = if decide (i = j) then x else nth j l d.
Proof.
  intros Hi. rewrite !nth_lookup. destruct (decide (i = j)) as [<-|].
  - by rewrite list_lookup_insert_eq.
  - by rewrite list_lookup_insert_ne.
Qed.

(** [t'] is [t] with other contents in the entry [s] and other counts. *)
Record changed (s : nat) (m : Z) (k : option K) (v : option V) t t' : Prop := {
  ch_lt : (s < length (marker_ t))%nat;
  ch_marker : marker_ t' = <[s := m]> (marker_ t);
  ch_key : key_ t' = <[s := k]> (key_ t);
  ch_val : val_ t' = <[s := v]> (val_ t);
  ch_lglen : lglen_ t' = lglen_ t;
  ch_mask : mask_ t' = mask_ t;
  ch_shrink : shrink_ t' = shrink_ t }.

Section changed.
Context {s : nat} {m : Z} {k : option K} {v : option V} {t t' : FlatRep K V}.
Context (Hs : shaped t) (Hch : changed s m k v t t').

Lemma changed_shaped : shaped t'.
Proof.
  destruct Hch as [Hlt Em Ek Ev El Ema _], Hs. split; rewrite ?El, ?Ema; unfold capacity in *;
    rewrite ?Em, ?Ek, ?Ev, ?length_insert; done.
Qed.

Lemma changed_capacity : length (marker_ t') = length (marker_ t) ∧ capacity t' = capacity t.
Proof. unfold capacity. by rewrite (ch_marker _ _ _ _ _ _ Hch), length_insert. Qed.

Lemma changed_probe k' p : probe t' k' p = probe t k' p.
Proof. unfold probe. destruct changed_capacity as [_ ->]. done. Qed.

Lemma changed_at s' :
  mark_at t' s' = (if decide (s = s') then m else mark_at t s') ∧
  key_at t' s' = (if decide (s = s') then k else key_at t s') ∧
  val_at t' s' = (if decide (s = s') then v else val_at t s').
Proof.
  destruct Hch as [Hlt Em Ek Ev _ _ _]. unfold mark_at, key_at, val_at. rewrite Em, Ek, Ev.
  rewrite !nth_insert by (rewrite ?(sh_keys _ Hs), ?(sh_vals _ Hs); done). done.
Qed.

Lemma changed_counted P :
  counted P (marker_ t') = counted P (marker_ t) - Z.b2z (P (mark_at t s)) + Z.b2z (P m).
Proof. destruct Hch as [Hlt -> _ _ _ _ _]. by rewrite counted_insert. Qed.
End changed.

Lemma set_entry_changed s m k v t :
  (s < length (marker_ t))%nat → changed s m k v t (set_entry (bucket_of s) (index_of s) m k v t).
Proof. intros Hlt. unfold set_entry. rewrite slot_of. by split. Qed.

Lemma put_changed s k v t : (s < length (marker_ t))%nat → changed s (mark_of k) (Some k) v t (put s k v t).
Proof.
  intros Hlt. unfold put, set_entry. rewrite slot_of. by destruct (mark_at t s =? kDeleted).
Qed.

Lemma count_bounds t : wf t → 0 <= deleted_ t <= not_empty_ t ∧ not_empty_ t < 2 ^ 31.
Proof.
  intros Ht. pose proof (capacity_bounds t (wf_shaped _ Ht)). pose proof (wf_not_full t Ht).
  rewrite (wf_not_empty _ Ht), (wf_deleted _ Ht). split; [|lia].
  split; [apply counted_bound|]. generalize (marker_ t). intros l. induction l as [|x l IH]; [done|].
  rewrite !counted_cons. unfold kEmpty, kDeleted in *. destruct (Z.eqb_spec x 1), (Z.eqb_spec x 0); simpl; lia.
Qed.

Lemma free_for_lt t k s : shaped t → free_for t k s → (s < length (marker_ t))%nat.
Proof. intros Hs (_&p&_&<-&_). by apply probe_lt. Qed.

Lemma put_wf s k v t :
  wf t → absent t k → free_for t k s → not_empty_ t < times_0_8 (capacity t) → wf (put s k v t).
Proof.
  intros Ht Ha Hfree Hroom. pose proof (wf_shaped _ Ht) as Hs. pose proof (free_for_lt t k s Hs Hfree) as Hlt.
  pose proof (put_changed s k v t Hlt) as Hch. pose proof (mark_of_range k) as Hmk.
  destruct (changed_capacity Hch) as [Hlen Hcap]. pose proof (changed_at Hs Hch) as Hat.
  pose proof (count_bounds t Ht). destruct Hfree as [Hm (p&Hp&Hps&Hbefore)].
  assert (∀ s', mark_at (put s k v t) s' = kEmpty → mark_at t s' = kEmpty) as Hempty.
  { intros s'. destruct (Hat s') as (->&_&_). destruct (decide (s = s')); unfold kEmpty; [lia|done]. }
  assert (not_empty_ (put s k v t) = counted (λ m, negb (m =? kEmpty)) (marker_ (put s k v t)) ∧
    deleted_ (put s k v t) = counted (λ m, m =? kDeleted) (marker_ (put s k v t)) ∧
    not_empty_ (put s k v t) <= times_0_8 (capacity t) ∧ grow_ (put s k v t) = grow_ t) as (Hn&Hd&Hr&Hg).
  { pose proof (counted_bound (λ m, m =? kDeleted) (marker_ (put s k v t))) as [Hpos _]. revert Hpos.
    rewrite !(changed_counted Hch), <-(wf_not_empty _ Ht), <-(wf_deleted _ Ht). clear Hat Hempty.
    unfold put, kEmpty, kDeleted in *. destruct (Z.eqb_spec (mark_of k) 0), (Z.eqb_spec (mark_of k) 1); try lia.
    destruct Hm as [-> | ->]; cbn [Z.eqb negb Z.b2z Pos.eqb not_empty_ deleted_ grow_ set_entry set_counts];
      intros Hpos; rewrite u64_small by (unfold is_u64; lia); lia. }
  split.
  - by eapply changed_shaped.
  - intros s' Hs'. rewrite Hlen in Hs'. destruct (Hat s') as (->&->&_).
    destruct (decide (s = s')); [done|]. by apply (wf_entry _ Ht).
  - intros s1 s2 k'. destruct (Hat s1) as (_&->&_), (Hat s2) as (_&->&_).
    destruct (decide (s = s1)), (decide (s = s2)); [congruence|intros [= <-] E|intros E [= <-]|by apply (wf_unique _ Ht)];
      by destruct (Ha _ E).
  - intros s' k'. destruct (Hat s') as (_&->&_). destruct (decide (s = s')) as [<-|].
    + intros [= <-]. exists p. rewrite Hlen, (changed_probe Hch). split_and!; [done..|].
      intros q Hq. rewrite (changed_probe Hch). intros E%Hempty. by apply (Hbefore q Hq).
    + intros Hk. destruct (wf_reach _ Ht s' k' Hk) as (p'&Hp'&Hps'&Hb'). exists p'.
      rewrite Hlen, (changed_probe Hch). split_and!; [done..|]. intros q Hq.
      rewrite (changed_probe Hch). intros E%Hempty. by apply (Hb' q Hq).
  - done.
  - done.
  - by rewrite Hcap.
  - rewrite Hcap, Hg. apply (wf_grow _ Ht).
  - rewrite Hcap, (ch_lglen _ _ _ _ _ _ Hch), (ch_shrink _ _ _ _ _ _ Hch). apply (wf_shrink _ Ht).
Qed.

(** * The contents *)

Definition entry_of (x : option K * option V) : option (K * V) := k ← x.1; v ← x.2; Some (k, v).

(** The entries, in the order of the table. *)
Definition entries t : list (K * V) := omap entry_of (zip (key_ t) (val_ t)).

(** Every key has a value. *)
Definition complete (keys : list (option K)) (vals : list (option V)) : Prop :=
  Forall2 (λ k v, is_Some k ↔ is_Some v) keys vals.

(** Markers and keys that belong together. *)
Definition marked (markers : list Z) (keys : list (option K)) : Prop :=
  Forall2 (λ m k, match k with Some _ => 2 <= m | None => m = kEmpty ∨ m = kDeleted end) markers keys.

Lemma wf_marked t : wf t → marked (marker_ t) (key_ t).
Proof.
  intros Ht. apply Forall2_same_length_lookup_2; [by rewrite (sh_keys _ (wf_shaped _ Ht))|].
  intros s m k Hm Hk. pose proof (wf_entry _ Ht s (lookup_lt_Some _ _ _ Hm)) as He.
  unfold key_at, mark_at in He. rewrite (nth_lookup_Some _ _ _ _ Hm), (nth_lookup_Some _ _ _ _ Hk) in He.
  destruct k as [k|]; [|done]. pose proof (mark_of_range k). lia.
Qed.

Lemma marked_count markers keys :
  marked markers keys →
  counted (λ m, negb (m =? kEmpty)) markers - counted (λ m, m =? kDeleted) markers =
  Z.of_nat (length (omap id keys)).
Proof.
  induction 1 as [|m k markers keys Hm _ IH]; [done|]. rewrite !counted_cons.
  unfold kEmpty, kDeleted in *. destruct k as [k|]; cbn [omap list_omap id length];
    destruct (Z.eqb_spec m 0), (Z.eqb_spec m 1); cbn [negb Z.b2z]; lia.
Qed.

Lemma complete_length keys vals :
  complete keys vals → length (omap entry_of (zip keys vals)) = length (omap id keys).
Proof.
  induction 1 as [|k v keys vals Hkv _ IH]; [done|]. cbn. destruct Hkv as [H1 H2].
  destruct k as [k|], v as [v|]; cbn; try lia.
  by destruct H1; eauto.
Qed.

Lemma size_entries t : wf t → complete (key_ t) (val_ t) → size t = Z.of_nat (length (entries t)).
Proof.
  intros Ht Hc. unfold size, entries. rewrite complete_length by done.
  rewrite <-(marked_count _ _ (wf_marked t Ht)), <-(wf_not_empty _ Ht), <-(wf_deleted _ Ht).
  pose proof (count_bounds t Ht). apply u64_small. unfold is_u64. lia.
Qed.

Lemma elem_of_flat_entries t k v :
  shaped t → (k, v) ∈ entries t ↔ ∃ s, key_at t s = Some k ∧ val_at t s = Some v.
Proof.
  intros Hs. unfold entries, key_at, val_at. rewrite list_elem_of_omap. split.
  - intros ([k' v']&[s Hx]%list_elem_of_lookup&He). apply lookup_zip_Some in Hx as [Hk Hv].
    exists s. rewrite (nth_lookup_Some _ _ _ _ Hk), (nth_lookup_Some _ _ _ _ Hv).
    unfold entry_of in He. destruct k', v'; naive_solver.
  - intros (s&Hk&Hv). exists (Some k, Some v). split; [|done]. apply list_elem_of_lookup. exists s.
    apply lookup_zip_Some. rewrite nth_lookup in Hk. rewrite nth_lookup in Hv.
    destruct (key_ t !! s), (val_ t !! s); naive_solver.
Qed.

Lemma omap_insert {A B} (f : A → option B) (l : list A) s x y :
  l !! s = Some y →
  ∃ rest, omap f l ≡ₚ option_list (f y) ++ rest ∧ omap f (<[s := x]> l) ≡ₚ option_list (f x) ++ rest.
Proof.
  intros Hy. exists (omap f (take s l) ++ omap f (drop (S s) l)).
  rewrite insert_take_drop by (by eapply lookup_lt_Some). rewrite <-(take_drop_middle l s y Hy) at 1.
  rewrite !omap_app. cbn. destruct (f y), (f x); cbn; rewrite <-?Permutation_middle; done.
Qed.

(** A change of an entry changes the contents there. *)
Lemma changed_entries s m k v t t' :
  shaped t → changed s m k v t t' →
  ∃ rest, entries t ≡ₚ option_list (entry_of (key_at t s, val_at t s)) ++ rest ∧
    entries t' ≡ₚ option_list (entry_of (k, v)) ++ rest.
Proof.
  intros Hs [Hlt _ Ek Ev _ _ _]. unfold entries. rewrite Ek, Ev, <-insert_zip_with.
  apply omap_insert. apply lookup_zip_Some. unfold key_at, val_at.
  rewrite !nth_lookup. destruct (lookup_lt_is_Some_2 (key_ t) s) as [? ->]; [by rewrite (sh_keys _ Hs)|].
  destruct (lookup_lt_is_Some_2 (val_ t) s) as [? ->]; [by rewrite (sh_vals _ Hs)|]. done.
Qed.

Lemma changed_complete s m k v t t' :
  shaped t → changed s m k v t t' → (is_Some k ↔ is_Some v) →
  complete (key_ t) (val_ t) → complete (key_ t') (val_ t').
Proof.
  intros Hs [_ _ -> -> _ _ _] Hkv Hc. by apply Forall2_insert.
Qed.

(** * New tables *)

Lemma width_pow lg : 0 <= lg → Z.shiftl 1 lg * kWidth = 2 ^ (lg + 3).
Proof. intros Hlg. rewrite Z.shiftl_mul_pow2, Z.pow_add_r by lia. change kWidth with (2 ^ 3). lia. Qed.

Lemma init_lg_spec fuel N lg :
  0 <= lg <= 28 → lg + Z.of_nat fuel = 29 → 5 * N < 4 * 2 ^ 31 →
  let r := init_lg fuel N lg in lg <= r <= 28 ∧ 5 * N < 4 * 2 ^ (r + 3).
Proof.
  revert lg. induction fuel as [|fuel IH]; intros lg Hlg Hf HN; [lia|]. cbn [init_lg]. cbv zeta.
  rewrite width_pow by lia. assert (2 ^ (lg + 3) <= 2 ^ 31) by (apply Z.pow_le_mono_r; lia).
  rewrite u32_small by (unfold is_u32; lia).
  destruct (Z.leb_spec (4 * 2 ^ (lg + 3)) (5 * N)) as [Hle|]; [|lia].
  assert (lg ≠ 28) by (intros ->; change (2 ^ (28 + 3)) with (2 ^ 31) in Hle; lia).
  destruct (IH (lg + 1)); lia.
Qed.

(** The sizes a table can be made for. *)
Definition fits (N : Z) : Prop := 0 <= N ∧ 5 * N < 4 * 2 ^ 31.

Abbreviation init N := (Init (K := K) (V := V) N).

Lemma nth_repl {A} n s (x : A) : nth s (replicate n x) x = x.
Proof. revert s. induction n as [|n IH]; intros [|s]; [done..|apply IH]. Qed.

Lemma counted_repl P n x : P x = false → counted P (replicate n x) = 0.
Proof. intros HP. induction n as [|n IH]; [done|]. cbn [replicate]. by rewrite counted_cons, HP, IH. Qed.

Record new_table (N : Z) t : Prop := {
  nt_wf : wf t;
  nt_room : N <= times_0_8 (capacity t);
  nt_entries : entries t = [];
  nt_complete : complete (key_ t) (val_ t);
  nt_not_empty : not_empty_ t = 0;
  nt_deleted : deleted_ t = 0;
  nt_grow : grow_ t = times_0_8 (capacity t) }.

(** A table without entries. *)
Lemma empty_wf t n :
  marker_ t = replicate n kEmpty → key_ t = replicate n None → val_ t = replicate n None →
  shaped t → not_empty_ t = 0 → deleted_ t = 0 → grow_ t = 0 ∨ grow_ t = times_0_8 (capacity t) →
  shrink_ t = (if lglen_ t =? 0 then 0 else times_0_4 (times_0_8 (capacity t))) →
  wf t ∧ entries t = [] ∧ complete (key_ t) (val_ t).
Proof.
  intros Em Ek Ev Hs Hn Hd Hg Hsh.
  assert (∀ s, mark_at t s = kEmpty) as Hm by (intros s; unfold mark_at; rewrite Em; apply nth_repl).
  assert (∀ s, key_at t s = None) as Hk by (intros s; unfold key_at; rewrite Ek; apply nth_repl).
  split_and!; [split| |]; try done.
  - intros s _. rewrite Hk, Hm. by left.
  - intros s s' k. by rewrite Hk.
  - intros s k. by rewrite Hk.
  - rewrite Hn, Em. symmetry. by apply counted_repl.
  - rewrite Hd, Em. symmetry. by apply counted_repl.
  - rewrite Hn. pose proof (capacity_bounds t Hs). unfold times_0_8. lia.
  - unfold entries. rewrite Ek, Ev. clear. induction n as [|n IH]; [done|]. cbn. apply IH.
  - rewrite Ek, Ev. unfold complete. apply Forall2_replicate. split; intros []; done.
Qed.

Lemma Init_new N : fits N → new_table N (init N).
Proof.
  intros [HN0 HN]. destruct (init_lg_spec 29 N 0 ltac:(lia) ltac:(lia) HN) as [Hlg Hfit]. unfold Init.
  set (lg := init_lg 29 N 0) in *. clearbody lg.
  assert (0 < 2 ^ (lg + 3) <= 2 ^ 31) as Hp by (split; [lia|apply Z.pow_le_mono_r; lia]).
  rewrite !width_pow, !(u32_small (2 ^ (lg + 3))) by (unfold is_u32; lia).
  rewrite u64_small by (unfold is_u64; lia). set (t := mkFlatRep _ _ _ _ _ _ _ _ _).
  assert (capacity t = 2 ^ (lg + 3)) as Hc by (unfold capacity; cbn [marker_ t]; rewrite length_replicate; lia).
  destruct (empty_wf t (Z.to_nat (2 ^ (lg + 3)))) as (Hw&He&Hco); try done.
  - split; rewrite ?Hc; cbn [lglen_ marker_ key_ val_ mask_ t]; rewrite ?length_replicate; (done || lia).
  - rewrite Hc. by right.
  - by rewrite Hc.
  - split; rewrite ?Hc; try done. unfold times_0_8. lia.
Qed.

(** * Copying *)

Lemma complete_at t s : shaped t → complete (key_ t) (val_ t) → is_Some (key_at t s) ↔ is_Some (val_at t s).
Proof.
  intros Hs Hc. unfold key_at, val_at. rewrite !nth_lookup.
  destruct (decide (s < length (key_ t))%nat) as [Hlt|Hge].
  - destruct (lookup_lt_is_Some_2 _ _ Hlt) as [k Ek].
    destruct (Forall2_lookup_l _ _ _ _ _ Hc Ek) as (v&Ev&Hkv). by rewrite Ek, Ev.
  - rewrite !lookup_ge_None_2; [split; intros []; done| |lia].
    rewrite (sh_vals _ Hs), <-(sh_keys _ Hs). lia.
Qed.

Lemma absent_entries t k :
  shaped t → complete (key_ t) (val_ t) → absent t k ↔ k ∉ (entries t).*1.
Proof.
  intros Hs Hc. split.
  - intros Ha ([k' v]&->&Hin)%list_elem_of_fmap. apply elem_of_flat_entries in Hin as (s&Hk&_); [|done].
    by destruct (Ha s).
  - intros Hni s Hk. destruct (proj1 (complete_at t s Hs Hc)) as [v Hv]; [by rewrite Hk|].
    apply Hni, list_elem_of_fmap. exists (k, v). split; [done|]. apply elem_of_flat_entries; [done|]. by exists s.
Qed.

Lemma free_key t k s : wf t → free_for t k s → key_at t s = None.
Proof.
  intros Ht Hfree. pose proof (free_for_lt t k s (wf_shaped _ Ht) Hfree) as Hlt.
  destruct Hfree as [Hm _]. pose proof (wf_entry _ Ht s Hlt) as He. destruct (key_at t s) as [k'|]; [|done].
  pose proof (mark_of_range k'). unfold kEmpty, kDeleted in *. lia.
Qed.

Lemma put_entries s k v t :
  wf t → free_for t k s →
  entries (put s k v t) ≡ₚ option_list ((k,.) <$> v) ++ entries t ∧ capacity (put s k v t) = capacity t ∧
  grow_ (put s k v t) = grow_ t ∧ lglen_ (put s k v t) = lglen_ t ∧ shaped (put s k v t).
Proof.
  intros Ht Hfree. pose proof (wf_shaped _ Ht) as Hs. pose proof (free_for_lt t k s Hs Hfree) as Hlt.
  pose proof (put_changed s k v t Hlt) as Hch. split_and!.
  - destruct (changed_entries _ _ _ _ _ _ Hs Hch) as (rest&E&E'). rewrite E', E, (free_key t k s) by done.
    by destruct v.
  - apply (changed_capacity Hch).
  - unfold put. by destruct (_ =? _).
  - unfold put. by destruct (_ =? _).
  - by eapply changed_shaped.
Qed.

(** A table without deleted entries that is being filled. *)
Record filling t : Prop := {
  fl_wf : wf t;
  fl_complete : complete (key_ t) (val_ t);
  fl_deleted : deleted_ t = 0;
  fl_grow : grow_ t = times_0_8 (capacity t) }.

Lemma FreshInsert_filling t k v :
  filling t → k ∉ (entries t).*1 → not_empty_ t < times_0_8 (capacity t) →
  ∃ t', FreshInsert k (Some v) t = Some t' ∧ filling t' ∧ entries t' ≡ₚ (k, v) :: entries t ∧
    not_empty_ t' = not_empty_ t + 1 ∧ capacity t' = capacity t.
Proof.
  intros [Ht Hc Hd Hg] Hk Hroom. pose proof (wf_shaped _ Ht) as Hs.
  pose proof (proj2 (absent_entries t k Hs Hc) Hk) as Ha.
  destruct (FreshInsert_absent t k (Some v) Ht Ha Hd) as (s&Hfree&E).
  destruct (put_entries s k (Some v) t Ht Hfree) as (He&Hcap&Hgr&_&_).
  pose proof (put_wf s k (Some v) t Ht Ha Hfree Hroom) as Hwf. pose proof (free_for_lt t k s Hs Hfree) as Hlt.
  assert (mark_at t s ≠ kDeleted) as Hm.
  { intros Hm. pose proof (counted_bound (λ m, m =? kDeleted) (<[s := kEmpty]> (marker_ t))) as [Hb _].
    rewrite counted_insert in Hb by done. fold (mark_at t s) in Hb.
    rewrite <-(wf_deleted _ Ht), Hd, Hm in Hb. cbn in Hb. lia. }
  pose proof (count_bounds t Ht).
  assert (not_empty_ (put s k (Some v) t) = not_empty_ t + 1 ∧ deleted_ (put s k (Some v) t) = 0) as [Hn Hd'].
  { unfold put. apply Z.eqb_neq in Hm. rewrite Hm. cbn [set_entry set_counts not_empty_ deleted_].
    rewrite u64_small by (unfold is_u64; lia). done. }
  exists (put s k (Some v) t). split_and!; [done| |done..]. split; [done| |done|by rewrite Hgr, Hcap].
  eapply changed_complete; [done|by apply put_changed| |done]. split; by eauto.
Qed.

Lemma CopyEntries_filling markers keys vals t :
  marked markers keys → complete keys vals → filling t →
  let l := omap entry_of (zip keys vals) in
  NoDup ((l ++ entries t).*1) → not_empty_ t + Z.of_nat (length l) <= times_0_8 (capacity t) →
  ∃ t', CopyEntries markers keys vals t = Some t' ∧ filling t' ∧ entries t' ≡ₚ l ++ entries t ∧
    not_empty_ t' = not_empty_ t + Z.of_nat (length l) ∧ capacity t' = capacity t.
Proof.
  intros Hm. revert vals t. induction Hm as [|m k markers keys Hmk Hm IH]; intros vals t Hc Hf l Hnd Hroom.
  { exists t. unfold l. cbn. split_and!; (done || lia). }
  apply Forall2_cons_inv_l in Hc as (v&vals'&Hkv&Hc&->). destruct k as [k|].
  - destruct v as [v|]; [|by destruct (proj1 Hkv)]. cbn [CopyEntries].
    destruct (Z.leb_spec 2 m); [|lia]. cbn in Hnd. apply NoDup_cons in Hnd as [Hk Hnd].
    rewrite fmap_app, elem_of_app in Hk. cbn in Hroom.
    destruct (FreshInsert_filling t k v Hf) as (t1&->&Hf1&He1&Hn1&Hc1); [naive_solver|lia|]. cbn [mbind option_bind].
    destruct (IH vals' t1 Hc Hf1) as (t'&->&Hf'&He'&Hn'&Hc').
    + rewrite He1, <-Permutation_middle. cbn. apply NoDup_cons. split; [|done].
      by rewrite fmap_app, elem_of_app.
    + rewrite Hn1, Hc1. lia.
    + exists t'. split_and!; [done..| | |congruence].
      * rewrite He', He1. unfold l. cbn. by rewrite <-Permutation_middle.
      * unfold l. cbn. lia.
  - cbn [CopyEntries]. destruct (Z.leb_spec 2 m) as [|_]; [unfold kEmpty, kDeleted in *; lia|].
    unfold l in *. cbn in *. by apply IH.
Qed.
End flat_proofs.

(** * Maps *)

Section flat_map.
Context {K V : Type} `{HashKey K, Countable K}.
Implicit Types (t : FlatRep K V) (m : gmap K V).

(** The table holds the entries of a map. *)
Record represents t m : Prop := {
  rp_wf : wf t;
  rp_complete : complete (key_ t) (val_ t);
  rp_entries : entries t ≡ₚ map_to_list m }.

Lemma lookup_represents t m k v :
  represents t m → m !! k = Some v ↔ ∃ s, key_at t s = Some k ∧ val_at t s = Some v.
Proof.
  intros [Ht Hc He]. rewrite <-elem_of_map_to_list, <-He. apply elem_of_flat_entries, (wf_shaped _ Ht).
Qed.

Lemma absent_represents t m k : represents t m → absent t k ↔ m !! k = None.
Proof.
  intros [Ht Hc He]. rewrite absent_entries, He by (done || apply (wf_shaped _ Ht)).
  rewrite eq_None_not_Some. split.
  - intros Hni [v Hv]. apply Hni, list_elem_of_fmap. exists (k, v). by rewrite elem_of_map_to_list.
  - intros Hno ([k' v]&->&Hin)%list_elem_of_fmap. apply elem_of_map_to_list in Hin. apply Hno. by eexists.
Qed.

Lemma key_represents t m k : represents t m →
  match m !! k with
  | Some v => ∃ s, key_at t s = Some k ∧ val_at t s = Some v
  | None => absent t k
  end.
Proof.
  intros Hr. destruct (m !! k) eqn:E; [by apply (lookup_represents t m)|by apply (absent_represents t m)].
Qed.

Lemma size_represents t m : represents t m → size t = Z.of_nat (base.size m).
Proof. intros [Ht Hc He]. rewrite size_entries, He by done. by rewrite length_map_to_list. Qed.

Lemma represents_nodup t m : represents t m → NoDup (entries t).*1.
Proof. intros [_ _ ->]. apply NoDup_fst_map_to_list. Qed.

Lemma represents_insert_new t m k v :
  m !! k = None → wf t → complete (key_ t) (val_ t) → entries t ≡ₚ (k, v) :: map_to_list m →
  represents t (<[k := v]> m).
Proof. intros Hk Ht Hc He. split; [done..|]. by rewrite map_to_list_insert. Qed.

(** A new table with the same contents. *)
Lemma copy_represents src m N :
  represents src m → fits N → Z.of_nat (base.size m) <= N →
  ∃ t', CopyEntries (marker_ src) (key_ src) (val_ src) (Init N) = Some t' ∧ represents t' m ∧
    deleted_ t' = 0 ∧ not_empty_ t' = Z.of_nat (base.size m) ∧ N <= times_0_8 (capacity t') ∧
    grow_ t' = times_0_8 (capacity t').
Proof.
  intros Hr Hfit Hsize. pose proof Hr as [Ht Hc He].
  destruct (Init_new (K := K) (V := V) N Hfit) as [Hw Hroom Hen Hco Hne Hde Hgr].
  assert (length (entries src) = base.size m) as Hlen by (by rewrite He, length_map_to_list).
  destruct (CopyEntries_filling (marker_ src) (key_ src) (val_ src) (Init N)) as (t'&E&Hf&Hen'&Hne'&Hcap).
  - by apply wf_marked.
  - done.
  - by split.
  - rewrite Hen, app_nil_r. apply (represents_nodup _ _ Hr).
  - fold (entries src). rewrite Hne, Hlen. lia.
  - destruct Hf as [Hw' Hco' Hde' Hgr']. fold (entries src) in *. rewrite Hen, app_nil_r in Hen'.
    exists t'. split_and!; [done| |done| |by rewrite Hcap|done].
    + split; [done..|]. by rewrite Hen'.
    + rewrite Hne', Hne, Hlen. lia.
Qed.

Lemma wf_set_grow t g :
  wf t → g = 0 ∨ g = times_0_8 (capacity t) → wf (set_counts (not_empty_ t) (deleted_ t) g t).
Proof. intros Ht Hg. destruct Ht as [[] ]. by split. Qed.

Lemma bucket_count_capacity t : shaped t → bucket_count t = capacity t.
Proof.
  intros Hs. pose proof (capacity_bounds t Hs). unfold bucket_count. rewrite (sh_mask _ Hs).
  rewrite u64_small; unfold is_u64; lia.
Qed.

(** Before an insertion there is room. *)
Lemma MaybeResize_represents t m :
  represents t m → fits (Z.of_nat (base.size m) + 1) →
  ∃ t', MaybeResize t = Some t' ∧ represents t' m ∧ not_empty_ t' < times_0_8 (capacity t').
Proof.
  intros Hr Hfit. pose proof Hr as [Ht Hc He]. pose proof (wf_shaped _ Ht) as Hs.
  pose proof (count_bounds t Ht) as Hb. pose proof (size_represents t m Hr) as Hsz.
  assert (∀ t0, represents t0 m → ∃ t', Resize (u64 (size t + 1)) t0 = Some t' ∧ represents t' m ∧
    not_empty_ t' < times_0_8 (capacity t')) as Hresize.
  { intros t0 Hr0. rewrite Hsz, u64_small by (destruct Hfit; unfold is_u64; lia).
    destruct (copy_represents t0 m _ Hr0 Hfit ltac:(lia)) as (t'&E&Hr'&_&Hne&Hroom&_).
    exists t'. split_and!; [done..|lia]. }
  unfold MaybeResize. destruct (Z.ltb_spec (not_empty_ t) (grow_ t)) as [Hlt|Hge].
  { exists t. split_and!; [done..|]. destruct (wf_grow _ Ht) as [Hg|Hg]; rewrite Hg in Hlt; lia. }
  destruct ((grow_ t =? 0) && (shrink_ t <=? size t)); [|by apply Hresize].
  rewrite bucket_count_capacity by done. set (t1 := set_counts _ _ _ t).
  assert (represents t1 m) as Hr1 by (split; [apply wf_set_grow; [done|by right]|done..]).
  change (size t1) with (size t). destruct (Z.ltb_spec (not_empty_ t1) (grow_ t1)) as [Hlt|]; [|by apply Hresize].
  exists t1. split_and!; [done..|]. exact Hlt.
Qed.

(** Storing a value in an entry leaves the rest of the table as it is. *)
Lemma set_val_same s v t :
  shaped t → (s < length (marker_ t))%nat →
  set_val (bucket_of s) (index_of s) v t =
    mkFlatRep (lglen_ t) (marker_ t) (key_ t) (<[s := Some v]> (val_ t)) (mask_ t) (not_empty_ t) (deleted_ t)
      (grow_ t) (shrink_ t).
Proof.
  intros Hs Hlt. unfold set_val, set_entry. destruct (entry_at t s) as (->&->&_). rewrite slot_of.
  unfold mark_at, key_at. rewrite !nth_lookup.
  destruct (lookup_lt_is_Some_2 (marker_ t) s) as [x Hx]; [done|].
  destruct (lookup_lt_is_Some_2 (key_ t) s) as [y Hy]; [by rewrite (sh_keys _ Hs)|].
  rewrite Hx, Hy. cbn [default from_option id]. by rewrite (list_insert_id _ _ _ Hx), (list_insert_id _ _ _ Hy).
Qed.

Lemma set_val_wf s v t : wf t → (s < length (marker_ t))%nat → wf (set_val (bucket_of s) (index_of s) v t).
Proof.
  intros Ht Hlt. rewrite set_val_same by (done || apply (wf_shaped _ Ht)). destruct Ht as [Hsh]. split; try done.
  destruct Hsh. split; try done. cbn [val_ marker_]. rewrite length_insert. done.
Qed.

(** A key that was just put gets its value. *)
Lemma put_set_val s k v t :
  shaped t → (s < length (marker_ t))%nat → set_val (bucket_of s) (index_of s) v (put s k None t) = put s k (Some v) t.
Proof.
  intros Hs Hlt. pose proof (put_changed s k None t Hlt) as Hch.
  rewrite set_val_same; [|by eapply changed_shaped|by rewrite (proj1 (changed_capacity Hch))].
  rewrite (ch_val _ _ _ _ _ _ Hch), list_insert_insert_eq. unfold put, set_entry. rewrite slot_of.
  by destruct (mark_at t s =? kDeleted).
Qed.

Lemma put_represents t m k v s :
  represents t m → m !! k = None → free_for t k s → not_empty_ t < times_0_8 (capacity t) →
  represents (put s k (Some v) t) (<[k := v]> m) ∧
  key_at (put s k (Some v) t) s = Some k ∧ val_at (put s k (Some v) t) s = Some v.
Proof.
  intros Hr Hk Hfree Hroom. pose proof Hr as [Ht Hc He]. pose proof (wf_shaped _ Ht) as Hs.
  pose proof (free_for_lt t k s Hs Hfree) as Hlt. pose proof (put_changed s k (Some v) t Hlt) as Hch.
  pose proof (proj2 (absent_represents t m k Hr) Hk) as Ha. split.
  - apply represents_insert_new; [done|by apply put_wf| |].
    + eapply changed_complete; [done..| |done]. split; by eauto.
    + destruct (put_entries s k (Some v) t Ht Hfree) as (->&_). cbn. by rewrite He.
  - destruct (changed_at Hs Hch s) as (_&->&->). by rewrite !decide_True by done.
Qed.

Lemma set_val_represents t m k v s :
  represents t m → key_at t s = Some k →
  represents (set_val (bucket_of s) (index_of s) v t) (<[k := v]> m).
Proof.
  intros Hr Hk. pose proof Hr as [Ht Hc He]. pose proof (wf_shaped _ Ht) as Hs.
  pose proof (key_at_lt t s k Hs Hk) as Hlt.
  assert (changed s (mark_at t s) (Some k) (Some v) t (set_val (bucket_of s) (index_of s) v t)) as Hch.
  { rewrite <-Hk. unfold set_val. destruct (entry_at t s) as (->&->&_). by apply set_entry_changed. }
  destruct (proj1 (complete_at t s Hs Hc)) as [w Hw]; [by rewrite Hk|].
  destruct (changed_entries _ _ _ _ _ _ Hs Hch) as (rest&E&E'). rewrite Hk, Hw in E.
  cbn [option_list entry_of mbind option_bind fst snd app] in E, E'.
  assert (m !! k = Some w) as Hmk by (apply (lookup_represents t m k w Hr); by exists s).
  split; [by apply set_val_wf| |].
  - eapply changed_complete; [done..| |done]. split; by eauto.
  - rewrite <-insert_delete_eq. rewrite map_to_list_insert by apply lookup_delete_eq. rewrite E'.
    apply Permutation_cons; [done|]. apply (Permutation_cons_inv (a := (k, w))). rewrite <-E, He, <-map_to_list_insert by apply lookup_delete_eq.
    by rewrite insert_delete_eq, insert_id.
Qed.

Lemma Erase_represents t m k s :
  represents t m → key_at t s = Some k → represents (Erase (bucket_of s) (index_of s) t) (delete k m).
Proof.
  intros Hr Hk. pose proof Hr as [Ht Hc He]. pose proof (wf_shaped _ Ht) as Hs.
  pose proof (key_at_lt t s k Hs Hk) as Hlt. pose proof (count_bounds t Ht) as Hb.
  assert (changed s kDeleted None None t (Erase (bucket_of s) (index_of s) t)) as Hch.
  { unfold Erase, set_entry, set_counts. rewrite slot_of. by split. }
  destruct (proj1 (complete_at t s Hs Hc)) as [w Hw]; [by rewrite Hk|].
  assert (m !! k = Some w) as Hmk by (apply (lookup_represents t m k w Hr); by exists s).
  destruct (changed_entries _ _ _ _ _ _ Hs Hch) as (rest&E&E'). rewrite Hk, Hw in E.
  cbn [option_list entry_of mbind option_bind fst snd app] in E, E'.
  destruct (changed_capacity Hch) as [Hlen Hcap]. pose proof (changed_at Hs Hch) as Hat.
  pose proof (wf_entry _ Ht s Hlt) as Hmark. rewrite Hk in Hmark. pose proof (mark_of_range k) as Hrange.
  set (t' := Erase _ _ t) in *.
  assert (∀ s', mark_at t' s' = kEmpty → mark_at t s' = kEmpty) as Hempty.
  { intros s'. destruct (Hat s') as (->&_&_). by destruct (decide (s = s')). }
  split.
  - split.
    + by eapply changed_shaped.
    + intros s' Hs'. rewrite Hlen in Hs'. destruct (Hat s') as (->&->&_).
      destruct (decide (s = s')); [by right|]. by apply (wf_entry _ Ht).
    + intros s1 s2 k'. destruct (Hat s1) as (_&->&_), (Hat s2) as (_&->&_).
      destruct (decide (s = s1)), (decide (s = s2)); try done. by apply (wf_unique _ Ht).
    + intros s' k'. destruct (Hat s') as (_&->&_). destruct (decide (s = s')) as [<-|]; [done|].
      intros Hk'. destruct (wf_reach _ Ht s' k' Hk') as (p'&Hp'&Hps'&Hb'). exists p'.
      rewrite Hlen, (changed_probe Hch). split_and!; [done..|]. intros q Hq.
      rewrite (changed_probe Hch). intros Hem%Hempty. by apply (Hb' q Hq).
    + rewrite (changed_counted Hch), <-(wf_not_empty _ Ht), Hmark. change (not_empty_ t') with (not_empty_ t).
      destruct (Z.eqb_spec (mark_of k) kEmpty) as [Hz|]; [unfold kEmpty in Hz; lia|]. cbn. lia.
    + rewrite (changed_counted Hch), <-(wf_deleted _ Ht), Hmark. change (deleted_ t') with (u64 (deleted_ t + 1)).
      rewrite u64_small by (unfold is_u64; lia).
      destruct (Z.eqb_spec (mark_of k) kDeleted) as [Hz|]; [unfold kDeleted in Hz; lia|]. cbn. lia.
    + rewrite Hcap. apply (wf_room _ Ht).
    + by left.
    + rewrite Hcap. apply (wf_shrink _ Ht).
  - eapply changed_complete; [done..| |done]. split; intros []; done.
  - rewrite E'. apply (Permutation_cons_inv (a := (k, w))). rewrite <-E, He.
    rewrite <-map_to_list_insert by apply lookup_delete_eq. by rewrite insert_delete_eq, insert_id.
Qed.

(** * The operations *)

Lemma Insert_represents t m k v :
  represents t m → fits (Z.of_nat (base.size m) + 1) →
  ∃ b i t', Insert k v t = Some (b, i, bool_decide (m !! k = None), t') ∧
    let m' := match m !! k with Some _ => m | None => <[k := v]> m end in
    represents t' m' ∧ key t' b i = Some k ∧ val t' b i = m' !! k.
Proof.
  intros Hr Hfit. destruct (MaybeResize_represents t m Hr Hfit) as (t1&E1&Hr1&Hroom).
  unfold Insert. rewrite E1. cbn [mbind option_bind]. pose proof Hr1 as [Ht1 _ _].
  pose proof (wf_shaped _ Ht1) as Hs1. pose proof (key_represents t1 m k Hr1) as Hk.
  destruct (m !! k) as [w|] eqn:Emk.
  - destruct Hk as (s&Hks&Hvs). rewrite (FindOrInsert_present t1 k s) by done.
    cbn [mbind option_bind found negb sr_b sr_index]. eexists _, _, _. split; [done|]. cbv zeta.
    destruct (entry_at t1 s) as (_&->&->). by rewrite Emk.
  - destruct (FindOrInsert_absent t1 k Ht1 Hk) as (s&Hfree&->).
    cbn [mbind option_bind found negb sr_b sr_index]. fold (set_val (bucket_of s) (index_of s) v (put s k None t1)).
    rewrite put_set_val by (done || by eapply free_for_lt).
    destruct (put_represents t1 m k v s Hr1 Emk Hfree Hroom) as (Hr2&Hks&Hvs).
    eexists _, _, _. split; [by rewrite bool_decide_true|]. cbv zeta.
    destruct (entry_at (put s k (Some v) t1) s) as (_&->&->). by rewrite lookup_insert_eq.
Qed.

Lemma IndexOp_represents d t m k :
  represents t m → fits (Z.of_nat (base.size m) + 1) →
  ∃ s t', IndexOp d k t = Some (bucket_of s, index_of s, t') ∧
    let m' := match m !! k with Some _ => m | None => <[k := d]> m end in
    represents t' m' ∧ key_at t' s = Some k.
Proof.
  intros Hr Hfit. destruct (MaybeResize_represents t m Hr Hfit) as (t1&E1&Hr1&Hroom).
  unfold IndexOp. rewrite E1. cbn [mbind option_bind]. pose proof Hr1 as [Ht1 _ _].
  pose proof (wf_shaped _ Ht1) as Hs1. pose proof (key_represents t1 m k Hr1) as Hk.
  destruct (m !! k) as [w|] eqn:Emk.
  - destruct Hk as (s&Hks&Hvs). rewrite (FindOrInsert_present t1 k s) by done.
    cbn [mbind option_bind found negb sr_b sr_index]. by exists s, t1.
  - destruct (FindOrInsert_absent t1 k Ht1 Hk) as (s&Hfree&->).
    cbn [mbind option_bind found negb sr_b sr_index]. fold (set_val (bucket_of s) (index_of s) d (put s k None t1)).
    rewrite put_set_val by (done || by eapply free_for_lt).
    destruct (put_represents t1 m k d s Hr1 Emk Hfree Hroom) as (Hr2&Hks&Hvs). by exists s, (put s k (Some d) t1).
Qed.

Lemma Find_represents t m k :
  represents t m →
  match m !! k with
  | Some v => ∃ s, Find k t = Some (mkResult true (bucket_of s) (index_of s)) ∧ key_at t s = Some k ∧ val_at t s = Some v
  | None => Find k t = Some (mkResult false 0 0)
  end.
Proof.
  intros Hr. pose proof Hr as [Ht _ _]. pose proof (key_represents t m k Hr) as Hk.
  destruct (m !! k) as [v|].
  - destruct Hk as (s&Hks&Hvs). exists s. split_and!; [by apply Find_present|done..].
  - by apply Find_absent.
Qed.

Lemma Resize_represents t m N :
  represents t m → fits N → Z.of_nat (base.size m) <= N → ∃ t', Resize N t = Some t' ∧ represents t' m.
Proof.
  intros Hr Hfit Hn. destruct (copy_represents t m N Hr Hfit Hn) as (t'&E&Hr'&_). by exists t'.
Qed.

(** What is left of a table that is cleared. *)
Lemma CopyEntries_none markers keys vals t :
  Forall (λ x, x < 2) markers → CopyEntries markers keys vals t = Some t.
Proof.
  intros Hm. revert keys vals. induction Hm as [|x markers Hx Hm IH]; intros [|k keys] [|v vals]; try done.
  cbn [CopyEntries]. destruct (Z.leb_spec 2 x); [lia|]. apply IH.
Qed.

Lemma counted_none P l : counted P l = 0 → Forall (λ x, P x = false) l.
Proof.
  induction l as [|x l IH]; [constructor|]. rewrite counted_cons. pose proof (counted_bound P l).
  destruct (P x) eqn:E; cbn [Z.b2z]; [lia|]. constructor; [done|]. apply IH. lia.
Qed.

Lemma replicate_eq {A} (l : list A) n x : length l = n → Forall (λ y, y = x) l → l = replicate n x.
Proof. intros <- Hl. induction Hl as [|y l -> _ IH]; [done|]. cbn. by rewrite <-IH. Qed.

Lemma clear_no_resize_represents t m :
  represents t m → deleted_ t = 0 → represents (clear_no_resize t) ∅.
Proof.
  intros [Ht Hc _] Hd. pose proof (wf_shaped _ Ht) as Hs. pose proof (wf_marked t Ht) as Hm.
  rewrite (wf_deleted _ Ht) in Hd. apply counted_none in Hd. rewrite Forall_lookup in Hd.
  set (t' := clear_no_resize t). set (n := length (marker_ t)).
  assert (length (marker_ t') = n) as Hl1 by apply length_fmap.
  assert (length (key_ t') = n) as Hl2 by (apply length_zip_with_l_eq; by rewrite (sh_keys _ Hs)).
  assert (length (val_ t') = n) as Hl3 by (apply length_zip_with_l_eq; by rewrite (sh_vals _ Hs)).
  assert (marker_ t' = replicate n kEmpty) as Em.
  { apply replicate_eq; [done|]. apply Forall_fmap, Forall_lookup. intros s x Hx. cbn.
    destruct (Forall2_lookup_l _ _ _ _ _ Hm Hx) as (k&Hk&Hxk). specialize (Hd s x Hx).
    destruct (Z.leb_spec 2 x); [done|]. apply Z.eqb_neq in Hd. destruct k; [lia|]. naive_solver. }
  assert (key_ t' = replicate n None) as Ek.
  { apply replicate_eq; [done|]. apply Forall_lookup. intros s y (x&k&->&Hx&Hk)%lookup_zip_with_Some.
    pose proof (Forall2_lookup_lr _ _ _ _ _ _ Hm Hx Hk) as Hxk. destruct (Z.leb_spec 2 x); [done|].
    destruct k; [lia|done]. }
  assert (val_ t' = replicate n None) as Ev.
  { apply replicate_eq; [done|]. apply Forall_lookup. intros s y (x&v&->&Hx&Hv)%lookup_zip_with_Some.
    destruct (Forall2_lookup_l _ _ _ _ _ Hm Hx) as (k&Hk&Hxk).
    pose proof (Forall2_lookup_lr _ _ _ _ _ _ Hc Hk Hv) as Hkv. destruct (Z.leb_spec 2 x); [done|].
    destruct k; [lia|]. destruct v; [|done]. destruct (proj2 Hkv); [by eexists|done]. }
  destruct (empty_wf t' n Em Ek Ev) as (Hw&He&Hco); try done.
  - destruct Hs. split; unfold capacity in *; rewrite ?Hl1, ?Hl2, ?Hl3; done.
  - unfold capacity. rewrite Hl1. apply (wf_grow _ Ht).
  - unfold capacity. rewrite Hl1. apply (wf_shrink _ Ht).
  - split; [done..|]. by rewrite He, map_to_list_empty.
Qed.

Lemma Init_represents N : fits N → represents (Init N) ∅.
Proof. intros Hf. destruct (Init_new (K := K) (V := V) N Hf). split; [done..|]. by rewrite map_to_list_empty, nt_entries0. Qed.

(** Clearing works on tables without deleted entries and on those of several buckets. *)
Lemma clear_represents t m :
  represents t m → deleted_ t = 0 ∨ 0 < lglen_ t → ∃ t', clear t = Some t' ∧ represents t' ∅.
Proof.
  intros Hr. pose proof Hr as [Ht _ _]. pose proof (wf_shaped _ Ht) as Hs. destruct (decide (0 < lglen_ t)) as [Hlg|Hlg].
  - intros _. exists (Init 1). split; [|apply Init_represents; unfold fits; lia].
    unfold clear, MaybeResize. cbn [not_empty_ grow_ set_counts clear_no_resize]. cbn [Z.ltb Z.compare Z.eqb andb].
    assert (4 <= shrink_ t) as Hsh.
    { rewrite (wf_shrink _ Ht). destruct (Z.eqb_spec (lglen_ t) 0); [lia|].
      assert (2 ^ 4 <= capacity t) by (rewrite (sh_capacity _ Hs); apply Z.pow_le_mono_r; lia).
      unfold times_0_4, times_0_8. lia. }
    change (size _) with 0. change (shrink_ _) with (shrink_ t). destruct (Z.leb_spec (shrink_ t) 0); [lia|].
    unfold Resize. rewrite CopyEntries_none; [reflexivity|]. cbn [marker_ set_counts clear_no_resize].
    apply Forall_fmap, Forall_true. intros x. cbn. destruct (Z.leb_spec 2 x); unfold kEmpty; lia.
  - intros [Hd|?]; [|lia]. pose proof (clear_no_resize_represents t m Hr Hd) as Hr'. pose proof Hr' as [Ht' Hc' He'].
    destruct (MaybeResize_represents (set_counts 0 0 0 (clear_no_resize t)) ∅) as (t'&E&Hr''&_).
    + split; [|done..]. apply (wf_set_grow (clear_no_resize t)); [done|by left].
    + unfold fits. rewrite map_size_empty. lia.
    + by exists t'.
Qed.

(** * Iteration *)

Definition pos_of (s : nat) : Z * Z := (bucket_of s, index_of s).

Lemma pos_of_inj s s' : pos_of s = pos_of s' → s = s'.
Proof. intros [= Hb Hi]. by rewrite <-(slot_of s), <-(slot_of s'), Hb, Hi. Qed.

Lemma pos_of_slot b i : 0 <= b → 0 <= i < 8 → pos_of (slot b i) = (b, i).
Proof.
  intros Hb Hi. unfold pos_of, bucket_of, index_of, slot. change (kWidth - 1) with (Z.ones 3).
  change kBase with 3. change kWidth with 8. rewrite Z.land_ones, Z.shiftr_div_pow2 by lia.
  f_equal; lia.
Qed.

(** The number of unused entries at the start. *)
Fixpoint unused (l : list Z) : nat :=
  match l with
  | [] => O
  | m :: l => if m <? 2 then S (unused l) else O
  end.

Lemma limit_capacity t : shaped t → limit t * 8 = capacity t.
Proof.
  intros Hs. pose proof (sh_lg _ Hs). rewrite (sh_capacity _ Hs). unfold limit.
  rewrite Z.shiftl_mul_pow2, Z.pow_add_r by lia. lia.
Qed.

Lemma SkipUnused_spec fuel t b i :
  shaped t → 0 <= b <= limit t → 0 <= i <= 8 → (b = limit t → i = 0) →
  capacity t - (8 * b + i) + (limit t - b) < Z.of_nat fuel →
  SkipUnused fuel t b i = pos_of (slot b i + unused (drop (slot b i) (marker_ t))).
Proof.
  intros Hs. pose proof (limit_capacity t Hs) as Hlim. revert b i.
  induction fuel as [|fuel IH]; intros b i Hb Hi Hend Hfuel; [lia|]. cbn [SkipUnused]. change kWidth with 8.
  assert (Z.of_nat (slot b i) = 8 * b + i) as Hslot by (unfold slot; change kWidth with 8; lia).
  destruct (Z.ltb_spec b (limit t)) as [Hlt|Hge].
  - destruct (Z.leb_spec 8 i) as [H8|H8].
    + rewrite IH by lia. assert (slot (b + 1) 0 = slot b i) as -> by (unfold slot; change kWidth with 8; lia). done.
    + assert (slot b i < length (marker_ t))%nat as Hsl by (unfold capacity in *; lia).
      destruct (lookup_lt_is_Some_2 _ _ Hsl) as [x Hx]. rewrite (drop_S _ x) by done. cbn [unused].
      assert (marker t b i = x) as -> by (by apply nth_lookup_Some).
      destruct (x <? 2).
      * rewrite IH by lia. assert (slot b (i + 1) = S (slot b i)) as -> by (unfold slot in *; change kWidth with 8 in *; lia).
        f_equal. lia.
      * rewrite Nat.add_0_r, pos_of_slot by lia. done.
  - assert (b = limit t) as -> by lia. rewrite (Hend eq_refl) in *. rewrite drop_ge by (unfold capacity in *; lia).
    cbn [unused]. rewrite Nat.add_0_r, pos_of_slot by lia. done.
Qed.

Lemma skip_fuel_enough t b i :
  shaped t → 0 <= b → 0 <= i → capacity t - (8 * b + i) + (limit t - b) < Z.of_nat (skip_fuel t).
Proof. intros Hs Hb Hi. pose proof (limit_capacity t Hs). unfold skip_fuel, capacity in *. lia. Qed.

Lemma begin_pos t : shaped t → begin_ t = pos_of (unused (marker_ t)).
Proof.
  intros Hs. pose proof (limit_capacity t Hs). pose proof (capacity_bounds t Hs).
  unfold begin_. rewrite SkipUnused_spec; [done|done|lia..|by apply skip_fuel_enough].
Qed.

Lemma end_pos t : shaped t → end_ t = pos_of (length (marker_ t)).
Proof.
  intros Hs. pose proof (limit_capacity t Hs). pose proof (capacity_bounds t Hs).
  unfold end_. rewrite SkipUnused_spec; [|done|lia..|apply skip_fuel_enough; [done|lia..]].
  assert (slot (limit t) 0 = length (marker_ t)) as -> by (unfold slot, capacity in *; change kWidth with 8; lia).
  by rewrite drop_all, Nat.add_0_r.
Qed.

Lemma next_pos t s :
  shaped t → (s < length (marker_ t))%nat → next_ t (pos_of s) = pos_of (S s + unused (drop (S s) (marker_ t))).
Proof.
  intros Hs Hlt. pose proof (limit_capacity t Hs). pose proof (slot_of s) as Hslot.
  assert (0 <= bucket_of s ∧ 0 <= index_of s < 8) as [Hb Hi].
  { unfold bucket_of, index_of. change (kWidth - 1) with (Z.ones 3). change kBase with 3.
    rewrite Z.land_ones, Z.shiftr_div_pow2 by lia. lia. }
  unfold slot in Hslot. change kWidth with 8 in Hslot. unfold next_, pos_of at 1 2. cbn [fst snd].
  rewrite SkipUnused_spec; [|done|unfold capacity in *; lia..|apply skip_fuel_enough; [done|lia..]].
  assert (slot (bucket_of s) (index_of s + 1) = S s) as -> by (unfold slot; change kWidth with 8; lia). done.
Qed.

(** A loop over the table passes the entries in order. *)
Lemma iterate_from t s fuel :
  shaped t → marked (marker_ t) (key_ t) → complete (key_ t) (val_ t) →
  (s <= length (marker_ t))%nat → (length (marker_ t) - s < fuel)%nat →
  iterate fuel t (pos_of (s + unused (drop s (marker_ t)))) =
  (λ e, (Some e.1, Some e.2)) <$> omap entry_of (zip (drop s (key_ t)) (drop s (val_ t))).
Proof.
  intros Hs Hm Hc. remember (length (marker_ t) - s)%nat as n eqn:Hn. revert s fuel Hn.
  induction n as [|n IH]; intros s fuel Hn Hle Hfuel; (destruct fuel as [|fuel]; [lia|]).
  - rewrite !drop_ge by (rewrite ?(sh_keys _ Hs), ?(sh_vals _ Hs); lia). cbn [unused iterate].
    rewrite end_pos, bool_decide_true by (done || (f_equal; lia)). done.
  - assert (s < length (marker_ t))%nat as Hlt by lia. destruct (lookup_lt_is_Some_2 _ _ Hlt) as [x Hx].
    destruct (Forall2_lookup_l _ _ _ _ _ Hm Hx) as (k&Hk&Hxk).
    destruct (Forall2_lookup_l _ _ _ _ _ Hc Hk) as (v&Hv&Hkv).
    rewrite (drop_S _ x), (drop_S (key_ t) k), (drop_S (val_ t) v) by done. cbn [unused].
    destruct (Z.ltb_spec x 2) as [Hx2|Hx2].
    + rewrite <-Nat.add_succ_comm, IH by lia. destruct k; [lia|]. done.
    + rewrite Nat.add_0_r. cbn [iterate]. rewrite end_pos, bool_decide_false by
        (done || (intros E%pos_of_inj; lia)).
      rewrite next_pos, IH by (done || lia). cbn [pos_of fst snd].
      destruct (entry_at t s) as (_&->&->). unfold key_at, val_at.
      rewrite (nth_lookup_Some _ _ _ _ Hk), (nth_lookup_Some _ _ _ _ Hv).
      destruct k as [k|]; [|unfold kEmpty, kDeleted in *; lia].
      destruct v as [v|]; [|by destruct (proj1 Hkv)]. done.
Qed.

Lemma iterate_entries t :
  shaped t → marked (marker_ t) (key_ t) → complete (key_ t) (val_ t) →
  iterate (S (length (marker_ t))) t (begin_ t) = (λ e, (Some e.1, Some e.2)) <$> entries t.
Proof.
  intros Hs Hm Hc. rewrite begin_pos by done. apply (iterate_from t 0); [done..|lia|lia].
Qed.

(** * Equality and erasure *)

Lemma all_equal_spec `{EqDecision V} t m l :
  represents t m →
  all_equal ((λ e, (Some e.1, Some e.2)) <$> l) t = Some (forallb (λ e, bool_decide (m !! e.1 = Some e.2)) l).
Proof.
  intros Hr. induction l as [|[k v] l IH]; [done|]. cbn [fmap list_fmap all_equal fst snd forallb].
  pose proof (Find_represents t m k Hr) as Hk. destruct (m !! k) as [w|] eqn:Emk.
  - destruct Hk as (s&->&_&Hv). cbn [mbind option_bind found negb sr_b sr_index].
    destruct (entry_at t s) as (_&_&->). rewrite Hv. change (list_fmap _ _ _ l) with ((λ e : K * V, (Some e.1, Some e.2)) <$> l).
    rewrite IH. by case_bool_decide.
  - rewrite Hk. done.
Qed.

Lemma same_size_eq m m' :
  base.size m = base.size m' → (∀ k v, m' !! k = Some v → m !! k = Some v) → m = m'.
Proof.
  intros Hsize Hsub. apply map_to_list_inj. symmetry. apply submseteq_length_Permutation.
  - apply NoDup_submseteq; [apply NoDup_map_to_list|]. intros [k v]. rewrite !elem_of_map_to_list. apply Hsub.
  - by rewrite !length_map_to_list, Hsize.
Qed.

Lemma map_equal_represents `{EqDecision V} t x m mx :
  represents t m → represents x mx → map_equal t x = Some (bool_decide (m = mx)).
Proof.
  intros Hr Hrx. pose proof Hrx as [Hx Hcx Hex]. unfold map_equal.
  rewrite (size_represents t m Hr), (size_represents x mx Hrx).
  destruct (Z.eqb_spec (Z.of_nat (base.size m)) (Z.of_nat (base.size mx))) as [Hsz|Hsz]; cbn [negb].
  - rewrite iterate_entries, (all_equal_spec t m) by (done || apply (wf_shaped _ Hx) || by apply wf_marked).
    f_equal. apply eq_true_iff_eq. rewrite forallb_forall, bool_decide_eq_true.
    assert ((∀ e, In e (entries x) → bool_decide (m !! e.1 = Some e.2) = true) ↔
      ∀ k v, mx !! k = Some v → m !! k = Some v) as ->.
    { setoid_rewrite bool_decide_eq_true. setoid_rewrite <-list_elem_of_In. setoid_rewrite Hex. split.
      - intros Hall k v Hkv. apply (Hall (k, v)). by rewrite elem_of_map_to_list.
      - intros Hall [k v]. rewrite elem_of_map_to_list. apply Hall. }
    split; [|by intros ->]. apply same_size_eq. lia.
  - by rewrite bool_decide_false by (by intros ->).
Qed.

(** * Sequences of operations *)

(** The interface of the map: [m[k] = v] is [OSet]. *)
Inductive MapOp :=
  | OInsert (k : K) (v : V) | OSet (k : K) (v : V) | OErase (k : K) | OFind (k : K) | OCount (k : K)
  | OSize | OReserve (N : Z) | OCopy | OClear.

Inductive MapResult := RUnit | RBool (b : bool) | RNum (z : Z) | RVal (v : option V).

Definition run_map_op (d : V) (op : MapOp) t : option (MapResult * FlatRep K V) :=
  match op with
  | OInsert k v => '(_, _, inserted, t) ← Insert k v t; Some (RBool inserted, t)
  | OSet k v => '(b, i, t) ← IndexOp d k t; Some (RUnit, set_val b i v t)
  | OErase k => '(n, t) ← erase k t; Some (RNum n, t)
  | OFind k => pos ← find k t; Some (RVal (if bool_decide (pos = end_ t) then None else val t pos.1 pos.2), t)
  | OCount k => n ← count k t; Some (RNum n, t)
  | OSize => Some (RNum (size t), t)
  | OReserve N => t ← reserve N t; Some (RUnit, t)
  | OCopy => t ← CopyFrom t; Some (RUnit, t)
  | OClear => t ← clear t; Some (RUnit, t)
  end.

(** The same operations on a finite map. *)
Definition spec_map_op (op : MapOp) m : MapResult * gmap K V :=
  match op with
  | OInsert k v => (RBool (bool_decide (m !! k = None)), match m !! k with Some _ => m | None => <[k := v]> m end)
  | OSet k v => (RUnit, <[k := v]> m)
  | OErase k => (RNum (match m !! k with Some _ => 1 | None => 0 end), delete k m)
  | OFind k => (RVal (m !! k), m)
  | OCount k => (RNum (match m !! k with Some _ => 1 | None => 0 end), m)
  | OSize => (RNum (Z.of_nat (base.size m)), m)
  | OReserve _ | OCopy => (RUnit, m)
  | OClear => (RUnit, ∅)
  end.

(** A size that can be reserved; a table that can be cleared. *)
Definition op_fits (op : MapOp) : Prop := match op with OReserve N => fits N | _ => True end.

Definition op_clean (op : MapOp) t : bool :=
  match op with OClear => (deleted_ t =? 0) || (0 <? lglen_ t) | _ => true end.

Lemma map_op_simulation d op t m :
  represents t m → fits (Z.of_nat (base.size m) + 1) → op_fits op → op_clean op t = true →
  ∃ t', run_map_op d op t = Some ((spec_map_op op m).1, t') ∧ represents t' (spec_map_op op m).2.
Proof.
  intros Hr Hfit Hop Hclean. pose proof Hr as [Ht _ _]. pose proof (wf_shaped _ Ht) as Hs.
  destruct op as [k v|k v|k|k|k| |N| |]; cbn [run_map_op spec_map_op fst snd].
  - destruct (Insert_represents t m k v Hr Hfit) as (b&i&t'&->&Hr'&_). by exists t'.
  - destruct (IndexOp_represents d t m k Hr Hfit) as (s&t'&->&Hr'&Hk). cbn [mbind option_bind].
    eexists. split; [done|]. pose proof (set_val_represents _ _ k v s Hr' Hk) as Hr2.
    destruct (m !! k); [done|]. by rewrite insert_insert_eq in Hr2.
  - unfold erase. pose proof (Find_represents t m k Hr) as Hk. destruct (m !! k) as [w|] eqn:E.
    + destruct Hk as (s&->&Hks&_). eexists. split; [done|]. by apply Erase_represents.
    + rewrite Hk. eexists. split; [done|]. by rewrite delete_id.
  - unfold find. pose proof (Find_represents t m k Hr) as Hk. exists t. destruct (m !! k) as [w|] eqn:E.
    + destruct Hk as (s&->&Hks&Hvs). cbn [mbind option_bind found sr_b sr_index fst snd]. split; [|done].
      rewrite end_pos, bool_decide_false by (done || (intros ?%pos_of_inj; pose proof (key_at_lt t s k Hs Hks); lia)).
      destruct (entry_at t s) as (_&_&->). by rewrite Hvs.
    + rewrite Hk. cbn [mbind option_bind found]. by rewrite bool_decide_true.
  - unfold count. pose proof (Find_represents t m k Hr) as Hk. exists t. destruct (m !! k) as [w|].
    + by destruct Hk as (s&->&_).
    + by rewrite Hk.
  - exists t. by rewrite (size_represents t m Hr).
  - unfold reserve. rewrite (size_represents t m Hr). unfold op_fits, fits in *.
    destruct (Resize_represents t m (Z.max N (Z.of_nat (base.size m))) Hr) as (t'&->&Hr'); [unfold fits; lia|lia|].
    by exists t'.
  - unfold CopyFrom. rewrite (size_represents t m Hr). unfold fits in *.
    destruct (copy_represents t m (Z.of_nat (base.size m)) Hr) as (t'&->&Hr'&_); [unfold fits; lia|lia|]. by exists t'.
  - cbn [op_clean] in Hclean. destruct (clear_represents t m Hr) as (t'&->&Hr'); [|by exists t'].
    apply orb_true_iff in Hclean as [?%Z.eqb_eq|?%Z.ltb_lt]; [by left|by right].
Qed.

Fixpoint run_map_ops (d : V) (ops : list MapOp) t : option (list MapResult * FlatRep K V) :=
  match ops with
  | [] => Some ([], t)
  | op :: ops =>
      '(r, t) ← run_map_op d op t;
      '(rs, t) ← run_map_ops d ops t;
      Some (r :: rs, t)
  end.

Fixpoint spec_map_ops (ops : list MapOp) m : list MapResult * gmap K V :=
  match ops with
  | [] => ([], m)
  | op :: ops => let '(r, m) := spec_map_op op m in let '(rs, m) := spec_map_ops ops m in (r :: rs, m)
  end.

(** No table of one bucket that has deleted entries is cleared. *)
Fixpoint clean_clears (d : V) (ops : list MapOp) t : bool :=
  match ops with
  | [] => true
  | op :: ops => op_clean op t && match run_map_op d op t with Some (_, t) => clean_clears d ops t | None => true end
  end.

Lemma spec_size op m : (base.size (spec_map_op op m).2 <= S (base.size m))%nat.
Proof.
  destruct op; cbn; rewrite ?map_size_empty; try lia.
  - destruct (m !! k) eqn:E; [lia|]. by rewrite map_size_insert_None.
  - rewrite map_size_insert. destruct (m !! k); cbn; lia.
  - rewrite map_size_delete. destruct (m !! k); cbn; lia.
Qed.

Lemma map_ops_simulation d ops t m :
  represents t m → Z.of_nat (base.size m + length ops) < 2 ^ 30 → Forall op_fits ops → clean_clears d ops t = true →
  ∃ t', run_map_ops d ops t = Some ((spec_map_ops ops m).1, t') ∧ represents t' (spec_map_ops ops m).2.
Proof.
  revert t m. induction ops as [|op ops IH]; intros t m Hr Hlen Hfit Hclean; [by exists t|].
  apply Forall_cons in Hfit as [Hop Hfit]. cbn [clean_clears] in Hclean. apply andb_true_iff in Hclean as [Hc1 Hc2].
  cbn [length] in Hlen.
  destruct (map_op_simulation d op t m Hr) as (t1&E1&Hr1); [unfold fits; lia|done|done|].
  rewrite E1 in Hc2. pose proof (spec_size op m) as Hsz.
  destruct (IH t1 _ Hr1) as (t'&E'&Hr'); [lia|done|done|]. exists t'.
  cbn [run_map_ops spec_map_ops]. rewrite E1. cbn [mbind option_bind].
  destruct (spec_map_op op m) as [r m1]. cbn [fst snd] in *. rewrite E'. cbn [mbind option_bind].
  by destruct (spec_map_ops ops m1).
Qed.
End flat_map.
Arguments MapOp : clear implicits.
Arguments MapResult : clear implicits.

(** [FlatSet]: the entries have no values. *)
Definition set_insert {K : Type} `{HashKey K} (k : K) (t : FlatRep K unit) : option (Z * Z * bool * FlatRep K unit) :=
  Insert k tt t.

(** A hash that is the identity. *)
#[export, program] Instance Z_key : HashKey Z := { hash k := u64 k; equal a b := a =? b }.
Next Obligation. intros k. apply u64_range. Qed.
Next Obligation. intros a b. apply Z.eqb_eq. Qed.

(** * Theorems *)

(** C33: a flat map is a finite map. From a new map for any number of elements, whatever the
    hash function, any sequence of insertions, assignments through
    [operator[]], erasures, searches, counts, sizes, reservations, copies and
    clearings gives the results that a finite map gives: every search ends,
    and the table holds exactly the map's entries. Excepted are clearings of a
    table of one bucket that has deleted entries. *)
Theorem flat_map_refines {K V : Type} `{HashKey K, Countable K} (d : V) (N : Z) (ops : list (MapOp K V)) :
  fits N → Forall op_fits ops → Z.of_nat (length ops) < 2 ^ 30 → clean_clears d ops (Init N) = true →
  ∃ t, run_map_ops d ops (Init N) = Some ((spec_map_ops ops ∅).1, t) ∧ represents t (spec_map_ops ops ∅).2.
Proof.
  intros HN Hops Hlen Hclean. apply map_ops_simulation; [by apply Init_represents| |done..].
  rewrite map_size_empty. lia.
Qed.

Definition flat_example : list (MapOp Z Z) :=
  [OInsert 1 10; OSet 257 20; OErase 1; OInsert 1 11; OInsert 257 5; OSize; OFind 1; OCount 7; OCopy].

Lemma flat_map_refines_witness :
  ∃ t, run_map_ops 0 flat_example (Init 1) =
    Some ([RBool true; RUnit; RNum 1; RBool true; RBool false; RNum 2; RVal (Some 11); RNum 0; RUnit], t).
Proof.
  destruct (flat_map_refines 0 1 flat_example) as (t&E&_).
  - unfold fits. lia.
  - repeat constructor.
  - simpl. lia.
  - vm_compute. reflexivity.
  - exists t. exact E.
Defined.

(** A loop over a map passes each entry once. From [begin] to [end] the iterator
    of a table yields exactly the entries of the map that the table holds, without
    repetition; two maps are compared by [operator==] as equal exactly when
    they have the same entries; and erasing at an iterator removes that
    entry and returns the iterator that the next step would have led to. *)
Theorem flat_map_iterates {K V : Type} `{HashKey K, Countable K, EqDecision V}
    (t t' : FlatRep K V) (m m' : gmap K V) :
  represents t m → represents t' m' →
  (∃ l, iterate (S (length (marker_ t))) t (begin_ t) = (λ e, (Some e.1, Some e.2)) <$> l ∧ l ≡ₚ map_to_list m) ∧
  map_equal t t' = Some (bool_decide (m = m')) ∧
  ∀ k b i, find k t = Some (b, i) → m !! k ≠ None →
    ∃ t1, erase_at (b, i) t = (next_ t (b, i), t1) ∧ represents t1 (delete k m).
Proof.
  intros Hr Hr'. pose proof Hr as [Ht Hc He]. pose proof (wf_shaped _ Ht) as Hs. split_and!.
  - exists (entries t). split; [|done]. apply iterate_entries; [done|by apply wf_marked|done].
  - by apply map_equal_represents.
  - intros k b i Hf Hk. unfold find in Hf. pose proof (Find_represents t m k Hr) as HF.
    destruct (m !! k) as [v|] eqn:E; [|done]. destruct HF as (s&EF&Hks&_). rewrite EF in Hf. cbn in Hf.
    injection Hf as <- <-. pose proof (key_at_lt t s k Hs Hks) as Hlt.
    exists (Erase (bucket_of s) (index_of s) t). split; [|by apply Erase_represents].
    pose proof (Erase_represents t m k s Hr Hks) as [Ht1 _ _]. pose proof (wf_shaped _ Ht1) as Hs1.
    assert (marker_ (Erase (bucket_of s) (index_of s) t) = <[s := kDeleted]> (marker_ t)) as Em.
    { unfold Erase, set_entry, set_counts. by rewrite slot_of. }
    unfold erase_at. cbn [fst snd]. f_equal. change (bucket_of s, index_of s) with (pos_of s).
    rewrite !next_pos by (done || by rewrite Em, length_insert). by rewrite Em, drop_insert_lt by lia.
Qed.

Lemma flat_map_iterates_witness :
  ∃ t l, run_map_ops 0 flat_example (Init 1) = Some ((spec_map_ops flat_example ∅).1, t) ∧
    iterate (S (length (marker_ t))) t (begin_ t) = (λ e, (Some e.1, Some e.2)) <$> l ∧
    l ≡ₚ map_to_list (spec_map_ops flat_example ∅).2.
Proof.
  destruct (map_ops_simulation 0 flat_example (Init 1) ∅) as (t&E&Hr).
  - apply Init_represents. unfold fits. lia.
  - vm_compute. reflexivity.
  - repeat constructor.
  - vm_compute. reflexivity.
  - destruct (flat_map_iterates t t _ _ Hr Hr) as ((l&Hl&Hp)&_). exists t, l. split; [exact E|]. split; [exact Hl|exact Hp].
Defined.

(** The operations after which a search does not end. *)
Definition clear_example : list (MapOp Z Z) :=
  [OInsert 0 0; OInsert 256 0; OInsert 512 0; OInsert 768 0; OInsert 1024 0;
   OErase 0; OErase 256; OErase 512; OErase 768; OErase 1024; OClear;
   OInsert 1280 0; OInsert 1536 0; OInsert 1792 0].

(** Clearing a table of one bucket can make later searches endless. [clear] keeps
    the markers of deleted entries and sets their counts to zero. After five
    insertions, five erasures, a clearing and three insertions the map reports
    three elements and sees no need to grow, but none of its eight
    entries is empty, so a search for a key that is absent never returns,
    however many probes it makes. *)
Theorem clear_keeps_deleted_entries :
  ∃ rs t, run_map_ops 0 clear_example (Init 1) = Some (rs, t) ∧ size t = 3 ∧ MaybeResize t = Some t ∧
    (∀ s, (s < length (marker_ t))%nat → mark_at t s ≠ kEmpty) ∧
    ∀ fuel, find_loop fuel t 0 (Marker (Z.land (hash 0) 0xff)) (first_index t (hash 0)) 1 = None.
Proof.
  assert (match run_map_ops 0 clear_example (Init 1) with
    | Some (_, t) => lglen_ t = 0 ∧ marker_ t = [1; 1; 1; 1; 1; 2; 2; 2] ∧
        key_ t = [None; None; None; None; None; Some 1280; Some 1536; Some 1792] ∧
        length (val_ t) = 8%nat ∧ mask_ t = 7 ∧ size t = 3 ∧ MaybeResize t = Some t
    | None => False
    end) as Hrun by (vm_compute; split_and!; reflexivity).
  destruct (run_map_ops 0 clear_example (Init 1)) as [[rs t]|]; [|done].
  destruct Hrun as (Hlg&Hm&Hk&Hv&Hmask&Hsz&Hmr).
  assert (shaped t) as Hs.
  { split; unfold capacity; rewrite ?Hlg, ?Hm, ?Hk, ?Hv, ?Hmask; done. }
  assert (∀ s, (s < length (marker_ t))%nat → hit t 0 s = false ∧ mark_at t s ≠ kEmpty) as Hfull.
  { intros s. unfold hit, mark_at, key_at. rewrite Hm, Hk. intros Hlt.
    do 8 (destruct s as [|s]; [by vm_compute|]). cbn [length] in Hlt. lia. }
  exists rs, t. split_and!; [done..| |].
  - intros s Hlt. by apply Hfull.
  - intros fuel. apply find_loop_full; [done| |done]. unfold first_index. rewrite mask_mod by done.
    apply Z.mod_pos_bound. unfold capacity. rewrite Hm. cbn. lia.
Qed.
