(* ===== verification/BFCAllocator.v ===== *)
(** * The best-fit-with-coalescing allocator ([core/common_runtime/bfc_allocator.{h,cc}])

    [BFCAllocator] hands out pieces of large regions that it gets from a
    sub-allocator.  The memory of a region is cut into chunks, which form a doubly
    linked list in the order of their addresses; the chunks are entries of one
    vector and refer to each other by index ([ChunkHandle]); vector entries that
    are not needed are kept in a list linked through [next].  The free chunks are
    in 21 bins by size, each a set ordered by size and address; the array of a
    region maps an address to the chunk that starts there.

    The state that changes under the lock without the sub-allocator is the record
    [Pool]; [BFCAllocator] adds the growth of the regions, the sub-allocator (the
    class [SubAllocator]) and the visitors.  A failed [CHECK], an access outside
    an array and a loop that has not ended within its fuel are the values of
    [Fault].  A [ChunkHandle] is an [option nat], with [None] for
    [kInvalidChunkHandle]; pointers are addresses, with [0] for [nullptr].

    Against this stands the abstract heap: the regions as lists of blocks.  The
    relation [rep] says that a pool represents a heap, and the operations are
    shown to refine [take] (best fit) and [release] (free and coalesce). *)
From S2P Require Import Prelude.

Open Scope Z_scope.

(** ** Sizes, rounding and bins *)

Definition kMinAllocationBits : Z := 8.
Definition kMinAllocationSize : Z := 256.
Definition kNumBins : nat := 21.
Definition nullptr : Z := 0.

(** The debug assertion is left out. *)
Definition RoundedBytes (bytes : Z) : Z :=
  u64 (kMinAllocationSize * (u64 (bytes + kMinAllocationSize - 1) / kMinAllocationSize)).

(** [63 ^ __builtin_clzll(n)] for a non-zero [n]. *)
Definition Log2FloorNonZero (n : Z) : Z := Z.log2 n.

(** The loop that other compilers use. *)
Fixpoint log2_slow_loop (fuel : nat) (n r : Z) : Z :=
  match fuel with
  | O => r - 1
  | S fuel => if 0 <? n then log2_slow_loop fuel (Z.shiftr n 1) (r + 1) else r - 1
  end.

Definition Log2FloorNonZeroSlow (n : Z) : Z := log2_slow_loop 64 n 0.

Definition BinNumToSize (index : nat) : Z := u64 (Z.shiftl 256 (Z.of_nat index)).

Definition BinNumForSize (bytes : Z) : nat :=
  let v := Z.shiftr (Z.max bytes 256) kMinAllocationBits in
  Z.to_nat (Z.min (Z.of_nat kNumBins - 1) (Log2FloorNonZero v)).

(** ** The data *)

(** [bin_num] is [None] for [kInvalidBinNum]. *)
Record Chunk := mkChunk {
  c_size : Z;
  requested_size : Z;
  allocation_id : Z;
  c_ptr : Z;
  c_prev : option nat;
  c_next : option nat;
  c_bin_num : option nat;
}.

Definition new_Chunk : Chunk := mkChunk 0 0 (-1) nullptr None None None.

Definition in_use (c : Chunk) : bool := negb (allocation_id c =? -1).

Definition set_size (s : Z) (c : Chunk) : Chunk :=
  mkChunk s (requested_size c) (allocation_id c) (c_ptr c) (c_prev c) (c_next c) (c_bin_num c).
Definition set_requested_size (s : Z) (c : Chunk) : Chunk :=
  mkChunk (c_size c) s (allocation_id c) (c_ptr c) (c_prev c) (c_next c) (c_bin_num c).
Definition set_allocation_id (i : Z) (c : Chunk) : Chunk :=
  mkChunk (c_size c) (requested_size c) i (c_ptr c) (c_prev c) (c_next c) (c_bin_num c).
Definition set_ptr (p : Z) (c : Chunk) : Chunk :=
  mkChunk (c_size c) (requested_size c) (allocation_id c) p (c_prev c) (c_next c) (c_bin_num c).
Definition set_prev (h : option nat) (c : Chunk) : Chunk :=
  mkChunk (c_size c) (requested_size c) (allocation_id c) (c_ptr c) h (c_next c) (c_bin_num c).
Definition set_next (h : option nat) (c : Chunk) : Chunk :=
  mkChunk (c_size c) (requested_size c) (allocation_id c) (c_ptr c) (c_prev c) h (c_bin_num c).
Definition set_bin_num (b : option nat) (c : Chunk) : Chunk :=
  mkChunk (c_size c) (requested_size c) (allocation_id c) (c_ptr c) (c_prev c) (c_next c) b.

(** The set [free_chunks] is the list of its elements in the order of its
    comparator. *)
Record Bin := mkBin { bin_size : Z; free_chunks : list nat }.

Record AllocationRegion := mkRegion {
  ptr_ : Z;
  memory_size_ : Z;
  end_ptr_ : Z;
  handles_ : list (option nat);
}.

Definition new_AllocationRegion (p memory_size : Z) : AllocationRegion :=
  let n_handles := u64 (memory_size + kMinAllocationSize - 1) / kMinAllocationSize in
  mkRegion p memory_size (p + memory_size) (replicate (Z.to_nat n_handles) None).

Record AllocatorStats := mkStats {
  num_allocs : Z;
  bytes_in_use : Z;
  max_bytes_in_use : Z;
  max_alloc_size : Z;
  bytes_limit : Z;
}.

Record Pool := mkPool {
  chunks_ : list Chunk;
  free_chunks_list_ : option nat;
  bins_ : list Bin;
  regions_ : list AllocationRegion;
  next_allocation_id_ : Z;
  stats_ : AllocatorStats;
}.

Definition set_chunks (cs : list Chunk) (st : Pool) : Pool :=
  mkPool cs (free_chunks_list_ st) (bins_ st) (regions_ st) (next_allocation_id_ st) (stats_ st).
Definition set_free_list (h : option nat) (st : Pool) : Pool :=
  mkPool (chunks_ st) h (bins_ st) (regions_ st) (next_allocation_id_ st) (stats_ st).
Definition set_bins (bs : list Bin) (st : Pool) : Pool :=
  mkPool (chunks_ st) (free_chunks_list_ st) bs (regions_ st) (next_allocation_id_ st) (stats_ st).
Definition set_regions (rs : list AllocationRegion) (st : Pool) : Pool :=
  mkPool (chunks_ st) (free_chunks_list_ st) (bins_ st) rs (next_allocation_id_ st) (stats_ st).
Definition set_next_id (i : Z) (st : Pool) : Pool :=
  mkPool (chunks_ st) (free_chunks_list_ st) (bins_ st) (regions_ st) i (stats_ st).
Definition set_stats (s : AllocatorStats) (st : Pool) : Pool :=
  mkPool (chunks_ st) (free_chunks_list_ st) (bins_ st) (regions_ st) (next_allocation_id_ st) s.

(** ** Operations that can fail *)

Inductive Fault :=
  | CheckFailed   (** a [CHECK] or [LOG(FATAL)] ends the process *)
  | BadIndex      (** an access outside a vector or an array *)
  | NoFuel.       (** a loop has not ended within its fuel *)

#[export] Instance Fault_eq_dec : EqDecision Fault.
Proof. solve_decision. Defined.

Definition Act (St A : Type) : Type := St → Fault + A * St.

#[export] Instance Act_ret St : MRet (Act St) := λ A x st, inr (x, st).
#[export] Instance Act_bind St : MBind (Act St) := λ A B f m st,
  match m st with inl e => inl e | inr (x, st') => f x st' end.

Definition fault {St A} (e : Fault) : Act St A := λ _, inl e.
Definition get {St A} (f : St → A) : Act St A := λ st, inr (f st, st).
Definition modify {St} (f : St → St) : Act St unit := λ st, inr ((), f st).
Definition CHECK {St} (b : bool) : Act St unit := if b then mret () else fault CheckFailed.

Abbreviation M := (Act Pool).

Definition ChunkFromHandle (h : nat) : M Chunk :=
  λ st, match chunks_ st !! h with Some c => inr (c, st) | None => inl BadIndex end.

(** An assignment to fields of the chunk [h]. *)
Definition update (h : nat) (f : Chunk → Chunk) : M unit :=
  c ← ChunkFromHandle h; modify (λ st, set_chunks (<[h := f c]> (chunks_ st)) st).

(** *** The chunk vector *)

Definition AllocateChunk : M nat :=
  free ← get free_chunks_list_;
  match free with
  | Some h =>
      c ← ChunkFromHandle h;
      modify (set_free_list (c_next c)) ;;
      mret h
  | None =>
      h ← get (λ st, length (chunks_ st));
      modify (λ st, set_chunks (chunks_ st ++ [new_Chunk]) st) ;;
      mret h
  end.

Definition DeallocateChunk (h : nat) : M unit :=
  free ← get free_chunks_list_;
  update h (set_next free) ;;
  modify (set_free_list (Some h)).

(** *** Regions *)

(** [std::upper_bound] in a vector ordered by [end_ptr]: the number of regions
    that end at or before [p]. *)
Fixpoint upper_bound (p : Z) (rs : list AllocationRegion) : nat :=
  match rs with
  | [] => 0
  | r :: rs => if (p <? end_ptr_ r)%Z then 0 else S (upper_bound p rs)
  end%nat.

Definition AddAllocationRegion (p memory_size : Z) : M unit :=
  modify (λ st, let rs := regions_ st in
                let entry := upper_bound p rs in
                set_regions (take entry rs ++ new_AllocationRegion p memory_size :: drop entry rs) st).

Definition RegionFor (p : Z) : M (nat * AllocationRegion) :=
  rs ← get regions_;
  let entry := upper_bound p rs in
  match rs !! entry with
  | Some r => mret (entry, r)
  | None => fault CheckFailed
  end.

(** The difference is unsigned and the shifted value is cast to [int]. *)
Definition IndexFor (r : AllocationRegion) (p : Z) : Z :=
  i32 (Z.shiftr (u64 (p - ptr_ r)) kMinAllocationBits).

Definition get_handle (p : Z) : M (option nat) :=
  '(_, r) ← RegionFor p;
  let i := IndexFor r p in
  if i <? 0 then fault BadIndex
  else match handles_ r !! Z.to_nat i with Some h => mret h | None => fault BadIndex end.

Definition set_handle (p : Z) (h : option nat) : M unit :=
  '(k, r) ← RegionFor p;
  let i := IndexFor r p in
  if (i <? 0) || (Z.of_nat (length (handles_ r)) <=? i) then fault BadIndex
  else modify (λ st, set_regions
         (<[k := mkRegion (ptr_ r) (memory_size_ r) (end_ptr_ r) (<[Z.to_nat i := h]> (handles_ r))]>
            (regions_ st)) st).

Definition erase (p : Z) : M unit := set_handle p None.

(** *** Bins *)

(** [ChunkComparator]: by size, then by address. *)
Definition chunk_less (a b : Chunk) : bool :=
  if negb (c_size a =? c_size b) then c_size a <? c_size b else c_ptr a <? c_ptr b.

Definition chunk_at (cs : list Chunk) (h : nat) : Chunk := default new_Chunk (cs !! h).

(** [std::set::insert]: nothing is inserted beside an equivalent element. *)
Fixpoint set_insert (cs : list Chunk) (h : nat) (l : list nat) : list nat :=
  match l with
  | [] => [h]
  | x :: l' =>
      if chunk_less (chunk_at cs x) (chunk_at cs h) then x :: set_insert cs h l'
      else if chunk_less (chunk_at cs h) (chunk_at cs x) then h :: l else l
  end.

(** [std::set::erase] of a key: the rest and the number of elements erased. *)
Fixpoint set_erase (cs : list Chunk) (h : nat) (l : list nat) : list nat * nat :=
  match l with
  | [] => ([], 0%nat)
  | x :: l' =>
      if chunk_less (chunk_at cs x) (chunk_at cs h)
      then let '(r, n) := set_erase cs h l' in (x :: r, n)
      else if chunk_less (chunk_at cs h) (chunk_at cs x) then (l, 0%nat) else (l', 1%nat)
  end.

(** [std::set::count]. *)
Definition set_count (cs : list Chunk) (h : nat) (l : list nat) : nat := (set_erase cs h l).2.

Definition BinFromIndex (b : nat) : M Bin :=
  λ st, match bins_ st !! b with Some x => inr (x, st) | None => inl BadIndex end.

Definition update_free_chunks (b : nat) (l : list nat) : M unit :=
  bin ← BinFromIndex b;
  modify (λ st, set_bins (<[b := mkBin (bin_size bin) l]> (bins_ st)) st).

Definition is_invalid (b : option nat) : bool := match b with None => true | Some _ => false end.

Definition InsertFreeChunkIntoBin (h : nat) : M unit :=
  c ← ChunkFromHandle h;
  CHECK (negb (in_use c) && is_invalid (c_bin_num c)) ;;
  let bin_num := BinNumForSize (c_size c) in
  new_bin ← BinFromIndex bin_num;
  update h (set_bin_num (Some bin_num)) ;;
  cs ← get chunks_;
  update_free_chunks bin_num (set_insert cs h (free_chunks new_bin)).

(** The iterator is the position in the set of bin [b]. *)
Definition RemoveFreeChunkIterFromBin (b citer : nat) : M unit :=
  bin ← BinFromIndex b;
  match free_chunks bin !! citer with
  | None => fault BadIndex
  | Some h =>
      c ← ChunkFromHandle h;
      CHECK (negb (in_use c) && negb (is_invalid (c_bin_num c))) ;;
      update_free_chunks b (delete citer (free_chunks bin)) ;;
      update h (set_bin_num None)
  end.

Definition RemoveFreeChunkFromBin (h : nat) : M unit :=
  c ← ChunkFromHandle h;
  match c_bin_num c with
  | None => fault CheckFailed
  | Some b =>
      CHECK (negb (in_use c)) ;;
      bin ← BinFromIndex b;
      cs ← get chunks_;
      let '(l, n) := set_erase cs h (free_chunks bin) in
      update_free_chunks b l ;;
      CHECK (0 <? n)%nat ;;
      update h (set_bin_num None)
  end.

(** *** Splitting and merging *)

Definition SplitChunk (h : nat) (num_bytes : Z) : M unit :=
  h_new_chunk ← AllocateChunk;
  c ← ChunkFromHandle h;
  CHECK (negb (in_use c) && is_invalid (c_bin_num c)) ;;
  update h_new_chunk (set_ptr (c_ptr c + num_bytes)) ;;
  set_handle (c_ptr c + num_bytes) (Some h_new_chunk) ;;
  c ← ChunkFromHandle h;
  update h_new_chunk (set_size (u64 (c_size c - num_bytes))) ;;
  update h (set_size num_bytes) ;;
  update h_new_chunk (set_allocation_id (-1)) ;;
  c ← ChunkFromHandle h;
  let h_neighbor := c_next c in
  update h_new_chunk (set_prev (Some h)) ;;
  update h_new_chunk (set_next h_neighbor) ;;
  update h (set_next (Some h_new_chunk)) ;;
  (match h_neighbor with
   | Some n => update n (set_prev (Some h_new_chunk))
   | None => mret ()
   end) ;;
  InsertFreeChunkIntoBin h_new_chunk.

Definition DeleteChunk (h : nat) : M unit :=
  c ← ChunkFromHandle h;
  erase (c_ptr c) ;;
  DeallocateChunk h.

Definition Merge (h1 h2 : nat) : M unit :=
  c1 ← ChunkFromHandle h1;
  c2 ← ChunkFromHandle h2;
  CHECK (negb (in_use c1) && negb (in_use c2)) ;;
  let h3 := c_next c2 in
  update h1 (set_next h3) ;;
  c2 ← ChunkFromHandle h2;
  CHECK (bool_decide (c_prev c2 = Some h1)) ;;
  (match h3 with
   | Some n => update n (set_prev (Some h1))
   | None => mret ()
   end) ;;
  c2 ← ChunkFromHandle h2;
  update h1 (λ c1, set_size (u64 (c_size c1 + c_size c2)) c1) ;;
  DeleteChunk h2.

(** *** Taking and freeing chunks *)

Definition kMaxInternalFragmentation : Z := Z.shiftl 128 20.

Definition count_allocation (size : Z) (s : AllocatorStats) : AllocatorStats :=
  let in_use := i64 (bytes_in_use s + size) in
  mkStats (i64 (num_allocs s + 1)) in_use (Z.max (max_bytes_in_use s) in_use)
          (i64 (Z.max (u64 (max_alloc_size s)) size)) (bytes_limit s).

Definition count_free (size : Z) (s : AllocatorStats) : AllocatorStats :=
  mkStats (num_allocs s) (i64 (bytes_in_use s - size)) (max_bytes_in_use s)
          (max_alloc_size s) (bytes_limit s).

(** What [FindChunkPtr] does with the chunk at position [citer] of bin [b]. *)
Definition use_chunk (b citer h : nat) (rounded_bytes num_bytes : Z) : M Z :=
  RemoveFreeChunkIterFromBin b citer ;;
  chunk ← ChunkFromHandle h;
  (if (u64 (rounded_bytes * 2) <=? c_size chunk)
      || (kMaxInternalFragmentation <=? u64 (i64 (c_size chunk) - rounded_bytes))
   then SplitChunk h rounded_bytes else mret ()) ;;
  update h (set_requested_size num_bytes) ;;
  id ← get next_allocation_id_;
  modify (set_next_id (i64 (id + 1))) ;;
  update h (set_allocation_id id) ;;
  chunk ← ChunkFromHandle h;
  modify (λ st, set_stats (count_allocation (c_size chunk) (stats_ st)) st) ;;
  mret (c_ptr chunk).

(** The loop over the set of bin [b], of which [l] is what is left after the
    first [citer] elements; [Some] is a [return] from within the loop. *)
Fixpoint search_bin (b citer : nat) (l : list nat) (rounded_bytes num_bytes : Z) : M (option Z) :=
  match l with
  | [] => mret None
  | h :: l =>
      chunk ← ChunkFromHandle h;
      if rounded_bytes <=? c_size chunk then
        p ← use_chunk b citer h rounded_bytes num_bytes; mret (Some p)
      else search_bin b (S citer) l rounded_bytes num_bytes
  end.

(** The loop over the bins [bin_num], ..., [kNumBins - 1], of which [n] are left. *)
Fixpoint search_bins (n bin_num : nat) (rounded_bytes num_bytes : Z) : M (option Z) :=
  match n with
  | O => mret None
  | S n =>
      b ← BinFromIndex bin_num;
      found ← search_bin bin_num 0 (free_chunks b) rounded_bytes num_bytes;
      match found with
      | Some p => mret (Some p)
      | None => search_bins n (S bin_num) rounded_bytes num_bytes
      end
  end.

Definition FindChunkPtr (bin_num : nat) (rounded_bytes num_bytes : Z) : M Z :=
  found ← search_bins (kNumBins - bin_num) bin_num rounded_bytes num_bytes;
  mret (default nullptr found).

(** "If the next chunk is free, coalesce the two". *)
Definition coalesce_next (h : nat) (c : Chunk) : M unit :=
  match c_next c with
  | Some n =>
      cnext ← ChunkFromHandle n;
      if negb (in_use cnext) then
        RemoveFreeChunkFromBin n ;;
        c ← ChunkFromHandle h;
        match c_next c with Some n' => Merge h n' | None => fault BadIndex end
      else mret ()
  | None => mret ()
  end.

(** "If the previous chunk is free, coalesce the two": the chunk to reassign. *)
Definition coalesce_prev (h : nat) (c : Chunk) : M nat :=
  match c_prev c with
  | Some p =>
      cprev ← ChunkFromHandle p;
      if negb (in_use cprev) then
        RemoveFreeChunkFromBin p ;;
        c ← ChunkFromHandle h;
        (match c_prev c with Some p' => Merge p' h | None => fault BadIndex end) ;;
        mret p
      else mret h
  | None => mret h
  end.

Definition FreeAndMaybeCoalesce (h : nat) : M unit :=
  c ← ChunkFromHandle h;
  CHECK (in_use c && is_invalid (c_bin_num c)) ;;
  update h (set_allocation_id (-1)) ;;
  modify (λ st, set_stats (count_free (c_size c) (stats_ st)) st) ;;
  coalesce_next h c ;;
  c ← ChunkFromHandle h;
  chunk_to_reassign ← coalesce_prev h c;
  InsertFreeChunkIntoBin chunk_to_reassign.

Definition DeallocateRawInternal (p : Z) : M unit :=
  if p =? nullptr then mret ()
  else
    h ← get_handle p;
    match h with
    | None => fault CheckFailed
    | Some h => FreeAndMaybeCoalesce h
    end.

(** *** Queries *)

Definition chunk_of_ptr {A} (f : Chunk → A) (p : Z) : M A :=
  h ← get_handle p;
  match h with
  | None => fault CheckFailed
  | Some h => c ← ChunkFromHandle h; mret (f c)
  end.

Definition RequestedSize : Z → M Z := chunk_of_ptr requested_size.
Definition AllocatedSize : Z → M Z := chunk_of_ptr c_size.
Definition AllocationId : Z → M Z := chunk_of_ptr allocation_id.

Definition GetStats : M AllocatorStats := get stats_.

Definition ClearStats : M unit :=
  modify (λ st, let s := stats_ st in
                set_stats (mkStats 0 (bytes_in_use s) (bytes_in_use s) 0 (bytes_limit s)) st).

(** ** Growth *)

(** [SubAllocator] of [framework/allocator.h]: [Alloc alignment num_bytes] and
    [Free ptr num_bytes]; its implementations belong to the devices. *)
Class SubAllocator (S : Type) := {
  Alloc : Z → Z → S → Z * S;
  Free : Z → Z → S → S;
}.

(** What a sub-allocator keeps: [owned s] are the pieces of memory that it has
    given out and that have not been returned.  A piece does not overlap another
    one, and lies between the null pointer and the end of the address space. *)
Class SubAllocatorLaws (S : Type) `{!SubAllocator S} := {
  owned : S → list (Z * Z);
  Alloc_null : ∀ align n s s', Alloc align n s = (nullptr, s') → owned s' = owned s;
  Alloc_owned : ∀ align n s p s', 0 < n → Alloc align n s = (p, s') → p ≠ nullptr →
    owned s' = (p, n) :: owned s ∧ 0 < p ∧ p + n < 2 ^ 64 ∧
    Forall (λ '(q, m), q + m <= p ∨ p + n <= q) (owned s);
  Free_owned : ∀ p n s, (p, n) ∈ owned s → (p, n) :: owned (Free p n s) ≡ₚ owned s;
}.

(** A product of a [size_t] and a [float]: both the conversion to [float] and the
    product are rounded to 24 binary digits, to nearest and ties to even.  The
    value of [kBackpedalFactor = 0.9] as a [float] is [15099494 / 2 ^ 24]. *)
Definition round_float (z : Z) : Z :=
  if z <? 2 ^ 24 then z
  else
    let s := Z.log2 z - 23 in
    let q := Z.shiftr z s in
    let r := z mod 2 ^ s in
    let half := 2 ^ (s - 1) in
    Z.shiftl (if (half <? r) || ((r =? half) && Z.odd q) then q + 1 else q) s.

Definition times_backpedal_factor (bytes : Z) : Z :=
  Z.shiftr (round_float (round_float bytes * 15099494)) 24.

(** A visitor is named by a number; [visits] records the calls of visitors. *)
Record BFCAllocator (S : Type) := mkBFC {
  memory_limit_ : Z;
  curr_region_allocation_bytes_ : Z;
  total_region_allocated_bytes_ : Z;
  started_backpedal_ : bool;
  suballocator_ : S;
  pool : Pool;
  region_visitors_ : list nat;
  visits : list (nat * Z * Z);
}.
Arguments mkBFC {S}.
Arguments memory_limit_ {S}.
Arguments curr_region_allocation_bytes_ {S}.
Arguments total_region_allocated_bytes_ {S}.
Arguments started_backpedal_ {S}.
Arguments suballocator_ {S}.
Arguments pool {S}.
Arguments region_visitors_ {S}.
Arguments visits {S}.

Section Growth.
Context {S : Type} `{!SubAllocator S}.
Implicit Types a : BFCAllocator S.

Definition set_curr (n : Z) (a : BFCAllocator S) : BFCAllocator S :=
  mkBFC (memory_limit_ a) n (total_region_allocated_bytes_ a) (started_backpedal_ a)
        (suballocator_ a) (pool a) (region_visitors_ a) (visits a).
Definition set_total (n : Z) (a : BFCAllocator S) : BFCAllocator S :=
  mkBFC (memory_limit_ a) (curr_region_allocation_bytes_ a) n (started_backpedal_ a)
        (suballocator_ a) (pool a) (region_visitors_ a) (visits a).
Definition set_backpedal (b : bool) (a : BFCAllocator S) : BFCAllocator S :=
  mkBFC (memory_limit_ a) (curr_region_allocation_bytes_ a) (total_region_allocated_bytes_ a) b
        (suballocator_ a) (pool a) (region_visitors_ a) (visits a).
Definition set_suballocator (s : S) (a : BFCAllocator S) : BFCAllocator S :=
  mkBFC (memory_limit_ a) (curr_region_allocation_bytes_ a) (total_region_allocated_bytes_ a)
        (started_backpedal_ a) s (pool a) (region_visitors_ a) (visits a).
Definition set_pool (p : Pool) (a : BFCAllocator S) : BFCAllocator S :=
  mkBFC (memory_limit_ a) (curr_region_allocation_bytes_ a) (total_region_allocated_bytes_ a)
        (started_backpedal_ a) (suballocator_ a) p (region_visitors_ a) (visits a).
Definition set_visitors (vs : list nat) (a : BFCAllocator S) : BFCAllocator S :=
  mkBFC (memory_limit_ a) (curr_region_allocation_bytes_ a) (total_region_allocated_bytes_ a)
        (started_backpedal_ a) (suballocator_ a) (pool a) vs (visits a).
Definition set_visits (l : list (nat * Z * Z)) (a : BFCAllocator S) : BFCAllocator S :=
  mkBFC (memory_limit_ a) (curr_region_allocation_bytes_ a) (total_region_allocated_bytes_ a)
        (started_backpedal_ a) (suballocator_ a) (pool a) (region_visitors_ a) l.

(** An operation on the pool, as one on the allocator. *)
Definition on_pool {A} (m : M A) : Act (BFCAllocator S) A :=
  λ a, match m (pool a) with inl e => inl e | inr (x, p) => inr (x, set_pool p a) end.

(** A call of the sub-allocator. *)
Definition sub_alloc (bytes : Z) : Act (BFCAllocator S) Z :=
  λ a, let '(p, s) := Alloc 32 bytes (suballocator_ a) in inr (p, set_suballocator s a).

(** [new_Pool]: the bins of the constructor, with its checks. *)
Definition bin_checks (b : nat) : bool :=
  let bin_size := BinNumToSize b in
  bool_decide (BinNumForSize bin_size = b)
  && bool_decide (BinNumForSize (u64 (bin_size + 255)) = b)
  && bool_decide (BinNumForSize (u64 (u64 (bin_size * 2) - 1)) = b)
  && (if (b + 1 <? kNumBins)%nat then bool_decide (BinNumForSize (u64 (bin_size * 2)) ≠ b) else true).

Definition new_Pool (total_memory : Z) : Fault + Pool :=
  if forallb bin_checks (seq 0 kNumBins) then
    inr (mkPool [] None ((λ b, mkBin (BinNumToSize b) []) <$> seq 0 kNumBins) [] 1
                (mkStats 0 0 0 0 (i64 total_memory)))
  else inl CheckFailed.

Definition new_BFCAllocator (sub_allocator : S) (total_memory : Z) (allow_growth : bool)
    : Fault + BFCAllocator S :=
  let curr := if allow_growth then RoundedBytes (Z.min total_memory 1048576)
              else RoundedBytes total_memory in
  match new_Pool total_memory with
  | inl e => inl e
  | inr p => inr (mkBFC total_memory curr 0 false sub_allocator p [] [])
  end.

(** [while (rounded_bytes > curr_region_allocation_bytes_)]: the new value and
    [increased_allocation]. *)
Fixpoint double_until (fuel : nat) (rounded_bytes curr : Z) (increased : bool)
    : Fault + Z * bool :=
  if curr <? rounded_bytes then
    match fuel with
    | O => inl NoFuel
    | Datatypes.S fuel => double_until fuel rounded_bytes (u64 (curr * 2)) true
    end
  else inr (curr, increased).

(** [while (mem_addr == nullptr)] of the backpedalling: the address and the size. *)
Fixpoint backpedal (fuel : nat) (rounded_bytes bytes : Z) : Act (BFCAllocator S) (Z * Z) :=
  match fuel with
  | O => fault NoFuel
  | Datatypes.S fuel =>
      let bytes := RoundedBytes (times_backpedal_factor bytes) in
      if bytes <? rounded_bytes then mret (nullptr, bytes)
      else
        mem_addr ← sub_alloc bytes;
        if mem_addr =? nullptr then backpedal fuel rounded_bytes bytes
        else mret (mem_addr, bytes)
  end.

(** The new region as one free chunk. *)
Definition add_region (mem_addr bytes : Z) : M unit :=
  AddAllocationRegion mem_addr bytes ;;
  h ← AllocateChunk;
  update h (set_ptr mem_addr) ;;
  update h (set_size bytes) ;;
  update h (set_allocation_id (-1)) ;;
  update h (set_prev None) ;;
  update h (set_next None) ;;
  c ← ChunkFromHandle h;
  set_handle (c_ptr c) (Some h) ;;
  InsertFreeChunkIntoBin h.

Definition Extend (fuel : nat) (rounded_bytes : Z) : Act (BFCAllocator S) bool :=
  limit ← get memory_limit_;
  total ← get total_region_allocated_bytes_;
  let available_bytes := u64 (limit - total) in
  let available_bytes := u64 (available_bytes / kMinAllocationSize * kMinAllocationSize) in
  if available_bytes <? rounded_bytes then mret false
  else
    curr ← get curr_region_allocation_bytes_;
    match double_until 64 rounded_bytes curr false with
    | inl e => fault e
    | inr (curr, increased_allocation) =>
        modify (set_curr curr) ;;
        let bytes := Z.min curr available_bytes in
        mem_addr ← sub_alloc bytes;
        started ← get started_backpedal_;
        '(mem_addr, bytes) ←
          (if (mem_addr =? nullptr) && negb started then
             modify (set_backpedal true) ;; backpedal fuel rounded_bytes bytes
           else mret (mem_addr, bytes));
        if mem_addr =? nullptr then mret false
        else
          (if negb increased_allocation then modify (set_curr (u64 (curr * 2))) else mret ()) ;;
          total ← get total_region_allocated_bytes_;
          modify (set_total (u64 (total + bytes))) ;;
          on_pool (add_region mem_addr bytes) ;;
          modify (λ a, set_visits (visits a ++ ((λ v, (v, mem_addr, bytes)) <$> region_visitors_ a)) a) ;;
          mret true
    end.

(** The logging on failure is left out. *)
Definition AllocateRawInternal (fuel : nat) (num_bytes : Z) : Act (BFCAllocator S) Z :=
  if num_bytes =? 0 then mret nullptr
  else
    let rounded_bytes := RoundedBytes num_bytes in
    let bin_num := BinNumForSize rounded_bytes in
    p ← on_pool (FindChunkPtr bin_num rounded_bytes num_bytes);
    if negb (p =? nullptr) then mret p
    else
      extended ← Extend fuel rounded_bytes;
      if extended : bool then
        p ← on_pool (FindChunkPtr bin_num rounded_bytes num_bytes);
        mret (if negb (p =? nullptr) then p else nullptr)
      else mret nullptr.

Definition AddAllocVisitor (visitor : nat) : Act (BFCAllocator S) unit :=
  modify (λ a, set_visitors (region_visitors_ a ++ [visitor]) a) ;;
  modify (λ a, set_visits (visits a ++ ((λ r, (visitor, ptr_ r, memory_size_ r)) <$> regions_ (pool a))) a).

(** [~BFCAllocator]: what is left of the sub-allocator. *)
Definition Destroy (a : BFCAllocator S) : S :=
  foldl (λ s r, Free (ptr_ r) (memory_size_ r) s) (suballocator_ a) (regions_ (pool a)).
End Growth.
