(* ===== verification/BFCHeap.v ===== *)
(** * The pool of the BFC allocator represents a heap of blocks

    The abstract heap of a [BFCAllocator.Pool]: regions as lists of blocks, and
    the relation [rep] between the linked chunks, bins, handle arrays and free
    list of the code and such a heap.  Every operation of the pool is shown to
    succeed on a pool that represents a heap and to change the heap as its name
    says.  [Loose] blocks only exist within operations: free blocks that are in no
    bin. *)
From S2P Require Import Prelude BFCAllocator.

Open Scope Z_scope.

(** ** Blocks, cells and regions *)

Inductive Owner := Idle | Loose | Used (id requested : Z).

#[export] Instance Owner_eq_dec : EqDecision Owner.
Proof. solve_decision. Defined.

Record Block := mkBlock { b_size : Z; b_owner : Owner }.

#[export] Instance Block_eq_dec : EqDecision Block.
Proof. solve_decision. Defined.

(** A block with its chunk handle and its address. *)
Definition Cell : Type := nat * Z * Block.
Definition cell_h (x : Cell) : nat := x.1.1.
Definition cell_a (x : Cell) : Z := x.1.2.
Definition cell_b (x : Cell) : Block := x.2.
Definition cell_size (x : Cell) : Z := b_size (cell_b x).

(** A region: its address and its blocks with their handles. *)
Definition Layout : Type := list (Z * list (nat * Block)).

Fixpoint extent (l : list (nat * Block)) : Z :=
  match l with [] => 0 | (_, b) :: l => b_size b + extent l end.

Fixpoint placed (base : Z) (l : list (nat * Block)) : list Cell :=
  match l with [] => [] | (h, b) :: l => (h, base, b) :: placed (base + b_size b) l end.

Definition cells (G : Layout) : list Cell := G ≫= λ r, placed r.1 r.2.

(** The order of [ChunkComparator]. *)
Definition cell_lt (x y : Cell) : Prop :=
  cell_size x < cell_size y ∨ cell_size x = cell_size y ∧ cell_a x < cell_a y.

Definition before (x y : Cell) : Prop := cell_a x + cell_size x <= cell_a y.

Definition in_bin (i : nat) (x : Cell) : Prop :=
  b_owner (cell_b x) = Idle ∧ BinNumForSize (cell_size x) = i.

#[export] Instance in_bin_dec i x : Decision (in_bin i x).
Proof. unfold in_bin. apply _. Defined.

(** ** The representation *)

Definition hd_handle (l : list (nat * Block)) (n : option nat) : option nat :=
  match l with [] => n | (h, _) :: _ => Some h end.

Fixpoint last_handle (p : option nat) (l : list (nat * Block)) : option nat :=
  match l with [] => p | (h, _) :: l => last_handle (Some h) l end.

Definition owner_ok (c : Chunk) (b : Block) : Prop :=
  match b_owner b with
  | Idle => allocation_id c = -1 ∧ c_bin_num c = Some (BinNumForSize (b_size b))
  | Loose => allocation_id c = -1 ∧ c_bin_num c = None
  | Used id req => id ≠ -1 ∧ allocation_id c = id ∧ requested_size c = req ∧ c_bin_num c = None
  end.

Definition chunk_is (c : Chunk) (p : option nat) (a : Z) (b : Block) (n : option nat) : Prop :=
  c_ptr c = a ∧ c_size c = b_size b ∧ c_prev c = p ∧ c_next c = n ∧ owner_ok c b.

(** The chunks of [l] are linked in order, between [p] and [n], from address [a]. *)
Fixpoint seg (cs : list Chunk) (p : option nat) (a : Z) (l : list (nat * Block))
    (n : option nat) : Prop :=
  match l with
  | [] => True
  | (h, b) :: l =>
      (∃ c, cs !! h = Some c ∧ chunk_is c p a b (hd_handle l n))
      ∧ seg cs (Some h) (a + b_size b) l n
  end.

(** The list of unused chunks. *)
Fixpoint flist (cs : list Chunk) (head : option nat) (fl : list nat) : Prop :=
  match fl with
  | [] => head = None
  | h :: fl => head = Some h ∧ ∃ c, cs !! h = Some c ∧ c_bin_num c = None ∧ flist cs (c_next c) fl
  end.

Definition good_block (b : Block) : Prop := 0 < b_size b ∧ (256 | b_size b).

Record region_ok (r : AllocationRegion) (g : Z * list (nat * Block)) : Prop := {
  ro_ptr : ptr_ r = g.1;
  ro_size : memory_size_ r = extent g.2;
  ro_end : end_ptr_ r = g.1 + extent g.2;
  ro_low : 0 < g.1;
  ro_high : g.1 + extent g.2 < 2 ^ 64;
  ro_small : extent g.2 < 2 ^ 39;
  ro_good : Forall (λ x, good_block x.2) g.2;
  ro_length : Z.of_nat (length (handles_ r)) = extent g.2 / 256;
  ro_handles : ∀ (i h : nat), handles_ r !! i = Some (Some h) ↔
    ∃ b, (h, g.1 + 256 * Z.of_nat i, b) ∈ placed g.1 g.2;
  ro_pos : 0 < extent g.2;
}.

Definition apart (g1 g2 : Z * list (nat * Block)) : Prop := g1.1 + extent g1.2 <= g2.1.

Definition bin_ok (bs : list Bin) (C : list Cell) (i : nat) : Prop :=
  ∃ bin L, bs !! i = Some bin ∧ bin_size bin = BinNumToSize i
    ∧ free_chunks bin = cell_h <$> L ∧ StronglySorted cell_lt L ∧ L ≡ₚ filter (in_bin i) C.

Definition bins_ok (bs : list Bin) (C : list Cell) : Prop :=
  length bs = kNumBins ∧ ∀ i, (i < kNumBins)%nat → bin_ok bs C i.

Record rep (st : Pool) (G : Layout) (fl : list nat) : Prop := {
  rep_regions : Forall2 region_ok (regions_ st) G;
  rep_apart : StronglySorted apart G;
  rep_segs : Forall (λ g, seg (chunks_ st) None g.1 g.2 None) G;
  rep_flist : flist (chunks_ st) (free_chunks_list_ st) fl;
  rep_handles : (cell_h <$> cells G) ++ fl ≡ₚ seq 0 (length (chunks_ st));
  rep_bins : bins_ok (bins_ st) (cells G);
}.

(** What an operation on chunks leaves alone. *)
Definition same_counters (st st' : Pool) : Prop :=
  next_allocation_id_ st' = next_allocation_id_ st ∧ stats_ st' = stats_ st.

(** ** Cells *)

Lemma extent_app l1 l2 : extent (l1 ++ l2) = extent l1 + extent l2.
Proof. induction l1 as [|[h b] l1 IH]; cbn [extent app]; lia. Qed.

Lemma placed_app base l1 l2 :
  placed base (l1 ++ l2) = placed base l1 ++ placed (base + extent l1) l2.
Proof.
  revert base. induction l1 as [|[h b] l1 IH]; intros base; cbn [placed extent app].
  - by rewrite Z.add_0_r.
  - by rewrite IH, Z.add_assoc.
Qed.

Lemma placed_handles base l : cell_h <$> placed base l = l.*1.
Proof. revert base. induction l as [|[h b] l IH]; intros base; [done|]. cbn. by rewrite IH. Qed.

Lemma cells_focus G1 base l G2 :
  cells (G1 ++ (base, l) :: G2) = cells G1 ++ placed base l ++ cells G2.
Proof. unfold cells. by rewrite bind_app, bind_cons. Qed.

Lemma cells_block G1 base l1 h b l2 G2 :
  cells (G1 ++ (base, l1 ++ (h, b) :: l2) :: G2)
  = (cells G1 ++ placed base l1) ++ (h, base + extent l1, b)
    :: placed (base + extent l1 + b_size b) l2 ++ cells G2.
Proof. rewrite cells_focus, placed_app. cbn [placed]. by rewrite <-!app_assoc. Qed.

Lemma extent_nonneg l : Forall (λ x : nat * Block, good_block x.2) l → 0 <= extent l.
Proof. induction 1 as [|[h b] l [Hb _] _ IH]; cbn [extent]; cbn in *; lia. Qed.

Lemma extent_divide l : Forall (λ x : nat * Block, good_block x.2) l → (256 | extent l).
Proof.
  induction 1 as [|[h b] l [_ Hb] _ IH]; cbn [extent]; [apply Z.divide_0_r|].
  by apply Z.divide_add_r.
Qed.

(** Every cell lies in the region. *)
Lemma placed_bounds base l x :
  Forall (λ x : nat * Block, good_block x.2) l → x ∈ placed base l →
  good_block (cell_b x) ∧ base <= cell_a x ∧ cell_a x + cell_size x <= base + extent l
  ∧ (256 | cell_a x - base).
Proof.
  intros Hl. revert base. induction Hl as [|[h b] l Hb Hl IH]; intros base Hx; cbn [placed extent] in *.
  - by apply not_elem_of_nil in Hx.
  - pose proof (extent_nonneg _ Hl). destruct Hb as [Hb Hd]. cbn in Hb, Hd.
    apply elem_of_cons in Hx as [-> | Hx].
    + unfold cell_size, cell_a. cbn. rewrite Z.sub_diag.
      repeat split; [done | done | lia | lia | apply Z.divide_0_r].
    + destruct (IH _ Hx) as (Hg&H1&H2&H3). split; [done|]. repeat split; [lia | lia |].
      replace (cell_a x - base) with (cell_a x - (base + b_size b) + b_size b) by lia.
      by apply Z.divide_add_r.
Qed.

Lemma placed_ordered base l :
  Forall (λ x : nat * Block, good_block x.2) l → StronglySorted before (placed base l).
Proof.
  intros Hl. revert base. induction Hl as [|[h b] l Hb Hl IH]; intros base; cbn [placed]; constructor.
  - apply IH.
  - apply Forall_forall. intros y Hy. destruct (placed_bounds _ _ _ Hl Hy) as (_&H&_).
    done.
Qed.

Definition good_region (g : Z * list (nat * Block)) : Prop := Forall (λ x, good_block x.2) g.2.

Lemma rep_good st G fl : rep st G fl → Forall good_region G.
Proof. intros H. eapply Forall2_Forall_r; [apply H|]. apply Forall_true. by intros r g []. Qed.

Lemma elem_of_cells G x : x ∈ cells G ↔ ∃ g, g ∈ G ∧ x ∈ placed g.1 g.2.
Proof. unfold cells. rewrite list_elem_of_bind. naive_solver. Qed.

Lemma cells_good G x : Forall good_region G → x ∈ cells G → good_block (cell_b x).
Proof.
  intros HG (g&Hg&Hx)%elem_of_cells. rewrite Forall_forall in HG.
  by destruct (placed_bounds _ _ _ (HG _ Hg) Hx).
Qed.

Lemma cells_ordered G :
  Forall good_region G → StronglySorted apart G → StronglySorted before (cells G).
Proof.
  intros HG Hs. induction Hs as [|[base l] G Hs IH Ha]; [constructor|].
  apply Forall_cons in HG as [Hl HG]. change (cells ((base, l) :: G)) with (placed base l ++ cells G).
  apply StronglySorted_app. split_and!; [|by apply placed_ordered|by apply IH].
  intros x y Hx (g&Hg&Hy)%elem_of_cells.
  rewrite Forall_forall in Ha, HG. specialize (Ha _ Hg). unfold apart in Ha. cbn in Ha.
  destruct (placed_bounds _ _ _ Hl Hx) as (_&_&H1&_).
  destruct (placed_bounds _ _ _ (HG _ Hg) Hy) as (_&H2&_). cbn in *. unfold before. lia.
Qed.

(** ** Segments of linked chunks *)

Lemma hd_handle_app l1 l2 n : hd_handle (l1 ++ l2) n = hd_handle l1 (hd_handle l2 n).
Proof. by destruct l1 as [|[h b] l1]. Qed.

Lemma last_handle_app p l1 l2 : last_handle p (l1 ++ l2) = last_handle (last_handle p l1) l2.
Proof. revert p. induction l1 as [|[h b] l1 IH]; intros p; [done|]. apply IH. Qed.

Lemma seg_app cs p a l1 l2 n :
  seg cs p a (l1 ++ l2) n ↔
  seg cs p a l1 (hd_handle l2 n) ∧ seg cs (last_handle p l1) (a + extent l1) l2 n.
Proof.
  revert p a. induction l1 as [|[h b] l1 IH]; intros p a; cbn [seg app last_handle extent].
  - rewrite Z.add_0_r. tauto.
  - rewrite IH, hd_handle_app, <-Z.add_assoc. tauto.
Qed.

Lemma seg_cons cs p a h b l n :
  seg cs p a ((h, b) :: l) n ↔
  (∃ c, cs !! h = Some c ∧ chunk_is c p a b (hd_handle l n)) ∧ seg cs (Some h) (a + b_size b) l n.
Proof. done. Qed.

(** Chunks outside the segment do not matter. *)
Lemma seg_frame cs cs' p a l n :
  (∀ h, h ∈ l.*1 → cs' !! h = cs !! h) → seg cs p a l n → seg cs' p a l n.
Proof.
  revert p a. induction l as [|[h b] l IH]; intros p a Heq Hs; [done|].
  apply seg_cons in Hs as [(c&Hc&Hi) Hs]. apply seg_cons. split.
  - exists c. rewrite Heq; [done|]. rewrite fmap_cons. apply list_elem_of_here.
  - apply IH; [|done]. intros h' Hh'. apply Heq. rewrite fmap_cons. by apply list_elem_of_further.
Qed.

Lemma segs_frame cs cs' (G : Layout) :
  (∀ h, h ∈ cell_h <$> cells G → cs' !! h = cs !! h) →
  Forall (λ g, seg cs None g.1 g.2 None) G → Forall (λ g, seg cs' None g.1 g.2 None) G.
Proof.
  intros Heq Hs. induction Hs as [|[base l] G Hl Hs IH]; [done|].
  change (cells ((base, l) :: G)) with (placed base l ++ cells G) in Heq.
  rewrite fmap_app, placed_handles in Heq. constructor.
  - eapply seg_frame; [|done]. intros h Hh. apply Heq, elem_of_app. by left.
  - apply IH. intros h Hh. apply Heq, elem_of_app. by right.
Qed.

Lemma flist_frame cs cs' head fl :
  (∀ h, h ∈ fl → cs' !! h = cs !! h) → flist cs head fl → flist cs' head fl.
Proof.
  revert head. induction fl as [|h fl IH]; intros head Heq Hf; [done|]. cbn [flist] in *.
  destruct Hf as (->&c&Hc&Hb&Hf). split; [done|]. exists c.
  rewrite Heq by apply list_elem_of_here. split_and!; [done | done |].
  apply IH; [|done]. intros h' Hh'. apply Heq. by apply list_elem_of_further.
Qed.

(** The chunk of a cell. *)
Lemma seg_lookup cs p a l n x :
  seg cs p a l n → x ∈ placed a l →
  ∃ c, cs !! cell_h x = Some c ∧ c_ptr c = cell_a x ∧ c_size c = cell_size x ∧ owner_ok c (cell_b x).
Proof.
  revert p a. induction l as [|[h b] l IH]; intros p a Hs Hx; cbn [placed] in Hx.
  - by apply not_elem_of_nil in Hx.
  - apply seg_cons in Hs as [(c&Hc&Hi) Hs].
    apply elem_of_cons in Hx as [-> | Hx]; [|by eapply IH].
    exists c. unfold chunk_is in Hi. naive_solver.
Qed.

Lemma cell_lookup st G fl x :
  rep st G fl → x ∈ cells G →
  ∃ c, chunks_ st !! cell_h x = Some c ∧ c_ptr c = cell_a x ∧ c_size c = cell_size x
    ∧ owner_ok c (cell_b x).
Proof.
  intros Hr (g&Hg&Hx)%elem_of_cells. pose proof (rep_segs _ _ _ Hr) as Hs.
  rewrite Forall_forall in Hs. eapply seg_lookup; [by apply Hs | done].
Qed.

Lemma handles_nodup st G fl : rep st G fl → NoDup ((cell_h <$> cells G) ++ fl).
Proof. intros Hr. rewrite (rep_handles _ _ _ Hr). apply NoDup_seq. Qed.

Lemma ordered_rep st G fl : rep st G fl → StronglySorted before (cells G).
Proof. intros Hr. apply cells_ordered; [eapply rep_good, Hr | apply Hr]. Qed.

(** The block in focus: its chunk and the handles that differ from it. *)
Lemma focus_chunk st G1 base l1 h b l2 G2 fl :
  rep st (G1 ++ (base, l1 ++ (h, b) :: l2) :: G2) fl →
  ∃ c, chunks_ st !! h = Some c
    ∧ chunk_is c (last_handle None l1) (base + extent l1) b (hd_handle l2 None).
Proof.
  intros Hr. pose proof (rep_segs _ _ _ Hr) as Hs.
  apply Forall_app in Hs as [_ [Hs _]%Forall_cons]. apply seg_app in Hs as [_ [Hs _]]. done.
Qed.

(** The handles next to the block in focus. *)
Lemma focus_nodup st G1 base l1 h b l2 G2 fl :
  rep st (G1 ++ (base, l1 ++ (h, b) :: l2) :: G2) fl →
  NoDup (h :: (cell_h <$> cells G1) ++ l1.*1 ++ l2.*1 ++ (cell_h <$> cells G2) ++ fl).
Proof.
  intros Hr. pose proof (handles_nodup _ _ _ Hr) as Hn.
  rewrite cells_block, !fmap_app, fmap_cons, !fmap_app, !placed_handles in Hn.
  change (cell_h (h, base + extent l1, b)) with h in Hn.
  eapply (NoDup_Permutation_proper _ _); [|exact Hn]. rewrite <-!app_assoc. cbn [app].
  rewrite <-!app_assoc. solve_Permutation.
Qed.

Lemma focus_fresh st G1 base l1 h b l2 G2 fl :
  rep st (G1 ++ (base, l1 ++ (h, b) :: l2) :: G2) fl →
  (h ∉ cell_h <$> cells G1) ∧ (h ∉ l1.*1) ∧ (h ∉ l2.*1) ∧ (h ∉ cell_h <$> cells G2) ∧ h ∉ fl.
Proof.
  intros Hr. apply focus_nodup, NoDup_cons in Hr as [Hp _]. rewrite !elem_of_app in Hp. tauto.
Qed.

(** ** The ordered sets of the bins *)

(** The chunk table agrees with a cell on what the comparator reads. *)
Definition agrees (cs : list Chunk) (x : Cell) : Prop :=
  c_size (chunk_at cs (cell_h x)) = cell_size x ∧ c_ptr (chunk_at cs (cell_h x)) = cell_a x.

Lemma less_agrees cs x y :
  agrees cs x → agrees cs y →
  chunk_less (chunk_at cs (cell_h x)) (chunk_at cs (cell_h y)) = true ↔ cell_lt x y.
Proof.
  intros [Hs Hp] [Hs' Hp']. unfold chunk_less, cell_lt. rewrite Hs, Hp, Hs', Hp'.
  destruct (Z.eqb_spec (cell_size x) (cell_size y)); cbn [negb]; lia.
Qed.

Lemma cell_lt_trans x y z : cell_lt x y → cell_lt y z → cell_lt x z.
Proof. unfold cell_lt. lia. Qed.

Lemma set_insert_cells cs x L :
  agrees cs x → Forall (agrees cs) L → StronglySorted cell_lt L →
  Forall (λ y, cell_a y ≠ cell_a x) L →
  ∃ L', set_insert cs (cell_h x) (cell_h <$> L) = cell_h <$> L' ∧ StronglySorted cell_lt L'
    ∧ L' ≡ₚ x :: L.
Proof.
  intros Hx Ha Hs Hd. induction L as [|y L IH].
  - exists [x]. split_and!; [done | repeat constructor | done].
  - apply Forall_cons in Ha as [Hy Ha]. apply StronglySorted_inv in Hs as [Hs Hlt].
    apply Forall_cons in Hd as [Hne Hd]. rewrite fmap_cons. cbn [set_insert].
    pose proof (less_agrees cs y x Hy Hx) as H1. pose proof (less_agrees cs x y Hx Hy) as H2.
    destruct (chunk_less (chunk_at cs (cell_h y)) (chunk_at cs (cell_h x))).
    + destruct (IH Ha Hs Hd) as (L'&->&Hs'&Hp). exists (y :: L'). split_and!.
      * done.
      * constructor; [done|]. rewrite Hp. constructor; [by apply H1 | done].
      * rewrite Hp. constructor.
    + destruct (chunk_less (chunk_at cs (cell_h x)) (chunk_at cs (cell_h y))).
      * exists (x :: y :: L). split_and!; [done | | done]. constructor; [by constructor|].
        constructor; [by apply H2|]. eapply Forall_impl; [exact Hlt|].
        intros z Hz. eapply cell_lt_trans; [by apply H2 | done].
      * exfalso. assert (cell_lt y x ∨ cell_lt x y) as [H | H] by (unfold cell_lt; lia).
        -- by apply H1 in H.
        -- by apply H2 in H.
Qed.

Lemma set_erase_cells cs x L :
  Forall (agrees cs) L → StronglySorted cell_lt L → x ∈ L →
  ∃ L', set_erase cs (cell_h x) (cell_h <$> L) = (cell_h <$> L', 1%nat) ∧ StronglySorted cell_lt L'
    ∧ L ≡ₚ x :: L'.
Proof.
  intros Ha Hs Hx. assert (Hax : agrees cs x) by (rewrite Forall_forall in Ha; by apply Ha).
  induction L as [|y L IH]; [by apply not_elem_of_nil in Hx|].
  apply Forall_cons in Ha as [Hy Ha]. apply StronglySorted_inv in Hs as [Hs Hlt].
  rewrite fmap_cons. cbn [set_erase].
  pose proof (less_agrees cs y x Hy Hax) as H1. pose proof (less_agrees cs x y Hax Hy) as H2.
  apply elem_of_cons in Hx as [-> | Hx].
  - assert (¬ cell_lt y y) by (unfold cell_lt; lia).
    destruct (chunk_less _ _); [tauto|]. by exists L.
  - assert (Hyx : cell_lt y x) by (rewrite Forall_forall in Hlt; by apply Hlt).
    rewrite (proj2 H1 Hyx). destruct (IH Ha Hs Hx) as (L'&->&Hs'&Hp).
    exists (y :: L'). split_and!; [done | | by rewrite Hp; constructor].
    constructor; [done|]. eapply Forall_forall. intros z Hz. rewrite Forall_forall in Hlt.
    apply Hlt. rewrite Hp. by apply list_elem_of_further.
Qed.

Lemma delete_sorted (L : list Cell) i x :
  StronglySorted cell_lt L → L !! i = Some x →
  StronglySorted cell_lt (delete i L) ∧ L ≡ₚ x :: delete i L.
Proof.
  intros Hs Hi. split; [|by apply delete_Permutation].
  rewrite delete_take_drop. rewrite <-(take_drop_middle L i x Hi) in Hs.
  apply StronglySorted_app in Hs as (H1&H2&[H3 _]%StronglySorted_inv). apply StronglySorted_app.
  split_and!; [|done|done]. intros y z Hy Hz. apply H1; [done|]. by apply list_elem_of_further.
Qed.

Lemma cells_agree st G fl x : rep st G fl → x ∈ cells G → agrees (chunks_ st) x.
Proof.
  intros Hr Hx. destruct (cell_lookup _ _ _ _ Hr Hx) as (c&Hc&Hp&Hs&_).
  unfold agrees, chunk_at. by rewrite Hc.
Qed.

(** ** Changing the owner of a block *)

Lemma agrees_insert cs h c c' x :
  cs !! h = Some c → c_size c' = c_size c → c_ptr c' = c_ptr c →
  agrees cs x → agrees (<[h := c']> cs) x.
Proof.
  intros Hc Hs Hp. unfold agrees, chunk_at. destruct (decide (h = cell_h x)) as [<- | Hne].
  - rewrite Hc, list_lookup_insert_eq by (by eapply lookup_lt_Some). cbn. by rewrite Hs, Hp.
  - by rewrite list_lookup_insert_ne.
Qed.

Lemma insert_outside {A} (l : list A) i x (X : list nat) :
  i ∉ X → ∀ j, j ∈ X → <[i := x]> l !! j = l !! j.
Proof. intros Hi j Hj. apply list_lookup_insert_ne. by intros ->. Qed.

Lemma segs_retag cs G1 base l1 h b b' l2 G2 fl st c c' :
  rep st (G1 ++ (base, l1 ++ (h, b) :: l2) :: G2) fl → cs = chunks_ st →
  cs !! h = Some c → c_ptr c' = c_ptr c → c_size c' = c_size c → c_prev c' = c_prev c →
  c_next c' = c_next c → b_size b' = b_size b → owner_ok c' b' →
  Forall (λ g, seg (<[h := c']> cs) None g.1 g.2 None) (G1 ++ (base, l1 ++ (h, b') :: l2) :: G2).
Proof.
  intros Hr -> Hc Hp Hsz Hpr Hnx Hb Ho. destruct (focus_fresh _ _ _ _ _ _ _ _ _ Hr) as (F1&F2&F3&F4&_).
  destruct (focus_chunk _ _ _ _ _ _ _ _ _ Hr) as (c0&Hc0&Hi). rewrite Hc in Hc0. injection Hc0 as <-.
  pose proof (rep_segs _ _ _ Hr) as Hs. apply Forall_app in Hs as [Hs1 [Hs Hs2]%Forall_cons].
  pose proof (insert_outside (chunks_ st) h c') as Hfr.
  apply Forall_app. split; [eapply segs_frame; [apply Hfr, F1 | done]|].
  constructor; [|eapply segs_frame; [apply Hfr, F4 | done]]. cbn [fst snd] in *.
  apply seg_app in Hs as [Ha [_ Hz]%seg_cons]. apply seg_app.
  split; [eapply seg_frame; [apply Hfr, F2 | exact Ha]|]. apply seg_cons. rewrite Hb.
  split; [|eapply seg_frame; [apply Hfr, F3 | done]].
  exists c'. rewrite list_lookup_insert_eq by (by eapply lookup_lt_Some). split; [done|].
  destruct Hi as (?&?&?&?&_). unfold chunk_is. rewrite Hp, Hsz, Hpr, Hnx, Hb. done.
Qed.

Lemma extent_retag l1 h (b b' : Block) l2 :
  b_size b' = b_size b → extent (l1 ++ (h, b') :: l2) = extent (l1 ++ (h, b) :: l2).
Proof. intros H. rewrite !extent_app. cbn [extent]. lia. Qed.

Lemma region_retag r base l1 h b b' l2 :
  b_size b' = b_size b → region_ok r (base, l1 ++ (h, b) :: l2) →
  region_ok r (base, l1 ++ (h, b') :: l2).
Proof.
  intros Hb [H1 H2 H3 H4 H5 H6 H7 H8 H9 H10]. cbn [fst snd] in *.
  constructor; cbn [fst snd]; rewrite ?(extent_retag l1 h b b' l2 Hb); try done.
  - apply Forall_app in H7 as [? [Hg ?]%Forall_cons]. apply Forall_app. split; [done|].
    constructor; [|done]. unfold good_block in *. cbn in *. by rewrite Hb.
  - intros i h'. rewrite H9. rewrite !placed_app. cbn [placed]. rewrite Hb.
    setoid_rewrite elem_of_app. setoid_rewrite elem_of_cons.
    split; (intros (x&[Hx|[Hx|Hx]]); [exists x; tauto | | exists x; tauto]);
      injection Hx as -> E ->; [exists b' | exists b]; right; left; by rewrite E.
Qed.

Lemma apart_replace G1 base l l' G2 :
  extent l' = extent l → StronglySorted apart (G1 ++ (base, l) :: G2) →
  StronglySorted apart (G1 ++ (base, l') :: G2).
Proof.
  intros He. induction G1 as [|g G1 IH]; cbn [app]; intros [Hs Ha]%StronglySorted_inv.
  - constructor; [done|]. eapply Forall_impl; [exact Ha|]. unfold apart. cbn. by rewrite He.
  - constructor; [by apply IH|]. apply Forall_app in Ha as [? [Hx ?]%Forall_cons].
    apply Forall_app. split; [done|]. by constructor.
Qed.

Lemma regions_focus st G1 g G2 fl :
  rep st (G1 ++ g :: G2) fl →
  ∃ R1 r R2, regions_ st = R1 ++ r :: R2 ∧ Forall2 region_ok R1 G1 ∧ region_ok r g
    ∧ Forall2 region_ok R2 G2.
Proof.
  intros Hr. pose proof (rep_regions _ _ _ Hr) as H.
  apply Forall2_app_inv_r in H as (R1&R2&HR1&HR2&E).
  apply Forall2_cons_inv_r in HR2 as (r&R3&Hreg&HR3&->). by exists R1, r, R3.
Qed.

(** The chunk [h] is written, the bins may change, nothing else does. *)
Lemma rep_retag st st' G1 base l1 h b b' l2 G2 fl c c' :
  rep st (G1 ++ (base, l1 ++ (h, b) :: l2) :: G2) fl → chunks_ st !! h = Some c →
  c_ptr c' = c_ptr c → c_size c' = c_size c → c_prev c' = c_prev c → c_next c' = c_next c →
  b_size b' = b_size b → owner_ok c' b' →
  chunks_ st' = <[h := c']> (chunks_ st) → free_chunks_list_ st' = free_chunks_list_ st →
  regions_ st' = regions_ st →
  bins_ok (bins_ st') (cells (G1 ++ (base, l1 ++ (h, b') :: l2) :: G2)) →
  rep st' (G1 ++ (base, l1 ++ (h, b') :: l2) :: G2) fl.
Proof.
  intros Hr Hc Hp Hs Hpr Hn Hb Ho E1 E2 E3 Hbins.
  destruct (focus_fresh _ _ _ _ _ _ _ _ _ Hr) as (_&_&_&_&F).
  constructor; rewrite ?E1, ?E2, ?E3; [| | | | |done].
  - destruct (regions_focus _ _ _ _ _ Hr) as (R1&r&R2&->&HR1&Hreg&HR2).
    apply Forall2_app; [done|]. constructor; [by eapply region_retag | done].
  - eapply apart_replace; [by apply extent_retag | apply Hr].
  - by eapply segs_retag.
  - eapply flist_frame; [by apply insert_outside | apply Hr].
  - rewrite length_insert, <-(rep_handles _ _ _ Hr). by rewrite !cells_block, Hb, !fmap_app, !fmap_cons.
Qed.

(** ** Running operations *)

Lemma bind_run {St A B} (m : Act St A) (f : A → Act St B) st x st' :
  m st = inr (x, st') → (m ≫= f) st = f x st'.
Proof. intros H. unfold mbind, Act_bind. by rewrite H. Qed.

Lemma chunk_run st h c : chunks_ st !! h = Some c → ChunkFromHandle h st = inr (c, st).
Proof. intros H. unfold ChunkFromHandle. by rewrite H. Qed.

Lemma update_run st h f c :
  chunks_ st !! h = Some c → update h f st = inr ((), set_chunks (<[h := f c]> (chunks_ st)) st).
Proof. intros H. unfold update. by rewrite (bind_run _ _ _ _ _ (chunk_run _ _ _ H)). Qed.

Lemma check_run {St} (st : St) b : b = true → CHECK b st = inr ((), st).
Proof. by intros ->. Qed.

Lemma bin_run st b bin : bins_ st !! b = Some bin → BinFromIndex b st = inr (bin, st).
Proof. intros H. unfold BinFromIndex. by rewrite H. Qed.

Lemma update_free_chunks_run st b bin l :
  bins_ st !! b = Some bin →
  update_free_chunks b l st = inr ((), set_bins (<[b := mkBin (bin_size bin) l]> (bins_ st)) st).
Proof. intros H. unfold update_free_chunks. by rewrite (bind_run _ _ _ _ _ (bin_run _ _ _ H)). Qed.

(** Runs the first operation of a sequence, by the given fact or by computation. *)
Tactic Notation "step" "by" uconstr(H) := rewrite (bind_run _ _ _ _ _ H).
Tactic Notation "step_check" "by" tactic3(t) :=
  erewrite bind_run by (apply check_run; t).
Ltac step_get := erewrite bind_run by reflexivity.

(** ** Bins *)

Lemma BinNumForSize_lt n : (BinNumForSize n < kNumBins)%nat.
Proof. unfold BinNumForSize, kNumBins. lia. Qed.

Lemma bins_ok_update bs C C' i bin L' :
  bins_ok bs C → bs !! i = Some bin → bin_size bin = BinNumToSize i → StronglySorted cell_lt L' →
  L' ≡ₚ filter (in_bin i) C' → (∀ j, j ≠ i → filter (in_bin j) C' ≡ₚ filter (in_bin j) C) →
  bins_ok (<[i := mkBin (bin_size bin) (cell_h <$> L')]> bs) C'.
Proof.
  intros [Hlen Hb] Hi Hsz Hs Hp Hj. split; [by rewrite length_insert|].
  intros j Hlt. destruct (decide (j = i)) as [-> | Hne].
  - eexists _, L'. rewrite list_lookup_insert_eq by (by eapply lookup_lt_Some). done.
  - destruct (Hb j Hlt) as (bin'&L&Hbin'&Hsz'&Hl&Hs'&Hp'). exists bin', L.
    rewrite list_lookup_insert_ne by done. split_and!; try done. by rewrite Hj.
Qed.

Lemma bins_ok_perm bs C C' :
  (∀ j, filter (in_bin j) C' ≡ₚ filter (in_bin j) C) → bins_ok bs C → bins_ok bs C'.
Proof.
  intros Hj [Hlen Hb]. split; [done|]. intros i Hi. destruct (Hb i Hi) as (bin&L&?&?&?&?&Hp).
  exists bin, L. split_and!; try done. by rewrite Hj.
Qed.

Lemma filter_middle_in (P : Cell → Prop) `{!∀ x, Decision (P x)} C1 x C2 :
  P x → filter P (C1 ++ x :: C2) ≡ₚ x :: filter P (C1 ++ C2).
Proof. intros Hx. rewrite !filter_app, filter_cons_True by done. symmetry. apply Permutation_middle. Qed.

Lemma filter_middle_out (P : Cell → Prop) `{!∀ x, Decision (P x)} C1 x C2 :
  ¬ P x → filter P (C1 ++ x :: C2) = filter P (C1 ++ C2).
Proof. intros Hx. by rewrite !filter_app, filter_cons_False. Qed.

Lemma ordered_distinct C1 x C2 y :
  StronglySorted before (C1 ++ x :: C2) → Forall (λ z, 0 < cell_size z) (C1 ++ x :: C2) →
  y ∈ C1 ++ C2 → cell_a y ≠ cell_a x.
Proof.
  intros Hs Hpos Hy. apply StronglySorted_app in Hs as (H1&_&[_ H2]%StronglySorted_inv).
  rewrite Forall_forall in Hpos, H2. apply elem_of_app in Hy as [Hy | Hy].
  - pose proof (Hpos y ltac:(set_solver)). pose proof (H1 _ _ Hy (list_elem_of_here _ _)) as Hb.
    unfold before in Hb. lia.
  - pose proof (Hpos x ltac:(set_solver)). specialize (H2 _ Hy). unfold before in H2. lia.
Qed.

Lemma cells_positive G : Forall good_region G → Forall (λ z, 0 < cell_size z) (cells G).
Proof. intros H. apply Forall_forall. intros x Hx. by destruct (cells_good _ _ H Hx). Qed.

(** Cells of a bin agree with the chunks, also after a write to [h]. *)
Lemma bin_agrees st G fl L i h c c' :
  rep st G fl → L ≡ₚ filter (in_bin i) (cells G) → chunks_ st !! h = Some c →
  c_size c' = c_size c → c_ptr c' = c_ptr c → Forall (agrees (<[h := c']> (chunks_ st))) L.
Proof.
  intros Hr HL Hc Hs Hp. rewrite HL. apply Forall_forall. intros x [_ Hx]%list_elem_of_filter.
  eapply agrees_insert; [done | done | done |]. by eapply cells_agree.
Qed.

Lemma InsertFreeChunkIntoBin_ok st G1 base l1 h s l2 G2 fl :
  rep st (G1 ++ (base, l1 ++ (h, mkBlock s Loose) :: l2) :: G2) fl →
  ∃ st', InsertFreeChunkIntoBin h st = inr ((), st')
    ∧ rep st' (G1 ++ (base, l1 ++ (h, mkBlock s Idle) :: l2) :: G2) fl ∧ same_counters st st'.
Proof.
  intros Hr. destruct (focus_chunk _ _ _ _ _ _ _ _ _ Hr) as (c&Hc&Hp&Hs&Hpr&Hn&Hid&Hbn).
  cbn [b_size] in Hs. destruct (rep_bins _ _ _ Hr) as [Hlen Hbins].
  destruct (Hbins _ (BinNumForSize_lt s)) as (bin&L&Hbin&Hbsz&HL&HsL&HpL).
  unfold InsertFreeChunkIntoBin. step by (chunk_run _ _ _ Hc).
  step_check by (unfold in_use; by rewrite Hid, Hbn).
  rewrite Hs. step by (bin_run _ _ _ Hbin). step by (update_run _ _ _ _ Hc).
  step_get. rewrite (update_free_chunks_run _ _ bin) by done.
  eexists. split; [done|]. split; [|done]. cbn [chunks_ set_chunks] in *.
  set (c' := set_bin_num _ c) in *. set (x := (h, base + extent l1, mkBlock s Idle)).
  set (C1 := cells G1 ++ placed base l1). set (C2 := placed (base + extent l1 + s) l2 ++ cells G2).
  assert (HC : cells (G1 ++ (base, l1 ++ (h, mkBlock s Loose) :: l2) :: G2)
               = C1 ++ (h, base + extent l1, mkBlock s Loose) :: C2) by apply cells_block.
  assert (HC' : cells (G1 ++ (base, l1 ++ (h, mkBlock s Idle) :: l2) :: G2) = C1 ++ x :: C2)
    by apply cells_block.
  assert (HLp : L ≡ₚ filter (in_bin (BinNumForSize s)) (C1 ++ C2)).
  { rewrite HpL, HC. by rewrite filter_middle_out by (intros [? _]; done). }
  assert (Hx : agrees (<[h := c']> (chunks_ st)) x).
  { eapply (agrees_insert _ _ _ _ (h, base + extent l1, mkBlock s Loose)); [done | done | done |].
    eapply cells_agree; [done|]. rewrite HC. apply elem_of_app. right. apply list_elem_of_here. }
  destruct (set_insert_cells (<[h := c']> (chunks_ st)) x L) as (L'&HL'&HsL'&HpL').
  { done. }
  { by eapply bin_agrees. }
  { done. }
  { rewrite HLp. apply Forall_forall. intros y [_ Hy]%list_elem_of_filter.
    apply (ordered_distinct C1 (h, base + extent l1, mkBlock s Loose) C2); [| |done].
    - pose proof (ordered_rep _ _ _ Hr) as Ho. by rewrite HC in Ho.
    - pose proof (cells_positive _ (rep_good _ _ _ Hr)) as Ho. by rewrite HC in Ho. }
  change (cell_h x) with h in HL'. rewrite HL, HL'. eapply (rep_retag st) with (c' := c'); try done; [].
  rewrite HC'. eapply bins_ok_update; [apply Hr | done | done | done | |].
  - rewrite HpL', HLp. by rewrite filter_middle_in by done.
  - intros j Hj. rewrite HC, !filter_middle_out; [done | intros [? _]; done |].
    intros [_ ?]. by apply Hj.
Qed.

(** The bin of an idle block in focus. *)
Lemma focus_bin st G1 base l1 h s l2 G2 fl :
  rep st (G1 ++ (base, l1 ++ (h, mkBlock s Idle) :: l2) :: G2) fl →
  ∃ bin L, bins_ st !! BinNumForSize s = Some bin ∧ bin_size bin = BinNumToSize (BinNumForSize s)
    ∧ free_chunks bin = cell_h <$> L ∧ StronglySorted cell_lt L
    ∧ L ≡ₚ filter (in_bin (BinNumForSize s)) (cells (G1 ++ (base, l1 ++ (h, mkBlock s Idle) :: l2) :: G2))
    ∧ (h, base + extent l1, mkBlock s Idle) ∈ L.
Proof.
  intros Hr. destruct (rep_bins _ _ _ Hr) as [_ Hb].
  destruct (Hb _ (BinNumForSize_lt s)) as (bin&L&?&?&?&?&Hp). exists bin, L. split_and!; try done.
  rewrite Hp, cells_block. apply list_elem_of_filter. split; [done|].
  apply elem_of_app. right. apply list_elem_of_here.
Qed.

Lemma rep_take_out st G1 base l1 h s l2 G2 fl c bin L' :
  rep st (G1 ++ (base, l1 ++ (h, mkBlock s Idle) :: l2) :: G2) fl → chunks_ st !! h = Some c →
  bins_ st !! BinNumForSize s = Some bin → bin_size bin = BinNumToSize (BinNumForSize s) →
  StronglySorted cell_lt L' →
  (h, base + extent l1, mkBlock s Idle) :: L' ≡ₚ
    filter (in_bin (BinNumForSize s)) (cells (G1 ++ (base, l1 ++ (h, mkBlock s Idle) :: l2) :: G2)) →
  rep (set_chunks (<[h := set_bin_num None c]> (chunks_ st))
        (set_bins (<[BinNumForSize s := mkBin (bin_size bin) (cell_h <$> L')]> (bins_ st)) st))
      (G1 ++ (base, l1 ++ (h, mkBlock s Loose) :: l2) :: G2) fl.
Proof.
  intros Hr Hc Hbin Hsz Hs Hp. destruct (focus_chunk _ _ _ _ _ _ _ _ _ Hr) as (c0&Hc0&_&_&_&_&Hid&_).
  rewrite Hc in Hc0. injection Hc0 as <-.
  eapply (rep_retag st) with (c' := set_bin_num None c); try done; [].
  pose proof (rep_bins _ _ _ Hr) as Hb. rewrite cells_block in Hp, Hb. rewrite cells_block. cbn [b_size] in *.
  eapply bins_ok_update; [exact Hb | done | done | done | |].
  - rewrite filter_middle_in in Hp by done. apply (Permutation_cons_inv (a := (h, base + extent l1, mkBlock s Idle))).
    rewrite Hp. by rewrite filter_middle_out by (intros [? _]; done).
  - intros j Hj. rewrite !filter_middle_out; [done | | intros [? _]; done].
    intros [_ ?]. by apply Hj.
Qed.

Lemma RemoveFreeChunkFromBin_ok st G1 base l1 h s l2 G2 fl :
  rep st (G1 ++ (base, l1 ++ (h, mkBlock s Idle) :: l2) :: G2) fl →
  ∃ st', RemoveFreeChunkFromBin h st = inr ((), st')
    ∧ rep st' (G1 ++ (base, l1 ++ (h, mkBlock s Loose) :: l2) :: G2) fl ∧ same_counters st st'.
Proof.
  intros Hr. destruct (focus_chunk _ _ _ _ _ _ _ _ _ Hr) as (c&Hc&Hp&Hs&Hpr&Hn&Hid&Hbn).
  cbn [b_size] in Hbn. destruct (focus_bin _ _ _ _ _ _ _ _ _ Hr) as (bin&L&Hbin&Hbsz&HL&HsL&HpL&HxL).
  unfold RemoveFreeChunkFromBin. step by (chunk_run _ _ _ Hc). rewrite Hbn.
  step_check by (unfold in_use; by rewrite Hid). step by (bin_run _ _ _ Hbin). step_get.
  destruct (set_erase_cells (chunks_ st) (h, base + extent l1, mkBlock s Idle) L) as (L'&HL'&HsL'&HpL');
    [|done|done|].
  { rewrite HpL. apply Forall_forall. intros y [_ Hy]%list_elem_of_filter. by eapply cells_agree. }
  change (cell_h (h, base + extent l1, mkBlock s Idle)) with h in HL'. rewrite HL, HL'.
  step by (update_free_chunks_run _ _ _ _ Hbin). step_check by done.
  rewrite (update_run _ _ _ c) by done. eexists. split; [done|]. split; [|done].
  apply (rep_take_out st); try done. by rewrite <-HpL'.
Qed.

Lemma RemoveFreeChunkIterFromBin_ok st G1 base l1 h s l2 G2 fl bin L citer :
  rep st (G1 ++ (base, l1 ++ (h, mkBlock s Idle) :: l2) :: G2) fl →
  bins_ st !! BinNumForSize s = Some bin → bin_size bin = BinNumToSize (BinNumForSize s) →
  free_chunks bin = cell_h <$> L → StronglySorted cell_lt L →
  L ≡ₚ filter (in_bin (BinNumForSize s)) (cells (G1 ++ (base, l1 ++ (h, mkBlock s Idle) :: l2) :: G2)) →
  L !! citer = Some (h, base + extent l1, mkBlock s Idle) →
  ∃ st', RemoveFreeChunkIterFromBin (BinNumForSize s) citer st = inr ((), st')
    ∧ rep st' (G1 ++ (base, l1 ++ (h, mkBlock s Loose) :: l2) :: G2) fl ∧ same_counters st st'.
Proof.
  intros Hr Hbin Hbsz HL HsL HpL Hi.
  destruct (focus_chunk _ _ _ _ _ _ _ _ _ Hr) as (c&Hc&Hp&Hs&Hpr&Hn&Hid&Hbn).
  unfold RemoveFreeChunkIterFromBin. step by (bin_run _ _ _ Hbin).
  assert (Hi' : (cell_h <$> L) !! citer = Some h)
    by (rewrite list_lookup_fmap; exact (f_equal (fmap cell_h) Hi)).
  rewrite HL, Hi'. step by (chunk_run _ _ _ Hc).
  step_check by (unfold in_use; by rewrite Hid, Hbn).
  step by (update_free_chunks_run _ _ _ _ Hbin). rewrite (update_run _ _ _ c) by done.
  eexists. split; [done|]. split; [|done]. rewrite <-list_fmap_delete.
  destruct (delete_sorted _ _ _ HsL Hi) as [Hs' Hp'].
  apply (rep_take_out st); try done. by rewrite <-Hp'.
Qed.

(** Marking a block as used, and as no longer used. *)
Lemma rep_mark st st' G1 base l1 h s o o' l2 G2 fl c c' :
  rep st (G1 ++ (base, l1 ++ (h, mkBlock s o) :: l2) :: G2) fl → chunks_ st !! h = Some c →
  o ≠ Idle → o' ≠ Idle →
  c_ptr c' = c_ptr c → c_size c' = c_size c → c_prev c' = c_prev c → c_next c' = c_next c →
  owner_ok c' (mkBlock s o') →
  chunks_ st' = <[h := c']> (chunks_ st) → free_chunks_list_ st' = free_chunks_list_ st →
  regions_ st' = regions_ st → bins_ st' = bins_ st →
  rep st' (G1 ++ (base, l1 ++ (h, mkBlock s o') :: l2) :: G2) fl.
Proof.
  intros Hr Hc Ho Ho' Hp Hs Hpr Hn Hok E1 E2 E3 E4.
  eapply (rep_retag st) with (c' := c'); try done. rewrite E4.
  eapply bins_ok_perm; [|apply Hr]. intros j. rewrite !cells_block.
  rewrite !filter_middle_out; [done | intros [? _]; done | intros [? _]; done].
Qed.

(** ** Regions and handles *)

Lemma upper_bound_app p R1 r R2 :
  Forall (λ r', end_ptr_ r' <= p) R1 → p < end_ptr_ r → upper_bound p (R1 ++ r :: R2) = length R1.
Proof.
  intros H1 Hr. induction H1 as [|r' R1 Hr' _ IH]; cbn [upper_bound app length].
  - by rewrite (proj2 (Z.ltb_lt _ _) Hr).
  - rewrite (proj2 (Z.ltb_ge _ _) Hr'). by rewrite IH.
Qed.

(** The regions around the one in focus, and that [RegionFor] finds it. *)
Lemma region_run st G1 base l G2 fl :
  rep st (G1 ++ (base, l) :: G2) fl →
  ∃ R1 r R2, regions_ st = R1 ++ r :: R2 ∧ Forall2 region_ok R1 G1 ∧ region_ok r (base, l)
    ∧ Forall2 region_ok R2 G2
    ∧ ∀ p, base <= p < base + extent l → RegionFor p st = inr ((length R1, r), st).
Proof.
  intros Hr. destruct (regions_focus _ _ _ _ _ Hr) as (R1&r&R2&HR&HR1&Hreg&HR2).
  exists R1, r, R2. split_and!; try done. intros p Hp. unfold RegionFor. step_get. rewrite HR.
  rewrite upper_bound_app.
  - by rewrite list_lookup_middle.
  - pose proof (rep_apart _ _ _ Hr) as Ha. apply StronglySorted_app in Ha as (Ha&_&_).
    apply Forall_forall. intros r' Hr'. apply list_elem_of_lookup_1 in Hr' as [i Hi].
    destruct (Forall2_lookup_l _ _ _ _ _ HR1 Hi) as (g&Hg&Hok).
    specialize (Ha g (base, l) ltac:(by eapply list_elem_of_lookup_2) (list_elem_of_here _ _)).
    unfold apart in Ha. rewrite (ro_end _ _ Hok). cbn in Ha. lia.
  - rewrite (ro_end _ _ Hreg). cbn. lia.
Qed.

Lemma IndexFor_val r base l p :
  region_ok r (base, l) → base <= p < base + extent l → IndexFor r p = (p - base) / 256.
Proof.
  intros Hr Hp. unfold IndexFor. rewrite (ro_ptr _ _ Hr). cbn [fst].
  pose proof (ro_low _ _ Hr). pose proof (ro_high _ _ Hr). pose proof (ro_small _ _ Hr). cbn [fst snd] in *.
  unfold u64. rewrite Z.mod_small by lia. rewrite Z.shiftr_div_pow2 by done.
  change (2 ^ kMinAllocationBits) with 256. unfold i32.
  assert (0 <= (p - base) / 256 < 2 ^ 31).
  { split; [apply Z.div_pos; lia|]. apply Z.div_lt_upper_bound; lia. }
  rewrite Z.mod_small by lia. lia.
Qed.

Lemma index_range r base l p :
  region_ok r (base, l) → base <= p < base + extent l →
  0 <= (p - base) / 256 < Z.of_nat (length (handles_ r)).
Proof.
  intros Hr Hp. rewrite (ro_length _ _ Hr). cbn [snd].
  destruct (extent_divide _ (ro_good _ _ Hr)) as [k Hk]. cbn [snd] in Hk. rewrite Hk.
  rewrite Z.div_mul by done. split; [apply Z.div_pos; lia|]. apply Z.div_lt_upper_bound; lia.
Qed.

Lemma get_handle_run st G1 base l G2 fl p :
  rep st (G1 ++ (base, l) :: G2) fl → base <= p < base + extent l →
  ∃ r h, region_ok r (base, l) ∧ handles_ r !! Z.to_nat ((p - base) / 256) = Some h
    ∧ get_handle p st = inr (h, st).
Proof.
  intros Hr Hp. destruct (region_run _ _ _ _ _ _ Hr) as (R1&r&R2&HR&HR1&Hreg&HR2&Hrun).
  pose proof (index_range _ _ _ _ Hreg Hp) as Hi.
  destruct (lookup_lt_is_Some_2 (handles_ r) (Z.to_nat ((p - base) / 256))) as [h Hh]; [lia|].
  exists r, h. split_and!; [done | done |]. unfold get_handle. step by (Hrun _ Hp).
  rewrite (IndexFor_val _ _ _ _ Hreg Hp), (proj2 (Z.ltb_ge _ _)) by lia. by rewrite Hh.
Qed.

Lemma get_handle_block st G1 base l1 h b l2 G2 fl :
  rep st (G1 ++ (base, l1 ++ (h, b) :: l2) :: G2) fl →
  get_handle (base + extent l1) st = inr (Some h, st).
Proof.
  intros Hr. destruct (region_run _ _ _ _ _ _ Hr) as (_&r0&_&_&_&Hreg0&_&_).
  pose proof (ro_good _ _ Hreg0) as Hg. cbn [snd] in Hg. clear Hreg0 r0.
  pose proof Hg as Hg'. apply Forall_app in Hg as [Hg1 [[Hb _] Hg2]%Forall_cons]. cbn [snd] in Hb.
  pose proof (extent_nonneg _ Hg1). pose proof (extent_nonneg _ Hg2).
  destruct (get_handle_run _ _ _ _ _ _ (base + extent l1) Hr) as (r&h'&Hreg&Hh&Hrun).
  { rewrite extent_app. cbn [extent]. lia. }
  rewrite Hrun. do 2 f_equal. replace (base + extent l1 - base) with (extent l1) in Hh by lia.
  destruct (extent_divide _ Hg1) as [k Hk].
  assert (Hx : handles_ r !! Z.to_nat (extent l1 / 256) = Some (Some h)); [|congruence].
  apply (ro_handles _ _ Hreg). exists b. cbn [fst snd]. rewrite placed_app, Hk, Z.div_mul by done.
  rewrite Z2Nat.id by lia. apply elem_of_app. right. cbn [placed].
  replace (base + 256 * k) with (base + extent l1) by lia. rewrite <-Hk. apply list_elem_of_here.
Qed.

Definition set_handles (l : list (option nat)) (r : AllocationRegion) : AllocationRegion :=
  mkRegion (ptr_ r) (memory_size_ r) (end_ptr_ r) l.

Lemma set_handle_run st G1 base l G2 fl p h :
  rep st (G1 ++ (base, l) :: G2) fl → base <= p < base + extent l →
  ∃ R1 r R2, regions_ st = R1 ++ r :: R2 ∧ Forall2 region_ok R1 G1 ∧ region_ok r (base, l)
    ∧ Forall2 region_ok R2 G2
    ∧ ∀ st', regions_ st' = regions_ st →
        set_handle p h st' = inr ((), set_regions
          (R1 ++ set_handles (<[Z.to_nat ((p - base) / 256) := h]> (handles_ r)) r :: R2) st').
Proof.
  intros Hr Hp. destruct (region_run _ _ _ _ _ _ Hr) as (R1&r&R2&HR&HR1&Hreg&HR2&Hrun).
  exists R1, r, R2. split_and!; try done. intros st' Hst'.
  pose proof (index_range _ _ _ _ Hreg Hp) as Hi. unfold set_handle.
  assert (Hrun' : RegionFor p st' = inr ((length R1, r), st')).
  { specialize (Hrun p Hp). revert Hrun. unfold RegionFor, mbind, Act_bind, get. rewrite Hst'.
    destruct (regions_ st !! _); [|done]. unfold mret, Act_ret. intros [= -> ->]; done. }
  step by Hrun'. rewrite (IndexFor_val _ _ _ _ Hreg Hp), (proj2 (Z.ltb_ge _ _)) by lia.
  rewrite (proj2 (Z.leb_gt _ _)) by lia. cbn [orb]. unfold modify. rewrite Hst', HR.
  by rewrite insert_app_r_alt, Nat.sub_diag by lia.
Qed.

(** Addresses of a region with two neighbouring blocks in focus. *)
Lemma placed_two base l1 h1 b1 h2 b2 l2 :
  placed base (l1 ++ (h1, b1) :: (h2, b2) :: l2)
  = placed base l1 ++ (h1, base + extent l1, b1) :: (h2, base + extent l1 + b_size b1, b2)
    :: placed (base + extent l1 + b_size b1 + b_size b2) l2.
Proof. by rewrite placed_app. Qed.

(** The second of two blocks appears or disappears, with its handle. *)
Lemma handles_split base l1 h1 b1 b1' h2 b2 l2 (i h : nat) :
  b_size b1' = b_size b1 + b_size b2 →
  base + 256 * Z.of_nat i ≠ base + extent l1 + b_size b1 →
  (∃ b, (h, base + 256 * Z.of_nat i, b) ∈ placed base (l1 ++ (h1, b1) :: (h2, b2) :: l2)) ↔
  (∃ b, (h, base + 256 * Z.of_nat i, b) ∈ placed base (l1 ++ (h1, b1') :: l2)).
Proof.
  intros Hsz Hi. rewrite placed_two, placed_app. cbn [placed].
  rewrite Hsz, !Z.add_assoc. setoid_rewrite elem_of_app. setoid_rewrite elem_of_cons.
  setoid_rewrite elem_of_cons. split; (intros (b&[Hx|Hx]); [exists b; tauto|]).
  - destruct Hx as [Hx|[Hx|Hx]]; [|injection Hx; lia | exists b; tauto].
    injection Hx as -> E ->. exists b1'. right. left. by rewrite E.
  - destruct Hx as [Hx|Hx]; [|exists b; tauto]. injection Hx as -> E ->. exists b1. right. left. by rewrite E.
Qed.

(** The address of the second block occurs once. *)
Lemma second_unique base l1 h1 b1 h2 b2 l2 h b :
  Forall (λ x : nat * Block, good_block x.2) (l1 ++ (h1, b1) :: (h2, b2) :: l2) →
  (h, base + extent l1 + b_size b1, b) ∈ placed base (l1 ++ (h1, b1) :: (h2, b2) :: l2) → h = h2.
Proof.
  intros Hg Hx. pose proof (placed_ordered base _ Hg) as Ho.
  assert (Hpos : Forall (λ z, 0 < cell_size z) (placed base (l1 ++ (h1, b1) :: (h2, b2) :: l2))).
  { apply Forall_forall. intros z Hz. by destruct (placed_bounds _ _ _ Hg Hz) as [[? _] _]. }
  rewrite placed_two in Ho, Hpos, Hx. rewrite cons_middle, app_assoc in Ho, Hpos, Hx.
  apply elem_of_app in Hx as [Hx | [Hx | Hx]%elem_of_cons].
  - by destruct (ordered_distinct _ _ _ _ Ho Hpos (proj2 (elem_of_app _ _ _) (or_introl Hx))).
  - by injection Hx.
  - by destruct (ordered_distinct _ _ _ _ Ho Hpos (proj2 (elem_of_app _ _ _) (or_intror Hx))).
Qed.

(** The index of the second block. *)
Lemma second_index base l1 h1 b1 h2 b2 l2 i :
  Forall (λ x : nat * Block, good_block x.2) (l1 ++ (h1, b1) :: (h2, b2) :: l2) →
  i = Z.to_nat ((base + extent l1 + b_size b1 - base) / 256) →
  base + 256 * Z.of_nat i = base + extent l1 + b_size b1 ∧ Z.of_nat i < extent (l1 ++ (h1, b1) :: (h2, b2) :: l2) / 256.
Proof.
  intros Hg ->. pose proof (extent_divide _ Hg) as [e He].
  apply Forall_app in Hg as [Hg1 [[Hb1 [k1 Hk1]] [[Hb2 [k2 Hk2]] Hg2]%Forall_cons]%Forall_cons].
  cbn [snd] in *. destruct (extent_divide _ Hg1) as [k Hk]. pose proof (extent_nonneg _ Hg1).
  pose proof (extent_nonneg _ Hg2). rewrite He, Z.div_mul by done. rewrite extent_app in He. cbn [extent] in He.
  replace (base + extent l1 + b_size b1 - base) with ((k + k1) * 256) by lia.
  rewrite Z.div_mul by done. rewrite Z2Nat.id by lia. lia.
Qed.

Lemma region_split r base l1 h s o n hn o' l2 :
  region_ok r (base, l1 ++ (h, mkBlock s o) :: l2) → 0 < n < s → (256 | n) →
  region_ok (set_handles (<[Z.to_nat ((base + extent l1 + n - base) / 256) := Some hn]> (handles_ r)) r)
            (base, l1 ++ (h, mkBlock n o) :: (hn, mkBlock (s - n) o') :: l2).
Proof.
  intros [H1 H2 H3 H4 H5 H6 H7 H8 H9 H10] Hn Hd. cbn [fst snd] in *.
  assert (He : extent (l1 ++ (h, mkBlock n o) :: (hn, mkBlock (s - n) o') :: l2)
               = extent (l1 ++ (h, mkBlock s o) :: l2)) by (rewrite !extent_app; cbn; lia).
  assert (Hg : Forall (λ x : nat * Block, good_block x.2)
                 (l1 ++ (h, mkBlock n o) :: (hn, mkBlock (s - n) o') :: l2)).
  { apply Forall_app in H7 as [? [[? Hs] ?]%Forall_cons]. cbn in *. apply Forall_app. split; [done|].
    constructor; [split; [cbn; lia | done]|]. constructor; [|done]. split; cbn; [lia|]. by apply Z.divide_sub_r. }
  destruct (second_index base _ _ _ _ _ _ _ Hg eq_refl) as [Hi Hlt]. cbn [b_size] in Hi, Hlt. rewrite He, <-H8 in Hlt.
  constructor; cbn [fst snd set_handles ptr_ memory_size_ end_ptr_ handles_]; rewrite ?He; try done.
  - by rewrite length_insert.
  - intros i h'. destruct (decide (i = Z.to_nat ((base + extent l1 + n - base) / 256))) as [-> | Hne].
    + rewrite Hi, list_lookup_insert_eq by lia. split.
      * intros [= <-]. exists (mkBlock (s - n) o'). rewrite placed_two. set_solver.
      * intros (b&Hb). by rewrite (second_unique _ _ _ _ _ _ _ _ _ Hg Hb).
    + rewrite list_lookup_insert_ne, H9 by done. symmetry. apply handles_split; cbn [b_size]; lia.
Qed.

Lemma region_merge r base l1 h1 s1 o1 h2 s2 o2 o l2 :
  region_ok r (base, l1 ++ (h1, mkBlock s1 o1) :: (h2, mkBlock s2 o2) :: l2) →
  region_ok (set_handles (<[Z.to_nat ((base + extent l1 + s1 - base) / 256) := None]> (handles_ r)) r)
            (base, l1 ++ (h1, mkBlock (s1 + s2) o) :: l2).
Proof.
  intros [H1 H2 H3 H4 H5 H6 Hg H8 H9 H10]. cbn [fst snd] in *.
  assert (He : extent (l1 ++ (h1, mkBlock (s1 + s2) o) :: l2)
               = extent (l1 ++ (h1, mkBlock s1 o1) :: (h2, mkBlock s2 o2) :: l2))
    by (rewrite !extent_app; cbn; lia).
  destruct (second_index base _ _ _ _ _ _ _ Hg eq_refl) as [Hi Hlt]. cbn [b_size] in Hi, Hlt. rewrite <-H8 in Hlt.
  assert (Hg' : Forall (λ x : nat * Block, good_block x.2) (l1 ++ (h1, mkBlock (s1 + s2) o) :: l2)).
  { apply Forall_app in Hg as [? [[? Hs1] [[? Hs2] ?]%Forall_cons]%Forall_cons]. cbn in *.
    apply Forall_app. split; [done|]. constructor; [|done]. split; cbn; [lia|]. by apply Z.divide_add_r. }
  constructor; cbn [fst snd set_handles ptr_ memory_size_ end_ptr_ handles_]; rewrite ?He; try done.
  - by rewrite length_insert.
  - intros i h'. destruct (decide (i = Z.to_nat ((base + extent l1 + s1 - base) / 256))) as [-> | Hne].
    + rewrite Hi, list_lookup_insert_eq by lia. split; [done|]. intros (b&Hb). exfalso.
      apply Forall_app in Hg as [Hg1 [[? _] [[? _] Hg2]%Forall_cons]%Forall_cons]. cbn [snd b_size] in *.
      rewrite placed_app in Hb. cbn [placed b_size] in Hb.
      apply elem_of_app in Hb as [Hb | [Hb | Hb]%elem_of_cons].
      * destruct (placed_bounds _ _ _ Hg1 Hb) as ([? _]&_&?&_). unfold cell_size, cell_a in *. cbn in *. lia.
      * injection Hb. lia.
      * destruct (placed_bounds _ _ _ Hg2 Hb) as (_&?&_). unfold cell_a in *. cbn in *. lia.
    + rewrite list_lookup_insert_ne, H9 by done. apply handles_split; cbn [b_size]; lia.
Qed.

(** ** Unused chunks *)

Lemma update_alter st h f :
  (h < length (chunks_ st))%nat → update h f st = inr ((), set_chunks (alter f h (chunks_ st)) st).
Proof.
  intros Hh. destruct (lookup_lt_is_Some_2 _ _ Hh) as [c Hc]. rewrite (update_run _ _ _ c) by done.
  do 3 f_equal. apply list_eq. intros i. destruct (decide (i = h)) as [-> | Hne].
  - by rewrite list_lookup_insert_eq, list_lookup_alter_eq, Hc by done.
  - by rewrite list_lookup_insert_ne, list_lookup_alter_ne by done.
Qed.

(** A new chunk: it is in no list, and the rest is as before. *)
Lemma AllocateChunk_run st G fl :
  rep st G fl →
  ∃ h c fl' st', AllocateChunk st = inr (h, st') ∧ chunks_ st' !! h = Some c ∧ c_bin_num c = None
    ∧ flist (chunks_ st') (free_chunks_list_ st') fl'
    ∧ (cell_h <$> cells G) ++ h :: fl' ≡ₚ seq 0 (length (chunks_ st'))
    ∧ (∀ h', h' ∈ cell_h <$> cells G → chunks_ st' !! h' = chunks_ st !! h')
    ∧ regions_ st' = regions_ st ∧ bins_ st' = bins_ st ∧ same_counters st st'.
Proof.
  intros Hr. pose proof (rep_flist _ _ _ Hr) as Hf. pose proof (rep_handles _ _ _ Hr) as Hp.
  unfold AllocateChunk. step_get. destruct fl as [|h fl]; cbn [flist] in Hf.
  - rewrite Hf. step_get. step_get. rewrite app_nil_r in Hp.
    eexists (length (chunks_ st)), new_Chunk, [], _. split; [done|]. cbn [chunks_ set_chunks].
    split_and!; try done.
    + by rewrite lookup_app_r, Nat.sub_diag by done.
    + rewrite length_app, Nat.add_1_r, seq_S, Hp. done.
    + intros h' Hh'. rewrite Hp in Hh'. apply elem_of_seq in Hh'. rewrite lookup_app_l by lia. done.
  - destruct Hf as (->&c&Hc&Hb&Hf). step by (chunk_run _ _ _ Hc). step_get.
    by exists h, c, fl, (set_free_list (c_next c) st).
Qed.

Lemma fresh_handle {A} (l : list A) (X Y : list nat) h :
  X ++ h :: Y ≡ₚ seq 0 (length l) → (h ∉ X) ∧ (h ∉ Y) ∧ (h < length l)%nat.
Proof.
  intros Hp. assert (Hn : NoDup (X ++ h :: Y)) by (rewrite Hp; apply NoDup_seq).
  assert (Hh : h ∈ seq 0 (length l)) by (rewrite <-Hp; set_solver). apply elem_of_seq in Hh.
  apply NoDup_app in Hn as (_&H1&[H2 _]%NoDup_cons). split_and!; [|done|lia].
  intros Hx. apply (H1 h Hx). apply list_elem_of_here.
Qed.

(** Reads a table after writes. *)
Ltac lookups :=
  repeat first
    [ rewrite list_lookup_alter_ne by congruence
    | rewrite list_lookup_alter_eq
    | rewrite length_alter ].

(** ** Splitting *)

Definition link_prev (h : nat) (nb : option nat) (cs : list Chunk) : list Chunk :=
  match nb with Some n => alter (set_prev (Some h)) n cs | None => cs end.

Lemma link_prev_run h nb st :
  (∀ n, nb = Some n → (n < length (chunks_ st))%nat) →
  (match nb with Some n => update n (set_prev (Some h)) | None => mret () end) st
  = inr ((), set_chunks (link_prev h nb (chunks_ st)) st).
Proof.
  intros Hnb. destruct nb as [n|]; [by apply update_alter, Hnb|]. by destruct st.
Qed.

Definition split_table (cs : list Chunk) (h hn : nat) (c : Chunk) (n : Z) : list Chunk :=
  link_prev hn (c_next c)
    (alter (set_next (Some hn)) h
      (alter (set_next (c_next c)) hn (alter (set_prev (Some h)) hn
        (alter (set_allocation_id (-1)) hn (alter (set_size n) h
          (alter (set_size (u64 (c_size c - n))) hn (alter (set_ptr (c_ptr c + n)) hn cs))))))).

Lemma SplitChunk_run st st1 h hn c n R :
  AllocateChunk st = inr (hn, st1) → chunks_ st1 !! h = Some c → h ≠ hn →
  (hn < length (chunks_ st1))%nat → allocation_id c = -1 → c_bin_num c = None →
  (∀ x, c_next c = Some x → (x < length (chunks_ st1))%nat) →
  (∀ st', regions_ st' = regions_ st1 →
     set_handle (c_ptr c + n) (Some hn) st' = inr ((), set_regions R st')) →
  SplitChunk h n st =
  InsertFreeChunkIntoBin hn (set_regions R (set_chunks (split_table (chunks_ st1) h hn c n) st1)).
Proof.
  intros Ha Hc Hne Hhn Hid Hbn Hnb Hset. unfold SplitChunk. step by Ha. step by (chunk_run _ _ _ Hc).
  step_check by (unfold in_use; by rewrite Hid, Hbn). step by (update_alter _ _ _ Hhn).
  erewrite bind_run by (apply Hset; done).
  assert (Hlt : (h < length (chunks_ st1))%nat) by (by eapply lookup_lt_Some).
  erewrite bind_run by (apply chunk_run; cbn; lookups; exact Hc).
  repeat (erewrite bind_run by (apply update_alter; cbn; lookups; done)).
  erewrite bind_run by (apply chunk_run; cbn; lookups; rewrite Hc; reflexivity). cbn [c_next set_size].
  repeat (erewrite bind_run by (apply update_alter; cbn; lookups; done)).
  erewrite bind_run; [|apply link_prev_run; intros x Hx; cbn; lookups; by apply Hnb].
  done.
Qed.

(** The segment after a block that was split or merged. *)
Lemma seg_relink cs cs' p p' a l n :
  NoDup (l.*1) → seg cs p a l n →
  (∀ x, x ∈ l.*1 → cs' !! x = if decide (hd_handle l None = Some x) then set_prev p' <$> cs !! x else cs !! x) →
  seg cs' p' a l n.
Proof.
  intros Hn Hs Heq. destruct l as [|[h b] l]; [done|]. apply seg_cons in Hs as [(c&Hc&Hi) Hs].
  rewrite fmap_cons in Heq, Hn. apply NoDup_cons in Hn as [Hh _]. cbn [hd_handle fst] in *. apply seg_cons. split.
  - exists (set_prev p' c). rewrite (Heq h), decide_True, Hc by (done || apply list_elem_of_here).
    split; [done|]. destruct Hi as (?&?&?&?&?). by split_and!.
  - eapply seg_frame; [|exact Hs]. intros x Hx. rewrite Heq by (by apply list_elem_of_further).
    rewrite decide_False; [done|]. by intros [= ->].
Qed.

Lemma link_prev_lookup h nb cs x :
  link_prev h nb cs !! x = if decide (nb = Some x) then set_prev (Some h) <$> cs !! x else cs !! x.
Proof.
  destruct nb as [n|]; cbn [link_prev]; [|by rewrite decide_False].
  destruct (decide (n = x)) as [-> | Hne].
  - by rewrite list_lookup_alter_eq, decide_True.
  - rewrite list_lookup_alter_ne, decide_False by congruence. done.
Qed.

Lemma link_prev_length h nb cs : length (link_prev h nb cs) = length cs.
Proof. destruct nb; [apply length_alter | done]. Qed.

Lemma split_table_length cs h hn c n : length (split_table cs h hn c n) = length cs.
Proof. unfold split_table. rewrite link_prev_length. by lookups. Qed.

Lemma split_table_h cs h hn c n :
  cs !! h = Some c → h ≠ hn → c_next c ≠ Some h →
  split_table cs h hn c n !! h = Some (set_next (Some hn) (set_size n c)).
Proof.
  intros Hc Hne Hnx. unfold split_table. rewrite link_prev_lookup, decide_False by done.
  lookups. by rewrite Hc.
Qed.

Lemma split_table_hn cs h hn c n cn :
  cs !! hn = Some cn → h ≠ hn → c_next c ≠ Some hn →
  split_table cs h hn c n !! hn = Some (mkChunk (u64 (c_size c - n)) (requested_size cn) (-1)
    (c_ptr c + n) (Some h) (c_next c) (c_bin_num cn)).
Proof.
  intros Hc Hne Hnx. unfold split_table. rewrite link_prev_lookup, decide_False by done.
  lookups. by rewrite Hc.
Qed.

Lemma split_table_other cs h hn c n x :
  x ≠ h → x ≠ hn →
  split_table cs h hn c n !! x
  = if decide (c_next c = Some x) then set_prev (Some hn) <$> cs !! x else cs !! x.
Proof. intros H1 H2. unfold split_table. rewrite link_prev_lookup. by lookups. Qed.

Lemma hd_handle_elem l x : hd_handle l None = Some x → x ∈ l.*1.
Proof. destruct l as [|[h b] l]; [done|]. intros [= ->]. rewrite fmap_cons. apply list_elem_of_here. Qed.

(** Blocks [m] in the middle of a region are replaced by [m']; the block after
    them is linked to the last of [m']. *)
Lemma segs_replace cs cs' G1 base l1 m m' l2 G2 hl :
  Forall (λ g, seg cs None g.1 g.2 None) (G1 ++ (base, l1 ++ m ++ l2) :: G2) →
  (∀ n, hd_handle m' n = hd_handle m n) → extent m' = extent m →
  last_handle (last_handle None l1) m' = Some hl →
  (∀ x, x ∈ (cell_h <$> cells G1) ++ l1.*1 ++ (cell_h <$> cells G2) → cs' !! x = cs !! x) →
  NoDup (l2.*1) →
  (∀ x, x ∈ l2.*1 → cs' !! x = if decide (hd_handle l2 None = Some x) then set_prev (Some hl) <$> cs !! x else cs !! x) →
  seg cs' (last_handle None l1) (base + extent l1) m' (hd_handle l2 None) →
  Forall (λ g, seg cs' None g.1 g.2 None) (G1 ++ (base, l1 ++ m' ++ l2) :: G2).
Proof.
  intros Hs Hhd He Hlast Hfr Hn Hl2 Hm. apply Forall_app in Hs as [Hs1 [Hs Hs2]%Forall_cons].
  cbn [fst snd] in Hs. apply seg_app in Hs as [Ha [_ Hz]%seg_app].
  apply Forall_app. split; [|constructor]; cbn [fst snd].
  - eapply segs_frame; [|exact Hs1]. intros x Hx. apply Hfr. set_solver.
  - apply seg_app. split; [|apply seg_app; split; [done|]].
    + rewrite hd_handle_app, Hhd, <-hd_handle_app. eapply seg_frame; [|exact Ha].
      intros x Hx. apply Hfr. set_solver.
    + rewrite Hlast, He. by eapply seg_relink.
  - eapply segs_frame; [|exact Hs2]. intros x Hx. apply Hfr. set_solver.
Qed.

Lemma regions_replace R1 r R2 G1 g G2 :
  Forall2 region_ok R1 G1 → region_ok r g → Forall2 region_ok R2 G2 →
  Forall2 region_ok (R1 ++ r :: R2) (G1 ++ g :: G2).
Proof. intros. apply Forall2_app; [done|]. by constructor. Qed.

(** Cells that are in no bin do not matter to the bins. *)
Lemma bins_ok_middle bs C1 m m' C2 :
  Forall (λ x, b_owner (cell_b x) ≠ Idle) m → Forall (λ x, b_owner (cell_b x) ≠ Idle) m' →
  bins_ok bs (C1 ++ m ++ C2) → bins_ok bs (C1 ++ m' ++ C2).
Proof.
  intros Hm Hm'. apply bins_ok_perm. intros j. rewrite !filter_app.
  assert (Hnil : ∀ l, Forall (λ x, b_owner (cell_b x) ≠ Idle) l → filter (in_bin j) l = []).
  { intros l. induction 1 as [|x l Hx _ IH]; [done|]. by rewrite filter_cons_False by (intros [? _]; done). }
  by rewrite (Hnil _ Hm), (Hnil _ Hm').
Qed.

Lemma focus_good st G1 base l1 h b l2 G2 fl :
  rep st (G1 ++ (base, l1 ++ (h, b) :: l2) :: G2) fl →
  good_block b ∧ 0 <= extent l1 ∧ 0 <= extent l2 ∧ 0 < base
  ∧ base + extent l1 + b_size b + extent l2 < 2 ^ 64 ∧ extent l1 + b_size b + extent l2 < 2 ^ 39.
Proof.
  intros Hr. destruct (regions_focus _ _ _ _ _ Hr) as (_&r&_&_&_&Hok&_).
  pose proof (ro_good _ _ Hok) as Hg. pose proof (ro_low _ _ Hok). pose proof (ro_high _ _ Hok) as Hh.
  pose proof (ro_small _ _ Hok) as Hs. cbn [fst snd] in *. clear Hok. rewrite extent_app in Hh, Hs.
  cbn [extent] in *. apply Forall_app in Hg as [Hg1 [Hb Hg2]%Forall_cons].
  pose proof (extent_nonneg _ Hg1). pose proof (extent_nonneg _ Hg2). split_and!; try done; lia.
Qed.

Lemma focus_handles G1 base l1 h b l2 G2 :
  cell_h <$> cells (G1 ++ (base, l1 ++ (h, b) :: l2) :: G2)
  = (cell_h <$> cells G1) ++ l1.*1 ++ h :: l2.*1 ++ (cell_h <$> cells G2).
Proof.
  rewrite cells_block, !fmap_app, fmap_cons, !fmap_app, !placed_handles, <-!app_assoc. done.
Qed.

(** Membership in an append of lists, propositionally. *)
Ltac app_solve :=
  repeat first [ rewrite elem_of_app | rewrite elem_of_cons ];
  repeat match goal with
  | H : context [ _ ∈ _ ++ _ ] |- _ => rewrite elem_of_app in H
  | H : context [ _ ∈ _ :: _ ] |- _ => rewrite elem_of_cons in H
  end; tauto.

(** The two handles of a split or a merge are apart from all the others. *)
Lemma two_fresh {A} (cs : list A) (h1 h2 : nat) (X1 X2 X3 X4 fl : list nat) :
  (X1 ++ X2 ++ h1 :: X3 ++ X4) ++ h2 :: fl ≡ₚ seq 0 (length cs) →
  h1 ≠ h2 ∧ NoDup X3 ∧ (h1 ∉ X3) ∧ (h2 ∉ X3)
  ∧ ∀ x, x ∈ X1 ++ X2 ++ X4 ++ fl → x ≠ h1 ∧ x ≠ h2 ∧ x ∉ X3.
Proof.
  intros Hp. assert (Hn : NoDup (h1 :: h2 :: X3 ++ (X1 ++ X2 ++ X4 ++ fl))).
  { eapply (NoDup_Permutation_proper _ (seq 0 (length cs))); [|apply NoDup_seq]. rewrite <-Hp.
    rewrite <-!app_assoc. cbn [app]. rewrite <-!app_assoc. solve_Permutation. }
  apply NoDup_cons in Hn as [H1 Hn]. apply NoDup_cons in Hn as [H2 Hn].
  apply NoDup_app in Hn as (H3&H4&_). split_and!.
  - intros ->. apply H1, list_elem_of_here.
  - done.
  - intros Hx. apply H1. app_solve.
  - intros Hx. apply H2. app_solve.
  - intros x Hx. split_and!.
    + intros ->. apply H1. app_solve.
    + intros ->. apply H2. app_solve.
    + intros Hx'. by apply (H4 x).
Qed.

(** The state after a split, before the new chunk is put into its bin. *)
Lemma split_rep st st1 G1 base l1 h s n l2 G2 fl fl' hn cn c R1 r R2 :
  rep st (G1 ++ (base, l1 ++ (h, mkBlock s Loose) :: l2) :: G2) fl → 0 < n < s → (256 | n) →
  chunks_ st !! h = Some c → chunks_ st1 !! hn = Some cn → c_bin_num cn = None →
  flist (chunks_ st1) (free_chunks_list_ st1) fl' →
  ((cell_h <$> cells G1) ++ l1.*1 ++ h :: l2.*1 ++ (cell_h <$> cells G2)) ++ hn :: fl'
    ≡ₚ seq 0 (length (chunks_ st1)) →
  (∀ x, x ∈ (cell_h <$> cells G1) ++ l1.*1 ++ h :: l2.*1 ++ (cell_h <$> cells G2) →
     chunks_ st1 !! x = chunks_ st !! x) →
  bins_ st1 = bins_ st →
  Forall2 region_ok R1 G1 → region_ok r (base, l1 ++ (h, mkBlock s Loose) :: l2) → Forall2 region_ok R2 G2 →
  rep (set_regions (R1 ++ set_handles
         (<[Z.to_nat ((base + extent l1 + n - base) / 256) := Some hn]> (handles_ r)) r :: R2)
         (set_chunks (split_table (chunks_ st1) h hn c n) st1))
      (G1 ++ (base, l1 ++ [(h, mkBlock n Loose); (hn, mkBlock (s - n) Loose)] ++ l2) :: G2) fl'.
Proof.
  intros Hr Hn Hd Hc Hcn Hbn Hf Hp Hsame EB HR1 Hreg HR2.
  destruct (focus_chunk _ _ _ _ _ _ _ _ _ Hr) as (c0&Hc0&Hptr&Hsz&Hprev&Hnext&Hid&Hbin).
  rewrite Hc in Hc0. injection Hc0 as <-. cbn [b_size] in Hsz.
  destruct (focus_good _ _ _ _ _ _ _ _ _ Hr) as (_&Hl1&Hl2&Hlow&Hhigh&_). cbn [b_size] in Hhigh.
  destruct (two_fresh _ _ _ _ _ _ _ _ Hp) as (Hne&Hnd&Hh2&Hhn2&Hout).
  assert (Hc1 : chunks_ st1 !! h = Some c) by (rewrite Hsame; [done | app_solve]).
  assert (Hnh : c_next c ≠ Some h) by (rewrite Hnext; by intros ?%hd_handle_elem).
  assert (Hnhn : c_next c ≠ Some hn) by (rewrite Hnext; by intros ?%hd_handle_elem).
  assert (Hoth : ∀ x, x ∈ (cell_h <$> cells G1) ++ l1.*1 ++ (cell_h <$> cells G2) ++ fl' →
    split_table (chunks_ st1) h hn c n !! x = chunks_ st1 !! x).
  { intros x (?&?&?)%Hout. rewrite split_table_other by done. rewrite decide_False; [done|].
    rewrite Hnext. by intros Hx'%hd_handle_elem. }
  constructor; cbn [regions_ set_regions set_chunks chunks_ free_chunks_list_ bins_].
  - apply regions_replace; [done | by apply region_split | done].
  - eapply apart_replace; [|apply Hr]. rewrite !extent_app. cbn [extent b_size]. lia.
  - eapply (segs_replace (chunks_ st) _ _ _ _ [(h, mkBlock s Loose)]); [apply Hr | done | | | | done | |].
    + cbn [extent b_size]. lia.
    + done.
    + intros x Hx. rewrite Hoth, Hsame by app_solve. done.
    + intros x Hx. rewrite split_table_other by (by intros ->). rewrite Hnext, Hsame by app_solve. done.
    + apply seg_cons. split; [|apply seg_cons; split; [|done]].
      * eexists. split; [by apply split_table_h|]. by split_and!.
      * eexists. split; [by eapply split_table_hn|]. unfold chunk_is, owner_ok.
        cbn [b_size b_owner c_ptr c_size c_prev c_next allocation_id c_bin_num].
        rewrite Hptr, Hsz. split_and!; try done. unfold u64. apply Z.mod_small. lia.
  - eapply flist_frame; [|exact Hf]. intros x Hx. apply Hoth. app_solve.
  - rewrite split_table_length, <-Hp. cbn [app]. rewrite focus_handles. cbn [fmap list_fmap].
    rewrite <-!app_assoc. cbn [app]. rewrite <-!app_assoc. cbn [fst]. solve_Permutation.
  - rewrite EB. pose proof (rep_bins _ _ _ Hr) as Hb. rewrite cells_focus, placed_app in *.
    cbn [app placed b_size] in *. replace (base + extent l1 + n + (s - n)) with (base + extent l1 + s) by lia.
    revert Hb. rewrite <-!app_assoc, !(app_assoc (cells G1)).
    apply (bins_ok_middle _ _ [_] [_; _]); repeat constructor; done.
Qed.

Lemma SplitChunk_ok st G1 base l1 h s n l2 G2 fl :
  rep st (G1 ++ (base, l1 ++ (h, mkBlock s Loose) :: l2) :: G2) fl → 0 < n < s → (256 | n) →
  ∃ st' hn fl', SplitChunk h n st = inr ((), st')
    ∧ rep st' (G1 ++ (base, l1 ++ (h, mkBlock n Loose) :: (hn, mkBlock (s - n) Idle) :: l2) :: G2) fl'
    ∧ same_counters st st'.
Proof.
  intros Hr Hn Hd. destruct (AllocateChunk_run _ _ _ Hr) as (hn&cn&fl'&st1&Ha&Hcn&Hbn&Hf&Hp&Hsame&ER&EB&ES).
  destruct (focus_chunk _ _ _ _ _ _ _ _ _ Hr) as (c&Hc&Hptr&Hsz&Hprev&Hnext&Hid&Hbin).
  destruct (focus_good _ _ _ _ _ _ _ _ _ Hr) as (_&Hl1&Hl2&_). rewrite focus_handles in Hp, Hsame.
  destruct (two_fresh _ _ _ _ _ _ _ _ Hp) as (Hne&_). destruct (fresh_handle _ _ _ _ Hp) as (_&_&Hlt).
  destruct (set_handle_run _ _ _ _ _ _ (c_ptr c + n) (Some hn) Hr) as (R1&r&R2&HR&HR1&Hreg&HR2&Hset).
  { rewrite Hptr, extent_app. cbn [extent b_size]. lia. }
  rewrite <-ER in Hset.
  assert (Hc1 : chunks_ st1 !! h = Some c) by (rewrite Hsame; [done | app_solve]).
  assert (Hnx : ∀ x, c_next c = Some x → (x < length (chunks_ st1))%nat).
  { rewrite Hnext. intros x Hx%hd_handle_elem. assert (Hx' : x ∈ seq 0 (length (chunks_ st1))).
    { rewrite <-Hp. app_solve. } apply elem_of_seq in Hx'. lia. }
  rewrite (SplitChunk_run _ _ _ _ _ _ _ Ha Hc1 Hne Hlt Hid Hbin Hnx Hset). rewrite Hptr.
  pose proof (split_rep st st1 _ _ _ _ _ n _ _ _ fl' hn cn c R1 r R2 Hr Hn Hd Hc Hcn Hbn Hf Hp Hsame EB HR1 Hreg HR2) as Hr'.
  cbn [app] in Hr'. rewrite (cons_middle (h, _) l1), (app_assoc l1) in Hr'.
  destruct (InsertFreeChunkIntoBin_ok _ _ _ _ _ _ _ _ _ Hr') as (st'&Hrun&Hrep&Hsc).
  exists st', hn, fl'. split; [done|]. split; [by rewrite <-app_assoc in Hrep|].
  destruct ES, Hsc. split; cbn in *; congruence.
Qed.

(** ** Merging *)

Definition merge_table (cs : list Chunk) (h1 h2 : nat) (c2 : Chunk) (free : option nat) : list Chunk :=
  alter (set_next free) h2
    (alter (λ c1, set_size (u64 (c_size c1 + c_size c2)) c1) h1
      (link_prev h1 (c_next c2) (alter (set_next (c_next c2)) h1 cs))).

Lemma Merge_run st h1 h2 c1 c2 R :
  chunks_ st !! h1 = Some c1 → chunks_ st !! h2 = Some c2 → h1 ≠ h2 →
  allocation_id c1 = -1 → allocation_id c2 = -1 → c_prev c2 = Some h1 →
  c_next c2 ≠ Some h2 → (∀ x, c_next c2 = Some x → (x < length (chunks_ st))%nat) →
  (∀ st', regions_ st' = regions_ st → set_handle (c_ptr c2) None st' = inr ((), set_regions R st')) →
  Merge h1 h2 st = inr ((), set_free_list (Some h2)
    (set_regions R (set_chunks (merge_table (chunks_ st) h1 h2 c2 (free_chunks_list_ st)) st))).
Proof.
  intros Hc1 Hc2 Hne Hi1 Hi2 Hprev Hn2 Hnx Hset.
  assert (Hlt1 : (h1 < length (chunks_ st))%nat) by (by eapply lookup_lt_Some).
  assert (Hlt2 : (h2 < length (chunks_ st))%nat) by (by eapply lookup_lt_Some).
  unfold Merge. step by (chunk_run _ _ _ Hc1). step by (chunk_run _ _ _ Hc2).
  step_check by (unfold in_use; by rewrite Hi1, Hi2). step by (update_alter _ _ _ Hlt1).
  erewrite bind_run by (apply chunk_run; cbn; lookups; exact Hc2).
  step_check by (by apply bool_decide_eq_true).
  erewrite bind_run; [|apply link_prev_run; intros x Hx; cbn; lookups; by apply Hnx].
  erewrite bind_run by (apply chunk_run; cbn; rewrite link_prev_lookup, decide_False by done; lookups; exact Hc2).
  erewrite bind_run by (apply update_alter; cbn; rewrite link_prev_length; lookups; done).
  unfold DeleteChunk.
  erewrite bind_run
    by (apply chunk_run; cbn; lookups; rewrite link_prev_lookup, decide_False by done; lookups; exact Hc2).
  unfold erase. erewrite bind_run by (apply Hset; done). unfold DeallocateChunk. step_get.
  erewrite bind_run by (apply update_alter; cbn; lookups; rewrite link_prev_length; lookups; done).
  done.
Qed.

Lemma merge_rep st G1 base l1 h1 s1 h2 s2 l2 G2 fl c1 c2 R1 r R2 :
  rep st (G1 ++ (base, l1 ++ (h1, mkBlock s1 Loose) :: (h2, mkBlock s2 Loose) :: l2) :: G2) fl →
  chunks_ st !! h1 = Some c1 → chunks_ st !! h2 = Some c2 →
  Forall2 region_ok R1 G1 →
  region_ok r (base, l1 ++ (h1, mkBlock s1 Loose) :: (h2, mkBlock s2 Loose) :: l2) → Forall2 region_ok R2 G2 →
  rep (set_free_list (Some h2)
        (set_regions (R1 ++ set_handles
           (<[Z.to_nat ((base + extent l1 + s1 - base) / 256) := None]> (handles_ r)) r :: R2)
          (set_chunks (merge_table (chunks_ st) h1 h2 c2 (free_chunks_list_ st)) st)))
      (G1 ++ (base, l1 ++ [(h1, mkBlock (s1 + s2) Loose)] ++ l2) :: G2) (h2 :: fl).
Proof.
  intros Hr Hc1 Hc2 HR1 Hreg HR2.
  destruct (focus_chunk _ _ _ _ _ _ _ _ _ Hr) as (c&Hc&Hptr1&Hsz1&Hprev1&Hnext1&Hid1&Hbin1).
  rewrite Hc1 in Hc. injection Hc as <-.
  destruct (focus_good _ _ _ _ _ _ _ _ _ Hr) as ([Hs1 _]&Hl1&_&Hlow&Hhigh&_). cbn [b_size extent] in Hs1, Hhigh.
  pose proof Hr as Hr2. rewrite (cons_middle (h1, _) l1), (app_assoc l1) in Hr2.
  destruct (focus_chunk _ _ _ _ _ _ _ _ _ Hr2) as (c&Hc&Hptr2&Hsz2&Hprev2&Hnext2&Hid2&Hbin2).
  rewrite Hc2 in Hc. injection Hc as <-. cbn [b_size] in Hsz1, Hsz2.
  destruct (focus_good _ _ _ _ _ _ _ _ _ Hr2) as ([Hs2 _]&_&Hl2&_). cbn [b_size] in Hs2.
  assert (Hp : ((cell_h <$> cells G1) ++ l1.*1 ++ h1 :: l2.*1 ++ (cell_h <$> cells G2)) ++ h2 :: fl
               ≡ₚ seq 0 (length (chunks_ st))).
  { rewrite <-(rep_handles _ _ _ Hr), focus_handles. cbn [fmap list_fmap fst]. rewrite <-!app_assoc. cbn [app].
    rewrite <-!app_assoc. solve_Permutation. }
  destruct (two_fresh _ _ _ _ _ _ _ _ Hp) as (Hne&Hnd&Hh1&Hh2&Hout).
  assert (Hn1 : c_next c2 ≠ Some h1) by (rewrite Hnext2; by intros ?%hd_handle_elem).
  assert (Hn2 : c_next c2 ≠ Some h2) by (rewrite Hnext2; by intros ?%hd_handle_elem).
  assert (Hother : ∀ x, x ≠ h1 → x ≠ h2 →
    merge_table (chunks_ st) h1 h2 c2 (free_chunks_list_ st) !! x
    = if decide (c_next c2 = Some x) then set_prev (Some h1) <$> chunks_ st !! x else chunks_ st !! x).
  { intros x H1 H2. unfold merge_table. lookups. rewrite link_prev_lookup. by lookups. }
  assert (Hoth : ∀ x, x ∈ (cell_h <$> cells G1) ++ l1.*1 ++ (cell_h <$> cells G2) ++ fl →
    merge_table (chunks_ st) h1 h2 c2 (free_chunks_list_ st) !! x = chunks_ st !! x).
  { intros x (?&?&?)%Hout. rewrite Hother by done. rewrite decide_False; [done|].
    rewrite Hnext2. by intros Hx'%hd_handle_elem. }
  constructor; cbn [regions_ set_regions set_chunks chunks_ free_chunks_list_ bins_ set_free_list].
  - apply regions_replace; [done | by eapply region_merge | done].
  - eapply apart_replace; [|apply Hr]. rewrite !extent_app. cbn [extent b_size]. lia.
  - eapply (segs_replace (chunks_ st) _ _ _ _ [(h1, mkBlock s1 Loose); (h2, mkBlock s2 Loose)]);
      [apply Hr | done | | | | done | |].
    + cbn [extent b_size]. lia.
    + done.
    + intros x Hx. apply Hoth. app_solve.
    + intros x Hx. rewrite Hother by (by intros ->). by rewrite Hnext2.
    + apply seg_cons. split; [|done]. eexists. split.
      { unfold merge_table. lookups. rewrite link_prev_lookup, decide_False by done. lookups. by rewrite Hc1. }
      unfold chunk_is. cbn [c_ptr c_size c_prev c_next set_size set_next]. split_and!; try done.
      rewrite Hsz1, Hsz2. unfold u64. apply Z.mod_small. cbn [b_size]. lia.
  - cbn [flist]. split; [done|]. eexists. split.
    { unfold merge_table. lookups. rewrite link_prev_lookup, decide_False by done. lookups. by rewrite Hc2. }
    split; [done|]. cbn [c_next set_next]. eapply flist_frame; [|apply Hr]. intros x Hx. apply Hoth. app_solve.
  - unfold merge_table. lookups. rewrite link_prev_length. lookups. rewrite <-Hp. cbn [app].
    rewrite focus_handles. done.
  - pose proof (rep_bins _ _ _ Hr) as Hb. rewrite cells_focus, placed_app in *.
    cbn [app placed b_size] in *. rewrite Z.add_assoc.
    revert Hb. rewrite <-!app_assoc, !(app_assoc (cells G1)).
    apply (bins_ok_middle _ _ [_; _] [_]); repeat constructor; done.
Qed.

Lemma Merge_ok st G1 base l1 h1 s1 h2 s2 l2 G2 fl :
  rep st (G1 ++ (base, l1 ++ (h1, mkBlock s1 Loose) :: (h2, mkBlock s2 Loose) :: l2) :: G2) fl →
  ∃ st', Merge h1 h2 st = inr ((), st')
    ∧ rep st' (G1 ++ (base, l1 ++ (h1, mkBlock (s1 + s2) Loose) :: l2) :: G2) (h2 :: fl)
    ∧ same_counters st st'.
Proof.
  intros Hr. destruct (focus_chunk _ _ _ _ _ _ _ _ _ Hr) as (c1&Hc1&Hptr1&Hsz1&Hprev1&Hnext1&Hid1&Hbin1).
  destruct (focus_good _ _ _ _ _ _ _ _ _ Hr) as ([Hs1 _]&Hl1&_). cbn [b_size] in Hs1.
  pose proof Hr as Hr2. rewrite (cons_middle (h1, _) l1), (app_assoc l1) in Hr2.
  destruct (focus_chunk _ _ _ _ _ _ _ _ _ Hr2) as (c2&Hc2&Hptr2&Hsz2&Hprev2&Hnext2&Hid2&Hbin2).
  destruct (focus_good _ _ _ _ _ _ _ _ _ Hr2) as ([Hs2 _]&_&Hl2&_). cbn [b_size] in Hs2.
  destruct (focus_fresh _ _ _ _ _ _ _ _ _ Hr2) as (_&F1&F2&_).
  rewrite last_handle_app in Hprev2. rewrite extent_app in Hptr2. cbn [last_handle extent b_size] in Hprev2, Hptr2.
  rewrite Z.add_0_r, Z.add_assoc in Hptr2.
  destruct (set_handle_run _ _ _ _ _ _ (c_ptr c2) None Hr) as (R1&r&R2&HR&HR1&Hreg&HR2&Hset).
  { rewrite Hptr2, extent_app. cbn [extent b_size]. lia. }
  erewrite Merge_run; [|exact Hc1|exact Hc2| |done|done|done| | |exact Hset].
  - eexists. split; [done|]. split; [|done]. rewrite Hptr2. by eapply merge_rep.
  - rewrite fmap_app in F1. cbn [fmap list_fmap fst] in F1. intros ->. apply F1. app_solve.
  - rewrite Hnext2. by intros ?%hd_handle_elem.
  - rewrite Hnext2. intros x Hx%hd_handle_elem. assert (Hx' : x ∈ seq 0 (length (chunks_ st))).
    { rewrite <-(rep_handles _ _ _ Hr2), focus_handles. app_solve. } apply elem_of_seq in Hx'. lia.
Qed.

(** ** Coalescing *)

Definition idle (s : Z) : Block := mkBlock s Idle.

Definition is_idle (b : Block) : bool := bool_decide (b_owner b = Idle).

(** Joins neighbouring idle blocks. *)
Fixpoint coalesce (l : list Block) : list Block :=
  match l with
  | [] => []
  | b :: l =>
      match coalesce l with
      | b' :: r => if is_idle b && is_idle b' then idle (b_size b + b_size b') :: r else b :: b' :: r
      | [] => [b]
      end
  end.

(** No two neighbours are idle. *)
Fixpoint coalesced (l : list Block) : Prop :=
  match l with
  | b :: l => (match l with b' :: _ => is_idle b && is_idle b' = false | [] => True end) ∧ coalesced l
  | [] => True
  end.

Definition starts_idle (l : list Block) : bool := match l with b :: _ => is_idle b | [] => false end.

Fixpoint ends_idle (l : list Block) : bool :=
  match l with [] => false | [b] => is_idle b | _ :: l => ends_idle l end.

Lemma coalesced_id l : coalesced l → coalesce l = l.
Proof.
  induction l as [|b l IH]; [done|]. intros [Hb Hl]. cbn [coalesce]. rewrite IH by done.
  destruct l as [|b' l]; [done|]. by rewrite Hb.
Qed.

Lemma coalesced_app l1 l2 :
  coalesced (l1 ++ l2) ↔ coalesced l1 ∧ coalesced l2 ∧ ends_idle l1 && starts_idle l2 = false.
Proof.
  induction l1 as [|b l1 IH]; [cbn; tauto|]. destruct l1 as [|b' l1].
  - cbn [app coalesced ends_idle]. destruct l2 as [|b' l2]; cbn [starts_idle coalesced].
    + rewrite andb_false_r. tauto.
    + tauto.
  - change ((b :: b' :: l1) ++ l2) with (b :: (b' :: l1) ++ l2).
    change (ends_idle (b :: b' :: l1)) with (ends_idle (b' :: l1)).
    change (coalesced (b :: (b' :: l1) ++ l2))
      with (is_idle b && is_idle b' = false ∧ coalesced ((b' :: l1) ++ l2)).
    change (coalesced (b :: b' :: l1)) with (is_idle b && is_idle b' = false ∧ coalesced (b' :: l1)).
    rewrite IH. tauto.
Qed.

Lemma coalesced_cons b l : coalesced (b :: l) ↔ coalesced l ∧ is_idle b && starts_idle l = false.
Proof. rewrite (coalesced_app [b] l). cbn [coalesced ends_idle]. tauto. Qed.

Lemma ends_idle_app l1 b l2 : ends_idle (l1 ++ b :: l2) = ends_idle (b :: l2).
Proof.
  induction l1 as [|b' l1 IH]; [done|]. cbn [app]. rewrite <-IH. by destruct l1.
Qed.

(** The order of joining does not matter. *)
Lemma coalesce_join A s s' B :
  coalesce (A ++ idle s :: idle s' :: B) = coalesce (A ++ idle (s + s') :: B).
Proof.
  induction A as [|b A IH]; cbn [app].
  - cbn [coalesce]. destruct (coalesce B) as [|b r]; [done|]. change (is_idle (idle s')) with true.
    change (is_idle (idle (s + s'))) with true. change (is_idle (idle s)) with true. cbn [andb].
    destruct (is_idle b); [|done]. change (is_idle (idle (b_size (idle s') + b_size b))) with true.
    cbn [idle b_size]. by rewrite Z.add_assoc.
  - cbn [coalesce]. by rewrite IH.
Qed.

(** Between operations no block is loose. *)
Definition settled (b : Block) : Prop := b_owner b ≠ Loose.

Lemma chunk_in_use c p a b n : chunk_is c p a b n → settled b → in_use c = negb (is_idle b).
Proof.
  intros (_&_&_&_&Ho) Hs. unfold owner_ok, settled, in_use, is_idle in *. destruct b as [s []]; cbn in *.
  - by destruct Ho as [-> _].
  - done.
  - destruct Ho as (Hid&->&_). by rewrite (proj2 (Z.eqb_neq _ _) Hid).
Qed.

Lemma coalesce_next_ok st G1 base l1 h s l2 G2 fl c :
  rep st (G1 ++ (base, l1 ++ (h, mkBlock s Loose) :: l2) :: G2) fl →
  c_next c = hd_handle l2 None → Forall settled (l2.*2) → coalesced (l2.*2) →
  ∃ st' s' l2' fl', coalesce_next h c st = inr ((), st')
    ∧ rep st' (G1 ++ (base, l1 ++ (h, mkBlock s' Loose) :: l2') :: G2) fl' ∧ same_counters st st'
    ∧ Forall settled (l2'.*2) ∧ coalesced (l2'.*2) ∧ starts_idle (l2'.*2) = false
    ∧ ∀ A, coalesce (A ++ idle s :: l2.*2) = coalesce (A ++ idle s' :: l2'.*2).
Proof.
  intros Hr Hnext Hset Hco. unfold coalesce_next. rewrite Hnext. destruct l2 as [|[n b] l2]; cbn [hd_handle].
  { by exists st, s, [], fl. }
  cbn [fmap list_fmap snd] in *. apply Forall_cons in Hset as [Hb Hset].
  pose proof Hr as Hr2. rewrite (cons_middle (h, _) l1), (app_assoc l1) in Hr2.
  destruct (focus_chunk _ _ _ _ _ _ _ _ _ Hr2) as (c2&Hc2&Hi2). step by (chunk_run _ _ _ Hc2).
  rewrite (chunk_in_use _ _ _ _ _ Hi2 Hb), negb_involutive. destruct (is_idle b) eqn:Hid.
  - apply bool_decide_eq_true in Hid. destruct b as [s2 o]. cbn in Hid. subst o.
    destruct (RemoveFreeChunkFromBin_ok _ _ _ _ _ _ _ _ _ Hr2) as (st1&Hrun1&Hrep1&Hs1). step by Hrun1.
    rewrite <-app_assoc in Hrep1. cbn [app] in Hrep1.
    destruct (focus_chunk _ _ _ _ _ _ _ _ _ Hrep1) as (c1&Hc1&_&_&_&Hn1&_). step by (chunk_run _ _ _ Hc1).
    rewrite Hn1. cbn [hd_handle]. destruct (Merge_ok _ _ _ _ _ _ _ _ _ _ _ Hrep1) as (st'&Hrun&Hrep&Hs').
    exists st', (s + s2), l2, (n :: fl). split; [done|]. split; [done|].
    apply coalesced_cons in Hco as [Hco Hst]. split_and!; try done.
    + destruct Hs1, Hs'. split; congruence.
    + intros A. apply coalesce_join.
  - exists st, s, ((n, b) :: l2), fl. cbn [fmap list_fmap snd]. split_and!; try done. by constructor.
Qed.

Lemma coalesce_prev_ok st G1 base l1 h s l2 G2 fl c :
  rep st (G1 ++ (base, l1 ++ (h, mkBlock s Loose) :: l2) :: G2) fl →
  c_prev c = last_handle None l1 → Forall settled (l1.*2) → coalesced (l1.*2) →
  ∃ st' s' l1' h' fl', coalesce_prev h c st = inr (h', st')
    ∧ rep st' (G1 ++ (base, l1' ++ (h', mkBlock s' Loose) :: l2) :: G2) fl' ∧ same_counters st st'
    ∧ Forall settled (l1'.*2) ∧ coalesced (l1'.*2) ∧ ends_idle (l1'.*2) = false
    ∧ ∀ B, coalesce (l1.*2 ++ idle s :: B) = coalesce (l1'.*2 ++ idle s' :: B).
Proof.
  intros Hr Hprev Hset Hco. unfold coalesce_prev. rewrite Hprev.
  destruct l1 as [|[p b] l1 _] using rev_ind; cbn [last_handle].
  { by exists st, s, [], h, fl. }
  rewrite last_handle_app. cbn [last_handle]. rewrite fmap_app in *. cbn [fmap list_fmap snd] in *.
  apply Forall_app in Hset as [Hset Hb%Forall_inv]. pose proof Hr as Hr2.
  rewrite <-app_assoc in Hr2. cbn [app] in Hr2.
  destruct (focus_chunk _ _ _ _ _ _ _ _ _ Hr2) as (c2&Hc2&Hi2). step by (chunk_run _ _ _ Hc2).
  rewrite (chunk_in_use _ _ _ _ _ Hi2 Hb), negb_involutive. destruct (is_idle b) eqn:Hid.
  - apply bool_decide_eq_true in Hid. destruct b as [s2 o]. cbn in Hid. subst o.
    destruct (RemoveFreeChunkFromBin_ok _ _ _ _ _ _ _ _ _ Hr2) as (st1&Hrun1&Hrep1&Hs1). step by Hrun1.
    pose proof Hrep1 as Hrep1'. rewrite (cons_middle (p, _) l1), (app_assoc l1) in Hrep1'.
    destruct (focus_chunk _ _ _ _ _ _ _ _ _ Hrep1') as (c1&Hc1&_&_&Hp1&_&_). step by (chunk_run _ _ _ Hc1).
    rewrite Hp1, last_handle_app. cbn [last_handle].
    destruct (Merge_ok _ _ _ _ _ _ _ _ _ _ _ Hrep1) as (st'&Hrun&Hrep&Hs'). step by Hrun.
    exists st', (s2 + s), l1, p, (h :: fl). split; [done|]. split; [done|].
    apply coalesced_app in Hco as (Hco&_&Hst). split_and!; try done.
    + destruct Hs1, Hs'. split; congruence.
    + by rewrite andb_true_r in Hst.
    + intros B. rewrite <-app_assoc. apply coalesce_join.
  - exists st, s, (l1 ++ [(p, b)]), h, fl. rewrite fmap_app. cbn [fmap list_fmap snd]. split_and!; try done.
    + apply Forall_app. split; [done|]. by constructor.
    + by rewrite ends_idle_app.
Qed.

(** Freeing a used block makes it idle and joins it with its neighbours. *)
Lemma FreeAndMaybeCoalesce_ok st G1 base l1 h s id req l2 G2 fl :
  rep st (G1 ++ (base, l1 ++ (h, mkBlock s (Used id req)) :: l2) :: G2) fl →
  Forall settled (l1.*2) → Forall settled (l2.*2) → coalesced ((l1 ++ (h, mkBlock s (Used id req)) :: l2).*2) →
  ∃ st' l fl', FreeAndMaybeCoalesce h st = inr ((), st') ∧ rep st' (G1 ++ (base, l) :: G2) fl'
    ∧ l.*2 = coalesce (l1.*2 ++ idle s :: l2.*2) ∧ coalesced (l.*2) ∧ Forall settled (l.*2)
    ∧ next_allocation_id_ st' = next_allocation_id_ st ∧ stats_ st' = count_free s (stats_ st).
Proof.
  intros Hr Hs1 Hs2 Hco. destruct (focus_chunk _ _ _ _ _ _ _ _ _ Hr) as (c&Hc&Hp&Hsz&Hpr&Hn&Hid&Hid'&_&Hbn).
  cbn [b_size] in Hsz. rewrite fmap_app in Hco. apply coalesced_app in Hco as (Hco1&[Hco2 _]%coalesced_cons&_).
  unfold FreeAndMaybeCoalesce. step by (chunk_run _ _ _ Hc).
  step_check by (unfold in_use; by rewrite Hid', Hbn, (proj2 (Z.eqb_neq _ _) Hid)).
  step by (update_run _ _ _ _ Hc). step_get. set (st1 := set_stats _ _).
  assert (Hr1 : rep st1 (G1 ++ (base, l1 ++ (h, mkBlock s Loose) :: l2) :: G2) fl).
  { eapply (rep_mark st) with (c' := set_allocation_id (-1) c); done. }
  destruct (coalesce_next_ok _ _ _ _ _ _ _ _ _ c Hr1 Hn Hs2 Hco2)
    as (st2&s2&l2'&fl2&Hrun2&Hr2&Hsc2&Hset2&Hc2&Hst2&Heq2). step by Hrun2.
  destruct (focus_chunk _ _ _ _ _ _ _ _ _ Hr2) as (c'&Hc'&_&_&Hpr'&_). step by (chunk_run _ _ _ Hc').
  destruct (coalesce_prev_ok _ _ _ _ _ _ _ _ _ c' Hr2 Hpr' Hs1 Hco1)
    as (st3&s3&l1'&h'&fl3&Hrun3&Hr3&Hsc3&Hset3&Hc3&Hst3&Heq3). step by Hrun3.
  destruct (InsertFreeChunkIntoBin_ok _ _ _ _ _ _ _ _ _ Hr3) as (st4&Hrun4&Hr4&Hsc4).
  exists st4, (l1' ++ (h', idle s3) :: l2'), fl3. rewrite fmap_app. cbn [fmap list_fmap snd].
  assert (Hcoal : coalesced (l1'.*2 ++ idle s3 :: l2'.*2)).
  { apply coalesced_app. split_and!; [done| |by rewrite Hst3]. apply coalesced_cons. by rewrite Hst2, andb_false_r. }
  split_and!; try done.
  - rewrite Heq2, Heq3. symmetry. by apply coalesced_id.
  - apply Forall_app. split; [done|]. by constructor.
  - destruct Hsc2, Hsc3, Hsc4. subst st1. cbn in *. congruence.
  - destruct Hsc2, Hsc3, Hsc4. subst st1. cbn in *. rewrite Hsz in *. congruence.
Qed.

(** ** Best fit *)

Lemma placed_focus base l x :
  x ∈ placed base l → ∃ l1 l2, l = l1 ++ (cell_h x, cell_b x) :: l2 ∧ cell_a x = base + extent l1.
Proof.
  revert base. induction l as [|[h b] l IH]; intros base Hx; cbn [placed] in Hx.
  - by apply not_elem_of_nil in Hx.
  - apply elem_of_cons in Hx as [-> | Hx].
    + exists [], l. split; [done|]. cbn. unfold cell_a. cbn. lia.
    + destruct (IH _ Hx) as (l1&l2&->&Ha). exists ((h, b) :: l1), l2. split; [done|]. cbn [extent]. lia.
Qed.

Lemma cells_split G x :
  x ∈ cells G →
  ∃ G1 base l1 l2 G2, G = G1 ++ (base, l1 ++ (cell_h x, cell_b x) :: l2) :: G2
    ∧ x = (cell_h x, base + extent l1, cell_b x).
Proof.
  intros ([base l]&Hg&Hx)%elem_of_cells. apply list_elem_of_split in Hg as (G1&G2&->).
  destruct (placed_focus _ _ _ Hx) as (l1&l2&Hl&Ha). cbn [fst snd] in *.
  exists G1, base, l1, l2, G2. split; [by rewrite Hl|]. rewrite <-Ha. by destruct x as [[]].
Qed.

(** When [FindChunkPtr] splits the chunk, and what becomes of it. *)
Definition must_split (rounded s : Z) : bool :=
  (rounded * 2 <=? s) || (kMaxInternalFragmentation <=? s - rounded).

Definition taken_size (rounded s : Z) : Z := if must_split rounded s then rounded else s.

Definition taken (id num rounded s : Z) : list Block :=
  mkBlock (taken_size rounded s) (Used id num)
  :: if must_split rounded s then [idle (s - rounded)] else [].

(** The chunk of a loose block becomes used. *)
Definition mark_used (num id : Z) (c : Chunk) : Chunk := set_allocation_id id (set_requested_size num c).

Lemma mark_used_run st G1 base l1 h s l2 G2 fl num :
  rep st (G1 ++ (base, l1 ++ (h, mkBlock s Loose) :: l2) :: G2) fl → next_allocation_id_ st ≠ -1 →
  ∃ st',
    (update h (set_requested_size num) ;;
     id ← get next_allocation_id_;
     modify (set_next_id (i64 (id + 1))) ;;
     update h (set_allocation_id id) ;;
     chunk ← ChunkFromHandle h;
     modify (λ st, set_stats (count_allocation (c_size chunk) (stats_ st)) st) ;;
     mret (c_ptr chunk)) st = inr (base + extent l1, st')
    ∧ rep st' (G1 ++ (base, l1 ++ (h, mkBlock s (Used (next_allocation_id_ st) num)) :: l2) :: G2) fl
    ∧ next_allocation_id_ st' = i64 (next_allocation_id_ st + 1)
    ∧ stats_ st' = count_allocation s (stats_ st).
Proof.
  intros Hr Hid. destruct (focus_chunk _ _ _ _ _ _ _ _ _ Hr) as (c&Hc&Hp&Hs&Hpr&Hn&Hi&Hbn).
  cbn [b_size] in Hs. assert (Hlt : (h < length (chunks_ st))%nat) by (by eapply lookup_lt_Some).
  step by (update_run _ _ _ _ Hc). step_get. step_get.
  erewrite bind_run by (eapply update_run; cbn; by rewrite list_lookup_insert_eq).
  erewrite bind_run by (apply chunk_run; cbn; by rewrite list_lookup_insert_eq by (by rewrite length_insert)).
  step_get. cbn [c_size set_allocation_id set_requested_size c_ptr]. rewrite Hp. eexists. split; [done|]. split_and!.
  - eapply (rep_mark st) with (c' := mark_used num (next_allocation_id_ st) c); try done.
    cbn. by rewrite list_insert_insert_eq.
  - done.
  - cbn. by rewrite Hs.
Qed.

Lemma use_chunk_ok st G1 base l1 h s l2 G2 fl bin L citer rounded num :
  rep st (G1 ++ (base, l1 ++ (h, idle s) :: l2) :: G2) fl →
  bins_ st !! BinNumForSize s = Some bin → bin_size bin = BinNumToSize (BinNumForSize s) →
  free_chunks bin = cell_h <$> L → StronglySorted cell_lt L →
  L ≡ₚ filter (in_bin (BinNumForSize s)) (cells (G1 ++ (base, l1 ++ (h, idle s) :: l2) :: G2)) →
  L !! citer = Some (h, base + extent l1, idle s) →
  0 < rounded <= s → (256 | rounded) → next_allocation_id_ st ≠ -1 →
  ∃ st' l fl', use_chunk (BinNumForSize s) citer h rounded num st = inr (base + extent l1, st')
    ∧ rep st' (G1 ++ (base, l1 ++ l ++ l2) :: G2) fl'
    ∧ l.*2 = taken (next_allocation_id_ st) num rounded s
    ∧ next_allocation_id_ st' = i64 (next_allocation_id_ st + 1)
    ∧ stats_ st' = count_allocation (taken_size rounded s) (stats_ st).
Proof.
  intros Hr Hbin Hbsz HL HsL HpL Hi Hrd Hd Hid. unfold use_chunk.
  destruct (focus_good _ _ _ _ _ _ _ _ _ Hr) as (_&?&?&_&_&Hsmall). cbn [b_size idle] in Hsmall.
  destruct (RemoveFreeChunkIterFromBin_ok _ _ _ _ _ _ _ _ _ _ _ _ Hr Hbin Hbsz HL HsL HpL Hi)
    as (st1&Hrun1&Hr1&Hid1&Hst1). step by Hrun1.
  destruct (focus_chunk _ _ _ _ _ _ _ _ _ Hr1) as (c&Hc&_&Hs&_). cbn [b_size] in Hs.
  step by (chunk_run _ _ _ Hc). rewrite Hs.
  assert (Hcond : (u64 (rounded * 2) <=? s) || (kMaxInternalFragmentation <=? u64 (i64 s - rounded))
                  = must_split rounded s).
  { unfold must_split. rewrite (i64_small s) by (unfold is_i64; lia).
    by rewrite !u64_small by (unfold is_u64; lia). }
  rewrite Hcond. unfold taken, taken_size. destruct (must_split rounded s) eqn:Hm.
  - assert (rounded < s).
    { unfold must_split in Hm. apply orb_true_iff in Hm as [Hm%Z.leb_le | Hm%Z.leb_le]; [lia|].
      change kMaxInternalFragmentation with (2 ^ 27) in Hm. lia. }
    destruct (SplitChunk_ok _ _ _ _ _ _ rounded _ _ _ Hr1) as (st2&hn&fl2&Hrun2&Hr2&Hid2&Hst2); [lia | done |].
    step by Hrun2. rewrite <-Hid1, <-Hid2 in Hid |- *.
    destruct (mark_used_run _ _ _ _ _ _ _ _ _ num Hr2 Hid) as (st'&Hrun&Hr'&Hid'&Hst').
    exists st', [(h, mkBlock rounded (Used (next_allocation_id_ st2) num)); (hn, idle (s - rounded))], fl2.
    split_and!; try done. by rewrite Hst', Hst2, Hst1.
  - step_get. rewrite <-Hid1 in Hid |- *.
    destruct (mark_used_run _ _ _ _ _ _ _ _ _ num Hr1 Hid) as (st'&Hrun&Hr'&Hid'&Hst').
    exists st', [(h, mkBlock s (Used (next_allocation_id_ st1) num))], fl. split_and!; try done.
    by rewrite Hst', Hst1.
Qed.

(** The loop over one bin stops at the first chunk that fits. *)
Lemma search_bin_run st i rounded num L k :
  (∀ x, x ∈ L → ∃ c, chunks_ st !! cell_h x = Some c ∧ c_size c = cell_size x) →
  search_bin i k (cell_h <$> L) rounded num st
  = match list_find (λ x, rounded <= cell_size x) L with
    | Some (j, x) => (p ← use_chunk i (k + j) (cell_h x) rounded num; mret (Some p)) st
    | None => inr (None, st)
    end.
Proof.
  revert k. induction L as [|x L IH]; intros k HL; [done|]. rewrite fmap_cons. cbn [search_bin list_find].
  destruct (HL x (list_elem_of_here _ _)) as (c&Hc&Hs). step by (chunk_run _ _ _ Hc). rewrite Hs.
  destruct (decide (rounded <= cell_size x)) as [Hle | Hgt].
  - rewrite (proj2 (Z.leb_le _ _) Hle). by rewrite Nat.add_0_r.
  - rewrite (proj2 (Z.leb_gt _ _)) by lia. rewrite IH by (intros y Hy; apply HL; by apply list_elem_of_further).
    destruct (list_find _ L) as [[j y]|]; [|done]. cbn. by rewrite Nat.add_succ_r.
Qed.

Lemma BinNumForSize_mono a b : a <= b → (BinNumForSize a <= BinNumForSize b)%nat.
Proof.
  intros H. unfold BinNumForSize, Log2FloorNonZero, kMinAllocationBits.
  assert (Z.log2 (Z.shiftr (Z.max a 256) 8) <= Z.log2 (Z.shiftr (Z.max b 256) 8)); [|lia].
  apply Z.log2_le_mono. rewrite !Z.shiftr_div_pow2 by done. apply Z.div_le_mono; lia.
Qed.

(** [x] is the idle cell with room for [rounded] that is least by size and then
    by address. *)
Definition best_fit (C : list Cell) (rounded : Z) (x : Cell) : Prop :=
  x ∈ C ∧ b_owner (cell_b x) = Idle ∧ rounded <= cell_size x
  ∧ ∀ y, y ∈ C → b_owner (cell_b y) = Idle → rounded <= cell_size y → y = x ∨ cell_lt x y.

Definition no_fit (C : list Cell) (rounded : Z) : Prop :=
  ∀ y, y ∈ C → b_owner (cell_b y) = Idle → cell_size y < rounded.

(** The loop for other compilers computes the same logarithm. *)
Lemma log2_slow_loop_val fuel n r :
  0 <= n < 2 ^ Z.of_nat fuel → log2_slow_loop fuel n r = r - 1 + (if decide (n = 0) then 0 else Z.log2 n + 1).
Proof.
  revert n r. induction fuel as [|fuel IH]; intros n r Hn; cbn [log2_slow_loop].
  { change (2 ^ Z.of_nat 0) with 1 in Hn. rewrite decide_True by lia. lia. }
  rewrite Nat2Z.inj_succ, Z.pow_succ_r in Hn by lia. destruct (Z.ltb_spec 0 n) as [Hp | Hp].
  - rewrite IH by (rewrite Z.shiftr_div_pow2 by done; change (2 ^ 1) with 2; Z.to_euclidean_division_equations; lia).
    rewrite (decide_False (P := n = 0)) by lia. destruct (decide (n = 1)) as [-> | Hn1].
    { rewrite decide_True by done. change (Z.log2 1) with 0. lia. }
    rewrite decide_False by (rewrite Z.shiftr_div_pow2 by done; change (2 ^ 1) with 2; Z.to_euclidean_division_equations; lia).
    rewrite Z.log2_shiftr by done. assert (1 <= Z.log2 n) by (apply Z.log2_le_pow2; lia). lia.
  - rewrite decide_True by lia. lia.
Qed.

Lemma Log2FloorNonZeroSlow_ok n : 0 < n < 2 ^ 64 → Log2FloorNonZeroSlow n = Log2FloorNonZero n.
Proof.
  intros Hn. unfold Log2FloorNonZeroSlow, Log2FloorNonZero. rewrite log2_slow_loop_val by (cbn; lia).
  rewrite decide_False by lia. lia.
Qed.

(** The least of the fitting cells of one bin. *)
Lemma find_first_fit_sorted L rounded j x :
  StronglySorted cell_lt L → list_find (λ x, rounded <= cell_size x) L = Some (j, x) →
  ∀ y, y ∈ L → rounded <= cell_size y → y = x ∨ cell_lt x y.
Proof.
  intros Hs (Hj&Hx&Hmin)%list_find_Some y Hy Hfit. apply list_elem_of_lookup_1 in Hy as [k Hk].
  destruct (decide (k = j)) as [-> | Hne]; [left; congruence|]. right.
  destruct (decide (k < j)%nat) as [Hlt | Hge].
  - exfalso. by apply (Hmin _ _ Hk Hlt).
  - rewrite <-(take_drop_middle _ _ _ Hj) in Hs, Hk.
    apply StronglySorted_app in Hs as (_&_&[_ Hall]%StronglySorted_inv).
    rewrite lookup_app_r in Hk by (rewrite length_take; lia).
    assert (Hlen : length (take j L) = j) by (rewrite length_take; apply lookup_lt_Some in Hj; lia).
    rewrite Hlen in Hk. destruct (k - j)%nat as [|m] eqn:Hm; [lia|]. cbn in Hk.
    rewrite Forall_forall in Hall. apply Hall. by eapply list_elem_of_lookup_2.
Qed.

Definition found_in (st : Pool) (C : list Cell) (x : Cell) (j : nat) : Prop :=
  ∃ bin L, bins_ st !! BinNumForSize (cell_size x) = Some bin
    ∧ bin_size bin = BinNumToSize (BinNumForSize (cell_size x))
    ∧ free_chunks bin = cell_h <$> L ∧ StronglySorted cell_lt L
    ∧ L ≡ₚ filter (in_bin (BinNumForSize (cell_size x))) C ∧ L !! j = Some x.

(** The loop over the bins from [b]: the best fit among them, if there is one. *)
Lemma search_bins_run st G fl rounded num n b :
  rep st G fl → (b + n = kNumBins)%nat →
  (∃ x j, best_fit (filter (λ y, (b <= BinNumForSize (cell_size y))%nat) (cells G)) rounded x
    ∧ found_in st (cells G) x j
    ∧ search_bins n b rounded num st
      = (p ← use_chunk (BinNumForSize (cell_size x)) j (cell_h x) rounded num; mret (Some p)) st)
  ∨ (no_fit (filter (λ y, (b <= BinNumForSize (cell_size y))%nat) (cells G)) rounded
     ∧ search_bins n b rounded num st = inr (None, st)).
Proof.
  intros Hr. revert b. induction n as [|n IH]; intros b Hb; cbn [search_bins].
  { right. split; [|done]. intros y [Hy _]%list_elem_of_filter.
    pose proof (BinNumForSize_lt (cell_size y)). lia. }
  destruct (rep_bins _ _ _ Hr) as [_ Hbins]. destruct (Hbins b ltac:(lia)) as (bin&L&Hbin&Hbsz&HL&HsL&HpL).
  step by (bin_run _ _ _ Hbin). rewrite HL.
  assert (HinL : ∀ y, y ∈ L ↔ in_bin b y ∧ y ∈ cells G).
  { intros y. by rewrite HpL, list_elem_of_filter. }
  pose proof (search_bin_run st b rounded num L 0) as Hone.
  lapply Hone; [clear Hone; intros Hone|].
  2: { intros x [_ Hx]%HinL. destruct (cell_lookup _ _ _ _ Hr Hx) as (c&?&_&?&_). by exists c. }
  destruct (list_find _ L) as [[j x]|] eqn:Hfind.
  - left. pose proof (find_first_fit_sorted _ _ _ _ HsL Hfind) as Hmin.
    apply list_find_Some in Hfind as (Hj&Hx&_). exists x, j.
    assert (HxL : x ∈ L) by (by eapply list_elem_of_lookup_2).
    destruct (proj1 (HinL x) HxL) as [[Hid Hbx] HxG]. split_and!.
    + split_and!; [|done|done|].
      * apply list_elem_of_filter. split; [lia | done].
      * intros y [Hby Hy]%list_elem_of_filter Hidy Hfit.
        destruct (decide (BinNumForSize (cell_size y) = b)) as [Heq | Hne].
        -- apply Hmin; [|done]. by apply HinL.
        -- right. left. destruct (decide (cell_size y <= cell_size x)) as [Hle%BinNumForSize_mono|]; lia.
    + unfold found_in. rewrite Hbx. by exists bin, L.
    + rewrite Hbx. unfold mbind, Act_bind in *. rewrite Hone. by destruct (use_chunk _ _ _ _ _ _) as [|[p st']].
  - apply list_find_None in Hfind. rewrite Forall_forall in Hfind. step by Hone.
    destruct (IH (S b)) as [(x&j&(Hx&Hid&Hfit&Hmin)&Hin&Hrun)|[Hno Hrun]]; [lia|left|right].
    + exists x, j. split_and!; [|done|done]. apply list_elem_of_filter in Hx as [Hbx Hx]. split_and!; [|done|done|].
      * apply list_elem_of_filter. split; [lia | done].
      * intros y [Hby Hy]%list_elem_of_filter Hidy Hfity. apply Hmin; [|done|done].
        apply list_elem_of_filter. split; [|done].
        destruct (decide (BinNumForSize (cell_size y) = b)) as [Heq|]; [|lia].
        exfalso. apply (Hfind y); [|done]. by apply HinL.
    + split; [|exact Hrun]. intros y [Hby Hy]%list_elem_of_filter Hidy.
      destruct (decide (BinNumForSize (cell_size y) = b)) as [Heq|].
      * destruct (decide (cell_size y < rounded)); [done|]. exfalso. apply (Hfind y); [|lia]. by apply HinL.
      * apply Hno; [|done]. apply list_elem_of_filter. split; [lia | done].
Qed.

(** ** The abstract heap *)

Definition Heap : Type := list (Z * list Block).

Definition heap_of (G : Layout) : Heap := (λ g, (g.1, g.2.*2)) <$> G.

Fixpoint spots_from (base : Z) (l : list Block) : list (Z * Block) :=
  match l with [] => [] | b :: l => (base, b) :: spots_from (base + b_size b) l end.

(** All blocks with their addresses. *)
Definition spots (H : Heap) : list (Z * Block) := H ≫= λ r, spots_from r.1 r.2.

(** The block at address [p] is replaced by the blocks [f b]. *)
Fixpoint replace_at (p : Z) (f : Block → list Block) (base : Z) (l : list Block) : list Block :=
  match l with
  | [] => []
  | b :: l => (if base =? p then f b else [b]) ++ replace_at p f (base + b_size b) l
  end.

Definition heap_replace (p : Z) (f : Block → list Block) (H : Heap) : Heap :=
  (λ r, (r.1, replace_at p f r.1 r.2)) <$> H.

Definition spot_lt (x y : Z * Block) : bool :=
  (b_size x.2 <? b_size y.2) || (b_size x.2 =? b_size y.2) && (x.1 <? y.1).

(** The smallest idle block with room for [rounded], the lowest of several. *)
Fixpoint fit (rounded : Z) (l : list (Z * Block)) : option (Z * Block) :=
  match l with
  | [] => None
  | x :: l =>
      if is_idle x.2 && (rounded <=? b_size x.2) then
        match fit rounded l with
        | Some y => if spot_lt y x then Some y else Some x
        | None => Some x
        end
      else fit rounded l
  end.

(** Best fit: the block is used whole, or its front part if enough is left. *)
Definition take_block (id num rounded : Z) (H : Heap) : option (Z * Block * Heap) :=
  match fit rounded (spots H) with
  | Some (p, b) => Some (p, b, heap_replace p (λ b, taken id num rounded (b_size b)) H)
  | None => None
  end.

(** The block at [p] becomes idle and idle neighbours are joined. *)
Definition release_block (p : Z) (H : Heap) : Heap :=
  (λ r, (r.1, coalesce r.2)) <$> heap_replace p (λ b, [idle (b_size b)]) H.

Definition calm (G : Layout) : Prop := Forall (λ g, coalesced (g.2.*2) ∧ Forall settled (g.2.*2)) G.

Lemma spots_from_placed base l :
  spots_from base (l.*2) = (λ x, (cell_a x, cell_b x)) <$> placed base l.
Proof. revert base. induction l as [|[h b] l IH]; intros base; [done|]. cbn. by rewrite <-IH. Qed.

Lemma spots_cells G : spots (heap_of G) = (λ x, (cell_a x, cell_b x)) <$> cells G.
Proof.
  unfold spots, heap_of, cells. induction G as [|[base l] G IH]; [done|].
  rewrite fmap_cons, !bind_cons, fmap_app, <-IH. cbn [fst snd]. by rewrite spots_from_placed.
Qed.

Lemma is_idle_true b : b_owner b = Idle → is_idle b = true.
Proof. apply bool_decide_eq_true_2. Qed.

Lemma fit_none rounded l :
  fit rounded l = None → ∀ y, y ∈ l → b_owner y.2 = Idle → b_size y.2 < rounded.
Proof.
  intros Hf y Hy Hyi. induction l as [|v l IH]; [by apply not_elem_of_nil in Hy|]. cbn [fit] in Hf.
  destruct (is_idle v.2 && (rounded <=? b_size v.2)) eqn:Hv.
  - destruct (fit rounded l) as [u|]; [by destruct (spot_lt u v) | done].
  - apply elem_of_cons in Hy as [-> | Hw]; [|by apply IH].
    rewrite (is_idle_true _ Hyi) in Hv. cbn [andb] in Hv. lia.
Qed.

Lemma fit_some rounded l x :
  fit rounded l = Some x →
  x ∈ l ∧ b_owner x.2 = Idle ∧ rounded <= b_size x.2
  ∧ ∀ y, y ∈ l → b_owner y.2 = Idle → rounded <= b_size y.2 → spot_lt y x = false.
Proof.
  revert x. induction l as [|z l IH]; intros x; cbn [fit]; [done|].
  assert (Hirr : spot_lt z z = false) by (unfold spot_lt; lia).
  destruct (is_idle z.2 && (rounded <=? b_size z.2)) eqn:Hz.
  - apply andb_true_iff in Hz as [Hzi%bool_decide_eq_true Hzf%Z.leb_le].
    destruct (fit rounded l) as [y|] eqn:Hf.
    + destruct (IH y eq_refl) as (Hy&Hyi&Hyf&Hmin). destruct (spot_lt y z) eqn:Hyz; intros [= <-].
      * split_and!; [by apply list_elem_of_further | done | done |].
        intros w [-> | Hw]%elem_of_cons Hwi Hwf; [unfold spot_lt in *; lia | by apply Hmin].
      * split_and!; [apply list_elem_of_here | done | done |].
        intros w [-> | Hw]%elem_of_cons Hwi Hwf; [done|].
        specialize (Hmin w Hw Hwi Hwf). unfold spot_lt in *. lia.
    + intros [= <-]. split_and!; [apply list_elem_of_here | done | done |].
      intros w [-> | Hw]%elem_of_cons Hwi Hwf; [done|]. exfalso.
      pose proof (fit_none _ _ Hf w Hw Hwi). lia.
  - intros Hx. destruct (IH x Hx) as (Hy&Hyi&Hyf&Hmin).
    split_and!; [by apply list_elem_of_further | done | done |].
    intros w [-> | Hw]%elem_of_cons Hwi Hwf; [|by apply Hmin].
    rewrite (is_idle_true _ Hwi) in Hz. cbn [andb] in Hz. lia.
Qed.

Lemma best_fit_fit G rounded x :
  best_fit (cells G) rounded x → fit rounded (spots (heap_of G)) = Some (cell_a x, cell_b x).
Proof.
  intros (Hx&Hi&Hfit&Hmin). rewrite spots_cells.
  assert (Hin : (cell_a x, cell_b x) ∈ (λ x, (cell_a x, cell_b x)) <$> cells G) by (by apply (list_elem_of_fmap_2 (λ x, (cell_a x, cell_b x)))).
  destruct (fit rounded _) as [z|] eqn:Hf.
  - destruct (fit_some _ _ _ Hf) as (Hz&Hzi&Hzf&Hzm). apply list_elem_of_fmap in Hz as (y&->&Hy).
    destruct (Hmin y Hy Hzi Hzf) as [-> | Hlt]; [done|]. exfalso.
    specialize (Hzm _ Hin Hi Hfit). unfold cell_lt, cell_size, spot_lt in *. cbn in *. lia.
  - pose proof (fit_none _ _ Hf _ Hin Hi) as Hlt. unfold cell_size in Hfit. cbn in *. lia.
Qed.

Lemma no_fit_fit G rounded : no_fit (cells G) rounded → fit rounded (spots (heap_of G)) = None.
Proof.
  intros Hno. destruct (fit rounded _) as [z|] eqn:Hf; [|done]. exfalso.
  destruct (fit_some _ _ _ Hf) as (Hz&Hzi&Hzf&_). rewrite spots_cells in Hz.
  apply list_elem_of_fmap in Hz as (y&->&Hy). specialize (Hno y Hy Hzi). unfold cell_size in Hno. cbn in *. lia.
Qed.

Lemma replace_at_app p f base (l1 : list (nat * Block)) (l2 : list Block) :
  replace_at p f base (l1.*2 ++ l2)
  = replace_at p f base (l1.*2) ++ replace_at p f (base + extent l1) l2.
Proof.
  revert base. induction l1 as [|[h b] l1 IH]; intros base; [by cbn; rewrite Z.add_0_r|].
  rewrite fmap_cons. cbn [app replace_at extent snd]. rewrite IH, <-app_assoc. do 3 f_equal. lia.
Qed.

Lemma replace_at_none p f base l :
  Forall (λ x, cell_a x ≠ p) (placed base l) → replace_at p f base (l.*2) = l.*2.
Proof.
  revert base. induction l as [|[h b] l IH]; intros base Hf; [done|]. cbn [placed] in Hf.
  apply Forall_cons in Hf as [Hne Hf]. cbn [fmap list_fmap replace_at snd]. unfold cell_a in Hne. cbn in Hne.
  rewrite (proj2 (Z.eqb_neq _ _) Hne). cbn [app]. f_equal. by apply IH.
Qed.

(** Replacing the block in focus, in the layout and in the heap. *)
Lemma heap_replace_focus G1 base l1 h b l l2 G2 f :
  Forall good_region (G1 ++ (base, l1 ++ (h, b) :: l2) :: G2) →
  StronglySorted apart (G1 ++ (base, l1 ++ (h, b) :: l2) :: G2) → l.*2 = f b →
  heap_of (G1 ++ (base, l1 ++ l ++ l2) :: G2)
  = heap_replace (base + extent l1) f (heap_of (G1 ++ (base, l1 ++ (h, b) :: l2) :: G2)).
Proof.
  intros Hg Ha Hl. pose proof (cells_ordered _ Hg Ha) as Ho. pose proof (cells_positive _ Hg) as Hp.
  rewrite cells_block in Ho, Hp.
  assert (Hne : ∀ y, y ∈ (cells G1 ++ placed base l1) ++ placed (base + extent l1 + b_size b) l2 ++ cells G2 →
    cell_a y ≠ base + extent l1) by (intros y Hy; by apply (ordered_distinct _ _ _ _ Ho Hp Hy)).
  assert (Hother : ∀ G', (∀ y, y ∈ cells G' → cell_a y ≠ base + extent l1) →
    heap_replace (base + extent l1) f (heap_of G') = heap_of G').
  { intros G' HG'. unfold heap_replace, heap_of. rewrite <-list_fmap_compose.
    apply list_fmap_ext. intros i [base' l'] Hi. cbn. f_equal. apply replace_at_none, Forall_forall.
    intros y Hy. apply HG', elem_of_cells. exists (base', l'). split; [by eapply list_elem_of_lookup_2 | done]. }
  unfold heap_of, heap_replace in *. rewrite !fmap_app, !fmap_cons.
  rewrite (Hother G1), (Hother G2) by (intros y Hy; apply Hne; app_solve). cbn [fst snd].
  do 3 f_equal. rewrite !fmap_app, replace_at_app. cbn [fmap list_fmap replace_at snd]. rewrite Z.eqb_refl, Hl.
  rewrite (replace_at_none _ _ base l1), (replace_at_none _ _ _ l2); [done| |];
    apply Forall_forall; intros y Hy; apply Hne; app_solve.
Qed.

Lemma calm_replace G1 base l l' G2 :
  calm (G1 ++ (base, l) :: G2) → coalesced (l'.*2) → Forall settled (l'.*2) → calm (G1 ++ (base, l') :: G2).
Proof.
  intros [H1 [_ H2]%Forall_cons]%Forall_app Hc Hs. apply Forall_app. split; [done|]. by constructor.
Qed.

Lemma calm_focus G1 base l G2 :
  calm (G1 ++ (base, l) :: G2) → coalesced (l.*2) ∧ Forall settled (l.*2).
Proof. by intros [_ [H _]%Forall_cons]%Forall_app. Qed.

Lemma coalesced_taken A s B id num rounded :
  coalesced (A ++ idle s :: B) → coalesced (A ++ taken id num rounded s ++ B).
Proof.
  intros (HA&[HB Hs]%coalesced_cons&_)%coalesced_app. unfold taken.
  apply coalesced_app. split_and!; [done| |by rewrite andb_false_r].
  destruct (must_split rounded s); cbn [app]; apply coalesced_cons; (split; [|done]); [|done].
  by apply coalesced_cons.
Qed.

Lemma settled_taken id num rounded s : Forall settled (taken id num rounded s).
Proof. unfold taken. destruct (must_split _ _); repeat constructor; done. Qed.

(** *** The search refines best fit *)
Lemma FindChunkPtr_ok st G fl rounded num :
  rep st G fl → calm G → 0 < rounded → (256 | rounded) → next_allocation_id_ st ≠ -1 →
  match take_block (next_allocation_id_ st) num rounded (heap_of G) with
  | Some (p, b, H') =>
      ∃ st' G' fl', FindChunkPtr (BinNumForSize rounded) rounded num st = inr (p, st')
        ∧ rep st' G' fl' ∧ calm G' ∧ heap_of G' = H'
        ∧ next_allocation_id_ st' = i64 (next_allocation_id_ st + 1)
        ∧ stats_ st' = count_allocation (taken_size rounded (b_size b)) (stats_ st)
  | None => FindChunkPtr (BinNumForSize rounded) rounded num st = inr (nullptr, st)
  end.
Proof.
  intros Hr Hcalm Hrd Hd Hid. unfold take_block, FindChunkPtr.
  assert (Hfilter : ∀ y, y ∈ cells G → rounded <= cell_size y →
    y ∈ filter (λ y, (BinNumForSize rounded <= BinNumForSize (cell_size y))%nat) (cells G)).
  { intros y Hy Hle. apply list_elem_of_filter. split; [by apply BinNumForSize_mono | done]. }
  destruct (search_bins_run st G fl rounded num (kNumBins - BinNumForSize rounded) (BinNumForSize rounded) Hr)
    as [(x&j&(Hx&Hi&Hfit&Hmin)&Hin&Hrun)|[Hno Hrun]].
  { pose proof (BinNumForSize_lt rounded). lia. }
  - apply list_elem_of_filter in Hx as [_ Hx].
    rewrite (best_fit_fit _ _ x); [|split_and!; try done; intros; by apply Hmin; [apply Hfilter|..]].
    destruct (cells_split _ _ Hx) as (G1&base&l1&l2&G2&HG&Hxe). destruct x as [[h a] [s o]].
    unfold cell_h, cell_b, cell_a, cell_size in *. cbn [fst snd b_owner b_size] in *. subst o.
    injection Hxe as ->. subst G. destruct Hin as (bin&L&Hbin&Hbsz&HL&HsL&HpL&Hj). unfold cell_size in *.
    cbn [cell_b snd b_size] in *.
    destruct (use_chunk_ok _ _ _ _ _ _ _ _ _ _ _ _ rounded num Hr Hbin Hbsz HL HsL HpL Hj) as (st'&l&fl'&Hu&Hr'&Hl&Hid'&Hst');
      [lia | done | done |].
    unfold mbind, Act_bind in *. rewrite Hrun, Hu. exists st', (G1 ++ (base, l1 ++ l ++ l2) :: G2), fl'.
    split_and!; try done.
    + destruct (calm_focus _ _ _ _ Hcalm) as [Hco Hset]. rewrite fmap_app in Hco, Hset. cbn [fmap list_fmap snd] in *.
      apply Forall_app in Hset as [Hs1 [_ Hs2]%Forall_cons]. eapply calm_replace; [done | |];
        rewrite !fmap_app, Hl; [by apply coalesced_taken|].
      apply Forall_app. split; [done|]. apply Forall_app. split; [apply settled_taken | done].
    + apply (heap_replace_focus _ _ _ h (mkBlock s Idle)); [by eapply rep_good | by apply Hr | done].
  - rewrite no_fit_fit. 2: { intros y Hy Hidy. destruct (decide (cell_size y < rounded)) as [|Hge]; [done|].
      apply (Hno y); [apply Hfilter; [done | lia] | done]. }
    by step by Hrun.
Qed.

(** *** Freeing refines release *)
Lemma release_focus G1 base l1 h b l l2 G2 :
  Forall good_region (G1 ++ (base, l1 ++ (h, b) :: l2) :: G2) →
  StronglySorted apart (G1 ++ (base, l1 ++ (h, b) :: l2) :: G2) →
  calm (G1 ++ (base, l1 ++ (h, b) :: l2) :: G2) → l.*2 = coalesce (l1.*2 ++ idle (b_size b) :: l2.*2) →
  heap_of (G1 ++ (base, l) :: G2)
  = release_block (base + extent l1) (heap_of (G1 ++ (base, l1 ++ (h, b) :: l2) :: G2)).
Proof.
  intros Hg Ha Hc Hl. unfold release_block.
  rewrite <-(heap_replace_focus _ _ _ _ _ [(h, idle (b_size b))] _ _ _ Hg Ha) by done.
  apply Forall_app in Hc as [Hc1 [_ Hc2]%Forall_cons].
  assert (Hid : ∀ G, calm G → (λ r, (r.1, coalesce r.2)) <$> heap_of G = heap_of G).
  { intros G HG. unfold heap_of. rewrite <-list_fmap_compose. apply list_fmap_ext.
    intros i g Hi. cbn. f_equal. apply coalesced_id. by apply (Forall_lookup_1 _ _ _ _ HG Hi). }
  unfold heap_of in *. rewrite !fmap_app, !fmap_cons, (Hid G1 Hc1), (Hid G2 Hc2). cbn [fst snd].
  rewrite Hl, !fmap_app. done.
Qed.

Lemma DeallocateRawInternal_ok st G fl p s id req :
  rep st G fl → calm G → (p, mkBlock s (Used id req)) ∈ spots (heap_of G) →
  ∃ st' G' fl', DeallocateRawInternal p st = inr ((), st') ∧ rep st' G' fl' ∧ calm G'
    ∧ heap_of G' = release_block p (heap_of G)
    ∧ next_allocation_id_ st' = next_allocation_id_ st ∧ stats_ st' = count_free s (stats_ st).
Proof.
  intros Hr Hcalm Hp. rewrite spots_cells in Hp. apply list_elem_of_fmap in Hp as (x&Hpx&Hx).
  destruct (cells_split _ _ Hx) as (G1&base&l1&l2&G2&->&Hxe). destruct x as [[h a] b].
  unfold cell_h, cell_b, cell_a in *. cbn [fst snd] in *. injection Hpx as -> <-. injection Hxe as ->.
  pose proof (focus_good _ _ _ _ _ _ _ _ _ Hr) as (_&?&_&?&_).
  unfold DeallocateRawInternal. rewrite (proj2 (Z.eqb_neq _ _)) by (unfold nullptr; lia).
  step by (get_handle_block _ _ _ _ _ _ _ _ _ Hr). destruct (calm_focus _ _ _ _ Hcalm) as [Hco Hset].
  pose proof Hset as Hset'. rewrite fmap_app in Hset'. apply Forall_app in Hset' as [Hs1 [_ Hs2]%Forall_cons].
  destruct (FreeAndMaybeCoalesce_ok _ _ _ _ _ _ _ _ _ _ _ Hr Hs1 Hs2 Hco)
    as (st'&l&fl'&Hrun&Hr'&Hl&Hco'&Hset'&Hid&Hst).
  exists st', (G1 ++ (base, l) :: G2), fl'. split_and!; try done.
  - by eapply calm_replace.
  - eapply release_focus; [by eapply rep_good | by apply Hr | done | by rewrite Hl].
Qed.
