(* ===== verification/BFCRuns.v ===== *)
(** * The growth of the BFC allocator and its clients

    [Extend] and [AllocateRawInternal] on an allocator whose pool represents a
    heap, for any sub-allocator that keeps the class [SubAllocatorLaws].  A client
    is a sequence of operations that frees only what it was given; [reachable] are
    the states such clients lead to, with the pointers that are in use.  The
    theorems say what such a client relies on: memory of its own, no failed check,
    exact statistics, memory that is whole again when all of it is free. *)
From S2P Require Import Prelude BFCAllocator BFCHeap.

Open Scope Z_scope.

(** ** Rounding *)

Lemma RoundedBytes_val n :
  0 <= n <= 2 ^ 64 - 256 → RoundedBytes n = 256 * ((n + 255) / 256).
Proof.
  intros Hn. unfold RoundedBytes, kMinAllocationSize.
  rewrite (u64_small (n + 256 - 1)) by (unfold is_u64; lia). replace (n + 256 - 1) with (n + 255) by lia.
  apply u64_small. unfold is_u64. Z.to_euclidean_division_equations. lia.
Qed.

(** The least multiple of 256 that is not below [n]. *)
Lemma RoundedBytes_spec n :
  0 <= n <= 2 ^ 64 - 256 → n <= RoundedBytes n < n + 256 ∧ (256 | RoundedBytes n).
Proof.
  intros Hn. rewrite RoundedBytes_val by done. split; [Z.to_euclidean_division_equations; lia|].
  apply Z.divide_factor_l.
Qed.

Lemma RoundedBytes_least n k : 0 <= n <= 2 ^ 64 - 256 → n <= 256 * k → RoundedBytes n <= 256 * k.
Proof. intros Hn Hk. rewrite RoundedBytes_val by done. Z.to_euclidean_division_equations. lia. Qed.

(** ** The product with the backpedal factor *)

(** Rounding to 24 digits adds at most a [2 ^ 24]th. *)
Lemma round_float_bound z : 0 <= z → 0 <= round_float z ∧ round_float z * 2 ^ 24 <= z * (2 ^ 24 + 1).
Proof.
  intros Hz. unfold round_float. destruct (Z.ltb_spec z (2 ^ 24)) as [|Hge]; [lia|].
  set (s := Z.log2 z - 23). assert (Hs : 1 <= s).
  { pose proof (Z.log2_le_mono _ _ Hge) as Hl. change (Z.log2 (2 ^ 24)) with 24 in Hl. lia. }
  rewrite Z.shiftl_mul_pow2, Z.shiftr_div_pow2 by lia.
  assert (Hp : 2 ^ s = 2 * 2 ^ (s - 1)).
  { rewrite <-(Z.pow_succ_r 2 (s - 1)) by lia. f_equal. lia. }
  assert (Hbig : 2 ^ 23 * 2 ^ s <= z).
  { rewrite <-Z.pow_add_r by lia. replace (23 + s) with (Z.log2 z) by lia. apply Z.log2_spec. lia. }
  pose proof (Z.pow_pos_nonneg 2 (s - 1)) as Hpos.
  pose proof (Z.div_mod z (2 ^ s)) as Hdm. pose proof (Z.mod_pos_bound z (2 ^ s)) as Hmb.
  pose proof (Z.div_pos z (2 ^ s)) as Hdp.
  set (q := z / 2 ^ s) in *. set (r := z mod 2 ^ s) in *. set (w := 2 ^ (s - 1)) in *. rewrite Hp in *.
  destruct ((w <? r) || (r =? w) && Z.odd q) eqn:Hc.
  - assert (w <= r) by lia. split; [nia|]. nia.
  - split; nia.
Qed.

(** The product is at least an eleventh below the size, up to its rounding. *)
Lemma times_backpedal_factor_bound b :
  0 <= b → 0 <= times_backpedal_factor b ∧ times_backpedal_factor b * 2 ^ 72 <= b * (2 ^ 24 + 1) ^ 2 * 15099494.
Proof.
  intros Hb. unfold times_backpedal_factor. rewrite Z.shiftr_div_pow2 by done.
  destruct (round_float_bound b Hb) as [H1 H2]. set (f := round_float b) in *.
  destruct (round_float_bound (f * 15099494)) as [H3 H4]; [lia|]. set (g := round_float (f * 15099494)) in *.
  split; [apply Z.div_pos; lia|]. pose proof (Z.mul_div_le g (2 ^ 24)). nia.
Qed.

Lemma round_float_lower z : 0 <= z → z * (2 ^ 24 - 1) <= round_float z * 2 ^ 24.
Proof.
  intros Hz. unfold round_float. destruct (Z.ltb_spec z (2 ^ 24)) as [|Hge]; [lia|].
  set (s := Z.log2 z - 23). assert (Hs : 1 <= s).
  { pose proof (Z.log2_le_mono _ _ Hge) as Hl. change (Z.log2 (2 ^ 24)) with 24 in Hl. lia. }
  rewrite Z.shiftl_mul_pow2, Z.shiftr_div_pow2 by lia.
  assert (Hp : 2 ^ s = 2 * 2 ^ (s - 1)).
  { rewrite <-(Z.pow_succ_r 2 (s - 1)) by lia. f_equal. lia. }
  assert (Hbig : 2 ^ 23 * 2 ^ s <= z).
  { rewrite <-Z.pow_add_r by lia. replace (23 + s) with (Z.log2 z) by lia. apply Z.log2_spec. lia. }
  pose proof (Z.pow_pos_nonneg 2 (s - 1)) as Hpos.
  pose proof (Z.div_mod z (2 ^ s)) as Hdm. pose proof (Z.mod_pos_bound z (2 ^ s)) as Hmb.
  set (q := z / 2 ^ s) in *. set (r := z mod 2 ^ s) in *. set (w := 2 ^ (s - 1)) in *. rewrite Hp in *.
  destruct ((w <? r) || (r =? w) && Z.odd q) eqn:Hc; [nia|].
  assert (r <= w) by lia. nia.
Qed.

Lemma times_backpedal_factor_lower b :
  0 <= b → b * (2 ^ 24 - 1) ^ 2 * 15099494 < (times_backpedal_factor b + 1) * 2 ^ 72.
Proof.
  intros Hb. unfold times_backpedal_factor. rewrite Z.shiftr_div_pow2 by done.
  destruct (round_float_bound b Hb) as [H1 _]. pose proof (round_float_lower b Hb) as H2.
  set (f := round_float b) in *. pose proof (round_float_lower (f * 15099494)) as H4.
  set (g := round_float (f * 15099494)) in *. pose proof (Z.mul_succ_div_gt g (2 ^ 24)). nia.
Qed.

(** One round of backpedalling, in units of 256 bytes. *)
Definition backpedal_size (b : Z) : Z := RoundedBytes (times_backpedal_factor b).

Lemma backpedal_size_units k :
  0 <= k < 2 ^ 31 → ∃ k', backpedal_size (256 * k) = 256 * k' ∧ 0 <= k' <= k
    ∧ (10 <= k → 20 * (k' - 9) <= 19 * (k - 9)) ∧ (9 <= k → 9 <= k').
Proof.
  intros Hk. destruct (times_backpedal_factor_bound (256 * k)) as [H0 H1]; [lia|].
  pose proof (times_backpedal_factor_lower (256 * k)) as H2. unfold backpedal_size.
  set (t := times_backpedal_factor (256 * k)) in *. rewrite RoundedBytes_val by lia.
  exists ((t + 255) / 256). split; [done|]. clearbody t.
  assert (t <= 256 * k) by lia. split; [Z.to_euclidean_division_equations; lia|].
  split; Z.to_euclidean_division_equations; lia.
Qed.

(** Below ten units nothing changes any more. *)
Lemma backpedal_size_stuck k : 0 <= k <= 9 → backpedal_size (256 * k) = 256 * k.
Proof.
  intros Hk. assert (k = 0 ∨ k = 1 ∨ k = 2 ∨ k = 3 ∨ k = 4 ∨ k = 5 ∨ k = 6 ∨ k = 7 ∨ k = 8 ∨ k = 9) as H by lia.
  repeat (destruct H as [-> | H]; [reflexivity|]). subst k. reflexivity.
Qed.

Section Backpedal.
Context {S : Type} `{!SubAllocator S}.
Implicit Types a : BFCAllocator S.

(** The loop ends for requests of more than 2304 bytes. *)
Lemma backpedal_ends n rounded k a :
  2304 < rounded → 0 <= k < 2 ^ 31 → (k - 9) * 19 ^ Z.of_nat n < 20 ^ Z.of_nat n →
  ∀ fuel, (n < fuel)%nat → ∃ x a', backpedal fuel rounded (256 * k) a = inr (x, a').
Proof.
  intros Hr. revert k a. induction n as [|n IH]; intros k a Hk Hn [|fuel] Hf; [lia| |lia|];
    cbn [backpedal]; fold (backpedal_size (256 * k));
    destruct (backpedal_size_units k Hk) as (k'&Hk'&Hr'&Hdec&_); rewrite Hk'.
  - rewrite (proj2 (Z.ltb_lt _ _)) by lia. by eexists _, _.
  - destruct (Z.ltb_spec (256 * k') rounded) as [|Hge]; [by eexists _, _|].
    unfold mbind, Act_bind, sub_alloc. destruct (Alloc 32 (256 * k') (suballocator_ a)) as [p s].
    destruct (p =? nullptr); [|by eexists _, _]. apply IH; [lia| |lia].
    specialize (Hdec ltac:(lia)). rewrite !Nat2Z.inj_succ, !Z.pow_succ_r in Hn by lia.
    assert (Hpos : 0 < 19 ^ Z.of_nat n) by (apply Z.pow_pos_nonneg; lia).
    apply (Z.mul_le_mono_nonneg_r _ _ (19 ^ Z.of_nat n)) in Hdec; lia.
Qed.

(** It does not end for smaller ones while the sub-allocator refuses. *)
Lemma backpedal_stuck rounded k a :
  (∀ n s, Alloc 32 n s = (nullptr, s)) → 0 <= k < 2 ^ 31 → rounded <= 256 * k → rounded <= 2304 →
  ∀ fuel, backpedal fuel rounded (256 * k) a = inl NoFuel.
Proof.
  intros Hno Hk Hr Hr9 fuel. revert k a Hk Hr. induction fuel as [|fuel IH]; intros k a Hk Hr; [done|].
  cbn [backpedal]. fold (backpedal_size (256 * k)).
  destruct (backpedal_size_units k Hk) as (k'&Hk'&Hr'&_&Hlow). rewrite Hk'.
  assert (rounded <= 256 * k').
  { destruct (decide (9 <= k)) as [?%Hlow|]; [lia|]. rewrite backpedal_size_stuck in Hk' by lia. lia. }
  rewrite (proj2 (Z.ltb_ge _ _)) by done. unfold mbind, Act_bind, sub_alloc. rewrite Hno.
  cbn [Z.eqb nullptr]. apply IH; lia.
Qed.

Lemma backpedal_fault fuel rounded b a e : backpedal fuel rounded b a = inl e → e = NoFuel.
Proof.
  revert b a. induction fuel as [|fuel IH]; intros b a; cbn [backpedal]; [by intros [= ->]|].
  destruct (_ <? _); [done|]. unfold mbind, Act_bind, sub_alloc. destruct (Alloc _ _ _) as [p s].
  destruct (p =? nullptr); [apply IH | done].
Qed.

(** What it returns. *)
Lemma backpedal_result `{!SubAllocatorLaws S} fuel rounded k a p bytes a' :
  0 < rounded → 0 <= k < 2 ^ 31 → backpedal fuel rounded (256 * k) a = inr ((p, bytes), a') →
  a' = set_suballocator (suballocator_ a') a
  ∧ (p = nullptr ∧ owned (suballocator_ a') = owned (suballocator_ a)
     ∨ p ≠ nullptr ∧ rounded <= bytes <= 256 * k ∧ (256 | bytes) ∧ 0 < p ∧ p + bytes < 2 ^ 64
       ∧ owned (suballocator_ a') = (p, bytes) :: owned (suballocator_ a)
       ∧ Forall (λ '(q, m), q + m <= p ∨ p + bytes <= q) (owned (suballocator_ a))).
Proof.
  intros Hr. revert k a. induction fuel as [|fuel IH]; intros k a Hk; cbn [backpedal]; [done|].
  fold (backpedal_size (256 * k)). destruct (backpedal_size_units k Hk) as (k'&Hk'&Hr'&_). rewrite Hk'.
  destruct (Z.ltb_spec (256 * k') rounded) as [|Hge].
  - intros [= <- _ <-]. split; [by destruct a|]. by left.
  - unfold mbind, Act_bind, sub_alloc. destruct (Alloc 32 (256 * k') (suballocator_ a)) as [q s] eqn:Hal.
    destruct (Z.eqb_spec q nullptr) as [-> | Hne].
    + intros Hrun. destruct (IH k' _ ltac:(lia) Hrun) as [Ha' Hcase]. cbn [suballocator_ set_suballocator] in *.
      rewrite (Alloc_null _ _ _ _ Hal) in Hcase. split; [by rewrite Ha'|].
      destruct Hcase as [?|(?&?&?)]; [by left|]. right. split_and!; try done; try lia; tauto.
    + intros [= <- <- <-]. destruct (Alloc_owned 32 (256 * k') _ _ _ ltac:(lia) Hal Hne) as (Ho&Hp&Hhi&Hap).
      cbn [suballocator_ set_suballocator]. split; [done|]. right.
      split_and!; try done; try lia. apply Z.divide_factor_l.
Qed.
End Backpedal.

(** ** Adding a region *)

Definition clear_of (p bytes : Z) (g : Z * list (nat * Block)) : Prop :=
  g.1 + extent g.2 <= p ∨ p + bytes <= g.1.

Lemma upper_bound_split R G p bytes :
  Forall2 region_ok R G → StronglySorted apart G → 0 < bytes → Forall (clear_of p bytes) G →
  Forall (λ r, end_ptr_ r <= p) (take (upper_bound p R) R)
  ∧ Forall (λ g, g.1 + extent g.2 <= p) (take (upper_bound p R) G)
  ∧ Forall (λ g, p + bytes <= g.1) (drop (upper_bound p R) G).
Proof.
  intros HR. induction HR as [|r g R G Hok HR IH]; intros Hs Hb Hc; [by split_and!|].
  apply StronglySorted_inv in Hs as [Hs Ha]. apply Forall_cons in Hc as [Hg Hc]. cbn [upper_bound].
  rewrite (ro_end _ _ Hok). pose proof (extent_nonneg _ (ro_good _ _ Hok)) as He.
  destruct (Z.ltb_spec p (g.1 + extent g.2)) as [Hlt | Hge]; cbn [take drop].
  - split_and!; [done | done |]. constructor; [destruct Hg; lia|]. apply Forall_forall. intros g' Hg'.
    rewrite Forall_forall in Hc, Ha. specialize (Hc _ Hg'). specialize (Ha _ Hg'). unfold apart, clear_of in *.
    destruct Hc as [Hc | Hc]; [|done].
    apply list_elem_of_lookup_1 in Hg' as [i Hi]. destruct (Forall2_lookup_r _ _ _ _ _ HR Hi) as (r'&_&Hok').
    pose proof (extent_nonneg _ (ro_good _ _ Hok')). lia.
  - destruct (IH Hs Hb Hc) as (H1&H2&H3). split_and!; [constructor; [|done] | constructor; done | done].
    by rewrite (ro_end _ _ Hok).
Qed.

Lemma apart_insert G1 g G2 :
  StronglySorted apart (G1 ++ G2) → Forall (λ g', apart g' g) G1 → Forall (apart g) G2 →
  StronglySorted apart (G1 ++ g :: G2).
Proof.
  intros (H1&H2&H3)%StronglySorted_app Ha Hb. rewrite Forall_forall in Ha.
  apply StronglySorted_app. split_and!; [|done|by constructor].
  intros x y Hx [-> | Hy]%elem_of_cons; [by apply Ha | by apply H1].
Qed.

Lemma new_region_ok p bytes h :
  0 < p → p + bytes < 2 ^ 64 → 0 < bytes < 2 ^ 39 → (256 | bytes) →
  region_ok (set_handles (<[0%nat := Some h]> (handles_ (new_AllocationRegion p bytes)))
               (new_AllocationRegion p bytes)) (p, [(h, mkBlock bytes Loose)]).
Proof.
  intros Hp Hhi Hb [k Hk].
  assert (Hn : u64 (bytes + kMinAllocationSize - 1) / kMinAllocationSize = k).
  { unfold kMinAllocationSize. rewrite u64_small by (unfold is_u64; lia). subst bytes.
    Z.to_euclidean_division_equations. lia. }
  unfold new_AllocationRegion. rewrite Hn.
  constructor; cbn [fst snd set_handles ptr_ memory_size_ end_ptr_ handles_ extent b_size]; rewrite ?Z.add_0_r;
    try done; try lia.
  - repeat constructor; cbn; [lia|]. by exists k.
  - rewrite length_insert, length_replicate, Hk, Z.div_mul by done. lia.
  - intros i h'. cbn [placed]. setoid_rewrite list_elem_of_singleton.
    destruct i as [|i].
    + rewrite list_lookup_insert_eq by (rewrite length_replicate; lia). cbn [Z.of_nat]. rewrite Z.mul_0_r, Z.add_0_r.
      split; [intros [= <-]; by eexists | by intros (b&[= -> _])].
    + rewrite list_lookup_insert_ne by done. split.
      * intros [? _]%lookup_replicate. done.
      * intros (b&Hx). injection Hx. lia.
Qed.

Lemma AllocateChunk_regions st h st' R :
  AllocateChunk st = inr (h, st') → AllocateChunk (set_regions R st) = inr (h, set_regions R st').
Proof.
  unfold AllocateChunk, mbind, Act_bind, get, modify, mret, Act_ret, ChunkFromHandle. cbn.
  destruct (free_chunks_list_ st) as [x|]; cbn; [|by intros [= <- <-]].
  destruct (chunks_ st !! x); [by intros [= <- <-] | done].
Qed.

(** The chunk of a new region. *)
Definition region_table (cs : list Chunk) (h : nat) (p bytes : Z) : list Chunk :=
  alter (set_next None) h (alter (set_prev None) h (alter (set_allocation_id (-1)) h
    (alter (set_size bytes) h (alter (set_ptr p) h cs)))).

Lemma add_region_run st st1 h c R1 R2 p bytes :
  AllocateChunk st = inr (h, st1) → chunks_ st1 !! h = Some c →
  take (upper_bound p (regions_ st)) (regions_ st) = R1 →
  drop (upper_bound p (regions_ st)) (regions_ st) = R2 →
  Forall (λ r, end_ptr_ r <= p) R1 → 0 < bytes < 2 ^ 64 - 256 →
  add_region p bytes st = InsertFreeChunkIntoBin h
    (set_regions (R1 ++ set_handles (<[0%nat := Some h]> (handles_ (new_AllocationRegion p bytes)))
                          (new_AllocationRegion p bytes) :: R2)
       (set_chunks (region_table (chunks_ st1) h p bytes) st1)).
Proof.
  intros Ha Hc H1 H2 Hend Hb. unfold add_region, AddAllocationRegion. step_get. rewrite H1, H2.
  step by (AllocateChunk_regions _ _ _ _ Ha).
  assert (Hlt : (h < length (chunks_ st1))%nat) by (by eapply lookup_lt_Some).
  repeat (erewrite bind_run by (apply update_alter; cbn; lookups; done)).
  erewrite bind_run by (apply chunk_run; cbn; lookups; rewrite Hc; reflexivity). cbn [c_ptr set_next set_prev set_allocation_id set_size set_ptr].
  assert (Hset : ∀ st', regions_ st' = R1 ++ new_AllocationRegion p bytes :: R2 →
    set_handle p (Some h) st' = inr ((), set_regions (R1 ++ set_handles (<[0%nat := Some h]>
      (handles_ (new_AllocationRegion p bytes))) (new_AllocationRegion p bytes) :: R2) st')).
  { intros st' Hst'. unfold set_handle, RegionFor, mbind, Act_bind, get. rewrite Hst'.
    rewrite upper_bound_app by (done || cbn; lia). rewrite list_lookup_middle by done. unfold mret, Act_ret.
    assert (Hi : IndexFor (new_AllocationRegion p bytes) p = 0).
    { unfold IndexFor, new_AllocationRegion. cbn [ptr_]. by rewrite Z.sub_diag. }
    rewrite Hi. assert (Hl : 0 < Z.of_nat (length (handles_ (new_AllocationRegion p bytes)))).
    { cbn [handles_ new_AllocationRegion]. rewrite length_replicate. unfold kMinAllocationSize.
      rewrite u64_small by (unfold is_u64; lia). Z.to_euclidean_division_equations. lia. }
    rewrite (proj2 (Z.leb_gt _ _) Hl). cbn [Z.ltb Z.compare orb]. unfold modify. rewrite Hst'.
    by rewrite insert_app_r_alt, Nat.sub_diag by lia. }
  erewrite bind_run by (apply Hset; done). done.
Qed.

Fixpoint insert_region (p bytes : Z) (H : Heap) : Heap :=
  match H with
  | [] => [(p, [idle bytes])]
  | r :: H' => if p <? r.1 then (p, [idle bytes]) :: H else r :: insert_region p bytes H'
  end.

Lemma insert_region_app p bytes G1 G2 (h : nat) :
  Forall (λ g, g.1 <= p) G1 → Forall (λ g, p < g.1) G2 →
  heap_of (G1 ++ (p, [(h, idle bytes)]) :: G2) = insert_region p bytes (heap_of (G1 ++ G2)).
Proof.
  intros H1 H2. induction H1 as [|g G1 Hg _ IH].
  - destruct H2 as [|g G2 Hg _]; [done|]. unfold heap_of. cbn [app fmap list_fmap insert_region fst].
    by rewrite (proj2 (Z.ltb_lt _ _) Hg).
  - unfold heap_of in *. cbn [app]. rewrite !fmap_cons, IH. cbn [insert_region fst].
    by rewrite (proj2 (Z.ltb_ge _ _) Hg).
Qed.

Lemma add_region_ok st G fl p bytes :
  rep st G fl → 0 < p → p + bytes < 2 ^ 64 → 0 < bytes < 2 ^ 39 → (256 | bytes) →
  Forall (clear_of p bytes) G →
  ∃ st' G1 G2 h fl', add_region p bytes st = inr ((), st') ∧ G = G1 ++ G2
    ∧ rep st' (G1 ++ (p, [(h, idle bytes)]) :: G2) fl' ∧ same_counters st st'
    ∧ heap_of (G1 ++ (p, [(h, idle bytes)]) :: G2) = insert_region p bytes (heap_of G).
Proof.
  intros Hr Hp Hhi Hb Hd Hcl. pose proof (rep_regions _ _ _ Hr) as HR.
  destruct (upper_bound_split _ _ p bytes HR (rep_apart _ _ _ Hr) ltac:(lia) Hcl) as (E1&E2&E3).
  set (k := upper_bound p (regions_ st)) in *.
  assert (HG : G = take k G ++ drop k G) by (by rewrite take_drop). remember (take k G) as G1 eqn:HG1.
  remember (drop k G) as G2 eqn:HG2.
  destruct (AllocateChunk_run _ _ _ Hr) as (h&c&fl'&st1&Ha&Hc&Hbn&Hf&Hperm&Hsame&ER&EB&ES).
  rewrite (add_region_run _ _ _ _ _ _ _ bytes Ha Hc eq_refl eq_refl) by (done || lia). fold k.
  assert (Hcells : cells (G1 ++ (p, [(h, mkBlock bytes Loose)]) :: G2)
    = cells G1 ++ [(h, p, mkBlock bytes Loose)] ++ cells G2) by (rewrite cells_focus; done).
  assert (HcG : cells G = cells G1 ++ cells G2) by (rewrite HG; apply bind_app).
  destruct (fresh_handle _ _ _ _ Hperm) as (Hh&Hhf&Hlt).
  assert (Hoth : ∀ x, x ≠ h → region_table (chunks_ st1) h p bytes !! x = chunks_ st1 !! x).
  { intros x Hx. unfold region_table. by lookups. }
  set (st2 := set_regions _ _).
  assert (Hr2 : rep st2 (G1 ++ (p, [] ++ (h, mkBlock bytes Loose) :: []) :: G2) fl').
  { subst st2. constructor; cbn [regions_ set_regions set_chunks chunks_ free_chunks_list_ bins_ app].
    - apply regions_replace; [| by apply new_region_ok |]; rewrite ?HG1, ?HG2; [by apply Forall2_take | by apply Forall2_drop].
    - apply apart_insert; [by rewrite <-HG; apply Hr | done |].
      eapply Forall_impl; [exact E3|]. unfold apart. cbn. intros. lia.
    - assert (Hsegs : Forall (λ g, seg (region_table (chunks_ st1) h p bytes) None g.1 g.2 None) G).
      { eapply segs_frame; [|apply Hr]. intros x Hx. rewrite Hoth by (by intros ->). by apply Hsame. }
      rewrite HG in Hsegs. apply Forall_app in Hsegs as [Hs1 Hs2]. apply Forall_app. split; [done|].
      constructor; [|done]. apply seg_cons. split; [|done]. eexists. split.
      { unfold region_table. lookups. by rewrite Hc. }
      by split_and!.
    - eapply flist_frame; [|exact Hf]. intros x Hx. apply Hoth. by intros ->.
    - unfold region_table. lookups. rewrite Hcells, <-Hperm, HcG, !fmap_app. cbn [fmap list_fmap]. rewrite <-!app_assoc.
      cbn [app]. change (cell_h (h, p, mkBlock bytes Loose)) with h. solve_Permutation.
    - rewrite EB. pose proof (rep_bins _ _ _ Hr) as Hbins. rewrite HcG in Hbins. rewrite Hcells.
      change (cells G1 ++ cells G2) with (cells G1 ++ [] ++ cells G2) in Hbins.
      eapply bins_ok_middle; [| |exact Hbins]; repeat constructor; done. }
  destruct (InsertFreeChunkIntoBin_ok _ _ _ _ _ _ _ _ _ Hr2) as (st'&Hrun&Hr'&Hsc).
  exists st', G1, G2, h, fl'. split_and!; try done.
  - destruct ES, Hsc. split; cbn in *; congruence.
  - rewrite HG at 1. apply insert_region_app.
    + rewrite Forall_forall in E2 |- *. intros g Hg. specialize (E2 g Hg).
      pose proof (rep_good _ _ _ Hr) as Hgood. rewrite Forall_forall in Hgood.
      pose proof (extent_nonneg _ (Hgood g ltac:(rewrite HG; apply elem_of_app; by left))). lia.
    + eapply Forall_impl; [exact E3|]. cbn. intros. lia.
Qed.

(** ** The invariant of the allocator *)

Fixpoint region_total (G : Layout) : Z :=
  match G with [] => 0 | g :: G => extent g.2 + region_total G end.

(** The size of the next region stays far below the width of [size_t]: it
    doubles only while regions of that size fit. *)
Definition curr_bound (limit total curr : Z) (backpedalled : bool) : Prop :=
  curr <= 8 * (limit + 256)
  ∧ (limit - total < 256 ∨ curr <= (if backpedalled then 4 else 2) * (limit + 256)).

Record Inv {S} `{!SubAllocator S, !SubAllocatorLaws S} (a : BFCAllocator S) (G : Layout) (fl : list nat)
    : Prop := {
  inv_rep : rep (pool a) G fl;
  inv_calm : calm G;
  inv_limit : 0 <= memory_limit_ a < 2 ^ 39;
  inv_total : total_region_allocated_bytes_ a = region_total G;
  inv_within : region_total G <= memory_limit_ a;
  inv_units : (256 | curr_region_allocation_bytes_ a);
  inv_curr : (0 < memory_limit_ a → 0 < curr_region_allocation_bytes_ a) ∧ 0 <= curr_region_allocation_bytes_ a;
  inv_bound : curr_bound (memory_limit_ a) (region_total G) (curr_region_allocation_bytes_ a) (started_backpedal_ a);
  inv_owned : owned (suballocator_ a) ≡ₚ (λ g, (g.1, extent g.2)) <$> G;
}.

Lemma region_total_app G1 G2 : region_total (G1 ++ G2) = region_total G1 + region_total G2.
Proof. induction G1 as [|g G1 IH]; cbn [region_total app]; lia. Qed.

Lemma region_total_nonneg G : Forall good_region G → 0 <= region_total G.
Proof. induction 1 as [|g G Hg _ IH]; cbn [region_total]; [lia|]. pose proof (extent_nonneg _ Hg). lia. Qed.

Lemma double_until_ok fuel rounded curr inc :
  0 < curr → rounded <= curr * 2 ^ Z.of_nat fuel → 2 * rounded < 2 ^ 64 → (256 | curr) →
  ∃ curr' inc', double_until fuel rounded curr inc = inr (curr', inc') ∧ rounded <= curr' ∧ (256 | curr')
    ∧ curr <= curr' ∧ (inc' = inc ∧ curr' = curr ∨ inc' = true ∧ curr' < 2 * rounded).
Proof.
  revert curr inc. induction fuel as [|fuel IH]; intros curr inc Hc Hr Hw Hd; cbn [double_until].
  - rewrite (proj2 (Z.ltb_ge _ _)) by (cbn in Hr; lia). exists curr, inc. split; [done|].
    cbn in Hr. split_and!; [lia | done | lia | by left].
  - destruct (Z.ltb_spec curr rounded) as [Hlt | Hge].
    + rewrite u64_small by (unfold is_u64; lia).
      rewrite Nat2Z.inj_succ, Z.pow_succ_r in Hr by lia.
      destruct (IH (curr * 2) true) as (curr'&inc'&Hrun&H1&H2&H3&H4); [lia | lia | done | by apply Z.divide_mul_l |].
      exists curr', inc'. split; [done|]. split_and!; [done | done | lia |]. right.
      destruct H4 as [[-> ->] | [-> ?]]; split; done || lia.
    + exists curr, inc. split_and!; [done | lia | done | lia | by left].
Qed.

Section Extend.
Context {S : Type} `{!SubAllocator S, !SubAllocatorLaws S}.
Implicit Types a : BFCAllocator S.

(** What is left of the limit, in whole units. *)
Definition available a : Z :=
  (memory_limit_ a - total_region_allocated_bytes_ a) / 256 * 256.

Lemma available_ok a G fl :
  Inv a G fl →
  u64 (u64 (memory_limit_ a - total_region_allocated_bytes_ a) / kMinAllocationSize * kMinAllocationSize)
  = available a ∧ 0 <= available a <= memory_limit_ a - region_total G ∧ (256 | available a)
  ∧ memory_limit_ a - region_total G < available a + 256.
Proof.
  intros Hi. pose proof (inv_limit _ _ _ Hi). pose proof (inv_within _ _ _ Hi). unfold available, kMinAllocationSize.
  pose proof (region_total_nonneg _ (rep_good _ _ _ (inv_rep _ _ _ Hi))). rewrite (inv_total _ _ _ Hi).
  rewrite (u64_small (memory_limit_ a - region_total G)) by (unfold is_u64; lia).
  split; [apply u64_small; unfold is_u64; Z.to_euclidean_division_equations; lia|].
  split; [Z.to_euclidean_division_equations; lia|]. split; [apply Z.divide_factor_r|].
  Z.to_euclidean_division_equations; lia.
Qed.

(** The regions are where the sub-allocator's pieces are. *)
Lemma owned_clear a G fl p bytes :
  Inv a G fl → Forall (λ '(q, m), q + m <= p ∨ p + bytes <= q) (owned (suballocator_ a)) →
  Forall (clear_of p bytes) G.
Proof. intros Hi. rewrite (inv_owned _ _ _ Hi), Forall_fmap. by intros H. Qed.

(** The end of [Extend], once memory has been obtained. *)
Definition finish_extend (increased : bool) (curr mem_addr bytes : Z) : Act (BFCAllocator S) bool :=
  (if negb increased then modify (set_curr (u64 (curr * 2))) else mret ()) ;;
  total ← get total_region_allocated_bytes_;
  modify (set_total (u64 (total + bytes))) ;;
  on_pool (add_region mem_addr bytes) ;;
  modify (λ a, set_visits (visits a ++ ((λ v, (v, mem_addr, bytes)) <$> region_visitors_ a)) a) ;;
  mret true.

(** The outcome of an extension by the region at [p]. *)
Definition extended a a' G p bytes : Prop :=
  ∃ G' fl', Inv a' G' fl' ∧ heap_of G' = insert_region p bytes (heap_of G)
    ∧ same_counters (pool a) (pool a') ∧ region_visitors_ a' = region_visitors_ a
    ∧ visits a' = visits a ++ ((λ v, (v, p, bytes)) <$> region_visitors_ a)
    ∧ memory_limit_ a' = memory_limit_ a ∧ owned (suballocator_ a') = (p, bytes) :: owned (suballocator_ a).

Lemma finish_extend_ok a a1 G fl inc curr p bytes :
  Inv a G fl →
  a1 = mkBFC (memory_limit_ a) curr (total_region_allocated_bytes_ a) (started_backpedal_ a1) (suballocator_ a1)
             (pool a) (region_visitors_ a) (visits a) →
  0 < bytes <= available a → (256 | bytes) → (256 | curr) → 0 < curr →
  (inc = false → curr = curr_region_allocation_bytes_ a) → curr <= 8 * (memory_limit_ a + 256) →
  (inc = true → curr <= 2 * (memory_limit_ a + 256)) →
  (started_backpedal_ a1 = started_backpedal_ a ∧ bytes = Z.min curr (available a)
   ∨ started_backpedal_ a1 = true ∧ started_backpedal_ a = false) →
  owned (suballocator_ a1) = (p, bytes) :: owned (suballocator_ a) → 0 < p → p + bytes < 2 ^ 64 →
  Forall (λ '(q, m), q + m <= p ∨ p + bytes <= q) (owned (suballocator_ a)) →
  ∃ a', finish_extend inc curr p bytes a1 = inr (true, a') ∧ extended a a' G p bytes.
Proof.
  intros Hi Ha1 Hb Hbd Hcd Hc Hinc Hc8 Hc2 Hbp Hown Hp Hhi Hcl.
  destruct (available_ok _ _ _ Hi) as (_&Hav&Havd&Hav2). pose proof (inv_limit _ _ _ Hi) as Hlim.
  pose proof (inv_within _ _ _ Hi). pose proof (region_total_nonneg _ (rep_good _ _ _ (inv_rep _ _ _ Hi))).
  pose proof (owned_clear _ _ _ _ _ Hi Hcl) as Hcl'.
  destruct (add_region_ok _ _ _ p bytes (inv_rep _ _ _ Hi)) as (st'&G1&G2&h&fl'&Hrun&HG&Hr'&Hsc&Hh);
    [done | done | lia | done | done |].
  set (curr' := if inc then curr else u64 (curr * 2)).
  assert (Hcurr' : curr' = if inc then curr else curr * 2).
  { subst curr'. destruct inc; [done|]. apply u64_small. unfold is_u64. lia. }
  exists (mkBFC (memory_limit_ a) curr' (region_total G + bytes) (started_backpedal_ a1) (suballocator_ a1) st'
            (region_visitors_ a) (visits a ++ ((λ v, (v, p, bytes)) <$> region_visitors_ a))).
  split.
  - unfold finish_extend. rewrite Ha1. unfold on_pool, mbind, Act_bind, get, modify, mret, Act_ret.
    assert (Htot : u64 (total_region_allocated_bytes_ a + bytes) = region_total G + bytes).
    { rewrite (inv_total _ _ _ Hi). apply u64_small. unfold is_u64. lia. }
    destruct inc; cbn; rewrite Hrun, Htot; done.
  - exists (G1 ++ (p, [(h, idle bytes)]) :: G2), fl'.
    assert (Hrt : region_total (G1 ++ (p, [(h, idle bytes)]) :: G2) = region_total G + bytes).
    { rewrite HG, !region_total_app. cbn [region_total snd extent b_size idle]. lia. }
    split_and!; try done. constructor; cbn [pool memory_limit_ total_region_allocated_bytes_ curr_region_allocation_bytes_ started_backpedal_ suballocator_]; rewrite ?Hrt.
    + done.
    + pose proof (inv_calm _ _ _ Hi) as Hcalm. rewrite HG in Hcalm. apply Forall_app in Hcalm as [? ?].
      apply Forall_app. split; [done|]. constructor; [|done]. cbn. repeat constructor; done.
    + done.
    + done.
    + lia.
    + rewrite Hcurr'. destruct inc; [done|]. by apply Z.divide_mul_l.
    + rewrite Hcurr'. destruct inc; lia.
    + rewrite Hcurr'. pose proof (inv_bound _ _ _ Hi) as [Hb8 Hb2]. destruct Havd as [ka Hka]. unfold curr_bound.
      clear Ha1 Hown. destruct Hbp as [[E Hbe]|[E E']]; rewrite E, ?E' in *; clear E;
        destruct inc; [specialize (Hc2 eq_refl)|specialize (Hinc eq_refl)|specialize (Hc2 eq_refl)|specialize (Hinc eq_refl)];
        try destruct (started_backpedal_ a); cbv beta iota in *; lia.
    + rewrite Hown, (inv_owned _ _ _ Hi), HG, !fmap_app, fmap_cons. cbn [fst snd extent b_size idle].
      rewrite Z.add_0_r. apply Permutation_middle.
Qed.

(** Changes that leave the pool alone keep the invariant. *)
Lemma inv_same a a' G fl :
  Inv a G fl → pool a' = pool a → memory_limit_ a' = memory_limit_ a →
  total_region_allocated_bytes_ a' = total_region_allocated_bytes_ a →
  (256 | curr_region_allocation_bytes_ a') → 0 < curr_region_allocation_bytes_ a' →
  curr_bound (memory_limit_ a) (region_total G) (curr_region_allocation_bytes_ a') (started_backpedal_ a') →
  owned (suballocator_ a') = owned (suballocator_ a) → Inv a' G fl.
Proof.
  intros [] E1 E2 E3 Hd Hc Hb Ho. constructor; rewrite ?E1, ?E2, ?E3, ?Ho; try done. lia.
Qed.

Definition kept a a' : Prop :=
  pool a' = pool a ∧ memory_limit_ a' = memory_limit_ a ∧ region_visitors_ a' = region_visitors_ a
  ∧ visits a' = visits a ∧ owned (suballocator_ a') = owned (suballocator_ a).

(** Why [Extend] gives up. *)
Definition refused a rounded : Prop :=
  memory_limit_ a - total_region_allocated_bytes_ a < rounded
  ∨ ∃ n s', rounded <= n ∧ Alloc 32 n (suballocator_ a) = (nullptr, s').

Definition backpedal_fuel : nat := 512.

Lemma backpedal_fuel_enough k : 0 <= k < 2 ^ 31 → (k - 9) * 19 ^ 511 < 20 ^ 511.
Proof.
  intros Hk. apply Z.le_lt_trans with (2 ^ 31 * 19 ^ 511); [|by vm_compute].
  apply Z.mul_le_mono_nonneg_r; [by vm_compute|]. lia.
Qed.

Lemma backpedal_total rounded b a fuel :
  2304 < rounded → 0 <= b < 2 ^ 39 → (256 | b) → (backpedal_fuel <= fuel)%nat →
  ∃ x a', backpedal fuel rounded b a = inr (x, a').
Proof.
  intros Hr Hb [k ->] Hf. rewrite (Z.mul_comm k).
  apply (backpedal_ends 511); [done | lia | by apply backpedal_fuel_enough; lia |].
  unfold backpedal_fuel in Hf. lia.
Qed.

(** What [Extend] does, whatever its outcome. *)
Definition extend_post a G fl rounded (out : Fault + bool * BFCAllocator S) : Prop :=
  match out with
  | inl e => e = NoFuel ∧ rounded <= 2304 ∧ started_backpedal_ a = false
  | inr (false, a') => Inv a' G fl ∧ kept a a' ∧ refused a rounded
  | inr (true, a') => ∃ p bytes, rounded <= bytes ∧ extended a a' G p bytes
  end.

(** What is known once the size of the region has been chosen. *)
Record chosen a G fl (rounded curr : Z) (inc : bool) : Prop := {
  ch_inv : Inv a G fl;
  ch_rounded : 0 < rounded <= available a;
  ch_enough : rounded <= curr;
  ch_units : (256 | curr);
  ch_small : curr <= 8 * (memory_limit_ a + 256);
  ch_inc : inc = true → curr <= 2 * (memory_limit_ a + 256);
  ch_same : inc = false → curr = curr_region_allocation_bytes_ a;
}.

Lemma choose_size a G fl rounded :
  Inv a G fl → 0 < rounded <= available a →
  ∃ curr inc, double_until 64 rounded (curr_region_allocation_bytes_ a) false = inr (curr, inc)
    ∧ chosen a G fl rounded curr inc.
Proof.
  intros Hi Hr. destruct (available_ok _ _ _ Hi) as (_&Havr&_). pose proof (inv_limit _ _ _ Hi).
  pose proof (region_total_nonneg _ (rep_good _ _ _ (inv_rep _ _ _ Hi))).
  destruct (inv_curr _ _ _ Hi) as [Hc _]. specialize (Hc ltac:(lia)).
  destruct (double_until_ok 64 rounded (curr_region_allocation_bytes_ a) false) as (curr&inc&Hdbl&Hrc&Hcd&Hcc&Hinc);
    [done | lia | lia | apply Hi |]. exists curr, inc. split; [done|].
  pose proof (inv_bound _ _ _ Hi) as [Hb8 _]. constructor; try done; [lia| |].
  - intros ->. destruct Hinc as [[? _]|?]; [done | lia].
  - intros ->. destruct Hinc as [?|[? _]]; [tauto | done].
Qed.

Lemma chosen_bound a G fl rounded curr inc bp :
  chosen a G fl rounded curr inc → (started_backpedal_ a = true → bp = true) →
  curr_bound (memory_limit_ a) (region_total G) curr bp.
Proof.
  intros [Hi Hr He Hd Hs Hc2 Hceq] Hbp. unfold curr_bound. pose proof (inv_bound _ _ _ Hi) as [Hb8 Hb2].
  pose proof (inv_limit _ _ _ Hi). destruct inc.
  - specialize (Hc2 eq_refl). destruct bp; lia.
  - specialize (Hceq eq_refl). subst curr. split; [done|]. destruct Hb2 as [?|?]; [by left|right].
    destruct (started_backpedal_ a); [rewrite Hbp by done; done|]. destruct bp; lia.
Qed.

(** Giving up: only the sub-allocator and the growth have changed. *)
Lemma null_result a G fl rounded curr inc bp s :
  chosen a G fl rounded curr inc → (started_backpedal_ a = true → bp = true) →
  owned s = owned (suballocator_ a) → refused a rounded →
  extend_post a G fl rounded
    (inr (false, set_suballocator s (set_backpedal bp (set_curr curr a)))).
Proof.
  intros Hch Hbp Ho Href. cbn [extend_post]. split_and!; [|done|done].
  eapply inv_same; [by apply Hch|..]; cbn; try done; [apply Hch| |by eapply chosen_bound].
  destruct Hch. lia.
Qed.

(** The first call of the sub-allocator was refused, and [Extend] backpedals. *)
Lemma backpedalled_ok a G fl rounded curr inc fuel s b :
  chosen a G fl rounded curr inc → started_backpedal_ a = false → rounded <= b <= available a → (256 | b) →
  owned s = owned (suballocator_ a) → refused a rounded → (backpedal_fuel <= fuel)%nat →
  extend_post a G fl rounded
    (('(q, m) ← backpedal fuel rounded b; if q =? nullptr then mret false else finish_extend inc curr q m)
       (set_suballocator s (set_backpedal true (set_curr curr a)))).
Proof.
  intros Hch Hstart Hb Hbd Hs Href Hfuel. set (a2 := set_suballocator _ _).
  destruct (available_ok _ _ _ (ch_inv _ _ _ _ _ _ Hch)) as (_&Havr&_). pose proof (ch_rounded _ _ _ _ _ _ Hch).
  pose proof (inv_limit _ _ _ (ch_inv _ _ _ _ _ _ Hch)).
  pose proof (region_total_nonneg _ (rep_good _ _ _ (inv_rep _ _ _ (ch_inv _ _ _ _ _ _ Hch)))).
  unfold mbind, Act_bind. destruct (backpedal fuel rounded b a2) as [e|[[q m] a3]] eqn:Hbp.
  - split_and!; [by eapply backpedal_fault| |done]. destruct (decide (2304 < rounded)) as [Hbig|]; [|lia].
    destruct (backpedal_total rounded b a2 fuel) as (x&a'&Hx); [done | lia | done | done |]. congruence.
  - destruct Hbd as [kb Hkb]. rewrite Hkb, (Z.mul_comm kb) in Hbp.
    destruct (backpedal_result fuel rounded kb _ _ _ _ ltac:(lia) ltac:(lia) Hbp) as [Ha3 Hcase].
    rewrite Ha3. destruct Hcase as [[-> Ho]|(Hq&Hm&Hmd&Hq0&Hqh&Ho&Hcl)].
    + apply (null_result _ _ _ _ _ inc true); try done. cbn in Ho. congruence.
    + rewrite (proj2 (Z.eqb_neq _ _) Hq). cbn [suballocator_ a2 set_suballocator] in Ho, Hcl. rewrite Hs in Ho, Hcl.
      pose proof Hch as [Hi ? ? ? ? ? ?].
      destruct (finish_extend_ok a (set_suballocator (suballocator_ a3) a2) G fl inc curr q m) as (a'&Hrun&Hex);
        try done; try lia; [by right|].
      rewrite Hrun. exists q, m. split; [lia | done].
Qed.

Lemma Extend_ok a G fl rounded fuel :
  Inv a G fl → 0 < rounded → (256 | rounded) → (backpedal_fuel <= fuel)%nat →
  extend_post a G fl rounded (Extend fuel rounded a).
Proof.
  intros Hi Hr Hd Hfuel. unfold Extend. step_get. step_get.
  destruct (available_ok _ _ _ Hi) as (Hav&Havr&Havd&_). rewrite Hav.
  destruct (Z.ltb_spec (available a) rounded) as [Hlt | Hge].
  { cbn [extend_post]. split_and!; try done. left. destruct Hd as [kr ->]. revert Hlt. unfold available.
    Z.to_euclidean_division_equations. lia. }
  step_get. destruct (choose_size _ _ _ rounded Hi) as (curr&inc&Hdbl&Hch); [lia|]. rewrite Hdbl. step_get.
  pose proof Hch as [_ _ He Hu Hs Hc2 Hceq]. set (b := Z.min curr (available a)).
  assert (Hbr : rounded <= b <= available a) by (subst b; lia).
  assert (Hbd : (256 | b)) by (subst b; destruct (Z.min_spec curr (available a)) as [[_ ->] | [_ ->]]; done).
  unfold mbind at 1, Act_bind at 1, sub_alloc.
  destruct (Alloc 32 b (suballocator_ (set_curr curr a))) as [p s] eqn:Hal. step_get.
  cbn [started_backpedal_ set_curr set_suballocator]. destruct (Z.eqb_spec p nullptr) as [-> | Hne].
  - pose proof (Alloc_null _ _ _ _ Hal) as Hown.
    assert (Href : refused a rounded) by (right; exists b, s; split; [lia | done]).
    destruct (started_backpedal_ a) eqn:Hstart; cbn [andb negb].
    + step_get. change nullptr with 0. cbn [Z.eqb].
      pose proof (null_result _ _ _ _ _ _ true s Hch ltac:(done) Hown Href) as Hg.
      unfold set_backpedal, set_suballocator, set_curr in *. cbn in Hg |- *. by rewrite Hstart.
    + pose proof (backpedalled_ok _ _ _ _ _ _ fuel s b Hch Hstart Hbr Hbd Hown Href Hfuel) as Hg. exact Hg.
  - cbn [andb]. step_get. cbv beta iota. rewrite (proj2 (Z.eqb_neq _ _) Hne).
    destruct (Alloc_owned 32 b _ _ _ ltac:(lia) Hal Hne) as (Ho&Hp&Hhi&Hcl).
    destruct (finish_extend_ok a (set_suballocator s (set_curr curr a)) G fl inc curr p b) as (a'&Hrun&Hex);
      try done; try lia; [by left|].
    unfold finish_extend in Hrun. rewrite Hrun. exists p, b. split; [lia | done].
Qed.
End Extend.

(** ** Clients *)

Inductive Op := OAlloc (num_bytes : Z) | OFree (p : Z) | OVisit (visitor : nat) | OClearStats.

Definition run_op {S} `{!SubAllocator S} (fuel : nat) (op : Op) : Act (BFCAllocator S) Z :=
  match op with
  | OAlloc n => AllocateRawInternal fuel n
  | OFree p => on_pool (DeallocateRawInternal p) ;; mret nullptr
  | OVisit v => AddAllocVisitor v ;; mret nullptr
  | OClearStats => on_pool ClearStats ;; mret nullptr
  end.

(** The pointers in use and the sizes asked for. *)
Definition live_after (op : Op) (r : Z) (live : list (Z * Z)) : list (Z * Z) :=
  match op with
  | OAlloc n => if r =? nullptr then live else (r, n) :: live
  | OFree p => filter (λ x, x.1 ≠ p) live
  | _ => live
  end.

(** A client asks for sizes that can be rounded and frees what it was given. *)
Definition allowed (live : list (Z * Z)) (op : Op) : Prop :=
  match op with
  | OAlloc n => 0 <= n <= 2 ^ 64 - 256
  | OFree p => p = nullptr ∨ p ∈ live.*1
  | _ => True
  end.

(** The abstract allocator: a heap and the next allocation id. *)
Inductive heap_step (H : Heap) (id : Z) : Op → Z → Heap → Z → Prop :=
  | step_zero : heap_step H id (OAlloc 0) nullptr H id
  | step_fit n p b H' :
      0 < n → take_block id n (RoundedBytes n) H = Some (p, b, H') →
      heap_step H id (OAlloc n) p H' (id + 1)
  | step_grow n q bytes p b H' :
      0 < n → take_block id n (RoundedBytes n) H = None → RoundedBytes n <= bytes →
      take_block id n (RoundedBytes n) (insert_region q bytes H) = Some (p, b, H') →
      heap_step H id (OAlloc n) p H' (id + 1)
  | step_none n :
      0 < n → take_block id n (RoundedBytes n) H = None → heap_step H id (OAlloc n) nullptr H id
  | step_free p s i req :
      (p, mkBlock s (Used i req)) ∈ spots H → heap_step H id (OFree p) nullptr (release_block p H) id
  | step_free_null : heap_step H id (OFree nullptr) nullptr H id
  | step_visit v : heap_step H id (OVisit v) nullptr H id
  | step_clear : heap_step H id OClearStats nullptr H id.

(** *** Blocks in use *)

Definition is_used (x : Z * Block) : bool := match b_owner x.2 with Used _ _ => true | _ => false end.

Definition in_use_blocks (H : Heap) : list (Z * Block) := filter is_used (spots H).

(** The pointer and the size asked for, and the allocation id, of a used block. *)
Definition live_pair (x : Z * Block) : Z * Z :=
  (x.1, match b_owner x.2 with Used _ req => req | _ => 0 end).

Definition block_id (x : Z * Block) : Z := match b_owner x.2 with Used id _ => id | _ => -1 end.

Fixpoint sizes (l : list (Z * Block)) : Z := match l with [] => 0 | x :: l => b_size x.2 + sizes l end.

Fixpoint block_total (l : list Block) : Z :=
  match l with [] => 0 | b :: l => b_size b + block_total l end.

Lemma sizes_perm l1 l2 : l1 ≡ₚ l2 → sizes l1 = sizes l2.
Proof. induction 1; cbn [sizes]; lia. Qed.

Lemma spots_from_app base l1 l2 :
  spots_from base (l1 ++ l2) = spots_from base l1 ++ spots_from (base + block_total l1) l2.
Proof.
  revert base. induction l1 as [|b l1 IH]; intros base; cbn [spots_from block_total app].
  - by rewrite Z.add_0_r.
  - by rewrite IH, Z.add_assoc.
Qed.

(** Replacing blocks by parts of the same size moves nothing else. *)
Lemma spots_from_replace p f base l :
  (∀ b, block_total (f b) = b_size b) →
  spots_from base (replace_at p f base l)
  = spots_from base l ≫= λ x, if x.1 =? p then spots_from x.1 (f x.2) else [x].
Proof.
  intros Hf. revert base. induction l as [|b l IH]; intros base; [done|].
  cbn [replace_at spots_from]. rewrite bind_cons, spots_from_app. cbn [fst snd].
  assert (Ht : block_total (if base =? p then f b else [b]) = b_size b)
    by (destruct (base =? p); [apply Hf | cbn; lia]).
  rewrite Ht, IH. f_equal. by destruct (base =? p).
Qed.

Lemma spots_replace p f H :
  (∀ b, block_total (f b) = b_size b) →
  spots (heap_replace p f H) = spots H ≫= λ x, if x.1 =? p then spots_from x.1 (f x.2) else [x].
Proof.
  intros Hf. unfold spots, heap_replace. induction H as [|[base l] H IH]; [done|].
  rewrite fmap_cons, !bind_cons, bind_app, <-IH. cbn [fst snd]. by rewrite spots_from_replace.
Qed.

Lemma bind_unchanged (l : list (Z * Block)) p f :
  p ∉ l.*1 → (l ≫= λ x, if x.1 =? p then spots_from x.1 (f x.2) else [x]) = l.
Proof.
  induction l as [|x l IH]; intros Hp; [done|]. rewrite fmap_cons in Hp. rewrite bind_cons, IH by set_solver.
  rewrite (proj2 (Z.eqb_neq _ _)); [done|]. intros E. apply Hp. rewrite E. apply list_elem_of_here.
Qed.

Lemma spots_replace_focus p b f H :
  (∀ b, block_total (f b) = b_size b) → NoDup ((spots H).*1) → (p, b) ∈ spots H →
  ∃ S1 S2, spots H = S1 ++ (p, b) :: S2 ∧ spots (heap_replace p f H) = S1 ++ spots_from p (f b) ++ S2.
Proof.
  intros Hf Hn Hp. rewrite spots_replace by done. apply list_elem_of_split in Hp as (S1&S2&Hs).
  exists S1, S2. split; [done|]. rewrite Hs in *. rewrite fmap_app, fmap_cons in Hn. cbn [fst] in Hn.
  apply NoDup_app in Hn as (_&Hd&[Hp2 _]%NoDup_cons). rewrite bind_app, bind_cons. cbn [fst snd].
  rewrite Z.eqb_refl, !bind_unchanged; [done | done |]. intros Hx. apply (Hd p Hx), list_elem_of_here.
Qed.

(** *** Coalescing does not touch blocks in use *)

Lemma coalesce_total l : block_total (coalesce l) = block_total l.
Proof.
  induction l as [|b l IH]; [done|]. cbn [coalesce block_total]. rewrite <-IH.
  destruct (coalesce l) as [|b' r]; [done|]. destruct (is_idle b && is_idle b'); cbn [block_total b_size idle]; lia.
Qed.

Lemma is_idle_owner b : is_idle b = true → b_owner b = Idle.
Proof. apply bool_decide_eq_true. Qed.

Lemma coalesce_used base l :
  filter is_used (spots_from base (coalesce l)) = filter is_used (spots_from base l).
Proof.
  revert base. induction l as [|b l IH]; intros base; [done|].
  cbn [coalesce spots_from]. rewrite filter_cons, <-IH. destruct (coalesce l) as [|b' r].
  - cbn [spots_from]. by rewrite filter_cons.
  - destruct (is_idle b && is_idle b') eqn:Hi; cbn [spots_from].
    + apply andb_true_iff in Hi as [Hb%is_idle_owner Hb'%is_idle_owner].
      unfold is_used in *. rewrite !filter_cons. cbn [snd fst]. rewrite Hb, Hb'. cbn [b_owner idle b_size].
      rewrite !decide_False by auto. by rewrite Z.add_assoc.
    + by rewrite filter_cons.
Qed.

Lemma spots_coalesce_used H :
  filter is_used (spots ((λ r, (r.1, coalesce r.2)) <$> H)) = filter is_used (spots H).
Proof.
  unfold spots. induction H as [|[base l] H IH]; [done|]. rewrite fmap_cons, !bind_cons, !filter_app, IH.
  cbn [fst snd]. by rewrite coalesce_used.
Qed.

(** *** What the heap operations do to the blocks in use *)

Lemma taken_total id num rounded b : block_total (taken id num rounded (b_size b)) = b_size b.
Proof. unfold taken, taken_size. destruct (must_split _ _); cbn; lia. Qed.

Lemma taken_used p id num rounded s :
  filter is_used (spots_from p (taken id num rounded s)) = [(p, mkBlock (taken_size rounded s) (Used id num))].
Proof. unfold taken. by destruct (must_split rounded s). Qed.

Lemma not_used_idle p b : b_owner b = Idle → ¬ is_used (p, b).
Proof. unfold is_used. cbn. intros ->. auto. Qed.

(** A block that was idle is in use. *)
Lemma take_block_used id num rounded H p b H' :
  NoDup ((spots H).*1) → take_block id num rounded H = Some (p, b, H') →
  in_use_blocks H' ≡ₚ (p, mkBlock (taken_size rounded (b_size b)) (Used id num)) :: in_use_blocks H
  ∧ (p, b) ∈ spots H ∧ b_owner b = Idle ∧ rounded <= b_size b.
Proof.
  unfold take_block. intros Hn Ht. destruct (fit rounded (spots H)) as [[q c]|] eqn:Hf; [|done].
  injection Ht as <- <- <-. destruct (fit_some _ _ _ Hf) as (Hin&Hi&Hs&_). cbn [fst snd] in *.
  split_and!; try done. unfold in_use_blocks.
  destruct (spots_replace_focus q c (λ b, taken id num rounded (b_size b)) H (taken_total _ _ _) Hn Hin) as (S1&S2&->&->).
  rewrite !filter_app, taken_used, filter_cons_False by (by apply not_used_idle). cbn [app].
  symmetry. apply Permutation_middle.
Qed.

(** One block is no longer in use. *)
Lemma release_block_used H p s i req :
  NoDup ((spots H).*1) → (p, mkBlock s (Used i req)) ∈ spots H →
  in_use_blocks H ≡ₚ (p, mkBlock s (Used i req)) :: in_use_blocks (release_block p H).
Proof.
  intros Hn Hp. unfold in_use_blocks, release_block. rewrite spots_coalesce_used.
  destruct (spots_replace_focus p _ (λ b, [idle (b_size b)]) H ltac:(intros; cbn; lia) Hn Hp) as (S1&S2&->&->).
  rewrite !filter_app, filter_cons_True by done. cbn [spots_from]. rewrite filter_cons_False by (unfold is_used; cbn; auto).
  symmetry. apply Permutation_middle.
Qed.

Lemma insert_region_used p bytes H : in_use_blocks (insert_region p bytes H) = in_use_blocks H.
Proof.
  unfold in_use_blocks, spots. induction H as [|[base l] H IH]; cbn [insert_region].
  - done.
  - cbn [fst]. destruct (p <? base); [|by rewrite !bind_cons, !filter_app, IH].
    rewrite bind_cons, filter_app. cbn [fst snd spots_from]. rewrite filter_cons_False by (unfold is_used; cbn; auto). done.
Qed.

Lemma spots_nodup st G fl : rep st G fl → NoDup ((spots (heap_of G)).*1).
Proof.
  intros Hr. pose proof (ordered_rep _ _ _ Hr) as Ho. pose proof (cells_positive _ (rep_good _ _ _ Hr)) as Hp.
  rewrite spots_cells, <-list_fmap_compose. induction Ho as [|x C Ho IH Hb]; [constructor|].
  apply Forall_cons in Hp as [Hx Hp]. rewrite fmap_cons. constructor; [|by apply IH].
  intros (y&Hy&Hin)%list_elem_of_fmap. rewrite Forall_forall in Hb. specialize (Hb y Hin).
  unfold before in Hb. cbn in Hy. unfold cell_a in *. lia.
Qed.

Lemma spots_bounds st G fl p b :
  rep st G fl → (p, b) ∈ spots (heap_of G) →
  0 < p ∧ good_block b ∧ ∃ g, g ∈ G ∧ g.1 <= p ∧ p + b_size b <= g.1 + extent g.2 ∧ (256 | p - g.1).
Proof.
  intros Hr Hp. rewrite spots_cells in Hp. apply list_elem_of_fmap in Hp as (x&[= -> ->]&Hx).
  apply elem_of_cells in Hx as (g&Hg&Hx). pose proof (rep_good _ _ _ Hr) as Hgood. rewrite Forall_forall in Hgood.
  destruct (placed_bounds _ _ _ (Hgood _ Hg) Hx) as (Hb&H1&H2&H3).
  apply list_elem_of_lookup_1 in Hg as [i Hi]. destruct (Forall2_lookup_r _ _ _ _ _ (rep_regions _ _ _ Hr) Hi) as (r&_&Hok).
  pose proof (ro_low _ _ Hok). split_and!; [lia | done |]. exists g. split_and!; try done. by eapply list_elem_of_lookup_2.
Qed.

Lemma sizes_total G : Forall good_region G → sizes (in_use_blocks (heap_of G)) <= region_total G.
Proof.
  intros HG. unfold in_use_blocks, spots, heap_of.
  assert (Hl : ∀ l base, Forall (λ x : nat * Block, good_block x.2) l →
    sizes (filter is_used (spots_from base (l.*2))) <= extent l).
  { induction l as [|[h b] l IH]; intros base Hg; [done|]. apply Forall_cons in Hg as [[Hb _] Hg]. cbn [snd] in Hb.
    rewrite fmap_cons. cbn [spots_from extent snd]. specialize (IH (base + b_size b) Hg). rewrite filter_cons.
    destruct (decide (is_used (base, b))); cbn [sizes snd]; lia. }
  assert (Happ : ∀ l1 l2, sizes (l1 ++ l2) = sizes l1 + sizes l2).
  { induction l1 as [|x l1 IH]; intros l2; cbn [sizes app]; [done|]. rewrite IH. lia. }
  induction HG as [|[base l] G Hg HG IH]; [done|]. rewrite fmap_cons, bind_cons, filter_app, Happ. cbn [region_total fst snd].
  specialize (Hl l base Hg). lia.
Qed.

(** *** The shape of the regions is kept *)

Definition shape (H : Heap) : list (Z * Z) := (λ r, (r.1, block_total r.2)) <$> H.

Lemma extent_total l : block_total (l.*2) = extent l.
Proof. induction l as [|[h b] l IH]; [done|]. cbn. by rewrite <-IH. Qed.

Lemma shape_heap_of G : shape (heap_of G) = (λ g, (g.1, extent g.2)) <$> G.
Proof.
  unfold shape, heap_of. rewrite <-list_fmap_compose. apply list_fmap_ext. intros i g _. cbn. by rewrite extent_total.
Qed.

Lemma shape_replace p f H : (∀ b, block_total (f b) = b_size b) → shape (heap_replace p f H) = shape H.
Proof.
  intros Hf. unfold shape, heap_replace. rewrite <-list_fmap_compose. apply list_fmap_ext. intros i [base l] _. cbn.
  f_equal. generalize base at 1. induction l as [|b l IH]; intros c; [done|]. cbn [replace_at block_total].
  rewrite <-(IH (c + b_size b)).
  assert (Happ : ∀ l1 l2, block_total (l1 ++ l2) = block_total l1 + block_total l2).
  { induction l1 as [|x l1 IH1]; intros l2; cbn [block_total app]; [done|]. rewrite IH1. lia. }
  rewrite Happ. destruct (c =? p); [by rewrite Hf|]. cbn. lia.
Qed.

Lemma shape_take id num rounded H p b H' : take_block id num rounded H = Some (p, b, H') → shape H' = shape H.
Proof.
  unfold take_block. destruct (fit rounded (spots H)) as [[q c]|]; [|done]. intros [= <- <- <-].
  apply shape_replace, taken_total.
Qed.

Lemma shape_release p H : shape (release_block p H) = shape H.
Proof.
  rewrite <-(shape_replace p (λ b, [idle (b_size b)]) H) by (intros; cbn; lia). unfold release_block, shape.
  rewrite <-list_fmap_compose. apply list_fmap_ext. intros i r _. cbn. by rewrite coalesce_total.
Qed.

Section Clients.
Context {S : Type} `{!SubAllocator S, !SubAllocatorLaws S}.
Implicit Types a : BFCAllocator S.

(** The outcome of an allocation of [n] bytes. *)
Definition alloc_post a G n (out : Fault + Z * BFCAllocator S) : Prop :=
  match out with
  | inl e => e = NoFuel ∧ n <= 2304 ∧ started_backpedal_ a = false
  | inr (p, a') =>
      ∃ G' fl' H1, Inv a' G' fl' ∧ memory_limit_ a' = memory_limit_ a ∧ region_visitors_ a' = region_visitors_ a ∧
      (H1 = heap_of G ∧ visits a' = visits a ∧ owned (suballocator_ a') = owned (suballocator_ a)
       ∨ ∃ q bytes, take_block (next_allocation_id_ (pool a)) n (RoundedBytes n) (heap_of G) = None
           ∧ RoundedBytes n <= bytes ∧ H1 = insert_region q bytes (heap_of G)
           ∧ visits a' = visits a ++ ((λ v, (v, q, bytes)) <$> region_visitors_ a)
           ∧ owned (suballocator_ a') = (q, bytes) :: owned (suballocator_ a)) ∧
      (p = nullptr ∧ H1 = heap_of G ∧ heap_of G' = H1 ∧ same_counters (pool a) (pool a')
         ∧ (n = 0 ∨ 0 < n ∧ take_block (next_allocation_id_ (pool a)) n (RoundedBytes n) H1 = None ∧ refused a (RoundedBytes n))
       ∨ 0 < n ∧ ∃ b, take_block (next_allocation_id_ (pool a)) n (RoundedBytes n) H1 = Some (p, b, heap_of G')
         ∧ next_allocation_id_ (pool a') = i64 (next_allocation_id_ (pool a) + 1)
         ∧ stats_ (pool a') = count_allocation (taken_size (RoundedBytes n) (b_size b)) (stats_ (pool a))
         ∧ NoDup ((spots H1).*1) ∧ 0 < p)
  end.

Lemma inv_pool a G fl G' fl' st' :
  Inv a G fl → rep st' G' fl' → calm G' → shape (heap_of G') = shape (heap_of G) → Inv (set_pool st' a) G' fl'.
Proof.
  intros [] Hr Hc. rewrite !shape_heap_of. intros Heq.
  assert (Ht : region_total G' = region_total G).
  { clear -Heq. revert G Heq. induction G' as [|g' G' IH]; intros [|g G]; [done..|]. intros [= Hg He HG].
    cbn [region_total]. by rewrite (IH G HG), He. }
  constructor; cbn; rewrite ?Ht, ?Heq; done.
Qed.

(** A search on the allocator. *)
Lemma find_ok a G fl n :
  Inv a G fl → 0 < n <= 2 ^ 64 - 256 → next_allocation_id_ (pool a) ≠ -1 →
  let find := on_pool (S := S) (FindChunkPtr (BinNumForSize (RoundedBytes n)) (RoundedBytes n) n) in
  match take_block (next_allocation_id_ (pool a)) n (RoundedBytes n) (heap_of G) with
  | Some (p, b, H') =>
      ∃ st' G' fl', find a = inr (p, set_pool st' a) ∧ Inv (set_pool st' a) G' fl' ∧ heap_of G' = H'
        ∧ next_allocation_id_ st' = i64 (next_allocation_id_ (pool a) + 1)
        ∧ stats_ st' = count_allocation (taken_size (RoundedBytes n) (b_size b)) (stats_ (pool a))
        ∧ NoDup ((spots (heap_of G)).*1) ∧ 0 < p
  | None => find a = inr (nullptr, a)
  end.
Proof.
  intros Hi Hn Hid find. destruct (RoundedBytes_spec n) as [Hr Hd]; [lia|].
  pose proof (FindChunkPtr_ok _ _ _ (RoundedBytes n) n (inv_rep _ _ _ Hi) (inv_calm _ _ _ Hi) ltac:(lia) Hd Hid) as Hf.
  pose proof (spots_nodup _ _ _ (inv_rep _ _ _ Hi)) as Hnd. unfold find, on_pool.
  destruct (take_block _ _ _ _) as [[[p b] H']|] eqn:Ht; [|by rewrite Hf; destruct a].
  destruct Hf as (st'&G'&fl'&->&Hr'&Hc'&Hh&Hid'&Hst'). exists st', G', fl'. split_and!; try done.
  - eapply inv_pool; [done | done | done |]. rewrite Hh. by eapply shape_take.
  - destruct (take_block_used _ _ _ _ _ _ _ Hnd Ht) as (_&Hp&_).
    by destruct (spots_bounds _ _ _ _ _ (inv_rep _ _ _ Hi) Hp).
Qed.

Lemma insert_region_spot q bytes H : (q, idle bytes) ∈ spots (insert_region q bytes H).
Proof.
  unfold spots. induction H as [|[base l] H IH]; cbn [insert_region]; [apply list_elem_of_here|].
  cbn [fst]. destruct (q <? base); rewrite bind_cons; [apply list_elem_of_here|]. apply elem_of_app. by right.
Qed.

(** The new region has room. *)
Lemma take_after_grow id n rounded q bytes H :
  rounded <= bytes → is_Some (take_block id n rounded (insert_region q bytes H)).
Proof.
  intros Hb. unfold take_block. destruct (fit rounded _) as [[p b]|] eqn:Hf; [done|]. exfalso.
  pose proof (fit_none _ _ Hf _ (insert_region_spot q bytes H) eq_refl) as Hlt. cbn in Hlt. lia.
Qed.

Lemma AllocateRawInternal_ok a G fl n fuel :
  Inv a G fl → 0 <= n <= 2 ^ 64 - 256 → next_allocation_id_ (pool a) ≠ -1 → (backpedal_fuel <= fuel)%nat →
  alloc_post a G n (AllocateRawInternal fuel n a).
Proof.
  intros Hi Hn Hid Hfuel. unfold AllocateRawInternal. destruct (Z.eqb_spec n 0) as [-> | Hne].
  { exists G, fl, (heap_of G). split_and!; try done; left; split_and!; try done. by left. }
  destruct (RoundedBytes_spec n) as [Hr Hd]; [lia|].
  pose proof (find_ok a G fl n Hi ltac:(lia) Hid) as Hf. cbv zeta in Hf.
  destruct (take_block _ _ _ _) as [[[p b] H']|] eqn:Ht.
  { destruct Hf as (st'&G'&fl'&Hrun&Hi'&Hh&Hid'&Hst'&Hnd&Hp). step by Hrun.
    rewrite (proj2 (Z.eqb_neq _ _)) by (unfold nullptr; lia). cbn [negb].
    exists G', fl', (heap_of G). split_and!; try done; [by left|]. right. split; [lia|]. exists b. by rewrite Hh. }
  step by Hf. change (nullptr =? nullptr) with true. cbn [negb].
  pose proof (Extend_ok a G fl (RoundedBytes n) fuel Hi ltac:(lia) Hd Hfuel) as Hx.
  unfold mbind, Act_bind. destruct (Extend fuel (RoundedBytes n) a) as [e|[[|] a']]; cbn [extend_post] in Hx.
  - destruct Hx as (->&Hx&Hb). split_and!; [done | lia | done].
  - destruct Hx as (q&bytes&Hbytes&G'&fl'&Hi'&Hh&[Hsid Hsst]&Hv&Hvis&Hlim&Hown).
    pose proof (find_ok a' G' fl' n Hi' ltac:(lia) ltac:(congruence)) as Hf'. cbv zeta in Hf'.
    destruct (take_after_grow (next_allocation_id_ (pool a')) n (RoundedBytes n) q bytes (heap_of G) Hbytes)
      as [[[p b] H'] Ht']. rewrite Hh, Ht' in Hf'.
    destruct Hf' as (st'&G2&fl2&->&Hi2&Hh2&Hid2&Hst2&Hnd&Hp).
    rewrite (proj2 (Z.eqb_neq _ _)) by (unfold nullptr; lia). cbn [negb]. unfold mret, Act_ret. cbn [alloc_post].
    exists G2, fl2, (insert_region q bytes (heap_of G)). split_and!; try done.
    + right. exists q, bytes. by split_and!.
    + right. split; [lia|]. exists b. cbn [pool set_pool]. rewrite <-Hsid, <-Hsst. split_and!; try done. by rewrite Hh2.
  - destruct Hx as (Hi'&(Hpool&Hlim&Hv&Hvis&Hown)&Href). exists G, fl, (heap_of G). split_and!; try done.
    + by left.
    + left. split_and!; try done; [by rewrite Hpool|]. right. split_and!; [lia | done | done].
Qed.

(** *** The state of a client *)

Record Client a (H : Heap) (live : list (Z * Z)) : Prop := {
  cl_inv : ∃ G fl, Inv a G fl ∧ heap_of G = H;
  cl_live : live ≡ₚ live_pair <$> in_use_blocks H;
  cl_ids : NoDup (block_id <$> in_use_blocks H);
  cl_next : 0 < next_allocation_id_ (pool a);
  cl_old : Forall (λ x, 0 < block_id x < next_allocation_id_ (pool a)) (in_use_blocks H);
  cl_req : Forall (λ x, 0 < (live_pair x).2 <= b_size x.2) (in_use_blocks H);
  cl_bytes : bytes_in_use (stats_ (pool a)) = sizes (in_use_blocks H);
  cl_max : sizes (in_use_blocks H) <= max_bytes_in_use (stats_ (pool a)) <= memory_limit_ a;
  cl_visits : visits a ≡ₚ region_visitors_ a ≫= λ v, (λ r, (v, r.1, r.2)) <$> owned (suballocator_ a);
}.

Lemma sizes_nonneg l : Forall (λ x : Z * Block, 0 <= b_size x.2) l → 0 <= sizes l.
Proof. induction 1; cbn [sizes]; lia. Qed.

Lemma client_sizes a H live : Client a H live → 0 <= sizes (in_use_blocks H) <= memory_limit_ a ∧ memory_limit_ a < 2 ^ 39.
Proof.
  intros Hc. destruct (cl_inv _ _ _ Hc) as (G&fl&Hi&<-). pose proof (sizes_total _ (rep_good _ _ _ (inv_rep _ _ _ Hi))).
  pose proof (inv_within _ _ _ Hi). pose proof (inv_limit _ _ _ Hi). split; [|lia]. split; [|lia].
  apply sizes_nonneg. eapply Forall_impl; [apply (cl_req _ _ _ Hc)|]. cbn. lia.
Qed.

Lemma bind_cons_perm (vs : list nat) (x : Z * Z) (l : list (Z * Z)) :
  (vs ≫= λ v, (λ r, (v, r.1, r.2)) <$> x :: l)
  ≡ₚ ((λ v, (v, x.1, x.2)) <$> vs) ++ (vs ≫= λ v, (λ r, (v, r.1, r.2)) <$> l).
Proof.
  induction vs as [|v vs IH]; [done|]. rewrite !bind_cons, !fmap_cons, IH. cbn [app]. constructor. solve_Permutation.
Qed.

Lemma bind_snoc_perm (vs : list nat) v (l : list (Z * Z)) :
  ((vs ++ [v]) ≫= λ v, (λ r, (v, r.1, r.2)) <$> l)
  = (vs ≫= λ v, (λ r, (v, r.1, r.2)) <$> l) ++ ((λ r, (v, r.1, r.2)) <$> l).
Proof. rewrite bind_app, bind_cons. cbn. by rewrite app_nil_r. Qed.

(** The visits of a client after an extension or none. *)
Lemma visits_after a a' live H (q bytes : Z) :
  Client a H live → region_visitors_ a' = region_visitors_ a →
  (visits a' = visits a ∧ owned (suballocator_ a') = owned (suballocator_ a)
   ∨ visits a' = visits a ++ ((λ v, (v, q, bytes)) <$> region_visitors_ a)
     ∧ owned (suballocator_ a') = (q, bytes) :: owned (suballocator_ a)) →
  visits a' ≡ₚ region_visitors_ a' ≫= λ v, (λ r, (v, r.1, r.2)) <$> owned (suballocator_ a').
Proof.
  intros Hc -> [[-> ->]|[-> ->]]; [apply Hc|]. rewrite bind_cons_perm, (cl_visits _ _ _ Hc).
  apply Permutation_app_comm.
Qed.

(** A block has been taken for [n] bytes. *)
Lemma client_taken a a' H H1 live n p b G' fl' :
  Client a H live → in_use_blocks H1 = in_use_blocks H → NoDup ((spots H1).*1) →
  0 < n <= 2 ^ 64 - 256 → next_allocation_id_ (pool a) < 2 ^ 63 - 1 →
  take_block (next_allocation_id_ (pool a)) n (RoundedBytes n) H1 = Some (p, b, heap_of G') → Inv a' G' fl' →
  next_allocation_id_ (pool a') = i64 (next_allocation_id_ (pool a) + 1) →
  stats_ (pool a') = count_allocation (taken_size (RoundedBytes n) (b_size b)) (stats_ (pool a)) →
  memory_limit_ a' = memory_limit_ a →
  visits a' ≡ₚ (region_visitors_ a' ≫= λ v, (λ r, (v, r.1, r.2)) <$> owned (suballocator_ a')) →
  Client a' (heap_of G') ((p, n) :: live).
Proof.
  intros Hc Hu Hnd Hn Hid Ht Hi' Hid' Hst' Hlim Hvis.
  destruct (take_block_used _ _ _ _ _ _ _ Hnd Ht) as (Hperm&_&_&Hfit). rewrite Hu in Hperm.
  destruct (client_sizes _ _ _ Hc) as [Hsz Hl39]. pose proof (cl_next _ _ _ Hc) as Hpos.
  rewrite i64_small in Hid' by (unfold is_i64; lia). destruct (RoundedBytes_spec n) as [Hr _]; [lia|].
  assert (Hts : n <= taken_size (RoundedBytes n) (b_size b)) by (unfold taken_size; destruct (must_split _ _); lia).
  pose proof (sizes_perm _ _ Hperm) as Hsum. cbn [sizes snd b_size] in Hsum.
  assert (Hnew : sizes (in_use_blocks (heap_of G')) <= memory_limit_ a).
  { pose proof (sizes_total _ (rep_good _ _ _ (inv_rep _ _ _ Hi'))). pose proof (inv_within _ _ _ Hi'). lia. }
  assert (Hiu : i64 (bytes_in_use (stats_ (pool a)) + taken_size (RoundedBytes n) (b_size b)) = sizes (in_use_blocks (heap_of G'))).
  { rewrite (cl_bytes _ _ _ Hc), i64_small; [lia|]. unfold is_i64. lia. }
  pose proof (cl_max _ _ _ Hc) as Hmax.
  constructor; [by eexists _, _| | |lia| | | | |done]; try rewrite Hperm, ?fmap_cons.
  - by rewrite (cl_live _ _ _ Hc).
  - cbn [block_id b_owner snd]. constructor; [|apply Hc]. intros (x&Hx&Hin)%list_elem_of_fmap.
    pose proof (cl_old _ _ _ Hc) as Hold. rewrite Forall_forall in Hold. specialize (Hold x Hin). unfold block_id in *. cbn in Hx. lia.
  - rewrite Hid'. constructor; [unfold block_id; cbn; lia|]. eapply Forall_impl; [apply Hc|]. cbn. intros. lia.
  - constructor; [cbn; lia | apply Hc].
  - rewrite Hst'. cbn [count_allocation bytes_in_use]. done.
  - rewrite Hst'. cbn [count_allocation max_bytes_in_use]. rewrite Hiu, Hlim. lia.
Qed.

Lemma filter_keeps_all {A} (P : A → Prop) `{!∀ x, Decision (P x)} l : Forall P l → filter P l = l.
Proof. induction 1 as [|x l Hx _ IH]; [done|]. by rewrite filter_cons_True, IH. Qed.

(** A live pointer is a block in use. *)
Lemma live_spot a H live p :
  Client a H live → p ∈ live.*1 →
  ∃ s i req, (p, mkBlock s (Used i req)) ∈ in_use_blocks H ∧ (p, mkBlock s (Used i req)) ∈ spots H.
Proof.
  intros Hc Hp. apply list_elem_of_fmap in Hp as (x&->&Hx). rewrite (cl_live _ _ _ Hc) in Hx.
  apply list_elem_of_fmap in Hx as ([q [s o]]&->&Hx). pose proof Hx as Hx'.
  apply list_elem_of_filter in Hx' as [Hu Hs]. unfold is_used in Hu. cbn in Hu. destruct o as [| |i req]; [by destruct Hu..|].
  by exists s, i, req.
Qed.

Lemma client_freed a a' H live p s i req G' fl' :
  Client a H live → (p, mkBlock s (Used i req)) ∈ spots H → Inv a' G' fl' → heap_of G' = release_block p H →
  next_allocation_id_ (pool a') = next_allocation_id_ (pool a) →
  stats_ (pool a') = count_free s (stats_ (pool a)) → memory_limit_ a' = memory_limit_ a →
  visits a' = visits a → region_visitors_ a' = region_visitors_ a →
  owned (suballocator_ a') = owned (suballocator_ a) →
  Client a' (release_block p H) (filter (λ x, x.1 ≠ p) live).
Proof.
  intros Hc Hp Hi' Hh Hid Hst Hlim Hv Hvs Ho. destruct (cl_inv _ _ _ Hc) as (G&fl&Hi&HG).
  pose proof (spots_nodup _ _ _ (inv_rep _ _ _ Hi)) as Hnd. rewrite HG in Hnd.
  pose proof (release_block_used _ _ _ _ _ Hnd Hp) as Hperm.
  destruct (client_sizes _ _ _ Hc) as [Hsz Hl39]. pose proof (sizes_perm _ _ Hperm) as Hsum. cbn [sizes snd b_size] in Hsum.
  pose proof (cl_req _ _ _ Hc) as Hreq. rewrite Hperm in Hreq. apply Forall_cons in Hreq as [Hreq1 Hreq].
  cbn [snd b_size] in Hreq1. assert (Hsn : 0 <= sizes (in_use_blocks (release_block p H))).
  { apply sizes_nonneg. eapply Forall_impl; [exact Hreq|]. cbn. lia. }
  pose proof (cl_ids _ _ _ Hc) as Hids. rewrite Hperm, fmap_cons in Hids. apply NoDup_cons in Hids as [_ Hids].
  pose proof (cl_old _ _ _ Hc) as Hold. rewrite Hperm in Hold. apply Forall_cons in Hold as [_ Hold].
  pose proof (cl_max _ _ _ Hc) as Hmax.
  constructor; try done.
  - by eexists _, _.
  - rewrite (cl_live _ _ _ Hc), Hperm, fmap_cons. rewrite filter_cons_False by (cbn; auto).
    rewrite filter_keeps_all; [done|]. apply Forall_fmap, Forall_forall. intros x Hx. cbn. intros Heq.
    assert (Hndu : NoDup ((in_use_blocks H).*1)).
    { eapply sublist_NoDup; [exact Hnd|]. apply fmap_sublist, sublist_filter. }
    rewrite Hperm, fmap_cons in Hndu. apply NoDup_cons in Hndu as [Hno _]. apply Hno.
    apply list_elem_of_fmap. by exists x.
  - rewrite Hid. apply Hc.
  - by rewrite Hid.
  - rewrite Hst. cbn [count_free bytes_in_use]. rewrite (cl_bytes _ _ _ Hc), i64_small; [lia|]. unfold is_i64. lia.
  - rewrite Hst, Hlim. cbn [count_free max_bytes_in_use]. lia.
  - rewrite Hv, Hvs, Ho. apply Hc.
Qed.

Lemma client_kept a a' H live G' fl' :
  Client a H live → Inv a' G' fl' → heap_of G' = H → same_counters (pool a) (pool a') →
  memory_limit_ a' = memory_limit_ a → region_visitors_ a' = region_visitors_ a → visits a' = visits a →
  owned (suballocator_ a') = owned (suballocator_ a) → Client a' H live.
Proof.
  intros [] Hi' Hh [Hsid Hsst] Hlim Hvs Hv Ho. constructor; rewrite ?Hsid, ?Hsst, ?Hlim, ?Hv, ?Hvs, ?Ho; try done.
  by eexists _, _.
Qed.

(** What a client sees of an operation. *)
Definition op_post a H live op (out : Fault + Z * BFCAllocator S) : Prop :=
  match out with
  | inl e => e = NoFuel ∧ started_backpedal_ a = false ∧ ∃ n, op = OAlloc n ∧ n <= 2304
  | inr (r, a') =>
      ∃ H', heap_step H (next_allocation_id_ (pool a)) op r H' (next_allocation_id_ (pool a'))
        ∧ Client a' H' (live_after op r live)
  end.

Lemma run_alloc_ok a H live n fuel :
  Client a H live → 0 <= n <= 2 ^ 64 - 256 → next_allocation_id_ (pool a) < 2 ^ 63 - 1 → (backpedal_fuel <= fuel)%nat →
  op_post a H live (OAlloc n) (AllocateRawInternal fuel n a).
Proof.
  intros Hc Hal Hid Hfuel. destruct (cl_inv _ _ _ Hc) as (G&fl&Hi&HG). pose proof (cl_next _ _ _ Hc) as Hpos.
  pose proof (AllocateRawInternal_ok a G fl n fuel Hi Hal ltac:(lia) Hfuel) as Hp.
  destruct (AllocateRawInternal fuel n a) as [e|[p a']]; cbn [alloc_post op_post live_after] in *.
  { destruct Hp as (->&Hn&Hb). split_and!; try done. by exists n. }
  destruct Hp as (G'&fl'&H1&Hi'&Hlim&Hvs&Hgrow&Hres). rewrite HG in Hgrow, Hres.
  destruct Hres as [(->&->&Hh&Hsc&Hwhy)|(Hn&b&Ht&Hsid&Hsst&Hnd&Hp)].
  - change (nullptr =? nullptr) with true. exists H. rewrite (proj1 Hsc). split.
    + destruct Hwhy as [-> | (Hn&Ht&_)]; by constructor.
    + destruct Hgrow as [(_&Hv&Ho)|(q&bytes&Ht&Hb&Heq&_)]; [by eapply client_kept|].
      exfalso. destruct (take_after_grow (next_allocation_id_ (pool a)) n (RoundedBytes n) q bytes H Hb) as [x Hx].
      rewrite <-Heq in Hx. congruence.
  - rewrite (proj2 (Z.eqb_neq _ _)) by (unfold nullptr; lia). exists (heap_of G').
    rewrite Hsid, i64_small by (unfold is_i64; lia).
    destruct Hgrow as [(->&Hv&Ho)|(q&bytes&Ht0&Hb&->&Hv&Ho)].
    + split; [by eapply step_fit|]. eapply client_taken; try done; try lia.
      eapply (visits_after a a' live H 0 0); [done | done | by left].
    + split; [by eapply step_grow|].
      eapply (client_taken a a' H (insert_region q bytes H)); try done; try lia; [apply insert_region_used|].
      eapply (visits_after a a' live H q bytes); [done | done | by right].
Qed.

Lemma run_free_ok a H live p fuel :
  Client a H live → p = nullptr ∨ p ∈ live.*1 → op_post a H live (OFree p) (run_op fuel (OFree p) a).
Proof.
  intros Hc Hal. destruct (cl_inv _ _ _ Hc) as (G&fl&Hi&HG).
  cbn [run_op live_after op_post]. destruct (decide (p = nullptr)) as [-> | Hne].
  { unfold on_pool, mbind, Act_bind. cbn. exists H. split; [apply step_free_null|].
    rewrite filter_keeps_all; [by destruct a|]. apply Forall_forall. intros x Hx E.
    assert (Hx0 : x.1 ∈ live.*1) by (by apply list_elem_of_fmap_2).
    destruct (live_spot _ _ _ _ Hc Hx0) as (s&i&req&_&Hsp). rewrite <-HG in Hsp.
    destruct (spots_bounds _ _ _ _ _ (inv_rep _ _ _ Hi) Hsp). unfold nullptr in *. lia. }
  destruct Hal as [?|Hp]; [done|]. destruct (live_spot _ _ _ _ Hc Hp) as (s&i&req&_&Hsp). rewrite <-HG in Hsp.
  destruct (DeallocateRawInternal_ok _ _ _ _ _ _ _ (inv_rep _ _ _ Hi) (inv_calm _ _ _ Hi) Hsp)
    as (st'&G'&fl'&Hrun&Hr'&Hc'&Hh&Hsid&Hsst). rewrite HG in *.
  unfold on_pool, mbind, Act_bind. rewrite Hrun. exists (release_block p H). cbn [pool set_pool]. rewrite Hsid.
  split; [by eapply step_free|]. eapply client_freed; try done.
  eapply inv_pool; [done | done | done |]. rewrite Hh, HG. apply shape_release.
Qed.

(** The regions of the pool are the pieces of the sub-allocator. *)
Lemma regions_owned a G fl :
  Inv a G fl → owned (suballocator_ a) ≡ₚ (λ r, (ptr_ r, memory_size_ r)) <$> regions_ (pool a).
Proof.
  intros Hi. rewrite (inv_owned _ _ _ Hi). pose proof (rep_regions _ _ _ (inv_rep _ _ _ Hi)) as HR. clear -HR.
  induction HR as [|r g R G Hok _ IH]; [done|]. rewrite !fmap_cons, IH. by destruct Hok as [-> ->].
Qed.

Lemma run_visit_ok a H live v fuel : Client a H live → op_post a H live (OVisit v) (run_op fuel (OVisit v) a).
Proof.
  intros Hc. destruct (cl_inv _ _ _ Hc) as (G&fl&Hi&HG). pose proof (regions_owned _ _ _ Hi) as HR.
  cbn [run_op live_after op_post]. unfold AddAllocVisitor, mbind, Act_bind, modify. cbn. exists H. split; [constructor|].
  destruct Hc. constructor; try done.
  - exists G, fl. split; [|done]. by destruct Hi.
  - cbn. rewrite bind_snoc_perm, cl_visits0. apply Permutation_app; [done|]. by rewrite HR, <-list_fmap_compose.
Qed.

Lemma run_clear_ok a H live fuel : Client a H live → op_post a H live OClearStats (run_op fuel OClearStats a).
Proof.
  intros Hc. destruct (cl_inv _ _ _ Hc) as (G&fl&Hi&HG). pose proof (client_sizes _ _ _ Hc).
  cbn [run_op live_after op_post]. unfold on_pool, mbind, Act_bind, ClearStats, modify. cbn. exists H. split; [constructor|].
  destruct Hc. constructor; try done.
  - exists G, fl. split; [|done]. eapply (inv_pool a); [done | |apply Hi|done].
    destruct (inv_rep _ _ _ Hi). by constructor.
  - cbn. rewrite cl_bytes0. lia.
Qed.

(** Every operation of a client that keeps its contract is a step of the
    abstract allocator; the only fault is the endless loop of the backpedalling. *)
Lemma run_op_ok a H live op fuel :
  Client a H live → allowed live op → next_allocation_id_ (pool a) < 2 ^ 63 - 1 → (backpedal_fuel <= fuel)%nat →
  op_post a H live op (run_op fuel op a).
Proof.
  intros Hc Hal Hid Hfuel. destruct op as [n|p|v|].
  - by apply run_alloc_ok.
  - by apply run_free_ok.
  - by apply run_visit_ok.
  - by apply run_clear_ok.
Qed.
End Clients.
