(* ===== verification/BFCSafety.v ===== *)
(** * What clients of the BFC allocator can rely on

    [reachable] are the states of an allocator that a client leads to which keeps
    its contract: it frees only pointers it was given and has not freed.  For each
    such state the theorems state the refinement of the abstract allocator, the
    absence of faults, the separation of the memory given out, the statistics, the
    coalescing of free memory and the calls of visitors; and the two ways in which
    the code leaves these bounds: the backpedalling loop that cannot end, and
    requests so large that their rounding wraps. *)
From S2P Require Import Prelude BFCAllocator BFCHeap BFCRuns.

Open Scope Z_scope.

(** ** Executions *)

Inductive heap_steps : list (Op * Z) → Heap → Z → Prop :=
  | heap_steps_nil : heap_steps [] [] 1
  | heap_steps_snoc tr H id op r H' id' :
      heap_steps tr H id → heap_step H id op r H' id' → heap_steps (tr ++ [(op, r)]) H' id'.

Section Reachable.
Context {S : Type} `{!SubAllocator S, !SubAllocatorLaws S}.
Implicit Types a : BFCAllocator S.

(** The states after the operations [tr] with their results; [live] are the
    pointers in use.  Fewer than [2 ^ 63] allocations have been made. *)
Inductive reachable (fuel : nat) (a0 : BFCAllocator S) : BFCAllocator S → list (Z * Z) → list (Op * Z) → Prop :=
  | reach_start : reachable fuel a0 a0 [] []
  | reach_step a live tr op r a' :
      reachable fuel a0 a live tr → allowed live op → next_allocation_id_ (pool a) < 2 ^ 63 - 1 →
      run_op fuel op a = inr (r, a') → reachable fuel a0 a' (live_after op r live) (tr ++ [(op, r)]).

(** A new allocator, on a sub-allocator that has given nothing out. *)
Definition initial (total_memory : Z) (a0 : BFCAllocator S) : Prop :=
  ∃ s growth, new_BFCAllocator s total_memory growth = inr a0 ∧ owned s = [].

Lemma bin_checks_pass : forallb bin_checks (seq 0 kNumBins) = true.
Proof. by vm_compute. Qed.

Lemma new_bins_ok : bins_ok ((λ b, mkBin (BinNumToSize b) []) <$> seq 0 kNumBins) [].
Proof.
  split; [by rewrite length_fmap, length_seq|]. intros i Hi. exists (mkBin (BinNumToSize i) []), [].
  rewrite list_lookup_fmap, lookup_seq_lt by done. split_and!; try done. constructor.
Qed.

Lemma initial_client total a0 : 0 <= total < 2 ^ 39 → initial total a0 → Client a0 [] [].
Proof.
  intros Ht (s&growth&Hnew&Ho). unfold new_BFCAllocator, new_Pool in Hnew. rewrite bin_checks_pass in Hnew.
  set (curr := if growth then RoundedBytes (Z.min total 1048576) else RoundedBytes total) in *.
  assert (Hcurr : (256 | curr) ∧ 0 <= curr <= total + 256 ∧ (0 < total → 0 < curr)).
  { subst curr. destruct growth.
    - destruct (RoundedBytes_spec (Z.min total 1048576)) as [? ?]; [lia|]. split; [done|]. lia.
    - destruct (RoundedBytes_spec total) as [? ?]; [lia|]. split; [done|]. lia. }
  injection Hnew as <-. constructor; cbn [pool in_use_blocks spots mbind list_bind region_visitors_ visits]; try done.
  - exists [], []. split; [|done].
    constructor; cbn; [|constructor|lia|done|lia|apply Hcurr|lia|unfold curr_bound; lia|by rewrite Ho].
    constructor; cbn; [constructor | apply SSorted_nil | constructor | done | done | apply new_bins_ok].
  - constructor.
  - cbn. lia.
Qed.

(** A query at a block finds its chunk. *)
Lemma query_block {A} st G fl (f : Chunk → A) p b :
  rep st G fl → (p, b) ∈ spots (heap_of G) →
  ∃ c prev nxt, chunk_of_ptr f p st = inr (f c, st) ∧ chunk_is c prev p b nxt.
Proof.
  intros Hr Hp. rewrite spots_cells in Hp. apply list_elem_of_fmap in Hp as (x&Hpx&Hx).
  destruct (cells_split _ _ Hx) as (G1&base&l1&l2&G2&->&Hxe). destruct x as [[h a] c].
  unfold cell_h, cell_b, cell_a in *. cbn [fst snd] in *. injection Hpx as -> <-. injection Hxe as ->.
  destruct (focus_chunk _ _ _ _ _ _ _ _ _ Hr) as (c&Hc&Hi). exists c, (last_handle None l1), (hd_handle l2 None).
  split; [|done]. unfold chunk_of_ptr. step by (get_handle_block _ _ _ _ _ _ _ _ _ Hr). by step by (chunk_run _ _ _ Hc).
Qed.

Lemma ordered_pair (C : list Cell) x y :
  StronglySorted before C → x ∈ C → y ∈ C → x = y ∨ before x y ∨ before y x.
Proof.
  intros Hs Hx Hy. induction Hs as [|z C _ IH Hz]; [by apply not_elem_of_nil in Hx|].
  rewrite Forall_forall in Hz.
  apply elem_of_cons in Hx as [-> | Hx]; apply elem_of_cons in Hy as [-> | Hy]; auto.
Qed.

(** Different blocks do not overlap. *)
Lemma spots_disjoint st G fl p b q c :
  rep st G fl → (p, b) ∈ spots (heap_of G) → (q, c) ∈ spots (heap_of G) → p ≠ q →
  p + b_size b <= q ∨ q + b_size c <= p.
Proof.
  intros Hr Hp Hq Hne. rewrite spots_cells in Hp, Hq.
  apply list_elem_of_fmap in Hp as (x&[= -> ->]&Hx). apply list_elem_of_fmap in Hq as (y&[= -> ->]&Hy).
  destruct (ordered_pair _ _ _ (ordered_rep _ _ _ Hr) Hx Hy) as [-> | [H | H]]; [done | by left | by right].
Qed.

(** A live pointer, its block and its owner. *)
Lemma live_block a H live p n :
  Client a H live → (p, n) ∈ live →
  ∃ s i, (p, mkBlock s (Used i n)) ∈ in_use_blocks H ∧ (p, mkBlock s (Used i n)) ∈ spots H ∧ 0 < n <= s.
Proof.
  intros Hc Hp. rewrite (cl_live _ _ _ Hc) in Hp. apply list_elem_of_fmap in Hp as ([q [s o]]&Heq&Hx).
  pose proof (cl_req _ _ _ Hc) as Hreq. rewrite Forall_forall in Hreq. specialize (Hreq _ Hx).
  pose proof Hx as Hx'. apply list_elem_of_filter in Hx' as [Hu Hs]. unfold is_used in Hu. cbn in Hu.
  destruct o as [| |i req]; [by destruct Hu..|]. injection Heq as -> ->. by exists s, i.
Qed.

Lemma live_nodup a H live : Client a H live → NoDup (live.*1).
Proof.
  intros Hc. destruct (cl_inv _ _ _ Hc) as (G&fl&Hi&<-). rewrite (cl_live _ _ _ Hc), <-list_fmap_compose.
  eapply sublist_NoDup; [exact (spots_nodup _ _ _ (inv_rep _ _ _ Hi))|]. apply (fmap_sublist fst), sublist_filter.
Qed.

Context (fuel : nat) (total : Z) (a0 : BFCAllocator S).
Context (Hfuel : (backpedal_fuel <= fuel)%nat) (Htotal : 0 <= total < 2 ^ 39) (Hinit : initial total a0).

(** A reachable state represents a heap that the abstract allocator reaches by
    the same operations with the same results. *)
Lemma reachable_client a live tr :
  reachable fuel a0 a live tr → ∃ H, heap_steps tr H (next_allocation_id_ (pool a)) ∧ Client a H live.
Proof.
  induction 1 as [|a live tr op r a' Hreach (H&Hsteps&Hc) Hal Hid Hrun].
  - exists []. split; [|by eapply initial_client]. destruct Hinit as (s&growth&Hnew&_).
    unfold new_BFCAllocator, new_Pool in Hnew. rewrite bin_checks_pass in Hnew. injection Hnew as <-. constructor.
  - pose proof (run_op_ok _ _ _ _ _ Hc Hal Hid Hfuel) as Hok. rewrite Hrun in Hok.
    destruct Hok as (H'&Hstep&Hc'). exists H'. split; [by econstructor | done].
Qed.

(** C14: The allocator refines best fit with coalescing.  After any sequence of
    operations of a client that keeps its contract, the state of the allocator
    represents a heap of blocks, and the abstract allocator - which takes the
    smallest idle block that fits, grows by a region that fits or returns null,
    and joins neighbouring idle blocks when one is freed - reaches that heap by the
    same operations with the same results. *)
Theorem bfc_refines a live tr :
  reachable fuel a0 a live tr →
  ∃ H G fl, heap_steps tr H (next_allocation_id_ (pool a)) ∧ rep (pool a) G fl ∧ calm G ∧ heap_of G = H.
Proof using Hfuel Htotal Hinit SubAllocatorLaws0.
  intros Hreach. destruct (reachable_client _ _ _ Hreach) as (H&Hsteps&Hc).
  destruct (cl_inv _ _ _ Hc) as (G&fl&Hi&HG). exists H, G, fl. split_and!; [done | apply Hi | apply Hi | done].
Qed.

(** No check of the allocator fails and no array is left, whatever a client
    does that keeps its contract; the only way for an operation not to return is a
    request of at most 2304 bytes for which the first backpedalling starts. *)
Theorem bfc_progress a live tr op e :
  reachable fuel a0 a live tr → allowed live op → next_allocation_id_ (pool a) < 2 ^ 63 - 1 →
  run_op fuel op a = inl e →
  e = NoFuel ∧ started_backpedal_ a = false ∧ ∃ n, op = OAlloc n ∧ n <= 2304.
Proof using Hfuel Htotal Hinit SubAllocatorLaws0.
  intros Hreach Hal Hid Hrun. destruct (reachable_client _ _ _ Hreach) as (H&_&Hc).
  pose proof (run_op_ok _ _ _ _ _ Hc Hal Hid Hfuel) as Hok. by rewrite Hrun in Hok.
Qed.

(** C15: The memory behind a live pointer belongs to its owner alone: it lies in
    one piece of memory of the sub-allocator, at a multiple of 256 bytes, the
    allocator knows its size, and the memory of two live pointers does not
    overlap. *)
Theorem bfc_memory_safe a live tr :
  reachable fuel a0 a live tr →
  (∀ p n, (p, n) ∈ live →
     0 < n ∧ RequestedSize p (pool a) = inr (n, pool a)
     ∧ (∃ s, AllocatedSize p (pool a) = inr (s, pool a) ∧ n <= s)
     ∧ ∃ base size, (base, size) ∈ owned (suballocator_ a) ∧ base <= p ∧ p + n <= base + size ∧ (256 | p - base))
  ∧ (∀ i j x y, live !! i = Some x → live !! j = Some y → i ≠ j → x.1 + x.2 <= y.1 ∨ y.1 + y.2 <= x.1).
Proof using Hfuel Htotal Hinit SubAllocatorLaws0.
  intros Hreach. destruct (reachable_client _ _ _ Hreach) as (H&_&Hc).
  destruct (cl_inv _ _ _ Hc) as (G&fl&Hi&HG). subst H. pose proof (inv_rep _ _ _ Hi) as Hr. split.
  - intros p n Hp. destruct (live_block _ _ _ _ _ Hc Hp) as (s&i&_&Hs&Hn).
    destruct (spots_bounds _ _ _ _ _ Hr Hs) as (_&_&g&Hg&H1&H2&H3). cbn [b_size] in H2. split; [lia|].
    unfold RequestedSize, AllocatedSize. destruct (query_block _ _ _ requested_size _ _ Hr Hs) as (c&?&?&->&_&_&_&_&Ho).
    destruct (query_block _ _ _ c_size _ _ Hr Hs) as (c'&?&?&->&_&Hsz&_). cbn in Ho, Hsz.
    split_and!; [by destruct Ho as (_&_&->&_) | exists s; rewrite Hsz; by split_and!; [|lia] |].
    exists g.1, (extent g.2). rewrite (inv_owned _ _ _ Hi). split_and!; [|done|lia|done].
    by apply (list_elem_of_fmap_2 (λ g, (g.1, extent g.2))).
  - intros i j [p n] [q m] Hx Hy Hij. cbn [fst snd].
    destruct (live_block _ _ _ _ _ Hc (list_elem_of_lookup_2 _ _ _ Hx)) as (s&k&_&Hs&Hn).
    destruct (live_block _ _ _ _ _ Hc (list_elem_of_lookup_2 _ _ _ Hy)) as (s'&k'&_&Hs'&Hm).
    assert (Hne : p ≠ q).
    { intros ->. apply Hij, (NoDup_lookup (live.*1) i j q); [by eapply live_nodup| |];
        rewrite list_lookup_fmap, ?Hx, ?Hy; done. }
    destruct (spots_disjoint _ _ _ _ _ _ _ Hr Hs Hs' Hne); cbn [b_size] in *; lia.
Qed.

(** C16: The statistics are exact: [bytes_in_use] is the sum of the allocated
    sizes of the live pointers, never above [max_bytes_in_use], which stays within
    the memory limit; and the allocation ids of live pointers are positive and
    different. *)
Theorem bfc_stats_exact a live tr :
  reachable fuel a0 a live tr →
  (∃ sizes, Forall2 (λ x s, AllocatedSize x.1 (pool a) = inr (s, pool a)) live sizes
     ∧ bytes_in_use (stats_ (pool a)) = foldr Z.add 0 sizes)
  ∧ (∃ ids, Forall2 (λ x i, AllocationId x.1 (pool a) = inr (i, pool a)) live ids ∧ NoDup ids ∧ Forall (Z.lt 0) ids)
  ∧ bytes_in_use (stats_ (pool a)) <= max_bytes_in_use (stats_ (pool a)) <= memory_limit_ a.
Proof using Hfuel Htotal Hinit SubAllocatorLaws0.
  intros Hreach. destruct (reachable_client _ _ _ Hreach) as (H&_&Hc).
  destruct (cl_inv _ _ _ Hc) as (G&fl&Hi&HG). subst H. pose proof (inv_rep _ _ _ Hi) as Hr.
  destruct (Permutation_map_inv live_pair _ (cl_live _ _ _ Hc)) as (U&HU&HUp).
  change (map live_pair U) with (live_pair <$> U) in HU. subst live.
  assert (Hin : ∀ x, x ∈ U → x ∈ spots (heap_of G) ∧ is_used x).
  { intros x Hx. rewrite <-HUp in Hx. apply list_elem_of_filter in Hx. tauto. }
  assert (Hq : ∀ {A} (f : Chunk → A) (g : Z * Block → A),
    (∀ x c pr nx, is_used x → chunk_is c pr x.1 x.2 nx → f c = g x) →
    Forall2 (λ x s, chunk_of_ptr f x.1 (pool a) = inr (s, pool a)) (live_pair <$> U) (g <$> U)).
  { intros A f g Hfg. apply Forall2_fmap, Forall_Forall2_diag, Forall_forall. intros [p b] Hx.
    destruct (Hin _ Hx) as [Hs Hu]. destruct (query_block _ _ _ f _ _ Hr Hs) as (c&pr&nx&Hrun&Hci).
    change ((live_pair (p, b)).1) with p. rewrite Hrun. by rewrite (Hfg (p, b) _ _ _ Hu Hci). }
  split_and!.
  - exists ((λ x, b_size x.2) <$> U). split; [apply Hq; by intros x c pr nx _ (_&?&_)|].
    rewrite (cl_bytes _ _ _ Hc), (sizes_perm _ _ HUp). clear. induction U as [|x U IH]; [done|]. cbn. by rewrite IH.
  - exists (block_id <$> U). split_and!.
    + apply Hq. intros [p [s o]] c pr nx Hu (_&_&_&_&Ho). unfold is_used in Hu. cbn in *.
      destruct o; [by destruct Hu..|]. unfold block_id. cbn. cbn in Ho. tauto.
    + rewrite <-HUp. apply Hc.
    + rewrite <-HUp. apply Forall_fmap. eapply Forall_impl; [apply Hc|]. cbn. intros x Hx. lia.
  - rewrite (cl_bytes _ _ _ Hc). apply Hc.
  - apply Hc.
Qed.

(** With nothing in use every block of the heap is idle, so that a region is one
    block. *)
Lemma all_idle_single l :
  coalesced l → Forall (λ b, b_owner b = Idle) l → l = [] ∨ ∃ s, l = [idle s].
Proof.
  intros Hc Hi. destruct Hi as [|[s o] l Ho Hi]; [by left|]. right. cbn in Ho. subst o.
  destruct Hi as [|[s' o'] l Ho' _]; [by exists s|]. cbn in Ho'. subst o'. by destruct Hc as [Hc _].
Qed.

Lemma region_idle a H g G1 G2 fl :
  Client a H [] → Inv a (G1 ++ g :: G2) fl → heap_of (G1 ++ g :: G2) = H → ∃ h, g.2 = [(h, idle (extent g.2))].
Proof.
  intros Hc Hi HG. destruct g as [base l]. cbn [snd].
  assert (Hu : in_use_blocks H = []).
  { apply (fmap_nil_inv live_pair), Permutation_nil_r. symmetry. apply Hc. }
  destruct (calm_focus _ _ _ _ (inv_calm _ _ _ Hi)) as [Hco Hset].
  destruct (all_idle_single _ Hco) as [Hnil | [s Hs]].
  - apply Forall_forall. intros b Hb. rewrite Forall_forall in Hset. specialize (Hset b Hb). unfold settled in Hset.
    destruct (b_owner b) as [| |i req] eqn:Ho; [done | done |]. exfalso.
    assert (Hsp : ∃ q, (q, b) ∈ spots H).
    { rewrite <-HG, spots_cells. apply list_elem_of_fmap in Hb as ([h b']&->&Hin). apply list_elem_of_split in Hin as (l1&l2&->).
      exists (base + extent l1). apply list_elem_of_fmap. exists (h, base + extent l1, b'). split; [done|].
      rewrite cells_block. apply elem_of_app. right. apply list_elem_of_here. }
    destruct Hsp as [q Hq]. assert (Hin : (q, b) ∈ in_use_blocks H).
    { apply list_elem_of_filter. split; [|done]. unfold is_used. cbn. by rewrite Ho. }
    rewrite Hu in Hin. by apply not_elem_of_nil in Hin.
  - apply fmap_nil_inv in Hnil. subst l. destruct (regions_focus _ _ _ _ _ (inv_rep _ _ _ Hi)) as (_&r&_&_&_&Hok&_).
    pose proof (ro_pos _ _ Hok) as Hp. cbn in Hp. lia.
  - destruct l as [|[h b] [|]]; [done| |done]. injection Hs as ->. exists h. cbn. by rewrite Z.add_0_r.
Qed.

(** Free memory is whole again: when a client has freed everything, each
    region is one free chunk of the size of the region, without neighbours. *)
Theorem bfc_defragments a tr r :
  reachable fuel a0 a [] tr → r ∈ regions_ (pool a) →
  ∃ h c, get_handle (ptr_ r) (pool a) = inr (Some h, pool a) ∧ chunks_ (pool a) !! h = Some c
    ∧ in_use c = false ∧ c_size c = memory_size_ r ∧ c_prev c = None ∧ c_next c = None.
Proof using Hfuel Htotal Hinit SubAllocatorLaws0.
  intros Hreach Hrin. destruct (reachable_client _ _ _ Hreach) as (H&_&Hc).
  destruct (cl_inv _ _ _ Hc) as (G&fl&Hi&HG). pose proof (inv_rep _ _ _ Hi) as Hr.
  apply list_elem_of_lookup_1 in Hrin as [k Hk]. destruct (Forall2_lookup_l _ _ _ _ _ (rep_regions _ _ _ Hr) Hk) as (g&Hg&Hok).
  apply list_elem_of_split_length in Hg as (G1&G2&->&_).
  destruct (region_idle _ _ _ _ _ _ Hc Hi HG) as [h Hl]. destruct g as [base l]. cbn [snd] in Hl.
  rewrite (ro_ptr _ _ Hok), (ro_size _ _ Hok). cbn [fst snd]. rewrite Hl in Hr. change [(h, idle (extent l))] with ([] ++ (h, idle (extent l)) :: []) in Hr.
  destruct (focus_chunk _ _ _ _ _ _ _ _ _ Hr) as (c&Hcc&Hci). exists h, c.
  pose proof (get_handle_block _ _ _ _ _ _ _ _ _ Hr) as Hh. cbn [extent] in Hh. rewrite Z.add_0_r in Hh.
  split_and!; [done | done | by rewrite (chunk_in_use _ _ _ _ _ Hci) by done | |..]; by destruct Hci as (?&?&?&?&?).
Qed.

(** A pointer of the allocator's memory that is not live cannot be freed: the
    check of [DeallocateRaw] or of [FreeAndMaybeCoalesce] ends the process, also
    when a pointer is freed twice. *)
Theorem bfc_bad_free_detected a live tr base size p :
  reachable fuel a0 a live tr → (base, size) ∈ owned (suballocator_ a) →
  base <= p < base + size → (256 | p - base) → (p ∉ live.*1) →
  run_op fuel (OFree p) a = inl CheckFailed.
Proof using Hfuel Htotal Hinit SubAllocatorLaws0.
  intros Hreach Hown Hp Hd Hlive. destruct (reachable_client _ _ _ Hreach) as (H&_&Hc).
  destruct (cl_inv _ _ _ Hc) as (G&fl&Hi&HG). pose proof (inv_rep _ _ _ Hi) as Hr.
  rewrite (inv_owned _ _ _ Hi) in Hown. apply list_elem_of_fmap in Hown as ([b l]&[= -> ->]&Hg). cbn [fst snd] in *.
  apply list_elem_of_split in Hg as (G1&G2&->). destruct (get_handle_run _ _ _ _ _ _ p Hr Hp) as (r&h&Hok&Hh&Hrun).
  pose proof (ro_low _ _ Hok) as Hlow. cbn [fst] in Hlow.
  assert (Hdead : DeallocateRawInternal p (pool a) = inl CheckFailed).
  { unfold DeallocateRawInternal. rewrite (proj2 (Z.eqb_neq _ _)) by (unfold nullptr; lia). step by Hrun.
    destruct h as [h|]; [|done]. apply (ro_handles _ _ Hok) in Hh as (blk&Hin). cbn [fst snd] in Hin.
    destruct Hd as [k Hk]. rewrite Hk, Z.div_mul, Z2Nat.id in Hin by lia. replace (b + 256 * k) with p in Hin by lia.
    assert (Hx : (h, p, blk) ∈ cells (G1 ++ (b, l) :: G2)) by (rewrite cells_focus; app_solve).
    destruct (cell_lookup _ _ _ _ Hr Hx) as (c&Hcc&_&_&Ho). change (cell_h (h, p, blk)) with h in Hcc.
    unfold FreeAndMaybeCoalesce. step by (chunk_run _ _ _ Hcc). unfold owner_ok, cell_b in Ho. cbn [snd] in Ho.
    destruct (b_owner blk) as [| |i req] eqn:Hb.
    - unfold in_use. by rewrite (proj1 Ho).
    - unfold in_use. by rewrite (proj1 Ho).
    - exfalso. apply Hlive. rewrite (cl_live _ _ _ Hc). apply list_elem_of_fmap. exists (p, req). split; [done|].
      apply list_elem_of_fmap. exists (p, blk). split; [unfold live_pair; cbn; by rewrite Hb|].
      apply list_elem_of_filter. split; [unfold is_used; cbn; by rewrite Hb|]. rewrite <-HG, spots_cells.
      apply list_elem_of_fmap. by exists (h, p, blk). }
  cbn [run_op]. unfold on_pool, mbind, Act_bind. by rewrite Hdead.
Qed.

(** Every visitor is called exactly once for every region, whether it is
    registered before or after the region was added; and the destructor gives
    every region back to the sub-allocator. *)
Theorem bfc_regions_accounted a live tr :
  reachable fuel a0 a live tr →
  visits a ≡ₚ (region_visitors_ a ≫= λ v, (λ r, (v, ptr_ r, memory_size_ r)) <$> regions_ (pool a))
  ∧ owned (Destroy a) = [].
Proof using Hfuel Htotal Hinit SubAllocatorLaws0.
  intros Hreach. destruct (reachable_client _ _ _ Hreach) as (H&_&Hc). destruct (cl_inv _ _ _ Hc) as (G&fl&Hi&HG).
  pose proof (regions_owned _ _ _ Hi) as Ho. split.
  - rewrite (cl_visits _ _ _ Hc). clear -Ho.
    induction (region_visitors_ a) as [|v vs IH]; [done|]. by rewrite !bind_cons, IH, Ho, <-list_fmap_compose.
  - apply Permutation_nil_r. unfold Destroy. revert Ho. generalize (suballocator_ a).
    induction (regions_ (pool a)) as [|r R IH]; intros s Ho; [done|]. cbn [foldl]. apply IH.
    apply (Permutation_cons_inv (a := (ptr_ r, memory_size_ r))). etransitivity; [|exact Ho].
    apply Free_owned. rewrite Ho, fmap_cons. apply list_elem_of_here.
Qed.
End Reachable.

(** ** The backpedalling loop *)

Section Refusing.
Context {S : Type} `{!SubAllocator S, !SubAllocatorLaws S}.
Implicit Types a : BFCAllocator S.

(** [Extend] with a sub-allocator that refuses everything, while there would be
    memory left of the limit. *)
Lemma Extend_stuck a G fl rounded fuel :
  (∀ n s, Alloc 32 n s = (nullptr, s)) → Inv a G fl → started_backpedal_ a = false →
  0 < rounded <= available a → rounded <= 2304 → Extend fuel rounded a = inl NoFuel.
Proof.
  intros Hno Hi Hstart Hr Hsmall. unfold Extend. step_get. step_get.
  destruct (available_ok _ _ _ Hi) as (Hav&Havr&Havd&_). rewrite Hav.
  rewrite (proj2 (Z.ltb_ge _ _)) by lia. step_get.
  destruct (choose_size _ _ _ rounded Hi Hr) as (curr&inc&Hdbl&Hch). rewrite Hdbl. step_get.
  pose proof (ch_enough _ _ _ _ _ _ Hch). set (b := Z.min curr (available a)).
  assert (Hbd : (256 | b)).
  { subst b. destruct (Z.min_spec curr (available a)) as [[_ ->] | [_ ->]]; [apply Hch | done]. }
  pose proof (inv_limit _ _ _ Hi). pose proof (region_total_nonneg _ (rep_good _ _ _ (inv_rep _ _ _ Hi))).
  unfold sub_alloc, mbind, Act_bind. rewrite Hno. cbn [get started_backpedal_ set_curr set_suballocator].
  rewrite Hstart. cbn [Z.eqb nullptr andb negb]. destruct Hbd as [k Hk]. unfold modify. rewrite Hk, (Z.mul_comm k).
  rewrite backpedal_stuck; [done | done | lia | lia | done].
Qed.

(** A sub-allocator that has no memory makes the allocator loop for ever on a
    request of at most 2304 bytes: with the lock held, the backpedalling retries
    the same size, since nine tenths of at most nine units of 256 bytes are rounded
    up to as many units.  Larger requests are answered. *)
Theorem backpedal_ends_iff s total growth (a0 : BFCAllocator S) n :
  (∀ n s, Alloc 32 n s = (nullptr, s)) → owned s = [] → 0 <= total < 2 ^ 39 →
  new_BFCAllocator s total growth = inr a0 → 0 < n <= 2 ^ 64 - 256 → RoundedBytes n <= total →
  (∃ fuel out, AllocateRawInternal fuel n a0 = inr out) ↔ 2304 < n.
Proof.
  intros Hno Ho Ht Hnew Hn Hfit. pose proof (initial_client total a0 Ht (ex_intro _ s (ex_intro _ growth (conj Hnew Ho)))) as Hc.
  destruct (cl_inv _ _ _ Hc) as (G&fl&Hi&HG). apply fmap_nil_inv in HG. subst G.
  destruct (RoundedBytes_spec n) as [Hr Hd]; [lia|]. pose proof (cl_next _ _ _ Hc) as Hid. split.
  - intros (fuel&out&Hrun). destruct (decide (2304 < n)) as [|Hsmall]; [done|]. exfalso.
    pose proof (find_ok a0 [] fl n Hi ltac:(lia) ltac:(lia)) as Hf. change (take_block _ _ _ (heap_of [])) with (@None (Z * Block * Heap)) in Hf.
    cbv zeta in Hf. unfold AllocateRawInternal in Hrun. rewrite (proj2 (Z.eqb_neq n 0)) in Hrun by lia.
    rewrite (bind_run _ _ _ _ _ Hf) in Hrun. change (nullptr =? nullptr) with true in Hrun. cbn [negb] in Hrun.
    unfold mbind, Act_bind in Hrun. rewrite (Extend_stuck a0 [] fl) in Hrun; [done | done | done | | |].
    + unfold new_BFCAllocator in Hnew. destruct (new_Pool total); [done|]. by injection Hnew as <-.
    + assert (Hav : available a0 = total / 256 * 256).
      { unfold new_BFCAllocator in Hnew. destruct (new_Pool total); [done|]. injection Hnew as <-.
        unfold available. cbn [memory_limit_ total_region_allocated_bytes_]. by rewrite Z.sub_0_r. }
      rewrite Hav. destruct Hd as [k Hk]. rewrite Hk in *. Z.to_euclidean_division_equations. lia.
    + pose proof (RoundedBytes_least n 9). lia.
  - intros Hbig. exists backpedal_fuel. pose proof (AllocateRawInternal_ok a0 [] fl n backpedal_fuel Hi ltac:(lia) ltac:(lia) (le_n _)) as Hp.
    destruct (AllocateRawInternal backpedal_fuel n a0) as [e|out]; [|by exists out]. destruct Hp as (_&?&_). lia.
Qed.
End Refusing.

(** ** A sub-allocator *)

(** Memory from [ar_top] to [ar_end], given out in order.  A piece is given out
    only above all pieces that are still owned. *)
Record Arena := mkArena { ar_top : Z; ar_end : Z; ar_owned : list (Z * Z) }.

Definition arena_fits (n : Z) (s : Arena) : bool :=
  (0 <? ar_top s) && (ar_top s + n <? Z.min (ar_end s) (2 ^ 64))
  && forallb (λ r, r.1 + r.2 <=? ar_top s) (ar_owned s).

Fixpoint remove_piece (x : Z * Z) (l : list (Z * Z)) : list (Z * Z) :=
  match l with [] => [] | y :: l => if decide (x = y) then l else y :: remove_piece x l end.

#[export] Instance arena_sub : SubAllocator Arena := {|
  Alloc _ n s := if arena_fits n s
                 then (ar_top s, mkArena (ar_top s + n) (ar_end s) ((ar_top s, n) :: ar_owned s))
                 else (nullptr, s);
  Free p n s := mkArena (ar_top s) (ar_end s) (remove_piece (p, n) (ar_owned s));
|}.

#[export] Program Instance arena_laws : SubAllocatorLaws Arena := {| owned := ar_owned |}.
Next Obligation.
  intros al n s s'. cbn. unfold arena_fits. destruct (Z.ltb_spec 0 (ar_top s)); cbn [andb].
  - destruct (_ && _); [|by intros [= <-]]. intros [= H0 _]. unfold nullptr in *. lia.
  - by intros [= <-].
Qed.
Next Obligation.
  intros al n s p s' Hn. cbn. unfold arena_fits.
  destruct (_ && _ && _) eqn:Hc; intros [= <- <-] Hne; [|done].
  apply andb_true_iff in Hc as [[H1 H2]%andb_true_iff H3]. cbn. split_and!; try lia; try done.
  rewrite forallb_forall in H3. apply Forall_forall. intros [q m] Hq%list_elem_of_In.
  specialize (H3 _ Hq). cbn in H3. lia.
Qed.
Next Obligation.
  intros p n s Hin. cbn. induction (ar_owned s) as [|y l IH]; [by apply not_elem_of_nil in Hin|]. cbn [remove_piece].
  destruct (decide ((p, n) = y)) as [<- | Hne]; [done|].
  apply elem_of_cons in Hin as [? | Hin]; [done|]. rewrite Permutation_swap. constructor. by apply IH.
Qed.

(** ** Examples *)

Definition demo_start (s : Arena) (total : Z) : BFCAllocator Arena :=
  match new_BFCAllocator s total true with
  | inr a => a
  | inl _ => mkBFC 0 0 0 false s (mkPool [] None [] [] 0 (mkStats 0 0 0 0 0)) [] []
  end.

Definition after (op : Op) (a : BFCAllocator Arena) : BFCAllocator Arena :=
  match run_op backpedal_fuel op a with inr (_, a') => a' | inl _ => a end.

(** Memory of 5000 bytes: three requests, then two of them are freed. *)
Definition demo0 : BFCAllocator Arena := demo_start (mkArena 4096 100000 []) 5000.
Definition demo1 := after (OAlloc 300) demo0.
Definition demo2 := after (OAlloc 256) demo1.
Definition demo3 := after (OVisit 7) demo2.
Definition demo4 := after (OFree 4096) demo3.
Definition demo5 := after (OFree 4608) demo4.

Lemma demo_initial : initial 5000 demo0.
Proof. exists (mkArena 4096 100000 []), true. split; [by vm_compute | done]. Qed.

Definition demo_trace : list (Op * Z) := [(OAlloc 300, 4096); (OAlloc 256, 4608); (OVisit 7, 0); (OFree 4096, 0)].

Lemma demo_reachable4 : reachable backpedal_fuel demo0 demo4 [(4608, 256)] demo_trace.
Proof.
  change [(4608, 256)] with (live_after (OFree 4096) 0 [(4608, 256); (4096, 300)]).
  apply (reach_step _ _ demo3 _ [(OAlloc 300, 4096); (OAlloc 256, 4608); (OVisit 7, 0)]); [|by right; set_solver|by vm_compute|by vm_compute].
  apply (reach_step _ _ demo2 [(4608, 256); (4096, 300)] [(OAlloc 300, 4096); (OAlloc 256, 4608)] (OVisit 7) 0); [|done|by vm_compute|by vm_compute].
  apply (reach_step _ _ demo1 [(4096, 300)] [(OAlloc 300, 4096)] (OAlloc 256) 4608); [|by cbn; lia|by vm_compute|by vm_compute].
  apply (reach_step _ _ demo0 [] [] (OAlloc 300) 4096); [constructor|by cbn; lia|by vm_compute|by vm_compute].
Qed.

Lemma demo_reachable5 : reachable backpedal_fuel demo0 demo5 [] (demo_trace ++ [(OFree 4608, 0)]).
Proof.
  apply (reach_step _ _ demo4 [(4608, 256)] demo_trace (OFree 4608) 0);
    [apply demo_reachable4 | by right; set_solver | by vm_compute | by vm_compute].
Qed.

Lemma bfc_refines_witness :
  ∃ H G fl, heap_steps demo_trace H (next_allocation_id_ (pool demo4)) ∧ rep (pool demo4) G fl ∧ calm G ∧ heap_of G = H.
Proof.
  apply (bfc_refines backpedal_fuel 5000 demo0 (le_n _) ltac:(lia) demo_initial demo4 _ _ demo_reachable4).
Defined.

Lemma bfc_memory_safe_witness :
  RequestedSize 4608 (pool demo4) = inr (256, pool demo4)
  ∧ ∃ base size, (base, size) ∈ owned (suballocator_ demo4) ∧ base <= 4608 ∧ 4608 + 256 <= base + size ∧ (256 | 4608 - base).
Proof.
  destruct (bfc_memory_safe backpedal_fuel 5000 demo0 (le_n _) ltac:(lia) demo_initial demo4 _ _ demo_reachable4) as [H _].
  destruct (H 4608 256 (list_elem_of_here _ _)) as (_&Hr&_&Hb). split; [exact Hr | exact Hb].
Defined.

Lemma bfc_stats_exact_witness :
  bytes_in_use (stats_ (pool demo4)) = 256
  ∧ bytes_in_use (stats_ (pool demo4)) <= max_bytes_in_use (stats_ (pool demo4)) <= memory_limit_ demo4.
Proof.
  split; [by vm_compute|].
  apply (bfc_stats_exact backpedal_fuel 5000 demo0 (le_n _) ltac:(lia) demo_initial demo4 _ _ demo_reachable4).
Defined.

Lemma bfc_defragments_witness :
  ∃ r, r ∈ regions_ (pool demo5) ∧ memory_size_ r = 4864
    ∧ ∃ h c, get_handle (ptr_ r) (pool demo5) = inr (Some h, pool demo5) ∧ chunks_ (pool demo5) !! h = Some c
      ∧ in_use c = false ∧ c_size c = memory_size_ r ∧ c_prev c = None ∧ c_next c = None.
Proof.
  exists (default (mkRegion 0 0 0 []) (regions_ (pool demo5) !! 0%nat)).
  assert (Hr : default (mkRegion 0 0 0 []) (regions_ (pool demo5) !! 0%nat) ∈ regions_ (pool demo5)).
  { apply (list_elem_of_lookup_2 _ 0). by vm_compute. }
  split; [exact Hr|]. split; [by vm_compute|].
  apply (bfc_defragments backpedal_fuel 5000 demo0 (le_n _) ltac:(lia) demo_initial demo5 _ _ demo_reachable5 Hr).
Defined.

(** The second free of a pointer is detected. *)
Lemma bfc_bad_free_detected_witness : run_op backpedal_fuel (OFree 4096) demo4 = inl CheckFailed.
Proof.
  apply (bfc_bad_free_detected backpedal_fuel 5000 demo0 (le_n _) ltac:(lia) demo_initial demo4 _ _ 4096 4864 4096 demo_reachable4).
  - assert (Ho : owned (suballocator_ demo4) = [(4096, 4864)]) by (by vm_compute). rewrite Ho. apply list_elem_of_here.
  - lia.
  - exists 0. done.
  - intros Hx%list_elem_of_singleton. discriminate.
Defined.

Lemma bfc_regions_accounted_witness :
  visits demo4 = [(7%nat, 4096, 4864)] ∧ owned (Destroy demo4) = [].
Proof.
  split; [by vm_compute|].
  apply (bfc_regions_accounted backpedal_fuel 5000 demo0 (le_n _) ltac:(lia) demo_initial demo4 _ _ demo_reachable4).
Defined.

(** An allocator whose sub-allocator has no memory. *)
Definition starved : BFCAllocator Arena := demo_start (mkArena 4096 0 []) 5000.

Lemma bfc_progress_witness :
  run_op backpedal_fuel (OAlloc 100) starved = inl NoFuel
  ∧ started_backpedal_ starved = false ∧ ∃ n, OAlloc 100 = OAlloc n ∧ n <= 2304.
Proof.
  assert (Hi : initial 5000 starved) by (exists (mkArena 4096 0 []), true; split; [by vm_compute | done]).
  assert (Hrun : run_op backpedal_fuel (OAlloc 100) starved = inl NoFuel) by (by vm_compute). split; [exact Hrun|].
  apply (bfc_progress backpedal_fuel 5000 starved (le_n _) ltac:(lia) Hi starved [] [] (OAlloc 100) NoFuel);
    [constructor | cbn; lia | by vm_compute | exact Hrun].
Defined.

(** A sub-allocator without memory. *)
Inductive Refuser := mkRefuser.

#[export] Instance refuser_sub : SubAllocator Refuser := {| Alloc _ _ s := (nullptr, s); Free _ _ s := s |}.

#[export] Program Instance refuser_laws : SubAllocatorLaws Refuser := {| owned := λ _, [] |}.
Next Obligation. done. Qed.
Next Obligation. intros al n s p s' _ Ha Hne. injection Ha. congruence. Qed.
Next Obligation. intros p n s Hin. by apply not_elem_of_nil in Hin. Qed.

Lemma backpedal_ends_iff_witness :
  ∃ a0 : BFCAllocator Refuser, new_BFCAllocator mkRefuser 5000 true = inr a0
    ∧ ((∃ fuel out, AllocateRawInternal fuel 2304 a0 = inr out) ↔ 2304 < 2304)
    ∧ ((∃ fuel out, AllocateRawInternal fuel 2305 a0 = inr out) ↔ 2304 < 2305).
Proof.
  eexists. split; [vm_compute; reflexivity|].
  split; (eapply (backpedal_ends_iff mkRefuser 5000 true);
    [done | done | lia | vm_compute; reflexivity | lia | by vm_compute]).
Defined.

(** Requests within 255 bytes of [2 ^ 64] are rounded to no bytes at all: the
    free chunk is split at its front, and its address is given out for a chunk of
    size 0 and, on the next request, once more.  Freeing both ends the process. *)
Theorem huge_request_aliases :
  RoundedBytes (2 ^ 64 - 1) = 0 ∧
  match (p ← run_op backpedal_fuel (OAlloc (2 ^ 64 - 1)); q ← run_op backpedal_fuel (OAlloc 256); mret (p, q)) demo1 with
  | inr (p, q, a) => p = 4608 ∧ q = 4608
      ∧ (run_op backpedal_fuel (OFree 4608) ;; run_op backpedal_fuel (OFree 4608)) a = inl CheckFailed
  | inl _ => False
  end.
Proof. split; [by vm_compute|]. vm_compute. done. Qed.
