(* ===== verification/BFCDebug.v ===== *)
(** * The diagnostics of the BFC allocator

    [get_bin_debug_info], [DumpMemoryLog] and [RenderOccupancy] of
    [core/common_runtime/bfc_allocator.cc], which run when an allocation has
    failed.  They walk the chunks of every region and check what they find against
    the bins; in every reachable state all these checks hold, and the total that
    the dump reports is the number of bytes in use.  Text that is only logged is
    left out. *)
From S2P Require Import Prelude BFCAllocator BFCHeap BFCRuns BFCSafety.

Open Scope Z_scope.

(** ** Walking the chunks of a region *)

(** [while (h != kInvalidChunkHandle) { c = ChunkFromHandle(h); ...; h = c->next; }] *)
Fixpoint walk {A} (fuel : nat) (f : nat → Chunk → A → M A) (h : option nat) (acc : A) : M A :=
  match h with
  | None => mret acc
  | Some h =>
      match fuel with
      | O => fault NoFuel
      | S fuel =>
          c ← ChunkFromHandle h;
          acc ← f h c acc;
          walk fuel f (c_next c) acc
      end
  end.

(** The walk over the regions, each from the chunk at its start. *)
Fixpoint walk_regions {A} (f : AllocationRegion → nat → Chunk → A → M A) (rs : list AllocationRegion) (acc : A) : M A :=
  match rs with
  | [] => mret acc
  | r :: rs =>
      h ← get_handle (ptr_ r);
      n ← get (λ st, length (chunks_ st));
      acc ← walk n (f r) h acc;
      walk_regions f rs acc
  end.

(** ** Bins *)

Record BinDebugInfo := mkBinInfo {
  total_bytes_in_use : Z;
  total_bytes_in_bin : Z;
  total_requested_bytes_in_use : Z;
  total_chunks_in_use : Z;
  total_chunks_in_bin : Z;
}.

Definition empty_info : BinDebugInfo := mkBinInfo 0 0 0 0 0.

Definition count_chunk (used : bool) (size requested : Z) (i : BinDebugInfo) : BinDebugInfo :=
  if used then
    mkBinInfo (u64 (total_bytes_in_use i + size)) (u64 (total_bytes_in_bin i + size))
              (u64 (total_requested_bytes_in_use i + requested)) (u64 (total_chunks_in_use i + 1))
              (u64 (total_chunks_in_bin i + 1))
  else
    mkBinInfo (total_bytes_in_use i) (u64 (total_bytes_in_bin i + size)) (total_requested_bytes_in_use i)
              (total_chunks_in_use i) (u64 (total_chunks_in_bin i + 1)).

Definition debug_chunk (h : nat) (c : Chunk) (infos : list BinDebugInfo) : M (list BinDebugInfo) :=
  let bin_num := BinNumForSize (c_size c) in
  (if in_use c then mret ()
   else
     bin ← BinFromIndex bin_num;
     cs ← get chunks_;
     CHECK (bool_decide (set_count cs h (free_chunks bin) = 1%nat)) ;;
     CHECK (bool_decide (c_bin_num c = Some bin_num))) ;;
  mret (alter (count_chunk (in_use c) (c_size c) (requested_size c)) bin_num infos).

Definition get_bin_debug_info : M (list BinDebugInfo) :=
  rs ← get regions_;
  walk_regions (λ _, debug_chunk) rs (replicate kNumBins empty_info).

(** ** The dump *)

(** The loop over the bins with its check. *)
Fixpoint check_bins (bin_nums : list nat) (infos : list BinDebugInfo) : M unit :=
  match bin_nums with
  | [] => mret ()
  | b :: bin_nums =>
      bin ← BinFromIndex b;
      match infos !! b with
      | None => fault BadIndex
      | Some i =>
          CHECK (Z.of_nat (length (free_chunks bin)) =? u64 (total_chunks_in_bin i - total_chunks_in_use i)) ;;
          check_bins bin_nums infos
      end
  end.

(** [in_use_by_size[c->size]++]. *)
Definition count_size (_ : nat) (c : Chunk) (m : gmap Z Z) : M (gmap Z Z) :=
  mret (if in_use c then <[c_size c := default 0 (m !! c_size c) + 1]> m else m).

(** [total_bytes += (it.first * it.second)] over the map. *)
Definition total_of (m : gmap Z Z) : Z := map_fold (λ size n acc, u64 (acc + u64 (size * n))) 0 m.

(** [DumpMemoryLog], with the total that it reports. *)
Definition DumpMemoryLog (num_bytes : Z) : M Z :=
  infos ← get_bin_debug_info;
  check_bins (seq 0 kNumBins) infos ;;
  b ← BinFromIndex (BinNumForSize num_bytes);
  _ ← mapM (λ h, ChunkFromHandle h) (free_chunks b);
  rs ← get regions_;
  in_use_by_size ← walk_regions (λ _, count_size) rs ∅;
  mret (total_of in_use_by_size).

(** ** The picture *)

Definition resolution : Z := 100.

Definition fill (c : ascii) (from to : nat) (rendered : list ascii) : list ascii :=
  foldl (λ l i, <[i := c]> l) rendered (seq from (S to - from)).

Definition RenderRegion {St} (total_render_size offset base_ptr ptr size : Z) (c : ascii) (rendered : list ascii)
    : Act St (list ascii) :=
  let start_location := u64 (u64 (ptr - base_ptr + offset) * resolution) / total_render_size in
  CHECK (start_location <? resolution) ;;
  let end_location := u64 (u64 (ptr + size - 1 - base_ptr + offset) * resolution) / total_render_size in
  CHECK (end_location <? resolution) ;;
  mret (fill c (Z.to_nat start_location) (Z.to_nat end_location) rendered).

Definition render_chunk (total region_offset : Z) (r : AllocationRegion) (_ : nat) (c : Chunk) (rendered : list ascii)
    : M (list ascii) :=
  if in_use c then
    let wasted := u64 (c_size c - requested_size c) in
    rendered ← (if 0 <? wasted then
                  RenderRegion total (u64 (region_offset + requested_size c)) (ptr_ r) (c_ptr c) wasted "x"%char rendered
                else mret rendered);
    RenderRegion total region_offset (ptr_ r) (c_ptr c) (requested_size c) "*"%char rendered
  else mret rendered.

Fixpoint render_regions (total region_offset : Z) (rs : list AllocationRegion) (rendered : list ascii) : M (list ascii) :=
  match rs with
  | [] => mret rendered
  | r :: rs =>
      h ← get_handle (ptr_ r);
      n ← get (λ st, length (chunks_ st));
      rendered ← walk n (render_chunk total region_offset r) h rendered;
      render_regions total (u64 (region_offset + memory_size_ r)) rs rendered
  end.

Definition region_sizes (rs : list AllocationRegion) : Z := foldl (λ n r, u64 (n + memory_size_ r)) 0 rs.

Definition no_memory_text : string := "<allocator contains no memory>".

(** The buffer has arbitrary contents before the first [RenderRegion]. *)
Definition RenderOccupancy (buffer : list ascii) : M (list ascii) :=
  rs ← get regions_;
  let total_region_size := region_sizes rs in
  if total_region_size =? 0 then mret (String.list_ascii_of_string no_memory_text)
  else
    rendered ← RenderRegion total_region_size 0 0 0 total_region_size "_"%char buffer;
    render_regions total_region_size 0 rs rendered.

(** ** The walks on a pool that represents a heap *)

Lemma walk_run {A} st (f : nat → Chunk → A → M A) (g : Cell → A → A) p base l fuel acc :
  seg (chunks_ st) p base l None → (length l <= fuel)%nat →
  (∀ x c pr nx acc, x ∈ placed base l → chunks_ st !! cell_h x = Some c → chunk_is c pr (cell_a x) (cell_b x) nx →
     f (cell_h x) c acc st = inr (g x acc, st)) →
  walk fuel f (hd_handle l None) acc st = inr (foldl (λ acc x, g x acc) acc (placed base l), st).
Proof.
  revert p base fuel acc. induction l as [|[h b] l IH]; intros p base fuel acc Hs Hf Hrun; cbn [hd_handle placed foldl].
  - by destruct fuel.
  - destruct fuel as [|fuel]; [cbn in Hf; lia|]. apply seg_cons in Hs as [(c&Hc&Hi) Hs]. cbn [walk].
    step by (chunk_run _ _ _ Hc).
    assert (Hf1 : f h c acc st = inr (g (h, base, b) acc, st)) by (by eapply (Hrun (h, base, b)); [apply list_elem_of_here|..]).
    step by Hf1. destruct Hi as (_&_&_&Hn&_). rewrite Hn. eapply IH; [done | cbn in Hf; lia|].
    intros x c' pr nx acc' Hx. apply Hrun. by apply list_elem_of_further.
Qed.

(** What a walk over all regions computes from the cells. *)
Definition walk_spec {A} (st : Pool) (G : Layout) (f : AllocationRegion → nat → Chunk → A → M A) (g : Cell → A → A) : Prop :=
  ∀ r x c pr nx acc, x ∈ cells G → chunks_ st !! cell_h x = Some c → chunk_is c pr (cell_a x) (cell_b x) nx →
    f r (cell_h x) c acc st = inr (g x acc, st).

Lemma length_cells st G fl : rep st G fl → (length (cells G) <= length (chunks_ st))%nat.
Proof.
  intros Hr. pose proof (Permutation_length (rep_handles _ _ _ Hr)) as Hl.
  rewrite length_app, length_fmap, length_seq in Hl. lia.
Qed.

Lemma placed_length base l : length (placed base l) = length l.
Proof. by rewrite <-(length_fmap cell_h), placed_handles, length_fmap. Qed.

(** The chunk at the start of a region. *)
Lemma region_start st G1 base l G2 fl :
  rep st (G1 ++ (base, l) :: G2) fl → get_handle base st = inr (hd_handle l None, st) ∧ (length l <= length (chunks_ st))%nat.
Proof.
  intros Hr. split.
  - destruct (regions_focus _ _ _ _ _ Hr) as (_&r&_&_&_&Hok&_). pose proof (ro_pos _ _ Hok) as Hp. cbn in Hp.
    destruct l as [|[h b] l]; [cbn in Hp; lia|]. change ((h, b) :: l) with ([] ++ (h, b) :: l) in Hr.
    pose proof (get_handle_block _ _ _ _ _ _ _ _ _ Hr) as Hh. cbn [extent] in Hh. by rewrite Z.add_0_r in Hh.
  - pose proof (length_cells _ _ _ Hr) as Hl. rewrite cells_focus, !length_app, placed_length in Hl. lia.
Qed.

Lemma walk_regions_run {A} st G fl f (g : Cell → A → A) acc :
  rep st G fl → walk_spec st G f g →
  walk_regions f (regions_ st) acc st = inr (foldl (λ acc x, g x acc) acc (cells G), st).
Proof.
  intros Hr Hf.
  assert (Hgen : ∀ R2 G1 G2 acc, G = G1 ++ G2 → Forall2 region_ok R2 G2 →
    walk_regions f R2 acc st = inr (foldl (λ acc x, g x acc) acc (cells G2), st)).
  { intros R2. induction R2 as [|r R2 IH]; intros G1 G2 acc' HG HR; cbn [walk_regions].
    - by apply Forall2_nil_inv_l in HR as ->.
    - apply Forall2_cons_inv_l in HR as ([base l]&G3&Hok&HR&->). rewrite (ro_ptr _ _ Hok). cbn [fst].
      rewrite HG in Hr. destruct (region_start _ _ _ _ _ _ Hr) as [Hh Hlen]. step by Hh. step_get.
      pose proof (rep_segs _ _ _ Hr) as Hs. apply Forall_app in Hs as [_ [Hs _]%Forall_cons]. cbn [fst snd] in Hs.
      erewrite bind_run.
      2: { eapply (walk_run _ _ g); [exact Hs | exact Hlen|]. intros x c pr nx acc2 Hx. eapply Hf.
           rewrite HG, cells_focus. app_solve. }
      rewrite (IH (G1 ++ [(base, l)]) G3); [|by rewrite <-app_assoc|done].
      change (cells ((base, l) :: G3)) with (placed base l ++ cells G3). by rewrite foldl_app. }
  apply (Hgen _ []); [done | apply Hr].
Qed.

Lemma calm_settled G x : calm G → x ∈ cells G → settled (cell_b x).
Proof.
  intros Hc (g&Hg&Hx)%elem_of_cells. unfold calm in Hc. rewrite Forall_forall in Hc. destruct (Hc _ Hg) as [_ Hs].
  rewrite Forall_forall in Hs. apply Hs. destruct (placed_focus _ _ _ Hx) as (l1&l2&->&_).
  rewrite fmap_app. apply elem_of_app. right. apply list_elem_of_here.
Qed.

Definition cell_used (x : Cell) : bool := negb (is_idle (cell_b x)).

Definition cell_requested (x : Cell) : Z := match b_owner (cell_b x) with Used _ r => r | _ => 0 end.

(** The contribution of a cell to the counters of its bin. *)
Definition count_cell (x : Cell) (infos : list BinDebugInfo) : list BinDebugInfo :=
  alter (count_chunk (cell_used x) (cell_size x) (cell_requested x)) (BinNumForSize (cell_size x)) infos.

Lemma debug_walk_spec st G fl : rep st G fl → calm G → walk_spec st G (λ _, debug_chunk) count_cell.
Proof.
  intros Hr Hcalm r x c pr nx acc Hx Hc Hi. pose proof (calm_settled _ _ Hcalm Hx) as Hset.
  pose proof (chunk_in_use _ _ _ _ _ Hi Hset) as Hu. destruct Hi as (_&Hs&_&_&Ho). change (b_size (cell_b x)) with (cell_size x) in Hs.
  unfold debug_chunk, count_cell. rewrite Hu, Hs. fold (cell_used x). destruct (cell_used x) eqn:Hused.
  - step_get. unfold mret, Act_ret. do 3 f_equal. unfold cell_requested, owner_ok in *. unfold cell_used in Hused.
    destruct (b_owner (cell_b x)) as [| |i req] eqn:Hb; [by rewrite (is_idle_true _ Hb) in Hused | done |].
    by destruct Ho as (_&_&->&_).
  - apply negb_false_iff, is_idle_owner in Hused. unfold owner_ok in Ho. rewrite Hused in Ho. destruct Ho as [_ Hbn].
    destruct (rep_bins _ _ _ Hr) as [_ Hbins].
    destruct (Hbins _ (BinNumForSize_lt (cell_size x))) as (bin&L&Hbin&_&HL&HsL&HpL).
    assert (HxL : x ∈ L) by (rewrite HpL; by apply list_elem_of_filter).
    destruct (set_erase_cells (chunks_ st) x L) as (L'&HL'&_&_); [|done|done|].
    { rewrite HpL. apply Forall_forall. intros y [_ Hy]%list_elem_of_filter. by eapply cells_agree. }
    unfold mbind at 1, Act_bind at 1. step by (bin_run _ _ _ Hbin). step_get.
    step_check by (unfold set_count; rewrite HL, HL'; by apply bool_decide_eq_true).
    rewrite (check_run st _) by (by apply bool_decide_eq_true). done.
Qed.

(** The difference that [DumpMemoryLog] checks counts the free cells of a bin. *)
Definition free_count (i : BinDebugInfo) : Z := u64 (total_chunks_in_bin i - total_chunks_in_use i).

Lemma u64_sub_both a b : u64 (u64 a - u64 b) = u64 (a - b).
Proof. unfold u64. by rewrite <-Zminus_mod. Qed.

Lemma u64_sub_l a b : u64 (u64 a - b) = u64 (a - b).
Proof. unfold u64. by rewrite Zminus_mod_idemp_l. Qed.

Lemma count_chunk_free used size req i :
  free_count (count_chunk used size req i)
  = u64 (total_chunks_in_bin i - total_chunks_in_use i + if used then 0 else 1).
Proof.
  unfold free_count, count_chunk. destruct used; cbn [total_chunks_in_bin total_chunks_in_use].
  - rewrite u64_sub_both. f_equal. lia.
  - rewrite u64_sub_l. f_equal. lia.
Qed.

Lemma count_cells_free C infos i info :
  Forall (λ x, settled (cell_b x)) C → infos !! i = Some info →
  ∃ info', foldl (λ acc x, count_cell x acc) infos C !! i = Some info'
    ∧ free_count info' = u64 (total_chunks_in_bin info - total_chunks_in_use info + Z.of_nat (length (filter (in_bin i) C))).
Proof.
  intros HC. revert infos info. induction HC as [|x C Hx HC IH]; intros infos info Hi; cbn [foldl].
  - exists info. split; [done|]. unfold free_count. cbn. by rewrite Z.add_0_r.
  - destruct (decide (BinNumForSize (cell_size x) = i)) as [Hb | Hb].
    + destruct (IH (count_cell x infos) (count_chunk (cell_used x) (cell_size x) (cell_requested x) info)) as (info'&Hl&Hf).
      { unfold count_cell. rewrite Hb, list_lookup_alter_eq, Hi. done. }
      exists info'. split; [done|]. rewrite Hf, <-u64_add_l. fold (free_count (count_chunk (cell_used x) (cell_size x) (cell_requested x) info)).
      rewrite count_chunk_free, u64_add_l. f_equal. rewrite filter_cons. unfold cell_used.
      destruct (decide (in_bin i x)) as [[Hid _]|Hn]; [rewrite (is_idle_true _ Hid); cbn [negb length]; lia|].
      destruct (is_idle (cell_b x)) eqn:Hid; [|cbn [negb]; lia]. destruct Hn. split; [by apply is_idle_owner | done].
    + destruct (IH (count_cell x infos) info) as (info'&Hl&Hf).
      { unfold count_cell. by rewrite list_lookup_alter_ne. }
      exists info'. split; [done|]. rewrite Hf, filter_cons_False; [done|]. by intros [_ ?].
Qed.

Lemma placed_count l : Forall (λ x : nat * Block, good_block x.2) l → 256 * Z.of_nat (length l) <= extent l.
Proof.
  induction 1 as [|[h b] l [Hb [k Hk]] _ IH]; [done|]. cbn [length extent] in *. cbn in Hb, Hk. lia.
Qed.

Lemma cells_count G : Forall good_region G → 256 * Z.of_nat (length (cells G)) <= region_total G.
Proof.
  induction 1 as [|[base l] G Hg _ IH]; [done|]. change (cells ((base, l) :: G)) with (placed base l ++ cells G).
  rewrite length_app, placed_length. cbn [region_total snd]. pose proof (placed_count l Hg). lia.
Qed.

Lemma check_bins_run st G fl bs infos :
  rep st G fl → Forall (λ b, (b < kNumBins)%nat) bs →
  (∀ b, (b < kNumBins)%nat → ∃ i, infos !! b = Some i ∧ free_count i = Z.of_nat (length (filter (in_bin b) (cells G)))) →
  check_bins bs infos st = inr ((), st).
Proof.
  intros Hr Hbs Hi. destruct (rep_bins _ _ _ Hr) as [_ Hbins]. induction Hbs as [|b bs Hb _ IH]; [done|]. cbn [check_bins].
  destruct (Hbins b Hb) as (bin&L&Hbin&_&HL&_&HpL). step by (bin_run _ _ _ Hbin).
  destruct (Hi b Hb) as (i&->&Hf). unfold free_count in Hf.
  step_check by (rewrite Hf, HL, length_fmap, HpL; apply Z.eqb_refl). apply IH.
Qed.

(** ** The total of the dump *)

Lemma u64_comm3 a b c : u64 (u64 (a + b) + c) = u64 (u64 (a + c) + b).
Proof. rewrite !u64_add_l. f_equal. lia. Qed.

Lemma total_of_insert (m : gmap Z Z) s n :
  m !! s = None → total_of (<[s := n]> m) = u64 (total_of m + u64 (s * n)).
Proof.
  intros Hm. unfold total_of. apply (map_fold_insert_L (λ size n acc, u64 (acc + u64 (size * n)))); [|done]. intros j1 j2 z1 z2 y _ _ _. apply u64_comm3.
Qed.

Lemma total_of_range (m : gmap Z Z) : u64 (total_of m) = total_of m.
Proof.
  induction m as [|i x m Hi _] using map_ind; [done|]. rewrite total_of_insert by done. apply u64_u64.
Qed.

Lemma total_of_count (m : gmap Z Z) s :
  total_of (<[s := default 0 (m !! s) + 1]> m) = u64 (total_of m + s).
Proof.
  destruct (m !! s) as [n|] eqn:Hm; cbn [default].
  - rewrite <-(insert_delete_id m s n Hm), insert_insert_eq. rewrite !total_of_insert by apply lookup_delete_eq.
    rewrite !u64_add_r, u64_add_l. f_equal. unfold id. lia.
  - rewrite total_of_insert by done. rewrite u64_add_r. f_equal. lia.
Qed.

Definition count_cell_size (x : Cell) (m : gmap Z Z) : gmap Z Z :=
  if cell_used x then <[cell_size x := default 0 (m !! cell_size x) + 1]> m else m.

Lemma count_sizes_total C m :
  Forall (λ x, settled (cell_b x)) C →
  total_of (foldl (λ acc x, count_cell_size x acc) m C)
  = u64 (total_of m + sizes (filter is_used ((λ x, (cell_a x, cell_b x)) <$> C))).
Proof.
  intros HC. revert m. induction HC as [|x C Hx HC IH]; intros m; cbn [foldl].
  - cbn. by rewrite Z.add_0_r, total_of_range.
  - rewrite IH, fmap_cons, filter_cons. unfold count_cell_size, cell_used, is_used, settled in *. cbn [snd].
    destruct (b_owner (cell_b x)) as [| |i req] eqn:Ho; [|done|].
    + rewrite (is_idle_true _ Ho). cbn [negb]. by rewrite decide_False by auto.
    + assert (Hid : is_idle (cell_b x) = false) by (unfold is_idle; rewrite Ho; done). rewrite Hid. cbn [negb].
      rewrite decide_True by done. cbn [sizes snd]. rewrite total_of_count, u64_add_l. f_equal. unfold cell_size. lia.
Qed.

(** ** The picture *)

Lemma fill_length c from to l : length (fill c from to l) = length l.
Proof.
  unfold fill. generalize (seq from (S to - from)). intros js. revert l.
  induction js as [|i js IH]; intros l; [done|]. cbn [foldl]. by rewrite IH, length_insert.
Qed.

Lemma render_location total v : 0 <= v < total → total < 2 ^ 39 → (u64 (u64 v * resolution) / total <? resolution) = true.
Proof.
  intros Hv Ht. unfold resolution. rewrite !u64_small by (unfold is_u64; rewrite ?u64_small by (unfold is_u64; lia); lia).
  apply Z.ltb_lt, Z.div_lt_upper_bound; lia.
Qed.

Lemma RenderRegion_run {St} (st : St) total offset base p size c l :
  0 <= p - base + offset → 0 < size → p + size - base + offset <= total → total < 2 ^ 39 →
  ∃ l', RenderRegion total offset base p size c l st = inr (l', st) ∧ length l' = length l.
Proof.
  intros H1 H2 H3 H4. unfold RenderRegion. step_check by (apply render_location; lia).
  step_check by (apply render_location; lia). eexists. split; [done|]. apply fill_length.
Qed.

(** One chunk of a region that starts at [offset] of the picture. *)
Lemma render_chunk_run st total offset r base c l :
  ptr_ r = base → base <= c_ptr c → c_ptr c + c_size c - base + offset <= total → 0 <= offset → total < 2 ^ 39 →
  (in_use c = true → 0 < requested_size c <= c_size c) →
  ∃ l', render_chunk total offset r 0 c l st = inr (l', st) ∧ length l' = length l.
Proof.
  intros Hb H1 H2 H3 H4 Hreq. unfold render_chunk. destruct (in_use c); [|by exists l]. specialize (Hreq eq_refl).
  rewrite Hb. rewrite !u64_small by (unfold is_u64; lia).
  destruct (Z.ltb_spec 0 (c_size c - requested_size c)).
  - destruct (RenderRegion_run st total (offset + requested_size c) base (c_ptr c) (c_size c - requested_size c) "x"%char l)
      as (l1&Hr1&Hl1); [lia | lia | lia | done |]. step by Hr1.
    destruct (RenderRegion_run st total offset base (c_ptr c) (requested_size c) "*"%char l1) as (l2&Hr2&Hl2); [lia..|].
    exists l2. split; [done | congruence].
  - step_get. apply RenderRegion_run; lia.
Qed.

Lemma render_walk st total offset r p base l fuel acc :
  seg (chunks_ st) p base l None → (length l <= fuel)%nat → ptr_ r <= base →
  Forall (λ x : nat * Block, good_block x.2) l →
  base + extent l - ptr_ r + offset <= total → 0 <= offset → total < 2 ^ 39 →
  Forall (λ x, match b_owner (cell_b x) with Used _ req => 0 < req <= cell_size x | Loose => False | Idle => True end) (placed base l) →
  ∃ l', walk fuel (render_chunk total offset r) (hd_handle l None) acc st = inr (l', st) ∧ length l' = length acc.
Proof.
  revert p base fuel acc. induction l as [|[h b] l IH]; intros p base fuel acc Hs Hf Hb Hg Htot Ho Ht Hreq; cbn [hd_handle].
  { destruct fuel; by exists acc. }
  destruct fuel as [|fuel]; [cbn in Hf; lia|]. apply seg_cons in Hs as [(c&Hc&Hi) Hs]. cbn [walk placed] in *.
  apply Forall_cons in Hg as [[Hpos _] Hg]. cbn [snd] in Hpos. apply Forall_cons in Hreq as [Hb1 Hreq].
  cbn [extent] in Htot. pose proof (extent_nonneg _ Hg). step by (chunk_run _ _ _ Hc).
  destruct Hi as (Hp&Hsz&_&Hn&Ho').
  destruct (render_chunk_run st total offset r (ptr_ r) c acc) as (l1&Hr1&Hl1); [done | lia | lia | done | done | |].
  { intros Hu. unfold owner_ok, in_use, cell_b, cell_size in *. cbn [snd] in *.
    destruct (b_owner b) as [| |i req]; [by rewrite (proj1 Ho') in Hu | done |].
    destruct Ho' as (_&_&->&_). by rewrite Hsz. }
  change (render_chunk total offset r h c acc) with (render_chunk total offset r 0 c acc). step by Hr1. rewrite Hn.
  destruct (IH (Some h) (base + b_size b) fuel l1) as (l2&Hr2&Hl2); [done | cbn in Hf; lia | lia | done | lia | done | done | done |].
  exists l2. split; [done | congruence].
Qed.

(** Blocks as a client leaves them. *)
Definition fair (G : Layout) : Prop :=
  Forall (λ x, match b_owner (cell_b x) with Used _ req => 0 < req <= cell_size x | Loose => False | Idle => True end) (cells G).

Lemma render_regions_run st G fl total acc :
  rep st G fl → fair G → region_total G <= total → total < 2 ^ 39 →
  ∃ l', render_regions total 0 (regions_ st) acc st = inr (l', st) ∧ length l' = length acc.
Proof.
  intros Hr Hfair Htot Ht.
  assert (Hgen : ∀ R2 G1 G2 offset acc, G = G1 ++ G2 → Forall2 region_ok R2 G2 → offset = region_total G1 →
    ∃ l', render_regions total offset R2 acc st = inr (l', st) ∧ length l' = length acc).
  { intros R2. induction R2 as [|r R2 IH]; intros G1 G2 offset acc' HG HR Hoff; cbn [render_regions]; [by exists acc'|].
    apply Forall2_cons_inv_l in HR as ([base l]&G3&Hok&HR&->). pose proof Hr as Hr'. rewrite HG in Hr'.
    pose proof (rep_good _ _ _ Hr') as Hg. apply Forall_app in Hg as [Hg1 [Hg2 Hg3]%Forall_cons].
    pose proof (region_total_nonneg _ Hg1). pose proof (region_total_nonneg _ Hg3). pose proof (extent_nonneg l Hg2).
    rewrite HG, region_total_app in Htot. cbn [region_total snd] in Htot.
    destruct (region_start _ _ _ _ _ _ Hr') as [Hh Hlen]. rewrite (ro_ptr _ _ Hok). cbn [fst]. step by Hh. step_get.
    pose proof (rep_segs _ _ _ Hr') as Hs. apply Forall_app in Hs as [_ [Hs _]%Forall_cons]. cbn [fst snd] in Hs.
    unfold fair in Hfair. rewrite HG, cells_focus in Hfair. apply Forall_app in Hfair as [Hf1 [Hf2 Hf3]%Forall_app].
    destruct (render_walk st total offset r None base l (length (chunks_ st)) acc') as (l1&Hr1&Hl1);
      try done; try (rewrite (ro_ptr _ _ Hok); cbn [fst]); try lia.
    step by Hr1. rewrite (ro_size _ _ Hok). cbn [snd]. rewrite u64_small by (unfold is_u64; lia).
    destruct (IH (G1 ++ [(base, l)]) G3 (offset + extent l) l1) as (l2&Hr2&Hl2);
      [by rewrite <-app_assoc | done | rewrite region_total_app; cbn; lia |].
    exists l2. split; [done | congruence]. }
  apply (Hgen _ [] G); [done | apply Hr | done].
Qed.

Lemma region_sizes_total R G :
  Forall2 region_ok R G → 0 <= region_total G < 2 ^ 39 → region_sizes R = region_total G.
Proof.
  intros HR. unfold region_sizes.
  assert (Hgen : ∀ n, 0 <= n → n + region_total G < 2 ^ 39 → foldl (λ n r, u64 (n + memory_size_ r)) n R = n + region_total G).
  { induction HR as [|r g R G Hok HR IH]; intros n Hn Hlt; cbn [foldl region_total] in *; [lia|].
    pose proof (extent_nonneg _ (ro_good _ _ Hok)).
    assert (0 <= region_total G).
    { apply region_total_nonneg. eapply Forall2_Forall_r; [exact HR|]. apply Forall_true. by intros ? ? []. }
    rewrite (ro_size _ _ Hok), u64_small by (unfold is_u64; lia). rewrite IH by lia. lia. }
  intros Hlt. rewrite Hgen; lia.
Qed.

Lemma RenderOccupancy_run st G fl buffer :
  rep st G fl → fair G → region_total G < 2 ^ 39 →
  ∃ s, RenderOccupancy buffer st = inr (s, st) ∧ (regions_ st ≠ [] → length s = length buffer).
Proof.
  intros Hr Hfair Ht. pose proof (region_total_nonneg _ (rep_good _ _ _ Hr)) as Hnn. unfold RenderOccupancy. step_get.
  rewrite (region_sizes_total _ _ (rep_regions _ _ _ Hr)) by lia. destruct (Z.eqb_spec (region_total G) 0) as [Hz | Hz].
  - eexists. split; [done|]. intros Hne. exfalso. pose proof (rep_regions _ _ _ Hr) as HR.
    destruct HR as [|r g R G' Hok HR]; [done|]. cbn [region_total] in Hz. pose proof (ro_pos _ _ Hok).
    assert (0 <= region_total G'); [|lia]. apply region_total_nonneg. eapply Forall2_Forall_r; [exact HR|].
    apply Forall_true. by intros ? ? [].
  - destruct (RenderRegion_run st (region_total G) 0 0 0 (region_total G) "_"%char buffer) as (l1&Hr1&Hl1); [lia..|].
    step by Hr1. destruct (render_regions_run st G fl (region_total G) l1) as (l2&Hr2&Hl2); try done; try lia.
    exists l2. split; [done|]. intros _. congruence.
Qed.

(** ** The diagnostics of a reachable state *)

Lemma mapM_chunks st l :
  Forall (λ h, is_Some (chunks_ st !! h)) l → ∃ cs, mapM (λ h, ChunkFromHandle h) l st = inr (cs, st).
Proof.
  induction 1 as [|h l [c Hc] _ IH]; [by exists []|]. destruct IH as [cs Hcs]. exists (c :: cs). cbn [mapM].
  step by (chunk_run _ _ _ Hc). by step by Hcs.
Qed.

Lemma get_bin_debug_info_run st G fl :
  rep st G fl → calm G → get_bin_debug_info st
  = inr (foldl (λ acc x, count_cell x acc) (replicate kNumBins empty_info) (cells G), st).
Proof.
  intros Hr Hc. unfold get_bin_debug_info. step_get. eapply walk_regions_run; [done | by eapply debug_walk_spec].
Qed.

Lemma DumpMemoryLog_run st G fl n :
  rep st G fl → calm G → region_total G < 2 ^ 39 → DumpMemoryLog n st = inr (sizes (in_use_blocks (heap_of G)), st).
Proof.
  intros Hr Hc Ht. pose proof (rep_good _ _ _ Hr) as Hg. unfold DumpMemoryLog. step by (get_bin_debug_info_run _ _ _ Hr Hc).
  assert (Hset : Forall (λ x, settled (cell_b x)) (cells G)) by (apply Forall_forall; intros x Hx; by eapply calm_settled).
  erewrite bind_run; [|eapply check_bins_run; [done| |]].
  2: { apply Forall_forall. intros b Hb. apply elem_of_seq in Hb. lia. }
  2: { intros b Hb. destruct (count_cells_free (cells G) (replicate kNumBins empty_info) b empty_info Hset) as (i&Hi&Hf).
       { by apply lookup_replicate. }
       exists i. split; [done|]. rewrite Hf. apply u64_small. pose proof (cells_count _ Hg).
       pose proof (length_filter (in_bin b) (cells G)). unfold is_u64. cbn. lia. }
  destruct (rep_bins _ _ _ Hr) as [_ Hbins].
  destruct (Hbins _ (BinNumForSize_lt n)) as (bin&L&Hbin&_&HL&_&HpL). step by (bin_run _ _ _ Hbin).
  destruct (mapM_chunks st (free_chunks bin)) as [cs Hcs].
  { rewrite HL, HpL. apply Forall_fmap, Forall_forall. intros x [_ Hx]%list_elem_of_filter.
    destruct (cell_lookup _ _ _ _ Hr Hx) as (c&Hcc&_). by exists c. }
  step by Hcs. step_get.
  erewrite bind_run; [|eapply (walk_regions_run _ _ _ _ count_cell_size); [done|]].
  2: { intros r x c pr nx acc Hx Hcx Hi. unfold count_size, count_cell_size.
       rewrite (chunk_in_use _ _ _ _ _ Hi (calm_settled _ _ Hc Hx)). destruct Hi as (_&->&_). done. }
  unfold mret, Act_ret. do 2 f_equal. rewrite (count_sizes_total _ _ Hset). unfold in_use_blocks. rewrite spots_cells.
  pose proof (sizes_total _ Hg) as Hs. unfold in_use_blocks in Hs. rewrite spots_cells in Hs.
  change (total_of ∅) with 0. apply u64_small. unfold is_u64. split; [|lia]. apply sizes_nonneg, Forall_forall.
  intros x [_ Hx]%list_elem_of_filter. apply list_elem_of_fmap in Hx as (y&->&Hy).
  destruct (cells_good _ _ Hg Hy) as [Hp _]. cbn. lia.
Qed.

(** The diagnostics that run when memory is short do not fail themselves: in
    every reachable state all checks of [get_bin_debug_info], [DumpMemoryLog] and
    [RenderOccupancy] hold - each free chunk is in its bin once, the bins hold
    as many chunks as were counted, every chunk lies within the picture - and the
    total of the dump is [bytes_in_use]. *)
Theorem bfc_diagnostics_pass {S} `{!SubAllocator S, !SubAllocatorLaws S} fuel total (a0 a : BFCAllocator S) live tr :
  (backpedal_fuel <= fuel)%nat → 0 <= total < 2 ^ 39 → initial total a0 → reachable fuel a0 a live tr →
  (∃ infos, get_bin_debug_info (pool a) = inr (infos, pool a))
  ∧ (∀ n, DumpMemoryLog n (pool a) = inr (bytes_in_use (stats_ (pool a)), pool a))
  ∧ (∀ buffer, ∃ s, RenderOccupancy buffer (pool a) = inr (s, pool a)
                    ∧ (regions_ (pool a) ≠ [] → length s = length buffer)).
Proof.
  intros Hfuel Ht Hinit Hreach. destruct (reachable_client fuel total a0 Hfuel Ht Hinit _ _ _ Hreach) as (H&_&Hc).
  destruct (cl_inv _ _ _ Hc) as (G&fl&Hi&HG). pose proof (inv_rep _ _ _ Hi) as Hr. pose proof (inv_calm _ _ _ Hi) as Hcalm.
  pose proof (inv_within _ _ _ Hi). pose proof (inv_limit _ _ _ Hi). split_and!.
  - eexists. by eapply get_bin_debug_info_run.
  - intros n. rewrite (cl_bytes _ _ _ Hc), <-HG. eapply DumpMemoryLog_run; [done | done | lia].
  - intros buffer. eapply RenderOccupancy_run; [done | | lia]. unfold fair. apply Forall_forall. intros x Hx.
    pose proof (calm_settled _ _ Hcalm Hx) as Hset. unfold settled in Hset.
    destruct (b_owner (cell_b x)) as [| |i req] eqn:Ho; [done | done |].
    pose proof (cl_req _ _ _ Hc) as Hreq. rewrite Forall_forall in Hreq.
    specialize (Hreq (cell_a x, cell_b x)). unfold live_pair in Hreq. cbn [snd fst] in Hreq. rewrite Ho in Hreq. apply Hreq.
    apply list_elem_of_filter. split; [unfold is_used; cbn; by rewrite Ho|]. rewrite <-HG, spots_cells.
    by apply (list_elem_of_fmap_2 (λ x, (cell_a x, cell_b x))).
Qed.

Lemma bfc_diagnostics_pass_witness :
  DumpMemoryLog 1000 (pool demo4) = inr (256, pool demo4)
  ∧ ∃ s, RenderOccupancy (replicate 100 "?"%char) (pool demo4) = inr (s, pool demo4)
         ∧ (regions_ (pool demo4) ≠ [] → length s = length (replicate 100 "?"%char)).
Proof.
  destruct (bfc_diagnostics_pass backpedal_fuel 5000 demo0 demo4 _ _ (le_n _) ltac:(lia) demo_initial demo_reachable4)
    as (_&Hd&Hr). split; [exact (Hd 1000) | exact (Hr _)].
Defined.
