(* ===== verification/AllocatorRetry.v ===== *)
(** * Retrying allocations ([core/common_runtime/allocator_retry.{h,cc}])

    [AllocatorRetry::AllocateRaw] repeats an allocation until it succeeds or a
    deadline has passed, and [BFCAllocator::AllocateRaw], which uses it.  The clock
    and what other threads do to the allocator while a call waits are arguments of
    the model; the condition variable only decides how long a wait lasts, so that a
    notification is one of the possible moments at which the wait ends. *)
From S2P Require Import Prelude BFCAllocator BFCHeap.

Open Scope Z_scope.

Section Retry.
Context {St : Type}.
(** The allocation, with the argument [verbose_failure]. *)
Context (alloc_func : bool → Act St Z).
(** The [k]th reading of the clock, and the effect of other threads during the
    [k]th wait. *)
Context (now : nat → Z) (others : nat → St → St).

(** The loop, before the [k]th attempt; [deadline] is [None] while [first] holds.
    [max_millis_to_wait * 1000] is an [int]. *)
Fixpoint retry_loop (fuel k : nat) (max_millis_to_wait : Z) (deadline : option Z) : Act St Z :=
  match fuel with
  | O => fault NoFuel
  | S fuel =>
      ptr ← alloc_func false;
      if negb (ptr =? nullptr) then mret ptr
      else
        let t := now k in
        let deadline_micros := default (u64 (t + i32 (max_millis_to_wait * 1000))) deadline in
        if t <? deadline_micros then
          modify (others k) ;;
          retry_loop fuel (S k) max_millis_to_wait (Some deadline_micros)
        else alloc_func true
  end.

(** [AllocatorRetry::AllocateRaw]. *)
Definition RetryAllocateRaw (fuel : nat) (max_millis_to_wait num_bytes : Z) : Act St Z :=
  if num_bytes =? 0 then mret nullptr else retry_loop fuel 0 max_millis_to_wait None.

(** [j] attempts that fail, with what other threads do after each. *)
Inductive failing : nat → nat → St → St → Prop :=
  | failing_none k st : failing 0 k st st
  | failing_more j k st st1 st2 :
      alloc_func false st = inr (nullptr, st1) → failing j (S k) (others k st1) st2 →
      failing (S j) k st st2.

(** The outcome of a call whose deadline is [d]: after [j] failed attempts before
    the deadline, the first attempt that does not fail, or the last one. *)
Definition retry_outcome (d : Z) (k : nat) (st : St) (out : Fault + Z * St) : Prop :=
  ∃ j st1, failing j k st st1 ∧ (∀ i, (k <= i < k + j)%nat → now i < d) ∧
    match alloc_func false st1 with
    | inl e => out = inl e
    | inr (p, st2) =>
        if p =? nullptr then d <= now (k + j) ∧ out = alloc_func true st2 else out = inr (p, st2)
    end.

Lemma retry_loop_outcome d last max_millis fuel k st :
  d <= now last → (k <= last)%nat → (last - k < fuel)%nat →
  retry_outcome d k st (retry_loop fuel k max_millis (Some d) st).
Proof.
  revert k st. induction fuel as [|fuel IH]; intros k st Hd Hk Hf; [lia|]. cbn [retry_loop].
  unfold mbind at 1, Act_bind at 1. destruct (alloc_func false st) as [e|[p st1]] eqn:Ha.
  { exists 0%nat, st. split; [constructor|]. split; [lia|]. by rewrite Ha. }
  destruct (Z.eqb_spec p nullptr) as [-> | Hne]; cbn [negb].
  - cbn [default from_option id]. destruct (Z.ltb_spec (now k) d) as [Hlt | Hge].
    + assert (k ≠ last) by (intros ->; lia). step_get.
      destruct (IH (S k) (others k st1)) as (j&st2&Hfail&Hbefore&Hout); [done | lia | lia |].
      exists (S j), st2. split; [by econstructor|]. split.
      * intros i Hi. destruct (decide (i = k)) as [-> | Hik]; [done|]. apply Hbefore. lia.
      * by rewrite Nat.add_succ_r.
    + exists 0%nat, st. split; [constructor|]. split; [lia|]. by rewrite Ha, Nat.add_0_r.
  - exists 0%nat, st. split; [constructor|]. split; [lia|]. rewrite Ha. by rewrite (proj2 (Z.eqb_neq _ _) Hne).
Qed.

(** A call ends once a reading of the clock has passed its deadline: it returns
    the pointer of the first attempt that is not null, and null only if every
    attempt failed, the last one after the deadline. *)
Theorem retry_ends max_millis num_bytes last fuel st :
  num_bytes ≠ 0 → 0 <= max_millis * 1000 < 2 ^ 31 → 0 <= now 0 → now 0 + max_millis * 1000 < 2 ^ 64 →
  now 0 + max_millis * 1000 <= now last → (last < fuel)%nat →
  retry_outcome (now 0%nat + max_millis * 1000) 0 st (RetryAllocateRaw fuel max_millis num_bytes st).
Proof.
  intros Hn Hm H0 H64 Hlast Hf. unfold RetryAllocateRaw. rewrite (proj2 (Z.eqb_neq _ _) Hn).
  assert (Heq : retry_loop fuel 0 max_millis None st = retry_loop fuel 0 max_millis (Some (now 0%nat + max_millis * 1000)) st).
  { destruct fuel as [|fuel]; [done|]. cbn [retry_loop default from_option].
    assert (Hi : i32 (max_millis * 1000) = max_millis * 1000) by (unfold i32; rewrite Z.mod_small by lia; lia).
    rewrite Hi, u64_small by (unfold is_u64; lia). done. }
  rewrite Heq. apply (retry_loop_outcome _ last); [done | lia | lia].
Qed.
End Retry.

(** ** The public calls of the BFC allocator *)

Section Calls.
Context {S : Type} `{!SubAllocator S}.
Context (now : nat → Z) (others : nat → BFCAllocator S → BFCAllocator S).

Definition kMaxMillisToWait : Z := 10000.

(** [AllocateRaw(alignment, num_bytes)]: one attempt, then the retries.
    [dump_log_on_failure] only adds logging. *)
Definition AllocateRaw (fuel rounds : nat) (num_bytes : Z) : Act (BFCAllocator S) Z :=
  r ← AllocateRawInternal fuel num_bytes;
  if negb (r =? nullptr) then mret r
  else RetryAllocateRaw (λ _, AllocateRawInternal fuel num_bytes) now others rounds kMaxMillisToWait num_bytes.

(** [AllocateRaw(alignment, num_bytes, allocation_attr)]. *)
Definition AllocateRawWithAttributes (fuel rounds : nat) (no_retry_on_failure : bool) (num_bytes : Z)
    : Act (BFCAllocator S) Z :=
  if no_retry_on_failure then AllocateRawInternal fuel num_bytes else AllocateRaw fuel rounds num_bytes.

(** [DeallocateRaw]: the notification wakes the calls that wait. *)
Definition DeallocateRaw (p : Z) : Act (BFCAllocator S) unit := on_pool (DeallocateRawInternal p).

(** Without retries a call is one attempt; with them it is an attempt, and the
    attempts of the retry loop when that one returns null. *)
Lemma AllocateRaw_ends fuel rounds last num_bytes a :
  0 < num_bytes → 0 <= now 0%nat → now 0%nat + 10000000 < 2 ^ 64 → now 0%nat + 10000000 <= now last → (last < rounds)%nat →
  match AllocateRawInternal fuel num_bytes a with
  | inl e => AllocateRaw fuel rounds num_bytes a = inl e
  | inr (p, a') =>
      if p =? nullptr
      then retry_outcome (λ _, AllocateRawInternal fuel num_bytes) now others (now 0%nat + 10000000) 0 a'
             (AllocateRaw fuel rounds num_bytes a)
      else AllocateRaw fuel rounds num_bytes a = inr (p, a')
  end.
Proof.
  intros Hn H0 H64 Hlast Hr. unfold AllocateRaw. unfold mbind, Act_bind.
  destruct (AllocateRawInternal fuel num_bytes a) as [e|[p a']]; [done|].
  destruct (p =? nullptr); cbn [negb]; [|done].
  apply (retry_ends _ _ _ kMaxMillisToWait _ last); unfold kMaxMillisToWait; lia || done.
Qed.
End Calls.
