(* ===== verification/DynamicPtr.v ===== *)
(** * A pointer that is read often and replaced rarely

    [tensorflow_serving/util/fast_read_dynamic_ptr.h], with the [Notification] of
    [core/platform/default/notification.h] that it waits on.  A
    [FastReadDynamicPtr] owns the current [ReleasableSharedPtr]; [get] gives out
    read-only pointers to its object, [Update] puts another one in its place and
    waits until the last pointer to the old object is gone.

    Each [ReleasableSharedPtr] is a [Cell] with an address; the control block of its
    [read_only_object_], which lives as long as a shared pointer does, is kept apart
    in [use_count].  When the count becomes zero the deleter calls [Notify] on the
    cell, also when the cell has been freed: that is the fault the theorems
    exclude.  A call of [Update] is cut where other threads can run: before and
    after it holds [mutex_], and where it waits. *)
From S2P Require Import Prelude.

(** ** State *)

Section dynamic_ptr.
Context {T : Type}.

(** A [ReleasableSharedPtr]: [object_], [no_longer_referenced_] and whether
    [read_only_object_] is set. *)
Record Cell := mkCell {
  c_object : option T;
  c_notified : bool;
  c_read_only : bool }.

(** The program points of [Update]: [local_ptr] holds the new cell; it holds the
    old one; [BlockingRelease] waits.  The destructor of the whole is the second
    and third for the last cell, with the flag set. *)
Inductive Updater :=
  | UConstructed (a : nat)
  | USwapped (a : nat) (destroy : bool)
  | UWaiting (a : nat) (destroy : bool).

Record Ptr := mkPtr {
  cells : gmap nat Cell;          (* the cells that exist *)
  use_count : gmap nat nat;       (* of the control block of each cell *)
  next_cell : nat;
  object_ : option nat;           (* the current cell; [None] once destroyed *)
  readers : list (option nat);    (* the [ReadPtr]s: a control block, or empty *)
  updaters : list Updater;
  returned : list (option T);     (* the results of [Update] *)
  deleted : list T;               (* what the destructor deleted *)
  faulty : bool }.                (* freed memory was used or an assertion failed *)
Implicit Types st : Ptr.

(** ** Field updates *)

Definition set_cells x st : Ptr :=
  mkPtr x (use_count st) (next_cell st) (object_ st) (readers st) (updaters st)
    (returned st) (deleted st) (faulty st).
Definition set_use_count x st : Ptr :=
  mkPtr (cells st) x (next_cell st) (object_ st) (readers st) (updaters st)
    (returned st) (deleted st) (faulty st).
Definition set_object x st : Ptr :=
  mkPtr (cells st) (use_count st) (next_cell st) x (readers st) (updaters st)
    (returned st) (deleted st) (faulty st).
Definition set_readers x st : Ptr :=
  mkPtr (cells st) (use_count st) (next_cell st) (object_ st) x (updaters st)
    (returned st) (deleted st) (faulty st).
Definition set_updaters x st : Ptr :=
  mkPtr (cells st) (use_count st) (next_cell st) (object_ st) (readers st) x
    (returned st) (deleted st) (faulty st).
Definition add_returned o st : Ptr :=
  mkPtr (cells st) (use_count st) (next_cell st) (object_ st) (readers st) (updaters st)
    (returned st ++ [o]) (deleted st) (faulty st).
Definition add_deleted o st : Ptr :=
  mkPtr (cells st) (use_count st) (next_cell st) (object_ st) (readers st) (updaters st)
    (returned st) (deleted st ++ option_list o) (faulty st).
Definition fault st : Ptr :=
  mkPtr (cells st) (use_count st) (next_cell st) (object_ st) (readers st) (updaters st)
    (returned st) (deleted st) true.

(** ** Shared pointers *)

(** [Notify] of the cell at [a]. *)
Definition Notify (a : nat) st : Ptr :=
  match cells st !! a with
  | None => fault st
  | Some c =>
      if c_notified c then fault st
      else set_cells (<[a := mkCell (c_object c) true (c_read_only c)]> (cells st)) st
  end.

(** A shared pointer with the control block of [a] is copied, and destroyed: the
    last one calls the deleter, whatever pointer it owns. *)
Definition share (a : nat) st : Ptr := set_use_count (alter S a (use_count st)) st.

Definition unshare (a : nat) st : Ptr :=
  match use_count st !! a with
  | None | Some 0 => fault st
  | Some (S n) =>
      let st := set_use_count (<[a := n]> (use_count st)) st in
      if decide (n = 0) then Notify a st else st
  end.

(** The constructor: an object, null or not, and a control block with one owner. *)
Definition new_ReleasableSharedPtr (object : option T) st : nat * Ptr :=
  (next_cell st,
   mkPtr (<[next_cell st := mkCell object false true]> (cells st))
     (<[next_cell st := 1]> (use_count st)) (S (next_cell st)) (object_ st) (readers st)
     (updaters st) (returned st) (deleted st) (faulty st)).

(** [BlockingRelease]: [read_only_object_ = nullptr]; the condition it waits for;
    and [std::move(object_)]. *)
Definition release_read_only (a : nat) st : Ptr :=
  match cells st !! a with
  | None => fault st
  | Some c =>
      if c_read_only c
      then unshare a (set_cells (<[a := mkCell (c_object c) (c_notified c) false]> (cells st)) st)
      else st
  end.

Definition can_release (c : Cell) : bool :=
  match c_object c with None => true | Some _ => c_notified c end.

Definition move_object (a : nat) st : Ptr :=
  set_cells (alter (λ c, mkCell None (c_notified c) (c_read_only c)) a (cells st)) st.

Definition free_cell (a : nat) st : Ptr := set_cells (delete a (cells st)) st.

(** The destructor of a cell whose object is gone: [BlockingRelease] does not wait. *)
Definition delete_ReleasableSharedPtr (a : nat) st : Ptr :=
  free_cell a (release_read_only a st).

(** ** Operations *)

(** [get]: a copy of the current cell's [read_only_object_]. *)
Definition get st : option Ptr :=
  a ← object_ st;
  Some (match cells st !! a with
        | None => fault st
        | Some c =>
            if c_read_only c then set_readers (readers st ++ [Some a]) (share a st)
            else set_readers (readers st ++ [None]) st
        end).

(** A [ReadPtr] of a client is copied or destroyed. *)
Definition copy_reader (k : nat) st : option Ptr :=
  r ← readers st !! k;
  Some (set_readers (readers st ++ [r]) (from_option share (λ st, st) r st)).

Definition drop_reader (k : nat) st : option Ptr :=
  r ← readers st !! k;
  Some (set_readers (delete k (readers st)) (from_option unshare (λ st, st) r st)).

(** [Update] is called; its threads run. *)
Definition Update_begin (object : option T) st : option Ptr :=
  _ ← object_ st;
  let '(a, st) := new_ReleasableSharedPtr object st in
  Some (set_updaters (updaters st ++ [UConstructed a]) st).

(** The end of a call: the object is moved out and the cell destroyed.  The
    destructor deletes the object. *)
Definition finish_release (a : nat) (destroy : bool) (o : option T) st : Ptr :=
  if destroy then free_cell a (add_deleted o (move_object a st))
  else add_returned o (delete_ReleasableSharedPtr a (move_object a st)).

Definition run_updater (k : nat) st : option Ptr :=
  u ← updaters st !! k;
  match u with
  | UConstructed a =>
      old ← object_ st;
      Some (set_object (Some a) (set_updaters (<[k := USwapped old false]> (updaters st)) st))
  | USwapped a d =>
      Some (set_updaters (<[k := UWaiting a d]> (updaters st)) (release_read_only a st))
  | UWaiting a d =>
      c ← cells st !! a;
      if can_release c
      then Some (set_updaters (delete k (updaters st)) (finish_release a d (c_object c) st))
      else None
  end.

(** The destructor, which its owner calls when no call is under way. *)
Definition Destroy st : option Ptr :=
  a ← object_ st;
  if decide (updaters st = [])
  then Some (set_object None (set_updaters [USwapped a true] st)) else None.

(** The constructor. *)
Definition new_FastReadDynamicPtr (object : option T) : Ptr :=
  let '(a, st) := new_ReleasableSharedPtr object (mkPtr ∅ ∅ 0 None [] [] [] [] false) in
  set_object (Some a) st.

(** ** Executions *)

Inductive Action :=
  | AGet | ACopy (k : nat) | ADrop (k : nat)
  | AUpdate (object : option T) | ARun (k : nat) | ADestroy.

Definition act (x : Action) st : option Ptr :=
  match x with
  | AGet => get st
  | ACopy k => copy_reader k st
  | ADrop k => drop_reader k st
  | AUpdate o => Update_begin o st
  | ARun k => run_updater k st
  | ADestroy => Destroy st
  end.

Inductive executes (st0 : Ptr) : list Action → Ptr → Prop :=
  | executes_nil : executes st0 [] st0
  | executes_snoc xs x st st' :
      executes st0 xs st → act x st = Some st' → executes st0 (xs ++ [x]) st'.

(** The objects given to the pointer; none of them is null in the calls of the
    managers. *)
Definition given (x : Action) : option (option T) :=
  match x with AUpdate o => Some o | _ => None end.

Definition non_null (x : Action) : bool :=
  match x with AUpdate None => false | _ => true end.

(** ** Who owns what *)

Definition updater_cell (u : Updater) : nat :=
  match u with UConstructed a | USwapped a _ | UWaiting a _ => a end.

Definition owners st : list nat := option_list (object_ st) ++ (updater_cell <$> updaters st).

Definition held (a : nat) st : nat := length (filter (λ r, r = Some a) (readers st)).

Definition is_waiting (a : nat) (u : Updater) : bool :=
  match u with UWaiting b _ => Nat.eqb a b | _ => false end.

Definition waits (a : nat) st : bool := existsb (is_waiting a) (updaters st).

(** The shared pointers of a cell: those of clients and its own, until it waits. *)
Definition total (a : nat) st : nat := held a st + if waits a st then 0 else 1.

(** The cell at [a] has an object, and is notified when the last pointer is gone. *)
Definition cell_ok (a : nat) st : Prop :=
  use_count st !! a = Some (total a st) ∧
  ∃ o, cells st !! a = Some (mkCell (Some o) (bool_decide (total a st = 0)) (negb (waits a st))).

Record inv st : Prop := {
  i_nodup : NoDup (owners st);
  i_cell : ∀ a, a ∈ owners st → cell_ok a st;
  i_freed : ∀ a, a ∉ owners st → cells st !! a = None;
  i_new : ∀ a, UConstructed a ∈ updaters st → held a st = 0;
  i_readers : ∀ r, r ∈ readers st → ∃ a, r = Some a ∧ a ∈ owners st;
  i_next : ∀ a, a ∈ owners st → a < next_cell st;
  i_faulty : faulty st = false }.

Lemma waits_true a st : waits a st = true ↔ ∃ d, UWaiting a d ∈ updaters st.
Proof.
  unfold waits. rewrite existsb_exists. split.
  - intros (u&Hu%list_elem_of_In&Hw). destruct u; try done.
    apply Nat.eqb_eq in Hw as <-. eauto.
  - intros [d Hd]. eexists. split; [by apply list_elem_of_In|]. apply Nat.eqb_refl.
Qed.

Lemma held_nil a st : Some a ∉ readers st → held a st = 0.
Proof.
  intros Hn. unfold held. induction (readers st) as [|r l IH]; [done|].
  apply not_elem_of_cons in Hn as [Hr Hl]. rewrite filter_cons_False by congruence. auto.
Qed.

(** A cell that no longer has pointers of clients stays so unless one is given out. *)
Lemma reader_owner st a : inv st → a ∉ owners st → held a st = 0.
Proof.
  intros Hi Ha. apply held_nil. intros Hr.
  destruct (i_readers _ Hi _ Hr) as (b&[= <-]&Hb). done.
Qed.

Lemma unshare_cell a n o ro st :
  use_count st !! a = Some (S n) → cells st !! a = Some (mkCell o false ro) →
  unshare a st = set_cells (<[a := mkCell o (bool_decide (n = 0)) ro]> (cells st))
                   (set_use_count (<[a := n]> (use_count st)) st).
Proof.
  intros Hu Hc. unfold unshare. rewrite Hu. case_decide as Hn.
  - subst. unfold Notify. cbn. by rewrite Hc.
  - rewrite bool_decide_false by done. unfold set_cells, set_use_count. cbn.
    by rewrite (insert_id (cells st)).
Qed.

(** The invariant after a step that keeps the cells other than the one at [a]. *)
Lemma inv_at a st st' :
  inv st →
  NoDup (owners st') → (∀ b, b ∈ owners st' ↔ b ∈ owners st) →
  (∀ b, b ≠ a → cells st' !! b = cells st !! b ∧ use_count st' !! b = use_count st !! b ∧
     total b st' = total b st ∧ waits b st' = waits b st) →
  cell_ok a st' → a ∈ owners st →
  (∀ b, UConstructed b ∈ updaters st' → held b st' = 0) →
  (∀ r, r ∈ readers st' → r ∈ readers st ∨ r = Some a) →
  next_cell st' = next_cell st → faulty st' = false → inv st'.
Proof.
  intros Hi Hnd Hown Heq Ha Hin Hnew Hread Hnext Hf. split; try done.
  - intros b Hb. destruct (decide (b = a)) as [->|Hne]; [done|].
    destruct (Heq b Hne) as (Hc&Hu&Ht&Hw). unfold cell_ok. rewrite Hc, Hu, Ht, Hw.
    by apply (i_cell _ Hi), Hown.
  - intros b Hb. destruct (decide (b = a)) as [->|Hne]; [by rewrite Hown in Hb|].
    destruct (Heq b Hne) as (->&_). apply (i_freed _ Hi). by rewrite <-Hown.
  - intros r [Hr| ->]%Hread.
    + destruct (i_readers _ Hi _ Hr) as (b&->&Hb). exists b. by rewrite Hown.
    + exists a. by rewrite Hown.
  - intros b Hb. rewrite Hnext. by apply (i_next _ Hi), Hown.
Qed.

(** ** Every action keeps the invariant *)

Lemma count_snoc (l : list (option nat)) r a :
  length (filter (λ r, r = Some a) (l ++ [r])) =
  length (filter (λ r, r = Some a) l) + if decide (r = Some a) then 1 else 0.
Proof. rewrite filter_app, length_app, filter_cons. by case_decide. Qed.

Lemma count_delete (l : list (option nat)) k r a :
  l !! k = Some r →
  length (filter (λ r, r = Some a) l) =
  length (filter (λ r, r = Some a) (delete k l)) + if decide (r = Some a) then 1 else 0.
Proof.
  intros Hk. rewrite (delete_Permutation l k r Hk) at 1. rewrite filter_cons.
  case_decide; cbn; lia.
Qed.

Lemma current_owner st a : object_ st = Some a → a ∈ owners st.
Proof. unfold owners. intros ->. left. Qed.

Lemma updater_owner st u : u ∈ updaters st → updater_cell u ∈ owners st.
Proof. intros Hu. apply elem_of_app. right. by apply list_elem_of_fmap_2. Qed.

Lemma current_not_updated st a u : inv st → object_ st = Some a → u ∈ updaters st → updater_cell u ≠ a.
Proof.
  intros Hi Ha Hu Heq. pose proof (i_nodup _ Hi) as Hnd. unfold owners in Hnd. rewrite Ha in Hnd.
  apply NoDup_cons in Hnd as [Hnd _]. apply Hnd. rewrite <-Heq. by apply list_elem_of_fmap_2.
Qed.

Lemma current_not_waiting st a : inv st → object_ st = Some a → waits a st = false.
Proof.
  intros Hi Ha. apply not_true_is_false. intros [d Hd]%waits_true.
  by eapply (current_not_updated _ _ _ Hi Ha Hd).
Qed.

(** A shared pointer of the cell at [a] is copied. *)
Lemma share_inv a st :
  inv st → a ∈ owners st → 0 < total a st → UConstructed a ∉ updaters st →
  inv (set_readers (readers st ++ [Some a]) (share a st)).
Proof.
  intros Hi Ha Hpos Hnew. destruct (i_cell _ Hi a Ha) as (Hu&o&Hc).
  set (st' := set_readers _ _).
  assert (Hheld : ∀ b, held b st' = held b st + if decide (b = a) then 1 else 0).
  { intros b. unfold held, st'. cbn. rewrite count_snoc. repeat case_decide; congruence. }
  assert (Htot : total a st' = S (total a st)).
  { unfold total. rewrite Hheld, decide_True by done. unfold waits, st'. cbn. lia. }
  apply (inv_at a st); [exact Hi | exact (i_nodup _ Hi) | done | | | done | | | done | exact (i_faulty _ Hi)].
  - intros b Hb. split_and!; [done | | | done].
    + unfold st'. cbn. by rewrite lookup_alter_ne.
    + unfold total. by rewrite Hheld, decide_False, Nat.add_0_r by done.
  - split; [|exists o].
    + rewrite Htot. unfold st'. cbn. by rewrite lookup_alter_eq, Hu.
    + rewrite Htot. unfold st'. cbn. rewrite Hc. rewrite !bool_decide_false by lia. done.
  - intros b Hb. rewrite Hheld, decide_False by (intros ->; done).
    by rewrite (i_new _ Hi b Hb).
  - intros r. unfold st'. cbn. rewrite elem_of_app, list_elem_of_singleton. auto.
Qed.

Lemma get_inv st st' : inv st → get st = Some st' → inv st'.
Proof.
  intros Hi Hget. unfold get in Hget. destruct (object_ st) as [a|] eqn:Ha; [|done]. cbn in Hget.
  pose proof (current_not_waiting _ _ Hi Ha) as Hw. pose proof (current_owner _ _ Ha) as Hin.
  destruct (i_cell _ Hi a Hin) as (_&o&Hc). rewrite Hc, Hw in Hget. cbn in Hget.
  injection Hget as <-. apply share_inv; [done | done | |].
  - unfold total. rewrite Hw. lia.
  - intros Hu. by apply (current_not_updated _ _ _ Hi Ha Hu).
Qed.

Lemma reader_held st k a : readers st !! k = Some (Some a) → 0 < held a st.
Proof. intros Hk. unfold held. rewrite (count_delete _ _ _ _ Hk), decide_True by done. lia. Qed.

Lemma reader_old st k a : inv st → readers st !! k = Some (Some a) → UConstructed a ∉ updaters st.
Proof. intros Hi Hk Hu. pose proof (reader_held _ _ _ Hk). rewrite (i_new _ Hi a Hu) in *. lia. Qed.

Lemma reader_cell st k r :
  inv st → readers st !! k = Some r → ∃ a, r = Some a ∧ a ∈ owners st ∧ readers st !! k = Some (Some a).
Proof.
  intros Hi Hk. destruct (i_readers _ Hi r) as (a&->&Ha); [by eapply list_elem_of_lookup_2|]. eauto.
Qed.

Lemma copy_inv k st st' : inv st → copy_reader k st = Some st' → inv st'.
Proof.
  intros Hi Hcopy. unfold copy_reader in Hcopy. destruct (readers st !! k) as [r|] eqn:Hk; [|done].
  cbn in Hcopy. injection Hcopy as <-. destruct (reader_cell _ _ _ Hi Hk) as (a&->&Ha&_).
  apply share_inv; [done | done | |by eapply reader_old].
  pose proof (reader_held _ _ _ Hk). unfold total. lia.
Qed.

Lemma drop_inv k st st' : inv st → drop_reader k st = Some st' → inv st'.
Proof.
  intros Hi Hdrop. unfold drop_reader in Hdrop. destruct (readers st !! k) as [r|] eqn:Hk; [|done].
  cbn in Hdrop. injection Hdrop as <-. destruct (reader_cell _ _ _ Hi Hk) as (a&->&Ha&_).
  destruct (i_cell _ Hi a Ha) as (Hu&o&Hc). pose proof (reader_held _ _ _ Hk) as Hpos. cbn [from_option].
  destruct (total a st) as [|n] eqn:Et; [unfold total in Et; lia|].
  rewrite bool_decide_false in Hc by lia. rewrite (unshare_cell _ _ _ _ _ Hu Hc).
  set (st' := set_readers _ _).
  assert (Hheld : ∀ b, held b st = held b st' + if decide (b = a) then 1 else 0).
  { intros b. unfold held, st'. cbn. rewrite (count_delete _ _ _ _ Hk). repeat case_decide; congruence. }
  assert (Htot : total a st' = n).
  { unfold total in *. rewrite Hheld, decide_True in Et by done. unfold waits, st' in *. cbn in *. lia. }
  apply (inv_at a st); [exact Hi | exact (i_nodup _ Hi) | done | | | done | | | done | exact (i_faulty _ Hi)].
  - intros b Hb. unfold st'. cbn. rewrite !lookup_insert_ne by done. split_and!; [done.. | | done].
    unfold total. by rewrite (Hheld b), decide_False, Nat.add_0_r by done.
  - split; [|exists o]; rewrite Htot; unfold st'; cbn; by rewrite lookup_insert_eq.
  - intros b Hb. pose proof (i_new _ Hi b Hb) as H0. rewrite Hheld in H0. lia.
  - intros r Hr. left. unfold st' in Hr. cbn in Hr. rewrite (delete_Permutation _ _ _ Hk). by right.
Qed.

Lemma waits_cons a st u rest :
  updaters st ≡ₚ u :: rest → waits a st = is_waiting a u || existsb (is_waiting a) rest.
Proof.
  intros Hp. apply eq_true_iff_eq. rewrite waits_true, orb_true_iff, existsb_exists. setoid_rewrite Hp.
  split.
  - intros [d [<-|Hd]%elem_of_cons]; [left; apply Nat.eqb_refl|]. right. eexists.
    split; [by apply list_elem_of_In|]. apply Nat.eqb_refl.
  - intros [Hw|(v&Hv%list_elem_of_In&Hw)].
    + destruct u; try done. apply Nat.eqb_eq in Hw as <-. eexists. left.
    + destruct v; try done. apply Nat.eqb_eq in Hw as <-. eexists. by right.
Qed.

Lemma owners_cons st u rest :
  updaters st ≡ₚ u :: rest → owners st ≡ₚ updater_cell u :: option_list (object_ st) ++ (updater_cell <$> rest).
Proof. intros Hp. unfold owners. rewrite Hp. cbn. by rewrite Permutation_middle. Qed.

Lemma update_begin_inv o st st' : inv st → Update_begin (Some o) st = Some st' → inv st'.
Proof.
  intros Hi Hup. unfold Update_begin in Hup. destruct (object_ st) eqn:Hobj; [|done]. cbn in Hup.
  injection Hup as <-. set (a := next_cell st). set (st' := set_updaters _ _).
  assert (Ha : a ∉ owners st) by (intros H%(i_next _ Hi); unfold a in *; lia).
  assert (Hup : updaters st' ≡ₚ UConstructed a :: updaters st).
  { unfold st'. cbn. by rewrite Permutation_app_comm. }
  assert (Hown : owners st' ≡ₚ a :: owners st).
  { rewrite (owners_cons _ _ _ Hup). done. }
  assert (Hw : ∀ b, waits b st' = waits b st) by (intros b; by rewrite (waits_cons _ _ _ _ Hup)).
  assert (Ht : ∀ b, total b st' = total b st) by (intros b; unfold total; by rewrite Hw).
  assert (H0 : held a st = 0) by (by apply reader_owner).
  assert (Hwa : waits a st = false).
  { apply not_true_is_false. intros [d Hd%updater_owner]%waits_true. done. }
  split; [| | | | | |exact (i_faulty _ Hi)].
  - rewrite Hown. apply NoDup_cons. split; [done | apply Hi].
  - intros b Hb. rewrite Hown in Hb. unfold cell_ok. rewrite Hw, Ht. unfold st'. cbn.
    apply elem_of_cons in Hb as [->|Hb].
    + rewrite !lookup_insert_eq. unfold total. rewrite H0, Hwa. eauto.
    + rewrite !lookup_insert_ne by (intros <-; done). by apply Hi.
  - intros b Hb. rewrite Hown in Hb. apply not_elem_of_cons in Hb as [Hne Hb].
    unfold st'. cbn. rewrite lookup_insert_ne by done. by apply Hi.
  - intros b Hb. rewrite Hup in Hb. apply elem_of_cons in Hb as [[= ->]|Hb]; [done | by apply (i_new _ Hi)].
  - intros r Hr. destruct (i_readers _ Hi r Hr) as (b&->&Hb). exists b. rewrite Hown. split; [done | by right].
  - intros b Hb. rewrite Hown in Hb. apply elem_of_cons in Hb as [->|Hb%(i_next _ Hi)]; cbn; unfold a; lia.
Qed.

(** An updater takes over the old cell. *)
Lemma swap_inv k a old st :
  inv st → updaters st !! k = Some (UConstructed a) → object_ st = Some old →
  inv (set_object (Some a) (set_updaters (<[k := USwapped old false]> (updaters st)) st)).
Proof.
  intros Hi Hk Hobj. set (st' := set_object _ _).
  pose proof (delete_Permutation _ _ _ Hk) as Hup.
  assert (Hup' : updaters st' ≡ₚ USwapped old false :: delete k (updaters st)) by (by eapply insert_Permutation).
  assert (Hown : owners st' ≡ₚ owners st).
  { rewrite (owners_cons _ _ _ Hup), (owners_cons _ _ _ Hup'), Hobj. cbn. apply perm_swap. }
  assert (Hw : ∀ b, waits b st' = waits b st).
  { intros b. by rewrite (waits_cons _ _ _ _ Hup), (waits_cons _ _ _ _ Hup'). }
  assert (Ht : ∀ b, total b st' = total b st) by (intros b; unfold total; by rewrite Hw).
  apply (inv_at a st); [exact Hi | | | | | | | | done | exact (i_faulty _ Hi)].
  - rewrite Hown. apply Hi.
  - intros b. by rewrite Hown.
  - intros b _. by split_and!.
  - unfold cell_ok. rewrite Hw, Ht. apply (i_cell _ Hi), (updater_owner _ (UConstructed a)).
    by eapply list_elem_of_lookup_2.
  - apply (updater_owner _ (UConstructed a)). by eapply list_elem_of_lookup_2.
  - intros b Hb. rewrite Hup' in Hb. apply elem_of_cons in Hb as [|Hb]; [done|].
    apply (i_new _ Hi). rewrite Hup. by right.
  - auto.
Qed.

(** What an updater knows of the cell it works on. *)
Lemma updater_unique st k u :
  inv st → updaters st !! k = Some u →
  updater_cell u ∉ option_list (object_ st) ++ (updater_cell <$> delete k (updaters st)).
Proof.
  intros Hi Hk. pose proof (i_nodup _ Hi) as Hnd.
  rewrite (owners_cons _ _ _ (delete_Permutation _ _ _ Hk)) in Hnd. by apply NoDup_cons in Hnd as [? _].
Qed.

Lemma not_waiting_elsewhere st k u :
  inv st → updaters st !! k = Some u →
  existsb (is_waiting (updater_cell u)) (delete k (updaters st)) = false.
Proof.
  intros Hi Hk. pose proof (updater_unique _ _ _ Hi Hk) as Hn. apply not_elem_of_app in Hn as [_ Hn].
  apply not_true_is_false. intros (v&Hv%list_elem_of_In&Hw)%existsb_exists. destruct v; try done.
  apply Nat.eqb_eq in Hw. apply Hn. rewrite Hw. by apply (list_elem_of_fmap_2 updater_cell _ (UWaiting a destroy)).
Qed.

Lemma release_inv k a d st :
  inv st → updaters st !! k = Some (USwapped a d) →
  inv (set_updaters (<[k := UWaiting a d]> (updaters st)) (release_read_only a st)).
Proof.
  intros Hi Hk. pose proof (delete_Permutation _ _ _ Hk) as Hup.
  pose proof (not_waiting_elsewhere _ _ _ Hi Hk) as Hrest. cbn [updater_cell] in Hrest.
  assert (Hin : a ∈ owners st) by (by eapply (updater_owner _ (USwapped a d)), list_elem_of_lookup_2).
  assert (Hwa : waits a st = false) by (by rewrite (waits_cons _ _ _ _ Hup)).
  destruct (i_cell _ Hi a Hin) as (Hu&o&Hc). assert (Htot : total a st = S (held a st)).
  { unfold total. rewrite Hwa. lia. }
  rewrite Htot, Hwa in *. cbn in Hc. unfold release_read_only. rewrite Hc. cbn [c_read_only c_object c_notified].
  rewrite (unshare_cell a (held a st) (Some o) false) by (cbn; by rewrite ?lookup_insert_eq).
  set (st' := set_updaters _ _).
  assert (Hup' : updaters st' ≡ₚ UWaiting a d :: delete k (updaters st)) by (by eapply insert_Permutation).
  assert (Hown : owners st' ≡ₚ owners st) by (by rewrite (owners_cons _ _ _ Hup), (owners_cons _ _ _ Hup')).
  assert (Hw : ∀ b, waits b st' = Nat.eqb b a || waits b st).
  { intros b. by rewrite (waits_cons _ _ _ _ Hup), (waits_cons _ _ _ _ Hup'). }
  assert (Hheld : ∀ b, held b st' = held b st) by done.
  apply (inv_at a st); [exact Hi | | | | | done | | auto | done | exact (i_faulty _ Hi)].
  - rewrite Hown. apply Hi.
  - intros b. by rewrite Hown.
  - intros b Hne. assert (Hb : waits b st' = waits b st).
    { rewrite Hw. by apply Nat.eqb_neq in Hne as ->. }
    unfold total. rewrite Hheld, Hb. unfold st'. cbn. by rewrite !lookup_insert_ne by done.
  - unfold cell_ok, total. rewrite Hheld, Hw, Nat.eqb_refl. unfold st'. cbn. rewrite !lookup_insert_eq, Nat.add_0_r.
    eauto.
  - intros b Hb. rewrite Hup' in Hb. apply elem_of_cons in Hb as [|Hb]; [done|].
    rewrite Hheld. apply (i_new _ Hi). rewrite Hup. by right.
Qed.

(** The cell of a call that waits: it returns when no reader is left. *)
Lemma waiting_cell st k a d :
  inv st → updaters st !! k = Some (UWaiting a d) →
  use_count st !! a = Some (held a st) ∧
  ∃ o, cells st !! a = Some (mkCell (Some o) (bool_decide (held a st = 0)) false).
Proof.
  intros Hi Hk. assert (Hin : UWaiting a d ∈ updaters st) by (by eapply list_elem_of_lookup_2).
  destruct (i_cell _ Hi a (updater_owner _ _ Hin)) as (Hu&o&Hc).
  assert (Hwa : waits a st = true) by (apply waits_true; eauto).
  unfold total in *. rewrite Hwa, Nat.add_0_r in *. eauto.
Qed.

Lemma finish_release_eq a d o n st :
  cells st !! a = Some (mkCell (Some o) n false) →
  finish_release a d (Some o) st =
    mkPtr (delete a (cells st)) (use_count st) (next_cell st) (object_ st) (readers st) (updaters st)
      (returned st ++ if d then [] else [Some o]) (deleted st ++ if d then [o] else []) (faulty st).
Proof.
  intros Hc.
  assert (Hal : delete a (alter (λ c, mkCell None (c_notified c) (c_read_only c)) a (cells st)) = delete a (cells st)).
  { apply map_eq. intros b. destruct (decide (a = b)) as [<-|Hne].
    - by rewrite !lookup_delete_eq.
    - by rewrite !lookup_delete_ne, lookup_alter_ne by done. }
  unfold finish_release. destruct d.
  - unfold free_cell, move_object, add_deleted, set_cells. cbn. by rewrite Hal, app_nil_r.
  - unfold delete_ReleasableSharedPtr, release_read_only, move_object. cbn.
    rewrite lookup_alter_eq, Hc. cbn. unfold add_returned, free_cell, set_cells. cbn. by rewrite Hal, app_nil_r.
Qed.

Lemma return_inv k a d st st' :
  inv st → updaters st !! k = Some (UWaiting a d) → run_updater k st = Some st' →
  inv st' ∧ held a st = 0 ∧ cells st' = delete a (cells st) ∧ updaters st' = delete k (updaters st) ∧
  object_ st' = object_ st ∧ readers st' = readers st ∧
  ∃ o n, cells st !! a = Some (mkCell (Some o) n false) ∧
    returned st' = returned st ++ (if d then [] else [Some o]) ∧ deleted st' = deleted st ++ (if d then [o] else []).
Proof.
  intros Hi Hk Hrun. destruct (waiting_cell _ _ _ _ Hi Hk) as (Hu&o&Hc).
  unfold run_updater in Hrun. rewrite Hk in Hrun. cbn in Hrun. rewrite Hc in Hrun. cbn in Hrun.
  case_bool_decide as Hz; [|done]. injection Hrun as <-. rewrite (finish_release_eq _ _ _ _ _ Hc). cbn.
  split; [|split_and!; eauto 10].
  pose proof (delete_Permutation _ _ _ Hk) as Hup. set (st' := set_updaters _ _).
  pose proof (owners_cons _ _ _ Hup) as Hown. change (_ ++ _) with (owners st') in Hown. cbn in Hown.
  pose proof (i_nodup _ Hi) as Hnd. rewrite Hown in Hnd. apply NoDup_cons in Hnd as [Hnin Hnd].
  assert (Hw : ∀ b, b ≠ a → waits b st' = waits b st).
  { intros b Hb. rewrite (waits_cons _ _ _ _ Hup). cbn. apply Nat.eqb_neq in Hb as ->. done. }
  split; [done | | | | | | exact (i_faulty _ Hi)].
  - intros b Hb. assert (Hne : b ≠ a) by (intros ->; done).
    unfold cell_ok, total. rewrite Hw by done. unfold st' at 1 3. cbn. rewrite lookup_delete_ne by done.
    apply (i_cell _ Hi). rewrite Hown. by right.
  - intros b Hb. unfold st'. cbn. destruct (decide (a = b)) as [<-|Hne]; [by rewrite lookup_delete_eq|].
    rewrite lookup_delete_ne by done. apply (i_freed _ Hi). rewrite Hown. by apply not_elem_of_cons.
  - intros b Hb. apply (i_new _ Hi). rewrite Hup. by right.
  - intros r Hr. destruct (i_readers _ Hi r Hr) as (b&->&Hb). exists b. split; [done|]. rewrite Hown in Hb.
    apply elem_of_cons in Hb as [->|Hb]; [|done]. apply list_elem_of_lookup in Hr as [j Hj].
    pose proof (reader_held st _ _ Hj). cbn in *. lia.
  - intros b Hb. apply (i_next _ Hi). rewrite Hown. by right.
Qed.

Lemma destroy_inv st st' : inv st → Destroy st = Some st' → inv st'.
Proof.
  intros Hi Hd. unfold Destroy in Hd. destruct (object_ st) as [a|] eqn:Ha; [|done]. cbn in Hd.
  case_decide as Hup; [|done]. injection Hd as <-.
  assert (Hw : waits a st = false) by (unfold waits; by rewrite Hup).
  assert (Hown : owners st = [a]) by (unfold owners; by rewrite Hup, Ha).
  apply (inv_at a st); [exact Hi | apply NoDup_singleton | by rewrite Hown | | | | | auto | done | exact (i_faulty _ Hi)].
  - intros b _. unfold total, waits. cbn. by rewrite Hup.
  - unfold cell_ok, total. replace (waits a _) with (waits a st) by done. apply (i_cell _ Hi). rewrite Hown. left.
  - rewrite Hown. left.
  - intros b Hb. cbn in Hb. by apply list_elem_of_singleton in Hb.
Qed.

Lemma run_updater_inv k st st' : inv st → run_updater k st = Some st' → inv st'.
Proof.
  intros Hi Hrun. destruct (updaters st !! k) as [u|] eqn:Hk.
  2: { unfold run_updater in Hrun. by rewrite Hk in Hrun. }
  destruct u as [a|a d|a d]; [| |by eapply return_inv].
  - unfold run_updater in Hrun. rewrite Hk in Hrun. cbn in Hrun.
    destruct (object_ st) as [old|] eqn:Ho; [|done]. cbn in Hrun. injection Hrun as <-. by apply swap_inv.
  - unfold run_updater in Hrun. rewrite Hk in Hrun. injection Hrun as <-. by apply release_inv.
Qed.

Lemma act_inv x st st' : inv st → non_null x = true → act x st = Some st' → inv st'.
Proof.
  intros Hi Hx. destruct x as [|k|k|[o|]|k|]; [apply get_inv | apply copy_inv | apply drop_inv |
    apply update_begin_inv | done | apply run_updater_inv | apply destroy_inv]; done.
Qed.

Lemma new_inv o : inv (new_FastReadDynamicPtr (Some o)).
Proof.
  split; cbn.
  - apply NoDup_singleton.
  - intros a ->%list_elem_of_singleton. split; [done|]. by exists o.
  - intros a Ha. rewrite lookup_insert_ne; [done|]. intros <-. apply Ha. left.
  - by intros a ?%not_elem_of_nil.
  - by intros r ?%not_elem_of_nil.
  - intros a ->%list_elem_of_singleton. lia.
  - done.
Qed.

Lemma executes_inv o xs st :
  executes (new_FastReadDynamicPtr (Some o)) xs st → forallb non_null xs = true → inv st.
Proof.
  induction 1 as [|xs x st st' _ IH Hact]; intros Hxs; [apply new_inv|].
  rewrite forallb_app, andb_true_iff in Hxs. destruct Hxs as [Hxs Hx]. cbn in Hx. rewrite andb_true_r in Hx.
  eapply act_inv; eauto.
Qed.

(** ** What becomes of the objects *)

Definition object_at st (a : nat) : option T := cells st !! a ≫= c_object.

(** The objects the pointer still has, and all it was given. *)
Definition live st : list T := omap (object_at st) (owners st).

Definition created (o : T) (xs : list Action) : list T := o :: omap (λ x, given x ≫= id) xs.

Lemma object_at_insert a c c' st st' b :
  cells st !! a = Some c → cells st' = <[a := c']> (cells st) → c_object c' = c_object c →
  object_at st' b = object_at st b.
Proof.
  intros Hc Heq Ho. unfold object_at. rewrite Heq. destruct (decide (a = b)) as [<-|Hne].
  - rewrite lookup_insert_eq, Hc. exact Ho.
  - by rewrite lookup_insert_ne.
Qed.

Lemma Notify_objects a st b : object_at (Notify a st) b = object_at st b.
Proof.
  unfold Notify. destruct (cells st !! a) as [c|] eqn:Hc; [|done]. destruct (c_notified c); [done|].
  by eapply object_at_insert.
Qed.

Lemma unshare_objects a st b : object_at (unshare a st) b = object_at st b.
Proof.
  unfold unshare. destruct (use_count st !! a) as [[|n]|]; [done| |done].
  case_decide; [|done]. by rewrite Notify_objects.
Qed.

Lemma release_objects a st b : object_at (release_read_only a st) b = object_at st b.
Proof.
  unfold release_read_only. destruct (cells st !! a) as [c|] eqn:Hc; [|done].
  destruct (c_read_only c); [|done]. rewrite unshare_objects. by eapply object_at_insert.
Qed.

(** [unshare] changes only the cell and its count. *)
Lemma unshare_frame a st :
  owners (unshare a st) = owners st ∧ updaters (unshare a st) = updaters st ∧ object_ (unshare a st) = object_ st ∧
  returned (unshare a st) = returned st ∧ deleted (unshare a st) = deleted st ∧ readers (unshare a st) = readers st.
Proof.
  unfold unshare, Notify. destruct (use_count st !! a) as [[|n]|]; [done| |done].
  case_decide; [|done]. cbn. destruct (cells st !! a) as [c|]; [|done]. by destruct (c_notified c).
Qed.

Lemma release_frame a st :
  updaters (release_read_only a st) = updaters st ∧ object_ (release_read_only a st) = object_ st ∧
  returned (release_read_only a st) = returned st ∧ deleted (release_read_only a st) = deleted st ∧
  readers (release_read_only a st) = readers st.
Proof.
  unfold release_read_only. destruct (cells st !! a) as [c|]; [|done]. destruct (c_read_only c); [|done].
  destruct (unshare_frame a (set_cells (<[a := mkCell (c_object c) (c_notified c) false]> (cells st)) st))
    as (_&->&->&->&->&->). done.
Qed.

Lemma live_same st st' :
  (∀ a, object_at st' a = object_at st a) → owners st' ≡ₚ owners st → live st' ≡ₚ live st.
Proof.
  intros Ho Hp. unfold live. rewrite Hp. clear Hp. induction (owners st) as [|a l IH]; [done|].
  cbn. rewrite Ho. by destruct (object_at st a); rewrite IH.
Qed.

Lemma omap_shorter {B C} (f : B → option C) (l : list B) : length (omap f l) ≤ length l.
Proof. induction l as [|x l IH]; cbn; [lia|]. destruct (f x); cbn; lia. Qed.

(** All the objects: with the pointer, returned, or deleted. *)
Definition all_objects st : list T := live st ++ omap id (returned st) ++ deleted st.

Lemma reader_steps_objects x st st' :
  match x with AGet | ACopy _ | ADrop _ => True | _ => False end →
  act x st = Some st' → all_objects st' ≡ₚ all_objects st.
Proof.
  intros Hx Hact. unfold all_objects.
  enough ((∀ a, object_at st' a = object_at st a) ∧ owners st' = owners st ∧ returned st' = returned st ∧ deleted st' = deleted st)
    as (Ho&Hw&->&->) by (by rewrite (live_same _ _ Ho) by (by rewrite Hw)).
  destruct x as [|k|k|o|k|]; try done; cbn in Hact.
  - unfold get in Hact. destruct (object_ st) as [a|]; [|done]. cbn in Hact.
    destruct (cells st !! a) as [c|]; [destruct (c_read_only c)|]; by simplify_eq/=.
  - unfold copy_reader in Hact. destruct (readers st !! k) as [[a|]|]; [| |done]; by simplify_eq/=.
  - unfold drop_reader in Hact. destruct (readers st !! k) as [[a|]|]; [| by simplify_eq/= |done].
    injection Hact as <-. pose proof (unshare_frame a st) as (Hw&_&_&Hr&Hd&_). cbn. split_and!; try done.
    intros b. rewrite <-(unshare_objects a st b). done.
Qed.

Lemma update_objects o st st' :
  inv st → Update_begin (Some o) st = Some st' → all_objects st' ≡ₚ o :: all_objects st.
Proof.
  intros Hi Hup. unfold Update_begin in Hup. destruct (object_ st) as [x|] eqn:Hobj; [|done]. cbn in Hup.
  injection Hup as <-. set (st' := set_updaters _ _).
  assert (Hown : owners st' = owners st ++ [next_cell st]).
  { unfold owners, st'. cbn. by rewrite fmap_app, app_assoc. }
  assert (Hne : ∀ a, a ∈ owners st → object_at st' a = object_at st a).
  { intros a Ha%(i_next _ Hi). unfold object_at, st'. cbn. rewrite lookup_insert_ne by lia. done. }
  assert (Hlive : live st' = live st ++ [o]).
  { unfold live. rewrite Hown, omap_app. f_equal.
    - clear Hown. induction (owners st) as [|a l IH]; [done|]. cbn. rewrite Hne by left.
      rewrite IH by (intros b Hb; apply Hne; by right). done.
    - unfold object_at, st'. cbn. by rewrite lookup_insert_eq. }
  unfold all_objects. rewrite Hlive. cbn [returned deleted]. by rewrite <-Permutation_cons_append.
Qed.

Lemma run_objects k st st' : inv st → run_updater k st = Some st' → all_objects st' ≡ₚ all_objects st.
Proof.
  intros Hi Hrun. unfold all_objects. destruct (updaters st !! k) as [u|] eqn:Hk.
  2: { unfold run_updater in Hrun. by rewrite Hk in Hrun. }
  pose proof (delete_Permutation _ _ _ Hk) as Hup. destruct u as [a|a d|a d].
  - unfold run_updater in Hrun. rewrite Hk in Hrun. cbn in Hrun.
    destruct (object_ st) as [old|] eqn:Ho; [|done]. cbn in Hrun. injection Hrun as <-. set (st' := set_object _ _).
    enough (Hl : owners st' ≡ₚ owners st) by (by rewrite (live_same st st') by done).
    assert (Hup' : updaters st' ≡ₚ USwapped old false :: delete k (updaters st)) by (by eapply insert_Permutation).
    rewrite (owners_cons _ _ _ Hup), (owners_cons _ _ _ Hup'), Ho. cbn. apply perm_swap.
  - unfold run_updater in Hrun. rewrite Hk in Hrun. injection Hrun as <-.
    pose proof (release_frame a st) as (_&Hobj&Hr&Hd&_). set (st' := set_updaters _ _).
    change (returned st') with (returned (release_read_only a st)). change (deleted st') with (deleted (release_read_only a st)).
    rewrite Hr, Hd. enough (Hl : owners st' ≡ₚ owners st) by (rewrite (live_same st st') by (done || apply release_objects); done).
    assert (Hup' : updaters st' ≡ₚ UWaiting a d :: delete k (updaters st)) by (by eapply insert_Permutation).
    rewrite (owners_cons _ _ _ Hup), (owners_cons _ _ _ Hup'). cbn. by rewrite Hobj.
  - destruct (return_inv _ _ _ _ _ Hi Hk Hrun) as (Hi'&_&Hcells&Hups&Hobj&_&o&n&Hc&->&->).
    pose proof (owners_cons _ _ _ Hup) as Hown.
    assert (Hlive : live st ≡ₚ o :: live st').
    { unfold live. rewrite Hown. cbn [updater_cell omap list_omap]. unfold object_at at 1. rewrite Hc. cbn [mbind option_bind c_object].
      constructor. assert (Hn : a ∉ owners st').
      { unfold owners. rewrite Hobj, Hups. by apply (updater_unique _ _ _ Hi Hk). }
      fold (owners st'). unfold owners. rewrite Hobj, Hups.
      unfold owners in Hn. rewrite Hobj, Hups in Hn. clear Hown. induction (_ ++ _) as [|b l IH]; [done|].
      apply not_elem_of_cons in Hn as [Hne Hn]. cbn. specialize (IH Hn).
      assert (object_at st' b = object_at st b) as ->.
      { unfold object_at. by rewrite Hcells, lookup_delete_ne. }
      by destruct (object_at st b); [constructor|]. }
    rewrite Hlive, omap_app. destruct d; cbn; rewrite ?app_nil_r.
    + by rewrite !app_assoc, <-Permutation_cons_append.
    + rewrite <-Permutation_cons_append. cbn. by rewrite <-Permutation_middle.
Qed.

Lemma destroy_objects st st' : Destroy st = Some st' → all_objects st' ≡ₚ all_objects st.
Proof.
  intros Hd. unfold Destroy in Hd. destruct (object_ st) as [a|] eqn:Ha; [|done]. cbn in Hd.
  case_decide as Hup; [|done]. injection Hd as <-. unfold all_objects. set (st' := set_object _ _).
  enough (Hl : owners st' ≡ₚ owners st) by (by rewrite (live_same st st') by done).
  unfold owners, st'. cbn. by rewrite Ha, Hup.
Qed.

Lemma act_objects x st st' :
  inv st → non_null x = true → act x st = Some st' →
  all_objects st' ≡ₚ option_list (given x ≫= id) ++ all_objects st.
Proof.
  intros Hi Hx Hact. destruct x as [|k|k|[o|]|k|]; try done; cbn [given mbind option_bind option_list app].
  1-3: by refine (reader_steps_objects _ _ _ _ Hact).
  - by apply update_objects.
  - by eapply run_objects.
  - by apply destroy_objects.
Qed.

Lemma executes_objects o xs st :
  executes (new_FastReadDynamicPtr (Some o)) xs st → forallb non_null xs = true →
  created o xs ≡ₚ all_objects st.
Proof.
  induction 1 as [|xs x st st' Hex IH Hact]; intros Hxs; [done|].
  rewrite forallb_app, andb_true_iff in Hxs. destruct Hxs as [Hxs Hx]. cbn in Hx. rewrite andb_true_r in Hx.
  rewrite (act_objects _ _ _ (executes_inv _ _ _ Hex Hxs) Hx Hact), <-(IH Hxs). unfold created.
  rewrite omap_app. cbn. destruct (given x ≫= id); cbn; rewrite ?app_nil_r; [|done].
  rewrite <-Permutation_cons_append. apply perm_swap.
Qed.

(** A pointer that was destroyed is not updated. *)
Lemma constructed_alive o xs st a :
  executes (new_FastReadDynamicPtr o) xs st → UConstructed a ∈ updaters st → is_Some (object_ st).
Proof.
  intros Hex. revert a. induction Hex as [|ys x s s' _ IH Hact]; intros a Ha; [by apply not_elem_of_nil in Ha|].
  destruct x as [|k|k|v|k|]; cbn in Hact.
  - unfold get in Hact. destruct (object_ s) as [b|] eqn:Hb; [|done]. cbn in Hact. injection Hact as <-.
    destruct (cells s !! b) as [c|]; [destruct (c_read_only c)|]; cbn in *; rewrite Hb; eauto.
  - unfold copy_reader in Hact. destruct (readers s !! k) as [[b|]|]; [| |done]; injection Hact as <-; exact (IH a Ha).
  - unfold drop_reader in Hact. destruct (readers s !! k) as [[b|]|]; [| |done]; injection Hact as <-; cbn in *; [|exact (IH a Ha)].
    destruct (unshare_frame b s) as (_&Hu&Ho&_). rewrite Hu in Ha. rewrite Ho. exact (IH a Ha).
  - unfold Update_begin in Hact. destruct (object_ s) as [b|] eqn:Hb; [|done]. injection Hact as <-. cbn. rewrite Hb. eauto.
  - unfold run_updater in Hact. destruct (updaters s !! k) as [u|] eqn:Hk; [|done]. cbn in Hact.
    destruct u as [b|b d|b d].
    + destruct (object_ s); [|done]. injection Hact as <-. cbn. eauto.
    + injection Hact as <-. cbn in *. destruct (release_frame b s) as (_&->&_).
      apply (IH a). rewrite (delete_Permutation _ _ _ Hk). rewrite (insert_Permutation _ _ _ _ Hk) in Ha.
      apply elem_of_cons in Ha as [|Ha]; [done | by right].
    + destruct (cells s !! b) as [c|]; [|done]. cbn in Hact. destruct (can_release c); [|done]. injection Hact as <-.
      cbn in *. assert (object_ (finish_release b d (c_object c) s) = object_ s) as ->.
      { unfold finish_release. destruct d; [done|]. cbn. by destruct (release_frame b (move_object b s)) as (_&->&_). }
      apply (IH a). rewrite (delete_Permutation _ _ _ Hk). by right.
  - unfold Destroy in Hact. destruct (object_ s); [|done]. cbn in Hact. case_decide; [|done]. injection Hact as <-.
    cbn in Ha. by apply list_elem_of_singleton in Ha.
Qed.

Lemma run_updater_enabled k u st :
  inv st → updaters st !! k = Some u → (∀ a, u = UConstructed a → is_Some (object_ st)) →
  is_Some (run_updater k st) ↔ match u with UWaiting a _ => Some a ∉ readers st | _ => True end.
Proof.
  intros Hi Hk Halive. unfold run_updater. rewrite Hk. cbn. destruct u as [a|a d|a d].
  - destruct (Halive a eq_refl) as [b ->]. cbn. split; eauto.
  - split; eauto.
  - destruct (waiting_cell _ _ _ _ Hi Hk) as (_&v&->). cbn. case_bool_decide as Hz.
    + split; [|by eauto]. intros _ [j Hj]%list_elem_of_lookup. pose proof (reader_held _ _ _ Hj). lia.
    + split; [by intros [? ?]|]. intros Hn. by rewrite (held_nil _ _ Hn) in Hz.
Qed.

(** ** Theorems *)

Section theorems.
Context (o : T) (xs : list Action) (st : Ptr).
Context (Hex : executes (new_FastReadDynamicPtr (Some o)) xs st) (Hxs : forallb non_null xs = true).

(** C7: A reader can use its object for as long as it keeps its pointer.  With any
    interleaving of readers and updaters that replace one object by another, no freed
    memory is used and no assertion fails; every pointer of a reader leads to an object
    the pointer still owns; and each object that was given is owned, returned by
    one call of [Update], or deleted by the destructor, and only one of these. *)
Theorem readers_keep_their_object :
  faulty st = false ∧
  (∀ r, r ∈ readers st → ∃ a v, r = Some a ∧ object_at st a = Some v) ∧
  created o xs ≡ₚ live st ++ omap id (returned st) ++ deleted st.
Proof using Hex Hxs.
  pose proof (executes_inv _ _ _ Hex Hxs) as Hi. split_and!; [apply Hi | |by apply executes_objects].
  intros r Hr. destruct (i_readers _ Hi r Hr) as (a&->&Ha). destruct (i_cell _ Hi a Ha) as (_&v&Hc).
  exists a, v. split; [done|]. unfold object_at. by rewrite Hc.
Qed.

(** An update blocks exactly while there is a reader of the object it
    replaced, and there are at most as many objects as calls of [Update] and one. *)
Theorem update_waits_for_readers k u :
  updaters st !! k = Some u →
  (is_Some (run_updater k st) ↔ match u with UWaiting a _ => Some a ∉ readers st | _ => True end) ∧
  length (live st) ≤ 1 + length (updaters st).
Proof using Hex Hxs.
  intros Hk. pose proof (executes_inv _ _ _ Hex Hxs) as Hi. split.
  - apply run_updater_enabled; [done | done|]. intros a ->.
    eapply (constructed_alive _ _ _ a Hex), list_elem_of_lookup_2, Hk.
  - unfold live. etransitivity; [apply omap_shorter|]. unfold owners. rewrite length_app, length_fmap.
    destruct (object_ st); cbn; lia.
Qed.
End theorems.
End dynamic_ptr.

(** ** Examples *)

Definition run_actions {T} (xs : list (Action (T := T))) (st : Ptr) : option Ptr :=
  foldl (λ s x, st ← s; act x st) (Some st) xs.

Lemma run_actions_executes {T} (st0 : Ptr (T := T)) xs st :
  run_actions xs st0 = Some st → executes st0 xs st.
Proof.
  revert st. induction xs as [|x xs IH] using rev_ind; intros st Hrun.
  { injection Hrun as <-. constructor. }
  unfold run_actions in *. rewrite foldl_app in Hrun. cbn in Hrun.
  destruct (foldl _ _ xs) as [s|]; [|done]. by econstructor; [apply IH|].
Qed.

(** A reader keeps the first object while an update replaces it. *)
Definition update_under_reader : list (Action (T := nat)) :=
  [AGet; AUpdate (Some 2); ARun 0; ARun 0; AGet].

Definition updating : Ptr := default (new_FastReadDynamicPtr (Some 1)) (run_actions update_under_reader (new_FastReadDynamicPtr (Some 1))).

Lemma updating_executes : executes (new_FastReadDynamicPtr (Some 1)) update_under_reader updating.
Proof. apply run_actions_executes. vm_compute. reflexivity. Qed.

Lemma readers_keep_their_object_witness :
  ∃ st, executes (new_FastReadDynamicPtr (Some 1)) update_under_reader st ∧
    readers st = [Some 0; Some 1] ∧ object_at st 0 = Some 1 ∧ faulty st = false.
Proof.
  exists updating. split; [exact updating_executes|]. split; [vm_compute; reflexivity|]. split; [vm_compute; reflexivity|].
  apply (readers_keep_their_object _ _ _ updating_executes). reflexivity.
Defined.

Lemma update_waits_for_readers_witness :
  ∃ st, executes (new_FastReadDynamicPtr (Some 1)) update_under_reader st ∧
    run_updater 0 st = None ∧ length (live st) ≤ 2.
Proof.
  exists updating. split; [exact updating_executes|]. split; [vm_compute; reflexivity|].
  apply (update_waits_for_readers _ _ _ updating_executes eq_refl 0 (UWaiting 0 false) eq_refl).
Defined.

(** Two updates at a time: three objects exist, each with a reader. *)
Theorem three_objects :
  ∃ st, executes (new_FastReadDynamicPtr (Some 1))
          [AGet; AUpdate (Some 2); ARun 0; AGet; AUpdate (Some 3); ARun 1; AGet] st ∧
    omap (λ r, r ≫= object_at st) (readers st) = [1; 2; 3].
Proof. eexists. split; [apply run_actions_executes; vm_compute; reflexivity|]. by vm_compute. Qed.

(** A null object is released at once although a reader has a pointer with its
    control block: when that pointer is destroyed, its deleter notifies a cell that
    is gone. *)
Theorem null_object_use_after_free :
  ∃ st, executes (new_FastReadDynamicPtr None)
          [AGet; AUpdate (Some 1); ARun 0; ARun 0; ARun 0; ADrop 0] st ∧
    returned st = [None] ∧ faulty st = true.
Proof. eexists. split; [apply run_actions_executes; vm_compute; reflexivity|]. by vm_compute. Qed.
