(* ===== verification/ServableHandles.v ===== *)
(** * Handles of clients and the unloading of servables

    The basic manager keeps its serving map in a [FastReadDynamicPtr] (the member
    [handles_map_] of [BasicManager::ServingMap], [core/basic_manager.{h,cc}]), and
    a handle that a client gets is a shared pointer with the control block of the
    map it was found in ([SharedPtrHandle], [core/servable_handle.h]).  So
    [UpdateServingMap], which a load calls when it is done and an unload calls
    before it unloads, waits with [mu_] held until every handle from the old map
    is gone.

    Here the threads of [ManagerSystem] run together with clients that get, keep
    and drop handles.  The step of [ManagerSystem] that updates the map is cut into
    the beginning of the update, the steps of [DynamicPtr], and what follows it;
    meanwhile only the steps that do not take [mu_] are possible.  The theorems: a
    servable that a client has a handle of stays loaded, an update waits for
    handles of the old map and for nothing else, and every request is answered unless
    a client keeps such a handle. *)
From S2P Require Import Prelude Status Servable LoaderHarness Resources BasicManager ManagerSystem DynamicPtr.
Local Open Scope status_scope.

#[export] Instance LoadOrUnloadRequest_eq_dec : EqDecision LoadOrUnloadRequest.
Proof. solve_decision. Defined.
#[export] Instance Thread_eq_dec : EqDecision Thread.
Proof. solve_decision. Defined.

Section handles.
Context {A : Type}.
Implicit Types (m : BasicManager A) (s : Sys A).

(** ** The system *)

(** The clients' [ReadPtr]s of the map are the readers of [sv_ptr]; [sv_handles]
    has for each the servable found with it, if any.  [sv_updating] is the
    thread in [UpdateServingMap], which holds [mu_]. *)
Record Serving := mkServing {
  sv_sys : Sys A;
  sv_ptr : Ptr (T := HandlesMap);
  sv_handles : list (option Handle);
  sv_updating : option Thread }.

(** The threads about to call [UpdateServingMap], and the steps under [mu_]. *)
Definition updates_map (t : Thread) : bool :=
  match t with TLoadServe _ | TUnloadStart _ _ => true | _ => false end.

Definition locks_mu (t : Thread) : bool :=
  match t with
  | TQueued _ | TReserving _ _ | TLoadServe _ | TUnloadStart _ _ | TFinish _ _ => true
  | _ => false
  end.

Definition label_thread (P : Thread → bool) (l : Label A) s : bool :=
  match l with
  | LRun k _ => match sys_threads s !! k with Some t => P t | None => false end
  | _ => false
  end.

Definition label_locks_mu (l : Label A) s : bool :=
  match l with
  | LRun _ _ => label_thread locks_mu l s
  | LSetThreads _ => false
  | _ => true
  end.

Inductive SLabel :=
  | SManager (l : Label A)                   (* the manager, but for [UpdateServingMap] *)
  | SUpdate (k : nat)                        (* a thread calls [UpdateServingMap] *)
  | SRunUpdate                               (* [handles_map_.Update] runs *)
  | SUpdated (k : nat)                       (* and the thread goes on *)
  | SGet                                     (* [handles_map_.get()] *)
  | SFind (k : nat) (request : ServableRequest)  (* [GetUntypedServableHandle] *)
  | SAvailable (k : nat)                     (* [GetAvailableUntypedServableHandles] *)
  | SDrop (k : nat).                         (* a handle, or the map, is let go *)

(** [UpdateServingMap] up to the call of [handles_map_.Update]; an unload has
    published its state before. *)
Definition update_begin (t : Thread) (m : BasicManager A) (ptr : Ptr (T := HandlesMap)) : option (BasicManager A * Ptr) :=
  let m := match t with TUnloadStart _ p => publish_harness kUnloading p m | _ => m end in
  ptr ← Update_begin (Some (ServingMap_Update (bm_managed_map m))) ptr;
  Some (m, ptr).

(** The map that [handles_map_] points to. *)
Definition current_map (ptr : Ptr (T := HandlesMap)) : HandlesMap := default [] (object_ ptr ≫= object_at ptr).

(** What the thread does after the update, up to the release of [mu_]. *)
Definition update_end (t : Thread) (d : bool) (rest : list Thread) m : option (Sys A) :=
  match t with
  | TLoadServe r => Some (mkSys m d (TLoadPublish r :: rest))
  | TUnloadStart r p =>
      let '(status, m) := (call_harness p DoneQuiescing ;;? sm_ret StatusOK) m in
      Some (mkSys m d ((if ok status then TUnloadBegin r p else TFinish r status) :: rest))
  | _ => None
  end.

(** The map a client looks at through its [k]-th pointer, which it has not used yet. *)
Definition fresh_map (k : nat) (σ : Serving) : option HandlesMap :=
  h ← sv_handles σ !! k;
  match h with
  | Some _ => None
  | None => a ← mjoin (readers (sv_ptr σ) !! k); object_at (sv_ptr σ) a
  end.

(** The handles of [GetAvailableUntypedServableHandles], each with its own copy of
    the pointer to the map. *)
Fixpoint copy_handles (k : nat) (xs : list Handle) (ptr : Ptr (T := HandlesMap)) : option (Ptr (T := HandlesMap)) :=
  match xs with
  | [] => Some ptr
  | _ :: xs => ptr ← copy_reader k ptr; copy_handles k xs ptr
  end.

Definition sv_step (l : SLabel) (σ : Serving) : option Serving :=
  let '(mkServing s ptr handles updating) := σ in
  let '(mkSys m d threads) := s in
  match l with
  | SManager l =>
      if label_thread updates_map l s || (label_locks_mu l s && bool_decide (is_Some updating))
      then None
      else s ← step l s; Some (mkServing s ptr handles updating)
  | SUpdate k =>
      t ← threads !! k;
      if updates_map t && bool_decide (updating = None) then
        '(m, ptr) ← update_begin t m ptr;
        Some (mkServing (mkSys m d threads) ptr handles (Some t))
      else None
  | SRunUpdate =>
      _ ← updating;
      ptr ← run_updater 0 ptr;
      Some (mkServing (mkSys (set_handles_map (current_map ptr) m) d threads) ptr handles updating)
  | SUpdated k =>
      t ← updating;
      if bool_decide (threads !! k = Some t) && bool_decide (length (updaters ptr) = 0) then
        s ← update_end t d (delete k threads) m;
        Some (mkServing s ptr handles None)
      else None
  | SGet => ptr ← get ptr; Some (mkServing s ptr (handles ++ [None]) updating)
  | SFind k request =>
      map ← fresh_map k σ;
      match (GetUntypedServableHandle request (set_handles_map map m)).2 with
      | Some x => Some (mkServing s ptr (<[k := Some x]> handles) updating)
      | None => ptr ← drop_reader k ptr; Some (mkServing s ptr (delete k handles) updating)
      end
  | SAvailable k =>
      map ← fresh_map k σ;
      let xs := (map_to_list (GetAvailableUntypedServableHandles (set_handles_map map m))).*2 in
      ptr ← copy_handles k xs ptr;
      ptr ← drop_reader k ptr;
      Some (mkServing s ptr (delete k (handles ++ (Some <$> xs))) updating)
  | SDrop k => ptr ← drop_reader k ptr; Some (mkServing s ptr (delete k handles) updating)
  end.

Definition slabel_wf (l : SLabel) : Prop :=
  match l with SManager l => label_wf l | _ => True end.

(** A manager and clients, from the beginning. *)
Definition start (m0 : BasicManager A) : Serving :=
  mkServing (mkSys m0 false []) (new_FastReadDynamicPtr (Some (bm_handles_map m0))) [] None.

Inductive serving_runs (m0 : BasicManager A) : list SLabel → Serving → Prop :=
  | serving_start : serving_runs m0 [] (start m0)
  | serving_snoc ls l σ σ' :
      serving_runs m0 ls σ → slabel_wf l → sv_step l σ = Some σ' → serving_runs m0 (ls ++ [l]) σ'.
End handles.
Arguments Serving : clear implicits.
Arguments SLabel : clear implicits.

(** ** The manager does not read its serving map

    Every step but an update does the same whatever the map is; so what a map may
    contain, by the invariant of [ManagerSystem], any older map may contain too. *)

Section other_map.
Context {A : Type} (H : HandlesMap).
Implicit Types (m : BasicManager A) (s : Sys A).
Local Abbreviation W := (set_handles_map H).

Definition sys_with s : Sys A := mkSys (W (sys_manager s)) (sys_deciding s) (sys_threads s).

Lemma publish_with st m : PublishOnEventBus st (W m) = W (PublishOnEventBus st m).
Proof. unfold PublishOnEventBus. cbn. by destruct (bm_has_event_bus m). Qed.

Lemma error_callbacks_with cs m :
  foldl (λ m c, error_callback c m) (W m) cs = W (foldl (λ m c, error_callback c m) m cs).
Proof.
  revert m. induction cs as [|c cs IH]; intros m; [done|]. cbn. rewrite <-IH. f_equal.
  destruct c; try done. apply publish_with.
Qed.

Lemma call_harness_with p f m :
  call_harness p f (W m) = ((call_harness p f m).1, W (call_harness p f m).2).
Proof.
  unfold call_harness. cbn. destruct (bm_managed_map m !! p) as [h|]; [|done].
  destruct (f h) as [st h']. cbn. rewrite <-error_callbacks_with. done.
Qed.

Lemma call_harness_ret_with p f m :
  (call_harness p f ;;? sm_ret StatusOK) (W m) =
  (((call_harness p f ;;? sm_ret StatusOK) m).1, W ((call_harness p f ;;? sm_ret StatusOK) m).2).
Proof.
  unfold sm_bind, sm_ret. rewrite call_harness_with. destruct (call_harness p f m) as [st m']. cbn.
  by destruct (ok st).
Qed.

Lemma publish_harness_with st p m : publish_harness st p (W m) = W (publish_harness st p m).
Proof. unfold publish_harness. cbn. destruct (bm_managed_map m !! p); [apply publish_with | done]. Qed.

Lemma pre_load_hook_with i m : call_pre_load_hook i (W m) = W (call_pre_load_hook i m).
Proof. unfold call_pre_load_hook. cbn. by destruct (bm_has_pre_load_hook m). Qed.

Lemma ReserveResources_with rc rs h t m :
  ReserveResources rc rs h t (W m) =
  ((ReserveResources rc rs h t m).1, W (ReserveResources rc rs h t m).2).
Proof.
  unfold ReserveResources. cbn [bm_harness_options set_handles_map].
  change (GetLoadersCurrentlyUsingResources (W m)) with (GetLoadersCurrentlyUsingResources m).
  destruct (Retry _ _ _) as [st n]. destruct (Tracker_ReserveResources _ _) as [[? r] t'].
  cbn. repeat case_match; done.
Qed.

Lemma ApproveLoad_with rc rs p m :
  ApproveLoad rc rs p (W m) = ((ApproveLoad rc rs p m).1, W (ApproveLoad rc rs p m).2).
Proof.
  unfold ApproveLoad. cbn [bm_managed_map bm_resource_tracker set_handles_map].
  destruct (bm_managed_map m !! p) as [h|]; [|done].
  assert (Hres : (match bm_resource_tracker m with
    | None => (ReserveReturns StatusOK, W m) | Some t => ReserveResources rc rs h t (W m) end) =
    let r := (match bm_resource_tracker m with
    | None => (ReserveReturns StatusOK, m) | Some t => ReserveResources rc rs h t m end) in (r.1, W r.2)).
  { destruct (bm_resource_tracker m); [apply ReserveResources_with | done]. }
  rewrite Hres. clear Hres. destruct (match bm_resource_tracker m with None => _ | Some t => _ end) as [[st|] m1]; cbn; [|done].
  destruct (ok st); cbn.
  - rewrite call_harness_ret_with. by destruct (sm_bind _ _ m1) as [? ?].
  - rewrite call_harness_with. cbn [snd]. by rewrite publish_with.
Qed.

Lemma ApproveRequest_with rc rs r p m :
  ApproveRequest rc rs r p (W m) = ((ApproveRequest rc rs r p m).1, W (ApproveRequest rc rs r p m).2).
Proof.
  unfold ApproveRequest, ApproveUnload. destruct (lur_kind r).
  - rewrite ApproveLoad_with. destruct (ApproveLoad rc rs p m) as [[[| ]|] m1]; done.
  - rewrite call_harness_ret_with. destruct (sm_bind _ _ m) as [[| ] m1]; done.
Qed.

Lemma after_decision_with r p rest res :
  after_decision r p rest (res.1, W res.2) = sys_with (after_decision r p rest res).
Proof. unfold after_decision. destruct res as [[[| ]|] m1]; done. Qed.

Lemma run_thread_with a t d rest m :
  updates_map t = false →
  run_thread a t d rest (W m) = sys_with <$> run_thread a t d rest m.
Proof.
  intros Ht. destruct t as [r|r p|r p|r p|r p|r p n|r|r|r p|r p|r p|r|r st|r st]; try done; cbn [run_thread].
  - destruct d; [done|]. cbn. f_equal. change (GetHealthyHarness (lur_id r) (W m)) with (GetHealthyHarness (lur_id r) m).
    destruct (GetHealthyHarness (lur_id r) m) as [[|] [p|]]; try done.
    rewrite ApproveRequest_with. apply after_decision_with.
  - cbn. f_equal. rewrite ApproveRequest_with. apply after_decision_with.
  - cbn. by rewrite publish_harness_with, pre_load_hook_with.
  - rewrite call_harness_with. by destruct (call_harness p Load_begin m).
  - cbn [bm_managed_map set_handles_map]. destruct (bm_managed_map m !! p) as [h|]; [|done].
    destruct (load_try _ _ _); rewrite call_harness_with; by destruct (call_harness _ _ m).
  - cbn. by rewrite publish_with.
  - rewrite call_harness_with. by destruct (call_harness _ _ m).
  - rewrite call_harness_with. by destruct (call_harness _ _ m).
  - cbn. by rewrite publish_with.
Qed.

Lemma step_with (l : Label A) s :
  label_thread updates_map l s = false → step l (sys_with s) = sys_with <$> step l s.
Proof.
  intros Hl. destruct s as [m d ts]. destruct l as [sd a|i|i|i a|n|r|k a]; cbn.
  - unfold ManageServableInternal. change (FindHarnessInMap (sd_id sd) (W m)) with (FindHarnessInMap (sd_id sd) m).
    destruct (FindHarnessInMap (sd_id sd) m); [done|]. destruct (ok (sd_status sd)); cbn [negb snd fmap option_fmap].
    + by rewrite publish_with.
    + by rewrite error_callbacks_with.
  - unfold StopManagingServable. change (FindHarnessInMap i (W m)) with (FindHarnessInMap i m).
    destruct (FindHarnessInMap i m) as [[p h]|]; [|done]. by case_match.
  - unfold CancelLoadServableRetry. change (GetHealthyHarness i (W m)) with (GetHealthyHarness i m).
    destruct (GetHealthyHarness i m) as [[|] [p|]]; try done. by rewrite call_harness_with.
  - unfold SetAdditionalServableState. change (FindHarnessInMap i (W m)) with (FindHarnessInMap i m).
    by destruct (FindHarnessInMap i m) as [[p h]|].
  - done.
  - unfold LoadOrUnloadServable, RequestLoadOrUnload.
    change (GetHealthyHarness (lur_id r) (W m)) with (GetHealthyHarness (lur_id r) m).
    destruct (GetHealthyHarness (lur_id r) m) as [st [p|]]; destruct st; cbn; try done.
    destruct (lur_kind r); rewrite call_harness_ret_with; destruct (sm_bind _ _ m) as [st m1]; cbn; by destruct (ok st).
  - cbn in Hl. destruct (ts !! k) as [t|]; [|done]. by apply run_thread_with.
Qed.
End other_map.

(** ** The invariant *)

Section reading.
Context {T : Type}.
Implicit Types st : Ptr (T := T).

(** What a step of a reader leaves as it was. *)
Definition same_objects st st' : Prop :=
  (∀ a, object_at st' a = object_at st a) ∧ object_ st' = object_ st ∧ updaters st' = updaters st.

Lemma get_frame st st' :
  inv st → get st = Some st' →
  same_objects st st' ∧ ∃ a, object_ st = Some a ∧ readers st' = readers st ++ [Some a].
Proof.
  intros Hi. unfold get. destruct (object_ st) as [a|] eqn:Ha; [|done]. cbn.
  destruct (i_cell _ Hi a (current_owner _ _ Ha)) as (_&o&Hc). rewrite Hc, (current_not_waiting _ _ Hi Ha). cbn.
  intros [= <-]. split; [done | by exists a].
Qed.

Lemma copy_frame k st st' :
  copy_reader k st = Some st' →
  same_objects st st' ∧ ∃ r, readers st !! k = Some r ∧ readers st' = readers st ++ [r].
Proof.
  unfold copy_reader. destruct (readers st !! k) as [r|]; [|done]. cbn. intros [= <-].
  split; [by destruct r | by exists r].
Qed.

Lemma drop_frame k st st' :
  drop_reader k st = Some st' → same_objects st st' ∧ readers st' = delete k (readers st).
Proof.
  unfold drop_reader. destruct (readers st !! k) as [[a|]|]; [| |done]; cbn; intros [= <-]; [|done].
  destruct (unshare_frame a st) as (_&Hu&Ho&_). split; [|done]. split_and!; [|done..].
  apply (unshare_objects a st).
Qed.

Lemma same_objects_trans st1 st2 st3 : same_objects st1 st2 → same_objects st2 st3 → same_objects st1 st3.
Proof. intros (H1&H2&H3) (H4&H5&H6). split_and!; [intros a; by rewrite H4 | congruence..]. Qed.

(** What a step of an update leaves to the readers. *)
Lemma run_frame k st st' :
  inv st → run_updater k st = Some st' →
  readers st' = readers st ∧
  (∀ a, object_at st' a = object_at st a ∨ object_at st' a = None ∧ Some a ∉ readers st).
Proof.
  intros Hi Hrun. destruct (updaters st !! k) as [u|] eqn:Hk.
  2: { unfold run_updater in Hrun. by rewrite Hk in Hrun. }
  destruct u as [a|a d|a d].
  - unfold run_updater in Hrun. rewrite Hk in Hrun. cbn in Hrun. destruct (object_ st); [|done].
    cbn in Hrun. injection Hrun as <-. auto.
  - unfold run_updater in Hrun. rewrite Hk in Hrun. injection Hrun as <-.
    destruct (release_frame a st) as (_&_&_&_&Hr). split; [done|]. intros b. left. apply (release_objects a st).
  - destruct (return_inv _ _ _ _ _ Hi Hk Hrun) as (_&Hh&Hc&_&_&Hr&_). split; [done|]. intros b.
    unfold object_at. rewrite Hc. destruct (decide (a = b)) as [<-|Hne].
    + right. rewrite lookup_delete_eq. split; [done|]. intros [j Hj]%list_elem_of_lookup.
      pose proof (reader_held _ _ _ Hj). lia.
    + left. by rewrite lookup_delete_ne.
Qed.

Lemma Update_frame o st st' :
  inv st → Update_begin (Some o) st = Some st' →
  object_ st' = object_ st ∧ readers st' = readers st ∧
  ∃ a, updaters st' = updaters st ++ [UConstructed a] ∧ object_at st a = None ∧ object_at st' a = Some o ∧
    ∀ b, b ≠ a → object_at st' b = object_at st b.
Proof.
  intros Hi. unfold Update_begin. destruct (object_ st) eqn:Hobj; [|done]. intros [= <-].
  split_and!; [done | done|]. exists (next_cell st). split_and!; [done | | |].
  - unfold object_at. rewrite (i_freed _ Hi); [done|]. intros Hn%(i_next _ Hi). lia.
  - unfold object_at. cbn. by rewrite lookup_insert_eq.
  - intros b Hb. unfold object_at. cbn. by rewrite lookup_insert_ne.
Qed.

Lemma current_object st a : inv st → object_ st = Some a → is_Some (object_at st a).
Proof.
  intros Hi Ha. destruct (i_cell _ Hi a (current_owner _ _ Ha)) as (_&o&Hc). unfold object_at. rewrite Hc. by exists o.
Qed.

(** An object without a call of [Update] under way is the current one. *)
Lemma only_current st a o :
  inv st → updaters st = [] → object_at st a = Some o → object_ st = Some a.
Proof.
  intros Hi Hu Ho. destruct (decide (a ∈ owners st)) as [Ha|Ha].
  - unfold owners in Ha. rewrite Hu, app_nil_r in Ha. destruct (object_ st); [|by apply not_elem_of_nil in Ha].
    by apply list_elem_of_singleton in Ha as ->.
  - unfold object_at in Ho. by rewrite (i_freed _ Hi a Ha) in Ho.
Qed.
End reading.

Section other_steps.
Context {A : Type}.
Implicit Types (m : BasicManager A) (s : Sys A).

Lemma step_keeps_map (l : Label A) s s' :
  label_thread updates_map l s = false → step l s = Some s' →
  bm_handles_map (sys_manager s') = bm_handles_map (sys_manager s).
Proof.
  intros Hl Hstep. pose proof (step_with (bm_handles_map (sys_manager s)) l s Hl) as Hw.
  assert (sys_with (bm_handles_map (sys_manager s)) s = s) as Hs by (by destruct s as [[] ? ?]).
  rewrite Hs, Hstep in Hw. cbn in Hw. injection Hw as ->. done.
Qed.

(** A step that is not an update keeps every servable that could be in a serving map. *)
Lemma step_keeps_served (l : Label A) s s' x :
  sys_inv s → label_wf l → label_thread updates_map l s = false → step l s = Some s' →
  served (bm_managed_map (sys_manager s)) x → served (bm_managed_map (sys_manager s')) x.
Proof.
  intros Hinv Hwf Hl Hstep Hx. pose (H := [(Latest "", x)] : HandlesMap).
  assert (Hinv' : sys_inv (sys_with H s)).
  { destruct s as [m d ts], Hinv as (Hheap&?&?). split_and!; [|done|done]. destruct Hheap. split; try done.
    intros k y Hy. cbn in Hy. apply list_elem_of_singleton in Hy. by injection Hy as _ ->. }
  assert (step l (sys_with H s) = Some (sys_with H s')) as Hstep' by (by rewrite step_with, Hstep).
  pose proof (step_inv _ _ _ Hwf Hinv' Hstep') as (Hheap&_&_).
  apply (hi_served _ _ _ _ _ Hheap (Latest "") x). left.
Qed.

Lemma wake_updates t : updates_map t = true → wake t = t.
Proof. by destruct t. Qed.

(** A thread that waits in an update stays where it is. *)
Lemma step_keeps_thread (l : Label A) s s' t :
  label_thread updates_map l s = false → updates_map t = true → step l s = Some s' →
  t ∈ sys_threads s → t ∈ sys_threads s'.
Proof.
  intros Hl Ht Hstep Hin. destruct s as [m d ts]. destruct l as [sd a|i|i|i a|n|r|k a]; cbn in Hstep; try by injection Hstep as <-.
  - destruct (LoadOrUnloadServable r m) as [o m']. injection Hstep as <-. cbn. apply elem_of_app. by right.
  - cbn in Hl. destruct (ts !! k) as [u|] eqn:Hk; [|done]. cbn in Hin. rewrite (delete_Permutation _ _ _ Hk) in Hin.
    apply elem_of_cons in Hin as [->|Hin]; [congruence|]. clear Hk.
    assert (Hw : t ∈ wake <$> delete k ts).
    { apply list_elem_of_fmap. exists t. by rewrite wake_updates. }
    assert (Hdec : ∀ r p res, t ∈ sys_threads (after_decision r p (delete k ts) (res : option Status * BasicManager A))).
    { intros r p [[[|]|] m']; cbn; by right. }
    destruct u; cbn in Hstep; try done;
      repeat (case_match; simplify_eq/=; try done); try (injection Hstep as <-; cbn); try (by right); try apply Hdec; done.
Qed.
End other_steps.

Section serving_invariant.
Context {A : Type}.
Implicit Types (σ : Serving A) (m : BasicManager A) (ptr : Ptr (T := HandlesMap)).

(** The cell of the map that an update installs, or has installed. *)
Definition installed ptr : option nat :=
  match updaters ptr with UConstructed a :: _ => Some a | _ => object_ ptr end.

(** [x] was found through the pointer [r]. *)
Definition found_in ptr (r : option nat) (h : option Handle) : Prop :=
  match h with
  | None => True
  | Some x => ∃ a H k, r = Some a ∧ object_at ptr a = Some H ∧ (k, x) ∈ H
  end.

(** The thread in an update; the new map has no entry for what is to be unloaded. *)
Definition updating_ok (t : Thread) (ts : list Thread) ptr : Prop :=
  t ∈ ts ∧ updates_map t = true ∧ length (updaters ptr) ≤ 1 ∧
  ∀ r p H k x, t = TUnloadStart r p → installed ptr ≫= object_at ptr = Some H → (k, x) ∈ H →
    x.1 ≠ lur_id r.

Record sv_inv σ : Prop := {
  v_sys : sys_inv (sv_sys σ);
  v_ptr : inv (sv_ptr σ);
  v_current : object_ (sv_ptr σ) ≫= object_at (sv_ptr σ) = Some (bm_handles_map (sys_manager (sv_sys σ)));
  v_maps : ∀ a H k x, object_at (sv_ptr σ) a = Some H → (k, x) ∈ H →
    served (bm_managed_map (sys_manager (sv_sys σ))) x;
  v_found : Forall2 (found_in (sv_ptr σ)) (readers (sv_ptr σ)) (sv_handles σ);
  v_updating : match sv_updating σ with
               | None => updaters (sv_ptr σ) = []
               | Some t => updating_ok t (sys_threads (sv_sys σ)) (sv_ptr σ)
               end }.

Lemma found_same ptr ptr' r h : (∀ a, object_at ptr' a = object_at ptr a) → found_in ptr r h → found_in ptr' r h.
Proof. intros Ho. destruct h as [x|]; [|done]. intros (a&H&k&->&?&?). exists a, H, k. by rewrite Ho. Qed.

(** A client does something. *)
Lemma client_inv σ ptr' handles' :
  sv_inv σ → inv ptr' → same_objects (sv_ptr σ) ptr' →
  Forall2 (found_in (sv_ptr σ)) (readers ptr') handles' →
  sv_inv (mkServing (sv_sys σ) ptr' handles' (sv_updating σ)).
Proof.
  intros [Hs Hp Hcur Hmaps Hf Hu] Hi (Ho&Hobj&Hups) Hf'. split; cbn; [done | done | | | |].
  - rewrite Hobj. destruct (object_ (sv_ptr σ)); [|done]. cbn in *. by rewrite Ho.
  - intros a H k x. rewrite Ho. apply Hmaps.
  - eapply Forall2_impl; [exact Hf'|]. intros r h. by apply found_same.
  - destruct (sv_updating σ) as [t|]; [|by rewrite Hups]. destruct Hu as (Hu1&Hu2&Hu3&Hn).
    assert (Hin : installed ptr' = installed (sv_ptr σ)) by (unfold installed; by rewrite Hups, Hobj).
    split_and!; [done | done | by rewrite Hups|]. intros r p H k x Ht HH. apply (Hn r p H k x Ht).
    rewrite <-HH, Hin. destruct (installed (sv_ptr σ)); [|done]. cbn. by rewrite Ho.
Qed.

Lemma serving_manager_step_inv σ (l : Label A) s' :
  sv_inv σ → label_wf l → label_thread updates_map l (sv_sys σ) = false → step l (sv_sys σ) = Some s' →
  sv_inv (mkServing s' (sv_ptr σ) (sv_handles σ) (sv_updating σ)).
Proof.
  intros [Hs Hp Hcur Hmaps Hf Hu] Hwf Hl Hstep. split; cbn; [|done| | |done|].
  - by eapply step_inv.
  - by rewrite (step_keeps_map _ _ _ Hl Hstep).
  - intros a H k x HH Hx. eapply step_keeps_served; eauto.
  - destruct (sv_updating σ) as [t|]; [|done]. destruct Hu as (Hu1&Hu2&Hu3&Hn). split_and!; try done.
    by eapply step_keeps_thread.
Qed.

(** The new map has no entry for a servable that is being unloaded. *)
Lemma new_map_without (s : Sys A) r p k x :
  sys_inv s → TUnloadStart r p ∈ sys_threads s →
  (k, x) ∈ ServingMap_Update (bm_managed_map (sys_manager s)) → x.1 ≠ lur_id r.
Proof.
  intros (Hheap&_&_) Ht Hx Heq. pose proof (hi_unique _ _ _ _ _ Hheap) as Hu.
  destruct (hi_threads _ _ _ _ _ Hheap _ Ht) as [_ Ho].
  destruct (Ho _ _ eq_refl) as (q&h&Hq&Hid&Hs&_). cbn in Hid.
  apply elem_of_serving_map in Hx as [Hx _]; [|done].
  apply elem_of_ready_handles in Hx as (p'&h'&Hp'&Hs'&->). cbn in Heq.
  assert (p' = q) as -> by (eapply Hu; [done..|congruence]). congruence.
Qed.

Lemma sys_inv_handles m d ts (H : HandlesMap) :
  sys_inv (mkSys m d ts) → (∀ k x, (k, x) ∈ H → served (bm_managed_map m) x) →
  sys_inv (mkSys (set_handles_map H m) d ts).
Proof. intros ([]&?&?) HH. split_and!; [|done|done]. by split. Qed.

Lemma update_publishes (s : Sys A) t :
  sys_inv s → t ∈ sys_threads s →
  core (match t with TUnloadStart _ p => publish_harness kUnloading p (sys_manager s) | _ => sys_manager s end) =
  core (sys_manager s).
Proof.
  intros (Hheap&_&_) Ht. destruct t as [ | | | | | | | |r p| | | | |]; try done.
  destruct (hi_threads _ _ _ _ _ Hheap _ Ht) as [_ Ho].
  destruct (Ho _ _ eq_refl) as (q&h&Hq&_&_&[|[= ->]]); [done|]. by eapply publish_harness_core.
Qed.

(** The update begins. *)
Lemma update_begin_sv_inv σ t m' ptr' :
  sv_inv σ → sv_updating σ = None → t ∈ sys_threads (sv_sys σ) → updates_map t = true →
  update_begin t (sys_manager (sv_sys σ)) (sv_ptr σ) = Some (m', ptr') →
  sv_inv (mkServing (mkSys m' (sys_deciding (sv_sys σ)) (sys_threads (sv_sys σ))) ptr' (sv_handles σ) (Some t)).
Proof.
  intros [Hs Hp Hcur Hmaps Hf Hu] Hno Ht Hup Hb. rewrite Hno in Hu. unfold update_begin in Hb.
  pose proof (update_publishes _ _ Hs Ht) as Hc. set (m1 := match t with TUnloadStart _ p => _ | _ => _ end) in *.
  destruct (Update_begin _ _) as [ptr1|] eqn:E; [|done]. cbn in Hb. injection Hb as <- <-.
  destruct (Update_frame _ _ _ Hp E) as (Hobj&Hr&a&Hups&Hfresh&Hnew&Hold). rewrite Hu in Hups. cbn in Hups.
  pose proof (managed_of_core _ _ Hc) as HM.
  assert (Hserved : ∀ k x, (k, x) ∈ ServingMap_Update (bm_managed_map m1) → served (bm_managed_map m1) x).
  { apply served_update. rewrite HM. apply (hi_unique _ _ _ _ _ (proj1 Hs)). }
  assert (Hkeep : ∀ b H, object_at (sv_ptr σ) b = Some H → object_at ptr1 b = Some H).
  { intros b H HH. rewrite Hold; [done|]. intros ->. congruence. }
  split; cbn.
  - destruct (sv_sys σ) as [m d ts]. eapply sys_inv_core; [symmetry; exact Hc | exact Hs].
  - by eapply update_begin_inv.
  - rewrite Hobj. destruct (object_ (sv_ptr σ)) as [c|]; [|done]. cbn in *.
    rewrite (Hkeep _ _ Hcur). by rewrite (handles_of_core _ _ Hc).
  - intros b H k x HH Hx. destruct (decide (b = a)) as [->|Hne].
    + rewrite Hnew in HH. injection HH as <-. by apply (Hserved k).
    + rewrite HM. rewrite Hold in HH by done. by eapply Hmaps.
  - rewrite Hr. eapply Forall2_impl; [exact Hf|]. intros r [x|]; [|done]. intros (b&H&k&->&HH&Hx).
    exists b, H, k. eauto.
  - unfold updating_ok, installed. rewrite Hups. split_and!; [done | done | cbn; lia|].
    intros r p H k x -> HH Hx. cbn in HH. rewrite Hnew in HH. injection HH as <-.
    eapply (new_map_without (sv_sys σ)); [done | exact Ht|]. rewrite <-HM. exact Hx.
Qed.

Lemma installed_run ptr ptr' :
  inv ptr → length (updaters ptr) ≤ 1 → is_Some (object_ ptr) → run_updater 0 ptr = Some ptr' →
  installed ptr' = installed ptr ∧ length (updaters ptr') ≤ 1 ∧ is_Some (object_ ptr').
Proof.
  intros Hi Hlen [c Hc] Hrun. destruct (updaters ptr) as [|u [|]] eqn:Hu; [| |cbn in Hlen; lia].
  { unfold run_updater in Hrun. by rewrite Hu in Hrun. }
  assert (Hk : updaters ptr !! 0 = Some u) by (by rewrite Hu). destruct u as [a|a d|a d].
  - unfold run_updater in Hrun. rewrite Hk, Hc in Hrun. cbn in Hrun. injection Hrun as <-.
    unfold installed. cbn. rewrite Hu. cbn. split_and!; eauto.
  - unfold run_updater in Hrun. rewrite Hk in Hrun. injection Hrun as <-.
    destruct (release_frame a ptr) as (_&Ho&_). unfold installed. cbn. rewrite Hu, Ho. cbn. split_and!; eauto.
  - destruct (return_inv _ _ _ _ _ Hi Hk Hrun) as (_&_&_&Hups&Ho&_). unfold installed.
    rewrite Hups, Hu, Ho. cbn. split_and!; eauto.
Qed.

(** The update runs. *)
Lemma run_update_sv_inv σ t ptr' :
  sv_inv σ → sv_updating σ = Some t → run_updater 0 (sv_ptr σ) = Some ptr' →
  sv_inv (mkServing (mkSys (set_handles_map (current_map ptr') (sys_manager (sv_sys σ)))
                       (sys_deciding (sv_sys σ)) (sys_threads (sv_sys σ))) ptr' (sv_handles σ) (Some t)).
Proof.
  intros [Hs Hp Hcur Hmaps Hf Hu] Ht Hrun. rewrite Ht in Hu. destruct Hu as (Hin&Hup&Hlen&Hno).
  destruct (run_frame _ _ _ Hp Hrun) as (Hr&Hobj). pose proof (run_updater_inv _ _ _ Hp Hrun) as Hp'.
  assert (Hback : ∀ a H, object_at ptr' a = Some H → object_at (sv_ptr σ) a = Some H).
  { intros a H HH. destruct (Hobj a) as [<-|[? _]]; congruence. }
  assert (Hcur0 : is_Some (object_ (sv_ptr σ))) by (destruct (object_ (sv_ptr σ)); [eauto | done]).
  destruct (installed_run _ _ Hp Hlen Hcur0 Hrun) as (Hinst&Hlen'&[c Hc]).
  destruct (current_object _ _ Hp' Hc) as [H HH].
  assert (Hmap : current_map ptr' = H) by (unfold current_map; rewrite Hc; cbn; by rewrite HH).
  split; cbn.
  - destruct (sv_sys σ) as [m d ts]. apply sys_inv_handles; [done|]. rewrite Hmap. intros k x Hx.
    eapply Hmaps; [by apply Hback|done].
  - done.
  - rewrite Hc. cbn. by rewrite HH, Hmap.
  - intros a G k x HG. by eapply Hmaps, Hback.
  - rewrite Hr. apply Forall2_same_length_lookup_2; [by eapply Forall2_length|].
    intros i r h Hi Hh. pose proof (Forall2_lookup_lr _ _ _ _ _ _ Hf Hi Hh) as Hfound.
    destruct h as [x|]; [|done]. destruct Hfound as (a&G&k&->&HG&Hx). exists a, G, k.
    split_and!; [done | | done]. destruct (Hobj a) as [->|[_ Hn]]; [done|].
    destruct Hn. by eapply list_elem_of_lookup_2.
  - split_and!; [done..|]. intros r p G k x Hr' HG. apply (Hno r p G k x Hr').
    rewrite <-Hinst. destruct (installed ptr'); [|done]. cbn in *. by apply Hback.
Qed.

Lemma sys_inv_head m d ts k (t : Thread) :
  sys_inv (mkSys m d ts) → ts !! k = Some t → sys_inv (mkSys m d (t :: delete k ts)).
Proof.
  intros (Hheap&Hc&?) Hk%delete_Permutation. split_and!; [|by eapply counts_inv_perm|done].
  by eapply heap_inv_perm.
Qed.

(** After the update an unload leaves the states in which it can be served. *)
Lemma done_quiescing_inv m d r p rest :
  sys_inv (mkSys m d (TUnloadStart r p :: rest)) →
  (∀ k x, (k, x) ∈ bm_handles_map m → x.1 ≠ lur_id r) →
  ∃ m', (call_harness p DoneQuiescing ;;? sm_ret StatusOK) m = (StatusOK, m') ∧
    sys_inv (mkSys m' d (TUnloadBegin r p :: rest)) ∧ bm_handles_map m' = bm_handles_map m.
Proof.
  intros Hinv Hno. destruct (owned_harness _ _ _ _ _ _ Hinv eq_refl) as (q&h&Hq&Hid&Hs&[|[= <-]]&Ho&Hg&Hl); [done|].
  destruct (call_harness_spec p DoneQuiescing m h Hq) as (m'&E&Hc).
  unfold DoneQuiescing in E, Hc. rewrite transition_ret in E, Hc by done. cbn in E, Hc, Hid, Hl.
  exists m'. unfold DoneQuiescing. rewrite (sm_bind_ok _ _ _ _ E). split_and!; [done | |].
  - eapply execution_inv; [exact Hinv | exact Hq | exact Hc | ..]; try done.
    + apply good_set_state; rewrite ?Hs; done.
    + intros _. right. by rewrite Hid.
    + cbn. auto.
  - apply handles_of_core in Hc. exact Hc.
Qed.

Lemma update_end_sys_inv m d ts k t s' :
  sys_inv (mkSys m d ts) → ts !! k = Some t →
  (∀ r p k x, t = TUnloadStart r p → (k, x) ∈ bm_handles_map m → x.1 ≠ lur_id r) →
  update_end t d (delete k ts) m = Some s' →
  sys_inv s' ∧ bm_handles_map (sys_manager s') = bm_handles_map m.
Proof.
  intros Hinv Hk Hno Hend. pose proof (sys_inv_head _ _ _ _ _ Hinv Hk) as Hinv'.
  destruct t as [ | | | | | |r| |r p| | | | |]; try done; cbn in Hend.
  - injection Hend as <-. split; [|done]. pose proof (thread_locals _ _ _ _ Hinv').
    eapply plain_inv; [exact Hinv' | ..]; try done; auto.
  - destruct (done_quiescing_inv _ _ _ _ _ Hinv' (λ k x, Hno r p k x eq_refl)) as (m'&E&Hi&Hh).
    rewrite E in Hend. injection Hend as <-. done.
Qed.

Lemma update_end_sv_inv σ t k s' :
  sv_inv σ → sv_updating σ = Some t → sys_threads (sv_sys σ) !! k = Some t → updaters (sv_ptr σ) = [] →
  update_end t (sys_deciding (sv_sys σ)) (delete k (sys_threads (sv_sys σ))) (sys_manager (sv_sys σ)) = Some s' →
  sv_inv (mkServing s' (sv_ptr σ) (sv_handles σ) None).
Proof.
  intros [Hs Hp Hcur Hmaps Hf Hu] Ht Hk Hups Hend. rewrite Ht in Hu. destruct Hu as (_&_&_&Hno).
  unfold installed in Hno. rewrite Hups in Hno.
  destruct (sv_sys σ) as [m d ts] eqn:Hsys. cbn in Hk, Hend, Hcur.
  destruct (update_end_sys_inv m d ts k t s') as [Hs' Hh]; [done | done | | done |].
  { intros r p k' x Hr Hx. by eapply Hno. }
  split; cbn; [done | done | by rewrite Hh | | done | done].
  intros a H k' x HH Hx. rewrite (only_current _ _ _ Hp Hups HH) in Hcur. cbn in Hcur.
  rewrite HH in Hcur. injection Hcur as ->. apply (hi_served _ _ _ _ _ (proj1 Hs') k'). by rewrite Hh.
Qed.

(** ** Clients *)

Lemma found_delete ptr (rs : list (option nat)) (hs : list (option Handle)) k :
  Forall2 (found_in ptr) rs hs → Forall2 (found_in ptr) (delete k rs) (delete k hs).
Proof. apply Forall2_delete. Qed.

Lemma fresh_map_reader σ k H :
  fresh_map k σ = Some H →
  ∃ a, readers (sv_ptr σ) !! k = Some (Some a) ∧ object_at (sv_ptr σ) a = Some H.
Proof.
  unfold fresh_map. destruct (sv_handles σ !! k) as [[x|]|]; [done| |done]. cbn.
  destruct (readers (sv_ptr σ) !! k) as [[a|]|]; [|done|done]. cbn. eauto.
Qed.

Lemma copy_handles_spec k xs ptr ptr' r :
  inv ptr → readers ptr !! k = Some r → copy_handles k xs ptr = Some ptr' →
  inv ptr' ∧ same_objects ptr ptr' ∧ readers ptr' = readers ptr ++ replicate (length xs) r.
Proof.
  revert ptr. induction xs as [|x xs IH]; intros ptr Hi Hk Hcopy; cbn in Hcopy.
  { injection Hcopy as <-. split_and!; [done.. | by rewrite app_nil_r]. }
  destruct (copy_reader k ptr) as [ptr1|] eqn:E; [|done]. cbn in Hcopy.
  destruct (copy_frame _ _ _ E) as (Hsame&r'&Hr'&Hreaders). rewrite Hk in Hr'. injection Hr' as <-.
  destruct (IH ptr1) as (Hi'&Hsame'&Hr'); [by eapply copy_inv | | done |].
  { rewrite Hreaders. by apply lookup_app_l_Some. }
  split_and!; [done | by eapply same_objects_trans | by rewrite Hr', Hreaders, <-app_assoc].
Qed.

Lemma find_sv_inv σ k request H :
  sv_inv σ → fresh_map k σ = Some H →
  ∀ x, (GetUntypedServableHandle request (set_handles_map H (sys_manager (sv_sys σ)))).2 = Some x →
  sv_inv (mkServing (sv_sys σ) (sv_ptr σ) (<[k := Some x]> (sv_handles σ)) (sv_updating σ)).
Proof.
  intros Hv (a&Ha&HH)%fresh_map_reader x Hx.
  destruct (GetUntypedServableHandle _ _) as [st o] eqn:E. cbn in Hx. subst o.
  apply GetUntypedServableHandle_elem in E as [_ Hin]. cbn in Hin.
  apply client_inv; [done | apply Hv | done |].
  rewrite <-(list_insert_id (readers (sv_ptr σ)) k (Some a) Ha).
  apply Forall2_insert; [apply Hv|]. by exists a, H, request.
Qed.

Lemma drop_sv_inv σ k ptr' :
  sv_inv σ → drop_reader k (sv_ptr σ) = Some ptr' →
  sv_inv (mkServing (sv_sys σ) ptr' (delete k (sv_handles σ)) (sv_updating σ)).
Proof.
  intros Hv Hd. destruct (drop_frame _ _ _ Hd) as [Hsame Hr].
  apply client_inv; [done | eapply drop_inv; [apply Hv|done] | done|]. rewrite Hr. apply found_delete, Hv.
Qed.

Lemma available_elem H i (x : Handle) m :
  (i, x) ∈ map_to_list (GetAvailableUntypedServableHandles (set_handles_map H m)) → ∃ k, (k, x) ∈ H.
Proof.
  intros Hx%elem_of_map_to_list. unfold GetAvailableUntypedServableHandles in Hx. cbn in Hx.
  apply (proj1 (add_handle_fold H ∅ i)) in Hx as [Hx|(_&k&Hk&_)]; [by rewrite lookup_empty in Hx | eauto].
Qed.

Lemma available_sv_inv σ k H ptr1 ptr' :
  sv_inv σ → fresh_map k σ = Some H →
  let xs := (map_to_list (GetAvailableUntypedServableHandles (set_handles_map H (sys_manager (sv_sys σ))))).*2 in
  copy_handles k xs (sv_ptr σ) = Some ptr1 → drop_reader k ptr1 = Some ptr' →
  sv_inv (mkServing (sv_sys σ) ptr' (delete k (sv_handles σ ++ (Some <$> xs))) (sv_updating σ)).
Proof.
  intros Hv (a&Ha&HH)%fresh_map_reader xs Hcopy Hdrop.
  destruct (copy_handles_spec _ _ _ _ _ (v_ptr _ Hv) Ha Hcopy) as (Hi1&Hs1&Hr1).
  destruct (drop_frame _ _ _ Hdrop) as [Hs2 Hr2].
  apply client_inv; [done | by eapply drop_inv | by eapply same_objects_trans|].
  rewrite Hr2, Hr1. apply found_delete, Forall2_app; [apply Hv|].
  apply Forall2_same_length_lookup_2; [by rewrite length_replicate, length_fmap|].
  intros j r h Hj Hh. apply lookup_replicate in Hj as [-> _]. rewrite list_lookup_fmap in Hh.
  destruct (xs !! j) as [x|] eqn:Hx; [|done]. injection Hh as <-.
  apply list_elem_of_lookup_2, list_elem_of_fmap in Hx as ([i y]&->&Hy).
  destruct (available_elem _ _ _ _ Hy) as [key Hkey]. by exists a, H, key.
Qed.

Lemma sv_step_inv (l : SLabel A) σ σ' :
  sv_inv σ → slabel_wf l → sv_step l σ = Some σ' → sv_inv σ'.
Proof.
  intros Hv Hwf Hstep. destruct σ as [[m d ts] ptr hs up]. destruct l as [l|k| |k| |k request|k|k]; cbn [sv_step] in Hstep.
  - destruct (label_thread _ _ _ || _) eqn:Hg; [done|]. apply orb_false_iff in Hg as [Hg _].
    destruct (step l _) as [s'|] eqn:E; [|done]. cbn in Hstep. injection Hstep as <-.
    by apply (serving_manager_step_inv _ _ _ Hv Hwf Hg E).
  - destruct (ts !! k) as [t|] eqn:Hk; [|done]. cbn in Hstep. destruct (updates_map t) eqn:Ht; [|done].
    case_bool_decide as Hup; [|done]. cbn in Hstep. subst up. destruct (update_begin t m ptr) as [[m' ptr']|] eqn:E; [|done].
    cbn in Hstep. injection Hstep as <-. apply (update_begin_sv_inv _ t m' ptr' Hv); try done.
    by eapply list_elem_of_lookup_2.
  - destruct up as [t|]; [|done]. cbn in Hstep. destruct (run_updater 0 ptr) as [ptr'|] eqn:E; [|done].
    cbn in Hstep. injection Hstep as <-. by apply (run_update_sv_inv _ t ptr' Hv).
  - destruct up as [t|]; [|done]. cbn in Hstep. case_bool_decide as Hk; [|done]. case_bool_decide as Hu; [|done].
    cbn in Hstep. destruct (update_end t d (delete k ts) m) as [s'|] eqn:E; [|done]. cbn in Hstep. injection Hstep as <-.
    apply (update_end_sv_inv _ t k s' Hv); try done. by apply nil_length_inv.
  - destruct (get ptr) as [ptr'|] eqn:E; [|done]. cbn in Hstep. injection Hstep as <-.
    destruct (get_frame _ _ (v_ptr _ Hv) E) as (Hsame&a&_&Hr).
    apply (client_inv _ _ _ Hv); [eapply get_inv; [apply Hv|done] | done|]. rewrite Hr.
    apply Forall2_app; [apply Hv | by repeat constructor].
  - destruct (fresh_map k _) as [H|] eqn:Hf; [|done]. cbn [mbind option_bind] in Hstep.
    destruct (GetUntypedServableHandle request _).2 as [x|] eqn:E.
    + injection Hstep as <-. by apply (find_sv_inv _ _ request _ Hv Hf).
    + destruct (drop_reader k ptr) as [ptr'|] eqn:Hd; [|done]. cbn in Hstep. injection Hstep as <-.
      by apply (drop_sv_inv _ _ _ Hv).
  - destruct (fresh_map k _) as [H|] eqn:Hf; [|done]. cbn [mbind option_bind] in Hstep.
    destruct (copy_handles k _ ptr) as [ptr1|] eqn:Hc; [|done]. cbn in Hstep.
    destruct (drop_reader k ptr1) as [ptr'|] eqn:Hd; [|done]. cbn in Hstep. injection Hstep as <-.
    by apply (available_sv_inv _ _ _ _ _ Hv Hf Hc Hd).
  - destruct (drop_reader k ptr) as [ptr'|] eqn:Hd; [|done]. cbn in Hstep. injection Hstep as <-.
    by apply (drop_sv_inv _ _ _ Hv).
Qed.
End serving_invariant.

(** ** Requests are answered *)

(** A step of the threads of the manager: no call of its interface, and nothing that a
    client does with a handle. *)
Definition internal {A} (l : SLabel A) : bool :=
  match l with SManager (LRun _ _) | SUpdate _ | SRunUpdate | SUpdated _ => true | _ => false end.

Definition sruns {A} (σ σ' : Serving A) : Prop := ∃ l, internal l = true ∧ sv_step l σ = Some σ'.

Definition slabel_request {A} (l : SLabel A) : option LoadOrUnloadRequest :=
  match l with SManager l => label_request l | _ => None end.

(** The steps that an update of the map has before it. *)
Definition update_rank (updating : option Thread) (us : list Updater) : nat :=
  match updating, us with
  | None, _ => 4
  | Some _, UConstructed _ :: _ => 3
  | Some _, USwapped _ _ :: _ => 2
  | Some _, UWaiting _ _ :: _ => 1
  | Some _, [] => 0
  end.

Definition sv_weight {A} (σ : Serving A) : nat :=
  5 * weight (max_tries (bm_harness_options (sys_manager (sv_sys σ)))) (sys_threads (sv_sys σ)) +
  update_rank (sv_updating σ) (updaters (sv_ptr σ)).

Section answered.
Context {A : Type}.
Implicit Types σ : Serving A.

Lemma update_begin_aux t (m : BasicManager A) ptr m' ptr' : update_begin t m ptr = Some (m', ptr') → aux m' = aux m.
Proof.
  unfold update_begin. destruct (Update_begin _ ptr); [|done]. cbn. intros [= <- _]. destruct t; try done. apply aux_publish_harness.
Qed.

Lemma update_end_account t d rest (m : BasicManager A) s' : update_end t d rest m = Some s' →
  aux (sys_manager s') = aux m ∧ ∃ t', sys_threads s' = t' :: rest ∧ thread_request t' = thread_request t ∧
    ∀ n, 2 * rank n t' + reserving t' < 2 * rank n t + reserving t.
Proof.
  destruct t as [ | | | | | |r| |r p| | | | |]; try done; cbn [update_end].
  - intros [= <-]. split; [done|]. eexists. split_and!; [done|done|]. intros n. cbn. lia.
  - pose proof (aux_call_harness_ret p DoneQuiescing m) as Ha. destruct (sm_bind _ _ m) as [st m'] eqn:E. cbn in Ha. intros [= <-].
    split; [exact Ha|]. eexists. split_and!; [done|by destruct (ok st)|]. intros n. destruct (ok st); cbn; lia.
Qed.

(** The steps of an update keep the account; those of the client too. *)
Lemma other_steps_account l σ σ' : sv_step l σ = Some σ' → (∀ l', l ≠ SManager l') →
  aux (sys_manager (sv_sys σ')) = aux (sys_manager (sv_sys σ)) ∧
  thread_request <$> sys_threads (sv_sys σ') ≡ₚ thread_request <$> sys_threads (sv_sys σ).
Proof.
  destruct σ as [[m d ts] ptr hs up]. intros Hstep Hl. destruct l as [l|k| |k| |k request|k|k]; cbn [sv_step] in Hstep; [by destruct (Hl l)|..].
  - destruct (ts !! k) as [t|]; [|done]. cbn in Hstep. destruct (_ && _); [|done]. destruct (update_begin t m ptr) as [[m' ptr']|] eqn:E; [|done].
    injection Hstep as <-. cbn. by rewrite (update_begin_aux _ _ _ _ _ E).
  - destruct up; [|done]. cbn in Hstep. destruct (run_updater 0 ptr); [|done]. by injection Hstep as <-.
  - destruct up as [t|]; [|done]. cbn in Hstep. case_bool_decide as Hk; [|done]. destruct (_ && _); [|done].
    destruct (update_end t d (delete k ts) m) as [s'|] eqn:E; [|done]. injection Hstep as <-. cbn [sv_sys sys_manager sys_threads].
    destruct (update_end_account _ _ _ _ _ E) as (Ha&t'&->&Hr&_). split; [exact Ha|]. rewrite fmap_cons, Hr, <- fmap_cons. by rewrite <- (delete_Permutation _ _ _ Hk).
  - destruct (get ptr); [|done]. by injection Hstep as <-.
  - destruct (fresh_map k _); [|done]. cbn [mbind option_bind] in Hstep. destruct (GetUntypedServableHandle _ _).2; [by injection Hstep as <-|].
    destruct (drop_reader k ptr); [|done]. by injection Hstep as <-.
  - destruct (fresh_map k _); [|done]. cbn [mbind option_bind] in Hstep. destruct (copy_handles _ _ ptr) as [ptr1|]; [|done]. cbn in Hstep.
    destruct (drop_reader k ptr1); [|done]. by injection Hstep as <-.
  - destruct (drop_reader k ptr); [|done]. by injection Hstep as <-.
Qed.

Lemma serving_answers m0 ls σ : dones m0 = [] → serving_runs m0 ls σ →
  dones (sys_manager (sv_sys σ)) ++ (thread_request <$> sys_threads (sv_sys σ)) ≡ₚ omap slabel_request ls.
Proof.
  intros H0. induction 1 as [|ls l σ σ' _ IH _ Hstep]; [cbn; by rewrite H0|]. rewrite omap_app.
  destruct l as [l|k| |k| |k request|k|k].
  1: { destruct σ as [[m d ts] ptr hs up]. cbn [sv_step] in Hstep. destruct (_ || _); [done|]. destruct (step l _) as [s'|] eqn:E; [|done]. injection Hstep as <-.
    cbn [sv_sys] in *. destruct (step_answers _ _ _ E) as (new&_&Hd&Hr). unfold dones in *. rewrite Hd, fmap_app, <- app_assoc, Hr, <- IH.
    change (omap slabel_request [SManager l]) with (omap label_request [l]). cbn [sys_manager sys_threads]. change (aux m).1 with (answers m). rewrite <- app_assoc. f_equiv. apply Permutation_app_comm. }
  all: destruct (other_steps_account _ _ _ Hstep ltac:(done)) as [[Ha _]%aux_eq Ht]; unfold dones in *; rewrite Ha, Ht, IH; cbn [omap list_omap slabel_request]; by rewrite app_nil_r.
Qed.

(** Every step of the threads uses up weight. *)
Lemma sruns_decreases σ σ' : sv_inv σ → sruns σ σ' → sv_weight σ' < sv_weight σ.
Proof.
  intros Hv (l&Hl&Hstep). pose proof (v_sys _ Hv) as Hs. pose proof (v_updating _ Hv) as Hu. pose proof (v_ptr _ Hv) as Hp.
  destruct σ as [[m d ts] ptr hs up]. unfold sv_weight. destruct l as [l|k| |k| |k request|k|k]; try done; cbn [sv_step] in Hstep.
  - destruct l as [ | | | | | |k a]; try done. destruct (_ || _); [done|]. destruct (step _ _) as [s'|] eqn:E; [|done]. injection Hstep as <-.
    cbn [sv_sys sv_updating sv_ptr] in *. destruct (runs_decreases _ _ Hs (ex_intro _ k (ex_intro _ a E))) as [-> Hw]. cbn in *. lia.
  - destruct (ts !! k) as [t|]; [|done]. cbn in Hstep. destruct (updates_map t); [|done]. case_bool_decide as Hnone; [|done]. cbn in Hstep. subst up.
    destruct (update_begin t m ptr) as [[m' ptr']|] eqn:E; [|done]. injection Hstep as <-. cbn [sv_sys sv_updating sv_ptr sys_manager sys_threads] in *.
    destruct (aux_eq _ _ (update_begin_aux _ _ _ _ _ E)) as [_ ->]. unfold update_begin in E. destruct (Update_begin _ ptr) as [ptr1|] eqn:E1; [|done]. injection E as _ ->.
    destruct (Update_frame _ _ _ Hp E1) as (_&_&a&->&_). rewrite Hu. cbn. lia.
  - destruct up as [t|]; [|done]. cbn in Hstep. destruct (run_updater 0 ptr) as [ptr'|] eqn:E; [|done]. injection Hstep as <-. cbn [sv_sys sv_updating sv_ptr sys_manager sys_threads] in *.
    destruct Hu as (_&_&Hlen&_). change (bm_harness_options (set_handles_map _ m)) with (bm_harness_options m).
    assert (update_rank (Some t) (updaters ptr') < update_rank (Some t) (updaters ptr)); [|lia].
    destruct (updaters ptr) as [|u [|? ?]] eqn:Hups; [by unfold run_updater in E; rewrite Hups in E| |cbn in Hlen; lia].
    unfold run_updater in E. rewrite Hups in E. cbn in E. destruct u as [a|a b|a b].
    + destruct (object_ ptr); [|done]. injection E as <-. cbn. lia.
    + injection E as <-. cbn. lia.
    + destruct (cells ptr !! a) as [c|]; [|done]. cbn in E. destruct (can_release c); [|done]. injection E as <-. cbn. lia.
  - destruct up as [t|]; [|done]. cbn in Hstep. case_bool_decide as Hk; [|done]. case_bool_decide as Hlen; [|done]. cbn in Hstep.
    destruct (update_end t d (delete k ts) m) as [s'|] eqn:E; [|done]. injection Hstep as <-. cbn [sv_sys sv_updating sv_ptr sys_manager sys_threads] in *.
    destruct (update_end_account _ _ _ _ _ E) as ([_ ->]%aux_eq&t'&->&_&Hlt). rewrite (weight_perm _ _ _ (delete_Permutation _ _ _ Hk)), !weight_cons.
    specialize (Hlt (max_tries (bm_harness_options m))). apply nil_length_inv in Hlen. rewrite Hlen. cbn [update_rank]. lia.
Qed.

Lemma sruns_inv σ σ' : sv_inv σ → sruns σ σ' → sv_inv σ'.
Proof. intros Hv (l&Hl&Hstep). eapply sv_step_inv; [exact Hv| |exact Hstep]. by destruct l as [[]| | | | | | |]. Qed.

Lemma sruns_acc σ : sv_inv σ → Acc (flip sruns) σ.
Proof.
  remember (sv_weight σ) as w eqn:Hw. revert σ Hw. induction (lt_wf w) as [w _ IH]. intros σ -> Hv. constructor. intros σ' Hr.
  eapply IH; [by apply sruns_decreases|done|by eapply sruns_inv].
Qed.
End answered.

(** ** Theorems *)

Section handle_theorems.
Context {A : Type} (retries threads : Z) (bus hook : bool) (tracker : option ResourceTracker).
Implicit Types σ : Serving A.

Local Abbreviation m0 := (initial retries threads bus hook tracker : BasicManager A).

Lemma start_inv : sv_inv (start m0).
Proof.
  split; cbn; [apply initial_inv | apply new_inv | done | | constructor | done].
  intros a H k x HH Hx. unfold object_at in HH. cbn in HH. destruct (decide (a = 0)) as [->|Hne].
  - rewrite lookup_insert_eq in HH. injection HH as <-. by apply not_elem_of_nil in Hx.
  - by rewrite lookup_insert_ne in HH.
Qed.

Lemma serving_runs_inv ls σ : serving_runs m0 ls σ → sv_inv σ.
Proof. induction 1; [apply start_inv | by eapply sv_step_inv]. Qed.

Lemma update_goes_on σ t :
  sv_inv σ → sv_updating σ = Some t →
  is_Some (sv_step SRunUpdate σ) ∨ (∃ k, is_Some (sv_step (SUpdated k) σ)) ∨
  ∃ a d, UWaiting a d ∈ updaters (sv_ptr σ) ∧ Some a ∈ readers (sv_ptr σ).
Proof.
  intros [Hs Hp Hcur Hmaps Hf Hu] Ht. rewrite Ht in Hu. destruct Hu as (Hin&Hup&Hlen&Hno).
  destruct σ as [[m d ts] ptr hs up]. cbn in *. subst up. cbn [mbind option_bind].
  destruct (updaters ptr) as [|u us] eqn:Hups.
  - right. left. apply list_elem_of_lookup in Hin as [k Hk]. exists k.
    rewrite !bool_decide_true by done. cbn. destruct t as [ | | | | | |r| |r p| | | | |]; try done; cbn.
    destruct (sm_bind _ _ m) as [st m']. cbn. by eexists.
  - assert (Hk : updaters ptr !! 0 = Some u) by (by rewrite Hups).
    assert (Halive : ∀ a, u = UConstructed a → is_Some (object_ ptr)).
    { intros _ _. destruct (object_ ptr); [by eexists | done]. }
    pose proof (run_updater_enabled 0 u ptr Hp Hk Halive) as Hrun.
    assert (Hgo : is_Some (run_updater 0 ptr) ∨ ¬ is_Some (run_updater 0 ptr)) by (destruct (run_updater 0 ptr); [left; by eexists | by right; intros [? ?]]).
    destruct Hgo as [[ptr' E]|Hstuck]; [left; rewrite E; by eexists|].
    right. right. rewrite Hrun in Hstuck. destruct u as [a|a b|a b]; [tauto | tauto|]. exists a, b. split; [left|].
    destruct (decide (Some a ∈ readers ptr)); [done | tauto].
Qed.

(** Any thread about to update the map can begin. *)
Lemma update_can_begin σ k t :
  sv_inv σ → sv_updating σ = None → sys_threads (sv_sys σ) !! k = Some t → updates_map t = true →
  is_Some (sv_step (SUpdate k) σ).
Proof.
  intros Hv Hup Hk Ht. pose proof (v_current _ Hv) as Hcur. destruct σ as [[m d ts] ptr hs up]. cbn in *. subst up.
  rewrite Hk. cbn. rewrite Ht. cbn. unfold update_begin, Update_begin.
  destruct (object_ ptr); [|done]. cbn. by eexists.
Qed.

(** While no update runs, some thread can go on, if only to begin one. *)
Lemma threads_go_on σ :
  sv_inv σ → sv_updating σ = None → sys_threads (sv_sys σ) ≠ [] →
  (∃ k, is_Some (sv_step (SUpdate k) σ)) ∨ ∃ k a, is_Some (sv_step (SManager (LRun k a)) σ).
Proof.
  intros Hv Hup Hts. destruct (runs_progress _ (v_sys _ Hv) Hts) as (s'&k&a&Hstep).
  destruct (label_thread updates_map (LRun k a) (sv_sys σ)) eqn:Hl.
  - left. cbn in Hl. destruct (sys_threads (sv_sys σ) !! k) as [t|] eqn:Hk; [|done].
    exists k. by eapply update_can_begin.
  - right. exists k, a. destruct σ as [[m d ts] ptr hs up]. cbn [sv_step sv_sys sv_updating] in *. subst up.
    rewrite Hl, bool_decide_false by (by intros [? ?]). rewrite andb_false_r. cbn [orb]. rewrite Hstep. by eexists.
Qed.

(** C5: A servable that a client has a handle of stays loaded.  Whatever loads,
    unloads and clients run concurrently, the harness behind each handle a client
    has not let go is managed, its loader was loaded and has not been unloaded,
    although the servable may have been taken out of the serving map; and no freed
    memory is used. *)
Theorem held_servables_stay_loaded ls σ (i : nat) (x : Handle) :
  serving_runs m0 ls σ → sv_handles σ !! i = Some (Some x) →
  faulty (sv_ptr σ) = false ∧ bm_use_after_free (sys_manager (sv_sys σ)) = false ∧
  ∃ p h, bm_managed_map (sys_manager (sv_sys σ)) !! p = Some h ∧ h_id h = x.1 ∧
    h_loader h = x.2 ∧ loader_phase (h_trace h) = Some LLoaded.
Proof.
  intros [Hs Hp Hcur Hmaps Hf Hu]%serving_runs_inv Hi. split_and!; [apply Hp | apply Hs|].
  destruct (Forall2_lookup_r _ _ _ _ _ Hf Hi) as (r&_&a&H&k&->&HH&Hx).
  destruct (Hmaps a H k x HH Hx) as (p&h&Hh&Hid&Hl&Hst). exists p, h. split_and!; try done.
  apply (good_phase _ _ _ (hi_good _ _ _ _ _ (proj1 Hs) p h Hh)). by destruct (h_state h).
Qed.

(** C6: An update of the serving map, and with it a load or an unload, waits for
    handles of the old map and for nothing else: while a thread is in the
    update, the update or the thread can go on unless it waits for the old map
    and a client has a pointer to that map; and when no client has one, some
    thread can always go on until all requests are handled. *)
Theorem unload_waits_only_for_handles ls σ :
  serving_runs m0 ls σ →
  (∀ t, sv_updating σ = Some t →
     is_Some (sv_step SRunUpdate σ) ∨ (∃ k, is_Some (sv_step (SUpdated k) σ)) ∨
     ∃ a d, UWaiting a d ∈ updaters (sv_ptr σ) ∧ Some a ∈ readers (sv_ptr σ)) ∧
  (sys_threads (sv_sys σ) ≠ [] → readers (sv_ptr σ) = [] →
     is_Some (sv_step SRunUpdate σ) ∨
     (∃ k, is_Some (sv_step (SUpdated k) σ) ∨ is_Some (sv_step (SUpdate k) σ)) ∨
     ∃ k a, is_Some (sv_step (SManager (LRun k a)) σ)).
Proof.
  intros Hv%serving_runs_inv. split; [intros t; by apply update_goes_on|]. intros Hts Hr.
  destruct (sv_updating σ) as [t|] eqn:Hup.
  { destruct (update_goes_on σ t Hv Hup) as [?|[[k ?]|(a&d&_&Ha)]]; [by left | by eauto|].
    rewrite Hr in Ha. by apply not_elem_of_nil in Ha. }
  right. destruct (threads_go_on σ Hv Hup Hts) as [[k ?]|?]; eauto.
Qed.

(** C4: every request is answered unless a client keeps a handle.  The threads of the
    manager, left alone, never run for ever; and when none of them can go on, either there
    is none left, every request ever made has had its callback called exactly once, no
    execution is counted and no servable is between two states; or an update of the serving
    map has swapped the maps and waits, with [mu_] held, and a client has a pointer to the
    old map. *)
Theorem requests_answered_or_handle_held ls σ :
  serving_runs m0 ls σ →
  Acc (flip sruns) σ ∧
  ∀ σ', rtc sruns σ σ' → (¬ ∃ σ'', sruns σ' σ'') →
    (sys_threads (sv_sys σ') = [] ∧ sv_updating σ' = None ∧ dones (sys_manager (sv_sys σ')) ≡ₚ omap slabel_request ls ∧
     bm_num_ongoing_load_unload_executions (sys_manager (sv_sys σ')) = 0%Z ∧
     ∀ p h, bm_managed_map (sys_manager (sv_sys σ')) !! p = Some h → transient (h_state h) = false) ∨
    ∃ a d, updaters (sv_ptr σ') = [UWaiting a d] ∧ Some a ∈ readers (sv_ptr σ').
Proof.
  intros Hr. pose proof (serving_runs_inv _ _ Hr) as Hv. split; [by apply sruns_acc|]. intros σ' Hruns Hstuck.
  assert (∃ ls', serving_runs m0 ls' σ' ∧ omap slabel_request ls' = omap slabel_request ls) as (ls'&Hr'&Hls).
  { clear Hstuck Hv. revert ls Hr. induction Hruns as [σ|σ σ1 σ2 (l&Hl&Hstep) _ IH]; intros ls Hr; [by exists ls|].
    destruct (IH (ls ++ [l])) as (ls'&?&Hls); [econstructor; [done| |done]; by destruct l as [[]| | | | | | |]|]. exists ls'. split; [done|].
    rewrite Hls, omap_app. destruct l as [[]| | | | | | |]; try done; by rewrite app_nil_r. }
  pose proof (serving_runs_inv _ _ Hr') as Hv'. destruct (sv_updating σ') as [t|] eqn:Hup.
  { destruct (update_goes_on σ' t Hv' Hup) as [[σ1 H1]|[(k&σ1&H1)|(a&b&Ha&Hread)]]; [destruct Hstuck; by exists σ1, SRunUpdate|destruct Hstuck; by exists σ1, (SUpdated k)|].
    right. exists a, b. split; [|done]. pose proof (v_updating _ Hv') as Hu. rewrite Hup in Hu. destruct Hu as (_&_&Hlen&_).
    destruct (updaters (sv_ptr σ')) as [|u [|? ?]]; [by apply not_elem_of_nil in Ha| |cbn in Hlen; lia]. by apply list_elem_of_singleton in Ha as <-. }
  left. assert (Hnil : sys_threads (sv_sys σ') = []).
  { destruct (decide (sys_threads (sv_sys σ') = [])) as [|Hne]; [done|]. destruct Hstuck. destruct (threads_go_on σ' Hv' Hup Hne) as [(k&σ1&H1)|(k&a&σ1&H1)]; [by exists σ1, (SUpdate k)|by exists σ1, (SManager (LRun k a))]. }
  pose proof (serving_answers m0 ls' σ' eq_refl Hr') as Hans. rewrite Hnil, app_nil_r, Hls in Hans.
  destruct (v_sys _ Hv') as (Hheap&[Hn _ _]&_). rewrite Hnil in Hn, Hheap. split_and!; try done.
  intros p h Hp. apply not_true_iff_false. intros Htr. by apply (hi_owned _ _ _ _ _ Hheap p h Hp), not_elem_of_nil in Htr.
Qed.
End handle_theorems.

(** Sequences of steps. *)
Definition run_slabels {A} (ls : list (SLabel A)) (σ : Serving A) : option (Serving A) :=
  foldl (λ σ l, σ ≫= sv_step l) (Some σ) ls.

(** ** An update without clients is a step of the manager *)

Section uninterrupted.
Context {A : Type}.
Implicit Types (σ : Serving A) (ptr : Ptr (T := HandlesMap)).

(** One step of the only call of [Update], when there are no readers. *)
Lemma run_alone ptr u a (H : HandlesMap) :
  inv ptr → updaters ptr = [u] → readers ptr = [] → is_Some (object_ ptr) →
  installed ptr = Some a → object_at ptr a = Some H →
  ∃ ptr', run_updater 0 ptr = Some ptr' ∧ inv ptr' ∧ readers ptr' = [] ∧ is_Some (object_ ptr') ∧
    installed ptr' = Some a ∧ object_at ptr' a = Some H ∧
    updaters ptr' = match u with
                    | UConstructed _ => [USwapped (default 0 (object_ ptr)) false]
                    | USwapped b d => [UWaiting b d]
                    | UWaiting _ _ => []
                    end.
Proof.
  intros Hi Hu Hr Hobj Ha HH. assert (Hk : updaters ptr !! 0 = Some u) by (by rewrite Hu).
  destruct (proj2 (run_updater_enabled 0 u ptr Hi Hk (λ _ _, Hobj))) as [ptr' E].
  { rewrite Hr. destruct u; auto using not_elem_of_nil. }
  destruct (run_frame _ _ _ Hi E) as (Hr'&Ho). pose proof (run_updater_inv _ _ _ Hi E) as Hi'.
  destruct (installed_run ptr ptr' Hi ltac:(rewrite Hu; cbn; lia) Hobj E) as (Hin&_&Hobj').
  assert (Hups : updaters ptr' = match u with
    | UConstructed _ => [USwapped (default 0 (object_ ptr)) false] | USwapped b d => [UWaiting b d]
    | UWaiting _ _ => [] end).
  { destruct u as [b|b d|b d].
    - unfold run_updater in E. rewrite Hk in E. cbn in E. destruct (object_ ptr); [|done]. cbn in E.
      injection E as <-. cbn. by rewrite Hu.
    - unfold run_updater in E. rewrite Hk in E. injection E as <-. cbn. by rewrite Hu.
    - destruct (return_inv _ _ _ _ _ Hi Hk E) as (_&_&_&->&_). by rewrite Hu. }
  exists ptr'. split_and!; try done; [by rewrite Hr' | by rewrite Hin|].
  destruct u as [b|b d|b d].
  1-2: (unfold run_updater in E; rewrite Hk in E; cbn in E).
  - destruct (object_ ptr); [|done]. cbn in E. by injection E as <-.
  - injection E as <-. by rewrite <-(release_objects b ptr a) in HH.
  - destruct (Ho a) as [->|[Hn _]]; [done|]. unfold installed in Hin, Ha. rewrite Hups in Hin. rewrite Hu in Hin, Ha.
    destruct (current_object ptr' a Hi') as [? ?]; congruence.
Qed.

Lemma installed_current ptr a (H : HandlesMap) :
  installed ptr = Some a → object_at ptr a = Some H →
  match updaters ptr with UConstructed _ :: _ => True | _ => current_map ptr = H end.
Proof.
  unfold installed, current_map. intros Ha HH. destruct (updaters ptr) as [|[] ?]; [|done|..]; rewrite Ha; cbn; by rewrite HH.
Qed.

Lemma update_alone ptr (H : HandlesMap) :
  inv ptr → updaters ptr = [] → readers ptr = [] → is_Some (object_ ptr) →
  ∃ p1 p2 p3 p4, Update_begin (Some H) ptr = Some p1 ∧ run_updater 0 p1 = Some p2 ∧
    run_updater 0 p2 = Some p3 ∧ run_updater 0 p3 = Some p4 ∧ updaters p4 = [] ∧
    current_map p2 = H ∧ current_map p3 = H ∧ current_map p4 = H.
Proof.
  intros Hi Hu Hr Hobj. destruct (Update_begin (Some H) ptr) as [p1|] eqn:E.
  2: { unfold Update_begin in E. by destruct Hobj as [c Hc]; rewrite Hc in E. }
  destruct (Update_frame _ _ _ Hi E) as (Hobj1&Hr1&a&Hu1&_&Ha&_). rewrite Hu in Hu1. cbn in Hu1.
  destruct (run_alone p1 (UConstructed a) a H) as (p2&E2&Hi2&Hr2&Ho2&Hin2&Ha2&Hu2);
    [by eapply update_begin_inv | done | congruence | by rewrite Hobj1 | by unfold installed; rewrite Hu1 | done|].
  destruct (run_alone p2 _ a H Hi2 Hu2 Hr2 Ho2 Hin2 Ha2) as (p3&E3&Hi3&Hr3&Ho3&Hin3&Ha3&Hu3).
  destruct (run_alone p3 _ a H Hi3 Hu3 Hr3 Ho3 Hin3 Ha3) as (p4&E4&Hi4&Hr4&Ho4&Hin4&Ha4&Hu4).
  exists p1, p2, p3, p4. split_and!; try done.
  - pose proof (installed_current _ _ _ Hin2 Ha2) as Hc. by rewrite Hu2 in Hc.
  - pose proof (installed_current _ _ _ Hin3 Ha3) as Hc. by rewrite Hu3 in Hc.
  - pose proof (installed_current _ _ _ Hin4 Ha4) as Hc. by rewrite Hu4 in Hc.
Qed.

(** When no client has a handle, the steps of an update, run one after the other,
    do what [ManagerSystem] takes as one step. *)
Theorem update_uninterrupted σ k a s' :
  sv_inv σ → sv_updating σ = None → readers (sv_ptr σ) = [] →
  label_thread updates_map (LRun k a) (sv_sys σ) = true → step (LRun k a) (sv_sys σ) = Some s' →
  ∃ σ', run_slabels [SUpdate k; SRunUpdate; SRunUpdate; SRunUpdate; SUpdated k] σ = Some σ' ∧
    sv_sys σ' = s' ∧ sv_updating σ' = None.
Proof.
  intros [Hs Hp Hcur Hmaps Hf Hu] Hup Hr Hl Hstep. rewrite Hup in Hu.
  destruct σ as [[m d ts] ptr hs up]. cbn [sv_sys sv_ptr sv_updating] in *. subst up. cbn in Hl.
  destruct (ts !! k) as [t|] eqn:Hk; [|done].
  set (m1 := match t with TUnloadStart _ p => publish_harness kUnloading p m | _ => m end).
  destruct (update_alone ptr (ServingMap_Update (bm_managed_map m1)) Hp Hu Hr)
    as (p1&p2&p3&p4&E1&E2&E3&E4&Hu4&H2&H3&H4); [destruct (object_ ptr); [by eexists | done]|].
  unfold run_slabels. cbn [foldl mbind option_bind sv_step]. rewrite Hk. cbn [mbind option_bind]. rewrite Hl. cbn [andb].
  rewrite bool_decide_true by done. unfold update_begin. fold m1. rewrite E1. cbn [mbind option_bind sv_step].
  rewrite E2. cbn [mbind option_bind sv_step]. rewrite E3. cbn [mbind option_bind sv_step]. rewrite E4.
  cbn [mbind option_bind sv_step]. rewrite Hu4, !bool_decide_true by done. cbn [andb]. rewrite H2, H3, H4.
  cbn [step] in Hstep. rewrite Hk in Hstep.
  destruct t as [ | | | | | |r| |r p| | | | |]; try done; cbn [run_thread update_end] in *.
  - injection Hstep as <-. eexists. split; [done | by split].
  - unfold ExecuteUnload_begin, do_, sm_bind at 1 2 in Hstep. cbn [ok] in Hstep. fold m1 in Hstep.
    change (set_handles_map _ (set_handles_map _ (set_handles_map _ m1))) with (UpdateServingMap m1).
    destruct (sm_bind (call_harness p DoneQuiescing) (sm_ret StatusOK) (UpdateServingMap m1)) as [st m2].
    injection Hstep as <-. eexists. split; [done | by split].
Qed.
End uninterrupted.

(** ** Examples *)

Lemma run_slabels_runs {A} (m0 : BasicManager A) ls σ :
  Forall slabel_wf ls → run_slabels ls (start m0) = Some σ → serving_runs m0 ls σ.
Proof.
  revert σ. induction ls as [|l ls IH] using rev_ind; intros σ Hwf Hrun.
  - injection Hrun as <-. constructor.
  - apply Forall_app in Hwf as [Hwf Hl]. unfold run_slabels in Hrun. rewrite foldl_app in Hrun.
    cbn in Hrun. destruct (foldl _ _ ls) as [σ1|] eqn:E; [|done].
    inversion Hl; subst. econstructor; [by apply IH|done|exact Hrun].
Qed.

(** A servable is loaded, a client gets a handle of it, and its unload is in the
    update of the serving map. *)
Definition held_during_unload : list (SLabel unit) :=
  (SManager <$> take 8 ex_load) ++ [SUpdate 0; SRunUpdate; SRunUpdate; SRunUpdate; SUpdated 0] ++
  (SManager <$> replicate 3 (ex_run StatusOK)) ++ [SGet; SFind 0 (Latest "m")] ++
  (SManager <$> [LRequest (mkRequest kUnloadRequest (ex_id 1)); ex_run StatusOK]) ++
  [SUpdate 0; SRunUpdate; SRunUpdate].

Definition held_state : Serving unit :=
  default (start (initial 1 1 true true None)) (run_slabels held_during_unload (start (initial 1 1 true true None))).

Lemma held_state_runs : serving_runs (initial 1 1 true true None) held_during_unload held_state.
Proof. apply run_slabels_runs; [repeat constructor|vm_compute; reflexivity]. Qed.

Lemma held_servables_stay_loaded_witness :
  sv_handles held_state = [Some (ex_id 1, Some 0)] ∧
  GetUntypedServableHandle (Latest "m") (sys_manager (sv_sys held_state)) =
    (NotFound "Servable not found for request: Latest(m)", None) ∧
  ∃ p h, bm_managed_map (sys_manager (sv_sys held_state)) !! p = Some h ∧ h_id h = ex_id 1 ∧
    h_loader h = Some 0 ∧ loader_phase (h_trace h) = Some LLoaded.
Proof.
  split; [vm_compute; reflexivity|]. split; [vm_compute; reflexivity|].
  apply (held_servables_stay_loaded 1 1 true true None held_during_unload held_state 0 (ex_id 1, Some 0) held_state_runs).
  vm_compute. reflexivity.
Defined.

Lemma unload_waits_only_for_handles_witness :
  sv_step SRunUpdate held_state = None ∧
  (is_Some (sv_step SRunUpdate held_state) ∨ (∃ k, is_Some (sv_step (SUpdated k) held_state)) ∨
   ∃ a d, UWaiting a d ∈ updaters (sv_ptr held_state) ∧ Some a ∈ readers (sv_ptr held_state)).
Proof.
  split; [vm_compute; reflexivity|].
  apply (proj1 (unload_waits_only_for_handles 1 1 true true None held_during_unload held_state held_state_runs)
    (TUnloadStart (mkRequest kUnloadRequest (ex_id 1)) 0)).
  vm_compute. reflexivity.
Defined.

(** A load and an unload, and a client that holds a handle of the servable. *)
Lemma requests_answered_or_handle_held_witness :
  Acc (flip sruns) held_state ∧
  (∀ σ', rtc sruns held_state σ' → (¬ ∃ σ'', sruns σ' σ'') →
    sys_threads (sv_sys σ') = [] ∧ dones (sys_manager (sv_sys σ')) ≡ₚ omap slabel_request held_during_unload ∨
    ∃ a d, updaters (sv_ptr σ') = [UWaiting a d] ∧ Some a ∈ readers (sv_ptr σ')) ∧
  omap slabel_request held_during_unload = [mkRequest kLoadRequest (ex_id 1); mkRequest kUnloadRequest (ex_id 1)].
Proof.
  destruct (requests_answered_or_handle_held 1 1 true true None held_during_unload held_state held_state_runs) as [Hacc Hend].
  split; [exact Hacc|]. split; [|vm_compute; reflexivity].
  intros σ' Hrun Hstuck. destruct (Hend σ' Hrun Hstuck) as [(H1&_&H2&_)|H]; [left; split; [exact H1|exact H2]|right; exact H].
Defined.

(** The destructor of the manager does not wait for handles before it unloads. *)
Theorem destructor_unloads_held_servables :
  ∃ ls (σ : Serving unit) p h, serving_runs (initial 1 1 true true None) ls σ ∧ sys_threads (sv_sys σ) = [] ∧
    bm_managed_map (UnloadAllServables (sys_manager (sv_sys σ))) !! p = Some h ∧
    sv_handles σ = [Some (h_id h, h_loader h)] ∧
    loader_phase (h_trace h) = Some LUnloaded.
Proof.
  exists (take 18 held_during_unload).
  eexists _, 0, _. split; [apply run_slabels_runs; [repeat constructor|vm_compute; reflexivity]|].
  split; [vm_compute; reflexivity|].
  vm_compute. split_and!; reflexivity.
Qed.
