(* ===== verification/EventBus.v ===== *)
(** * The event bus

    [tensorflow_serving/util/event_bus.h], on which managers publish the states of
    servables, and the [ServableStateMonitor] as one of its subscribers.  Clients
    are functions on a state of their own; the bus and the subscriptions can be
    destroyed in any order. *)
From S2P Require Import Prelude Status Servable StateMonitor.

Section bus.
Context {E S : Type}.

(** [EventAndTime], and a callback: it changes the state of its client. *)
Definition EventAndTime : Type := E * Z.
Definition Callback : Type := EventAndTime → S → S.

Record SubscriptionTuple := mkTuple {
  subscription : nat;      (* the address of the [Subscription] *)
  client : nat;            (* the object that the callback captures *)
  callback : Callback }.

Record World := mkWorld {
  bus_exists : bool;       (* the weak pointers can be locked *)
  subscriptions_ : list SubscriptionTuple;
  live : gset nat;         (* the [Subscription] objects that exist *)
  clients : gmap nat S }.

(** [Subscribe], with the address of the new object. *)
Definition Subscribe (a c : nat) (f : Callback) (w : World) : option World :=
  if bus_exists w && bool_decide (a ∉ live w) then
    Some (mkWorld true (subscriptions_ w ++ [mkTuple a c f]) ({[a]} ∪ live w) (clients w))
  else None.

(** [Unsubscribe]: [erase] of [remove_if]. *)
Definition Unsubscribe (a : nat) (w : World) : World :=
  mkWorld (bus_exists w) (filter (λ s, subscription s ≠ a) (subscriptions_ w)) (live w) (clients w).

(** The destructor of a [Subscription]. *)
Definition delete_Subscription (a : nat) (w : World) : option World :=
  if bool_decide (a ∈ live w) then
    let w := if bus_exists w then Unsubscribe a w else w in
    Some (mkWorld (bus_exists w) (subscriptions_ w) (live w ∖ {[a]}) (clients w))
  else None.

(** [Publish], at the time [now]. *)
Definition deliver (x : EventAndTime) (cs : gmap nat S) (s : SubscriptionTuple) : gmap nat S :=
  alter (callback s x) (client s) cs.

Definition Publish (event : E) (now : Z) (w : World) : option World :=
  if bus_exists w then
    Some (mkWorld true (subscriptions_ w) (live w)
            (foldl (deliver (event, now)) (clients w) (subscriptions_ w)))
  else None.

(** The last shared pointer to the bus goes away. *)
Definition delete_EventBus (w : World) : option World :=
  if bus_exists w then Some (mkWorld false [] (live w) (clients w)) else None.

Inductive Op :=
  | OSubscribe (a c : nat) (f : Callback)
  | OUnsubscribe (a : nat)
  | OPublish (event : E) (now : Z)
  | ODeleteBus
  | OLocal (c : nat) (f : S → S).      (* a client changes its own state *)

Definition run (w : World) (x : Op) : option World :=
  match x with
  | OSubscribe a c f => Subscribe a c f w
  | OUnsubscribe a => delete_Subscription a w
  | OPublish e now => Publish e now w
  | ODeleteBus => delete_EventBus w
  | OLocal c f => Some (mkWorld (bus_exists w) (subscriptions_ w) (live w) (alter f c (clients w)))
  end.

Definition runs (xs : list Op) (w : World) : option World := foldl (λ w x, w ≫= λ w, run w x) (Some w) xs.

(** What should happen to the client [c] that subscribes with the callback [f] and
    the subscription [a]: each event until it unsubscribes, in their order, and
    its own changes. *)
Fixpoint effects (subscribed : bool) (a c : nat) (f : Callback) (xs : list Op) : list (S → S) :=
  match xs with
  | [] => []
  | OPublish e now :: xs => (if subscribed then [f (e, now)] else []) ++ effects subscribed a c f xs
  | OUnsubscribe b :: xs => effects (subscribed && negb (Nat.eqb a b)) a c f xs
  | ODeleteBus :: xs => effects false a c f xs
  | OLocal d g :: xs => (if Nat.eqb c d then [g] else []) ++ effects subscribed a c f xs
  | OSubscribe _ _ _ :: xs => effects subscribed a c f xs
  end.

Definition subscribes (c : nat) (x : Op) : bool :=
  match x with OSubscribe _ d _ => Nat.eqb c d | _ => false end.

Lemma deliver_lookup x subs cs c :
  foldl (deliver x) cs subs !! c =
  foldl (λ o s, callback s x <$> o) (cs !! c) (filter (λ s, client s = c) subs).
Proof.
  revert cs. induction subs as [|s subs IH]; intros cs; [done|]. cbn [foldl]. rewrite IH, filter_cons.
  unfold deliver. case_decide as Hc.
  - subst. cbn. by rewrite lookup_alter_eq.
  - by rewrite lookup_alter_ne.
Qed.

(** The entries of the client [c]. *)
Definition entries (c : nat) (w : World) : list SubscriptionTuple :=
  filter (λ s, client s = c) (subscriptions_ w).

Lemma bus_runs_cons x xs w : runs (x :: xs) w = run w x ≫= runs xs.
Proof.
  unfold runs. cbn. destruct (run w x) as [w'|]; [done|]. cbn. by induction xs.
Qed.

(** A bus that is gone has no subscriptions. *)
Definition gone_empty (w : World) : Prop := bus_exists w = false → subscriptions_ w = [].

Lemma filter_swap {B} (P Q : B → Prop) `{!∀ x, Decision (P x), !∀ x, Decision (Q x)} (l : list B) :
  filter P (filter Q l) = filter Q (filter P l).
Proof. rewrite !list_filter_filter. apply list_filter_iff. intros x. tauto. Qed.

Lemma run_gone_empty w x w' : gone_empty w → run w x = Some w' → gone_empty w'.
Proof.
  intros Hw Hrun. destruct x as [a d f|a|e now| |d f]; cbn in Hrun.
  - unfold Subscribe in Hrun. destruct (_ && _); [|done]. by injection Hrun as <-.
  - unfold delete_Subscription in Hrun. case_bool_decide; [|done]. injection Hrun as <-.
    destruct (bus_exists w) eqn:Hb; unfold gone_empty; cbn; [by rewrite Hb | auto].
  - unfold Publish in Hrun. destruct (bus_exists w); [|done]. by injection Hrun as <-.
  - unfold delete_EventBus in Hrun. destruct (bus_exists w); [|done]. by injection Hrun as <-.
  - by injection Hrun as <-.
Qed.

(** How an operation changes the entries of a client that does not subscribe, and
    the client. *)
Lemma run_entries c w x w' :
  gone_empty w → run w x = Some w' → subscribes c x = false →
  entries c w' = match x with
                 | OUnsubscribe a => filter (λ s, subscription s ≠ a) (entries c w)
                 | ODeleteBus => []
                 | _ => entries c w
                 end ∧
  clients w' !! c = match x with
                    | OPublish e now => foldl (λ o s, callback s (e, now) <$> o) (clients w !! c) (entries c w)
                    | OLocal d f => if Nat.eqb c d then f <$> clients w !! c else clients w !! c
                    | _ => clients w !! c
                    end.
Proof.
  intros Hw Hrun Hx. unfold entries. destruct x as [a d f|a|e now| |d f]; cbn in Hrun.
  - unfold Subscribe in Hrun. destruct (_ && _); [|done]. injection Hrun as <-. cbn. split; [|done].
    rewrite filter_app, filter_cons_False, app_nil_r; [done|]. cbn in *. intros ->. by rewrite Nat.eqb_refl in Hx.
  - unfold delete_Subscription in Hrun. case_bool_decide; [|done]. injection Hrun as <-.
    destruct (bus_exists w) eqn:Hb; cbn; (split; [|done]); [apply filter_swap | by rewrite (Hw Hb)].
  - unfold Publish in Hrun. destruct (bus_exists w); [|done]. injection Hrun as <-. cbn. split; [done|].
    apply deliver_lookup.
  - unfold delete_EventBus in Hrun. destruct (bus_exists w); [|done]. by injection Hrun as <-.
  - injection Hrun as <-. cbn. split; [done|]. destruct (Nat.eqb_spec c d) as [<-|Hne].
    + by rewrite lookup_alter_eq.
    + by rewrite lookup_alter_ne.
Qed.

Lemma runs_effects (b : bool) a c f xs w w' s0 :
  gone_empty w → runs xs w = Some w' → existsb (subscribes c) xs = false →
  entries c w = (if b then [mkTuple a c f] else []) → clients w !! c = Some s0 →
  clients w' !! c = Some (foldl (λ s g, g s) s0 (effects b a c f xs)).
Proof.
  revert b w s0. induction xs as [|x xs IH]; intros b w s0 Hw Hrun Hxs Hent Hc; [by injection Hrun as <-|].
  rewrite bus_runs_cons in Hrun. cbn in Hxs. apply orb_false_iff in Hxs as [Hx Hxs].
  destruct (run w x) as [w1|] eqn:Hstep; [|done]. cbn in Hrun.
  destruct (run_entries c w x w1 Hw Hstep Hx) as [Hent1 Hc1]. rewrite Hent in Hent1, Hc1.
  pose proof (run_gone_empty _ _ _ Hw Hstep) as Hw1.
  assert (Hgo : ∀ (b' : bool) (s1 : S), entries c w1 = (if b' then [mkTuple a c f] else []) → clients w1 !! c = Some s1 →
    clients w' !! c = Some (foldl (λ s g, g s) s1 (effects b' a c f xs))) by (intros; by apply (IH _ w1)).
  destruct x as [a' d f'|a'|e now| |d g]; cbn [effects].
  - apply Hgo; congruence.
  - apply Hgo; [|congruence]. rewrite Hent1. destruct b; [|done]. rewrite filter_cons. cbn.
    destruct (Nat.eqb_spec a a') as [<-|Hne]; [by rewrite decide_False by tauto | by rewrite decide_True].
  - rewrite Hc in Hc1. destruct b; by apply Hgo.
  - apply Hgo; congruence.
  - destruct (Nat.eqb c d); apply Hgo; rewrite ?Hc1, ?Hc; done.
Qed.

(** A client that subscribes once gets every event published from then until it
    unsubscribes or the bus is gone, once and in order, and no callback runs after
    its subscription was destroyed, whatever other clients do. *)
Theorem bus_delivers w ys a c f zs w' s0 :
  gone_empty w → runs (ys ++ OSubscribe a c f :: zs) w = Some w' →
  existsb (subscribes c) ys = false → existsb (subscribes c) zs = false →
  entries c w = [] → clients w !! c = Some s0 →
  clients w' !! c =
    Some (foldl (λ s g, g s) s0 (effects false a c f ys ++ effects true a c f zs)).
Proof.
  revert w s0. induction ys as [|y ys IH]; intros w s0 Hw Hrun Hys Hzs Hent Hc.
  - cbn [app] in *. rewrite bus_runs_cons in Hrun. destruct (run w _) as [w1|] eqn:Hstep; [|done]. cbn in Hrun, Hstep.
    pose proof (run_gone_empty w (OSubscribe a c f) w1 Hw Hstep) as Hw1.
    unfold Subscribe in Hstep. destruct (_ && _); [|done]. injection Hstep as <-.
    eapply (runs_effects true); [exact Hw1 | exact Hrun | exact Hzs | | exact Hc].
    unfold entries in *. cbn. by rewrite filter_app, Hent, filter_cons_True.
  - cbn [app] in *. rewrite bus_runs_cons in Hrun. cbn in Hys. apply orb_false_iff in Hys as [Hy Hys].
    destruct (run w y) as [w1|] eqn:Hstep; [|done]. cbn in Hrun.
    destruct (run_entries c w y w1 Hw Hstep Hy) as [Hent1 Hc1]. rewrite Hent in Hent1, Hc1.
    pose proof (run_gone_empty _ _ _ Hw Hstep) as Hw1.
    assert (Hent' : entries c w1 = []) by (rewrite Hent1; by destruct y).
    destruct y as [a' d f'|a'|e now| |d g]; cbn [effects andb app foldl] in *; try (apply (IH w1); first [done | congruence]).
    destruct (Nat.eqb c d); cbn; apply (IH w1); rewrite ?Hc1, ?Hc; done.
Qed.
End bus.
Arguments World : clear implicits.
Arguments Op : clear implicits.

(** *** The monitor on its bus *)

(** [ServableStateMonitor] subscribes [HandleEvent] in its constructor. *)
Definition monitor_callback (x : ServableState * Z) : ServableStateMonitor → ServableStateMonitor :=
  HandleEvent (mkStateAndTime x.1 x.2).

(** The operations around the monitor [c]: those on the bus, and the calls of its
    own clients. *)
Inductive Use := UBus (x : Op ServableState ServableStateMonitor) | UCall (op : MonitorOp).

Definition use_op (c : nat) (u : Use) : Op ServableState ServableStateMonitor :=
  match u with UBus x => x | UCall op => OLocal c (λ m, run_monitor m op) end.

Definition of_others (c : nat) (u : Use) : bool :=
  match u with
  | UBus (OSubscribe _ d _) | UBus (OLocal d _) => negb (Nat.eqb c d)
  | _ => true
  end.

(** What the monitor handles, by [MonitorOp]. *)
Fixpoint handled (subscribed : bool) (a : nat) (us : list Use) : list MonitorOp :=
  match us with
  | [] => []
  | UCall op :: us => op :: handled subscribed a us
  | UBus (OPublish e now) :: us =>
      (if subscribed then [Event (mkStateAndTime e now)] else []) ++ handled subscribed a us
  | UBus (OUnsubscribe b) :: us => handled (subscribed && negb (Nat.eqb a b)) a us
  | UBus ODeleteBus :: us => handled false a us
  | UBus _ :: us => handled subscribed a us
  end.

Lemma effects_handled b a c us m :
  forallb (of_others c) us = true →
  foldl (λ s g, g s) m (effects b a c monitor_callback (use_op c <$> us)) = foldl run_monitor m (handled b a us).
Proof.
  revert b m. induction us as [|u us IH]; intros b m Hus; [done|].
  cbn in Hus. apply andb_true_iff in Hus as [Hu Hus]. specialize (IH) as IH'.
  destruct u as [[a' d f|a'|e now| |d g]|op]; cbn in *; try (by apply IH).
  - destruct b; by apply IH.
  - apply negb_true_iff in Hu as ->. by apply IH.
  - rewrite Nat.eqb_refl. by apply IH.
Qed.

Lemma others_do_not_subscribe c us :
  forallb (of_others c) us = true → existsb (subscribes c) (use_op c <$> us) = false.
Proof.
  induction us as [|u us IH]; [done|]. cbn. intros [Hu Hus]%andb_true_iff. rewrite (IH Hus), orb_false_r.
  destruct u as [[a' d f|a'|e now| |d g]|op]; try done. by apply negb_true_iff in Hu.
Qed.

(** The monitor of a manager's bus is the transition system of [StateMonitor], on
    exactly the states published since it was constructed. *)
Theorem monitor_on_bus w a c us w' (max : nat) :
  gone_empty w → runs (OSubscribe a c monitor_callback :: (use_op c <$> us)) w = Some w' →
  forallb (of_others c) us = true → entries c w = [] → clients w !! c = Some (new_monitor max) →
  clients w' !! c = Some (run_ops max (handled true a us)).
Proof.
  intros Hw Hrun Hus Hent Hc. pose proof (others_do_not_subscribe _ _ Hus) as Hs.
  rewrite bus_runs_cons in Hrun. destruct (run w _) as [w1|] eqn:Hstep; [|done]. cbn in Hrun, Hstep.
  pose proof (run_gone_empty w (OSubscribe a c monitor_callback) w1 Hw Hstep) as Hw1.
  unfold Subscribe in Hstep. destruct (_ && _); [|done]. injection Hstep as <-.
  rewrite (runs_effects true a c monitor_callback _ _ _ (new_monitor max) Hw1 Hrun Hs); [by rewrite effects_handled | | exact Hc].
  unfold entries in *. cbn. by rewrite filter_app, Hent, filter_cons_True.
Qed.

(** A monitor hears of a load, is asked to wait for the servable, and is destroyed
    before the servable is unloaded. *)
Definition example_uses : list Use :=
  [UBus (OPublish (mkServableState (mkServableId "m" 1) kLoading StatusOK) 5);
   UCall (WaitFor [Latest "m"] kAvailable 7);
   UBus (OPublish (mkServableState (mkServableId "m" 1) kAvailable StatusOK) 6);
   UBus (OUnsubscribe 3);
   UBus (OPublish (mkServableState (mkServableId "m" 1) kUnloading StatusOK) 8)].

Definition example_world : World ServableState ServableStateMonitor :=
  mkWorld true [] ∅ {[0 := new_monitor 2]}.

Lemma monitor_on_bus_witness :
  ∃ w, runs (OSubscribe 3 0 monitor_callback :: (use_op 0 <$> example_uses)) example_world = Some w ∧
    clients w !! 0 = Some (run_ops 2 (handled true 3 example_uses)) ∧
    length (handled true 3 example_uses) = 3.
Proof.
  destruct (runs (OSubscribe 3 0 monitor_callback :: (use_op 0 <$> example_uses)) example_world) as [w|] eqn:E;
    [|vm_compute in E; discriminate].
  exists w. split; [reflexivity|]. split; [|vm_compute; reflexivity].
  apply (monitor_on_bus example_world 3 0 example_uses w 2); try exact E; vm_compute; reflexivity || discriminate.
Defined.
