(* ===== verification/Observers.v ===== *)
(** * Observers

    [tensorflow_serving/util/observer.h]: an [Observer] whose notifiers stay valid
    after it is destroyed, and the [ObserverList], which uses the slots of observers
    that are gone again. *)
From S2P Require Import Prelude.

Section observers.
Context {Args : Type}.

(** The implementations that observers, notifiers and lists share: [f_], null when
    orphaned; and the calls of the observers' functions. *)
Record Store := mkStore {
  impls : gmap nat bool;              (* whether [f_] is set *)
  calls : list (nat * Args) }.

(** [Observer(f)], at a new address, and its destructor. *)
Definition new_Observer (a : nat) (s : Store) : option Store :=
  match impls s !! a with
  | Some _ => None
  | None => Some (mkStore (<[a := true]> (impls s)) (calls s))
  end.

Definition IsOrphaned (s : Store) (a : nat) : bool := negb (default false (impls s !! a)).

Definition Orphan (a : nat) (s : Store) : Store := mkStore (alter (λ _, false) a (impls s)) (calls s).

(** [Impl::Notify], the function that [Notifier] returns. *)
Definition Notify (args : Args) (s : Store) (a : nat) : Store :=
  if IsOrphaned s a then s else mkStore (impls s) (calls s ++ [(a, args)]).

(** [ObserverList]: [Add] takes the first slot of an orphan. *)
Fixpoint Add (s : Store) (new_observer : nat) (observers : list nat) : list nat :=
  match observers with
  | [] => [new_observer]
  | a :: rest => if IsOrphaned s a then new_observer :: rest else a :: Add s new_observer rest
  end.

Definition ListNotify (args : Args) (observers : list nat) (s : Store) : Store :=
  foldl (Notify args) s observers.

Inductive Op :=
  | ONew (a : nat) | ODestroy (a : nat) | ONotifier (a : nat) (args : Args)
  | OAdd (a : nat) | ONotify (args : Args) | OClear.

(** An observer that is added or destroyed exists. *)
Definition run (w : Store * list nat) (x : Op) : option (Store * list nat) :=
  let '(s, l) := w in
  match x with
  | ONew a => s ← new_Observer a s; Some (s, l)
  | ODestroy a => if IsOrphaned s a then None else Some (Orphan a s, l)
  | ONotifier a args => Some (Notify args s a, l)
  | OAdd a => if IsOrphaned s a then None else Some (s, Add s a l)
  | ONotify args => Some (ListNotify args l s, l)
  | OClear => Some (s, [])
  end.

Definition runs (xs : list Op) : option (Store * list nat) :=
  foldl (λ w x, w ≫= λ w, run w x) (Some (mkStore ∅ [], [])) xs.

(** The observers added since the list was cleared, most recent last. *)
Definition added (xs : list Op) : list nat :=
  foldl (λ l x, match x with OAdd a => l ++ [a] | OClear => [] | _ => l end) [] xs.

Lemma observers_run_snoc xs x : runs (xs ++ [x]) = runs xs ≫= λ w, run w x.
Proof. unfold runs. by rewrite foldl_app. Qed.

Lemma observers_added_snoc xs x :
  added (xs ++ [x]) = match x with OAdd a => added xs ++ [a] | OClear => [] | _ => added xs end.
Proof. unfold added. by rewrite foldl_app. Qed.

Definition alive (s : Store) (l : list nat) : list nat := filter (λ a, IsOrphaned s a = false) l.

Lemma Add_alive s a l : IsOrphaned s a = false → alive s (Add s a l) ≡ₚ a :: alive s l.
Proof.
  intros Ha. induction l as [|b l IH]; cbn [Add].
  - unfold alive. by rewrite filter_cons_True.
  - unfold alive in *. destruct (IsOrphaned s b) eqn:Hb.
    + rewrite filter_cons_True by done. by rewrite (filter_cons_False _ b) by congruence.
    + rewrite !filter_cons_True by done. rewrite IH. apply perm_swap.
Qed.

Lemma Add_length s a l : length (Add s a l) = if bool_decide (alive s l = l) then S (length l) else length l.
Proof.
  induction l as [|b l IH]; [done|]. cbn [Add]. unfold alive in *. destruct (IsOrphaned s b) eqn:Hb.
  - rewrite filter_cons_False by congruence. rewrite bool_decide_false; [done|]. intros Heq.
    pose proof (length_filter (λ a, IsOrphaned s a = false) l) as Hl. rewrite Heq in Hl. cbn in Hl. lia.
  - rewrite filter_cons_True by done. cbn. rewrite IH. repeat case_bool_decide; congruence.
Qed.

Lemma ListNotify_spec args l s :
  ListNotify args l s = mkStore (impls s) (calls s ++ ((λ a, (a, args)) <$> alive s l)).
Proof.
  revert s. unfold ListNotify, alive. induction l as [|a l IH]; intros s; cbn [foldl].
  { cbn. rewrite app_nil_r. by destruct s. }
  rewrite IH. unfold Notify. destruct (IsOrphaned s a) eqn:Ha.
  - by rewrite filter_cons_False by congruence.
  - rewrite filter_cons_True by done. cbn. by rewrite <-app_assoc.
Qed.

Lemma alive_mono s s' l l' :
  (∀ a, IsOrphaned s a = true → a ∈ l ∨ a ∈ l' → IsOrphaned s' a = true) →
  alive s l ≡ₚ alive s l' → alive s' l ≡ₚ alive s' l'.
Proof.
  intros Hs Hp. assert (Hsub : ∀ k, (∀ a, a ∈ k → a ∈ l ∨ a ∈ l') → alive s' k = filter (λ a, IsOrphaned s' a = false) (alive s k)).
  { intros k Hk. unfold alive. rewrite list_filter_filter. induction k as [|a k IH]; [done|].
    rewrite !filter_cons. rewrite IH by (intros; apply Hk; by right).
    destruct (IsOrphaned s a) eqn:Ha.
    - rewrite (Hs a Ha) by (apply Hk; left). repeat case_decide; naive_solver.
    - repeat case_decide; naive_solver. }
  rewrite (Hsub l), (Hsub l') by auto. by rewrite Hp.
Qed.

(** A list notifies exactly the observers that were added since it was
    cleared and still exist, once for each time they were added; the notifier of
    an observer that was destroyed does nothing. *)
Theorem list_notifies_alive xs s l args :
  runs xs = Some (s, l) →
  ∃ l', l' ≡ₚ alive s (added xs) ∧
    calls (ListNotify args l s) = calls s ++ ((λ a, (a, args)) <$> l') ∧
    ∀ a, IsOrphaned s a = true → Notify args s a = s.
Proof.
  intros Hrun. exists (alive s l). split_and!; [|by rewrite ListNotify_spec |].
  2: { intros a Ha. unfold Notify. by rewrite Ha. }
  enough (alive s l ≡ₚ alive s (added xs) ∧ ∀ a, a ∈ l ∨ a ∈ added xs → is_Some (impls s !! a)) as [? _] by done.
  revert s l Hrun. induction xs as [|x xs IH] using rev_ind; intros s l Hrun.
  { injection Hrun as <- <-. split; [done|]. intros a. cbn. by intros [?%not_elem_of_nil|?%not_elem_of_nil]. }
  rewrite observers_run_snoc in Hrun. rewrite observers_added_snoc.
  destruct (runs xs) as [[s1 l1]|]; [|done]. cbn [mbind option_bind] in Hrun.
  destruct (IH s1 l1 eq_refl) as [Hp Hin]. clear IH. set (ad := added xs) in *.
  destruct x as [a|a|a args'|a|args'|]; cbn in Hrun.
  - unfold new_Observer in Hrun. destruct (impls s1 !! a) eqn:Ha; [done|]. injection Hrun as <- <-. split.
    + apply (alive_mono s1); [|done]. intros b Hb Hbin. unfold IsOrphaned in *. cbn.
      rewrite lookup_insert_ne; [done|]. intros ->. destruct (Hin b Hbin) as [? ?]. congruence.
    + intros b Hb. cbn. destruct (Hin b Hb) as [v Hv]. destruct (decide (a = b)) as [->|]; [rewrite lookup_insert_eq; eauto|].
      rewrite lookup_insert_ne by done. eauto.
  - destruct (IsOrphaned s1 a) eqn:Ha; [done|]. injection Hrun as <- <-. split.
    + apply (alive_mono s1); [|done]. intros b Hb _. unfold IsOrphaned, Orphan in *. cbn.
      destruct (decide (a = b)) as [->|]; [rewrite lookup_alter_eq; by destruct (impls s1 !! b)|].
      by rewrite lookup_alter_ne.
    + intros b Hb%Hin. cbn. destruct (decide (a = b)) as [->|]; [rewrite lookup_alter_eq; by apply fmap_is_Some|].
      by rewrite lookup_alter_ne.
  - injection Hrun as <- <-. unfold Notify. by destruct (IsOrphaned s1 a).
  - destruct (IsOrphaned s1 a) eqn:Ha; [done|]. injection Hrun as <- <-.
    assert (Hex : is_Some (impls s1 !! a)).
    { unfold IsOrphaned in Ha. destruct (impls s1 !! a); [by eexists | done]. }
    split.
    + rewrite Add_alive, Hp by done. unfold alive. rewrite filter_app, filter_cons_True by done.
      by rewrite <-Permutation_cons_append.
    + intros b [Hb|[Hb| ->%list_elem_of_singleton]%elem_of_app]; [|by apply Hin; right|done].
      clear Hp. induction l1 as [|c l1 IH]; cbn in Hb.
      * by apply list_elem_of_singleton in Hb as ->.
      * destruct (IsOrphaned s1 c); apply elem_of_cons in Hb as [->|Hb]; try done.
        -- apply Hin. left. by right.
        -- apply Hin. left. left.
        -- apply IH; [|done]. intros e [He|He]; apply Hin; [left; by right | by right].
  - injection Hrun as <- <-. by rewrite ListNotify_spec.
  - injection Hrun as <- <-. split; [done|]. intros b. by intros [?%not_elem_of_nil|?%not_elem_of_nil].
Qed.
End observers.
