(* ===== verification/TargetBase.v ===== *)
(** * Targets

    [TargetBase] of [tensorflow_serving/core/target.h], which gives sources a
    callback that outlives the target.  The locks of the observer, of the callback
    and of [Detach] are explicit, and any number of notifying threads run against the
    one that detaches. *)
From S2P Require Import Prelude.

(** The threads that call a notifier: before it, with [mutex_] of the observer held,
    and in [SetAspiredVersions] with the target's [mu_] held too. *)
Inductive Notifier := NStart | NObserver | NRunning | NDone.

(** [Detach]: not called, before it takes [mu_], before the observer is deleted, and
    returned. *)
Inductive Detacher := DNone | DStart | DOrphan | DDone.

Record Target := mkTarget {
  mu_ : bool;                     (* locked *)
  detached_ : bool;               (* notified *)
  observer_ : bool;               (* not null *)
  observer_mutex : bool;          (* [mutex_] of the observer's implementation: locked *)
  f_ : bool;                      (* not null *)
  notifiers : list Notifier;
  detacher : Detacher }.

Definition set_notifier (k : nat) (n : Notifier) (mu observer_mutex : bool) (t : Target) : Target :=
  mkTarget mu (detached_ t) (observer_ t) observer_mutex (f_ t) (<[k := n]> (notifiers t)) (detacher t).

(** [Impl::Notify] and the function that the constructor of [TargetBase] observes. *)
Definition run_notifier (k : nat) (t : Target) : option Target :=
  n ← notifiers t !! k;
  match n with
  | NStart =>
      if observer_mutex t then None
      else Some (if f_ t then set_notifier k NObserver (mu_ t) true t
                 else set_notifier k NDone (mu_ t) false t)
  | NObserver =>
      if mu_ t then None
      else Some (if detached_ t then set_notifier k NDone false false t
                 else set_notifier k NRunning true true t)
  | NRunning => Some (set_notifier k NDone false false t)
  | NDone => None
  end.

(** [Detach]: its critical section, and the destructor of the observer. *)
Definition run_detacher (t : Target) : option Target :=
  match detacher t with
  | DStart =>
      if mu_ t then None
      else Some (mkTarget false true false (observer_mutex t) (f_ t) (notifiers t) DOrphan)
  | DOrphan =>
      if observer_mutex t then None
      else Some (mkTarget (mu_ t) (detached_ t) (observer_ t) false false (notifiers t) DDone)
  | DNone | DDone => None
  end.

(** [GetAspiredVersionsCallback]: the function it returns notifies, or does nothing;
    without an answer while [mu_] is held. *)
Definition GetAspiredVersionsCallback (t : Target) : option bool :=
  if mu_ t then None else Some (if detached_ t then false else observer_ t).

Inductive Action := ACall | ARun (k : nat) | ADetach | ARunDetach.

Definition act (x : Action) (t : Target) : option Target :=
  match x with
  | ACall => Some (mkTarget (mu_ t) (detached_ t) (observer_ t) (observer_mutex t) (f_ t)
                     (notifiers t ++ [NStart]) (detacher t))
  | ARun k => run_notifier k t
  | ADetach => match detacher t with
               | DNone => Some (mkTarget (mu_ t) (detached_ t) (observer_ t) (observer_mutex t)
                                  (f_ t) (notifiers t) DStart)
               | _ => None
               end
  | ARunDetach => run_detacher t
  end.

Definition new_TargetBase : Target := mkTarget false false true false true [] DNone.

Inductive reachable : Target → Prop :=
  | reachable_new : reachable new_TargetBase
  | reachable_act t x t' : reachable t → act x t = Some t' → reachable t'.

Definition locks_observer (n : Notifier) : bool :=
  match n with NObserver | NRunning => true | _ => false end.
Definition running (n : Notifier) : bool := match n with NRunning => true | _ => false end.

Definition count (P : Notifier → bool) (l : list Notifier) : nat := length (filter (λ n, P n = true) l).

Record inv (t : Target) : Prop := {
  inv_observer : count locks_observer (notifiers t) = Nat.b2n (observer_mutex t);
  inv_running : count running (notifiers t) = Nat.b2n (mu_ t);
  inv_detached : detached_ t = match detacher t with DOrphan | DDone => true | _ => false end;
  inv_kept : observer_ t = negb (detached_ t);
  inv_stopped : detached_ t = true → mu_ t = false;
  inv_f : f_ t = match detacher t with DDone => false | _ => true end;
  inv_orphaned : f_ t = false → observer_mutex t = false }.

Lemma target_count_cons P n l : count P (n :: l) = (if P n then 1 else 0) + count P l.
Proof. unfold count. rewrite filter_cons. case_decide as H; [by rewrite H|]. by apply not_true_is_false in H as ->. Qed.

Lemma target_count_perm P l l' : l ≡ₚ l' → count P l = count P l'.
Proof. intros H. unfold count. by rewrite H. Qed.

(** Replacing one notifier. *)
Lemma target_count_set P k n n' l :
  l !! k = Some n → count P (<[k := n']> l) + (if P n then 1 else 0) = count P l + (if P n' then 1 else 0).
Proof.
  intros Hk. rewrite (target_count_perm P _ _ (insert_Permutation _ _ _ n' Hk)), (target_count_perm P _ _ (delete_Permutation _ _ _ Hk)).
  rewrite !target_count_cons. lia.
Qed.

Lemma run_notifier_inv k t t' : inv t → run_notifier k t = Some t' → inv t'.
Proof.
  intros [Ho Hr Hd Hk Hs Hf Hor] Hrun. unfold run_notifier in Hrun. destruct (notifiers t !! k) as [n|] eqn:Hn; [|done].
  cbn in Hrun. pose proof (λ n', target_count_set locks_observer k n n' _ Hn) as Hco. pose proof (λ n', target_count_set running k n n' _ Hn) as Hcr.
  assert (Hset : ∀ n' mu ob, Nat.b2n ob + Nat.b2n (locks_observer n) = Nat.b2n (observer_mutex t) + Nat.b2n (locks_observer n') →
    Nat.b2n mu + Nat.b2n (running n) = Nat.b2n (mu_ t) + Nat.b2n (running n') →
    (detached_ t = true → mu = false) → (f_ t = false → ob = false) → inv (set_notifier k n' mu ob t)).
  { intros n' mu ob H1 H2 H3 H4. specialize (Hco n'). specialize (Hcr n').
    split; cbn [set_notifier mu_ detached_ observer_ observer_mutex f_ notifiers detacher]; try done.
    - rewrite Ho in Hco. destruct (locks_observer n), (locks_observer n'); cbn [Nat.b2n] in *; lia.
    - rewrite Hr in Hcr. destruct (running n), (running n'); cbn [Nat.b2n] in *; lia. }
  assert (Hom : locks_observer n = true → observer_mutex t = true).
  { intros Hl. destruct (observer_mutex t); [done|]. specialize (Hco NDone). rewrite Hl, Ho in Hco. cbn in Hco. lia. }
  assert (Hrm : running n = true → mu_ t = true).
  { intros Hl. destruct (mu_ t); [done|]. specialize (Hcr NDone). rewrite Hl, Hr in Hcr. cbn in Hcr. lia. }
  clear Hco Hcr. destruct n; cbn in Hset, Hom, Hrm.
  - destruct (observer_mutex t) eqn:Em; [done|]. destruct (f_ t) eqn:Ef; injection Hrun as <-; by apply Hset.
  - rewrite (Hom eq_refl) in *. destruct (mu_ t) eqn:Em; [done|].
    assert (Hft : f_ t = true) by (destruct (f_ t); [done | by specialize (Hor eq_refl)]).
    destruct (detached_ t) eqn:Ed; injection Hrun as <-; apply Hset; done || congruence.
  - rewrite (Hom eq_refl), (Hrm eq_refl) in *. injection Hrun as <-. by apply Hset.
  - done.
Qed.

Lemma target_act_inv x t t' : inv t → act x t = Some t' → inv t'.
Proof.
  intros Hi Hact. destruct x as [|k| |]; cbn in Hact.
  - injection Hact as <-. destruct Hi as [Ho Hr Hd Hk Hs Hf Hor].
    split; cbn [mu_ detached_ observer_ observer_mutex f_ notifiers detacher]; try done.
    + rewrite (target_count_perm _ _ (NStart :: notifiers t)) by (by rewrite Permutation_app_comm). by rewrite target_count_cons.
    + rewrite (target_count_perm _ _ (NStart :: notifiers t)) by (by rewrite Permutation_app_comm). by rewrite target_count_cons.
  - by eapply run_notifier_inv.
  - destruct Hi as [Ho Hr Hd Hk Hs Hf Hor]. destruct (detacher t); try done. injection Hact as <-. by split.
  - unfold run_detacher in Hact. destruct Hi as [Ho Hr Hd Hk Hs Hf Hor]. destruct (detacher t); try done.
    + destruct (mu_ t) eqn:Em; [done|]. injection Hact as <-. by split.
    + destruct (observer_mutex t) eqn:Em; [done|]. injection Hact as <-. split; cbn; try done.
Qed.

Lemma target_reachable_inv t : reachable t → inv t.
Proof. induction 1; [by split | by eapply target_act_inv]. Qed.

Lemma target_count_zero P l n : count P l = 0 → n ∈ l → P n = false.
Proof.
  intros Hc Hn. apply not_true_is_false. intros HP. apply list_elem_of_lookup in Hn as [k Hk].
  rewrite (target_count_perm P _ _ (delete_Permutation _ _ _ Hk)), target_count_cons, HP in Hc. lia.
Qed.

Lemma target_count_pos P l : 0 < count P l → ∃ k n, l !! k = Some n ∧ P n = true.
Proof.
  induction l as [|n l IH]; [unfold count; cbn; lia|]. rewrite target_count_cons. destruct (P n) eqn:E.
  - intros _. by exists 0, n.
  - intros (k&n'&?&?)%IH. by exists (S k), n'.
Qed.

(** C34: What [Detach] promises: at most one call of [SetAspiredVersions] runs at a time;
    once [Detach] has returned none is running and none can start, every further
    call of a notifier returns at once, and new callbacks do nothing. *)
Theorem detach_stops_calls t :
  reachable t →
  count running (notifiers t) ≤ 1 ∧
  (detacher t = DDone →
     (∀ n, n ∈ notifiers t → n = NStart ∨ n = NDone) ∧
     (∀ k, notifiers t !! k = Some NStart → run_notifier k t = Some (set_notifier k NDone false false t)) ∧
     GetAspiredVersionsCallback t = Some false).
Proof.
  intros [Ho Hr Hd Hk Hs Hf Hor]%target_reachable_inv. split; [rewrite Hr; by destruct (mu_ t); cbn; lia|].
  intros HD. rewrite HD in Hd, Hf. specialize (Hor Hf). specialize (Hs Hd). rewrite Hor in Ho. rewrite Hs in Hr. split_and!.
  - intros n Hn. pose proof (target_count_zero _ _ _ Ho Hn). destruct n; auto; done.
  - intros k Hk'. unfold run_notifier. rewrite Hk'. cbn. by rewrite Hor, Hf, Hs.
  - unfold GetAspiredVersionsCallback. by rewrite Hs, Hd.
Qed.

(** No deadlock: as long as a notifier or [Detach] has not returned, one of them
    can go on. *)
Theorem target_progress t :
  reachable t → (∃ n, n ∈ notifiers t ∧ n ≠ NDone) ∨ detacher t = DStart ∨ detacher t = DOrphan →
  is_Some (run_detacher t) ∨ ∃ k, is_Some (run_notifier k t).
Proof.
  intros [Ho Hr Hd Hk Hs Hf Hor]%target_reachable_inv Hwork.
  destruct (mu_ t) eqn:Em.
  { right. destruct (target_count_pos running (notifiers t)) as (k&n&Hn&Hrun); [rewrite Hr; cbn; lia|].
    exists k. unfold run_notifier. rewrite Hn. destruct n; done. }
  destruct (observer_mutex t) eqn:Eo.
  { right. destruct (target_count_pos locks_observer (notifiers t)) as (k&n&Hn&Hrun); [rewrite Ho; cbn; lia|].
    exists k. unfold run_notifier. rewrite Hn, Em. destruct n; try done; cbn; by eexists. }
  destruct Hwork as [(n&Hn&Hne)|[HD|HD]].
  - right. pose proof (target_count_zero _ _ _ Ho Hn) as Hl. apply list_elem_of_lookup in Hn as [k Hk'].
    exists k. unfold run_notifier. rewrite Hk', Eo. destruct n; try done; cbn; by eexists.
  - left. unfold run_detacher. rewrite HD, Em. by eexists.
  - left. unfold run_detacher. rewrite HD, Eo. by eexists.
Qed.

(** A source has called the target twice; the second call is under way when the target
    detaches. *)
Definition run_actions (xs : list Action) : option Target :=
  foldl (λ t x, t ≫= act x) (Some new_TargetBase) xs.

Lemma run_actions_reachable xs t : run_actions xs = Some t → reachable t.
Proof.
  revert t. induction xs as [|x xs IH] using rev_ind; intros t Hrun; [injection Hrun as <-; constructor|].
  unfold run_actions in *. rewrite foldl_app in Hrun. cbn [foldl] in Hrun.
  destruct (foldl _ _ xs) as [t1|]; [|done]. econstructor; [by apply IH | exact Hrun].
Qed.

Definition detach_under_call : list Action :=
  [ACall; ACall; ARun 0; ARun 0; ARun 0; ARun 1; ADetach; ARunDetach; ARun 1; ARunDetach; ACall].

Lemma detach_stops_calls_witness :
  ∃ t, run_actions detach_under_call = Some t ∧ notifiers t = [NDone; NDone; NStart] ∧
    GetAspiredVersionsCallback t = Some false.
Proof.
  eexists. split; [vm_compute; reflexivity|]. split; [reflexivity|].
  refine (proj2 (proj2 (proj2 (detach_stops_calls _ _) _))); [|reflexivity].
  apply (run_actions_reachable detach_under_call). vm_compute. reflexivity.
Defined.
