(* ===== verification/PeriodicFunction.v ===== *)
(** * Periodic functions

    [tensorflow/core/kernels/batching_util/periodic_function.{h,cc}], which runs the
    polling of the source and the rounds of the manager.  The readings of the clock
    and of [stop_thread_] are arguments. *)
From S2P Require Import Prelude.

Open Scope Z_scope.

(** One round of the loop: whether [stop_thread_] has been notified at its head, and
    the readings of the clock before and after the call. *)
Record Round := mkRound { r_stop : bool; r_before : Z; r_after : Z }.

Inductive Event := Call | Sleep (micros : Z).

(** The constructor's [interval_micros_]. *)
Definition interval_of (interval_micros : Z) : Z := if interval_micros <? 0 then 0 else interval_micros.

(** The end of a round: how long it sleeps, if it does. *)
Definition sleep_after (interval : Z) (r : Round) : option Z :=
  let begin := i64 (r_before r) in
  let last := Z.max (i64 (r_after r)) begin in
  let deadline := i64 (begin + interval) in
  if last <? deadline then Some (i64 (deadline - last)) else None.

(** The [while] of [RunLoop], and the whole. *)
Fixpoint loop (interval : Z) (rounds : list Round) : list Event :=
  match rounds with
  | [] => []
  | r :: rounds =>
      if r_stop r then []
      else Call :: (Sleep <$> option_list (sleep_after interval r)) ++ loop interval rounds
  end.

Definition RunLoop (startup_delay_micros interval_micros start : Z) (rounds : list Round) : list Event :=
  (if 0 <? startup_delay_micros
   then [Sleep (i64 (i64 (start + startup_delay_micros) - start))] else []) ++
  loop (interval_of interval_micros) rounds.

(** A clock that does not stand still: it shows at least what it showed before the
    sleep and the time slept. *)
Fixpoint clock_ok (interval : Z) (rounds : list Round) : Prop :=
  match rounds with
  | r :: ((r' :: _) as rest) =>
      r_after r + default 0 (sleep_after interval r) <= r_before r' ∧ clock_ok interval rest
  | _ => True
  end.

Definition in_range (interval : Z) (r : Round) : Prop :=
  0 <= r_before r <= r_after r ∧ r_after r < 2 ^ 62 ∧ 0 <= interval < 2 ^ 62.

Lemma sleep_after_spec interval r :
  in_range interval r → default 0 (sleep_after interval r) = Z.max 0 (r_before r + interval - r_after r).
Proof.
  intros (H1&H2&H3). unfold sleep_after. rewrite !(i64_small (r_before r)), (i64_small (r_after r)) by (unfold is_i64; lia).
  rewrite (i64_small (_ + interval)) by (unfold is_i64; lia). rewrite Z.max_l by lia.
  case_match eqn:E; [apply Z.ltb_lt in E | apply Z.ltb_ge in E]; cbn; [rewrite i64_small by (unfold is_i64; lia)|]; lia.
Qed.

(** The starts of two calls are at least the interval apart, and a function that
    takes longer than the interval is called again without a sleep. *)
Theorem calls_keep_interval interval rounds k r r' :
  Forall (in_range interval) rounds → clock_ok interval rounds →
  rounds !! k = Some r → rounds !! S k = Some r' →
  r_before r + interval <= r_before r' ∧
  (interval <= r_after r - r_before r → sleep_after interval r = None).
Proof.
  revert k. induction rounds as [|r1 rounds IH]; intros k Hin Hclock Hr Hr'; [done|].
  apply Forall_cons in Hin as [Hr1 Hin]. destruct rounds as [|r2 rounds]; [by destruct k|].
  destruct Hclock as [Hstep Hclock]. destruct k as [|k]; [|by apply (IH k)].
  cbn in Hr, Hr'. injection Hr as ->. injection Hr' as ->. rewrite (sleep_after_spec _ _ Hr1) in Hstep. split; [lia|].
  intros Hlong. destruct Hr1 as (H1&H2&H3). unfold sleep_after.
  rewrite !(i64_small (r_before r)), (i64_small (r_after r)) by (unfold is_i64; lia).
  rewrite (i64_small (_ + interval)) by (unfold is_i64; lia). rewrite Z.max_l by lia.
  by rewrite (proj2 (Z.ltb_ge _ _)) by lia.
Qed.

Definition is_call (e : Event) : bool := match e with Call => true | _ => false end.

(** There is one call for each round whose head did not see the notification, and
    none after it was seen. *)
Theorem calls_until_stop delay interval start rounds r rest :
  forallb (λ r, negb (r_stop r)) rounds = true → r_stop r = true →
  length (filter (λ e, is_call e = true) (RunLoop delay interval start (rounds ++ r :: rest))) = length rounds.
Proof.
  intros Hrs Hr. unfold RunLoop. rewrite filter_app, length_app.
  assert (Hd : filter (λ e, is_call e = true)
    (if 0 <? delay then [Sleep (i64 (i64 (start + delay) - start))] else []) = []) by (by destruct (0 <? delay)).
  rewrite Hd. cbn [length Nat.add]. clear Hd.
  induction rounds as [|r1 rounds IH]; [cbn; by rewrite Hr|]. cbn [forallb] in Hrs. apply andb_true_iff in Hrs as [H1 Hrs].
  cbn [app loop]. apply negb_true_iff in H1 as ->. rewrite filter_cons_True by done. cbn [length]. f_equal.
  rewrite filter_app, length_app, (IH Hrs). by destruct (sleep_after _ r1).
Qed.
