(* ===== verification/EdgeSet.v ===== *)
(** * Sets of edges

    [tensorflow/core/graph/edgeset.{h,cc}]: up to four edges are kept in an array,
    more in a tree.  An edge is its address; the tree is a finite set that is
    iterated in the order of addresses.  The theorem: an edge set is a finite set,
    and an iteration visits each element once. *)
From S2P Require Import Prelude.

Definition kInline : nat := 4.

(** [ptrs_], or the [std::set] it points to. *)
Inductive EdgeSet := Inline (ptrs_ : list (option nat)) | Tree (s : gset nat).

Definition new_EdgeSet : EdgeSet := Inline (replicate kInline None).

Definition EdgeSet_clear (s : EdgeSet) : EdgeSet := Inline (replicate kInline None).

(** [size] counts the pointers that are set, wherever they are. *)
Definition EdgeSet_size (es : EdgeSet) : nat :=
  match es with
  | Inline ptrs => length (filter is_Some ptrs)
  | Tree s => size s
  end.

Definition EdgeSet_empty (es : EdgeSet) : bool := Nat.eqb (EdgeSet_size es) 0.

(** From [begin] to [end]: the first [size] pointers, or the tree in order. *)
Definition EdgeSet_range (es : EdgeSet) : list (option nat) :=
  match es with
  | Inline ptrs => take (EdgeSet_size es) ptrs
  | Tree s => Some <$> merge_sort (≤) (elements s)
  end.

(** The loops of [insert] and [erase] over the array. *)
Fixpoint first_index (x : option nat) (ptrs : list (option nat)) : option nat :=
  match ptrs with
  | [] => None
  | p :: rest => if decide (p = x) then Some 0 else S <$> first_index x rest
  end.

(** [insert], and whether the edge is new. *)
Definition EdgeSet_insert (e : nat) (es : EdgeSet) : EdgeSet * bool :=
  let insert_tree (s : gset nat) := (Tree ({[e]} ∪ s), bool_decide (e ∉ s)) in
  match es with
  | Inline ptrs =>
      match first_index (Some e) ptrs with
      | Some _ => (es, false)
      | None =>
          match first_index None ptrs with
          | Some i => (Inline (<[i := Some e]> ptrs), true)
          | None => insert_tree (list_to_set (omap id ptrs))
          end
      end
  | Tree s => insert_tree s
  end.

(** [erase], and the number of edges erased: the last pointer fills the gap. *)
Definition EdgeSet_erase (e : nat) (es : EdgeSet) : EdgeSet * nat :=
  match es with
  | Inline ptrs =>
      match first_index (Some e) ptrs with
      | None => (es, 0)
      | Some i =>
          let n := EdgeSet_size es in
          (Inline (<[n - 1 := None]> (<[i := mjoin (ptrs !! (n - 1))]> ptrs)), 1)
      end
  | Tree s => (Tree (s ∖ {[e]}), if bool_decide (e ∈ s) then 1 else 0)
  end.

(** ** An edge set is a set *)

(** The pointers in use come first, and are different. *)
Definition EdgeSet_wf (es : EdgeSet) : Prop :=
  match es with
  | Inline ptrs => ∃ l, ptrs = (Some <$> l) ++ replicate (kInline - length l) None ∧ length l ≤ kInline ∧ NoDup l
  | Tree _ => True
  end.

(** The elements, in the order of an iteration. *)
Definition elems (es : EdgeSet) : list nat := omap id (EdgeSet_range es).

Lemma filter_some_length (l : list nat) n :
  length (filter is_Some ((Some <$> l) ++ replicate n None)) = length l.
Proof.
  induction l as [|x l IH]; cbn [fmap list_fmap app].
  - induction n as [|n IH]; [done|]. cbn [replicate app fmap list_fmap]. rewrite filter_cons_False; [done|]. by intros [? ?].
  - rewrite filter_cons_True by eauto. cbn. by rewrite IH.
Qed.

Lemma omap_some (l : list nat) : omap id (Some <$> l) = l.
Proof. induction l as [|x l IH]; [done|]. cbn. by rewrite IH. Qed.

Lemma inline_range (l : list nat) n :
  EdgeSet_range (Inline ((Some <$> l) ++ replicate n None)) = Some <$> l.
Proof. cbn. by rewrite filter_some_length, take_app_length' by (by rewrite length_fmap). Qed.

Lemma inline_elems (l : list nat) n : elems (Inline ((Some <$> l) ++ replicate n None)) = l.
Proof. unfold elems. by rewrite inline_range, omap_some. Qed.

Lemma tree_elems s : elems (Tree s) ≡ₚ elements s.
Proof. unfold elems. cbn. rewrite omap_some. apply merge_sort_Permutation. Qed.

Lemma range_elems es : EdgeSet_wf es → EdgeSet_range es = Some <$> elems es.
Proof.
  destruct es as [ptrs|s]; intros Hwf.
  - destruct Hwf as (l&->&_&_). by rewrite inline_range, inline_elems.
  - unfold elems. cbn. by rewrite omap_some.
Qed.

Lemma elems_nodup es : EdgeSet_wf es → NoDup (elems es).
Proof.
  destruct es as [ptrs|s]; intros Hwf.
  - destruct Hwf as (l&->&_&Hl). by rewrite inline_elems.
  - rewrite tree_elems. apply NoDup_elements.
Qed.

Lemma size_elems es : EdgeSet_wf es → EdgeSet_size es = length (elems es).
Proof.
  destruct es as [ptrs|s]; intros Hwf.
  - destruct Hwf as (l&->&_&_). rewrite inline_elems. apply filter_some_length.
  - rewrite tree_elems. done.
Qed.

Lemma first_index_some (x : nat) (l : list nat) n :
  first_index (Some x) ((Some <$> l) ++ replicate n None) = first_index (Some x) (Some <$> l).
Proof.
  induction l as [|y l IH]; cbn.
  - induction n as [|n IH]; [done|]. cbn. by rewrite IH.
  - case_decide; [done|]. by rewrite IH.
Qed.

Lemma first_index_lookup x ptrs i : first_index x ptrs = Some i → ptrs !! i = Some x.
Proof.
  revert i. induction ptrs as [|p ptrs IH]; intros i; cbn; [done|]. case_decide as Hp; [intros [= <-]; by subst|].
  intros (j&Hj&->)%fmap_Some. cbn. by apply IH.
Qed.

Lemma first_index_none x ptrs : first_index x ptrs = None → x ∉ ptrs.
Proof.
  induction ptrs as [|p ptrs IH]; cbn; [intros _; apply not_elem_of_nil|]. case_decide as Hp; [done|].
  intros Hn%fmap_None. apply not_elem_of_cons. split; [congruence | auto].
Qed.

Lemma first_index_null (l : list nat) n :
  first_index None ((Some <$> l) ++ replicate n None) = if decide (n = 0) then None else Some (length l).
Proof.
  induction l as [|x l IH]; cbn.
  - by destruct n.
  - rewrite IH. by case_decide.
Qed.

Lemma insert_spec e es es' b :
  EdgeSet_wf es → EdgeSet_insert e es = (es', b) →
  EdgeSet_wf es' ∧ b = bool_decide (e ∉ elems es) ∧
  (e ∉ elems es → elems es' ≡ₚ e :: elems es) ∧ (e ∈ elems es → elems es' ≡ₚ elems es).
Proof.
  assert (Htree : ∀ s (l : list nat), l ≡ₚ elements s →
    bool_decide (e ∉ s) = bool_decide (e ∉ l) ∧
    (e ∉ l → elems (Tree ({[e]} ∪ s)) ≡ₚ e :: l) ∧ (e ∈ l → elems (Tree ({[e]} ∪ s)) ≡ₚ l)).
  { intros s l Hl. assert (Hin : e ∈ l ↔ e ∈ s) by (rewrite Hl; apply elem_of_elements). split_and!.
    - apply bool_decide_ext. by rewrite Hin.
    - intros Hn. rewrite tree_elems, elements_union_singleton, Hl; [done|]. by rewrite <-Hin.
    - intros He. rewrite tree_elems, Hl. assert ({[e]} ∪ s = s) as -> by (apply Hin in He; set_solver). done. }
  intros Hwf Hins. destruct es as [ptrs|s]; cbn in Hins.
  - destruct Hwf as (l&->&Hlen&Hl). rewrite inline_elems in *. rewrite first_index_some in Hins.
    destruct (first_index (Some e) (Some <$> l)) as [i|] eqn:Hi.
    + injection Hins as <- <-. apply first_index_lookup in Hi. rewrite list_lookup_fmap in Hi.
      apply fmap_Some in Hi as (x&Hx&[= <-]). apply list_elem_of_lookup_2 in Hx.
      rewrite inline_elems, bool_decide_false by (intros ?; done). split_and!; [|done..]. by exists l.
    + apply first_index_none in Hi. assert (He : e ∉ l).
      { intros He. apply Hi. apply list_elem_of_fmap. eauto. }
      rewrite first_index_null in Hins. case_decide as Hn.
      * injection Hins as <- <-. destruct (Htree (list_to_set (omap id ((Some <$> l) ++ replicate (kInline - length l) None))) l) as (->&H1&H2);
          [|done].
        rewrite omap_app, omap_some. assert (omap id (replicate (kInline - length l) (@None nat)) = []) as -> by (by rewrite Hn).
        rewrite app_nil_r. by rewrite elements_list_to_set.
      * injection Hins as <- <-. rewrite bool_decide_true by done.
        assert (Heq : <[length l := Some e]> ((Some <$> l) ++ replicate (kInline - length l) None)
          = (Some <$> (l ++ [e])) ++ replicate (kInline - length (l ++ [e])) None).
        { rewrite insert_app_r_alt by (by rewrite length_fmap). rewrite length_fmap, Nat.sub_diag, fmap_app, <-app_assoc. f_equal.
          rewrite length_app. cbn [length]. rewrite Nat.add_1_r. by replace (kInline - length l) with (S (kInline - S (length l))) by lia. }
        rewrite Heq, inline_elems. split_and!; [|done|by rewrite <-Permutation_cons_append|done].
        exists (l ++ [e]). split_and!; [done | rewrite length_app; cbn; lia|].
        apply NoDup_app. split_and!; [done | | apply NoDup_singleton]. intros x Hx ->%list_elem_of_singleton. done.
  - injection Hins as <- <-. destruct (Htree s (elems (Tree s)) (tree_elems s)) as (->&H1&H2). done.
Qed.

Lemma erase_spec e es es' n :
  EdgeSet_wf es → EdgeSet_erase e es = (es', n) →
  EdgeSet_wf es' ∧ (e ∈ elems es → n = 1 ∧ elems es ≡ₚ e :: elems es') ∧ (e ∉ elems es → n = 0 ∧ elems es' = elems es).
Proof.
  intros Hwf Her. destruct es as [ptrs|s]; cbn in Her.
  - destruct Hwf as (l&->&Hlen&Hl). rewrite inline_elems. rewrite first_index_some in Her.
    destruct (first_index (Some e) (Some <$> l)) as [i|] eqn:Hi.
    2: { injection Her as <- <-. apply first_index_none in Hi. rewrite inline_elems. split_and!; [by exists l | |done].
         intros He. destruct Hi. apply list_elem_of_fmap. eauto. }
    apply first_index_lookup in Hi. rewrite list_lookup_fmap in Hi. apply fmap_Some in Hi as (x&Hx&[= <-]).
    rewrite filter_some_length in Her. injection Her as <- <-.
    destruct (exists_last (l := l)) as (l0&z&->); [by intros ->|]. rewrite length_app in *. cbn [length] in *.
    replace (length l0 + 1 - 1) with (length l0) by lia. set (k := kInline - (length l0 + 1)).
    assert (Hz : mjoin (((Some <$> (l0 ++ [z])) ++ replicate k None) !! length l0) = Some z).
    { rewrite fmap_app, <-app_assoc, lookup_app_r by (by rewrite length_fmap). by rewrite length_fmap, Nat.sub_diag. }
    rewrite Hz. assert (Hgo : ∃ l1, l0 ++ [z] ≡ₚ e :: l1 ∧ length l1 = length l0 ∧
      <[length l0 := None]> (<[i := Some z]> ((Some <$> (l0 ++ [z])) ++ replicate k None)) =
      (Some <$> l1) ++ replicate (S k) None).
    { rewrite fmap_app, <-app_assoc. cbn [fmap list_fmap app]. destruct (decide (i < length l0)) as [Hlt|Hge].
      - rewrite lookup_app_l in Hx by done. exists (<[i := z]> l0). split_and!.
        + rewrite (insert_Permutation _ _ _ _ Hx), <-Permutation_cons_append.
          transitivity (z :: e :: delete i l0); [constructor; by apply delete_Permutation | apply perm_swap].
        + by rewrite length_insert.
        + rewrite insert_app_l by (by rewrite length_fmap). rewrite insert_app_r_alt by (by rewrite length_insert, length_fmap).
          rewrite length_insert, length_fmap, Nat.sub_diag, list_fmap_insert. done.
      - rewrite lookup_app_r in Hx by lia. destruct (i - length l0) as [|j] eqn:Ej; [|by destruct j].
        injection Hx as <-. assert (i = length l0) as -> by lia. exists l0.
        split_and!; [by rewrite <-Permutation_cons_append | done |].
        rewrite insert_app_r_alt by (by rewrite length_fmap). rewrite length_fmap, Nat.sub_diag. cbn.
        rewrite insert_app_r_alt by (by rewrite length_fmap). by rewrite length_fmap, Nat.sub_diag. }
    destruct Hgo as (l1&Hp&Hl1&->). rewrite inline_elems. split_and!.
    + exists l1. split_and!; [|lia|].
      * rewrite Hl1. by replace (kInline - length l0) with (S k) by (unfold k; lia).
      * rewrite Hp in Hl. by apply NoDup_cons in Hl as [_ ?].
    + done.
    + intros He. destruct He. rewrite Hp. left.
  - injection Her as <- <-. split_and!; [done | |].
    + intros He. rewrite tree_elems, elem_of_elements in He. rewrite bool_decide_true by done. split; [done|].
      rewrite !tree_elems. rewrite (union_difference_singleton_L e s He) at 1. by rewrite elements_union_singleton by set_solver.
    + intros He. rewrite tree_elems, elem_of_elements in He. rewrite bool_decide_false by done. split; [done|].
      by assert (s ∖ {[e]} = s) as -> by set_solver.
Qed.

Lemma clear_spec es : EdgeSet_wf (EdgeSet_clear es) ∧ elems (EdgeSet_clear es) = [].
Proof. split; [|done]. exists []. split_and!; [done | cbn; lia | constructor]. Qed.

Lemma new_spec : EdgeSet_wf new_EdgeSet ∧ elems new_EdgeSet = [].
Proof. apply (clear_spec new_EdgeSet). Qed.

Lemma empty_spec es : EdgeSet_wf es → EdgeSet_empty es = true ↔ elems es = [].
Proof. intros Hwf. unfold EdgeSet_empty. rewrite (size_elems _ Hwf), Nat.eqb_eq. apply length_zero_iff_nil. Qed.

(** ** The edge set refines a finite set *)

Inductive SetOp := SInsert (e : nat) | SErase (e : nat) | SClear.

Definition run_set (es : EdgeSet) (x : SetOp) : EdgeSet :=
  match x with
  | SInsert e => (EdgeSet_insert e es).1
  | SErase e => (EdgeSet_erase e es).1
  | SClear => EdgeSet_clear es
  end.

Definition spec_set (s : gset nat) (x : SetOp) : gset nat :=
  match x with SInsert e => {[e]} ∪ s | SErase e => s ∖ {[e]} | SClear => ∅ end.

(** After any operations an edge set has the elements a set has after them; its size
    is their number, and an iteration reads no null pointer and visits each once. *)
Theorem edge_set_refines xs :
  let es := foldl run_set new_EdgeSet xs in
  let s := foldl spec_set ∅ xs in
  EdgeSet_size es = size s ∧ ∃ l, EdgeSet_range es = Some <$> l ∧ l ≡ₚ elements s.
Proof.
  intros es s. assert (EdgeSet_wf es ∧ elems es ≡ₚ elements s) as [Hwf Hp].
  { unfold es, s. clear es s. induction xs as [|x xs IH] using rev_ind; [split; [apply new_spec | done]|].
    rewrite !foldl_app. cbn [foldl]. destruct IH as [Hwf Hp]. set (es := foldl run_set _ xs) in *. set (s := foldl spec_set _ xs) in *.
    assert (Hin : ∀ e, e ∈ elems es ↔ e ∈ s) by (intros e; by rewrite Hp, elem_of_elements).
    destruct x as [e|e|]; cbn [run_set spec_set].
    - destruct (EdgeSet_insert e es) as [es' b] eqn:E. destruct (insert_spec _ _ _ _ Hwf E) as (Hwf'&_&Hnew&Hold).
      split; [done|]. cbn [fst]. destruct (decide (e ∈ s)) as [He|He].
      + rewrite Hold, Hp by (by apply Hin). by assert ({[e]} ∪ s = s) as -> by set_solver.
      + rewrite Hnew, Hp by (by rewrite Hin). by rewrite elements_union_singleton.
    - destruct (EdgeSet_erase e es) as [es' n] eqn:E. destruct (erase_spec _ _ _ _ Hwf E) as (Hwf'&Hold&Hnone).
      split; [done|]. cbn [fst]. destruct (decide (e ∈ s)) as [He|He].
      + destruct Hold as [_ Hold]; [by apply Hin|]. rewrite Hold in Hp.
        rewrite (union_difference_singleton_L e s He), elements_union_singleton in Hp by set_solver.
        by apply Permutation_cons_inv in Hp.
      + destruct Hnone as [_ ->]; [by rewrite Hin|]. by assert (s ∖ {[e]} = s) as -> by set_solver.
    - split; [apply (clear_spec es) | done]. }
  split; [by rewrite (size_elems _ Hwf), Hp|]. exists (elems es). split; [by apply range_elems | done].
Qed.
