(* ===== verification/Graph.v ===== *)
(** * Graphs

    [tensorflow/core/graph/graph.{h,cc}]: the graph of operations that is built,
    rewritten and run.  Nodes and edges live at addresses of an arena and are
    used again when they have been removed; [nodes_] and [edges_] map ids, which
    are never used again, to addresses.  Each node has the sets of its incoming and
    outgoing edges ([EdgeSet]).

    A failed [CHECK], an access through a null pointer and an index outside a field
    are [None]; the [DCHECK]s of debug builds are left out.  The registry of operations is a class; the properties of a node,
    which nodes share until one is written ([MaybeCopyOnWrite]), are values; of a
    [NodeDef] the attributes are left out. *)
From S2P Require Import Prelude Numbers Status EdgeSet.
Local Open Scope Z_scope.

(** ** Data *)

Record NodeDef := mkNodeDef {
  nd_name : string;
  nd_op : string;
  nd_input : list string;
  nd_device : string }.

Record NodeProperties := mkProps {
  op_def : nat;                 (* a pointer into the registry *)
  node_def : NodeDef;
  input_types : list Z;
  output_types : list Z }.

Inductive NodeClass :=
  | NC_UNINITIALIZED | NC_SWITCH | NC_MERGE | NC_ENTER | NC_EXIT | NC_NEXT_ITERATION | NC_LOOP_COND
  | NC_CONTROL_TRIGGER | NC_SEND | NC_HOST_SEND | NC_RECV | NC_HOST_RECV | NC_CONSTANT | NC_VARIABLE
  | NC_IDENTITY | NC_GET_SESSION_HANDLE | NC_GET_SESSION_TENSOR | NC_DELETE_SESSION_TENSOR
  | NC_METADATA | NC_OTHER.

Definition kNodeClassTable : list (string * NodeClass) :=
  [("Switch", NC_SWITCH); ("RefSwitch", NC_SWITCH); ("Merge", NC_MERGE); ("RefMerge", NC_MERGE);
   ("Enter", NC_ENTER); ("RefEnter", NC_ENTER); ("Exit", NC_EXIT); ("RefExit", NC_EXIT);
   ("NextIteration", NC_NEXT_ITERATION); ("RefNextIteration", NC_NEXT_ITERATION);
   ("LoopCond", NC_LOOP_COND); ("ControlTrigger", NC_CONTROL_TRIGGER); ("_Send", NC_SEND);
   ("_HostSend", NC_HOST_SEND); ("_Recv", NC_RECV); ("_HostRecv", NC_HOST_RECV);
   ("Const", NC_CONSTANT); ("HostConst", NC_CONSTANT); ("Variable", NC_VARIABLE);
   ("VariableV2", NC_VARIABLE); ("Identity", NC_IDENTITY); ("RefIdentity", NC_IDENTITY);
   ("GetSessionHandle", NC_GET_SESSION_HANDLE); ("GetSessionHandleV2", NC_GET_SESSION_HANDLE);
   ("GetSessionTensor", NC_GET_SESSION_TENSOR); ("DeleteSessionTensor", NC_DELETE_SESSION_TENSOR);
   ("Size", NC_METADATA); ("Shape", NC_METADATA); ("Rank", NC_METADATA)]%string.

Definition GetNodeClassForOp (ts : string) : NodeClass :=
  match list_find (λ kv, kv.1 = ts) kNodeClassTable with
  | Some (_, (_, c)) => c
  | None => NC_OTHER
  end.

Record Node := mkNode {
  id_ : Z;
  cost_id_ : Z;
  class_ : NodeClass;
  in_edges_ : EdgeSet;
  out_edges_ : EdgeSet;
  props_ : option NodeProperties;
  assigned_device_name_index_ : nat;
  while_ctx_ : option nat }.

Record Edge := mkEdge {
  src_ : option nat;
  dst_ : option nat;
  e_id_ : Z;
  src_output_ : Z;
  dst_input_ : Z }.

Definition kControlSlot : Z := -1.

Record Graph := mkGraph {
  node_heap : gmap nat Node;
  edge_heap : gmap nat Edge;
  arena_ : nat;                    (* the next address *)
  nodes_ : list (option nat);
  num_nodes_ : Z;
  edges_ : list (option nat);
  num_edges_ : Z;
  free_nodes_ : list nat;          (* the back first *)
  free_edges_ : list nat;
  name_counter_ : Z;
  device_names_ : list string;
  device_names_map_ : gmap string nat }.

Definition set_nodes (heap : gmap nat Node) (ids : list (option nat)) (n : Z) (free : list nat) (g : Graph) : Graph :=
  mkGraph heap (edge_heap g) (arena_ g) ids n (edges_ g) (num_edges_ g) free (free_edges_ g)
    (name_counter_ g) (device_names_ g) (device_names_map_ g).
Definition set_edges (heap : gmap nat Edge) (ids : list (option nat)) (n : Z) (free : list nat) (g : Graph) : Graph :=
  mkGraph (node_heap g) heap (arena_ g) (nodes_ g) (num_nodes_ g) ids n (free_nodes_ g) free
    (name_counter_ g) (device_names_ g) (device_names_map_ g).
Definition set_node_heap (heap : gmap nat Node) (g : Graph) : Graph :=
  set_nodes heap (nodes_ g) (num_nodes_ g) (free_nodes_ g) g.
Definition set_arena (a : nat) (g : Graph) : Graph :=
  mkGraph (node_heap g) (edge_heap g) a (nodes_ g) (num_nodes_ g) (edges_ g) (num_edges_ g)
    (free_nodes_ g) (free_edges_ g) (name_counter_ g) (device_names_ g) (device_names_map_ g).
Definition set_names (c : Z) (names : list string) (map : gmap string nat) (g : Graph) : Graph :=
  mkGraph (node_heap g) (edge_heap g) (arena_ g) (nodes_ g) (num_nodes_ g) (edges_ g) (num_edges_ g)
    (free_nodes_ g) (free_edges_ g) c names map.

Definition set_in_edges (s : EdgeSet) (n : Node) : Node :=
  mkNode (id_ n) (cost_id_ n) (class_ n) s (out_edges_ n) (props_ n) (assigned_device_name_index_ n) (while_ctx_ n).
Definition set_out_edges (s : EdgeSet) (n : Node) : Node :=
  mkNode (id_ n) (cost_id_ n) (class_ n) (in_edges_ n) s (props_ n) (assigned_device_name_index_ n) (while_ctx_ n).
Definition set_props (p : option NodeProperties) (n : Node) : Node :=
  mkNode (id_ n) (cost_id_ n) (class_ n) (in_edges_ n) (out_edges_ n) p (assigned_device_name_index_ n) (while_ctx_ n).
Definition set_device_index (i : nat) (n : Node) : Node :=
  mkNode (id_ n) (cost_id_ n) (class_ n) (in_edges_ n) (out_edges_ n) (props_ n) i (while_ctx_ n).
Definition set_while_ctx (w : option nat) (n : Node) : Node :=
  mkNode (id_ n) (cost_id_ n) (class_ n) (in_edges_ n) (out_edges_ n) (props_ n) (assigned_device_name_index_ n) w.

(** ** Nodes *)

Definition new_Node : Node := mkNode (-1) (-1) NC_UNINITIALIZED new_EdgeSet new_EdgeSet None 0 None.

Definition Initialize (id cost_id : Z) (props : NodeProperties) (n : Node) : Node :=
  mkNode id cost_id (GetNodeClassForOp (nd_op (node_def props))) (in_edges_ n) (out_edges_ n) (Some props)
    (assigned_device_name_index_ n) (while_ctx_ n).

(** [Node::Clear], which leaves [while_ctx_] as it is. *)
Definition Node_Clear (n : Node) : Node :=
  mkNode (-1) (-1) NC_UNINITIALIZED (EdgeSet_clear (in_edges_ n)) (EdgeSet_clear (out_edges_ n)) None 0 (while_ctx_ n).

Definition IsSource (n : Node) : bool := id_ n =? 0.
Definition IsSink (n : Node) : bool := id_ n =? 1.
Definition IsOp (n : Node) : bool := 1 <? id_ n.

Definition IsControlEdge (e : Edge) : bool := src_output_ e =? kControlSlot.

(** ** Allocation *)

Definition AllocateNode (props : NodeProperties) (cost_node : option Z) (g : Graph) : nat * Graph :=
  let '(p, n, free, g) :=
    match free_nodes_ g with
    | [] => (arena_ g, new_Node, [], set_arena (S (arena_ g)) g)
    | p :: rest => (p, default new_Node (node_heap g !! p), rest, g)
    end in
  let id := Z.of_nat (length (nodes_ g)) in
  let n := Initialize id (default id cost_node) props n in
  (p, set_nodes (<[p := n]> (node_heap g)) (nodes_ g ++ [Some p]) (num_nodes_ g + 1) free g).

Definition ReleaseNode (p : nat) (g : Graph) : option Graph :=
  n ← node_heap g !! p;
  Some (set_nodes (<[p := Node_Clear n]> (node_heap g)) (<[Z.to_nat (id_ n) := None]> (nodes_ g))
          (num_nodes_ g - 1) (p :: free_nodes_ g) g).

(** ** Edges *)

Definition update_node (p : nat) (f : Node → option Node) (g : Graph) : option Graph :=
  n ← node_heap g !! p;
  n ← f n;
  Some (set_node_heap (<[p := n]> (node_heap g)) g).

(** [CHECK(set.insert(e).second)] and [CHECK_EQ(set.erase(e), 1)] for the two sets. *)
Definition insert_out (e : nat) (n : Node) : option Node :=
  let '(s, fresh) := EdgeSet_insert e (out_edges_ n) in
  if fresh then Some (set_out_edges s n) else None.
Definition insert_in (e : nat) (n : Node) : option Node :=
  let '(s, fresh) := EdgeSet_insert e (in_edges_ n) in
  if fresh then Some (set_in_edges s n) else None.
Definition erase_out (e : nat) (n : Node) : option Node :=
  let '(s, k) := EdgeSet_erase e (out_edges_ n) in
  if Nat.eqb k 1 then Some (set_out_edges s n) else None.
Definition erase_in (e : nat) (n : Node) : option Node :=
  let '(s, k) := EdgeSet_erase e (in_edges_ n) in
  if Nat.eqb k 1 then Some (set_in_edges s n) else None.

Definition AddEdge (source : nat) (x : Z) (dest : nat) (y : Z) (g : Graph) : option (nat * Graph) :=
  let '(e, free, g) :=
    match free_edges_ g with
    | [] => (arena_ g, [], set_arena (S (arena_ g)) g)
    | e :: rest => (e, rest, g)
    end in
  let id := Z.of_nat (length (edges_ g)) in
  let g := set_edges (<[e := mkEdge (Some source) (Some dest) id x y]> (edge_heap g)) (edges_ g) (num_edges_ g) free g in
  g ← update_node source (insert_out e) g;
  g ← update_node dest (insert_in e) g;
  Some (e, set_edges (edge_heap g) (edges_ g ++ [Some e]) (num_edges_ g + 1) (free_edges_ g) g).

Definition RemoveEdge (e : nat) (g : Graph) : option Graph :=
  E ← edge_heap g !! e;
  s ← src_ E;
  d ← dst_ E;
  g ← update_node s (erase_out e) g;
  g ← update_node d (erase_in e) g;
  if bool_decide (edges_ g !! Z.to_nat (e_id_ E) = Some (Some e)) && (0 <? num_edges_ g) then
    Some (set_edges (<[e := mkEdge None None (-1) (kControlSlot - 1) (kControlSlot - 1)]> (edge_heap g))
            (<[Z.to_nat (e_id_ E) := None]> (edges_ g)) (num_edges_ g - 1) (e :: free_edges_ g) g)
  else None.

(** The two loops of [RemoveNode], each over a set that shrinks. *)
Fixpoint remove_edges (fuel : nat) (set_of : Node → EdgeSet) (p : nat) (g : Graph) : option Graph :=
  n ← node_heap g !! p;
  if EdgeSet_empty (set_of n) then Some g else
  match fuel with
  | O => None
  | S fuel =>
      e ← mjoin (head (EdgeSet_range (set_of n)));
      g ← RemoveEdge e g;
      remove_edges fuel set_of p g
  end.

Definition RemoveNode (p : nat) (g : Graph) : option Graph :=
  n ← node_heap g !! p;
  g ← remove_edges (EdgeSet_size (in_edges_ n)) in_edges_ p g;
  n ← node_heap g !! p;
  g ← remove_edges (EdgeSet_size (out_edges_ n)) out_edges_ p g;
  ReleaseNode p g.

(** ** Control edges *)

Definition node_name (n : Node) : string := from_option (λ p, nd_name (node_def p)) "" (props_ n).

Definition set_input (f : list string → list string) (p : NodeProperties) : NodeProperties :=
  let d := node_def p in
  mkProps (op_def p) (mkNodeDef (nd_name d) (nd_op d) (f (nd_input d)) (nd_device d)) (input_types p) (output_types p).

(** The loop over [dest->in_edges()]. *)
Definition has_control_edge (source dest : nat) (g : Graph) : option bool :=
  d ← node_heap g !! dest;
  Some (existsb (λ e, match edge_heap g !! e with
                      | Some E => IsControlEdge E && bool_decide (src_ E = Some source)
                      | None => false
                      end) (elems (in_edges_ d))).

Definition AddControlEdge (source dest : nat) (allow_duplicates : bool) (g : Graph) : option (option nat * Graph) :=
  exists_ ← has_control_edge source dest g;
  if negb allow_duplicates && exists_ then Some (None, g) else
  s ← node_heap g !! source;
  d ← node_heap g !! dest;
  let new_input := ("^" +:+ node_name s)%string in
  g ← (if negb (IsSource s) && negb (IsSink d) && negb allow_duplicates
       then update_node dest (λ d,
              props ← props_ d;
              Some (if bool_decide (new_input ∈ nd_input (node_def props)) then d
                    else set_props (Some (set_input (λ l, l ++ [new_input]) props)) d)) g
       else Some g);
  '(e, g) ← AddEdge source kControlSlot dest kControlSlot g;
  Some (Some e, g).

(** The first occurrence is erased. *)
Fixpoint erase_first (s : string) (l : list string) : list string :=
  match l with
  | [] => []
  | x :: l => if bool_decide (x = s) then l else x :: erase_first s l
  end.

Definition RemoveControlEdge (e : nat) (g : Graph) : option Graph :=
  E ← edge_heap g !! e;
  sp ← src_ E;
  dp ← dst_ E;
  s ← node_heap g !! sp;
  d ← node_heap g !! dp;
  g ← (if negb (IsSource s) && negb (IsSink d)
       then update_node dp (λ d,
              props ← props_ d;
              Some (set_props (Some (set_input (erase_first ("^" +:+ node_name s)) props)) d)) g
       else Some g);
  RemoveEdge e g.

(** ** Checked updates *)

(** [IsValidNode], of a pointer that is null or leads to a node. *)
Definition IsValidNode (node : option nat) (g : Graph) : option Status :=
  match node with
  | None => Some (InvalidArgument "Node is null")
  | Some p =>
      n ← node_heap g !! p;
      let id := id_ n in
      Some (if id <? 0 then InvalidArgument ("node id " +:+ pretty id +:+ " is less than zero")
            else if Z.of_nat (length (nodes_ g)) <=? id then
              InvalidArgument ("node id " +:+ pretty id +:+ " is >= than number of nodes in graph " +:+
                               pretty (length (nodes_ g)))
            else if negb (bool_decide (nodes_ g !! Z.to_nat id = Some (Some p))) then
              InvalidArgument ("Node with id " +:+ pretty id +:+
                " is different from the passed in node. Does it belong to a different graph?")
            else StatusOK)
  end.

(** [IsValidOutputTensor] and [IsValidInputTensor]; [op_name] gives [op_def().name()]. *)
Definition check_slot (op_name : nat → string) (what : string) (types : NodeProperties → list Z)
    (node : option nat) (idx : Z) (g : Graph) : option Status :=
  status ← IsValidNode node g;
  if negb (ok status) then Some status else
  n ← node ≫= λ p, node_heap g !! p;
  props ← props_ n;
  Some (if Z.of_nat (length (types props)) <=? idx then
          OutOfRange ("Node '" +:+ node_name n +:+ "' (type: '" +:+ op_name (op_def props) +:+
            "', num of " +:+ what +:+ "s: " +:+ pretty (length (types props)) +:+ ") does not have " +:+
            what +:+ " " +:+ pretty idx)
        else StatusOK).

Definition IsValidOutputTensor (op_name : nat → string) := check_slot op_name "output" output_types.
Definition IsValidInputTensor (op_name : nat → string) := check_slot op_name "input" input_types.

(** [FindEdge]: the first in the order of ids. *)
Definition FindEdge (dst : nat) (index : Z) (g : Graph) : option nat :=
  snd <$> list_find (λ e, from_option (λ E, bool_decide (dst_ E = Some dst) && (dst_input_ E =? index)) false
                            (edge_heap g !! e) = true) (omap id (edges_ g)).

(** [UpdateEdge]; [debug] is [DebugString].  The last write is to an element of the
    repeated field [input], which has to exist. *)
Definition UpdateEdge (op_name : nat → string) (debug : Node → string) (new_src : option nat)
    (new_src_index : Z) (dst : option nat) (dst_index : Z) (g : Graph) : option (Status * Graph) :=
  status ← IsValidOutputTensor op_name new_src new_src_index g;
  if negb (ok status) then Some (status, g) else
  status ← IsValidInputTensor op_name dst dst_index g;
  if negb (ok status) then Some (status, g) else
  s ← new_src;
  d ← dst;
  match FindEdge d dst_index g with
  | None => n ← node_heap g !! d; Some (InvalidArgument ("Couldn't find edge to " +:+ debug n), g)
  | Some e =>
      g ← RemoveEdge e g;
      '(_, g) ← AddEdge s new_src_index d dst_index g;
      sn ← node_heap g !! s;
      g ← update_node d (λ n,
            props ← props_ n;
            if (0 <=? dst_index) && (dst_index <? Z.of_nat (length (nd_input (node_def props)))) then
              Some (set_props (Some (set_input
                (<[Z.to_nat dst_index := node_name sn +:+ ":" +:+ pretty new_src_index]>) props)) n)
            else None) g;
      Some (StatusOK, g)
  end.

(** ** Adding nodes *)

(** The registry of operations with [AttachDef] for its errors. *)
Class OpRegistry := {
  LookUpOpDef : string → Status * nat;
  InOutTypesForNode : NodeDef → nat → Status * (list Z * list Z);
  AttachDef : Status → NodeDef → Status }.

Definition AddNode `{OpRegistry} (def : NodeDef) (status : Status) (g : Graph) : option nat * Status * Graph :=
  let '(st, op) := LookUpOpDef (nd_op def) in
  let status := Update status st in
  if negb (ok status) then (None, status, g) else
  let '(st, (inputs, outputs)) := InOutTypesForNode def op in
  let status := Update status st in
  if negb (ok status) then (None, AttachDef status def, g) else
  let '(p, g) := AllocateNode (mkProps op def inputs outputs) None g in
  (Some p, status, g).

(** [InternDeviceName]: [operator[]] adds the name with index 0 first. *)
Definition InternDeviceName (name : string) (g : Graph) : nat * Graph :=
  if bool_decide (name = "") then (0%nat, g) else
  let map := match device_names_map_ g !! name with
             | Some _ => device_names_map_ g
             | None => <[name := 0%nat]> (device_names_map_ g)
             end in
  let index_cell := default 0%nat (map !! name) in
  if (0 <? index_cell)%nat then (index_cell, set_names (name_counter_ g) (device_names_ g) map g) else
  let index := size map in
  (index, set_names (name_counter_ g) (device_names_ g ++ [name]) (<[name := index]> map) g).

Definition assigned_device_name (p : nat) (g : Graph) : option string :=
  n ← node_heap g !! p; device_names_ g !! assigned_device_name_index_ n.

Definition set_assigned_device_name (p : nat) (name : string) (g : Graph) : option Graph :=
  let '(i, g) := InternDeviceName name g in
  update_node p (λ n, Some (set_device_index i n)) g.

(** [CopyNode], of a node of this graph or of another one. *)
Definition CopyNode `{OpRegistry} (node : Node) (device : string) (g : Graph) : option (nat * Graph) :=
  props ← props_ node;
  let '(p, g) := AllocateNode props (Some (cost_id_ node)) g in
  g ← set_assigned_device_name p device g;
  let '(st, op) := LookUpOpDef (nd_op (node_def props)) in
  if negb (ok st) then None else
  g ← (if Nat.eqb op (op_def props) then Some g
       else update_node p (λ n,
              props ← props_ n;
              Some (set_props (Some (mkProps op (node_def props) (input_types props) (output_types props))) n)) g);
  Some (p, g).

Definition NewName (prefix : string) (g : Graph) : string * Graph :=
  (prefix +:+ "/_" +:+ pretty (name_counter_ g),
   set_names (name_counter_ g + 1) (device_names_ g) (device_names_map_ g) g).

(** The constructor. *)
Definition source_node (g : Graph) : option nat := mjoin (nodes_ g !! 0%nat).
Definition sink_node (g : Graph) : option nat := mjoin (nodes_ g !! 1%nat).

Definition new_Graph `{OpRegistry} : option Graph :=
  let g := mkGraph ∅ ∅ 0 [] 0 [] 0 [] [] 0 [""] ∅ in
  let '(source, st, g) := AddNode (mkNodeDef "_SOURCE" "NoOp" [] "") StatusOK g in
  if negb (ok st) then None else
  source ← source;
  let '(sink, st, g) := AddNode (mkNodeDef "_SINK" "NoOp" [] "") st g in
  if negb (ok st) then None else
  sink ← sink;
  '(_, g) ← AddControlEdge source sink false g;
  Some g.

(** ** Reading *)

(** The iteration over [nodes()], and the neighbours of a node through an edge. *)
Definition graph_nodes (g : Graph) : list nat := omap id (nodes_ g).

Definition out_nodes (n : Node) (g : Graph) : list nat :=
  omap (λ e, edge_heap g !! e ≫= dst_) (elems (out_edges_ n)).
Definition in_nodes (n : Node) (g : Graph) : list nat :=
  omap (λ e, edge_heap g !! e ≫= src_) (elems (in_edges_ n)).

(** [Node::input_edge]. *)
Definition input_edge (n : Node) (idx : Z) (g : Graph) : Status * option nat :=
  let num := from_option (λ p, Z.of_nat (length (input_types p))) 0 (props_ n) in
  if (idx <? 0) || (num <=? idx) then
    (InvalidArgument ("Invalid input_edge index: " +:+ pretty idx +:+ ", Node " +:+ node_name n +:+
       " only has " +:+ pretty num +:+ " inputs."), None)
  else
    match list_find (λ e, from_option dst_input_ (-1) (edge_heap g !! e) = idx) (elems (in_edges_ n)) with
    | Some (_, e) => (StatusOK, Some e)
    | None => (NotFound ("Could not find input edge " +:+ pretty idx +:+ " for " +:+ node_name n), None)
    end.

Definition FindNodeId (i : nat) (g : Graph) : option nat := mjoin (nodes_ g !! i).
Definition FindEdgeId (i : nat) (g : Graph) : option nat := mjoin (edges_ g !! i).
