(* ===== verification/GraphInvariant.v ===== *)
(** * The invariant of graphs

    The ids, the sets of edges, the free lists and the counters of a [Graph] agree;
    every operation keeps that, none of its [CHECK]s fails, and its effect on the
    nodes and edges, each known by its id, is what its name says. *)
From S2P Require Import Prelude Numbers Status EdgeSet Graph.
Local Open Scope Z_scope.

(** ** The invariant *)

Definition is_node (g : Graph) (p i : nat) : Prop := nodes_ g !! i = Some (Some p).
Definition is_edge (g : Graph) (e i : nat) : Prop := edges_ g !! i = Some (Some e).
Definition live_node (g : Graph) (p : nat) : Prop := ∃ i, is_node g p i.
Definition live_edge (g : Graph) (e : nat) : Prop := ∃ i, is_edge g e i.

Definition sets_ok (n : Node) : Prop := EdgeSet_wf (in_edges_ n) ∧ EdgeSet_wf (out_edges_ n).

(** The sets of the node at [p] are the edges that end there. *)
Definition linked (g : Graph) (p : nat) (n : Node) : Prop :=
  (∀ e, e ∈ elems (out_edges_ n) ↔ live_edge g e ∧ edge_heap g !! e ≫= src_ = Some p) ∧
  (∀ e, e ∈ elems (in_edges_ n) ↔ live_edge g e ∧ edge_heap g !! e ≫= dst_ = Some p).

Record wf (g : Graph) : Prop := {
  w_sets : ∀ p n, node_heap g !! p = Some n → sets_ok n;
  w_node : ∀ i p, is_node g p i → ∃ n, node_heap g !! p = Some n ∧ id_ n = Z.of_nat i ∧ is_Some (props_ n);
  w_linked : ∀ p n, node_heap g !! p = Some n → linked g p n;
  w_edge : ∀ i e, is_edge g e i → ∃ s d x y,
    edge_heap g !! e = Some (mkEdge (Some s) (Some d) (Z.of_nat i) x y) ∧ live_node g s ∧ live_node g d;
  w_free_nodes : NoDup (free_nodes_ g) ∧ ∀ p, p ∈ free_nodes_ g → ¬ live_node g p ∧ is_Some (node_heap g !! p);
  w_free_edges : NoDup (free_edges_ g) ∧ ∀ e, e ∈ free_edges_ g → ¬ live_edge g e ∧ is_Some (edge_heap g !! e);
  w_arena : (∀ p, is_Some (node_heap g !! p) → (p < arena_ g)%nat) ∧
            (∀ e, is_Some (edge_heap g !! e) → (e < arena_ g)%nat);
  w_num_nodes : num_nodes_ g = Z.of_nat (length (omap id (nodes_ g)));
  w_num_edges : num_edges_ g = Z.of_nat (length (omap id (edges_ g))) }.

(** What an operation on edges leaves of a node. *)
Definition core_node (n : Node) := (id_ n, cost_id_ n, class_ n, props_ n, assigned_device_name_index_ n, while_ctx_ n).

Definition same_nodes (g g' : Graph) : Prop :=
  nodes_ g' = nodes_ g ∧ num_nodes_ g' = num_nodes_ g ∧ free_nodes_ g' = free_nodes_ g ∧
  ∀ p, core_node <$> node_heap g' !! p = core_node <$> node_heap g !! p.

(** ** One set changes *)

Lemma insert_out_ok e n :
  sets_ok n → e ∉ elems (out_edges_ n) →
  ∃ n', insert_out e n = Some n' ∧ sets_ok n' ∧ core_node n' = core_node n ∧ in_edges_ n' = in_edges_ n ∧
    ∀ e', e' ∈ elems (out_edges_ n') ↔ e' = e ∨ e' ∈ elems (out_edges_ n).
Proof.
  intros [Hi Ho] He. unfold insert_out. destruct (EdgeSet_insert e (out_edges_ n)) as [s b] eqn:E.
  destruct (insert_spec _ _ _ _ Ho E) as (Hs&->&Hp&_). rewrite bool_decide_true by done. eexists. split; [done|].
  split_and!; [done | done | done|]. intros e'. cbn. rewrite (Hp He). apply elem_of_cons.
Qed.

Lemma insert_in_ok e n :
  sets_ok n → e ∉ elems (in_edges_ n) →
  ∃ n', insert_in e n = Some n' ∧ sets_ok n' ∧ core_node n' = core_node n ∧ out_edges_ n' = out_edges_ n ∧
    ∀ e', e' ∈ elems (in_edges_ n') ↔ e' = e ∨ e' ∈ elems (in_edges_ n).
Proof.
  intros [Hi Ho] He. unfold insert_in. destruct (EdgeSet_insert e (in_edges_ n)) as [s b] eqn:E.
  destruct (insert_spec _ _ _ _ Hi E) as (Hs&->&Hp&_). rewrite bool_decide_true by done. eexists. split; [done|].
  split_and!; [done | done | done|]. intros e'. cbn. rewrite (Hp He). apply elem_of_cons.
Qed.

Lemma erased_elems e s s' (k : nat) :
  EdgeSet_wf s → e ∈ elems s → EdgeSet_erase e s = (s', k) →
  EdgeSet_wf s' ∧ k = 1%nat ∧ (∀ e', e' ∈ elems s' ↔ e' ≠ e ∧ e' ∈ elems s) ∧ length (elems s) = S (length (elems s')).
Proof.
  intros Hs He E. destruct (erase_spec _ _ _ _ Hs E) as (Hs'&Hp&_). destruct (Hp He) as [-> Hp'].
  split_and!; [done | done | | by rewrite Hp']. pose proof (elems_nodup _ Hs) as Hnd. rewrite Hp' in Hnd.
  apply NoDup_cons in Hnd as [Hn _]. intros e'. rewrite Hp', elem_of_cons. split; [|tauto].
  intros He'. split; [congruence | by right].
Qed.

Lemma erase_out_ok e n :
  sets_ok n → e ∈ elems (out_edges_ n) →
  ∃ n', erase_out e n = Some n' ∧ sets_ok n' ∧ core_node n' = core_node n ∧ in_edges_ n' = in_edges_ n ∧
    ∀ e', e' ∈ elems (out_edges_ n') ↔ e' ≠ e ∧ e' ∈ elems (out_edges_ n).
Proof.
  intros [Hi Ho] He. unfold erase_out. destruct (EdgeSet_erase e (out_edges_ n)) as [s k] eqn:E.
  destruct (erased_elems _ _ _ _ Ho He E) as (Hs&->&Hp&_). eexists. split; [done|]. by split_and!.
Qed.

Lemma erase_in_ok e n :
  sets_ok n → e ∈ elems (in_edges_ n) →
  ∃ n', erase_in e n = Some n' ∧ sets_ok n' ∧ core_node n' = core_node n ∧ out_edges_ n' = out_edges_ n ∧
    ∀ e', e' ∈ elems (in_edges_ n') ↔ e' ≠ e ∧ e' ∈ elems (in_edges_ n).
Proof.
  intros [Hi Ho] He. unfold erase_in. destruct (EdgeSet_erase e (in_edges_ n)) as [s k] eqn:E.
  destruct (erased_elems _ _ _ _ Hi He E) as (Hs&->&Hp&_). eexists. split; [done|]. by split_and!.
Qed.

(** A node of the heap is replaced by one with the same core. *)
Lemma update_node_core p f g g' :
  (∀ n n', f n = Some n' → core_node n' = core_node n) → update_node p f g = Some g' →
  same_nodes g g' ∧ edge_heap g' = edge_heap g ∧ edges_ g' = edges_ g ∧ num_edges_ g' = num_edges_ g ∧
  free_edges_ g' = free_edges_ g ∧ arena_ g' = arena_ g ∧
  ∃ n n', node_heap g !! p = Some n ∧ f n = Some n' ∧ node_heap g' = <[p := n']> (node_heap g).
Proof.
  intros Hf Hup. unfold update_node in Hup. destruct (node_heap g !! p) as [n|] eqn:Hn; [|done]. cbn in Hup.
  destruct (f n) as [n'|] eqn:En; [|done]. cbn in Hup. injection Hup as <-. split_and!; try done; [|by exists n, n'].
  split_and!; try done. intros q. cbn. destruct (decide (p = q)) as [<-|Hne].
  - rewrite lookup_insert_eq, Hn. cbn. by rewrite (Hf _ _ En).
  - by rewrite lookup_insert_ne.
Qed.

(** The heap after the edge [e] from [s] to [d] has been put into, or taken out of, the sets. *)
Definition relinked (P : Prop → Prop → Prop) (s d e : nat) (h h' : gmap nat Node) : Prop :=
  ∀ p, match h !! p, h' !! p with
       | Some n, Some n' =>
           sets_ok n' ∧ core_node n' = core_node n ∧
           (∀ e', e' ∈ elems (out_edges_ n') ↔ P (p = s ∧ e' = e) (e' ∈ elems (out_edges_ n))) ∧
           (∀ e', e' ∈ elems (in_edges_ n') ↔ P (p = d ∧ e' = e) (e' ∈ elems (in_edges_ n)))
       | None, None => True
       | _, _ => False
       end.

Definition added (new old : Prop) : Prop := new ∨ old.
Definition removed (gone old : Prop) : Prop := ¬ gone ∧ old.

Lemma link_ok g s d e :
  (∀ p n, node_heap g !! p = Some n → sets_ok n) →
  (∀ p n, node_heap g !! p = Some n → (e ∉ elems (out_edges_ n)) ∧ (e ∉ elems (in_edges_ n))) →
  is_Some (node_heap g !! s) → is_Some (node_heap g !! d) →
  ∃ g', (g1 ← update_node s (insert_out e) g; update_node d (insert_in e) g1) = Some g' ∧
    g' = set_node_heap (node_heap g') g ∧ relinked added s d e (node_heap g) (node_heap g').
Proof.
  intros Hok Hfresh [ns Hs] [nd Hd]. destruct (insert_out_ok e ns) as (ns'&E1&Hok1&Hc1&Hin1&Hout1); [by eapply Hok | by eapply Hfresh|].
  set (h1 := <[s := ns']> (node_heap g)).
  assert (update_node s (insert_out e) g = Some (set_node_heap h1 g)) as -> by (unfold update_node; rewrite Hs; cbn; by rewrite E1).
  assert (∃ n1, h1 !! d = Some n1 ∧ sets_ok n1 ∧ core_node n1 = core_node nd ∧ in_edges_ n1 = in_edges_ nd ∧
    ∀ e', e' ∈ elems (out_edges_ n1) ↔ added (d = s ∧ e' = e) (e' ∈ elems (out_edges_ nd))) as (n1&Hn1&Hok'&Hc'&Hin'&Hout').
  { unfold h1, added. destruct (decide (s = d)) as [<-|Hne].
    - rewrite lookup_insert_eq. exists ns'. rewrite Hs in Hd. injection Hd as <-. split_and!; try done.
      intros e'. rewrite Hout1. naive_solver.
    - rewrite lookup_insert_ne by done. exists nd. split_and!; try done; [by eapply Hok | naive_solver]. }
  destruct (insert_in_ok e n1) as (n2&E2&Hok2&Hc2&Hout2&Hin2); [done | rewrite Hin'; by eapply Hfresh|].
  unfold update_node. cbn. rewrite Hn1. cbn. rewrite E2. cbn. eexists. split; [done|]. split; [done|].
  cbn. intros p. destruct (decide (d = p)) as [<-|Hne].
  - rewrite lookup_insert_eq, Hd. split_and!; [done | congruence | |].
    + intros e'. rewrite Hout2. apply Hout'.
    + intros e'. rewrite Hin2, Hin'. unfold added. naive_solver.
  - rewrite lookup_insert_ne by done. unfold h1. destruct (decide (s = p)) as [<-|Hne'].
    + rewrite lookup_insert_eq, Hs. split_and!; [done | done | |].
      * intros e'. rewrite Hout1. unfold added. naive_solver.
      * intros e'. rewrite Hin1. unfold added. naive_solver.
    + rewrite lookup_insert_ne by done. destruct (node_heap g !! p) as [n|] eqn:Hn; [|done].
      split_and!; [by eapply Hok | done | |]; intros e'; unfold added; naive_solver.
Qed.

Lemma unlink_ok g s d e ns nd :
  (∀ p n, node_heap g !! p = Some n → sets_ok n) →
  node_heap g !! s = Some ns → node_heap g !! d = Some nd →
  e ∈ elems (out_edges_ ns) → e ∈ elems (in_edges_ nd) →
  ∃ g', (g1 ← update_node s (erase_out e) g; update_node d (erase_in e) g1) = Some g' ∧
    g' = set_node_heap (node_heap g') g ∧ relinked removed s d e (node_heap g) (node_heap g').
Proof.
  intros Hok Hs Hd Hes Hed. destruct (erase_out_ok e ns) as (ns'&E1&Hok1&Hc1&Hin1&Hout1); [by eapply Hok | done|].
  set (h1 := <[s := ns']> (node_heap g)).
  assert (update_node s (erase_out e) g = Some (set_node_heap h1 g)) as -> by (unfold update_node; rewrite Hs; cbn; by rewrite E1).
  assert (∃ n1, h1 !! d = Some n1 ∧ sets_ok n1 ∧ core_node n1 = core_node nd ∧ in_edges_ n1 = in_edges_ nd ∧
    ∀ e', e' ∈ elems (out_edges_ n1) ↔ removed (d = s ∧ e' = e) (e' ∈ elems (out_edges_ nd))) as (n1&Hn1&Hok'&Hc'&Hin'&Hout').
  { unfold h1, removed. destruct (decide (s = d)) as [<-|Hne].
    - rewrite lookup_insert_eq. exists ns'. rewrite Hs in Hd. injection Hd as <-. split_and!; try done.
      intros e'. rewrite Hout1. naive_solver.
    - rewrite lookup_insert_ne by done. exists nd. split_and!; try done; [by eapply Hok | naive_solver]. }
  destruct (erase_in_ok e n1) as (n2&E2&Hok2&Hc2&Hout2&Hin2); [done | by rewrite Hin'|].
  unfold update_node. cbn. rewrite Hn1. cbn. rewrite E2. cbn. eexists. split; [done|]. split; [done|].
  cbn. intros p. destruct (decide (d = p)) as [<-|Hne].
  - rewrite lookup_insert_eq, Hd. split_and!; [done | congruence | |].
    + intros e'. rewrite Hout2. apply Hout'.
    + intros e'. rewrite Hin2, Hin'. unfold removed. naive_solver.
  - rewrite lookup_insert_ne by done. unfold h1. destruct (decide (s = p)) as [<-|Hne'].
    + rewrite lookup_insert_eq, Hs. split_and!; [done | done | |].
      * intros e'. rewrite Hout1. unfold removed. naive_solver.
      * intros e'. rewrite Hin1. unfold removed. naive_solver.
    + rewrite lookup_insert_ne by done. destruct (node_heap g !! p) as [n|] eqn:Hn; [|done].
      split_and!; [by eapply Hok | done | |]; intros e'; unfold removed; naive_solver.
Qed.

Lemma relinked_core P s d e h h' p : relinked P s d e h h' → core_node <$> h' !! p = core_node <$> h !! p.
Proof.
  intros Hr. specialize (Hr p). destruct (h !! p), (h' !! p); try done. destruct Hr as (_&Hc&_). cbn. by rewrite Hc.
Qed.

Lemma relinked_back P s d e h h' p n' :
  relinked P s d e h h' → h' !! p = Some n' →
  ∃ n, h !! p = Some n ∧ sets_ok n' ∧ core_node n' = core_node n ∧
    (∀ e', e' ∈ elems (out_edges_ n') ↔ P (p = s ∧ e' = e) (e' ∈ elems (out_edges_ n))) ∧
    (∀ e', e' ∈ elems (in_edges_ n') ↔ P (p = d ∧ e' = e) (e' ∈ elems (in_edges_ n))).
Proof. intros Hr Hn'. specialize (Hr p). rewrite Hn' in Hr. destruct (h !! p) as [n|]; [|done]. exists n. tauto. Qed.

Lemma relinked_forth P s d e h h' p n :
  relinked P s d e h h' → h !! p = Some n → ∃ n', h' !! p = Some n' ∧ core_node n' = core_node n.
Proof. intros Hr Hn. specialize (Hr p). rewrite Hn in Hr. destruct (h' !! p) as [n'|]; [|done]. exists n'. tauto. Qed.

(** ** Adding an edge *)

Lemma is_edge_id g e i j : wf g → is_edge g e i → is_edge g e j → i = j.
Proof.
  intros Hw Hi Hj. destruct (w_edge _ Hw i e Hi) as (?&?&?&?&E1&_). destruct (w_edge _ Hw j e Hj) as (?&?&?&?&E2&_).
  rewrite E1 in E2. injection E2. lia.
Qed.

Lemma is_node_id g p i j : wf g → is_node g p i → is_node g p j → i = j.
Proof.
  intros Hw Hi Hj. destruct (w_node _ Hw i p Hi) as (n&E1&H1&_). destruct (w_node _ Hw j p Hj) as (n'&E2&H2&_).
  rewrite E1 in E2. injection E2 as <-. lia.
Qed.

Lemma live_node_heap g p : wf g → live_node g p → is_Some (node_heap g !! p).
Proof. intros Hw [i Hi]. destruct (w_node _ Hw i p Hi) as (n&->&_). eauto. Qed.

Theorem AddEdge_ok g s x d y :
  wf g → live_node g s → live_node g d →
  ∃ e g', AddEdge s x d y g = Some (e, g') ∧ wf g' ∧ same_nodes g g' ∧ ¬ live_edge g e ∧
    edges_ g' = edges_ g ++ [Some e] ∧
    edge_heap g' = <[e := mkEdge (Some s) (Some d) (Z.of_nat (length (edges_ g))) x y]> (edge_heap g).
Proof.
  intros Hw Hs Hd. unfold AddEdge.
  set (pick := match free_edges_ g with [] => _ | _ => _ end).
  assert (∃ e free a, pick = (e, free, set_arena a g) ∧ ¬ live_edge g e ∧ NoDup (e :: free) ∧
    (arena_ g ≤ a)%nat ∧ (e < a)%nat ∧ (∀ e', e' ∈ free → e' ∈ free_edges_ g)) as (e&free&a&->&He&Hnd&Ha&Hea&Hfree).
  { unfold pick. destruct (w_free_edges _ Hw) as [Hnd Hf]. destruct (free_edges_ g) as [|e rest] eqn:Ef.
    - exists (arena_ g), [], (S (arena_ g)). split_and!; [done | | by apply NoDup_singleton | lia | lia | done].
      intros [i Hi]. destruct (w_edge _ Hw i _ Hi) as (?&?&?&?&E&_).
      assert (arena_ g < arena_ g)%nat; [|lia]. apply (w_arena _ Hw). rewrite E. eauto.
    - exists e, rest, (arena_ g). destruct (Hf e) as [Hl He]; [left|]. split_and!; [by destruct g | done | done | lia | |].
      + by apply (w_arena _ Hw).
      + intros e' He'. by right. }
  cbn [fst snd]. set (E := mkEdge (Some s) (Some d) _ x y). set (g1 := set_edges _ _ _ free (set_arena a g)).
  destruct (link_ok g1 s d e) as (g2&E2&Hg2&Hr); [apply (w_sets _ Hw) | | exact (live_node_heap g s Hw Hs) | exact (live_node_heap g d Hw Hd)|].
  { intros p n Hn. destruct (w_linked _ Hw p n Hn) as [Ho Hi]. rewrite Ho, Hi. tauto. }
  cbn [edges_ set_arena]. fold g1. destruct (update_node s (insert_out e) g1) as [g1'|]; [|done]. cbn in E2 |- *. rewrite E2. cbn.
  eexists e, _. split; [done|]. rewrite Hg2. cbn. match goal with |- wf ?G ∧ _ => set (g' := G) end.
  assert (Hlive : ∀ e', live_edge g' e' ↔ e' = e ∨ live_edge g e').
  { intros e'. unfold live_edge, is_edge. cbn. split.
    - intros [i Hi]. apply lookup_app_Some in Hi as [Hi|[_ Hi]]; [eauto|].
      destruct (i - length (edges_ g))%nat as [|k]; [|by destruct k]. injection Hi as <-. by left.
    - intros [->|[i Hi]].
      + exists (length (edges_ g)). rewrite lookup_app_r by lia. by rewrite Nat.sub_diag.
      + exists i. by apply lookup_app_l_Some. }
  split_and!; [|split_and!; try done; intros p; cbn; by rewrite (relinked_core _ _ _ _ _ _ _ Hr) | done | done | done].
  split.
  - intros p n' Hn'. cbn in Hn'. destruct (relinked_back _ _ _ _ _ _ _ _ Hr Hn') as (n&_&Hok&_). done.
  - intros i p Hp. destruct (w_node _ Hw i p Hp) as (n&Hn&Hid&Hpr). destruct (relinked_forth _ _ _ _ _ _ _ _ Hr Hn) as (n'&Hn'&Hc).
    exists n'. split; [exact Hn'|]. unfold core_node in Hc. injection Hc as -> _ _ -> _ _. done.
  - intros p n' Hn'. cbn in Hn'. destruct (relinked_back _ _ _ _ _ _ _ _ Hr Hn') as (n&Hn&_&_&Hout&Hin).
    destruct (w_linked _ Hw p n Hn) as [Ho Hi]. split; intros e'; [rewrite Hout, Ho | rewrite Hin, Hi]; rewrite Hlive; cbn; unfold added;
      (destruct (decide (e' = e)) as [->|Hne]; [rewrite lookup_insert_eq; cbn; naive_solver | rewrite lookup_insert_ne by done; naive_solver]).
  - intros i e' Hi. unfold is_edge in Hi. cbn in Hi. apply lookup_app_Some in Hi as [Hi|[Hge Hi]].
    + destruct (w_edge _ Hw i e' Hi) as (s'&d'&x'&y'&HE&H1&H2). exists s', d', x', y'. split_and!; [|done|done].
      cbn. rewrite lookup_insert_ne; [done|]. intros <-. apply He. by exists i.
    + destruct (i - length (edges_ g))%nat as [|k] eqn:Ei; [|by destruct k]. injection Hi as <-. exists s, d, x, y. cbn.
      rewrite lookup_insert_eq. split_and!; [|done|done]. unfold E. cbn in Hge. replace i with (length (edges_ g)) by (cbn in Ei; lia). done.
  - destruct (w_free_nodes _ Hw) as [Hn1 Hn2]. split; [done|]. intros p Hp. cbn in *. destruct (Hn2 p Hp) as [Hl [n Hn]]. split; [done|].
    destruct (relinked_forth _ _ _ _ _ _ _ _ Hr Hn) as (n'&->&_). eauto.
  - split; [cbn; by apply NoDup_cons in Hnd as [_ ?]|]. intros e' He'. cbn in He'. rewrite Hlive.
    destruct (proj2 (w_free_edges _ Hw) e' (Hfree e' He')) as [Hl He2]. apply NoDup_cons in Hnd as [Hn _].
    assert (e' ≠ e) by (intros ->; done). split; [tauto|]. cbn. by rewrite lookup_insert_ne.
  - destruct (w_arena _ Hw) as [A1 A2]. split; cbn.
    + intros p [n' Hn']. destruct (relinked_back _ _ _ _ _ _ _ _ Hr Hn') as (n&Hn&_). assert (p < arena_ g)%nat by (apply A1; cbn in Hn; eauto). lia.
    + intros e' He'. destruct (decide (e' = e)) as [->|Hne]; [done|]. rewrite lookup_insert_ne in He' by done.
      assert (e' < arena_ g)%nat by (by apply A2). lia.
  - apply (w_num_nodes _ Hw).
  - cbn. rewrite omap_app, length_app, (w_num_edges _ Hw). cbn. lia.
Qed.

(** ** Removing an edge *)

Lemma omap_remove (l : list (option nat)) i e :
  l !! i = Some (Some e) → length (omap id l) = S (length (omap id (<[i := None]> l))).
Proof.
  intros Hi. rewrite (delete_Permutation _ _ _ Hi) at 1. rewrite (insert_Permutation _ _ _ None Hi). done.
Qed.

Lemma insert_none_Some (l : list (option nat)) i j e :
  <[i := None]> l !! j = Some (Some e) ↔ j ≠ i ∧ l !! j = Some (Some e).
Proof.
  destruct (decide (j = i)) as [->|Hne].
  - destruct (decide (i < length l)%nat) as [Hl|Hl].
    + rewrite list_lookup_insert_eq by done. naive_solver.
    + rewrite list_insert_ge by lia. rewrite lookup_ge_None_2 by lia. naive_solver.
  - rewrite list_lookup_insert_ne by done. naive_solver.
Qed.

Definition dead_edge : Edge := mkEdge None None (-1) (kControlSlot - 1) (kControlSlot - 1).

Theorem RemoveEdge_ok g e i :
  wf g → is_edge g e i →
  ∃ g', RemoveEdge e g = Some g' ∧ wf g' ∧ same_nodes g g' ∧ edges_ g' = <[i := None]> (edges_ g) ∧
    edge_heap g' = <[e := dead_edge]> (edge_heap g).
Proof.
  intros Hw Hi. destruct (w_edge _ Hw i e Hi) as (s&d&x&y&HE&Hs&Hd).
  destruct (live_node_heap _ _ Hw Hs) as [ns Hns]. destruct (live_node_heap _ _ Hw Hd) as [nd Hnd].
  destruct (unlink_ok g s d e ns nd (w_sets _ Hw) Hns Hnd) as (g2&E2&Hg2&Hr).
  { apply (w_linked _ Hw s ns Hns). split; [by exists i | by rewrite HE]. }
  { apply (w_linked _ Hw d nd Hnd). split; [by exists i | by rewrite HE]. }
  unfold RemoveEdge. rewrite HE. cbn. destruct (update_node s (erase_out e) g) as [g1|]; [|done]. cbn in E2 |- *. rewrite E2. cbn.
  rewrite Hg2. cbn. rewrite Nat2Z.id. pose proof (omap_remove _ _ _ Hi) as Hcount.
  rewrite bool_decide_true by done. rewrite (proj2 (Z.ltb_lt _ _)) by (rewrite (w_num_edges _ Hw); lia). cbn.
  eexists. split; [done|]. match goal with |- wf ?G ∧ _ => set (g' := G) end.
  assert (Hlive : ∀ e', live_edge g' e' ↔ e' ≠ e ∧ live_edge g e').
  { intros e'. unfold live_edge at 1, is_edge. cbn. setoid_rewrite insert_none_Some. split.
    - intros (j&Hj&Hl). split; [|by exists j]. intros ->. apply Hj. by eapply is_edge_id.
    - intros [Hne [j Hj]]. exists j. split; [|done]. intros ->. unfold is_edge in *. congruence. }
  split_and!; [|split_and!; try done; intros p; cbn; by rewrite (relinked_core _ _ _ _ _ _ _ Hr) | done | done].
  split.
  - intros p n' Hn'. cbn in Hn'. destruct (relinked_back _ _ _ _ _ _ _ _ Hr Hn') as (n&_&Hok&_). done.
  - intros j p Hp. destruct (w_node _ Hw j p Hp) as (n&Hn&Hid&Hpr). destruct (relinked_forth _ _ _ _ _ _ _ _ Hr Hn) as (n'&Hn'&Hc).
    exists n'. split; [exact Hn'|]. unfold core_node in Hc. injection Hc as -> _ _ -> _ _. done.
  - intros p n' Hn'. cbn in Hn'. destruct (relinked_back _ _ _ _ _ _ _ _ Hr Hn') as (n&Hn&_&_&Hout&Hin).
    destruct (w_linked _ Hw p n Hn) as [Ho Hi']. unfold removed in *. split; intros e'; [rewrite Hout, Ho | rewrite Hin, Hi']; rewrite Hlive; cbn;
      (destruct (decide (e' = e)) as [->|Hne]; [rewrite lookup_insert_eq, HE; cbn; naive_solver | rewrite lookup_insert_ne by done; naive_solver]).
  - intros j e' Hj. unfold is_edge in Hj. cbn in Hj. apply insert_none_Some in Hj as [Hne Hj].
    destruct (w_edge _ Hw j e' Hj) as (s'&d'&x'&y'&HE'&H1&H2). exists s', d', x', y'. split_and!; [|done|done].
    cbn. rewrite lookup_insert_ne; [done|]. intros <-. apply Hne. by eapply is_edge_id.
  - destruct (w_free_nodes _ Hw) as [Hn1 Hn2]. split; [done|]. intros p Hp. cbn in *. destruct (Hn2 p Hp) as [Hl [n Hn]]. split; [done|].
    destruct (relinked_forth _ _ _ _ _ _ _ _ Hr Hn) as (n'&->&_). eauto.
  - destruct (w_free_edges _ Hw) as [Hf1 Hf2]. split; cbn.
    + apply NoDup_cons. split; [|done]. intros He. destruct (Hf2 e He) as [[] _]. by exists i.
    + intros e' He'. rewrite Hlive. apply elem_of_cons in He' as [->|He'].
      * split; [tauto|]. rewrite lookup_insert_eq. eauto.
      * destruct (Hf2 e' He') as [Hl He2]. split; [tauto|]. destruct (decide (e' = e)) as [->|]; [rewrite lookup_insert_eq; eauto|].
        by rewrite lookup_insert_ne.
  - destruct (w_arena _ Hw) as [A1 A2]. split; cbn.
    + intros p [n' Hn']. destruct (relinked_back _ _ _ _ _ _ _ _ Hr Hn') as (n&Hn&_). apply A1. eauto.
    + intros e' He'. apply A2. destruct (decide (e' = e)) as [->|]; [rewrite HE; eauto|]. by rewrite lookup_insert_ne in He'.
  - apply (w_num_nodes _ Hw).
  - cbn. rewrite (w_num_edges _ Hw). lia.
Qed.

(** ** Nodes come and go *)

Theorem AllocateNode_ok g props cost :
  wf g →
  ∃ p g', AllocateNode props cost g = (p, g') ∧ wf g' ∧ nodes_ g' = nodes_ g ++ [Some p] ∧ ¬ live_node g p ∧
    edges_ g' = edges_ g ∧ edge_heap g' = edge_heap g ∧
    (∃ n, node_heap g' !! p = Some n ∧ props_ n = Some props ∧ id_ n = Z.of_nat (length (nodes_ g))) ∧
    ∀ q, q ≠ p → node_heap g' !! q = node_heap g !! q.
Proof.
  intros Hw. unfold AllocateNode.
  set (pick := match free_nodes_ g with [] => _ | _ => _ end).
  assert (∃ p n free a, pick = (p, n, free, set_arena a g) ∧ ¬ live_node g p ∧ NoDup (p :: free) ∧
    (arena_ g ≤ a)%nat ∧ (p < a)%nat ∧ (∀ q, q ∈ free → q ∈ free_nodes_ g) ∧ sets_ok n ∧ linked g p n)
    as (p&n&free&a&->&Hp&Hnd&Ha&Hpa&Hfree&Hok&Hlink).
  { unfold pick. destruct (w_free_nodes _ Hw) as [Hnd Hf]. destruct (free_nodes_ g) as [|p rest] eqn:Ef.
    - assert (Hp : ¬ live_node g (arena_ g)).
      { intros Hl%live_node_heap; [|done]. apply (w_arena _ Hw) in Hl. lia. }
      exists (arena_ g), new_Node, [], (S (arena_ g)). split_and!; [done.. | by apply NoDup_singleton | lia | lia | done | |].
      + split; apply new_spec.
      + destruct new_spec as [_ Hnil]. split; intros e; change (elems _) with (elems new_EdgeSet); rewrite Hnil; (split; [by intros ?%not_elem_of_nil|]); intros [[i Hi] He]; destruct Hp;
          destruct (w_edge _ Hw i e Hi) as (s&d&x&y&HE&Hs&Hd); rewrite HE in He; cbn in He; by injection He as <-.
    - destruct (Hf p) as [Hl [n Hn]]; [left|]. exists p, n, rest, (arena_ g). rewrite Hn. cbn. split_and!; [by destruct g | done | done | lia | | | |].
      + apply (proj1 (w_arena _ Hw)). by exists n.
      + intros q Hq. by right.
      + by apply (w_sets _ Hw p).
      + by apply (w_linked _ Hw). }
  cbn [nodes_ set_arena node_heap num_nodes_]. set (n' := Initialize _ _ props n). eexists p, _. split; [done|].
  split_and!; [|done|done|done|done| |].
  2: { exists n'. cbn. by rewrite lookup_insert_eq. }
  2: { intros q Hq. cbn. by rewrite lookup_insert_ne. }
  match goal with |- wf ?G => set (g' := G) end.
  assert (Hlive : ∀ q, live_node g' q ↔ q = p ∨ live_node g q).
  { intros q. unfold live_node, is_node. cbn. split.
    - intros [i Hi]. apply lookup_app_Some in Hi as [Hi|[_ Hi]]; [eauto|].
      destruct (i - length (nodes_ g))%nat as [|k]; [|by destruct k]. injection Hi as <-. by left.
    - intros [->|[i Hi]].
      + exists (length (nodes_ g)). rewrite lookup_app_r by lia. by rewrite Nat.sub_diag.
      + exists i. by apply lookup_app_l_Some. }
  split; cbn.
  - intros q m Hm. cbn in Hm. apply lookup_insert_Some in Hm as [[<- <-]|[_ Hm]]; [done | by apply (w_sets _ Hw q)].
  - intros i q Hi. unfold is_node in Hi. cbn in Hi. apply lookup_app_Some in Hi as [Hi|[Hge Hi]].
    + destruct (w_node _ Hw i q Hi) as (m&Hm&?&?). exists m. cbn. rewrite lookup_insert_ne; [done|]. intros <-. destruct Hp. by exists i.
    + destruct (i - length (nodes_ g))%nat as [|k] eqn:Ei; [|by destruct k]. injection Hi as <-. exists n'. cbn. rewrite lookup_insert_eq.
      split_and!; [done | cbn; lia | by eexists].
  - intros q m Hm. cbn in Hm. apply lookup_insert_Some in Hm as [[<- <-]|[_ Hm]]; [exact Hlink | by apply (w_linked _ Hw)].
  - intros i e Hi. destruct (w_edge _ Hw i e Hi) as (s&d&x&y&HE&Hs&Hd). exists s, d, x, y. rewrite !Hlive. auto.
  - split; [by apply NoDup_cons in Hnd as [_ ?]|]. intros q Hq. rewrite Hlive.
    destruct (proj2 (w_free_nodes _ Hw) q (Hfree q Hq)) as [Hl Hq2]. apply NoDup_cons in Hnd as [Hn _].
    assert (q ≠ p) by (intros ->; done). split; [tauto|]. by rewrite lookup_insert_ne.
  - apply (w_free_edges _ Hw).
  - destruct (w_arena _ Hw) as [A1 A2]. split.
    + intros q Hq. destruct (decide (q = p)) as [->|Hne]; [done|]. rewrite lookup_insert_ne in Hq by done.
      assert (q < arena_ g)%nat by (by apply A1). lia.
    + intros e He. assert (e < arena_ g)%nat by (by apply A2). lia.
  - rewrite omap_app, length_app, (w_num_nodes _ Hw). cbn. lia.
  - apply (w_num_edges _ Hw).
Qed.

Lemma ReleaseNode_ok g p i n :
  wf g → is_node g p i → node_heap g !! p = Some n → elems (in_edges_ n) = [] → elems (out_edges_ n) = [] →
  ∃ g', ReleaseNode p g = Some g' ∧ wf g' ∧ nodes_ g' = <[i := None]> (nodes_ g) ∧ edges_ g' = edges_ g ∧
    edge_heap g' = edge_heap g ∧ ∀ q, q ≠ p → node_heap g' !! q = node_heap g !! q.
Proof.
  intros Hw Hi Hn Hin Hout. unfold ReleaseNode. rewrite Hn. cbn.
  destruct (w_node _ Hw i p Hi) as (n0&Hn0&Hid&_). rewrite Hn in Hn0. injection Hn0 as <-. rewrite Hid, Nat2Z.id.
  destruct (w_linked _ Hw p n Hn) as [Ho Hi']. rewrite Hin in Hi'. rewrite Hout in Ho.
  eexists. split; [done|]. split_and!; [|done|done|done|].
  2: { intros q Hq. cbn. by rewrite lookup_insert_ne. }
  match goal with |- wf ?G => set (g' := G) end.
  assert (Hlive : ∀ q, live_node g' q ↔ q ≠ p ∧ live_node g q).
  { intros q. unfold live_node at 1, is_node. cbn. setoid_rewrite insert_none_Some. split.
    - intros (j&Hj&Hl). split; [|by exists j]. intros ->. apply Hj. by eapply is_node_id.
    - intros [Hne [j Hj]]. exists j. split; [|done]. intros ->. unfold is_node in *. congruence. }
  pose proof (omap_remove _ _ _ Hi) as Hcount.
  split; cbn.
  - intros q m Hm. cbn in Hm. apply lookup_insert_Some in Hm as [[<- <-]|[_ Hm]]; [|by apply (w_sets _ Hw q)].
    split; apply clear_spec.
  - intros j q Hj. unfold is_node in Hj. cbn in Hj. apply insert_none_Some in Hj as [Hne Hj].
    destruct (w_node _ Hw j q Hj) as (m&Hm&?&?). exists m. cbn. rewrite lookup_insert_ne; [done|]. intros <-. apply Hne. by eapply is_node_id.
  - intros q m Hm. cbn in Hm. apply lookup_insert_Some in Hm as [[<- <-]|[_ Hm]]; [|by apply (w_linked _ Hw)].
    split; intros e; [exact (Ho e) | exact (Hi' e)].
  - intros j e Hj. destruct (w_edge _ Hw j e Hj) as (s&d&x&y&HE&Hs&Hd). exists s, d, x, y. rewrite !Hlive.
    split_and!; try done; intros ->.
    + apply (not_elem_of_nil e), Ho. split; [by exists j | by rewrite HE].
    + apply (not_elem_of_nil e), Hi'. split; [by exists j | by rewrite HE].
  - destruct (w_free_nodes _ Hw) as [Hf1 Hf2]. split.
    + apply NoDup_cons. split; [|done]. intros Hp. destruct (Hf2 p Hp) as [[] _]. by exists i.
    + intros q Hq. rewrite Hlive. apply elem_of_cons in Hq as [->|Hq].
      * split; [tauto|]. rewrite lookup_insert_eq. eauto.
      * destruct (Hf2 q Hq) as [Hl Hq2]. split; [tauto|]. destruct (decide (q = p)) as [->|]; [rewrite lookup_insert_eq; eauto|].
        by rewrite lookup_insert_ne.
  - apply (w_free_edges _ Hw).
  - destruct (w_arena _ Hw) as [A1 A2]. split; [|done]. intros q Hq. apply A1.
    destruct (decide (q = p)) as [->|]; [rewrite Hn; eauto|]. by rewrite lookup_insert_ne in Hq.
  - rewrite (w_num_nodes _ Hw). lia.
  - apply (w_num_edges _ Hw).
Qed.
