(* ===== verification/GraphOps.v ===== *)
(** * Graphs refine their ids

    What a client of a [Graph] may rely on, with nodes and edges known by their ids
    and no addresses: the specification [Spec], the abstraction of a graph, and the
    theorem that the operations of [Graph] implement those of the specification,
    although addresses are used again and the sets of edges are kept twice. *)
From S2P Require Import Prelude Numbers Status EdgeSet Graph GraphInvariant.
Local Open Scope Z_scope.

(** ** The specification *)

(** An edge: the id of its source, the output, the id of its destination, the input. *)
Definition Arc : Type := nat * Z * nat * Z.
Definition arc_src (a : Arc) : nat := a.1.1.1.
Definition arc_out (a : Arc) : Z := a.1.1.2.
Definition arc_dst (a : Arc) : nat := a.1.2.
Definition arc_in (a : Arc) : Z := a.2.

Record Spec := mkSpec {
  s_nodes : list (option NodeProperties);
  s_arcs : list (option Arc) }.

Definition spec_node (sg : Spec) (i : nat) : option NodeProperties := mjoin (s_nodes sg !! i).
Definition spec_arc (sg : Spec) (k : nat) : option Arc := mjoin (s_arcs sg !! k).

Definition drop_arcs (P : Arc → bool) (l : list (option Arc)) : list (option Arc) :=
  (λ o, a ← o; if P a then None else Some a) <$> l.

Definition touches (i : nat) (a : Arc) : bool := Nat.eqb (arc_dst a) i || Nat.eqb (arc_src a) i.

(** ** The abstraction *)

Definition node_props (g : Graph) (p : nat) : option NodeProperties := node_heap g !! p ≫= props_.
Definition node_id (g : Graph) (p : nat) : option nat := (λ n, Z.to_nat (id_ n)) <$> node_heap g !! p.

Definition arc_of (g : Graph) (e : nat) : option Arc :=
  E ← edge_heap g !! e;
  s ← src_ E ≫= node_id g;
  d ← dst_ E ≫= node_id g;
  Some (s, src_output_ E, d, dst_input_ E).

Definition abs_nodes (g : Graph) : list (option NodeProperties) := (λ o, o ≫= node_props g) <$> nodes_ g.
Definition abs_arcs (g : Graph) : list (option Arc) := (λ o, o ≫= arc_of g) <$> edges_ g.

Definition abs (g : Graph) : Spec := mkSpec (abs_nodes g) (abs_arcs g).

Lemma core_props g g' p :
  core_node <$> node_heap g' !! p = core_node <$> node_heap g !! p → node_props g' p = node_props g p.
Proof. unfold node_props. destruct (node_heap g' !! p), (node_heap g !! p); cbn; intros [=]; auto. Qed.

Lemma core_id g g' p :
  core_node <$> node_heap g' !! p = core_node <$> node_heap g !! p → node_id g' p = node_id g p.
Proof. unfold node_id. destruct (node_heap g' !! p), (node_heap g !! p); cbn; intros [=]; congruence. Qed.

Lemma arc_of_same g g' e :
  edge_heap g' !! e = edge_heap g !! e → (∀ p, live_node g p → node_id g' p = node_id g p) →
  (∀ E p, edge_heap g !! e = Some E → src_ E = Some p ∨ dst_ E = Some p → live_node g p) →
  arc_of g' e = arc_of g e.
Proof.
  intros He Hid Hl. unfold arc_of. rewrite He. destruct (edge_heap g !! e) as [E|]; [|done]. cbn.
  destruct (src_ E) as [s|] eqn:Hs, (dst_ E) as [d|] eqn:Hd; cbn; rewrite ?Hid; try done; eapply Hl; eauto.
Qed.

Lemma live_ends g i e : wf g → is_edge g e i → ∀ E p, edge_heap g !! e = Some E → src_ E = Some p ∨ dst_ E = Some p → live_node g p.
Proof.
  intros Hw Hi E p HE Hp. destruct (w_edge _ Hw i e Hi) as (s&d&x&y&HE'&Hs&Hd). rewrite HE in HE'. injection HE' as ->.
  cbn in Hp. destruct Hp as [[= <-]|[= <-]]; done.
Qed.

Lemma node_id_is g p i : wf g → is_node g p i → node_id g p = Some i.
Proof. intros Hw Hi. destruct (w_node _ Hw i p Hi) as (n&Hn&Hid&_). unfold node_id. rewrite Hn. cbn. rewrite Hid. f_equal. lia. Qed.

Lemma arc_of_is g e k :
  wf g → is_edge g e k → ∃ s d x y i j, edge_heap g !! e = Some (mkEdge (Some s) (Some d) (Z.of_nat k) x y) ∧
    is_node g s i ∧ is_node g d j ∧ arc_of g e = Some (i, x, j, y).
Proof.
  intros Hw Hk. destruct (w_edge _ Hw k e Hk) as (s&d&x&y&HE&[i Hi]&[j Hj]). exists s, d, x, y, i, j.
  split_and!; try done. unfold arc_of. rewrite HE. cbn. rewrite (node_id_is _ _ _ Hw Hi), (node_id_is _ _ _ Hw Hj). done.
Qed.

(** The abstraction at an id. *)
Lemma abs_node_at g i : spec_node (abs g) i = mjoin (nodes_ g !! i) ≫= node_props g.
Proof. unfold spec_node, abs, abs_nodes. cbn. rewrite list_lookup_fmap. by destruct (nodes_ g !! i) as [[p|]|]. Qed.

Lemma abs_arc_at g k : spec_arc (abs g) k = mjoin (edges_ g !! k) ≫= arc_of g.
Proof. unfold spec_arc, abs, abs_arcs. cbn. rewrite list_lookup_fmap. by destruct (edges_ g !! k) as [[e|]|]. Qed.

Lemma spec_node_is g i :
  wf g → is_Some (spec_node (abs g) i) ↔ ∃ p, is_node g p i.
Proof.
  intros Hw. rewrite abs_node_at. unfold is_node. destruct (nodes_ g !! i) as [[p|]|] eqn:Hi; cbn.
  - destruct (w_node _ Hw i p Hi) as (n&Hn&_&Hp). unfold node_props. rewrite Hn. cbn. naive_solver.
  - split; [by intros [? ?] | by intros (?&?)].
  - split; [by intros [? ?] | by intros (?&?)].
Qed.

Lemma spec_arc_is g k a :
  wf g → spec_arc (abs g) k = Some a → ∃ e, is_edge g e k ∧ arc_of g e = Some a.
Proof. intros Hw Ha. rewrite abs_arc_at in Ha. unfold is_edge. destruct (edges_ g !! k) as [[e|]|]; naive_solver. Qed.

(** ** Edges *)

Lemma same_nodes_abs g g' : same_nodes g g' → abs_nodes g' = abs_nodes g.
Proof.
  intros (Hn&_&_&Hc). unfold abs_nodes. rewrite Hn. apply list_fmap_ext. intros _ [p|] _; cbn; [|done]. by apply core_props.
Qed.

Lemma AddEdge_abs g s x d y i j :
  wf g → is_node g s i → is_node g d j →
  ∃ e g', AddEdge s x d y g = Some (e, g') ∧ wf g' ∧ same_nodes g g' ∧ is_edge g' e (length (edges_ g)) ∧
    abs g' = mkSpec (abs_nodes g) (abs_arcs g ++ [Some (i, x, j, y)]).
Proof.
  intros Hw Hi Hj. destruct (AddEdge_ok g s x d y Hw) as (e&g'&E&Hw'&Hsame&Hfresh&Hedges&Hheap); [by eexists.. |].
  exists e, g'. split_and!; [done.. | |].
  { unfold is_edge. rewrite Hedges, lookup_app_r, Nat.sub_diag by lia. done. }
  unfold abs. rewrite (same_nodes_abs _ _ Hsame). f_equal. unfold abs_arcs. rewrite Hedges, fmap_app. destruct Hsame as (Hn&_&_&Hc). f_equal.
  - apply list_fmap_ext. intros k [e'|] Hk; cbn; [|done]. apply arc_of_same; [| intros p _; by apply core_id | by eapply live_ends].
    rewrite Hheap, lookup_insert_ne; [done|]. intros <-. apply Hfresh. by exists k.
  - cbn. unfold arc_of. rewrite Hheap, lookup_insert_eq. cbn. rewrite !(core_id g g' _ (Hc _)).
    by rewrite (node_id_is _ _ _ Hw Hi), (node_id_is _ _ _ Hw Hj).
Qed.

Lemma RemoveEdge_abs g e k :
  wf g → is_edge g e k →
  ∃ g', RemoveEdge e g = Some g' ∧ wf g' ∧ same_nodes g g' ∧ ¬ live_edge g' e ∧
    (∀ e', e' ≠ e → edge_heap g' !! e' = edge_heap g !! e') ∧
    abs g' = mkSpec (abs_nodes g) (<[k := None]> (abs_arcs g)).
Proof.
  intros Hw Hk. destruct (RemoveEdge_ok g e k Hw Hk) as (g'&E&Hw'&Hsame&Hedges&Hheap).
  assert (Hgone : ¬ live_edge g' e).
  { intros [j Hj]. destruct (w_edge _ Hw' j e Hj) as (?&?&?&?&HE&_). by rewrite Hheap, lookup_insert_eq in HE. }
  exists g'. split_and!; [done.. | |].
  { intros e' Hne. by rewrite Hheap, lookup_insert_ne. }
  unfold abs. rewrite (same_nodes_abs _ _ Hsame). f_equal. unfold abs_arcs. rewrite Hedges.
  change None with ((λ o, o ≫= arc_of g) (@None nat)) at 2. rewrite <- list_fmap_insert. apply list_fmap_ext.
  intros j [e'|] Hj; cbn; [|done]. destruct Hsame as (Hn&_&_&Hc). apply insert_none_Some in Hj as [Hne Hj].
  apply arc_of_same; [| intros p _; by apply core_id | by eapply live_ends].
  rewrite Hheap, lookup_insert_ne; [done|]. intros <-. apply Hne. exact (is_edge_id g _ _ _ Hw Hj Hk).
Qed.

(** ** Removing a node *)

(** The two sets of a node, and the end of an edge each is about. *)
Definition set_at (d : bool) : Node → EdgeSet := if d then in_edges_ else out_edges_.
Definition end_at (d : bool) (a : Arc) : nat := if d then arc_dst a else arc_src a.

Lemma set_at_ok g p i n d :
  wf g → is_node g p i → node_heap g !! p = Some n →
  EdgeSet_wf (set_at d n) ∧
  ∀ e, e ∈ elems (set_at d n) ↔ ∃ k a, is_edge g e k ∧ arc_of g e = Some a ∧ end_at d a = i.
Proof.
  intros Hw Hi Hn. destruct (w_sets _ Hw p n Hn) as [Hs1 Hs2]. destruct (w_linked _ Hw p n Hn) as [Ho Hin].
  split; [by destruct d|]. intros e.
  assert (e ∈ elems (set_at d n) ↔ live_edge g e ∧ edge_heap g !! e ≫= (if d then dst_ else src_) = Some p) as -> by (by destruct d).
  split.
  - intros [[k Hk] He]. destruct (arc_of_is g e k Hw Hk) as (s&t&x&y&si&ti&HE&His&Hit&Ha). exists k, (si, x, ti, y).
    split_and!; [done | done|]. rewrite HE in He. destruct d; cbn in *; injection He as ->; eauto using is_node_id.
  - intros (k&a&Hk&Ha&He). split; [by exists k|]. destruct (arc_of_is g e k Hw Hk) as (s&t&x&y&si&ti&HE&His&Hit&Ha').
    rewrite Ha' in Ha. injection Ha as <-. rewrite HE. unfold is_node in *. destruct d; cbn in *; subst i; congruence.
Qed.

Lemma drop_arcs_none P l : (∀ k a, l !! k = Some (Some a) → P a = false) → drop_arcs P l = l.
Proof.
  intros HP. rewrite <- (list_fmap_id l) at 2. apply list_fmap_ext. intros k [a|] Hk; cbn; [|done]. by rewrite (HP k a).
Qed.

Lemma drop_arcs_insert P l k a : l !! k = Some (Some a) → P a = true → drop_arcs P (<[k := None]> l) = drop_arcs P l.
Proof.
  intros Hk Ha. unfold drop_arcs. rewrite list_fmap_insert. apply list_insert_id. rewrite list_lookup_fmap, Hk. cbn. by rewrite Ha.
Qed.

Lemma abs_arcs_at g k a : wf g → abs_arcs g !! k = Some (Some a) ↔ ∃ e, is_edge g e k ∧ arc_of g e = Some a.
Proof.
  intros Hw. unfold abs_arcs, is_edge. rewrite list_lookup_fmap. destruct (edges_ g !! k) as [[e|]|]; cbn.
  - split; [intros [= Ha]; eauto | by intros (e'&[= <-]&->)].
  - split; [done | by intros (e'&?&_)].
  - split; [done | by intros (e'&?&_)].
Qed.

Lemma same_nodes_is g g' p i : same_nodes g g' → is_node g' p i ↔ is_node g p i.
Proof. intros (Hn&_). unfold is_node. by rewrite Hn. Qed.

Lemma same_nodes_trans g1 g2 g3 : same_nodes g1 g2 → same_nodes g2 g3 → same_nodes g1 g3.
Proof.
  intros (A1&A2&A3&A4) (B1&B2&B3&B4). split_and!; [congruence.. |]. intros p. by rewrite B4.
Qed.

Lemma same_nodes_refl g : same_nodes g g.
Proof. by split_and!. Qed.

Lemma remove_edges_ok d i fuel g p n :
  wf g → is_node g p i → node_heap g !! p = Some n → (length (elems (set_at d n)) ≤ fuel)%nat →
  ∃ g', remove_edges fuel (set_at d) p g = Some g' ∧ wf g' ∧ same_nodes g g' ∧
    abs g' = mkSpec (abs_nodes g) (drop_arcs (λ a, Nat.eqb (end_at d a) i) (abs_arcs g)).
Proof.
  revert g n. induction fuel as [|fuel IH]; intros g n Hw Hi Hn Hlen; destruct (set_at_ok g p i n d Hw Hi Hn) as [Hs He].
  all: cbn [remove_edges]; rewrite Hn; cbn [mbind option_bind]; destruct (elems (set_at d n)) as [|e l] eqn:Hel.
  1, 3: rewrite (proj2 (empty_spec _ Hs)) by done; exists g; split_and!; [done | done | apply same_nodes_refl|];
    unfold abs; f_equal; symmetry; apply drop_arcs_none; intros k a (e&Hk&Ha)%abs_arcs_at; [|done];
    apply Nat.eqb_neq; intros Hend; apply (not_elem_of_nil e), He; eauto.
  { cbn in Hlen. lia. }
  assert (EdgeSet_empty (set_at d n) = false) as ->.
  { apply not_true_iff_false. intros Hemp%empty_spec; [|done]. congruence. }
  rewrite range_elems, Hel by done. cbn [fmap list_fmap head mjoin option_join mbind option_bind].
  destruct (proj1 (He e)) as (k&a&Hk&Ha&Hend); [left|].
  destruct (RemoveEdge_abs g e k Hw Hk) as (g1&E1&Hw1&Hsame1&Hgone&_&Habs1). rewrite E1. cbn [mbind option_bind].
  pose proof (proj2 (same_nodes_is _ _ p i Hsame1) Hi) as Hi1. destruct (w_node _ Hw1 i p Hi1) as (n1&Hn1&_).
  destruct (set_at_ok g1 p i n1 d Hw1 Hi1 Hn1) as [Hs1 He1]. injection Habs1 as Hnodes1 Harcs1.
  destruct (IH g1 n1 Hw1 Hi1 Hn1) as (g'&E'&Hw'&Hsame'&Habs').
  - assert (e :: elems (set_at d n1) ⊆+ e :: l) as Hsub; [|apply submseteq_length in Hsub; cbn in *; lia].
    apply NoDup_submseteq.
    + apply NoDup_cons. split; [|by apply elems_nodup]. intros (k1&a1&Hk1&_)%He1. apply Hgone. by exists k1.
    + intros e' [->|He']%elem_of_cons; [left|]. apply He1 in He' as (k1&a1&Hk1&Ha1&Hend1).
      apply He. assert (abs_arcs g1 !! k1 = Some (Some a1)) as Hat by (apply abs_arcs_at; eauto).
      rewrite Harcs1 in Hat. apply list_lookup_insert_Some in Hat as [(_&?&_)|[Hne Hat]]; [done|].
      destruct (proj1 (abs_arcs_at g k1 a1 Hw) Hat) as (e2&Hk2&Ha2).
      destruct (RemoveEdge_ok g e k Hw Hk) as (g1'&E1'&_&_&Hedges&_). rewrite E1 in E1'. injection E1' as <-.
      unfold is_edge in *. rewrite Hedges in Hk1. apply insert_none_Some in Hk1 as [_ Hk1]. rewrite Hk1 in Hk2. injection Hk2 as <-. eauto.
  - exists g'. split_and!; [done | done | by eapply same_nodes_trans|]. rewrite Habs', Hnodes1, Harcs1. f_equal.
    eapply drop_arcs_insert; [apply abs_arcs_at; eauto|]. by apply Nat.eqb_eq.
Qed.

Lemma drop_arcs_or P Q l : drop_arcs Q (drop_arcs P l) = drop_arcs (λ a, P a || Q a) l.
Proof.
  unfold drop_arcs. rewrite <- list_fmap_compose. apply list_fmap_ext. intros _ [a|] _; cbn; [|done]. by destruct (P a).
Qed.

(** [RemoveNode] removes the node and the edges at it, and nothing else. *)
Lemma RemoveNode_abs g p i :
  wf g → is_node g p i →
  ∃ g', RemoveNode p g = Some g' ∧ wf g' ∧ nodes_ g' = <[i := None]> (nodes_ g) ∧
    abs g' = mkSpec (<[i := None]> (abs_nodes g)) (drop_arcs (touches i) (abs_arcs g)).
Proof.
  intros Hw Hi. unfold RemoveNode. destruct (w_node _ Hw i p Hi) as (n&Hn&_). rewrite Hn. cbn [mbind option_bind].
  destruct (set_at_ok g p i n true Hw Hi Hn) as [Hs _]. change in_edges_ with (set_at true). rewrite (size_elems _ Hs).
  destruct (remove_edges_ok true i _ g p n Hw Hi Hn (le_n _)) as (g1&E1&Hw1&Hsame1&Habs1). rewrite E1. cbn [mbind option_bind].
  pose proof (proj2 (same_nodes_is _ _ p i Hsame1) Hi) as Hi1. destruct (w_node _ Hw1 i p Hi1) as (n1&Hn1&_). rewrite Hn1. cbn [mbind option_bind].
  destruct (set_at_ok g1 p i n1 false Hw1 Hi1 Hn1) as [Hs1 _]. change out_edges_ with (set_at false). rewrite (size_elems _ Hs1).
  destruct (remove_edges_ok false i _ g1 p n1 Hw1 Hi1 Hn1 (le_n _)) as (g2&E2&Hw2&Hsame2&Habs2). rewrite E2. cbn [mbind option_bind].
  pose proof (proj2 (same_nodes_is _ _ p i Hsame2) Hi1) as Hi2. destruct (w_node _ Hw2 i p Hi2) as (n2&Hn2&_).
  injection Habs1 as Hnodes1 Harcs1. injection Habs2 as Hnodes2 Harcs2. rewrite Harcs1, drop_arcs_or in Harcs2. rewrite Hnodes1 in Hnodes2.
  assert (Hnone : ∀ d, elems (set_at d n2) = []).
  { intros d. destruct (elems (set_at d n2)) as [|e l] eqn:Hel; [done|]. exfalso.
    destruct (proj1 (proj2 (set_at_ok g2 p i n2 d Hw2 Hi2 Hn2) e)) as (k&a&Hk&Ha&Hend); [rewrite Hel; left|].
    assert (abs_arcs g2 !! k = Some (Some a)) as Hat by (apply abs_arcs_at; eauto).
    rewrite Harcs2 in Hat. unfold drop_arcs in Hat. rewrite list_lookup_fmap in Hat. destruct (abs_arcs g !! k) as [[b|]|]; [|done..].
    cbn in Hat. destruct (Nat.eqb (arc_dst b) i) eqn:H1; [done|]. destruct (Nat.eqb (arc_src b) i) eqn:H2; [done|]. cbn in Hat. injection Hat as ->.
    apply Nat.eqb_neq in H1, H2. by destruct d. }
  destruct (ReleaseNode_ok g2 p i n2 Hw2 Hi2 Hn2 (Hnone true) (Hnone false)) as (g'&E'&Hw'&Hnodes'&Hedges'&Hheap'&Hother').
  exists g'. split_and!; [done | done | by rewrite Hnodes', (proj1 Hsame2), (proj1 Hsame1)|].
  assert (∀ q j, is_node g2 q j → j ≠ i → node_heap g' !! q = node_heap g2 !! q) as Hq.
  { intros q j Hj Hne. apply Hother'. intros ->. apply Hne. exact (is_node_id _ _ _ _ Hw2 Hj Hi2). }
  unfold abs. f_equal.
  - rewrite <- Hnodes2. unfold abs_nodes. rewrite Hnodes'. change None with ((λ o, o ≫= node_props g2) (@None nat)) at 2.
    rewrite <- list_fmap_insert. apply list_fmap_ext. intros j [q|] Hj; cbn; [|done]. apply insert_none_Some in Hj as [Hne Hj].
    unfold node_props. by rewrite (Hq q j).
  - change (drop_arcs (touches i) _) with (drop_arcs (λ a, Nat.eqb (arc_dst a) i || Nat.eqb (arc_src a) i) (abs_arcs g)).
    rewrite <- Harcs2. unfold abs_arcs. rewrite Hedges'. apply list_fmap_ext. intros k [e|] Hk; cbn; [|done].
    destruct (arc_of_is g' e k Hw') as (s&t&x&y&si&ti&HE&Hsi&Hti&_); [unfold is_edge; by rewrite Hedges'|].
    unfold is_node in Hsi, Hti. rewrite Hnodes' in Hsi, Hti. apply insert_none_Some in Hsi as [Hne1 Hsi]. apply insert_none_Some in Hti as [Hne2 Hti].
    unfold arc_of, node_id. rewrite Hheap' in *. rewrite HE. cbn. by rewrite (Hq s si), (Hq t ti).
Qed.

(** ** Adding nodes *)

Lemma AllocateNode_abs g props cost :
  wf g →
  ∃ p g', AllocateNode props cost g = (p, g') ∧ wf g' ∧ is_node g' p (length (nodes_ g)) ∧
    (∃ n, node_heap g' !! p = Some n ∧ props_ n = Some props) ∧
    abs g' = mkSpec (abs_nodes g ++ [Some props]) (abs_arcs g).
Proof.
  intros Hw. destruct (AllocateNode_ok g props cost Hw) as (p&g'&E&Hw'&Hnodes&Hp&Hedges&Hheap&(n&Hn&Hprops&_)&Hother).
  exists p, g'. split_and!; [done | done | | by eexists|].
  { unfold is_node. rewrite Hnodes, lookup_app_r, Nat.sub_diag by lia. done. }
  assert (∀ q, live_node g q → node_heap g' !! q = node_heap g !! q) as Hq.
  { intros q Hq. apply Hother. by intros ->. }
  unfold abs. f_equal.
  - unfold abs_nodes. rewrite Hnodes, fmap_app. f_equal.
    + apply list_fmap_ext. intros i [q|] Hi; cbn; [|done]. unfold node_props. rewrite Hq; [done | by exists i].
    + cbn. unfold node_props. rewrite Hn. cbn. by rewrite Hprops.
  - unfold abs_arcs. rewrite Hedges. apply list_fmap_ext. intros k [e|] Hk; cbn; [|done].
    apply arc_of_same; [by rewrite Hheap | | by eapply live_ends]. intros q Hl. unfold node_id. by rewrite Hq.
Qed.

(** A node is replaced by one with the same id and the same sets. *)
Lemma replace_node_ok g p i n n' props :
  wf g → is_node g p i → node_heap g !! p = Some n →
  id_ n' = id_ n → in_edges_ n' = in_edges_ n → out_edges_ n' = out_edges_ n → props_ n' = Some props →
  let g' := set_node_heap (<[p := n']> (node_heap g)) g in
  wf g' ∧ abs g' = mkSpec (<[i := Some props]> (abs_nodes g)) (abs_arcs g).
Proof.
  intros Hw Hi Hn Hid Hin Hout Hprops g'.
  assert (Hback : ∀ q m', node_heap g' !! q = Some m' → ∃ m, node_heap g !! q = Some m ∧ id_ m' = id_ m ∧
    in_edges_ m' = in_edges_ m ∧ out_edges_ m' = out_edges_ m).
  { intros q m' Hm'. cbn in Hm'. apply lookup_insert_Some in Hm' as [[<- <-]|[_ Hm']]; eauto. }
  assert (Hids : ∀ q, node_id g' q = node_id g q).
  { intros q. unfold node_id. cbn. destruct (decide (p = q)) as [<-|Hne].
    - rewrite lookup_insert_eq, Hn. cbn. by rewrite Hid.
    - by rewrite lookup_insert_ne. }
  split.
  - split.
    + intros q m' (m&Hm&_&H1&H2)%Hback. unfold sets_ok. rewrite H1, H2. by apply (w_sets _ Hw q).
    + intros j q Hj. destruct (w_node _ Hw j q Hj) as (m&Hm&Hmid&Hmp). cbn. destruct (decide (p = q)) as [<-|Hne].
      * rewrite lookup_insert_eq. rewrite Hn in Hm. injection Hm as <-. exists n'. rewrite Hid, Hprops. eauto.
      * rewrite lookup_insert_ne by done. eauto.
    + intros q m' (m&Hm&_&H1&H2)%Hback. unfold linked. rewrite H1, H2. by apply (w_linked _ Hw q).
    + apply (w_edge _ Hw).
    + destruct (w_free_nodes _ Hw) as [F1 F2]. split; [done|]. intros q Hq. destruct (F2 q Hq) as [Hl Hs]. split; [done|]. cbn.
      by apply lookup_insert_is_Some'; right.
    + apply (w_free_edges _ Hw).
    + destruct (w_arena _ Hw) as [A1 A2]. split; [|done]. intros q [m' (m&Hm&_)%Hback]. apply A1. by exists m.
    + apply (w_num_nodes _ Hw).
    + apply (w_num_edges _ Hw).
  - unfold abs. f_equal.
    + unfold abs_nodes. cbn. apply list_eq. intros j. destruct (decide (j = i)) as [->|Hne].
      * rewrite list_lookup_insert_eq by (rewrite length_fmap; by eapply lookup_lt_Some).
        rewrite list_lookup_fmap, Hi. cbn. unfold node_props. cbn. rewrite lookup_insert_eq. cbn. by rewrite Hprops.
      * rewrite list_lookup_insert_ne by done. rewrite !list_lookup_fmap. destruct (nodes_ g !! j) as [[q|]|] eqn:Hj; cbn; [|done..].
        unfold node_props. cbn. rewrite lookup_insert_ne; [done|]. intros <-. apply Hne. exact (is_node_id g p j i Hw Hj Hi).
    + unfold abs_arcs. cbn. apply list_fmap_ext. intros k [e|] Hk; cbn; [|done]. by apply arc_of_same; [ | | eapply live_ends].
Qed.

Lemma abs_nodes_at g p i n : wf g → is_node g p i → node_heap g !! p = Some n → ∃ props, props_ n = Some props ∧ abs_nodes g !! i = Some (Some props).
Proof.
  intros Hw Hi Hn. destruct (w_node _ Hw i p Hi) as (m&Hm&_&[props Hp]). rewrite Hn in Hm. injection Hm as <-. exists props.
  split; [done|]. unfold abs_nodes. rewrite list_lookup_fmap, Hi. cbn. unfold node_props. rewrite Hn. cbn. by rewrite Hp.
Qed.

(** ** Control edges *)

Definition props_name (p : NodeProperties) : string := nd_name (node_def p).

Definition is_control (i j : nat) (a : Arc) : bool :=
  (arc_out a =? kControlSlot) && Nat.eqb (arc_src a) i && Nat.eqb (arc_dst a) j.

Definition has_arc (P : Arc → bool) (l : list (option Arc)) : bool :=
  existsb (λ o, match o with Some a => P a | None => false end) l.

Definition spec_AddControlEdge (i j : nat) (allow_duplicates : bool) (sg : Spec) : option (bool * Spec) :=
  s ← spec_node sg i;
  d ← spec_node sg j;
  if negb allow_duplicates && has_arc (is_control i j) (s_arcs sg) then Some (false, sg) else
  let new_input := ("^" +:+ props_name s)%string in
  let d' := if bool_decide (i ≠ 0%nat) && bool_decide (j ≠ 1%nat) && negb allow_duplicates &&
               bool_decide (new_input ∉ nd_input (node_def d))
            then set_input (λ l, l ++ [new_input]) d else d in
  Some (true, mkSpec (<[j := Some d']> (s_nodes sg)) (s_arcs sg ++ [Some (i, kControlSlot, j, kControlSlot)])).

Definition spec_RemoveControlEdge (k : nat) (sg : Spec) : option Spec :=
  a ← spec_arc sg k;
  s ← spec_node sg (arc_src a);
  d ← spec_node sg (arc_dst a);
  let d' := if bool_decide (arc_src a ≠ 0%nat) && bool_decide (arc_dst a ≠ 1%nat)
            then set_input (erase_first ("^" +:+ props_name s)%string) d else d in
  Some (mkSpec (<[arc_dst a := Some d']> (s_nodes sg)) (<[k := None]> (s_arcs sg))).

Lemma spec_node_at g p i n :
  wf g → is_node g p i → node_heap g !! p = Some n →
  ∃ props, props_ n = Some props ∧ abs_nodes g !! i = Some (Some props) ∧ spec_node (abs g) i = Some props ∧
    node_name n = props_name props ∧ IsSource n = bool_decide (i = 0%nat) ∧ IsSink n = bool_decide (i = 1%nat).
Proof.
  intros Hw Hi Hn. destruct (abs_nodes_at g p i n Hw Hi Hn) as (props&Hp&Hat). exists props.
  destruct (w_node _ Hw i p Hi) as (m&Hm&Hid&_). rewrite Hn in Hm. injection Hm as <-.
  split_and!; [done | done | | | |].
  - unfold spec_node, abs. cbn. by rewrite Hat.
  - unfold node_name. by rewrite Hp.
  - unfold IsSource. rewrite Hid. case_bool_decide; lia.
  - unfold IsSink. rewrite Hid. case_bool_decide; lia.
Qed.

Lemma has_control_edge_ok g p i q j :
  wf g → is_node g p i → is_node g q j → has_control_edge p q g = Some (has_arc (is_control i j) (abs_arcs g)).
Proof.
  intros Hw Hi Hj. unfold has_control_edge. destruct (w_node _ Hw j q Hj) as (d&Hd&_). rewrite Hd. cbn. f_equal.
  apply eq_true_iff_eq. unfold has_arc. rewrite !existsb_exists.
  destruct (set_at_ok g q j d true Hw Hj Hd) as [_ He]. cbn [set_at] in He. split.
  - intros (e&Hin%list_elem_of_In&HP). apply He in Hin as (k&a&Hk&Ha&Hend).
    destruct (arc_of_is g e k Hw Hk) as (s&t&x&y&si&ti&HE&Hsi&Hti&Ha'). rewrite Ha in Ha'. injection Ha' as ->.
    exists (Some (si, x, ti, y)). split.
    + apply list_elem_of_In, (list_elem_of_lookup_2 _ k). apply abs_arcs_at; eauto.
    + rewrite HE in HP. unfold IsControlEdge, is_control in *. cbn in *. apply andb_prop in HP as [-> HP%bool_decide_eq_true].
      injection HP as ->. rewrite (is_node_id g p si i Hw Hsi Hi), Hend. by rewrite !Nat.eqb_refl.
  - intros ([a|]&Hin%list_elem_of_In&HP); [|done]. apply list_elem_of_lookup in Hin as [k Hk]. apply abs_arcs_at in Hk as (e&Hk&Ha); [|done].
    unfold is_control in HP. apply andb_prop in HP as [[Hc Hs%Nat.eqb_eq]%andb_prop Ht%Nat.eqb_eq]. exists e. split.
    + apply list_elem_of_In, He. eauto.
    + destruct (arc_of_is g e k Hw Hk) as (s&t&x&y&si&ti&HE&Hsi&Hti&Ha'). rewrite Ha in Ha'. injection Ha' as ->. rewrite HE.
      unfold IsControlEdge. cbn in *. rewrite Hc. cbn. apply bool_decide_eq_true. subst si. unfold is_node in *. congruence.
Qed.

Lemma list_insert_same {A} (l : list A) i x : l !! i = Some x → <[i := x]> l = l.
Proof. apply list_insert_id. Qed.

Lemma AddControlEdge_abs g p i q j allow :
  wf g → is_node g p i → is_node g q j →
  ∃ e g' (b : bool), AddControlEdge p q allow g = Some (e, g') ∧ wf g' ∧ nodes_ g' = nodes_ g ∧ b = bool_decide (is_Some e) ∧
    spec_AddControlEdge i j allow (abs g) = Some (b, abs g').
Proof.
  intros Hw Hi Hj. destruct (w_node _ Hw i p Hi) as (s&Hs&_). destruct (w_node _ Hw j q Hj) as (d&Hd&_).
  destruct (spec_node_at g p i s Hw Hi Hs) as (ps&_&_&Hsi&Hname&Hsrc&_).
  destruct (spec_node_at g q j d Hw Hj Hd) as (pd&Hpd&Hat&Hdj&_&_&Hsink).
  unfold AddControlEdge, spec_AddControlEdge. rewrite (has_control_edge_ok g p i q j) by done. rewrite Hsi, Hdj. cbn [mbind option_bind].
  change (s_arcs (abs g)) with (abs_arcs g). change (s_nodes (abs g)) with (abs_nodes g).
  destruct (negb allow && has_arc (is_control i j) (abs_arcs g)); [by exists None, g, false|].
  rewrite Hs, Hd. cbn [mbind option_bind]. rewrite Hsrc, Hsink, Hname. set (new := ("^" +:+ props_name ps)%string).
  set (d' := if _ && _ && _ && bool_decide (new ∉ _) then _ else _).
  match goal with |- context [mbind _ (if ?c then ?u else ?v)] => set (m := if c then u else v) end.
  assert (∃ g1, m = Some g1 ∧ wf g1 ∧ (nodes_ g1 = nodes_ g) ∧ abs g1 = mkSpec (<[j := Some d']> (abs_nodes g)) (abs_arcs g))
    as (g1&->&Hw1&Hnodes1&Habs1).
  { unfold m, d'. rewrite !bool_decide_not. destruct (negb (bool_decide (i = 0%nat)) && negb (bool_decide (j = 1%nat)) && negb allow) eqn:Hc; cbn.
    - unfold update_node. rewrite Hd. cbn. rewrite Hpd. cbn. eexists. split; [done|].
      destruct (bool_decide (new ∈ nd_input (node_def pd))); cbn.
      + destruct (replace_node_ok g q j d d pd Hw Hj Hd eq_refl eq_refl eq_refl Hpd) as [H1 H2]. by split_and!.
      + match goal with |- wf (set_node_heap (<[_ := ?d1]> _) _) ∧ _ =>
          destruct (replace_node_ok g q j d d1 _ Hw Hj Hd eq_refl eq_refl eq_refl eq_refl) as [H1 H2] end. by split_and!.
    - exists g. split_and!; [done.. |]. cbn. by rewrite (list_insert_same _ _ _ Hat). }
  cbn [mbind option_bind]. destruct (AddEdge_abs g1 p kControlSlot q kControlSlot i j Hw1) as (e&g'&E&Hw'&Hsame&_&Habs').
  { unfold is_node. by rewrite Hnodes1. }
  { unfold is_node. by rewrite Hnodes1. }
  rewrite E. cbn [mbind option_bind]. exists (Some e), g', true. split_and!; [done | done | by rewrite (proj1 Hsame) | done|].
  rewrite Habs'. injection Habs1 as -> ->. done.
Qed.

Lemma RemoveControlEdge_abs g e k :
  wf g → is_edge g e k →
  ∃ g', RemoveControlEdge e g = Some g' ∧ wf g' ∧ spec_RemoveControlEdge k (abs g) = Some (abs g').
Proof.
  intros Hw Hk. destruct (arc_of_is g e k Hw Hk) as (sp&dp&x&y&i&j&HE&Hi&Hj&Ha).
  destruct (w_node _ Hw i sp Hi) as (s&Hs&_). destruct (w_node _ Hw j dp Hj) as (d&Hd&_).
  destruct (spec_node_at g sp i s Hw Hi Hs) as (ps&_&_&Hsi&Hname&Hsrc&_).
  destruct (spec_node_at g dp j d Hw Hj Hd) as (pd&Hpd&Hat&Hdj&_&_&Hsink).
  assert (spec_arc (abs g) k = Some (i, x, j, y)) as Hka.
  { rewrite abs_arc_at. unfold is_edge in Hk. rewrite Hk. exact Ha. }
  unfold RemoveControlEdge, spec_RemoveControlEdge. rewrite HE, Hka. cbn [mbind option_bind src_ dst_ arc_src arc_dst fst snd].
  rewrite Hs, Hd, Hsi, Hdj. cbn [mbind option_bind]. rewrite Hsrc, Hsink, Hname, !bool_decide_not.
  set (d' := if (_ : bool) then set_input _ pd else pd).
  match goal with |- context [mbind _ (if ?c then ?u else ?v)] => set (m := if c then u else v) end.
  assert (∃ g1, m = Some g1 ∧ wf g1 ∧ edges_ g1 = edges_ g ∧ abs g1 = mkSpec (<[j := Some d']> (abs_nodes g)) (abs_arcs g))
    as (g1&->&Hw1&Hedges1&Habs1).
  { unfold m, d'. destruct (negb (bool_decide (i = 0%nat)) && negb (bool_decide (j = 1%nat))).
    - unfold update_node. rewrite Hd. cbn [mbind option_bind]. rewrite Hpd. cbn [mbind option_bind]. eexists. split; [done|].
      match goal with |- wf (set_node_heap (<[_ := ?d1]> _) _) ∧ _ =>
        destruct (replace_node_ok g dp j d d1 _ Hw Hj Hd eq_refl eq_refl eq_refl eq_refl) as [H1 H2] end. by split_and!.
    - exists g. split_and!; [done.. |]. by rewrite (list_insert_same _ _ _ Hat). }
  cbn [mbind option_bind]. destruct (RemoveEdge_abs g1 e k Hw1) as (g'&E&Hw'&_&_&_&Habs').
  { unfold is_edge. by rewrite Hedges1. }
  exists g'. split_and!; [done | done|]. rewrite Habs'. injection Habs1 as -> ->. done.
Qed.

(** ** Redirecting an edge *)

Definition enters (j : nat) (y : Z) (o : option Arc) : bool :=
  match o with Some a => Nat.eqb (arc_dst a) j && (arc_in a =? y) | None => false end.

(** The result: whether the status is [OK], and the graph.  The write to [input] needs
    an element there. *)
Definition spec_UpdateEdge (i : nat) (x : Z) (j : nat) (y : Z) (sg : Spec) : option (bool * Spec) :=
  s ← spec_node sg i;
  d ← spec_node sg j;
  if Z.of_nat (length (output_types s)) <=? x then Some (false, sg) else
  if Z.of_nat (length (input_types d)) <=? y then Some (false, sg) else
  match list_find (λ o, enters j y o = true) (s_arcs sg) with
  | None => Some (false, sg)
  | Some (k, _) =>
      if (0 <=? y) && (y <? Z.of_nat (length (nd_input (node_def d)))) then
        Some (true, mkSpec
          (<[j := Some (set_input (<[Z.to_nat y := props_name s +:+ ":" +:+ pretty x]>) d)]> (s_nodes sg))
          (<[k := None]> (s_arcs sg) ++ [Some (i, x, j, y)]))
      else None
  end.

Lemma IsValidNode_ok g p i : wf g → is_node g p i → IsValidNode (Some p) g = Some StatusOK.
Proof.
  intros Hw Hi. destruct (w_node _ Hw i p Hi) as (n&Hn&Hid&_). cbn. rewrite Hn. cbn. rewrite Hid.
  pose proof (lookup_lt_Some _ _ _ Hi). rewrite (proj2 (Z.ltb_ge _ _)), (proj2 (Z.leb_gt _ _)), Nat2Z.id by lia.
  by rewrite bool_decide_true.
Qed.

Lemma check_slot_ok g p i op_name what types idx props :
  wf g → is_node g p i → node_props g p = Some props →
  ∃ st, check_slot op_name what types (Some p) idx g = Some st ∧ ok st = negb (Z.of_nat (length (types props)) <=? idx).
Proof.
  intros Hw Hi Hp. unfold check_slot. rewrite (IsValidNode_ok g p i Hw Hi). cbn. unfold node_props in Hp.
  destruct (node_heap g !! p) as [n|]; [|done]. cbn in Hp |- *. rewrite Hp. cbn. eexists. split; [done|].
  by destruct (_ <=? idx).
Qed.

Lemma find_omap {A} (f : nat → bool) (q : A → bool) (F : option nat → A) (l : list (option nat)) :
  q (F None) = false → (∀ k e, l !! k = Some (Some e) → f e = q (F (Some e))) →
  match list_find (λ o, q o = true) (F <$> l) with
  | Some (k, _) => ∃ e, l !! k = Some (Some e) ∧ snd <$> list_find (λ e, f e = true) (omap id l) = Some e
  | None => snd <$> list_find (λ e, f e = true) (omap id l) = None
  end.
Proof.
  intros Hnone. induction l as [|o l IH]; intros Hf; [done|]. specialize (IH (λ k, Hf (S k))).
  destruct o as [e|]; cbn.
  - rewrite (Hf 0%nat e eq_refl). case_decide; cbn; [by exists e|].
    destruct (list_find (λ o, q o = true) (F <$> l)) as [[k a]|]; cbn in *.
    + destruct IH as (e'&He'&IH). exists e'. split; [done|]. by destruct (list_find _ (omap id l)) as [[? ?]|].
    + by destruct (list_find _ (omap id l)) as [[? ?]|].
  - rewrite Hnone. cbn. by destruct (list_find (λ o, q o = true) (F <$> l)) as [[k a]|].
Qed.

Lemma FindEdge_abs g d j y :
  wf g → is_node g d j →
  match list_find (λ o, enters j y o = true) (abs_arcs g) with
  | Some (k, _) => ∃ e, is_edge g e k ∧ FindEdge d y g = Some e
  | None => FindEdge d y g = None
  end.
Proof.
  intros Hw Hj. apply (find_omap _ (enters j y) (λ o, o ≫= arc_of g)); [done|]. intros k e Hk.
  destruct (arc_of_is g e k Hw Hk) as (s&t&x&y'&si&ti&HE&Hsi&Hti&Ha). cbn. rewrite HE, Ha. cbn. f_equal.
  apply eq_true_iff_eq. rewrite bool_decide_eq_true, Nat.eqb_eq. split.
  - intros [= ->]. exact (is_node_id g d ti j Hw Hti Hj).
  - intros ->. unfold is_node in *. congruence.
Qed.

Lemma UpdateEdge_abs op_name debug g p i x q j y b sg :
  wf g → is_node g p i → is_node g q j → spec_UpdateEdge i x j y (abs g) = Some (b, sg) →
  ∃ st g', UpdateEdge op_name debug (Some p) x (Some q) y g = Some (st, g') ∧ ok st = b ∧ wf g' ∧ abs g' = sg.
Proof.
  intros Hw Hi Hj. destruct (w_node _ Hw i p Hi) as (s&Hs&_). destruct (w_node _ Hw j q Hj) as (d&Hd&_).
  destruct (spec_node_at g p i s Hw Hi Hs) as (ps&Hps&_&Hsi&Hname&_).
  destruct (spec_node_at g q j d Hw Hj Hd) as (pd&Hpd&Hat&Hdj&_).
  unfold UpdateEdge, spec_UpdateEdge, IsValidOutputTensor, IsValidInputTensor. rewrite Hsi, Hdj. cbn [mbind option_bind].
  destruct (check_slot_ok g p i op_name "output" output_types x ps Hw Hi) as (st1&->&Hok1); [unfold node_props; by rewrite Hs|].
  destruct (check_slot_ok g q j op_name "input" input_types y pd Hw Hj) as (st2&E2&Hok2); [unfold node_props; by rewrite Hd|].
  cbn [mbind option_bind]. rewrite Hok1, negb_involutive. destruct (_ <=? x); cbn [negb] in Hok1; [intros [= <- <-]; eauto 10|].
  rewrite E2. cbn [mbind option_bind]. rewrite Hok2, negb_involutive. destruct (_ <=? y); cbn [negb] in Hok2; [intros [= <- <-]; eauto 10|].
  change (s_arcs (abs g)) with (abs_arcs g). change (s_nodes (abs g)) with (abs_nodes g).
  pose proof (FindEdge_abs g q j y Hw Hj) as Hfind. destruct (list_find _ (abs_arcs g)) as [[k a]|].
  2: { rewrite Hfind, Hd. cbn [mbind option_bind]. intros [= <- <-]. eauto 10. }
  destruct Hfind as (e&Hk&->). destruct (RemoveEdge_abs g e k Hw Hk) as (g1&->&Hw1&Hsame1&_&_&Habs1). cbn [mbind option_bind].
  pose proof (proj2 (same_nodes_is _ _ _ _ Hsame1) Hi) as Hi1. pose proof (proj2 (same_nodes_is _ _ _ _ Hsame1) Hj) as Hj1.
  destruct (AddEdge_abs g1 p x q y i j Hw1 Hi1 Hj1) as (e2&g2&->&Hw2&Hsame2&_&Habs2). cbn [mbind option_bind].
  pose proof (proj2 (same_nodes_is _ _ _ _ Hsame2) Hi1) as Hi2. pose proof (proj2 (same_nodes_is _ _ _ _ Hsame2) Hj1) as Hj2.
  assert (Hnodes : abs_nodes g2 = abs_nodes g) by (by rewrite (same_nodes_abs _ _ Hsame2), (same_nodes_abs _ _ Hsame1)).
  destruct (w_node _ Hw2 i p Hi2) as (s2&Hs2&_). destruct (w_node _ Hw2 j q Hj2) as (d2&Hd2&_).
  destruct (spec_node_at g2 p i s2 Hw2 Hi2 Hs2) as (ps2&_&_&Hsi2&Hname2&_).
  destruct (spec_node_at g2 q j d2 Hw2 Hj2 Hd2) as (pd2&Hpd2&Hat2&Hdj2&_).
  rewrite Hnodes, Hat in Hat2. injection Hat2 as <-.
  assert (ps2 = ps) as -> by (unfold spec_node, abs in Hsi2, Hsi; cbn in Hsi2, Hsi; rewrite Hnodes, Hsi in Hsi2; by injection Hsi2).
  rewrite Hs2. unfold update_node. rewrite Hd2. cbn [mbind option_bind]. rewrite Hpd2. cbn [mbind option_bind]. rewrite Hname2.
  destruct (_ && _); [|done]. cbn [mbind option_bind]. intros [= <- <-]. eexists StatusOK, _. split; [done|]. split; [done|].
  match goal with |- wf (set_node_heap (<[_ := ?d1]> _) _) ∧ _ =>
    destruct (replace_node_ok g2 q j d2 d1 _ Hw2 Hj2 Hd2 eq_refl eq_refl eq_refl eq_refl) as [H1 H2] end.
  split; [done|]. rewrite H2. injection Habs2 as _ ->. injection Habs1 as _ ->. by rewrite Hnodes.
Qed.

(** ** Devices and copies *)

Lemma set_names_ok c l m g : wf g → wf (set_names c l m g) ∧ abs (set_names c l m g) = abs g.
Proof. intros Hw. split; [|done]. destruct Hw. by split. Qed.

Lemma InternDeviceName_names name g : ∃ i c l m, InternDeviceName name g = (i, set_names c l m g).
Proof.
  unfold InternDeviceName. case_bool_decide; [|case_match; eauto 10].
  exists 0%nat, (name_counter_ g), (device_names_ g), (device_names_map_ g). by destruct g.
Qed.

Lemma set_device_abs g p i name :
  wf g → is_node g p i →
  ∃ g', set_assigned_device_name p name g = Some g' ∧ wf g' ∧ nodes_ g' = nodes_ g ∧
    node_props g' p = node_props g p ∧ abs g' = abs g.
Proof.
  intros Hw Hi. unfold set_assigned_device_name. destruct (InternDeviceName_names name g) as (k&c&l&m&->).
  destruct (set_names_ok c l m g Hw) as [Hw1 Habs1]. set (g1 := set_names c l m g) in *.
  destruct (w_node _ Hw i p Hi) as (n&Hn&_). destruct (abs_nodes_at g p i n Hw Hi Hn) as (props&Hp&Hat).
  unfold update_node. change (node_heap g1) with (node_heap g). rewrite Hn. cbn [mbind option_bind]. eexists. split; [done|].
  destruct (replace_node_ok g1 p i n (set_device_index k n) props Hw1 Hi Hn eq_refl eq_refl eq_refl Hp) as [Hw2 Habs2].
  split_and!; [exact Hw2 | done | |].
  - unfold node_props. cbn. rewrite lookup_insert_eq, Hn. done.
  - etrans; [exact Habs2|]. rewrite <- Habs1. unfold abs. f_equal. change (abs_nodes g1) with (abs_nodes g). by apply list_insert_same.
Qed.

Lemma CopyNode_abs `{OpRegistry} g n props device op :
  wf g → props_ n = Some props → LookUpOpDef (nd_op (node_def props)) = (StatusOK, op) →
  ∃ p g', CopyNode n device g = Some (p, g') ∧ wf g' ∧
    abs g' = mkSpec (abs_nodes g ++ [Some (mkProps op (node_def props) (input_types props) (output_types props))]) (abs_arcs g).
Proof.
  intros Hw Hprops Hop. unfold CopyNode. rewrite Hprops. cbn [mbind option_bind].
  destruct (AllocateNode_abs g props (Some (cost_id_ n)) Hw) as (p&g1&->&Hw1&Hi1&(n1&Hn1&Hp1)&Habs1).
  destruct (set_device_abs g1 p _ device Hw1 Hi1) as (g2&->&Hw2&Hnodes2&Hp2&Habs2). cbn [mbind option_bind]. rewrite Hop. cbn [negb ok].
  assert (Hi2 : is_node g2 p (length (nodes_ g))) by (unfold is_node; by rewrite Hnodes2).
  assert (Hlen : length (abs_nodes g) = length (nodes_ g)) by apply length_fmap.
  destruct (w_node _ Hw2 _ p Hi2) as (n2&Hn2&_). unfold node_props in Hp2. rewrite Hn1, Hn2 in Hp2. cbn in Hp2. rewrite Hp1 in Hp2.
  destruct (Nat.eqb op (op_def props)) eqn:Hsame; cbn [mbind option_bind].
  - apply Nat.eqb_eq in Hsame as ->. exists p, g2. rewrite Habs2, Habs1. by destruct props.
  - unfold update_node. rewrite Hn2. cbn [mbind option_bind]. rewrite Hp2. cbn [mbind option_bind]. eexists p, _. split; [done|].
    match goal with |- wf (set_node_heap (<[_ := ?d1]> _) _) ∧ _ =>
      destruct (replace_node_ok g2 p _ n2 d1 _ Hw2 Hi2 Hn2 eq_refl eq_refl eq_refl eq_refl) as [H1 H2] end.
    split; [done|]. etrans; [exact H2|]. rewrite Habs1 in Habs2. injection Habs2 as -> ->. f_equal.
    rewrite <- Hlen, insert_app_r_alt, Nat.sub_diag by lia. done.
Qed.

(** ** The operations by ids *)

Inductive GraphOp :=
  | OAddNode (def : NodeDef)
  | OCopyNode (i : nat) (device : string)
  | ORemoveNode (i : nat)
  | OSetDevice (i : nat) (device : string)
  | OAddEdge (i : nat) (x : Z) (j : nat) (y : Z)
  | ORemoveEdge (k : nat)
  | OAddControlEdge (i j : nat) (allow_duplicates : bool)
  | ORemoveControlEdge (k : nat)
  | OUpdateEdge (i : nat) (x : Z) (j : nat) (y : Z).

Section operations.
Context `{OpRegistry} (op_name : nat → string) (debug : Node → string).

(** An operation of the code on the nodes and edges with the ids; the boolean tells
    whether it did what it was asked. *)
Definition exec_op (o : GraphOp) (g : Graph) : option (bool * Graph) :=
  match o with
  | OAddNode def => let '(p, st, g) := AddNode def StatusOK g in Some (bool_decide (is_Some p) && ok st, g)
  | OCopyNode i device =>
      p ← FindNodeId i g; n ← node_heap g !! p; '(_, g) ← CopyNode n device g; Some (true, g)
  | ORemoveNode i => p ← FindNodeId i g; g ← RemoveNode p g; Some (true, g)
  | OSetDevice i device => p ← FindNodeId i g; g ← set_assigned_device_name p device g; Some (true, g)
  | OAddEdge i x j y => p ← FindNodeId i g; q ← FindNodeId j g; '(_, g) ← AddEdge p x q y g; Some (true, g)
  | ORemoveEdge k => e ← FindEdgeId k g; g ← RemoveEdge e g; Some (true, g)
  | OAddControlEdge i j allow =>
      p ← FindNodeId i g; q ← FindNodeId j g; '(e, g) ← AddControlEdge p q allow g; Some (bool_decide (is_Some e), g)
  | ORemoveControlEdge k => e ← FindEdgeId k g; g ← RemoveControlEdge e g; Some (true, g)
  | OUpdateEdge i x j y =>
      p ← FindNodeId i g; q ← FindNodeId j g;
      '(st, g) ← UpdateEdge op_name debug (Some p) x (Some q) y g; Some (ok st, g)
  end.

(** The same on the specification; [None] when an id names nothing. *)
Definition spec_op (o : GraphOp) (sg : Spec) : option (bool * Spec) :=
  match o with
  | OAddNode def =>
      let '(st, op) := LookUpOpDef (nd_op def) in
      if negb (ok st) then Some (false, sg) else
      let '(st, (ins, outs)) := InOutTypesForNode def op in
      if negb (ok st) then Some (false, sg) else
      Some (true, mkSpec (s_nodes sg ++ [Some (mkProps op def ins outs)]) (s_arcs sg))
  | OCopyNode i _ =>
      props ← spec_node sg i;
      let '(st, op) := LookUpOpDef (nd_op (node_def props)) in
      if negb (ok st) then None else
      Some (true, mkSpec (s_nodes sg ++ [Some (mkProps op (node_def props) (input_types props) (output_types props))]) (s_arcs sg))
  | ORemoveNode i => _ ← spec_node sg i; Some (true, mkSpec (<[i := None]> (s_nodes sg)) (drop_arcs (touches i) (s_arcs sg)))
  | OSetDevice i _ => _ ← spec_node sg i; Some (true, sg)
  | OAddEdge i x j y =>
      _ ← spec_node sg i; _ ← spec_node sg j; Some (true, mkSpec (s_nodes sg) (s_arcs sg ++ [Some (i, x, j, y)]))
  | ORemoveEdge k => _ ← spec_arc sg k; Some (true, mkSpec (s_nodes sg) (<[k := None]> (s_arcs sg)))
  | OAddControlEdge i j allow => spec_AddControlEdge i j allow sg
  | ORemoveControlEdge k => sg ← spec_RemoveControlEdge k sg; Some (true, sg)
  | OUpdateEdge i x j y => spec_UpdateEdge i x j y sg
  end.

Fixpoint exec_ops (os : list GraphOp) (g : Graph) : option (list bool * Graph) :=
  match os with
  | [] => Some ([], g)
  | o :: os => '(b, g) ← exec_op o g; '(bs, g) ← exec_ops os g; Some (b :: bs, g)
  end.

Fixpoint spec_ops (os : list GraphOp) (sg : Spec) : option (list bool * Spec) :=
  match os with
  | [] => Some ([], sg)
  | o :: os => '(b, sg) ← spec_op o sg; '(bs, sg) ← spec_ops os sg; Some (b :: bs, sg)
  end.

Lemma find_node g i : wf g → is_Some (spec_node (abs g) i) → ∃ p, FindNodeId i g = Some p ∧ is_node g p i.
Proof. intros Hw [p Hp]%spec_node_is; [|done]. exists p. unfold FindNodeId. rewrite Hp. done. Qed.

Lemma find_edge g k a : wf g → spec_arc (abs g) k = Some a → ∃ e, FindEdgeId k g = Some e ∧ is_edge g e k.
Proof. intros Hw (e&He&_)%spec_arc_is; [|done]. exists e. unfold FindEdgeId. rewrite He. done. Qed.

Lemma op_simulation o g b sg :
  wf g → spec_op o (abs g) = Some (b, sg) → ∃ g', exec_op o g = Some (b, g') ∧ wf g' ∧ abs g' = sg.
Proof.
  intros Hw. destruct o as [def|i device|i|i device|i x j y|k|i j allow|k|i x j y]; cbn [exec_op spec_op].
  - unfold AddNode. destruct (LookUpOpDef (nd_op def)) as [st op]. cbn [Update ok]. destruct (ok st) eqn:Hst; cbn [negb].
    2: { intros [= <- <-]. eauto. }
    destruct (InOutTypesForNode def op) as [st' [ins outs]]. unfold Update. rewrite Hst. destruct (ok st') eqn:Hst'; cbn [negb].
    2: { intros [= <- <-]. eauto. }
    intros [= <- <-]. destruct (AllocateNode_abs g (mkProps op def ins outs) None Hw) as (p&g'&->&Hw'&_&_&Habs).
    exists g'. rewrite bool_decide_true by eauto. by rewrite Hst'.
  - destruct (spec_node (abs g) i) as [props|] eqn:Hi; [|done]. cbn. destruct (find_node g i Hw) as (p&->&Hp); [eauto|]. cbn.
    destruct (w_node _ Hw i p Hp) as (n&Hn&_). destruct (spec_node_at g p i n Hw Hp Hn) as (props'&Hprops&_&Hi'&_).
    rewrite Hi in Hi'. injection Hi' as <-. rewrite Hn. cbn. destruct (LookUpOpDef _) as [st op] eqn:Hop. destruct st; [|done].
    intros [= <- <-]. destruct (CopyNode_abs g n props device op Hw Hprops Hop) as (q&g'&->&Hw'&Habs). cbn. eauto.
  - destruct (spec_node (abs g) i) as [props|] eqn:Hi; [|done]. cbn. destruct (find_node g i Hw) as (p&->&Hp); [eauto|]. cbn.
    intros [= <- <-]. destruct (RemoveNode_abs g p i Hw Hp) as (g'&->&Hw'&_&Habs). cbn. eauto.
  - destruct (spec_node (abs g) i) as [props|] eqn:Hi; [|done]. cbn. destruct (find_node g i Hw) as (p&->&Hp); [eauto|]. cbn.
    intros [= <- <-]. destruct (set_device_abs g p i device Hw Hp) as (g'&->&Hw'&_&_&Habs). cbn. eauto.
  - destruct (spec_node (abs g) i) as [si|] eqn:Hi; [|done]. cbn. destruct (spec_node (abs g) j) as [sj|] eqn:Hj; [|done]. cbn.
    destruct (find_node g i Hw) as (p&->&Hp); [eauto|]. destruct (find_node g j Hw) as (q&->&Hq); [eauto|]. cbn.
    intros [= <- <-]. destruct (AddEdge_abs g p x q y i j Hw Hp Hq) as (e&g'&->&Hw'&_&_&Habs). cbn. eauto.
  - destruct (spec_arc (abs g) k) as [a|] eqn:Hk; [|done]. cbn. destruct (find_edge g k a Hw Hk) as (e&->&He). cbn.
    intros [= <- <-]. destruct (RemoveEdge_abs g e k Hw He) as (g'&->&Hw'&_&_&_&Habs). cbn. eauto.
  - intros Hsp. assert (is_Some (spec_node (abs g) i) ∧ is_Some (spec_node (abs g) j)) as [Hi Hj].
    { unfold spec_AddControlEdge in Hsp. destruct (spec_node (abs g) i); [|done]. destruct (spec_node (abs g) j); [|done]. eauto. }
    destruct (find_node g i Hw Hi) as (p&->&Hp). destruct (find_node g j Hw Hj) as (q&->&Hq). cbn.
    destruct (AddControlEdge_abs g p i q j allow Hw Hp Hq) as (e&g'&b'&->&Hw'&_&->&Habs). rewrite Habs in Hsp. injection Hsp as <- <-. cbn. eauto.
  - unfold spec_RemoveControlEdge at 1. destruct (spec_arc (abs g) k) as [a|] eqn:Hk; [|done]. destruct (find_edge g k a Hw Hk) as (e&->&He).
    destruct (RemoveControlEdge_abs g e k Hw He) as (g'&E&Hw'&Habs). unfold spec_RemoveControlEdge in Habs. rewrite Hk in Habs.
    rewrite Habs. cbn. rewrite E. cbn. intros [= <- <-]. eauto.
  - intros Hsp. assert (is_Some (spec_node (abs g) i) ∧ is_Some (spec_node (abs g) j)) as [Hi Hj].
    { unfold spec_UpdateEdge in Hsp. destruct (spec_node (abs g) i); [|done]. destruct (spec_node (abs g) j); [|done]. eauto. }
    destruct (find_node g i Hw Hi) as (p&->&Hp). destruct (find_node g j Hw Hj) as (q&->&Hq). cbn [mbind option_bind].
    destruct (UpdateEdge_abs op_name debug g p i x q j y b sg Hw Hp Hq Hsp) as (st&g'&->&<-&Hw'&Habs). cbn. eauto.
Qed.

Lemma ops_simulation os g bs sg :
  wf g → spec_ops os (abs g) = Some (bs, sg) → ∃ g', exec_ops os g = Some (bs, g') ∧ wf g' ∧ abs g' = sg.
Proof.
  revert g bs. induction os as [|o os IH]; intros g bs Hw; cbn [spec_ops exec_ops]; [intros [= <- <-]; eauto|].
  destruct (spec_op o (abs g)) as [[b sg1]|] eqn:E; [|done]. destruct (op_simulation o g b sg1 Hw E) as (g1&->&Hw1&<-). cbn [mbind option_bind].
  destruct (spec_ops os (abs g1)) as [[bs1 sg2]|] eqn:E2; [|done]. cbn [mbind option_bind]. intros [= <- <-].
  destruct (IH g1 bs1 Hw1 E2) as (g'&->&Hw'&Habs). cbn. eauto.
Qed.

(** A new graph: two nodes and the control edge between them. *)
Definition spec_new (op : nat) : Spec :=
  mkSpec [Some (mkProps op (mkNodeDef "_SOURCE" "NoOp" [] "") [] []); Some (mkProps op (mkNodeDef "_SINK" "NoOp" [] "") [] [])]
         [Some (0%nat, kControlSlot, 1%nat, kControlSlot)].

Lemma empty_graph_wf : wf (mkGraph ∅ ∅ 0 [] 0 [] 0 [] [] 0 [""] ∅).
Proof.
  assert (Hno : ∀ A (i : nat) (x : A), ¬ [] !! i = Some x) by (intros A i x; by rewrite lookup_nil).
  split; try done.
  all: try (intros p n Hn; cbn in Hn; by rewrite lookup_empty in Hn).
  all: try (intros i p Hi; by apply Hno in Hi).
  all: try (split; [constructor | by intros p ?%not_elem_of_nil]).
  split; intros p [n Hn]; cbn in Hn; by rewrite lookup_empty in Hn.
Qed.

Lemma AllocateNode_nodes props cost g p g' : AllocateNode props cost g = (p, g') → nodes_ g' = nodes_ g ++ [Some p].
Proof. unfold AllocateNode. destruct (free_nodes_ g); by intros [= <- <-]. Qed.

Lemma new_Graph_ok op :
  LookUpOpDef "NoOp" = (StatusOK, op) →
  (∀ def, nd_op def = "NoOp" → InOutTypesForNode def op = (StatusOK, ([], []))) →
  ∃ g, new_Graph = Some g ∧ wf g ∧ abs g = spec_new op.
Proof.
  intros Hop Htypes. unfold new_Graph. set (g0 := mkGraph _ _ _ _ _ _ _ _ _ _ _ _).
  unfold AddNode. cbn [nd_op]. rewrite Hop. cbn [Update ok negb]. rewrite !Htypes by done. cbn [Update ok negb].
  destruct (AllocateNode_abs g0 (mkProps op (mkNodeDef "_SOURCE" "NoOp" [] "") [] []) None empty_graph_wf) as (p&g1&->&Hw1&Hp1&_&Habs1).
  cbn [Update ok negb mbind option_bind].
  destruct (AllocateNode_abs g1 (mkProps op (mkNodeDef "_SINK" "NoOp" [] "") [] []) None Hw1) as (q&g2&E2&Hw2&Hq2&_&Habs2).
  rewrite E2. apply AllocateNode_nodes in E2. cbn [Update ok negb mbind option_bind]. injection Habs1 as Hn1 Ha1. injection Habs2 as Hn2 Ha2. rewrite Hn1 in Hn2. rewrite Ha1 in Ha2.
  assert (Hlen : length (nodes_ g1) = 1%nat) by (rewrite <- (length_fmap (λ o, o ≫= node_props g1)); exact (f_equal length Hn1)).
  rewrite Hlen in Hq2.
  assert (Hp2 : is_node g2 p 0).
  { unfold is_node. rewrite E2. by apply lookup_app_l_Some. }
  destruct (AddControlEdge_abs g2 p 0 q 1 false Hw2 Hp2 Hq2) as (e&g3&b&->&Hw3&_&_&Habs3).
  cbn [mbind option_bind]. exists g3. split_and!; [done | done|].
  unfold abs at 1 in Habs3. rewrite Hn2, Ha2 in Habs3. change (Some (true, spec_new op) = Some (b, abs g3)) in Habs3. congruence.
Qed.

End operations.

(** ** What a client sees *)

(** The sets, the counts and the ids of a graph agree with its abstraction. *)
Definition agrees (g : Graph) (sg : Spec) : Prop :=
  num_nodes_ g = Z.of_nat (length (omap id (s_nodes sg))) ∧ num_edges_ g = Z.of_nat (length (omap id (s_arcs sg))) ∧
  ∀ i props, spec_node sg i = Some props → ∃ p n, FindNodeId i g = Some p ∧ node_heap g !! p = Some n ∧
    id_ n = Z.of_nat i ∧ props_ n = Some props ∧
    NoDup (elems (in_edges_ n)) ∧ NoDup (elems (out_edges_ n)) ∧
    (∀ e, e ∈ elems (in_edges_ n) ↔ ∃ k a, FindEdgeId k g = Some e ∧ spec_arc sg k = Some a ∧ arc_dst a = i) ∧
    (∀ e, e ∈ elems (out_edges_ n) ↔ ∃ k a, FindEdgeId k g = Some e ∧ spec_arc sg k = Some a ∧ arc_src a = i).

Lemma omap_abs {A B} (f : A → option B) (l : list (option A)) :
  (∀ i x, l !! i = Some (Some x) → is_Some (f x)) → length (omap id ((λ o, o ≫= f) <$> l)) = length (omap id l).
Proof.
  induction l as [|[x|] l IH]; intros Hf; [done | |].
  - destruct (Hf 0%nat x eq_refl) as [y Hy]. cbn. rewrite Hy. cbn. f_equal. apply IH. intros i. apply (Hf (S i)).
  - cbn. apply IH. intros i. apply (Hf (S i)).
Qed.

Lemma find_edge_iff g k e : FindEdgeId k g = Some e ↔ is_edge g e k.
Proof. unfold FindEdgeId, is_edge. destruct (edges_ g !! k) as [[?|]|]; naive_solver. Qed.

Lemma wf_agrees g : wf g → agrees g (abs g).
Proof.
  intros Hw. split_and!.
  - rewrite (w_num_nodes _ Hw). cbn. unfold abs_nodes. rewrite omap_abs; [done|]. intros i p Hi.
    destruct (w_node _ Hw i p Hi) as (n&Hn&_&Hp). unfold node_props. by rewrite Hn.
  - rewrite (w_num_edges _ Hw). cbn. unfold abs_arcs. rewrite omap_abs; [done|]. intros k e Hk.
    destruct (arc_of_is g e k Hw Hk) as (?&?&?&?&?&?&_&_&_&->). eauto.
  - intros i props Hi. destruct (find_node g i Hw) as (p&Hf&Hp); [eauto|]. destruct (w_node _ Hw i p Hp) as (n&Hn&Hid&_).
    destruct (spec_node_at g p i n Hw Hp Hn) as (props'&Hprops&_&Hi'&_). rewrite Hi in Hi'. injection Hi' as <-.
    exists p, n. destruct (set_at_ok g p i n true Hw Hp Hn) as [H1 E1]. destruct (set_at_ok g p i n false Hw Hp Hn) as [H2 E2].
    split_and!; [done.. | by apply elems_nodup | by apply elems_nodup | |]; intros e; [rewrite (E1 e) | rewrite (E2 e)];
      split; intros (k&a&Hk&Ha&Hend); exists k, a; rewrite find_edge_iff in *; rewrite abs_arc_at in *; unfold is_edge in *;
      rewrite Hk in *; done.
Qed.

(** C17: whatever operations a client of a new graph does on nodes and edges that exist,
    none of the [CHECK]s of [Graph] fails, each operation reports what the specification
    says, and at the end the nodes and edges are those of the specification: the ids are
    never given twice although addresses are, a removed node takes its edges along, and
    the edge sets of the two ends, the ids and the counts agree. *)
Theorem graph_refines `{OpRegistry} op_name debug op os bs sg :
  LookUpOpDef "NoOp" = (StatusOK, op) →
  (∀ def, nd_op def = "NoOp" → InOutTypesForNode def op = (StatusOK, ([], []))) →
  spec_ops os (spec_new op) = Some (bs, sg) →
  ∃ g0 g, new_Graph = Some g0 ∧ exec_ops op_name debug os g0 = Some (bs, g) ∧ abs g = sg ∧ agrees g sg.
Proof.
  intros Hop Htypes Hsp. destruct (new_Graph_ok op Hop Htypes) as (g0&E0&Hw0&Habs0). rewrite <- Habs0 in Hsp.
  destruct (ops_simulation op_name debug os g0 bs sg Hw0 Hsp) as (g&E&Hw&<-). exists g0, g. split_and!; try done. by apply wf_agrees.
Qed.

Definition demo_registry : OpRegistry :=
  Build_OpRegistry (λ op, (StatusOK, String.length op))
    (λ def _, (StatusOK, if bool_decide (nd_op def = "NoOp") then ([], []) else ([1], [1])))
    (λ st _, st).

(** Two nodes with a data and a control edge; the first is removed and its address, as
    that of its edges, is used for another node. *)
Definition demo_ops : list GraphOp :=
  [OAddNode (mkNodeDef "a" "Op" [] ""); OAddNode (mkNodeDef "b" "Op" ["a:0"] "");
   OAddEdge 2 0 3 0; OAddControlEdge 2 3 false; OAddControlEdge 2 3 false;
   OCopyNode 2 "/gpu:0"; OUpdateEdge 4 0 3 0; ORemoveNode 2;
   OAddNode (mkNodeDef "c" "Op" [] ""); OAddEdge 5 0 3 0; OUpdateEdge 5 7 3 0]%string.

Lemma graph_refines_witness :
  ∃ g, (g0 ← @new_Graph demo_registry; @exec_ops demo_registry (λ _, "")%string (λ _, "")%string demo_ops g0) =
         Some ([true; true; true; true; false; true; true; true; true; true; false], g) ∧
    omap id (s_arcs (abs g)) = [(0%nat, -1, 1%nat, -1); (4%nat, 0, 3%nat, 0); (5%nat, 0, 3%nat, 0)].
Proof.
  destruct (@graph_refines demo_registry (λ _, "")%string (λ _, "")%string 4 demo_ops
    [true; true; true; true; false; true; true; true; true; true; false]
    (default (mkSpec [] []) (snd <$> @spec_ops demo_registry demo_ops (spec_new 4)))) as (g0&g&E0&E&Habs&_).
  - reflexivity.
  - intros def Hd. cbn. by rewrite bool_decide_true.
  - vm_compute. reflexivity.
  - exists g. rewrite E0. cbn [mbind option_bind]. rewrite E, Habs. split; [done | vm_compute; reflexivity].
Defined.

(** ** Names of devices *)

(** [device_names_] is the inverse of [device_names_map_], with the empty name at 0. *)
Record names_ok (g : Graph) : Prop := {
  d_zero : device_names_ g !! 0%nat = Some "";
  d_map : ∀ name i, name ≠ "" → device_names_map_ g !! name = Some i ↔ (0 < i)%nat ∧ device_names_ g !! i = Some name;
  d_empty : device_names_map_ g !! "" = None;
  d_size : length (device_names_ g) = S (size (device_names_map_ g)) }.

Lemma InternDeviceName_ok name g :
  names_ok g →
  let '(i, g') := InternDeviceName name g in
  names_ok g' ∧ device_names_ g' !! i = Some name ∧ device_names_ g `prefix_of` device_names_ g'.
Proof.
  intros Hok. destruct (InternDeviceName name g) as [i g'] eqn:E. unfold InternDeviceName in E. case_bool_decide as Hname.
  { injection E as <- <-. subst name. split_and!; [done | apply Hok | done]. }
  destruct (device_names_map_ g !! name) as [k|] eqn:Hk.
  - pose proof (proj1 (d_map _ Hok name k Hname) Hk) as [Hpos Hat]. rewrite Hk in E. destruct k as [|k]; [lia|]. cbn in E.
    injection E as <- <-. split_and!; [by destruct Hok | done | done].
  - rewrite lookup_insert_eq in E. cbn in E. injection E as <- <-. rewrite insert_insert_eq, map_size_insert_None by done.
    assert (Hsz : device_names_ g !! S (size (device_names_map_ g)) = None) by (apply lookup_ge_None; rewrite (d_size _ Hok); done).
    split_and!; cbn; [| rewrite lookup_app_r, (d_size _ Hok), Nat.sub_diag by (rewrite (d_size _ Hok); lia); done | by eexists].
    split; cbn.
    + apply lookup_app_l_Some, Hok.
    + intros name' j Hname'. destruct (decide (name' = name)) as [->|Hne].
      * rewrite lookup_insert_eq. split.
        -- intros [= <-]. split; [lia|]. rewrite lookup_app_r, (d_size _ Hok), Nat.sub_diag by (rewrite (d_size _ Hok); lia). done.
        -- intros [Hpos [Hj|[Hge Hj]]%lookup_app_Some].
           ++ assert (device_names_map_ g !! name = Some j) by (by apply (d_map _ Hok)). congruence.
           ++ rewrite (d_size _ Hok) in *. destruct (j - S _)%nat eqn:Ej; [|by destruct n]. f_equal. lia.
      * rewrite lookup_insert_ne, (d_map _ Hok) by done. split; intros [Hpos Hj]; (split; [done|]).
        -- by apply lookup_app_l_Some.
        -- apply lookup_app_Some in Hj as [Hj|[Hge Hj]]; [done|]. destruct (j - _)%nat as [|n]; [by injection Hj as ->|by destruct n].
    + rewrite lookup_insert_ne by done. apply Hok.
    + rewrite length_app, (d_size _ Hok), map_size_insert_None by done. cbn. lia.
Qed.

(** The name a node was last assigned to is read back, and the other nodes keep theirs. *)
Theorem device_name_round_trip g p n name :
  names_ok g → node_heap g !! p = Some n →
  ∃ g', set_assigned_device_name p name g = Some g' ∧ names_ok g' ∧ assigned_device_name p g' = Some name ∧
    ∀ q old, q ≠ p → assigned_device_name q g = Some old → assigned_device_name q g' = Some old.
Proof.
  intros Hok Hn. unfold set_assigned_device_name, assigned_device_name. pose proof (InternDeviceName_ok name g Hok) as Hin.
  destruct (InternDeviceName_names name g) as (i&c&l&m&E). rewrite E in Hin |- *. destruct Hin as (Hok'&Hi&Hpre).
  unfold update_node. cbn. rewrite Hn. cbn. eexists. split; [done|]. split_and!; [by destruct Hok' | cbn; rewrite lookup_insert_eq; exact Hi|].
  intros q old Hne Hold. cbn. rewrite lookup_insert_ne by done. destruct (node_heap g !! q) as [m'|]; [|done]. cbn in *.
  by eapply prefix_lookup_Some.
Qed.

(** ** A negative index *)

(** [IsValidInputTensor] lets a negative index pass: for the slot of control edges
    [UpdateEdge] finds an edge, replaces it, and writes to an element before the first
    of [input]. *)
Theorem update_edge_negative_index op_name debug g p i x q j y e props :
  wf g → is_node g p i → is_node g q j → node_props g p = Some props → x < Z.of_nat (length (output_types props)) →
  y < 0 → FindEdge q y g = Some e → UpdateEdge op_name debug (Some p) x (Some q) y g = None.
Proof.
  intros Hw Hi Hj Hprops Hx Hy Hfind. unfold UpdateEdge, IsValidOutputTensor, IsValidInputTensor.
  destruct (w_node _ Hw j q Hj) as (d&Hd&_&[pd Hpd]).
  destruct (check_slot_ok g p i op_name "output" output_types x props Hw Hi Hprops) as (st1&->&Hok1). cbn [mbind option_bind].
  rewrite Hok1, (proj2 (Z.leb_gt _ _)) by lia. cbn [negb].
  destruct (check_slot_ok g q j op_name "input" input_types y pd Hw Hj) as (st2&->&Hok2); [unfold node_props; by rewrite Hd|]. cbn [mbind option_bind].
  rewrite Hok2, (proj2 (Z.leb_gt _ _)) by lia. cbn [negb]. rewrite Hfind.
  assert (∃ k, is_edge g e k) as [k Hk].
  { pose proof (FindEdge_abs g q j y Hw Hj) as Hf. destruct (list_find _ _) as [[k a]|]; [|congruence]. destruct Hf as (e'&He'&Hf).
    rewrite Hfind in Hf. injection Hf as <-. eauto. }
  destruct (RemoveEdge_abs g e k Hw Hk) as (g1&->&Hw1&Hsame1&_). cbn [mbind option_bind].
  destruct (AddEdge_abs g1 p x q y i j Hw1) as (e2&g2&->&Hw2&Hsame2&_); [by apply (same_nodes_is _ _ _ _ Hsame1).. |]. cbn [mbind option_bind].
  destruct (node_heap g2 !! p); [|done]. cbn [mbind option_bind]. unfold update_node. destruct (node_heap g2 !! q) as [m|]; [|done]. cbn [mbind option_bind].
  destruct (props_ m); [|done]. cbn [mbind option_bind]. by rewrite (proj2 (Z.leb_gt 0 y)) by lia.
Qed.

(** ** A stale while context *)

(** [Node::Clear] leaves [while_ctx_]: a node that takes the place of a removed one
    belongs to the while loop of that one. *)
Theorem reused_node_keeps_while_ctx g p n props cost g1 q g2 :
  node_heap g !! p = Some n → ReleaseNode p g = Some g1 → AllocateNode props cost g1 = (q, g2) →
  q = p ∧ ∃ n', node_heap g2 !! q = Some n' ∧ while_ctx_ n' = while_ctx_ n.
Proof.
  intros Hn. unfold ReleaseNode. rewrite Hn. cbn. intros [= <-]. unfold AllocateNode. cbn. rewrite lookup_insert_eq. cbn.
  intros [= <- <-]. split; [done|]. cbn. rewrite lookup_insert_eq. by eexists.
Qed.
