(* ===== verification/GraphSearch.v ===== *)
(** * Depth-first search

    The search of [tensorflow/core/graph/algorithm.cc] on addresses with a successor
    function: a stack of nodes to enter and to leave, and the set of visited nodes.
    [GraphAlgorithms] shows that [DFS] and [ReverseDFSFrom] run it on a graph.  The
    search ends, enters what can be reached and leaves a node after the successors
    that do not lead back to it. *)
From S2P Require Import Prelude.

(** [struct Work]: a node, and whether it is to be left. *)
Record Work := mkWork { work_node : nat; work_leave : bool }.

(** The calls of the two functions. *)
Inductive Event := Entered (p : nat) | Left (p : nat).

Definition entered (t : list Event) : list nat := omap (λ e, match e with Entered p => Some p | Left _ => None end) t.
Definition left_ (t : list Event) : list nat := omap (λ e, match e with Left p => Some p | Entered _ => None end) t.

Section search.
Context (succ : nat → list nat) (enter leave : bool).

Definition push (vs : gset nat) (l : list nat) (st : list Work) : list Work :=
  foldl (λ st q, if bool_decide (q ∈ vs) then st else mkWork q false :: st) st l.

Fixpoint search (fuel : nat) (st : list Work) (vs : gset nat) (t : list Event) : option (list Event) :=
  match fuel with
  | O => None
  | S fuel =>
      match st with
      | [] => Some t
      | mkWork p true :: st => search fuel st vs (t ++ [Left p])
      | mkWork p false :: st =>
          if bool_decide (p ∈ vs) then search fuel st vs t else
          let vs := {[p]} ∪ vs in
          let t := if enter then t ++ [Entered p] else t in
          let st := if leave then mkWork p true :: st else st in
          search fuel (push vs (succ p) st) vs t
      end
  end.

Definition edge (p q : nat) : Prop := q ∈ succ p.
Definition reach : relation nat := rtc edge.

(** ** Termination *)

Definition cost (l : list nat) : nat := sum_list ((λ p, S (length (succ p))) <$> l).
Definition unvisited (V vs : gset nat) : list nat := elements (V ∖ vs).

Lemma push_app vs l st : push vs l st = (flip mkWork false <$> reverse (filter (.∉ vs) l)) ++ st.
Proof.
  unfold push. revert st. induction l as [|q l IH]; intros st; [done|]. cbn [foldl]. rewrite IH. case_bool_decide as Hq.
  - by rewrite filter_cons_False by (by intros []).
  - rewrite filter_cons_True by done. rewrite reverse_cons, fmap_app, <- app_assoc. done.
Qed.

Lemma push_elem vs l st w : w ∈ push vs l st ↔ (∃ q, w = mkWork q false ∧ q ∈ l ∧ q ∉ vs) ∨ w ∈ st.
Proof.
  clear succ enter leave. rewrite push_app, elem_of_app, list_elem_of_fmap. setoid_rewrite elem_of_reverse. setoid_rewrite list_elem_of_filter.
  cbn. naive_solver.
Qed.

Lemma push_length vs l st : length (push vs l st) ≤ length l + length st.
Proof. rewrite push_app, length_app, length_fmap, length_reverse. pose proof (length_filter (.∉ vs) l). lia. Qed.

Lemma cost_visit V vs p :
  p ∈ V → p ∉ vs → cost (unvisited V vs) = S (length (succ p)) + cost (unvisited V ({[p]} ∪ vs)).
Proof.
  intros HV Hvs. unfold cost, unvisited. replace (V ∖ vs) with ({[p]} ∪ (V ∖ ({[p]} ∪ vs))).
  - rewrite elements_union_singleton by set_solver. done.
  - apply set_eq. intros q. destruct (decide (q = p)); set_solver.
Qed.

Lemma search_ends V fuel st vs t :
  (∀ p q, p ∈ V → edge p q → q ∈ V) → Forall (λ w, work_node w ∈ V) st →
  length st + cost (unvisited V vs) < fuel → is_Some (search fuel st vs t).
Proof.
  intros HV. revert st vs t. induction fuel as [|fuel IH]; intros st vs t Hst Hf; [lia|].
  destruct st as [|[p [|]] st]; cbn [search]; [eauto | |]; cbn [length] in Hf; apply Forall_cons in Hst as [Hp Hst]; cbn in Hp.
  - apply IH; [done | lia].
  - case_bool_decide as Hvs; [apply IH; [done | lia]|]. rewrite (cost_visit V vs p Hp Hvs) in Hf.
    apply IH.
    + rewrite Forall_forall in Hst |- *. intros w [(q&->&Hq&_)|Hw]%push_elem; [cbn; by eapply HV|].
      destruct leave; [|auto]. by apply elem_of_cons in Hw as [->|Hw]; [|auto].
    + pose proof (push_length ({[p]} ∪ vs) (succ p) (if leave then mkWork p true :: st else st)). destruct leave; cbn [length] in *; lia.
Qed.

(** ** What is visited *)

Definition to_enter (q : nat) (st : list Work) : Prop := mkWork q false ∈ st.

(** The state of a search from the nodes [S0]. *)
Record visiting (S0 : list nat) (st : list Work) (vs : gset nat) (t : list Event) : Prop := {
  v_start : ∀ p, p ∈ S0 → p ∈ vs ∨ to_enter p st;
  v_closed : ∀ p q, p ∈ vs → edge p q → q ∈ vs ∨ to_enter q st;
  v_sound : ∀ p, p ∈ vs ∨ to_enter p st → ∃ s, s ∈ S0 ∧ reach s p;
  v_entered : if enter then NoDup (entered t) ∧ ∀ p, p ∈ entered t ↔ p ∈ vs else entered t = [];
  v_leave : leave = false → left_ t = [] ∧ ∀ w, w ∈ st → work_leave w = false }.

Lemma entered_snoc t e : entered (t ++ [e]) = entered t ++ match e with Entered p => [p] | Left _ => [] end.
Proof. unfold entered. rewrite omap_app. by destruct e. Qed.

Lemma left_snoc t e : left_ (t ++ [e]) = left_ t ++ match e with Left p => [p] | Entered _ => [] end.
Proof. unfold left_. rewrite omap_app. by destruct e. Qed.

Definition after_enter (p : nat) (vs : gset nat) (st : list Work) : list Work :=
  push ({[p]} ∪ vs) (succ p) (if leave then mkWork p true :: st else st).

Definition note_enter (p : nat) (t : list Event) : list Event := if enter then t ++ [Entered p] else t.

(** What the three kinds of step keep holds at the end. *)
Lemma search_invariant (I : list Work → gset nat → list Event → Prop) fuel st vs t t' :
  (∀ p st vs t, I (mkWork p true :: st) vs t → I st vs (t ++ [Left p])) →
  (∀ p st vs t, p ∈ vs → I (mkWork p false :: st) vs t → I st vs t) →
  (∀ p st vs t, p ∉ vs → I (mkWork p false :: st) vs t → I (after_enter p vs st) ({[p]} ∪ vs) (note_enter p t)) →
  I st vs t → search fuel st vs t = Some t' → ∃ vs', I [] vs' t'.
Proof.
  intros H1 H2 H3. revert st vs t. induction fuel as [|fuel IH]; intros st vs t HI; cbn [search]; [done|].
  destruct st as [|[p [|]] st]; [intros [= <-]; eauto | by apply IH, H1|].
  case_bool_decide as Hvs; apply IH; [by eapply H2 | by apply H3].
Qed.

Lemma to_enter_cons q p (b : bool) st : to_enter q (mkWork p b :: st) ↔ (q = p ∧ b = false) ∨ to_enter q st.
Proof. unfold to_enter. rewrite elem_of_cons. naive_solver. Qed.

Lemma to_enter_after q p vs st :
  to_enter q (after_enter p vs st) ↔ (edge p q ∧ q ∉ {[p]} ∪ vs) ∨ to_enter q st.
Proof.
  unfold to_enter, after_enter. rewrite push_elem. unfold edge. destruct leave; [rewrite elem_of_cons|]; naive_solver.
Qed.

Lemma visiting_leave S0 p st vs t : visiting S0 (mkWork p true :: st) vs t → visiting S0 st vs (t ++ [Left p]).
Proof.
  intros [V1 V2 V3 V4 V5]. setoid_rewrite to_enter_cons in V1. setoid_rewrite to_enter_cons in V2. setoid_rewrite to_enter_cons in V3.
  split.
  - intros q Hq. destruct (V1 q Hq) as [|[[_ ?]|?]]; [tauto | done | tauto].
  - intros q r Hq Hr. destruct (V2 q r Hq Hr) as [|[[_ ?]|?]]; [tauto | done | tauto].
  - intros q Hq. apply V3. tauto.
  - rewrite entered_snoc, app_nil_r. done.
  - intros Hl. destruct (V5 Hl) as [_ Hw]. specialize (Hw _ (list_elem_of_here _ _)). done.
Qed.

Lemma visiting_skip S0 p st vs t : p ∈ vs → visiting S0 (mkWork p false :: st) vs t → visiting S0 st vs t.
Proof.
  intros Hp [V1 V2 V3 V4 V5]. setoid_rewrite to_enter_cons in V1. setoid_rewrite to_enter_cons in V2. setoid_rewrite to_enter_cons in V3.
  split; [naive_solver.. | |].
  - done.
  - intros Hl. destruct (V5 Hl) as [Ht Hw]. split; [done|]. intros w Hw'. apply Hw. by right.
Qed.

Lemma visiting_enter S0 p st vs t :
  p ∉ vs → visiting S0 (mkWork p false :: st) vs t → visiting S0 (after_enter p vs st) ({[p]} ∪ vs) (note_enter p t).
Proof.
  intros Hp [V1 V2 V3 V4 V5]. setoid_rewrite to_enter_cons in V1. setoid_rewrite to_enter_cons in V2. setoid_rewrite to_enter_cons in V3.
  split.
  - intros q Hq. rewrite to_enter_after, elem_of_union, elem_of_singleton. naive_solver.
  - intros q r Hq Hr. rewrite to_enter_after. destruct (decide (r ∈ ({[p]} ∪ vs))); [tauto|]. right.
    rewrite elem_of_union, elem_of_singleton in Hq, n. destruct Hq as [->|Hq]; [left; rewrite elem_of_union, elem_of_singleton; tauto|].
    destruct (V2 q r Hq Hr) as [|[[-> _]|?]]; tauto.
  - intros q. rewrite to_enter_after, elem_of_union, elem_of_singleton. intros [[->|Hq]|[[Hq _]|Hq]]; [apply V3; tauto | apply V3; tauto | |apply V3; tauto].
    destruct (V3 p) as (s&Hs&Hr); [tauto|]. exists s. split; [done|]. by eapply rtc_r.
  - unfold note_enter. destruct enter; [|done]. destruct V4 as [Hnd Hin]. rewrite entered_snoc. split.
    + apply NoDup_app. split_and!; [done | | apply NoDup_singleton]. intros q Hq ->%list_elem_of_singleton. by apply Hin in Hq.
    + intros q. rewrite elem_of_app, list_elem_of_singleton, Hin, elem_of_union, elem_of_singleton. tauto.
  - intros Hl. destruct (V5 Hl) as [Ht Hw]. split.
    + unfold note_enter. destruct enter; [by rewrite left_snoc, app_nil_r | done].
    + intros w [(q&->&_)|Hw']%push_elem; [done|]. rewrite Hl in Hw'. apply Hw. by right.
Qed.

Lemma visiting_init S0 : visiting S0 (flip mkWork false <$> reverse S0) ∅ [].
Proof.
  assert (Hin : ∀ p, to_enter p (flip mkWork false <$> reverse S0) ↔ p ∈ S0).
  { intros p. unfold to_enter. rewrite list_elem_of_fmap. setoid_rewrite elem_of_reverse. cbn. naive_solver. }
  split.
  - intros p. rewrite Hin. tauto.
  - intros p q Hp. set_solver.
  - intros p. rewrite Hin. intros [Hp|Hp]; [set_solver|]. exists p. split; [done | constructor].
  - destruct enter; [|done]. split; [constructor|]. intros p. set_solver.
  - intros _. split; [done|]. intros w (q&->&_)%list_elem_of_fmap. done.
Qed.

Lemma reach_closed (P : nat → Prop) p q : (∀ p q, P p → edge p q → P q) → P p → reach p q → P q.
Proof. intros Hc Hp. induction 1; eauto. Qed.

(** What is reached is visited, and entered once. *)
Lemma visiting_end S0 vs t :
  visiting S0 [] vs t → ∀ p, p ∈ vs ↔ ∃ s, s ∈ S0 ∧ reach s p.
Proof.
  intros [V1 V2 V3 _ _] p. split; [intros Hp; apply V3; tauto|]. intros (s&Hs&Hr).
  assert (Hno : ∀ q, ¬ to_enter q []) by (intros q; apply not_elem_of_nil).
  apply (reach_closed (.∈ vs) s p); [| | done].
  - intros q r Hq Hqr. destruct (V2 q r Hq Hqr); [done | by apply Hno in H].
  - destruct (V1 s Hs); [done | by apply Hno in H].
Qed.

(** ** The order of leaving *)

Definition greys (st : list Work) : list nat := omap (λ w, if work_leave w then Some (work_node w) else None) st.

(** A node is left after its successors, but for those that lead back to it. *)
Definition ordered (l : list nat) : Prop :=
  ∀ l1 p l2, l = l1 ++ p :: l2 → ∀ q, edge p q → q ∈ l1 ∨ reach q p.

Record leaving (st : list Work) (vs : gset nat) (t : list Event) : Prop := {
  l_nodup : NoDup (left_ t ++ greys st);
  l_visited : ∀ p, p ∈ vs ↔ p ∈ left_ t ∨ p ∈ greys st;
  l_pending : ∀ st1 p st2, st = st1 ++ mkWork p true :: st2 → ∀ q, edge p q → q ∈ vs ∨ to_enter q st1;
  l_above : ∀ st1 p st2, st = st1 ++ mkWork p true :: st2 → ∀ w, w ∈ st1 → reach p (work_node w);
  l_order : ordered (left_ t) }.

Lemma elem_of_greys p st : p ∈ greys st ↔ mkWork p true ∈ st.
Proof.
  unfold greys. rewrite list_elem_of_omap. split.
  - intros ([q [|]]&Hw&[= ->]); done.
  - intros Hp. by exists (mkWork p true).
Qed.

Lemma greys_push vs l st : greys (push vs l st) = greys st.
Proof.
  rewrite push_app. unfold greys. rewrite omap_app. generalize (reverse (filter (.∉ vs) l)). clear. induction l as [|q l IH]; [done|]. exact IH.
Qed.

Lemma leaving_leave p st vs t : leaving (mkWork p true :: st) vs t → leaving st vs (t ++ [Left p]).
Proof.
  intros [L1 L2 L3 L4 L5]. change (greys (mkWork p true :: st)) with (p :: greys st) in *. split; rewrite ?left_snoc.
  - by rewrite <- app_assoc.
  - intros q. rewrite L2, elem_of_app, elem_of_cons, list_elem_of_singleton. tauto.
  - intros st1 q st2 -> r Hr. destruct (L3 (mkWork p true :: st1) q st2 eq_refl r Hr) as [|Ht]; [tauto|].
    apply to_enter_cons in Ht as [[_ ?]|?]; [done | tauto].
  - intros st1 q st2 -> w Hw. apply (L4 (mkWork p true :: st1) q st2 eq_refl). by right.
  - intros l1 q l2 Heq r Hr. destruct l2 as [|x l2 _] using rev_ind.
    + apply app_inj_tail in Heq as [<- <-]. destruct (L3 [] p st eq_refl r Hr) as [Hv|[]%not_elem_of_nil].
      apply L2 in Hv as [Hv|[->|Hv]%elem_of_cons]; [by left | right; constructor|]. right.
      apply elem_of_greys, list_elem_of_split in Hv as (s1&s2&->).
      apply (L4 (mkWork p true :: s1) r s2 eq_refl (mkWork p true)). left.
    + rewrite app_comm_cons, app_assoc in Heq. apply app_inj_tail in Heq as [Heq _]. exact (L5 l1 q l2 Heq r Hr).
Qed.

Lemma leaving_skip p st vs t : p ∈ vs → leaving (mkWork p false :: st) vs t → leaving st vs t.
Proof.
  intros Hp [L1 L2 L3 L4 L5]. split; [done | done | | | done].
  - intros st1 q st2 -> r Hr. destruct (L3 (mkWork p false :: st1) q st2 eq_refl r Hr) as [|Ht]; [tauto|].
    apply to_enter_cons in Ht as [[-> _]|?]; tauto.
  - intros st1 q st2 -> w Hw. apply (L4 (mkWork p false :: st1) q st2 eq_refl). by right.
Qed.

(** Where a node to be left is in the stack after a node has been entered. *)
Lemma split_after p vs st st1 q st2 :
  leave = true → after_enter p vs st = st1 ++ mkWork q true :: st2 →
  (q = p ∧ st2 = st ∧ ∀ w, w ∈ st1 ↔ ∃ r, w = mkWork r false ∧ edge p r ∧ r ∉ {[p]} ∪ vs) ∨
  (∃ st3, st = st3 ++ mkWork q true :: st2 ∧
    ∀ w, w ∈ st1 ↔ (∃ r, w = mkWork r false ∧ edge p r ∧ r ∉ {[p]} ∪ vs) ∨ w = mkWork p true ∨ w ∈ st3).
Proof.
  intros Hl Heq. unfold after_enter in Heq. rewrite Hl, push_app in Heq.
  set (new := flip mkWork false <$> reverse (filter (.∉ {[p]} ∪ vs) (succ p))) in *.
  assert (Hnew : ∀ w, w ∈ new ↔ ∃ r, w = mkWork r false ∧ edge p r ∧ r ∉ {[p]} ∪ vs).
  { intros w. unfold new. rewrite list_elem_of_fmap. setoid_rewrite elem_of_reverse. setoid_rewrite list_elem_of_filter. cbn. naive_solver. }
  apply app_eq_inv in Heq as [(k&Hk1&Hk2)|(k&Hk1&Hk2)].
  - destruct k as [|w k].
    + rewrite app_nil_r in Hk1. injection Hk2 as <- <-. left. split_and!; [done | done|]. intros w. by rewrite <- Hk1.
    + injection Hk2 as <- _. exfalso. assert (mkWork q true ∈ new) as (r&?&_)%Hnew; [|done]. rewrite Hk1, elem_of_app. right. left.
  - destruct k as [|w k].
    + rewrite app_nil_r in Hk1. injection Hk2 as <- <-. left. split_and!; [done | done|]. intros w. by rewrite Hk1.
    + injection Hk2 as <- ->. right. exists k. split; [done|]. intros w. rewrite Hk1, elem_of_app, elem_of_cons, Hnew. done.
Qed.

Lemma leaving_enter p st vs t :
  leave = true → p ∉ vs → leaving (mkWork p false :: st) vs t → leaving (after_enter p vs st) ({[p]} ∪ vs) (note_enter p t).
Proof.
  intros Hl Hp [L1 L2 L3 L4 L5]. change (greys (mkWork p false :: st)) with (greys st) in *.
  assert (Ht : left_ (note_enter p t) = left_ t) by (unfold note_enter; destruct enter; [by rewrite left_snoc, app_nil_r | done]).
  assert (Hg : greys (after_enter p vs st) = p :: greys st) by (unfold after_enter; rewrite greys_push, Hl; done).
  split; rewrite ?Ht, ?Hg; [| | | | done].
  - rewrite <- Permutation_middle. apply NoDup_cons. split; [|done]. rewrite elem_of_app, <- L2. done.
  - intros q. rewrite elem_of_union, elem_of_singleton, L2, elem_of_cons. tauto.
  - intros st1 q st2 Heq r Hr. destruct (split_after p vs st st1 q st2 Hl Heq) as [(->&_&Hw)|(st3&->&Hw)].
    + destruct (decide (r ∈ {[p]} ∪ vs)) as [|Hn]; [by left|]. right. apply Hw. eauto.
    + rewrite elem_of_union, elem_of_singleton. destruct (L3 (mkWork p false :: st3) q st2 eq_refl r Hr) as [|Hto]; [tauto|].
      apply to_enter_cons in Hto as [[-> _]|Hto]; [tauto|]. right. apply Hw. tauto.
  - intros st1 q st2 Heq w Hw'. destruct (split_after p vs st st1 q st2 Hl Heq) as [(->&_&Hw)|(st3&->&Hw)].
    + apply Hw in Hw' as (r&->&Hr&_). by apply rtc_once.
    + assert (Hqp : reach q p) by (apply (L4 (mkWork p false :: st3) q st2 eq_refl (mkWork p false)); left).
      apply Hw in Hw' as [(r&->&Hr&_)|[->|Hw']]; [by eapply rtc_r | done|].
      apply (L4 (mkWork p false :: st3) q st2 eq_refl). by right.
Qed.

Lemma leaving_init S0 : leaving (flip mkWork false <$> reverse S0) ∅ [].
Proof.
  assert (Hno : ∀ st1 p st2, flip mkWork false <$> reverse S0 ≠ st1 ++ mkWork p true :: st2).
  { intros st1 p st2 Heq. assert (mkWork p true ∈ flip mkWork false <$> reverse S0) as (q&?&_)%list_elem_of_fmap; [|done].
    rewrite Heq, elem_of_app. right. left. }
  assert (Hg : greys (flip mkWork false <$> reverse S0) = []).
  { generalize (reverse S0). intros l. induction l as [|q l IH]; [done | exact IH]. }
  split; rewrite ?Hg; [constructor | set_solver | | |].
  - intros st1 p st2 Heq. by apply Hno in Heq.
  - intros st1 p st2 Heq. by apply Hno in Heq.
  - intros l1 p l2 Heq. by destruct l1.
Qed.

(** ** The search *)

Definition search_fuel (V : list nat) (S0 : list nat) : nat := S (length S0 + cost V).

(** From the nodes [S0] of a finite graph the search ends; it enters what can be reached,
    each node once, and leaves the same nodes in order. *)
Lemma search_correct V S0 :
  NoDup V → (∀ p q, p ∈ V → edge p q → q ∈ V) → (∀ p, p ∈ S0 → p ∈ V) →
  ∃ t, search (search_fuel V S0) (flip mkWork false <$> reverse S0) ∅ [] = Some t ∧
    (if enter then NoDup (entered t) ∧ ∀ p, p ∈ entered t ↔ ∃ s, s ∈ S0 ∧ reach s p else entered t = []) ∧
    (if leave then NoDup (left_ t) ∧ (∀ p, p ∈ left_ t ↔ ∃ s, s ∈ S0 ∧ reach s p) ∧ ordered (left_ t) else left_ t = []).
Proof.
  intros HV Hc HS. destruct (search_ends (list_to_set V) (search_fuel V S0) (flip mkWork false <$> reverse S0) ∅ []) as [t Ht].
  - intros p q. rewrite !elem_of_list_to_set. apply Hc.
  - apply Forall_forall. intros w (q&->&Hq)%list_elem_of_fmap. rewrite elem_of_reverse in Hq. apply elem_of_list_to_set, HS. exact Hq.
  - unfold search_fuel, unvisited. rewrite length_fmap, length_reverse, difference_empty_L.
    unfold cost. rewrite (elements_list_to_set (C := gset nat) V HV). lia.
  - exists t. split; [done|].
    destruct (search_invariant (λ st vs t, visiting S0 st vs t ∧ (leave = true → leaving st vs t)) (search_fuel V S0) (flip mkWork false <$> reverse S0) ∅ [] t)
      as (vs&Hv&Hlv).
    + intros p st vs t1 [? ?]. split; [by apply visiting_leave | intros; apply leaving_leave; auto].
    + intros p st vs t1 Hp [? ?]. split; [by eapply visiting_skip | intros; eapply leaving_skip; eauto].
    + intros p st vs t1 Hp [? ?]. split; [by apply visiting_enter | intros; apply leaving_enter; auto].
    + split; [apply visiting_init | intros; apply leaving_init].
    + done.
    + pose proof (visiting_end S0 vs t Hv) as Hend. destruct Hv as [_ _ _ Hent Hno]. split.
      * destruct enter; [|done]. destruct Hent as [Hnd Hin]. split; [done|]. intros p. by rewrite Hin, Hend.
      * destruct leave; [|by apply Hno]. destruct (Hlv eq_refl) as [L1 L2 _ _ L5]. cbn in L1, L2. rewrite app_nil_r in L1.
        split_and!; [done | | done]. intros p. rewrite <- Hend, L2. split; [tauto|]. intros [?|[]%not_elem_of_nil]; done.
Qed.
End search.
