(* ===== verification/GraphAlgorithms.v ===== *)
(** * Algorithms on graphs

    [tensorflow/core/graph/algorithm.{h,cc}]: depth-first search forwards and backwards,
    the post orders, pruning to what some nodes depend on, and the control edges that
    tie every node to the source and the sink.

    The functions [enter] and [leave] are present or not and leave the graph alone: a
    search returns the calls it makes.  The order in which [std::unordered_set] gives
    its elements is that of a list. *)
From S2P Require Import Prelude Numbers Status EdgeSet Graph GraphInvariant GraphOps GraphSearch.
Local Open Scope Z_scope.

(** ** Depth-first search *)

Definition NodeComparator : Type := Node → Node → bool.

Definition NodeComparatorID : NodeComparator := λ n1 n2, id_ n1 <? id_ n2.
Definition NodeComparatorName : NodeComparator := λ n1 n2, String.ltb (node_name n1) (node_name n2).

Definition compare_at (cmp : NodeComparator) (g : Graph) (p q : nat) : bool :=
  match node_heap g !! p, node_heap g !! q with Some n, Some m => cmp n m | _, _ => false end.

Definition not_after (cmp : NodeComparator) (g : Graph) (p q : nat) : Prop := compare_at cmp g q p = false.
#[export] Instance not_after_dec cmp g : RelDecision (not_after cmp g).
Proof. intros p q. unfold not_after. apply _. Defined.

(** [std::sort] when there is a comparator. *)
Definition sort_nodes (cmp : option NodeComparator) (g : Graph) (l : list nat) : list nat :=
  match cmp with
  | Some cmp => merge_sort (not_after cmp g) l
  | None => l
  end.

(** [visited[n->id()]]. *)
Definition visited_at (g : Graph) (visited : list bool) (p : nat) : option bool :=
  n ← node_heap g !! p; visited !! Z.to_nat (id_ n).

(** [add_work], for the nodes in turn; the back of the stack comes first. *)
Fixpoint add_work (g : Graph) (visited : list bool) (l : list nat) (stack : list Work) : option (list Work) :=
  match l with
  | [] => Some stack
  | out :: l =>
      v ← visited_at g visited out;
      add_work g visited l (if v : bool then stack else mkWork out false :: stack)
  end.

Fixpoint dfs_loop (fuel : nat) (next : Node → Graph → list nat) (cmp : option NodeComparator) (enter leave : bool)
    (g : Graph) (stack : list Work) (visited : list bool) (t : list Event) : option (list Event) :=
  match fuel with
  | O => None
  | S fuel =>
      match stack with
      | [] => Some t
      | mkWork p true :: stack => dfs_loop fuel next cmp enter leave g stack visited (t ++ [Left p])
      | mkWork p false :: stack =>
          n ← node_heap g !! p;
          v ← visited !! Z.to_nat (id_ n);
          if v : bool then dfs_loop fuel next cmp enter leave g stack visited t else
          let visited := <[Z.to_nat (id_ n) := true]> visited in
          let t := if enter then t ++ [Entered p] else t in
          let stack := if leave then mkWork p true :: stack else stack in
          stack ← add_work g visited (sort_nodes cmp g (next n g)) stack;
          dfs_loop fuel next cmp enter leave g stack visited t
      end
  end.

(** The neighbours of the node at an address, in the order of the search. *)
Definition neighbours (next : Node → Graph → list nat) (cmp : option NodeComparator) (g : Graph) (p : nat) : list nat :=
  from_option (λ n, sort_nodes cmp g (next n g)) [] (node_heap g !! p).

(** Each node is entered once and puts its neighbours and itself on the stack. *)
Definition dfs_fuel (next : Node → Graph → list nat) (cmp : option NodeComparator) (g : Graph) (start : list nat) : nat :=
  search_fuel (neighbours next cmp g) (graph_nodes g) start.

Definition DFS (g : Graph) (enter leave : bool) (cmp : option NodeComparator) : option (list Event) :=
  source ← source_node g;
  dfs_loop (dfs_fuel out_nodes cmp g [source]) out_nodes cmp enter leave g [mkWork source false]
    (replicate (length (nodes_ g)) false) [].

(** [ReverseDFSFrom]: [stack[i]] is [start[i]], and the last is taken first. *)
Definition ReverseDFSFrom (g : Graph) (start : list nat) (enter leave : bool) (cmp : option NodeComparator) : option (list Event) :=
  dfs_loop (dfs_fuel in_nodes cmp g start) in_nodes cmp enter leave g ((λ p, mkWork p false) <$> reverse start)
    (replicate (length (nodes_ g)) false) [].

Definition ReverseDFS (g : Graph) (enter leave : bool) (cmp : option NodeComparator) : option (list Event) :=
  sink ← sink_node g; ReverseDFSFrom g [sink] enter leave cmp.

Definition GetPostOrder (g : Graph) (cmp : option NodeComparator) : option (list nat) :=
  left_ <$> DFS g false true cmp.

Definition GetReversePostOrder (g : Graph) (cmp : option NodeComparator) : option (list nat) :=
  reverse <$> GetPostOrder g cmp.

(** ** Pruning *)

(** The loop over [n->in_nodes()] that fills the queue. *)
Definition add_in_nodes (l : list nat) (qv : list nat * gset nat) : list nat * gset nat :=
  foldl (λ '(queue, visited) n, if bool_decide (n ∈ visited) then (queue, visited) else (queue ++ [n], {[n]} ∪ visited)) qv l.

Fixpoint reverse_reach (fuel : nat) (g : Graph) (queue : list nat) (visited : gset nat) : option (gset nat) :=
  match queue with
  | [] => Some visited
  | p :: queue =>
      match fuel with
      | O => None
      | S fuel =>
          n ← node_heap g !! p;
          let '(queue, visited) := add_in_nodes (in_nodes n g) (queue, visited) in
          reverse_reach fuel g queue visited
      end
  end.

Fixpoint remove_unvisited (visited : gset nat) (all_nodes : list nat) (g : Graph) (any_removed : bool) : option (bool * Graph) :=
  match all_nodes with
  | [] => Some (any_removed, g)
  | p :: all_nodes =>
      n ← node_heap g !! p;
      if negb (bool_decide (p ∈ visited)) && negb (IsSource n) && negb (IsSink n) then
        g ← RemoveNode p g; remove_unvisited visited all_nodes g true
      else remove_unvisited visited all_nodes g any_removed
  end.

(** [nodes] lists the elements of the set; a node is queued once. *)
Definition PruneForReverseReachability (g : Graph) (nodes : list nat) : option (bool * Graph) :=
  visited ← reverse_reach (length nodes + length (graph_nodes g)) g nodes (list_to_set nodes);
  remove_unvisited visited (graph_nodes g) g false.

(** ** Source and sink edges *)

Fixpoint fixup_nodes (ns : list nat) (g : Graph) (changed : bool) : option (bool * Graph) :=
  match ns with
  | [] => Some (changed, g)
  | p :: ns =>
      n ← node_heap g !! p;
      '(changed, g) ← (if negb (IsSource n) && EdgeSet_empty (in_edges_ n) then
                         source ← source_node g;
                         '(_, g) ← AddControlEdge source p false g;
                         Some (true, g)
                       else Some (changed, g));
      n ← node_heap g !! p;
      '(changed, g) ← (if negb (IsSink n) && EdgeSet_empty (out_edges_ n) then
                         sink ← sink_node g;
                         '(_, g) ← AddControlEdge p sink false g;
                         Some (true, g)
                       else Some (changed, g));
      fixup_nodes ns g changed
  end.

Definition FixupSourceAndSinkEdges (g : Graph) : option (bool * Graph) := fixup_nodes (graph_nodes g) g false.

(** ** Depth-first search is the search *)

(** An edge from one address to another. *)
Definition graph_edge (g : Graph) (p q : nat) : Prop :=
  ∃ e, live_edge g e ∧ edge_heap g !! e ≫= src_ = Some p ∧ edge_heap g !! e ≫= dst_ = Some q.

Lemma graph_edge_live g p q : wf g → graph_edge g p q → live_node g p ∧ live_node g q.
Proof.
  intros Hw (e&[i Hi]&Hs&Hd). destruct (w_edge _ Hw i e Hi) as (s&d&x&y&HE&?&?). rewrite HE in Hs, Hd. cbn in *.
  by injection Hs as <-; injection Hd as <-.
Qed.

Lemma elem_of_out_nodes g p n q : wf g → node_heap g !! p = Some n → q ∈ out_nodes n g ↔ graph_edge g p q.
Proof.
  intros Hw Hn. destruct (w_linked _ Hw p n Hn) as [Ho _]. unfold out_nodes, graph_edge. rewrite list_elem_of_omap.
  setoid_rewrite Ho. naive_solver.
Qed.

Lemma elem_of_in_nodes g p n q : wf g → node_heap g !! p = Some n → q ∈ in_nodes n g ↔ graph_edge g q p.
Proof.
  intros Hw Hn. destruct (w_linked _ Hw p n Hn) as [_ Hi]. unfold in_nodes, graph_edge. rewrite list_elem_of_omap.
  setoid_rewrite Hi. naive_solver.
Qed.

Lemma sort_nodes_perm cmp g l : sort_nodes cmp g l ≡ₚ l.
Proof. destruct cmp as [cmp|]; [apply merge_sort_Permutation | done]. Qed.

Lemma elem_of_graph_nodes g p : p ∈ graph_nodes g ↔ live_node g p.
Proof.
  unfold graph_nodes, live_node, is_node. rewrite list_elem_of_omap. split.
  - intros (o&Ho&Hp). cbn in Hp. subst o. by apply list_elem_of_lookup in Ho.
  - intros [i Hi]. exists (Some p). split; [by eapply list_elem_of_lookup_2 | done].
Qed.

Lemma graph_nodes_nodup g : wf g → NoDup (graph_nodes g).
Proof.
  intros Hw. assert (Hinj : ∀ i j p, nodes_ g !! i = Some (Some p) → nodes_ g !! j = Some (Some p) → i = j) by (intros; by eapply is_node_id).
  unfold graph_nodes. revert Hinj. generalize (nodes_ g). intros l. induction l as [|o l IH]; intros Hinj; [constructor|].
  assert (NoDup (omap id l)) by (apply IH; intros i j p Hi Hj; enough (S i = S j) by lia; by eapply Hinj).
  destruct o as [p|]; [|done]. cbn. apply NoDup_cons. split; [|done]. intros (o&Ho&Hp)%list_elem_of_omap. cbn in Hp. subst o.
  apply list_elem_of_lookup in Ho as [j Hj]. by assert (0 = S j)%nat by (by eapply (Hinj 0%nat (S j))).
Qed.

Section dfs.
Context (g : Graph) (Hw : wf g) (next : Node → Graph → list nat) (cmp : option NodeComparator) (enter leave : bool).
Context (Hnext : ∀ p n q, node_heap g !! p = Some n → q ∈ next n g → live_node g q).

(** [visited] holds the set [vs]. *)
Definition marks (visited : list bool) (vs : gset nat) : Prop :=
  ∀ p i, is_node g p i → visited !! i = Some (bool_decide (p ∈ vs)).

Lemma visited_marks visited vs p : marks visited vs → live_node g p → visited_at g visited p = Some (bool_decide (p ∈ vs)).
Proof.
  intros Hm [i Hi]. destruct (w_node _ Hw i p Hi) as (n&Hn&Hid&_). unfold visited_at. rewrite Hn. cbn. rewrite Hid, Nat2Z.id. by apply Hm.
Qed.

Lemma add_work_push visited vs l stack :
  marks visited vs → Forall (live_node g) l → add_work g visited l stack = Some (push vs l stack).
Proof.
  intros Hm. revert stack. induction l as [|q l IH]; intros stack Hl; [done|]. apply Forall_cons in Hl as [Hq Hl].
  cbn [add_work]. rewrite (visited_marks visited vs q Hm Hq). cbn [mbind option_bind]. rewrite IH by done. done.
Qed.

Lemma marks_insert visited vs p i : marks visited vs → is_node g p i → marks (<[i := true]> visited) ({[p]} ∪ vs).
Proof.
  intros Hm Hi q j Hj. pose proof (Hm p i Hi) as Hp. pose proof (Hm q j Hj) as Hq. destruct (decide (j = i)) as [->|Hne].
  - rewrite list_lookup_insert_eq by (by eapply lookup_lt_Some). unfold is_node in *. rewrite Hi in Hj. injection Hj as <-.
    rewrite bool_decide_true by set_solver. done.
  - rewrite list_lookup_insert_ne, Hq by done. f_equal. apply bool_decide_ext.
    assert (q ≠ p) by (intros ->; apply Hne; by eapply is_node_id). set_solver.
Qed.

Lemma dfs_loop_search fuel stack visited vs t :
  Forall (λ w, live_node g (work_node w)) stack → marks visited vs →
  dfs_loop fuel next cmp enter leave g stack visited t = search (neighbours next cmp g) enter leave fuel stack vs t.
Proof.
  revert stack visited vs t. induction fuel as [|fuel IH]; intros stack visited vs t Hst Hm; [done|].
  destruct stack as [|[p [|]] stack]; [done | |]; apply Forall_cons in Hst as [Hp Hst]; cbn [work_node] in Hp; cbn [dfs_loop search].
  - by apply IH.
  - destruct Hp as [i Hi]. destruct (w_node _ Hw i p Hi) as (n&Hn&Hid&_). rewrite Hn. cbn [mbind option_bind].
    rewrite Hid, Nat2Z.id, (Hm p i Hi). cbn [mbind option_bind]. case_bool_decide; [by apply IH|].
    assert (Hsucc : Forall (live_node g) (sort_nodes cmp g (next n g))).
    { rewrite sort_nodes_perm. apply Forall_forall. eauto. }
    pose proof (marks_insert visited vs p i Hm Hi) as Hm'. rewrite (add_work_push _ _ _ _ Hm' Hsucc). cbn [mbind option_bind].
    unfold neighbours at 2. rewrite Hn. cbn [from_option]. apply IH; [|done].
    apply Forall_forall. intros w Hwk. apply push_elem in Hwk as [(q&->&Hq&_)|Hwk].
    { rewrite Forall_forall in Hsucc. by apply Hsucc. }
    rewrite Forall_forall in Hst. destruct leave; [apply elem_of_cons in Hwk as [->|Hwk]; [by exists i|]|]; auto.
Qed.

Lemma dfs_correct start :
  (∀ p, p ∈ start → live_node g p) →
  ∃ t, dfs_loop (dfs_fuel next cmp g start) next cmp enter leave g ((λ p, mkWork p false) <$> reverse start)
         (replicate (length (nodes_ g)) false) [] = Some t ∧
    (if enter then NoDup (entered t) ∧ ∀ p, p ∈ entered t ↔ ∃ s, s ∈ start ∧ reach (neighbours next cmp g) s p else entered t = []) ∧
    (if leave then NoDup (left_ t) ∧ (∀ p, p ∈ left_ t ↔ ∃ s, s ∈ start ∧ reach (neighbours next cmp g) s p) ∧
       ordered (neighbours next cmp g) (left_ t) else left_ t = []).
Proof.
  intros Hs. rewrite (dfs_loop_search _ _ _ ∅).
  - apply search_correct; [by apply graph_nodes_nodup | |].
    + intros p q _ Hq. apply elem_of_graph_nodes. unfold edge, neighbours in Hq. destruct (node_heap g !! p) as [n|] eqn:Hn; cbn in Hq.
      * rewrite sort_nodes_perm in Hq. eauto.
      * by apply not_elem_of_nil in Hq.
    + intros p Hp. apply elem_of_graph_nodes. auto.
  - apply Forall_forall. intros w (q&->&Hq)%list_elem_of_fmap. rewrite elem_of_reverse in Hq. cbn. auto.
  - intros p i Hi. rewrite bool_decide_false by set_solver. apply lookup_replicate_2. by eapply lookup_lt_Some.
Qed.
End dfs.

Lemma edge_out g cmp p q : wf g → edge (neighbours out_nodes cmp g) p q ↔ graph_edge g p q.
Proof.
  intros Hw. unfold edge, neighbours. destruct (node_heap g !! p) as [n|] eqn:Hn; cbn [from_option].
  - rewrite sort_nodes_perm. by apply elem_of_out_nodes.
  - split; [by intros ?%not_elem_of_nil|]. intros [[n Hn']%live_node_heap _]%graph_edge_live; [|done..]. congruence.
Qed.

Lemma edge_in g cmp p q : wf g → edge (neighbours in_nodes cmp g) p q ↔ graph_edge g q p.
Proof.
  intros Hw. unfold edge, neighbours. destruct (node_heap g !! p) as [n|] eqn:Hn; cbn [from_option].
  - rewrite sort_nodes_perm. by apply elem_of_in_nodes.
  - split; [by intros ?%not_elem_of_nil|]. intros [_ [n Hn']%live_node_heap]%graph_edge_live; [|done..]. congruence.
Qed.

Lemma rtc_iff {A} (R S : relation A) x y : (∀ x y, R x y ↔ S x y) → rtc R x y ↔ rtc S x y.
Proof. intros HRS. split; induction 1; [constructor | | constructor |]; (eapply rtc_l; [by apply HRS | done]). Qed.

Lemma rtc_flip_iff {A} (R S : relation A) x y : (∀ x y, R x y ↔ S y x) → rtc R x y ↔ rtc S y x.
Proof. intros HRS. split; induction 1; [constructor | | constructor |]; (eapply rtc_r; [done | by apply HRS]). Qed.

Lemma reach_out g cmp p q : wf g → reach (neighbours out_nodes cmp g) p q ↔ rtc (graph_edge g) p q.
Proof. intros Hw. apply rtc_iff. intros x y. by apply edge_out. Qed.

Lemma reach_in g cmp p q : wf g → reach (neighbours in_nodes cmp g) p q ↔ rtc (graph_edge g) q p.
Proof. intros Hw. apply rtc_flip_iff. intros x y. by apply edge_in. Qed.

Lemma DFS_correct g s enter leave cmp :
  wf g → source_node g = Some s →
  ∃ t, DFS g enter leave cmp = Some t ∧
    (if enter then NoDup (entered t) ∧ ∀ p, p ∈ entered t ↔ rtc (graph_edge g) s p else entered t = []) ∧
    (if leave then NoDup (left_ t) ∧ (∀ p, p ∈ left_ t ↔ rtc (graph_edge g) s p) ∧
       ∀ l1 p l2, left_ t = l1 ++ p :: l2 → ∀ q, graph_edge g p q → q ∈ l1 ∨ rtc (graph_edge g) q p
     else left_ t = []).
Proof.
  intros Hw Hs. unfold DFS. rewrite Hs. cbn [mbind option_bind].
  destruct (dfs_correct g Hw out_nodes cmp enter leave) with (start := [s]) as (t&E&Hent&Hlv).
  - intros p n q Hn Hq. apply (elem_of_out_nodes g p n q Hw Hn) in Hq. by apply graph_edge_live in Hq as [_ ?].
  - intros p ->%list_elem_of_singleton. exists 0%nat. unfold source_node in Hs. unfold is_node. by destruct (nodes_ g !! 0%nat) as [[?|]|]; simplify_eq/=.
  - exists t. assert (Hin : ∀ p, (∃ s', s' ∈ [s] ∧ reach (neighbours out_nodes cmp g) s' p) ↔ rtc (graph_edge g) s p).
    { intros p. setoid_rewrite list_elem_of_singleton. rewrite <- (reach_out g cmp) by done. naive_solver. }
    split_and!; [exact E | |].
    + destruct enter; [|done]. destruct Hent as [Hnd Hent]. split; [done|]. intros p. by rewrite Hent.
    + destruct leave; [|done]. destruct Hlv as (Hnd&Hlv&Hord). split_and!; [done | intros p; by rewrite Hlv|].
      intros l1 p l2 Heq q Hq. rewrite <- (reach_out g cmp) by done. eapply Hord; [done|]. by apply edge_out.
Qed.

Lemma ReverseDFSFrom_correct g start enter leave cmp :
  wf g → (∀ p, p ∈ start → live_node g p) →
  ∃ t, ReverseDFSFrom g start enter leave cmp = Some t ∧
    (if enter then NoDup (entered t) ∧ ∀ p, p ∈ entered t ↔ ∃ s, s ∈ start ∧ rtc (graph_edge g) p s else entered t = []) ∧
    (if leave then NoDup (left_ t) ∧ (∀ p, p ∈ left_ t ↔ ∃ s, s ∈ start ∧ rtc (graph_edge g) p s) ∧
       ∀ l1 p l2, left_ t = l1 ++ p :: l2 → ∀ q, graph_edge g q p → q ∈ l1 ∨ rtc (graph_edge g) p q
     else left_ t = []).
Proof.
  intros Hw Hs. destruct (dfs_correct g Hw in_nodes cmp enter leave) with (start := start) as (t&E&Hent&Hlv).
  - intros p n q Hn Hq. apply (elem_of_in_nodes g p n q Hw Hn) in Hq. by apply graph_edge_live in Hq as [? _].
  - done.
  - exists t. split_and!; [exact E | |].
    + destruct enter; [|done]. destruct Hent as [Hnd Hent]. split; [done|]. intros p. rewrite Hent. by setoid_rewrite (reach_in g cmp).
    + destruct leave; [|done]. destruct Hlv as (Hnd&Hlv&Hord). split_and!; [done | intros p; rewrite Hlv; by setoid_rewrite (reach_in g cmp)|].
      intros l1 p l2 Heq q Hq. rewrite <- (reach_in g cmp) by done. eapply Hord; [done|]. by apply edge_in.
Qed.

(** ** A concrete graph *)

(** The source leads to [a], [a] to [b] and [c], and nothing to the sink but the source. *)
Definition demo_build : list GraphOp :=
  [OAddNode (mkNodeDef "a" "Op" [] ""); OAddNode (mkNodeDef "b" "Op" ["a"] ""); OAddNode (mkNodeDef "c" "Op" ["a"] "");
   OAddControlEdge 0 2 false; OAddEdge 2 0 4 0; OAddEdge 2 0 3 0]%string.

Definition demo_result : option Graph :=
  g0 ← @new_Graph demo_registry;
  snd <$> @exec_ops demo_registry (λ _, "")%string (λ _, "")%string demo_build g0.

Definition demo_graph : Graph := default (mkGraph ∅ ∅ 0 [] 0 [] 0 [] [] 0 [] ∅) demo_result.

Lemma demo_graph_wf : wf demo_graph.
Proof.
  destruct (@new_Graph_ok demo_registry 4) as (g0&E0&Hw0&Habs0); [reflexivity | intros def Hd; cbn; by rewrite bool_decide_true|].
  destruct (@ops_simulation demo_registry (λ _, "")%string (λ _, "")%string demo_build g0 [true; true; true; true; true; true]
    (default (mkSpec [] []) (snd <$> @spec_ops demo_registry demo_build (spec_new 4))) Hw0) as (g&E&Hw&_).
  { rewrite Habs0. vm_compute. reflexivity. }
  assert (demo_graph = g) as ->; [|done]. unfold demo_graph, demo_result. rewrite E0. cbn [mbind option_bind]. by rewrite E.
Qed.

(** C18: the reverse post order of a graph is computed by a search that ends; it has the
    nodes that the source leads to, each once, and every edge goes forward in it, but
    for an edge of a cycle.  On a graph without cycles it is a topological order. *)
Theorem reverse_post_order_topological g s cmp :
  wf g → source_node g = Some s →
  ∃ order, GetReversePostOrder g cmp = Some order ∧ NoDup order ∧
    (∀ p, p ∈ order ↔ rtc (graph_edge g) s p) ∧
    ∀ l1 p l2, order = l1 ++ p :: l2 → ∀ q, graph_edge g p q → q ∈ l2 ∨ rtc (graph_edge g) q p.
Proof.
  intros Hw Hs. destruct (DFS_correct g s false true cmp Hw Hs) as (t&E&_&Hnd&Hin&Hord). exists (reverse (left_ t)).
  unfold GetReversePostOrder, GetPostOrder. rewrite E. split_and!; [done | by rewrite reverse_Permutation | |].
  - intros p. by rewrite elem_of_reverse, Hin.
  - intros l1 p l2 Heq q Hq. apply (f_equal reverse) in Heq. rewrite reverse_involutive, reverse_app, reverse_cons, <- app_assoc in Heq.
    destruct (Hord _ _ _ Heq q Hq) as [Hl|]; [left; by rewrite elem_of_reverse in Hl | by right].
Qed.

Lemma reverse_post_order_topological_witness :
  ∃ s order, source_node demo_graph = Some s ∧ GetReversePostOrder demo_graph None = Some order ∧ NoDup order ∧
    node_id demo_graph <$> order = [Some 0; Some 1; Some 2; Some 4; Some 3]%nat.
Proof.
  destruct (source_node demo_graph) as [s|] eqn:Hs; [|vm_compute in Hs; discriminate].
  destruct (reverse_post_order_topological demo_graph s None demo_graph_wf Hs) as (order&E&Hnd&_). exists s, order. split_and!; [done.. |].
  assert (option_map (λ l : list nat, node_id demo_graph <$> l) (GetReversePostOrder demo_graph None) = Some [Some 0; Some 1; Some 2; Some 4; Some 3]%nat) as E'
    by (vm_compute; reflexivity). rewrite E in E'. by injection E'.
Defined.

(** ** What is needed is kept *)

Lemma add_in_nodes_spec l queue visited :
  ∃ new, add_in_nodes l (queue, visited) = (queue ++ new, list_to_set new ∪ visited) ∧ NoDup new ∧
    (∀ x, x ∈ new → x ∈ l ∧ x ∉ visited) ∧ (∀ x, x ∈ l → x ∈ new ∨ x ∈ visited).
Proof.
  unfold add_in_nodes. revert queue visited. induction l as [|y l IH]; intros queue visited.
  - exists []. split_and!; [cbn; f_equal; [by rewrite app_nil_r | set_solver] | constructor | set_solver | set_solver].
  - cbn [foldl]. case_bool_decide as Hy.
    + destruct (IH queue visited) as (new&->&Hnd&H1&H2). exists new. split_and!; set_solver.
    + destruct (IH (queue ++ [y]) ({[y]} ∪ visited)) as (new&->&Hnd&H1&H2). exists (y :: new). split_and!.
      * f_equal; [by rewrite <- app_assoc | set_solver].
      * apply NoDup_cons. split; [|done]. intros Hn. apply H1 in Hn. set_solver.
      * intros x [->|Hx]%elem_of_cons; [set_solver|]. apply H1 in Hx. set_solver.
      * intros x [->|Hx]%elem_of_cons; [set_solver|]. apply H2 in Hx. set_solver.
Qed.

Lemma size_remove (V visited : gset nat) (new : list nat) :
  NoDup new → (∀ x, x ∈ new → x ∈ V ∧ x ∉ visited) →
  (length new + size (V ∖ (list_to_set new ∪ visited)) = size (V ∖ visited))%nat.
Proof.
  intros Hnd Hnew. rewrite <- (size_list_to_set (C := gset nat) new Hnd), <- size_union by set_solver.
  f_equal. apply set_eq. intros x. destruct (decide (x ∈ new)); set_solver.
Qed.

Lemma reverse_reach_ok g fuel queue visited :
  wf g → (∀ p, p ∈ queue → live_node g p) → (∀ p, p ∈ queue → p ∈ visited) →
  (∀ p q, p ∈ visited → p ∉ queue → graph_edge g q p → q ∈ visited) →
  (length queue + size (list_to_set (graph_nodes g) ∖ visited) ≤ fuel)%nat →
  ∃ vs, reverse_reach fuel g queue visited = Some vs ∧
    ∀ p, p ∈ vs ↔ ∃ t, t ∈ visited ∧ rtc (graph_edge g) p t.
Proof.
  intros Hw. revert queue visited. induction fuel as [|fuel IH]; intros queue visited Hlive Hsub Hclosed Hf.
  all: destruct queue as [|p queue]; [exists visited; split; [done|]; intros p; split; [by exists p; split; [|constructor]|];
    intros (t&Ht&Hr); induction Hr; [done|]; eapply Hclosed; [by apply IHHr | apply not_elem_of_nil | done] |].
  { cbn in Hf. lia. }
  cbn [reverse_reach]. destruct (Hlive p) as [i Hi]; [left|]. destruct (w_node _ Hw i p Hi) as (n&Hn&_). rewrite Hn. cbn [mbind option_bind].
  destruct (add_in_nodes_spec (in_nodes n g) queue visited) as (new&->&Hnd&H1&H2).
  assert (Hin : ∀ q, q ∈ in_nodes n g ↔ graph_edge g q p) by (intros q; by apply elem_of_in_nodes).
  assert (Hnew : ∀ x, x ∈ new → live_node g x).
  { intros x Hx. apply H1 in Hx as [Hx _]. by apply Hin, graph_edge_live in Hx as [? _]. }
  destruct (IH (queue ++ new) (list_to_set new ∪ visited)) as (vs&E&Hvs).
  - intros q [Hq|Hq]%elem_of_app; [apply Hlive; by right | auto].
  - intros q [Hq|Hq]%elem_of_app; [assert (q ∈ visited) by (apply Hsub; by right)|]; set_solver.
  - intros q r Hq Hnq Hr. rewrite not_elem_of_app in Hnq. destruct Hnq as [Hn1 Hn2].
    assert (q ∈ visited) as Hqv by set_solver. destruct (decide (q = p)) as [->|Hne].
    + apply Hin, H2 in Hr. set_solver.
    + apply elem_of_union_r. eapply Hclosed; [done | set_solver | done].
  - pose proof (size_remove (list_to_set (graph_nodes g)) visited new Hnd) as Hsz. rewrite length_app. cbn [length] in Hf.
    rewrite <- Hsz in Hf; [lia|]. intros x Hx. split; [|by apply H1]. apply elem_of_list_to_set, elem_of_graph_nodes. auto.
  - exists vs. split; [done|]. intros q. rewrite Hvs. split.
    + intros (t&[Ht|Ht]%elem_of_union&Hr); [|eauto]. apply elem_of_list_to_set, H1 in Ht as [Ht%Hin _].
      exists p. split; [apply Hsub; left|]. by eapply rtc_r.
    + intros (t&Ht&Hr). exists t. split; [set_solver | done].
Qed.

(** The nodes with the ids of [D] are gone, with the edges at them. *)
Definition without (D : gset nat) (sg sg' : Spec) : Prop :=
  (∀ i, spec_node sg' i = if decide (i ∈ D) then None else spec_node sg i) ∧
  (∀ k, spec_arc sg' k = a ← spec_arc sg k; if decide (arc_src a ∈ D ∨ arc_dst a ∈ D) then None else Some a).

Lemma without_empty sg : without ∅ sg sg.
Proof.
  split; [intros i; by rewrite decide_False by set_solver|]. intros k. destruct (spec_arc sg k) as [a|]; [|done]. cbn.
  by rewrite decide_False by set_solver.
Qed.

Lemma without_node i D sg sg' :
  (i < length (s_nodes sg))%nat →
  without D (mkSpec (<[i := None]> (s_nodes sg)) (drop_arcs (touches i) (s_arcs sg))) sg' → without ({[i]} ∪ D) sg sg'.
Proof.
  intros Hi [Hn Ha]. split.
  - intros j. rewrite Hn. unfold spec_node. cbn. destruct (decide (j = i)) as [->|Hne].
    + rewrite list_lookup_insert_eq by done. rewrite (decide_True (P := i ∈ {[i]} ∪ D)) by set_solver. by case_decide.
    + rewrite list_lookup_insert_ne by done. destruct (decide (j ∈ D)); [rewrite decide_True by set_solver | rewrite decide_False by set_solver]; done.
  - intros k. rewrite Ha. unfold spec_arc, drop_arcs. cbn. rewrite list_lookup_fmap. destruct (s_arcs sg !! k) as [[a|]|]; [|done..]. cbn.
    unfold touches. destruct (decide (arc_dst a = i)) as [->|H1].
    { rewrite Nat.eqb_refl. cbn. by rewrite decide_True by set_solver. }
    rewrite (proj2 (Nat.eqb_neq _ _) H1). destruct (decide (arc_src a = i)) as [->|H2].
    { rewrite Nat.eqb_refl. cbn. by rewrite decide_True by set_solver. }
    rewrite (proj2 (Nat.eqb_neq _ _) H2). cbn.
    destruct (decide (arc_src a ∈ D ∨ arc_dst a ∈ D)); [rewrite decide_True by set_solver | rewrite decide_False by set_solver]; done.
Qed.

Lemma remove_unvisited_ok visited ns g b :
  wf g → NoDup ns → (∀ p, p ∈ ns → live_node g p) →
  ∃ g' (D : gset nat), remove_unvisited visited ns g b = Some (b || negb (bool_decide (D = ∅)), g') ∧ wf g' ∧ without D (abs g) (abs g') ∧
    ∀ i, i ∈ D ↔ ∃ p, p ∈ ns ∧ is_node g p i ∧ (p ∉ visited) ∧ i ≠ 0%nat ∧ i ≠ 1%nat.
Proof.
  revert g b. induction ns as [|p ns IH]; intros g b Hw Hnd Hlive.
  { exists g, ∅. cbn. rewrite bool_decide_true by done. rewrite orb_false_r. split_and!; [done | done | apply without_empty|].
    intros i. split; [set_solver|]. intros (p&[]%not_elem_of_nil&_). }
  apply NoDup_cons in Hnd as [Hp Hnd]. destruct (Hlive p) as [i Hi]; [left|]. destruct (w_node _ Hw i p Hi) as (n&Hn&_).
  destruct (spec_node_at g p i n Hw Hi Hn) as (props&_&_&_&_&Hsrc&Hsink). cbn [remove_unvisited]. rewrite Hn. cbn [mbind option_bind].
  rewrite Hsrc, Hsink. destruct (negb (bool_decide (p ∈ visited)) && negb (bool_decide (i = 0%nat)) && negb (bool_decide (i = 1%nat))) eqn:Hc.
  - destruct (RemoveNode_abs g p i Hw Hi) as (g1&->&Hw1&Hnodes1&Habs1). cbn [mbind option_bind].
    assert (Hstill : ∀ q j, is_node g1 q j ↔ j ≠ i ∧ is_node g q j).
    { intros q j. unfold is_node. rewrite Hnodes1. apply insert_none_Some. }
    destruct (IH g1 true Hw1 Hnd) as (g'&D&->&Hw'&Hwo&HD).
    { intros q Hq. destruct (Hlive q) as [j Hj]; [by right|]. exists j. apply Hstill. split; [|done]. intros ->.
      unfold is_node in *. congruence. }
    exists g', ({[i]} ∪ D). rewrite (bool_decide_false ({[i]} ∪ D = ∅)) by set_solver. rewrite orb_true_r. cbn. split_and!; [done | done | |].
    + rewrite Habs1 in Hwo. apply without_node; [|exact Hwo]. cbn. unfold abs_nodes. rewrite length_fmap. by eapply lookup_lt_Some.
    + rewrite !andb_true_iff, !negb_true_iff, !bool_decide_eq_false in Hc. intros j. rewrite elem_of_union, elem_of_singleton, HD. setoid_rewrite Hstill. split.
      * intros [->|(q&Hq&[_ Hj]&Hrest)]; [exists p | exists q]; split_and!; try tauto; [left | by right].
      * intros (q&[->|Hq]%elem_of_cons&Hj&Hrest).
        -- left. exact (is_node_id g p j i Hw Hj Hi).
        -- destruct (decide (j = i)); [tauto|]. right. exists q. tauto.
  - destruct (IH g b Hw Hnd) as (g'&D&->&Hw'&Hwo&HD); [intros q Hq; apply Hlive; by right|]. exists g', D. split_and!; try done.
    intros j. rewrite HD. split; intros (q&Hq&Hrest); exists q; [split; [by right | done]|].
    apply elem_of_cons in Hq as [->|Hq]; [|done]. exfalso. destruct Hrest as (Hj&Hv&H0&H1). assert (j = i) as -> by exact (is_node_id g p j i Hw Hj Hi).
    rewrite !bool_decide_false in Hc by done. done.
Qed.

(** The ids that pruning to [nodes] keeps. *)
Definition kept (g : Graph) (nodes : list nat) (i : nat) : Prop :=
  i = 0%nat ∨ i = 1%nat ∨ ∃ p t, is_node g p i ∧ t ∈ nodes ∧ rtc (graph_edge g) p t.

(** Pruning ends without a failed check and keeps exactly the source, the sink and
    the nodes that lead to one of the given ones, with the properties they had, and
    exactly the edges between kept nodes; the result tells whether a node was removed. *)
Lemma prune_keeps g nodes :
  wf g → (∀ p, p ∈ nodes → live_node g p) →
  ∃ (b : bool) g', PruneForReverseReachability g nodes = Some (b, g') ∧ wf g' ∧
    (∀ i, kept g nodes i → spec_node (abs g') i = spec_node (abs g) i) ∧
    (∀ i, ¬ kept g nodes i → spec_node (abs g') i = None) ∧
    (∀ k a, spec_arc (abs g') k = Some a ↔
      spec_arc (abs g) k = Some a ∧ kept g nodes (arc_src a) ∧ kept g nodes (arc_dst a)) ∧
    (b = true ↔ ∃ i, is_Some (spec_node (abs g) i) ∧ ¬ kept g nodes i).
Proof.
  intros Hw Hlive. unfold PruneForReverseReachability.
  destruct (reverse_reach_ok g (length nodes + length (graph_nodes g)) nodes (list_to_set nodes) Hw Hlive) as (vs&->&Hvs).
  { intros p Hp. by apply elem_of_list_to_set. }
  { intros p q Hp%elem_of_list_to_set Hn. done. }
  { assert (size (list_to_set (graph_nodes g) ∖ list_to_set nodes : gset nat) ≤ size (list_to_set (graph_nodes g) : gset nat))%nat
      by (apply subseteq_size; set_solver).
    rewrite (size_list_to_set (C := gset nat) (graph_nodes g)) in H by (by apply graph_nodes_nodup). lia. }
  cbn [mbind option_bind].
  destruct (remove_unvisited_ok vs (graph_nodes g) g false Hw (graph_nodes_nodup g Hw)) as (g'&D&->&Hw'&[Hn Ha]&HD).
  { intros p. apply elem_of_graph_nodes. }
  assert (HK : ∀ i p, is_node g p i → kept g nodes i ↔ i ∉ D).
  { intros i p Hi. unfold kept. split.
    - intros Hk (q&_&Hq&Hv&H0&H1)%HD. destruct Hk as [|[|(q'&t&Hq'&Ht&Hr)]]; [done | done|]. apply Hv, Hvs. exists t.
      split; [by apply elem_of_list_to_set|]. unfold is_node in *. congruence.
    - intros Hi'. destruct (decide (i = 0%nat)); [tauto|]. destruct (decide (i = 1%nat)); [tauto|].
      destruct (decide (p ∈ vs)) as [(t&Ht&Hr)%Hvs|Hv].
      + right. right. exists p, t. split_and!; [done | by apply elem_of_list_to_set in Ht | done].
      + destruct Hi'. apply HD. exists p. split_and!; try done. apply elem_of_graph_nodes. by exists i. }
  assert (HD' : ∀ i, i ∈ D → ∃ p, is_node g p i) by (intros i (p&_&Hp&_)%HD; eauto).
  exists (false || negb (bool_decide (D = ∅))), g'. split_and!; [done | done | | | |].
  - intros i Hk. rewrite Hn, decide_False; [done|]. intros Hi. destruct (HD' i Hi) as [p Hp]. by apply (HK i p Hp) in Hk.
  - intros i Hk. rewrite Hn. case_decide as Hi; [done|]. destruct (spec_node (abs g) i) eqn:E; [|done].
    destruct (proj1 (spec_node_is g i Hw)) as [p Hp]; [eauto|]. by apply (HK i p Hp) in Hi.
  - intros k a. rewrite Ha. destruct (spec_arc (abs g) k) as [a'|] eqn:E; cbn; [|naive_solver].
    destruct (spec_arc_is g k a' Hw E) as (e&He&Harc). destruct (arc_of_is g e k Hw He) as (s&d&x&y&si&di&_&Hsi&Hdi&Harc').
    rewrite Harc in Harc'. injection Harc' as ->. cbn. pose proof (HK si s Hsi). pose proof (HK di d Hdi).
    case_decide; (split; [intros [=] | intros ([=]&?&?)]); subst; cbn in *; tauto.
  - cbn. rewrite negb_true_iff, bool_decide_eq_false. split.
    + intros Hne. destruct (set_choose_L D Hne) as [i Hi]. exists i. destruct (HD' i Hi) as [p Hp].
      split; [apply spec_node_is; eauto|]. intros Hk. by apply (HK i p Hp) in Hk.
    + intros (i&[p Hp]%spec_node_is&Hk) ->; [|done]. apply Hk, (HK i p Hp). set_solver.
Qed.

Lemma demo_b : nodes_ demo_graph !! 3%nat = Some (Some 4%nat).
Proof. vm_compute. reflexivity. Qed.

Lemma demo_pruned : fst <$> PruneForReverseReachability demo_graph [4%nat] = Some true.
Proof. vm_compute. reflexivity. Qed.

(** The nodes on a path from the source [s] to a given node. *)
Definition on_path (g : Graph) (s : nat) (nodes : list nat) (i : nat) : Prop :=
  ∃ p t, is_node g p i ∧ t ∈ nodes ∧ rtc (graph_edge g) s p ∧ rtc (graph_edge g) p t.

(** C19: pruning a graph in which the source leads to every node keeps, besides the source
    and the sink, exactly the nodes on some path from the source to a given node, with the
    properties they had, and exactly the edges between the nodes that stay; no check
    fails, and the result tells whether a node was removed. *)
Theorem prune_keeps_paths g s nodes :
  wf g → source_node g = Some s → (∀ p, live_node g p → rtc (graph_edge g) s p) →
  (∀ p, p ∈ nodes → live_node g p) →
  let stays i := i = 0%nat ∨ i = 1%nat ∨ on_path g s nodes i in
  ∃ (b : bool) g', PruneForReverseReachability g nodes = Some (b, g') ∧ wf g' ∧
    (∀ i, stays i → spec_node (abs g') i = spec_node (abs g) i) ∧
    (∀ i, ¬ stays i → spec_node (abs g') i = None) ∧
    (∀ k a, spec_arc (abs g') k = Some a ↔ spec_arc (abs g) k = Some a ∧ stays (arc_src a) ∧ stays (arc_dst a)) ∧
    (b = true ↔ ∃ i, is_Some (spec_node (abs g) i) ∧ ¬ stays i).
Proof.
  intros Hw _ Hled Hlive stays. assert (Hk : ∀ i, kept g nodes i ↔ stays i).
  { intros i. unfold kept, stays, on_path. split.
    - intros [?|[?|(p&t&Hp&Ht&Hr)]]; [tauto | tauto|]. right. right. exists p, t. split_and!; try done. apply Hled. by exists i.
    - intros [?|[?|(p&t&Hp&Ht&_&Hr)]]; [tauto | tauto|]. right. right. by exists p, t. }
  destruct (prune_keeps g nodes Hw Hlive) as (b&g'&E&Hw'&H1&H2&H3&H4). exists b, g'. split_and!; [done | done | | | |].
  - intros i Hi. by apply H1, Hk.
  - intros i Hi. apply H2. by rewrite Hk.
  - intros k a. by rewrite H3, !Hk.
  - rewrite H4. by setoid_rewrite Hk.
Qed.

Lemma demo_source : source_node demo_graph = Some 0%nat.
Proof. vm_compute. reflexivity. Qed.

Lemma demo_order : left_ <$> DFS demo_graph false true None = Some [4; 5; 3; 1; 0]%nat.
Proof. vm_compute. reflexivity. Qed.

Lemma demo_nodes : omap id (nodes_ demo_graph) = [0; 1; 3; 4; 5]%nat.
Proof. vm_compute. reflexivity. Qed.

Lemma demo_connected p : live_node demo_graph p → rtc (graph_edge demo_graph) 0%nat p.
Proof.
  intros [i Hi]. destruct (DFS_correct demo_graph 0%nat false true None demo_graph_wf demo_source) as (t&E&_&_&Hin&_).
  apply Hin. pose proof demo_order as Ho. rewrite E in Ho. apply (f_equal (default [])) in Ho. cbn [fmap option_fmap option_map default from_option] in Ho.
  assert (Hp : p ∈ omap id (nodes_ demo_graph)) by (apply list_elem_of_omap; exists (Some p); split; [by eapply list_elem_of_lookup_2 | done]).
  rewrite demo_nodes in Hp. unfold id in Ho. rewrite Ho. clear -Hp. rewrite !elem_of_cons in Hp |- *. tauto.
Qed.

Lemma prune_keeps_paths_witness :
  ∃ (b : bool) g', PruneForReverseReachability demo_graph [4%nat] = Some (b, g') ∧ b = true ∧
    (∀ i, ¬ (i = 0%nat ∨ i = 1%nat ∨ on_path demo_graph 0 [4%nat] i) → spec_node (abs g') i = None).
Proof.
  destruct (prune_keeps_paths demo_graph 0%nat [4%nat] demo_graph_wf demo_source demo_connected) as (b&g'&E&_&_&Hk&_).
  - intros q ->%list_elem_of_singleton. exists 3%nat. exact demo_b.
  - exists b, g'. split_and!; [exact E | | exact Hk]. pose proof demo_pruned as E'. rewrite E in E'. by injection E'.
Defined.

(** ** Every node is tied to the source and the sink *)

Lemma no_arcs_at g p i n d :
  wf g → is_node g p i → node_heap g !! p = Some n → EdgeSet_empty (set_at d n) = true ↔ ∀ k a, abs_arcs g !! k = Some (Some a) → end_at d a ≠ i.
Proof.
  intros Hw Hi Hn. destruct (set_at_ok g p i n d Hw Hi Hn) as [Hs He]. rewrite (empty_spec _ Hs). split.
  - intros Hnil k a (e&Hk&Ha)%abs_arcs_at Hend; [|done]. apply (not_elem_of_nil e). rewrite <- Hnil. apply He. eauto.
  - intros Hno. destruct (elems (set_at d n)) as [|e l] eqn:Hel; [done|]. exfalso.
    destruct (proj1 (He e)) as (k&a&Hk&Ha&Hend); [left|]. apply (Hno k a); [apply abs_arcs_at; eauto | done].
Qed.

Lemma tie_ok g p i q j d :
  wf g → is_node g p i → is_node g q j → i = 0%nat ∨ j = 1%nat →
  (∀ k a, abs_arcs g !! k = Some (Some a) → end_at d a ≠ if d then j else i) →
  ∃ e g', AddControlEdge p q false g = Some (e, g') ∧ wf g' ∧ nodes_ g' = nodes_ g ∧
    abs g' = mkSpec (abs_nodes g) (abs_arcs g ++ [Some (i, kControlSlot, j, kControlSlot)]).
Proof.
  intros Hw Hi Hj Hij Hno. destruct (AddControlEdge_abs g p i q j false Hw Hi Hj) as (e&g'&b&E&Hw'&Hnodes&_&Hsp). exists e, g'. split_and!; try done.
  destruct (w_node _ Hw i p Hi) as (n&Hn&_). destruct (w_node _ Hw j q Hj) as (m&Hm&_).
  destruct (spec_node_at g p i n Hw Hi Hn) as (pi&_&_&Hpi&_). destruct (spec_node_at g q j m Hw Hj Hm) as (pj&_&Hat&Hpj&_).
  unfold spec_AddControlEdge in Hsp. rewrite Hpi, Hpj in Hsp. cbn [mbind option_bind] in Hsp.
  assert (has_arc (is_control i j) (s_arcs (abs g)) = false) as Hha.
  { apply not_true_iff_false. unfold has_arc. rewrite existsb_exists. intros ([a|]&Hin%list_elem_of_In&Ha); [|done].
    apply list_elem_of_lookup in Hin as [k Hk]. apply (Hno k a Hk). unfold is_control in Ha.
    apply andb_prop in Ha as [[_ Hs%Nat.eqb_eq]%andb_prop Hd%Nat.eqb_eq]. by destruct d. }
  rewrite Hha in Hsp. cbn [negb andb] in Hsp.
  assert (bool_decide (i ≠ 0%nat) && bool_decide (j ≠ 1%nat) = false) as Hb.
  { destruct Hij as [-> | ->]; [done|]. by rewrite (bool_decide_false (1%nat ≠ 1%nat)), andb_false_r by auto. }
  rewrite Hb in Hsp. cbn [andb] in Hsp. injection Hsp as _ Hn1 Ha1. unfold abs. rewrite <- Hn1, <- Ha1. f_equal. by apply list_insert_same.
Qed.

(** A node has an incoming and an outgoing edge, unless it is the source, or the sink. *)
Definition tied (arcs : list (option Arc)) (i : nat) : Prop :=
  (i ≠ 0%nat → ∃ a, Some a ∈ arcs ∧ arc_dst a = i) ∧ (i ≠ 1%nat → ∃ a, Some a ∈ arcs ∧ arc_src a = i).

Definition tying (a : Arc) : Prop :=
  arc_out a = kControlSlot ∧ arc_in a = kControlSlot ∧ (arc_src a = 0%nat ∨ arc_dst a = 1%nat).

(** One side of a node: [d] for its incoming edges. *)
Definition tie_side (d : bool) (p : nat) (g : Graph) (changed : bool) : option (bool * Graph) :=
  n ← node_heap g !! p;
  if negb (if d then IsSource n else IsSink n) && EdgeSet_empty (set_at d n) then
    other ← (if d then source_node g else sink_node g);
    '(_, g) ← (if d then AddControlEdge other p false g else AddControlEdge p other false g);
    Some (true, g)
  else Some (changed, g).

Lemma fixup_nodes_cons p ns g changed :
  fixup_nodes (p :: ns) g changed =
  '(changed, g) ← tie_side true p g changed; '(changed, g) ← tie_side false p g changed; fixup_nodes ns g changed.
Proof.
  cbn [fixup_nodes].
  assert (Hrest : ∀ c g1,
    (n0 ← node_heap g1 !! p;
     '(c, g2) ← (if negb (IsSink n0) && EdgeSet_empty (out_edges_ n0) then
                   sink ← sink_node g1; '(_, g2) ← AddControlEdge p sink false g1; Some (true, g2)
                 else Some (c, g1));
     fixup_nodes ns g2 c) = ('(c, g2) ← tie_side false p g1 c; fixup_nodes ns g2 c)).
  { intros c g1. unfold tie_side. by destruct (node_heap g1 !! p). }
  unfold tie_side at 2. destruct (node_heap g !! p) as [n|]; [|done]. cbn [mbind option_bind].
  change (set_at true n) with (in_edges_ n). cbv iota.
  destruct (negb (IsSource n) && EdgeSet_empty (in_edges_ n)); [|apply Hrest].
  destruct (source_node g) as [s|]; [|done]. cbn [mbind option_bind]. destruct (AddControlEdge s p false g) as [[e g1]|]; [|done]. apply Hrest.
Qed.

Lemma tie_side_ok d p i g changed :
  wf g → is_node g p i → is_Some (source_node g) → is_Some (sink_node g) →
  ∃ g' (new : list Arc), tie_side d p g changed = Some (changed || negb (bool_decide (new = [])), g') ∧ wf g' ∧ nodes_ g' = nodes_ g ∧
    abs g' = mkSpec (abs_nodes g) (abs_arcs g ++ (Some <$> new)) ∧ Forall tying new ∧
    (i ≠ (if d then 0 else 1)%nat → ∃ a, Some a ∈ abs_arcs g' ∧ end_at d a = i).
Proof.
  intros Hw Hi [s Hs] [t Ht]. unfold tie_side. destruct (w_node _ Hw i p Hi) as (n&Hn&_). rewrite Hn. cbn [mbind option_bind].
  destruct (spec_node_at g p i n Hw Hi Hn) as (props&_&_&_&_&Hsrc&Hsink).
  assert (Hend : (if d then IsSource n else IsSink n) = bool_decide (i = if d then 0 else 1)%nat) by (by destruct d). rewrite Hend. clear Hsrc Hsink Hend.
  assert (Hs0 : is_node g s 0) by (unfold source_node in Hs; unfold is_node; by destruct (nodes_ g !! 0%nat) as [[?|]|]; simplify_eq/=).
  assert (Ht1 : is_node g t 1) by (unfold sink_node in Ht; unfold is_node; by destruct (nodes_ g !! 1%nat) as [[?|]|]; simplify_eq/=).
  destruct (EdgeSet_empty (set_at d n)) eqn:Hemp; [case_bool_decide as Hid|].
  - exists g, []. cbn. rewrite app_nil_r, orb_false_r. split_and!; done.
  - cbn [negb andb]. pose proof (proj1 (no_arcs_at g p i n d Hw Hi Hn) Hemp) as Hno. destruct d; cbn [end_at set_at] in *.
    + rewrite Hs. cbn [mbind option_bind]. destruct (tie_ok g s 0 p i true Hw Hs0 Hi) as (e&g'&->&Hw'&Hnodes&Habs); [by left | done|].
      exists g', [(0%nat, kControlSlot, i, kControlSlot)]. cbn [mbind option_bind]. rewrite orb_true_r. split_and!; try done.
      * constructor; [|done]. by split_and!; [| | left].
      * intros _. exists (0%nat, kControlSlot, i, kControlSlot). split; [|done]. injection Habs as _ ->. apply elem_of_app. right. left.
    + rewrite Ht. cbn [mbind option_bind]. destruct (tie_ok g p i t 1 false Hw Hi Ht1) as (e&g'&->&Hw'&Hnodes&Habs); [by right | done|].
      exists g', [(i, kControlSlot, 1%nat, kControlSlot)]. cbn [mbind option_bind]. rewrite orb_true_r. split_and!; try done.
      * constructor; [|done]. by split_and!; [| | right].
      * intros _. exists (i, kControlSlot, 1%nat, kControlSlot). split; [|done]. injection Habs as _ ->. apply elem_of_app. right. left.
  - rewrite andb_false_r. exists g, []. cbn. rewrite app_nil_r, orb_false_r. split_and!; try done. intros _.
    destruct (elems (set_at d n)) as [|e l] eqn:Hel.
    { apply (empty_spec _ (proj1 (set_at_ok g p i n d Hw Hi Hn))) in Hel. congruence. }
    destruct (proj1 (proj2 (set_at_ok g p i n d Hw Hi Hn) e)) as (k&a&Hk&Ha&Hend); [rewrite Hel; left|].
    exists a. split; [|done]. apply (list_elem_of_lookup_2 _ k). apply abs_arcs_at; eauto.
Qed.

Lemma tied_app l l' i : tied l i → tied (l ++ l') i.
Proof.
  intros [H1 H2]. split; [intros Hi; destruct (H1 Hi) as (a&Ha&?) | intros Hi; destruct (H2 Hi) as (a&Ha&?)];
    exists a; (split; [apply elem_of_app; by left | done]).
Qed.

Lemma same_ids g g' : nodes_ g' = nodes_ g → source_node g' = source_node g ∧ sink_node g' = sink_node g.
Proof. intros Hn. unfold source_node, sink_node. by rewrite Hn. Qed.

Lemma fixup_nodes_ok ns g changed :
  wf g → (∀ p, p ∈ ns → live_node g p) → is_Some (source_node g) → is_Some (sink_node g) →
  ∃ g' (new : list Arc), fixup_nodes ns g changed = Some (changed || negb (bool_decide (new = [])), g') ∧ wf g' ∧
    abs g' = mkSpec (abs_nodes g) (abs_arcs g ++ (Some <$> new)) ∧ Forall tying new ∧
    ∀ p i, p ∈ ns → is_node g p i → tied (abs_arcs g') i.
Proof.
  revert g changed. induction ns as [|p ns IH]; intros g changed Hw Hlive Hs Ht.
  { exists g, []. cbn. rewrite app_nil_r, orb_false_r. split_and!; [done.. |]. by intros p i []%not_elem_of_nil. }
  destruct (Hlive p) as [i Hi]; [left|]. rewrite fixup_nodes_cons.
  destruct (tie_side_ok true p i g changed Hw Hi Hs Ht) as (g1&new1&->&Hw1&Hn1&Habs1&Hty1&Hend1). cbn [mbind option_bind].
  destruct (same_ids g g1 Hn1) as [Hs1 Ht1]. assert (Hi1 : is_node g1 p i) by (unfold is_node; by rewrite Hn1).
  destruct (tie_side_ok false p i g1 (changed || negb (bool_decide (new1 = []))) Hw1 Hi1) as (g2&new2&->&Hw2&Hn2&Habs2&Hty2&Hend2); [by rewrite Hs1 | by rewrite Ht1|].
  cbn [mbind option_bind]. destruct (same_ids g1 g2 Hn2) as [Hs2 Ht2].
  destruct (IH g2 (changed || negb (bool_decide (new1 = [])) || negb (bool_decide (new2 = []))) Hw2) as (g'&new3&->&Hw'&Habs'&Hty3&Htied).
  { intros q Hq. destruct (Hlive q) as [j Hj]; [by right|]. exists j. unfold is_node. by rewrite Hn2, Hn1. }
  { by rewrite Hs2, Hs1. } { by rewrite Ht2, Ht1. }
  injection Habs1 as Hnodes1 Harcs1. injection Habs2 as Hnodes2 Harcs2. injection Habs' as Hnodes3 Harcs3.
  exists g', (new1 ++ new2 ++ new3). split_and!.
  - do 2 f_equal. destruct new1, new2, new3, changed; done.
  - done.
  - unfold abs. rewrite Hnodes3, Hnodes2, Hnodes1, Harcs3, Harcs2, Harcs1, !fmap_app, !app_assoc. done.
  - by rewrite !Forall_app.
  - intros q j [->|Hq]%elem_of_cons Hj; [|apply (Htied q j Hq); unfold is_node; by rewrite Hn2, Hn1].
    assert (j = i) as -> by exact (is_node_id g p j i Hw Hj Hi). rewrite Harcs3. apply tied_app. split.
    + intros H0. destruct (Hend1 H0) as (a&Ha&?). exists a. split; [|done]. rewrite Harcs2. apply elem_of_app. by left.
    + intros H1. destruct (Hend2 H1) as (a&Ha&?). by exists a.
Qed.

(** Afterwards every node but the source has an incoming edge and every node but the
    sink an outgoing one; nothing but control edges from the source or to the sink has
    been added, and the result is true iff something has. *)
Theorem fixup_ties_every_node g :
  wf g → is_Some (source_node g) → is_Some (sink_node g) →
  ∃ g' (new : list Arc), FixupSourceAndSinkEdges g = Some (negb (bool_decide (new = [])), g') ∧ wf g' ∧
    abs g' = mkSpec (abs_nodes g) (abs_arcs g ++ (Some <$> new)) ∧ Forall tying new ∧
    ∀ i, is_Some (spec_node (abs g') i) → tied (abs_arcs g') i.
Proof.
  intros Hw Hs Ht. destruct (fixup_nodes_ok (graph_nodes g) g false Hw) as (g'&new&E&Hw'&Habs&Hty&Htied); [|done|done|].
  { intros p. apply elem_of_graph_nodes. }
  exists g', new. split_and!; [exact E | done | done | done|]. intros i Hi. apply spec_node_is in Hi as [q Hq]; [|done].
  assert (is_Some (spec_node (abs g) i)) as [p Hp]%spec_node_is; [|eapply Htied; [|done]; apply elem_of_graph_nodes; by exists i | done].
  assert (is_Some (spec_node (abs g') i)) as Hi' by (apply spec_node_is; eauto). unfold spec_node in *. by rewrite Habs in Hi'.
Qed.

Lemma demo_fixed :
  option_map (λ '(b, g), (b, drop 4 (abs_arcs g), bool_decide (is_Some (spec_node (abs g) 4)))) (FixupSourceAndSinkEdges demo_graph) =
  Some (true, [Some (3%nat, -1, 1%nat, -1); Some (4%nat, -1, 1%nat, -1)], true).
Proof. vm_compute. reflexivity. Qed.

Lemma demo_ends : source_node demo_graph = Some 0%nat ∧ sink_node demo_graph = Some 1%nat.
Proof. vm_compute. done. Qed.

Lemma fixup_ties_every_node_witness :
  ∃ g', FixupSourceAndSinkEdges demo_graph = Some (true, g') ∧ tied (abs_arcs g') 4 ∧
    drop 4 (abs_arcs g') = [Some (3%nat, -1, 1%nat, -1); Some (4%nat, -1, 1%nat, -1)].
Proof.
  destruct demo_ends as [Hs Ht]. destruct (fixup_ties_every_node demo_graph demo_graph_wf) as (g'&new&E&_&Habs&_&Htied).
  - rewrite Hs. by eexists.
  - rewrite Ht. by eexists.
  - pose proof demo_fixed as E'. rewrite E in E'. cbn [option_map] in E'. injection E' as Hb Hd Hi. exists g'. rewrite E.
    split_and!; [by rewrite Hb | | exact Hd]. apply Htied. by apply bool_decide_eq_true in Hi.
Defined.
