(* ===== verification/Cancellation.v ===== *)
(** * Cancellation

    [CancellationManager] of [tensorflow/core/framework/cancellation.{h,cc}]: callbacks
    that are run when a step is cancelled.  The critical sections are functions on the
    manager; the calls of [StartCancel] and [DeregisterCallback] are threads that are
    cut between them, at the beginning and the end of each callback and where
    [DeregisterCallback] waits.

    [callbacks_], a [FlatMap], is a finite map; the order in which it is iterated is a
    parameter that lists every entry once, which is what [FlatMap] promises.  A
    callback is known by a number; the history of a run (what was registered, begun,
    ended and dropped) is kept beside the manager. *)
From S2P Require Import Prelude.

Record CancellationManager := mkCM {
  is_cancelling_ : bool;
  is_cancelled_ : bool;
  cancelled_notification_ : bool;              (* notified *)
  next_cancellation_token_ : Z;
  callbacks_ : gmap Z nat }.

Definition kInvalidToken : Z := (-1)%Z.

Definition new_CancellationManager : CancellationManager := mkCM false false false 0 ∅.

Definition IsCancelled (m : CancellationManager) : bool := is_cancelled_ m.

(** The first critical section of [StartCancel]: the callbacks to run, unless it
    returns at once; the second one; and the notification, whose [assert] fails when
    it has been given before. *)
Definition StartCancel_begin (m : CancellationManager) : option (gmap Z nat) * CancellationManager :=
  if is_cancelled_ m || is_cancelling_ m then (None, m)
  else (Some (callbacks_ m),
        mkCM true (is_cancelled_ m) (cancelled_notification_ m) (next_cancellation_token_ m) ∅).

Definition StartCancel_end (m : CancellationManager) : CancellationManager :=
  mkCM false true (cancelled_notification_ m) (next_cancellation_token_ m) (callbacks_ m).

Definition notify_cancelled (m : CancellationManager) : option CancellationManager :=
  if cancelled_notification_ m then None
  else Some (mkCM (is_cancelling_ m) (is_cancelled_ m) true (next_cancellation_token_ m) (callbacks_ m)).

Definition get_cancellation_token (m : CancellationManager) : Z * CancellationManager :=
  (next_cancellation_token_ m,
   mkCM (is_cancelling_ m) (is_cancelled_ m) (cancelled_notification_ m) (i64 (next_cancellation_token_ m + 1)) (callbacks_ m)).

(** [None] is the failed [CHECK_LT]. *)
Definition RegisterCallback (token : Z) (callback : nat) (m : CancellationManager) : option (bool * CancellationManager) :=
  if (token <? next_cancellation_token_ m)%Z then
    let should_register := negb (is_cancelled_ m) && negb (is_cancelling_ m) in
    Some (should_register,
      if should_register
      then mkCM (is_cancelling_ m) (is_cancelled_ m) (cancelled_notification_ m) (next_cancellation_token_ m)
             (<[token := callback]> (callbacks_ m))
      else m)
  else None.

(** [DeregisterCallback] up to the point where it waits ([None]) or returns. *)
Definition DeregisterCallback_begin (token : Z) (m : CancellationManager) : option bool * CancellationManager :=
  if is_cancelled_ m then (Some false, m)
  else if is_cancelling_ m then (None, m)
  else (Some true, mkCM (is_cancelling_ m) (is_cancelled_ m) (cancelled_notification_ m) (next_cancellation_token_ m)
                     (delete token (callbacks_ m))).

(** ** Threads *)

(** A callback with the token it was registered with. *)
Definition Entry : Type := Z * nat.

Inductive Thread :=
  | SCStart                                         (* [StartCancel] has been called *)
  | SCRunning (rest : list Entry)                   (* between two callbacks *)
  | SCCalling (e : Entry) (rest : list Entry)       (* in a callback *)
  | SCNotify                                        (* before [Notify] *)
  | SCDone
  | DeregStart (token : Z)
  | DeregWaiting (token : Z)
  | DeregDone (token : Z) (result : bool) (removed : option nat).

Record Sys := mkSys {
  man : CancellationManager;
  threads : list Thread;
  registered : list Entry;
  begun : list Entry;
  ended : list Entry;
  dropped : list Entry }.                           (* deregistered, or replaced under the same token *)

Definition new_Sys : Sys := mkSys new_CancellationManager [] [] [] [] [].

(** The entry that leaves [callbacks_] when [token] is deregistered or registered again. *)
Definition entry_at (token : Z) (m : CancellationManager) : list Entry :=
  match callbacks_ m !! token with Some c => [(token, c)] | None => [] end.

Section system.
Context (order : gmap Z nat → list Entry).

(** A thread runs to its next cut; [None] when it has to wait or is done. *)
Definition run_thread (k : nat) (s : Sys) : option Sys :=
  t ← threads s !! k;
  let next t' m b e d := Some (mkSys m (<[k := t']> (threads s)) (registered s) b e d) in
  match t with
  | SCStart =>
      match StartCancel_begin (man s) with
      | (None, m) => next SCDone m (begun s) (ended s) (dropped s)
      | (Some cs, m) => next (SCRunning (order cs)) m (begun s) (ended s) (dropped s)
      end
  | SCRunning (e :: rest) => next (SCCalling e rest) (man s) (e :: begun s) (ended s) (dropped s)
  | SCRunning [] => next SCNotify (StartCancel_end (man s)) (begun s) (ended s) (dropped s)
  | SCCalling e rest => next (SCRunning rest) (man s) (begun s) (e :: ended s) (dropped s)
  | SCNotify => m ← notify_cancelled (man s); next SCDone m (begun s) (ended s) (dropped s)
  | DeregStart token =>
      match DeregisterCallback_begin token (man s) with
      | (Some true, m) =>
          next (DeregDone token true (callbacks_ (man s) !! token)) m (begun s) (ended s) (entry_at token (man s) ++ dropped s)
      | (Some false, m) => next (DeregDone token false None) m (begun s) (ended s) (dropped s)
      | (None, m) => next (DeregWaiting token) m (begun s) (ended s) (dropped s)
      end
  | DeregWaiting token =>
      if cancelled_notification_ (man s)
      then next (DeregDone token false None) (man s) (begun s) (ended s) (dropped s) else None
  | SCDone | DeregDone _ _ _ => None
  end.

Inductive Action :=
  | AToken
  | ARegister (token : Z)
  | AStartCancel
  | ADeregister (token : Z)
  | ARun (k : nat).

Definition act (a : Action) (s : Sys) : option Sys :=
  match a with
  | AToken => Some (mkSys (get_cancellation_token (man s)).2 (threads s) (registered s) (begun s) (ended s) (dropped s))
  | ARegister token =>
      let c := length (registered s) in
      '(b, m) ← RegisterCallback token c (man s);
      Some (if b : bool
            then mkSys m (threads s) ((token, c) :: registered s) (begun s) (ended s) (entry_at token (man s) ++ dropped s)
            else mkSys m (threads s) (registered s) (begun s) (ended s) (dropped s))
  | AStartCancel => Some (mkSys (man s) (threads s ++ [SCStart]) (registered s) (begun s) (ended s) (dropped s))
  | ADeregister token => Some (mkSys (man s) (threads s ++ [DeregStart token]) (registered s) (begun s) (ended s) (dropped s))
  | ARun k => run_thread k s
  end.

Fixpoint acts (l : list Action) (s : Sys) : option Sys :=
  match l with
  | [] => Some s
  | a :: l => s ← act a s; acts l s
  end.

(** ** The invariant *)

Definition pending (t : Thread) : list Entry :=
  match t with SCRunning rest | SCCalling _ rest => rest | _ => [] end.
Definition calling (t : Thread) : list Entry := match t with SCCalling e _ => [e] | _ => [] end.
Definition active (t : Thread) : bool := match t with SCRunning _ | SCCalling _ _ => true | _ => false end.
Definition notifying (t : Thread) : bool := match t with SCNotify => true | _ => false end.

Definition num (f : Thread → bool) (ts : list Thread) : nat := length (filter (λ t, f t = true) ts).
Arguments num : simpl never.

Lemma num_cons f t ts : num f (t :: ts) = (if f t then 1 else 0) + num f ts.
Proof.
  unfold num. destruct (f t) eqn:E; [rewrite filter_cons_True by done; done|]. rewrite filter_cons_False by (by rewrite E). done.
Qed.

Lemma num_perm f ts ts' : ts ≡ₚ ts' → num f ts = num f ts'.
Proof. intros Hp. unfold num. by rewrite Hp. Qed.

(** What a thread has seen of the manager. *)
Definition seen (m : CancellationManager) (d : list Entry) (t : Thread) : Prop :=
  match t with
  | DeregWaiting _ => is_cancelling_ m = true ∨ is_cancelled_ m = true
  | DeregDone token true (Some c) => (token, c) ∈ d
  | DeregDone _ false _ => is_cancelled_ m = true
  | _ => True
  end.

Record Inv (s : Sys) : Prop := {
  i_account : begun s ++ dropped s ++ map_to_list (callbacks_ (man s)) ++ (threads s ≫= pending) ≡ₚ registered s;
  i_ids : NoDup (registered s) ∧ ∀ t c, (t, c) ∈ registered s → c < length (registered s);
  i_ended : ended s ++ (threads s ≫= calling) ≡ₚ begun s;
  i_active : num active (threads s) = if is_cancelling_ (man s) then 1 else 0;
  i_notify : num notifying (threads s) =
    if is_cancelled_ (man s) && negb (cancelled_notification_ (man s)) then 1 else 0;
  i_flags : (is_cancelled_ (man s) = true → is_cancelling_ (man s) = false) ∧
    (cancelled_notification_ (man s) = true → is_cancelled_ (man s) = true) ∧
    (is_cancelled_ (man s) || is_cancelling_ (man s) = true → callbacks_ (man s) = ∅);
  i_seen : Forall (seen (man s) (dropped s)) (threads s) }.

Lemma Inv_perm m ts ts' r b e d : ts ≡ₚ ts' → Inv (mkSys m ts r b e d) → Inv (mkSys m ts' r b e d).
Proof.
  intros Hp [I1 I2 I3 I4 I5 I6 I7]. cbn in *. split; cbn; [by rewrite <- Hp | done | by rewrite <- Hp | by rewrite <- (num_perm _ _ _ Hp) | by rewrite <- (num_perm _ _ _ Hp) | done | by rewrite <- Hp].
Qed.

(** The thread that runs can be looked at first. *)
Lemma Inv_thread k t t' s m b e d :
  threads s !! k = Some t → Inv s →
  (∀ ts, Inv (mkSys (man s) (t :: ts) (registered s) (begun s) (ended s) (dropped s)) → Inv (mkSys m (t' :: ts) (registered s) b e d)) →
  Inv (mkSys m (<[k := t']> (threads s)) (registered s) b e d).
Proof.
  intros Hk HI Hstep. eapply Inv_perm; [symmetry; by apply (insert_Permutation _ _ _ t' Hk)|]. apply Hstep.
  eapply Inv_perm; [by apply delete_Permutation|]. by destruct s.
Qed.

Lemma new_Inv : Inv new_Sys.
Proof. split; cbn; try done. split; [constructor | by intros ? ? []%not_elem_of_nil]. Qed.

Lemma seen_weaken m m' d d' ts :
  (is_cancelled_ m = true → is_cancelled_ m' = true) →
  (is_cancelling_ m = true → is_cancelling_ m' = true ∨ is_cancelled_ m' = true) → (∀ x, x ∈ d → x ∈ d') →
  Forall (seen m d) ts → Forall (seen m' d') ts.
Proof.
  intros Hc Hg Hd Hf. eapply Forall_impl; [exact Hf|]. intros [| | | | | | | ? [|] [|]]; cbn; try done; auto.
  intros [|]; auto.
Qed.

Lemma delete_account token m :
  entry_at token m ++ map_to_list (delete token (callbacks_ m)) ≡ₚ map_to_list (callbacks_ m).
Proof.
  unfold entry_at. destruct (callbacks_ m !! token) as [c|] eqn:E.
  - rewrite <- (insert_delete_id _ _ _ E) at 2. rewrite map_to_list_insert by apply lookup_delete_eq. done.
  - by rewrite delete_id.
Qed.

Context (order_perm : ∀ cs, order cs ≡ₚ map_to_list cs).

Lemma run_thread_Inv k s s' : Inv s → run_thread k s = Some s' → Inv s'.
Proof.
  intros HI. unfold run_thread. destruct (threads s !! k) as [t|] eqn:Hk; [|done]. cbn [mbind option_bind].
  destruct t as [|[|e rest]|e rest| | |token|token|]; try done.
  - unfold StartCancel_begin. destruct (is_cancelled_ (man s) || is_cancelling_ (man s)) eqn:Hc; intros [= <-]; apply (Inv_thread k _ _ _ _ _ _ _ Hk HI);
      intros ts [I1 I2 I3 I4 I5 I6 I7]; cbn in *; rewrite num_cons in I4, I5; (apply Forall_cons in I7 as [_ I7]); (split; cbn; rewrite ?num_cons; try done).
    + by constructor.
    + rewrite map_to_list_empty, order_perm. done.
    + apply orb_false_elim in Hc as [_ Hc]. rewrite Hc in I4. cbn in *. lia.
    + apply orb_false_elim in Hc as [Hc _]. rewrite Hc in *. split_and!; [done | apply I6 | done].
    + constructor; [done|]. by eapply seen_weaken; [| | | exact I7]; auto.
  - intros [= <-]. apply (Inv_thread k _ _ _ _ _ _ _ Hk HI). intros ts [I1 I2 I3 I4 I5 (I6&I6'&I6'') I7]. cbn in *. apply Forall_cons in I7 as [_ I7].
    rewrite num_cons in I4, I5. cbn in I4, I5.
    destruct (is_cancelling_ (man s)) eqn:Hg; [|lia]. destruct (is_cancelled_ (man s)) eqn:Hc; [by specialize (I6 eq_refl)|].
    destruct (cancelled_notification_ (man s)) eqn:Hn; [by specialize (I6' eq_refl)|].
    split; cbn; rewrite ?num_cons; cbn; try done; rewrite ?Hn; cbn; try lia.
    + cbn in I5. lia.
    + constructor; [done|]. eapply seen_weaken; [| | | exact I7]; cbn; auto.
  - intros [= <-]. apply (Inv_thread k _ _ _ _ _ _ _ Hk HI). intros ts [I1 I2 I3 I4 I5 I6 I7]. cbn in *. apply Forall_cons in I7 as [_ I7].
    split; cbn; try done.
    + rewrite <- I1. by rewrite !app_assoc, <- Permutation_middle, !app_assoc.
    + rewrite <- I3. by rewrite <- !Permutation_middle.
    + by constructor.
  - intros [= <-]. apply (Inv_thread k _ _ _ _ _ _ _ Hk HI). intros ts [I1 I2 I3 I4 I5 I6 I7]. cbn in *. apply Forall_cons in I7 as [_ I7].
    split; cbn; try done.
    + rewrite <- I3. by rewrite <- !Permutation_middle.
    + by constructor.
  - unfold notify_cancelled. destruct (cancelled_notification_ (man s)) eqn:Hn; [done|]. cbn [mbind option_bind]. intros [= <-].
    apply (Inv_thread k _ _ _ _ _ _ _ Hk HI). intros ts [I1 I2 I3 I4 I5 I6 I7]. cbn in *. apply Forall_cons in I7 as [_ I7]. rewrite Hn in *.
    rewrite num_cons in I4, I5. cbn in I4, I5. destruct (is_cancelled_ (man s)) eqn:Hc; cbn in I5; [|lia].
    split; cbn; rewrite ?num_cons; cbn; try done.
    + lia.
    + destruct I6 as (A&_&B). by split_and!.
    + constructor; [done|]. eapply seen_weaken; [| | | exact I7]; cbn; rewrite ?Hc; auto.
  - unfold DeregisterCallback_begin. destruct (is_cancelled_ (man s)) eqn:Hc; [|destruct (is_cancelling_ (man s)) eqn:Hg]; intros [= <-];
      apply (Inv_thread k _ _ _ _ _ _ _ Hk HI); intros ts [I1 I2 I3 I4 I5 I6 I7]; cbn in *; (apply Forall_cons in I7 as [_ I7]).
    + split; cbn; try done. by constructor.
    + split; cbn; try done. constructor; [by left | done].
    + split; cbn; rewrite ?Hc, ?Hg in *; try done.
      * rewrite <- I1, <- (delete_account token (man s)). rewrite <- !app_assoc. f_equiv. rewrite !app_assoc. f_equiv. f_equiv. apply Permutation_app_comm.
      * split_and!; [done | apply I6 | done].
      * constructor; [cbn; unfold entry_at; destruct (callbacks_ (man s) !! token); [left | done]|]. eapply seen_weaken; [| | | exact I7]; cbn; rewrite ?Hc, ?Hg; auto.
        intros x Hx. apply elem_of_app. by right.
  - destruct (cancelled_notification_ (man s)) eqn:Hn; [|done]. intros [= <-]. apply (Inv_thread k _ _ _ _ _ _ _ Hk HI).
    intros ts [I1 I2 I3 I4 I5 I6 I7]. cbn in *. apply Forall_cons in I7 as [_ I7]. split; cbn; try done. constructor; [by apply I6 | done].
Qed.

Lemma register_account token c m :
  entry_at token m ++ map_to_list (<[token := c]> (callbacks_ m)) ≡ₚ (token, c) :: map_to_list (callbacks_ m).
Proof.
  rewrite <- (delete_account token m). unfold entry_at. rewrite <- insert_delete_eq, map_to_list_insert by apply lookup_delete_eq.
  by rewrite <- Permutation_middle.
Qed.

Lemma act_Inv a s s' : Inv s → act a s = Some s' → Inv s'.
Proof.
  intros HI. destruct a as [|token| |token|k]; cbn [act]; [| | | |by apply run_thread_Inv].
  - intros [= <-]. destruct HI. by split.
  - unfold RegisterCallback. destruct (token <? _)%Z; [|done]. cbn [mbind option_bind].
    destruct (is_cancelled_ (man s)) eqn:Hc; [cbn; intros [= <-]; by destruct s|].
    destruct (is_cancelling_ (man s)) eqn:Hg; [cbn; intros [= <-]; by destruct s|]. cbn. intros [= <-].
    destruct HI as [I1 [I2 I2'] I3 I4 I5 I6 I7]. split; cbn; rewrite ?Hc, ?Hg in *; try done.
    + generalize (length (registered s)). intros c. rewrite <- I1, <- app_assoc.
      trans (begun s ++ dropped s ++ (entry_at token (man s) ++ map_to_list (<[token := c]> (callbacks_ (man s)))) ++ (threads s ≫= pending)).
      { apply Permutation_app_head. rewrite !app_assoc. do 2 apply Permutation_app_tail. apply Permutation_app_comm. }
      rewrite register_account. cbn [app]. by rewrite <- !Permutation_middle.
    + split; [|intros t c [[= -> ->]|Hx]%elem_of_cons; [lia | apply I2' in Hx; lia]]. apply NoDup_cons. split; [|done]. intros Hx%I2'. lia.
    + split_and!; [done | apply I6 | done].
    + eapply seen_weaken; [| | | exact I7]; cbn; rewrite ?Hc, ?Hg; auto. intros x Hx. apply elem_of_app. by right.
  - intros [= <-]. destruct s as [m ts r b e d]. apply (Inv_perm _ (SCStart :: ts)); [by rewrite <- Permutation_cons_append|].
    destruct HI as [I1 I2 I3 I4 I5 I6 I7]. split; cbn in *; rewrite ?num_cons; try done. by constructor.
  - intros [= <-]. destruct s as [m ts r b e d]. apply (Inv_perm _ (DeregStart token :: ts)); [by rewrite <- Permutation_cons_append|].
    destruct HI as [I1 I2 I3 I4 I5 I6 I7]. split; cbn in *; rewrite ?num_cons; try done. by constructor.
Qed.

Lemma acts_Inv l s s' : Inv s → acts l s = Some s' → Inv s'.
Proof.
  revert s. induction l as [|a l IH]; intros s HI; cbn [acts]; [by intros [= <-]|].
  destruct (act a s) as [s1|] eqn:E; [|done]. cbn [mbind option_bind]. apply IH. by eapply act_Inv.
Qed.

Lemma num_zero f ts : num f ts = 0 → ∀ t, t ∈ ts → f t = false.
Proof.
  intros Hn t Ht. destruct (f t) eqn:E; [|done]. assert (t ∈ filter (λ t, f t = true) ts) as Hin by (by apply list_elem_of_filter).
  unfold num in Hn. destruct (filter _ ts); [by apply not_elem_of_nil in Hin | done].
Qed.

(** When the manager is cancelled nothing runs and nothing is registered. *)
Lemma cancelled_quiet s :
  Inv s → is_cancelled_ (man s) = true → begun s ++ dropped s ≡ₚ registered s ∧ ended s ≡ₚ begun s.
Proof.
  intros [I1 _ I3 I4 _ (I6&_&I6') _] Hc. rewrite (I6 Hc) in I4. pose proof (num_zero _ _ I4) as Hno.
  assert (∀ f : Thread → list Entry, (∀ t, active t = false → f t = []) → threads s ≫= f = []) as Hnil.
  { intros f Hf. apply elem_of_nil_inv. intros x (t&Hx&Ht)%list_elem_of_bind. rewrite Hf in Hx by auto. by apply not_elem_of_nil in Hx. }
  pose proof (Hnil pending ltac:(by intros [])) as Hp. pose proof (Hnil calling ltac:(by intros [])) as Hq. unfold Entry in *.
  rewrite Hp, I6', map_to_list_empty, !app_nil_r in I1 by (by rewrite Hc). by rewrite Hq, app_nil_r in I3.
Qed.

(** C26: whatever calls of the manager run concurrently, a callback begins at most once;
    when [DeregisterCallback] has returned true the callback it took out has not begun
    and never will; when a call has returned false, or [IsCancelled] is true, every
    callback that was registered has ended, unless it was dropped by a call for the
    same token; and the notification is given once. *)
Theorem cancellation_safe l s :
  acts l new_Sys = Some s →
  NoDup (begun s) ∧
  (∀ token c, DeregDone token true (Some c) ∈ threads s → (token, c) ∉ begun s) ∧
  (∀ token r, DeregDone token false r ∈ threads s → IsCancelled (man s) = true) ∧
  (IsCancelled (man s) = true → ∀ e, e ∈ registered s → (e ∈ ended s ∧ e ∉ dropped s) ∨ (e ∈ dropped s ∧ e ∉ begun s)).
Proof.
  intros Hl. pose proof (acts_Inv l new_Sys s new_Inv Hl) as HI. pose proof HI as [I1 [I2 _] _ _ _ _ I7]. rewrite Forall_forall in I7.
  rewrite <- I1 in I2. apply NoDup_app in I2 as (Hb&Hdisj&Hd). apply NoDup_app in Hd as (_&Hd&_).
  split_and!; [done | | |].
  - intros token c Ht Hin. apply (Hdisj _ Hin), elem_of_app. left. by apply (I7 _ Ht).
  - intros token r Ht. by apply (I7 _ Ht).
  - intros Hc e He. destruct (cancelled_quiet s HI Hc) as [Hreg Hend]. rewrite <- Hreg in He.
    apply elem_of_app in He as [He|He]; [left | right]; (split; [|intros Hx]).
    + by rewrite Hend.
    + apply (Hdisj e He), elem_of_app. by left.
    + done.
    + apply (Hdisj e Hx), elem_of_app. by left.
Qed.

(** ** Every call returns *)

Definition weight (t : Thread) : nat :=
  match t with
  | SCStart => 3
  | SCRunning rest => 2 + 2 * length rest
  | SCCalling _ rest => 3 + 2 * length rest
  | SCNotify => 1
  | DeregStart _ => 2
  | DeregWaiting _ => 1
  | SCDone | DeregDone _ _ _ => 0
  end.

Definition work (s : Sys) : nat := sum_list (weight <$> threads s) + 2 * size (callbacks_ (man s)).

Definition returned (t : Thread) : Prop := weight t = 0.

Lemma work_thread k t t' m ts :
  ts !! k = Some t →
  sum_list (weight <$> <[k := t']> ts) + weight t + m = sum_list (weight <$> ts) + weight t' + m.
Proof.
  intros Hk. pose proof (insert_Permutation _ _ _ t' Hk) as H1. pose proof (delete_Permutation _ _ _ Hk) as H2.
  rewrite H1. rewrite H2 at 2. cbn. lia.
Qed.

Lemma run_thread_work k s s' : run_thread k s = Some s' → work s' < work s.
Proof.
  unfold run_thread, work. destruct (threads s !! k) as [t|] eqn:Hk; [|done]. cbn [mbind option_bind].
  assert (Hw : ∀ t', sum_list (weight <$> <[k := t']> (threads s)) + weight t = sum_list (weight <$> threads s) + weight t').
  { intros t'. pose proof (work_thread k t t' 0 _ Hk). lia. }
  destruct t as [|[|e rest]|e rest| | |token|token|]; try done.
  - unfold StartCancel_begin. destruct (_ || _); intros [= <-]; cbn [man threads callbacks_].
    + specialize (Hw SCDone). cbn [weight] in Hw. lia.
    + specialize (Hw (SCRunning (order (callbacks_ (man s))))). cbn [weight] in Hw.
      assert (Hlen : length (order (callbacks_ (man s))) = size (callbacks_ (man s)))
        by (etrans; [apply (Permutation_length (order_perm _)) | apply length_map_to_list]). rewrite map_size_empty. lia.
  - intros [= <-]. cbn [man threads callbacks_ StartCancel_end]. specialize (Hw SCNotify). cbn [weight length] in Hw. lia.
  - intros [= <-]. cbn [man threads callbacks_]. specialize (Hw (SCCalling e rest)). cbn [weight length] in Hw. lia.
  - intros [= <-]. cbn [man threads callbacks_]. specialize (Hw (SCRunning rest)). cbn [weight length] in Hw. lia.
  - unfold notify_cancelled. destruct (cancelled_notification_ (man s)); [done|]. intros [= <-]. cbn [man threads callbacks_].
    specialize (Hw SCDone). cbn [weight] in Hw. lia.
  - unfold DeregisterCallback_begin. destruct (is_cancelled_ (man s)); [|destruct (is_cancelling_ (man s))]; intros [= <-]; cbn [man threads callbacks_].
    + specialize (Hw (DeregDone token false None)). cbn [weight] in Hw. lia.
    + specialize (Hw (DeregWaiting token)). cbn [weight] in Hw. lia.
    + specialize (Hw (DeregDone token true (callbacks_ (man s) !! token))). cbn [weight] in Hw.
      pose proof (map_subseteq_size _ _ (delete_subseteq (callbacks_ (man s)) token)). lia.
  - destruct (cancelled_notification_ (man s)); [|done]. intros [= <-]. cbn [man threads callbacks_].
    specialize (Hw (DeregDone token false None)). cbn [weight] in Hw. lia.
Qed.

(** A thread that has not returned can run, or waits for one that can. *)
Lemma can_run s k t :
  Inv s → threads s !! k = Some t → ¬ returned t → is_Some (run_thread k s) ∨ ∃ j, is_Some (run_thread j s).
Proof.
  intros [_ _ _ I4 I5 (I6&I6'&_) I7] Hk Ht. unfold run_thread at 1. rewrite Hk. cbn [mbind option_bind].
  assert (Hnot : ∀ t', t' ∈ threads s → notifying t' = true → cancelled_notification_ (man s) = false).
  { intros t' Hin Hn. destruct (cancelled_notification_ (man s)); [|done]. rewrite andb_false_r in I5.
    pose proof (num_zero _ _ I5 t' Hin). congruence. }
  assert (Hact : ∀ j t', threads s !! j = Some t' → active t' = true ∨ notifying t' = true → is_Some (run_thread j s)).
  { intros j t' Hj Ha. unfold run_thread. rewrite Hj. cbn [mbind option_bind]. destruct t' as [|[|e rest]|e rest| | | | |]; try (by destruct Ha); try by eexists.
    unfold notify_cancelled. rewrite (Hnot SCNotify); [by eexists | by eapply list_elem_of_lookup_2 | done]. }
  destruct t as [|[|e rest]|e rest| | |token|token|]; try (by destruct Ht); try (left; by eexists).
  - left. unfold StartCancel_begin. destruct (_ || _); by eexists.
  - left. unfold notify_cancelled. rewrite (Hnot SCNotify); [by eexists | by eapply list_elem_of_lookup_2 | done].
  - left. unfold DeregisterCallback_begin. destruct (is_cancelled_ _); [|destruct (is_cancelling_ _)]; by eexists.
  - destruct (cancelled_notification_ (man s)) eqn:Hn; [left; by eexists|]. right. rewrite Forall_forall in I7.
    pose proof (I7 _ (list_elem_of_lookup_2 _ _ _ Hk)) as Hseen. cbn in Hseen.
    assert (∃ t', t' ∈ threads s ∧ (active t' = true ∨ notifying t' = true)) as (t'&Hin&Ht').
    { destruct (is_cancelled_ (man s)) eqn:Hc.
      - unfold num in I5. destruct (filter (λ t, notifying t = true) (threads s)) as [|t' l] eqn:E; [done|].
        exists t'. assert (t' ∈ filter (λ t, notifying t = true) (threads s)) as [? ?]%list_elem_of_filter by (rewrite E; left). tauto.
      - destruct Hseen as [Hg|]; [|done]. rewrite Hg in I4. unfold num in I4. destruct (filter (λ t, active t = true) (threads s)) as [|t' l] eqn:E; [done|].
        exists t'. assert (t' ∈ filter (λ t, active t = true) (threads s)) as [? ?]%list_elem_of_filter by (rewrite E; left). tauto. }
    apply list_elem_of_lookup in Hin as [j Hj]. exists j. by eapply Hact.
Qed.

(** From any state that concurrent calls lead to, the threads that are under way make
    at most [work] steps, and when no thread can go on every call of [StartCancel] and
    [DeregisterCallback] has returned. *)
Theorem cancellation_calls_return l s ks s' :
  acts l new_Sys = Some s → acts (ARun <$> ks) s = Some s' →
  length ks + work s' ≤ work s ∧ ((∀ k, run_thread k s' = None) → Forall returned (threads s')).
Proof.
  intros Hl Hks. split.
  - clear Hl. revert s Hks. induction ks as [|k ks IH]; intros s; cbn [fmap list_fmap acts act]; [intros [= <-]; cbn; lia|].
    destruct (run_thread k s) as [s1|] eqn:E; [|done]. cbn [mbind option_bind length]. intros Hks. apply run_thread_work in E. apply IH in Hks. lia.
  - intros Hstop. assert (HI : Inv s') by (eapply acts_Inv; [by eapply acts_Inv; [apply new_Inv|] | done]).
    apply Forall_lookup. intros k t Hk. unfold returned. destruct (decide (weight t = 0)) as [|Hne]; [done|].
    destruct (can_run s' k t HI Hk Hne) as [[x Hx]|[j [x Hx]]]; by rewrite Hstop in Hx.
Qed.
End system.

(** Two callbacks, one of which is deregistered; a second call of [DeregisterCallback]
    waits for the cancellation. *)
Definition demo_begin : list Action :=
  [AToken; AToken; ARegister 0; ARegister 1; ADeregister 0; ARun 0; AStartCancel; ARun 1; ADeregister 1; ARun 2; ARun 1].
Definition demo_finish : list nat := [1; 1; 1; 2].

Definition demo_middle : Sys := default new_Sys (acts map_to_list demo_begin new_Sys).
Definition demo_end : Sys := default new_Sys (acts map_to_list (ARun <$> demo_finish) demo_middle).

Lemma cancellation_safe_witness :
  acts map_to_list (demo_begin ++ (ARun <$> demo_finish)) new_Sys = Some demo_end ∧
  threads demo_end = [DeregDone 0 true (Some 0); SCDone; DeregDone 1 false None] ∧
  ((0%Z, 0) ∉ begun demo_end) ∧ IsCancelled (man demo_end) = true.
Proof.
  assert (E : acts map_to_list (demo_begin ++ (ARun <$> demo_finish)) new_Sys = Some demo_end) by (vm_compute; reflexivity).
  assert (Ht : threads demo_end = [DeregDone 0 true (Some 0); SCDone; DeregDone 1 false None]) by (vm_compute; reflexivity).
  destruct (cancellation_safe map_to_list (λ _, reflexivity _) _ _ E) as (_&Htrue&Hfalse&_).
  split_and!; [exact E | exact Ht | |].
  - apply Htrue. rewrite Ht. left.
  - apply (Hfalse 1%Z None). rewrite Ht. right. right. left.
Defined.

Lemma cancellation_calls_return_witness :
  length demo_finish + work demo_end ≤ work demo_middle ∧ Forall returned (threads demo_end).
Proof.
  destruct (cancellation_calls_return map_to_list (λ _, reflexivity _) demo_begin demo_middle demo_finish demo_end) as [H1 H2].
  - vm_compute. reflexivity.
  - vm_compute. reflexivity.
  - split; [exact H1|]. apply H2. assert (Ht : threads demo_end = [DeregDone 0 true (Some 0); SCDone; DeregDone 1 false None]) by (vm_compute; reflexivity).
    intros k. unfold run_thread. rewrite Ht. by destruct k as [|[|[|[|k]]]].
Defined.

(** While the callbacks run [IsCancelled] is false, although [StartCancel] has been
    called and no callback can be registered any more. *)
Lemma IsCancelled_while_cancelling :
  IsCancelled (man demo_middle) = false ∧ begun demo_middle = [(1%Z, 1)] ∧
  fst <$> RegisterCallback 0 7 (man demo_middle) = Some false.
Proof. vm_compute. done. Qed.
