(* ===== verification/Hash.v ===== *)
(** * Hash functions

    [Hash32] and [Hash64] of [tensorflow/core/lib/hash/hash.{h,cc}] on lists of bytes,
    and the functors of the hash maps that are made from them. *)
From S2P Require Import Prelude Numbers Coding FlatMap.
Local Open Scope Z_scope.

(** [ByteAs64(data[i]) << (8 * i)] for the last bytes, from the highest one down. *)
Definition mix_tail (width : Z) (data : list Z) (h : Z) : Z :=
  foldr (λ '(i, b) h, Z.lxor h (Z.shiftl (Z.land b 255) (8 * Z.of_nat i) mod 2 ^ width)) h (imap pair data).

Fixpoint hash32_loop (fuel : nat) (data : list Z) (h : Z) : Z * list Z :=
  let m := 1540483477 in
  match fuel with
  | O => (h, data)
  | S fuel =>
      if (length data <? 4)%nat then (h, data) else
      let k := u32 (DecodeFixed32 data * m) in
      let k := Z.lxor k (Z.shiftr k 24) in
      let k := u32 (k * m) in
      hash32_loop fuel (drop 4 data) (Z.lxor (u32 (h * m)) k)
  end.

Definition Hash32 (data : list Z) (seed : Z) : Z :=
  let m := 1540483477 in
  let h := Z.lxor seed (u32 (Z.of_nat (length data))) in
  let '(h, data) := hash32_loop (length data) data h in
  let h := if (length data =? 0)%nat then h else u32 (mix_tail 32 data h * m) in
  let h := Z.lxor h (Z.shiftr h 13) in
  let h := u32 (h * m) in
  Z.lxor h (Z.shiftr h 15).

Fixpoint hash64_loop (fuel : nat) (data : list Z) (h : Z) : Z * list Z :=
  let m := 14313749767032793493 in
  match fuel with
  | O => (h, data)
  | S fuel =>
      if (length data <? 8)%nat then (h, data) else
      let k := u64 (DecodeFixed64 data * m) in
      let k := Z.lxor k (Z.shiftr k 47) in
      let k := u64 (k * m) in
      hash64_loop fuel (drop 8 data) (u64 (Z.lxor h k * m))
  end.

Definition Hash64 (data : list Z) (seed : Z) : Z :=
  let m := 14313749767032793493 in
  let h := Z.lxor seed (u64 (Z.of_nat (length data) * m)) in
  let '(h, data) := hash64_loop (length data) data h in
  let h := if (length data =? 0)%nat then h else u64 (mix_tail 64 data h * m) in
  let h := Z.lxor h (Z.shiftr h 47) in
  let h := u64 (h * m) in
  Z.lxor h (Z.shiftr h 47).

(** [Hash64(str)], with the seed [0xDECAFCAFFE], and the functor [hash<string>]. *)
Definition Hash64_string (str : list ascii) : Z := Hash64 (code_of <$> str) 956888297470.

Definition Hash64Combine (a b : Z) : Z :=
  Z.lxor a (u64 (b + 0x9e3779b97f4a7800 + u64 (Z.shiftl a 10) + Z.shiftr a 4)).

(** The functor [hash<T*>]. *)
Definition hash_pointer (k : Z) : Z := u64 (k + Z.shiftr k 6).

(** ** The results have their width *)

Lemma lxor_u64 a b : is_u64 a → is_u64 b → is_u64 (Z.lxor a b).
Proof. apply (lxor_bound a b 64). Qed.

Lemma shiftr_u64 a n : 0 <= n → is_u64 a → is_u64 (Z.shiftr a n).
Proof.
  unfold is_u64. intros Hn Ha. rewrite Z.shiftr_div_pow2 by done. pose proof (Z.pow_pos_nonneg 2 n).
  split; [apply Z.div_pos; lia|]. apply Z.le_lt_trans with a; [apply Z.div_le_upper_bound; nia | lia].
Qed.

#[local] Hint Resolve u64_range lxor_u64 shiftr_u64 : tension.

Lemma mix_tail_u64 data h : is_u64 h → is_u64 (mix_tail 64 data h).
Proof.
  intros Hh. unfold mix_tail. induction (imap pair data) as [|[i b] l IH]; cbn [foldr]; [done|].
  apply lxor_u64; [done|]. apply u64_range.
Qed.

Lemma hash64_loop_u64 fuel data h : is_u64 h → is_u64 (hash64_loop fuel data h).1.
Proof.
  revert data h. induction fuel as [|fuel IH]; intros data h Hh; cbn [hash64_loop]; [done|].
  case_match; [done|]. apply IH. auto with tension.
Qed.

Lemma Hash64_range data seed : is_u64 seed → is_u64 (Hash64 data seed).
Proof.
  intros Hs. unfold Hash64. pose proof (hash64_loop_u64 (length data) data (Z.lxor seed (u64 (Z.of_nat (length data) * 14313749767032793493)))) as Hl.
  destruct (hash64_loop _ _ _) as [h rest]. cbn [fst] in Hl.
  apply lxor_u64; [apply u64_range | apply shiftr_u64; [lia | apply u64_range]].
Qed.

Lemma Hash64Combine_range a b : is_u64 a → is_u64 (Hash64Combine a b).
Proof. intros Ha. apply lxor_u64; [done | apply u64_range]. Qed.

(** Strings are keys of hash maps. *)
#[export, program] Instance string_key : HashKey (list ascii) := { hash := Hash64_string; equal a b := bool_decide (a = b) }.
Next Obligation. intros k. by apply Hash64_range. Qed.
Next Obligation. intros a b. by rewrite bool_decide_eq_true. Qed.

(** Pairs, whose parts are combined. *)
#[export, program] Instance pair_key {K L} `{HashKey K, HashKey L} : HashKey (K * L) :=
  { hash k := Hash64Combine (hash k.1) (hash k.2); equal a b := equal a.1 b.1 && equal a.2 b.2 }.
Next Obligation. intros K L HK HL [k l]. apply Hash64Combine_range, hash_range. Qed.
Next Obligation. intros K L HK HL [a b] [c d]. cbn. rewrite andb_true_iff, !equal_spec. naive_solver. Qed.

(** ** The loops end *)

(** More rounds than the fuel given change nothing: the data shrink in each. *)
Lemma hash64_fuel fuel data h : (length data ≤ fuel)%nat → hash64_loop fuel data h = hash64_loop (S fuel) data h.
Proof.
  revert data h. induction fuel as [|fuel IH]; intros data h Hf.
  - by destruct data; [|cbn in Hf; lia].
  - cbn [hash64_loop]. destruct (length data <? 8)%nat eqn:E; [done|]. apply Nat.ltb_ge in E. rewrite (IH (drop 8 data)) by (rewrite length_drop; lia). done.
Qed.

Lemma hash32_fuel fuel data h : (length data ≤ fuel)%nat → hash32_loop fuel data h = hash32_loop (S fuel) data h.
Proof.
  revert data h. induction fuel as [|fuel IH]; intros data h Hf.
  - by destruct data; [|cbn in Hf; lia].
  - cbn [hash32_loop]. destruct (length data <? 4)%nat eqn:E; [done|]. apply Nat.ltb_ge in E. rewrite (IH (drop 4 data)) by (rewrite length_drop; lia). done.
Qed.

(** The values of the unit test of the repository. *)
Example Hash64_test :
  (Hash64 [] 0xbc9f1d34, Hash64 [0x62] 0xbc9f1d34, Hash64 [0xc3; 0x97] 0xbc9f1d34, Hash64 [0xe1; 0x80; 0xb9; 0x32] 0xbc9f1d34) =
  (0x4c61ea3eeda4cb87, 0x091309f7ef916c8a, 0xa815bcdf1d1af01c, 0x8f7ed82ffc21071f).
Proof. vm_compute. reflexivity. Qed.

Example Hash32_test :
  (Hash32 [] 0xbc9f1d34, Hash32 [0x62] 0xbc9f1d34, Hash32 [0xc3; 0x97] 0xbc9f1d34, Hash32 [0xe1; 0x80; 0xb9; 0x32] 0xbc9f1d34) =
  (0x471a8188, 0xd615eba5, 0x0c3cccda, 0x16174eb3).
Proof. vm_compute. reflexivity. Qed.

Definition test_data : list Z :=
  [0x01; 0xc0; 0x00; 0x00; 0x00; 0x00; 0x00; 0x00; 0x00; 0x00; 0x00; 0x00; 0x00; 0x00; 0x00; 0x00; 0x14; 0x00; 0x00; 0x00; 0x00; 0x00; 0x04; 0x00;
   0x00; 0x00; 0x00; 0x14; 0x00; 0x00; 0x00; 0x18; 0x28; 0x00; 0x00; 0x00; 0x00; 0x00; 0x00; 0x00; 0x02; 0x00; 0x00; 0x00; 0x00; 0x00; 0x00; 0x00].

Example Hash_test_long : (Hash32 test_data 0x12345678, Hash64 test_data 0x12345678) = (0x98b1926c, 0xce196580c97aff1e).
Proof. vm_compute. reflexivity. Qed.
