(* ===== verification/DeviceNames.v ===== *)
(** * Device names

    [DeviceNameUtils] of [tensorflow/core/util/device_name_utils.{h,cc}] with the
    functions of [core/lib/strings/str_util.cc] it stands on.  A name such as
    [/job:w/replica:0/task:1/device:GPU:*] is a [ParsedName], five values each of which
    may be left open.

    Strings are lists of [ascii]; a [StringPiece] that is consumed is an argument and a
    result.  A parser that returns false is [None]: what it has filled in by then is
    not used by any caller.  A failed [CHECK] is [None] too. *)
From S2P Require Import Prelude Numbers Status.
Local Open Scope Z_scope.

Definition str (s : string) : list ascii := String.list_ascii_of_string s.

(** ** String utilities *)

Fixpoint after_prefix (expected s : list ascii) : option (list ascii) :=
  match expected, s with
  | [], _ => Some s
  | c :: expected, d :: s => if Ascii.eqb c d then after_prefix expected s else None
  | _ :: _, [] => None
  end.

Definition ConsumePrefix (s expected : list ascii) : bool * list ascii :=
  match after_prefix expected s with Some rest => (true, rest) | None => (false, s) end.

(** The loop of [ConsumeLeadingDigits], with the product at 64 bits; [None] is an
    overflow. *)
Fixpoint leading_digits (v : Z) (s : list ascii) : option (Z * list ascii) :=
  match s with
  | c :: rest =>
      if isdigit c then
        let new_v := u64 (v * 10 + (code_of c - 48)) in
        if new_v / 8 <? v then None else leading_digits new_v rest
      else Some (v, s)
  | [] => Some (v, s)
  end.

Definition ConsumeLeadingDigits (s : list ascii) : option (Z * list ascii) :=
  '(v, rest) ← leading_digits 0 s;
  if (length rest <? length s)%nat then Some (v, rest) else None.

(** [tolower] and [toupper] in the "C" locale. *)
Definition tolower (c : ascii) : ascii :=
  if (65 <=? code_of c) && (code_of c <=? 90) then ascii_of_N (Z.to_N (code_of c + 32)) else c.
Definition Lowercase (s : list ascii) : list ascii := tolower <$> s.

(** ** Parts of a name *)

Definition IsAlpha (c : ascii) : bool :=
  ((97 <=? code_of c) && (code_of c <=? 122)) || ((65 <=? code_of c) && (code_of c <=? 90)).
Definition IsAlphaNum (c : ascii) : bool := IsAlpha c || isdigit c.

Definition name_char (c : ascii) : bool := IsAlphaNum c || Ascii.eqb c "_".

Definition IsJobName (s : list ascii) : bool :=
  match s with c :: rest => IsAlpha c && forallb name_char rest | [] => false end.

(** The loops of [ConsumeJobName] and [ConsumeDeviceType]: the characters up to a
    delimiter. *)
Fixpoint name_loop (stop : ascii → bool) (s : list ascii) : option (list ascii * list ascii) :=
  match s with
  | c :: rest =>
      if stop c then Some ([], s)
      else if name_char c then '(name, rest) ← name_loop stop rest; Some (c :: name, rest)
      else None
  | [] => Some ([], [])
  end.

Definition consume_name (stop : ascii → bool) (s : list ascii) : option (list ascii * list ascii) :=
  match s with
  | c :: rest => if IsAlpha c then '(name, rest) ← name_loop stop rest; Some (c :: name, rest) else None
  | [] => None
  end.

Definition ConsumeJobName : list ascii → option (list ascii * list ascii) := consume_name (λ c, Ascii.eqb c "/").
Definition ConsumeDeviceType : list ascii → option (list ascii * list ascii) :=
  consume_name (λ c, Ascii.eqb c "/" || Ascii.eqb c ":").

(** The number is read at 64 bits and kept as an [int]. *)
Definition ConsumeNumber (s : list ascii) : option (Z * list ascii) :=
  '(tmp, rest) ← ConsumeLeadingDigits s; Some (i32 tmp, rest).

Record ParsedName := mkParsedName {
  has_job : bool;
  job : list ascii;
  has_replica : bool;
  replica : Z;
  has_task : bool;
  task : Z;
  has_type : bool;
  type : list ascii;
  has_id : bool;
  id : Z }.

(** [Clear]. *)
Definition cleared : ParsedName := mkParsedName false [] false 0 false 0 false [] false 0.

(** Assignments; [None] for [has_x = false], which leaves the value. *)
Definition set_job (v : option (list ascii)) (p : ParsedName) : ParsedName :=
  mkParsedName (bool_decide (is_Some v)) (default (job p) v) (has_replica p) (replica p) (has_task p) (task p) (has_type p) (type p) (has_id p) (id p).
Definition set_replica (v : option Z) (p : ParsedName) : ParsedName :=
  mkParsedName (has_job p) (job p) (bool_decide (is_Some v)) (default (replica p) v) (has_task p) (task p) (has_type p) (type p) (has_id p) (id p).
Definition set_task (v : option Z) (p : ParsedName) : ParsedName :=
  mkParsedName (has_job p) (job p) (has_replica p) (replica p) (bool_decide (is_Some v)) (default (task p) v) (has_type p) (type p) (has_id p) (id p).
Definition set_type (v : option (list ascii)) (p : ParsedName) : ParsedName :=
  mkParsedName (has_job p) (job p) (has_replica p) (replica p) (has_task p) (task p) (bool_decide (is_Some v)) (default (type p) v) (has_id p) (id p).
Definition set_id (v : option Z) (p : ParsedName) : ParsedName :=
  mkParsedName (has_job p) (job p) (has_replica p) (replica p) (has_task p) (task p) (has_type p) (type p) (bool_decide (is_Some v)) (default (id p) v).

(** ** Parsing *)

(** A star, or a value. *)
Definition star_or {A} (consume : list ascii → option (A * list ascii)) (s : list ascii) : option (option A * list ascii) :=
  match ConsumePrefix s (str "*") with
  | (true, s) => Some (None, s)
  | (false, s) => '(v, s) ← consume s; Some (Some v, s)
  end.

(** A block of the loop of [ParseFullName]: whether there was progress, the rest and
    the name. *)
Definition Block : Type := bool * list ascii * ParsedName.

Definition parse_part {A} (prefix : string) (consume : list ascii → option (A * list ascii)) (set : option A → ParsedName → ParsedName)
    (b : Block) : option Block :=
  let '(progress, s, p) := b in
  match ConsumePrefix s (str prefix) with
  | (true, s) => '(v, s) ← star_or consume s; Some (true, s, set v p)
  | (false, _) => Some b
  end.

(** The block of [/device:], where the number may be missing. *)
Definition parse_device (b : Block) : option Block :=
  let '(progress, s, p) := b in
  match ConsumePrefix s (str "/device:") with
  | (true, s) =>
      '(ty, s) ← star_or ConsumeDeviceType s;
      match ConsumePrefix s (str ":") with
      | (true, s) => '(v, s) ← star_or ConsumeNumber s; Some (true, s, set_id v (set_type ty p))
      | (false, s) => Some (true, s, set_id None (set_type ty p))
      end
  | (false, _) => Some b
  end.

(** The blocks of the legacy names of processors. *)
Definition parse_legacy (lower upper ty : string) (b : Block) : option Block :=
  let '(progress, s, p) := b in
  let '(found, s) :=
    match ConsumePrefix s (str lower) with (true, s) => (true, s) | (false, s) => ConsumePrefix s (str upper) end in
  if found then '(v, s) ← star_or ConsumeNumber s; Some (true, s, set_id v (set_type (Some (str ty)) p))
  else Some b.

Definition parse_round (s : list ascii) (p : ParsedName) : option Block :=
  b ← parse_part "/job:" ConsumeJobName set_job (false, s, p);
  b ← parse_part "/replica:" ConsumeNumber set_replica b;
  b ← parse_part "/task:" ConsumeNumber set_task b;
  b ← parse_device b;
  b ← parse_legacy "/cpu:" "/CPU:" "CPU" b;
  parse_legacy "/gpu:" "/GPU:" "GPU" b.

(** The loop, in which every round that goes on has consumed something. *)
Fixpoint parse_loop (fuel : nat) (s : list ascii) (p : ParsedName) : option ParsedName :=
  match s, fuel with
  | [], _ => Some p
  | _, O => None
  | _, S fuel =>
      '(progress, s, p) ← parse_round s p;
      if progress : bool then parse_loop fuel s p else None
  end.

Definition ParseFullName (fullname : list ascii) : option ParsedName :=
  if bool_decide (fullname = str "/") then Some cleared
  else parse_loop (length fullname) fullname cleared.

(** [ParseLocalName] fills in a new name. *)
Definition ParseLocalName (name : list ascii) : option ParsedName :=
  '(ty, name) ← ConsumeDeviceType name;
  match ConsumePrefix name (str ":") with
  | (true, name) =>
      '(v, name) ← ConsumeNumber name;
      match name with
      | [] => Some (set_id (Some v) (set_type (Some ty) cleared))
      | _ => None
      end
  | (false, _) => None
  end.

(** ** Printing *)

Definition StrInt (i : Z) : list ascii := FastInt32ToBufferLeft i.

Definition ParsedNameToString (pn : ParsedName) : list ascii :=
  (if has_job pn then str "/job:" ++ job pn else []) ++
  (if has_replica pn then str "/replica:" ++ StrInt (replica pn) else []) ++
  (if has_task pn then str "/task:" ++ StrInt (task pn) else []) ++
  (if has_type pn then str "/device:" ++ type pn ++ str ":" ++ (if has_id pn then StrInt (id pn) else str "*") else []).

Definition CanonicalizeDeviceName (fullname : list ascii) : list ascii :=
  match ParseLocalName fullname with
  | Some parsed_name => ParsedNameToString parsed_name
  | None =>
      match ParseFullName fullname with
      | Some parsed_name => ParsedNameToString parsed_name
      | None => []
      end
  end.

(** The [CHECK]s of [DeviceName]. *)
Definition DeviceName (j : list ascii) (r t : Z) (device_prefix device_type : list ascii) (i : Z) : option (list ascii) :=
  if IsJobName j && (0 <=? r) && (0 <=? t) && negb (bool_decide (device_type = [])) && (0 <=? i)
  then Some (str "/job:" ++ j ++ str "/replica:" ++ StrInt r ++ str "/task:" ++ StrInt t ++ device_prefix ++ device_type ++ str ":" ++ StrInt i)
  else None.

Definition FullName (j : list ascii) (r t : Z) (ty : list ascii) (i : Z) : option (list ascii) :=
  DeviceName j r t (str "/device:") ty i.
Definition LegacyName (j : list ascii) (r t : Z) (ty : list ascii) (i : Z) : option (list ascii) :=
  DeviceName j r t (str "/") (Lowercase ty) i.
Definition LocalName (ty : list ascii) (i : Z) : list ascii := str "/device:" ++ ty ++ str ":" ++ StrInt i.
Definition LegacyLocalName (ty : list ascii) (i : Z) : list ascii := ty ++ str ":" ++ StrInt i.

(** [LocalName(fullname)]: the [CHECK] is that the name is parsed. *)
Definition LocalName_of (fullname : list ascii) : option (list ascii) :=
  x ← ParseFullName fullname; Some (LocalName (type x) (id x)).

Definition SplitDeviceName (name : list ascii) : option (list ascii * list ascii) :=
  pn ← ParseFullName name;
  if has_type pn && has_id pn then
    Some ((if has_job pn then str "/job:" ++ job pn else []) ++
          (if has_replica pn then str "/replica:" ++ StrInt (replica pn) else []) ++
          (if has_task pn then str "/task:" ++ StrInt (task pn) else []),
          type pn ++ str ":" ++ StrInt (id pn))
  else None.

Definition GetNamesForDeviceMappings (pn : ParsedName) : option (list (list ascii)) :=
  if has_job pn && has_replica pn && has_task pn && has_type pn && has_id pn then
    full ← FullName (job pn) (replica pn) (task pn) (type pn) (id pn);
    legacy ← LegacyName (job pn) (replica pn) (task pn) (type pn) (id pn);
    Some [full; legacy]
  else Some [].

Definition GetLocalNamesForDeviceMappings (pn : ParsedName) : list (list ascii) :=
  if has_type pn && has_id pn then [LocalName (type pn) (id pn); LegacyLocalName (type pn) (id pn)] else [].

(** ** Comparing and merging *)

(** [has_x ? (other.has_x && x == other.x) : !other.has_x]. *)
Definition same_part {A} `{EqDecision A} (has_a : bool) (a : A) (has_b : bool) (b : A) : bool :=
  if has_a then has_b && bool_decide (a = b) else negb has_b.

Definition ParsedName_eqb (a b : ParsedName) : bool :=
  same_part (has_job a) (job a) (has_job b) (job b) &&
  same_part (has_replica a) (replica a) (has_replica b) (replica b) &&
  same_part (has_task a) (task a) (has_task b) (task b) &&
  same_part (has_type a) (type a) (has_type b) (type b) &&
  same_part (has_id a) (id a) (has_id b) (id b).

Definition HasSomeDetails (n : ParsedName) : bool := has_job n || has_replica n || has_task n || has_type n || has_id n.

(** [less.has_x && (!more.has_x || less.x != more.x)]. *)
Definition part_conflict {A} `{EqDecision A} (has_less : bool) (less : A) (has_more : bool) (more : A) : bool :=
  has_less && (negb has_more || negb (bool_decide (less = more))).

Definition IsSpecification (less_specific more_specific : ParsedName) : bool :=
  let l := less_specific in let m := more_specific in
  if part_conflict (has_job l) (job l) (has_job m) (job m) then false
  else if part_conflict (has_replica l) (replica l) (has_replica m) (replica m) then false
  else if part_conflict (has_task l) (task l) (has_task m) (task m) then false
  else if part_conflict (has_type l) (type l) (has_type m) (type m) then false
  else if part_conflict (has_id l) (id l) (has_id m) (id m) then false
  else true.

Definition complete (n : ParsedName) : bool := has_job n && has_replica n && has_task n && has_type n && has_id n.

(** [None] is the failed [CHECK]. *)
Definition IsCompleteSpecification (pattern name : ParsedName) : option bool :=
  if complete name then
    Some (if has_job pattern && negb (bool_decide (job pattern = job name)) then false
    else if has_replica pattern && negb (bool_decide (replica pattern = replica name)) then false
    else if has_task pattern && negb (bool_decide (task pattern = task name)) then false
    else if has_type pattern && negb (bool_decide (type pattern = type name)) then false
    else if has_id pattern && negb (bool_decide (id pattern = id name)) then false
    else true)
  else None.

Definition AreCompatibleDevNames (a b : ParsedName) : bool := IsSpecification a b || IsSpecification b a.

Definition IsSameAddressSpace (a b : ParsedName) : bool :=
  (has_job a && has_job b && bool_decide (job a = job b)) &&
  (has_replica a && has_replica b && bool_decide (replica a = replica b)) &&
  (has_task a && has_task b && bool_decide (task a = task b)).

Definition IsSameAddressSpace_names (src dst : list ascii) : bool :=
  match ParseFullName src, ParseFullName dst with
  | Some x, Some y => IsSameAddressSpace x y
  | _, _ => false
  end.

Definition merge_error (what : string) (target other : ParsedName) : Status :=
  InvalidArgument ("Cannot merge devices with incompatible " +:+ what +:+ ": '" +:+ String.string_of_list_ascii (ParsedNameToString target) +:+
    "' and '" +:+ String.string_of_list_ascii (ParsedNameToString other) +:+ "'").

(** [MergeDevNames]: the status, and the target as it is left. *)
Definition MergeDevNames (target other : ParsedName) (allow_soft_placement : bool) : Status * ParsedName :=
  if has_job other && has_job target && negb (bool_decide (job target = job other)) then (merge_error "jobs" target other, target) else
  let target := if has_job other then set_job (Some (job other)) target else target in
  if has_replica other && has_replica target && negb (bool_decide (replica target = replica other)) then (merge_error "replicas" target other, target) else
  let target := if has_replica other then set_replica (Some (replica other)) target else target in
  if has_task other && has_task target && negb (bool_decide (task target = task other)) then (merge_error "tasks" target other, target) else
  let target := if has_task other then set_task (Some (task other)) target else target in
  if has_type other && has_type target && negb (bool_decide (type target = type other)) then
    if allow_soft_placement then (StatusOK, set_type None (set_id None target)) else (merge_error "types" target other, target)
  else
  let target := if has_type other then set_type (Some (type other)) target else target in
  if has_id other && has_id target && negb (bool_decide (id target = id other)) then
    if allow_soft_placement then (StatusOK, set_id None target) else (merge_error "ids" target other, target)
  else (StatusOK, if has_id other then set_id (Some (id other)) target else target).

(** ** Consuming *)

Lemma after_prefix_app expected s : after_prefix expected (expected ++ s) = Some s.
Proof. induction expected as [|c expected IH]; cbn; [done|]. by rewrite Ascii.eqb_refl. Qed.

Lemma after_prefix_Some expected s rest : after_prefix expected s = Some rest → s = expected ++ rest.
Proof.
  revert s. induction expected as [|c expected IH]; intros s; cbn; [by intros [= ->]|].
  destruct s as [|d s]; [done|]. destruct (Ascii.eqb_spec c d) as [-> |]; [|done]. by intros ->%IH.
Qed.

Lemma ConsumePrefix_app s expected : ConsumePrefix (expected ++ s) expected = (true, s).
Proof. unfold ConsumePrefix. by rewrite after_prefix_app. Qed.

Lemma ConsumePrefix_true s expected rest : ConsumePrefix s expected = (true, rest) → s = expected ++ rest.
Proof. unfold ConsumePrefix. destruct (after_prefix expected s) eqn:E; [|done]. intros [= ->]. by apply after_prefix_Some. Qed.

Lemma ConsumePrefix_false s expected rest : ConsumePrefix s expected = (false, rest) → rest = s.
Proof. unfold ConsumePrefix. destruct (after_prefix expected s); [done|]. by intros [= ->]. Qed.

(** The test of [ConsumeLeadingDigits] finds every overflow. *)
Lemma overflow_test v d :
  is_u64 v → 0 <= d <= 9 → (u64 (v * 10 + d) / 8 <? v) = negb (v * 10 + d <? 2 ^ 64).
Proof.
  unfold is_u64, u64. intros Hv Hd. pose proof (Z.div_mod (v * 10 + d) (2 ^ 64)). pose proof (Z.mod_pos_bound (v * 10 + d) (2 ^ 64)).
  set (q := (v * 10 + d) / 2 ^ 64) in *. set (r := (v * 10 + d) mod 2 ^ 64) in *.
  pose proof (Z.div_mod r 8). pose proof (Z.mod_pos_bound r 8).
  destruct (Z.ltb_spec (v * 10 + d) (2 ^ 64)), (Z.ltb_spec (r / 8) v); cbn [negb]; lia.
Qed.

Lemma leading_digits_spec ds rest v :
  Forall (λ c, isdigit c = true) ds → no_digit rest → is_u64 v →
  leading_digits v (ds ++ rest) = if decimal v ds <? 2 ^ 64 then Some (decimal v ds, rest) else None.
Proof.
  intros Hds Hrest. revert v. induction Hds as [|c ds Hc Hds IH]; intros v Hv; cbn [app leading_digits].
  - unfold decimal. cbn [foldl]. unfold is_u64 in Hv. rewrite (proj2 (Z.ltb_lt _ _)) by lia.
    destruct rest as [|c rest]; [done|]. unfold no_digit in Hrest. cbn in Hrest. cbn. by rewrite Hrest.
  - rewrite Hc. apply isdigit_range in Hc. rewrite overflow_test by (done || lia).
    unfold decimal. cbn [foldl]. fold (decimal (v * 10 + (code_of c - 48)) ds).
    destruct (Z.ltb_spec (v * 10 + (code_of c - 48)) (2 ^ 64)) as [Hlt|Hge]; cbn [negb].
    + rewrite u64_small by (unfold is_u64 in *; lia). apply IH. unfold is_u64 in *. lia.
    + rewrite (proj2 (Z.ltb_ge _ _)); [done|]. pose proof (decimal_mono (v * 10 + (code_of c - 48)) ds Hds). unfold is_u64 in *. lia.
Qed.

Lemma ConsumeLeadingDigits_spec s v rest :
  ConsumeLeadingDigits s = Some (v, rest) ↔
  ∃ ds, s = ds ++ rest ∧ ds ≠ [] ∧ Forall (λ c, isdigit c = true) ds ∧ no_digit rest ∧ v = decimal 0 ds ∧ decimal 0 ds < 2 ^ 64.
Proof.
  unfold ConsumeLeadingDigits. split.
  - destruct (split_digits s) as (ds&rest'&->&Hds&Hrest). rewrite leading_digits_spec by (done || by unfold is_u64).
    destruct (Z.ltb_spec (decimal 0 ds) (2 ^ 64)); [|done]. cbn [mbind option_bind]. case_match eqn:Hlen; [|done]. intros [= <- <-].
    apply Nat.ltb_lt in Hlen. rewrite length_app in Hlen. exists ds. split_and!; try done. intros ->. cbn in Hlen. lia.
  - intros (ds&->&Hne&Hds&Hrest&->&Hlt). rewrite leading_digits_spec by (done || by unfold is_u64). rewrite (proj2 (Z.ltb_lt _ _)) by done. cbn [mbind option_bind].
    rewrite (proj2 (Nat.ltb_lt _ _)); [done|]. rewrite length_app. destruct ds; [done|]. cbn. lia.
Qed.

(** *** Numbers *)

Lemma StrInt_digits i : 0 <= i < 2 ^ 31 →
  StrInt i ≠ [] ∧ Forall (λ c, isdigit c = true) (StrInt i) ∧ decimal 0 (StrInt i) = i.
Proof.
  intros Hi. unfold StrInt, FastInt32ToBufferLeft, FastUInt32ToBufferLeft. rewrite (proj2 (Z.ltb_ge i 0)) by lia.
  rewrite u32_small by (unfold is_u32; lia). destruct (digits_loop_spec 9 i) as (Hd&Hne&Hval); [lia|].
  split_and!; [|by apply Forall_reverse|done]. intros E. apply Hne. by rewrite <- (reverse_involutive (digits_loop 9 i)), E.
Qed.

Lemma ConsumeNumber_StrInt i rest :
  0 <= i < 2 ^ 31 → no_digit rest → ConsumeNumber (StrInt i ++ rest) = Some (i, rest).
Proof.
  intros Hi Hrest. destruct (StrInt_digits i Hi) as (Hne&Hd&Hval). unfold ConsumeNumber.
  rewrite (proj2 (ConsumeLeadingDigits_spec (StrInt i ++ rest) i rest)).
  - cbn [mbind option_bind]. rewrite i32_small; [done|]. unfold is_i32. lia.
  - exists (StrInt i). split_and!; try done. lia.
Qed.

Lemma ConsumeNumber_sound s v rest : ConsumeNumber s = Some (v, rest) → is_i32 v ∧ (length rest < length s)%nat ∧ ∃ ds, s = ds ++ rest ∧ Forall (λ c, isdigit c = true) ds.
Proof.
  unfold ConsumeNumber. destruct (ConsumeLeadingDigits s) as [[n rest']|] eqn:E; [|done]. cbn [mbind option_bind]. intros [= <- <-].
  apply ConsumeLeadingDigits_spec in E as (ds&->&Hne&Hds&_). split_and!; [| |by exists ds].
  - unfold is_i32, i32. pose proof (Z.mod_pos_bound (n + 2 ^ 31) (2 ^ 32)). lia.
  - rewrite length_app. destruct ds; [done|]. cbn. lia.
Qed.

(** *** Names *)

Lemma name_char_not c : name_char c = true → c ≠ "/"%char ∧ c ≠ ":"%char ∧ c ≠ ";"%char ∧ c ≠ "*"%char.
Proof. intros Hc. by split_and!; intros ->. Qed.

Lemma IsAlpha_name_char c : IsAlpha c = true → name_char c = true.
Proof. unfold name_char, IsAlphaNum. by intros ->. Qed.

Lemma IsJobName_chars n : IsJobName n = true → n ≠ [] ∧ Forall (λ c, name_char c = true) n.
Proof.
  destruct n as [|c n]; [done|]. cbn. intros [Hc Hn]%andb_true_iff. split; [done|]. constructor; [by apply IsAlpha_name_char|].
  rewrite forallb_forall in Hn. apply Forall_forall. intros d Hd. apply Hn. by apply list_elem_of_In.
Qed.

(** The rest begins with a delimiter, if anything is left. *)
Definition stops (stop : ascii → bool) (rest : list ascii) : Prop :=
  match rest with c :: _ => stop c = true | [] => True end.

Section names.
Context (stop : ascii → bool) (stop_not : ∀ c, name_char c = true → stop c = false).

Lemma name_loop_app n rest : forallb name_char n = true → stops stop rest → name_loop stop (n ++ rest) = Some (n, rest).
Proof.
  intros Hn Hrest. induction n as [|c n IH]; cbn in *.
  - destruct rest as [|c rest]; [done|]. cbn in *. by rewrite Hrest.
  - apply andb_true_iff in Hn as [Hc Hn]. by rewrite stop_not, Hc, IH.
Qed.

Lemma name_loop_sound s n rest : name_loop stop s = Some (n, rest) → s = n ++ rest ∧ forallb name_char n = true.
Proof.
  revert n. induction s as [|c s IH]; intros n; cbn; [by intros [= <- <-]|].
  destruct (stop c); [by intros [= <- <-]|]. destruct (name_char c) eqn:Hc; [|done].
  destruct (name_loop stop s) as [[n' rest']|]; [|done]. cbn [mbind option_bind]. intros [= <- <-].
  destruct (IH n' eq_refl) as [-> Hn]. cbn. by rewrite Hc.
Qed.

Lemma consume_name_app n rest : IsJobName n = true → stops stop rest → consume_name stop (n ++ rest) = Some (n, rest).
Proof.
  destruct n as [|c n]; [done|]. cbn. intros [-> Hn]%andb_true_iff Hrest. by rewrite name_loop_app.
Qed.

Lemma consume_name_sound s n rest : consume_name stop s = Some (n, rest) → s = n ++ rest ∧ IsJobName n = true ∧ (length rest < length s)%nat.
Proof.
  destruct s as [|c s]; [done|]. cbn. destruct (IsAlpha c) eqn:Hc; [|done]. destruct (name_loop stop s) as [[n' rest']|] eqn:E; [|done].
  cbn [mbind option_bind]. intros [= <- <-]. apply name_loop_sound in E as [-> Hn]. cbn. rewrite Hc, length_app. split_and!; [done..|lia].
Qed.
End names.

Lemma job_stop c : name_char c = true → Ascii.eqb c "/" = false.
Proof. intros (H&_)%name_char_not. by apply Ascii.eqb_neq. Qed.

Lemma type_stop c : name_char c = true → Ascii.eqb c "/" || Ascii.eqb c ":" = false.
Proof. intros (H1&H2&_)%name_char_not. apply orb_false_iff. by rewrite !Ascii.eqb_neq. Qed.

(** ** What is accepted *)

(** The values that a name has are names and [int]s. *)
Record valid (p : ParsedName) : Prop := {
  v_job : has_job p = true → IsJobName (job p) = true;
  v_replica : has_replica p = true → is_i32 (replica p);
  v_task : has_task p = true → is_i32 (task p);
  v_type : has_type p = true → IsJobName (type p) = true;
  v_id : has_id p = true → is_i32 (id p) }.

Definition semicolon : ascii := ";".

(** What a function takes from the front: a value with [P], and no semicolon. *)
Definition takes {A} (P : A → Prop) (consume : list ascii → option (A * list ascii)) : Prop :=
  ∀ s v rest, consume s = Some (v, rest) → P v ∧ ∃ pre, s = pre ++ rest ∧ semicolon ∉ pre.

Lemma takes_number : takes is_i32 ConsumeNumber.
Proof.
  intros s v rest (Hv&_&ds&->&Hds)%ConsumeNumber_sound. split; [done|]. exists ds. split; [done|].
  intros Hin. rewrite Forall_forall in Hds. by specialize (Hds _ Hin).
Qed.

Lemma takes_name stop : takes (λ n, IsJobName n = true) (consume_name stop).
Proof.
  intros s n rest (->&Hn&_)%consume_name_sound. split; [done|]. exists n. split; [done|].
  intros Hin. apply IsJobName_chars in Hn as [_ Hn]. rewrite Forall_forall in Hn. by specialize (Hn _ Hin).
Qed.

Lemma takes_star {A} (P : A → Prop) consume : takes P consume → takes (λ v, ∀ x, v = Some x → P x) (star_or consume).
Proof.
  intros Hc s v rest. unfold star_or. destruct (ConsumePrefix s (str "*")) as [[|] s'] eqn:E.
  - intros [= <- <-]. apply ConsumePrefix_true in E. split; [done|]. exists (str "*"). split; [done|]. by intros ?%list_elem_of_singleton.
  - apply ConsumePrefix_false in E as ->. destruct (consume s) as [[x rest']|] eqn:E; [|done]. cbn [mbind option_bind]. intros [= <- <-].
    apply Hc in E as [HP Hpre]. split; [|done]. by intros ? [= <-].
Qed.

(** What the blocks of a round keep, for the string [s0] at its beginning. *)
Definition block_ok (s0 : list ascii) (b : Block) : Prop :=
  valid b.2 ∧ ∃ pre, s0 = pre ++ b.1.2 ∧ (semicolon ∉ pre) ∧ (b.1.1 = true → pre ≠ []).

Lemma block_ok_step s0 progress s p pre s' p' :
  block_ok s0 (progress, s, p) → s = pre ++ s' → semicolon ∉ pre → pre ≠ [] → (valid p → valid p') → block_ok s0 (true, s', p').
Proof.
  intros (Hv&pre0&->&H0&_) -> Hs Hne Hp. split; [by apply Hp|]. exists (pre0 ++ pre). cbn [fst snd]. split_and!.
  - by rewrite app_assoc.
  - by rewrite elem_of_app; intros [|].
  - intros _. by destruct pre0, pre.
Qed.

Lemma parse_part_ok {A} prefix consume (set : option A → ParsedName → ParsedName) P s0 b b' :
  takes P consume → semicolon ∉ str prefix → str prefix ≠ [] →
  (∀ v p, (∀ x, v = Some x → P x) → valid p → valid (set v p)) →
  block_ok s0 b → parse_part prefix consume set b = Some b' → block_ok s0 b'.
Proof.
  intros Ht Hs Hne Hset Hb. destruct b as [[progress s] p]. unfold parse_part.
  destruct (ConsumePrefix s (str prefix)) as [[|] s1] eqn:E; [|by intros [= <-]]. apply ConsumePrefix_true in E.
  destruct (star_or consume s1) as [[v s2]|] eqn:E2; [|done]. cbn [mbind option_bind]. intros [= <-].
  apply (takes_star P) in E2 as (Hv&pre&->&Hpre); [|done].
  apply (block_ok_step _ _ _ _ (str prefix ++ pre) _ _ Hb); [by rewrite <- app_assoc| | |by apply Hset].
  - by rewrite elem_of_app; intros [|].
  - by destruct (str prefix).
Qed.

Lemma valid_set_job v p : (∀ x, v = Some x → IsJobName x = true) → valid p → valid (set_job v p).
Proof. intros Hv []. split; try done. destruct v; cbn; [by auto|done]. Qed.
Lemma valid_set_replica v p : (∀ x, v = Some x → is_i32 x) → valid p → valid (set_replica v p).
Proof. intros Hv []. split; try done. destruct v; cbn; [by auto|done]. Qed.
Lemma valid_set_task v p : (∀ x, v = Some x → is_i32 x) → valid p → valid (set_task v p).
Proof. intros Hv []. split; try done. destruct v; cbn; [by auto|done]. Qed.
Lemma valid_set_type v p : (∀ x, v = Some x → IsJobName x = true) → valid p → valid (set_type v p).
Proof. intros Hv []. split; try done. destruct v; cbn; [by auto|done]. Qed.
Lemma valid_set_id v p : (∀ x, v = Some x → is_i32 x) → valid p → valid (set_id v p).
Proof. intros Hv []. split; try done. destruct v; cbn; [by auto|done]. Qed.
Lemma valid_cleared : valid cleared.
Proof. by split. Qed.

#[local] Hint Resolve valid_set_job valid_set_replica valid_set_task valid_set_type valid_set_id valid_cleared takes_number takes_name : tension.

(** Literals are searched for a semicolon. *)
Ltac no_semicolon := cbn; rewrite ?not_elem_of_cons; repeat (split; [done|]); apply not_elem_of_nil.

Lemma parse_device_ok s0 b b' : block_ok s0 b → parse_device b = Some b' → block_ok s0 b'.
Proof.
  intros Hb. destruct b as [[progress s] p]. unfold parse_device.
  destruct (ConsumePrefix s (str "/device:")) as [[|] s1] eqn:E; [|by intros [= <-]]. apply ConsumePrefix_true in E.
  destruct (star_or ConsumeDeviceType s1) as [[ty s2]|] eqn:E2; [|done]. cbn [mbind option_bind].
  apply (takes_star (λ n, IsJobName n = true)) in E2 as (Hty&pre&->&Hpre); [|apply takes_name].
  assert (Hdev : semicolon ∉ str "/device:") by no_semicolon. assert (Hcol : semicolon ∉ str ":") by no_semicolon.
  destruct (ConsumePrefix s2 (str ":")) as [[|] s3] eqn:E3.
  - apply ConsumePrefix_true in E3 as ->. destruct (star_or ConsumeNumber s3) as [[v s4]|] eqn:E4; [|done]. cbn [mbind option_bind].
    intros [= <-]. apply (takes_star is_i32) in E4 as (Hv&pre2&->&Hpre2); [|apply takes_number].
    apply (block_ok_step _ _ _ _ (str "/device:" ++ pre ++ str ":" ++ pre2) _ _ Hb); [by rewrite <- !app_assoc| |done|auto with tension].
    rewrite !elem_of_app. by intros [|[|[|]]].
  - apply ConsumePrefix_false in E3 as ->. intros [= <-].
    apply (block_ok_step _ _ _ _ (str "/device:" ++ pre) _ _ Hb); [by rewrite <- !app_assoc| |done|].
    + rewrite !elem_of_app. by intros [|].
    + intros Hp. apply valid_set_id; [done|]. auto with tension.
Qed.

Lemma parse_legacy_ok lower upper ty s0 b b' :
  semicolon ∉ str lower → semicolon ∉ str upper → str lower ≠ [] → str upper ≠ [] → IsJobName (str ty) = true →
  block_ok s0 b → parse_legacy lower upper ty b = Some b' → block_ok s0 b'.
Proof.
  intros Hl Hu Hln Hun Hty Hb. destruct b as [[progress s] p]. unfold parse_legacy.
  assert (Hgo : ∀ pre s1, s = pre ++ s1 → semicolon ∉ pre → pre ≠ [] →
    ('(v, s2) ← star_or ConsumeNumber s1; Some (true, s2, set_id v (set_type (Some (str ty)) p))) = Some b' → block_ok s0 b').
  { intros pre s1 -> Hpre Hne. destruct (star_or ConsumeNumber s1) as [[v s2]|] eqn:E2; [|done]. cbn [mbind option_bind]. intros [= <-].
    apply (takes_star is_i32) in E2 as (Hv&pre2&->&Hpre2); [|apply takes_number].
    apply (block_ok_step _ _ _ _ (pre ++ pre2) _ _ Hb); [by rewrite <- !app_assoc| | |].
    - by rewrite elem_of_app; intros [|].
    - by destruct pre.
    - intros Hp. apply valid_set_id; [done|]. apply valid_set_type; [|done]. by intros ? [= <-]. }
  destruct (ConsumePrefix s (str lower)) as [[|] s1] eqn:E.
  - apply ConsumePrefix_true in E. by apply (Hgo (str lower)).
  - apply ConsumePrefix_false in E as ->. destruct (ConsumePrefix s (str upper)) as [[|] s2] eqn:E2; [|by intros [= <-]].
    apply ConsumePrefix_true in E2. by apply (Hgo (str upper)).
Qed.

Lemma parse_round_ok s p b : valid p → parse_round s p = Some b → block_ok s b.
Proof.
  intros Hp. unfold parse_round.
  assert (H0 : block_ok s (false, s, p)) by (split; [done|]; exists []; split_and!; [done|apply not_elem_of_nil|done]).
  destruct (parse_part "/job:" _ _ _) as [b1|] eqn:E1; [|done]. cbn [mbind option_bind].
  eapply (parse_part_ok _ _ _ (λ n, IsJobName n = true)) in E1; [|apply takes_name|no_semicolon|done|auto with tension|exact H0].
  destruct (parse_part "/replica:" _ _ _) as [b2|] eqn:E2; [|done]. cbn [mbind option_bind].
  eapply (parse_part_ok _ _ _ is_i32) in E2; [|apply takes_number|no_semicolon|done|auto with tension|exact E1].
  destruct (parse_part "/task:" _ _ _) as [b3|] eqn:E3; [|done]. cbn [mbind option_bind].
  eapply (parse_part_ok _ _ _ is_i32) in E3; [|apply takes_number|no_semicolon|done|auto with tension|exact E2].
  destruct (parse_device b3) as [b4|] eqn:E4; [|done]. cbn [mbind option_bind]. apply (parse_device_ok s) in E4; [|done].
  destruct (parse_legacy "/cpu:" _ _ _) as [b5|] eqn:E5; [|done]. cbn [mbind option_bind].
  apply (parse_legacy_ok _ _ _ s) in E5; [|no_semicolon|no_semicolon|done..]. apply parse_legacy_ok; [no_semicolon|no_semicolon|done..].
Qed.

Lemma parse_loop_ok fuel s p p' : valid p → parse_loop fuel s p = Some p' → valid p' ∧ semicolon ∉ s.
Proof.
  revert s p. induction fuel as [|fuel IH]; intros [|c s] p Hp; cbn [parse_loop]; try done; try (intros [= <-]; by split; [|apply not_elem_of_nil]).
  destruct (parse_round (c :: s) p) as [[[[|] s1] p1]|] eqn:E; try done. cbn [mbind option_bind]. intros H.
  apply parse_round_ok in E as (Hp1&pre&Hs&Hpre&_); [|done]. cbn [fst snd] in *. apply IH in H as [Hv Hs1]; [|done].
  split; [done|]. rewrite Hs, elem_of_app. by intros [|].
Qed.

(** The type invariant of names that are accepted. *)
Lemma ParseFullName_ok s p : ParseFullName s = Some p → valid p ∧ semicolon ∉ s.
Proof.
  unfold ParseFullName. case_bool_decide as H.
  - intros [= <-]. split; [apply valid_cleared|]. rewrite H. no_semicolon.
  - apply parse_loop_ok, valid_cleared.
Qed.

(** The loop ends: more rounds than characters change nothing. *)
Lemma parse_loop_fuel fuel s p : valid p → (length s ≤ fuel)%nat → parse_loop fuel s p = parse_loop (S fuel) s p.
Proof.
  revert s p. induction fuel as [|fuel IH]; intros [|c s] p Hp Hf; try done; [cbn in Hf; lia|].
  change (parse_loop (S (S fuel)) (c :: s) p) with ('(progress, s1, p1) ← parse_round (c :: s) p; if progress : bool then parse_loop (S fuel) s1 p1 else None).
  change (parse_loop (S fuel) (c :: s) p) with ('(progress, s1, p1) ← parse_round (c :: s) p; if progress : bool then parse_loop fuel s1 p1 else None).
  destruct (parse_round (c :: s) p) as [[[[|] s1] p1]|] eqn:E; try done. cbn [mbind option_bind].
  apply parse_round_ok in E as (Hp1&pre&Hs&Hpre&Hne); [|done]. cbn [fst snd] in *. apply IH; [done|].
  apply (f_equal length) in Hs. rewrite length_app in Hs. cbn in Hs, Hf. destruct pre; [by destruct Hne|]. cbn in Hs. lia.
Qed.

(** ** What is printed is parsed *)

(** A name as it is printed: without the values that are open, and without the number of
    a device whose type is open. *)
Definition printed (p : ParsedName) : ParsedName :=
  mkParsedName (has_job p) (if has_job p then job p else []) (has_replica p) (if has_replica p then replica p else 0)
    (has_task p) (if has_task p then task p else 0) (has_type p) (if has_type p then type p else [])
    (has_type p && has_id p) (if has_type p && has_id p then id p else 0).

(** No number was too large for an [int]. *)
Definition nonnegative (p : ParsedName) : Prop :=
  (has_replica p = true → 0 <= replica p) ∧ (has_task p = true → 0 <= task p) ∧ (has_id p = true → 0 <= id p).

Lemma star_or_value {A} (consume : list ascii → option (A * list ascii)) c s x rest :
  c ≠ "*"%char → consume (c :: s) = Some (x, rest) → star_or consume (c :: s) = Some (Some x, rest).
Proof.
  intros Hc E. unfold star_or, ConsumePrefix. change (str "*") with ["*"%char]. cbn [after_prefix].
  rewrite (proj2 (Ascii.eqb_neq _ _)) by done. by rewrite E.
Qed.

Lemma star_or_number i rest : 0 <= i < 2 ^ 31 → no_digit rest → star_or ConsumeNumber (StrInt i ++ rest) = Some (Some i, rest).
Proof.
  intros Hi Hrest. pose proof (ConsumeNumber_StrInt i rest Hi Hrest) as E. destruct (StrInt_digits i Hi) as (Hne&Hd&_).
  destruct (StrInt i) as [|c ds]; [done|]. cbn [app] in *. apply star_or_value; [|done].
  apply Forall_cons in Hd as [Hd _]. by intros ->.
Qed.

Lemma star_or_name stop n rest :
  (∀ c, name_char c = true → stop c = false) → IsJobName n = true → stops stop rest →
  star_or (consume_name stop) (n ++ rest) = Some (Some n, rest).
Proof.
  intros Hstop Hn Hrest. pose proof (consume_name_app stop Hstop n rest Hn Hrest) as E. apply IsJobName_chars in Hn as [Hne Hc].
  destruct n as [|c n]; [done|]. cbn [app] in *. apply star_or_value; [|done]. apply Forall_cons in Hc as [Hc _]. by apply name_char_not.
Qed.

Lemma parse_part_yes {A} prefix consume (set : option A → ParsedName → ParsedName) progress s v rest p :
  star_or consume s = Some (v, rest) → parse_part prefix consume set (progress, str prefix ++ s, p) = Some (true, rest, set v p).
Proof. intros E. unfold parse_part. by rewrite ConsumePrefix_app, E. Qed.

Lemma parse_part_no {A} prefix consume (set : option A → ParsedName → ParsedName) progress s p :
  after_prefix (str prefix) s = None → parse_part prefix consume set (progress, s, p) = Some (progress, s, p).
Proof. intros E. unfold parse_part, ConsumePrefix. by rewrite E. Qed.

Section printed.
Context (p : ParsedName) (Hv : valid p) (Hnn : nonnegative p).

Let dev : list ascii := if has_type p then str "/device:" ++ type p ++ str ":" ++ (if has_id p then StrInt (id p) else str "*") else [].
Let tsk : list ascii := (if has_task p then str "/task:" ++ StrInt (task p) else []) ++ dev.
Let rep : list ascii := (if has_replica p then str "/replica:" ++ StrInt (replica p) else []) ++ tsk.

(** Looks at the first characters of the parts. *)
Ltac heads := unfold rep, tsk, dev; repeat match goal with |- context [if ?b then _ else _] => destruct b eqn:? end; done.

Lemma parse_job_printed :
  parse_part "/job:" ConsumeJobName set_job (false, ParsedNameToString p, cleared) =
  Some (has_job p, rep, mkParsedName (has_job p) (if has_job p then job p else []) false 0 false 0 false [] false 0).
Proof.
  unfold ParsedNameToString. fold dev. fold tsk. fold rep. destruct (has_job p) eqn:Hj.
  - rewrite <- app_assoc. rewrite (parse_part_yes _ _ _ _ _ (Some (job p)) rep); [done|]. apply star_or_name; [exact job_stop|by apply Hv|heads].
  - apply parse_part_no. heads.
Qed.

Lemma parse_replica_printed progress q :
  has_replica q = false → replica q = 0 →
  parse_part "/replica:" ConsumeNumber set_replica (progress, rep, q) =
  Some (progress || has_replica p, tsk, mkParsedName (has_job q) (job q) (has_replica p) (if has_replica p then replica p else 0)
    (has_task q) (task q) (has_type q) (type q) (has_id q) (id q)).
Proof.
  intros Hq1 Hq2. unfold rep. destruct (has_replica p) eqn:Hj.
  - rewrite <- app_assoc, orb_true_r. rewrite (parse_part_yes _ _ _ _ _ (Some (replica p)) tsk); [done|]. apply star_or_number; [|heads].
    destruct Hnn as (Hn&_). specialize (Hn Hj). destruct (v_replica p Hv Hj). lia.
  - rewrite parse_part_no by heads. rewrite orb_false_r, <- Hq1, <- Hq2. by destruct q.
Qed.

Lemma parse_task_printed progress q :
  has_task q = false → task q = 0 →
  parse_part "/task:" ConsumeNumber set_task (progress, tsk, q) =
  Some (progress || has_task p, dev, mkParsedName (has_job q) (job q) (has_replica q) (replica q)
    (has_task p) (if has_task p then task p else 0) (has_type q) (type q) (has_id q) (id q)).
Proof.
  intros Hq1 Hq2. unfold tsk. destruct (has_task p) eqn:Hj.
  - rewrite <- app_assoc, orb_true_r. rewrite (parse_part_yes _ _ _ _ _ (Some (task p)) dev); [done|]. apply star_or_number; [|heads].
    destruct Hnn as (_&Hn&_). specialize (Hn Hj). destruct (v_task p Hv Hj). lia.
  - rewrite parse_part_no by heads. rewrite orb_false_r, <- Hq1, <- Hq2. by destruct q.
Qed.

Lemma parse_device_printed progress q :
  has_type q = false → type q = [] → has_id q = false → id q = 0 →
  parse_device (progress, dev, q) =
  Some (progress || has_type p, [], mkParsedName (has_job q) (job q) (has_replica q) (replica q) (has_task q) (task q)
    (has_type p) (if has_type p then type p else []) (has_type p && has_id p) (if has_type p && has_id p then id p else 0)).
Proof.
  intros Hq1 Hq2 Hq3 Hq4. unfold dev, parse_device. destruct (has_type p) eqn:Hj.
  - rewrite orb_true_r, ConsumePrefix_app. unfold ConsumeDeviceType.
    rewrite star_or_name; [|exact type_stop|by apply Hv|by destruct (has_id p)]. cbn [mbind option_bind].
    rewrite ConsumePrefix_app. cbn [andb]. destruct (has_id p) eqn:Hi.
    + rewrite <- (app_nil_r (StrInt (id p))), star_or_number; [done| |done].
      destruct Hnn as (_&_&Hn). specialize (Hn Hi). destruct (v_id p Hv Hi). lia.
    + cbn. unfold set_id, set_type. cbn. by rewrite Hq4.
  - rewrite orb_false_r. destruct q. cbn in *. by subst.
Qed.

Lemma parse_round_printed :
  parse_round (ParsedNameToString p) cleared = Some (has_job p || has_replica p || has_task p || has_type p, [], printed p).
Proof.
  unfold parse_round. rewrite parse_job_printed. cbn [mbind option_bind]. rewrite parse_replica_printed by done. cbn [mbind option_bind].
  rewrite parse_task_printed by done. cbn [mbind option_bind]. by rewrite parse_device_printed.
Qed.

Lemma parse_printed : ParseFullName (ParsedNameToString p) = Some (printed p).
Proof.
  unfold ParseFullName. rewrite bool_decide_eq_false_2.
  2: { unfold ParsedNameToString. fold dev. fold tsk. fold rep. heads. }
  destruct (ParsedNameToString p) as [|c s] eqn:E.
  - cbn. f_equal. unfold printed. unfold ParsedNameToString in E.
    destruct (has_job p); [done|]. destruct (has_replica p); [done|]. destruct (has_task p); [done|]. by destruct (has_type p).
  - cbn [length]. change (parse_loop (S (length s)) (c :: s) cleared) with
      ('(progress, s1, p1) ← parse_round (c :: s) cleared; if progress : bool then parse_loop (length s) s1 p1 else None).
    rewrite <- E, parse_round_printed. cbn [mbind option_bind].
    destruct (has_job p || has_replica p || has_task p || has_type p) eqn:Hany; [by destruct (length s)|].
    apply orb_false_iff in Hany as [[[H1 H2]%orb_false_iff H3]%orb_false_iff H4]. unfold ParsedNameToString in E. by rewrite H1, H2, H3, H4 in E.
Qed.
End printed.

Lemma print_printed p : ParsedNameToString (printed p) = ParsedNameToString p.
Proof. destruct p as [[] ? [] ? [] ? [] ? [] ?]; reflexivity. Qed.

Lemma printed_same p : (has_id p = true → has_type p = true) → ParsedName_eqb p (printed p) = true.
Proof.
  intros Hi. unfold ParsedName_eqb, printed, same_part. cbn.
  destruct p as [[] ? [] ? [] ? [] ? [] ?]; cbn in *; repeat case_bool_decide; try done; by discriminate (Hi eq_refl).
Qed.

Lemma not_local p : ParseLocalName (ParsedNameToString p) = None.
Proof. destruct p as [[] ? [] ? [] ? [] ? [] ?]; reflexivity. Qed.

(** C27: a name that is accepted, with numbers that fit, is read back from its printed form
    as the same name (but for the number of a device whose type is open, which is not
    printed), and printing it again changes nothing: canonical names are canonical. *)
Theorem device_names_canonical s p :
  ParseFullName s = Some p → nonnegative p →
  ParseFullName (ParsedNameToString p) = Some (printed p) ∧
  ((has_id p = true → has_type p = true) → ParsedName_eqb p (printed p) = true) ∧
  ParsedNameToString (printed p) = ParsedNameToString p ∧
  CanonicalizeDeviceName (ParsedNameToString p) = ParsedNameToString p.
Proof.
  intros [Hv _]%ParseFullName_ok Hnn. pose proof (parse_printed p Hv Hnn) as Hp.
  split_and!; [done|apply printed_same|apply print_printed|].
  unfold CanonicalizeDeviceName. by rewrite not_local, Hp, print_printed.
Qed.

Lemma device_names_canonical_witness :
  ParseFullName (str "/gpu:*/job:*/task:7") = Some (mkParsedName false [] false 0 true 7 true (str "GPU") false 0) ∧
  ParseFullName (str "/task:7/device:GPU:*") = Some (mkParsedName false [] false 0 true 7 true (str "GPU") false 0).
Proof.
  assert (E : ParseFullName (str "/gpu:*/job:*/task:7") = Some (mkParsedName false [] false 0 true 7 true (str "GPU") false 0))
    by (vm_compute; reflexivity).
  split; [exact E|]. apply (device_names_canonical _ _ E). unfold nonnegative. cbn. split_and!; lia || done.
Defined.

(** A number of 2^31 is accepted, printed as a negative one, which is not accepted, and
    fails the [CHECK] of [GetNamesForDeviceMappings]; one of 2^32 is read as zero. *)
Lemma large_number_accepted :
  (∃ p, ParseFullName (str "/job:a/replica:2147483648/task:0/cpu:0") = Some p ∧
    ParsedNameToString p = str "/job:a/replica:-2147483648/task:0/device:CPU:0" ∧
    ParseFullName (ParsedNameToString p) = None ∧ GetNamesForDeviceMappings p = None) ∧
  ParseFullName (str "/replica:4294967296") = ParseFullName (str "/replica:0").
Proof.
  split; [|vm_compute; reflexivity].
  exists (mkParsedName true (str "a") true (- 2 ^ 31) true 0 true (str "CPU") true 0). split_and!; vm_compute; reflexivity.
Qed.

(** [FullName] prints complete names, and [SplitDeviceName] and [LocalName] take them
    apart. *)
Lemma FullName_prints p name :
  complete p = true → FullName (job p) (replica p) (task p) (type p) (id p) = Some name → name = ParsedNameToString p.
Proof.
  unfold complete, FullName, DeviceName, ParsedNameToString. intros Hc. bool_hyps.
  repeat match goal with H : has_job _ = _ |- _ => rewrite H | H : has_replica _ = _ |- _ => rewrite H | H : has_task _ = _ |- _ => rewrite H
    | H : has_type _ = _ |- _ => rewrite H | H : has_id _ = _ |- _ => rewrite H end.
  case_match; [|done]. intros [= <-]. by rewrite <- !app_assoc.
Qed.

(** ** Specifications *)

(** The values of a name; [None] is open. *)
Definition value {A} (has : bool) (a : A) : option A := if has then Some a else None.
Definition job_of p := value (has_job p) (job p).
Definition replica_of p := value (has_replica p) (replica p).
Definition task_of p := value (has_task p) (task p).
Definition type_of p := value (has_type p) (type p).
Definition id_of p := value (has_id p) (id p).

(** Every value that [a] has, [b] has too. *)
Definition less {A} (a b : option A) : Prop := a = None ∨ a = b.

Lemma part_conflict_less {A} `{EqDecision A} h (a : A) h' b : part_conflict h a h' b = false ↔ less (value h a) (value h' b).
Proof.
  unfold part_conflict, less, value. destruct h, h'; cbn; try case_bool_decide; naive_solver.
Qed.

Lemma same_part_eq {A} `{EqDecision A} h (a : A) h' b : same_part h a h' b = true ↔ value h a = value h' b.
Proof. unfold same_part, value. destruct h, h'; cbn; try case_bool_decide; naive_solver. Qed.

Lemma IsSpecification_less a b :
  IsSpecification a b = true ↔
  less (job_of a) (job_of b) ∧ less (replica_of a) (replica_of b) ∧ less (task_of a) (task_of b) ∧
  less (type_of a) (type_of b) ∧ less (id_of a) (id_of b).
Proof.
  unfold job_of, replica_of, task_of, type_of, id_of. rewrite <- !part_conflict_less. unfold IsSpecification.
  repeat case_match; naive_solver.
Qed.

Lemma ParsedName_eqb_values a b :
  ParsedName_eqb a b = true ↔
  job_of a = job_of b ∧ replica_of a = replica_of b ∧ task_of a = task_of b ∧ type_of a = type_of b ∧ id_of a = id_of b.
Proof. unfold ParsedName_eqb. rewrite !andb_true_iff, !same_part_eq. unfold job_of, replica_of, task_of, type_of, id_of. tauto. Qed.

(** Equality of names, as the code has it; specification is an order up to it. *)
#[export] Instance ParsedName_equiv : Equiv ParsedName := λ a b, ParsedName_eqb a b = true.

#[export] Instance ParsedName_equivalence : Equivalence (≡@{ParsedName}).
Proof.
  split; intros a; unfold equiv, ParsedName_equiv.
  - by rewrite ParsedName_eqb_values.
  - intros b. rewrite !ParsedName_eqb_values. intuition congruence.
  - intros b c. rewrite !ParsedName_eqb_values. intuition congruence.
Qed.

#[export] Instance IsSpecification_proper : Proper ((≡) ==> (≡) ==> (=)) IsSpecification.
Proof.
  intros a a' Ha b b' Hb. apply ParsedName_eqb_values in Ha as (A1&A2&A3&A4&A5), Hb as (B1&B2&B3&B4&B5).
  apply eq_true_iff_eq. rewrite !IsSpecification_less. by rewrite A1, A2, A3, A4, A5, B1, B2, B3, B4, B5.
Qed.

Lemma less_refl {A} (a : option A) : less a a.
Proof. by right. Qed.
Lemma less_trans {A} (a b c : option A) : less a b → less b c → less a c.
Proof. unfold less. intros [-> | ->]; auto. Qed.
Lemma less_antisym {A} (a b : option A) : less a b → less b a → a = b.
Proof. unfold less. intros [-> | ->] [-> |]; auto. Qed.

#[local] Hint Resolve less_refl less_trans less_antisym : tension.

Lemma IsSpecification_order :
  (∀ a, IsSpecification a a = true) ∧
  (∀ a b c, IsSpecification a b = true → IsSpecification b c = true → IsSpecification a c = true) ∧
  (∀ a b, IsSpecification a b = true → IsSpecification b a = true → a ≡ b).
Proof.
  split_and!.
  - intros a. rewrite IsSpecification_less. auto with tension.
  - intros a b c. rewrite !IsSpecification_less. intros (?&?&?&?&?) (?&?&?&?&?). split_and!; eauto with tension.
  - intros a b. unfold equiv, ParsedName_equiv. rewrite !IsSpecification_less, ParsedName_eqb_values.
    intros (?&?&?&?&?) (?&?&?&?&?). split_and!; auto with tension.
Qed.

Lemma IsCompleteSpecification_is pattern name :
  IsCompleteSpecification pattern name = if complete name then Some (IsSpecification pattern name) else None.
Proof.
  unfold IsCompleteSpecification, complete. destruct (_ && _) eqn:Hc; [|done]. bool_hyps. f_equal. apply eq_true_iff_eq.
  unfold IsSpecification, part_conflict.
  repeat match goal with H : has_job _ = _ |- _ => rewrite H | H : has_replica _ = _ |- _ => rewrite H | H : has_task _ = _ |- _ => rewrite H
    | H : has_type _ = _ |- _ => rewrite H | H : has_id _ = _ |- _ => rewrite H end. done.
Qed.

(** ** Merging *)

Definition merged {A} (a b : option A) : option A := match b with Some _ => b | None => a end.
Definition agree {A} (a b : option A) : Prop := a = None ∨ b = None ∨ a = b.

Lemma merged_less {A} (a b c : option A) : agree a b → less (merged a b) c ↔ less a c ∧ less b c.
Proof. unfold agree, less, merged. destruct a, b, c; naive_solver. Qed.

Lemma less_agree {A} (a b c : option A) : less a c → less b c → agree a b.
Proof. unfold agree, less. intros [-> | ->] [-> | ->]; auto. Qed.

(** The test of [MergeDevNames] on one value. *)
Lemma differ_agree {A} `{EqDecision A} h (a : A) h' b :
  h' && h && negb (bool_decide (a = b)) = false ↔ agree (value h a) (value h' b).
Proof. unfold agree, value. destruct h, h'; cbn; try case_bool_decide; naive_solver. Qed.

Definition agree_task (a b : ParsedName) : Prop :=
  agree (job_of a) (job_of b) ∧ agree (replica_of a) (replica_of b) ∧ agree (task_of a) (task_of b).
Definition agree_device (a b : ParsedName) : Prop := agree (type_of a) (type_of b) ∧ agree (id_of a) (id_of b).

#[export] Instance agree_dec {A} `{EqDecision A} (a b : option A) : Decision (agree a b).
Proof. unfold agree. apply _. Defined.
#[export] Instance agree_task_dec a b : Decision (agree_task a b).
Proof. unfold agree_task. apply _. Defined.
#[export] Instance agree_device_dec a b : Decision (agree_device a b).
Proof. unfold agree_device. apply _. Defined.

(** The values of the result. *)
Definition has_values (r : ParsedName) (j : option (list ascii)) (re t : option Z) (ty : option (list ascii)) (i : option Z) : Prop :=
  job_of r = j ∧ replica_of r = re ∧ task_of r = t ∧ type_of r = ty ∧ id_of r = i.

(** The assignments of [MergeDevNames] change one value. *)
Lemma merge_job a b : let r := if has_job b then set_job (Some (job b)) a else a in
  job_of r = merged (job_of a) (job_of b) ∧ has_replica r = has_replica a ∧ replica r = replica a ∧ has_task r = has_task a ∧ task r = task a ∧
  has_type r = has_type a ∧ type r = type a ∧ has_id r = has_id a ∧ id r = id a.
Proof. unfold job_of, value, merged. by destruct (has_job b). Qed.

Lemma merge_replica a b : let r := if has_replica b then set_replica (Some (replica b)) a else a in
  job_of r = job_of a ∧ replica_of r = merged (replica_of a) (replica_of b) ∧ has_task r = has_task a ∧ task r = task a ∧
  has_type r = has_type a ∧ type r = type a ∧ has_id r = has_id a ∧ id r = id a.
Proof. unfold job_of, replica_of, value, merged. by destruct (has_replica b). Qed.

Lemma merge_task a b : let r := if has_task b then set_task (Some (task b)) a else a in
  job_of r = job_of a ∧ replica_of r = replica_of a ∧ task_of r = merged (task_of a) (task_of b) ∧
  has_type r = has_type a ∧ type r = type a ∧ has_id r = has_id a ∧ id r = id a.
Proof. unfold job_of, replica_of, task_of, value, merged. by destruct (has_task b). Qed.

Lemma merge_type a b : let r := if has_type b then set_type (Some (type b)) a else a in
  job_of r = job_of a ∧ replica_of r = replica_of a ∧ task_of r = task_of a ∧ type_of r = merged (type_of a) (type_of b) ∧
  has_id r = has_id a ∧ id r = id a.
Proof. unfold job_of, replica_of, task_of, type_of, value, merged. by destruct (has_type b). Qed.

Lemma merge_id a b : has_values (if has_id b then set_id (Some (id b)) a else a)
  (job_of a) (replica_of a) (task_of a) (type_of a) (merged (id_of a) (id_of b)).
Proof. unfold has_values, id_of, value, merged. by destruct (has_id b). Qed.

(** [MergeDevNames] as a function of the values. *)
Lemma MergeDevNames_values a b soft :
  let '(st, r) := MergeDevNames a b soft in
  (st = StatusOK ↔ agree_task a b ∧ (soft = true ∨ agree_device a b)) ∧
  (st ≠ StatusOK → code st = INVALID_ARGUMENT) ∧
  (st = StatusOK → has_values r (merged (job_of a) (job_of b)) (merged (replica_of a) (replica_of b)) (merged (task_of a) (task_of b))
     (if decide (agree (type_of a) (type_of b)) then merged (type_of a) (type_of b) else None)
     (if decide (agree_device a b) then merged (id_of a) (id_of b) else None)).
Proof.
  unfold MergeDevNames, agree_task.
  destruct (merge_job a b) as (J1&R1&R1'&T1&T1'&Y1&Y1'&I1&I1'). set (a1 := if has_job b then _ else a) in *.
  destruct (merge_replica a1 b) as (J2&R2&T2&T2'&Y2&Y2'&I2&I2'). set (a2 := if has_replica b then _ else a1) in *.
  destruct (merge_task a2 b) as (J3&R3&T3&Y3&Y3'&I3&I3'). set (a3 := if has_task b then _ else a2) in *.
  destruct (merge_type a3 b) as (J4&R4&T4&Y4&I4&I4'). set (a4 := if has_type b then _ else a3) in *.
  pose proof (merge_id a4 b) as H5. set (a5 := if has_id b then _ else a4) in *.
  rewrite R1, R1', T2, T2', T1, T1', Y3, Y3', Y2, Y2', Y1, Y1', I4, I4', I3, I3', I2, I2', I1, I1'.
  destruct (_ && negb (bool_decide (job a = job b))) eqn:Hj; [split_and!; [|done..] | apply differ_agree in Hj].
  { split; [done|]. intros [(H&_) _]. apply differ_agree in H. congruence. }
  destruct (_ && negb (bool_decide (replica a = replica b))) eqn:Hr; [split_and!; [|done..] | apply differ_agree in Hr].
  { split; [done|]. intros [(_&H&_) _]. apply differ_agree in H. congruence. }
  destruct (_ && negb (bool_decide (task a = task b))) eqn:Ht; [split_and!; [|done..] | apply differ_agree in Ht].
  { split; [done|]. intros [(_&_&H) _]. apply differ_agree in H. congruence. }
  fold (job_of a) (job_of b) in Hj. fold (replica_of a) (replica_of b) in Hr. fold (task_of a) (task_of b) in Ht.
  assert (R : replica_of a1 = replica_of a) by (unfold replica_of; congruence). assert (T : task_of a2 = task_of a) by (unfold task_of; congruence).
  assert (Y : type_of a3 = type_of a) by (unfold type_of; congruence). assert (I : id_of a4 = id_of a) by (unfold id_of; congruence).
  destruct (_ && negb (bool_decide (type a = type b))) eqn:Hy.
  { assert (¬ agree (type_of a) (type_of b)) as Hn by (intros H%differ_agree; congruence).
    assert (¬ agree_device a b) by (by intros [? _]).
    destruct soft; [|split_and!; [naive_solver|done..]]. split_and!; [naive_solver|done|]. intros _. rewrite !decide_False by done.
    unfold has_values. split_and!; [trans (job_of a3)|trans (replica_of a3)|trans (task_of a3)|done|done]; (done || congruence). }
  apply differ_agree in Hy. fold (type_of a) (type_of b) in Hy.
  destruct (_ && negb (bool_decide (id a = id b))) eqn:Hi.
  { assert (¬ agree (id_of a) (id_of b)) as Hn by (intros H%differ_agree; congruence).
    assert (¬ agree_device a b) by (by intros [_ ?]).
    destruct soft; [|split_and!; [naive_solver|done..]]. split_and!; [naive_solver|done|]. intros _. rewrite decide_True, decide_False by done.
    unfold has_values. split_and!; [trans (job_of a4)|trans (replica_of a4)|trans (task_of a4)|trans (type_of a4)|done]; (done || congruence). }
  apply differ_agree in Hi. fold (id_of a) (id_of b) in Hi.
  assert (agree_device a b) by done. split_and!; [split; [intros _; auto|done]|done|]. intros _. rewrite !decide_True by done.
  destruct H5 as (J5&R5&T5&Y5&I5). unfold has_values. split_and!; congruence.
Qed.

Lemma spec_agree a b c : IsSpecification a c = true → IsSpecification b c = true → agree_task a b ∧ agree_device a b.
Proof.
  rewrite !IsSpecification_less. intros (?&?&?&?&?) (?&?&?&?&?). unfold agree_task, agree_device. split_and!; (eapply less_agree; eassumption).
Qed.

Lemma merged_spec a b r c :
  agree_task a b → agree_device a b →
  has_values r (merged (job_of a) (job_of b)) (merged (replica_of a) (replica_of b)) (merged (task_of a) (task_of b))
    (merged (type_of a) (type_of b)) (merged (id_of a) (id_of b)) →
  IsSpecification r c = IsSpecification a c && IsSpecification b c.
Proof.
  intros (?&?&?) (?&?) (E1&E2&E3&E4&E5). apply eq_true_iff_eq. rewrite andb_true_iff, !IsSpecification_less, E1, E2, E3, E4, E5, !merged_less by done. tauto.
Qed.

(** [MergeDevNames] succeeds exactly for names that have a common specification, and
    then gives the least specific one: it is specified by just those names that specify
    both.  With soft placement it succeeds exactly when job, replica and task agree, and
    leaves open the type and number of devices that do not; every failure is an
    invalid-argument error. *)
Theorem merge_is_join a b :
  (let '(st, r) := MergeDevNames a b false in
    (st = StatusOK ↔ ∃ c, IsSpecification a c = true ∧ IsSpecification b c = true) ∧
    (st = StatusOK → ∀ c, IsSpecification r c = IsSpecification a c && IsSpecification b c) ∧
    (st ≠ StatusOK → code st = INVALID_ARGUMENT)) ∧
  (let '(st, r) := MergeDevNames a b true in
    (st = StatusOK ↔ agree_task a b) ∧
    (st = StatusOK → has_values r
      (merged (job_of a) (job_of b)) (merged (replica_of a) (replica_of b)) (merged (task_of a) (task_of b))
      (if decide (agree (type_of a) (type_of b)) then merged (type_of a) (type_of b) else None)
      (if decide (agree_device a b) then merged (id_of a) (id_of b) else None)) ∧
    (st ≠ StatusOK → code st = INVALID_ARGUMENT)).
Proof.
  split.
  - pose proof (MergeDevNames_values a b false) as H. destruct (MergeDevNames a b false) as [st r]. destruct H as (Hst&Herr&Hval).
    assert (Hok : st = StatusOK → agree_task a b ∧ agree_device a b) by (intros E; by apply Hst in E as [? [?|?]]).
    assert (Hspec : st = StatusOK → ∀ c, IsSpecification r c = IsSpecification a c && IsSpecification b c).
    { intros E c. destruct (Hok E) as [Ht Hd]. apply merged_spec; [done..|]. specialize (Hval E).
      rewrite (decide_True (P := agree_device a b)) in Hval by done. rewrite decide_True in Hval by apply Hd. done. }
    split_and!; [split|done|done].
    + intros E. exists r. apply andb_true_iff. rewrite <- Hspec by done. apply IsSpecification_order.
    + intros (c&Ha&Hb). apply Hst. destruct (spec_agree a b c Ha Hb). auto.
  - pose proof (MergeDevNames_values a b true) as H. destruct (MergeDevNames a b true) as [st r]. destruct H as (Hst&Herr&Hval).
    split_and!; [|done|done]. rewrite Hst. split; [by intros [? _]|auto].
Qed.

(** [AreCompatibleDevNames] implies that the names can be merged, but not conversely. *)
Lemma compatible_merge a b : AreCompatibleDevNames a b = true → (MergeDevNames a b false).1 = StatusOK.
Proof.
  intros H. pose proof (MergeDevNames_values a b false) as Hm. destruct (MergeDevNames a b false) as [st r]. apply Hm.
  destruct IsSpecification_order as (Hrefl&_). apply orb_true_iff in H as [H|H].
  - destruct (spec_agree a b b H (Hrefl b)). auto.
  - destruct (spec_agree a b a (Hrefl a) H). auto.
Qed.

Lemma compatible_misses_common_specification :
  let a := mkParsedName true (str "foo") false 0 false 0 false [] false 0 in
  let b := mkParsedName false [] false 0 true 7 false [] false 0 in
  let c := mkParsedName true (str "foo") true 0 true 7 true (str "CPU") true 0 in
  AreCompatibleDevNames a b = false ∧ complete c = true ∧ IsSpecification a c = true ∧ IsSpecification b c = true.
Proof. vm_compute. done. Qed.

(** Names of complete tasks in one address space have the same job, replica and task. *)
Lemma IsSameAddressSpace_is a b :
  IsSameAddressSpace a b = true ↔
  is_Some (job_of a) ∧ is_Some (replica_of a) ∧ is_Some (task_of a) ∧
  job_of a = job_of b ∧ replica_of a = replica_of b ∧ task_of a = task_of b.
Proof.
  unfold IsSameAddressSpace, job_of, replica_of, task_of, value. rewrite !andb_true_iff, !bool_decide_eq_true.
  destruct (has_job a), (has_job b), (has_replica a), (has_replica b), (has_task a), (has_task b); cbn;
    (split; [intros; destruct_and?; simplify_eq; split_and!; (done || eauto || congruence) | intros ([? ?]&[? ?]&[? ?]&?&?&?); simplify_eq; done]).
Qed.
