(* ===== verification/RendezvousKeys.v ===== *)
(** * Rendezvous keys

    [Rendezvous::CreateKey] and [ParseKey] of [tensorflow/core/framework/rendezvous.cc],
    with the hexadecimal numbers of [core/lib/strings/numbers.cc].  A [StringPiece] of the
    parsed key, which points into its buffer, is the list of its characters. *)
From S2P Require Import Prelude Numbers Status DeviceNames.
Local Open Scope Z_scope.

(** ** Hexadecimal numbers *)

Definition hexdigits : list ascii := str "0123456789abcdef".

(** The loop of [Uint64ToHexString], which writes the last digit first. *)
Fixpoint hex_loop (num_byte : nat) (v : Z) : list ascii :=
  match num_byte with
  | O => []
  | S n => hex_loop n (Z.shiftr v 4) ++ [nth (Z.to_nat (Z.land v 15)) hexdigits zero]
  end.

Definition Uint64ToHexString (v : Z) : list ascii := hex_loop 16 v.

Definition hex_value (c : ascii) : option Z :=
  if isdigit c then Some (code_of c - 48)
  else if (97 <=? code_of c) && (code_of c <=? 102) then Some (10 + (code_of c - 97))
  else if (65 <=? code_of c) && (code_of c <=? 70) then Some (10 + (code_of c - 65))
  else None.

Fixpoint parse_hex (v : Z) (s : list ascii) : option Z :=
  match s with
  | [] => Some v
  | c :: s => d ← hex_value c; parse_hex (u64 (u64 (Z.shiftl v 4) + d)) s
  end.

Definition HexStringToUint64 (s : list ascii) : option Z :=
  match s with [] => None | _ => parse_hex 0 s end.

(** ** Keys *)

Definition CreateKey (src_device : list ascii) (src_incarnation : Z) (dst_device name : list ascii) (frame_id iter_id : Z) : list ascii :=
  src_device ++ str ";" ++ Uint64ToHexString src_incarnation ++ str ";" ++ dst_device ++ str ";" ++ name ++ str ";" ++
  FastUInt64ToBufferLeft frame_id ++ str ":" ++ FastInt64ToBufferLeft iter_id.

(** The part up to the delimiter, and what comes after the delimiter. *)
Fixpoint ConsumeNextPart (s : list ascii) (delim : ascii) : list ascii * list ascii :=
  match s with
  | c :: s => if Ascii.eqb c delim then ([], s) else let '(result, rest) := ConsumeNextPart s delim in (c :: result, rest)
  | [] => ([], [])
  end.

Record ParsedKey := mkParsedKey {
  src_device : list ascii;
  src : ParsedName;
  src_incarnation : Z;
  dst_device : list ascii;
  dst : ParsedName;
  edge_name : list ascii;
  FullKey : list ascii }.

Definition is_empty (s : list ascii) : bool := match s with [] => true | _ => false end.

Definition ParseKey (key : list ascii) : Status + ParsedKey :=
  let '(part0, s) := ConsumeNextPart key ";" in
  let '(part1, s) := ConsumeNextPart s ";" in
  let '(part2, s) := ConsumeNextPart s ";" in
  let '(part3, s) := ConsumeNextPart s ";" in
  let '(part4, s) := ConsumeNextPart s ";" in
  let parsed :=
    if is_empty s && negb (is_empty part4) then
      x ← ParseFullName part0;
      n ← HexStringToUint64 part1;
      y ← ParseFullName part2;
      if negb (is_empty part3) then Some (mkParsedKey part0 x n part2 y part3 key) else None
    else None in
  match parsed with
  | Some out => inr out
  | None => inl (InvalidArgument ("Invalid  rendezvous key: " +:+ String.string_of_list_ascii key))
  end.

(** ** Round trips *)

Lemma hex_digits_check : forallb (λ d, bool_decide (hex_value (nth d hexdigits zero) = Some (Z.of_nat d))) (seq 0 16) = true.
Proof. vm_compute. reflexivity. Qed.

Lemma hex_digit_value d : 0 <= d < 16 → hex_value (nth (Z.to_nat d) hexdigits zero) = Some d.
Proof.
  intros Hd. pose proof hex_digits_check as H. rewrite forallb_forall in H. specialize (H (Z.to_nat d)).
  rewrite bool_decide_eq_true, Z2Nat.id in H by lia. apply H. apply in_seq. lia.
Qed.

Lemma hex_digit_not d : 0 <= d < 16 → nth (Z.to_nat d) hexdigits zero ≠ semicolon.
Proof. intros Hd E. pose proof (hex_digit_value d Hd) as H. by rewrite E in H. Qed.

Lemma parse_hex_app n v a rest :
  0 <= v → is_u64 a →
  parse_hex a (hex_loop n v ++ rest) = parse_hex (u64 (a * 2 ^ (4 * Z.of_nat n) + v mod 2 ^ (4 * Z.of_nat n))) rest.
Proof.
  revert v a rest. induction n as [|n IH]; intros v a rest Hv Ha; cbn [hex_loop].
  - change (2 ^ (4 * Z.of_nat 0)) with 1. rewrite Z.mod_1_r, Z.mul_1_r, Z.add_0_r. by rewrite u64_small.
  - rewrite <- app_assoc. cbn [app]. change 15 with (Z.ones 4). rewrite Z.land_ones by lia. rewrite IH by (done || by apply Z.shiftr_nonneg).
    rewrite Z.shiftr_div_pow2 by done. cbn [parse_hex]. rewrite hex_digit_value by (apply Z.mod_pos_bound; lia). cbn [mbind option_bind]. f_equal.
    rewrite Z.shiftl_mul_pow2 by done. rewrite u64_add_l. unfold u64. rewrite <- Z.add_mod_idemp_l, Z.mul_mod_idemp_l, Z.add_mod_idemp_l by lia. f_equal.
    replace (4 * Z.of_nat (S n)) with (4 + 4 * Z.of_nat n) by lia. rewrite Z.pow_add_r by lia.
    rewrite (Z.rem_mul_r v (2 ^ 4)) by (try lia; apply Z.pow_pos_nonneg; lia). lia.
Qed.

Lemma hex_round_trip v : is_u64 v → HexStringToUint64 (Uint64ToHexString v) = Some v.
Proof.
  intros Hv. unfold HexStringToUint64, Uint64ToHexString.
  assert (E : parse_hex 0 (hex_loop 16 v) = Some v).
  { rewrite <- (app_nil_r (hex_loop 16 v)), parse_hex_app by (unfold is_u64 in *; lia). cbn [parse_hex]. f_equal.
    unfold is_u64 in Hv. rewrite Z.mod_small by lia. rewrite u64_small by (unfold is_u64; lia). lia. }
  destruct (hex_loop 16 v) eqn:E2; [|done]. apply (f_equal length) in E2. cbn [hex_loop] in E2. rewrite !length_app in E2. cbn in E2. lia.
Qed.

Lemma hex_no_semicolon n v : semicolon ∉ hex_loop n v.
Proof.
  revert v. induction n as [|n IH]; intros v; cbn [hex_loop]; [apply not_elem_of_nil|].
  rewrite elem_of_app. intros [H|H%list_elem_of_singleton]; [by apply (IH (Z.shiftr v 4))|].
  symmetry in H. revert H. apply hex_digit_not. change 15 with (Z.ones 4). rewrite Z.land_ones by lia. apply Z.mod_pos_bound. lia.
Qed.

(** More than sixteen digits are accepted, and the first ones are lost. *)
Lemma long_hex_accepted : HexStringToUint64 (str "10000000000000005") = Some 5.
Proof. vm_compute. reflexivity. Qed.

Lemma ConsumeNextPart_app s rest delim : delim ∉ s → ConsumeNextPart (s ++ delim :: rest) delim = (s, rest).
Proof.
  induction s as [|c s IH]; intros Hn; cbn [app ConsumeNextPart]; [by rewrite Ascii.eqb_refl|].
  apply not_elem_of_cons in Hn as [Hc Hn]. rewrite (proj2 (Ascii.eqb_neq c delim)) by done. by rewrite IH.
Qed.

Lemma ConsumeNextPart_last s delim : delim ∉ s → ConsumeNextPart s delim = (s, []).
Proof.
  induction s as [|c s IH]; intros Hn; cbn [ConsumeNextPart]; [done|].
  apply not_elem_of_cons in Hn as [Hc Hn]. rewrite (proj2 (Ascii.eqb_neq c delim)) by done. by rewrite IH.
Qed.

Lemma digits_not c (ds : list ascii) : isdigit c = false → Forall (λ c, isdigit c = true) ds → c ∉ ds.
Proof. intros Hc Hds Hin. rewrite Forall_forall in Hds. specialize (Hds _ Hin). congruence. Qed.

Lemma frame_digits i : is_u64 i →
  Forall (λ c, isdigit c = true) (FastUInt64ToBufferLeft i) ∧ FastUInt64ToBufferLeft i ≠ [] ∧ decimal 0 (FastUInt64ToBufferLeft i) = i.
Proof.
  unfold is_u64. intros Hi. unfold FastUInt64ToBufferLeft. destruct (digits_loop_spec 19 i) as (Hd&Hne&Hval); [lia|].
  split_and!; [by apply Forall_reverse| |done]. intros E. apply Hne. by rewrite <- (reverse_involutive (digits_loop 19 i)), E.
Qed.

Lemma iter_no_semicolon i : is_i64 i → semicolon ∉ FastInt64ToBufferLeft i.
Proof.
  unfold is_i64, FastInt64ToBufferLeft. intros Hi.
  assert (H : ∀ j, semicolon ∉ FastUInt64ToBufferLeft (u64 j)).
  { intros j. apply digits_not; [done|]. apply frame_digits, u64_range. }
  case_match; [|apply H]. rewrite not_elem_of_cons. by split; [|apply H].
Qed.

(** The last part of a key. *)
Definition frame_part (frame_id iter_id : Z) : list ascii := FastUInt64ToBufferLeft frame_id ++ str ":" ++ FastInt64ToBufferLeft iter_id.

Lemma frame_part_no_semicolon f i : is_u64 f → is_i64 i → semicolon ∉ frame_part f i.
Proof.
  intros Hf Hi. unfold frame_part. rewrite !elem_of_app. intros [H|[H|H]].
  - revert H. apply digits_not; [done|]. by apply frame_digits.
  - by apply list_elem_of_singleton in H.
  - by apply (iter_no_semicolon i).
Qed.

Lemma frame_part_inj f i f' i' : is_u64 f → is_i64 i → is_u64 f' → is_i64 i' → frame_part f i = frame_part f' i' → f = f' ∧ i = i'.
Proof.
  intros Hf Hi Hf' Hi' E.
  assert (Hcol : ∀ f, is_u64 f → ":"%char ∉ FastUInt64ToBufferLeft f) by (intros g Hg; apply digits_not; [done|]; by apply frame_digits).
  apply (f_equal (λ s, ConsumeNextPart s ":")) in E. unfold frame_part in E. change (str ":") with [":"%char] in E. cbn [app] in E.
  rewrite !ConsumeNextPart_app in E by auto. injection E as E1 E2. split.
  - apply (f_equal (decimal 0)) in E1. by rewrite (proj2 (proj2 (frame_digits f Hf))), (proj2 (proj2 (frame_digits f' Hf'))) in E1.
  - apply (f_equal safe_strto64) in E2. rewrite !int64_round_trip in E2 by done. congruence.
Qed.

(** The parts of a key that was created. *)
Lemma CreateKey_parts src inc dst name f i :
  semicolon ∉ src → semicolon ∉ dst → semicolon ∉ name → is_u64 f → is_i64 i →
  let key := CreateKey src inc dst name f i in
  ConsumeNextPart key ";" = (src, Uint64ToHexString inc ++ str ";" ++ dst ++ str ";" ++ name ++ str ";" ++ frame_part f i) ∧
  ConsumeNextPart (Uint64ToHexString inc ++ str ";" ++ dst ++ str ";" ++ name ++ str ";" ++ frame_part f i) ";" =
    (Uint64ToHexString inc, dst ++ str ";" ++ name ++ str ";" ++ frame_part f i) ∧
  ConsumeNextPart (dst ++ str ";" ++ name ++ str ";" ++ frame_part f i) ";" = (dst, name ++ str ";" ++ frame_part f i) ∧
  ConsumeNextPart (name ++ str ";" ++ frame_part f i) ";" = (name, frame_part f i) ∧
  ConsumeNextPart (frame_part f i) ";" = (frame_part f i, []).
Proof.
  intros Hs Hd Hn Hf Hi. pose proof (frame_part_no_semicolon f i Hf Hi). pose proof (hex_no_semicolon 16 inc).
  unfold CreateKey. fold (frame_part f i). change (str ";") with [";"%char]. cbn [app].
  split_and!; (apply ConsumeNextPart_app || apply ConsumeNextPart_last); done.
Qed.

(** C28: for device names and edge names in which there is no semicolon, a key is parsed
    exactly when its device names are and its edge has a name, and then gives back the
    devices, the incarnation and the name it was created from; and no two channels
    (devices, incarnation, edge, frame and iteration) of such names have the same key. *)
Theorem rendezvous_keys src inc dst name f i :
  semicolon ∉ src → semicolon ∉ dst → semicolon ∉ name → is_u64 inc → is_u64 f → is_i64 i →
  let key := CreateKey src inc dst name f i in
  ParseKey key =
    match ParseFullName src, ParseFullName dst with
    | Some x, Some y =>
        if decide (name = []) then inl (InvalidArgument ("Invalid  rendezvous key: " +:+ String.string_of_list_ascii key))
        else inr (mkParsedKey src x inc dst y name key)
    | _, _ => inl (InvalidArgument ("Invalid  rendezvous key: " +:+ String.string_of_list_ascii key))
    end ∧
  ∀ src' inc' dst' name' f' i',
    semicolon ∉ src' → semicolon ∉ dst' → semicolon ∉ name' → is_u64 inc' → is_u64 f' → is_i64 i' →
    CreateKey src' inc' dst' name' f' i' = key → src' = src ∧ inc' = inc ∧ dst' = dst ∧ name' = name ∧ f' = f ∧ i' = i.
Proof.
  intros Hs Hd Hn Hinc Hf Hi key. destruct (CreateKey_parts src inc dst name f i Hs Hd Hn Hf Hi) as (P0&P1&P2&P3&P4). fold key in P0. split.
  - unfold ParseKey. rewrite P0, P1, P2, P3, P4. cbn [is_empty andb]. rewrite hex_round_trip by done.
    assert (is_empty (frame_part f i) = false) as ->.
    { unfold frame_part. pose proof (proj1 (proj2 (frame_digits f Hf))). by destruct (FastUInt64ToBufferLeft f). }
    cbn [negb]. destruct (ParseFullName src), (ParseFullName dst); cbn [mbind option_bind]; try done. by destruct name.
  - intros src' inc' dst' name' f' i' Hs' Hd' Hn' Hinc' Hf' Hi' E.
    destruct (CreateKey_parts src' inc' dst' name' f' i' Hs' Hd' Hn' Hf' Hi') as (Q0&Q1&Q2&Q3&Q4). rewrite E, P0 in Q0.
    apply pair_equal_spec in Q0 as [-> E1]. rewrite <- E1, P1 in Q1. apply pair_equal_spec in Q1 as [E2 E3]. rewrite <- E3, P2 in Q2. apply pair_equal_spec in Q2 as [-> E4].
    rewrite <- E4, P3 in Q3. apply pair_equal_spec in Q3 as [-> E5]. symmetry in E5. apply frame_part_inj in E5 as [-> ->]; try done.
    apply (f_equal HexStringToUint64) in E2. rewrite !hex_round_trip in E2 by done. split_and!; (reflexivity || congruence).
Qed.

Definition demo_src : list ascii := str "/job:w/replica:0/task:1/device:CPU:0".
Definition demo_dst : list ascii := str "/job:w/replica:0/task:2/gpu:3".

Lemma rendezvous_keys_witness :
  ParseKey (CreateKey demo_src 5 demo_dst (str "edge") 7 (-1)) =
    inr (mkParsedKey demo_src (mkParsedName true (str "w") true 0 true 1 true (str "CPU") true 0) 5 demo_dst
      (mkParsedName true (str "w") true 0 true 2 true (str "GPU") true 3) (str "edge") (CreateKey demo_src 5 demo_dst (str "edge") 7 (-1))) ∧
  CreateKey demo_src 5 demo_dst (str "edge") 7 (-1) ≠ CreateKey demo_src 5 demo_dst (str "edge") 7 1.
Proof.
  destruct (rendezvous_keys demo_src 5 demo_dst (str "edge") 7 (-1)) as [H1 H2].
  1-3: no_semicolon.
  1-3: split; lia.
  split.
  - rewrite H1.
    assert (ParseFullName demo_src = Some (mkParsedName true (str "w") true 0 true 1 true (str "CPU") true 0)) as -> by (vm_compute; reflexivity).
    assert (ParseFullName demo_dst = Some (mkParsedName true (str "w") true 0 true 2 true (str "GPU") true 3)) as -> by (vm_compute; reflexivity).
    by rewrite decide_False.
  - intros E. symmetry in E. apply H2 in E as (_&_&_&_&_&E); [lia|no_semicolon|no_semicolon|no_semicolon|split; lia..].
Defined.
