(* ===== verification/Rendezvous.v ===== *)
(** * Rendezvous

    [LocalRendezvousImpl] of [tensorflow/core/framework/rendezvous.cc], through which the
    kernels of one process pass tensors.

    Each call does its work in one critical section; the callbacks it makes afterwards,
    outside of the lock, are returned as a list.  A run is a sequence of critical
    sections, so that every interleaving of threads is one.  A waiter is known by a
    number; [refs] counts the references that queued items hold on device contexts. *)
From S2P Require Import Prelude Status Hash.
Local Open Scope Z_scope.

(** The queues are found by the hash of their key only. *)
Definition KeyHash (key : list ascii) : Z := Hash64_string key.

(** ** State *)

Section rendezvous.
Context {V : Type} (no_tensor : V).

Record Args := mkArgs { device_context : option nat; alloc_attrs : Z }.
Definition no_args : Args := mkArgs None 0.

Record Item := mkItem {
  waiter : option nat;
  value : V;
  is_dead : bool;
  send_args : Args;
  recv_args : Args }.

(** [IsSendValue]: there is no waiter. *)
Definition IsSendValue (i : Item) : bool := match waiter i with None => true | Some _ => false end.

Record Rendezvous := mkRendezvous {
  table_ : gmap Z (list Item);
  status_ : Status;
  refs : gmap nat Z }.

(** A call of a [DoneCallback]. *)
Record Call := mkCall {
  c_waiter : nat;
  c_status : Status;
  c_send_args : Args;
  c_recv_args : Args;
  c_value : V;
  c_dead : bool }.

Definition NewLocalRendezvous : Rendezvous := mkRendezvous ∅ StatusOK ∅.

(** [Ref] and [Unref] of a context, if there is one. *)
Definition add_ref (d : Z) (a : Args) (r : gmap nat Z) : gmap nat Z :=
  match device_context a with
  | Some c => <[c := default 0 (r !! c) + d]> r
  | None => r
  end.

(** [delete item]. *)
Definition delete_item (i : Item) (r : gmap nat Z) : gmap nat Z :=
  add_ref (-1) (recv_args i) (add_ref (-1) (send_args i) r).

(** ** Operations *)

Definition Send (key : list ascii) (args : Args) (val : V) (dead : bool) (r : Rendezvous) : Status * list Call * Rendezvous :=
  if negb (ok (status_ r)) then (status_ r, [], r) else
  let h := KeyHash key in
  let queue := default [] (table_ r !! h) in
  match queue with
  | mkItem (Some w) v d sa ra :: rest =>
      (StatusOK, [mkCall w StatusOK args ra val dead],
       mkRendezvous (<[h := rest]> (table_ r)) (status_ r) (delete_item (mkItem (Some w) v d sa ra) (refs r)))
  | _ =>
      (StatusOK, [],
       mkRendezvous (<[h := queue ++ [mkItem None val dead args no_args]]> (table_ r)) (status_ r) (add_ref 1 args (refs r)))
  end.

Definition RecvAsync (key : list ascii) (args : Args) (done : nat) (r : Rendezvous) : list Call * Rendezvous :=
  if negb (ok (status_ r)) then ([mkCall done (status_ r) no_args args no_tensor false], r) else
  let h := KeyHash key in
  let queue := default [] (table_ r !! h) in
  match queue with
  | mkItem None v d sa ra :: rest =>
      ([mkCall done StatusOK sa args v d],
       mkRendezvous (<[h := rest]> (table_ r)) (status_ r) (delete_item (mkItem None v d sa ra) (refs r)))
  | _ =>
      ([], mkRendezvous (<[h := queue ++ [mkItem (Some done) no_tensor false no_args args]]> (table_ r)) (status_ r)
             (add_ref 1 args (refs r)))
  end.

(** The order in which the table is iterated. *)
Context (order : gmap Z (list Item) → list (Z * list Item)).

Definition abort_item (status : Status) (i : Item) : list Call :=
  match waiter i with
  | Some w => [mkCall w status no_args no_args no_tensor false]
  | None => []
  end.

(** [None] is the failed [CHECK]. *)
Definition StartAbort (status : Status) (r : Rendezvous) : option (list Call * Rendezvous) :=
  if ok status then None else
  let items := order (table_ r) ≫= snd in
  Some (items ≫= abort_item status,
        mkRendezvous ∅ (Update (status_ r) status) (foldl (flip delete_item) (refs r) items)).

(** ** Runs *)

Inductive RdvOp :=
  | OSend (key : list ascii) (args : Args) (val : V) (dead : bool)
  | ORecv (key : list ascii) (args : Args) (done : nat)
  | OAbort (status : Status).

(** What an operation returns or calls, with the operation. *)
Definition do_op (o : RdvOp) (r : Rendezvous) : option (list Status * list Call * Rendezvous) :=
  match o with
  | OSend key args val dead => let '(st, cs, r) := Send key args val dead r in Some ([st], cs, r)
  | ORecv key args done => let '(cs, r) := RecvAsync key args done r in Some ([], cs, r)
  | OAbort status => '(cs, r) ← StartAbort status r; Some ([], cs, r)
  end.

Fixpoint do_ops (os : list RdvOp) (r : Rendezvous) : option (list Status * list Call * Rendezvous) :=
  match os with
  | [] => Some ([], [], r)
  | o :: os =>
      '(st, cs, r) ← do_op o r;
      '(sts, css, r) ← do_ops os r;
      Some (st ++ sts, cs ++ css, r)
  end.

(** ** The channels of a run *)

Definition Message : Type := Args * V * bool.
Definition Request : Type := nat * Args.

Definition send_item (s : Message) : Item := mkItem None s.1.2 s.2 s.1.1 no_args.
Definition wait_item (q : Request) : Item := mkItem (Some q.1) no_tensor false no_args q.2.

Definition sends (h : Z) (os : list RdvOp) : list Message :=
  omap (λ o, match o with OSend key args v d => if decide (KeyHash key = h) then Some (args, v, d) else None | _ => None end) os.
Definition recvs (h : Z) (os : list RdvOp) : list Request :=
  omap (λ o, match o with ORecv key args w => if decide (KeyHash key = h) then Some (w, args) else None | _ => None end) os.

(** The operations before the first [StartAbort], its status, and those after it. *)
Fixpoint until_abort (os : list RdvOp) : list RdvOp * option (Status * list RdvOp) :=
  match os with
  | [] => ([], None)
  | OAbort st :: os => ([], Some (st, os))
  | o :: os => let '(pre, post) := until_abort os in (o :: pre, post)
  end.

Definition matched (q : Request) (s : Message) : Call := mkCall q.1 StatusOK s.1.1 q.2 s.1.2 s.2.
Definition aborted (st : Status) (q : Request) : Call := mkCall q.1 st no_args no_args no_tensor false.
Definition refused (st : Status) (q : Request) : Call := mkCall q.1 st no_args q.2 no_tensor false.

(** The calls of a channel with requests and messages that are queued already. *)
Definition channel_calls (h : Z) (pw : list Request) (ps : list Message) (os : list RdvOp) : list Call :=
  let '(pre, post) := until_abort os in
  let R := pw ++ recvs h pre in
  let S := ps ++ sends h pre in
  zip_with matched R S ++
  match post with
  | None => []
  | Some (st, post) => (aborted st <$> drop (length S) R) ++ (refused st <$> recvs h post)
  end.

(** What [Send] returns. *)
Definition send_results (os : list RdvOp) : list Status :=
  let '(pre, post) := until_abort os in
  let count := omap (λ o, match o with OSend _ _ _ _ => Some tt | _ => None end) in
  ((λ _, StatusOK) <$> count pre) ++ match post with None => [] | Some (st, post) => (λ _, st) <$> count post end.

(** Every queue has messages or requests, and the requests of a queue are of its channel. *)
Definition is_queue (chan : nat → Z) (h : Z) (q : list Item) (pw : list Request) (ps : list Message) : Prop :=
  q = (send_item <$> ps) ++ (wait_item <$> pw) ∧ (ps = [] ∨ pw = []) ∧ Forall (λ p, chan p.1 = h) pw.

Definition queues (chan : nat → Z) (t : gmap Z (list Item)) : Prop :=
  ∀ h, ∃ pw ps, is_queue chan h (default [] (t !! h)) pw ps.

Definition op_chan (chan : nat → Z) (o : RdvOp) : Prop :=
  match o with ORecv key _ w => chan w = KeyHash key | _ => True end.

Definition of_channel (chan : nat → Z) (h : Z) (cs : list Call) : list Call := filter (λ c, chan (c_waiter c) = h) cs.

Lemma of_channel_app chan h cs cs' : of_channel chan h (cs ++ cs') = of_channel chan h cs ++ of_channel chan h cs'.
Proof. apply filter_app. Qed.

Lemma of_channel_one chan h c : of_channel chan h [c] = if decide (chan (c_waiter c) = h) then [c] else [].
Proof. unfold of_channel. by rewrite filter_cons, filter_nil. Qed.

Lemma queue_inj chan h q pw ps pw' ps' : is_queue chan h q pw ps → is_queue chan h q pw' ps' → pw = pw' ∧ ps = ps'.
Proof.
  intros (->&H1&_) (Heq&H2&_).
  assert (Hw : ∀ l l' : list Request, wait_item <$> l = wait_item <$> l' → l = l') by (apply list_fmap_eq_inj; intros [? ?] [? ?] [=]; congruence).
  assert (Hs : ∀ l l' : list Message, send_item <$> l = send_item <$> l' → l = l') by (apply list_fmap_eq_inj; intros [[? ?] ?] [[? ?] ?] [=]; congruence).
  destruct H1 as [-> | ->], H2 as [-> | ->]; cbn in Heq; rewrite ?app_nil_r in Heq; auto.
  - destruct pw, ps'; try done.
  - destruct pw', ps; try done.
Qed.

(** What a step leaves to do for its channel. *)
Definition continues (cs : list Call) (pw pw' : list Request) (ps ps' : list Message) (R : list Request) (S : list Message) : Prop :=
  ∀ R' S', cs ++ zip_with matched (pw' ++ R') (ps' ++ S') = zip_with matched (pw ++ R ++ R') (ps ++ S ++ S') ∧
    drop (length (ps' ++ S')) (pw' ++ R') = drop (length (ps ++ S ++ S')) (pw ++ R ++ R').

Lemma Send_ok chan key args v d r pw ps :
  status_ r = StatusOK → is_queue chan (KeyHash key) (default [] (table_ r !! KeyHash key)) pw ps →
  ∃ cs q' pw' ps' refs', Send key args v d r = (StatusOK, cs, mkRendezvous (<[KeyHash key := q']> (table_ r)) StatusOK refs') ∧
    is_queue chan (KeyHash key) q' pw' ps' ∧ continues cs pw pw' ps ps' [] [(args, v, d)] ∧
    of_channel chan (KeyHash key) cs = cs ∧ ∀ h, h ≠ KeyHash key → of_channel chan h cs = [].
Proof.
  intros Hok (Hq&Hor&Hch). unfold Send. rewrite Hok, Hq. cbn [ok negb]. destruct pw as [|[w ra] pw].
  - assert (E : (send_item <$> ps) ++ (wait_item <$> []) = send_item <$> ps) by apply app_nil_r. rewrite E.
    exists [], ((send_item <$> ps) ++ [send_item (args, v, d)]), [], (ps ++ [(args, v, d)]), (add_ref 1 args (refs r)).
    split_and!; [by destruct ps | | | done | done].
    + split_and!; [by rewrite fmap_app, app_nil_r | by right | constructor].
    + intros R' S'. by rewrite <- !app_assoc.
  - destruct Hor as [->|]; [|done]. apply Forall_cons in Hch as [Hw Hch]. cbn in Hw. cbn [fmap list_fmap app].
    eexists [_], (wait_item <$> pw), pw, [], _. split_and!; [reflexivity | | | |].
    + split_and!; [done | by left | done].
    + intros R' S'. done.
    + rewrite of_channel_one. cbn. by rewrite decide_True.
    + intros h Hh. rewrite of_channel_one. cbn. by rewrite decide_False by congruence.
Qed.

Lemma Recv_ok chan key args w r pw ps :
  status_ r = StatusOK → is_queue chan (KeyHash key) (default [] (table_ r !! KeyHash key)) pw ps → chan w = KeyHash key →
  ∃ cs q' pw' ps' refs', RecvAsync key args w r = (cs, mkRendezvous (<[KeyHash key := q']> (table_ r)) StatusOK refs') ∧
    is_queue chan (KeyHash key) q' pw' ps' ∧ continues cs pw pw' ps ps' [(w, args)] [] ∧
    of_channel chan (KeyHash key) cs = cs ∧ ∀ h, h ≠ KeyHash key → of_channel chan h cs = [].
Proof.
  intros Hok (Hq&Hor&Hch) Hchan. unfold RecvAsync. rewrite Hok, Hq. cbn [ok negb]. destruct ps as [|[[sa v] d] ps].
  - exists [], ((wait_item <$> pw) ++ [wait_item (w, args)]), (pw ++ [(w, args)]), [], (add_ref 1 args (refs r)).
    split_and!; [by destruct pw | | | done | done].
    + split_and!; [by rewrite fmap_app | by left |]. apply Forall_app. by split; [|constructor].
    + intros R' S'. by rewrite <- !app_assoc.
  - destruct Hor as [| ->]; [done|]. cbn [fmap list_fmap app]. eexists [_], (send_item <$> ps), [], ps, _. split_and!; [by rewrite app_nil_r | | | |].
    + split_and!; [by rewrite app_nil_r | by right | constructor].
    + intros R' S'. done.
    + rewrite of_channel_one. cbn. by rewrite decide_True.
    + intros h Hh. rewrite of_channel_one. cbn. by rewrite decide_False by congruence.
Qed.

Context (order_perm : ∀ t, order t ≡ₚ map_to_list t).

Lemma of_channel_abort chan h st q k pw ps :
  is_queue chan k q pw ps →
  of_channel chan h (q ≫= abort_item st) = if decide (k = h) then aborted st <$> pw else [].
Proof.
  intros (->&_&Hch). rewrite bind_app, of_channel_app.
  assert (of_channel chan h ((send_item <$> ps) ≫= abort_item st) = []) as -> by (induction ps as [|s ps IH]; done).
  induction pw as [|[w a] pw IH]; [by case_decide|]. apply Forall_cons in Hch as [Hw Hch]. cbn in Hw. specialize (IH Hch). cbn [app] in IH |- *.
  cbn [fmap list_fmap mbind list_bind]. rewrite of_channel_app, IH. cbn [abort_item wait_item waiter fst].
  rewrite of_channel_one. cbn. rewrite Hw. by case_decide.
Qed.

Lemma abort_calls chan h st t pw ps :
  queues chan t → is_queue chan h (default [] (t !! h)) pw ps →
  of_channel chan h ((order t ≫= snd) ≫= abort_item st) = aborted st <$> pw.
Proof.
  intros Hqs Hq.
  assert (Hl : ∀ l : list (Z * list Item), NoDup l.*1 → (∀ k q, (k, q) ∈ l → t !! k = Some q) →
    of_channel chan h ((l ≫= snd) ≫= abort_item st) = if decide (h ∈ l.*1) then aborted st <$> pw else []).
  { induction l as [|[k q] l IH]; intros Hnd Hin; [by rewrite decide_False by (apply not_elem_of_nil)|].
    cbn [fmap list_fmap fst] in Hnd |- *. apply NoDup_cons in Hnd as [Hk Hnd]. cbn [mbind list_bind]. rewrite bind_app, of_channel_app. cbn [snd].
    assert (t !! k = Some q) as Htk by (apply Hin; left). destruct (Hqs k) as (pw'&ps'&Hq'). rewrite Htk in Hq'. cbn in Hq'.
    rewrite (of_channel_abort chan h st q k pw' ps' Hq'), IH by (try done; intros; apply Hin; by right). destruct (decide (k = h)) as [->|Hne].
    - rewrite Htk in Hq. destruct (queue_inj _ _ _ _ _ _ _ Hq Hq') as [-> _]. rewrite (decide_True (P := h ∈ h :: l.*1)) by left.
      rewrite decide_False by done. apply app_nil_r.
    - destruct (decide (h ∈ l.*1)); [rewrite decide_True by (by right) | rewrite decide_False by (by rewrite elem_of_cons; naive_solver)]; done. }
  rewrite Hl.
  - case_decide as Hin; [done|]. rewrite order_perm in Hin. destruct (t !! h) as [q|] eqn:E.
    + destruct Hin. apply list_elem_of_fmap. exists (h, q). split; [done|]. by apply elem_of_map_to_list.
    + cbn in Hq. destruct (queue_inj chan h [] pw ps [] [] Hq) as [-> _]; [|done]. by split_and!; [|left|].
  - rewrite order_perm. apply NoDup_fst_map_to_list.
  - intros k q Hkq. rewrite order_perm in Hkq. by apply elem_of_map_to_list.
Qed.

Lemma order_empty : order ∅ = [].
Proof. apply Permutation_nil. rewrite order_perm. by rewrite map_to_list_empty. Qed.

Lemma closed_run chan st os r sts cs r' :
  status_ r = st → ok st = false → table_ r = ∅ → Forall (op_chan chan) os → do_ops os r = Some (sts, cs, r') →
  table_ r' = ∅ ∧ (∀ h, of_channel chan h cs = refused st <$> recvs h os) ∧
  sts = (λ _, st) <$> omap (λ o, match o with OSend _ _ _ _ => Some tt | _ => None end) os.
Proof.
  intros Hst Hok. revert r Hst sts cs. induction os as [|o os IH]; intros r Hst sts cs Ht Hch; cbn [do_ops]; [by intros [= <- <- <-]|].
  apply Forall_cons in Hch as [Ho Hch].
  destruct (do_op o r) as [[[sts1 cs1] r1]|] eqn:E; [|done]. cbn [mbind option_bind].
  assert (status_ r1 = st ∧ table_ r1 = ∅ ∧ (∀ h, of_channel chan h cs1 = refused st <$> recvs h [o]) ∧
    sts1 = (λ _, st) <$> omap (λ o, match o with OSend _ _ _ _ => Some tt | _ => None end) [o]) as (Hst1&Ht1&Hcs1&Hsts1).
  { destruct o as [key args v d|key args w|st2]; cbn [do_op] in E.
    - unfold Send in E. rewrite Hst, Hok in E. cbn in E. by injection E as <- <- <-.
    - unfold RecvAsync in E. rewrite Hst, Hok in E. cbn in E. injection E as <- <- <-. split_and!; [done | done | | done].
      intros h. rewrite of_channel_one. cbn in Ho |- *. rewrite Ho. by case_decide.
    - unfold StartAbort in E. destruct (ok st2); [done|]. cbn [mbind option_bind] in E. injection E as <- <- <-.
      rewrite Ht, order_empty. split_and!; [|done|done|done]. cbn. unfold Update. by rewrite Hst, Hok. }
  destruct (do_ops os r1) as [[[sts2 cs2] r2]|] eqn:E2; [|done]. cbn [mbind option_bind]. intros [= <- <- <-].
  destruct (IH r1 Hst1 _ _ Ht1 Hch E2) as (Ht2&Hcs2&Hsts2). split_and!; [done | |].
  - intros h. rewrite of_channel_app, Hcs1, Hcs2, <- fmap_app. f_equal. unfold recvs. by rewrite <- omap_app.
  - rewrite Hsts1, Hsts2, <- fmap_app, <- omap_app. done.
Qed.

Lemma queues_insert chan t k q pw ps : queues chan t → is_queue chan k q pw ps → queues chan (<[k := q]> t).
Proof.
  intros Hqs Hq h. destruct (decide (h = k)) as [->|Hne]; [rewrite lookup_insert_eq; eauto|]. by rewrite lookup_insert_ne.
Qed.

Lemma continues_calls chan k h cs pw pw' ps ps' R S os q' (t : gmap Z (list Item)) cs2 :
  continues cs pw pw' ps ps' R S → of_channel chan k cs = cs → (∀ h, h ≠ k → of_channel chan h cs = []) →
  (∀ pwh psh, is_queue chan h (default [] (<[k := q']> t !! h)) pwh psh → of_channel chan h cs2 = channel_calls h pwh psh os) →
  is_queue chan k (default [] (t !! k)) pw ps → is_queue chan k q' pw' ps' →
  ∀ pwh psh, is_queue chan h (default [] (t !! h)) pwh psh →
    of_channel chan h (cs ++ cs2) = (let '(pre, post) := until_abort os in
      let R' := pwh ++ (if decide (k = h) then R else []) ++ recvs h pre in
      let S' := psh ++ (if decide (k = h) then S else []) ++ sends h pre in
      zip_with matched R' S' ++
      match post with None => [] | Some (st, post) => (aborted st <$> drop (length S') R') ++ (refused st <$> recvs h post) end).
Proof.
  intros Hc Hk Hother IH Hq Hq' pwh psh Hqh. rewrite of_channel_app. unfold channel_calls in IH. destruct (until_abort os) as [pre post].
  destruct (decide (k = h)) as [<-|Hne].
  - rewrite lookup_insert_eq in IH. rewrite (IH pw' ps' Hq'), Hk, app_assoc. destruct (queue_inj chan k _ _ _ _ _ Hqh Hq) as [-> ->].
    destruct (Hc (recvs k pre) (sends k pre)) as [H1 H2]. rewrite H1. destruct post as [[st post]|]; [|done]. by rewrite H2.
  - rewrite lookup_insert_ne in IH by done. rewrite Hother by done. cbn [app]. by rewrite (IH pwh psh Hqh).
Qed.

Lemma open_run chan os r sts cs r' :
  status_ r = StatusOK → queues chan (table_ r) → Forall (op_chan chan) os → do_ops os r = Some (sts, cs, r') →
  sts = send_results os ∧
  ∀ h pw ps, is_queue chan h (default [] (table_ r !! h)) pw ps → of_channel chan h cs = channel_calls h pw ps os.
Proof.
  revert r sts cs. induction os as [|o os IH]; intros r sts cs Hok Hqs Hch; cbn [do_ops].
  { intros [= <- <- <-]. split; [done|]. intros h pw ps (_&Hor&_). unfold channel_calls. cbn.
    rewrite !app_nil_r. by destruct Hor as [-> | ->]; [rewrite zip_with_nil_r|]. }
  apply Forall_cons in Hch as [Ho Hch].
  destruct o as [key args v d|key args w|st]; cbn [do_op].
  - destruct (Hqs (KeyHash key)) as (pw0&ps0&Hq0). destruct (Send_ok chan key args v d r pw0 ps0 Hok Hq0) as (cs1&q'&pw'&ps'&refs'&->&Hq'&Hc&Hk&Hother).
    cbn [mbind option_bind]. destruct (do_ops os _) as [[[sts2 cs2] r2]|] eqn:E2; [|done]. cbn [mbind option_bind]. intros [= <- <- <-].
    destruct (IH (mkRendezvous (<[KeyHash key := q']> (table_ r)) StatusOK refs') _ _ eq_refl (queues_insert _ _ _ _ _ _ Hqs Hq') Hch E2) as [Hsts Hcs]. cbn [table_] in Hcs. split.
    + rewrite Hsts. unfold send_results. cbn [until_abort]. by destruct (until_abort os).
    + intros h pw ps Hq. rewrite (continues_calls chan (KeyHash key) h cs1 pw0 pw' ps0 ps' [] [(args, v, d)] os q' (table_ r) cs2 Hc Hk Hother (Hcs h) Hq0 Hq' pw ps Hq).
      unfold channel_calls. cbn [until_abort]. destruct (until_abort os) as [pre post]. cbn. by case_decide.
  - destruct (Hqs (KeyHash key)) as (pw0&ps0&Hq0). destruct (Recv_ok chan key args w r pw0 ps0 Hok Hq0 Ho) as (cs1&q'&pw'&ps'&refs'&->&Hq'&Hc&Hk&Hother).
    cbn [mbind option_bind]. destruct (do_ops os _) as [[[sts2 cs2] r2]|] eqn:E2; [|done]. cbn [mbind option_bind]. intros [= <- <- <-].
    destruct (IH (mkRendezvous (<[KeyHash key := q']> (table_ r)) StatusOK refs') _ _ eq_refl (queues_insert _ _ _ _ _ _ Hqs Hq') Hch E2) as [Hsts Hcs]. cbn [table_] in Hcs. split.
    + rewrite Hsts. unfold send_results. cbn [until_abort]. by destruct (until_abort os).
    + intros h pw ps Hq. rewrite (continues_calls chan (KeyHash key) h cs1 pw0 pw' ps0 ps' [(w, args)] [] os q' (table_ r) cs2 Hc Hk Hother (Hcs h) Hq0 Hq' pw ps Hq).
      unfold channel_calls. cbn [until_abort]. destruct (until_abort os) as [pre post]. cbn. by case_decide.
  - unfold StartAbort. destruct (ok st) eqn:Hst; [done|]. cbn [mbind option_bind].
    destruct (do_ops os _) as [[[sts2 cs2] r2]|] eqn:E2; [|done]. cbn [mbind option_bind]. intros [= <- <- <-].
    assert (Hup : Update (status_ r) st = st) by (unfold Update; by rewrite Hok).
    match type of E2 with do_ops os ?r1 = _ => destruct (closed_run chan st os r1 _ _ _ Hup Hst eq_refl Hch E2) as (_&Hcs&Hsts) end. split; [exact Hsts|].
    intros h pw ps Hq. rewrite of_channel_app, (abort_calls chan h st (table_ r) pw ps Hqs Hq), Hcs.
    unfold channel_calls. cbn. rewrite !app_nil_r. destruct Hq as (_&Hor&_). destruct Hor as [-> | ->]; [by rewrite zip_with_nil_r|by rewrite drop_nil].
Qed.

Lemma waiters_matched R S : c_waiter <$> zip_with matched R S = take (length S) (fst <$> R).
Proof. revert S. induction R as [|q R IH]; intros [|s S]; [done..|]. cbn. by rewrite <- IH. Qed.

Lemma recvs_until_abort h os :
  recvs h os = recvs h (until_abort os).1 ++ from_option (λ p, recvs h p.2) [] (until_abort os).2.
Proof.
  induction os as [|o os IH]; [done|]. destruct o as [key args v d|key args w|st]; cbn [until_abort]; [| |done].
  - destruct (until_abort os) as [pre post]. exact IH.
  - destruct (until_abort os) as [pre post]. unfold recvs in *. cbn in *. case_decide; cbn; [by rewrite IH | exact IH].
Qed.

Lemma new_queues chan : queues chan (table_ NewLocalRendezvous).
Proof. intros h. exists [], []. cbn. rewrite lookup_empty. by split_and!; [|left|]. Qed.


(** ** References on device contexts *)

Definition holds (c : nat) (i : Item) : Z :=
  (if decide (device_context (send_args i) = Some c) then 1 else 0) + (if decide (device_context (recv_args i) = Some c) then 1 else 0).

Definition held (c : nat) (l : list Item) : Z := foldr (λ i n, holds c i + n) 0 l.

Definition items (t : gmap Z (list Item)) : list Item := map_to_list t ≫= snd.

Lemma held_cons c i l : held c (i :: l) = holds c i + held c l.
Proof. done. Qed.

Lemma held_none c : held c [] = 0.
Proof. done. Qed.

Lemma held_app c l l' : held c (l ++ l') = held c l + held c l'.
Proof. induction l as [|i l IH]; cbn [app]; rewrite ?held_none, ?held_cons; [lia|]. rewrite IH. lia. Qed.

#[local] Instance held_perm c : Proper ((≡ₚ) ==> (=)) (held c).
Proof. intros l l'. induction 1; rewrite ?held_cons; lia. Qed.

Lemma items_at h t : items t ≡ₚ default [] (t !! h) ++ items (delete h t).
Proof.
  unfold items. destruct (t !! h) as [q|] eqn:E; cbn.
  - rewrite <- (insert_delete_id _ _ _ E) at 1. rewrite map_to_list_insert by apply lookup_delete_eq. done.
  - by rewrite delete_id.
Qed.

Lemma items_insert h q t : items (<[h := q]> t) ≡ₚ q ++ items (delete h t).
Proof. rewrite (items_at h), lookup_insert_eq. cbn. by rewrite delete_insert_eq. Qed.

Lemma add_ref_at d a r c :
  default 0 (add_ref d a r !! c) = default 0 (r !! c) + (if decide (device_context a = Some c) then d else 0).
Proof.
  unfold add_ref. destruct (device_context a) as [c'|]; [|rewrite decide_False by done; lia].
  destruct (decide (c' = c)) as [->|Hne]; [rewrite lookup_insert_eq, decide_True by done; cbn; lia|].
  rewrite lookup_insert_ne, decide_False by congruence. lia.
Qed.

Lemma delete_item_at i r c : default 0 (delete_item i r !! c) = default 0 (r !! c) - holds c i.
Proof. unfold delete_item, holds. rewrite !add_ref_at. repeat case_decide; lia. Qed.

Lemma delete_items_at l r c : default 0 (foldl (flip delete_item) r l !! c) = default 0 (r !! c) - held c l.
Proof.
  revert r. induction l as [|i l IH]; intros r; cbn [foldl]; rewrite ?held_none, ?held_cons; [lia|]. rewrite IH. unfold flip. rewrite delete_item_at. lia.
Qed.

Definition balanced (r : Rendezvous) : Prop := ∀ c, default 0 (refs r !! c) = held c (items (table_ r)).

Lemma balanced_push h q i a t r :
  balanced (mkRendezvous t StatusOK r) → q = default [] (t !! h) → (∀ c, holds c i = if decide (device_context a = Some c) then 1 else 0) →
  balanced (mkRendezvous (<[h := q ++ [i]]> t) StatusOK (add_ref 1 a r)).
Proof.
  intros Hb -> Hi c. cbn [refs table_]. rewrite add_ref_at, items_insert, !held_app. specialize (Hb c). cbn [refs table_] in Hb.
  rewrite (items_at h t), held_app in Hb. rewrite held_cons, held_none, Hi. lia.
Qed.

Lemma balanced_pop h q i t r :
  balanced (mkRendezvous t StatusOK r) → default [] (t !! h) = i :: q → balanced (mkRendezvous (<[h := q]> t) StatusOK (delete_item i r)).
Proof.
  intros Hb Hq c. cbn [refs table_]. rewrite delete_item_at, items_insert, held_app. specialize (Hb c). cbn [refs table_] in Hb.
  rewrite (items_at h t), Hq, held_app, held_cons in Hb. lia.
Qed.

Lemma do_op_balanced o r sts cs r' : balanced r → do_op o r = Some (sts, cs, r') → balanced r'.
Proof.
  intros Hb. destruct r as [t st rf]. destruct o as [key args v d|key args w|status]; cbn [do_op].
  - unfold Send. cbn [status_ table_ refs]. destruct st as [|c m]; cbn [ok negb]; [|by intros [= <- <- <-]].
    assert (Hi : ∀ c, holds c (mkItem None v d args no_args) = if decide (device_context args = Some c) then 1 else 0).
    { intros c. unfold holds. cbn. repeat case_decide; (done || lia). }
    destruct (default [] (t !! KeyHash key)) as [|[[w|] v' d' sa ra] rest] eqn:Hq; intros [= <- <- <-].
    + by apply (balanced_push _ []).
    + by apply balanced_pop.
    + by apply (balanced_push _ (_ :: _)).
  - unfold RecvAsync. cbn [status_ table_ refs]. destruct st as [|c m]; cbn [ok negb]; [|by intros [= <- <- <-]].
    assert (Hi : ∀ c, holds c (mkItem (Some w) no_tensor false no_args args) = if decide (device_context args = Some c) then 1 else 0).
    { intros c. unfold holds. cbn. repeat case_decide; (done || lia). }
    destruct (default [] (t !! KeyHash key)) as [|[[w'|] v' d' sa ra] rest] eqn:Hq; intros [= <- <- <-].
    + by apply (balanced_push _ []).
    + by apply (balanced_push _ (_ :: _)).
    + by apply balanced_pop.
  - unfold StartAbort. destruct (ok status); [done|]. cbn [mbind option_bind]. intros [= <- <- <-] c. cbn [refs table_].
    rewrite delete_items_at. specialize (Hb c). cbn [refs table_] in Hb. rewrite Hb.
    assert (order t ≫= snd ≡ₚ items t) as -> by (unfold items; by rewrite order_perm). cbn. unfold items. rewrite map_to_list_empty. cbn. lia.
Qed.

(** The rendezvous holds exactly one reference on a device context for each queued item
    that names it; after an abort it holds none. *)
Theorem contexts_balanced os sts cs r' :
  do_ops os NewLocalRendezvous = Some (sts, cs, r') → ∀ c, default 0 (refs r' !! c) = held c (items (table_ r')).
Proof.
  assert (balanced NewLocalRendezvous) as Hb by (intros c; cbn; by rewrite lookup_empty).
  revert Hb sts cs. generalize NewLocalRendezvous. induction os as [|o os IH]; intros r Hb sts cs; cbn [do_ops]; [by intros [= <- <- <-]|].
  destruct (do_op o r) as [[[sts1 cs1] r1]|] eqn:E; [|done]. cbn [mbind option_bind].
  destruct (do_ops os r1) as [[[sts2 cs2] r2]|] eqn:E2; [|done]. cbn [mbind option_bind]. intros [= <- <- <-].
  eapply IH; [by eapply do_op_balanced | done].
Qed.

(** ** The queues *)

(** The invariant that the code states: a queue has sent messages only, or waiters only. *)
Lemma queue_kinds os sts cs r' :
  do_ops os NewLocalRendezvous = Some (sts, cs, r') →
  ∀ h q, table_ r' !! h = Some q → Forall (λ i, IsSendValue i = true) q ∨ Forall (λ i, IsSendValue i = false) q.
Proof.
  set (kinds q := Forall (λ i, IsSendValue i = true) q ∨ Forall (λ i, IsSendValue i = false) q).
  assert (Hstep : ∀ o r sts cs r', (∀ h, kinds (default [] (table_ r !! h))) → do_op o r = Some (sts, cs, r') → ∀ h, kinds (default [] (table_ r' !! h))).
  { intros o r sts0 cs0 r0 Hk. destruct o as [key args v d|key args w|st]; cbn [do_op].
    - unfold Send. destruct (negb _); [by intros [= <- <- <-]|]. specialize (Hk (KeyHash key)) as Hkey.
      destruct (default [] (table_ r !! KeyHash key)) as [|[[w|] v' d' sa ra] rest]; intros [= <- <- <-] h; cbn [table_];
        (destruct (decide (h = KeyHash key)) as [->|Hne]; [rewrite lookup_insert_eq; cbn [from_option]; unfold id | by rewrite lookup_insert_ne]).
      + left. by repeat constructor.
      + destruct Hkey as [[Hx _]%Forall_cons|[_ Hx]%Forall_cons]; [done | by right].
      + destruct Hkey as [Hx|[Hx _]%Forall_cons]; [left; apply (Forall_app_2 _ (_ :: _)); [done | by repeat constructor] | done].
    - unfold RecvAsync. destruct (negb _); [by intros [= <- <- <-]|]. specialize (Hk (KeyHash key)) as Hkey.
      destruct (default [] (table_ r !! KeyHash key)) as [|[[w'|] v' d' sa ra] rest]; intros [= <- <- <-] h; cbn [table_];
        (destruct (decide (h = KeyHash key)) as [->|Hne]; [rewrite lookup_insert_eq; cbn [from_option]; unfold id | by rewrite lookup_insert_ne]).
      + right. by repeat constructor.
      + destruct Hkey as [[Hx _]%Forall_cons|Hx]; [done | right; apply (Forall_app_2 _ (_ :: _)); [done | by repeat constructor]].
      + destruct Hkey as [[_ Hx]%Forall_cons|[Hx _]%Forall_cons]; [by left | done].
    - unfold StartAbort. destruct (ok st); [done|]. cbn [mbind option_bind]. intros [= <- <- <-] h. cbn [table_]. rewrite lookup_empty. by left. }
  assert (Hnew : ∀ h, kinds (default [] (table_ NewLocalRendezvous !! h))) by (intros h; cbn; rewrite lookup_empty; by left).
  revert Hnew sts cs. generalize NewLocalRendezvous. induction os as [|o os IH]; intros r Hk sts cs; cbn [do_ops].
  - intros [= <- <- <-] h q Hq. specialize (Hk h). by rewrite Hq in Hk.
  - destruct (do_op o r) as [[[sts1 cs1] r1]|] eqn:E; [|done]. cbn [mbind option_bind].
    destruct (do_ops os r1) as [[[sts2 cs2] r2]|] eqn:E2; [|done]. cbn [mbind option_bind]. intros [= <- <- <-]. eapply IH; [by eapply Hstep | done].
Qed.

(** ** A receive that times out *)

(** [Recv] with a timeout leaves its callback, which refers to its frame, in the queue:
    a message that comes later is written to the frame after it is gone. *)
Theorem timed_out_receive_is_called key args v d rargs frame :
  let '(calls, r) := RecvAsync key rargs frame NewLocalRendezvous in
  calls = [] ∧
  (let '(st, calls, r) := Send key args v d r in st = StatusOK ∧ calls = [mkCall frame StatusOK args rargs v d]).
Proof.
  unfold RecvAsync. cbn [NewLocalRendezvous status_ table_ ok negb]. rewrite lookup_empty. cbn [default]. split; [done|].
  unfold Send. cbn [status_ table_ ok negb]. rewrite lookup_insert_eq. done.
Qed.
End rendezvous.

(** A message before its request, two requests before their messages, and an abort; a
    request and a message come after it.  The waiters 0 and 1 and 5 ask for one key, the
    waiters 2 and 3 for another one. *)
Definition key_a : list ascii := ["a"%char].
Definition key_b : list ascii := ["b"%char].
Definition demo_ops : list (RdvOp (V := nat)) :=
  [OSend key_a (mkArgs (Some 0%nat) 0) 10%nat false; ORecv key_b no_args 2; ORecv key_b (mkArgs (Some 1%nat) 3) 3;
   ORecv key_a no_args 0; OSend key_b no_args 11%nat true; ORecv key_a no_args 1;
   OAbort (StatusError CANCELLED EmptyString); OSend key_a no_args 12%nat false; ORecv key_a no_args 5].
Definition demo_chan (w : nat) : Z := if decide (w = 2 ∨ w = 3)%nat then KeyHash key_b else KeyHash key_a.
Definition demo_run : list Status * list (Call (V := nat)) * Rendezvous :=
  default ([], [], NewLocalRendezvous) (do_ops 0%nat map_to_list demo_ops NewLocalRendezvous).

Lemma demo_run_is : do_ops 0%nat map_to_list demo_ops NewLocalRendezvous = Some demo_run.
Proof. vm_compute. reflexivity. Qed.

Lemma demo_ops_chan : Forall (op_chan demo_chan) demo_ops.
Proof. repeat (constructor; [done || (vm_compute; reflexivity)|]). constructor. Qed.

