(* ===== verification/PendingCounts.v ===== *)
(** * Pending counts

    [PendingCounts] of [tensorflow/core/common_runtime/pending_counts.h]: for each node of
    a step, how many inputs it still waits for and how many of those that came are dead,
    packed into the bytes of one array.  A [Layout] gives out the places of the array.

    The array is a list of bytes; an access outside of it is [None].  How a compiler lays
    out the bit fields of the two structs is the class [StructLayout], with the layout of
    the Itanium ABI as an instance.  The [DCHECK]s of debug builds are left out of the
    operations; they are the conditions of the specification. *)
From S2P Require Import Prelude Coding.
Local Open Scope Z_scope.

(** ** The two structs *)

Inductive NodeState := PENDING_NOTREADY | PENDING_READY | STARTED | COMPLETED.

#[export] Instance NodeState_eq_dec : EqDecision NodeState.
Proof. solve_decision. Defined.

(** The fields of [PackedCounts] and of [LargeCounts]. *)
Record Counts := mkCounts { c_pending : Z; c_dead_count : Z; c_has_started : bool }.

(** The widths of the first two fields. *)
Definition kMaxCountForPackedCounts : Z := 7.
Definition pending_bits (large : bool) : Z := if large then 32 else 3.
Definition dead_bits (large : bool) : Z := if large then 31 else 3.

(** A store into the fields. *)
Definition store (large : bool) (pending dead : Z) (started : bool) : Counts :=
  mkCounts (pending mod 2 ^ pending_bits large) (dead mod 2 ^ dead_bits large) started.

Definition fits (large : bool) (c : Counts) : Prop :=
  0 <= c_pending c < 2 ^ pending_bits large ∧ 0 <= c_dead_count c < 2 ^ dead_bits large.

Definition NodeStateForStruct (c : Counts) : NodeState :=
  if c_has_started c then (if c_pending c =? 0 then STARTED else COMPLETED)
  else (if c_pending c =? 0 then PENDING_READY else PENDING_NOTREADY).

(** How a struct lies in its bytes: a [PackedCounts] in one byte, a [LargeCounts] in
    [sizeof_large] of them. *)
Class StructLayout := {
  sizeof_large : nat;
  get_packed : Z → Counts;
  put_packed : Counts → Z → Z;
  get_large : list Z → Counts;
  put_large : Counts → list Z → list Z;
  sizeof_large_pos : (0 < sizeof_large)%nat;
  get_put_packed c b : fits false c → get_packed (put_packed c b) = c;
  get_put_large c l : fits true c → length l = sizeof_large → get_large (put_large c l) = c;
  put_large_length c l : length l = sizeof_large → length (put_large c l) = sizeof_large }.

(** Fields from the lowest bit on; [has_started] is the last bit of the second word. *)
#[export, program] Instance itanium : StructLayout := {
  sizeof_large := 8;
  get_packed b := mkCounts (b mod 8) (b / 8 mod 8) (Z.testbit b 6);
  put_packed c b := c_pending c + 8 * c_dead_count c + 64 * Z.b2z (c_has_started c) + 128 * (b / 128);
  get_large l := let w := DecodeFixed32 (drop 4 l) in mkCounts (DecodeFixed32 l) (w mod 2 ^ 31) (2 ^ 31 <=? w);
  put_large c l := EncodeFixed32 (c_pending c) ++ EncodeFixed32 (c_dead_count c + 2 ^ 31 * Z.b2z (c_has_started c)) }.
Next Obligation. lia. Qed.
Next Obligation.
  intros [p d s] b [Hp Hd]. cbn [c_pending c_dead_count c_has_started pending_bits dead_bits] in *. f_equal.
  - replace (p + 8 * d + 64 * Z.b2z s + 128 * (b / 128)) with (p + (d + 8 * Z.b2z s + 16 * (b / 128)) * 8) by lia.
    rewrite Z.mod_add by lia. apply Z.mod_small. lia.
  - replace (p + 8 * d + 64 * Z.b2z s + 128 * (b / 128)) with (p + (d + 8 * Z.b2z s + 16 * (b / 128)) * 8) by lia.
    rewrite Z.div_add by lia. rewrite Z.div_small by lia.
    replace (0 + (d + 8 * Z.b2z s + 16 * (b / 128))) with (d + (Z.b2z s + 2 * (b / 128)) * 8) by lia. rewrite Z.mod_add by lia. apply Z.mod_small. lia.
  - rewrite Z.testbit_eqb by lia. change (2 ^ 6) with 64.
    replace (p + 8 * d + 64 * Z.b2z s + 128 * (b / 128)) with (p + 8 * d + (Z.b2z s + (b / 128) * 2) * 64) by lia.
    rewrite Z.div_add by lia. rewrite (Z.div_small (p + 8 * d)) by lia. rewrite Z.add_0_l, Z.mod_add by lia. by destruct s.
Qed.
Next Obligation.
  intros [p d s] l [Hp Hd] _. cbn [c_pending c_dead_count c_has_started pending_bits dead_bits] in *.
  assert (Hw : is_u32 (d + 2 ^ 31 * Z.b2z s)) by (unfold is_u32; destruct s; cbn; lia).
  rewrite (drop_app_length' (EncodeFixed32 p) _ 4) by done.
  rewrite fixed32_round_trip by done. rewrite <- (app_nil_r (EncodeFixed32 (d + _))), fixed32_round_trip by done. f_equal.
  - destruct s; cbn [Z.b2z]; [rewrite Z.mul_1_r, <- (Z.mul_1_l (2 ^ 31)) at 1; rewrite Z.mod_add by lia|rewrite Z.mul_0_r, Z.add_0_r]; apply Z.mod_small; lia.
  - destruct s; cbn [Z.b2z]; [apply Z.leb_le | apply Z.leb_gt]; lia.
Qed.
Next Obligation. done. Qed.

(** ** Handles and layouts *)

(** [int byte_offset_ : 31] and [bool is_large_ : 1]. *)
Record Handle := mkHandle { byte_offset_ : Z; is_large_ : bool }.

Definition i31 (z : Z) : Z := (z + 2 ^ 30) mod 2 ^ 31 - 2 ^ 30.

Section counts.
Context `{SL : StructLayout}.

#[local] Abbreviation B := (Z.of_nat sizeof_large).

(** [Layout::CreateHandle], with [next_offset_] as state. *)
Definition CreateHandle (max_pending_count max_dead_count : Z) (next_offset_ : Z) : Handle * Z :=
  if (kMaxCountForPackedCounts <? max_pending_count) || (kMaxCountForPackedCounts <? max_dead_count) then
    let offset := (next_offset_ + B - 1) / B * B in
    (mkHandle (i31 offset) true, i32 (i31 offset + B))
  else (mkHandle (i31 next_offset_) false, i32 (next_offset_ + 1)).

(** Handles for nodes with the given limits. *)
Fixpoint create_handles (limits : list (Z * Z)) (next_offset_ : Z) : list Handle * Z :=
  match limits with
  | [] => ([], next_offset_)
  | (mp, md) :: limits =>
      let '(h, next) := CreateHandle mp md next_offset_ in
      let '(hs, next) := create_handles limits next in
      (h :: hs, next)
  end.

(** ** The counts of an iteration *)

(** [bytes_], of length [num_bytes_]. *)
Definition PendingCounts : Type := list Z.

(** [new char[num_bytes_]] holds arbitrary bytes, [garbage]. *)
Definition new_PendingCounts (next_offset_ : Z) (garbage : nat → Z) : PendingCounts :=
  garbage <$> seq 0 (Z.to_nat next_offset_).

(** The constructor from another object. *)
Definition copy_PendingCounts (other : PendingCounts) : PendingCounts := other.

Definition size_of (large : bool) : nat := if large then sizeof_large else 1.

(** [Packed(h)] and [Large(h)]: reading and writing the struct at a handle. *)
Definition in_range (h : Handle) (c : PendingCounts) : bool :=
  (0 <=? byte_offset_ h) && (Z.to_nat (byte_offset_ h) + size_of (is_large_ h) <=? length c)%nat.

Definition bytes_at (h : Handle) (c : PendingCounts) : list Z :=
  take (size_of (is_large_ h)) (drop (Z.to_nat (byte_offset_ h)) c).

Definition decode (large : bool) (l : list Z) : Counts :=
  if large then get_large l else get_packed (nth 0 l 0).
Definition encode (large : bool) (r : Counts) (l : list Z) : list Z :=
  if large then put_large r l else [put_packed r (nth 0 l 0)].

Definition load (h : Handle) (c : PendingCounts) : option Counts :=
  if in_range h c then Some (decode (is_large_ h) (bytes_at h c)) else None.

Definition save (h : Handle) (r : Counts) (c : PendingCounts) : option PendingCounts :=
  if in_range h c then
    Some (take (Z.to_nat (byte_offset_ h)) c ++ encode (is_large_ h) r (bytes_at h c) ++
          drop (Z.to_nat (byte_offset_ h) + size_of (is_large_ h)) c)
  else None.

Definition set_initial_count (h : Handle) (pending_count : Z) (c : PendingCounts) : option PendingCounts :=
  _ ← load h c; save h (store (is_large_ h) pending_count 0 false) c.

Definition node_state (h : Handle) (c : PendingCounts) : option NodeState :=
  r ← load h c; Some (NodeStateForStruct r).

Definition mark_started (h : Handle) (c : PendingCounts) : option PendingCounts :=
  r ← load h c; save h (mkCounts (c_pending r) (c_dead_count r) true) c.

Definition mark_completed (h : Handle) (c : PendingCounts) : option PendingCounts :=
  r ← load h c; save h (mkCounts 1 (c_dead_count r) (c_has_started r)) c.

(** The fields of a [LargeCounts] are returned as [int]s. *)
Definition pending (h : Handle) (c : PendingCounts) : option Z :=
  r ← load h c;
  Some (if decide (NodeStateForStruct r = PENDING_NOTREADY) then i32 (c_pending r) else 0).

Definition decrement_pending (h : Handle) (v : Z) (c : PendingCounts) : option (Z * PendingCounts) :=
  r ← load h c;
  let r := store (is_large_ h) (c_pending r - v) (c_dead_count r) (c_has_started r) in
  c ← save h r c;
  Some (i32 (c_pending r), c).

(** [& 0x6], and [& ~0x1]. *)
Definition mark_live (h : Handle) (c : PendingCounts) : option PendingCounts :=
  r ← load h c;
  if decide (NodeStateForStruct r = PENDING_NOTREADY) then
    let p := Z.land (c_pending r) (if is_large_ h then Z.lnot 1 else 6) in
    save h (store (is_large_ h) p (c_dead_count r) (c_has_started r)) c
  else Some c.

Definition dead_count (h : Handle) (c : PendingCounts) : option Z := c_dead_count <$> load h c.

Definition increment_dead_count (h : Handle) (c : PendingCounts) : option PendingCounts :=
  r ← load h c;
  if decide (NodeStateForStruct r = PENDING_NOTREADY) then
    save h (store (is_large_ h) (c_pending r) (c_dead_count r + 1) (c_has_started r)) c
  else Some c.

(** The results are [*pending_result] and [*dead_result]. *)
Definition adjust_for_activation (h : Handle) (increment_dead : bool) (c : PendingCounts) : option (Z * Z * PendingCounts) :=
  r ← load h c;
  let d := if increment_dead && bool_decide (NodeStateForStruct r = PENDING_NOTREADY) then c_dead_count r + 1 else c_dead_count r in
  let r := store (is_large_ h) (c_pending r - 1) d (c_has_started r) in
  c ← save h r c;
  Some (i32 (c_pending r), c_dead_count r, c).

(** ** Layouts do not overlap *)

Definition h_end (h : Handle) : Z := byte_offset_ h + Z.of_nat (size_of (is_large_ h)).

Definition is_large (limit : Z * Z) : bool := (kMaxCountForPackedCounts <? limit.1) || (kMaxCountForPackedCounts <? limit.2).

Lemma B_pos : 0 < B.
Proof. pose proof sizeof_large_pos. lia. Qed.

Lemma CreateHandle_spec mp md next h next' :
  0 <= next → next + 2 * B <= 2 ^ 30 → CreateHandle mp md next = (h, next') →
  is_large_ h = is_large (mp, md) ∧ next <= byte_offset_ h ∧ h_end h = next' ∧ next' <= next + 2 * B ∧
  (is_large_ h = true → byte_offset_ h mod B = 0).
Proof.
  intros H0 Hb. pose proof B_pos as HB. unfold CreateHandle, is_large. cbn [fst snd]. destruct (_ || _); intros [= <- <-]; cbn [is_large_ byte_offset_]; unfold h_end; cbn [is_large_ byte_offset_ size_of].
  - pose proof (Z.div_mod (next + B - 1) B). pose proof (Z.mod_pos_bound (next + B - 1) B).
    assert (Hi : i31 ((next + B - 1) / B * B) = (next + B - 1) / B * B) by (unfold i31; rewrite Z.mod_small; lia).
    rewrite Hi, i32_small by (unfold is_i32; lia). split_and!; try lia. intros _. apply Z.mod_mul. lia.
  - assert (Hi : i31 next = next) by (unfold i31; rewrite Z.mod_small; lia). rewrite Hi, i32_small by (unfold is_i32; lia). split_and!; (lia || done).
Qed.

(** Two structs that do not overlap. *)
Definition apart (h h' : Handle) : Prop := h_end h <= byte_offset_ h' ∨ h_end h' <= byte_offset_ h.

Record layout_ok (limits : list (Z * Z)) (hs : list Handle) (from to : Z) : Prop := {
  l_length : length hs = length limits;
  l_kind : ∀ i h limit, hs !! i = Some h → limits !! i = Some limit → is_large_ h = is_large limit;
  l_inside : ∀ i h, hs !! i = Some h → from <= byte_offset_ h ∧ h_end h <= to;
  l_aligned : ∀ i h, hs !! i = Some h → is_large_ h = true → byte_offset_ h mod B = 0;
  l_apart : ∀ i j h h', hs !! i = Some h → hs !! j = Some h' → i ≠ j → apart h h' }.

Lemma h_size_pos h : byte_offset_ h < h_end h.
Proof. unfold h_end, size_of. pose proof sizeof_large_pos. destruct (is_large_ h); lia. Qed.

Lemma create_handles_ok limits next hs next' :
  0 <= next → next + 2 * B * Z.of_nat (length limits) <= 2 ^ 30 → create_handles limits next = (hs, next') →
  layout_ok limits hs next next' ∧ next <= next' <= next + 2 * B * Z.of_nat (length limits).
Proof.
  pose proof B_pos as HB. revert next hs next'. induction limits as [|[mp md] limits IH]; intros next hs next' H0 Hb; cbn [create_handles].
  - intros [= <- <-]. split; [by split|cbn; lia].
  - cbn [length] in *. destruct (CreateHandle mp md next) as [h n1] eqn:E1. destruct (create_handles limits n1) as [hs1 n2] eqn:E2. intros [= <- <-].
    destruct (CreateHandle_spec _ _ _ _ _ H0 ltac:(lia) E1) as (Hl&Ho&He&Hn&Ha). pose proof (h_size_pos h).
    destruct (IH n1 hs1 n2 ltac:(lia) ltac:(lia) E2) as [[L1 L2 L3 L4 L5] Hn2]. split; [|lia]. split.
    + cbn. by rewrite L1.
    + intros [|i]; cbn; [by intros ? ? [= <-] [= <-] | apply L2].
    + intros [|i]; cbn; [intros ? [= <-]; lia | intros h' Hh'; specialize (L3 _ _ Hh'); lia].
    + intros [|i]; cbn; [by intros ? [= <-] | apply L4].
    + intros [|i] [|j] h1 h2; cbn; try done.
      * intros [= <-] Hh2 _. left. specialize (L3 _ _ Hh2). lia.
      * intros Hh1 [= <-] _. right. specialize (L3 _ _ Hh1). lia.
      * intros H1 H2 Hne. eapply L5; eauto.
Qed.

(** ** Loads and saves *)

Lemma size_of_pos large : (0 < size_of large)%nat.
Proof. unfold size_of. pose proof sizeof_large_pos. destruct large; lia. Qed.

Lemma in_range_spec h c : in_range h c = true ↔ 0 <= byte_offset_ h ∧ h_end h <= Z.of_nat (length c).
Proof. unfold in_range, h_end. rewrite andb_true_iff, Z.leb_le, Nat.leb_le. pose proof (size_of_pos (is_large_ h)). lia. Qed.

Lemma bytes_at_length h c : in_range h c = true → length (bytes_at h c) = size_of (is_large_ h).
Proof. rewrite in_range_spec. unfold h_end, bytes_at. intros Hr. rewrite length_take, length_drop. lia. Qed.

Lemma encode_length large r l : length l = size_of large → length (encode large r l) = size_of large.
Proof. unfold encode, size_of. destruct large; [apply put_large_length | done]. Qed.

Lemma struct_decode_encode large r l : fits large r → length l = size_of large → decode large (encode large r l) = r.
Proof. unfold decode, encode, size_of. destruct large; intros; [by apply get_put_large | by apply get_put_packed]. Qed.

Lemma save_spec h r c :
  in_range h c = true → fits (is_large_ h) r →
  ∃ c', save h r c = Some c' ∧ length c' = length c ∧ load h c' = Some r ∧ ∀ h', apart h h' → load h' c' = load h' c.
Proof.
  intros Hr Hf. unfold save. rewrite Hr. pose proof (bytes_at_length h c Hr) as Hl. pose proof (encode_length _ r _ Hl) as He.
  apply in_range_spec in Hr as [H0 Hend]. unfold h_end in Hend. eexists. split; [done|].
  set (o := Z.to_nat (byte_offset_ h)) in *. set (n := size_of (is_large_ h)) in *. set (new := encode _ _ _) in *.
  assert (Hlen : length (take o c ++ new ++ drop (o + n) c) = length c) by (rewrite !length_app, length_take, length_drop, He; lia).
  assert (Hrange : ∀ h', in_range h' (take o c ++ new ++ drop (o + n) c) = in_range h' c) by (intros h'; unfold in_range; by rewrite Hlen).
  split_and!; [done| |].
  - unfold load. rewrite Hrange, (proj2 (in_range_spec h c)) by (unfold h_end; fold n; lia). f_equal. unfold bytes_at. fold o n.
    rewrite drop_app_length' by (rewrite length_take; lia). rewrite take_app_length' by done. by apply struct_decode_encode.
  - intros h' Hap. unfold load. rewrite Hrange. destruct (in_range h' c) eqn:Hr'; [|done]. f_equal. f_equal. unfold bytes_at.
    apply in_range_spec in Hr' as [H0' Hend']. unfold apart, h_end in *. set (o' := Z.to_nat (byte_offset_ h')) in *. set (n' := size_of (is_large_ h')) in *.
    destruct Hap as [Hap|Hap].
    + rewrite drop_app_ge by (rewrite length_take; lia). rewrite length_take, drop_app_ge by (rewrite He; lia). rewrite He, drop_drop. do 2 f_equal. lia.
    + rewrite drop_app_le by (rewrite length_take; lia). rewrite take_app_le by (rewrite length_drop, length_take; lia).
      rewrite skipn_firstn_comm, take_take. f_equal. lia.
Qed.
End counts.

(** ** Specification *)

(** What is known of a node; [n_pending] is 0 unless it waits. *)
Record NodeCounts := mkNC { n_state : NodeState; n_pending : Z; n_dead : Z }.

(** A node that has not started and waits for [p] inputs. *)
Definition waiting (p d : Z) : NodeCounts := mkNC (if p =? 0 then PENDING_READY else PENDING_NOTREADY) p d.

Definition spec_mark_live (s : NodeCounts) : NodeCounts :=
  if decide (n_state s = PENDING_NOTREADY) then waiting (n_pending s - n_pending s mod 2) (n_dead s) else s.
Definition spec_increment_dead (s : NodeCounts) : NodeCounts :=
  if decide (n_state s = PENDING_NOTREADY) then mkNC PENDING_NOTREADY (n_pending s) (n_dead s + 1) else s.

(** What the executor relies on: counts that stand for a map from nodes to what is known of
    them.  The conditions are the [DCHECK]s, and that a dead count stays within the limit
    it was created with. *)
Class NodeCounter (C : Type) := {
  counts_rep : C → gmap nat NodeCounts → Prop;
  max_dead : nat → Z;
  nc_pending : nat → C → option Z;
  nc_dead_count : nat → C → option Z;
  nc_decrement_pending : nat → Z → C → option (Z * C);
  nc_mark_live : nat → C → option C;
  nc_increment_dead_count : nat → C → option C;
  nc_adjust_for_activation : nat → bool → C → option (Z * Z * C);
  nc_pending_law c m i s : counts_rep c m → m !! i = Some s → nc_pending i c = Some (n_pending s);
  nc_dead_law c m i s : counts_rep c m → m !! i = Some s → nc_dead_count i c = Some (n_dead s);
  nc_decrement_law c m i s v :
    counts_rep c m → m !! i = Some s → n_state s = PENDING_NOTREADY → 0 < v <= n_pending s →
    ∃ c', nc_decrement_pending i v c = Some (n_pending s - v, c') ∧ counts_rep c' (<[i := waiting (n_pending s - v) (n_dead s)]> m);
  nc_mark_live_law c m i s :
    counts_rep c m → m !! i = Some s → ∃ c', nc_mark_live i c = Some c' ∧ counts_rep c' (<[i := spec_mark_live s]> m);
  nc_increment_law c m i s :
    counts_rep c m → m !! i = Some s → (n_state s = PENDING_NOTREADY → n_dead s < max_dead i) →
    ∃ c', nc_increment_dead_count i c = Some c' ∧ counts_rep c' (<[i := spec_increment_dead s]> m);
  nc_adjust_law c m i s b :
    counts_rep c m → m !! i = Some s → n_state s = PENDING_NOTREADY → (b = true → n_dead s < max_dead i) →
    ∃ c', nc_adjust_for_activation i b c = Some (n_pending s - 1, n_dead s + Z.b2z b, c') ∧
      counts_rep c' (<[i := waiting (n_pending s - 1) (n_dead s + Z.b2z b)]> m) }.

(** ** The packed counts implement it *)

Section refinement.
Context `{SL : StructLayout} (limits : list (Z * Z)).

Definition handles : list Handle := (create_handles limits 0).1.
Definition num_bytes : Z := (create_handles limits 0).2.

(** The limits are [int]s, and the array has at most 2^30 bytes. *)
Definition limits_ok : Prop :=
  Forall (λ l, 0 <= l.1 < 2 ^ 31 ∧ 0 <= l.2 < 2 ^ 31) limits ∧
  2 * Z.of_nat sizeof_large * Z.of_nat (length limits) <= 2 ^ 30.

(** The struct that stands for a node. *)
Definition struct_of (s : NodeCounts) : Counts :=
  match n_state s with
  | PENDING_NOTREADY | PENDING_READY => mkCounts (n_pending s) (n_dead s) false
  | STARTED => mkCounts 0 (n_dead s) true
  | COMPLETED => mkCounts 1 (n_dead s) true
  end.

Definition node_ok (limit : Z * Z) (s : NodeCounts) : Prop :=
  0 <= n_dead s <= limit.2 ∧
  match n_state s with PENDING_NOTREADY => 0 < n_pending s <= limit.1 | _ => n_pending s = 0 end.

Definition rep (c : PendingCounts) (m : gmap nat NodeCounts) : Prop :=
  Z.of_nat (length c) = num_bytes ∧
  ∀ i s, m !! i = Some s → ∃ h limit, handles !! i = Some h ∧ limits !! i = Some limit ∧
    node_ok limit s ∧ load h c = Some (struct_of s).

Context (Hlimits : limits_ok).

Lemma layout : layout_ok limits handles 0 num_bytes.
Proof.
  destruct Hlimits as [_ Hb]. unfold handles, num_bytes. destruct (create_handles limits 0) as [hs n] eqn:E.
  destruct (create_handles_ok limits 0 hs n) as [Hl _]; [lia | lia | done | exact Hl].
Qed.

Lemma handle_limit i limit : limits !! i = Some limit → ∃ h, handles !! i = Some h.
Proof. intros Hi. apply lookup_lt_is_Some. rewrite (l_length _ _ _ _ layout). by eapply lookup_lt_Some. Qed.

(** The counts of a node fit into the struct that was chosen for its limits. *)
Lemma counts_fit i h limit p d started :
  handles !! i = Some h → limits !! i = Some limit → 0 <= p <= Z.max 1 limit.1 → 0 <= d <= limit.2 →
  fits (is_large_ h) (mkCounts p d started).
Proof.
  intros Hh Hl Hp Hd. rewrite (l_kind _ _ _ _ layout _ _ _ Hh Hl). destruct Hlimits as [Hf _]. rewrite Forall_forall in Hf.
  pose proof (Hf limit ltac:(by eapply list_elem_of_lookup_2)) as Hlim. unfold fits, is_large, kMaxCountForPackedCounts. cbn [c_pending c_dead_count].
  destruct (Z.ltb_spec 7 limit.1), (Z.ltb_spec 7 limit.2); cbn [orb pending_bits dead_bits]; lia.
Qed.

Lemma store_fits large p d started : fits large (mkCounts p d started) → store large p d started = mkCounts p d started.
Proof. intros [Hp Hd]. unfold store. cbn in *. by rewrite !Z.mod_small by done. Qed.

(** A save changes what is known of one node. *)
Lemma rep_save c m i h limit s :
  rep c m → handles !! i = Some h → limits !! i = Some limit → node_ok limit s →
  ∃ c', save h (struct_of s) c = Some c' ∧ rep c' (<[i := s]> m).
Proof.
  intros [Hlen Hrep] Hh Hl Hok.
  assert (Hr : in_range h c = true).
  { apply in_range_spec. destruct (l_inside _ _ _ _ layout _ _ Hh). unfold PendingCounts in *. lia. }
  assert (Hf : fits (is_large_ h) (struct_of s)).
  { destruct Hok as [Hd Hp]. unfold struct_of. destruct s as [st p d]. cbn in *.
    destruct st; cbn in *; eapply counts_fit; eauto; lia. }
  destruct (save_spec h (struct_of s) c Hr Hf) as (c'&E&Hlen'&Hload&Hother). exists c'. split; [done|]. split; [by rewrite Hlen'|].
  intros j s'. destruct (decide (j = i)) as [->|Hne]; [rewrite lookup_insert_eq; intros [= <-]; eauto 10|].
  rewrite lookup_insert_ne by done. intros (h'&limit'&Hh'&Hl'&Hok'&Hload')%Hrep. exists h', limit'. split_and!; try done.
  rewrite Hother; [done|]. by apply (l_apart _ _ _ _ layout i j).
Qed.

(** The state of a struct, and its pending count, are those of the node. *)
Lemma struct_state limit s : node_ok limit s → NodeStateForStruct (struct_of s) = n_state s.
Proof.
  intros [_ Hp]. destruct s as [[] p d]; cbn in *; unfold NodeStateForStruct, struct_of; cbn; try done.
  - by rewrite (proj2 (Z.eqb_neq p 0)) by lia.
  - by rewrite Hp.
Qed.
(** A node that is known, and its struct. *)
Lemma rep_node c m i s : rep c m → m !! i = Some s → ∃ h limit, handles !! i = Some h ∧ limits !! i = Some limit ∧
  node_ok limit s ∧ load h c = Some (struct_of s) ∧ 0 <= limit.1 < 2 ^ 31 ∧ 0 <= limit.2 < 2 ^ 31.
Proof.
  intros [_ Hrep] (h&limit&Hh&Hl&Hok&Hload)%Hrep. exists h, limit. split_and!; try done;
    destruct Hlimits as [Hf _]; rewrite Forall_forall in Hf; by apply (Hf limit), (list_elem_of_lookup_2 _ i).
Qed.

Lemma waiting_ok limit p d : 0 <= p <= limit.1 → 0 <= d <= limit.2 → node_ok limit (waiting p d).
Proof. intros Hp Hd. split; [done|]. unfold waiting. cbn. destruct (Z.eqb_spec p 0); lia. Qed.

Lemma waiting_struct p d : struct_of (waiting p d) = mkCounts p d false.
Proof. unfold struct_of, waiting. cbn. by destruct (p =? 0). Qed.

(** Storing the counts of a node that has not started. *)
Lemma save_waiting c m i h limit p d :
  rep c m → handles !! i = Some h → limits !! i = Some limit → 0 <= p <= limit.1 → 0 <= d <= limit.2 →
  store (is_large_ h) p d false = mkCounts p d false ∧
  ∃ c', save h (mkCounts p d false) c = Some c' ∧ rep c' (<[i := waiting p d]> m).
Proof.
  intros Hrep Hh Hl Hp Hd. split; [apply store_fits; eapply counts_fit; eauto; lia|].
  rewrite <- waiting_struct. eapply rep_save; eauto. by apply waiting_ok.
Qed.

Lemma pending_ok c m i h s : rep c m → m !! i = Some s → handles !! i = Some h → pending h c = Some (n_pending s).
Proof.
  intros Hrep Hs Hh. destruct (rep_node _ _ _ _ Hrep Hs) as (h'&limit&Hh'&Hl&Hok&Hload&Hl1&Hl2). rewrite Hh in Hh'. injection Hh' as <-.
  unfold pending. rewrite Hload. cbn [mbind option_bind]. rewrite (struct_state limit s Hok). f_equal. destruct Hok as [Hd Hp].
  destruct s as [[] p d]; cbn in *; case_decide; try done. apply i32_small. unfold is_i32. lia.
Qed.

Lemma dead_count_ok c m i h s : rep c m → m !! i = Some s → handles !! i = Some h → dead_count h c = Some (n_dead s).
Proof.
  intros Hrep Hs Hh. destruct (rep_node _ _ _ _ Hrep Hs) as (h'&limit&Hh'&Hl&Hok&Hload&_). rewrite Hh in Hh'. injection Hh' as <-.
  unfold dead_count. rewrite Hload. by destruct s as [[] p d].
Qed.

Lemma node_state_ok c m i h s : rep c m → m !! i = Some s → handles !! i = Some h → node_state h c = Some (n_state s).
Proof.
  intros Hrep Hs Hh. destruct (rep_node _ _ _ _ Hrep Hs) as (h'&limit&Hh'&Hl&Hok&Hload&_). rewrite Hh in Hh'. injection Hh' as <-.
  unfold node_state. rewrite Hload. cbn [mbind option_bind]. by rewrite (struct_state limit s Hok).
Qed.

Lemma set_initial_ok c m i h limit p :
  rep c m → handles !! i = Some h → limits !! i = Some limit → 0 <= p <= limit.1 → 0 <= limit.2 →
  ∃ c', set_initial_count h p c = Some c' ∧ rep c' (<[i := waiting p 0]> m).
Proof.
  intros Hrep Hh Hl Hp Hl2. destruct (save_waiting c m i h limit p 0 Hrep Hh Hl Hp ltac:(lia)) as (Hst&c'&E&Hc').
  exists c'. split; [|done]. unfold set_initial_count, load. destruct (l_inside _ _ _ _ layout _ _ Hh). destruct Hrep as [Hlen _].
  rewrite (proj2 (in_range_spec h c)) by (unfold PendingCounts in *; lia). cbn [mbind option_bind]. by rewrite Hst.
Qed.

Lemma mark_started_ok c m i h s :
  rep c m → m !! i = Some s → handles !! i = Some h → n_state s = PENDING_READY →
  ∃ c', mark_started h c = Some c' ∧ rep c' (<[i := mkNC STARTED 0 (n_dead s)]> m).
Proof.
  intros Hrep Hs Hh Hst. destruct (rep_node _ _ _ _ Hrep Hs) as (h'&limit&Hh'&Hl&Hok&Hload&_). rewrite Hh in Hh'. injection Hh' as <-.
  unfold mark_started. rewrite Hload. cbn [mbind option_bind]. destruct s as [st p d]. cbn in *. subst st. destruct Hok as [Hd Hp]. cbn in *. subst p.
  apply (rep_save c m i h limit (mkNC STARTED 0 d) Hrep Hh Hl). by split.
Qed.

Lemma mark_completed_ok c m i h s :
  rep c m → m !! i = Some s → handles !! i = Some h → n_state s = STARTED →
  ∃ c', mark_completed h c = Some c' ∧ rep c' (<[i := mkNC COMPLETED 0 (n_dead s)]> m).
Proof.
  intros Hrep Hs Hh Hst. destruct (rep_node _ _ _ _ Hrep Hs) as (h'&limit&Hh'&Hl&Hok&Hload&_). rewrite Hh in Hh'. injection Hh' as <-.
  unfold mark_completed. rewrite Hload. cbn [mbind option_bind]. destruct s as [st p d]. cbn in *. subst st. destruct Hok as [Hd Hp]. cbn in *. subst p.
  apply (rep_save c m i h limit (mkNC COMPLETED 0 d) Hrep Hh Hl). by split.
Qed.

Lemma decrement_ok c m i h s v :
  rep c m → m !! i = Some s → handles !! i = Some h → n_state s = PENDING_NOTREADY → 0 < v <= n_pending s →
  ∃ c', decrement_pending h v c = Some (n_pending s - v, c') ∧ rep c' (<[i := waiting (n_pending s - v) (n_dead s)]> m).
Proof.
  intros Hrep Hs Hh Hst Hv. destruct (rep_node _ _ _ _ Hrep Hs) as (h'&limit&Hh'&Hl&Hok&Hload&Hl1&Hl2). rewrite Hh in Hh'. injection Hh' as <-.
  unfold decrement_pending. rewrite Hload. cbn [mbind option_bind]. destruct s as [st p d]. cbn [struct_of n_state n_pending n_dead c_pending c_dead_count c_has_started] in *. subst st. destruct Hok as [Hd Hp]. cbn [struct_of n_state n_pending n_dead c_pending c_dead_count c_has_started] in *.
  destruct (save_waiting c m i h limit (p - v) d Hrep Hh Hl ltac:(lia) ltac:(lia)) as (->&c'&->&Hc'). cbn [mbind option_bind c_pending]. exists c'. split; [|done].
  rewrite i32_small by (unfold is_i32; lia). done.
Qed.

Lemma adjust_ok c m i h s b :
  rep c m → m !! i = Some s → handles !! i = Some h → n_state s = PENDING_NOTREADY → (b = true → n_dead s < (default (0, 0) (limits !! i)).2) →
  ∃ c', adjust_for_activation h b c = Some (n_pending s - 1, n_dead s + Z.b2z b, c') ∧
    rep c' (<[i := waiting (n_pending s - 1) (n_dead s + Z.b2z b)]> m).
Proof.
  intros Hrep Hs Hh Hst Hb. destruct (rep_node _ _ _ _ Hrep Hs) as (h'&limit&Hh'&Hl&Hok&Hload&Hl1&Hl2). rewrite Hh in Hh'. injection Hh' as <-.
  unfold adjust_for_activation. rewrite Hload. cbn [mbind option_bind]. rewrite (struct_state limit s Hok), Hst, bool_decide_eq_true_2, andb_true_r by done.
  destruct s as [st p d]. cbn [struct_of n_state n_pending n_dead c_pending c_dead_count c_has_started] in *. subst st. destruct Hok as [Hd Hp]. cbn [struct_of n_state n_pending n_dead c_pending c_dead_count c_has_started] in *. rewrite Hl in Hb. cbn in Hb.
  assert (E : (if b then d + 1 else d) = d + Z.b2z b) by (destruct b; cbn; lia). rewrite E.
  destruct (save_waiting c m i h limit (p - 1) (d + Z.b2z b) Hrep Hh Hl ltac:(lia) ltac:(destruct b; cbn; lia)) as (->&c'&->&Hc').
  cbn [mbind option_bind c_pending c_dead_count]. exists c'. split; [|done]. rewrite i32_small by (unfold is_i32; lia). done.
Qed.

Lemma increment_dead_ok c m i h s :
  rep c m → m !! i = Some s → handles !! i = Some h → (n_state s = PENDING_NOTREADY → n_dead s < (default (0, 0) (limits !! i)).2) →
  ∃ c', increment_dead_count h c = Some c' ∧ rep c' (<[i := spec_increment_dead s]> m).
Proof.
  intros Hrep Hs Hh Hb. destruct (rep_node _ _ _ _ Hrep Hs) as (h'&limit&Hh'&Hl&Hok&Hload&Hl1&Hl2). rewrite Hh in Hh'. injection Hh' as <-.
  unfold increment_dead_count. rewrite Hload. cbn [mbind option_bind]. rewrite (struct_state limit s Hok). unfold spec_increment_dead.
  case_decide as Hst; [|rewrite insert_id by done; eauto].
  destruct s as [st p d]. cbn [struct_of n_state n_pending n_dead c_pending c_dead_count c_has_started] in *. subst st. destruct Hok as [Hd Hp]. cbn [struct_of n_state n_pending n_dead c_pending c_dead_count c_has_started] in *. rewrite Hl in Hb. cbn in Hb. specialize (Hb eq_refl).
  destruct (save_waiting c m i h limit p (d + 1) Hrep Hh Hl ltac:(lia) ltac:(lia)) as (->&c'&->&Hc'). exists c'. split; [done|].
  unfold waiting in Hc'. by rewrite (proj2 (Z.eqb_neq p 0)) in Hc' by lia.
Qed.

(** Clearing the lowest bit, as the two structs do it. *)
Lemma clear_bit large p : 0 <= p < 2 ^ pending_bits large → Z.land p (if large then Z.lnot 1 else 6) = p - p mod 2.
Proof.
  intros Hp. destruct large; cbn [pending_bits] in Hp.
  - rewrite <- Z.ldiff_land. change 1 with (Z.ones 1). rewrite Z.ldiff_ones_r by lia.
    rewrite Z.shiftr_div_pow2, Z.shiftl_mul_pow2 by lia. pose proof (Z.div_mod p 2). change (2 ^ 1) with 2. lia.
  - assert (p = 0 ∨ p = 1 ∨ p = 2 ∨ p = 3 ∨ p = 4 ∨ p = 5 ∨ p = 6 ∨ p = 7) as Hc by lia.
    by destruct Hc as [-> | [-> | [-> | [-> | [-> | [-> | [-> | ->]]]]]]].
Qed.

Lemma mark_live_ok c m i h s :
  rep c m → m !! i = Some s → handles !! i = Some h →
  ∃ c', mark_live h c = Some c' ∧ rep c' (<[i := spec_mark_live s]> m).
Proof.
  intros Hrep Hs Hh. destruct (rep_node _ _ _ _ Hrep Hs) as (h'&limit&Hh'&Hl&Hok&Hload&Hl1&Hl2). rewrite Hh in Hh'. injection Hh' as <-.
  unfold mark_live. rewrite Hload. cbn [mbind option_bind]. rewrite (struct_state limit s Hok). unfold spec_mark_live.
  case_decide as Hst; [|rewrite insert_id by done; eauto].
  destruct s as [st p d]. cbn [struct_of n_state n_pending n_dead c_pending c_dead_count c_has_started] in *. subst st. destruct Hok as [Hd Hp]. cbn [struct_of n_state n_pending n_dead c_pending c_dead_count c_has_started] in *.
  assert (Hf : fits (is_large_ h) (mkCounts p d false)) by (eapply counts_fit; eauto; lia). rewrite clear_bit by apply Hf.
  assert (0 <= p - p mod 2 <= limit.1) as Hpm by (pose proof (Z.mod_pos_bound p 2 ltac:(lia)); pose proof (Z.mod_le p 2 ltac:(lia) ltac:(lia)); lia).
  by destruct (save_waiting c m i h limit (p - p mod 2) d Hrep Hh Hl Hpm Hd) as (->&c'&->&Hc'); exists c'.
Qed.
End refinement.

(** The packed counts are counts for the executor. *)
#[program] Definition packed_counter `{SL : StructLayout} (limits : list (Z * Z)) (Hlimits : limits_ok limits) : NodeCounter PendingCounts := {|
  counts_rep := rep limits;
  max_dead i := (default (0, 0) (limits !! i)).2;
  nc_pending i c := h ← handles limits !! i; pending h c;
  nc_dead_count i c := h ← handles limits !! i; dead_count h c;
  nc_decrement_pending i v c := h ← handles limits !! i; decrement_pending h v c;
  nc_mark_live i c := h ← handles limits !! i; mark_live h c;
  nc_increment_dead_count i c := h ← handles limits !! i; increment_dead_count h c;
  nc_adjust_for_activation i b c := h ← handles limits !! i; adjust_for_activation h b c |}.
Next Obligation. intros SL limits Hl c m i s Hr Hs. destruct (rep_node limits Hl c m i s Hr Hs) as (h&_&Hh&_). rewrite Hh. by eapply pending_ok. Qed.
Next Obligation. intros SL limits Hl c m i s Hr Hs. destruct (rep_node limits Hl c m i s Hr Hs) as (h&_&Hh&_). rewrite Hh. by eapply dead_count_ok. Qed.
Next Obligation. intros SL limits Hl c m i s v Hr Hs. destruct (rep_node limits Hl c m i s Hr Hs) as (h&_&Hh&_). rewrite Hh. by eapply decrement_ok. Qed.
Next Obligation. intros SL limits Hl c m i s Hr Hs. destruct (rep_node limits Hl c m i s Hr Hs) as (h&_&Hh&_). rewrite Hh. by eapply mark_live_ok. Qed.
Next Obligation. intros SL limits Hl c m i s Hr Hs. destruct (rep_node limits Hl c m i s Hr Hs) as (h&_&Hh&_). rewrite Hh. by eapply increment_dead_ok. Qed.
Next Obligation. intros SL limits Hl c m i s b Hr Hs. destruct (rep_node limits Hl c m i s Hr Hs) as (h&_&Hh&_). rewrite Hh. by eapply adjust_ok. Qed.

(** ** Runs of a client *)

Inductive CountOp :=
  | OSetInitial (i : nat) (pending_count : Z)
  | OMarkStarted (i : nat)
  | OMarkCompleted (i : nat)
  | ODecrement (i : nat) (v : Z)
  | OMarkLive (i : nat)
  | OIncrementDead (i : nat)
  | OAdjust (i : nat) (increment_dead : bool)
  | OPending (i : nat)
  | ODeadCount (i : nat)
  | ONodeState (i : nat)
  | OCopy.

Inductive CountResult := RNone | RInt (z : Z) | RInts (z z' : Z) | RState (s : NodeState).

Section runs.
Context `{SL : StructLayout} (limits : list (Z * Z)).

(** The specification; [None] where a [DCHECK] would fail or a limit is passed. *)
Definition spec_op (o : CountOp) (m : gmap nat NodeCounts) : option (CountResult * gmap nat NodeCounts) :=
  match o with
  | OSetInitial i p => l ← limits !! i; if (0 <=? p) && (p <=? l.1) then Some (RNone, <[i := waiting p 0]> m) else None
  | OMarkStarted i => s ← m !! i; if decide (n_state s = PENDING_READY) then Some (RNone, <[i := mkNC STARTED 0 (n_dead s)]> m) else None
  | OMarkCompleted i => s ← m !! i; if decide (n_state s = STARTED) then Some (RNone, <[i := mkNC COMPLETED 0 (n_dead s)]> m) else None
  | ODecrement i v =>
      s ← m !! i;
      if (0 <? v) && (v <=? n_pending s) && bool_decide (n_state s = PENDING_NOTREADY)
      then Some (RInt (n_pending s - v), <[i := waiting (n_pending s - v) (n_dead s)]> m) else None
  | OMarkLive i => s ← m !! i; Some (RNone, <[i := spec_mark_live s]> m)
  | OIncrementDead i =>
      s ← m !! i; l ← limits !! i;
      if decide (n_state s = PENDING_NOTREADY → n_dead s < l.2) then Some (RNone, <[i := spec_increment_dead s]> m) else None
  | OAdjust i b =>
      s ← m !! i; l ← limits !! i;
      if decide (n_state s = PENDING_NOTREADY ∧ (b = true → n_dead s < l.2))
      then Some (RInts (n_pending s - 1) (n_dead s + Z.b2z b), <[i := waiting (n_pending s - 1) (n_dead s + Z.b2z b)]> m) else None
  | OPending i => s ← m !! i; Some (RInt (n_pending s), m)
  | ODeadCount i => s ← m !! i; Some (RInt (n_dead s), m)
  | ONodeState i => s ← m !! i; Some (RState (n_state s), m)
  | OCopy => Some (RNone, m)
  end.

Definition run_op (o : CountOp) (c : PendingCounts) : option (CountResult * PendingCounts) :=
  let at_handle {A} (i : nat) (f : Handle → option A) : option A := h ← handles limits !! i; f h in
  match o with
  | OSetInitial i p => c ← at_handle i (λ h, set_initial_count h p c); Some (RNone, c)
  | OMarkStarted i => c ← at_handle i (λ h, mark_started h c); Some (RNone, c)
  | OMarkCompleted i => c ← at_handle i (λ h, mark_completed h c); Some (RNone, c)
  | ODecrement i v => '(r, c) ← at_handle i (λ h, decrement_pending h v c); Some (RInt r, c)
  | OMarkLive i => c ← at_handle i (λ h, mark_live h c); Some (RNone, c)
  | OIncrementDead i => c ← at_handle i (λ h, increment_dead_count h c); Some (RNone, c)
  | OAdjust i b => '(p, d, c) ← at_handle i (λ h, adjust_for_activation h b c); Some (RInts p d, c)
  | OPending i => r ← at_handle i (λ h, pending h c); Some (RInt r, c)
  | ODeadCount i => r ← at_handle i (λ h, dead_count h c); Some (RInt r, c)
  | ONodeState i => r ← at_handle i (λ h, node_state h c); Some (RState r, c)
  | OCopy => Some (RNone, copy_PendingCounts c)
  end.

Fixpoint spec_ops (os : list CountOp) (m : gmap nat NodeCounts) : option (list CountResult * gmap nat NodeCounts) :=
  match os with
  | [] => Some ([], m)
  | o :: os => '(r, m) ← spec_op o m; '(rs, m) ← spec_ops os m; Some (r :: rs, m)
  end.

Fixpoint run_ops (os : list CountOp) (c : PendingCounts) : option (list CountResult * PendingCounts) :=
  match os with
  | [] => Some ([], c)
  | o :: os => '(r, c) ← run_op o c; '(rs, c) ← run_ops os c; Some (r :: rs, c)
  end.

Context (Hlimits : limits_ok limits).

(** Applies the lemma of an operation to the node [i]. *)
Ltac at_node Hr Hs lem :=
  let h := fresh "h" in let c' := fresh "c'" in let E := fresh "E" in let Hh := fresh "Hh" in
  destruct (rep_node limits Hlimits _ _ _ _ Hr Hs) as (h&?&Hh&?&_); rewrite Hh; cbn [mbind option_bind];
  destruct (lem h Hh) as (c'&->&?); cbn [mbind option_bind]; eauto.

Lemma op_refines o c m r m' :
  rep limits c m → spec_op o m = Some (r, m') → ∃ c', run_op o c = Some (r, c') ∧ rep limits c' m'.
Proof.
  intros Hr. destruct o as [i p|i|i|i v|i|i|i b|i|i|i|]; cbn [spec_op run_op].
  - destruct (limits !! i) as [l|] eqn:Hl; [|done]. cbn [mbind option_bind]. destruct (_ && _) eqn:Hp; [|done]. intros [= <- <-]. bool_hyps.
    destruct (handle_limit limits Hlimits i l Hl) as [h Hh]. rewrite Hh. cbn [mbind option_bind].
    destruct (set_initial_ok limits Hlimits c m i h l p Hr Hh Hl) as (c'&->&Hc'); [lia| |cbn; eauto].
    destruct Hlimits as [Hf _]. rewrite Forall_forall in Hf. destruct (Hf l); [by eapply list_elem_of_lookup_2|lia].
  - destruct (m !! i) as [s|] eqn:Hs; [|done]. cbn [mbind option_bind]. case_decide; [|done]. intros [= <- <-].
    at_node Hr Hs (λ h Hh, mark_started_ok limits Hlimits c m i h s Hr Hs Hh ltac:(done)).
  - destruct (m !! i) as [s|] eqn:Hs; [|done]. cbn [mbind option_bind]. case_decide; [|done]. intros [= <- <-].
    at_node Hr Hs (λ h Hh, mark_completed_ok limits Hlimits c m i h s Hr Hs Hh ltac:(done)).
  - destruct (m !! i) as [s|] eqn:Hs; [|done]. cbn [mbind option_bind]. destruct (_ && _) eqn:Hv; [|done]. intros [= <- <-]. bool_hyps.
    at_node Hr Hs (λ h Hh, decrement_ok limits Hlimits c m i h s v Hr Hs Hh ltac:(done) ltac:(lia)).
  - destruct (m !! i) as [s|] eqn:Hs; [|done]. cbn [mbind option_bind]. intros [= <- <-].
    at_node Hr Hs (λ h Hh, mark_live_ok limits Hlimits c m i h s Hr Hs Hh).
  - destruct (m !! i) as [s|] eqn:Hs; [|done]. cbn [mbind option_bind]. destruct (limits !! i) as [l|] eqn:Hl; [|done]. cbn [mbind option_bind].
    case_decide; [|done]. intros [= <- <-].
    at_node Hr Hs (λ h Hh, increment_dead_ok limits Hlimits c m i h s Hr Hs Hh ltac:(by rewrite Hl)).
  - destruct (m !! i) as [s|] eqn:Hs; [|done]. cbn [mbind option_bind]. destruct (limits !! i) as [l|] eqn:Hl; [|done]. cbn [mbind option_bind].
    case_decide as Hd; [|done]. intros [= <- <-].
    at_node Hr Hs (λ h Hh, adjust_ok limits Hlimits c m i h s b Hr Hs Hh ltac:(apply Hd) ltac:(rewrite Hl; apply Hd)).
  - destruct (m !! i) as [s|] eqn:Hs; [|done]. cbn [mbind option_bind]. intros [= <- <-].
    destruct (rep_node limits Hlimits _ _ _ _ Hr Hs) as (h&?&Hh&_). rewrite Hh. cbn [mbind option_bind]. rewrite (pending_ok limits Hlimits c m i h s) by done. cbn. eauto.
  - destruct (m !! i) as [s|] eqn:Hs; [|done]. cbn [mbind option_bind]. intros [= <- <-].
    destruct (rep_node limits Hlimits _ _ _ _ Hr Hs) as (h&?&Hh&_). rewrite Hh. cbn [mbind option_bind]. rewrite (dead_count_ok limits Hlimits c m i h s) by done. cbn. eauto.
  - destruct (m !! i) as [s|] eqn:Hs; [|done]. cbn [mbind option_bind]. intros [= <- <-].
    destruct (rep_node limits Hlimits _ _ _ _ Hr Hs) as (h&?&Hh&_). rewrite Hh. cbn [mbind option_bind]. rewrite (node_state_ok limits Hlimits c m i h s) by done. cbn. eauto.
  - intros [= <- <-]. eauto.
Qed.

Lemma new_rep garbage : rep limits (new_PendingCounts (num_bytes limits) garbage) ∅.
Proof.
  split; [|by intros i s; rewrite lookup_empty]. unfold new_PendingCounts, num_bytes. rewrite length_fmap, length_seq.
  destruct Hlimits as [_ Hb]. destruct (create_handles limits 0) as [hs n] eqn:E. destruct (create_handles_ok limits 0 hs n) as [_ Hn]; [lia|lia|done|]. cbn. lia.
Qed.

Lemma ops_refine os c m rs m' :
  rep limits c m → spec_ops os m = Some (rs, m') → ∃ c', run_ops os c = Some (rs, c') ∧ rep limits c' m'.
Proof.
  revert c m rs. induction os as [|o os IH]; intros c m rs Hr; cbn [spec_ops run_ops]; [intros [= <- <-]; eauto|].
  destruct (spec_op o m) as [[r m1]|] eqn:E; [|done]. cbn [mbind option_bind]. destruct (op_refines _ _ _ _ _ Hr E) as (c1&->&Hr1).
  destruct (spec_ops os m1) as [[rs1 m2]|] eqn:E2; [|done]. cbn [mbind option_bind]. intros [= <- <-].
  destruct (IH _ _ _ Hr1 E2) as (c2&->&Hr2). cbn. eauto.
Qed.

(** C24: whatever the memory held before, any calls that respect the [DCHECK]s and the limits
    of the layout return what the specification returns, a map from nodes to their state
    and two numbers; no call reads or writes outside of the array, and a node is never
    changed by the calls for another one, whether its counts are packed or large. *)
Theorem pending_counts_refine garbage os rs m :
  spec_ops os ∅ = Some (rs, m) →
  ∃ c, run_ops os (new_PendingCounts (num_bytes limits) garbage) = Some (rs, c) ∧
    ∀ i s, m !! i = Some s →
      run_op (ONodeState i) c = Some (RState (n_state s), c) ∧ run_op (OPending i) c = Some (RInt (n_pending s), c) ∧
      run_op (ODeadCount i) c = Some (RInt (n_dead s), c).
Proof.
  intros E. destruct (ops_refine _ _ _ _ _ (new_rep garbage) E) as (c&Hc&Hr). exists c. split; [done|]. intros i s Hs.
  destruct (rep_node limits Hlimits _ _ _ _ Hr Hs) as (h&?&Hh&_). cbn [run_op]. rewrite Hh. cbn [mbind option_bind].
  rewrite (pending_ok limits Hlimits c m i h s), (dead_count_ok limits Hlimits c m i h s), (node_state_ok limits Hlimits c m i h s) by done. done.
Qed.

(** [adjust_for_activation] is what its comment says it is equivalent to. *)
Lemma adjust_is_the_sequence i b m s :
  m !! i = Some s → n_state s = PENDING_NOTREADY → 0 < n_pending s →
  spec_op (OAdjust i b) m =
    '(_, m) ← (if b then spec_op (OIncrementDead i) m else (l ← limits !! i; Some (RNone, m)));
    '(_, m) ← spec_op (ODecrement i 1) m;
    '(p, m) ← spec_op (OPending i) m;
    '(d, m) ← spec_op (ODeadCount i) m;
    match p, d with RInt p, RInt d => Some (RInts p d, m) | _, _ => None end.
Proof.
  intros Hs Hst Hp. cbn [spec_op]. rewrite Hs. cbn [mbind option_bind]. destruct (limits !! i) as [l|]; [|by destruct b]. cbn [mbind option_bind].
  change (0 <? 1) with true. cbn [andb]. destruct b; cbn [Z.b2z].
  - destruct (decide (n_dead s < l.2)) as [Hd|Hd]; [rewrite !decide_True by auto | rewrite !decide_False by tauto; done].
    cbn [mbind option_bind]. unfold spec_increment_dead. rewrite decide_True by done. rewrite lookup_insert_eq. cbn [mbind option_bind n_pending n_state n_dead].
    rewrite (proj2 (Z.leb_le 1 _)), bool_decide_eq_true_2 by (done || lia). cbn [andb mbind option_bind].
    do 2 (rewrite lookup_insert_eq; cbn [mbind option_bind]). by rewrite !insert_insert_eq.
  - rewrite decide_True by done. cbn [mbind option_bind]. rewrite Hs. cbn [mbind option_bind].
    rewrite (proj2 (Z.leb_le 1 _)), bool_decide_eq_true_2 by (done || lia). cbn [andb mbind option_bind].
    do 2 (rewrite lookup_insert_eq; cbn [mbind option_bind]). by rewrite Z.add_0_r.
Qed.
End runs.

(** A packed and a large node, counted down and up together. *)
Definition demo_limits : list (Z * Z) := [(5, 4); (300, 300); (3, 7)].
Definition demo_ops : list CountOp :=
  [OSetInitial 0 5; OSetInitial 1 300; OSetInitial 2 3; OMarkLive 0; OAdjust 1 true; OIncrementDead 2; ODecrement 2 2; OCopy;
   ODecrement 0 4; OMarkStarted 0; OMarkCompleted 0; OPending 0; ONodeState 0; OPending 1; ODeadCount 2].

Lemma demo_limits_ok : limits_ok demo_limits.
Proof. split; [repeat constructor; cbn; lia | cbn; lia]. Qed.

Lemma pending_counts_refine_witness : ∃ c,
  run_ops demo_limits demo_ops (new_PendingCounts (num_bytes demo_limits) (λ i, Z.of_nat i)) =
    Some ([RNone; RNone; RNone; RNone; RInts 299 1; RNone; RInt 1; RNone; RInt 0; RNone; RNone; RInt 0; RState COMPLETED; RInt 299; RInt 1], c) ∧
  run_op demo_limits (ONodeState 2) c = Some (RState PENDING_NOTREADY, c).
Proof.
  destruct (pending_counts_refine demo_limits demo_limits_ok (λ i, Z.of_nat i) demo_ops
    [RNone; RNone; RNone; RNone; RInts 299 1; RNone; RInt 1; RNone; RInt 0; RNone; RNone; RInt 0; RState COMPLETED; RInt 299; RInt 1]
    (default ([], ∅) (spec_ops demo_limits demo_ops ∅)).2) as (c&Hc&Hn).
  - vm_compute. reflexivity.
  - exists c. split; [exact Hc|]. apply (Hn 2%nat (mkNC PENDING_NOTREADY 1 1)). vm_compute. reflexivity.
Defined.
