(* ===== verification/DataTypes.v ===== *)
(** * Data types

    The names of the data types, [tensorflow/core/framework/types.{h,cc,proto}].  A
    [DataType] is its number, a string a list of [ascii]. *)
From S2P Require Import Prelude Numbers Status DeviceNames.
Local Open Scope Z_scope.

Definition DT_INVALID : Z := 0.
Definition DT_FLOAT : Z := 1.
Definition DT_DOUBLE : Z := 2.
Definition DT_INT32 : Z := 3.
Definition DT_UINT8 : Z := 4.
Definition DT_INT16 : Z := 5.
Definition DT_INT8 : Z := 6.
Definition DT_STRING : Z := 7.
Definition DT_COMPLEX64 : Z := 8.
Definition DT_INT64 : Z := 9.
Definition DT_BOOL : Z := 10.
Definition DT_QINT8 : Z := 11.
Definition DT_QUINT8 : Z := 12.
Definition DT_QINT32 : Z := 13.
Definition DT_BFLOAT16 : Z := 14.
Definition DT_QINT16 : Z := 15.
Definition DT_QUINT16 : Z := 16.
Definition DT_UINT16 : Z := 17.
Definition DT_COMPLEX128 : Z := 18.
Definition DT_HALF : Z := 19.
Definition DT_RESOURCE : Z := 20.
Definition DT_VARIANT : Z := 21.
Definition DT_UINT32 : Z := 22.
Definition DT_UINT64 : Z := 23.

Definition kDataTypeRefOffset : Z := 100.
Definition IsRefType (dtype : Z) : bool := kDataTypeRefOffset <? dtype.
Definition MakeRefType (dtype : Z) : Z := dtype + kDataTypeRefOffset.
Definition RemoveRefType (dtype : Z) : Z := dtype - kDataTypeRefOffset.
Definition BaseType (dtype : Z) : Z := if IsRefType dtype then RemoveRefType dtype else dtype.
Definition TypesCompatible (expected actual : Z) : bool := (expected =? actual) || (expected =? BaseType actual).

(** The cases of the switch of [DataTypeStringInternal]. *)
Definition type_names : list (Z * list ascii) :=
  [(DT_INVALID, str "INVALID");
   (DT_FLOAT, str "float");
   (DT_DOUBLE, str "double");
   (DT_INT32, str "int32");
   (DT_UINT32, str "uint32");
   (DT_UINT8, str "uint8");
   (DT_UINT16, str "uint16");
   (DT_INT16, str "int16");
   (DT_INT8, str "int8");
   (DT_STRING, str "string");
   (DT_COMPLEX64, str "complex64");
   (DT_COMPLEX128, str "complex128");
   (DT_INT64, str "int64");
   (DT_UINT64, str "uint64");
   (DT_BOOL, str "bool");
   (DT_QINT8, str "qint8");
   (DT_QUINT8, str "quint8");
   (DT_QUINT16, str "quint16");
   (DT_QINT16, str "qint16");
   (DT_QINT32, str "qint32");
   (DT_BFLOAT16, str "bfloat16");
   (DT_HALF, str "half");
   (DT_RESOURCE, str "resource");
   (DT_VARIANT, str "variant")].

Definition DataTypeStringInternal (dtype : Z) : list ascii :=
  match list_find (λ p, p.1 = dtype) type_names with
  | Some (_, p) => p.2
  | None => str "unknown dtype enum (" ++ FastInt32ToBufferLeft dtype ++ str ")"
  end.

Definition DataTypeString (dtype : Z) : list ascii :=
  if IsRefType dtype then DataTypeStringInternal (dtype - kDataTypeRefOffset) ++ str "_ref" else DataTypeStringInternal dtype.

(** The comparisons of [DataTypeFromString], in their order. *)
Definition parsed_names : list (list ascii * Z) :=
  [(str "float", DT_FLOAT); (str "float32", DT_FLOAT);
   (str "double", DT_DOUBLE); (str "float64", DT_DOUBLE);
   (str "int32", DT_INT32);
   (str "uint32", DT_UINT32);
   (str "uint8", DT_UINT8);
   (str "uint16", DT_UINT16);
   (str "int16", DT_INT16);
   (str "int8", DT_INT8);
   (str "string", DT_STRING);
   (str "complex64", DT_COMPLEX64);
   (str "complex128", DT_COMPLEX128);
   (str "int64", DT_INT64);
   (str "uint64", DT_UINT64);
   (str "bool", DT_BOOL);
   (str "qint8", DT_QINT8);
   (str "quint8", DT_QUINT8);
   (str "qint16", DT_QINT16);
   (str "quint16", DT_QUINT16);
   (str "qint32", DT_QINT32);
   (str "bfloat16", DT_BFLOAT16);
   (str "half", DT_HALF); (str "float16", DT_HALF);
   (str "resource", DT_RESOURCE);
   (str "variant", DT_VARIANT)].

Definition ends_with_ref (sp : list ascii) : bool := bool_decide (drop (length sp - 4) sp = str "_ref").

(** A suffix is removed by each recursive call. *)
Fixpoint from_string (fuel : nat) (sp : list ascii) : option Z :=
  match fuel with
  | O => None
  | S fuel =>
      if ends_with_ref sp then
        non_ref ← from_string fuel (take (length sp - 4) sp);
        if IsRefType non_ref then None else Some (non_ref + kDataTypeRefOffset)
      else (λ p, p.2.2) <$> list_find (λ p, p.1 = sp) parsed_names
  end.

Definition DataTypeFromString (sp : list ascii) : option Z := from_string (S (length sp)) sp.

Definition DataTypeAlwaysOnHost (dt : Z) : bool :=
  (dt =? DT_STRING) || (dt =? MakeRefType DT_STRING) || (dt =? DT_RESOURCE).

(** ** Parsing and printing *)

(** The types that a string can name. *)
Definition named_types : list Z := parsed_names.*2 ++ (MakeRefType <$> parsed_names.*2).

Lemma ends_with_ref_inv sp : ends_with_ref sp = true → sp = take (length sp - 4) sp ++ str "_ref".
Proof. unfold ends_with_ref. rewrite bool_decide_eq_true. intros E. rewrite <- E. by rewrite take_drop. Qed.

Lemma from_string_named fuel sp dt : from_string fuel sp = Some dt → dt ∈ named_types.
Proof.
  revert sp dt. induction fuel as [|fuel IH]; intros sp dt; cbn [from_string]; [done|]. destruct (ends_with_ref sp).
  - destruct (from_string fuel _) as [non_ref|] eqn:E; [|done]. cbn [mbind option_bind]. destruct (IsRefType non_ref) eqn:Er; [done|].
    intros [= <-]. apply IH in E. unfold named_types in *. rewrite elem_of_app in *. right. apply list_elem_of_fmap. exists non_ref. split; [done|].
    destruct E as [|E]; [done|]. apply list_elem_of_fmap in E as (x&->&Hx). exfalso.
    assert (Hp : Forall (λ x, IsRefType (MakeRefType x) = true) (parsed_names.*2)) by (unfold parsed_names; repeat constructor).
    rewrite Forall_forall in Hp. rewrite Hp in Er; done.
  - destruct (list_find _ _) as [[i p]|] eqn:E; [|done]. intros [= <-]. apply list_find_Some in E as (Hi&_). cbn [snd]. unfold named_types. apply elem_of_app. left.
    apply list_elem_of_fmap. exists p. split; [done|]. by eapply list_elem_of_lookup_2.
Qed.

(** Every type that can be parsed is printed as a name that is parsed as it. *)
Lemma DataType_round_trip sp dt : DataTypeFromString sp = Some dt → DataTypeFromString (DataTypeString dt) = Some dt.
Proof.
  intros E%from_string_named. revert E.
  assert (Hall : forallb (λ dt, bool_decide (DataTypeFromString (DataTypeString dt) = Some dt)) named_types = true) by (vm_compute; reflexivity).
  rewrite forallb_forall in Hall. intros Hin%list_elem_of_In. apply (bool_decide_eq_true (DataTypeFromString (DataTypeString dt) = Some dt)). by apply Hall.
Qed.
