(* ===== verification/Activation.v ===== *)
(** * Activation of nodes

    [GraphView], the items of the nodes of a graph, and [FrameState::ActivateNodes] of
    [tensorflow/core/common_runtime/executor.cc]: what happens at the nodes that read the
    outputs of a node when these are propagated.

    The pending counts are any that meet [NodeCounter].  An [Entry] is a tensor or no
    value; entries that are references are left out.  Moving a tensor leaves [moved].  An
    access outside of an array is [None].  The second half compares the counts of a node
    with the list of what has arrived at it. *)
From S2P Require Import Prelude Graph PendingCounts DataTypes.
Local Open Scope Z_scope.

(** ** Items *)

Record EdgeInfo := mkEdgeInfo {
  dst_id : nat;
  output_slot : Z;
  is_last : bool;
  input_slot : Z }.

#[export] Instance EdgeInfo_eq_dec : EqDecision EdgeInfo.
Proof. solve_decision. Defined.

(** The fields of a [NodeItem] and what it caches of its node and kernel; a node's handle is
    known by its place in the layout.  [def_summary] is what [AttachDef] appends of the
    kernel's definition and [node_summary] is [SummarizeNode] of the node. *)
Record NodeItem := mkItem {
  is_merge : bool;
  is_enter : bool;
  is_enter_exit_or_next_iter : bool;
  is_control_trigger : bool;
  is_sink : bool;
  is_transfer : bool;
  is_switch_or_recv : bool;
  kernel_is_expensive : bool;
  kernel_is_async : bool;
  num_inputs : nat;
  num_outputs : nat;
  input_start : nat;
  pending_id : nat;
  input_types : list Z;
  output_types : list Z;
  output_edges : list EdgeInfo;
  def_summary : string;
  node_summary : string }.

Definition is_control (e : EdgeInfo) : bool := output_slot e =? kControlSlot.

Record TaggedNode := mkTagged { tn_node : nat; tn_dead : bool }.

Section activation.
Context {T : Type} (moved : T) {C : Type} `{NC : NodeCounter C}.
#[local] Abbreviation Entry := (option T).

Record IterationState := mkIter {
  input_tensors : list Entry;
  counts : C;
  outstanding_ops : Z;
  outstanding_frame_count : Z }.

(** ** [ActivateNodes] *)

(** The counts of the destination: [dst_dead], [dst_ready] and [dst_need_input]; [src] is
    the entry at the output, of a data edge. *)
Definition count_arrival (item dst_item : NodeItem) (is_dead : bool) (e : EdgeInfo) (src : Entry) (c : C) : option (bool * bool * bool * C) :=
  let dst := pending_id dst_item in
  let is_control_edge := is_control e in
  if is_merge dst_item then
    if is_control_edge then
      '(_, c) ← nc_decrement_pending dst 2 c;
      count ← nc_pending dst c;
      dead_cnt ← nc_dead_count dst c;
      let dst_dead := dead_cnt =? Z.of_nat (num_inputs dst_item) in
      Some (dst_dead, (count =? 0) || ((count =? 1) && dst_dead), false, c)
    else
      match src with
      | Some _ =>
          count ← nc_pending dst c;
          c ← nc_mark_live dst c;
          Some (false, count =? 1, Z.land count 1 =? 1, c)
      | None =>
          c ← nc_increment_dead_count dst c;
          dead_cnt ← nc_dead_count dst c;
          let dst_dead := (dead_cnt =? Z.of_nat (num_inputs dst_item)) || is_enter item in
          count ← nc_pending dst c;
          Some (dst_dead, (count =? 1) && dst_dead, false, c)
      end
  else
    let increment_dead := is_dead || (negb is_control_edge && negb (bool_decide (is_Some src))) in
    '(pending, dead, c) ← nc_adjust_for_activation dst increment_dead c;
    Some (0 <? dead, pending =? 0, negb is_control_edge, c).

Section edges.
Context (node : nat → option NodeItem).

(** What is left of an entry that was moved. *)
Definition after_move (x : Entry) : Entry := (λ _, moved) <$> x.

(** The body of the loop over the edges, on the outputs, the ready nodes and the iteration. *)
Definition activate_edge (item : NodeItem) (is_dead : bool) (e : EdgeInfo)
    (a : list Entry * list TaggedNode * IterationState) : option (list Entry * list TaggedNode * IterationState) :=
  let '(outputs, ready, st) := a in
  dst_item ← node (dst_id e);
  if is_sink dst_item then Some a else
  src ← (if is_control e then Some None else outputs !! Z.to_nat (output_slot e));
  '(dst_dead, dst_ready, dst_need_input, c) ← count_arrival item dst_item is_dead e src (counts st);
  let dst_loc := (input_start dst_item + Z.to_nat (input_slot e))%nat in
  '(outputs, tensors) ←
    (if dst_need_input : bool then
      _ ← input_tensors st !! dst_loc;
      Some (if is_last e then <[Z.to_nat (output_slot e) := after_move src]> outputs else outputs, <[dst_loc := src]> (input_tensors st))
    else Some (outputs, input_tensors st));
  if dst_ready : bool then
    let dst_dead := if is_control_trigger dst_item then false else dst_dead in
    Some (outputs, ready ++ [mkTagged (dst_id e) dst_dead], mkIter tensors c (u64 (outstanding_ops st + 1)) (outstanding_frame_count st))
  else Some (outputs, ready, mkIter tensors c (outstanding_ops st) (outstanding_frame_count st)).

Fixpoint activate_edges (item : NodeItem) (is_dead : bool) (es : list EdgeInfo)
    (a : list Entry * list TaggedNode * IterationState) : option (list Entry * list TaggedNode * IterationState) :=
  match es with
  | [] => Some a
  | e :: es => a ← activate_edge item is_dead e a; activate_edges item is_dead es a
  end.

Definition ActivateNodes (item : NodeItem) (is_dead : bool) (outputs : list Entry) (ready : list TaggedNode) (st : IterationState)
    : option (list TaggedNode * IterationState) :=
  '(_, ready, st) ← activate_edges item is_dead (output_edges item) (outputs, ready, st);
  Some (ready, st).

End edges.

(** ** Arrivals *)

(** What has come along an edge. *)
Record Arrival := mkArrival { a_edge : EdgeInfo; a_dead : bool; a_value : Entry }.

Definition a_control (a : Arrival) : bool := is_control (a_edge a).
Definition a_live (a : Arrival) : bool := negb (a_control a) && bool_decide (is_Some (a_value a)).
Definition a_dead_data (a : Arrival) : bool := negb (a_control a) && negb (bool_decide (is_Some (a_value a))).
(** An arrival that makes a node dead that is no merge. *)
Definition a_kills (a : Arrival) : bool := a_dead a || a_dead_data a.

Definition count (f : Arrival → bool) (A : list Arrival) : nat := length (filter (λ a, f a = true) A).
Arguments count : simpl never.

Definition any (f : Arrival → bool) (A : list Arrival) : bool := existsb f A.

(** A node has the arrivals [A] out of [nc] control and [nd] data edges: is it ready, and
    is it dead? *)
Definition fired (it : NodeItem) (nc nd : nat) (A : list Arrival) : bool :=
  if is_merge it then (count a_control A =? nc)%nat && (any a_live A || (count a_dead_data A =? nd)%nat)
  else (length A =? nc + nd)%nat.

Definition dead_of (it : NodeItem) (A : list Arrival) : bool :=
  if is_control_trigger it then false else if is_merge it then negb (any a_live A) else any a_kills A.

(** The entry that an input holds: the value that came for it, of a merge only the first
    live one. *)
Definition input_of (it : NodeItem) (A : list Arrival) (slot : nat) : Entry :=
  match list_find (λ a, (if is_merge it then a_live a else negb (a_control a) && (Z.to_nat (input_slot (a_edge a)) =? slot)%nat) = true) A with
  | Some (_, a) => if (Z.to_nat (input_slot (a_edge a)) =? slot)%nat then a_value a else None
  | None => None
  end.

(** The counts of a node with these arrivals. *)
Definition counts_for (it : NodeItem) (nc nd : nat) (A : list Arrival) (s : NodeCounts) : Prop :=
  if is_merge it then
    let p := 2 * (Z.of_nat nc - Z.of_nat (count a_control A)) + (if any a_live A then 0 else 1) in
    s = waiting p (n_dead s) ∧ 0 <= n_dead s <= Z.of_nat (count a_dead_data A) ∧ (0 < p → n_dead s = Z.of_nat (count a_dead_data A))
  else s = waiting (Z.of_nat (nc + nd) - Z.of_nat (length A)) (Z.of_nat (count a_kills A)).

(** No more arrivals than edges. *)
Definition within (nc nd : nat) (A : list Arrival) : Prop :=
  (count a_control A ≤ nc)%nat ∧ (count a_dead_data A + count a_live A ≤ nd)%nat.

Lemma count_app f A B : count f (A ++ B) = (count f A + count f B)%nat.
Proof. unfold count. by rewrite filter_app, length_app. Qed.

Lemma count_one f a : count f [a] = if f a then 1%nat else 0%nat.
Proof. unfold count. destruct (f a) eqn:E; [rewrite filter_cons_True by done; done | rewrite filter_cons_False by (by rewrite E); done]. Qed.

Lemma arrival_count_snoc f A a : count f (A ++ [a]) = (count f A + if f a then 1 else 0)%nat.
Proof. by rewrite count_app, count_one. Qed.

Lemma any_count f A : any f A = (0 <? count f A)%nat.
Proof.
  induction A as [|a A IH]; [done|]. change (a :: A) with ([a] ++ A). rewrite count_app, count_one. unfold any in *. cbn [existsb app]. rewrite IH. by destruct (f a).
Qed.

Lemma any_app f A B : any f (A ++ B) = any f A || any f B.
Proof. apply existsb_app. Qed.

Lemma count_kinds A : (count a_control A + (count a_dead_data A + count a_live A) = length A)%nat.
Proof.
  induction A as [|a A IH]; [done|]. change (a :: A) with ([a] ++ A). rewrite !count_app, !count_one, length_app, <- IH. cbn [length].
  unfold a_dead_data, a_live. destruct (a_control a); cbn; [lia|]. case_bool_decide; cbn; lia.
Qed.

Lemma count_kills A : (count a_kills A ≤ length A)%nat.
Proof. unfold count. apply length_filter. Qed.

Lemma any_snoc f A a : any f (A ++ [a]) = any f A || f a.
Proof. rewrite any_app. unfold any at 2. cbn [existsb]. by rewrite orb_false_r. Qed.

Lemma any_false f A : any f A = false ↔ count f A = 0%nat.
Proof. rewrite any_count, Nat.ltb_ge. lia. Qed.

Lemma any_true f A : any f A = true ↔ (0 < count f A)%nat.
Proof. by rewrite any_count, Nat.ltb_lt. Qed.

Lemma initial_counts it nc nd :
  counts_for it nc nd [] (waiting (if is_merge it then 1 + 2 * Z.of_nat nc else Z.of_nat (nc + nd)) 0).
Proof.
  unfold counts_for. destruct (is_merge it); [|by change (length []) with 0%nat; rewrite Z.sub_0_r].
  change (count _ []) with 0%nat. change (any _ []) with false. cbn [n_dead waiting]. split_and!; [f_equal; lia | lia..].
Qed.

(** ** One arrival *)

Lemma waiting_pending p d : n_pending (waiting p d) = p.
Proof. done. Qed.

Lemma waiting_dead p d : n_dead (waiting p d) = d.
Proof. done. Qed.

Lemma waiting_not_ready p d : 0 < p → n_state (waiting p d) = PENDING_NOTREADY.
Proof. intros Hp. unfold waiting. by rewrite (proj2 (Z.eqb_neq p 0)) by lia. Qed.

Lemma mark_live_waiting p d : 0 <= p → spec_mark_live (waiting p d) = waiting (p - p mod 2) d.
Proof.
  intros Hp. unfold spec_mark_live. destruct (Z.eqb_spec p 0) as [->|Hne]; [done|]. by rewrite decide_True by (apply waiting_not_ready; lia).
Qed.

Lemma increment_dead_waiting p d : 0 <= p → spec_increment_dead (waiting p d) = waiting p (if p =? 0 then d else d + 1).
Proof.
  intros Hp. unfold spec_increment_dead. destruct (Z.eqb_spec p 0) as [->|Hne]; [done|]. rewrite decide_True by (apply waiting_not_ready; lia).
  unfold waiting. by rewrite (proj2 (Z.eqb_neq p 0)) by lia.
Qed.

(** What an arrival does at a node. *)
Definition needs (it : NodeItem) (A : list Arrival) (a : Arrival) : bool :=
  if is_merge it then a_live a && negb (any a_live A) else negb (a_control a).

Record arrival_result (it : NodeItem) (nc nd : nat) (A : list Arrival) (a : Arrival) (r : bool * bool * bool) : Prop := {
  ar_ready : r.1.2 = negb (fired it nc nd A) && fired it nc nd (A ++ [a]);
  ar_dead : r.1.2 = true → (if is_control_trigger it then false else r.1.1) = dead_of it (A ++ [a]);
  ar_need : r.2 = needs it A a }.

Section arrival.
Context (item it : NodeItem) (c : C) (m : gmap nat NodeCounts) (s : NodeCounts) (nc nd : nat) (A : list Arrival) (a : Arrival).
Context (Hrep : counts_rep c m) (Hs : m !! pending_id it = Some s) (Hfor : counts_for it nc nd A s).
Context (Hwithin : within nc nd (A ++ [a])) (Hlimit : Z.of_nat (nc + nd) <= max_dead (pending_id it)).
Context (Hmerge : is_merge it = true → nd = num_inputs it) (Hframes : is_enter item = false).

(** After the arrival. *)
Definition arrived (o : option (bool * bool * bool * C)) : Prop :=
  ∃ r c' s', o = Some (r, c') ∧ counts_rep c' (<[pending_id it := s']> m) ∧ counts_for it nc nd (A ++ [a]) s' ∧ arrival_result it nc nd A a r.

Lemma regular_arrival : is_merge it = false → arrived (count_arrival item it (a_dead a) (a_edge a) (a_value a) c).
Proof.
  intros Hm. unfold counts_for in Hfor. rewrite Hm in Hfor. destruct Hwithin as [W1 W2]. pose proof (count_kinds (A ++ [a])) as Hk.
  rewrite length_app in Hk. cbn [length] in Hk. pose proof (count_kills A) as Hkills.
  assert (Hst : n_state s = PENDING_NOTREADY) by (rewrite Hfor; apply waiting_not_ready; lia).
  unfold count_arrival. rewrite Hm. change (is_control (a_edge a)) with (a_control a).
  change (a_dead a || (negb (a_control a) && negb (bool_decide (is_Some (a_value a))))) with (a_kills a).
  destruct (nc_adjust_law c m (pending_id it) s (a_kills a) Hrep Hs Hst) as (c'&->&Hc'); [rewrite Hfor, waiting_dead; lia|].
  cbn [mbind option_bind]. eexists _, c', _. split; [done|]. split; [exact Hc'|]. rewrite Hfor, waiting_pending, waiting_dead.
  assert (Hkill : count a_kills (A ++ [a]) = (count a_kills A + (if a_kills a then 1 else 0))%nat) by (rewrite arrival_count_snoc; by destruct (a_kills a)).
  split; [|split].
  - unfold counts_for. rewrite Hm, length_app, Hkill. cbn [length]. f_equal; destruct (a_kills a); cbn; lia.
  - cbn [fst snd]. unfold fired. rewrite Hm, length_app. cbn [length].
    destruct (Nat.eqb_spec (length A) (nc + nd)); [lia|]. destruct (Nat.eqb_spec (length A + 1) (nc + nd)); cbn [negb andb]; [apply Z.eqb_eq | apply Z.eqb_neq]; lia.
  - cbn [fst snd]. intros _. unfold dead_of. rewrite Hm. destruct (is_control_trigger it); [done|]. rewrite any_count, Hkill.
    destruct (Nat.ltb_spec 0 (count a_kills A + (if a_kills a then 1 else 0))); [apply Z.ltb_lt | apply Z.ltb_ge]; destruct (a_kills a); cbn; lia.
  - unfold needs. by rewrite Hm.
Qed.

(** The counts of a merge that the operations find. *)
Lemma merge_counts : is_merge it = true →
  ∃ p d, s = waiting p d ∧ p = 2 * (Z.of_nat nc - Z.of_nat (count a_control A)) + (if any a_live A then 0 else 1) ∧
    0 <= d <= Z.of_nat (count a_dead_data A) ∧ (0 < p → d = Z.of_nat (count a_dead_data A)).
Proof. unfold counts_for in Hfor. intros Hm. rewrite Hm in Hfor. destruct Hfor as (Es&Hd1&Hd2). eauto 10. Qed.

Lemma merge_for p d B : is_merge it = true →
  p = 2 * (Z.of_nat nc - Z.of_nat (count a_control B)) + (if any a_live B then 0 else 1) →
  0 <= d <= Z.of_nat (count a_dead_data B) → (0 < p → d = Z.of_nat (count a_dead_data B)) → counts_for it nc nd B (waiting p d).
Proof. intros Hm -> Hd1 Hd2. unfold counts_for. rewrite Hm, waiting_dead. cbv zeta. split; [done|]. by split. Qed.

Lemma merge_fired B : is_merge it = true →
  fired it nc nd B = true ↔ count a_control B = nc ∧ (any a_live B = true ∨ count a_dead_data B = nd).
Proof. intros Hm. unfold fired. rewrite Hm, andb_true_iff, orb_true_iff, !Nat.eqb_eq. done. Qed.

(** Shows that a ready bit is the change of [fired]. *)
Lemma becomes_ready b B B' : (b = true ↔ fired it nc nd B = false ∧ fired it nc nd B' = true) → b = negb (fired it nc nd B) && fired it nc nd B'.
Proof. destruct b, (fired it nc nd B), (fired it nc nd B'); cbn; intuition congruence. Qed.

Lemma control_arrival : is_merge it = true → a_control a = true → arrived (count_arrival item it (a_dead a) (a_edge a) (a_value a) c).
Proof.
  intros Hm Hc. destruct (merge_counts Hm) as (p&d&Es&Ep&Hd1&Hd2). destruct Hwithin as [W1 W2]. rewrite arrival_count_snoc in W1. rewrite !arrival_count_snoc in W2. rewrite Hc in W1.
  assert (Hl : a_live a = false) by (unfold a_live; by rewrite Hc). assert (Hdd : a_dead_data a = false) by (unfold a_dead_data; by rewrite Hc).
    rewrite Hl, Hdd in W2. pose proof (any_count a_live A) as Hany.
  unfold count_arrival. rewrite Hm. change (is_control (a_edge a)) with (a_control a). rewrite Hc.
  destruct (nc_decrement_law c m (pending_id it) s 2 Hrep Hs) as (c1&->&Hc1).
  { rewrite Es. apply waiting_not_ready. destruct (any a_live A); lia. }
  { rewrite Es, waiting_pending. destruct (any a_live A); lia. }
  cbn [mbind option_bind]. rewrite Es, waiting_pending, waiting_dead in Hc1.
  rewrite (nc_pending_law c1 _ (pending_id it) (waiting (p - 2) d) Hc1 (lookup_insert_eq _ _ _)). cbn [mbind option_bind].
  rewrite (nc_dead_law c1 _ (pending_id it) (waiting (p - 2) d) Hc1 (lookup_insert_eq _ _ _)). cbn [mbind option_bind].
  eexists _, c1, _. split; [done|]. split; [exact Hc1|].
  assert (Ha : any a_live (A ++ [a]) = any a_live A) by (by rewrite any_snoc, Hl, orb_false_r).
  assert (Hk : count a_control (A ++ [a]) = S (count a_control A)) by (rewrite arrival_count_snoc, Hc; lia).
  assert (Hdk : count a_dead_data (A ++ [a]) = count a_dead_data A) by (rewrite arrival_count_snoc, Hdd; lia).
  specialize (Hmerge Hm). rewrite waiting_pending, waiting_dead.
  split; [|split]; cbn [fst snd].
  - apply merge_for; [done|rewrite Ha, Hk; destruct (any a_live A); lia|rewrite Hdk; lia|rewrite Hdk; intros; apply Hd2; lia].
  - apply becomes_ready. rewrite <- not_true_iff_false, !merge_fired, Ha, Hk, Hdk, orb_true_iff, andb_true_iff, !Z.eqb_eq by done.
    destruct (any a_live A); intuition (try lia; try congruence); (left || right); lia.
  - rewrite orb_true_iff, andb_true_iff, !Z.eqb_eq. unfold dead_of. rewrite Hm, Ha. destruct (is_control_trigger it); [done|].
    intros Hready. destruct (any a_live A) eqn:El; cbn [negb]; [apply Z.eqb_neq | apply Z.eqb_eq]; [apply any_true in El|]; lia.
  - unfold needs. by rewrite Hm, Hl.
Qed.

Lemma live_arrival x : is_merge it = true → a_control a = false → a_value a = Some x →
  arrived (count_arrival item it (a_dead a) (a_edge a) (a_value a) c).
Proof.
  intros Hm Hc Hx. destruct (merge_counts Hm) as (p&d&Es&Ep&Hd1&Hd2). destruct Hwithin as [W1 W2]. rewrite arrival_count_snoc in W1. rewrite !arrival_count_snoc in W2. rewrite Hc in W1.
  assert (Hl : a_live a = true) by (unfold a_live; by rewrite Hc, Hx). assert (Hdd : a_dead_data a = false) by (unfold a_dead_data; by rewrite Hc, Hx).
  rewrite Hl, Hdd in W2. assert (Hp : 0 <= p) by (destruct (any a_live A); lia).
  unfold count_arrival. rewrite Hm. change (is_control (a_edge a)) with (a_control a). rewrite Hc, Hx.
  rewrite (nc_pending_law c m (pending_id it) s Hrep Hs). cbn [mbind option_bind].
  destruct (nc_mark_live_law c m (pending_id it) s Hrep Hs) as (c1&->&Hc1). cbn [mbind option_bind].
  rewrite Es, waiting_pending in *. rewrite mark_live_waiting in Hc1 by done. eexists _, c1, _. split; [done|]. split; [exact Hc1|].
  assert (Ha : any a_live (A ++ [a]) = true) by (by rewrite any_snoc, Hl, orb_true_r).
  assert (Hk : count a_control (A ++ [a]) = count a_control A) by (rewrite arrival_count_snoc, Hc; lia).
  assert (Hdk : count a_dead_data (A ++ [a]) = count a_dead_data A) by (rewrite arrival_count_snoc, Hdd; lia).
  assert (Hmod : p mod 2 = if any a_live A then 0 else 1).
  { rewrite Ep, Z.add_comm, Z.mul_comm, Z.mod_add by lia. by destruct (any a_live A). }
  split; [|split]; cbn [fst snd].
  - apply merge_for; [done|rewrite Ha, Hk, Hmod; destruct (any a_live A); lia|rewrite Hdk; lia|rewrite Hdk, Hmod; intros; apply Hd2; destruct (any a_live A); lia].
  - apply becomes_ready. rewrite <- not_true_iff_false, !merge_fired, Ha, Hk, Hdk, !Z.eqb_eq by done.
    pose proof (any_true a_live A). destruct (any a_live A); intuition (try lia; try congruence).
  - intros _. unfold dead_of. rewrite Hm, Ha. by destruct (is_control_trigger it).
  - unfold needs. rewrite Hm, Hl. cbn [andb]. change 1 with (Z.ones 1) at 1. rewrite Z.land_ones by lia. change (2 ^ 1) with 2. rewrite Hmod. by destruct (any a_live A).
Qed.

Lemma dead_arrival : is_merge it = true → a_control a = false → a_value a = None →
  arrived (count_arrival item it (a_dead a) (a_edge a) (a_value a) c).
Proof.
  intros Hm Hc Hx. destruct (merge_counts Hm) as (p&d&Es&Ep&Hd1&Hd2). destruct Hwithin as [W1 W2]. rewrite arrival_count_snoc in W1. rewrite !arrival_count_snoc in W2. rewrite Hc in W1.
  assert (Hl : a_live a = false) by (unfold a_live; by rewrite Hc, Hx). assert (Hdd : a_dead_data a = true) by (unfold a_dead_data; by rewrite Hc, Hx).
  rewrite Hl, Hdd in W2. assert (Hp : 0 <= p) by (destruct (any a_live A); lia).
  unfold count_arrival. rewrite Hm. change (is_control (a_edge a)) with (a_control a). rewrite Hc, Hx.
  destruct (nc_increment_law c m (pending_id it) s Hrep Hs) as (c1&->&Hc1); [rewrite Es, waiting_dead; lia|].
  cbn [mbind option_bind]. rewrite Es, increment_dead_waiting in Hc1 by done. set (d' := if p =? 0 then d else d + 1) in *.
  rewrite (nc_dead_law c1 _ (pending_id it) (waiting p d') Hc1 (lookup_insert_eq _ _ _)). cbn [mbind option_bind].
  rewrite (nc_pending_law c1 _ (pending_id it) (waiting p d') Hc1 (lookup_insert_eq _ _ _)). cbn [mbind option_bind].
  eexists _, c1, _. split; [done|]. split; [exact Hc1|].
  assert (Ha : any a_live (A ++ [a]) = any a_live A) by (by rewrite any_snoc, Hl, orb_false_r).
  assert (Hk : count a_control (A ++ [a]) = count a_control A) by (rewrite arrival_count_snoc, Hc; lia).
  assert (Hdk : count a_dead_data (A ++ [a]) = S (count a_dead_data A)) by (rewrite arrival_count_snoc, Hdd; lia).
  assert (Hd' : 0 <= d' <= Z.of_nat (S (count a_dead_data A)) ∧ (0 < p → d' = Z.of_nat (S (count a_dead_data A)))).
  { unfold d'. destruct (Z.eqb_spec p 0); [lia|]. split; [lia|]. intros; rewrite Hd2; lia. }
  specialize (Hmerge Hm). rewrite waiting_pending, waiting_dead, Hframes, orb_false_r.
  split; [|split]; cbn [fst snd].
  - apply merge_for; [done|by rewrite Ha, Hk|rewrite Hdk; apply Hd'|rewrite Hdk; apply Hd'].
  - apply becomes_ready. rewrite <- not_true_iff_false, !merge_fired, Ha, Hk, Hdk, andb_true_iff, !Z.eqb_eq by done.
    pose proof (any_true a_live A). destruct (any a_live A); intuition (try lia; try congruence).
  - rewrite andb_true_iff, !Z.eqb_eq. unfold dead_of. rewrite Hm, Ha. destruct (is_control_trigger it); [done|].
    intros [Hp1 Hd1']. rewrite (proj2 (Z.eqb_eq _ _) Hd1'). destruct (any a_live A); [lia|done].
  - unfold needs. by rewrite Hm, Hl.
Qed.

Lemma count_arrival_ok : arrived (count_arrival item it (a_dead a) (a_edge a) (a_value a) c).
Proof.
  destruct (sumbool_of_bool (is_merge it)) as [Hm|Hm]; [|by apply regular_arrival]. destruct (a_control a) eqn:Hc; [by apply control_arrival|].
  destruct (a_value a) as [x|] eqn:Hx; rewrite <- Hx; [by eapply live_arrival | by apply dead_arrival].
Qed.
End arrival.
End activation.
