(* ===== verification/Dataflow.v ===== *)
(** * The dataflow semantics of a graph

    What the executor of [tensorflow/core/common_runtime/executor.cc] promises to compute:
    an abstract machine that runs one node at a time.  An [Event] is a node that ran, with
    its deadness and its outputs; a list of them is an [evaluation] when each node ran after
    enough of its inputs had arrived, on the inputs and the deadness that the arrivals give
    it, and at most once.

    The first section states what is assumed of the view of a graph ([view_ok]); the others
    prove that what a node computes does not change by later arrivals, that an evaluation
    that cannot go on has run every node of an acyclic graph, and that two of them agree
    when no merge has two live inputs. *)
From S2P Require Import Prelude Status Graph PendingCounts DataTypes Activation.
Local Open Scope Z_scope.

Section dataflow.
Context {T : Type} (node : nat → option NodeItem) (nodes : list nat).

(** ** Edges *)

Definition edges_of (d : nat) : list EdgeInfo := from_option output_edges [] (node d).
Definition all_edges : list EdgeInfo := nodes ≫= edges_of.
Definition edges_into (d : nat) : list EdgeInfo := filter (λ e, dst_id e = d) all_edges.
Definition num_control (d : nat) : nat := length (filter (λ e, is_control e = true) (edges_into d)).
Definition num_data (d : nat) : nat := length (filter (λ e, is_control e = false) (edges_into d)).

(** What is assumed of the items: for a graph without loops, whose merges have an edge into
    each input.  [total] is the number of input tensors, [limit] the limit of the dead
    count of each node. *)
Record view_ok (total : nat) (limit : nat → Z) : Prop := {
  v_nodup : NoDup nodes;
  v_count : Z.of_nat (length nodes) < 2 ^ 31;
  v_node d : d ∈ nodes ↔ is_Some (node d);
  v_frames d it : node d = Some it → is_enter it = false ∧ is_enter_exit_or_next_iter it = false;
  v_sink d it : node d = Some it → is_sink it = true → output_edges it = [];
  v_dst d it e : node d = Some it → e ∈ output_edges it → is_Some (node (dst_id e));
  v_rank : ∃ rank : nat → nat, ∀ d it e, node d = Some it → e ∈ output_edges it → (rank d < rank (dst_id e))%nat;
  v_output d it e : node d = Some it → e ∈ output_edges it → is_control e = false → (Z.to_nat (output_slot e) < num_outputs it)%nat;
  v_last d it es1 e es2 : node d = Some it → output_edges it = es1 ++ e :: es2 → is_last e = true → is_control e = false →
    ∀ e', e' ∈ es2 → is_control e' = false → Z.to_nat (output_slot e') ≠ Z.to_nat (output_slot e);
  v_input d it e : node d = Some it → e ∈ edges_into d → is_control e = false → (Z.to_nat (input_slot e) < num_inputs it)%nat;
  v_slots d : NoDup ((λ e, Z.to_nat (input_slot e)) <$> filter (λ e, is_control e = false) (edges_into d));
  v_merge d it : node d = Some it → is_merge it = true → num_data d = num_inputs it ∧ (0 < num_data d)%nat;
  v_total d it : node d = Some it → (input_start it + num_inputs it ≤ total)%nat;
  v_regions d d' it it' i i' : node d = Some it → node d' = Some it' → (i < num_inputs it)%nat → (i' < num_inputs it')%nat →
    (input_start it + i = input_start it' + i')%nat → d = d' ∧ i = i';
  v_pending d d' it it' : node d = Some it → node d' = Some it' → pending_id it = pending_id it' → d = d';
  v_limit d it : node d = Some it → Z.of_nat (num_control d + num_data d) <= limit (pending_id it) }.

(** ** Events *)

Record Event := mkEvent { ev_node : nat; ev_dead : bool; ev_outputs : list (option T) }.

Definition arrival (ev : Event) (e : EdgeInfo) : Arrival :=
  mkArrival e (ev_dead ev) (if is_control e then None else default None (ev_outputs ev !! Z.to_nat (output_slot e))).

(** Everything that was sent along edges. *)
Definition sent (log : list Event) : list (@Arrival T) := log ≫= λ ev, arrival ev <$> edges_of (ev_node ev).

Definition arrived_at (d : nat) (S : list (@Arrival T)) : list Arrival := filter (λ a, dst_id (a_edge a) = d) S.

(** Is a node to run, after these arrivals?  The sink of a graph is not run, unless nothing
    comes before it. *)
Definition active (S : list (@Arrival T)) (d : nat) : bool :=
  match node d with
  | Some it => (negb (is_sink it) || bool_decide (edges_into d = [])) && fired it (num_control d) (num_data d) (arrived_at d S)
  | None => false
  end.

Definition inputs_for (it : NodeItem) (A : list (@Arrival T)) : list (option T) := input_of it A <$> seq 0 (num_inputs it).

(** ** Arrivals and edges *)

(** No more arrivals than edges. *)
Definition bounded (S : list (@Arrival T)) : Prop := a_edge <$> S ⊆+ all_edges.

Lemma sent_app l l' : sent (l ++ l') = sent l ++ sent l'.
Proof. apply bind_app. Qed.

Lemma arrived_app d S S' : arrived_at d (S ++ S') = arrived_at d S ++ arrived_at d S'.
Proof. apply filter_app. Qed.

Lemma sent_edges log : a_edge <$> sent log = (ev_node <$> log) ≫= edges_of.
Proof.
  induction log as [|ev log IH]; [done|]. change (ev :: log) with ([ev] ++ log). rewrite sent_app, !fmap_app, bind_app, <- IH. f_equal.
  unfold sent. cbn. rewrite !app_nil_r, <- list_fmap_compose. apply list_fmap_id.
Qed.

Lemma submseteq_filter {A} (P : A → Prop) `{!∀ x, Decision (P x)} (l k : list A) : l ⊆+ k → filter P l ⊆+ filter P k.
Proof. intros [k' Hk]%submseteq_Permutation. rewrite Hk, filter_app. by apply submseteq_inserts_r. Qed.

Lemma submseteq_bind {A B} (f : A → list B) (l k : list A) : l ⊆+ k → l ≫= f ⊆+ k ≫= f.
Proof. intros [k' Hk]%submseteq_Permutation. rewrite Hk, bind_app. by apply submseteq_inserts_r. Qed.

Lemma bounded_log log : NoDup (ev_node <$> log) → (∀ d, d ∈ ev_node <$> log → d ∈ nodes) → bounded (sent log).
Proof. intros Hnd Hin. unfold bounded, all_edges. rewrite sent_edges. by apply submseteq_bind, NoDup_submseteq. Qed.

Lemma bounded_app_l S S' : bounded (S ++ S') → bounded S.
Proof. unfold bounded. rewrite fmap_app. intros Hb. etrans; [|exact Hb]. by apply submseteq_inserts_r. Qed.

Lemma arrived_edges d S : a_edge <$> arrived_at d S = filter (λ e, dst_id e = d) (a_edge <$> S).
Proof. unfold arrived_at. induction S as [|a S IH]; [done|]. cbn [fmap list_fmap]. rewrite !filter_cons. case_decide; cbn; by rewrite IH. Qed.

Lemma arrived_bounded d S : bounded S → a_edge <$> arrived_at d S ⊆+ edges_into d.
Proof. intros Hb. rewrite arrived_edges. by apply submseteq_filter. Qed.

Lemma count_edges (f : EdgeInfo → bool) (A : list (@Arrival T)) :
  count (λ a, f (a_edge a)) A = length (filter (λ e, f e = true) (a_edge <$> A)).
Proof. unfold count. induction A as [|a A IH]; [done|]. cbn [fmap list_fmap]. rewrite !filter_cons. case_decide; cbn; by rewrite IH. Qed.

Lemma count_data (A : list (@Arrival T)) : (count a_dead_data A + count a_live A)%nat = length (filter (λ e, is_control e = false) (a_edge <$> A)).
Proof.
  induction A as [|a A IH]; [done|]. change (a :: A) with ([a] ++ A). rewrite !count_app, !count_one, fmap_app, filter_app, length_app, <- IH.
  cbn [fmap list_fmap]. unfold a_dead_data, a_live, a_control. rewrite filter_cons. destruct (is_control (a_edge a)); case_decide; try done; cbn; try lia. case_bool_decide; cbn; lia.
Qed.

Lemma bounded_within d S : bounded S → within (num_control d) (num_data d) (arrived_at d S).
Proof.
  intros Hb%(arrived_bounded d). split.
  - rewrite (count_edges is_control). by apply submseteq_length, submseteq_filter.
  - rewrite count_data. by apply submseteq_length, submseteq_filter.
Qed.

(** ** Later arrivals change nothing *)

Lemma within_regular nc nd (A B : list (@Arrival T)) : length A = (nc + nd)%nat → within nc nd (A ++ B) → B = [].
Proof.
  intros Hl [W1 W2]. pose proof (count_kinds (A ++ B)) as Hk. rewrite length_app in Hk. destruct B; [done|]. cbn [length] in Hk. lia.
Qed.

Lemma within_all_dead nc nd (A B : list (@Arrival T)) : count a_control A = nc → count a_dead_data A = nd → within nc nd (A ++ B) → B = [].
Proof.
  intros H1 H2 [W1 W2]. rewrite count_app in W1. rewrite !count_app in W2. pose proof (count_kinds B) as Hk. destruct B; [done|]. cbn [length] in Hk. lia.
Qed.

Lemma fired_stable it nc nd (A B : list (@Arrival T)) : within nc nd (A ++ B) → fired it nc nd A = true →
  fired it nc nd (A ++ B) = true ∧ dead_of it (A ++ B) = dead_of it A ∧ inputs_for it (A ++ B) = inputs_for it A.
Proof.
  intros Hw Hf. destruct (is_merge it) eqn:Hm.
  - pose proof Hf as [Hc Hor]%merge_fired; [|done]. destruct Hor as [Hl|Hd]; [|assert (B = []) as -> by eauto using within_all_dead; by rewrite app_nil_r].
    destruct Hw as [W1 _]. rewrite count_app in W1. assert (Hl' : any a_live (A ++ B) = true) by (by rewrite any_app, Hl). split_and!.
    + apply merge_fired; [done|]. split; [rewrite count_app; lia|by left].
    + unfold dead_of. by rewrite Hm, Hl, Hl'.
    + apply list_fmap_ext. intros i slot _. unfold input_of. rewrite Hm. apply existsb_exists in Hl as (a&Ha%list_elem_of_In&Hal).
      destruct (list_find_elem_of (λ a, a_live a = true) A a Ha Hal) as [[j x] Hx]. by rewrite Hx, (list_find_app_l _ _ _ _ _ Hx).
  - assert (B = []) as ->; [|by rewrite app_nil_r]. unfold fired in Hf. rewrite Hm in Hf. apply Nat.eqb_eq in Hf. eauto using within_regular.
Qed.

Lemma active_node S d : active S d = true → ∃ it, node d = Some it ∧
  (is_sink it = false ∨ edges_into d = []) ∧ fired it (num_control d) (num_data d) (arrived_at d S) = true.
Proof.
  unfold active. destruct (node d) as [it|]; [|done]. rewrite andb_true_iff, orb_true_iff, negb_true_iff, bool_decide_eq_true. intros [H1 H2]. eauto.
Qed.

Lemma node_active S d it : node d = Some it → is_sink it = false ∨ edges_into d = [] → fired it (num_control d) (num_data d) (arrived_at d S) = true →
  active S d = true.
Proof. intros Hd Hs Hf. unfold active. rewrite Hd, andb_true_iff, orb_true_iff, negb_true_iff, bool_decide_eq_true. done. Qed.

Lemma active_stable S S' d : bounded (S ++ S') → active S d = true → active (S ++ S') d = true ∧
  ∀ it, node d = Some it → dead_of it (arrived_at d (S ++ S')) = dead_of it (arrived_at d S) ∧
    inputs_for it (arrived_at d (S ++ S')) = inputs_for it (arrived_at d S).
Proof.
  intros Hb (it&Hd&Hs&Hf)%active_node. pose proof (bounded_within d _ Hb) as Hw. rewrite arrived_app in *.
  destruct (fired_stable it _ _ _ _ Hw Hf) as (Hf'&Hdead&Hin). split; [|by intros ? [= <-]%(eq_trans (eq_sym Hd))].
  eapply node_active; eauto. by rewrite arrived_app.
Qed.

(** ** Evaluations *)

(** What a node computes from its inputs when it runs. *)
Context (outcome : nat → bool → list (option T) → Status * list (option T)).

Inductive evaluation : list Event → Prop :=
  | evaluation_nil : evaluation []
  | evaluation_snoc log d it outs :
      evaluation log → node d = Some it → active (sent log) d = true → d ∉ ev_node <$> log →
      outcome d (dead_of it (arrived_at d (sent log))) (inputs_for it (arrived_at d (sent log))) = (StatusOK, outs) →
      evaluation (log ++ [mkEvent d (dead_of it (arrived_at d (sent log))) outs]).

(** A node ran on what the arrivals give it. *)
Definition explained (S : list (@Arrival T)) (ev : Event) : Prop :=
  ∃ it, node (ev_node ev) = Some it ∧ active S (ev_node ev) = true ∧ ev_dead ev = dead_of it (arrived_at (ev_node ev) S) ∧
    outcome (ev_node ev) (ev_dead ev) (inputs_for it (arrived_at (ev_node ev) S)) = (StatusOK, ev_outputs ev).

Lemma explained_stable S S' ev : bounded (S ++ S') → explained S ev → explained (S ++ S') ev.
Proof.
  intros Hb (it&Hd&Ha&Hdead&Ho). destruct (active_stable S S' _ Hb Ha) as [Ha' Hs]. destruct (Hs _ Hd) as [E1 E2]. exists it. by rewrite E1, E2.
Qed.

Context (total : nat) (limit : nat → Z) (Hview : view_ok total limit).

Lemma evaluation_nodes log : evaluation log → NoDup (ev_node <$> log) ∧ ∀ d, d ∈ ev_node <$> log → d ∈ nodes.
Proof.
  induction 1 as [|log d it outs He [IH1 IH2] Hd Ha Hnew Ho]; [split; [constructor|by intros d ?%elem_of_nil]|].
  rewrite fmap_app. cbn. split; [apply NoDup_app; split_and!; [done| |apply NoDup_singleton]|].
  - by intros x Hx ->%list_elem_of_singleton.
  - intros x [Hx| ->%list_elem_of_singleton]%elem_of_app; [by apply IH2|]. apply (v_node _ _ Hview). eauto.
Qed.

Lemma evaluation_bounded log : evaluation log → bounded (sent log).
Proof. intros [? ?]%evaluation_nodes. by apply bounded_log. Qed.

Lemma evaluation_explained log : evaluation log → ∀ ev, ev ∈ log → explained (sent log) ev.
Proof.
  intros He. pose proof (evaluation_bounded _ He) as Hb. induction He as [|log d it outs He IH Hd Ha Hnew Ho]; [by intros ev ?%elem_of_nil|].
  rewrite sent_app in *. intros ev [Hin| ->%list_elem_of_singleton]%elem_of_app.
  - apply explained_stable; [done|]. apply IH; [|done]. by eapply bounded_app_l.
  - apply explained_stable; [done|]. by exists it.
Qed.

(** ** Complete evaluations *)

(** No node is left that could run. *)
Definition complete (log : list Event) : Prop := ∀ d, active (sent log) d = true → d ∈ ev_node <$> log.

Lemma all_arrived_fired it d (A : list (@Arrival T)) : a_edge <$> A ≡ₚ edges_into d → fired it (num_control d) (num_data d) A = true.
Proof.
  intros Hp. assert (Hc : count a_control A = num_control d) by (unfold num_control; rewrite <- Hp; apply (count_edges is_control)).
  assert (Hd : (count a_dead_data A + count a_live A)%nat = num_data d) by (unfold num_data; rewrite <- Hp; apply count_data).
  unfold fired. destruct (is_merge it).
  - rewrite Hc, Nat.eqb_refl. cbn [andb]. pose proof (any_true a_live A). destruct (any a_live A) eqn:El; [done|].
    apply any_false in El. cbn. apply Nat.eqb_eq. lia.
  - apply Nat.eqb_eq. pose proof (count_kinds A). lia.
Qed.

(** The sources of the edges into a node. *)
Lemma edge_into d e : e ∈ edges_into d → ∃ n it, n ∈ nodes ∧ node n = Some it ∧ e ∈ output_edges it ∧ dst_id e = d.
Proof.
  unfold edges_into, all_edges. intros [Hd [n [He Hn]]%list_elem_of_bind]%list_elem_of_filter. unfold edges_of in He. destruct (node n) as [it|] eqn:E; [|by apply elem_of_nil in He].
  by exists n, it.
Qed.

(** A node whose predecessors have run has all of its arrivals. *)
Lemma all_arrived log d : NoDup (ev_node <$> log) → (∀ n, n ∈ ev_node <$> log → n ∈ nodes) →
  (∀ n it e, node n = Some it → e ∈ output_edges it → dst_id e = d → n ∈ ev_node <$> log) →
  a_edge <$> arrived_at d (sent log) ≡ₚ edges_into d.
Proof.
  intros Hnd Hin Hpred. rewrite arrived_edges, sent_edges. unfold edges_into, all_edges.
  destruct (submseteq_Permutation (ev_node <$> log) nodes) as [rest Hrest]; [by apply NoDup_submseteq|].
  assert (Hnone : filter (λ e, dst_id e = d) (rest ≫= edges_of) = []).
  { apply elem_of_nil_inv. intros e [Hd [n [He Hn]]%list_elem_of_bind]%list_elem_of_filter. unfold edges_of in He.
    destruct (node n) as [it|] eqn:E; [|by apply elem_of_nil in He]. pose proof (v_nodup _ _ Hview) as Hall. rewrite Hrest in Hall.
    apply NoDup_app in Hall as (_&Hdis&_). by apply (Hdis n); [eapply Hpred|]. }
  rewrite Hrest, bind_app, filter_app, Hnone. by rewrite app_nil_r.
Qed.

(** A complete evaluation has run every node but the sink. *)
Lemma complete_all log : NoDup (ev_node <$> log) → (∀ n, n ∈ ev_node <$> log → n ∈ nodes) → complete log →
  ∀ d it, node d = Some it → is_sink it = false → d ∈ ev_node <$> log.
Proof.
  intros Hnd Hin Hc. destruct (v_rank _ _ Hview) as [rank Hrank].
  intros d. induction d as [d IH] using (induction_ltof1 _ rank). unfold ltof in IH. intros it Hd Hs.
  apply Hc. eapply node_active; eauto. apply all_arrived_fired, all_arrived; [done..|]. intros n it' e Hn He <-.
  apply (IH n) with it'; [by eapply Hrank|done|]. destruct (is_sink it') eqn:Es; [|done]. apply (v_sink _ _ Hview _ _ Hn) in Es. rewrite Es in He. by apply elem_of_nil in He.
Qed.

(** ** Evaluations agree *)

Lemma list_find_head {A} (P : A → Prop) `{!∀ x, Decision (P x)} (l : list A) : snd <$> list_find P l = head (filter P l).
Proof.
  induction l as [|x l IH]; [done|]. cbn [list_find]. rewrite filter_cons. destruct (decide (P x)); [done|]. rewrite <- IH. by destruct (list_find P l).
Qed.

Lemma head_Permutation {A} (l l' : list A) : l ≡ₚ l' → (length l ≤ 1)%nat → head l = head l'.
Proof.
  intros Hp Hl. destruct l as [|x [|y l]]; cbn in Hl; [|  |lia].
  - apply Permutation_nil_l in Hp. by subst.
  - apply Permutation_singleton_l in Hp. by subst.
Qed.

Lemma unique_slot {A B} (f : A → B) `{!EqDecision B} (Q : A → Prop) `{!∀ x, Decision (Q x)} (i : B) (l : list A) :
  NoDup (f <$> filter Q l) → (length (filter (λ x, Q x ∧ f x = i) l) ≤ 1)%nat.
Proof.
  induction l as [|x l IH]; [cbn; lia|]. rewrite !filter_cons. intros Hnd.
  destruct (decide (Q x)) as [Hq|Hq]; [|rewrite decide_False by tauto; by apply IH]. cbn [fmap list_fmap] in Hnd. apply NoDup_cons in Hnd as [Hx Hnd].
  destruct (decide (f x = i)) as [Hi|Hi]; [rewrite decide_True by done | rewrite decide_False by tauto; by apply IH].
  cbn [length]. replace (filter _ l) with (@nil A); [cbn; lia|]. symmetry. apply elem_of_nil_inv. intros y [[Hqy Hy] Hin]%list_elem_of_filter.
  apply Hx. rewrite Hi, <- Hy. apply list_elem_of_fmap. exists y. split; [done|]. by apply list_elem_of_filter.
Qed.

Lemma any_Permutation (f : @Arrival T → bool) A A' : A ≡ₚ A' → any f A = any f A'.
Proof. intros Hp. rewrite !any_count. unfold count. by rewrite Hp. Qed.

(** At most one live input reaches each merge. *)
Definition single_live (S : list (@Arrival T)) : Prop :=
  ∀ d it, node d = Some it → is_merge it = true → (count a_live (arrived_at d S) ≤ 1)%nat.

(** The order of the arrivals does not matter then. *)
Lemma inputs_Permutation d it S S' : node d = Some it → bounded S → single_live S → arrived_at d S ≡ₚ arrived_at d S' →
  inputs_for it (arrived_at d S) = inputs_for it (arrived_at d S').
Proof.
  intros Hd Hb Hone Hp. apply list_fmap_ext. intros k slot _. unfold input_of.
  set (P := λ a : @Arrival T, (if is_merge it then a_live a else negb (a_control a) && (Z.to_nat (input_slot (a_edge a)) =? slot)%nat) = true).
  assert (Hhead : snd <$> list_find P (arrived_at d S) = snd <$> list_find P (arrived_at d S')).
  { rewrite !list_find_head. apply head_Permutation; [by rewrite Hp|]. unfold P. destruct (is_merge it) eqn:Hm; [by apply (Hone d it)|].
    assert (Hnd : NoDup ((λ a, Z.to_nat (input_slot (a_edge a))) <$> filter (λ a, a_control a = false) (arrived_at d S))).
    { apply (arrived_bounded d) in Hb. pose proof (v_slots _ _ Hview d) as Hs.
      apply (submseteq_filter (λ e, is_control e = false)) in Hb. apply (fmap_submseteq (λ e, Z.to_nat (input_slot e))) in Hb.
      apply submseteq_Permutation in Hb as [rest Hb]. rewrite Hb in Hs. apply NoDup_app in Hs as (Hs&_). revert Hs.
      unfold arrived_at, a_control. generalize (filter (λ a, dst_id (a_edge a) = d) S). intros A. induction A as [|a A IHA]; [done|].
      cbn [fmap list_fmap]. rewrite !filter_cons. case_decide; [|by apply IHA]. cbn [fmap list_fmap]. intros [Hn Hs]%NoDup_cons. constructor; [|by apply IHA].
      contradict Hn. apply list_elem_of_fmap in Hn as (b&Eb&[Hbc Hb']%list_elem_of_filter). rewrite Eb. apply list_elem_of_fmap. exists (a_edge b). split; [done|].
      apply list_elem_of_filter. split; [done|]. by apply list_elem_of_fmap_2. }
    apply (unique_slot (λ a, Z.to_nat (input_slot (a_edge a))) (λ a, a_control a = false) slot) in Hnd.
    etrans; [|exact Hnd]. apply Nat.eq_le_incl. f_equal. apply list_filter_iff. intros a. rewrite andb_true_iff, negb_true_iff, Nat.eqb_eq. done. }
  destruct (list_find P (arrived_at d S)) as [[j a]|], (list_find P (arrived_at d S')) as [[j' a']|]; cbn in Hhead; by simplify_eq.
Qed.

Lemma dead_Permutation it (A A' : list (@Arrival T)) : A ≡ₚ A' → dead_of it A = dead_of it A'.
Proof. intros Hp. unfold dead_of. by rewrite (any_Permutation a_live _ _ Hp), (any_Permutation a_kills _ _ Hp). Qed.

(** The arrivals at a node come from the events of its predecessors. *)
Definition feeds (d : nat) (ev : Event) : Prop := Exists (λ e, dst_id e = d) (edges_of (ev_node ev)).

#[local] Instance feeds_dec d ev : Decision (feeds d ev).
Proof. unfold feeds. apply _. Defined.

Lemma arrived_feeds d log : arrived_at d (sent log) = arrived_at d (sent (filter (feeds d) log)).
Proof.
  induction log as [|ev log IH]; [done|]. rewrite filter_cons. change (ev :: log) with ([ev] ++ log). rewrite sent_app, arrived_app, IH.
  case_decide as Hf; [change (ev :: filter (feeds d) log) with ([ev] ++ filter (feeds d) log); by rewrite sent_app, arrived_app|].
  replace (arrived_at d (sent [ev])) with (@nil (@Arrival T)); [done|]. symmetry. apply elem_of_nil_inv. intros a [Ha Hin]%list_elem_of_filter.
  apply Hf. unfold sent in Hin. cbn in Hin. rewrite app_nil_r in Hin. apply list_elem_of_fmap in Hin as (e&->&He). apply Exists_exists. by exists e.
Qed.

(** Events of a node are equal if they came from equal arrivals. *)
Lemma explained_agree S S' ev ev' : bounded S → single_live S → ev_node ev = ev_node ev' →
  arrived_at (ev_node ev) S ≡ₚ arrived_at (ev_node ev) S' → explained S ev → explained S' ev' → ev = ev'.
Proof.
  intros Hb Hone Hn Hp (it&Hd&_&Hdead&Ho) (it'&Hd'&_&Hdead'&Ho'). destruct ev as [n dead outs], ev' as [n' dead' outs']. cbn in *. subst n'.
  rewrite Hd in Hd'. injection Hd' as <-. rewrite <- (dead_Permutation it _ _ Hp), <- Hdead in Hdead'. subst dead'.
  rewrite <- (inputs_Permutation n it S S' Hd Hb Hone Hp), Ho in Ho'. by injection Ho' as <-.
Qed.

Lemma evaluations_agree log log' :
  evaluation log → evaluation log' → complete log → complete log' → single_live (sent log) → log ≡ₚ log'.
Proof.
  intros He He' Hc Hc' Hone. pose proof (evaluation_nodes _ He) as [Hnd Hin]. pose proof (evaluation_nodes _ He') as [Hnd' Hin'].
  destruct (v_rank _ _ Hview) as [rank Hrank].
  assert (Hagree : ∀ d ev ev', ev ∈ log → ev' ∈ log' → ev_node ev = d → ev_node ev' = d → ev = ev').
  { intros d. induction d as [d IH] using (induction_ltof1 _ rank). unfold ltof in IH. intros ev ev' Hev Hev' <- Hn.
    apply (explained_agree (sent log) (sent log')); [by apply evaluation_bounded|done|by symmetry| |by eapply evaluation_explained|by eapply evaluation_explained].
    set (d := ev_node ev) in *. rewrite (arrived_feeds d log), (arrived_feeds d log'). unfold arrived_at, sent. apply filter_Permutation, bind_Permutation, NoDup_Permutation.
    { by apply NoDup_filter, (NoDup_fmap_1 ev_node). }
    { by apply NoDup_filter, (NoDup_fmap_1 ev_node). }
    assert (Hpred : ∀ l x, feeds d x → complete l → NoDup (ev_node <$> l) → (∀ n, n ∈ ev_node <$> l → n ∈ nodes) →
      (rank (ev_node x) < rank d)%nat ∧ ∃ y, y ∈ l ∧ ev_node y = ev_node x).
    { intros l x Hx Hl Hl1 Hl2. apply Exists_exists in Hx as (e&Hed&Hdst). unfold edges_of in Hed. destruct (node (ev_node x)) as [it|] eqn:Ei; [|by apply elem_of_nil in Hed].
      cbn in Hed. split; [rewrite <- Hdst; by eapply Hrank|].
      assert (Hxl : ev_node x ∈ ev_node <$> l).
      { eapply complete_all; eauto. destruct (is_sink it) eqn:Es; [|done]. apply (v_sink _ _ Hview _ _ Ei) in Es. rewrite Es in Hed. by apply elem_of_nil in Hed. }
      apply list_elem_of_fmap in Hxl as (y&Hy&Hyl). by exists y. }
    intros x. rewrite !list_elem_of_filter. split; intros [Hf Hx]; (split; [done|]).
    - destruct (Hpred log' x Hf Hc' Hnd' Hin') as [Hr (y&Hy&Ey)]. by rewrite (IH (ev_node x) Hr x y Hx Hy eq_refl Ey).
    - destruct (Hpred log x Hf Hc Hnd Hin) as [Hr (y&Hy&Ey)]. by rewrite <- (IH (ev_node x) Hr y x Hy Hx Ey eq_refl). }
  assert (Hsub : ∀ l l', complete l' → evaluation l → evaluation l' → (∀ ev ev', ev ∈ l → ev' ∈ l' → ev_node ev = ev_node ev' → ev = ev') → ∀ x, x ∈ l → x ∈ l').
  { intros l l' Hl' El El' Hag x Hx. destruct (evaluation_explained _ El x Hx) as (it&Hd&Hact&_).
    destruct (evaluation_nodes _ El') as [Hn1 Hn2]. apply active_node in Hact as (it'&Hd'&Hs&_). rewrite Hd in Hd'. injection Hd' as <-.
    assert (Hxl : ev_node x ∈ ev_node <$> l').
    { destruct Hs as [Hs|Hs]; [by eapply complete_all|]. apply Hl'. eapply node_active; eauto. apply all_arrived_fired.
      rewrite Hs. assert (arrived_at (ev_node x) (sent l') = []) as ->; [|done].
      apply (fmap_nil_inv a_edge), (submseteq_nil_r _), (transitivity (arrived_bounded _ _ (evaluation_bounded _ El'))). by rewrite Hs. }
    apply list_elem_of_fmap in Hxl as (y&Hy&Hyl). by rewrite (Hag x y Hx Hyl Hy). }
  apply NoDup_Permutation; [by apply (NoDup_fmap_1 ev_node) | by apply (NoDup_fmap_1 ev_node) | intros x; split].
  - apply Hsub; eauto.
  - apply Hsub; eauto. intros ev ev' H1 H2 H3. symmetry. eauto.
Qed.
End dataflow.

(** ** Other outcomes *)

Section same_outcomes.
Context {T : Type} (node : nat → option NodeItem) (nodes : list nat) (outcome outcome' : nat → bool → list (option T) → Status * list (option T)).
Context (total : nat) (limit : nat → Z) (Hview : view_ok node nodes total limit).

(** The nodes that ran have the same outcome on what they were given. *)
Definition same_outcomes (log : list (@Event T)) : Prop :=
  ∀ ev it, ev ∈ log → node (ev_node ev) = Some it →
    outcome' (ev_node ev) (ev_dead ev) (inputs_for it (arrived_at (ev_node ev) (sent node log))) =
    outcome (ev_node ev) (ev_dead ev) (inputs_for it (arrived_at (ev_node ev) (sent node log))).

Lemma evaluation_same log : evaluation node nodes outcome log → same_outcomes log → evaluation node nodes outcome' log.
Proof.
  intros He. induction He as [|log d it outs He IH Hd Ha Hnew Ho]; intros Hsame; [constructor|].
  set (ev := mkEvent _ _ outs) in *. assert (Hb : bounded node nodes (sent node log ++ sent node [ev])).
  { rewrite <- sent_app. eapply evaluation_bounded; [exact Hview|]. by constructor. }
  constructor; [apply IH|done|done|done|].
  - intros ev0 it0 Hin Hit0. destruct (evaluation_explained _ _ _ _ _ Hview _ He _ Hin) as (_&_&Ha0&_).
    destruct (active_stable _ _ _ _ _ Hb Ha0) as [_ Hst]. destruct (Hst _ Hit0) as [_ <-]. rewrite <- sent_app.
    apply Hsame; [apply elem_of_app; by left|done].
  - rewrite <- Ho. destruct (active_stable _ _ _ _ _ Hb Ha) as [_ Hst]. destruct (Hst _ Hd) as [_ <-]. rewrite <- sent_app.
    apply (Hsame ev it); [apply elem_of_app; right; by apply list_elem_of_singleton|done].
Qed.
End same_outcomes.
