(* ===== verification/Executor.v ===== *)
(** * The executor

    [ExecutorState] of [tensorflow/core/common_runtime/executor.cc] on a graph without
    loops, so that there is one frame, the root frame, with one iteration.  A [Thread] is a
    closure that a runner or a device executes, at one of the points where other threads
    can come between; [step t] lets the thread [t] go on to its next point.

    The kernels are a parameter: a node runs at most once in a step, so that a function of
    the node gives what its kernel does whatever else that depends on; another step may
    have another function.  References, frames
    of loops, statistics, logging and [node_outputs_cb] are left out.  Where the code would
    use memory that is deleted, or that lies outside of an array, the step is [None]. *)
From S2P Require Import Prelude Numbers Status DeviceNames Graph PendingCounts DataTypes Activation Dataflow.
Local Open Scope Z_scope.

(** ** The queue of a thread *)

(** [TaggedNodeReadyQueue]. *)
Record ReadyQueue := mkQueue { ready_ : list TaggedNode; front_index_ : nat }.

Definition empty_queue : ReadyQueue := mkQueue [] 0.

Definition push_back (n : TaggedNode) (q : ReadyQueue) : ReadyQueue := mkQueue (ready_ q ++ [n]) (front_index_ q).

Definition front (q : ReadyQueue) : option TaggedNode := ready_ q !! front_index_ q.

Definition pop_front (q : ReadyQueue) : ReadyQueue :=
  let i := S (front_index_ q) in
  if (i =? length (ready_ q))%nat || (16384 <? Z.of_nat i) then
    if (i =? length (ready_ q))%nat then mkQueue [] 0 else mkQueue (drop i (ready_ q)) 0
  else mkQueue (ready_ q) i.

Definition queue_empty (q : ReadyQueue) : bool := bool_decide (ready_ q = []).

(** What is in the queue. *)
Definition queued (q : ReadyQueue) : list TaggedNode := drop (front_index_ q) (ready_ q).

Definition queue_ok (q : ReadyQueue) : Prop := ready_ q = [] ∧ front_index_ q = 0%nat ∨ (front_index_ q < length (ready_ q))%nat.

Lemma push_back_queued n q : queue_ok q → queue_ok (push_back n q) ∧ queued (push_back n q) = queued q ++ [n].
Proof.
  destruct q as [r i]. unfold queue_ok, push_back, queued. cbn [ready_ front_index_]. rewrite length_app. cbn [length].
  intros [[-> ->]|Hi]; split; try done; [right; cbn; lia | right; lia|]. rewrite drop_app_le by lia. done.
Qed.

Lemma queue_empty_queued q : queue_ok q → queue_empty q = bool_decide (queued q = []).
Proof.
  destruct q as [r i]. unfold queue_ok, queue_empty, queued. cbn [ready_ front_index_]. intros [[-> ->]|Hi]; [done|].
  apply bool_decide_ext. split; [intros ->; cbn in Hi; lia|]. intros Hd%(f_equal length). rewrite length_drop in Hd. cbn in Hd. lia.
Qed.

Lemma front_queued q : queue_ok q → front q = head (queued q).
Proof. destruct q as [r i]. unfold front, queued. cbn [ready_ front_index_]. intros _. by rewrite head_lookup, lookup_drop, Nat.add_0_r. Qed.

Lemma pop_front_queued q : queue_ok q → queued q ≠ [] → queue_ok (pop_front q) ∧ queued (pop_front q) = tail (queued q).
Proof.
  destruct q as [r i]. unfold queue_ok, pop_front, queued. cbn [ready_ front_index_]. intros [[-> ->]|Hi]; [done|]. intros _.
  assert (Ht : tail (drop i r) = drop (S i) r).
  { destruct (lookup_lt_is_Some_2 r i Hi) as [x Hx]. by rewrite (drop_S _ _ _ Hx). }
  rewrite Ht. destruct (Nat.eqb_spec (S i) (length r)) as [El|El]; cbn [orb].
  - cbn [ready_ front_index_]. split; [by left|]. rewrite (drop_ge r) by lia. done.
  - destruct (16384 <? Z.of_nat (S i)); cbn [ready_ front_index_]; [|split; [right; lia|done]].
    rewrite drop_0. split; [right; rewrite length_drop; lia|done].
Qed.

(** ** Kernels *)

(** What a kernel leaves in its context: the status, the outputs that are set and whether
    they are dead. *)
Record KernelResult {T : Type} := mkResult { kr_status : Status; kr_outputs : list (option T); is_output_dead : bool }.
Arguments KernelResult : clear implicits.

Definition int_string (i : nat) : string := String.string_of_list_ascii (FastInt32ToBufferLeft (Z.of_nat i)).
Definition type_string (t : Z) : string := String.string_of_list_ascii (DataTypeString t).

(** [AttachDef]. *)
Definition AttachDef (s : Status) (item : NodeItem) : Status :=
  AppendToMessage s (" [[Node: " +:+ def_summary item +:+ "]]").

Definition newline : string := String (ascii_of_nat 10) "".

Section kernels.
Context {T : Type} (kEmptyTensor : T) (dtype : T → Z).

(** The loop of [PrepareInputs] from the input [i] on: the status, the tensors for the
    kernel, [is_input_dead], and the entries afterwards. *)
Fixpoint PrepareInputs (item : NodeItem) (i : nat) (entries : list (option T)) : Status * list (option T) * bool * list (option T) :=
  match entries with
  | [] => (StatusOK, [], false, [])
  | None :: entries =>
      let '(s, inputs, dead, after) := PrepareInputs item (S i) entries in
      if is_merge item then (s, None :: inputs, dead, None :: after)
      else (s, Some kEmptyTensor :: inputs, true, Some kEmptyTensor :: after)
  | Some v :: entries =>
      if IsRefType (nth i (input_types item) 0) then
        (AttachDef (InvalidArgument (int_string i +:+ "-th input expects a ref type")) item, [], false, Some v :: entries)
      else
        let '(s, inputs, dead, after) := PrepareInputs item (S i) entries in
        (s, Some v :: inputs, dead, Some v :: after)
  end.

(** The loop of [ProcessOutputs] over [n] outputs, from the output [i] on. *)
Fixpoint process_outputs (item : NodeItem) (r : KernelResult T) (n i : nat) (s : Status) : Status * list (option T) :=
  match n with
  | O => (s, [])
  | S n =>
      let '(s, out) :=
        match (if is_output_dead r then None else mjoin (kr_outputs r !! i)) with
        | None =>
            (if is_switch_or_recv item then s
             else Update s (Internal ("Missing " +:+ int_string i +:+ "-th output from " +:+ node_summary item)), None)
        | Some v =>
            if dtype v =? nth i (output_types item) 0 then (s, Some v)
            else (Update s (Internal ("Output " +:+ int_string i +:+ " of type " +:+ type_string (dtype v) +:+
              " does not match declared output type " +:+ type_string (nth i (output_types item) 0) +:+ " for node " +:+ node_summary item)), None)
        end in
      let '(s, outs) := process_outputs item r n (S i) s in (s, out :: outs)
  end.

Definition oom_hint : string :=
  newline +:+ "Hint: If you want to see a list of allocated tensors when OOM happens, add report_tensor_allocations_upon_oom to RunOptions for current allocation info." +:+ newline.

Definition ProcessOutputs (item : NodeItem) (r : KernelResult T) : Status * list (option T) :=
  if ok (kr_status r) then process_outputs item r (num_outputs item) 0 StatusOK
  else
    let s := AttachDef (kr_status r) item in
    (if decide (code s = RESOURCE_EXHAUSTED) then StatusError (code s) (error_message s +:+ oom_hint) else s,
     replicate (num_outputs item) None).
End kernels.

(** ** Frames *)

Section executor.
Context {T : Type} (moved kEmptyTensor : T) (dtype : T → Z).
Context {C : Type} `{NC : NodeCounter C}.
Context (node : nat → option NodeItem).
Context (kernel : nat → list (option T) → bool → KernelResult T).
(** [sync_on_finish_], and what [Device::Sync] returns. *)
Context (sync_on_finish : bool) (device_sync : Status).

#[local] Abbreviation IterationState := (@IterationState T C).

(** A frame of which only the iteration 0 is started; [None] when that is deleted. *)
Record FrameState := mkFrame {
  num_pending_inputs : Z;
  num_outstanding_iterations : Z;
  iteration0 : option IterationState }.

Definition IsFrameDone (f : FrameState) : bool := (num_pending_inputs f =? 0) && (num_outstanding_iterations f =? 0).

Definition IsIterationDone (f : FrameState) (it : IterationState) : bool :=
  (outstanding_ops it =? 0) && (outstanding_frame_count it =? 0) && (num_pending_inputs f =? 0).

(** With [iteration_count] 0 and no [next_iter_roots]. *)
Definition CleanupIterations (f : FrameState) (it : IterationState) : bool * FrameState :=
  let f :=
    if IsIterationDone f it then mkFrame (num_pending_inputs f) (num_outstanding_iterations f - 1) None
    else mkFrame (num_pending_inputs f) (num_outstanding_iterations f) (Some it) in
  (IsFrameDone f, f).

Definition DecrementOutstandingOps (f : FrameState) : option (bool * FrameState) :=
  it ← iteration0 f;
  let it := mkIter (input_tensors it) (counts it) (u64 (outstanding_ops it - 1)) (outstanding_frame_count it) in
  Some (if outstanding_ops it =? 0 then CleanupIterations f it
        else (false, mkFrame (num_pending_inputs f) (num_outstanding_iterations f) (Some it))).

(** ** Threads *)

(** The variables of [Process] that are kept from node to node; the callback of an
    asynchronous kernel has no [inline_ready]. *)
Record Local := mkLocal {
  l_status : Status;
  l_completed : bool;
  l_ready : list TaggedNode;
  l_inline : option ReadyQueue }.

Inductive Thread :=
  | TLoop (l : Local)                                                   (* at the test of the loop *)
  | TAsync (n : TaggedNode) (inputs : list (option T)) (is_input_dead : bool) (* an asynchronous kernel *)
  | TPropagate (n : TaggedNode) (outputs : list (option T)) (l : Local) (* before [PropagateOutputs] *)
  | TNote (node : nat) (l : Local)                                      (* in [NodeDone], with an error *)
  | TCount (node : nat) (l : Local)                                     (* in [NodeDone], before the count *)
  | TFinish.                                                            (* before [Finish] *)

(** A call of a kernel. *)
Record Call := mkCall { call_node : nat; call_inputs : list (option T); call_dead : bool }.

(** The state of a step. *)
Record ExecutorState := mkState {
  root_frame : option FrameState;
  num_outstanding_ops : Z;
  status_ : Status;
  aborts : list Status;                (* the calls of [StartAbort] and [StartCancel] *)
  deleted : bool;
  done_calls : list Status }.          (* the calls of [done_cb_] *)

(** What has happened: the calls of kernels, the nodes whose outputs were propagated, and
    the nodes whose processing gave an error. *)
Record Trace := mkTrace { calls : list Call; log : list (@Event T); failed : list nat }.

Record System := mkSystem { state : ExecutorState; trace : Trace; threads : list Thread }.

Definition set_frame (f : option FrameState) (st : ExecutorState) : ExecutorState :=
  mkState f (num_outstanding_ops st) (status_ st) (aborts st) (deleted st) (done_calls st).
Definition set_count (n : Z) (st : ExecutorState) : ExecutorState :=
  mkState (root_frame st) n (status_ st) (aborts st) (deleted st) (done_calls st).

(** A closure that calls [Process]. *)
Definition process_thread (n : TaggedNode) : Thread := TLoop (mkLocal StatusOK false [] (Some (push_back n empty_queue))).

(** ** [Process] *)

(** The input tensors of a node; [None] if they do not all lie in the array. *)
Definition first_inputs (item : NodeItem) (tensors : list (option T)) : option (list (option T)) :=
  if (input_start item + num_inputs item <=? length tensors)%nat
  then Some (take (num_inputs item) (drop (input_start item) tensors)) else None.

Definition put_inputs (item : NodeItem) (entries tensors : list (option T)) : list (option T) :=
  take (input_start item) tensors ++ entries ++ drop (input_start item + num_inputs item) tensors.

(** [ClearVal] on each of them. *)
Definition clear_inputs (item : NodeItem) (tensors : list (option T)) : list (option T) :=
  put_inputs item (replicate (num_inputs item) None) tensors.

Definition set_tensors (f : FrameState) (it : IterationState) (tensors : list (option T)) : FrameState :=
  mkFrame (num_pending_inputs f) (num_outstanding_iterations f)
    (Some (mkIter tensors (counts it) (outstanding_ops it) (outstanding_frame_count it))).

Definition Result : Type := list Thread * ExecutorState * Trace.

(** After the computation of a node, its inputs are cleared; it goes on to propagate or, if
    the status [s] is an error, to [NodeDone]. *)
Definition after_compute (n : TaggedNode) (item : NodeItem) (s : Status) (outputs : list (option T)) (l : Local)
    (f : FrameState) (it : IterationState) (st : ExecutorState) (tr : Trace) : Result :=
  let l := mkLocal s (l_completed l) (l_ready l) (l_inline l) in
  let st := set_frame (Some (set_tensors f it (clear_inputs item (input_tensors it)))) st in
  if ok s then ([TPropagate n outputs l], st, tr)
  else ([TNote (tn_node n) l], st, mkTrace (calls tr) (log tr) (failed tr ++ [tn_node n])).

(** The body of the loop for the node [n]; [l] has the queue without it. *)
Definition process_node (n : TaggedNode) (l : Local) (st : ExecutorState) (tr : Trace) : option Result :=
  item ← node (tn_node n);
  f ← root_frame st;
  it ← iteration0 f;
  entries ← first_inputs item (input_tensors it);
  if tn_dead n && negb (is_transfer item) then
    Some (after_compute n item (l_status l) (replicate (num_outputs item) None) l f it st tr)
  else
    let '(s, inputs, is_input_dead, entries) := PrepareInputs kEmptyTensor item 0 entries in
    if negb (ok s) then Some (after_compute n item s [] l f it st tr)
    else
      let tr := mkTrace (calls tr ++ [mkCall (tn_node n) inputs is_input_dead]) (log tr) (failed tr) in
      if kernel_is_async item then
        Some ([TLoop (mkLocal s (l_completed l) (l_ready l) (l_inline l)); TAsync n inputs is_input_dead],
              set_frame (Some (set_tensors f it (put_inputs item entries (input_tensors it)))) st, tr)
      else
        let '(s, outputs) := ProcessOutputs dtype item (kernel (tn_node n) inputs is_input_dead) in
        Some (after_compute n item s outputs l f it st tr).

(** The callback [done] of an asynchronous kernel, up to [PropagateOutputs]. *)
Definition async_done (n : TaggedNode) (inputs : list (option T)) (is_input_dead : bool) (st : ExecutorState) (tr : Trace) : option Result :=
  item ← node (tn_node n);
  f ← root_frame st;
  it ← iteration0 f;
  _ ← first_inputs item (input_tensors it);
  let '(s, outputs) := ProcessOutputs dtype item (kernel (tn_node n) inputs is_input_dead) in
  Some (after_compute n item s outputs (mkLocal StatusOK false [] None) f it st tr).

(** ** [PropagateOutputs] *)

(** The lock of the frame is held.  A frame that is done is deleted: it has no parent. *)
Definition PropagateOutputs (n : TaggedNode) (outputs : list (option T)) (st : ExecutorState) : option (list TaggedNode * ExecutorState) :=
  item ← node (tn_node n);
  if is_enter_exit_or_next_iter item then None else
  f ← root_frame st;
  it ← iteration0 f;
  '(ready, it) ← ActivateNodes moved node item (tn_dead n) outputs [] it;
  '(is_frame_done, f) ← DecrementOutstandingOps (mkFrame (num_pending_inputs f) (num_outstanding_iterations f) (Some it));
  Some (ready, set_frame (if is_frame_done : bool then None else Some f) st).

Definition propagate (n : TaggedNode) (outputs : list (option T)) (l : Local) (st : ExecutorState) (tr : Trace) : option Result :=
  '(ready, st) ← PropagateOutputs n outputs st;
  Some ([TCount (tn_node n) (mkLocal (l_status l) (l_completed l) ready (l_inline l))], st,
        mkTrace (calls tr) (log tr ++ [mkEvent (tn_node n) (tn_dead n) outputs]) (failed tr)).

(** ** [NodeDone] and [ScheduleReady] *)

(** The first error is kept, and aborts the run. *)
Definition note_error (s : Status) (st : ExecutorState) : ExecutorState :=
  if ok (status_ st) then mkState (root_frame st) (num_outstanding_ops st) s (aborts st ++ [s]) (deleted st) (done_calls st) else st.

(** The loop of [ScheduleReady], with [curr_expensive_node]: the queue and the nodes that
    are given to the runner. *)
Fixpoint schedule_loop (ready : list TaggedNode) (curr : option TaggedNode) (q : ReadyQueue) (spawned : list TaggedNode)
    : option (option TaggedNode * ReadyQueue * list TaggedNode) :=
  match ready with
  | [] => Some (curr, q, spawned)
  | n :: ready =>
      item ← node (tn_node n);
      if tn_dead n || negb (kernel_is_expensive item) then schedule_loop ready curr (push_back n q) spawned
      else schedule_loop ready (Some n) q (match curr with Some c => spawned ++ [c] | None => spawned end)
  end.

Definition ScheduleReady (ready : list TaggedNode) (inline_ready : option ReadyQueue) : option (option ReadyQueue * list TaggedNode) :=
  match inline_ready with
  | None => Some (None, ready)
  | Some q =>
      '(curr, q, spawned) ← schedule_loop ready None q [];
      Some (match curr with
            | Some c => if queue_empty q then (Some (push_back c q), spawned) else (Some q, spawned ++ [c])
            | None => (Some q, spawned)
            end)
  end.

(** The rest of [NodeDone]. *)
Definition node_done (l : Local) (st : ExecutorState) (tr : Trace) : option Result :=
  let n := num_outstanding_ops st in
  let ready_size := Z.of_nat (length (l_ready l)) in
  let '(completed, n) :=
    if (ready_size =? 0) || negb (ok (l_status l)) then (n =? 1, i32 (n - 1))
    else (false, if 1 <? ready_size then i32 (n + (ready_size - 1)) else n) in
  '(inline, spawned) ← (if ok (l_status l) then ScheduleReady (l_ready l) (l_inline l) else Some (l_inline l, []));
  Some (TLoop (mkLocal (l_status l) completed (l_ready l) inline) :: (process_thread <$> spawned), set_count n st, tr).

(** ** [Finish] *)

Definition Finish (st : ExecutorState) : ExecutorState :=
  let status := if sync_on_finish && ok (status_ st) then device_sync else status_ st in
  mkState None (num_outstanding_ops st) (status_ st) (aborts st) true (done_calls st ++ [status]).

(** ** Steps *)

(** What a thread does next, unless it leaves the loop. *)
Definition run_thread (th : Thread) (st : ExecutorState) (tr : Trace) : option Result :=
  match th with
  | TLoop l =>
      match l_inline l with
      | Some q => n ← front q; process_node n (mkLocal (l_status l) (l_completed l) (l_ready l) (Some (pop_front q))) st tr
      | None => None
      end
  | TAsync n inputs is_input_dead => async_done n inputs is_input_dead st tr
  | TPropagate n outputs l => propagate n outputs l st tr
  | TNote n l => Some ([TCount n l], note_error (l_status l) st, tr)
  | TCount _ l => node_done l st tr
  | TFinish => Some ([], Finish st, tr)
  end.

(** Does a thread leave the loop?  It does not use the state then. *)
Definition leaves (th : Thread) : option Local :=
  match th with
  | TLoop l => match l_inline l with Some q => if queue_empty q then Some l else None | None => Some l end
  | _ => None
  end.

Definition step (t : nat) (sys : System) : option System :=
  th ← threads sys !! t;
  match leaves th with
  | Some l => Some (mkSystem (state sys) (trace sys) ((if l_completed l then [TFinish] else []) ++ delete t (threads sys)))
  | None =>
      if deleted (state sys) then None
      else
        '(new, st, tr) ← run_thread th (state sys) (trace sys);
        Some (mkSystem st tr (new ++ delete t (threads sys)))
  end.

Fixpoint run (schedule : list nat) (sys : System) : option System :=
  match schedule with
  | [] => Some sys
  | t :: schedule => sys ← step t sys; run schedule sys
  end.

(** ** [RunAsync] *)

(** The constructor of the state, with the initial counts [c] of the root frame. *)
Definition new_ExecutorState (total_inputs : nat) (c : C) : ExecutorState :=
  mkState (Some (mkFrame 0 1 (Some (mkIter (replicate total_inputs None) c 0 0)))) 0 StatusOK [] false [].

(** [fill_status] is what [FillContextMap] returns. *)
Definition RunAsync (fill_status : Status) (root_nodes : list nat) (st : ExecutorState) : option System :=
  let return_with s := mkState (root_frame st) (num_outstanding_ops st) (status_ st) (aborts st) (deleted st) (done_calls st ++ [s]) in
  if negb (ok fill_status) then Some (mkSystem (return_with fill_status) (mkTrace [] [] []) [])
  else
    let ready := (λ n, mkTagged n false) <$> root_nodes in
    match ready with
    | [] => Some (mkSystem (return_with StatusOK) (mkTrace [] [] []) [])
    | _ =>
        f ← root_frame st;
        it ← iteration0 f;
        let n := Z.of_nat (length ready) in
        let f := mkFrame (num_pending_inputs f) (num_outstanding_iterations f)
          (Some (mkIter (input_tensors it) (counts it) n (outstanding_frame_count it))) in
        '(_, spawned) ← ScheduleReady ready None;
        Some (mkSystem (set_count (i32 n) (set_frame (Some f) st)) (mkTrace [] [] []) (process_thread <$> spawned))
    end.

(** Where [done] is called at once, the state is not deleted, and no thread is left that
    could delete it. *)
Lemma RunAsync_leaks fill_status root_nodes st sys :
  RunAsync fill_status root_nodes st = Some sys → ok fill_status = false ∨ root_nodes = [] → deleted st = false →
  threads sys = [] ∧ deleted (state sys) = false ∧ done_calls (state sys) = done_calls st ++ [if ok fill_status then StatusOK else fill_status].
Proof.
  unfold RunAsync. intros E Hor Hd. destruct (ok fill_status) eqn:Ef; cbn [negb] in E; [destruct Hor as [|Hr]; [done|subst root_nodes; cbn in E]|]; injection E as <-; done.
Qed.
End executor.
