(* ===== verification/Propagation.v ===== *)
(** * Propagation along edges

    [ActivateNodes] of [tensorflow/core/common_runtime/executor.cc] against the dataflow
    semantics: the counts and the input tensors of an iteration stand for a list of
    arrivals, and the nodes that are reported as ready are those that the arrivals make
    active, with their deadness. *)
From S2P Require Import Prelude Status Graph PendingCounts DataTypes Activation Dataflow Executor.
Local Open Scope Z_scope.

Section propagation.
Context {T : Type} (moved : T) {C : Type} `{NC : NodeCounter C}.
Context (node : nat → option NodeItem) (nodes : list nat) (total : nat).
Context (Hview : view_ok node nodes total max_dead).

#[local] Abbreviation Arrival := (@Arrival T).
#[local] Abbreviation IterationState := (@IterationState T C).
#[local] Abbreviation active := (active node nodes).
#[local] Abbreviation edges_into := (edges_into node nodes).
#[local] Abbreviation bounded := (bounded node nodes).
#[local] Abbreviation num_control := (num_control node nodes).
#[local] Abbreviation num_data := (num_data node nodes).

(** ** The inputs of a node *)

Lemma input_of_head it (A : list Arrival) slot :
  input_of it A slot =
    match head (filter (λ a, (if is_merge it then a_live a else negb (a_control a) && (Z.to_nat (input_slot (a_edge a)) =? slot)%nat) = true) A) with
    | Some a => if (Z.to_nat (input_slot (a_edge a)) =? slot)%nat then a_value a else None
    | None => None
    end.
Proof. unfold input_of. rewrite <- list_find_head. by destruct (list_find _ A) as [[]|]. Qed.

(** An arrival changes an input when it is needed and for that input. *)
Lemma input_of_snoc it (A : list Arrival) a slot :
  (is_merge it = false → a_control a = false → ∀ b, b ∈ A → a_control b = false → Z.to_nat (input_slot (a_edge b)) ≠ Z.to_nat (input_slot (a_edge a))) →
  input_of it (A ++ [a]) slot =
    if needs it A a && (Z.to_nat (input_slot (a_edge a)) =? slot)%nat then a_value a else input_of it A slot.
Proof.
  intros Hone. rewrite !input_of_head, filter_app, head_app. unfold needs. destruct (is_merge it).
  - destruct (any a_live A) eqn:El.
    + cbn [negb]. rewrite andb_false_r. cbn [andb]. apply any_true in El. unfold count in El.
      destruct (filter (λ a, a_live a = true) A) as [|b l]; [cbn in El; lia|done].
    + apply any_false in El. unfold count in El. apply length_zero_iff_nil in El. rewrite El. cbn [head negb]. rewrite andb_true_r, filter_cons.
      destruct (a_live a); cbn; [done|]. done.
  - rewrite filter_cons. destruct (a_control a) eqn:Ec; cbn [negb andb]; [by destruct (head _)|].
    destruct (Nat.eqb_spec (Z.to_nat (input_slot (a_edge a))) slot) as [<-|Hs]; [|by destruct (head _)].
    assert (filter (λ a0, negb (a_control a0) && (Z.to_nat (input_slot (a_edge a0)) =? Z.to_nat (input_slot (a_edge a)))%nat = true) A = []) as ->.
    { apply elem_of_nil_inv. intros b [[Hb1%negb_true_iff Hb2%Nat.eqb_eq]%andb_true_iff Hb]%list_elem_of_filter. by apply (Hone eq_refl eq_refl b). }
    rewrite decide_True by done. cbn. by rewrite Nat.eqb_refl.
Qed.

(** ** An iteration after some arrivals *)

Definition runs (d : nat) (item : NodeItem) : Prop := is_sink item = false ∨ edges_into d = [].

(** The iteration stands for the arrivals [S]; [X] are the nodes that took their inputs. *)
Record iter_ok (S : list Arrival) (X : list nat) (it : IterationState) : Prop := {
  io_counts : ∃ m, counts_rep (counts it) m ∧ ∀ d item, node d = Some item → is_sink item = false →
    ∃ s, m !! pending_id item = Some s ∧ counts_for item (num_control d) (num_data d) (arrived_at d S) s;
  io_length : length (input_tensors it) = total;
  io_inputs : ∀ d item i, node d = Some item → runs d item → d ∉ X → (i < num_inputs item)%nat →
    input_tensors it !! (input_start item + i)%nat = Some (input_of item (arrived_at d S) i);
  io_frames : outstanding_frame_count it = 0 }.

(** [ready] are the nodes that became active from [S] to [S']. *)
Record newly (S S' : list Arrival) (ready : list TaggedNode) : Prop := {
  nw_nodup : NoDup (tn_node <$> ready);
  nw_active : ∀ d, d ∈ tn_node <$> ready ↔ active S d = false ∧ active S' d = true;
  nw_dead : ∀ n item, n ∈ ready → node (tn_node n) = Some item → tn_dead n = dead_of item (arrived_at (tn_node n) S') }.

Lemma newly_nil S : newly S S [].
Proof. split; [constructor| |by intros n item ?%elem_of_nil]. intros d. cbn. rewrite elem_of_nil. intuition congruence. Qed.

Lemma newly_app S S1 X r1 r2 : bounded (S1 ++ X) → newly S S1 r1 → newly S1 (S1 ++ X) r2 →
  (∀ d, active S d = true → active S1 d = true) → newly S (S1 ++ X) (r1 ++ r2).
Proof.
  intros Hb [N1 A1 D1] [N2 A2 D2] Hmono.
  assert (Hst : ∀ d, active S1 d = true → active (S1 ++ X) d = true) by (intros d Hd; by destruct (active_stable node nodes S1 X d Hb Hd)).
  split.
  - rewrite fmap_app. apply NoDup_app. split_and!; [done| |done]. intros d [_ H1]%A1 [H2 _]%A2. congruence.
  - intros d. rewrite fmap_app, elem_of_app, A1, A2. specialize (Hst d). specialize (Hmono d).
    destruct (active S d), (active S1 d), (active (S1 ++ X) d); intuition congruence.
  - intros n item [Hn|Hn]%elem_of_app Hd; [|by apply D2]. rewrite (D1 n item Hn Hd). symmetry.
    assert (Ha : active S1 (tn_node n) = true) by (apply (A1 (tn_node n)); by apply list_elem_of_fmap_2).
    by apply (active_stable node nodes S1 X (tn_node n) Hb Ha).
Qed.

Lemma arrived_other d S (a : Arrival) : dst_id (a_edge a) ≠ d → arrived_at d (S ++ [a]) = arrived_at d S.
Proof. intros Hd. rewrite arrived_app. unfold arrived_at at 2. rewrite filter_cons_False by done. apply app_nil_r. Qed.

Lemma arrived_same d S (a : Arrival) : dst_id (a_edge a) = d → arrived_at d (S ++ [a]) = arrived_at d S ++ [a].
Proof. intros Hd. rewrite arrived_app. unfold arrived_at at 2. by rewrite filter_cons_True. Qed.

Lemma active_other d S (a : Arrival) : dst_id (a_edge a) ≠ d → active (S ++ [a]) d = active S d.
Proof. intros Hd. unfold Dataflow.active. by rewrite arrived_other. Qed.

Lemma bounded_edge S (a : Arrival) : bounded (S ++ [a]) → a_edge a ∈ edges_into (dst_id (a_edge a)).
Proof.
  intros Hb. apply list_elem_of_filter. split; [done|]. eapply elem_of_submseteq; [|exact Hb]. rewrite fmap_app. apply elem_of_app. right. by left.
Qed.

(** The slots of the data edges into a node that have arrived are different. *)
Lemma slots_distinct S (a : Arrival) b : bounded (S ++ [a]) → a_control a = false → b ∈ arrived_at (dst_id (a_edge a)) S → a_control b = false →
  Z.to_nat (input_slot (a_edge b)) ≠ Z.to_nat (input_slot (a_edge a)).
Proof.
  intros Hb Ha Hin Hbc. apply (arrived_bounded node nodes (dst_id (a_edge a))) in Hb. rewrite arrived_same in Hb by done.
  apply (submseteq_filter (λ e, is_control e = false)) in Hb. apply (fmap_submseteq (λ e, Z.to_nat (input_slot e))) in Hb.
  apply submseteq_Permutation in Hb as [rest Hb]. pose proof (v_slots _ _ _ _ Hview (dst_id (a_edge a))) as Hs. rewrite Hb in Hs. apply NoDup_app in Hs as (Hs&_).
  rewrite fmap_app, filter_app, fmap_app in Hs. apply NoDup_app in Hs as (_&Hdis&_).
  intros Eq. apply (Hdis (Z.to_nat (input_slot (a_edge b)))).
  - apply list_elem_of_fmap. exists (a_edge b). split; [done|]. apply list_elem_of_filter. split; [done|]. by apply list_elem_of_fmap_2.
  - rewrite Eq. cbn [fmap list_fmap]. rewrite filter_cons_True by done. by left.
Qed.

(** No arrival is for a sink that runs. *)
Lemma arrival_not_sink S (a : Arrival) item : bounded (S ++ [a]) → runs (dst_id (a_edge a)) item → is_sink item = false.
Proof. intros Hb [Hs|Hs]; [done|]. apply bounded_edge in Hb. rewrite Hs in Hb. by apply elem_of_nil in Hb. Qed.

(** ** One edge *)

(** What comes of an arrival that is counted, at a node that is no sink. *)
Lemma counted S X it (a : Arrival) dst_item c' s' m tensors ops :
  iter_ok S X it → bounded (S ++ [a]) → node (dst_id (a_edge a)) = Some dst_item → is_sink dst_item = false →
  counts_rep (counts it) m →
  (∀ d item, node d = Some item → is_sink item = false →
    ∃ s, m !! pending_id item = Some s ∧ counts_for item (num_control d) (num_data d) (arrived_at d S) s) →
  counts_rep c' (<[pending_id dst_item := s']> m) →
  counts_for dst_item (num_control (dst_id (a_edge a))) (num_data (dst_id (a_edge a))) (arrived_at (dst_id (a_edge a)) S ++ [a]) s' →
  tensors = (if needs dst_item (arrived_at (dst_id (a_edge a)) S) a
    then <[(input_start dst_item + Z.to_nat (input_slot (a_edge a)))%nat := a_value a]> (input_tensors it) else input_tensors it) →
  iter_ok (S ++ [a]) X (mkIter tensors c' ops (outstanding_frame_count it)).
Proof.
  intros [_ Hlen Hin Hfr] Hb Hdst Hsink Hrep Hm Hrep' Hfor ->. split; cbn [counts input_tensors outstanding_frame_count]; [| |intros d item i Hd Hr HX Hi|done].
  - exists (<[pending_id dst_item := s']> m). split; [done|]. intros d item Hd Hs. destruct (decide (dst_id (a_edge a) = d)) as [<-|Hne].
    + rewrite Hdst in Hd. injection Hd as <-. exists s'. by rewrite lookup_insert_eq, arrived_same.
    + rewrite arrived_other, lookup_insert_ne by (done || intros E; by apply Hne, (v_pending _ _ _ _ Hview _ _ _ _ Hdst Hd)). by apply Hm.
  - destruct (needs _ _ _); [by rewrite length_insert|done].
  - destruct (decide (dst_id (a_edge a) = d)) as [<-|Hne].
    + rewrite Hdst in Hd. injection Hd as <-. rewrite arrived_same by done. rewrite input_of_snoc by (intros _ Hc b Hbin Hbc; by eapply slots_distinct).
      destruct (needs _ _ _); cbn [andb]; [|by apply Hin]. destruct (Nat.eqb_spec (Z.to_nat (input_slot (a_edge a))) i) as [->|Hni].
      * apply list_lookup_insert_eq. pose proof (v_total _ _ _ _ Hview _ _ Hdst). lia.
      * rewrite list_lookup_insert_ne by lia. by apply Hin.
    + rewrite arrived_other by done. destruct (needs _ _ _) eqn:En; [|by apply Hin]. rewrite list_lookup_insert_ne; [by apply Hin|].
      assert (Hc : is_control (a_edge a) = false).
      { unfold needs, a_live, a_control in En. by destruct (is_merge dst_item), (is_control (a_edge a)). }
      intros E. apply Hne. apply (v_regions _ _ _ _ Hview _ _ _ _ (Z.to_nat (input_slot (a_edge a))) i Hdst Hd); [|done|done].
      apply (v_input _ _ _ _ Hview _ _ _ Hdst); [by apply bounded_edge in Hb|done].
Qed.

(** The ready node of an arrival. *)
Lemma newly_one S (a : Arrival) dst_item : let d := dst_id (a_edge a) in
  bounded (S ++ [a]) → node d = Some dst_item → is_sink dst_item = false →
  newly S (S ++ [a])
    (if negb (fired dst_item (num_control d) (num_data d) (arrived_at d S)) && fired dst_item (num_control d) (num_data d) (arrived_at d S ++ [a])
     then [mkTagged d (dead_of dst_item (arrived_at d S ++ [a]))] else []).
Proof.
  intros d Hb Hd Hs.
  assert (Ha : ∀ S : list Arrival, active S d = fired dst_item (num_control d) (num_data d) (arrived_at d S)) by (intros S0; unfold Dataflow.active; by rewrite Hd, Hs).
  rewrite <- (arrived_same d S a eq_refl), <- !Ha.
  assert (Hother : ∀ d', d' ≠ d → active (S ++ [a]) d' = active S d') by (intros d' Hne; by apply active_other).
  split.
  - destruct (_ && _); [apply NoDup_singleton | constructor].
  - intros d'. destruct (decide (d' = d)) as [->|Hne].
    + destruct (active S d), (active (S ++ [a]) d); cbn; rewrite ?elem_of_nil, ?list_elem_of_singleton; intuition congruence.
    + rewrite (Hother d' Hne). destruct (_ && _); cbn; rewrite ?elem_of_nil, ?list_elem_of_singleton; destruct (active S d'); intuition congruence.
  - intros n item Hn Hitem. destruct (_ && _); [|by apply elem_of_nil in Hn]. apply list_elem_of_singleton in Hn as ->. cbn in *.
    rewrite Hd in Hitem. by injection Hitem as <-.
Qed.

Lemma activate_edge_ok item n ev e S X it outs ready : let a := arrival ev e in
  node n = Some item → e ∈ output_edges item → bounded (S ++ [a]) → iter_ok S X it →
  (is_control e = false → outs !! Z.to_nat (output_slot e) = Some (a_value a)) →
  is_u64 (outstanding_ops it + 1) →
  ∃ outs' new it', activate_edge moved node item (ev_dead ev) e (outs, ready, it) = Some (outs', ready ++ new, it') ∧
    iter_ok (S ++ [a]) X it' ∧ newly S (S ++ [a]) new ∧ outstanding_ops it' = outstanding_ops it + Z.of_nat (length new) ∧
    ∀ k, (is_last e = true → is_control e = false → k ≠ Z.to_nat (output_slot e)) → outs' !! k = outs !! k.
Proof.
  intros a Hn He Hb Hok Houts Hops. destruct (v_dst _ _ _ _ Hview _ _ _ Hn He) as [dst_item Hdst]. unfold activate_edge. rewrite Hdst. cbn [mbind option_bind].
  destruct (is_sink dst_item) eqn:Hs.
  { exists outs, [], it. rewrite app_nil_r. split; [done|].
    assert (Hno : ∀ d item', node d = Some item' → runs d item' → arrived_at d (S ++ [a]) = arrived_at d S).
    { intros d item' Hd Hr. apply arrived_other. intros <-. change (dst_id (a_edge a)) with (dst_id e) in Hd. rewrite Hdst in Hd. injection Hd as <-.
      rewrite (arrival_not_sink S a dst_item Hb Hr) in Hs. done. }
    split_and!; [|  |cbn; lia|done].
    - destruct Hok as [(m&Hm1&Hm2) Hlen Hin Hfr]. split; [|done| |done].
      + exists m. split; [done|]. intros d item' Hd Hs'. rewrite (Hno d item' Hd) by (by left). by apply Hm2.
      + intros d item' i Hd Hr. rewrite (Hno d item' Hd Hr). by apply Hin.
    - split; [constructor| |by intros ?? ?%elem_of_nil]. intros d. cbn. rewrite elem_of_nil. split; [done|]. intros [H1 H2].
      apply active_node in H2 as (item'&Hd&Hr&Hf). rewrite (Hno d item' Hd Hr) in Hf. rewrite (node_active node nodes S d item' Hd Hr Hf) in H1. done. }
  assert (Hsrc : (if is_control e then Some None else outs !! Z.to_nat (output_slot e)) = Some (a_value a)).
  { destruct (is_control e) eqn:Ec; [|by apply Houts]. cbn. by rewrite Ec. }
  rewrite Hsrc. cbn [mbind option_bind]. destruct (io_counts _ _ _ Hok) as (m&Hrep&Hm). destruct (Hm _ _ Hdst Hs) as (s&Hms&Hfor).
  assert (Hw : within (num_control (dst_id e)) (num_data (dst_id e)) (arrived_at (dst_id e) S ++ [a])).
  { rewrite <- (arrived_same (dst_id e) S a eq_refl). by apply bounded_within. }
  destruct (count_arrival_ok item dst_item (counts it) m s (num_control (dst_id e)) (num_data (dst_id e)) (arrived_at (dst_id e) S) a Hrep Hms Hfor Hw) as (r&c'&s'&E&Hrep'&Hfor'&[Hr Hrd Hrn]).
  { by apply (v_limit _ _ _ _ Hview). } { intros Hmerge. by apply (v_merge _ _ _ _ Hview). } { by apply (v_frames _ _ _ _ Hview _ _ Hn). }
  change (a_edge a) with e in E. change (a_dead a) with (ev_dead ev) in E. rewrite E. destruct r as [[dd rd] need]. cbn [fst snd mbind option_bind] in *. subst need.
  pose proof (counted S X it a dst_item c' s' m _ (outstanding_ops it + Z.of_nat (length (if rd then [dst_id e] else []))) Hok Hb Hdst Hs Hrep Hm Hrep' Hfor' eq_refl) as Hok'.
  pose proof (newly_one S a dst_item Hb Hdst Hs) as Hnew. cbn zeta in Hnew. change (dst_id (a_edge a)) with (dst_id e) in *. rewrite <- Hr in Hnew.
  set (loc := (input_start dst_item + Z.to_nat (input_slot e))%nat) in *. change (a_edge a) with e in Hok'. fold loc in Hok'.
  assert (Hloc : needs dst_item (arrived_at (dst_id e) S) a = true → is_control e = false ∧ is_Some (input_tensors it !! loc)).
  { intros En. assert (Hc : is_control e = false) by (unfold needs, a_live, a_control in En; cbn in En; by destruct (is_merge dst_item), (is_control e)).
    split; [done|]. apply lookup_lt_is_Some. rewrite (io_length _ _ _ Hok). pose proof (v_total _ _ _ _ Hview _ _ Hdst).
    pose proof (v_input _ _ _ _ Hview _ _ e Hdst (bounded_edge S a Hb) Hc). unfold loc. lia. }
  set (need := needs dst_item (arrived_at (dst_id e) S) a) in *.
  assert (Ht : ∃ outs', (if need then _ ← input_tensors it !! loc; Some (if is_last e then <[Z.to_nat (output_slot e) := after_move moved (a_value a)]> outs else outs, <[loc := a_value a]> (input_tensors it))
      else Some (outs, input_tensors it)) = Some (outs', if need then <[loc := a_value a]> (input_tensors it) else input_tensors it) ∧
      ∀ k, (is_last e = true → is_control e = false → k ≠ Z.to_nat (output_slot e)) → outs' !! k = outs !! k).
  { destruct need; [|by exists outs]. destruct (Hloc eq_refl) as [Hc [x ->]]. cbn [mbind option_bind]. eexists. split; [done|].
    intros k Hk. destruct (is_last e); [|done]. by rewrite list_lookup_insert_ne by (intros <-; by apply Hk). }
  destruct Ht as (outs'&->&Hk). cbn [mbind option_bind]. destruct rd.
  - specialize (Hrd eq_refl). eexists outs', [_], _. split; [done|]. rewrite Hrd. cbn [length] in Hok'. rewrite u64_small by done. split_and!; [exact Hok'|exact Hnew|cbn; lia|exact Hk].
  - eexists outs', [], _. rewrite app_nil_r. split; [done|]. cbn [length] in Hok'. rewrite Z.add_0_r in Hok'. split_and!; [exact Hok'|exact Hnew|cbn; lia|exact Hk].
Qed.

(** ** All edges of a node *)

Lemma newly_length S S' ready : newly S S' ready → Z.of_nat (length ready) < 2 ^ 31.
Proof.
  intros [Hnd Ha _]. pose proof (v_count _ _ _ _ Hview). rewrite <- (length_fmap tn_node).
  assert (tn_node <$> ready ⊆+ nodes); [|pose proof (submseteq_length (tn_node <$> ready) nodes); lia].
  apply NoDup_submseteq; [done|]. intros d [_ (it&Hd&_)%active_node]%Ha. apply (v_node _ _ _ _ Hview). eauto.
Qed.

Lemma activate_edges_ok item n ev S0 X ops0 es : node n = Some item → is_u32 ops0 → ∀ before S it outs ready,
  output_edges item = before ++ es → bounded (S ++ (arrival ev <$> es)) → iter_ok S X it → newly S0 S ready →
  (∀ d, active S0 d = true → active S d = true) →
  (∀ e, e ∈ es → is_control e = false → outs !! Z.to_nat (output_slot e) = Some (a_value (arrival ev e))) →
  outstanding_ops it = ops0 + Z.of_nat (length ready) →
  ∃ outs' ready' it', activate_edges moved node item (ev_dead ev) es (outs, ready, it) = Some (outs', ready', it') ∧
    iter_ok (S ++ (arrival ev <$> es)) X it' ∧ newly S0 (S ++ (arrival ev <$> es)) ready' ∧ outstanding_ops it' = ops0 + Z.of_nat (length ready').
Proof.
  intros Hn Hu. induction es as [|e es IH]; intros before S it outs ready Hes Hb Hok Hnew Hmono Houts Hops.
  { exists outs, ready, it. cbn. by rewrite app_nil_r. }
  cbn [fmap list_fmap] in Hb. rewrite (cons_middle (arrival ev e)), (assoc app) in Hb.
  assert (Hb1 : bounded (S ++ [arrival ev e])) by (by eapply bounded_app_l).
  assert (He : e ∈ output_edges item) by (rewrite Hes; apply elem_of_app; right; by left).
  pose proof (newly_length _ _ _ Hnew) as Hlen.
  destruct (activate_edge_ok item n ev e S X it outs ready Hn He Hb1 Hok) as (outs1&new&it1&E&Hok1&Hnew1&Hops1&Hk).
  { intros Hc. apply Houts; [by left|done]. }
  { unfold is_u32, is_u64 in *. lia. }
  cbn [activate_edges]. rewrite E. cbn [mbind option_bind].
  destruct (IH (before ++ [e]) (S ++ [arrival ev e]) it1 outs1 (ready ++ new)) as (outs2&ready2&it2&E2&Hok2&Hnew2&Hops2).
  - by rewrite Hes, <- (assoc app).
  - done.
  - done.
  - by apply newly_app.
  - intros d Hd. by apply (active_stable node nodes S [arrival ev e] d Hb1), Hmono.
  - intros e' He' Hc'. rewrite Hk; [by apply Houts; [by right|]|]. intros Hlast Hc. eapply (v_last _ _ _ _ Hview); eauto.
  - rewrite length_app. lia.
  - exists outs2, ready2, it2. cbn [fmap list_fmap]. rewrite (cons_middle (arrival ev e)), (assoc app). done.
Qed.

(** [ActivateNodes]: what the event [ev] sends. *)
Lemma ActivateNodes_ok item ev S X it :
  node (ev_node ev) = Some item → bounded (S ++ sent node [ev]) → iter_ok S X it → is_u32 (outstanding_ops it) →
  length (ev_outputs ev) = num_outputs item →
  ∃ ready it', ActivateNodes moved node item (ev_dead ev) (ev_outputs ev) [] it = Some (ready, it') ∧
    iter_ok (S ++ sent node [ev]) X it' ∧ newly S (S ++ sent node [ev]) ready ∧
    outstanding_ops it' = outstanding_ops it + Z.of_nat (length ready).
Proof.
  intros Hn Hb Hok Hu Hlen. unfold ActivateNodes.
  assert (Es : sent node [ev] = arrival ev <$> output_edges item) by (unfold sent, edges_of; cbn; rewrite app_nil_r; by rewrite Hn). rewrite Es in *.
  destruct (activate_edges_ok item (ev_node ev) ev S X (outstanding_ops it) (output_edges item) Hn Hu [] S it (ev_outputs ev) [] eq_refl Hb Hok (newly_nil S))
    as (outs'&ready&it'&->&Hok'&Hnew&Hops); [done| |cbn; lia|].
  - intros e He Hc. cbn. rewrite Hc. pose proof (v_output _ _ _ _ Hview _ _ _ Hn He Hc) as Hl. rewrite <- Hlen in Hl.
    destruct (lookup_lt_is_Some_2 _ _ Hl) as [x ->]. done.
  - cbn [mbind option_bind]. by exists ready, it'.
Qed.
End propagation.
