(* ===== verification/ExecutorInvariant.v ===== *)
(** * The invariant of the executor

    The concurrent executor implements the dataflow machine: the propagated events are an
    evaluation, every active node is in exactly one place (a queue, a list of ready nodes, a
    kernel, the propagated events or the failed nodes), and the two counts of outstanding
    operations count these places.  [ghost] is a node that a thread has taken from its queue
    and that is not in any place while a step is analysed. *)
From S2P Require Import Prelude Status Graph PendingCounts DataTypes Activation Dataflow Executor Propagation.
Local Open Scope Z_scope.

Section invariant.
Context {T : Type} (moved kEmptyTensor : T) (dtype : T → Z).
Context {C : Type} `{NC : NodeCounter C}.
Context (node : nat → option NodeItem) (nodes : list nat) (total : nat).
Context (kernel : nat → list (option T) → bool → KernelResult T).
Context (sync_on_finish : bool) (device_sync : Status).
Context (Hview : view_ok node nodes total max_dead).

#[local] Abbreviation Arrival := (@Arrival T).
#[local] Abbreviation IterationState := (@IterationState T C).
#[local] Abbreviation active := (active node nodes).
#[local] Abbreviation bounded := (bounded node nodes).
#[local] Abbreviation iter_ok := (iter_ok node nodes total).
#[local] Abbreviation newly := (newly node nodes).
#[local] Abbreviation Thread := (@Thread T).
#[local] Abbreviation Trace := (@Trace T).
#[local] Abbreviation sent := (sent node).

(** ** The outcome of a node *)

(** What the processing of a node gives for its inputs. *)
Definition outcome (d : nat) (dead : bool) (ins : list (option T)) : Status * list (option T) :=
  match node d with
  | Some item =>
      if dead && negb (is_transfer item) then (StatusOK, replicate (num_outputs item) None)
      else
        let '(s, inputs, is_input_dead, _) := PrepareInputs kEmptyTensor item 0 ins in
        if negb (ok s) then (s, []) else ProcessOutputs dtype item (kernel d inputs is_input_dead)
  | None => (StatusOK, [])
  end.

#[local] Abbreviation evaluation := (evaluation node nodes outcome).

(** What a node is given after the arrivals [S]. *)
Definition given (S : list Arrival) (d : nat) (item : NodeItem) : list (option T) := inputs_for item (arrived_at d S).
Definition deadness (S : list Arrival) (d : nat) (item : NodeItem) : bool := dead_of item (arrived_at d S).

Lemma process_outputs_length item (r : KernelResult T) n : ∀ i s, length (process_outputs dtype item r n i s).2 = n.
Proof.
  induction n as [|n IH]; intros i s; cbn [process_outputs]; [done|].
  destruct (match _ with Some _ => _ | None => _ end) as [s1 out]. specialize (IH (Datatypes.S i) s1). destruct (process_outputs dtype item r n (Datatypes.S i) s1) as [s2 outs]. cbn in *. by rewrite IH.
Qed.

Lemma ProcessOutputs_length item (r : KernelResult T) : length (ProcessOutputs dtype item r).2 = num_outputs item.
Proof. unfold ProcessOutputs. destruct (ok _); [apply process_outputs_length | apply length_replicate]. Qed.

Lemma outcome_length d item dead ins outs : node d = Some item → outcome d dead ins = (StatusOK, outs) → length outs = num_outputs item.
Proof.
  unfold outcome. intros ->. destruct (dead && _); [intros [= <-]; apply length_replicate|].
  destruct (PrepareInputs _ _ _ _) as [[[s inputs] idead] after]. destruct (ok s) eqn:Es; cbn [negb]; [|by intros [= -> _]].
  intros E. rewrite <- (ProcessOutputs_length item (kernel d inputs idead)). by rewrite E.
Qed.

(** ** The places of a node *)

(** In a queue, ready, in a kernel or between it and the propagation, and in [NodeDone]. *)
Definition th_queue (th : Thread) : list TaggedNode :=
  match th with TLoop l | TPropagate _ _ l | TNote _ l | TCount _ l => from_option queued [] (l_inline l) | _ => [] end.
Definition th_ready (th : Thread) : list TaggedNode :=
  match th with TCount _ l => if ok (l_status l) then l_ready l else [] | _ => [] end.
Definition th_hot (th : Thread) : list nat :=
  match th with TAsync n _ _ | TPropagate n _ _ => [tn_node n] | _ => [] end.
Definition th_done (th : Thread) : list nat :=
  match th with TNote n _ | TCount n _ => [n] | _ => [] end.
Definition th_notes (th : Thread) : nat := match th with TNote _ _ => 1 | _ => 0 end.
Definition th_final (th : Thread) : nat := match th with TLoop l => if l_completed l then 1 else 0 | TFinish => 1 | _ => 0 end.

Definition queue_nodes (ths : list Thread) : list TaggedNode := ths ≫= th_queue.
Definition ready_nodes (ths : list Thread) : list TaggedNode := ths ≫= th_ready.
Definition hot_nodes (ths : list Thread) : list nat := ths ≫= th_hot.
Definition done_nodes (ths : list Thread) : list nat := ths ≫= th_done.
Definition notes (ths : list Thread) : nat := sum_list (th_notes <$> ths).
Definition finals (ths : list Thread) : nat := sum_list (th_final <$> ths).

(** The nodes that have taken their inputs. *)
Definition taken (ghost : list nat) (tr : Trace) (ths : list Thread) : list nat :=
  ghost ++ hot_nodes ths ++ (ev_node <$> log tr) ++ failed tr.

Definition places (ghost : list nat) (tr : Trace) (ths : list Thread) : list nat :=
  (tn_node <$> queue_nodes ths) ++ (tn_node <$> ready_nodes ths) ++ taken ghost tr ths.

(** The nodes that [outstanding_ops] and [num_outstanding_ops_] count. *)
Definition iteration_ops (ghost : list nat) (tr : Trace) (ths : list Thread) : nat :=
  length (queue_nodes ths) + length (ready_nodes ths) + length ghost + length (hot_nodes ths) + length (failed tr).
Definition units (ghost : list nat) (ths : list Thread) : nat :=
  length (queue_nodes ths) + length ghost + length (hot_nodes ths) + length (done_nodes ths).

(** ** The invariant *)

(** A node was processed with the error [s]. *)
Definition error_of (S : list Arrival) (fl : list nat) (s : Status) : Prop :=
  ∃ d item, d ∈ fl ∧ node d = Some item ∧ (outcome d (deadness S d item) (given S d item)).1 = s.

Definition inline_ok (l : Local) : Prop := from_option queue_ok True (l_inline l).

(** [st] has an error if the thread has seen one. *)
Definition thread_ok (S : list Arrival) (tr : Trace) (status : Status) (th : Thread) : Prop :=
  match th with
  | TLoop l => inline_ok l ∧ (ok (l_status l) = false → ok status = false)
  | TAsync n inputs is_input_dead => ∃ item after, node (tn_node n) = Some item ∧ tn_dead n = deadness S (tn_node n) item ∧
      tn_dead n && negb (is_transfer item) = false ∧
      PrepareInputs kEmptyTensor item 0 (given S (tn_node n) item) = (StatusOK, inputs, is_input_dead, after)
  | TPropagate n outputs l => inline_ok l ∧ l_status l = StatusOK ∧ ∃ item, node (tn_node n) = Some item ∧ tn_dead n = deadness S (tn_node n) item ∧
      outcome (tn_node n) (tn_dead n) (given S (tn_node n) item) = (StatusOK, outputs)
  | TNote n l => inline_ok l ∧ ok (l_status l) = false ∧ n ∈ failed tr ∧ (error_of S (failed tr) (l_status l) ∨ ok status = false)
  | TCount n l => inline_ok l ∧ (ok (l_status l) = false → ok status = false) ∧ n ∈ (ev_node <$> log tr) ++ failed tr
  | TFinish => True
  end.

Definition frame_ok (ghost : list nat) (st : @ExecutorState T C) (tr : Trace) (ths : list Thread) : Prop :=
  match root_frame st with
  | Some f => num_pending_inputs f = 0 ∧ num_outstanding_iterations f = 1 ∧ (0 < iteration_ops ghost tr ths)%nat ∧
      ∃ it, iteration0 f = Some it ∧ iter_ok (sent (log tr)) (taken ghost tr ths) it ∧ outstanding_ops it = Z.of_nat (iteration_ops ghost tr ths)
  | None => queue_nodes ths = [] ∧ ready_nodes ths = [] ∧ ghost = [] ∧ hot_nodes ths = []
  end.

Definition final_status (s : Status) : Status := if sync_on_finish && ok s then device_sync else s.

(** A kernel was called with what its node was given. *)
Definition call_ok (S : list Arrival) (c : Call) : Prop :=
  ∃ item after, node (call_node c) = Some item ∧ deadness S (call_node c) item && negb (is_transfer item) = false ∧
    PrepareInputs kEmptyTensor item 0 (given S (call_node c) item) = (StatusOK, call_inputs c, call_dead c, after).

Record Inv (ghost : list nat) (st : @ExecutorState T C) (tr : Trace) (ths : list Thread) : Prop := {
  inv_log : evaluation (log tr);
  inv_nodup : NoDup (places ghost tr ths);
  inv_places d : d ∈ places ghost tr ths ↔ active (sent (log tr)) d = true;
  inv_done_nodup : NoDup (done_nodes ths);
  inv_dead n item : n ∈ queue_nodes ths ++ ready_nodes ths → node (tn_node n) = Some item → tn_dead n = deadness (sent (log tr)) (tn_node n) item;
  inv_threads : Forall (thread_ok (sent (log tr)) tr (status_ st)) ths;
  inv_frame : frame_ok ghost st tr ths;
  inv_count : num_outstanding_ops st = Z.of_nat (units ghost ths);
  inv_final : (finals ths + (if deleted st then 1 else 0) = if (units ghost ths =? 0)%nat then 1 else 0)%nat;
  inv_done_calls : done_calls st = if deleted st then [final_status (status_ st)] else [];
  inv_status : if ok (status_ st) then aborts st = [] ∧ length (failed tr) = notes ths
    else aborts st = [status_ st] ∧ error_of (sent (log tr)) (failed tr) (status_ st);
  inv_calls_nodup : NoDup (call_node <$> calls tr);
  inv_calls c : c ∈ calls tr → call_node c ∈ taken ghost tr ths ∧ call_ok (sent (log tr)) c }.

(** ** Basic facts *)

#[export] Instance queue_nodes_perm : Proper ((≡ₚ) ==> (≡ₚ)) queue_nodes := bind_Permutation th_queue.
#[export] Instance ready_nodes_perm : Proper ((≡ₚ) ==> (≡ₚ)) ready_nodes := bind_Permutation th_ready.
#[export] Instance hot_nodes_perm : Proper ((≡ₚ) ==> (≡ₚ)) hot_nodes := bind_Permutation th_hot.
#[export] Instance done_nodes_perm : Proper ((≡ₚ) ==> (≡ₚ)) done_nodes := bind_Permutation th_done.

Lemma iter_ok_taken S X X' (it : IterationState) : iter_ok S X it → (∀ d, d ∈ X → d ∈ X') → iter_ok S X' it.
Proof. intros [H1 H2 H3 H4] HX. split; [done|done| |done]. intros d item i Hd Hr Hn. apply H3; [done|done|]. contradict Hn. by apply HX. Qed.

Lemma taken_perm ghost tr ths ths' : ths ≡ₚ ths' → taken ghost tr ths ≡ₚ taken ghost tr ths'.
Proof. unfold taken. by intros ->. Qed.

Lemma places_perm ghost tr ths ths' : ths ≡ₚ ths' → places ghost tr ths ≡ₚ places ghost tr ths'.
Proof. unfold places. intros Hp. rewrite (taken_perm _ _ _ _ Hp). by rewrite Hp. Qed.

(** The order of the threads does not matter. *)
Lemma call_Inv_perm ghost st tr ths ths' : ths ≡ₚ ths' → Inv ghost st tr ths → Inv ghost st tr ths'.
Proof.
  intros Hp [I1 I2 I3 I4 I5 I6 I7 I8 I9 I10 I11 I12 I13].
  assert (Hops : iteration_ops ghost tr ths = iteration_ops ghost tr ths') by (unfold iteration_ops; by rewrite Hp).
  assert (Hun : units ghost ths = units ghost ths') by (unfold units; by rewrite Hp).
  assert (Hfin : finals ths = finals ths') by (unfold finals; by rewrite Hp).
  assert (Hnotes : notes ths = notes ths') by (unfold notes; by rewrite Hp).
  assert (Htk : ∀ d, d ∈ taken ghost tr ths ↔ d ∈ taken ghost tr ths') by (intros d; by rewrite (taken_perm _ _ _ _ Hp)).
  split; try done.
  - by rewrite <- (places_perm _ _ _ _ Hp).
  - intros d. by rewrite <- (places_perm _ _ _ _ Hp).
  - by rewrite <- Hp.
  - intros n item. rewrite <- Hp. apply I5.
  - by rewrite <- Hp.
  - revert I7. unfold frame_ok. destruct (root_frame st) as [f|].
    + rewrite <- Hops. intros (H1&H2&H3&it&H4&H5&H6). split_and!; try done. exists it. split_and!; try done. eapply iter_ok_taken; [done|]. intros d. apply Htk.
    + intros (H1&H2&H3&H4). split_and!; try done; apply Permutation_nil_r; by rewrite <- Hp, ?H1, ?H2, ?H4.
  - by rewrite <- Hun.
  - by rewrite <- Hun, <- Hfin.
  - by rewrite <- Hnotes.
  - intros c Hc. rewrite <- Htk. by apply I13.
Qed.

Section facts.
Context (ghost : list nat) (st : @ExecutorState T C) (tr : Trace) (ths : list Thread) (HI : Inv ghost st tr ths).

Lemma inv_bounded : bounded (sent (log tr)).
Proof. eapply evaluation_bounded; eauto. apply HI. Qed.

Lemma place_active d : d ∈ places ghost tr ths → ∃ item, node d = Some item ∧ runs node nodes d item ∧ active (sent (log tr)) d = true.
Proof. intros Hd%(inv_places _ _ _ _ HI). destruct (active_node _ _ _ _ Hd) as (item&Hn&Hr&_). eauto. Qed.

Lemma taken_places d : d ∈ taken ghost tr ths → d ∈ places ghost tr ths.
Proof. unfold places. rewrite !elem_of_app. auto. Qed.

(** While a node is counted, the step is not finished. *)
Lemma inv_running : (0 < units ghost ths)%nat → deleted st = false ∧ finals ths = 0%nat.
Proof. intros Hu. pose proof (inv_final _ _ _ _ HI) as Hf. destruct (Nat.eqb_spec (units ghost ths) 0); [lia|]. destruct (deleted st); [lia|]. split; [done|lia]. Qed.

Lemma done_taken d : d ∈ done_nodes ths → d ∈ (ev_node <$> log tr) ++ failed tr.
Proof.
  intros [th [Hd Hth]]%list_elem_of_bind. pose proof (inv_threads _ _ _ _ HI) as Ht. rewrite Forall_forall in Ht. specialize (Ht _ Hth).
  destruct th as [| | |n l|n l|]; cbn in Hd; try by apply elem_of_nil in Hd.
  - apply list_elem_of_singleton in Hd as ->. destruct Ht as (_&_&Hf&_). apply elem_of_app. by right.
  - apply list_elem_of_singleton in Hd as ->. by apply Ht.
Qed.

Lemma places_split : places ghost tr ths ≡ₚ ((tn_node <$> queue_nodes ths) ++ ghost ++ hot_nodes ths) ++ (tn_node <$> ready_nodes ths) ++ (ev_node <$> log tr) ++ failed tr.
Proof.
  unfold places, taken. rewrite (assoc app ghost), (Permutation_app_swap_app (tn_node <$> ready_nodes ths)). by rewrite (assoc app (tn_node <$> queue_nodes ths)).
Qed.

(** The counts stay small, also when the ready nodes are added. *)
Lemma units_bound : (units ghost ths + length (ready_nodes ths) ≤ length nodes)%nat.
Proof.
  pose proof (inv_nodup _ _ _ _ HI) as Hnd. rewrite places_split, (assoc app) in Hnd. apply NoDup_app in Hnd as (H1&H2&_).
  assert (Hl : (((tn_node <$> queue_nodes ths) ++ ghost ++ hot_nodes ths) ++ (tn_node <$> ready_nodes ths)) ++ done_nodes ths ⊆+ nodes).
  { apply NoDup_submseteq.
    - apply NoDup_app. split_and!; [done| |apply HI]. intros x Hx Hx'%done_taken. by apply (H2 x Hx).
    - intros x Hx. assert (Hp : x ∈ places ghost tr ths).
      { rewrite places_split, (assoc app). apply elem_of_app in Hx as [Hx|Hx%done_taken]; apply elem_of_app; [by left|by right]. }
      apply place_active in Hp as (item&Hd&_). apply (v_node _ _ _ _ Hview). eauto. }
  apply submseteq_length in Hl. rewrite !length_app, !length_fmap in Hl. unfold units. lia.
Qed.
End facts.

(** ** A node is taken *)

(** The parts of the invariant that stay when a node changes its place and nothing is sent. *)
Lemma relocate ghost ghost' st cs lg fl cs' fl' ths ths' :
  Inv ghost st (mkTrace cs lg fl) ths → places ghost' (mkTrace cs' lg fl') ths' ≡ₚ places ghost (mkTrace cs lg fl) ths →
  (∀ n, n ∈ queue_nodes ths' ++ ready_nodes ths' → n ∈ queue_nodes ths ++ ready_nodes ths) →
  NoDup (done_nodes ths') → Forall (thread_ok (sent lg) (mkTrace cs' lg fl') (status_ st)) ths' →
  frame_ok ghost' st (mkTrace cs' lg fl') ths' → units ghost' ths' = units ghost ths → finals ths' = finals ths →
  (if ok (status_ st) then aborts st = [] ∧ length fl' = notes ths' else aborts st = [status_ st] ∧ error_of (sent lg) fl' (status_ st)) →
  NoDup (call_node <$> cs') → (∀ c, c ∈ cs' → call_node c ∈ taken ghost' (mkTrace cs' lg fl') ths' ∧ call_ok (sent lg) c) →
  Inv ghost' st (mkTrace cs' lg fl') ths'.
Proof.
  intros HI Hp Hsub Hdn Hth Hfr Hun Hfin Hst Hc1 Hc2. pose proof HI as [I1 I2 I3 I4 I5 I6 I7 I8 I9 I10 I11 I12 I13].
  split; try done.
  - by rewrite Hp.
  - intros d. by rewrite Hp, I3.
  - intros n item Hn. apply I5. by apply Hsub.
  - by rewrite Hun.
  - by rewrite Hun, Hfin.
Qed.

(** The inputs of a node that has not taken them lie in the iteration. *)
Lemma inputs_there S X (it : IterationState) d item : iter_ok S X it → node d = Some item → runs node nodes d item → d ∉ X →
  first_inputs item (input_tensors it) = Some (given S d item).
Proof.
  intros [_ Hlen Hin _] Hd Hr HX. unfold first_inputs. pose proof (v_total _ _ _ _ Hview _ _ Hd). rewrite (proj2 (Nat.leb_le _ _)) by lia. f_equal.
  apply list_eq_same_length with (num_inputs item).
  - unfold given, inputs_for. by rewrite length_fmap, length_seq.
  - rewrite length_take, length_drop. lia.
  - intros i x y Hi Hx Hy. rewrite lookup_take_lt, lookup_drop, (Hin d item i) in Hx by done. injection Hx as <-.
    unfold given, inputs_for in Hy. rewrite list_lookup_fmap, lookup_seq_lt in Hy by done. by injection Hy as <-.
Qed.

(** The iteration exists while a node is counted in it. *)
Lemma frame_there ghost st tr ths : Inv ghost st tr ths → (0 < length (queue_nodes ths) + length (ready_nodes ths) + length ghost + length (hot_nodes ths))%nat →
  ∃ f it, root_frame st = Some f ∧ iteration0 f = Some it ∧ num_pending_inputs f = 0 ∧ num_outstanding_iterations f = 1 ∧
    iter_ok (sent (log tr)) (taken ghost tr ths) it ∧ outstanding_ops it = Z.of_nat (iteration_ops ghost tr ths).
Proof.
  intros HI Hpos. pose proof (inv_frame _ _ _ _ HI) as Hf. unfold frame_ok in Hf. destruct (root_frame st) as [f|].
  - destruct Hf as (H1&H2&_&it&H3&H4&H5). by exists f, it.
  - destruct Hf as (E1&E2&E3&E4). rewrite E1, E2, E3, E4 in Hpos. cbn in Hpos. lia.
Qed.

Lemma take_queue l q n st tr rest : Inv [] st tr (TLoop l :: rest) → l_inline l = Some q → front q = Some n → let d := tn_node n in
  Inv [d] st tr (TLoop (mkLocal (l_status l) (l_completed l) (l_ready l) (Some (pop_front q))) :: rest) ∧
  (d ∉ call_node <$> calls tr) ∧ ∃ item, node d = Some item ∧ tn_dead n = deadness (sent (log tr)) d item ∧
    ∃ f it, root_frame st = Some f ∧ iteration0 f = Some it ∧ first_inputs item (input_tensors it) = Some (given (sent (log tr)) d item).
Proof.
  intros HI Hq Hfront d. pose proof HI as [I1 I2 I3 I4 I5 I6 I7 I8 I9 I10 I11 I12 I13].
  apply Forall_cons in I6 as [Hth Hrest]. destruct Hth as [Hok Hs]. unfold inline_ok in Hok. rewrite Hq in Hok. cbn in Hok.
  rewrite (front_queued _ Hok) in Hfront. destruct (queued q) as [|n' ns] eqn:Eq; [done|]. injection Hfront as ->.
  destruct (pop_front_queued q Hok) as [Hok' Eq']; [by rewrite Eq|]. rewrite Eq in Eq'. cbn [tail] in Eq'.
  set (l' := mkLocal _ _ _ _).
  assert (EQ : queue_nodes (TLoop l :: rest) = n :: queue_nodes (TLoop l' :: rest)) by (unfold queue_nodes; cbn; rewrite Hq; cbn; by rewrite Eq', Eq).
  assert (Hpl : places [d] tr (TLoop l' :: rest) ≡ₚ places [] tr (TLoop l :: rest)).
  { unfold places, taken. rewrite EQ. cbn [fmap list_fmap app]. change (ready_nodes (TLoop l' :: rest)) with (ready_nodes (TLoop l :: rest)).
    change (hot_nodes (TLoop l' :: rest)) with (hot_nodes (TLoop l :: rest)). rewrite <- !Permutation_middle. done. }
  assert (Hin : d ∈ places [] tr (TLoop l :: rest)) by (unfold places; rewrite EQ; cbn; by left).
  assert (Hnot : d ∉ taken [] tr (TLoop l :: rest)).
  { revert I2. unfold places. rewrite EQ. cbn [fmap list_fmap app]. rewrite NoDup_cons, !elem_of_app. intros [Hn _] Ht. apply Hn. auto. }
  destruct (place_active _ _ _ _ HI d Hin) as (item&Hd&Hr&_).
  destruct (frame_there _ _ _ _ HI) as (f&it&Ef&Ei&Hp1&Hp2&Hit&Hops); [rewrite EQ; cbn; lia|]. split; [|split].
  - destruct tr as [cs lg fl]. apply (relocate [] [d] st cs lg fl cs fl (TLoop l :: rest) (TLoop l' :: rest)); try done.
    + intros m. rewrite EQ, !elem_of_app, elem_of_cons. change (ready_nodes (TLoop l' :: rest)) with (ready_nodes (TLoop l :: rest)). tauto.
    + constructor; [|done]. by split.
    + unfold frame_ok. rewrite Ef. assert (Eo : iteration_ops [d] (mkTrace cs lg fl) (TLoop l' :: rest) = iteration_ops [] (mkTrace cs lg fl) (TLoop l :: rest)).
      { unfold iteration_ops. rewrite EQ. cbn. unfold ready_nodes, hot_nodes. cbn. lia. }
      split_and!; [done|done|unfold iteration_ops; cbn; lia|]. exists it. split_and!; [done| |exact (eq_trans Hops (f_equal Z.of_nat (eq_sym Eo)))]. eapply iter_ok_taken; [done|].
      intros x Hx. unfold taken in *. cbn [app] in *. by right.
    + unfold units. rewrite EQ. cbn. unfold hot_nodes, done_nodes. cbn. lia.
    + intros c Hc. destruct (I13 c Hc) as [Hc1 Hc2]. split; [|done]. unfold taken in *. cbn [app] in *. by right.
  - intros (c&Ec&Hc)%list_elem_of_fmap. apply Hnot. rewrite Ec. by apply I13.
  - exists item. split; [done|]. split; [apply I5; [rewrite EQ; by left|done]|]. exists f, it. split_and!; [done|done|]. by eapply inputs_there.
Qed.

(** An asynchronous kernel is done. *)
Lemma take_async n inputs is_input_dead st tr rest : Inv [] st tr (TAsync n inputs is_input_dead :: rest) →
  Inv [tn_node n] st tr (TLoop (mkLocal StatusOK false [] None) :: rest).
Proof.
  intros HI. pose proof HI as [I1 I2 I3 I4 I5 I6 I7 I8 I9 I10 I11 I12 I13]. apply Forall_cons in I6 as [_ Hrest]. destruct tr as [cs lg fl].
  assert (Htk : taken [tn_node n] (mkTrace cs lg fl) (TLoop (mkLocal StatusOK false [] None) :: rest) = taken [] (mkTrace cs lg fl) (TAsync n inputs is_input_dead :: rest)) by done.
  apply (relocate [] [tn_node n] st cs lg fl cs fl (TAsync n inputs is_input_dead :: rest)); try done.
  - by constructor.
  - unfold frame_ok in *. destruct (root_frame st) as [f|]; [|by destruct I7 as (_&_&_&?)].
    rewrite Htk. change (iteration_ops [] _ (TAsync n inputs is_input_dead :: rest)) with (length (queue_nodes rest) + length (ready_nodes rest) + 0 + S (length (hot_nodes rest)) + length fl)%nat in I7.
    change (iteration_ops [tn_node n] _ _) with (length (queue_nodes rest) + length (ready_nodes rest) + 1 + length (hot_nodes rest) + length fl)%nat.
    replace (length (queue_nodes rest) + length (ready_nodes rest) + 1 + length (hot_nodes rest) + length fl)%nat with
      (length (queue_nodes rest) + length (ready_nodes rest) + 0 + S (length (hot_nodes rest)) + length fl)%nat by lia. exact I7.
  - unfold units. unfold queue_nodes, hot_nodes, done_nodes. cbn. lia.
Qed.

(** ** A taken node goes on *)

(** Writing the inputs of a node that has been taken. *)
Lemma put_inputs_ok d item entries st f it tr ths : Inv [d] st tr ths → node d = Some item → root_frame st = Some f → iteration0 f = Some it →
  length entries = num_inputs item → Inv [d] (set_frame (Some (set_tensors f it (put_inputs item entries (input_tensors it)))) st) tr ths.
Proof.
  intros HI Hd Hf Hit Hl. pose proof HI as [I1 I2 I3 I4 I5 I6 I7 I8 I9 I10 I11 I12 I13]. split; try done.
  unfold frame_ok in *. rewrite Hf in I7. cbn [root_frame set_frame]. destruct I7 as (H1&H2&H3&it'&Hit'&[Hc Hlen Hin Hfr]&Hops). rewrite Hit in Hit'. injection Hit' as <-.
  split_and!; try done. eexists. split; [done|]. split; [|done]. pose proof (v_total _ _ _ _ Hview _ _ Hd) as Ht. split; cbn [counts input_tensors outstanding_frame_count]; [done| | |done].
  - unfold put_inputs. rewrite !length_app, length_take, length_drop. lia.
  - intros d' item' i Hd' Hr' HX Hi. specialize (Hin d' item' i Hd' Hr' HX Hi). rewrite <- Hin. unfold put_inputs.
    assert (Hne : d' ≠ d) by (intros ->; apply HX; by left).
    destruct (decide (input_start item' + i < input_start item)%nat) as [Hlt|Hge].
    + rewrite lookup_app_l by (rewrite length_take; lia). by rewrite lookup_take_lt.
    + destruct (decide (input_start item' + i < input_start item + num_inputs item)%nat) as [Hlt|Hge'].
      { exfalso. apply Hne. apply (v_regions _ _ _ _ Hview d' d item' item i (input_start item' + i - input_start item) Hd' Hd Hi); lia. }
      rewrite lookup_app_r by (rewrite length_take; lia). rewrite length_take, lookup_app_r, lookup_drop by lia. f_equal. lia.
Qed.

Lemma thread_ok_failed S tr calls' fl' status th : (∀ d, d ∈ failed tr → d ∈ fl') → thread_ok S tr status th → thread_ok S (mkTrace calls' (log tr) fl') status th.
Proof.
  intros Hsub. destruct th as [| | |n l|n l|]; cbn; try done.
  - intros (H1&H2&H3&H4). split_and!; auto. destruct H4 as [(d&item&Hd&?)|?]; [left; exists d, item; auto|by right].
  - rewrite !elem_of_app. intros (H1&H2&[H3|H3]); auto.
Qed.

(** It goes to a kernel or to the propagation: the threads [new] replace the loop [l]. *)
Lemma to_hot d l st tr rest th more : Inv [d] st tr (TLoop l :: rest) → th_hot th = [d] → th_ready th = [] → th_done th = [] → th_notes th = 0%nat → th_final th = 0%nat →
  more = [] ∧ th_queue th = from_option queued [] (l_inline l) ∨ th_queue th = [] ∧ (∃ l', more = [TLoop l'] ∧ l_inline l' = l_inline l ∧ l_completed l' = l_completed l) →
  thread_ok (sent (log tr)) tr (status_ st) th → Forall (thread_ok (sent (log tr)) tr (status_ st)) more →
  Inv [] st tr (th :: more ++ rest).
Proof.
  intros HI Hh Hr Hdn Hno Hfi Hmore Hth Hms. pose proof HI as [I1 I2 I3 I4 I5 I6 I7 I8 I9 I10 I11 I12 I13]. apply Forall_cons in I6 as [_ Hrest].
  assert (EQ : queue_nodes (th :: more ++ rest) = queue_nodes (TLoop l :: rest)).
  { unfold queue_nodes. cbn [mbind list_bind]. destruct Hmore as [[-> ->]|[-> (l'&->&El&_)]]; [done|]. cbn. by rewrite El. }
  assert (ER : ready_nodes (th :: more ++ rest) = ready_nodes (TLoop l :: rest)).
  { unfold ready_nodes. cbn [mbind list_bind]. rewrite Hr. destruct Hmore as [[-> _]|[_ (l'&->&_)]]; done. }
  assert (EH : hot_nodes (th :: more ++ rest) = d :: hot_nodes (TLoop l :: rest)).
  { unfold hot_nodes. cbn [mbind list_bind]. rewrite Hh. destruct Hmore as [[-> _]|[_ (l'&->&_)]]; done. }
  assert (ED : done_nodes (th :: more ++ rest) = done_nodes (TLoop l :: rest)).
  { unfold done_nodes. cbn [mbind list_bind]. rewrite Hdn. destruct Hmore as [[-> _]|[_ (l'&->&_)]]; done. }
  assert (Hun : units [] (th :: more ++ rest) = units [d] (TLoop l :: rest)) by (unfold units; rewrite EQ, EH, ED; cbn; lia).
  assert (Hop : iteration_ops [] tr (th :: more ++ rest) = iteration_ops [d] tr (TLoop l :: rest)) by (unfold iteration_ops; rewrite EQ, ER, EH; cbn; lia).
  assert (Htk : taken [] tr (th :: more ++ rest) = taken [d] tr (TLoop l :: rest)) by (unfold taken; by rewrite EH).
  destruct tr as [cs lg fl]. apply (relocate [d] [] st cs lg fl cs fl (TLoop l :: rest)); try done.
  - unfold places. by rewrite EQ, ER, Htk.
  - by rewrite EQ, ER.
  - by rewrite ED.
  - constructor; [done|]. by apply Forall_app.
  - unfold frame_ok in *. rewrite Hop, Htk. destruct (root_frame st); [done|]. by destruct I7 as (_&_&?&_).
  - destruct (inv_running _ _ _ _ HI) as [_ Hf]; [unfold units; cbn; lia|]. rewrite Hf. unfold finals in *. cbn [fmap list_fmap sum_list_with sum_list] in *. rewrite Hfi.
    destruct Hmore as [[-> _]|[_ (l'&->&_&El)]]; cbn in *; [lia|]. rewrite El. lia.
  - destruct (ok (status_ st)); [|done]. unfold notes in *. cbn [fmap list_fmap sum_list_with] in *. rewrite Hno. destruct Hmore as [[-> _]|[_ (l'&->&_)]]; done.
  - intros c Hc. rewrite Htk. by apply I13.
Qed.

(** It has failed. *)
Lemma to_note d l s st tr rest item : Inv [d] st tr (TLoop l :: rest) → node d = Some item → ok s = false →
  (outcome d (deadness (sent (log tr)) d item) (given (sent (log tr)) d item)).1 = s ∨ ok (status_ st) = false →
  Inv [] st (mkTrace (calls tr) (log tr) (failed tr ++ [d])) (TNote d (mkLocal s (l_completed l) (l_ready l) (l_inline l)) :: rest).
Proof.
  intros HI Hd Hs Herr. pose proof HI as [I1 I2 I3 I4 I5 I6 I7 I8 I9 I10 I11 I12 I13]. apply Forall_cons in I6 as [[Hin _] Hrest].
  set (th := TNote _ _). destruct tr as [cs lg fl]. cbn [calls log failed] in *.
  assert (Htk : taken [] (mkTrace cs lg (fl ++ [d])) (th :: rest) ≡ₚ taken [d] (mkTrace cs lg fl) (TLoop l :: rest)).
  { unfold taken. cbn [log failed app]. change (hot_nodes (th :: rest)) with (hot_nodes (TLoop l :: rest)). rewrite !(assoc app). symmetry. by rewrite Permutation_cons_append. }
  assert (Hun : units [] (th :: rest) = units [d] (TLoop l :: rest)) by (unfold units, queue_nodes, hot_nodes, done_nodes; cbn; lia).
  assert (Hop : iteration_ops [] (mkTrace cs lg (fl ++ [d])) (th :: rest) = iteration_ops [d] (mkTrace cs lg fl) (TLoop l :: rest)).
  { unfold iteration_ops, queue_nodes, ready_nodes, hot_nodes. cbn. rewrite !length_app. cbn. lia. }
  assert (Hfail : ∀ x, x ∈ fl → x ∈ fl ++ [d]) by (intros x Hx; apply elem_of_app; by left).
  assert (Hlast : d ∈ fl ++ [d]) by (apply elem_of_app; right; by left).
  apply (relocate [d] [] st cs lg fl cs (fl ++ [d]) (TLoop l :: rest)); try done.
  - unfold places. by rewrite Htk.
  - cbn. constructor; [|done]. intros Hx. apply (done_taken _ _ _ _ HI) in Hx. cbn in Hx.
    revert I2. unfold places, taken. cbn [log failed app]. rewrite <- !Permutation_middle, NoDup_cons, !elem_of_app. intros [Hn _]. apply Hn.
    apply elem_of_app in Hx. tauto.
  - constructor; [|eapply Forall_impl; [exact Hrest|]; intros th'; by apply (thread_ok_failed (sent lg) (mkTrace cs lg fl) cs (fl ++ [d]))].
    cbn. split_and!; try done. destruct Herr as [He|He]; [left; by exists d, item|by right].
  - unfold frame_ok in *. destruct (root_frame st) as [f|]; [|by destruct I7 as (_&_&?&_)]. rewrite Hop. destruct I7 as (H1&H2&H3&it&H4&H5&H6).
    split_and!; try done. exists it. split_and!; try done. eapply iter_ok_taken; [done|]. intros x. by rewrite Htk.
  - destruct (inv_running _ _ _ _ HI) as [_ Hf]; [unfold units; cbn; lia|]. rewrite Hf. unfold finals in *. cbn in *. lia.
  - destruct (ok (status_ st)).
    + destruct I11 as [Ha Hl]. split; [done|]. rewrite length_app. unfold notes in *. cbn in *. lia.
    + destruct I11 as [Ha (d'&item'&?&?&?)]. split; [done|]. exists d', item'. auto.
  - intros c Hc. rewrite Htk. by apply I13.
Qed.

(** Its kernel is called. *)
Lemma call_kernel d c st tr ths : Inv [d] st tr ths → call_node c = d → (d ∉ call_node <$> calls tr) → call_ok (sent (log tr)) c →
  Inv [d] st (mkTrace (calls tr ++ [c]) (log tr) (failed tr)) ths.
Proof.
  intros HI Hc Hnew Hok. pose proof HI as [I1 I2 I3 I4 I5 I6 I7 I8 I9 I10 I11 I12 I13]. destruct tr as [cs lg fl]. cbn [calls log failed] in *.
  apply (relocate [d] [d] st cs lg fl (cs ++ [c]) fl ths); try done.
  - rewrite fmap_app. apply NoDup_app. split_and!; [done| |apply NoDup_singleton]. intros x Hx. cbn. rewrite list_elem_of_singleton. congruence.
  - intros c' [Hc'| ->%list_elem_of_singleton]%elem_of_app; [by apply I13|]. split; [|done]. rewrite Hc. by left.
Qed.

Lemma after_compute_ok n item s outputs l f it st tr rest : let d := tn_node n in
  Inv [d] st tr (TLoop l :: rest) → node d = Some item → root_frame st = Some f → iteration0 f = Some it → tn_dead n = deadness (sent (log tr)) d item →
  (ok s = true → outcome d (tn_dead n) (given (sent (log tr)) d item) = (StatusOK, outputs)) →
  (ok s = false → (outcome d (tn_dead n) (given (sent (log tr)) d item)).1 = s ∨ ok (status_ st) = false) →
  ∃ new st' tr', after_compute n item s outputs l f it st tr = (new, st', tr') ∧ Inv [] st' tr' (new ++ rest).
Proof.
  intros d HI Hd Hf Hit Hdead Hok Herr. unfold after_compute.
  assert (HI' : Inv [d] (set_frame (Some (set_tensors f it (clear_inputs item (input_tensors it)))) st) tr (TLoop l :: rest)).
  { apply (put_inputs_ok d item); try done. apply length_replicate. }
  destruct (ok s) eqn:Es.
  - eexists _, _, _. split; [done|]. cbn [app]. apply ok_iff in Es. subst s. eapply (to_hot d l _ tr rest (TPropagate n outputs _) []); try done.
    + by left.
    + pose proof (inv_threads _ _ _ _ HI) as Ht. apply Forall_cons in Ht as [[Hin _] _]. cbn. split_and!; [done|done|]. exists item. auto.
  - eexists _, _, _. split; [done|]. cbn [app]. eapply to_note; try done. rewrite Hdead in Herr. by apply Herr.
Qed.

(** ** The body of the loop, and the callback *)

Lemma PrepareInputs_length item entries : ∀ i, length (PrepareInputs kEmptyTensor item i entries).2 = length entries.
Proof.
  induction entries as [|[v|] entries IH]; intros i; cbn [PrepareInputs]; [done| |].
  - destruct (IsRefType _); [done|]. specialize (IH (Datatypes.S i)). destruct (PrepareInputs _ _ _ _) as [[[s ins] dead] after]. cbn in *. by rewrite IH.
  - specialize (IH (Datatypes.S i)). destruct (PrepareInputs _ _ _ _) as [[[s ins] dead] after]. destruct (is_merge item); cbn in *; by rewrite IH.
Qed.

Lemma given_length S d item : length (given S d item) = num_inputs item.
Proof. unfold given, inputs_for. by rewrite length_fmap, length_seq. Qed.

(** The outcome when the kernel is called. *)
Lemma outcome_call d item dead ins inputs is_input_dead after : node d = Some item → dead && negb (is_transfer item) = false →
  PrepareInputs kEmptyTensor item 0 ins = (StatusOK, inputs, is_input_dead, after) →
  outcome d dead ins = ProcessOutputs dtype item (kernel d inputs is_input_dead).
Proof. unfold outcome. by intros -> -> ->. Qed.

(** Does an outcome have the status, and the outputs, of [ProcessOutputs]? *)
Lemma outcome_status (o : Status * list (option T)) s outputs : o = (s, outputs) → (ok s = true → o = (StatusOK, outputs)) ∧ (ok s = false → o.1 = s).
Proof. intros ->. split; [by intros ->%ok_iff|done]. Qed.

Lemma process_node_ok l q n st tr rest : Inv [] st tr (TLoop l :: rest) → l_inline l = Some q → front q = Some n →
  ∃ new st' tr', process_node kEmptyTensor dtype node kernel n (mkLocal (l_status l) (l_completed l) (l_ready l) (Some (pop_front q))) st tr = Some (new, st', tr') ∧
    Inv [] st' tr' (new ++ rest).
Proof.
  intros HI Hq Hfront. pose proof (inv_threads _ _ _ _ HI) as Ht. apply Forall_cons in Ht as [[_ Hls] _].
  destruct (take_queue _ _ _ _ _ _ HI Hq Hfront) as (HI'&Hnew&item&Hd&Hdead&f&it&Hf&Hit&Hfirst).
  set (l' := mkLocal _ _ _ _) in *. unfold process_node. rewrite Hd, Hf. cbn [mbind option_bind]. rewrite Hit. cbn [mbind option_bind]. rewrite Hfirst. cbn [mbind option_bind].
  destruct (tn_dead n && negb (is_transfer item)) eqn:Edt.
  { destruct (after_compute_ok n item (l_status l') (replicate (num_outputs item) None) l' f it st tr rest HI' Hd Hf Hit Hdead) as (new&st'&tr'&->&HI2); [| |by eauto].
    - intros _. unfold outcome. by rewrite Hd, Edt.
    - intros Hs. right. by apply Hls. }
  destruct (PrepareInputs kEmptyTensor item 0 (given (sent (log tr)) (tn_node n) item)) as [[[s inputs] idead] after] eqn:Ep. destruct (ok s) eqn:Es; cbn [negb].
  2: { destruct (after_compute_ok n item s [] l' f it st tr rest HI' Hd Hf Hit Hdead) as (new&st'&tr'&->&HI2); [congruence| |by eauto].
       intros _. left. unfold outcome. by rewrite Hd, Edt, Ep, Es. }
  apply ok_iff in Es. subst s. set (c := mkCall (tn_node n) inputs idead).
  assert (Hcall : call_ok (sent (log tr)) c) by (exists item, after; cbn [call_node call_inputs call_dead c]; by rewrite <- Hdead).
  pose proof (call_kernel (tn_node n) c st tr _ HI' eq_refl Hnew Hcall) as HI2. destruct (kernel_is_async item).
  - eexists _, _, _. split; [done|]. apply (call_Inv_perm _ _ _ (TAsync n inputs idead :: [TLoop (mkLocal StatusOK (l_completed l') (l_ready l') (l_inline l'))] ++ rest)); [apply perm_swap|].
    eapply to_hot; [apply (put_inputs_ok _ item); [exact HI2|done|done|done|]|..]; try done.
    + pose proof (PrepareInputs_length item (given (sent (log tr)) (tn_node n) item) 0) as Hl. rewrite Ep, given_length in Hl. exact Hl.
    + right. split; [done|]. eexists. by split_and!.
    + exists item, after. by split_and!.
    + constructor; [|constructor]. split; [|done]. pose proof (inv_threads _ _ _ _ HI2) as Ht. by apply Forall_cons in Ht as [[Hin _] _].
  - pose proof (outcome_call _ _ _ _ _ _ _ Hd Edt Ep) as Eo. destruct (ProcessOutputs dtype item (kernel (tn_node n) inputs idead)) as [s outputs].
    destruct (outcome_status _ _ _ Eo) as [Ho1 Ho2].
    destruct (after_compute_ok n item s outputs l' f it st (mkTrace (calls tr ++ [c]) (log tr) (failed tr)) rest HI2 Hd Hf Hit Hdead Ho1) as (new&st'&tr'&->&HI3); [by left; apply Ho2|by eauto].
Qed.

Lemma async_done_ok n inputs is_input_dead st tr rest : Inv [] st tr (TAsync n inputs is_input_dead :: rest) →
  ∃ new st' tr', async_done dtype node kernel n inputs is_input_dead st tr = Some (new, st', tr') ∧ Inv [] st' tr' (new ++ rest).
Proof.
  intros HI. pose proof (inv_threads _ _ _ _ HI) as Ht. apply Forall_cons in Ht as [(item&after&Hd&Hdead&Edt&Ep) _].
  destruct (frame_there _ _ _ _ HI) as (f&it&Hf&Hit&_&_&Hok&_); [cbn; lia|]. pose proof (take_async _ _ _ _ _ _ HI) as HI'.
  unfold async_done. rewrite Hd, Hf. cbn [mbind option_bind]. rewrite Hit. cbn [mbind option_bind].
  unfold first_inputs. rewrite (io_length _ _ _ _ _ _ Hok), (proj2 (Nat.leb_le _ _)) by (by apply (v_total _ _ _ _ Hview _ _ Hd)). cbn [mbind option_bind].
  pose proof (outcome_call _ _ _ _ _ _ _ Hd Edt Ep) as Eo. destruct (ProcessOutputs dtype item (kernel (tn_node n) inputs is_input_dead)) as [s outputs].
  destruct (outcome_status _ _ _ Eo) as [Ho1 Ho2].
  destruct (after_compute_ok n item s outputs _ f it st tr rest HI' Hd Hf Hit Hdead Ho1) as (new&st'&tr'&->&HI3); [by left; apply Ho2|by eauto].
Qed.

(** ** Outputs are propagated *)

Section send.
Context (S X : list Arrival) (Hb : bounded (S ++ X)).

Lemma given_stable d item : active S d = true → node d = Some item → deadness (S ++ X) d item = deadness S d item ∧ given (S ++ X) d item = given S d item.
Proof. intros Ha Hd. by apply (active_stable node nodes S X d Hb Ha). Qed.

Lemma error_of_sent fl s : (∀ d, d ∈ fl → active S d = true) → error_of S fl s → error_of (S ++ X) fl s.
Proof. intros Hact (d&item&Hin&Hd&Ho). destruct (given_stable d item (Hact d Hin) Hd) as [E1 E2]. exists d, item. by rewrite E1, E2. Qed.

Lemma thread_ok_sent tr ev status th : (∀ d, d ∈ th_hot th → active S d = true) → (∀ d, d ∈ failed tr → active S d = true) →
  thread_ok S tr status th → thread_ok (S ++ X) (mkTrace (calls tr) (log tr ++ [ev]) (failed tr)) status th.
Proof.
  intros Hact Hfail. destruct th as [| n|n outs l|n l|n l|]; cbn [thread_ok failed log th_hot] in *; try done.
  - intros (item&after&Hd&Hdead&He&Hp). destruct (given_stable (tn_node n) item) as [E1 E2]; [by apply Hact; left|done|]. exists item, after. by rewrite E1, E2.
  - intros (Hin&Hs&item&Hd&Hdead&Ho). destruct (given_stable (tn_node n) item) as [E1 E2]; [by apply Hact; left|done|]. split_and!; try done. exists item. by rewrite E1, E2.
  - intros (H1&H2&H3&H4). split_and!; try done. destruct H4; [left|by right]. by apply error_of_sent.
  - intros (H1&H2&H3). split_and!; try done. rewrite fmap_app, !elem_of_app in *. tauto.
Qed.

Lemma call_ok_sent c : active S (call_node c) = true → call_ok S c → call_ok (S ++ X) c.
Proof. intros Ha (item&after&Hd&Ht&Hp). destruct (given_stable _ item Ha Hd) as [E1 E2]. exists item, after. by rewrite E1, E2. Qed.
End send.

Lemma iteration_bound ghost st tr ths : Inv ghost st tr ths → Z.of_nat (iteration_ops ghost tr ths) < 2 ^ 31.
Proof.
  intros HI. pose proof (v_count _ _ _ _ Hview). assert (Hl : places ghost tr ths ⊆+ nodes).
  { apply NoDup_submseteq; [apply HI|]. intros d (item&Hd&_)%(place_active _ _ _ _ HI). apply (v_node _ _ _ _ Hview). eauto. }
  apply submseteq_length in Hl. unfold places, taken in Hl. rewrite !length_app, !length_fmap in Hl. unfold iteration_ops. lia.
Qed.

(** The frame after the last part of [PropagateOutputs]. *)
Lemma decrement_frame (f : @FrameState T C) (it : IterationState) ops : num_pending_inputs f = 0 → num_outstanding_iterations f = 1 → outstanding_frame_count it = 0 →
  outstanding_ops it = Z.of_nat (S ops) → Z.of_nat ops < 2 ^ 32 →
  ∃ f', DecrementOutstandingOps (mkFrame (num_pending_inputs f) (num_outstanding_iterations f) (Some it)) = Some ((ops =? 0)%nat, f') ∧
    num_pending_inputs f' = 0 ∧ ((0 < ops)%nat → num_outstanding_iterations f' = 1 ∧
      iteration0 f' = Some (mkIter (input_tensors it) (counts it) (Z.of_nat ops) (outstanding_frame_count it))).
Proof.
  intros H1 H2 H3 H4 Hb. unfold DecrementOutstandingOps. cbn [iteration0 mbind option_bind]. rewrite H4.
  replace (u64 (Z.of_nat (S ops) - 1)) with (Z.of_nat ops) by (rewrite u64_small; unfold is_u64; lia). cbn [outstanding_ops].
  destruct (Nat.eqb_spec ops 0) as [->|Hne].
  - cbn. unfold CleanupIterations, IsIterationDone, IsFrameDone. cbn. rewrite H3, H1, H2. cbn. eexists. split; [done|]. split; [done|lia].
  - rewrite (proj2 (Z.eqb_neq _ _)) by lia. eexists. split; [done|]. split; [done|]. by split.
Qed.

Lemma propagate_places n outs l ready tr ev rest : ev_node ev = tn_node n → l_status l = StatusOK →
  let tr' := mkTrace (calls tr) (log tr ++ [ev]) (failed tr) in
  let ths := TPropagate n outs l :: rest in
  let ths' := TCount (tn_node n) (mkLocal (l_status l) (l_completed l) ready (l_inline l)) :: rest in
  ready_nodes ths' = ready ++ ready_nodes rest ∧ taken [] tr' ths' ≡ₚ taken [] tr ths ∧
  places [] tr' ths' ≡ₚ (tn_node <$> ready) ++ places [] tr ths ∧
  Datatypes.S (iteration_ops [] tr' ths') = (iteration_ops [] tr ths + length ready)%nat ∧ units [] ths' = units [] ths.
Proof.
  intros Hev Hls tr' ths ths'. assert (Hth : th_ready (TCount (tn_node n) (mkLocal (l_status l) (l_completed l) ready (l_inline l))) = ready) by (cbn; by rewrite Hls).
  assert (ER : ready_nodes ths' = ready ++ ready_nodes rest) by (unfold ths', ready_nodes; cbn [mbind list_bind]; by rewrite Hth).
  assert (Htk : taken [] tr' ths' ≡ₚ taken [] tr ths).
  { unfold taken, tr'. cbn [log failed app]. rewrite fmap_app. cbn. rewrite Hev. change (hot_nodes ths') with (hot_nodes rest). change (hot_nodes ths) with (tn_node n :: hot_nodes rest).
    rewrite <- !(assoc app). cbn [app]. by rewrite <- !Permutation_middle. }
  split_and!; [done|done| | |].
  - unfold places. rewrite Htk, ER, fmap_app. change (queue_nodes ths) with (queue_nodes ths'). change (ready_nodes ths) with (ready_nodes rest).
    rewrite <- (assoc app). apply Permutation_app_swap_app.
  - unfold iteration_ops. rewrite ER, length_app. change (hot_nodes ths') with (hot_nodes rest). unfold ths, tr', ths', queue_nodes, ready_nodes, hot_nodes. cbn. lia.
  - unfold units, ths', ths, queue_nodes, hot_nodes, done_nodes. cbn. lia.
Qed.

(** The node that is propagated adds its event to the evaluation. *)
Lemma propagate_event n outs l st tr rest : Inv [] st tr (TPropagate n outs l :: rest) →
  let ev := mkEvent (tn_node n) (tn_dead n) outs in
  (tn_node n ∉ (ev_node <$> log tr) ++ failed tr) ∧ evaluation (log tr ++ [ev]) ∧ bounded (sent (log tr) ++ sent [ev]).
Proof.
  intros HI ev. pose proof HI as [I1 I2 I3 _ _ I6 _ _ _ _ _ _ _]. apply Forall_cons in I6 as [(_&_&item&Hd&Hdead&Ho) _].
  assert (Hact : active (sent (log tr)) (tn_node n) = true).
  { apply I3. unfold places, taken, hot_nodes. cbn. rewrite !elem_of_app, elem_of_cons. tauto. }
  assert (Hn : NoDup (tn_node n :: hot_nodes rest ++ (ev_node <$> log tr) ++ failed tr)).
  { unfold places in I2. apply NoDup_app in I2 as (_&_&I2). apply NoDup_app in I2 as (_&_&I2). exact I2. }
  apply NoDup_cons in Hn as [Hn _]. rewrite elem_of_app in Hn. assert (Hfresh : tn_node n ∉ (ev_node <$> log tr) ++ failed tr) by tauto.
  assert (He : evaluation (log tr ++ [ev])).
  { rewrite Hdead in Ho. unfold ev. rewrite Hdead. apply (evaluation_snoc node nodes outcome (log tr) (tn_node n) item outs I1 Hd Hact); [|exact Ho].
    intros Hx. apply Hfresh, elem_of_app. by left. }
  split_and!; [done|done|]. rewrite <- (sent_app node). eapply evaluation_bounded; eauto.
Qed.

(** The frame after the count of its operations. *)
Lemma counted_frame st tr ths (f : @FrameState T C) (it : IterationState) : let ops := iteration_ops [] tr ths in
  num_pending_inputs f = 0 →
  ((0 < ops)%nat → num_outstanding_iterations f = 1 ∧ iteration0 f = Some (mkIter (input_tensors it) (counts it) (Z.of_nat ops) (outstanding_frame_count it))) →
  iter_ok (sent (log tr)) (taken [] tr ths) it → frame_ok [] (set_frame (if (ops =? 0)%nat then None else Some f) st) tr ths.
Proof.
  intros ops H1 H2 Hok. unfold frame_ok. cbn [root_frame set_frame]. destruct (Nat.eqb_spec ops 0) as [E0|E0].
  - unfold ops, iteration_ops in E0. split_and!; try done; apply length_zero_iff_nil; lia.
  - destruct H2 as [H2 H3]; [lia|]. split_and!; [done|done|lia|]. eexists. split; [exact H3|]. split; [|done]. by destruct Hok.
Qed.

Lemma propagate_ok n outs l st tr rest : Inv [] st tr (TPropagate n outs l :: rest) →
  ∃ new st' tr', propagate moved node n outs l st tr = Some (new, st', tr') ∧ Inv [] st' tr' (new ++ rest).
Proof.
  intros HI. pose proof HI as [I1 I2 I3 I4 I5 I6 I7 I8 I9 I10 I11 I12 I13]. apply Forall_cons in I6 as [(Hin&Hls&item&Hd&Hdead&Ho) Hrest].
  destruct (propagate_event _ _ _ _ _ _ HI) as (Hfresh&He&Hb).
  set (d := tn_node n) in *. set (S := sent (log tr)) in *. set (ev := mkEvent d (tn_dead n) outs) in *.
  destruct (frame_there _ _ _ _ HI) as (f&it&Hf&Hit&Hp1&Hp2&Hok&Hops); [cbn; lia|]. pose proof (iteration_bound _ _ _ _ HI) as Hbound.
  destruct (ActivateNodes_ok moved node nodes total Hview item ev S _ it Hd Hb Hok) as (ready&it'&Ea&Hok'&Hnew&Hops').
  { unfold is_u32. lia. } { by eapply outcome_length. }
  pose proof (newly_length node nodes total Hview _ _ _ Hnew) as Hrl.
  destruct (propagate_places n outs l ready tr ev rest eq_refl Hls) as (ER&Htk&Hpl&Hio&Eu). fold d in ER, Htk, Hpl, Hio, Eu.
  set (l' := mkLocal (l_status l) (l_completed l) ready (l_inline l)) in *. set (tr' := mkTrace (calls tr) (log tr ++ [ev]) (failed tr)) in *.
  set (ths := TPropagate n outs l :: rest) in *. set (ths' := TCount d l' :: rest) in *.
  destruct (decrement_frame f it' (iteration_ops [] tr' ths') Hp1 Hp2) as (f'&Ed&Hf1&Hf2).
  { apply (io_frames _ _ _ _ _ _ Hok'). } { lia. } { lia. }
  assert (Esent : sent (log tr') = S ++ sent [ev]) by apply sent_app.
  assert (Hmono : ∀ x, active S x = true → active (S ++ sent [ev]) x = true) by (intros x Hx; by apply (active_stable node nodes S (sent [ev]) x Hb Hx)).
  assert (Htak : ∀ x, x ∈ taken [] tr ths → active S x = true) by (intros x Hx; apply I3; unfold places; rewrite !elem_of_app; tauto).
  assert (Hfail : ∀ x, x ∈ failed tr → active S x = true) by (intros x Hx; apply Htak; unfold taken; rewrite !elem_of_app; tauto).
  exists [TCount d l'], (set_frame (if (iteration_ops [] tr' ths' =? 0)%nat then None else Some f') st), tr'. split.
  { unfold propagate, PropagateOutputs. fold d. rewrite Hd. cbn [mbind option_bind]. destruct (v_frames _ _ _ _ Hview _ _ Hd) as [_ ->].
    rewrite Hf. cbn [mbind option_bind]. rewrite Hit. cbn [mbind option_bind]. change (ActivateNodes moved node item (tn_dead n) outs [] it = Some (ready, it')) in Ea. rewrite Ea. cbn [mbind option_bind].
    rewrite Ed. done. }
  cbn [app]. fold ths'. split; rewrite ?Esent; try done.
  - rewrite Hpl. apply NoDup_app. split_and!; [apply Hnew| |done]. intros x [Hx _]%Hnew Hx'%I3. change (active S x = true) in Hx'. congruence.
  - intros x. rewrite Hpl, elem_of_app, (nw_active _ _ _ _ _ Hnew), I3. specialize (Hmono x). destruct (active S x), (active (S ++ sent [ev]) x); intuition congruence.
  - change (done_nodes ths') with (d :: done_nodes rest). constructor; [|done]. intros Hx. apply Hfresh. by apply (done_taken _ _ _ _ HI).
  - intros m item' Hm Hm'. rewrite ER in Hm.
    assert (Hcase : m ∈ ready ∨ m ∈ queue_nodes ths ++ ready_nodes ths).
    { rewrite !elem_of_app in *. change (queue_nodes ths) with (queue_nodes ths'). change (ready_nodes ths) with (ready_nodes rest). tauto. }
    destruct Hcase as [Hr|Hq]; [by apply (nw_dead _ _ _ _ _ Hnew)|]. rewrite (I5 m item' Hq Hm'). symmetry. apply (given_stable S (sent [ev]) Hb); [|done].
    apply I3. unfold places. rewrite (assoc app), <- fmap_app. apply elem_of_app. left. by apply list_elem_of_fmap_2.
  - constructor.
    + cbn. split_and!; [done|by rewrite Hls|]. rewrite fmap_app, !elem_of_app. left. right. by left.
    + rewrite Forall_forall in *. intros th Hth. apply (thread_ok_sent S (sent [ev]) Hb tr ev); [|done|by apply Hrest].
      intros x Hx. apply Htak. unfold taken. rewrite !elem_of_app. right. left. apply elem_of_app. right. apply list_elem_of_bind. eauto.
  - apply counted_frame with (it := it'); [done|done|]. rewrite Esent. apply (iter_ok_taken _ _ _ _ Hok'). intros x. by rewrite Htk.
  - cbn [num_outstanding_ops set_frame]. by rewrite I8, Eu.
  - cbn [deleted set_frame]. by rewrite Eu.
  - cbn [status_ aborts set_frame]. destruct (ok (status_ st)); [done|]. destruct I11 as [Ha Hee]. split; [done|]. by apply error_of_sent.
  - intros c Hc. rewrite Htk. destruct (I13 c Hc) as [H1 H2]. split; [done|]. apply call_ok_sent; [done|by apply Htak|done].
Qed.

(** ** [NodeDone] and [Finish] *)

Lemma thread_ok_status S tr s s' th : (ok s = false → ok s' = false) → thread_ok S tr s th → thread_ok S tr s' th.
Proof. intros Hs. destruct th; cbn; try done; intuition auto. Qed.

Lemma note_ok n l st tr rest : Inv [] st tr (TNote n l :: rest) → Inv [] (note_error (l_status l) st) tr (TCount n l :: rest).
Proof.
  intros HI. pose proof HI as [I1 I2 I3 I4 I5 I6 I7 I8 I9 I10 I11 I12 I13]. apply Forall_cons in I6 as [(Hin&Hs&Hn&He) Hrest].
  assert (ER : ready_nodes (TCount n l :: rest) = ready_nodes (TNote n l :: rest)) by (unfold ready_nodes; cbn; by rewrite Hs).
  assert (Epl : places [] tr (TCount n l :: rest) = places [] tr (TNote n l :: rest)) by (unfold places; by rewrite ER).
  destruct (inv_running _ _ _ _ HI) as [Hdel _]; [unfold units, done_nodes; cbn; lia|]. rewrite Hdel in *.
  assert (Hst : ok (status_ (note_error (l_status l) st)) = false) by (unfold note_error; destruct (ok (status_ st)) eqn:E; cbn; done).
  assert (Hfields : root_frame (note_error (l_status l) st) = root_frame st ∧ num_outstanding_ops (note_error (l_status l) st) = num_outstanding_ops st ∧
    deleted (note_error (l_status l) st) = false ∧ done_calls (note_error (l_status l) st) = done_calls st) by (unfold note_error; by destruct (ok (status_ st))).
  destruct Hfields as (F1&F2&F3&F4). split; try done.
  - by rewrite Epl.
  - intros d. by rewrite Epl.
  - intros m item. rewrite ER. apply I5.
  - constructor.
    + cbn. split_and!; [done|done|]. apply elem_of_app. by right.
    + eapply Forall_impl; [exact Hrest|]. intros th. by apply thread_ok_status.
  - unfold frame_ok. rewrite F1. unfold frame_ok in I7. destruct (root_frame st) as [f|]; [|by rewrite ER].
    unfold iteration_ops in *. rewrite ER. exact I7.
  - by rewrite F2.
  - by rewrite F3.
  - by rewrite F3, F4.
  - rewrite Hst. unfold note_error in *. destruct (ok (status_ st)) eqn:Es; cbn [status_ aborts] in *.
    + destruct I11 as [-> _]. split; [done|]. by destruct He.
    + exact I11.
Qed.

(** [ScheduleReady] gives every ready node to the queue or to the runner. *)
Lemma schedule_loop_ok ready : ∀ curr q spawned, queue_ok q → (∀ n, n ∈ ready → is_Some (node (tn_node n))) →
  ∃ curr' q' spawned', schedule_loop node ready curr q spawned = Some (curr', q', spawned') ∧ queue_ok q' ∧
    queued q' ++ spawned' ++ option_list curr' ≡ₚ queued q ++ spawned ++ option_list curr ++ ready ∧ (length (queued q) ≤ length (queued q'))%nat.
Proof.
  induction ready as [|n ready IH]; intros curr q spawned Hq Hn; cbn [schedule_loop].
  - exists curr, q, spawned. split_and!; [done|done|by rewrite app_nil_r|done].
  - destruct (Hn n) as [item Hi]; [by left|]. rewrite Hi. cbn [mbind option_bind]. destruct (tn_dead n || negb (kernel_is_expensive item)).
    + destruct (push_back_queued n q Hq) as [Hq' Eq]. destruct (IH curr (push_back n q) spawned Hq') as (c&q2&s2&E&Hq2&Hp&Hl); [intros m Hm; apply Hn; by right|].
      exists c, q2, s2. split_and!; [done|done| |rewrite Eq, length_app in Hl; lia]. rewrite Hp, Eq, <- !(assoc app). apply Permutation_app_head. cbn [app]. by rewrite <- !Permutation_middle.
    + destruct (IH (Some n) q (match curr with Some c => spawned ++ [c] | None => spawned end) Hq) as (c&q2&s2&E&Hq2&Hp&Hl); [intros m Hm; apply Hn; by right|].
      exists c, q2, s2. split_and!; [done|done| |done]. rewrite Hp. apply Permutation_app_head. destruct curr; cbn; by rewrite <- ?(assoc app).
Qed.

Lemma ScheduleReady_ok ready inline : from_option queue_ok True inline → (∀ n, n ∈ ready → is_Some (node (tn_node n))) →
  ∃ inline' spawned, ScheduleReady node ready inline = Some (inline', spawned) ∧ from_option queue_ok True inline' ∧
    from_option queued [] inline' ++ spawned ≡ₚ from_option queued [] inline ++ ready ∧
    (length (from_option queued [] inline) ≤ length (from_option queued [] inline'))%nat.
Proof.
  intros Hq Hn. destruct inline as [q|]; cbn [ScheduleReady from_option] in *; [|by exists None, ready].
  destruct (schedule_loop_ok ready None q [] Hq Hn) as (c&q'&s&->&Hq'&Hp&Hl). cbn [mbind option_bind]. cbn [option_list app] in Hp.
  destruct c as [c|]; [|exists (Some q'), s; split_and!; [done|done| |done]; by rewrite <- Hp, app_nil_r].
  destruct (queue_empty q').
  - destruct (push_back_queued c q' Hq') as [Hq2 Eq2]. exists (Some (push_back c q')), s. split_and!; [done|done| |cbn [from_option]; rewrite Eq2, length_app; lia]. cbn [from_option]. rewrite Eq2, <- Hp, <- (assoc app).
    by rewrite (Permutation_app_comm [c] s).
  - exists (Some q'), (s ++ [c]). by split_and!.
Qed.

(** The threads that are started. *)
Lemma process_threads S tr status spawned : let ths := process_thread <$> spawned in
  queue_nodes ths = spawned ∧ ready_nodes ths = [] ∧ hot_nodes ths = [] ∧ done_nodes ths = [] ∧ notes ths = 0%nat ∧ finals ths = 0%nat ∧
  Forall (thread_ok S tr status) ths.
Proof.
  cbn zeta. induction spawned as [|n spawned (H1&H2&H3&H4&H5&H6&H7)]; [by split_and!|]. cbn [fmap list_fmap].
  unfold queue_nodes, ready_nodes, hot_nodes, done_nodes, notes, finals in *. cbn [mbind list_bind fmap list_fmap sum_list_with process_thread th_queue th_ready th_hot th_done th_notes th_final l_inline l_completed from_option].
  split_and!; try done; [by rewrite H1|]. constructor; [|done]. cbn. split; [|done]. right. cbn. lia.
Qed.

Lemma queue_nodes_app a b : queue_nodes (a ++ b) = queue_nodes a ++ queue_nodes b.
Proof. apply bind_app. Qed.
Lemma ready_nodes_app a b : ready_nodes (a ++ b) = ready_nodes a ++ ready_nodes b.
Proof. apply bind_app. Qed.
Lemma hot_nodes_app a b : hot_nodes (a ++ b) = hot_nodes a ++ hot_nodes b.
Proof. apply bind_app. Qed.
Lemma done_nodes_app a b : done_nodes (a ++ b) = done_nodes a ++ done_nodes b.
Proof. apply bind_app. Qed.
Lemma sums_app a b : notes (a ++ b) = (notes a + notes b)%nat ∧ finals (a ++ b) = (finals a + finals b)%nat.
Proof. unfold notes, finals. rewrite !fmap_app. split; apply sum_list_with_app. Qed.

(** What [node_done] does with the count and the ready nodes [R] of the thread. *)
Lemma node_done_result n l st tr rest : Inv [] st tr (TCount n l :: rest) → let R := th_ready (TCount n l) in
  ∃ inline spawned, node_done node l st tr =
      Some (TLoop (mkLocal (l_status l) (units [] (TCount n l :: rest) + length R =? 1)%nat (l_ready l) inline) :: (process_thread <$> spawned),
            set_count (Z.of_nat (units [] (TCount n l :: rest) + length R - 1)) st, tr) ∧
    from_option queue_ok True inline ∧ from_option queued [] inline ++ spawned ≡ₚ from_option queued [] (l_inline l) ++ R ∧
    (length (from_option queued [] (l_inline l)) ≤ length (from_option queued [] inline))%nat.
Proof.
  intros HI R. pose proof (inv_threads _ _ _ _ HI) as Ht. apply Forall_cons in Ht as [(Hin&Hs&Hn) _].
  pose proof (units_bound _ _ _ _ HI) as Hb. pose proof (v_count _ _ _ _ Hview) as Hc.
  assert (Hlen : length (ready_nodes (TCount n l :: rest)) = (length R + length (ready_nodes rest))%nat) by (unfold ready_nodes; cbn [mbind list_bind]; by rewrite length_app).
  assert (Hu : (0 < units [] (TCount n l :: rest))%nat) by (unfold units, done_nodes; cbn; lia).
  set (u := units [] (TCount n l :: rest)) in *.
  assert (Hsched : ∃ inline spawned, (if ok (l_status l) then ScheduleReady node (l_ready l) (l_inline l) else Some (l_inline l, [])) = Some (inline, spawned) ∧
    from_option queue_ok True inline ∧ from_option queued [] inline ++ spawned ≡ₚ from_option queued [] (l_inline l) ++ R ∧
    (length (from_option queued [] (l_inline l)) ≤ length (from_option queued [] inline))%nat).
  { unfold R. cbn [th_ready]. destruct (ok (l_status l)) eqn:Es; [|by exists (l_inline l), []].
    apply ScheduleReady_ok; [done|]. intros m Hm. assert (Hp : tn_node m ∈ places [] tr (TCount n l :: rest)).
    { unfold places, ready_nodes. cbn [mbind list_bind th_ready]. rewrite Es, fmap_app, !elem_of_app. right. left. left. by apply list_elem_of_fmap_2. }
    apply (place_active _ _ _ _ HI) in Hp as (item&->&_). eauto. }
  destruct Hsched as (inline&spawned&Es&Hq&Hp&Hl). exists inline, spawned. split; [|by split_and!]. unfold node_done. rewrite (inv_count _ _ _ _ HI), Es. fold u. cbn [mbind option_bind].
  unfold R. cbn [th_ready]. unfold R in Hlen. cbn [th_ready] in Hlen. destruct (ok (l_status l)); cbn [negb orb].
  - rewrite orb_false_r. destruct (l_ready l) as [|m [|m' ready]]; cbn [length] in *.
    + cbn [Z.of_nat Z.eqb]. rewrite Nat.add_0_r. replace (Z.of_nat u =? 1) with (u =? 1)%nat by (destruct (Nat.eqb_spec u 1), (Z.eqb_spec (Z.of_nat u) 1); lia).
      rewrite i32_small by (unfold is_i32; lia). by replace (Z.of_nat (u - 1)) with (Z.of_nat u - 1) by lia.
    + replace (u + 1 =? 1)%nat with false by (symmetry; apply Nat.eqb_neq; lia). replace (u + 1 - 1)%nat with u by lia. reflexivity.
    + replace (Z.of_nat (Datatypes.S (Datatypes.S (length ready))) =? 0) with false by (symmetry; apply Z.eqb_neq; lia).
      replace (1 <? Z.of_nat (Datatypes.S (Datatypes.S (length ready)))) with true by (symmetry; apply Z.ltb_lt; lia).
      rewrite i32_small by (unfold is_i32; lia). replace (u + _ =? 1)%nat with false by (symmetry; apply Nat.eqb_neq; lia).
      by replace (Z.of_nat u + (Z.of_nat (Datatypes.S (Datatypes.S (length ready))) - 1)) with (Z.of_nat (u + Datatypes.S (Datatypes.S (length ready)) - 1)) by lia.
  - rewrite orb_true_r. cbn [length]. rewrite Nat.add_0_r. replace (Z.of_nat u =? 1) with (u =? 1)%nat by (destruct (Nat.eqb_spec u 1), (Z.eqb_spec (Z.of_nat u) 1); lia).
    rewrite i32_small by (unfold is_i32; lia). by replace (Z.of_nat (u - 1)) with (Z.of_nat u - 1) by lia.
Qed.

Lemma count_ok n l st tr rest : Inv [] st tr (TCount n l :: rest) →
  ∃ new st' tr', node_done node l st tr = Some (new, st', tr') ∧ Inv [] st' tr' (new ++ rest).
Proof.
  intros HI. destruct (node_done_result _ _ _ _ _ HI) as (inline&spawned&E&Hq&Hp&_). eexists _, _, _. split; [exact E|].
  pose proof HI as [I1 I2 I3 I4 I5 I6 I7 I8 I9 I10 I11 I12 I13]. apply Forall_cons in I6 as [(Hin&Hs&Hn) Hrest].
  destruct (inv_running _ _ _ _ HI) as [Hdel Hfin]; [unfold units, done_nodes; cbn; lia|].
  set (R := th_ready (TCount n l)) in *. set (l' := mkLocal _ _ _ inline). set (ths' := (TLoop l' :: (process_thread <$> spawned)) ++ rest).
  destruct (process_threads (sent (log tr)) tr (status_ st) spawned) as (P1&P2&P3&P4&P5&P6&P7).
  assert (EQ : queue_nodes ths' ≡ₚ R ++ queue_nodes (TCount n l :: rest)).
  { unfold ths'. rewrite queue_nodes_app. change (queue_nodes (TLoop l' :: (process_thread <$> spawned))) with (from_option queued [] inline ++ queue_nodes (process_thread <$> spawned)).
    rewrite P1, Hp. change (queue_nodes (TCount n l :: rest)) with (from_option queued [] (l_inline l) ++ queue_nodes rest). rewrite (assoc app R). by rewrite (Permutation_app_comm R). }
  assert (ER : ready_nodes (TCount n l :: rest) = R ++ ready_nodes ths').
  { unfold ths'. rewrite ready_nodes_app. change (ready_nodes (TLoop l' :: (process_thread <$> spawned))) with (ready_nodes (process_thread <$> spawned)). by rewrite P2. }
  assert (EH : hot_nodes ths' = hot_nodes (TCount n l :: rest)).
  { unfold ths'. rewrite hot_nodes_app. change (hot_nodes (TLoop l' :: (process_thread <$> spawned))) with (hot_nodes (process_thread <$> spawned)). by rewrite P3. }
  assert (ED : done_nodes (TCount n l :: rest) = n :: done_nodes ths').
  { unfold ths'. rewrite done_nodes_app. change (done_nodes (TLoop l' :: (process_thread <$> spawned))) with (done_nodes (process_thread <$> spawned)). by rewrite P4. }
  destruct (sums_app (TLoop l' :: (process_thread <$> spawned)) rest) as [EN EF]. fold ths' in EN, EF.
  change (notes (TLoop l' :: (process_thread <$> spawned))) with (notes (process_thread <$> spawned)) in EN. rewrite P5 in EN.
  change (finals (TLoop l' :: (process_thread <$> spawned))) with ((if l_completed l' then 1 else 0) + finals (process_thread <$> spawned))%nat in EF. rewrite P6 in EF.
  assert (Hun : (units [] (TCount n l :: rest) + length R)%nat = Datatypes.S (units [] ths')).
  { unfold units. rewrite EQ, EH, ED, !length_app. cbn [length]. lia. }
  assert (Htk : taken [] tr ths' = taken [] tr (TCount n l :: rest)) by (unfold taken; by rewrite EH).
  assert (Hpl : places [] tr ths' ≡ₚ places [] tr (TCount n l :: rest)).
  { unfold places. rewrite Htk, EQ, ER, !fmap_app, <- (assoc app). rewrite (Permutation_app_swap_app (tn_node <$> R)). by rewrite <- !(assoc app). }
  assert (Hop : iteration_ops [] tr ths' = iteration_ops [] tr (TCount n l :: rest)).
  { unfold iteration_ops. rewrite EQ, EH, ER, !length_app. lia. }
  split; try done.
  - by rewrite Hpl.
  - intros d. by rewrite Hpl.
  - rewrite ED in I4. by apply NoDup_cons in I4 as [_ I4].
  - intros m item. rewrite EQ. intros Hm. apply I5. rewrite ER. rewrite !elem_of_app in *. tauto.
  - unfold ths'. apply Forall_app. split; [|done]. constructor; [|done]. by split.
  - unfold frame_ok. cbn [root_frame set_count]. rewrite Hop, Htk. unfold frame_ok in I7. destruct (root_frame st) as [f|]; [done|].
    destruct I7 as (H1&H2&H3&H4). rewrite H2 in ER. symmetry in ER. apply app_eq_nil in ER as [ER1 ER2]. rewrite EH, ER2, H4. split_and!; try done.
    apply Permutation_nil_r. by rewrite EQ, ER1, H1.
  - cbn [num_outstanding_ops set_count]. f_equal. lia.
  - cbn [deleted set_count]. rewrite Hdel, EF. cbn [l_completed l']. rewrite Hun. change (finals (TCount n l :: rest)) with (finals rest) in Hfin. rewrite Hfin.
    destruct (units [] ths'); done.
  - cbn [status_ aborts set_count]. rewrite EN. exact I11.
  - intros c Hc. rewrite Htk. by apply I13.
Qed.

Lemma finish_ok st tr rest : Inv [] st tr (TFinish :: rest) → deleted st = false ∧ Inv [] (Finish sync_on_finish device_sync st) tr rest.
Proof.
  intros HI. pose proof HI as [I1 I2 I3 I4 I5 I6 I7 I8 I9 I10 I11 I12 I13]. apply Forall_cons in I6 as [_ Hrest].
  change (finals (TFinish :: rest)) with (Datatypes.S (finals rest)) in I9. change (units [] (TFinish :: rest)) with (units [] rest) in *.
  assert (Hz : deleted st = false ∧ finals rest = 0%nat ∧ units [] rest = 0%nat).
  { destruct (Nat.eqb_spec (units [] rest) 0), (deleted st); split_and!; (done || lia). }
  destruct Hz as (Hdel&Hf&Hu). split; [done|]. rewrite Hdel in *.
  assert (Hnil : queue_nodes rest = [] ∧ hot_nodes rest = [] ∧ done_nodes rest = []).
  { unfold units in Hu. split_and!; apply length_zero_iff_nil; lia. }
  destruct Hnil as (N1&N2&N3).
  assert (N4 : ready_nodes rest = []).
  { apply elem_of_nil_inv. intros m [th [Hm Hth]]%list_elem_of_bind. assert (Hd : th_done th = []).
    { apply elem_of_nil_inv. intros x Hx. assert (Hx' : x ∈ done_nodes rest) by (apply list_elem_of_bind; eauto). rewrite N3 in Hx'. by apply elem_of_nil in Hx'. }
    destruct th; cbn in *; try done; by apply elem_of_nil in Hm. }
  split; try done.
  - cbn. rewrite Hu. cbn. lia.
  - cbn. by rewrite I10.
Qed.

(** A thread leaves the loop. *)
Lemma leave_ok l l' st tr rest : Inv [] st tr (TLoop l :: rest) → leaves (TLoop l : Thread) = Some l' → Inv [] st tr ((if l_completed l' then [TFinish] else []) ++ rest).
Proof.
  intros HI Hl. pose proof HI as [I1 I2 I3 I4 I5 I6 I7 I8 I9 I10 I11 I12 I13]. apply Forall_cons in I6 as [[Hin Hs] Hrest].
  assert (Hq : th_queue (TLoop l) = [] ∧ l' = l).
  { cbn in *. unfold inline_ok in Hin. destruct (l_inline l) as [q|]; [|by injection Hl as <-]. cbn in *. rewrite (queue_empty_queued _ Hin) in Hl.
    case_bool_decide; [|done]. by injection Hl as <-. }
  destruct Hq as [Hq ->]. set (th := if l_completed l then [TFinish] else []).
  assert (EQ : queue_nodes (th ++ rest) = queue_nodes (TLoop l :: rest)).
  { rewrite queue_nodes_app. change (queue_nodes (TLoop l :: rest)) with (th_queue (TLoop l) ++ queue_nodes rest). rewrite Hq. unfold th. by destruct (l_completed l). }
  assert (ER : ready_nodes (th ++ rest) = ready_nodes (TLoop l :: rest)) by (rewrite ready_nodes_app; unfold th; by destruct (l_completed l)).
  assert (EH : hot_nodes (th ++ rest) = hot_nodes (TLoop l :: rest)) by (rewrite hot_nodes_app; unfold th; by destruct (l_completed l)).
  assert (ED : done_nodes (th ++ rest) = done_nodes (TLoop l :: rest)) by (rewrite done_nodes_app; unfold th; by destruct (l_completed l)).
  assert (EN : notes (th ++ rest) = notes (TLoop l :: rest)) by (rewrite (proj1 (sums_app _ _)); unfold th; by destruct (l_completed l)).
  assert (EF : finals (th ++ rest) = finals (TLoop l :: rest)).
  { rewrite (proj2 (sums_app _ _)). change (finals (TLoop l :: rest)) with ((if l_completed l then 1 else 0) + finals rest)%nat. unfold th. by destruct (l_completed l). }
  assert (Hpl : places [] tr (th ++ rest) = places [] tr (TLoop l :: rest)) by (unfold places, taken; by rewrite EQ, ER, EH).
  assert (Hun : units [] (th ++ rest) = units [] (TLoop l :: rest)) by (unfold units; by rewrite EQ, EH, ED).
  assert (Htk : taken [] tr (th ++ rest) = taken [] tr (TLoop l :: rest)) by (unfold taken; by rewrite EH).
  destruct tr as [cs lg fl]. apply (relocate [] [] st cs lg fl cs fl (TLoop l :: rest)); try done.
  - by rewrite Hpl.
  - by rewrite EQ, ER.
  - by rewrite ED.
  - apply Forall_app. split; [|done]. unfold th. destruct (l_completed l); by repeat constructor.
  - unfold frame_ok, iteration_ops in *. by rewrite EQ, ER, EH, Htk.
  - by rewrite EN.
  - intros c. rewrite Htk. apply I13.
Qed.

(** ** Steps *)

#[local] Abbreviation step := (step moved kEmptyTensor dtype node kernel sync_on_finish device_sync).

Definition sys_ok (sys : @System T C) : Prop := Inv [] (state sys) (trace sys) (threads sys).

(** Every thread can go on, and the invariant is kept. *)
Lemma step_ok sys t : sys_ok sys → (t < length (threads sys))%nat → ∃ sys', step t sys = Some sys' ∧ sys_ok sys'.
Proof.
  unfold sys_ok. destruct sys as [st tr ths]. cbn [state trace threads]. intros HI Ht. destruct (lookup_lt_is_Some_2 _ _ Ht) as [th Hth].
  apply (call_Inv_perm _ _ _ _ _ (delete_Permutation _ _ _ Hth)) in HI. unfold Executor.step. cbn [threads state trace]. rewrite Hth. cbn [mbind option_bind].
  destruct (leaves th) as [l'|] eqn:El.
  { eexists. split; [done|]. cbn. destruct th; try done. by eapply leave_ok. }
  assert (Hdel : deleted st = false).
  { destruct th as [l|n ins idead|n outs l|n l|n l|]; [|by apply (inv_running _ _ _ _ HI); unfold units, hot_nodes, done_nodes; cbn; lia..|by destruct (finish_ok _ _ _ HI)].
    apply (inv_running _ _ _ _ HI). cbn in El. pose proof (inv_threads _ _ _ _ HI) as Hts. apply Forall_cons in Hts as [[Hin _] _].
    destruct (l_inline l) as [q|] eqn:Eq; [|done]. unfold inline_ok in Hin. rewrite Eq in Hin. cbn in Hin. destruct (queue_empty q) eqn:Ee; [done|].
    rewrite (queue_empty_queued _ Hin) in Ee. apply bool_decide_eq_false in Ee. unfold units, queue_nodes. cbn. rewrite Eq. cbn. rewrite length_app. destruct (queued q); [done|]. cbn. lia. }
  rewrite Hdel. assert (Hrun : ∃ new st' tr', run_thread moved kEmptyTensor dtype node kernel sync_on_finish device_sync th st tr = Some (new, st', tr') ∧ Inv [] st' tr' (new ++ delete t ths)).
  { destruct th as [l|n ins idead|n outs l|n l|n l|]; cbn [run_thread].
    - cbn in El. pose proof (inv_threads _ _ _ _ HI) as Hts. apply Forall_cons in Hts as [[Hin _] _].
      destruct (l_inline l) as [q|] eqn:Eq; [|done]. unfold inline_ok in Hin. rewrite Eq in Hin. cbn in Hin. destruct (queue_empty q) eqn:Ee; [done|].
      rewrite (queue_empty_queued _ Hin) in Ee. apply bool_decide_eq_false in Ee. destruct (queued q) as [|n ns] eqn:Eqd; [done|].
      assert (Hf : front q = Some n) by (rewrite (front_queued _ Hin), Eqd; done). rewrite Hf. cbn [mbind option_bind]. by apply process_node_ok.
    - by apply async_done_ok.
    - by apply propagate_ok.
    - eexists _, _, _. split; [done|]. by apply note_ok.
    - by eapply count_ok.
    - eexists _, _, _. split; [done|]. by apply finish_ok. }
  destruct Hrun as (new&st'&tr'&->&HI'). eexists. by split.
Qed.
End invariant.
