(* ===== verification/ExecutorRuns.v ===== *)
(** * Runs of the executor

    What any schedule of the threads of a step does, from [RunAsync] on: the refinement of
    the dataflow machine, a bound on the number of steps, and what holds when no thread is
    left. *)
From S2P Require Import Prelude Status Graph PendingCounts DataTypes Activation Dataflow Executor Propagation ExecutorInvariant.
Local Open Scope Z_scope.

Section runs.
Context {T : Type} (moved kEmptyTensor : T) (dtype : T → Z).
Context {C : Type} `{NC : NodeCounter C}.
Context (node : nat → option NodeItem) (nodes : list nat) (total : nat).
Context (kernel : nat → list (option T) → bool → KernelResult T).
Context (sync_on_finish : bool) (device_sync : Status).
Context (Hview : view_ok node nodes total max_dead).

#[local] Abbreviation Thread := (@Thread T).
#[local] Abbreviation Trace := (@Trace T).
#[local] Abbreviation System := (@System T C).
#[local] Abbreviation sent := (sent node).
#[local] Abbreviation outcome := (outcome kEmptyTensor dtype node kernel).
#[local] Abbreviation evaluation := (evaluation node nodes outcome).
#[local] Abbreviation sys_ok := (sys_ok kEmptyTensor dtype node nodes total kernel sync_on_finish device_sync).
#[local] Abbreviation step := (step moved kEmptyTensor dtype node kernel sync_on_finish device_sync).
#[local] Abbreviation run := (run moved kEmptyTensor dtype node kernel sync_on_finish device_sync).
#[local] Abbreviation run_thread := (run_thread moved kEmptyTensor dtype node kernel sync_on_finish device_sync).

(** ** The start *)

(** [root_nodes_]. *)
Definition root_nodes : list nat := filter (λ d, edges_into node nodes d = []) nodes.

(** The counts that a node starts with. *)
Definition initial_count (d : nat) (item : NodeItem) : NodeCounts :=
  waiting (if is_merge item then 1 + 2 * Z.of_nat (num_control node nodes d) else Z.of_nat (num_control node nodes d + num_data node nodes d)) 0.

Definition counts_ok (c : C) : Prop :=
  ∃ m, counts_rep c m ∧ ∀ d item, node d = Some item → is_sink item = false → m !! pending_id item = Some (initial_count d item).

Lemma no_edges d : edges_into node nodes d = [] ↔ num_control node nodes d = 0%nat ∧ num_data node nodes d = 0%nat.
Proof.
  unfold num_control, num_data. split; [by intros ->|]. intros [H1%length_zero_iff_nil H2%length_zero_iff_nil]. apply elem_of_nil_inv. intros e He.
  destruct (is_control e) eqn:Ec; [assert (Hx : e ∈ filter (λ e, is_control e = true) (edges_into node nodes d)) by (by apply list_elem_of_filter); rewrite H1 in Hx
    |assert (Hx : e ∈ filter (λ e, is_control e = false) (edges_into node nodes d)) by (by apply list_elem_of_filter); rewrite H2 in Hx]; by apply elem_of_nil in Hx.
Qed.

(** The root nodes are those that are active before anything is sent. *)
Lemma root_active d : d ∈ root_nodes ↔ active node nodes (@nil (@Arrival T)) d = true.
Proof.
  unfold root_nodes. rewrite list_elem_of_filter, (v_node _ _ _ _ Hview), no_edges. split.
  - intros [[H1 H2] [item Hd]]. eapply node_active; [done|right; by apply no_edges|]. unfold fired. rewrite H1, H2. by destruct (is_merge item).
  - intros (item&Hd&_&Hf)%active_node. split; [|eauto]. unfold fired in Hf. destruct (is_merge item) eqn:Hm.
    + destruct (v_merge _ _ _ _ Hview _ _ Hd Hm) as [_ Hpos]. destruct (num_control node nodes d), (num_data node nodes d); cbn in Hf; (done || lia).
    + apply Nat.eqb_eq in Hf. cbn in Hf. lia.
Qed.

Lemma root_dead d item : d ∈ root_nodes → node d = Some item → dead_of item (@nil (@Arrival T)) = false.
Proof.
  unfold root_nodes. intros [He _]%list_elem_of_filter Hd. apply no_edges in He as [_ He]. unfold dead_of. destruct (is_control_trigger item); [done|].
  destruct (is_merge item) eqn:Hm; [|done]. destruct (v_merge _ _ _ _ Hview _ _ Hd Hm). lia.
Qed.

Lemma start_ok c sys : counts_ok c → root_nodes ≠ [] →
  RunAsync node StatusOK root_nodes (new_ExecutorState total c) = Some sys → sys_ok sys ∧ trace sys = mkTrace [] [] [] ∧ ∃ ready, threads sys = process_thread <$> ready.
Proof.
  intros (m&Hrep&Hm) Hne. unfold RunAsync. cbn [ok negb]. destruct ((λ n, mkTagged n false) <$> root_nodes) as [|x l] eqn:Er; [by apply fmap_nil_inv in Er|].
  cbn [root_frame new_ExecutorState mbind option_bind iteration0]. rewrite <- Er. clear Er x l. cbn [ScheduleReady mbind option_bind]. rewrite length_fmap. intros [= <-].
  set (ready := (λ n, mkTagged n false) <$> root_nodes). cbn [trace threads]. split; [|split; [done|by exists ready]].
  assert (Eids : tn_node <$> ready = root_nodes) by (unfold ready; rewrite <- list_fmap_compose; apply list_fmap_id).
  set (tr := mkTrace [] [] []). destruct (process_threads kEmptyTensor dtype node kernel [] tr StatusOK ready) as (P1&P2&P3&P4&P5&P6&P7).
  assert (Hlen : length ready = length root_nodes) by (unfold ready; by rewrite length_fmap).
  assert (Hpl : places [] tr (process_thread <$> ready) = root_nodes) by (unfold places, taken; rewrite P1, P2, P3; cbn; by rewrite !app_nil_r).
  assert (Hsub : Z.of_nat (length root_nodes) < 2 ^ 31).
  { pose proof (v_count _ _ _ _ Hview). unfold root_nodes. pose proof (length_filter (λ d, edges_into node nodes d = []) nodes). lia. }
  assert (Hpos : (0 < length root_nodes)%nat) by (destruct root_nodes; [done|cbn; lia]).
  unfold ExecutorInvariant.sys_ok. cbn [state trace threads]. split; cbn [log calls failed status_ num_outstanding_ops deleted done_calls aborts set_count set_frame]; try done.
  - constructor.
  - rewrite Hpl. apply NoDup_filter, Hview.
  - intros d. rewrite Hpl. apply root_active.
  - rewrite P4. constructor.
  - intros n item. rewrite P1, P2, app_nil_r. unfold ready. intros (d&->&Hd)%list_elem_of_fmap Hn. cbn in *. symmetry. by eapply root_dead.
  - unfold frame_ok. cbn [root_frame set_count set_frame num_pending_inputs num_outstanding_iterations iteration0].
    assert (Eo : iteration_ops [] tr (process_thread <$> ready) = length root_nodes) by (unfold iteration_ops; rewrite P1, P2, P3; cbn; lia).
    rewrite Eo. split_and!; [done|done|done|]. eexists. split; [done|]. split; [|done]. split; cbn [counts input_tensors outstanding_frame_count]; [|apply length_replicate| |done].
    + exists m. split; [done|]. intros d item Hd Hs. eexists. split; [by apply Hm|]. apply initial_counts.
    + intros d item i Hd _ _ Hi. pose proof (v_total _ _ _ _ Hview _ _ Hd). rewrite lookup_replicate_2 by lia. done.
  - rewrite i32_small by (unfold is_i32; lia). unfold units. rewrite P1, P3, P4. cbn. lia.
  - rewrite P6. unfold units. rewrite P1, P3, P4. cbn. rewrite Hlen. destruct (length root_nodes); [lia|done].
  - constructor.
  - by intros c' ?%elem_of_nil.
Qed.

(** ** Steps are bounded *)

Definition weight (th : Thread) : nat :=
  match th with TFinish => 1 | TLoop _ => 2 | TCount _ _ => 4 | TNote _ _ => 5 | TPropagate _ _ _ => 6 | TAsync _ _ _ => 7 end.

Definition weights (ths : list Thread) : nat := sum_list (weight <$> ths).

(** What the nodes have used up: ten for each that has taken its inputs, two in a queue. *)
Definition used (tr : Trace) (ths : list Thread) : nat :=
  10 * (length (hot_nodes ths) + length (log tr) + length (failed tr)) + 2 * length (queue_nodes ths).

Definition fuel (sys : System) : nat := 10 * length nodes - used (trace sys) (threads sys) + weights (threads sys).

Lemma weights_app a b : weights (a ++ b) = (weights a + weights b)%nat.
Proof. unfold weights. rewrite fmap_app. apply sum_list_with_app. Qed.

Lemma used_bound sys : sys_ok sys → (used (trace sys) (threads sys) ≤ 10 * length nodes)%nat.
Proof.
  intros HI. assert (Hl : places [] (trace sys) (threads sys) ⊆+ nodes).
  { apply NoDup_submseteq; [apply HI|]. intros d (item&Hd&_)%(place_active _ _ _ _ _ _ _ _ _ _ _ _ HI). apply (v_node _ _ _ _ Hview). eauto. }
  apply submseteq_length in Hl. unfold places, taken in Hl. rewrite !length_app, !length_fmap in Hl. unfold used. cbn in Hl. lia.
Qed.

(** A thread that does not leave the loop moves its node on. *)
Definition moves (th : Thread) (tr : Trace) (new : list Thread) (tr' : Trace) : Prop :=
  (weights new + used tr [th] < weight th + used tr' new)%nat.

Lemma after_compute_moves n item s outputs l (f : @FrameState T C) it st tr new st' tr' :
  after_compute n item s outputs l f it st tr = (new, st', tr') →
  (weights new ≤ 6)%nat ∧ used tr' new = (used tr [] + 10 + 2 * length (from_option queued [] (l_inline l)))%nat.
Proof.
  unfold after_compute, used. destruct (ok s); intros [= <- <- <-]; unfold hot_nodes, queue_nodes, weights; cbn; rewrite ?app_nil_r, ?length_app; cbn; lia.
Qed.

Lemma process_moves n l (st : @ExecutorState T C) tr new st' tr' : process_node kEmptyTensor dtype node kernel n l st tr = Some (new, st', tr') →
  (weights new ≤ 9)%nat ∧ used tr' new = (used tr [] + 10 + 2 * length (from_option queued [] (l_inline l)))%nat.
Proof.
  unfold process_node. destruct (node (tn_node n)) as [item|]; [|done]. cbn [mbind option_bind]. destruct (root_frame st) as [f|]; [|done]. cbn [mbind option_bind].
  destruct (iteration0 f) as [it|]; [|done]. cbn [mbind option_bind]. destruct (first_inputs item (input_tensors it)) as [entries|]; [|done]. cbn [mbind option_bind].
  destruct (_ && _); [intros [= E]; apply after_compute_moves in E as [? ?]; split; [lia|done]|].
  destruct (PrepareInputs _ _ _ _) as [[[s inputs] idead] after]. destruct (negb (ok s)); [intros [= E]; apply after_compute_moves in E as [? ?]; split; [lia|done]|].
  destruct (kernel_is_async item); [intros [= <- <- <-]; unfold used, hot_nodes, queue_nodes, weights; cbn; rewrite app_nil_r; lia|].
  destruct (ProcessOutputs dtype item _) as [s' outputs]. intros [= E]. apply after_compute_moves in E as [? ?]. split; [lia|done].
Qed.

Lemma propagate_moves n outs l (st : @ExecutorState T C) tr new st' tr' : propagate moved node n outs l st tr = Some (new, st', tr') → moves (TPropagate n outs l) tr new tr'.
Proof.
  unfold propagate. destruct (PropagateOutputs _ _ _ _ _) as [[ready st1]|]; [|done]. cbn [mbind option_bind]. intros [= <- <- <-].
  unfold moves, used, hot_nodes, queue_nodes, weights. cbn. rewrite !length_app. cbn. lia.
Qed.

Lemma run_thread_moves th st tr rest new st' tr' :
  Inv kEmptyTensor dtype node nodes total kernel sync_on_finish device_sync [] st tr (th :: rest) → leaves th = None →
  run_thread th st tr = Some (new, st', tr') → moves th tr new tr'.
Proof.
  intros HI Hl. pose proof (inv_threads _ _ _ _ _ _ _ _ _ _ _ _ HI) as Ht. apply Forall_cons in Ht as [Hth _].
  destruct th as [l|n ins idead|n outs l|n l|n l|]; cbn [Executor.run_thread].
  - cbn in Hl. destruct Hth as [Hin _]. unfold inline_ok in Hin. destruct (l_inline l) as [q|] eqn:Eq; [|done]. cbn in Hin.
    destruct (front q) as [n|] eqn:Ef; [|done]. cbn [mbind option_bind]. intros [Hw Hu]%process_moves. cbn [l_inline from_option] in Hu.
    rewrite (front_queued _ Hin) in Ef. destruct (queued q) as [|n' ns] eqn:Eqd; [done|].
    destruct (pop_front_queued q Hin) as [_ Ep]; [by rewrite Eqd|]. rewrite Eqd in Ep. rewrite Ep in Hu. cbn [tail] in Hu.
    unfold moves. rewrite Hu. unfold used, hot_nodes, queue_nodes. cbn. rewrite Eq. cbn. rewrite Eqd, app_nil_r. cbn. lia.
  - unfold async_done. destruct (node (tn_node n)) as [item|]; [|done]. cbn [mbind option_bind]. destruct (root_frame st) as [f|]; [|done]. cbn [mbind option_bind].
    destruct (iteration0 f) as [it|]; [|done]. cbn [mbind option_bind]. destruct (first_inputs item (input_tensors it)); [|done]. cbn [mbind option_bind].
    destruct (ProcessOutputs dtype item _) as [s' outputs]. intros [= E]. apply after_compute_moves in E as [Hw Hu]. cbn [l_inline from_option length] in Hu.
    unfold moves. rewrite Hu. unfold used, hot_nodes, queue_nodes. cbn. lia.
  - apply propagate_moves.
  - intros [= <- <- <-]. unfold moves, used, hot_nodes, queue_nodes, weights. cbn. lia.
  - intros E. destruct (node_done_result _ _ _ _ _ _ _ _ Hview _ _ _ _ _ HI) as (inline&spawned&E'&_&Hp&Hq). rewrite E' in E. injection E as <- <- <-.
    apply Permutation_length in Hp. rewrite !length_app in Hp.
    destruct (process_threads kEmptyTensor dtype node kernel [] tr StatusOK spawned) as (P1&_&P3&_).
    assert (Hws : weights (process_thread <$> spawned) = (2 * length spawned)%nat) by (clear; unfold weights; induction spawned; cbn in *; lia).
    unfold moves. set (l' := mkLocal _ _ _ inline). set (pts := process_thread <$> spawned : list Thread) in *.
    change (weights (TLoop l' :: pts)) with (2 + weights pts)%nat. unfold used.
    change (hot_nodes (TLoop l' :: pts)) with (hot_nodes pts). change (queue_nodes (TLoop l' :: pts)) with (from_option queued [] inline ++ queue_nodes pts).
    rewrite P1, P3, Hws, length_app. unfold hot_nodes, queue_nodes. cbn [mbind list_bind th_hot th_queue length weight app]. rewrite app_nil_r. lia.
  - intros [= <- <- <-]. unfold moves, used, hot_nodes, queue_nodes, weights. cbn. lia.
Qed.

Lemma used_app tr a b : used tr (a ++ b) = (used tr a + used tr b - used tr [])%nat ∧ (used tr [] ≤ used tr b)%nat.
Proof. unfold used. rewrite hot_nodes_app, queue_nodes_app, !length_app. cbn. lia. Qed.

(** Every step uses up fuel. *)
Lemma step_fuel sys t sys' : sys_ok sys → step t sys = Some sys' → sys_ok sys' ∧ (fuel sys' < fuel sys)%nat.
Proof.
  intros HI E. assert (Ht : (t < length (threads sys))%nat).
  { unfold Executor.step in E. destruct (threads sys !! t) eqn:Et; [|done]. by eapply lookup_lt_Some. }
  destruct (step_ok moved kEmptyTensor dtype node nodes total kernel sync_on_finish device_sync Hview sys t HI Ht) as (sys1&E1&HI').
  rewrite E in E1. injection E1 as <-. split; [done|]. pose proof (used_bound _ HI) as Hb. pose proof (used_bound _ HI') as Hb'.
  unfold Executor.step in E. destruct sys as [st tr ths]. unfold fuel. cbn [threads trace state] in *. destruct (ths !! t) as [th|] eqn:Et; [|done]. cbn [mbind option_bind] in E.
  pose proof (delete_Permutation _ _ _ Et) as Hperm. set (rest := delete t ths) in *.
  assert (Hu : used tr ths = used tr (th :: rest)) by (unfold used; by rewrite Hperm).
  assert (Hw : weights ths = (weight th + weights rest)%nat) by (unfold weights; by rewrite Hperm).
  rewrite Hw, Hu in *. destruct (used_app tr [th] rest) as [Ua Ub]. cbn [app] in Ua.
  destruct (leaves th) as [l'|] eqn:El.
  - injection E as <-. cbn [threads trace] in *. destruct th; try done. rewrite weights_app.
    destruct (used_app tr (if l_completed l' then [TFinish] else []) rest) as [Uc _]. rewrite Uc in *.
    assert (weights (if l_completed l' then [TFinish] else []) ≤ 1)%nat by (by destruct (l_completed l'); cbn; lia).
    assert (used tr (if l_completed l' then [TFinish] else []) = used tr [] ∧ used tr [TLoop l] = used tr []) as [A1 A2]; [|cbn [weight]; lia].
    split; [by destruct (l_completed l')|]. cbn in El. unfold used, queue_nodes. cbn.
    pose proof (inv_threads _ _ _ _ _ _ _ _ _ _ _ _ (call_Inv_perm _ _ _ _ _ _ _ _ _ _ _ _ _ Hperm HI)) as Hth. apply Forall_cons in Hth as [[Hin _] _].
    unfold inline_ok in Hin. destruct (l_inline l) as [q|]; [|done]. cbn in *. rewrite (queue_empty_queued _ Hin) in El. case_bool_decide as Hq; [|done]. by rewrite Hq.
  - destruct (deleted st); [done|]. destruct (run_thread th st tr) as [[[new st'] tr']|] eqn:Er; [|done]. cbn [mbind option_bind] in E. injection E as <-. cbn [threads trace] in *.
    pose proof (call_Inv_perm _ _ _ _ _ _ _ _ _ _ _ _ _ Hperm HI) as HI2.
    pose proof (run_thread_moves _ _ _ _ _ _ _ HI2 El Er) as Hm. unfold moves in Hm. rewrite weights_app.
    destruct (used_app tr' new rest) as [Uc Ud]. rewrite Uc in *.
    assert (Hr : (used tr rest - used tr [] = used tr' rest - used tr' [])%nat) by (unfold used, hot_nodes, queue_nodes; cbn [mbind list_bind length]; lia). cbn [trace] in Hm. lia.
Qed.

Lemma run_fuel schedule : ∀ sys sys', sys_ok sys → run schedule sys = Some sys' → sys_ok sys' ∧ (length schedule + fuel sys' ≤ fuel sys)%nat.
Proof.
  induction schedule as [|t schedule IH]; intros sys sys' HI; cbn [Executor.run length]; [intros [= <-]; split; [done|lia]|].
  destruct (step t sys) as [sys1|] eqn:E; [|done]. cbn [mbind option_bind]. intros Er. destruct (step_fuel _ _ _ HI E) as [HI1 Hf].
  destruct (IH _ _ HI1 Er) as [HI2 Hf2]. split; [done|lia].
Qed.

(** ** What a run does *)

(** The step is started, and every schedule keeps the invariant. *)
Lemma started c : counts_ok c → root_nodes ≠ [] → ∃ sys0, RunAsync node StatusOK root_nodes (new_ExecutorState total c) = Some sys0 ∧
  ∀ schedule sys, run schedule sys0 = Some sys → sys_ok sys ∧ (length schedule ≤ 10 * length nodes)%nat.
Proof.
  intros Hc Hne. assert (Hrun : is_Some (RunAsync (T:=T) node StatusOK root_nodes (new_ExecutorState total c))).
  { unfold RunAsync. cbn [ok negb]. destruct ((λ n, mkTagged n false) <$> root_nodes); [done|]. cbn. eauto. }
  destruct Hrun as [sys0 E0]. exists sys0. split; [done|]. destruct (start_ok c sys0 Hc Hne E0) as (HI&Htr&Hths). intros schedule sys Hr.
  destruct (run_fuel schedule sys0 sys HI Hr) as [HI' Hf]. split; [done|].
  assert (Hf0 : (fuel sys0 ≤ 10 * length nodes)%nat); [|lia].
  destruct Hths as [ready Hths]. pose proof (used_bound _ HI) as Hb. unfold fuel. rewrite Hths, Htr in *.
  destruct (process_threads kEmptyTensor dtype node kernel [] (mkTrace [] [] []) StatusOK ready) as (P1&_&P3&_).
  assert (Hws : weights (process_thread <$> ready) = (2 * length ready)%nat) by (clear; unfold weights; induction ready; cbn in *; lia).
  unfold used in *. rewrite P1, P3 in *. rewrite Hws. cbn [log failed length] in *. lia.
Qed.

(** Nothing is left when no thread is left. *)
Lemma finished sys : sys_ok sys → threads sys = [] → deleted (state sys) = true ∧
  (status_ (state sys) = StatusOK → complete node nodes (log (trace sys)) ∧ failed (trace sys) = []).
Proof.
  destruct sys as [st tr ths]. cbn [threads state trace]. intros HI ->. unfold ExecutorInvariant.sys_ok in HI. cbn [threads state trace] in HI.
  pose proof (inv_final _ _ _ _ _ _ _ _ _ _ _ _ HI) as Hf. cbn in Hf. destruct (deleted st); [split; [done|]|done].
  intros Hs. pose proof (inv_status _ _ _ _ _ _ _ _ _ _ _ _ HI) as Hst. rewrite Hs in Hst. destruct Hst as [_ Hfl]. cbn in Hfl. apply length_zero_iff_nil in Hfl.
  split; [|done]. intros d Hd%(inv_places _ _ _ _ _ _ _ _ _ _ _ _ HI). unfold places, taken in Hd. cbn in Hd. rewrite Hfl, app_nil_r in Hd. done.
Qed.
End runs.
