(* ===== verification/GraphView.v ===== *)
(** * The view of a graph

    [GraphView::Initialize], [GetMaxPendingCounts] and [ExecutorImpl::Initialize] of
    [tensorflow/core/common_runtime/executor.cc]: the items, the layout of the pending
    counts and the initial counts that are made of a [Graph] before it is run.  The graph
    has no loops, so that every node is in the root frame.  Allocator attributes are left
    out, and so is the layout of an item in memory.

    The second part shows that what is made of a well-formed graph meets what the executor
    relies on. *)
From S2P Require Import Prelude Status EdgeSet Graph GraphInvariant PendingCounts Activation Dataflow Executor ExecutorRuns.
Local Open Scope Z_scope.

(** ** Classes of nodes *)

Definition has_class (c : NodeClass) (n : Node) : bool :=
  match class_ n, c with
  | NC_SWITCH, NC_SWITCH | NC_MERGE, NC_MERGE | NC_ENTER, NC_ENTER | NC_EXIT, NC_EXIT | NC_NEXT_ITERATION, NC_NEXT_ITERATION
  | NC_CONTROL_TRIGGER, NC_CONTROL_TRIGGER | NC_SEND, NC_SEND | NC_HOST_SEND, NC_HOST_SEND | NC_RECV, NC_RECV | NC_HOST_RECV, NC_HOST_RECV => true
  | _, _ => false
  end.

Definition IsSwitch (n : Node) : bool := has_class NC_SWITCH n.
Definition IsMerge (n : Node) : bool := has_class NC_MERGE n.
Definition IsEnter (n : Node) : bool := has_class NC_ENTER n.
Definition IsExit (n : Node) : bool := has_class NC_EXIT n.
Definition IsNextIteration (n : Node) : bool := has_class NC_NEXT_ITERATION n.
Definition IsControlTrigger (n : Node) : bool := has_class NC_CONTROL_TRIGGER n.
Definition IsSend (n : Node) : bool := has_class NC_SEND n || has_class NC_HOST_SEND n.
Definition IsRecv (n : Node) : bool := has_class NC_RECV n || has_class NC_HOST_RECV n.
Definition IsTransferNode (n : Node) : bool := IsSend n || IsRecv n.

Definition node_num_inputs (n : Node) : nat := from_option (λ p, length (Graph.input_types p)) 0%nat (props_ n).
Definition node_num_outputs (n : Node) : nat := from_option (λ p, length (Graph.output_types p)) 0%nat (props_ n).

(** ** [GraphView::InitializeNode] *)

(** The entry of an out edge, before [is_last] is known. *)
Definition edge_info (g : Graph) (e : nat) : option EdgeInfo :=
  E ← edge_heap g !! e;
  d ← dst_ E;
  dn ← node_heap g !! d;
  if src_output_ E <=? 0x3FFFFFFF then Some (mkEdgeInfo (Z.to_nat (id_ dn)) (src_output_ E) false (dst_input_ E)) else None.

(** [last_indices], an array by output slot, after the edges from the index [i] on. *)
Fixpoint fill_last (slots : list Z) (i : nat) (last_indices : list (option nat)) : option (list (option nat)) :=
  match slots with
  | [] => Some last_indices
  | slot :: slots =>
      last_indices ← (if 0 <=? slot then
                        (if slot <? Z.of_nat (length last_indices) then Some (<[Z.to_nat slot := Some i]> last_indices) else None)
                      else Some last_indices);
      fill_last slots (S i) last_indices
  end.

Definition mark_last (e : EdgeInfo) : EdgeInfo := mkEdgeInfo (dst_id e) (output_slot e) true (input_slot e).

(** The loop over [last_indices]. *)
Fixpoint mark_edges (last_indices : list (option nat)) (es : list EdgeInfo) : list EdgeInfo :=
  match last_indices with
  | [] => es
  | Some i :: last_indices => mark_edges last_indices (alter mark_last i es)
  | None :: last_indices => mark_edges last_indices es
  end.

Definition InitializeNode (g : Graph) (n : Node) : option (list EdgeInfo) :=
  infos ← mapM (edge_info g) (elems (out_edges_ n));
  last_indices ← fill_last (output_slot <$> infos) 0 (replicate (node_num_outputs n) None);
  Some (mark_edges last_indices infos).

(** ** [GetMaxPendingCounts] *)

Definition control_in_edges (g : Graph) (n : Node) : list nat :=
  filter (λ e, from_option IsControlEdge false (edge_heap g !! e) = true) (elems (in_edges_ n)).

Definition GetMaxPendingCounts (g : Graph) (n : Node) : Z * Z :=
  let num_in_edges := Z.of_nat (length (elems (in_edges_ n))) in
  let initial_count :=
    if IsMerge n then 1 + Z.shiftl (Z.of_nat (length (control_in_edges g n))) 1 else num_in_edges in
  (initial_count, num_in_edges).

(** ** [ExecutorImpl::Initialize] *)

(** What is asked of a kernel that was created, and the texts of its errors. *)
Record KernelInfo := mkKernel { IsExpensive : bool; IsAsync : bool; k_def_summary : string; k_node_summary : string }.

(** What is made of the nodes so far: the items by id, [root_nodes_], [total_inputs] of the
    frame and the limits of its layout. *)
Record Prepared := mkPrepared {
  items : gmap nat NodeItem;
  root_nodes_ : list nat;
  total_inputs : nat;
  limits : list (Z * Z) }.

Section initialize.
Context (create_kernel : Node → Status * KernelInfo).

Definition make_item (n : Node) (k : KernelInfo) (edges : list EdgeInfo) (start pending : nat) : NodeItem :=
  mkItem (IsMerge n) (IsEnter n) (IsEnter n || IsExit n || IsNextIteration n) (IsControlTrigger n) (IsSink n) (IsTransferNode n)
    (IsSwitch n || IsRecv n) (IsExpensive k) (IsAsync k) (node_num_inputs n) (node_num_outputs n) start pending
    (from_option Graph.input_types [] (props_ n)) (from_option Graph.output_types [] (props_ n)) edges (k_def_summary k) (k_node_summary k).

(** The body of the loop over [nodes()]. *)
Definition init_node (g : Graph) (p : nat) (acc : Prepared) : option (Status * Prepared) :=
  n ← node_heap g !! p;
  edges ← InitializeNode g n;
  let i := Z.to_nat (id_ n) in
  let roots := if EdgeSet_empty (in_edges_ n) then root_nodes_ acc ++ [i] else root_nodes_ acc in
  let '(s, k) := create_kernel n in
  if negb (ok s) then
    Some (AppendToMessage s (" [[Node: " +:+ k_def_summary k +:+ "]]"),
          mkPrepared (items acc) roots (total_inputs acc + node_num_inputs n) (limits acc))
  else
    Some (StatusOK, mkPrepared (<[i := make_item n k edges (total_inputs acc) (length (limits acc))]> (items acc)) roots
      (total_inputs acc + node_num_inputs n) (limits acc ++ [GetMaxPendingCounts g n])).

Fixpoint init_nodes (g : Graph) (ps : list nat) (acc : Prepared) : option (Status * Prepared) :=
  match ps with
  | [] => Some (StatusOK, acc)
  | p :: ps =>
      '(s, acc) ← init_node g p acc;
      if negb (ok s) then Some (s, acc) else init_nodes g ps acc
  end.

(** [InitializePending]. *)
Fixpoint InitializePending `{StructLayout} (g : Graph) (pr : Prepared) (ps : list nat) (c : PendingCounts) : option PendingCounts :=
  match ps with
  | [] => Some c
  | p :: ps =>
      n ← node_heap g !! p;
      item ← items pr !! Z.to_nat (id_ n);
      h ← handles (limits pr) !! pending_id item;
      c ← set_initial_count h (GetMaxPendingCounts g n).1 c;
      InitializePending g pr ps c
  end.

Definition Initialize `{StructLayout} (garbage : nat → Z) (g : Graph) : option (Status * Prepared * PendingCounts) :=
  '(s, pr) ← init_nodes g (graph_nodes g) (mkPrepared ∅ [] 0 []);
  if negb (ok s) then Some (s, pr, []) else
  c ← InitializePending g pr (graph_nodes g) (new_PendingCounts (num_bytes (limits pr)) garbage);
  Some (s, pr, c).
End initialize.

(** ** The edges of an item *)

(** What of an entry is known before [is_last] is. *)
Definition strip (e : EdgeInfo) : nat * Z * Z := (dst_id e, output_slot e, input_slot e).

(** The last index of the slot [k] in [slots]. *)
Definition last_index (slots : list Z) (k j : nat) : Prop :=
  slots !! j = Some (Z.of_nat k) ∧ ∀ j', (j < j')%nat → slots !! j' ≠ Some (Z.of_nat k).

(** [last] holds the last index, if any, of each slot in [slots]. *)
Definition last_of (slots : list Z) (last : list (option nat)) : Prop :=
  ∀ k j, last !! k = Some (Some j) ↔ (k < length last)%nat ∧ last_index slots k j.

Lemma last_index_other slots s k j : s ≠ Z.of_nat k → last_index (slots ++ [s]) k j ↔ last_index slots k j.
Proof.
  intros Hs. assert (Hl : ∀ i, (slots ++ [s]) !! i = Some (Z.of_nat k) ↔ slots !! i = Some (Z.of_nat k)).
  { intros i. rewrite lookup_app. destruct (slots !! i) as [x|] eqn:E; [done|]. apply lookup_ge_None in E.
    destruct (i - length slots)%nat; cbn; [split; [congruence|done]|done]. }
  unfold last_index. rewrite Hl. by setoid_rewrite Hl.
Qed.

Lemma last_index_here slots k j : last_index (slots ++ [Z.of_nat k]) k j ↔ j = length slots.
Proof.
  unfold last_index. assert (Hn : (slots ++ [Z.of_nat k]) !! length slots = Some (Z.of_nat k)) by (by rewrite lookup_app_r, Nat.sub_diag).
  split; [|intros ->; split; [done|]].
  - intros [Hj Hlater]. destruct (lt_eq_lt_dec j (length slots)) as [[Hlt| ->]|Hgt]; [by apply Hlater in Hn|done|].
    apply lookup_lt_Some in Hj. rewrite length_app in Hj. cbn in Hj. lia.
  - intros j' Hj'. rewrite lookup_ge_None_2; [done|]. rewrite length_app. cbn. lia.
Qed.

Lemma fill_last_ok slots : ∀ before last, last_of before last →
  Forall (λ s, s < Z.of_nat (length last)) slots →
  ∃ last', fill_last slots (length before) last = Some last' ∧ last_of (before ++ slots) last' ∧ length last' = length last.
Proof.
  induction slots as [|s slots IH]; intros before last Hb Hs; cbn [fill_last]; [exists last; by rewrite app_nil_r|].
  apply Forall_cons in Hs as [Hlt Hs].
  assert (Hstep : ∃ last1, (if 0 <=? s then (if s <? Z.of_nat (length last) then Some (<[Z.to_nat s := Some (length before)]> last) else None) else Some last) = Some last1 ∧
    length last1 = length last ∧ last_of (before ++ [s]) last1).
  { destruct (Z.leb_spec 0 s) as [H0|Hneg].
    - rewrite (proj2 (Z.ltb_lt _ _)) by done. eexists. split; [done|]. split; [by rewrite length_insert|]. intros k j. rewrite length_insert.
      destruct (Z_of_nat_complete s H0) as [m ->]. rewrite Nat2Z.id. destruct (decide (k = m)) as [->|Hne].
      + rewrite list_lookup_insert_eq, last_index_here by lia. split; [intros [= <-]; split; [lia|done]|by intros [_ ->]].
      + rewrite list_lookup_insert_ne, last_index_other by lia. apply Hb.
    - eexists. split; [done|]. split; [done|]. intros k j. rewrite last_index_other by lia. apply Hb. }
  destruct Hstep as (last1&->&Hl&Hb1). cbn [mbind option_bind]. destruct (IH (before ++ [s]) last1 Hb1) as (last2&E&Hb2&Hl2); [by rewrite Hl|].
  rewrite length_app, Nat.add_comm in E. exists last2. split; [exact E|]. rewrite <- (assoc app) in Hb2. split; [done|by rewrite Hl2].
Qed.

Lemma mark_edges_lookup last : ∀ es j, mark_edges last es !! j = (λ e, if bool_decide (Some j ∈ last) then mark_last e else e) <$> es !! j.
Proof.
  induction last as [|[i|] last IH]; intros es j; cbn [mark_edges].
  - by destruct (es !! j).
  - rewrite IH. destruct (decide (i = j)) as [->|Hne].
    + rewrite list_lookup_alter_eq. rewrite (bool_decide_eq_true_2 (Some j ∈ Some j :: last)) by (by left). destruct (es !! j) as [e|]; cbn; [|done]. by case_bool_decide.
    + rewrite list_lookup_alter_ne by done. destruct (es !! j) as [e|]; cbn; [|done]. f_equal.
      assert (Hiff : Some j ∈ last ↔ Some j ∈ Some i :: last) by (rewrite elem_of_cons; split; [auto|intros [?|?]; congruence]). by rewrite (bool_decide_ext _ _ Hiff).
  - rewrite IH. destruct (es !! j) as [e|]; cbn; [|done]. f_equal.
    assert (Hiff : Some j ∈ last ↔ Some j ∈ None :: last) by (rewrite elem_of_cons; split; [auto|intros [?|?]; congruence]). by rewrite (bool_decide_ext _ _ Hiff).
Qed.

Lemma mark_edges_strip last es : strip <$> mark_edges last es = strip <$> es.
Proof. apply list_eq. intros j. rewrite !list_lookup_fmap, mark_edges_lookup. destruct (es !! j) as [e|]; cbn; [|done]. by case_bool_decide. Qed.

(** The last edge of each output is marked, and no other. *)
Definition last_ok (es : list EdgeInfo) : Prop :=
  ∀ es1 e es2, es = es1 ++ e :: es2 → is_last e = true ↔ 0 <= output_slot e ∧ ∀ e', e' ∈ es2 → output_slot e' ≠ output_slot e.

Lemma mark_edges_last last es : last_of (output_slot <$> es) last → Forall (λ e, is_last e = false) es →
  Forall (λ e, output_slot e < Z.of_nat (length last)) es → last_ok (mark_edges last es).
Proof.
  intros Hl Hf Hr es1 e es2 E. pose proof (mark_edges_strip last es) as Hstrip. apply (f_equal (fmap (λ t, t.1.2))) in Hstrip. rewrite <- !list_fmap_compose in Hstrip.
  change (output_slot <$> mark_edges last es = output_slot <$> es) in Hstrip. rewrite E, fmap_app, fmap_cons in Hstrip.
  assert (Hj : mark_edges last es !! length es1 = Some e) by (by rewrite E, lookup_app_r, Nat.sub_diag).
  rewrite mark_edges_lookup in Hj. destruct (es !! length es1) as [e0|] eqn:E0; [|done]. cbn in Hj. rewrite Forall_forall in Hf, Hr.
  pose proof (list_elem_of_lookup_2 _ _ _ E0) as Hin. specialize (Hf _ Hin). specialize (Hr _ Hin).
  assert (Hs : output_slot e = output_slot e0 ∧ is_last e = bool_decide (Some (length es1) ∈ last)) by (injection Hj as <-; by case_bool_decide).
  destruct Hs as [Hs ->]. rewrite bool_decide_eq_true, list_elem_of_lookup, Hs.
  assert (Hafter : (∀ e', e' ∈ es2 → output_slot e' ≠ output_slot e0) ↔ ∀ j', (length es1 < j')%nat → (output_slot <$> es) !! j' ≠ Some (output_slot e0)).
  { rewrite <- Hstrip. split.
    - intros He j' Hj'. rewrite lookup_app_r, length_fmap by (rewrite length_fmap; lia). destruct (j' - length es1)%nat as [|i] eqn:Ei; [lia|].
      change ((output_slot e :: (output_slot <$> es2)) !! S i) with ((output_slot <$> es2) !! i). rewrite list_lookup_fmap. destruct (es2 !! i) as [e'|] eqn:E2; [|done]. cbn. intros [= Heq]. by apply (He e'); [eapply list_elem_of_lookup_2|].
    - intros Hj' e' [i Hi]%list_elem_of_lookup Heq. apply (Hj' (length es1 + S i)%nat); [lia|]. rewrite lookup_app_r, length_fmap by (rewrite length_fmap; lia).
      replace (length es1 + S i - length es1)%nat with (S i) by lia.
      change ((output_slot e :: (output_slot <$> es2)) !! S i) with ((output_slot <$> es2) !! i). by rewrite list_lookup_fmap, Hi, <- Heq. }
  rewrite Hafter. split.
  - intros [k Hk]. apply Hl in Hk as [_ [Hk1 Hk2]]. rewrite list_lookup_fmap, E0 in Hk1. injection Hk1 as ->. split; [lia|done].
  - intros [H0 Hno]. exists (Z.to_nat (output_slot e0)). apply Hl. unfold last_index. rewrite Z2Nat.id by done. split; [lia|]. split; [|done]. by rewrite list_lookup_fmap, E0.
Qed.

(** ** Graphs that can be run *)

Definition arc (g : Graph) (e : nat) (E : Edge) (s d : nat) : Prop :=
  live_edge g e ∧ edge_heap g !! e = Some E ∧ src_ E = Some s ∧ dst_ E = Some d.

(** What the builders of graphs check, and the class [Graph] does not: there are no cycles
    and no nodes of loops, the slots of edges exist and an input has one edge, and a merge
    has an edge into each input; the sink has none out.  The sizes keep the counts within
    an [int]. *)
Record runnable (g : Graph) : Prop := {
  r_rank : ∃ rank : nat → nat, ∀ e E s d, arc g e E s d → (rank s < rank d)%nat;
  r_output e E s d n : arc g e E s d → node_heap g !! s = Some n → IsControlEdge E = false → 0 <= src_output_ E < Z.of_nat (node_num_outputs n);
  r_control e E s d : arc g e E s d → src_output_ E <= 0x3FFFFFFF;
  r_input e E s d n : arc g e E s d → node_heap g !! d = Some n → IsControlEdge E = false → 0 <= dst_input_ E < Z.of_nat (node_num_inputs n);
  r_slots e e' E E' s s' d : arc g e E s d → arc g e' E' s' d → IsControlEdge E = false → IsControlEdge E' = false → dst_input_ E = dst_input_ E' → e = e';
  r_merge d n : live_node g d → node_heap g !! d = Some n → IsMerge n = true →
    (0 < node_num_inputs n)%nat ∧ ∀ i, (i < node_num_inputs n)%nat → ∃ e E s, arc g e E s d ∧ IsControlEdge E = false ∧ dst_input_ E = Z.of_nat i;
  r_classes d n : live_node g d → node_heap g !! d = Some n → IsEnter n = false ∧ IsExit n = false ∧ IsNextIteration n = false;
  r_sink e E s d n : arc g e E s d → node_heap g !! s = Some n → IsSink n = false;
  r_size : Z.of_nat (length (nodes_ g)) <= 2 ^ 25 ∧ Z.of_nat (length (edges_ g)) < 2 ^ 29 }.

Section view.
Context (g : Graph) (Hwf : wf g) (Hrun : runnable g).

Definition node_of (p : nat) : Node := default new_Node (node_heap g !! p).
Definition edge_of (e : nat) : Edge := default (mkEdge None None 0 0 0) (edge_heap g !! e).
Definition pid (p : nat) : nat := Z.to_nat (id_ (node_of p)).
Definition ins (p : nat) : list nat := elems (in_edges_ (node_of p)).
Definition outs (p : nat) : list nat := elems (out_edges_ (node_of p)).

Lemma live_graph_nodes p : p ∈ graph_nodes g ↔ live_node g p.
Proof.
  unfold graph_nodes, live_node, is_node. rewrite list_elem_of_omap. split.
  - intros ([q|]&Hq&Eq); [|done]. cbn in Eq. injection Eq as ->. by apply list_elem_of_lookup in Hq.
  - intros [i Hi]. exists (Some p). split; [by eapply list_elem_of_lookup_2|done].
Qed.

Lemma live_node_of p : live_node g p → node_heap g !! p = Some (node_of p) ∧ is_node g p (pid p).
Proof.
  intros [i Hi]. destruct (w_node _ Hwf _ _ Hi) as (n&Hn&Hid&_). unfold node_of, pid, node_of. rewrite Hn. cbn. split; [done|]. by rewrite Hid, Nat2Z.id.
Qed.

Lemma pid_inj p q : live_node g p → live_node g q → pid p = pid q → p = q.
Proof. intros [_ Hp]%live_node_of [_ Hq]%live_node_of E. rewrite E in Hp. unfold is_node in *. rewrite Hp in Hq. by injection Hq. Qed.

Lemma arc_nodes e E s d : arc g e E s d → live_node g s ∧ live_node g d.
Proof.
  intros ([i Hi]&HE&Hs&Hd). destruct (w_edge _ Hwf _ _ Hi) as (s'&d'&x&y&HE'&Ls&Ld). rewrite HE in HE'. injection HE' as ->. cbn in *. by simplify_eq.
Qed.

Lemma live_arc e : live_edge g e → ∃ s d, arc g e (edge_of e) s d.
Proof.
  intros Hl. pose proof Hl as [i Hi]. destruct (w_edge _ Hwf _ _ Hi) as (s&d&x&y&HE&Ls&Ld). exists s, d. unfold arc, edge_of. rewrite HE. cbn. by split_and!.
Qed.

Lemma outs_arc p e : live_node g p → e ∈ outs p ↔ ∃ d, arc g e (edge_of e) p d.
Proof.
  intros [Hn _]%live_node_of. unfold outs. destruct (w_linked _ Hwf _ _ Hn) as [Ho _]. rewrite Ho. split.
  - intros [Hl Hs]. destruct (live_arc e Hl) as (s&d&Ha). pose proof Ha as (_&HE&Hs'&_). rewrite HE in Hs. cbn in Hs. rewrite Hs in Hs'. injection Hs' as ->. by exists d.
  - intros (d&Hl&HE&Hs&_). split; [done|]. by rewrite HE.
Qed.

Lemma ins_arc p e : live_node g p → e ∈ ins p ↔ ∃ s, arc g e (edge_of e) s p.
Proof.
  intros [Hn _]%live_node_of. unfold ins. destruct (w_linked _ Hwf _ _ Hn) as [_ Hi]. rewrite Hi. split.
  - intros [Hl Hd]. destruct (live_arc e Hl) as (s&d&Ha). pose proof Ha as (_&HE&_&Hd'). rewrite HE in Hd. cbn in Hd. rewrite Hd in Hd'. injection Hd' as ->. by exists s.
  - intros (s&Hl&HE&_&Hd). split; [done|]. by rewrite HE.
Qed.

Lemma sets_nodup p : live_node g p → NoDup (ins p) ∧ NoDup (outs p).
Proof. intros [Hn _]%live_node_of. destruct (w_sets _ Hwf _ _ Hn). split; by apply elems_nodup. Qed.

Lemma arc_of e E s d : arc g e E s d → edge_of e = E.
Proof. intros (_&HE&_). unfold edge_of. by rewrite HE. Qed.

(** The entry of an edge. *)
Definition info_of (e : nat) : nat * Z * Z := (pid (default 0%nat (dst_ (edge_of e))), src_output_ (edge_of e), dst_input_ (edge_of e)).

Lemma edge_info_ok e E s d : arc g e E s d → edge_info g e = Some (mkEdgeInfo (pid d) (src_output_ E) false (dst_input_ E)) ∧
  info_of e = (pid d, src_output_ E, dst_input_ E).
Proof.
  intros Ha. pose proof Ha as (_&HE&_&Hd). destruct (arc_nodes _ _ _ _ Ha) as [_ [Hn _]%live_node_of]. unfold edge_info, info_of. rewrite (arc_of _ _ _ _ Ha), HE. cbn [mbind option_bind].
  rewrite Hd. cbn [mbind option_bind default]. rewrite Hn. cbn [mbind option_bind]. rewrite (proj2 (Z.leb_le _ _)) by (by eapply r_control). done.
Qed.

Lemma edge_infos es : (∀ e, e ∈ es → ∃ s d, arc g e (edge_of e) s d) →
  ∃ infos, mapM (edge_info g) es = Some infos ∧ strip <$> infos = info_of <$> es ∧ Forall (λ x, is_last x = false) infos.
Proof.
  induction es as [|e es IH]; intros Hes; [by exists []|]. destruct (Hes e) as (s&d&Ha); [by left|]. destruct IH as (infos&E&Es&Ef); [intros; apply Hes; by right|].
  destruct (edge_info_ok _ _ _ _ Ha) as [E1 E2]. eexists (_ :: infos). cbn [mapM]. unfold mapM. fold (mapM (edge_info g) es). rewrite E1. cbn [mbind option_bind]. rewrite E. cbn [mbind option_bind].
  split; [done|]. split; [|by constructor]. cbn [fmap list_fmap]. by rewrite Es, E2.
Qed.

Lemma node_edges p : live_node g p → ∃ es, InitializeNode g (node_of p) = Some es ∧ strip <$> es = info_of <$> outs p ∧ last_ok es.
Proof.
  intros Hp. destruct (edge_infos (outs p)) as (infos&E&Es&Ef).
  { intros e He. apply outs_arc in He as [d Ha]; [|done]. eauto. }
  assert (Hslots : Forall (λ x, output_slot x < Z.of_nat (node_num_outputs (node_of p))) infos).
  { apply Forall_forall. intros y Hy. assert (Hs : strip y ∈ info_of <$> outs p) by (rewrite <- Es; by apply list_elem_of_fmap_2).
    apply list_elem_of_fmap in Hs as (e&He&Hin). apply outs_arc in Hin as [d Ha]; [|done]. destruct (edge_info_ok _ _ _ _ Ha) as [_ E2]. rewrite E2 in He. injection He as _ -> _.
    destruct (IsControlEdge (edge_of e)) eqn:Ec; [unfold IsControlEdge in Ec; apply Z.eqb_eq in Ec; rewrite Ec; unfold kControlSlot; lia|].
    destruct (live_node_of p Hp) as [Hn _]. by eapply (r_output _ Hrun). }
  unfold InitializeNode. fold (outs p). rewrite E. cbn [mbind option_bind].
  destruct (fill_last_ok (output_slot <$> infos) [] (replicate (node_num_outputs (node_of p)) None)) as (last&E2&Hl&Hlen).
  { intros k j. rewrite lookup_replicate. split; [by intros [? _]|by intros (_&?&_)]. }
  { apply Forall_fmap, Forall_impl with (1 := Hslots). intros x. cbn. by rewrite length_replicate. }
  cbn [length] in E2. rewrite E2. cbn [mbind option_bind]. eexists. split; [done|]. split; [by rewrite mark_edges_strip|].
  apply mark_edges_last; [done|done|]. by rewrite Hlen, length_replicate.
Qed.

(** ** The loops over the nodes *)

Context (create_kernel : Node → Status * KernelInfo) (Hkernels : ∀ p, live_node g p → (create_kernel (node_of p)).1 = StatusOK).

Definition count_inputs (ps : list nat) : nat := sum_list ((λ p, node_num_inputs (node_of p)) <$> ps).

Lemma init_nodes_ok ps : ∀ acc, (∀ p, p ∈ ps → live_node g p) → NoDup ps → ∃ pr, init_nodes create_kernel g ps acc = Some (StatusOK, pr) ∧
  limits pr = limits acc ++ ((λ p, GetMaxPendingCounts g (node_of p)) <$> ps) ∧
  total_inputs pr = (total_inputs acc + count_inputs ps)%nat ∧
  root_nodes_ pr = root_nodes_ acc ++ (pid <$> filter (λ p, ins p = []) ps) ∧
  (∀ k p, ps !! k = Some p → ∃ es, InitializeNode g (node_of p) = Some es ∧
    items pr !! pid p = Some (make_item (node_of p) (create_kernel (node_of p)).2 es (total_inputs acc + count_inputs (take k ps)) (length (limits acc) + k))) ∧
  (∀ i, i ∉ pid <$> ps → items pr !! i = items acc !! i).
Proof.
  induction ps as [|p ps IH]; intros acc Hlive Hnd; cbn [init_nodes].
  { exists acc. unfold count_inputs. cbn. rewrite !app_nil_r, Nat.add_0_r. split_and!; try done. }
  assert (Hp : live_node g p) by (apply Hlive; by left). destruct (live_node_of p Hp) as [Hn _]. destruct (node_edges p Hp) as (es&Ees&_).
  apply NoDup_cons in Hnd as [Hpn Hnd]. unfold init_node. rewrite Hn. cbn [mbind option_bind]. rewrite Ees. cbn [mbind option_bind].
  fold (pid p). pose proof (Hkernels p Hp) as Hk. destruct (create_kernel (node_of p)) as [s k] eqn:Ek. cbn in Hk. subst s. cbn [ok negb mbind option_bind].
  set (acc1 := mkPrepared _ _ _ _). destruct (IH acc1) as (pr&E&H1&H2&H3&H4&H5); [intros q Hq; apply Hlive; by right|done|]. exists pr. split; [exact E|].
  assert (Hpid : pid p ∉ pid <$> ps).
  { intros (q&Eq&Hq)%list_elem_of_fmap. apply pid_inj in Eq; [by subst|done|apply Hlive; by right]. }
  split_and!.
  - rewrite H1. unfold acc1. cbn [limits fmap list_fmap]. by rewrite <- (assoc app).
  - rewrite H2. unfold acc1, count_inputs. cbn [total_inputs fmap list_fmap sum_list_with]. cbn. lia.
  - rewrite H3. unfold acc1. cbn [root_nodes_]. rewrite filter_cons. 
    assert (Hemp : EdgeSet_empty (in_edges_ (node_of p)) = true ↔ ins p = []) by (destruct (w_sets _ Hwf _ _ Hn); by apply empty_spec).
    destruct (EdgeSet_empty (in_edges_ (node_of p))); [rewrite decide_True by (by apply Hemp)|rewrite decide_False by (by intros ?%Hemp)]; [|done]. cbn. by rewrite <- (assoc app).
  - intros [|i] q Hq; cbn in Hq.
    + injection Hq as <-. exists es. split; [done|]. rewrite (H5 _ Hpid). unfold acc1. cbn [items take]. rewrite lookup_insert_eq, Ek. unfold count_inputs. cbn. by rewrite !Nat.add_0_r.
    + destruct (H4 i q Hq) as (es'&E1&E2). exists es'. split; [done|]. rewrite E2. unfold acc1. cbn [total_inputs limits]. rewrite length_app. unfold count_inputs. cbn. do 2 f_equal; lia.
  - intros i Hi. cbn in Hi. apply not_elem_of_cons in Hi as [Hi1 Hi2]. rewrite (H5 i Hi2). unfold acc1. cbn [items]. by rewrite lookup_insert_ne.
Qed.

(** The initial counts are written. *)
Lemma pending_ok_all `{StructLayout} pr (Hlim : limits_ok (limits pr)) ps : ∀ c m,
  rep (limits pr) c m → (∀ p, p ∈ ps → live_node g p) →
  (∀ p, p ∈ ps → ∃ item, items pr !! pid p = Some item ∧ limits pr !! pending_id item = Some (GetMaxPendingCounts g (node_of p))) →
  ∃ c' m', InitializePending g pr ps c = Some c' ∧ rep (limits pr) c' m' ∧
    ∀ i, m' !! i = if decide (i ∈ omap (λ p, pending_id <$> items pr !! pid p) ps) then Some (waiting (default (0, 0) (limits pr !! i)).1 0) else m !! i.
Proof.
  induction ps as [|p ps IH]; intros c m Hrep Hlive Hit; cbn [InitializePending].
  { exists c, m. split_and!; try done. }
  destruct (live_node_of p) as [Hn _]; [apply Hlive; by left|]. rewrite Hn. cbn [mbind option_bind]. fold (pid p).
  destruct (Hit p) as (item&Ei&El); [by left|]. rewrite Ei. cbn [mbind option_bind]. destruct (handle_limit (limits pr) Hlim _ _ El) as [h Hh]. rewrite Hh. cbn [mbind option_bind].
  pose proof (proj1 Hlim) as Hf. rewrite Forall_forall in Hf. specialize (Hf _ (list_elem_of_lookup_2 _ _ _ El)).
  destruct (set_initial_ok (limits pr) Hlim c m _ h _ (GetMaxPendingCounts g (node_of p)).1 Hrep Hh El) as (c1&->&Hrep1); [lia|lia|]. cbn [mbind option_bind].
  destruct (IH c1 _ Hrep1) as (c2&m2&E&Hrep2&H1); [intros; apply Hlive; by right|intros; apply Hit; by right|].
  exists c2, m2. split_and!; [done|done|]. intros i. rewrite H1. cbn [omap list_omap]. rewrite Ei. cbn [fmap option_fmap option_map].
  destruct (decide (i ∈ omap (λ p, pending_id <$> items pr !! pid p) ps)) as [Hin|Hout].
  - rewrite decide_True by (by right). done.
  - destruct (decide (i = pending_id item)) as [->|Hne].
    + rewrite lookup_insert_eq, decide_True by (by left). by rewrite El.
    + rewrite lookup_insert_ne, decide_False by (done || by rewrite elem_of_cons; intros [?|?]). done.
Qed.

(** ** The view meets what the executor relies on *)

Context `{SL : StructLayout} (Hsize : Z.of_nat sizeof_large <= 16).
Context (pr : Prepared) (Hpr : init_nodes create_kernel g (graph_nodes g) (mkPrepared ∅ [] 0 []) = Some (StatusOK, pr)).

#[local] Abbreviation ps := (graph_nodes g).

(** The view: [GraphView::node], and the ids of the nodes. *)
Definition view_node (i : nat) : option NodeItem := items pr !! i.
Definition view_nodes : list nat := pid <$> ps.

Lemma ps_live p : p ∈ ps → live_node g p.
Proof. apply live_graph_nodes. Qed.

Lemma ps_nodup : NoDup ps.
Proof.
  unfold graph_nodes. assert (Hall : ∀ i j p, nodes_ g !! i = Some (Some p) → nodes_ g !! j = Some (Some p) → i = j).
  { intros i j p Hi Hj. destruct (w_node _ Hwf _ _ Hi) as (n&Hn&E1&_). destruct (w_node _ Hwf _ _ Hj) as (n'&Hn'&E2&_). rewrite Hn in Hn'. injection Hn' as <-. lia. }
  revert Hall. generalize (nodes_ g). intros l. induction l as [|[p|] l IH]; intros Hall; cbn; [constructor| |].
  - constructor; [|apply IH; intros i j q Hi Hj; by injection (Hall (S i) (S j) q Hi Hj)].
    intros ([q|]&Hq&Eq)%list_elem_of_omap; [|done]. cbn in Eq. injection Eq as ->. apply list_elem_of_lookup in Hq as [i Hi]. by specialize (Hall 0%nat (S i) p eq_refl Hi).
  - apply IH. intros i j q Hi Hj. by injection (Hall (S i) (S j) q Hi Hj).
Qed.

Lemma pr_spec : limits pr = (λ p, GetMaxPendingCounts g (node_of p)) <$> ps ∧ total_inputs pr = count_inputs ps ∧
  root_nodes_ pr = pid <$> filter (λ p, ins p = []) ps ∧
  (∀ k p, ps !! k = Some p → ∃ es, InitializeNode g (node_of p) = Some es ∧
    view_node (pid p) = Some (make_item (node_of p) (create_kernel (node_of p)).2 es (count_inputs (take k ps)) k)) ∧
  ∀ i, i ∉ view_nodes → view_node i = None.
Proof.
  destruct (init_nodes_ok ps (mkPrepared ∅ [] 0 []) ps_live ps_nodup) as (pr'&E&H1&H2&H3&H4&H5). rewrite Hpr in E. injection E as <-. by split_and!.
Qed.

(** An item, and its edges. *)
Lemma view_item i item : view_node i = Some item → ∃ k p, ps !! k = Some p ∧ live_node g p ∧ node_heap g !! p = Some (node_of p) ∧ pid p = i ∧
  item = make_item (node_of p) (create_kernel (node_of p)).2 (output_edges item) (count_inputs (take k ps)) k ∧
  strip <$> output_edges item = info_of <$> outs p ∧ last_ok (output_edges item).
Proof.
  intros Hi. destruct pr_spec as (_&_&_&H4&H5). destruct (decide (i ∈ view_nodes)) as [Hin|Hout]; [|by rewrite H5 in Hi].
  apply list_elem_of_fmap in Hin as (p&->&Hp). pose proof (ps_live p Hp) as Hl. destruct (live_node_of p Hl) as [Hn _].
  apply list_elem_of_lookup in Hp as [k Hk]. destruct (H4 k p Hk) as (es&Ees&E). rewrite Hi in E. injection E as ->.
  destruct (node_edges p Hl) as (es'&Ees'&Hs&Hlast). rewrite Ees in Ees'. injection Ees' as <-. by exists k, p.
Qed.

Lemma node_item p : live_node g p → ∃ item, view_node (pid p) = Some item.
Proof.
  intros Hl%live_graph_nodes. apply list_elem_of_lookup in Hl as [k Hk]. destruct pr_spec as (_&_&_&H4&_). destruct (H4 k p Hk) as (es&_&E). eauto.
Qed.

Lemma edge_arc p es e : live_node g p → strip <$> es = info_of <$> outs p → e ∈ es →
  ∃ a d, arc g a (edge_of a) p d ∧ dst_id e = pid d ∧ output_slot e = src_output_ (edge_of a) ∧ input_slot e = dst_input_ (edge_of a).
Proof.
  intros Hl Hs He. assert (Hin : strip e ∈ info_of <$> outs p) by (rewrite <- Hs; by apply list_elem_of_fmap_2).
  apply list_elem_of_fmap in Hin as (a&Ea&Ha). apply outs_arc in Ha as [d Ha]; [|done]. destruct (edge_info_ok _ _ _ _ Ha) as [_ E]. rewrite E in Ea. injection Ea as ? ? ?. by exists a, d.
Qed.

Lemma fmap_filter {A B} (f : A → B) (P : B → Prop) (Q : A → Prop) `{!∀ x, Decision (P x), !∀ x, Decision (Q x)} (l : list A) :
  (∀ x, x ∈ l → Q x ↔ P (f x)) → f <$> filter Q l = filter P (f <$> l).
Proof.
  induction l as [|x l IH]; intros Hpq; [done|]. cbn [fmap list_fmap]. rewrite !filter_cons. pose proof (Hpq x (list_elem_of_here _ _)).
  rewrite <- IH by (intros; apply Hpq; by right). destruct (decide (P (f x))); [by rewrite decide_True by tauto | by rewrite decide_False by tauto].
Qed.

(** The edges into a node, in the view and in the graph. *)
Lemma edges_into_strip d : live_node g d → strip <$> edges_into view_node view_nodes (pid d) ≡ₚ info_of <$> ins d.
Proof.
  intros Hd. assert (Hall : ∀ l, (∀ p, p ∈ l → live_node g p) → strip <$> ((pid <$> l) ≫= edges_of view_node) = info_of <$> (l ≫= outs)).
  { induction l as [|p l IH]; intros Hl; [done|]. cbn [fmap list_fmap mbind list_bind]. rewrite !fmap_app, IH by (intros; apply Hl; by right). f_equal.
    destruct (node_item p) as [item Hi]; [apply Hl; by left|]. unfold edges_of. rewrite Hi. cbn. destruct (view_item _ _ Hi) as (k&q&_&Hq&_&Epid&_&Hs&_).
    apply pid_inj in Epid as ->; [done|done|apply Hl; by left]. }
  assert (Hf : ∀ l : list EdgeInfo, strip <$> filter (λ e, dst_id e = pid d) l = filter (λ t, t.1.1 = pid d) (strip <$> l)) by (intros l; by apply fmap_filter).
  unfold edges_into, all_edges. rewrite Hf. unfold view_nodes. rewrite (Hall ps ps_live), <- (fmap_filter info_of _ (λ e, (info_of e).1.1 = pid d)) by done. apply fmap_Permutation, NoDup_Permutation.
  - apply NoDup_filter, NoDup_bind; [| |apply ps_nodup].
    + intros p q a Hp%ps_live Hq%ps_live Ha Ha'. apply outs_arc in Ha as [d1 (_&_&E1&_)]; [|done]. apply outs_arc in Ha' as [d2 (_&_&E2&_)]; [|done]. congruence.
    + intros p Hp%ps_live. by apply sets_nodup.
  - by apply sets_nodup.
  - intros a. rewrite list_elem_of_filter, list_elem_of_bind, ins_arc by done. split.
    + intros [Hpid (p&Ha&Hp%ps_live)]. apply outs_arc in Ha as [d' Ha]; [|done]. destruct (edge_info_ok _ _ _ _ Ha) as [_ E]. rewrite E in Hpid. cbn in Hpid.
      apply pid_inj in Hpid as ->; [eauto| |done]. by apply (arc_nodes _ _ _ _ Ha).
    + intros [s Ha]. destruct (edge_info_ok _ _ _ _ Ha) as [_ E]. rewrite E. split; [done|]. destruct (arc_nodes _ _ _ _ Ha) as [Hs _]. exists s. split; [|by apply live_graph_nodes].
      apply outs_arc; eauto.
Qed.

Definition control_edge (e : nat) : bool := src_output_ (edge_of e) =? kControlSlot.

Lemma num_control_ins d : live_node g d → num_control view_node view_nodes (pid d) = length (filter (λ e, control_edge e = true) (ins d)).
Proof.
  intros Hd. unfold num_control. rewrite <- (length_fmap strip). 
  assert (Hf : ∀ l : list EdgeInfo, strip <$> filter (λ e, is_control e = true) l = filter (λ t, (t.1.2 =? kControlSlot) = true) (strip <$> l))
    by (intros l; by apply fmap_filter).
  rewrite Hf, (edges_into_strip d Hd), <- (fmap_filter info_of _ (λ e, control_edge e = true)) by done. apply length_fmap.
Qed.

Lemma num_data_ins d : live_node g d → num_data view_node view_nodes (pid d) = length (filter (λ e, control_edge e = false) (ins d)).
Proof.
  intros Hd. unfold num_data. rewrite <- (length_fmap strip). 
  assert (Hf : ∀ l : list EdgeInfo, strip <$> filter (λ e, is_control e = false) l = filter (λ t, (t.1.2 =? kControlSlot) = false) (strip <$> l))
    by (intros l; by apply fmap_filter).
  rewrite Hf, (edges_into_strip d Hd), <- (fmap_filter info_of _ (λ e, control_edge e = false)) by done. apply length_fmap.
Qed.

Lemma num_all_ins d : live_node g d → (num_control view_node view_nodes (pid d) + num_data view_node view_nodes (pid d))%nat = length (ins d).
Proof.
  intros Hd. rewrite num_control_ins, num_data_ins by done. generalize (ins d). intros l. induction l as [|e l IH]; [done|]. rewrite !filter_cons.
  destruct (control_edge e); cbn [length]; repeat case_decide; try done; cbn; lia.
Qed.

Lemma filter_same {A} (P Q : A → Prop) `{!∀ x, Decision (P x), !∀ x, Decision (Q x)} (l : list A) :
  (∀ x, x ∈ l → P x ↔ Q x) → filter P l = filter Q l.
Proof.
  induction l as [|x l IH]; intros Hpq; [done|]. rewrite !filter_cons, IH by (intros; apply Hpq; by right). pose proof (Hpq x (list_elem_of_here _ _)).
  destruct (decide (Q x)); [by rewrite decide_True by tauto | by rewrite decide_False by tauto].
Qed.

(** The number of in edges stays small, and so do the limits. *)
Lemma ins_small p : live_node g p → Z.of_nat (length (ins p)) < 2 ^ 29.
Proof.
  intros Hp. assert (Hs : ins p ⊆+ omap id (edges_ g)).
  { apply NoDup_submseteq; [by apply sets_nodup|]. intros e He. apply ins_arc in He as (s&[i Hi]&_); [|done]. apply list_elem_of_omap. exists (Some e). split; [by eapply list_elem_of_lookup_2|done]. }
  apply submseteq_length in Hs. assert (Ho : ∀ l : list (option nat), (length (omap id l) ≤ length l)%nat) by (induction l as [|[x|] l IH]; cbn in *; lia).
  specialize (Ho (edges_ g)). destruct (r_size _ Hrun). lia.
Qed.

Lemma max_pending_counts p : live_node g p → GetMaxPendingCounts g (node_of p) =
  ((if IsMerge (node_of p) then 1 + 2 * Z.of_nat (num_control view_node view_nodes (pid p))
    else Z.of_nat (num_control view_node view_nodes (pid p) + num_data view_node view_nodes (pid p))), Z.of_nat (length (ins p))).
Proof.
  intros Hp. unfold GetMaxPendingCounts. fold (ins p). rewrite num_all_ins, num_control_ins, Z.shiftl_mul_pow2 by (done || lia).
  assert (Hc : control_in_edges g (node_of p) = filter (λ e, control_edge e = true) (ins p)).
  { unfold control_in_edges. fold (ins p). apply filter_same. intros e He. apply ins_arc in He as (s&_&HE&_); [|done]. unfold control_edge, IsControlEdge. rewrite HE. cbn. done. }
  rewrite Hc. f_equal. destruct (IsMerge (node_of p)); lia.
Qed.

Lemma graph_nodes_length : (length ps ≤ length (nodes_ g))%nat.
Proof. unfold graph_nodes. generalize (nodes_ g). induction l as [|[x|] l IH]; cbn in *; lia. Qed.

Lemma limits_fine : limits_ok (limits pr).
Proof.
  destruct pr_spec as (->&_). destruct (r_size _ Hrun) as [Hn _]. split.
  - apply Forall_forall. intros l (p&->&Hp%ps_live)%list_elem_of_fmap. rewrite max_pending_counts by done. pose proof (ins_small p Hp). pose proof (num_all_ins p Hp).
    cbn [fst snd]. destruct (IsMerge (node_of p)); lia.
  - rewrite length_fmap. assert (Ho : ∀ l : list (option nat), (length (omap id l) ≤ length l)%nat) by (induction l as [|[x|] l IH]; cbn in *; lia).
    specialize (Ho (nodes_ g)). unfold graph_nodes. change (λ x, x) with (@id (option nat)) in *. nia.
Qed.

(** The address of a node. *)
Definition address (i : nat) : nat := default 0%nat (mjoin (nodes_ g !! i)).

Lemma address_pid p : live_node g p → address (pid p) = p.
Proof. intros [_ Hi]%live_node_of. unfold address, is_node in *. by rewrite Hi. Qed.

Lemma nth_inputs k p : ps !! k = Some p → (count_inputs (take k ps) + node_num_inputs (node_of p) ≤ count_inputs (take (S k) ps))%nat.
Proof. intros Hk. rewrite (take_S_r _ _ _ Hk). unfold count_inputs. rewrite fmap_app, sum_list_with_app. cbn. lia. Qed.

Lemma count_inputs_mono j k : (j ≤ k)%nat → (count_inputs (take j ps) ≤ count_inputs (take k ps))%nat.
Proof.
  intros Hjk. replace k with (j + (k - j))%nat by lia. rewrite <- (take_take_drop ps j (k - j)).
  unfold count_inputs. rewrite fmap_app, sum_list_with_app. lia.
Qed.

Lemma count_inputs_total k : (count_inputs (take k ps) ≤ count_inputs ps)%nat.
Proof. rewrite <- (take_drop k ps) at 2. unfold count_inputs. rewrite fmap_app, sum_list_with_app. lia. Qed.

Lemma view_regions k k' p p' i i' : ps !! k = Some p → ps !! k' = Some p' → (i < node_num_inputs (node_of p))%nat → (i' < node_num_inputs (node_of p'))%nat →
  (count_inputs (take k ps) + i = count_inputs (take k' ps) + i')%nat → k = k' ∧ i = i'.
Proof.
  intros Hk Hk' Hi Hi' E. pose proof (nth_inputs k p Hk). pose proof (nth_inputs k' p' Hk').
  destruct (lt_eq_lt_dec k k') as [[Hlt| ->]|Hlt]; [pose proof (count_inputs_mono (S k) k' Hlt); lia|split; [done|lia]|pose proof (count_inputs_mono (S k') k Hlt); lia].
Qed.

(** A data edge of the view, and its arc. *)
Lemma is_control_arc (e : EdgeInfo) a : output_slot e = src_output_ (edge_of a) → is_control e = IsControlEdge (edge_of a).
Proof. unfold is_control, IsControlEdge. by intros ->. Qed.

Lemma arc_heap a s d : arc g a (edge_of a) s d → node_heap g !! s = Some (node_of s) ∧ node_heap g !! d = Some (node_of d).
Proof. intros [Hs Hd]%arc_nodes. split; by apply live_node_of. Qed.

(** The edges of an item. *)
Lemma item_edge i item e : view_node i = Some item → e ∈ output_edges item → ∃ p a d,
  live_node g p ∧ pid p = i ∧ arc g a (edge_of a) p d ∧ dst_id e = pid d ∧ output_slot e = src_output_ (edge_of a) ∧
  is_control e = IsControlEdge (edge_of a) ∧ num_outputs item = node_num_outputs (node_of p).
Proof.
  intros Hi He. destruct (view_item _ _ Hi) as (k&p&_&Hp&_&Epid&Eit&Hs&_). destruct (edge_arc _ _ _ Hp Hs He) as (a&d&Ha&E1&E2&E3).
  exists p, a, d. split_and!; try done; [by apply is_control_arc|by rewrite Eit].
Qed.

Lemma item_output i item e : view_node i = Some item → e ∈ output_edges item → is_control e = false → 0 <= output_slot e < Z.of_nat (num_outputs item).
Proof.
  intros Hi He Hc. destruct (item_edge _ _ _ Hi He) as (p&a&d&_&_&Ha&_&->&Ec&->). destruct (arc_heap _ _ _ Ha) as [Hn _]. rewrite Hc in Ec. by eapply (r_output _ Hrun).
Qed.

(** The input slots of the data edges into a node. *)
Definition slots_into (d : nat) : list nat := (λ a, Z.to_nat (dst_input_ (edge_of a))) <$> filter (λ a, control_edge a = false) (ins d).

Lemma view_slots_into d : live_node g d →
  (λ e, Z.to_nat (input_slot e)) <$> filter (λ e, is_control e = false) (edges_into view_node view_nodes (pid d)) ≡ₚ slots_into d.
Proof.
  intros Hd. assert (Hf : ∀ l : list EdgeInfo, (λ e, Z.to_nat (input_slot e)) <$> filter (λ e, is_control e = false) l =
    (λ t : nat * Z * Z, Z.to_nat t.2) <$> filter (λ t : nat * Z * Z, (t.1.2 =? kControlSlot) = false) (strip <$> l)).
  { intros l. rewrite <- (fmap_filter strip _ (λ e, is_control e = false)) by done. by rewrite <- list_fmap_compose. }
  rewrite Hf, (edges_into_strip d Hd), <- (fmap_filter info_of _ (λ e, control_edge e = false)) by done. by rewrite <- list_fmap_compose.
Qed.

Lemma data_into d a : live_node g d → a ∈ filter (λ a, control_edge a = false) (ins d) → ∃ s, arc g a (edge_of a) s d ∧ IsControlEdge (edge_of a) = false ∧
  0 <= dst_input_ (edge_of a) < Z.of_nat (node_num_inputs (node_of d)).
Proof.
  intros Hd [Hc [s Ha]%ins_arc]%list_elem_of_filter; [|done]. exists s. split_and!; try done; destruct (arc_heap _ _ _ Ha) as [_ Hn]; by eapply (r_input _ Hrun).
Qed.

Lemma slots_into_ok d : live_node g d → NoDup (slots_into d) ∧ Forall (λ i, (i < node_num_inputs (node_of d))%nat) (slots_into d).
Proof.
  intros Hd. split.
  - apply NoDup_fmap_2_strong; [|by apply NoDup_filter, sets_nodup]. intros a b (s&Ha&Hc&Hr)%data_into (s'&Hb&Hc'&Hr')%data_into E; [|done..]. eapply (r_slots _ Hrun); try done. lia.
  - apply Forall_forall. intros i (a&->&(s&_&_&Hr)%data_into)%list_elem_of_fmap; [|done]. lia.
Qed.

(** An input of a merge has one edge. *)
Lemma merge_slots d : live_node g d → IsMerge (node_of d) = true → slots_into d ≡ₚ seq 0 (node_num_inputs (node_of d)).
Proof.
  intros Hd Hm. destruct (slots_into_ok d Hd) as [Hnd Hall]. destruct (live_node_of d Hd) as [Hn _]. apply NoDup_Permutation; [done|apply NoDup_seq|]. intros i. rewrite elem_of_seq. split.
  - rewrite Forall_forall in Hall. intros Hi%Hall. lia.
  - intros Hi. destruct (r_merge _ Hrun d _ Hd Hn Hm) as [_ Hin]. destruct (Hin i) as (a&E&s&Ha&Hc&Ei); [lia|]. pose proof (arc_of _ _ _ _ Ha) as HE. subst E.
    apply list_elem_of_fmap. exists a. split; [by rewrite Ei, Nat2Z.id|]. apply list_elem_of_filter. split; [done|]. apply ins_arc; eauto.
Qed.

Lemma view_slots_length d : live_node g d → length (slots_into d) = num_data view_node view_nodes (pid d).
Proof. intros Hd. rewrite num_data_ins by done. unfold slots_into. apply length_fmap. Qed.

Lemma view_dst i e : e ∈ edges_into view_node view_nodes i → dst_id e = i ∧ ∃ j item, view_node j = Some item ∧ e ∈ output_edges item.
Proof.
  unfold edges_into, all_edges, edges_of. intros [Hd (j&He&_)%list_elem_of_bind]%list_elem_of_filter. split; [done|]. destruct (view_node j) as [item|] eqn:Ej; cbn in He; [eauto|by apply elem_of_nil in He].
Qed.

(** The view meets what the executor assumes of it. *)
Lemma view_fine : view_ok view_node view_nodes (total_inputs pr) (λ i, (default (0, 0) (limits pr !! i)).2).
Proof.
  destruct pr_spec as (Elim&Etotal&_&Hitems&Hnone). destruct (r_size _ Hrun) as [Hsz _]. constructor.
  - unfold view_nodes. apply NoDup_fmap_2_strong; [|apply ps_nodup]. intros p q Hp%ps_live Hq%ps_live. by apply pid_inj.
  - unfold view_nodes. rewrite length_fmap. pose proof graph_nodes_length. lia.
  - intros i. split; [|destruct (decide (i ∈ view_nodes)); [done|rewrite Hnone by done; by intros [? ?]]].
    intros (p&->&Hp%ps_live)%list_elem_of_fmap. by apply node_item.
  - intros i item Hi. destruct (view_item _ _ Hi) as (k&p&_&Hp&Hn&_&->&_). destruct (r_classes _ Hrun p _ Hp Hn) as (H1&H2&H3). cbn. by rewrite H1, H2, H3.
  - intros i item Hi Hs. destruct (output_edges item) as [|e es] eqn:Ee; [done|]. destruct (item_edge _ _ e Hi) as (p&a&d&Hp&Epid&Ha&_); [rewrite Ee; by left|].
    destruct (view_item _ _ Hi) as (k&q&_&Hq&Hn&Eq&Eit&_). rewrite <- Epid in Eq. apply pid_inj in Eq as ->; [|done..]. rewrite Eit in Hs. cbn in Hs. by rewrite (r_sink _ Hrun _ _ _ _ _ Ha Hn) in Hs.
  - intros i item e Hi He. destruct (item_edge _ _ _ Hi He) as (p&a&d&_&_&Ha&->&_). apply node_item. by apply (arc_nodes _ _ _ _ Ha).
  - destruct (r_rank _ Hrun) as [rank Hrank]. exists (rank ∘ address). intros i item e Hi He. destruct (item_edge _ _ _ Hi He) as (p&a&d&_&Ei&Ha&Ed&_).
    subst i. cbn. rewrite Ed. destruct (arc_nodes _ _ _ _ Ha). rewrite !address_pid by done. by eapply Hrank.
  - intros i item e Hi He Hc. pose proof (item_output _ _ _ Hi He Hc). lia.
  - intros i item es1 e es2 Hi Ees Hlast Hc e' He' Hc'. destruct (view_item _ _ Hi) as (k&p&_&_&_&_&_&_&Hlo).
    pose proof (proj2 (proj1 (Hlo _ _ _ Ees) Hlast) e' He') as Hne. assert (H1 : e ∈ output_edges item) by (rewrite Ees, elem_of_app, elem_of_cons; auto).
    assert (H2 : e' ∈ output_edges item) by (rewrite Ees, elem_of_app, elem_of_cons; auto). pose proof (item_output _ _ _ Hi H1 Hc). pose proof (item_output _ _ _ Hi H2 Hc'). lia.
  - intros i item e Hi He Hc. destruct (view_item _ _ Hi) as (k&p&_&Hp&_&<-&Eit&_). rewrite Eit. cbn. destruct (slots_into_ok p Hp) as [_ Hall].
    rewrite Forall_forall in Hall. apply Hall. rewrite <- (view_slots_into p Hp). apply (list_elem_of_fmap_2 (λ e, Z.to_nat (input_slot e))). by apply list_elem_of_filter.
  - intros i. destruct (decide (i ∈ view_nodes)) as [(p&->&Hp%ps_live)%list_elem_of_fmap|Hout]; [rewrite (view_slots_into p Hp); by apply slots_into_ok|].
    destruct (edges_into view_node view_nodes i) as [|e es] eqn:Ee; [constructor|]. destruct (view_dst i e) as [Ed (j&item&Hj&He)]; [rewrite Ee; by left|].
    destruct (item_edge _ _ _ Hj He) as (p&a&d&_&_&Ha&Ed'&_). destruct Hout. rewrite <- Ed, Ed'. apply list_elem_of_fmap_2, live_graph_nodes. by apply (arc_nodes _ _ _ _ Ha).
  - intros i item Hi Hm. destruct (view_item _ _ Hi) as (k&p&_&Hp&Hn&<-&Eit&_). rewrite Eit in *. cbn in *. rewrite <- view_slots_length, (merge_slots p Hp Hm), length_seq by done.
    split; [done|]. by apply (r_merge _ Hrun p).
  - intros i item Hi. destruct (view_item _ _ Hi) as (k&p&Hk&_&_&_&->&_). cbn. rewrite Etotal. pose proof (nth_inputs k p Hk). pose proof (count_inputs_total (S k)). lia.
  - intros i i' item item' j j' Hi Hi'. destruct (view_item _ _ Hi) as (k&p&Hk&_&_&<-&->&_). destruct (view_item _ _ Hi') as (k'&p'&Hk'&_&_&<-&->&_). cbn. intros Hj Hj' E.
    destruct (view_regions _ _ _ _ _ _ Hk Hk' Hj Hj' E) as [-> ->]. rewrite Hk in Hk'. by injection Hk' as ->.
  - intros i i' item item' Hi Hi'. destruct (view_item _ _ Hi) as (k&p&Hk&_&_&<-&->&_). destruct (view_item _ _ Hi') as (k'&p'&Hk'&_&_&<-&->&_). cbn. intros ->. rewrite Hk in Hk'. by injection Hk' as ->.
  - intros i item Hi. destruct (view_item _ _ Hi) as (k&p&Hk&Hp&_&<-&->&_). cbn [pending_id make_item]. rewrite Elim, list_lookup_fmap, Hk. cbn [fmap option_fmap option_map default].
    rewrite max_pending_counts, num_all_ins by done. cbn. lia.
Qed.

(** The nodes that start are those of [root_nodes_], in its order. *)
Lemma view_roots : root_nodes view_node view_nodes = root_nodes_ pr.
Proof.
  destruct pr_spec as (_&_&->&_). unfold root_nodes, view_nodes. symmetry. apply fmap_filter. intros p Hp%ps_live.
  rewrite no_edges, <- length_zero_iff_nil. pose proof (num_all_ins p Hp) as Hn. unfold view_nodes in Hn. lia.
Qed.

(** A graph without cycles has one. *)
Lemma some_root : ps ≠ [] → root_nodes_ pr ≠ [].
Proof.
  destruct pr_spec as (_&_&->&_). destruct (r_rank _ Hrun) as [rank Hrank].
  assert (Hdown : ∀ n p, (rank p < n)%nat → live_node g p → ∃ q, live_node g q ∧ ins q = []).
  { induction n as [|n IH]; intros p Hp Hl; [lia|]. destruct (ins p) as [|a l] eqn:Ei; [eauto|]. assert (Ha : a ∈ ins p) by (rewrite Ei; by left).
    apply ins_arc in Ha as [s Ha]; [|done]. apply (IH s); [apply Hrank in Ha; lia|by apply (arc_nodes _ _ _ _ Ha)]. }
  destruct ps as [|p l] eqn:Eps; [done|]. intros _. rewrite <- Eps. assert (Hp : live_node g p) by (apply live_graph_nodes; rewrite Eps; by left).
  destruct (Hdown (S (rank p)) p) as (q&Hq%live_graph_nodes&Hi); [lia|done|]. intros E%fmap_nil_inv.
  assert (Hx : q ∈ filter (λ p, ins p = []) ps) by (by apply list_elem_of_filter). rewrite E in Hx. by apply elem_of_nil in Hx.
Qed.

(** The counts that are written. *)
Lemma pending_fine garbage (Hl : limits_ok (limits pr)) : ∃ c, InitializePending g pr ps (new_PendingCounts (num_bytes (limits pr)) garbage) = Some c ∧
  @counts_ok _ (packed_counter (limits pr) Hl) view_node view_nodes c.
Proof.
  destruct pr_spec as (Elim&_&_&Hitems&_). destruct (pending_ok_all pr Hl ps _ ∅ (new_rep (limits pr) Hl garbage) ps_live) as (c&m&E&Hrep&Hm).
  { intros p [k Hk]%list_elem_of_lookup. destruct (Hitems k p Hk) as (es&_&Ei). exists (make_item (node_of p) (create_kernel (node_of p)).2 es (count_inputs (take k ps)) k).
    split; [exact Ei|]. cbn [pending_id make_item]. by rewrite Elim, list_lookup_fmap, Hk. }
  exists c. split; [exact E|]. exists m. split; [exact Hrep|]. intros i item Hi _. destruct (view_item _ _ Hi) as (k&p&Hk&Hp&_&Epid&Eit&_). rewrite Hm. rewrite decide_True.
  - rewrite Eit, <- Epid. unfold initial_count. cbn [pending_id make_item is_merge]. rewrite Elim, list_lookup_fmap, Hk. cbn [fmap option_fmap option_map default].
    rewrite max_pending_counts by done. done.
  - apply list_elem_of_omap. exists p. split; [by eapply list_elem_of_lookup_2|]. rewrite Epid. fold (view_node i). by rewrite Hi.
Qed.
End view.
