(* ===== verification/Executions.v ===== *)
(** * Executions of graphs

    [ExecutorImpl::Initialize] and [ExecutorImpl::RunAsync] of
    [tensorflow/core/common_runtime/executor.cc] together: a graph is prepared and a step
    runs on it, its threads taking turns in any order.  Here are the theorems on what such
    a step does, and a graph with a switch and a merge on which they are applied. *)
From S2P Require Import Prelude Status EdgeSet Graph GraphInvariant GraphOps PendingCounts DataTypes Activation Dataflow Executor ExecutorInvariant ExecutorRuns GraphView.
Local Open Scope Z_scope.

(** ** The preparation *)

Section preparation.
Context `{SL : StructLayout} (create_kernel : Node → Status * KernelInfo) (garbage : nat → Z) (g : Graph).

(** The kernels of all nodes are created. *)
Definition kernels_created : Prop := ∀ p, live_node g p → (create_kernel (node_of g p)).1 = StatusOK.

Context (Hwf : wf g) (Hrun : runnable g) (Hkernels : kernels_created) (Hsize : Z.of_nat sizeof_large <= 16).

Lemma Initialize_ok : ∃ pr c, Initialize create_kernel garbage g = Some (StatusOK, pr, c) ∧ limits_ok (limits pr) ∧
  init_nodes create_kernel g (graph_nodes g) (mkPrepared ∅ [] 0 []) = Some (StatusOK, pr).
Proof.
  destruct (init_nodes_ok g Hwf Hrun create_kernel Hkernels (graph_nodes g) (mkPrepared ∅ [] 0 [])) as (pr&E&_);
    [by apply ps_live|by apply ps_nodup|].
  assert (Hl : limits_ok (limits pr)) by (by eapply limits_fine).
  destruct (pending_fine g Hwf Hrun create_kernel Hkernels pr E garbage Hl) as (c&Ec&_).
  exists pr, c. split; [|done]. unfold Initialize. rewrite E. cbn [mbind option_bind ok negb]. by rewrite Ec.
Qed.

Lemma Initialize_prepared s pr c : Initialize create_kernel garbage g = Some (s, pr, c) → s = StatusOK →
  init_nodes create_kernel g (graph_nodes g) (mkPrepared ∅ [] 0 []) = Some (StatusOK, pr) ∧
  InitializePending g pr (graph_nodes g) (new_PendingCounts (num_bytes (limits pr)) garbage) = Some c.
Proof.
  unfold Initialize. destruct (init_nodes _ _ _ _) as [[s' pr']|]; [|done]. cbn [mbind option_bind].
  destruct (ok s') eqn:Es; cbn [negb]; [|by intros [= -> _ _] ->]. destruct (InitializePending _ _ _ _) as [c'|] eqn:Ec; [|done]. cbn [mbind option_bind]. intros [= -> -> ->] ->. done.
Qed.


(** C23: the preparation of a graph gives the executor what it needs: every node has an item;
    its out edges are those of the node in the graph, in their order, and just the last edge
    of each output is marked as the last use of it; the inputs of the nodes lie in disjoint
    places of the array of inputs; each pending count starts as the number of edges into the
    node, or of twice the control edges and one for a merge, and no dead input is counted; the
    nodes without in edges are those that start. *)
Theorem Initialize_correct : ∃ pr c, Initialize create_kernel garbage g = Some (StatusOK, pr, c) ∧
  root_nodes_ pr = pid g <$> filter (λ p, ins g p = []) (graph_nodes g) ∧
  (∀ i item, view_node pr i = Some item → ∃ p, live_node g p ∧ pid g p = i) ∧
  (∀ i i' item item' k k', view_node pr i = Some item → view_node pr i' = Some item' → (k < num_inputs item)%nat → (k' < num_inputs item')%nat →
    (input_start item + k < total_inputs pr)%nat ∧ (input_start item + k = input_start item' + k' → i = i' ∧ k = k')%nat) ∧
  ∀ p, live_node g p → ∃ item h, view_node pr (pid g p) = Some item ∧
    strip <$> output_edges item = info_of g <$> outs g p ∧ last_ok (output_edges item) ∧ num_inputs item = node_num_inputs (node_of g p) ∧
    (IsSink (node_of g p) = false → handles (limits pr) !! pending_id item = Some h ∧ dead_count h c = Some 0 ∧
      pending h c = Some (if IsMerge (node_of g p) then 1 + 2 * Z.of_nat (length (filter (λ e, control_edge g e = true) (ins g p))) else Z.of_nat (length (ins g p)))).
Proof.
  destruct Initialize_ok as (pr&c&Ei&Hl&Ep). destruct (Initialize_prepared _ _ _ Ei eq_refl) as [_ Ec]. exists pr, c. split; [done|].
  pose proof (view_fine g Hwf Hrun create_kernel Hkernels pr Ep) as Hv. destruct (pr_spec g Hwf Hrun create_kernel Hkernels pr Ep) as (Elim&_&Hroots&_).
  split; [done|]. split_and!.
  - intros i item Hi. destruct (view_item g Hwf Hrun create_kernel Hkernels pr Ep _ _ Hi) as (k&p&_&Hp&_&E&_). eauto.
  - intros i i' item item' k k' Hi Hi' Hk Hk'. pose proof (v_total _ _ _ _ Hv _ _ Hi). split; [lia|]. by eapply (v_regions _ _ _ _ Hv).
  - intros p Hp. destruct (node_item g Hwf Hrun create_kernel Hkernels pr Ep p Hp) as [item Hi]. 
    destruct (view_item g Hwf Hrun create_kernel Hkernels pr Ep _ _ Hi) as (k&q&Hk&Hq&_&Eq&Eit&Hs&Hlast). apply pid_inj in Eq as ->; [|done..].
    assert (El : limits pr !! pending_id item = Some (GetMaxPendingCounts g (node_of g p))) by (rewrite Eit, Elim, list_lookup_fmap; cbn [pending_id make_item]; by rewrite Hk).
    destruct (handle_limit (limits pr) Hl _ _ El) as [h Hh]. exists item, h. split_and!; [done|done|done|by rewrite Eit|]. intros Hns. split; [done|].
    destruct (pending_fine g Hwf Hrun create_kernel Hkernels pr Ep garbage Hl) as (c'&Ec'&(m&Hrep&Hm)). rewrite Ec in Ec'. injection Ec' as <-.
    specialize (Hm _ _ Hi). rewrite Eit in Hm at 1. specialize (Hm Hns).
    pose proof (nc_dead_law (NodeCounter := packed_counter (limits pr) Hl) _ _ _ _ Hrep Hm) as Hd. pose proof (nc_pending_law (NodeCounter := packed_counter (limits pr) Hl) _ _ _ _ Hrep Hm) as Hpe.
    cbn in Hd, Hpe. rewrite Hh in Hd, Hpe. cbn in Hd, Hpe. split; [exact Hd|]. rewrite Hpe.
    cbn [n_pending initial_count waiting].
    rewrite <- (num_control_ins g Hwf Hrun create_kernel Hkernels pr Ep p Hp), <- (num_all_ins g Hwf Hrun create_kernel Hkernels pr Ep p Hp). by rewrite Eit.
Qed.
End preparation.

(** ** The run *)

Section executions.
Context `{SL : StructLayout} {T : Type} (moved kEmptyTensor : T) (dtype : T → Z).
Context (kernel : nat → list (option T) → bool → KernelResult T).
Context (sync_on_finish : bool) (device_sync : Status).
Context (create_kernel : Node → Status * KernelInfo) (garbage : nat → Z) (g : Graph).

(** The graph was prepared, a step started on it, and its threads took the turns of
    [schedule]. *)
Definition executes (schedule : list nat) (pr : Prepared) (sys : @System T PendingCounts) : Prop :=
  ∃ c (Hl : limits_ok (limits pr)) sys0,
    Initialize create_kernel garbage g = Some (StatusOK, pr, c) ∧
    RunAsync (view_node pr) StatusOK (root_nodes_ pr) (new_ExecutorState (total_inputs pr) c) = Some sys0 ∧
    run (NC := packed_counter (limits pr) Hl) moved kEmptyTensor dtype (view_node pr) kernel sync_on_finish device_sync schedule sys0 = Some sys.

Context (Hwf : wf g) (Hrun : runnable g) (Hkernels : kernels_created create_kernel g) (Hnodes : graph_nodes g ≠ []) (Hsize : Z.of_nat sizeof_large <= 16).

(** The step is started, and what holds in it. *)
Lemma step_started pr c (Hl : limits_ok (limits pr)) : Initialize create_kernel garbage g = Some (StatusOK, pr, c) →
  view_ok (view_node pr) (view_nodes g) (total_inputs pr) (@max_dead _ (packed_counter (limits pr) Hl)) ∧
  ∃ sys0, RunAsync (view_node pr) StatusOK (root_nodes_ pr) (new_ExecutorState (total_inputs pr) c) = Some sys0 ∧
    ∀ schedule sys,
      run (NC := packed_counter (limits pr) Hl) moved kEmptyTensor dtype (view_node pr) kernel sync_on_finish device_sync schedule sys0 = Some sys →
      sys_ok (NC := packed_counter (limits pr) Hl) kEmptyTensor dtype (view_node pr) (view_nodes g) (total_inputs pr) kernel sync_on_finish device_sync sys ∧
      (length schedule ≤ 10 * length (graph_nodes g))%nat.
Proof.
  intros Ei. destruct (Initialize_prepared _ _ _ _ _ _ Ei eq_refl) as [Ep Ec].
  assert (Hv : view_ok (view_node pr) (view_nodes g) (total_inputs pr) (@max_dead _ (packed_counter (limits pr) Hl))) by (by eapply view_fine).
  split; [done|]. destruct (pending_fine g Hwf Hrun create_kernel Hkernels pr Ep garbage Hl) as (c'&Ec'&Hc). rewrite Ec in Ec'. injection Ec' as <-.
  pose proof (some_root g Hwf Hrun create_kernel Hkernels pr Ep Hnodes) as Hne. rewrite <- (view_roots g Hwf Hrun create_kernel Hkernels pr Ep) in *.
  destruct (started moved kEmptyTensor dtype _ _ _ kernel sync_on_finish device_sync Hv c Hc Hne) as (sys0&E&Hall). exists sys0. split; [done|].
  intros schedule sys Hr. destruct (Hall _ _ Hr) as [HI Hlen]. unfold view_nodes in Hlen. by rewrite length_fmap in Hlen.
Qed.

Lemma executes_ok schedule pr sys : executes schedule pr sys → ∃ c (Hl : limits_ok (limits pr)) sys0,
  Initialize create_kernel garbage g = Some (StatusOK, pr, c) ∧
  RunAsync (view_node pr) StatusOK (root_nodes_ pr) (new_ExecutorState (total_inputs pr) c) = Some sys0 ∧
  run (NC := packed_counter (limits pr) Hl) moved kEmptyTensor dtype (view_node pr) kernel sync_on_finish device_sync schedule sys0 = Some sys ∧
  view_ok (view_node pr) (view_nodes g) (total_inputs pr) (@max_dead _ (packed_counter (limits pr) Hl)) ∧
  sys_ok (NC := packed_counter (limits pr) Hl) kEmptyTensor dtype (view_node pr) (view_nodes g) (total_inputs pr) kernel sync_on_finish device_sync sys ∧
  (length schedule ≤ 10 * length (graph_nodes g))%nat.
Proof.
  intros (c&Hl&sys0&Ei&Er&E). destruct (step_started pr c Hl Ei) as (Hv&sys1&E1&Hall). rewrite Er in E1. injection E1 as <-.
  destruct (Hall _ _ E) as [HI Hlen]. exists c, Hl, sys0. done.
Qed.

(** ** Progress *)

Lemma run_snoc `{NodeCounter C} node schedule t sys sys' :
  run moved kEmptyTensor dtype node kernel sync_on_finish device_sync schedule sys = Some sys' →
  run moved kEmptyTensor dtype node kernel sync_on_finish device_sync (schedule ++ [t]) sys =
  step moved kEmptyTensor dtype node kernel sync_on_finish device_sync t sys'.
Proof.
  revert sys. induction schedule as [|u schedule IH]; intros sys; cbn [app run]; [intros [= ->]; by destruct (step _ _ _ _ _ _ _ _ _)|].
  destruct (step _ _ _ _ _ _ _ u sys) as [sys1|]; [|done]. cbn [mbind option_bind]. apply IH.
Qed.

Lemma executes_step schedule pr sys t : executes schedule pr sys → (t < length (threads sys))%nat → ∃ sys', executes (schedule ++ [t]) pr sys'.
Proof.
  intros HE Ht. destruct (executes_ok _ _ _ HE) as (c&Hl&sys0&Ei&Er&E&Hv&HI&_).
  destruct (step_ok moved kEmptyTensor dtype _ _ _ kernel sync_on_finish device_sync Hv sys t HI Ht) as (sys'&Es&_).
  exists sys', c, Hl, sys0. split_and!; [done..|]. by rewrite (run_snoc _ _ _ _ _ E).
Qed.

Lemma executes_on n : ∀ schedule pr sys, (10 * length (graph_nodes g) < length schedule + n)%nat → executes schedule pr sys →
  ∃ more sys', executes (schedule ++ more) pr sys' ∧ threads sys' = [].
Proof.
  induction n as [|n IH]; intros schedule pr sys Hn HE; [destruct (executes_ok _ _ _ HE) as (_&_&_&_&_&_&_&_&?); lia|].
  destruct (threads sys) as [|th ths] eqn:Et; [exists [], sys; by rewrite app_nil_r|].
  destruct (executes_step _ _ _ 0%nat HE) as [sys1 HE1]; [rewrite Et; cbn; lia|].
  destruct (IH (schedule ++ [0%nat]) pr sys1) as (more&sys'&HE'&Ht); [rewrite length_app; cbn; lia|exact HE1|]. exists (0%nat :: more), sys'. by rewrite <- (assoc app) in HE'.
Qed.

(** C21: a step of a graph without cycles ends under every schedule of its threads: it is
    started; no thread is ever stuck, so none uses a frame or an executor state that is
    deleted, or a place outside of an array; a schedule has at most ten turns for each
    node; it can always be continued until no thread is left, and then the state is
    deleted.  [done_cb_] is called when the state is deleted, once. *)
Theorem executor_terminates :
  (∃ pr sys, executes [] pr sys) ∧
  ∀ schedule pr sys, executes schedule pr sys →
    (length schedule ≤ 10 * length (graph_nodes g))%nat ∧
    (∀ t, (t < length (threads sys))%nat → ∃ sys', executes (schedule ++ [t]) pr sys') ∧
    (∃ more sys', executes (schedule ++ more) pr sys' ∧ threads sys' = []) ∧
    done_calls (state sys) = (if deleted (state sys) then [final_status sync_on_finish device_sync (status_ (state sys))] else []) ∧
    (threads sys = [] → deleted (state sys) = true).
Proof.
  split.
  - destruct (Initialize_ok create_kernel garbage g Hwf Hrun Hkernels Hsize) as (pr&c&Ei&Hl&_). destruct (step_started pr c Hl Ei) as (_&sys0&E0&_). by exists pr, sys0, c, Hl, sys0.
  - intros schedule pr sys HE. destruct (executes_ok _ _ _ HE) as (c&Hl&sys0&_&_&_&Hv&HI&Hlen). split_and!; [done| | |apply HI|].
    + intros t Ht. by eapply executes_step.
    + eapply (executes_on (S (10 * length (graph_nodes g)))); [lia|exact HE].
    + intros Ht. by eapply finished.
Qed.

(** ** Results *)

(** C20: a step computes what the graph means.  Under every schedule, the nodes whose outputs
    were propagated are an evaluation of the graph: each ran at most once, when all of its
    inputs had arrived (a merge: all control inputs and one live input, or all inputs), on
    the values and the deadness that its input edges carry.  Each kernel was called at most
    once, and with these values.  Without an error nothing is aborted, and at the end every
    node has run; with an error, the abort is made once and with the status of a node that
    failed, which is the status of the step. *)
Theorem executor_refines_dataflow schedule pr sys : executes schedule pr sys →
  evaluation (view_node pr) (view_nodes g) (outcome kEmptyTensor dtype (view_node pr) kernel) (log (trace sys)) ∧
  NoDup (call_node <$> calls (trace sys)) ∧
  (∀ c, c ∈ calls (trace sys) → call_ok kEmptyTensor (view_node pr) (sent (view_node pr) (log (trace sys))) c) ∧
  if ok (status_ (state sys)) then
    aborts (state sys) = [] ∧
    (threads sys = [] → ∀ p, live_node g p → IsSink (node_of g p) = false → pid g p ∈ ev_node <$> log (trace sys))
  else
    aborts (state sys) = [status_ (state sys)] ∧
    error_of kEmptyTensor dtype (view_node pr) kernel (sent (view_node pr) (log (trace sys))) (failed (trace sys)) (status_ (state sys)).
Proof.
  intros HE. destruct (executes_ok _ _ _ HE) as (c&Hl&sys0&Ei&_&_&Hv&HI&_). pose proof HI as HI'. destruct HI' as [I1 _ _ _ _ _ _ _ _ _ I11 I12 I13].
  split_and!; [done|done|by intros call [_ ?]%I13|]. destruct (ok (status_ (state sys))) eqn:Es; [|done]. split; [apply I11|].
  intros Ht p Hp Hs. destruct (finished _ _ _ _ _ _ _ _ _ HI Ht) as [_ Hc]. destruct (Hc ltac:(by apply ok_iff)) as [Hcomp _].
  destruct (Initialize_prepared _ _ _ _ _ _ Ei eq_refl) as [Ep _]. pose proof (evaluation_nodes _ _ _ _ _ Hv _ I1) as [Hnd Hin].
  destruct (node_item g Hwf Hrun create_kernel Hkernels pr Ep p Hp) as [item Hi]. eapply (complete_all _ _ (outcome kEmptyTensor dtype (view_node pr) kernel) _ _ Hv); try done.
  destruct (view_item g Hwf Hrun create_kernel Hkernels pr Ep _ _ Hi) as (k&q&_&Hq&_&Eq&->&_). apply pid_inj in Eq as ->; done.
Qed.

End executions.

(** ** Schedules do not matter *)

Section schedules.
Context `{SL : StructLayout} {T : Type} (moved kEmptyTensor : T) (dtype : T → Z).
Context (kernel kernel' : nat → list (option T) → bool → KernelResult T).
Context (sync_on_finish : bool) (device_sync : Status).
Context (create_kernel : Node → Status * KernelInfo) (garbage : nat → Z) (g : Graph).

(** Two steps in which the kernels do the same: called with what its node was given in the
    one, a kernel leaves the same in the other.  Kernels that are functions of their inputs
    do; one that draws a random number, keeps a state or receives need not. *)
Definition same_results (pr : Prepared) (log : list (@Event T)) : Prop :=
  ∀ ev item inputs is_input_dead after, ev ∈ log → view_node pr (ev_node ev) = Some item →
    PrepareInputs kEmptyTensor item 0 (given (sent (view_node pr) log) (ev_node ev) item) = (StatusOK, inputs, is_input_dead, after) →
    kernel' (ev_node ev) inputs is_input_dead = kernel (ev_node ev) inputs is_input_dead.

Lemma results_outcomes pr log : same_results pr log →
  same_outcomes (view_node pr) (outcome kEmptyTensor dtype (view_node pr) kernel) (outcome kEmptyTensor dtype (view_node pr) kernel') log.
Proof.
  intros Hsame ev item Hev Hi. unfold outcome. rewrite Hi. destruct (ev_dead ev && _); [done|].
  specialize (Hsame ev item). unfold given in Hsame. destruct (PrepareInputs _ _ _ _) as [[[s inputs] dead] after]. destruct (ok s) eqn:Es; [|done].
  apply ok_iff in Es as ->. cbn [negb]. by rewrite (Hsame inputs dead after).
Qed.

Context (Hwf : wf g) (Hrun : runnable g) (Hkernels : kernels_created create_kernel g) (Hnodes : graph_nodes g ≠ []).

#[local] Abbreviation executes := (λ kernel, executes moved kEmptyTensor dtype kernel sync_on_finish device_sync create_kernel garbage g).

(** C22: the schedule does not matter.  Two steps of a graph that end without an error have
    propagated the same outputs of the same nodes, if in both the kernels do the same on
    the inputs that their nodes were given in the first, and no merge had two live
    inputs. *)
Theorem executor_deterministic schedule schedule' pr pr' sys sys' :
  executes kernel schedule pr sys → executes kernel' schedule' pr' sys' → threads sys = [] → threads sys' = [] →
  ok (status_ (state sys)) = true → ok (status_ (state sys')) = true →
  same_results pr (log (trace sys)) →
  single_live (view_node pr) (sent (view_node pr) (log (trace sys))) →
  pr = pr' ∧ log (trace sys) ≡ₚ log (trace sys').
Proof.
  intros HE HE' Ht Ht' Hs Hs' Hsame Hone. assert (Epr : pr = pr').
  { destruct HE as (c&_&_&Ei&_), HE' as (c'&_&_&Ei'&_). rewrite Ei in Ei'. by injection Ei'. }
  subst pr'. split; [done|].
  destruct (executes_ok _ _ _ _ _ _ _ _ _ Hwf Hrun Hkernels Hnodes _ _ _ HE) as (c&Hl&sys0&_&_&_&Hv&HI&_).
  destruct (executes_ok _ _ _ _ _ _ _ _ _ Hwf Hrun Hkernels Hnodes _ _ _ HE') as (c'&Hl'&sys0'&_&_&_&_&HI'&_).
  destruct (finished _ _ _ _ _ _ _ _ _ HI Ht) as [_ Hf]. destruct (finished _ _ _ _ _ _ _ _ _ HI' Ht') as [_ Hf'].
  eapply (evaluations_agree _ _ _ _ _ Hv); [|apply HI'|by apply Hf, ok_iff|by apply Hf', ok_iff|done].
  eapply evaluation_same; [exact Hv|apply HI|by apply results_outcomes].
Qed.
End schedules.

(** ** A concrete step *)

(** A switch sends [x] to [f] or to [t], after the predicate [p], and a merge takes what
    comes. *)
Definition switch_types (op : string) : list Z * list Z :=
  if bool_decide (op = "NoOp") then ([], [])
  else if bool_decide (op = "Const") then ([], [DT_INT32])
  else if bool_decide (op = "Switch") then ([DT_INT32; DT_INT32], [DT_INT32; DT_INT32])
  else if bool_decide (op = "Merge") then ([DT_INT32; DT_INT32], [DT_INT32; DT_INT32])
  else ([DT_INT32], [DT_INT32]).

Definition switch_registry : OpRegistry :=
  Build_OpRegistry (λ op, (StatusOK, String.length op)) (λ def _, (StatusOK, switch_types (nd_op def))) (λ st _, st).

Definition switch_build : list GraphOp :=
  [OAddNode (mkNodeDef "x" "Const" [] ""); OAddNode (mkNodeDef "p" "Const" [] "");
   OAddNode (mkNodeDef "s" "Switch" ["x"; "p"] ""); OAddNode (mkNodeDef "f" "Neg" ["s"] "");
   OAddNode (mkNodeDef "t" "Neg" ["s:1"] ""); OAddNode (mkNodeDef "m" "Merge" ["f"; "t"] "");
   OAddControlEdge 0 2 false; OAddControlEdge 0 3 false; OAddEdge 2 0 4 0; OAddEdge 3 0 4 1;
   OAddEdge 4 0 5 0; OAddEdge 4 1 6 0; OAddEdge 5 0 7 0; OAddEdge 6 0 7 1; OAddControlEdge 7 1 false]%string.

Definition switch_graph : Graph :=
  default (mkGraph ∅ ∅ 0 [] 0 [] 0 [] [] 0 [] ∅)
    (g0 ← @new_Graph switch_registry; snd <$> @exec_ops switch_registry (λ _, "")%string (λ _, "")%string switch_build g0).

Lemma switch_graph_wf : wf switch_graph.
Proof.
  destruct (@new_Graph_ok switch_registry 4) as (g0&E0&Hw0&Habs0); [reflexivity | intros def Hd; cbn; unfold switch_types; by rewrite bool_decide_true|].
  destruct (@ops_simulation switch_registry (λ _, "")%string (λ _, "")%string switch_build g0 (replicate 15 true)
    (default (mkSpec [] []) (snd <$> @GraphOps.spec_ops switch_registry switch_build (spec_new 4))) Hw0) as (g&E&Hw&_).
  { rewrite Habs0. vm_compute. reflexivity. }
  assert (switch_graph = g) as ->; [|done]. unfold switch_graph. rewrite E0. cbn [mbind option_bind]. by rewrite E.
Qed.

(** ** Checking that a graph can be run *)

(** The live edges, with their nodes. *)
Definition arcs (g : Graph) : list (nat * Edge * nat * nat) :=
  omap (λ e, E ← edge_heap g !! e; s ← src_ E; d ← dst_ E; Some (e, E, s, d)) (omap id (edges_ g)).

Lemma arcs_spec g e E s d : arc g e E s d ↔ (e, E, s, d) ∈ arcs g.
Proof.
  unfold arcs. rewrite list_elem_of_omap. split.
  - intros ([i Hi]&HE&Hs&Hd). exists e. split; [apply list_elem_of_omap; exists (Some e); split; [by eapply list_elem_of_lookup_2|done]|].
    rewrite HE. cbn. by rewrite Hs, Hd.
  - intros (e'&([e1|]&Hin&[= ->])%list_elem_of_omap&E1). apply list_elem_of_lookup in Hin as [i Hi].
    destruct (edge_heap g !! e') as [E'|] eqn:HE; [|done]. cbn in E1. destruct (src_ E') as [s'|] eqn:Hs; [|done]. cbn in E1. destruct (dst_ E') as [d'|] eqn:Hd; [|done].
    injection E1 as -> -> -> ->. split_and!; try done. by exists i.
Qed.

Definition check_arc (rank : nat → nat) (g : Graph) (a : nat * Edge * nat * nat) : bool :=
  let '(_, E, s, d) := a in
  (rank s <? rank d)%nat && (src_output_ E <=? 0x3FFFFFFF) && negb (IsSink (node_of g s)) &&
  (IsControlEdge E || (0 <=? src_output_ E) && (src_output_ E <? Z.of_nat (node_num_outputs (node_of g s))) &&
    (0 <=? dst_input_ E) && (dst_input_ E <? Z.of_nat (node_num_inputs (node_of g d)))).

Definition check_slots (a a' : nat * Edge * nat * nat) : bool :=
  let '(e, E, _, d) := a in
  let '(e', E', _, d') := a' in
  IsControlEdge E || IsControlEdge E' || negb (d =? d')%nat || negb (dst_input_ E =? dst_input_ E') || (e =? e')%nat.

Definition check_node (g : Graph) (p : nat) : bool :=
  let n := node_of g p in
  negb (IsEnter n) && negb (IsExit n) && negb (IsNextIteration n) &&
  (negb (IsMerge n) || (0 <? node_num_inputs n)%nat &&
    forallb (λ i, existsb (λ a, negb (IsControlEdge a.1.1.2) && (dst_input_ a.1.1.2 =? Z.of_nat i) && (a.2 =? p)%nat) (arcs g)) (seq 0 (node_num_inputs n))).

Definition check_runnable (rank : nat → nat) (g : Graph) : bool :=
  forallb (check_arc rank g) (arcs g) && forallb (λ a, forallb (check_slots a) (arcs g)) (arcs g) && forallb (check_node g) (graph_nodes g) &&
  (Z.of_nat (length (nodes_ g)) <=? 2 ^ 25) && (Z.of_nat (length (edges_ g)) <? 2 ^ 29).

Lemma check_runnable_ok rank g : check_runnable rank g = true → runnable g.
Proof.
  unfold check_runnable. rewrite !andb_true_iff. intros [[[[H1 H2] H3] H4%Z.leb_le] H5%Z.ltb_lt]. rewrite forallb_forall in H1, H2, H3.
  assert (Ha : ∀ e E s d, arc g e E s d → check_arc rank g (e, E, s, d) = true) by (intros e E s d Ha%arcs_spec%list_elem_of_In; by apply H1).
  assert (Hn : ∀ p n, live_node g p → node_heap g !! p = Some n → node_of g p = n ∧ check_node g p = true).
  { intros p n Hp%live_graph_nodes%list_elem_of_In Hn. split; [unfold node_of; by rewrite Hn|by apply H3]. }
  assert (Hof : ∀ p n, node_heap g !! p = Some n → node_of g p = n) by (intros p n Hp; unfold node_of; by rewrite Hp).
  constructor.
  - exists rank. intros e E s d Hx%Ha. unfold check_arc in Hx; cbv beta iota in Hx. rewrite !andb_true_iff in Hx. destruct Hx as [[[Hx _] _] _]. by apply Nat.ltb_lt.
  - intros e E s d n Hx%Ha Hs Hc. unfold check_arc in Hx; cbv beta iota in Hx. rewrite Hc, (Hof _ _ Hs) in Hx. lia.
  - intros e E s d Hx%Ha. unfold check_arc in Hx; cbv beta iota in Hx. lia.
  - intros e E s d n Hx%Ha Hs Hc. unfold check_arc in Hx; cbv beta iota in Hx. rewrite Hc, (Hof _ _ Hs) in Hx. lia.
  - intros e e' E E' s s' d Hx%arcs_spec%list_elem_of_In Hy%arcs_spec%list_elem_of_In Hc Hc' Hi. pose proof (H2 _ Hx) as H. rewrite forallb_forall in H.
    apply H in Hy. unfold check_slots in Hy; cbv beta iota in Hy. rewrite Hc, Hc', Hi, Nat.eqb_refl, Z.eqb_refl in Hy. by apply Nat.eqb_eq.
  - intros d n Hl Hd Hm. destruct (Hn _ _ Hl Hd) as [<- Hx]. unfold check_node in Hx. rewrite Hm in Hx. cbn [negb orb] in Hx. rewrite !andb_true_iff, forallb_forall in Hx.
    destruct Hx as [_ [Hpos Hall]]. split; [by apply Nat.ltb_lt|]. intros i Hi. specialize (Hall i). rewrite in_seq, existsb_exists in Hall.
    destruct Hall as ([[[e E] s] d']&Hin%list_elem_of_In&Hb); [lia|]. cbn [fst snd] in Hb. rewrite !andb_true_iff, negb_true_iff in Hb. destruct Hb as [[Hc Hs%Z.eqb_eq] ->%Nat.eqb_eq].
    exists e, E, s. split; [by apply arcs_spec|done].
  - intros d n Hl Hd. destruct (Hn _ _ Hl Hd) as [<- Hx]. unfold check_node in Hx. rewrite !andb_true_iff, !negb_true_iff in Hx. tauto.
  - intros e E s d n Hx%Ha Hs. unfold check_arc in Hx; cbv beta iota in Hx. rewrite (Hof _ _ Hs) in Hx. by destruct (IsSink n); rewrite ?andb_false_r in Hx.
  - done.
Qed.

Lemma switch_graph_runnable : runnable switch_graph.
Proof. apply (check_runnable_ok (λ p, if (p =? 1)%nat then 10%nat else p)). vm_compute. reflexivity. Qed.

(** Tensors are numbers. *)
Definition switch_kernel (n : nat) (inputs : list (option Z)) (_ : bool) : KernelResult Z :=
  @mkResult Z StatusOK
    match n, inputs with
    | 2%nat, _ => [Some 42]
    | 3%nat, _ => [Some 1]
    | 4%nat, [Some x; Some p] => if p =? 0 then [Some x; None] else [None; Some x]
    | 5%nat, [Some x] | 6%nat, [Some x] => [Some (- x)]
    | 7%nat, [Some x; _] => [Some x; Some 0]
    | 7%nat, [None; Some x] => [Some x; Some 1]
    | _, _ => []
    end false.

Definition switch_kernels (n : Node) : Status * KernelInfo := (StatusOK, mkKernel (id_ n =? 2) (id_ n =? 6) "" "").

Definition switch_executes := executes (SL := itanium) 0 0 (λ _ : Z, DT_INT32) switch_kernel false StatusOK switch_kernels (λ i, Z.of_nat i) switch_graph.

Definition switch_prepared : Prepared * PendingCounts :=
  from_option (λ r, (r.1.2, r.2)) (mkPrepared ∅ [] 0 [], []) (Initialize switch_kernels (λ i, Z.of_nat i) switch_graph).

Lemma switch_limits_ok : limits_ok (limits switch_prepared.1).
Proof.
  assert (limits switch_prepared.1 = [(0, 0); (2, 2); (1, 1); (1, 1); (2, 2); (1, 1); (1, 1); (1, 2)]) as -> by (vm_compute; reflexivity).
  split; [repeat constructor; cbn; lia | cbn; lia].
Qed.

Definition switch_run (schedule : list nat) : option (@System Z PendingCounts) :=
  let pr := switch_prepared.1 in
  sys ← RunAsync (view_node pr) StatusOK (root_nodes_ pr) (new_ExecutorState (total_inputs pr) switch_prepared.2);
  run (NC := packed_counter (limits pr) switch_limits_ok) 0 0 (λ _ : Z, DT_INT32) (view_node pr) switch_kernel false StatusOK schedule sys.

(** Two orders of the turns: always the first thread, and always the last. *)
Definition first_first : list nat := replicate 27 0%nat.
Definition last_first : list nat := [0; 0; 0; 1; 1; 1; 1; 1; 1; 1; 0; 0; 0; 0; 0; 0; 0; 1; 1; 0; 0; 1; 1; 0; 0; 0; 0]%nat.

Definition switch_end (schedule : list nat) : @System Z PendingCounts :=
  default (mkSystem (mkState None 0 StatusOK [] false []) (mkTrace [] [] []) []) (switch_run schedule).

Lemma switch_initialized : Initialize switch_kernels (λ i, Z.of_nat i) switch_graph = Some (StatusOK, switch_prepared.1, switch_prepared.2).
Proof. vm_compute. reflexivity. Qed.

Lemma switch_executed schedule : bool_decide (is_Some (switch_run schedule)) = true → switch_executes schedule switch_prepared.1 (switch_end schedule).
Proof.
  intros [sys E]%bool_decide_eq_true. unfold switch_end. rewrite E. cbn [default]. unfold switch_run in E.
  destruct (RunAsync _ _ _ _) as [sys0|] eqn:E0; [|done]. cbn [mbind option_bind] in E.
  exists switch_prepared.2, switch_limits_ok, sys0. split_and!; [apply switch_initialized|done|done].
Qed.

Lemma first_executed : switch_executes first_first switch_prepared.1 (switch_end first_first).
Proof. apply switch_executed. vm_compute. reflexivity. Qed.

Lemma last_executed : switch_executes last_first switch_prepared.1 (switch_end last_first).
Proof. apply switch_executed. vm_compute. reflexivity. Qed.

Lemma switch_ends : threads (switch_end first_first) = [] ∧ threads (switch_end last_first) = [] ∧
  ok (status_ (state (switch_end first_first))) = true ∧ ok (status_ (state (switch_end last_first))) = true.
Proof. vm_compute. done. Qed.

Lemma switch_log : log (trace (switch_end first_first)) =
  [mkEvent 0 false []; mkEvent 3 false [Some 1]; mkEvent 2 false [Some 42]; mkEvent 4 false [None; Some 42]; mkEvent 5 true [None];
   mkEvent 6 false [Some (-42)]; mkEvent 7 false [Some (-42); Some 1]].
Proof. vm_compute. reflexivity. Qed.

Lemma switch_created : kernels_created switch_kernels switch_graph.
Proof. by intros p _. Qed.

Lemma switch_nodes : graph_nodes switch_graph ≠ [].
Proof. vm_compute. done. Qed.

Lemma executor_terminates_witness : ∃ pr sys more sys', switch_executes [] pr sys ∧ switch_executes more pr sys' ∧
  threads sys' = [] ∧ deleted (state sys') = true.
Proof.
  destruct (@executor_terminates itanium Z 0 0 (λ _, DT_INT32) switch_kernel false StatusOK switch_kernels (λ i, Z.of_nat i) switch_graph
    switch_graph_wf switch_graph_runnable switch_created switch_nodes ltac:(cbn; lia)) as ((pr&sys&H0)&Hall).
  destruct (Hall _ _ _ H0) as (_&_&(more&sys'&H1&Ht)&_). exists pr, sys, more, sys'. split_and!; [exact H0|exact H1|exact Ht|].
  destruct (Hall _ _ _ H1) as (_&_&_&_&Hd). by apply Hd.
Defined.

Lemma executor_refines_dataflow_witness : ∃ sys, switch_executes first_first switch_prepared.1 sys ∧
  evaluation (view_node switch_prepared.1) (view_nodes switch_graph) (outcome 0 (λ _ : Z, DT_INT32) (view_node switch_prepared.1) switch_kernel) (log (trace sys)) ∧
  log (trace sys) = [mkEvent 0 false []; mkEvent 3 false [Some 1]; mkEvent 2 false [Some 42]; mkEvent 4 false [None; Some 42]; mkEvent 5 true [None];
    mkEvent 6 false [Some (-42)]; mkEvent 7 false [Some (-42); Some 1]].
Proof.
  exists (switch_end first_first). split; [exact first_executed|]. split; [|exact switch_log].
  destruct (@executor_refines_dataflow itanium Z 0 0 (λ _, DT_INT32) switch_kernel false StatusOK switch_kernels (λ i, Z.of_nat i) switch_graph
    switch_graph_wf switch_graph_runnable switch_created switch_nodes first_first _ _ first_executed) as [He _]. exact He.
Defined.

Lemma switch_single : single_live (view_node switch_prepared.1) (sent (view_node switch_prepared.1) (log (trace (switch_end first_first)))).
Proof.
  intros d it Hd Hm. assert (Hc : forallb (λ d, (count a_live (arrived_at d (sent (view_node switch_prepared.1) (log (trace (switch_end first_first))))) <=? 1)%nat
    || bool_decide (is_merge <$> view_node switch_prepared.1 d ≠ Some true)) (seq 0 8) = true) by (vm_compute; reflexivity).
  rewrite forallb_forall in Hc. destruct (decide (d < 8)%nat) as [Hlt|Hge].
  - specialize (Hc d). rewrite in_seq in Hc. specialize (Hc ltac:(lia)). apply orb_true_iff in Hc as [Hc%Nat.leb_le|Hc%bool_decide_eq_true]; [done|]. rewrite Hd in Hc. cbn in Hc. congruence.
  - exfalso. apply Hge. assert (Hk : set_Forall (λ k, (k < 8)%nat) (dom (items switch_prepared.1))) by (apply (bool_decide_eq_true_1 _); vm_compute; done).
    apply Hk, elem_of_dom. by exists it.
Qed.

Lemma executor_deterministic_witness : log (trace (switch_end first_first)) ≡ₚ log (trace (switch_end last_first)).
Proof.
  destruct switch_ends as (H1&H2&H3&H4).
  refine (proj2 (@executor_deterministic itanium Z 0 0 (λ _, DT_INT32) switch_kernel switch_kernel false StatusOK switch_kernels (λ i, Z.of_nat i) switch_graph
    switch_graph_wf switch_graph_runnable switch_created switch_nodes first_first last_first _ _ _ _ first_executed last_executed H1 H2 H3 H4 _ switch_single)).
  intros ev item inputs dead after _ _ _. reflexivity.
Defined.

Lemma Initialize_correct_witness : ∃ pr c, Initialize switch_kernels (λ i, Z.of_nat i) switch_graph = Some (StatusOK, pr, c) ∧ root_nodes_ pr = [0%nat] ∧
  ∃ item, view_node pr 4%nat = Some item ∧ last_ok (output_edges item) ∧ (num_inputs item = 2)%nat.
Proof.
  destruct (@Initialize_correct itanium switch_kernels (λ i, Z.of_nat i) switch_graph switch_graph_wf switch_graph_runnable switch_created ltac:(cbn; lia))
    as (pr&c&E&Hr&_&_&Hall). exists pr, c. split; [exact E|]. split; [rewrite Hr; vm_compute; reflexivity|].
  destruct (Hall 5%nat) as (item&h&Hi&_&Hlast&Hn&_); [exists 4%nat; vm_compute; reflexivity|].
  assert (pid switch_graph 5 = 4%nat ∧ node_num_inputs (node_of switch_graph 5) = 2%nat) as [Hp Hi2] by (split; vm_compute; reflexivity).
  rewrite Hp in Hi. rewrite Hi2 in Hn. exists item. split; [exact Hi|]. split; [exact Hlast|exact Hn].
Defined.
